(* ===== verification/_CoqProject ===== *)
-Q . S2P
Prelude.v
Serdes.v
Strconv.v
XrplNumber.v
XrplRound.v
XrplArith.v
Amount.v
AmountRound.v
AmountSpec.v
FeeTrack.v
TxqFee.v
TxqQueue.v
TxqAccept.v
TxqApply.v
TxqFork.v
LedgerTrie.v
Sha512.v
ShaMapKey.v
ShaMapNode.v
ShaMapCodec.v
ShaMap.v
ShaMapRefine.v
ShaMapHash.v
ShaMapProof.v
ShaMapQuery.v
ShaMapCompare.v
ShaMapStore.v
ShaMapSession.v
ShaMapAudit.v
EntryStream.v
LedgerEntry.v
LedgerView.v
LedgerHeader.v
Ledger.v
LedgerIteration.v
SkipList.v
LedgerChain.v
Directory.v
DirectoryPage.v
DirectorySpec.v
DirectoryRemove.v
DirectoryHistory.v
ApplyState.v
DirectoryCommit.v
Threading.v
Validation.v
FeeVote.v
AmendmentVote.v
NegUnlVote.v
FlagVote.v
