(* ===== verification/Prelude.v ===== *)
(** * Verification of go-xrpl

    go-xrpl is a node of the XRP Ledger. A transaction enters through RPC or the
    peer network as a binary blob, which the codec parses; the transaction queue
    decides whether it goes into the open ledger at once, waits for a later
    ledger, or is refused for its fee; the transactor applies it to the ledger's
    state tree; validators then vote on closed ledgers, and the ledger trie ranks
    the competing branches by the validations behind them. Load on the node
    raises the fees it asks for through the fee tracker.

    The state tree (a Merkle radix tree over a node store) names every ledger's
    contents by its root hash, and peers exchange its nodes, proofs and packs.
    Every 256 ledgers, at a flag ledger, validators change the network's own
    settings by votes that travel in their validations: the fees, the amendments
    in force, and the list of validators that do not count for the quorum.

    Amounts are decimal floating point numbers with rounding rules of their own,
    on which every node must agree to the last digit.

    A transaction changes the ledger through a table of changes, which is a view
    over the ledger and is committed as one group; the objects an account owns and
    the offers of a book are listed in directories of linked pages. Closing a ledger
    records its parent in skip lists, fixes its trees and names it by the hash of its
    header, so that each ledger can resolve the hashes of its ancestors.

    This development models twelve of those parts and proves what they promise to
    each other. Each is a shallow embedding: pure Go functions are Rocq
    functions, stateful ones take and return their state, errors are sums or
    options, and machine integers are [Z] with the wrap-around written out.

    ** Files

    - [Prelude]: machine integers ([wrap], [is_uint], 128-bit [mul64] and
      [div64] as in math/bits), byte strings and their order, lists, sorting by
      a boolean order, the tactics [zbool], [go_case], [dmlia], and the hint
      database [go].
    - [Serdes]: codec/binarycodec/serdes and the field tables of
      codec/binarycodec/definitions. A parser is a cursor; a reader returns its
      value or error with the bytes left, so an error keeps what was consumed.
    - [Strconv]: the number and hexadecimal formats of Go's standard library.
    - [XrplNumber]: internal/ledger/state/xrpl_number.go, the decimal numbers with
      their guard digits, in every mantissa scale and rounding mode. [XrplRound] and
      [XrplArith] relate them to the rationals: what the guard digits stand for, and
      what each operation computes.
    - [Amount], [AmountRound]: amount.go, amount_arithmetic.go, amount_round.go,
      number_asset.go and lending_number.go of the same directory: XRP, issued and
      token amounts as one record, as in the code, with sums, comparisons, ratios,
      products, quotients and the exchange rates of offers. [AmountSpec] states what
      they compute.
    - [FeeTrack]: internal/feetrack. The tracker's fields as a record, one
      definition per method, and a step relation over all of them; change
      callbacks are recorded as notifications.
    - [TxqFee]: internal/txq/config.go and fee.go. Configuration and its
      normalization, fee levels, the metrics kept over closed ledgers with their
      circular buffer, the required fee level and its series for a whole account.
    - [TxqQueue]: internal/txq/candidate.go, txq.go and process.go. Candidates
      live in a store addressed by pointers, since the queue's three indices (by
      fee, by identifier, by account) share them and the code updates them in
      place. The invariant [wf] says that the indices hold the same candidates,
      each once, that the fee index is sorted, and that every candidate is filed
      under its own account and sequence.
    - [TxqAccept]: internal/txq/accept.go. The open ledger is the class
      [OpenView] and preflight and application the class [AcceptContext], since
      they belong to the transactor; cancellation is an oracle asked where the
      code asks its context.
    - [TxqApply]: internal/txq/apply.go and submission.go. Submission in the
      code's stages (validation, direct application, sequence checks, replacement,
      clearing the account's queue, making room, queuing), written in a state
      monad with early exit so that every early return is where the code has it.
    - [TxqFork]: internal/txq/fork.go, the deep copy used for speculation.
    - [LedgerTrie]: internal/consensus/ledgertrie/trie.go and span.go. Nodes are a
      tree and parent pointers are paths from the root; ledgers are the class
      [Ledger], with what the code relies on stated as [LedgerLaws] (unique
      history) and, where ledgers must be told apart right although each knows
      only the recent part of its chain, [ResolvedHistory].
    - [Sha512]: crypto/sha512half. SHA-512 itself, and the class [Hasher] through
      which the state tree hashes, so that its theorems hold of any hash with
      32-byte results.
    - [ShaMapKey], [ShaMapNode]: shamap/keypath.go, node_id.go, item.go, leaf.go,
      inner_node.go, node.go and the formats of wire.go and store.go. An inner node
      has sixteen slots (in use, hash, child if in memory).
    - [ShaMap]: shamap.go, mutation.go and the walks of traverse.go. The family,
      which reads records by hash, is an argument of the map.
    - [ShaMapCodec], [ShaMapRefine], [ShaMapHash]: the formats are exact, the tree
      implements a finite map ([rep]), the root hash names the contents.
    - [ShaMapProof], [ShaMapQuery], [ShaMapCompare]: proof.go; iteration.go,
      iterator.go and the bounds of traverse.go; compare.go and difference.go.
    - [ShaMapStore], [ShaMapSession], [ShaMapAudit]: persistence.go, snapshot.go,
      completeness.go and fetchpack.go; histories of changes, flushes and restarts
      over one store; the completeness check and fetch packs.
    - [EntryStream], [LedgerEntry]: the stream reader of ledger/entry and the writer
      of flat objects (STObject.FromJSON), and entries over a table of their fields,
      as the generated decoders and encoders have it.
    - [LedgerView]: the interface through which directories and transactions see the
      ledger (internal/ledger/state/ledger_view.go, AtomicWriter of internal/ledger),
      as the classes [LedgerView] and [AtomicLedgerView], with the classes of laws
      that their instances are proved to satisfy; keylets of pages and skip lists.
    - [LedgerHeader]: internal/ledger/header and protocol/time.go.
    - [Ledger], [LedgerIteration]: internal/ledger/ledger.go, mutation.go,
      transaction.go and view.go. A ledger is a header over two trees and an instance
      of the view classes.
    - [SkipList], [LedgerChain]: internal/ledger/skiplist, constructors.go,
      lifecycle.go, HashOfSeq and internal/consensus/ledger_timing.go.
    - [Directory]: internal/ledger/state/directory.go over any view. [DirectoryPage]
      is the codec of a page, [DirectorySpec] and [DirectoryRemove] relate insertion
      and removal to lists of pages, [DirectoryHistory] follows whole histories.
    - [ApplyState]: internal/tx/applystate/apply_state_table.go and ordered_keys.go,
      a view over any view. [DirectoryCommit] composes it with the directories.
    - [Threading]: threading.go and the threading of apply_state_table.go, with
      [Apply] and [Preview]. The typed entries are the class [EntryCodec], with its
      laws in [EntryCodecLaws], which the codec of directory pages satisfies.
    - [Validation]: what the votes read of a validation (internal/consensus/types.go),
      the filters in front of the tallies and the quorum (adaptor/adaptor.go and
      trust_oracle.go).
    - [FeeVote], [AmendmentVote], [NegUnlVote]: the three votes, each from the
      validations to the ledger: internal/consensus/feevote, amendmentvote and
      negativeunlvote, the producers in internal/consensus/adaptor, the SetFee,
      EnableAmendment and UNLModify transactions of internal/tx/pseudo, and
      internal/ledger/negativeunl. Loops over Go maps take the order of traversal
      as an argument, of which [ranges] is all that is known. The node identifier
      of a key is a parameter, a hash of a library.
    - [FlagVote]: the fee and amendment votes behind the filters and the quorum.

    ** What is proved

    Wire layer: what the serializer writes for a field the parser reads back;
    length prefixes and field headers are accepted exactly when they are the
    serializer's encodings, so there is one encoding of each; the reverse field
    table is the inverse of the headers in any order of iteration.

    Numbers and amounts: an operation on decimal numbers returns the exact rational
    result rounded correctly to the digits of its scale, in each mode, zero or an
    overflow error at the ends of the range; the same holds of the conversion to 64
    bits and of issued amounts. Products in drops and ratios of whole units are exact
    floors and ceilings. Comparison is that of the rationals. The rate of an offer
    orders offers by their price, as long as prices differ by three parts in 10^14;
    closer ones may come out in the wrong order.

    Fee tracker: the local fee stays within its bounds under any interleaving of
    operations, sixty decays bring it back to the reference, the scaled fee is the
    exact quotient or an overflow error, and privilege never costs more.

    Fee escalation: the required fee level is the exact saturated value of the
    quadratic formula and is monotone; the series level is the sum of squares it
    stands for; the metrics stay within the configured bounds and the circular
    buffer is a sliding window; levels and drops round-trip up to a bounded loss;
    normalization is idempotent.

    Queue: the fee index depends only on the candidates and the parent hash; the
    searches over an account's map do not depend on iteration order; closing a
    ledger erases exactly what has expired; the next queuable sequence is the
    first gap. An accept pass ends for every ledger and every cancellation,
    refines an abstract pass that applies only candidates paying the level then
    required, with a current preflight and in the account's order, and drops one
    only when it was applied, failed, ran out of retries or had to make room; it
    keeps the invariant. A submission
    keeps the invariant and the capacity, leaves the indices alone when it is
    refused, queues exactly the canonical transaction, replaces only for a higher
    fee, and keeps every candidate reachable by its identifier. A fork answers
    every query as the original does.

    Ledger trie: an insertion refines the tally of supported ledgers it stands for,
    whatever the ledgers know of their histories, with overflow the only panic. Among
    ledgers whose histories meet, a removal does too; the two support queries return
    the exact sums over the tally; and a ledger whose branch outweighs twice the rest
    of the support is never passed over by the preference search. Every trie the
    operations can produce passes the code's own [CheckInvariants].

    State tree: every history of insertions, deletions, batches, flushes and
    restarts from the root hash holds what a finite map would, whichever nodes are
    in memory; each operation refines the map operation on every branch, errors
    included, and a batch happens whole or not at all. The root hash depends on
    the contents alone, and equal root hashes mean equal contents. A proof path is
    served for every key and verifies only for the contents it claims. Traversals
    visit in key order, bounds are exact, the comparison reports exactly the
    differences (up to its limit). A flush writes typed records that hash to their
    names; a refused one leaves the map unchanged. The completeness check is silent
    exactly when the tree is in the store, and a complete fetch pack is what the
    peer lacks. Statements that rest on collision resistance name the inputs that are
    hashed, those of the trees, paths and records at hand, and hold when no two of
    these have one hash and none hashes to zero ([collisionFree]), which can be
    decided and which the instances compute.

    Ledgers: an open ledger and a table of changes over any view satisfy the laws of
    views, so what is proved of directories over a view holds in both. A directory is a
    list of pages: insertion and removal are those of the list, refusals change nothing,
    and after any history each item is on the page its owner recorded and iteration
    visits what remains. Applying a table of changes is all or nothing and leaves the
    ledger with what the transaction saw, in which exactly the entries it created or
    changed and the owners of those it created or deleted are stamped with it. A chain of ledgers closes exactly while the
    supply covers what is destroyed, and its last ledger resolves exactly the last 256
    ancestors and those at multiples of 256, to the hashes of the ledgers so numbered.
    Headers survive the wire and are bound by their hash. A resumed iteration starts at
    the key asked for. That the keys of pages and of skip lists differ, as those of a
    collision-free hash do, is a hypothesis of these theorems ([pagesDistinct],
    [keysDistinct]), which the instances at the end of the files satisfy.

    Votes: a fee round elects the most supported value within the window, and the
    transaction it proposes is accepted and leaves exactly that in the ledger. An
    amendment round is a step of a small status machine; no amendment is enabled
    without a majority sustained for two weeks, and one sustained so long enables;
    the tally over any history of trust changes and expiring votes counts what each
    validator named in its last vote. The negative-list vote proposes a validator that depends
    on the votes alone, its transactions are accepted by the flag ledger, and over
    any number of flag ledgers, with any of the proposals of validators that have seen
    different things and a list that may grow, the quorum stays within reach of the
    validators that remain. None of the votes depends on the order of a map, and validations that
    are partial, of another ledger, or by validators not trusted or disabled change
    nothing.

    ** Fuel

    Loops that are not structural take fuel, with a theorem that it is enough:
    [(n+1)^2] for an accept pass over [n] candidates (a visited position is left
    for good or a candidate is erased), 33 halvings for the search of a 32-bit
    sequence in [mismatch], one more than the length for the binary search of the
    fee index, and the depth of the tree for the preference search. The loops over
    decimal digits take the number of digits a machine integer or the number at hand
    has (16 to 40), the recursion of the final rounding takes 2, the integer square
    root 64. Walks of the
    state tree take [walkFuel], 66, one more than the 65 nodes a path of 64 nibbles
    can have; the comparison, which keeps its own stack, takes its number of steps,
    and every number from some bound on gives the result; so does the iteration over a
    directory, which needs a step for each page. Reading the fields of an entry takes its
    number of bytes, and the iteration over a ledger one more than its items. [Get_Put_terminate] shows
    that the walks end on any tree and any store, represented or not.

    ** Not modelled

    Locks and goroutines: every modelled operation runs under its component's
    mutex. Signatures, which the parts modelled only call. Within the codec, the
    field types and the embedded definitions document; within the ledger trie, the
    diagnostic exports. Within the state tree, the generation counter and the
    residency cache of clean nodes, which change no result, the acquisition of a
    tree from peers with its memory budgets, and the deep copy [DetachedMutable];
    trees are values, so the dirty flag of a node shared by two forks is one flag
    per fork. Within the votes, the serialization of the transactions and ledger
    entries, which are the records the code hands to its codec, and failures to
    read or parse them, on which the producers propose nothing and the flag ledger
    reports an error. Within the amounts, the
    iterated square root, strings and JSON. Within ledgers, the amendment rules read
    from the tree at a close and the builders of metadata nodes are arguments of the
    operations that call them; entries with amounts or nested
    objects, snapshots and adoption of whole ledgers, and the ordered traversal of a
    table of changes are left out. The theorem on chains is about trees that are not
    backed by a store, whose snapshots write nothing; the flush of a backed tree is the
    subject of [ShaMapSession]. Address encodings, the transactors, the consensus rounds,
    the peer protocol and the RPC layer are not modelled.
    Storage, networking and configuration files are input and output. *)

From Stdlib Require Import ZArith Lia Bool.
From stdpp Require Import base sorting list gmap strings numbers.

#[global] Set Default Goal Selector "!".

(** ** Machine integers

    A Go [uintN] is a [Z] in [[0, 2^N)]; every operation that can leave the
    range is followed by an explicit [wrap]. *)

Declare Scope go_scope.
Delimit Scope go_scope with go.

Definition wrap (w z : Z) : Z := z mod 2 ^ w.

Notation "'u8' z" := (wrap 8 z) (at level 9, z at level 9) : go_scope.
Notation "'u32' z" := (wrap 32 z) (at level 9, z at level 9) : go_scope.
Notation "'u64' z" := (wrap 64 z) (at level 9, z at level 9) : go_scope.

Open Scope Z_scope.
Open Scope go_scope.

Definition max_u32 : Z := 2 ^ 32 - 1.
Definition max_u64 : Z := 2 ^ 64 - 1.
Definition max_i64 : Z := 2 ^ 63 - 1.

(** [is_uint w z]: [z] is a value of the [w]-bit unsigned type. *)
Definition is_uint (w z : Z) : Prop := 0 <= z < 2 ^ w.

#[global] Instance is_uint_dec w z : Decision (is_uint w z).
Proof. unfold is_uint. apply _. Defined.

Create HintDb go.

(** ** Boolean tests

    The models test with the executable comparisons of [Z]; [zbool] turns the
    recorded outcomes into propositions and [go_case] splits the next test of
    the goal. *)

Ltac zbool :=
  repeat match goal with
  | H : (_ && _)%bool = true |- _ => apply andb_true_iff in H; destruct H
  | H : (_ || _)%bool = false |- _ => apply orb_false_iff in H; destruct H
  | H : negb _ = true |- _ => apply negb_true_iff in H
  | H : negb _ = false |- _ => apply negb_false_iff in H
  | H : (_ <? _) = true |- _ => apply Z.ltb_lt in H
  | H : (_ <? _) = false |- _ => apply Z.ltb_ge in H
  | H : (_ <=? _) = true |- _ => apply Z.leb_le in H
  | H : (_ <=? _) = false |- _ => apply Z.leb_gt in H
  | H : (_ =? _) = true |- _ => apply Z.eqb_eq in H
  | H : (_ =? _) = false |- _ => apply Z.eqb_neq in H
  end.

Ltac go_case :=
  match goal with
  | |- context [if ?b then _ else _] =>
      let E := fresh "E" in destruct b eqn:E; zbool
  end.

Ltac go_cases := repeat go_case.

(** Linear arithmetic with division and remainder by constants. *)
Ltac dmlia := Z.div_mod_to_equations; lia.

(** ** Wrap-around arithmetic *)

Lemma pow2_pos w : 0 <= w -> 0 < 2 ^ w.
Proof. intros. apply Z.pow_pos_nonneg; lia. Qed.

Lemma wrap_range w z : 0 <= w -> is_uint w (wrap w z).
Proof. intros. unfold is_uint, wrap. apply Z.mod_pos_bound, pow2_pos; done. Qed.

Lemma wrap_small w z : is_uint w z -> wrap w z = z.
Proof. intros []. unfold wrap. apply Z.mod_small. done. Qed.

Lemma wrap_wrap w z : 0 <= w -> wrap w (wrap w z) = wrap w z.
Proof. intros. apply wrap_small, wrap_range. done. Qed.

Lemma wrap_add_l w a b : wrap w (wrap w a + b) = wrap w (a + b).
Proof. unfold wrap. apply Zplus_mod_idemp_l. Qed.

Lemma wrap_add_r w a b : wrap w (a + wrap w b) = wrap w (a + b).
Proof. unfold wrap. apply Zplus_mod_idemp_r. Qed.

#[export] Hint Resolve wrap_range pow2_pos : go.

(** ** 128-bit intermediate results: Go's [math/bits] *)

(** [bits.Mul64]: the 128-bit product as a (high, low) pair. *)
Definition mul64 (a b : Z) : Z * Z := ((a * b) / 2 ^ 64, (a * b) mod 2 ^ 64).

(** [bits.Div64]: quotient and remainder of the 128-bit value (hi, lo) by [y];
    it panics, here [None], when [y] is zero or the quotient does not fit. *)
Definition div64 (hi lo y : Z) : option (Z * Z) :=
  if (y =? 0) || (y <=? hi) then None
  else Some ((hi * 2 ^ 64 + lo) / y, (hi * 2 ^ 64 + lo) mod y).

Lemma mul64_value a b : fst (mul64 a b) * 2 ^ 64 + snd (mul64 a b) = a * b.
Proof.
  unfold mul64; cbn [fst snd].
  rewrite (Z.mul_comm (_ / _)). symmetry. apply Z.div_mod. lia.
Qed.

(** The guard [hi < c] that callers test is what makes [bits.Div64] total. *)
Lemma div64_mul64 a b c :
  0 < c -> fst (mul64 a b) < c ->
  div64 (fst (mul64 a b)) (snd (mul64 a b)) c = Some ((a * b) / c, (a * b) mod c).
Proof.
  intros Hc Hhi. unfold div64. rewrite mul64_value.
  destruct (Z.eqb_spec c 0); [lia|].
  destruct (Z.leb_spec c (fst (mul64 a b))); [lia|]. done.
Qed.

(** The high word is below [c] exactly when the quotient fits in 64 bits. *)
Lemma mul64_hi_lt a b c :
  0 < c -> fst (mul64 a b) < c <-> (a * b) / c < 2 ^ 64.
Proof.
  intros Hc. unfold mul64; cbn [fst].
  assert (Hp : 0 < 2 ^ 64) by lia. split; intros H.
  - apply Z.div_lt_upper_bound; [done|].
    pose proof (Z.mul_succ_div_gt (a * b) (2 ^ 64) Hp). nia.
  - apply Z.div_lt_upper_bound; [done|].
    pose proof (Z.mul_succ_div_gt (a * b) c Hc). nia.
Qed.

(** ** Byte strings *)

(** A Go [[]byte] is a list of integers, each a byte when it comes from Go. *)
Abbreviation bytes := (list Z).

Definition all_bytes (l : bytes) : Prop := Forall (is_uint 8) l.

(** [bytes.Compare]: lexicographic order, a proper prefix comes first. *)
Fixpoint bytes_compare (a b : bytes) : comparison :=
  match a, b with
  | [], [] => Eq
  | [], _ :: _ => Lt
  | _ :: _, [] => Gt
  | x :: a', y :: b' =>
      match Z.compare x y with
      | Eq => bytes_compare a' b'
      | c => c
      end
  end.

Lemma bytes_compare_eq a b : bytes_compare a b = Eq <-> a = b.
Proof.
  revert b. induction a as [|x a IH]; intros [|y b]; cbn; try (split; congruence).
  destruct (Z.compare_spec x y) as [->|?|?].
  - rewrite IH. split; congruence.
  - split; [done|]. intros [=]; lia.
  - split; [done|]. intros [=]; lia.
Qed.

Lemma bytes_compare_antisym a b : bytes_compare b a = CompOpp (bytes_compare a b).
Proof.
  revert b. induction a as [|x a IH]; intros [|y b]; cbn; try done.
  rewrite (Z.compare_antisym x y). destruct (Z.compare x y); cbn; auto.
Qed.

Lemma bytes_compare_lt_trans a b c :
  bytes_compare a b = Lt -> bytes_compare b c = Lt -> bytes_compare a c = Lt.
Proof.
  revert b c. induction a as [|x a IH]; intros [|y b] [|z c]; cbn; try done.
  destruct (Z.compare_spec x y), (Z.compare_spec y z), (Z.compare_spec x z);
    subst; try done; try lia; eauto.
Qed.

(** The order of [bytes.Compare], and of the element-by-element comparison of
    arrays, which have the same length. *)
Definition bytesLess (a b : bytes) : bool := match bytes_compare a b with Lt => true | _ => false end.

(** ** Results of fallible code *)

(** A Go pair [(value, error)] is a sum: [inl] the error, [inr] the value. *)
Notation "'let?' x := c 'in' k" :=
  (match c with inl e => inl e | inr x => k end)
  (at level 10, x pattern, c at level 100, k at level 200)
  : go_scope.

(** ** Sorting by a strict order given as a test

    Go's [sort.Slice] takes the comparison as a closure; [sort_by] is the
    reference sort the models use, and [sorted_by_unique] says that any other
    sort agrees with it when no two elements compare equal. *)

Fixpoint insert_by {A} (less : A -> A -> bool) (x : A) (l : list A) : list A :=
  match l with
  | [] => [x]
  | y :: l' => if less x y then x :: y :: l' else y :: insert_by less x l'
  end.

Definition sort_by {A} (less : A -> A -> bool) (l : list A) : list A :=
  foldr (insert_by less) [] l.

(** No element is strictly before an earlier one. *)
Definition sorted_by {A} (less : A -> A -> bool) (l : list A) : Prop :=
  StronglySorted (fun a b => less b a = false) l.

(** Strict weak orders, as the comparisons of the program are. *)
Class StrictWeak {A} (less : A -> A -> bool) : Prop := {
  less_irrefl a : less a a = false;
  less_trans a b c : less a b = true -> less b c = true -> less a c = true;
  less_neg_trans a b c : less b a = false -> less c b = false -> less c a = false }.

Lemma less_asym {A} (less : A -> A -> bool) `{!StrictWeak less} a b :
  less a b = true -> less b a = false.
Proof.
  intros H. destruct (less b a) eqn:E; [|done].
  pose proof (less_trans a b a H E) as Ht. by rewrite less_irrefl in Ht.
Qed.

#[global] Instance bytesLess_strict : StrictWeak bytesLess.
Proof.
  unfold bytesLess. split.
  - intros a. by rewrite (proj2 (bytes_compare_eq a a)).
  - intros a b c. destruct (bytes_compare a b) eqn:Hab, (bytes_compare b c) eqn:Hbc; try done. by rewrite (bytes_compare_lt_trans a b c).
  - intros a b c. rewrite (bytes_compare_antisym a b), (bytes_compare_antisym b c), (bytes_compare_antisym a c).
    destruct (bytes_compare a b) eqn:Hab, (bytes_compare b c) eqn:Hbc; try done;
      rewrite ?bytes_compare_eq in *; subst; rewrite ?(proj2 (bytes_compare_eq _ _) eq_refl), ?Hab, ?Hbc; try done.
    by rewrite (bytes_compare_lt_trans a b c).
Qed.

Lemma bytesLess_total a b : bytesLess a b = false -> bytesLess b a = false -> a = b.
Proof.
  unfold bytesLess. rewrite (bytes_compare_antisym a b). destruct (bytes_compare a b) eqn:Hab; try done. intros _ _. by apply bytes_compare_eq.
Qed.

Section SortBy.
Context {A : Type} (less : A -> A -> bool).

Lemma insert_by_perm x l : insert_by less x l ≡ₚ x :: l.
Proof.
  induction l as [|y l IH]; cbn; [done|]. destruct (less x y); [done|].
  rewrite IH. apply Permutation_swap.
Qed.

Lemma sort_by_perm l : sort_by less l ≡ₚ l.
Proof. induction l as [|x l IH]; cbn; [done|]. by rewrite insert_by_perm, IH. Qed.

Lemma insert_by_elem x y l : y ∈ insert_by less x l <-> y = x \/ y ∈ l.
Proof. by rewrite insert_by_perm, elem_of_cons. Qed.

Context `{!StrictWeak less}.

Lemma insert_by_sorted x l : sorted_by less l -> sorted_by less (insert_by less x l).
Proof.
  unfold sorted_by. induction 1 as [|y l Hs IH Hy]; cbn; [by repeat constructor|].
  destruct (less x y) eqn:E.
  - constructor; [by constructor|]. constructor; [by apply less_asym|].
    apply list.Forall_forall. intros z Hz. eapply list.Forall_forall in Hy; [|exact Hz].
    eapply less_neg_trans; [|exact Hy]. by apply less_asym.
  - constructor; [done|]. apply list.Forall_forall. intros z Hz.
    apply insert_by_elem in Hz as [->|Hz]; [done|]. by eapply list.Forall_forall in Hy.
Qed.

Lemma sort_by_sorted l : sorted_by less (sort_by less l).
Proof. induction l; cbn; [constructor|]. by apply insert_by_sorted. Qed.

(** Any two sorted arrangements of elements that are pairwise comparable
    are the same list. *)
Lemma sorted_by_unique l l' :
  sorted_by less l -> sorted_by less l' -> l ≡ₚ l' ->
  (forall a b, a ∈ l -> b ∈ l -> less a b = false -> less b a = false -> a = b) ->
  l = l'.
Proof.
  intros Hs. revert l'. induction Hs as [|x l Hl IH Hx]; intros l' Hs' Hp Htot.
  { symmetry in Hp. apply Permutation_nil_r in Hp. done. }
  destruct l' as [|y l']; [by apply Permutation_nil_r in Hp|].
  inversion_clear Hs' as [|? ? Hl' Hy].
  assert (x = y) as ->.
  { assert (Hin : y ∈ x :: l) by (rewrite Hp; left).
    assert (Hin' : x ∈ y :: l') by (rewrite <- Hp; left).
    apply elem_of_cons in Hin as [->|Hin]; [done|].
    apply elem_of_cons in Hin' as [->|Hin']; [done|].
    apply Htot; [left|by right| |].
    - by eapply list.Forall_forall in Hy.
    - by eapply list.Forall_forall in Hx. }
  f_equal. apply IH; [done|by apply Permutation_cons_inv in Hp|].
  intros a b Ha Hb. apply Htot; by right.
Qed.

Lemma sorted_by_app_inv l1 l2 :
  sorted_by less (l1 ++ l2) -> sorted_by less l1 /\ sorted_by less l2.
Proof.
  unfold sorted_by. intros H. split.
  - by eapply StronglySorted_app_1_l.
  - by eapply StronglySorted_app_1_r.
Qed.

(** Removing elements keeps a list sorted. *)
Lemma sorted_by_sublist l l' : l' `sublist_of` l -> sorted_by less l -> sorted_by less l'.
Proof.
  unfold sorted_by. induction 1 as [|x l l' Hsub IH|x l l' Hsub IH]; intros Hs; [done| |].
  - inversion_clear Hs as [|? ? Hs' Hx]. constructor; [by apply IH|].
    apply list.Forall_forall. intros y Hy. eapply list.Forall_forall in Hx; [exact Hx|].
    by eapply elem_of_sublist.
  - inversion_clear Hs. by apply IH.
Qed.
End SortBy.

(** ** Binary search *)

(** Binary search; [fuel] bounds the number of halvings. *)
Fixpoint searchLoop (less : nat -> bool) (fuel lo hi : nat) : nat :=
  match fuel with
  | O => lo
  | S fuel =>
      if (lo <? hi)%nat then
        let mid := ((lo + hi) / 2)%nat in
        if less mid then searchLoop less fuel lo mid
        else searchLoop less fuel (S mid) hi
      else lo
  end.

(** The test holds exactly from position [p] on. *)
Lemma searchLoop_spec (less : nat -> bool) p fuel lo hi :
  (forall i, (i < p)%nat -> less i = false) ->
  (forall i, (p <= i < hi)%nat -> less i = true) ->
  (lo <= p <= hi)%nat -> (hi - lo < fuel)%nat -> searchLoop less fuel lo hi = p.
Proof.
  revert lo hi. induction fuel as [|fuel IH]; intros lo hi Hlt Hge Hp Hf; [lia|]. cbn [searchLoop].
  destruct (Nat.ltb_spec lo hi) as [Hl|Hl]; [|lia].
  pose proof (Nat.div_mod_eq (lo + hi) 2) as Hd.
  pose proof (Nat.mod_upper_bound (lo + hi) 2 ltac:(lia)) as Hm.
  set (mid := ((lo + hi) / 2)%nat) in *. clearbody mid.
  destruct (less mid) eqn:E.
  - assert (p <= mid)%nat by (destruct (decide (mid < p)%nat); [by rewrite Hlt in E|lia]).
    apply IH; [done| |lia..]. intros i Hi. apply Hge. lia.
  - assert (mid < p)%nat by (destruct (decide (mid < p)%nat); [done|rewrite Hge in E; [done|lia]]).
    apply IH; [done|done|lia..].
Qed.

(** Where [insert_by] puts an element, as a position. *)
Fixpoint insertPos {A} (less : A -> A -> bool) (x : A) (l : list A) : nat :=
  match l with
  | [] => 0
  | y :: l' => if less x y then 0 else S (insertPos less x l')
  end.

Lemma insertPos_insert {A} (less : A -> A -> bool) x l :
  take (insertPos less x l) l ++ x :: drop (insertPos less x l) l = insert_by less x l.
Proof. induction l as [|y l IH]; cbn; [done|]. destruct (less x y); cbn; [done|by rewrite IH]. Qed.

Lemma insertPos_le {A} (less : A -> A -> bool) x l : (insertPos less x l <= length l)%nat.
Proof. induction l as [|y l IH]; cbn; [lia|]. destruct (less x y); lia. Qed.

Lemma insertPos_before {A} `{Inhabited A} (less : A -> A -> bool) x l i :
  (i < insertPos less x l)%nat -> less x (l !!! i) = false.
Proof.
  revert i. induction l as [|y l IH]; cbn; [lia|]. destruct (less x y) eqn:E; [lia|].
  intros [|i] Hi; cbn; [done|]. apply IH. lia.
Qed.

Lemma insertPos_after {A} `{Inhabited A} (less : A -> A -> bool) `{!StrictWeak less} x l i :
  sorted_by less l -> (insertPos less x l <= i < length l)%nat -> less x (l !!! i) = true.
Proof.
  intros Hs. revert i. induction Hs as [|y l Hs IH Hy]; cbn; [lia|].
  destruct (less x y) eqn:E; intros i Hi.
  - destruct i as [|i]; cbn; [done|].
    destruct (less x (l !!! i)) eqn:Ei; [done|].
    assert (Hin : l !!! i ∈ l) by (apply list_elem_of_lookup_total_2; lia).
    eapply list.Forall_forall in Hy; [|exact Hin].
    by rewrite (less_neg_trans (less := less) y (l !!! i) x Hy Ei) in E.
  - destruct i as [|i]; cbn; [lia|]. apply IH. lia.
Qed.

(** Sortedness only looks at the comparisons between the list's elements. *)
Lemma sorted_by_ext {A} (less less' : A -> A -> bool) l :
  (forall a b, a ∈ l -> b ∈ l -> less a b = less' a b) ->
  sorted_by less l -> sorted_by less' l.
Proof.
  unfold sorted_by. intros He Hs. induction Hs as [|x l Hs IH Hx]; constructor.
  - apply IH. intros a b Ha Hb. apply He; by right.
  - apply list.Forall_forall. intros y Hy. rewrite <- He by (by left || by right).
    by eapply list.Forall_forall in Hx.
Qed.

Lemma foldl_ext_in {A B} (f g : A -> B -> A) l a :
  (forall x y, y ∈ l -> f x y = g x y) -> foldl f a l = foldl g a l.
Proof.
  revert a. induction l as [|y l IH]; cbn; intros a Hfg; [done|].
  rewrite Hfg by left. apply IH. intros x z Hz. apply Hfg. by right.
Qed.

(** Steps that commute can be taken in any order. *)
Lemma foldl_permute {A B} (f : A -> B -> A) (l l' : list B) (a : A) :
  (forall a x y, f (f a x) y = f (f a y) x) -> l ≡ₚ l' -> foldl f a l = foldl f a l'.
Proof.
  intros Hf Hp. revert a. induction Hp as [|x l l' _ IH|x y l|l l' l'' _ IH1 _ IH2]; intros a; cbn; [done|apply IH|by rewrite Hf|].
  by rewrite IH1, IH2.
Qed.

(** Filtering by a test. *)
Lemma filter_test_cons {A} (f : A -> bool) x l : filter f (x :: l) = if f x then x :: filter f l else filter f l.
Proof. rewrite filter_cons. by destruct (f x). Qed.

Lemma filter_test_snoc {A} (f : A -> bool) x l : filter f (l ++ [x]) = filter f l ++ (if f x then [x] else []).
Proof.
  induction l as [|y l IH]; cbn [app]; rewrite !filter_test_cons; [done|]. rewrite IH. by destruct (f y).
Qed.

(** ** Ranging over a Go map

    A [range] loop visits the entries of a map in an arbitrary order; where the
    order could matter the models take it as an argument. *)
Definition ranges {K V} `{Countable K} (order : gmap K V -> list (K * V)) : Prop := forall m, order m ≡ₚ map_to_list m.

Lemma ranges_elem {K V} `{Countable K} (order : gmap K V -> list (K * V)) m k v :
  ranges order -> (k, v) ∈ order m <-> m !! k = Some v.
Proof. intros Ho. rewrite (Ho m). apply elem_of_map_to_list. Qed.

Lemma ranges_to_list {K V} `{Countable K} : ranges (K := K) (V := V) map_to_list.
Proof. by intros m. Qed.
