(* ===== verification/Serdes.v ===== *)
(** * Wire layer of the binary codec (codec/binarycodec/serdes)

    Field definitions (codec/binarycodec/definitions), field identifiers,
    variable-length prefixes, the parser's cursor and the serializer's sink,
    with the round trips between the two directions. *)

From stdpp Require Import base list gmap strings numbers.
From S2P Require Import Prelude.

Module Serdes.

(** ** Field definitions *)

Record FieldHeader := mkFieldHeader { TypeCode : Z; FieldCode : Z }.

#[global] Instance FieldHeader_eq_dec : EqDecision FieldHeader.
Proof. solve_decision. Defined.

#[global] Instance FieldHeader_countable : Countable FieldHeader.
Proof.
  apply (inj_countable' (fun h => (TypeCode h, FieldCode h))
           (fun p => mkFieldHeader p.1 p.2)).
  by intros [].
Defined.

Record FieldInfo := mkFieldInfo {
  Nth : Z;
  IsVLEncoded : bool;
  IsSerialized : bool;
  IsSigningField : bool;
  Type_ : string }.

Record FieldInstance := mkFieldInstance {
  FieldName : string;
  Info : FieldInfo;
  Header : FieldHeader;
  Ordinal : Z }.

Record Definitions := mkDefinitions {
  types : gmap string Z;
  fields : gmap string FieldInstance;
  fieldIDNameMap : gmap FieldHeader string }.

(** Errors of the package and of the definitions it consults. *)
Inductive SerdesError :=
  | ErrParserOutOfBound
  | ErrInvalidTypecode
  | ErrInvalidFieldcode
  | ErrInvalidVLPrefix
  | ErrVariableLengthTooLong
  | ErrLengthPrefixTooLong
  | NotFoundError (instance input : string)
  | NotFoundErrorFieldHeader (input : FieldHeader).

Definition GetTypeCode (d : Definitions) (n : string) : SerdesError + Z :=
  match types d !! n with
  | Some typeCode => inr typeCode
  | None => inl (NotFoundError "TypeName" n)
  end.

Definition FieldHeaderByName (d : Definitions) (n : string) : SerdesError + FieldHeader :=
  match fields d !! n with
  | Some fi => inr (Header fi)
  | None => inl (NotFoundError "FieldName" n)
  end.

Definition FieldNameByHeader (d : Definitions) (fh : FieldHeader) : SerdesError + string :=
  match fieldIDNameMap d !! fh with
  | Some fim => inr fim
  | None => inl (NotFoundErrorFieldHeader fh)
  end.

Definition FieldInstanceByName (d : Definitions) (n : string) : SerdesError + FieldInstance :=
  match fields d !! n with
  | Some fi => inr fi
  | None => inl (NotFoundError "FieldName" n)
  end.

(** The loader fills each field's header from its type's code (zero when the
    type is unknown, the discarded error) and its ordinal. *)
Definition addFieldHeadersAndOrdinals (d : Definitions) : Definitions :=
  let header fi :=
    let t := match GetTypeCode d (Type_ (Info fi)) with inr t => t | inl _ => 0 end in
    mkFieldInstance (FieldName fi) (Info fi)
      (mkFieldHeader t (Nth (Info fi)))
      (Z.lor (Z.shiftl t 16) (Nth (Info fi))) in
  mkDefinitions (types d) (header <$> fields d) (fieldIDNameMap d).

(** [for k := range definitions.fields]: Go visits the keys in an unspecified
    order, here the argument [order]. *)
Definition createFieldIDNameMap (order : list string) (d : Definitions) : Definitions :=
  mkDefinitions (types d) (fields d)
    (foldl (fun m k =>
              match FieldHeaderByName d k with
              | inr fh => <[fh := k]> m
              | inl _ => m
              end) ∅ order).

(** ** Parser *)

Record BinaryParser := mkBinaryParser {
  data : bytes;
  definitions : Definitions;
  allowOverCap : bool }.

Definition NewBinaryParser (d : bytes) (defs : Definitions) : BinaryParser :=
  mkBinaryParser d defs false.

Definition NewBinaryParserAllowOverCap (d : bytes) (defs : Definitions) : BinaryParser :=
  mkBinaryParser d defs true.

Definition AllowsOverCap (p : BinaryParser) : bool := allowOverCap p.

Definition set_data (p : BinaryParser) (d : bytes) : BinaryParser :=
  mkBinaryParser d (definitions p) (allowOverCap p).

(** A parser method returns its result and the parser it leaves behind, also
    when it fails: the bytes read before the failure stay consumed. *)
Definition Parse (A : Type) : Type := BinaryParser -> (SerdesError + A) * BinaryParser.

Definition pret {A} (a : A) : Parse A := fun p => (inr a, p).
Definition pfail {A} (e : SerdesError) : Parse A := fun p => (inl e, p).
Definition plift {A} (r : SerdesError + A) : Parse A := fun p => (r, p).
Definition pbind {A B} (m : Parse A) (k : A -> Parse B) : Parse B :=
  fun p => match m p with
           | (inl e, p') => (inl e, p')
           | (inr a, p') => k a p'
           end.

Notation "'let!' x := m 'in' k" := (pbind m (fun x => k))
  (at level 10, x name, m at level 100, k at level 200) : go_scope.

Definition ReadByte : Parse Z := fun p =>
  match data p with
  | [] => (inl ErrParserOutOfBound, p)
  | b :: rest => (inr b, set_data p rest)
  end.

Definition Peek (p : BinaryParser) : SerdesError + Z :=
  match data p with
  | [] => inl ErrParserOutOfBound
  | b :: _ => inr b
  end.

Definition ReadBytes (n : Z) : Parse bytes := fun p =>
  if n <? 0 then (inl ErrParserOutOfBound, p)
  else if Z.of_nat (length (data p)) <? n then (inl ErrParserOutOfBound, p)
  else (inr (take (Z.to_nat n) (data p)), set_data p (drop (Z.to_nat n) (data p))).

Definition HasMore (p : BinaryParser) : bool :=
  negb (Z.of_nat (length (data p)) =? 0).

Definition Remaining (p : BinaryParser) : Z := Z.of_nat (length (data p)).

Definition readFieldHeader : Parse FieldHeader :=
  let! b := ReadByte in
  let fieldCode := Z.land b 15 in
  let typeCode := Z.shiftr b 4 in
  let! typeCode := (if typeCode =? 0 then
                      let! t := ReadByte in
                      if (t =? 0) || (t <? 16) then pfail ErrInvalidTypecode else pret t
                    else pret typeCode) in
  let! fieldCode := (if fieldCode =? 0 then
                       let! f := ReadByte in
                       if (f =? 0) || (f <? 16) then pfail ErrInvalidFieldcode else pret f
                     else pret fieldCode) in
  pret (mkFieldHeader typeCode fieldCode).

Definition ReadField : Parse FieldInstance :=
  let! fh := readFieldHeader in
  (fun p =>
     (let! fn := plift (FieldNameByHeader (definitions p) fh) in
      plift (FieldInstanceByName (definitions p) fn)) p).

Definition ReadVariableLength : Parse Z :=
  let! b1 := ReadByte in
  if b1 <=? 192 then pret b1
  else if b1 <=? 240 then
    let! b2 := ReadByte in
    pret (193 + ((b1 - 193) * 256) + b2)
  else if b1 <=? 254 then
    let! b2 := ReadByte in
    let! b3 := ReadByte in
    let length := 12481 + ((b1 - 241) * 65536) + (b2 * 256) + b3 in
    if 918744 <? length then pfail ErrVariableLengthTooLong else pret length
  else pfail ErrInvalidVLPrefix.

(** ** Serializer *)

(** [FieldIDCodec.Encode]: one to three bytes, depending on which of the two
    codes is below 16. *)
Definition encodeHeader (fh : FieldHeader) : bytes :=
  if (TypeCode fh <? 16) && (FieldCode fh <? 16) then
    [Z.lor (wrap 8 (Z.shiftl (TypeCode fh) 4)) (wrap 8 (FieldCode fh))]
  else if (16 <=? TypeCode fh) && (FieldCode fh <? 16) then
    [wrap 8 (FieldCode fh); wrap 8 (TypeCode fh)]
  else if (TypeCode fh <? 16) && (16 <=? FieldCode fh) then
    [wrap 8 (Z.shiftl (TypeCode fh) 4); wrap 8 (FieldCode fh)]
  else [0; wrap 8 (TypeCode fh); wrap 8 (FieldCode fh)].

Definition Encode (d : Definitions) (fieldName : string) : SerdesError + bytes :=
  let? fh := FieldHeaderByName d fieldName in
  inr (encodeHeader fh).

Definition encodeVariableLength (length : Z) : SerdesError + bytes :=
  if length <? 0 then inl ErrLengthPrefixTooLong
  else if length <=? 192 then inr [wrap 8 length]
  else if length <=? 12480 then
    let length := length - 193 in
    inr [wrap 8 (Z.shiftr length 8 + 193); wrap 8 (Z.land length 255)]
  else if length <=? 918744 then
    let length := length - 12481 in
    inr [wrap 8 (Z.shiftr length 16 + 241);
         wrap 8 (Z.land (Z.shiftr length 8) 255);
         wrap 8 (Z.land length 255)]
  else inl ErrLengthPrefixTooLong.

Record BinarySerializer := mkBinarySerializer {
  sink : bytes;
  codec : Definitions }.

Definition NewBinarySerializer (fieldIDCodec : Definitions) : BinarySerializer :=
  mkBinarySerializer [] fieldIDCodec.

Definition put (s : BinarySerializer) (v : bytes) : BinarySerializer :=
  mkBinarySerializer (sink s ++ v) (codec s).

(** The serializer keeps what it wrote before an error, as the Go method does:
    the header is in the sink when the length prefix is refused. *)
Definition WriteFieldAndValue (s : BinarySerializer) (fi : FieldInstance) (value : bytes)
  : option SerdesError * BinarySerializer :=
  match Encode (codec s) (FieldName fi) with
  | inl e => (Some e, s)
  | inr h =>
      let s := put s h in
      match (if IsVLEncoded (Info fi) then
               match encodeVariableLength (Z.of_nat (length value)) with
               | inl e => (Some e, s)
               | inr vl => (None, put s vl)
               end
             else (None, s)) with
      | (Some e, s) => (Some e, s)
      | (None, s) =>
          let s := put s value in
          let s := if bool_decide (Type_ (Info fi) = "STObject") then put s [225] else s in
          (None, s)
      end
  end.


(** ** Shared facts *)

Lemma land_15 z : Z.land z 15 = z mod 16.
Proof. apply (Z.land_ones z 4). lia. Qed.

Lemma land_255 z : Z.land z 255 = z mod 256.
Proof. apply (Z.land_ones z 8). lia. Qed.

Lemma shiftr_div z n : 0 <= n -> Z.shiftr z n = z / 2 ^ n.
Proof. apply Z.shiftr_div_pow2. Qed.

(** The two nibbles of a header byte do not overlap. *)
Lemma lor_nibbles hi lo : 0 <= lo < 16 -> Z.lor (Z.shiftl hi 4) lo = hi * 16 + lo.
Proof.
  intros Hlo.
  assert (Hd : Z.land (Z.shiftl hi 4) lo = 0).
  { apply Z.bits_inj'. intros n Hn. rewrite Z.land_spec, Z.bits_0.
    destruct (Z.lt_ge_cases n 4).
    - by rewrite Z.shiftl_spec_low by lia.
    - rewrite <- (Z.mod_small lo (2 ^ 4)) by lia.
      rewrite Z.mod_pow2_bits_high by lia. apply andb_false_r. }
  rewrite <- Z.lxor_lor, <- Z.add_nocarry_lxor, Z.shiftl_mul_pow2 by done. lia.
Qed.

(** Reads bit operations as arithmetic with literal moduli. *)
Ltac wbytes :=
  rewrite ?land_15, ?land_255, ?shiftr_div in * by lia;
  unfold all_bytes, wrap, is_uint in *;
  change (2 ^ 4) with 16 in *; change (2 ^ 8) with 256 in *;
  change (2 ^ 16) with 65536 in *.

(** Runs a parser method on a parser given by its fields. *)
Ltac run_parser :=
  cbv [ReadVariableLength readFieldHeader ReadByte pbind pret pfail set_data data];
  cbn [app definitions allowOverCap].

(** ** Variable-length prefixes *)

(** The encoder accepts exactly the lengths 0 to 918744. *)
Lemma encodeVariableLength_domain n :
  (exists bs, encodeVariableLength n = inr bs) <-> 0 <= n <= 918744.
Proof.
  unfold encodeVariableLength. go_cases; split; intros H;
    try (destruct H as [? [=]]); try lia; eauto.
Qed.

Lemma encodeVariableLength_bytes n bs :
  encodeVariableLength n = inr bs -> all_bytes bs.
Proof.
  unfold encodeVariableLength. go_cases; intros [= <-];
    repeat constructor; apply wrap_range; lia.
Qed.

(** A length prefix written by the serializer is read back as the same
    length and nothing of what follows it is consumed. *)
Lemma vl_roundtrip n bs rest p :
  encodeVariableLength n = inr bs -> data p = bs ++ rest ->
  ReadVariableLength p = (inr n, set_data p rest).
Proof.
  destruct p as [d defs cap]; cbn [data]. intros He ->.
  unfold encodeVariableLength in He. revert He.
  go_cases; intros [= <-]; wbytes; run_parser.
  - destruct (Z.leb_spec (n mod 256) 192); [|dmlia]. do 2 f_equal. dmlia.
  - destruct (Z.leb_spec (((n - 193) / 256 + 193) mod 256) 192); [dmlia|].
    destruct (Z.leb_spec (((n - 193) / 256 + 193) mod 256) 240); [|dmlia].
    do 2 f_equal. dmlia.
  - set (m := n - 12481) in *.
    destruct (Z.leb_spec ((m / 65536 + 241) mod 256) 192); [dmlia|].
    destruct (Z.leb_spec ((m / 65536 + 241) mod 256) 240); [dmlia|].
    destruct (Z.leb_spec ((m / 65536 + 241) mod 256) 254); [|dmlia].
    match goal with |- context [918744 <? ?x] => assert (x = n) as -> by dmlia end.
    destruct (Z.ltb_spec 918744 n); [lia|]. done.
Qed.

Lemma all_bytes_cons b l : all_bytes (b :: l) -> 0 <= b < 256 /\ all_bytes l.
Proof. intros H. inversion_clear H. by split. Qed.

(** Splits the input of a parser into its next byte and the rest, or reports
    that the input is exhausted. *)
Ltac next_byte Hb :=
  match goal with
  | |- context [match ?d with [] => _ | _ :: _ => _ end] =>
      destruct d as [|? ?];
      [try done | apply all_bytes_cons in Hb as [? Hb]]; cbn
  end.

(** An accepted length prefix is the one the serializer writes for that
    length: every length has a single encoding on the wire. *)
Lemma vl_canonical p n p' :
  all_bytes (data p) -> ReadVariableLength p = (inr n, p') ->
  exists bs, encodeVariableLength n = inr bs /\ data p = bs ++ data p'.
Proof.
  destruct p as [d defs cap]; cbn [data]; intros Hb.
  run_parser. next_byte Hb. go_cases; try done.
  - intros [= <- <-]. exists [z]. split; [|done].
    unfold encodeVariableLength. wbytes. go_cases; try lia. do 2 f_equal. dmlia.
  - next_byte Hb. intros [= <- <-]. exists [z; z0]. split; [|done].
    unfold encodeVariableLength. wbytes. go_cases; try lia. repeat f_equal; dmlia.
  - next_byte Hb. next_byte Hb. go_cases; [done|].
    intros [= <- <-]. exists [z; z0; z1]. split; [|done].
    unfold encodeVariableLength. wbytes. go_cases; try lia. repeat f_equal; dmlia.
Qed.

(** ** Field identifiers *)

(** The codes a header byte sequence can carry. *)
Definition wire_header (fh : FieldHeader) : Prop :=
  1 <= TypeCode fh <= 255 /\ 1 <= FieldCode fh <= 255.

(** The encoding of such codes in arithmetic terms. *)
Lemma encodeHeader_arith tc fc :
  1 <= tc <= 255 -> 1 <= fc <= 255 ->
  encodeHeader (mkFieldHeader tc fc) =
    if tc <? 16 then (if fc <? 16 then [tc * 16 + fc] else [tc * 16; fc])
    else (if fc <? 16 then [fc; tc] else [0; tc; fc]).
Proof.
  intros. unfold encodeHeader; cbn [TypeCode FieldCode]. rewrite (wrap_small 8 fc) by (unfold is_uint; lia).
  go_cases; try lia; rewrite ?Z.shiftl_mul_pow2, ?wrap_small by (unfold is_uint; lia); try done.
  rewrite <- Z.shiftl_mul_pow2, lor_nibbles by lia. done.
Qed.

(** A field identifier written by [Encode] is read back as the same pair
    of codes, whichever of the four layouts it takes. *)
Lemma header_roundtrip fh rest p :
  wire_header fh -> data p = encodeHeader fh ++ rest ->
  readFieldHeader p = (inr fh, set_data p rest).
Proof.
  destruct p as [d defs cap], fh as [tc fc]; unfold wire_header; cbn [data TypeCode FieldCode].
  intros [Ht Hf] ->. rewrite encodeHeader_arith by done. go_cases; run_parser; wbytes.
  - replace ((tc * 16 + fc) / 16) with tc by dmlia.
    replace ((tc * 16 + fc) mod 16) with fc by dmlia. by go_cases; try lia.
  - replace (tc * 16 / 16) with tc by dmlia. replace ((tc * 16) mod 16) with 0 by dmlia.
    cbn. by go_cases; try lia.
  - replace (fc / 16) with 0 by dmlia. replace (fc mod 16) with fc by dmlia.
    cbn. by go_cases; try lia.
  - cbn. by go_cases; try lia.
Qed.

(** Closes a branch of [readFieldHeader] by comparing the bytes read with
    the encoding of the codes returned. *)
Ltac header_branch :=
  intros [= <- <-]; unfold wire_header; cbn [TypeCode FieldCode data]; zbool; wbytes;
  split; [dmlia|]; rewrite encodeHeader_arith by dmlia;
  go_cases; try dmlia; cbn; repeat f_equal; dmlia.

(** Whatever header the parser accepts is the serializer's encoding of
    the codes it returns, so no field has two identifiers on the wire. *)
Lemma header_canonical p fh p' :
  all_bytes (data p) -> readFieldHeader p = (inr fh, p') ->
  wire_header fh /\ data p = encodeHeader fh ++ data p'.
Proof.
  destruct p as [d defs cap]; cbn [data]; intros Hb.
  run_parser. next_byte Hb.
  destruct (Z.shiftr z 4 =? 0) eqn:Et, (Z.land z 15 =? 0) eqn:Ef; zbool.
  - next_byte Hb. destruct (_ || _) eqn:E1; [done|].
    next_byte Hb. destruct ((z1 =? 0) || (z1 <? 16)) eqn:E2; [done|]. header_branch.
  - next_byte Hb. destruct (_ || _) eqn:E1; [done|]. header_branch.
  - next_byte Hb. destruct (_ || _) eqn:E1; [done|]. header_branch.
  - header_branch.
Qed.

(** ** Field definitions *)

(** What the loader establishes: every field is stored under its own name, its
    header fits the wire, and [fieldIDNameMap] inverts the headers. *)
Definition defs_ok (d : Definitions) : Prop :=
  forall n fi, fields d !! n = Some fi ->
    FieldName fi = n /\ wire_header (Header fi) /\ fieldIDNameMap d !! Header fi = Some n.

Definition headers_distinct (d : Definitions) : Prop :=
  forall n1 n2 f1 f2, fields d !! n1 = Some f1 -> fields d !! n2 = Some f2 ->
    Header f1 = Header f2 -> n1 = n2.

Lemma createFieldIDNameMap_lookup order d fh n :
  headers_distinct d -> (forall k, k ∈ order -> is_Some (fields d !! k)) ->
  fieldIDNameMap (createFieldIDNameMap order d) !! fh = Some n <->
  n ∈ order /\ exists fi, fields d !! n = Some fi /\ Header fi = fh.
Proof.
  intros Hinj. unfold createFieldIDNameMap; cbn [fieldIDNameMap].
  induction order as [|k l IH] using rev_ind; intros Hl; cbn.
  - rewrite lookup_empty. set_solver.
  - rewrite foldl_app; cbn. unfold FieldHeaderByName at 1.
    destruct (Hl k) as [f Hf]; [set_solver|]. rewrite Hf.
    assert (Hl' : forall x, x ∈ l -> is_Some (fields d !! x)) by set_solver.
    specialize (IH Hl').
    destruct (decide (Header f = fh)) as [<-|Hne].
    + rewrite lookup_insert_eq. split.
      * intros [= <-]. set_solver.
      * intros [_ (fi & Hfi & Hh)]. f_equal. by eapply Hinj.
    + rewrite lookup_insert_ne by done. rewrite IH. set_solver.
Qed.

(** Whatever order Go visits the field map in, the reverse table built
    from fields with distinct headers maps a header to exactly the field that
    has it. *)
Theorem createFieldIDNameMap_inverse order d fh n :
  headers_distinct d -> (forall k, k ∈ order <-> is_Some (fields d !! k)) ->
  fieldIDNameMap (createFieldIDNameMap order d) !! fh = Some n <->
  exists fi, fields d !! n = Some fi /\ Header fi = fh.
Proof.
  intros Hinj Hord. rewrite createFieldIDNameMap_lookup by (done || apply Hord).
  split; [by intros [_ ?]|]. intros (fi & Hfi & ?). split; [|eauto]. apply Hord. eauto.
Qed.

(** ** Fields on the wire *)

Lemma ReadField_of_header d fi n rest p :
  defs_ok d -> fields d !! n = Some fi -> definitions p = d ->
  data p = encodeHeader (Header fi) ++ rest ->
  ReadField p = (inr fi, set_data p rest).
Proof.
  intros Hok Hf Hd Hdata. destruct (Hok n fi Hf) as (_ & Hw & Hid).
  unfold ReadField, pbind. erewrite header_roundtrip by done.
  cbn. rewrite Hd. unfold plift, FieldNameByHeader, FieldInstanceByName.
  by rewrite Hid, Hf.
Qed.

Lemma ReadBytes_app v rest p :
  data p = v ++ rest -> ReadBytes (Z.of_nat (length v)) p = (inr v, set_data p rest).
Proof.
  intros Hd. unfold ReadBytes. rewrite Hd, length_app.
  go_cases; try lia. rewrite Nat2Z.id, take_app_length, drop_app_length. done.
Qed.

(** Reads one field back the way the object decoder does: header, length
    prefix if the field has one, value of that length (or of the length
    [fixed] a fixed-width type has). *)
Definition readFieldAndValue (fixed : Z) : Parse (FieldInstance * bytes) :=
  let! fi := ReadField in
  let! n := (if IsVLEncoded (Info fi) then ReadVariableLength else pret fixed) in
  let! v := ReadBytes n in
  pret (fi, v).

(** A field written by [WriteFieldAndValue] after any earlier output is
    read back as the same field and value; what remains is the object end
    marker when the field is an object, and whatever was written next. *)
Theorem write_read_field s fi v s' rest fixed cap n :
  defs_ok (codec s) -> fields (codec s) !! n = Some fi -> FieldName fi = n ->
  fixed = Z.of_nat (length v) ->
  WriteFieldAndValue s fi v = (None, s') ->
  exists w, sink s' = sink s ++ w /\
    readFieldAndValue fixed (mkBinaryParser (w ++ rest) (codec s) cap) =
    (inr (fi, v),
     mkBinaryParser ((if bool_decide (Type_ (Info fi) = "STObject") then [225] else []) ++ rest)
       (codec s) cap).
Proof.
  intros Hok Hf Hn -> Hw. unfold WriteFieldAndValue, Encode, FieldHeaderByName in Hw.
  rewrite Hn, Hf in Hw. cbn in Hw.
  set (tail := if bool_decide (Type_ (Info fi) = "STObject") then [225] else []).
  assert (Htail : forall s0, (if bool_decide (Type_ (Info fi) = "STObject")
                              then put s0 [225] else s0) = put s0 tail).
  { intros s0. subst tail. case_bool_decide; [done|].
    destruct s0; unfold put; cbn. by rewrite app_nil_r. }
  destruct (IsVLEncoded (Info fi)) eqn:Evl.
  - destruct (encodeVariableLength _) as [e|vl] eqn:Ee; [done|].
    injection Hw as <-. rewrite Htail.
    exists (encodeHeader (Header fi) ++ vl ++ v ++ tail). split; [by cbn; rewrite <- !app_assoc|].
    unfold readFieldAndValue, pbind.
    erewrite ReadField_of_header by (done || by cbn; rewrite <- app_assoc).
    rewrite Evl. erewrite vl_roundtrip by (done || by cbn; rewrite <- !app_assoc).
    erewrite ReadBytes_app by (by cbn; rewrite <- ?app_assoc). done.
  - injection Hw as <-. rewrite Htail.
    exists (encodeHeader (Header fi) ++ v ++ tail). split; [by cbn; rewrite <- !app_assoc|].
    unfold readFieldAndValue, pbind.
    erewrite ReadField_of_header by (done || by cbn; rewrite <- app_assoc).
    rewrite Evl. unfold pret at 1.
    erewrite ReadBytes_app by (by cbn; rewrite <- ?app_assoc). done.
Qed.

(** ** Exactness of the two prefixes *)

(** The parser accepts a length prefix exactly when it is the serializer's
    encoding of the length it returns, and consumes exactly that encoding:
    every length has one encoding, read and written alike. *)
Theorem vl_codec_exact p n rest :
  all_bytes (data p) ->
  ReadVariableLength p = (inr n, set_data p rest) <->
  exists bs, encodeVariableLength n = inr bs /\ data p = bs ++ rest.
Proof.
  intros Hb. split.
  - intros H. by destruct (vl_canonical _ _ _ Hb H) as (bs & ? & ?); exists bs.
  - intros (bs & He & Hd). by apply (vl_roundtrip n bs).
Qed.

(** The parser accepts a field header exactly when it is the serializer's
    encoding of a pair of codes between 1 and 255, and returns that pair:
    no field has two identifiers on the wire. *)
Theorem header_codec_exact p fh rest :
  all_bytes (data p) ->
  readFieldHeader p = (inr fh, set_data p rest) <->
  wire_header fh /\ data p = encodeHeader fh ++ rest.
Proof.
  intros Hb. split.
  - intros H. by apply (header_canonical _ _ _ Hb) in H.
  - intros [Hw Hd]. by apply header_roundtrip.
Qed.

(** ** Instances *)

Definition exDefs : Definitions :=
  mkDefinitions {["Blob" := 7]}
    {["Memo" := mkFieldInstance "Memo" (mkFieldInfo 12 true true true "Blob") (mkFieldHeader 7 12) 458764]}
    {[mkFieldHeader 7 12 := "Memo"]}.

Definition exField : FieldInstance :=
  mkFieldInstance "Memo" (mkFieldInfo 12 true true true "Blob") (mkFieldHeader 7 12) 458764.

Lemma exDefs_lookup n fi : fields exDefs !! n = Some fi -> n = "Memo" /\ fi = exField.
Proof. cbn. intros [<- <-]%lookup_singleton_Some. done. Qed.

Lemma exDefs_ok : defs_ok exDefs.
Proof.
  intros n fi [-> ->]%exDefs_lookup. split; [done|]. split; [cbv; repeat split; discriminate|done].
Qed.

Lemma vl_codec_exact_witness :
  ReadVariableLength (NewBinaryParser [193; 0; 5] exDefs) =
    (inr 193, set_data (NewBinaryParser [193; 0; 5] exDefs) [5]).
Proof.
  apply (vl_codec_exact (NewBinaryParser [193; 0; 5] exDefs)).
  - repeat constructor; lia.
  - exists [193; 0]. split; reflexivity.
Defined.

Lemma header_codec_exact_witness :
  readFieldHeader (NewBinaryParser [124; 9] exDefs) =
    (inr (mkFieldHeader 7 12), set_data (NewBinaryParser [124; 9] exDefs) [9]).
Proof.
  apply (header_codec_exact (NewBinaryParser [124; 9] exDefs)).
  - repeat constructor; lia.
  - split; [cbv; repeat split; discriminate|reflexivity].
Defined.

Lemma createFieldIDNameMap_inverse_witness :
  fieldIDNameMap (createFieldIDNameMap ["Memo"] exDefs) !! mkFieldHeader 7 12 = Some "Memo".
Proof.
  apply (createFieldIDNameMap_inverse ["Memo"] exDefs).
  - intros n1 n2 f1 f2 [-> _]%exDefs_lookup [-> _]%exDefs_lookup _. reflexivity.
  - intros k. rewrite list_elem_of_singleton. split.
    + intros ->. exists exField. reflexivity.
    + intros [fi Hfi]. by apply exDefs_lookup in Hfi as [-> _].
  - exists exField. split; reflexivity.
Defined.

Lemma write_read_field_witness :
  exists w, sink (WriteFieldAndValue (NewBinarySerializer exDefs) exField [1; 2]).2 = [] ++ w /\
    readFieldAndValue 2 (mkBinaryParser (w ++ [9]) exDefs false) =
    (inr (exField, [1; 2]), mkBinaryParser ([] ++ [9]) exDefs false).
Proof.
  apply (write_read_field (NewBinarySerializer exDefs) exField [1; 2]
    (WriteFieldAndValue (NewBinarySerializer exDefs) exField [1; 2]).2 [9] 2 false "Memo").
  - exact exDefs_ok.
  - reflexivity.
  - reflexivity.
  - reflexivity.
  - vm_compute. reflexivity.
Defined.

End Serdes.
