(* ===== verification/Strconv.v ===== *)
(** * Numbers and bytes as text (Go's strconv, fmt and encoding/hex)

    [ParseUint] reads a 64-bit number in base 10 or 16 as the library does, with
    its overflow tests on wrapped values; [FormatUint] writes one (fmt's %X for
    base 16). Parsing is exact, and reads back what was written, as does the
    hexadecimal form of byte strings. *)

From Stdlib Require Import ZArith Lia Ascii.
From stdpp Require Import base list strings numbers.
From S2P Require Import Prelude.

Module Strconv.

(** The digit a character stands for, letters in either case; [None] for any
    other character. *)
Definition digitOf (c : ascii) : option Z :=
  let z := Z.of_N (N_of_ascii c) in
  let low := Z.lor z 32 in
  if (48 <=? z) && (z <=? 57) then Some (z - 48)
  else if (97 <=? low) && (low <=? 122) then Some (low - 97 + 10)
  else None.

(** The digit of a numeral in the given base. *)
Definition digit (base : Z) (c : ascii) : option Z :=
  match digitOf c with
  | Some d => if base <=? d then None else Some d
  | None => None
  end.

(** The value, and whether there was an error. *)
Fixpoint parseUintLoop (base : Z) (s : string) (n : Z) : Z * bool :=
  match s with
  | EmptyString => (n, false)
  | String c s =>
      match digit base c with
      | None => (0, true)
      | Some d =>
          if max_u64 / base + 1 <=? n then (max_u64, true)
          else
            let n := wrap 64 (n * base) in
            let n1 := wrap 64 (n + d) in
            if n1 <? n then (max_u64, true) else parseUintLoop base s n1
      end
  end.

Definition ParseUint (base : Z) (s : string) : Z * bool :=
  match s with
  | EmptyString => (0, true)
  | _ => parseUintLoop base s 0
  end.

Definition digitChar (d : Z) : ascii := ascii_of_N (Z.to_N (if d <? 10 then 48 + d else 55 + d)).

Fixpoint formatLoop (fuel : nat) (base v : Z) (s : string) : string :=
  match fuel with
  | O => s
  | S fuel =>
      let s := String (digitChar (v mod base)) s in
      if v <? base then s else formatLoop fuel base (v / base) s
  end.

(** A 64-bit number has at most 64 digits in any base. *)
Definition FormatUint (base v : Z) : string := formatLoop 64 base v EmptyString.

(** ** Parsing is exact *)

(** The number a string of digits denotes, at any size. *)
Fixpoint numeral (base : Z) (s : string) (acc : Z) : option Z :=
  match s with
  | EmptyString => Some acc
  | String c s => match digit base c with Some d => numeral base s (acc * base + d) | None => None end
  end.

Lemma digit_range base c d : digit base c = Some d -> 0 <= d < base.
Proof.
  unfold digit, digitOf. set (z := Z.of_N _).
  destruct ((48 <=? z) && (z <=? 57)) eqn:E1; [|destruct ((97 <=? Z.lor z 32) && (Z.lor z 32 <=? 122)) eqn:E2; [|done]];
    zbool; go_case; intros [= <-]; lia.
Qed.

Section Base.
Context (base : Z) (Hbase : base = 10 \/ base = 16).

Lemma numeral_ge s acc n : 0 <= acc -> numeral base s acc = Some n -> acc <= n.
Proof.
  revert acc. induction s as [|c s IH]; cbn; intros acc Ha Hn; [by injection Hn as ->|].
  destruct (digit base c) as [d|] eqn:Hd; [|done]. apply digit_range in Hd. apply IH in Hn; nia.
Qed.

Lemma parseUintLoop_exact s acc n :
  is_uint 64 acc -> parseUintLoop base s acc = (n, false) <-> numeral base s acc = Some n /\ n <= max_u64.
Proof.
  revert acc. induction s as [|c s IH]; intros acc Ha; cbn [parseUintLoop numeral].
  { unfold is_uint, max_u64 in *. split; [intros [= ->]; split; [done|lia]|by intros [[= ->] _]]. }
  destruct (digit base c) as [d|] eqn:Hd; [|by split; [|intros []]]. apply digit_range in Hd. unfold is_uint in Ha. cbv zeta.
  assert (Hmax : max_u64 = 18446744073709551615) by done. change (2 ^ 64) with 18446744073709551616 in *.
  pose proof (numeral_ge s (acc * base + d) n) as Hge.
  assert (Hcut : acc < max_u64 / base + 1 <-> acc * base <= max_u64).
  { rewrite Hmax. destruct Hbase as [->| ->]; dmlia. }
  destruct (Z.leb_spec (max_u64 / base + 1) acc) as [Hc|Hc].
  { split; [done|]. intros [Hn Hle]. apply Hge in Hn; [|nia]. lia. }
  apply Hcut in Hc. rewrite (wrap_small 64 (acc * base)) by (unfold is_uint; change (2 ^ 64) with 18446744073709551616; nia).
  destruct (decide (acc * base + d <= 18446744073709551615)) as [Hle|Hgt].
  - rewrite wrap_small by (unfold is_uint; change (2 ^ 64) with 18446744073709551616; nia).
    destruct (Z.ltb_spec (acc * base + d) (acc * base)); [lia|]. apply IH. unfold is_uint. change (2 ^ 64) with 18446744073709551616. nia.
  - assert (Hw : wrap 64 (acc * base + d) = acc * base + d - 18446744073709551616).
    { unfold wrap. change (2 ^ 64) with 18446744073709551616. symmetry. apply (Z.mod_unique _ _ 1); lia. }
    rewrite Hw. destruct (Z.ltb_spec (acc * base + d - 18446744073709551616) (acc * base)); [|lia].
    split; [done|]. intros [Hn Hn']. apply Hge in Hn; [|nia]. lia.
Qed.

(** A string is accepted exactly when it is a non-empty numeral whose value fits
    in 64 bits, and then that value is the result. *)
Lemma ParseUint_numeral s n :
  ParseUint base s = (n, false) <-> s <> EmptyString /\ numeral base s 0 = Some n /\ n <= max_u64.
Proof.
  destruct s as [|c s]; [by split; [|intros [? _]]|].
  unfold ParseUint. rewrite parseUintLoop_exact by done. naive_solver.
Qed.

(** ** Reading back *)

Lemma digit_digitChar d : 0 <= d < base -> digit base (digitChar d) = Some d.
Proof.
  intros Hd. assert (Hin : In d (map Z.of_nat (seq 0 16))).
  { apply in_map_iff. exists (Z.to_nat d). split; [lia|]. apply in_seq. lia. }
  destruct Hbase as [->| ->]; cbn in Hin; repeat (destruct Hin as [<-|Hin]; [first [lia|reflexivity]|]); done.
Qed.

Lemma format_numeral fuel v s acc :
  0 <= v < base ^ Z.of_nat fuel -> (0 < fuel)%nat ->
  exists k, 0 <= k /\ v < base ^ k /\ numeral base (formatLoop fuel base v s) acc = numeral base s (acc * base ^ k + v).
Proof.
  revert v s. induction fuel as [|fuel IH]; intros v s Hv Hf; [lia|]. cbn [formatLoop].
  assert (Hb : 0 < base) by lia.
  assert (Hmod : 0 <= v mod base < base) by (by apply Z.mod_pos_bound).
  destruct (Z.ltb_spec v base) as [Hlt|Hge].
  { exists 1. split; [lia|]. split; [lia|]. cbn [numeral]. rewrite digit_digitChar by done.
    rewrite (Z.mod_small v base) by lia. f_equal. lia. }
  destruct fuel as [|fuel]; [lia|].
  destruct (IH (v / base) (String (digitChar (v mod base)) s)) as (k & Hk & Hvk & ->); [|lia|].
  { split; [by apply Z.div_pos; lia|]. apply Z.div_lt_upper_bound; [done|].
    rewrite <- Z.pow_succ_r by lia. replace (Z.succ (Z.of_nat (S fuel))) with (Z.of_nat (S (S fuel))) by lia. lia. }
  exists (k + 1). split; [lia|]. rewrite Z.pow_add_r, Z.pow_1_r by lia. pose proof (Z.div_mod v base ltac:(lia)). split; [nia|].
  cbn [numeral]. rewrite digit_digitChar by done. f_equal. nia.
Qed.

Lemma format_nonempty fuel v s : (0 < fuel)%nat -> formatLoop fuel base v s <> EmptyString.
Proof.
  revert v s. induction fuel as [|fuel IH]; intros v s Hf; [lia|]. cbn [formatLoop]. destruct (v <? base); [done|].
  destruct fuel; [done|]. apply IH. lia.
Qed.

Lemma ParseUint_FormatUint v : is_uint 64 v -> ParseUint base (FormatUint base v) = (v, false).
Proof.
  intros Hv. apply ParseUint_numeral. split; [apply format_nonempty; lia|]. unfold is_uint in Hv.
  destruct (format_numeral 64 v EmptyString 0) as (k & _ & _ & Hn); [|lia|].
  { split; [lia|]. apply Z.lt_le_trans with (2 ^ 64); [lia|]. apply Z.pow_le_mono_l. lia. }
  unfold FormatUint. rewrite Hn. cbn [numeral]. split; [f_equal; lia|]. unfold max_u64. lia.
Qed.

Lemma FormatUint_nonempty v : FormatUint base v <> EmptyString.
Proof. apply format_nonempty. lia. Qed.

End Base.
(** ** encoding/hex *)

Definition hexChar (d : Z) : ascii := ascii_of_N (Z.to_N (if d <? 10 then 48 + d else 87 + d)).

Fixpoint hexEncode (b : bytes) : string :=
  match b with
  | [] => EmptyString
  | x :: b => String (hexChar (x / 16)) (String (hexChar (x mod 16)) (hexEncode b))
  end.

(** Digits in either case; an odd length or another character is an error. *)
Fixpoint hexDecode (s : string) : option bytes :=
  match s with
  | EmptyString => Some []
  | String c (String c' s) =>
      match digit 16 c, digit 16 c', hexDecode s with
      | Some d, Some d', Some b => Some (16 * d + d' :: b)
      | _, _, _ => None
      end
  | _ => None
  end.

Lemma digit_hexChar d : 0 <= d < 16 -> digit 16 (hexChar d) = Some d.
Proof.
  intros Hd. assert (Hin : In d (map Z.of_nat (seq 0 16))).
  { apply in_map_iff. exists (Z.to_nat d). split; [lia|]. apply in_seq. lia. }
  cbn in Hin. repeat (destruct Hin as [<-|Hin]; [reflexivity|]). done.
Qed.

Lemma hexDecode_hexEncode b : all_bytes b -> hexDecode (hexEncode b) = Some b.
Proof.
  induction 1 as [|x b Hx Hb IH]; [done|]. cbn [hexEncode hexDecode]. unfold is_uint in Hx. change (2 ^ 8) with 256 in Hx.
  rewrite !digit_hexChar by dmlia. rewrite IH. do 2 f_equal. dmlia.
Qed.

(** strings.TrimPrefix(s, 0x) *)
Definition trim0x (s : string) : string :=
  match s with
  | String c (String c' s') => if (c =? "0")%char && (c' =? "x")%char then s' else s
  | _ => s
  end.

Lemma trim0x_hexEncode b : all_bytes b -> trim0x (hexEncode b) = hexEncode b.
Proof.
  destruct 1 as [|x b Hx Hb]; [done|]. cbn [hexEncode trim0x]. unfold is_uint in Hx. change (2 ^ 8) with 256 in Hx.
  destruct (hexChar (x mod 16) =? "x")%char eqn:He; [|by rewrite andb_false_r].
  apply Ascii.eqb_eq in He. pose proof (digit_hexChar (x mod 16) ltac:(dmlia)) as Hd. rewrite He in Hd. done.
Qed.

Lemma hexEncode_nonempty b : b <> [] -> hexEncode b <> EmptyString.
Proof. by destruct b. Qed.

End Strconv.
