(* ===== verification/XrplNumber.v ===== *)
(** * Decimal floating point (internal/ledger/state/xrpl_number.go)

    The ledger's numbers: a sign, a 64-bit decimal mantissa and an exponent. The
    mantissa is kept within a range that the scale selects, and digits that do not
    fit pass through a guard of sixteen decimal digits and a sticky bit, from which
    the result is rounded. A panic is an error value. *)

From Stdlib Require Import ZArith Lia.
From stdpp Require Import base list numbers option.
From S2P Require Import Prelude.

Module XrplNumber.

Definition xrplNumMinExponent : Z := -32768.
Definition xrplNumMaxExponent : Z := 32768.
Definition xrplNumZeroExponent : Z := -2147483648.
Definition xrplNumMaxRep : Z := 9223372036854775807.
Definition xrplNumMaxRepUp : Z := 9223372036854775810.

Inductive MantissaScale := MantissaScaleSmall | MantissaScaleLargeLegacy | MantissaScaleLarge320 | MantissaScaleLarge330.

#[global] Instance MantissaScale_eq_dec : EqDecision MantissaScale.
Proof. solve_decision. Defined.

Definition params (s : MantissaScale) : Z * Z * Z :=
  match s with
  | MantissaScaleSmall => (1000000000000000, 9999999999999999, 15)
  | _ => (1000000000000000000, 9999999999999999999, 18)
  end.

Definition MantissaScaleForRulesWithFixes (hasRules singleAssetVault lendingProtocol fixCleanup320 fixCleanup330 : bool) : MantissaScale :=
  if negb hasRules then MantissaScaleLarge330
  else if negb singleAssetVault && negb lendingProtocol then MantissaScaleSmall
  else if fixCleanup330 then MantissaScaleLarge330
  else if fixCleanup320 then MantissaScaleLarge320
  else MantissaScaleLargeLegacy.

Inductive cuspFix := cuspRoundingDisabled | cuspRounding320 | cuspRounding330.

Definition cuspRoundingFix (s : MantissaScale) : cuspFix :=
  match s with
  | MantissaScaleLarge320 => cuspRounding320
  | MantissaScaleLarge330 => cuspRounding330
  | _ => cuspRoundingDisabled
  end.

Definition is330 (fix_ : cuspFix) : bool := match fix_ with cuspRounding330 => true | _ => false end.

Definition isDisabled (fix_ : cuspFix) : bool := match fix_ with cuspRoundingDisabled => true | _ => false end.

Inductive RoundingMode := RoundToNearest | RoundTowardsZero | RoundDownward | RoundUpward.

Record XRPLNumber := mkNumber { negative : bool; mantissa : Z; exponent : Z; scale : MantissaScale }.

(** The panics, and a loop that does not end. *)
Inductive numError := NormalizeOverflow | AdditionOverflow | MultiplicationOverflow | DivideByZero | RepOverflow | RepRoundingOverflow
  | ShiftOverflow | NoEnd.

(** ** The guard *)

Record xrplGuard := mkGuard { digits : Z; xbit : bool; sbit : bool }.

Definition newGuard (neg : bool) : xrplGuard := mkGuard 0 false neg.

Definition push (g : xrplGuard) (d : Z) : xrplGuard :=
  mkGuard (Z.lor (Z.shiftr (digits g) 4) (u64 (Z.shiftl (Z.land d 15) 60))) (xbit g || negb (Z.land (digits g) 15 =? 0)) (sbit g).

Definition pop (g : xrplGuard) : Z * xrplGuard :=
  (Z.shiftr (Z.land (digits g) (Z.shiftl 15 60)) 60, mkGuard (u64 (Z.shiftl (digits g) 4)) (xbit g) (sbit g)).

Definition setDropped (g : xrplGuard) : xrplGuard := mkGuard (digits g) true (sbit g).

Definition guardEmpty (g : xrplGuard) : bool := (digits g =? 0) && negb (xbit g).

(** Half of the last unit, in the guard's digits. *)
Definition guardHalf : Z := Z.shiftl 5 60.

Definition round (g : xrplGuard) (mode : RoundingMode) (fix_ : cuspFix) : Z :=
  if is330 fix_ && guardEmpty g then -2
  else
    match mode with
    | RoundTowardsZero => -1
    | RoundDownward => if sbit g && negb (guardEmpty g) then 1 else -1
    | RoundUpward => if sbit g then -1 else if negb (guardEmpty g) then 1 else -1
    | RoundToNearest =>
        if guardHalf <? digits g then 1
        else if digits g <? guardHalf then -1
        else if xbit g then 1
        else 0
    end.

Definition pushOverflow (g : xrplGuard) (m : Z) (fix_ : cuspFix) (mode : RoundingMode) : xrplGuard :=
  if negb (is330 fix_) || (m <? xrplNumMaxRep) || (xrplNumMaxRepUp <=? m) then g
  else
    let r := round g mode fix_ in
    let m := if m mod 10 <? 9 then if (r =? 1) || ((r =? 0) && (m =? xrplNumMaxRep + 1)) then m + 1 else m else m in
    push g (Z.quot ((m - xrplNumMaxRep) * 10) (xrplNumMaxRepUp - xrplNumMaxRep)).

(** ** Rounding and normalization *)

(** Sign, mantissa and exponent under way. *)
Abbreviation parts := (bool * Z * Z)%type.

Definition bringIntoRange (p : parts) (minM : Z) (fix_ : cuspFix) : parts :=
  let '(neg, m, e) := p in
  let '(m, e) := if (m <? minM) && (negb (is330 fix_) || negb (m =? 0)) then (u64 (m * 10), e - 1) else (m, e) in
  if (e <? xrplNumMinExponent) || (is330 fix_ && (m =? 0)) then (false, 0, xrplNumZeroExponent) else (neg, m, e).

(** The end of rounding up: back into range, and no further than the largest exponent. *)
Definition settle (p : parts) (minM : Z) (fix_ : cuspFix) (loc : numError) : numError + parts :=
  let '(neg, m, e) := bringIntoRange p minM fix_ in
  if xrplNumMaxExponent <? e then inl loc else inr (neg, m, e).

Definition inCusp (fix_ : cuspFix) (m : Z) : bool := is330 fix_ && (xrplNumMaxRep <? m) && (m <? xrplNumMaxRepUp).

Fixpoint doRoundUp (fuel : nat) (g : xrplGuard) (p : parts) (minM maxM : Z) (fix_ : cuspFix) (mode : RoundingMode) (loc : numError) :
    numError + parts :=
  match fuel with
  | O => inl NoEnd
  | S fuel =>
      let '(neg, m, e) := p in
      let g := pushOverflow g m fix_ mode in
      let r := round g mode fix_ in
      if (r =? 1) || ((r =? 0) && (Z.land m 1 =? 1)) then
        let safeToIncrement := (m <? maxM) && (m <? xrplNumMaxRep) in
        if negb (isDisabled fix_) then
          if safeToIncrement then settle (neg, u64 (m + 1), e) minM fix_ loc
          else if inCusp fix_ m then settle (neg, xrplNumMaxRepUp, e) minM fix_ loc
          else doRoundUp fuel (push g (m mod 10)) (neg, m / 10, e + 1) minM maxM fix_ mode loc
        else
          let m := u64 (m + 1) in
          if (maxM <? m) || (xrplNumMaxRep <? m) then settle (neg, m / 10, e + 1) minM fix_ loc else settle (neg, m, e) minM fix_ loc
      else if inCusp fix_ m then settle (neg, xrplNumMaxRep, e) minM fix_ loc
      else settle (neg, m, e) minM fix_ loc
  end.

(** A second round is at a tenth of the mantissa, which can be incremented. *)
Definition roundFuel : nat := 2.

Definition doRoundDown (g : xrplGuard) (p : parts) (minM : Z) (fix_ : cuspFix) (mode : RoundingMode) : parts :=
  let '(neg, m, e) := p in
  let r := round g mode fix_ in
  let '(m, e) :=
    if is330 fix_ then (if negb (r =? -2) then u64 (m - 1) else m, e)
    else if (r =? 1) || ((r =? 0) && (Z.land m 1 =? 1)) then
      let m := u64 (m - 1) in
      if m <? minM then (u64 (m * 10), e - 1) else (m, e)
    else (m, e) in
  bringIntoRange (neg, m, e) minM fix_.

Definition zeroIn (s : MantissaScale) : XRPLNumber := mkNumber false 0 xrplNumZeroExponent s.

Definition zero (n : XRPLNumber) : XRPLNumber := zeroIn (scale n).

(** [w] is the width of the mantissa: 64 bits or a big integer. *)
Fixpoint scaleUp (w : Z -> Z) (fuel : nat) (m e minM : Z) : Z * Z :=
  match fuel with
  | O => (m, e)
  | S fuel => if (m <? minM) && (xrplNumMinExponent <? e) then scaleUp w fuel (w (m * 10)) (e - 1) minM else (m, e)
  end.

Fixpoint scaleDown (fuel : nat) (g : xrplGuard) (m e maxM : Z) : numError + (xrplGuard * Z * Z) :=
  match fuel with
  | O => inr (g, m, e)
  | S fuel =>
      if maxM <? m then
        if xrplNumMaxExponent <=? e then inl NormalizeOverflow
        else scaleDown fuel (push g (m mod 10)) (m / 10) (e + 1) maxM
      else inr (g, m, e)
  end.

(** Twenty digits reach any range from one; a mantissa has no more digits than bits. *)
Definition upFuel : nat := 20.
Definition downFuel (m : Z) : nat := Z.to_nat (Z.log2 m + 1).

Definition repLimit (fix_ : cuspFix) : Z := if is330 fix_ then xrplNumMaxRepUp else xrplNumMaxRep.

(** The body that the normalizations share, for a mantissa that is not zero. *)
Definition normalizeParts (w : Z -> Z) (g : xrplGuard) (m e minM maxM : Z) (fix_ : cuspFix) (mode : RoundingMode) (neg : bool) :
    numError + parts :=
  let '(m, e) := scaleUp w upFuel m e minM in
  let? r := scaleDown (downFuel m) g m e maxM in
  let '(g, m, e) := r in
  if (e <? xrplNumMinExponent) || (m <? minM) then inr (false, 0, xrplNumZeroExponent)
  else
    if repLimit fix_ <? m then
      if xrplNumMaxExponent <=? e then inl NormalizeOverflow
      else doRoundUp roundFuel (push g (m mod 10)) (neg, m / 10, e + 1) minM maxM fix_ mode NormalizeOverflow
    else doRoundUp roundFuel g (neg, m, e) minM maxM fix_ mode NormalizeOverflow.

Definition ofParts (s : MantissaScale) (p : parts) : XRPLNumber := let '(neg, m, e) := p in mkNumber neg m e s.

Definition normalize (n : XRPLNumber) (mode : RoundingMode) : numError + XRPLNumber :=
  let '(minM, maxM, _) := params (scale n) in
  if mantissa n =? 0 then inr (zero n)
  else
    let? p := normalizeParts (fun z => u64 z) (newGuard (negative n)) (mantissa n) (exponent n) minM maxM (cuspRoundingFix (scale n)) mode
                (negative n) in
    inr (ofParts (scale n) p).

Definition normalizeFromBigDropped (neg : bool) (m e : Z) (s : MantissaScale) (mode : RoundingMode) (dropped : bool) : numError + XRPLNumber :=
  if m =? 0 then inr (zeroIn s)
  else
    let '(minM, maxM, _) := params s in
    let g := if dropped then setDropped (newGuard neg) else newGuard neg in
    let? p := normalizeParts (fun z => z) g m e minM maxM (cuspRoundingFix s) mode neg in
    inr (ofParts s p).

Definition normalizeFromBig (neg : bool) (m e : Z) (s : MantissaScale) (mode : RoundingMode) : numError + XRPLNumber :=
  normalizeFromBigDropped neg m e s mode false.

Definition normalizeInRange (p : parts) (minM maxM : Z) : numError + parts :=
  let '(neg, m, e) := p in
  if m =? 0 then inr (false, m, xrplNumZeroExponent)
  else normalizeParts (fun z => u64 z) (newGuard neg) m e minM maxM cuspRoundingDisabled RoundToNearest neg.

Definition signed (neg : bool) (m : Z) : Z := if neg then - m else m.

Definition NormalizeToRange (n : XRPLNumber) (minM maxM : Z) : numError + (Z * Z) :=
  let? p := normalizeInRange (negative n, mantissa n, exponent n) minM maxM in
  let '(neg, m, e) := p in
  inr (signed neg m, e).

(** ** Construction and views *)

Definition externalToInternal (m : Z) : bool * Z :=
  if 0 <=? m then (false, m) else if -9223372036854775807 <=? m then (true, - m) else (true, xrplNumMaxRep + 1).

Definition newNumber (m e : Z) (s : MantissaScale) (mode : RoundingMode) : numError + XRPLNumber :=
  let '(neg, m) := externalToInternal m in
  normalize (mkNumber neg m e s) mode.

Definition newXRPLNumberRawUnsigned (m e : Z) : XRPLNumber := mkNumber false m e MantissaScaleSmall.

Definition oneVal (n : XRPLNumber) : XRPLNumber :=
  let '(minM, _, rangeLog) := params (scale n) in mkNumber false minM (- rangeLog) (scale n).

Definition IsZero (n : XRPLNumber) : bool := mantissa n =? 0.

Definition Signum (n : XRPLNumber) : Z := if mantissa n =? 0 then 0 else if negative n then -1 else 1.

Definition Cmp (n y : XRPLNumber) : Z :=
  if negb (eqb (negative n) (negative y)) then if negative n then -1 else 1
  else if mantissa n =? 0 then if mantissa y =? 0 then 0 else -1
  else if mantissa y =? 0 then 1
  else
    let cmp :=
      if exponent n <? exponent y then -1
      else if exponent y <? exponent n then 1
      else if mantissa n <? mantissa y then -1
      else if mantissa y <? mantissa n then 1
      else 0 in
    if negative n then - cmp else cmp.

Definition Equal (n y : XRPLNumber) : bool :=
  eqb (negative n) (negative y) && (mantissa n =? mantissa y) && (exponent n =? exponent y).

Definition Negate (n : XRPLNumber) : XRPLNumber :=
  if mantissa n =? 0 then n else mkNumber (negb (negative n)) (mantissa n) (exponent n) (scale n).

Definition Mantissa (n : XRPLNumber) : Z :=
  let m := if xrplNumMaxRep <? mantissa n then mantissa n / 10 else mantissa n in signed (negative n) m.

Definition Exponent (n : XRPLNumber) : Z := if xrplNumMaxRep <? mantissa n then exponent n + 1 else exponent n.

Definition Truncate (n : XRPLNumber) : numError + XRPLNumber :=
  if (mantissa n =? 0) || (0 <=? exponent n) then inr n
  else normalizeFromBig (negative n) (mantissa n / 10 ^ (- exponent n)) 0 (scale n) RoundToNearest.

(** ** Arithmetic *)

(** [n] digits of the mantissa into the guard. *)
Fixpoint dropDigits (n : nat) (g : xrplGuard) (m : Z) : xrplGuard * Z :=
  match n with
  | O => (g, m)
  | S n => dropDigits n (push g (m mod 10)) (m / 10)
  end.

(** The digits come back from the guard. *)
Fixpoint borrow (more : xrplGuard -> Z -> bool) (w : Z -> Z) (fuel : nat) (g : xrplGuard) (m e : Z) : numError + (xrplGuard * Z * Z) :=
  if negb (more g m) then inr (g, m, e)
  else
    match fuel with
    | O => inl NoEnd
    | S fuel => let '(d, g) := pop g in borrow more w fuel g (w (m * 10 - d)) (e - 1)
    end.

(** Sixteen digits of the guard and as many as the range has. *)
Definition borrowFuel : nat := 40.

Definition addRoundedLegacy (n y : XRPLNumber) (mode : RoundingMode) : numError + XRPLNumber :=
  if IsZero y then inr n
  else if IsZero n then inr y
  else if Equal n (Negate y) then inr (zero n)
  else
    let '(minM, maxM, _) := params (scale n) in
    let fix_ := cuspRoundingFix (scale n) in
    let '(xn, xm, xe) := (negative n, mantissa n, exponent n) in
    let '(yn, ym, ye) := (negative y, mantissa y, exponent y) in
    let '(g, xm, ym, xe) :=
      if xe <? ye then let '(g, xm) := dropDigits (Z.to_nat (ye - xe)) (newGuard xn) xm in (g, xm, ym, ye)
      else if ye <? xe then let '(g, ym) := dropDigits (Z.to_nat (xe - ye)) (newGuard yn) ym in (g, xm, ym, xe)
      else (newGuard false, xm, ym, xe) in
    let? p :=
      if eqb xn yn then
        let sum := xm + ym in
        let '(g, xm, xe) := if (maxM <? sum) || (xrplNumMaxRep <? sum) then (push g (sum mod 10), sum / 10, xe + 1) else (g, sum, xe) in
        doRoundUp roundFuel g (xn, xm, xe) minM maxM fix_ mode AdditionOverflow
      else
        let '(xm, xn) := if ym <? xm then (xm - ym, xn) else (ym - xm, yn) in
        let? r := borrow (fun _ m => (m <? minM) && (m <=? xrplNumMaxRep / 10)) (fun z => u64 z) borrowFuel g xm xe in
        let '(g, xm, xe) := r in
        inr (doRoundDown g (xn, xm, xe) minM fix_ mode) in
    normalize (ofParts (scale n) p) mode.

Definition upperLimit : Z := 1000000000000000000 * 1000.

Fixpoint dropZeros (n : nat) (g : xrplGuard) (m e : Z) : xrplGuard * Z * Z :=
  match n with
  | O => (g, m, e)
  | S n => if m mod 10 =? 0 then dropZeros n (push g (m mod 10)) (m / 10) (e + 1) else (g, m, e)
  end.

Fixpoint expandDigits (n : nat) (m e : Z) : Z * Z :=
  match n with
  | O => (m, e)
  | S n => if (xrplNumMinExponent <? e) && (m <? upperLimit) then expandDigits n (m * 10) (e - 1) else (m, e)
  end.

(** The two operands at one exponent: the larger one, the smaller one, the exponent. *)
Definition adjust (g : xrplGuard) (expandM expandE shrinkM shrinkE : Z) : xrplGuard * Z * Z * Z :=
  let '(g, shrinkM, shrinkE) := dropZeros (Z.to_nat (expandE - shrinkE)) g shrinkM shrinkE in
  let '(expandM, expandE) := expandDigits (Z.to_nat (expandE - shrinkE)) expandM expandE in
  let '(g, shrinkM) := dropDigits (Z.to_nat (expandE - shrinkE)) g shrinkM in
  (g, expandM, shrinkM, expandE).

Definition addRounded330 (n y : XRPLNumber) (mode : RoundingMode) : numError + XRPLNumber :=
  if IsZero y then inr n
  else if IsZero n then inr y
  else if Equal n (Negate y) then inr (zero n)
  else
    let '(xn, xm, xe) := (negative n, mantissa n, exponent n) in
    let '(yn, ym, ye) := (negative y, mantissa y, exponent y) in
    let '(g, xm, ym, xe) :=
      if xe <? ye then let '(g, ym, xm, e) := adjust (newGuard xn) ym ye xm xe in (g, xm, ym, e)
      else if ye <? xe then let '(g, xm, ym, e) := adjust (newGuard yn) xm xe ym ye in (g, xm, ym, e)
      else (newGuard (((xm <? ym) && xn) || ((ym <? xm) && yn)), xm, ym, xe) in
    if eqb xn yn then normalizeFromBigDropped xn (xm + ym) xe (scale n) mode (negb (guardEmpty g))
    else
      let '(xm, xn) := if ym <? xm then (xm - ym, xn) else (ym - xm, yn) in
      let? r := borrow (fun g m => (m <? upperLimit) && negb (guardEmpty g)) (fun z => z) borrowFuel g xm xe in
      let '(g, xm, xe) := r in
      let xm := if negb (round g mode cuspRounding330 =? -2) then xm - 1 else xm in
      normalizeFromBigDropped xn xm xe (scale n) mode (negb (guardEmpty g)).

Definition AddRounded (n y : XRPLNumber) (mode : RoundingMode) : numError + XRPLNumber :=
  if bool_decide (scale n = MantissaScaleLarge330) then addRounded330 n y mode else addRoundedLegacy n y mode.

Definition Sub (n y : XRPLNumber) : numError + XRPLNumber := AddRounded n (Negate y) RoundToNearest.

Fixpoint shrinkProduct (fuel : nat) (g : xrplGuard) (m e maxM limit : Z) : xrplGuard * Z * Z :=
  match fuel with
  | O => (g, m, e)
  | S fuel => if (maxM <? m) || (limit <? m) then shrinkProduct fuel (push g (m mod 10)) (m / 10) (e + 1) maxM limit else (g, m, e)
  end.

Definition MulRounded (n y : XRPLNumber) (mode : RoundingMode) : numError + XRPLNumber :=
  if IsZero n then inr n
  else if IsZero y then inr y
  else
    let '(minM, maxM, _) := params (scale n) in
    let fix_ := cuspRoundingFix (scale n) in
    let zn := negb (eqb (negative n) (negative y)) in
    let zm := mantissa n * mantissa y in
    let '(g, zm, ze) := shrinkProduct (downFuel zm) (newGuard zn) zm (exponent n + exponent y) maxM (repLimit fix_) in
    let? p := doRoundUp roundFuel g (zn, zm, ze) minM maxM fix_ mode MultiplicationOverflow in
    normalize (ofParts (scale n) p) mode.

Definition DivRounded (n y : XRPLNumber) (mode : RoundingMode) : numError + XRPLNumber :=
  if IsZero y then inl DivideByZero
  else if IsZero n then inr n
  else
    let zn := negb (eqb (negative n) (negative y)) in
    let dmu := mantissa y in
    let numerator := mantissa n * 100000000000000000 in
    let zm := numerator / dmu in
    let remainder := numerator mod dmu in
    let ze := exponent n - exponent y - 17 in
    if negb (bool_decide (scale n = MantissaScaleSmall)) && negb (remainder =? 0) then
      let partialNumerator := remainder * 100000 in
      let correction := partialNumerator / dmu in
      let '(zm, ze) := if negb (correction =? 0) then (zm * 100000 + correction, ze - 5) else (zm, ze) in
      let dropped := negb (isDisabled (cuspRoundingFix (scale n))) && negb (partialNumerator mod dmu =? 0) in
      normalizeFromBigDropped zn zm ze (scale n) mode dropped
    else normalizeFromBigDropped zn zm ze (scale n) mode false.

Fixpoint growDrops (n : nat) (drops : Z) : numError + Z :=
  match n with
  | O => inr drops
  | S n => if xrplNumMaxRep / 10 <? drops then inl RepOverflow else growDrops n (drops * 10)
  end.

Definition ToInt64WithMode (n : XRPLNumber) (mode : RoundingMode) : numError + Z :=
  let drops := Mantissa n in
  let offset := Exponent n in
  if drops =? 0 then inr 0
  else
    let '(g, drops) := dropDigits (Z.to_nat (- offset)) (newGuard (drops <? 0)) (Z.abs drops) in
    let? drops := growDrops (Z.to_nat offset) drops in
    let r := round g mode (cuspRoundingFix (scale n)) in
    let? drops :=
      if (r =? 1) || ((r =? 0) && (Z.land drops 1 =? 1)) then if xrplNumMaxRep <=? drops then inl RepRoundingOverflow else inr (drops + 1)
      else inr drops in
    inr (signed (sbit g) drops).

Definition shiftExponent (n : XRPLNumber) (delta : Z) : numError + XRPLNumber :=
  let newE := exponent n + delta in
  if xrplNumMaxExponent <=? newE then inl ShiftOverflow
  else if newE <? xrplNumMinExponent then inr (zero n)
  else inr (mkNumber (negative n) (mantissa n) newE (scale n)).

Fixpoint Power (fuel : nat) (n : XRPLNumber) (exp : Z) : numError + XRPLNumber :=
  if exp =? 0 then inr (oneVal n)
  else if exp =? 1 then inr n
  else
    match fuel with
    | O => inl NoEnd
    | S fuel =>
        let? r := Power fuel n (exp / 2) in
        let? r := MulRounded r r RoundToNearest in
        if negb (exp mod 2 =? 0) then MulRounded r n RoundToNearest else inr r
    end.

End XrplNumber.
