(* ===== verification/XrplRound.v ===== *)
(** * Rounding of decimal floating point

    Exact results are rationals; a number stands for its mantissa times a power of
    ten. The guard stands for a fraction of the last unit, which its digits and
    sticky bit locate well enough to round every mode correctly. *)

From Stdlib Require Import ZArith Lia QArith Qabs Qpower Lqa.
From stdpp Require Import base list numbers option.
From S2P Require Import Prelude XrplNumber.

Import XrplNumber.
Open Scope Z_scope.

Module XrplRound.

(** ** Digit lists *)

Definition positional (b : Z) (ds : list Z) : Z := foldl (fun a d => a * b + d) 0 ds.

Lemma positional_from b ds a : foldl (fun a d => a * b + d) a ds = a * b ^ Z.of_nat (length ds) + positional b ds.
Proof.
  unfold positional. revert a. induction ds as [|d ds IH]; intros a; [cbn; lia|]. cbn [foldl length]. rewrite IH, (IH (0 * b + d)).
  rewrite Nat2Z.inj_succ, Z.pow_succ_r by lia. ring.
Qed.

Lemma positional_cons b d ds : positional b (d :: ds) = d * b ^ Z.of_nat (length ds) + positional b ds.
Proof. unfold positional. cbn [foldl]. rewrite positional_from. unfold positional. ring. Qed.

Lemma positional_snoc b ds d : positional b (ds ++ [d]) = positional b ds * b + d.
Proof. unfold positional. by rewrite foldl_app. Qed.

Definition isDigit (d : Z) : Prop := 0 <= d < 10.

Lemma positional_bound b ds : 10 <= b -> Forall isDigit ds -> 0 <= positional b ds < b ^ Z.of_nat (length ds).
Proof.
  intros Hb Hds. induction Hds as [|d ds [Hd Hd'] _ IH]; [cbn; lia|]. rewrite positional_cons. cbn [length]. rewrite Nat2Z.inj_succ, Z.pow_succ_r by lia. nia.
Qed.

(** The digits compare as their values do, whichever the base. *)
Lemma positional_half d ds :
  isDigit d -> Forall isDigit ds ->
  forall b, 10 <= b ->
  (5 * b ^ Z.of_nat (length ds) < positional b (d :: ds) <-> 5 < d \/ (d = 5 /\ 0 < positional 10 ds)) /\
  (positional b (d :: ds) < 5 * b ^ Z.of_nat (length ds) <-> d < 5).
Proof.
  intros Hd Hds b Hb. rewrite positional_cons. pose proof (positional_bound b ds Hb Hds) as Hbd.
  assert (Hz : 0 < positional b ds <-> 0 < positional 10 ds).
  { clear Hbd. induction Hds as [|x ds [Hx _] Hds IH]; [done|]. rewrite !positional_cons.
    pose proof (positional_bound b ds Hb Hds). pose proof (positional_bound 10 ds ltac:(lia) Hds).
    assert (0 < b ^ Z.of_nat (length ds)) by (apply Z.pow_pos_nonneg; lia). assert (0 < 10 ^ Z.of_nat (length ds)) by (apply Z.pow_pos_nonneg; lia).
    destruct (decide (x = 0)) as [->|Hne]; [lia|]. split; intros _; nia. }
  split; [split|]; unfold isDigit in *; [|intros [?|[-> ?]]; nia|split; intros; nia].
  intros H. destruct (decide (5 < d)) as [|Hn]; [by left|]. right. assert (d = 5) as -> by nia. split; [done|]. apply Hz. nia.
Qed.

(** ** The guard *)

(** The sixteen digits of the guard. *)
Definition held (g : xrplGuard) (ds : list Z) : Prop := digits g = positional 16 ds /\ length ds = 16%nat /\ Forall isDigit ds.

Lemma held_new neg : held (newGuard neg) (replicate 16 0).
Proof. split; [done|]. split; [done|]. apply Forall_replicate. done. Qed.

Lemma held_push g ds l d : held g (ds ++ [l]) -> isDigit d -> held (push g d) (d :: ds) /\ (Z.land (digits g) 15 =? 0) = (l =? 0).
Proof.
  intros (Hg & Hlen & Hds) Hd. rewrite length_app in Hlen. cbn in Hlen. apply Forall_app in Hds as [Hds Hl]. inversion_clear Hl as [|? ? Hl' _].
  rewrite positional_snoc in Hg. pose proof (positional_bound 16 ds ltac:(lia) Hds) as Hb. assert (Hn : length ds = 15%nat) by lia. rewrite Hn in Hb.
  unfold isDigit in *. change (Z.of_nat 15) with 15 in Hb.
  assert (Hland : Z.land (digits g) 15 = l).
  { rewrite Hg. change 15 with (Z.ones 4). rewrite Z.land_ones by lia. change (2 ^ 4) with 16. rewrite Z.add_comm, Z.mod_add by lia. apply Z.mod_small. lia. }
  split; [|by rewrite Hland]. split; [|split; [cbn; lia|by constructor]]. cbn [push digits]. rewrite positional_cons, Hn. change (Z.of_nat 15) with 15.
  assert (Hsh : Z.shiftr (digits g) 4 = positional 16 ds).
  { rewrite Z.shiftr_div_pow2, Hg by lia. change (2 ^ 4) with 16. rewrite Z.div_add_l, Z.div_small by lia. lia. }
  rewrite Hsh. replace (Z.land d 15) with d.
  2:{ change 15 with (Z.ones 4). rewrite Z.land_ones by lia. symmetry. apply Z.mod_small. change (2 ^ 4) with 16. lia. }
  rewrite Z.shiftl_mul_pow2 by lia. rewrite wrap_small by (split; lia).
  pose proof (Z.add_lor_land (positional 16 ds) (d * 2 ^ 60)) as Hsum. replace (Z.land (positional 16 ds) (d * 2 ^ 60)) with 0 in Hsum; [change (16 ^ 15) with (2 ^ 60); lia|].
  symmetry. apply Z.bits_inj'. intros i Hi. rewrite Z.bits_0, Z.land_spec. destruct (Z.lt_ge_cases i 60) as [Hlt|Hge].
  - rewrite Z.mul_pow2_bits_low by lia. apply andb_false_r.
  - replace (Z.testbit (positional 16 ds) i) with false; [done|]. symmetry. destruct (decide (positional 16 ds = 0)) as [->|Hne]; [apply Z.bits_0|].
    apply Z.bits_above_log2; [lia|]. apply Z.log2_lt_pow2; [lia|]. assert (2 ^ 60 <= 2 ^ i) by (apply Z.pow_le_mono_r; lia). change (16 ^ 15) with (2 ^ 60) in Hb. lia.
Qed.

Lemma held_pop g d ds : held g (d :: ds) -> fst (pop g) = d /\ held (snd (pop g)) (ds ++ [0]).
Proof.
  intros (Hg & Hlen & Hds). inversion_clear Hds as [|? ? Hd Hds']. cbn in Hlen. rewrite positional_cons in Hg.
  pose proof (positional_bound 16 ds ltac:(lia) Hds') as Hb. assert (Hn : length ds = 15%nat) by lia. rewrite Hn in *. change (Z.of_nat 15) with 15 in *.
  change (16 ^ 15) with (2 ^ 60) in *. unfold isDigit in *. cbn [pop fst snd]. split.
  - rewrite Z.shiftr_land, Z.shiftr_shiftl_l, Z.sub_diag, Z.shiftl_0_r, Z.shiftr_div_pow2 by lia. rewrite Hg, Z.add_comm, Z.div_add, Z.div_small by lia.
    change 15 with (Z.ones 4). rewrite Z.land_ones by lia. apply Z.mod_small. change (2 ^ 4) with 16. lia.
  - split; [|split; [rewrite length_app; cbn; lia|by apply Forall_app; split; [|repeat constructor]]]. cbn [digits]. rewrite positional_snoc.
    unfold wrap. rewrite Z.shiftl_mul_pow2, Hg by lia. replace ((d * 2 ^ 60 + positional 16 ds) * 2 ^ 4) with (positional 16 ds * 16 + 0 + d * 2 ^ 64) by lia.
    rewrite Z.mod_add by lia. apply Z.mod_small. lia.
Qed.
(** ** Powers of ten *)

Definition tens (e : Z) : Q := (10 ^ e)%Q.

Lemma tens_pos e : (0 < tens e)%Q.
Proof. apply Qpower_0_lt. done. Qed.

Lemma tens_add a b : (tens (a + b) == tens a * tens b)%Q.
Proof. apply Qpower_plus. done. Qed.

Lemma tens_succ e : (tens (e + 1) == 10 * tens e)%Q.
Proof. rewrite tens_add. unfold tens at 2. cbn. ring. Qed.

Lemma tens_nonneg n : 0 <= n -> (tens n == inject_Z (10 ^ n))%Q.
Proof.
  intros Hn. pattern n. apply natlike_ind; [reflexivity| |done]. intros x Hx IH. unfold Z.succ. rewrite tens_succ, IH, Z.pow_add_r by lia.
  rewrite inject_Z_mult. unfold Qeq; cbn; lia.
Qed.

(** Mixed goals over integers and rationals: integer operations out of the
    injections, then linear arithmetic. *)
Ltac qlra := rewrite ?inject_Z_plus, ?inject_Z_mult, ?inject_Z_opp in *; lra.

Lemma injZ_le a b : a <= b -> (inject_Z a <= inject_Z b)%Q.
Proof. intros H. by rewrite <- Zle_Qle. Qed.

Lemma injZ_lt a b : a < b -> (inject_Z a < inject_Z b)%Q.
Proof. intros H. by rewrite <- Zlt_Qlt. Qed.

(** ** What the guard stands for

    A fraction [f] of the last unit: its first sixteen digits, and whether there
    is more. Digits taken back leave zeros at the end, [k] of them, which the sticky
    bit then blurs. *)
Definition stands (k : Z) (g : xrplGuard) (f : Q) : Prop :=
  exists ds, held g ds /\
  if xbit g then (10 ^ k | positional 10 ds) /\ (inject_Z (positional 10 ds) < f * inject_Z (10 ^ 16) < inject_Z (positional 10 ds + 10 ^ k))%Q
  else (f * inject_Z (10 ^ 16) == inject_Z (positional 10 ds))%Q.

Lemma stands_new neg : stands 0 (newGuard neg) 0.
Proof. exists (replicate 16 0). split; [apply held_new|]. cbn [xbit newGuard]. vm_compute. reflexivity. Qed.

(** Only that there is a fraction is known, and how many digits of it are zero. *)
Lemma stands_dropped k neg f : 0 <= k <= 16 -> (0 < f)%Q -> (f * inject_Z (10 ^ (16 - k)) < 1)%Q -> stands k (setDropped (newGuard neg)) f.
Proof.
  intros Hk H0 H1. exists (replicate 16 0). split; [apply held_new|]. cbn [xbit setDropped]. change (positional 10 (replicate 16 0)) with 0. rewrite Z.add_0_l.
  replace (10 ^ 16) with (10 ^ (16 - k) * 10 ^ k) by (rewrite <- Z.pow_add_r by lia; f_equal; lia). split; [exists 0; done|].
  assert (Hp : (0 < inject_Z (10 ^ k))%Q) by (change 0%Q with (inject_Z 0); apply injZ_lt, Z.pow_pos_nonneg; lia).
  assert (Hp' : (0 < inject_Z (10 ^ (16 - k)))%Q) by (change 0%Q with (inject_Z 0); apply injZ_lt, Z.pow_pos_nonneg; lia).
  rewrite inject_Z_mult, Qmult_assoc. change (inject_Z 0) with 0%Q. split.
  - apply Qmult_lt_0_compat; [by apply Qmult_lt_0_compat|done].
  - rewrite <- (Qmult_1_l (inject_Z (10 ^ k))) at 2. by apply Qmult_lt_r.
Qed.

Lemma next_multiple q a p : 0 < p -> q * p < a * p -> q * p + p <= a * p.
Proof. intros Hp Hlt%Z.mul_lt_mono_pos_r; [|done]. nia. Qed.

Lemma stands_range k g f : 0 <= k <= 15 -> stands k g f -> (0 <= f < 1)%Q.
Proof.
  intros Hk (ds & (Hg & Hlen & Hds) & Hf). pose proof (positional_bound 10 ds ltac:(lia) Hds) as Hb. rewrite Hlen in Hb. change (10 ^ Z.of_nat 16) with 10000000000000000 in Hb.
  change (10 ^ 16) with 10000000000000000 in Hf. destruct (xbit g).
  - destruct Hf as [[q Hq] Hf]. assert (Htop : positional 10 ds + 10 ^ k <= 10000000000000000).
    { rewrite Hq in *. replace 10000000000000000 with (10 ^ (16 - k) * 10 ^ k) in * by (rewrite <- Z.pow_add_r by lia; replace (16 - k + k) with 16 by lia; reflexivity).
      apply next_multiple; [apply Z.pow_pos_nonneg; lia|apply Hb]. }
    apply injZ_le in Htop. destruct Hb as [Hb%injZ_le _]. change (inject_Z 10000000000000000) with (10000000000000000 # 1)%Q in *. change (inject_Z 0) with 0%Q in *. lra.
  - destruct Hb as [Hb%injZ_le Hb'%injZ_lt]. change (inject_Z 10000000000000000) with (10000000000000000 # 1)%Q in *. change (inject_Z 0) with 0%Q in *. lra.
Qed.

Lemma stands_empty k g f : 0 <= k <= 15 -> stands k g f -> guardEmpty g = true <-> (f == 0)%Q.
Proof.
  intros Hk (ds & (Hg & Hlen & Hds) & Hf). unfold guardEmpty. rewrite andb_true_iff, Z.eqb_eq, negb_true_iff, Hg.
  pose proof (positional_bound 10 ds ltac:(lia) Hds) as Hb. pose proof (positional_bound 16 ds ltac:(lia) Hds) as Hb16.
  change (10 ^ 16) with 10000000000000000 in Hf. change (inject_Z 10000000000000000) with (10000000000000000 # 1)%Q in *.
  assert (Hz : positional 16 ds = 0 <-> positional 10 ds = 0).
  { clear -Hds. induction Hds as [|x ds [Hx _] Hds IH]; [done|]. rewrite !positional_cons.
    pose proof (positional_bound 16 ds ltac:(lia) Hds). pose proof (positional_bound 10 ds ltac:(lia) Hds).
    assert (0 < 16 ^ Z.of_nat (length ds)) by (apply Z.pow_pos_nonneg; lia). assert (0 < 10 ^ Z.of_nat (length ds)) by (apply Z.pow_pos_nonneg; lia).
    destruct (decide (x = 0)) as [->|Hne]; [lia|]. split; intros; nia. }
  rewrite Hz. destruct (xbit g).
  - destruct Hf as [_ Hf]. destruct Hb as [Hb%injZ_le _]. change (inject_Z 0) with 0%Q in Hb. split; [by intros [_ ?]|intros H0; lra].
  - split; [intros [H0 _]; rewrite H0 in Hf; change (inject_Z 0) with 0%Q in Hf; lra|]. intros H0. split; [|done].
    destruct (decide (positional 10 ds = 0)) as [|Hne]; [done|]. assert (Hp : 0 < positional 10 ds) by lia. apply injZ_lt in Hp. change (inject_Z 0) with 0%Q in Hp. lra.
Qed.

Lemma stands_push_new g f d : stands 0 g f -> isDigit d -> stands 0 (push g d) ((inject_Z d + f) * (1 # 10))%Q.
Proof.
  intros (ds & Hh & Hf) Hd. destruct ds as [|l ds _] using rev_ind; [destruct Hh as (_ & ? & _); done|].
  destruct (held_push g ds l d Hh Hd) as [Hh' Hl]. exists (d :: ds). split; [exact Hh'|]. cbn [push xbit]. rewrite Hl.
  destruct Hh as (_ & Hlen & Hds). rewrite length_app in Hlen. cbn in Hlen. apply Forall_app in Hds as [_ Hl']. inversion_clear Hl' as [|? ? Hl'' _].
  rewrite positional_cons. replace (length ds) with 15%nat by lia. rewrite positional_snoc in Hf.
  change (10 ^ 16) with 10000000000000000 in *. change (10 ^ Z.of_nat 15) with 1000000000000000. change (10 ^ 0) with 1 in *.
  unfold isDigit in Hl''. destruct Hl'' as [Hl0%injZ_le Hl9]. assert (Hl9' : l + 1 <= 10) by lia. apply injZ_le in Hl9'.
  rewrite ?inject_Z_plus, ?inject_Z_mult in *. change (inject_Z 10000000000000000) with (10000000000000000 # 1)%Q in *. change (inject_Z 1000000000000000) with (1000000000000000 # 1)%Q in *.
  change (inject_Z 0) with 0%Q in *. change (inject_Z 1) with 1%Q in *. change (inject_Z 10) with 10%Q in *.
  destruct (xbit g); cbn [orb].
  - split; [apply Z.divide_1_l|]. destruct Hf as [_ Hf]. split; lra.
  - destruct (Z.eqb_spec l 0) as [->|Hne]; cbn [negb].
    + change (inject_Z 0) with 0%Q in *. lra.
    + assert (Hl1 : (1 <= inject_Z l)%Q). { change 1%Q with (inject_Z 1). apply injZ_le. assert (0 <= l) by (rewrite Zle_Qle; exact Hl0). lia. }
      split; [apply Z.divide_1_l|]. split; lra.
Qed.

Lemma stands_push k g f d :
  0 <= k <= 16 -> stands k g f -> isDigit d -> exists k', 0 <= k' <= Z.max 0 (k - 1) /\ stands k' (push g d) ((inject_Z d + f) * (1 # 10))%Q.
Proof.
  intros Hk (ds & Hh & Hf) Hd. destruct (decide (k = 0 \/ xbit g = false)) as [Hk0|Hk0].
  { exists 0. split; [lia|]. apply stands_push_new; [|done]. exists ds. split; [done|]. destruct (xbit g); [destruct Hk0 as [->|]; done|done]. }
  apply Decidable.not_or in Hk0 as [Hk0 Hx%not_false_is_true]. exists (k - 1). split; [lia|].
  destruct ds as [|l ds _] using rev_ind; [destruct Hh as (_ & ? & _); done|]. destruct (held_push g ds l d Hh Hd) as [Hh' _]. exists (d :: ds). split; [exact Hh'|].
  cbn [push xbit]. rewrite Hx in *. cbn [orb]. destruct Hh as (_ & Hlen & Hds). rewrite length_app in Hlen. cbn in Hlen. apply Forall_app in Hds as [_ Hl]. inversion_clear Hl as [|? ? Hl' _].
  rewrite positional_cons. replace (length ds) with 15%nat by lia. rewrite positional_snoc in Hf. destruct Hf as [[q Hq] Hf]. unfold isDigit in Hl'.
  assert (Hkk : 10 ^ k = 10 ^ (k - 1) * 10) by (replace k with (k - 1 + 1) at 1 by lia; rewrite Z.pow_add_r by lia; done).
  rewrite Hkk in *. assert (l = 0) as -> by (rewrite Z.mul_assoc in Hq; dmlia).
  change (10 ^ 16) with 10000000000000000 in *. change (10 ^ Z.of_nat 15) with 1000000000000000. rewrite ?inject_Z_plus, ?inject_Z_mult in *.
  change (inject_Z 10000000000000000) with (10000000000000000 # 1)%Q in *. change (inject_Z 1000000000000000) with (1000000000000000 # 1)%Q in *.
  change (inject_Z 0) with 0%Q in *. change (inject_Z 10) with 10%Q in *. split; [|split; lra].
  apply Z.divide_add_r; [apply Z.divide_mul_r; exists (10 ^ (15 - (k - 1))); rewrite <- Z.pow_add_r by lia; by replace (15 - (k - 1) + (k - 1)) with 15 by lia|exists q; lia].
Qed.

Lemma stands_pop k g f :
  0 <= k <= 14 -> stands k g f ->
  isDigit (fst (pop g)) /\ stands (k + 1) (snd (pop g)) (f * 10 - inject_Z (fst (pop g)))%Q /\ sbit (snd (pop g)) = sbit g /\ xbit (snd (pop g)) = xbit g.
Proof.
  intros Hk (ds & Hh & Hf). destruct ds as [|d ds]; [destruct Hh as (_ & ? & _); done|]. destruct (held_pop g d ds Hh) as [-> Hh'].
  destruct Hh as (_ & Hlen & Hds). inversion_clear Hds as [|? ? Hd Hds']. split; [done|]. split; [|done]. exists (ds ++ [0]). split; [done|].
  rewrite positional_snoc, positional_cons in *. cbn in Hlen. replace (length ds) with 15%nat in Hf by lia. change (10 ^ Z.of_nat 15) with 1000000000000000 in *.
  change (xbit (snd (pop g))) with (xbit g). change (10 ^ 16) with 10000000000000000 in *. rewrite ?Z.pow_add_r by lia. change (10 ^ 1) with 10.
  rewrite ?inject_Z_plus, ?inject_Z_mult in *. change (inject_Z 10000000000000000) with (10000000000000000 # 1)%Q in *. change (inject_Z 1000000000000000) with (1000000000000000 # 1)%Q in *.
  change (inject_Z 0) with 0%Q in *. change (inject_Z 10) with 10%Q in *. destruct (xbit g); [|lra].
  destruct Hf as [[q Hq] Hf]. split; [|split; lra]. assert (Hk15 : (10 ^ k | 1000000000000000)).
  { exists (10 ^ (15 - k)). rewrite <- Z.pow_add_r by lia. replace (15 - k + k) with 15 by lia. reflexivity. }
  assert (Hds : (10 ^ k | positional 10 ds)).
  { replace (positional 10 ds) with (d * 1000000000000000 + positional 10 ds - d * 1000000000000000) by lia. apply Z.divide_sub_r; [by exists q|]. by apply Z.divide_mul_r. }
  destruct Hds as [q' ->]. exists q'. ring.
Qed.

Lemma stands_half k g f :
  0 <= k <= 15 -> stands k g f ->
  ((guardHalf <? digits g) = true -> (1 # 2 < f)%Q) /\ ((digits g <? guardHalf) = true -> (f < 1 # 2)%Q) /\
  (digits g = guardHalf -> if xbit g then (1 # 2 < f)%Q else (f == 1 # 2)%Q).
Proof.
  intros Hk (ds & (Hg & Hlen & Hds) & Hf). destruct ds as [|d ds]; [done|]. inversion_clear Hds as [|? ? Hd Hds'].
  cbn in Hlen. assert (Hn : length ds = 15%nat) by lia.
  destruct (positional_half d ds Hd Hds' 16 ltac:(lia)) as [H16 H16']. destruct (positional_half d ds Hd Hds' 10 ltac:(lia)) as [H10 H10']. rewrite Hn in *.
  change (5 * 16 ^ Z.of_nat 15) with guardHalf in *. change (5 * 10 ^ Z.of_nat 15) with 5000000000000000 in *. change (10 ^ 16) with 10000000000000000 in *. rewrite <- Hg in *.
  set (v := positional 10 (d :: ds)) in *. change (inject_Z 10000000000000000) with (10000000000000000 # 1)%Q in *.
  rewrite Z.ltb_lt, Z.ltb_lt. split; [|split].
  - intros Hgt. apply H16, H10 in Hgt. apply injZ_lt in Hgt. change (inject_Z 5000000000000000) with (5000000000000000 # 1)%Q in Hgt. destruct (xbit g); [destruct Hf as [_ Hf]|]; lra.
  - intros Hlt. apply H16', H10' in Hlt. destruct (xbit g).
    + destruct Hf as [[q Hq] Hf]. assert (Htop : v + 10 ^ k <= 5000000000000000).
      { rewrite Hq in *. replace 5000000000000000 with (5 * 10 ^ (15 - k) * 10 ^ k) in * by (rewrite <- Z.mul_assoc, <- Z.pow_add_r by lia; replace (15 - k + k) with 15 by lia; reflexivity).
        apply next_multiple; [apply Z.pow_pos_nonneg; lia|done]. }
      apply injZ_le in Htop. change (inject_Z 5000000000000000) with (5000000000000000 # 1)%Q in Htop. lra.
    + apply injZ_lt in Hlt. change (inject_Z 5000000000000000) with (5000000000000000 # 1)%Q in Hlt. lra.
  - intros Heq. assert (Hv : v = 5000000000000000) by lia. rewrite Hv in Hf. change (inject_Z 5000000000000000) with (5000000000000000 # 1)%Q in Hf.
    destruct (xbit g); [destruct Hf as [_ Hf]|]; lra.
Qed.

(** The guard says what rounding needs to know of the fraction. *)
Definition guards (g : xrplGuard) (f : Q) : Prop := exists k, 0 <= k <= 15 /\ stands k g f.

Lemma guards_new neg : guards (newGuard neg) 0.
Proof. exists 0. split; [lia|apply stands_new]. Qed.

Lemma guards_range g f : guards g f -> (0 <= f < 1)%Q.
Proof. intros (k & Hk & Hg). by eapply stands_range. Qed.

Lemma guards_push g f d : guards g f -> isDigit d -> guards (push g d) ((inject_Z d + f) * (1 # 10))%Q.
Proof. intros (k & Hk & Hg) Hd. destruct (stands_push k g f d ltac:(lia) Hg Hd) as (k' & Hk' & Hg'). exists k'. split; [lia|done]. Qed.

(** ** The decision *)

Inductive direction := ToNearest | TowardsZero | AwayFromZero.

Definition directionOf (mode : RoundingMode) (neg : bool) : direction :=
  match mode with
  | RoundToNearest => ToNearest
  | RoundTowardsZero => TowardsZero
  | RoundDownward => if neg then AwayFromZero else TowardsZero
  | RoundUpward => if neg then TowardsZero else AwayFromZero
  end.

Lemma round_spec g f mode fix_ :
  guards g f ->
  match directionOf mode (sbit g) with
  | TowardsZero => round g mode fix_ < 0
  | AwayFromZero => ((f == 0)%Q -> round g mode fix_ < 0) /\ ((0 < f)%Q -> round g mode fix_ = 1)
  | ToNearest => ((f < 1 # 2)%Q -> round g mode fix_ < 0) /\ ((f == 1 # 2)%Q -> round g mode fix_ = 0) /\ ((1 # 2 < f)%Q -> round g mode fix_ = 1)
  end /\ (fix_ = cuspRounding330 -> (round g mode fix_ = -2 <-> (f == 0)%Q)).
Proof.
  intros (k & Hk & Hg). pose proof (stands_empty k g f Hk Hg) as He. destruct (stands_half k g f Hk Hg) as (Hgt & Hlt & Heq). unfold round.
  destruct (guardEmpty g) eqn:Hem.
  - assert (Hf : (f == 0)%Q) by (by apply He). assert (Hdig : digits g = 0) by (unfold guardEmpty in Hem; apply andb_true_iff in Hem as [H%Z.eqb_eq _]; exact H).
    rewrite andb_true_r. destruct (is330 fix_) eqn:H330.
    + split; [|intros _; by split]. destruct (directionOf mode (sbit g)); (split || lia); [lia|split; intros; lra|lia|intros; lra].
    + split; [|intros ->; done]. rewrite Hdig. destruct mode; cbn [directionOf]; destruct (sbit g); cbn; try done; try (split; [done|intros; lra]);
        (split; [done|split; intros; lra]).
  - assert (Hf : ~ (f == 0)%Q) by (intros H; apply He in H; congruence). pose proof (stands_range k g f Hk Hg) as Hr. rewrite andb_false_r.
    split; [|intros _; split; [|done]; destruct mode, (sbit g); cbn; repeat go_case; intros; lia].
    destruct mode; cbn [directionOf]; destruct (sbit g); cbn [negb andb]; try done; try (split; [intros; lra|done]);
      (destruct (guardHalf <? digits g) eqn:H1; [specialize (Hgt eq_refl); split; [intros; lra|split; [intros; lra|done]]|]);
      (destruct (digits g <? guardHalf) eqn:H2; [specialize (Hlt eq_refl); split; [done|split; intros; lra]|]);
      (zbool; specialize (Heq ltac:(lia)); destruct (xbit g); split; [intros; lra|split; [intros; lra|done]|intros; lra|split; [done|intros; lra]]).
Qed.

(** Whether the mantissa goes up by one. *)
Definition goesUp (g : xrplGuard) (m : Z) (mode : RoundingMode) (fix_ : cuspFix) : bool :=
  let r := round g mode fix_ in (r =? 1) || ((r =? 0) && (Z.land m 1 =? 1)).

Lemma goesUp_spec g f m mode fix_ :
  guards g f ->
  match directionOf mode (sbit g) with
  | TowardsZero => goesUp g m mode fix_ = false
  | AwayFromZero => if goesUp g m mode fix_ then (0 < f)%Q else (f == 0)%Q
  | ToNearest =>
      if goesUp g m mode fix_ then (1 # 2 <= f)%Q /\ ((f == 1 # 2)%Q -> Z.even (m + 1) = true)
      else (f <= 1 # 2)%Q /\ ((f == 1 # 2)%Q -> Z.even m = true)
  end.
Proof.
  intros Hg. destruct (round_spec g f mode fix_ Hg) as [Hr _]. pose proof (guards_range g f Hg) as Hf. unfold goesUp.
  assert (Hodd : (Z.land m 1 =? 1) = Z.odd m).
  { change 1 with (Z.ones 1) at 1. rewrite Z.land_ones by lia. change (2 ^ 1) with 2. rewrite Zmod_odd. by destruct (Z.odd m). }
  rewrite Hodd. destruct (directionOf mode (sbit g)).
  - destruct Hr as (Hlt & Heq & Hgt). destruct (Qlt_le_dec f (1 # 2)) as [H1|H1].
    + specialize (Hlt H1). destruct (Z.eqb_spec (round g mode fix_) 1), (Z.eqb_spec (round g mode fix_) 0); cbn; try lia. split; intros; lra.
    + destruct (Qlt_le_dec (1 # 2) f) as [H2|H2]; [rewrite (Hgt H2); cbn; split; intros; lra|].
      rewrite Heq by lra. cbn. destruct (Z.odd m) eqn:Ho; cbn; (split; [lra|intros _]); rewrite ?Z.even_add, <- ?Z.negb_odd, Ho; done.
  - destruct (Z.eqb_spec (round g mode fix_) 1), (Z.eqb_spec (round g mode fix_) 0); cbn; lia || done.
  - destruct Hr as [H0 Hp]. destruct (Qlt_le_dec 0 f) as [H1|H1]; [rewrite (Hp H1); done|]. assert (Hz : (f == 0)%Q) by lra. specialize (H0 Hz).
    destruct (Z.eqb_spec (round g mode fix_) 1), (Z.eqb_spec (round g mode fix_) 0); cbn; lia || done.
Qed.

(** ** Correct rounding *)

(** The numbers of a scale. Above 63 bits the last digit is zero. *)
Definition gridPoint (s : MantissaScale) (m e : Z) : Prop :=
  let '(minM, maxM, _) := params s in
  minM <= m <= maxM /\ xrplNumMinExponent <= e <= xrplNumMaxExponent /\
  (s = MantissaScaleLarge330 -> m <= xrplNumMaxRep \/ (m mod 10 = 0 /\ (m = xrplNumMaxRepUp \/ e < xrplNumMaxExponent))).

Definition valueOf (m e : Z) : Q := (inject_Z m * tens e)%Q.

(** Which of two equally near numbers is taken. *)
Definition tieRule (m : Z) : bool := if m <=? xrplNumMaxRep then Z.even m else Z.even (m / 10) || (m =? xrplNumMaxRepUp).

(** [valueOf m e] is the exact magnitude [x], rounded. *)
Definition roundsTo (s : MantissaScale) (d : direction) (x : Q) (m e : Z) : Prop :=
  gridPoint s m e /\
  forall m' e', gridPoint s m' e' ->
    match d with
    | TowardsZero => (valueOf m e <= x)%Q /\ ((valueOf m' e' <= x)%Q -> (valueOf m' e' <= valueOf m e)%Q)
    | AwayFromZero => (x <= valueOf m e)%Q /\ ((x <= valueOf m' e')%Q -> (valueOf m e <= valueOf m' e')%Q)
    | ToNearest =>
        (Qabs (valueOf m e - x) <= Qabs (valueOf m' e' - x))%Q /\
        ((Qabs (valueOf m e - x) == Qabs (valueOf m' e' - x))%Q -> (valueOf m e == valueOf m' e')%Q \/ tieRule m = true)
    end.

Lemma roundsTo_exact s d x m e : gridPoint s m e -> (x == valueOf m e)%Q -> roundsTo s d x m e.
Proof.
  intros Hg Hx. split; [done|]. intros m' e' _. generalize dependent (valueOf m e). generalize (valueOf m' e'). intros v' v Hx. destruct d; [|split; intros; lra..].
  rewrite (Qabs_pos (v - x)) by lra. split; [pose proof (Qabs_nonneg (v' - x)); lra|]. intros Heq. left.
  assert (Hz : (Qabs (v' - x) == 0)%Q) by lra. pose proof (Qle_Qabs (v' - x)). pose proof (Qle_Qabs (- (v' - x))). rewrite Qabs_opp in *. lra.
Qed.

(** Two numbers with none in between: the one below, or the one above, is the
    rounded result. *)
Section Neighbours.
Context (s : MantissaScale) (d : direction) (x lo hi : Q).
Hypothesis Hx : (lo <= x < hi)%Q.
Hypothesis Hadj : forall m e, gridPoint s m e -> (valueOf m e <= lo)%Q \/ (hi <= valueOf m e)%Q.

Lemma roundsTo_lower m e :
  gridPoint s m e -> (valueOf m e == lo)%Q ->
  match d with
  | TowardsZero => True
  | AwayFromZero => (x == lo)%Q
  | ToNearest => (x - lo <= hi - x)%Q /\ ((x - lo == hi - x)%Q -> tieRule m = true)
  end -> roundsTo s d x m e.
Proof.
  intros Hg Hv Hd. split; [done|]. intros m' e' Hg'. destruct (Hadj m' e' Hg') as [Hle|Hge]; destruct d.
  - rewrite Hv. rewrite (Qabs_neg (lo - x)), (Qabs_neg (valueOf m' e' - x)) by lra. split; [lra|]. intros. left. lra.
  - rewrite Hv. split; [lra|]. intros. lra.
  - rewrite Hv. split; [lra|]. intros. lra.
  - rewrite Hv. rewrite (Qabs_neg (lo - x)), (Qabs_pos (valueOf m' e' - x)) by lra. split; [lra|]. intros. right. apply Hd. lra.
  - rewrite Hv. split; [lra|]. intros. lra.
  - rewrite Hv. split; [lra|]. intros. lra.
Qed.

Lemma roundsTo_upper m e :
  gridPoint s m e -> (valueOf m e == hi)%Q ->
  match d with
  | TowardsZero => False
  | AwayFromZero => (lo < x)%Q
  | ToNearest => (hi - x <= x - lo)%Q /\ ((x - lo == hi - x)%Q -> tieRule m = true)
  end -> roundsTo s d x m e.
Proof.
  intros Hg Hv Hd. split; [done|]. intros m' e' Hg'. destruct (Hadj m' e' Hg') as [Hle|Hge]; destruct d; try done.
  - rewrite Hv. rewrite (Qabs_pos (hi - x)), (Qabs_neg (valueOf m' e' - x)) by lra. split; [lra|]. intros. right. apply Hd. lra.
  - rewrite Hv. split; [lra|]. intros. lra.
  - rewrite Hv. rewrite (Qabs_pos (hi - x)), (Qabs_pos (valueOf m' e' - x)) by lra. split; [lra|]. intros. left. lra.
  - rewrite Hv. split; [lra|]. intros. lra.
Qed.

End Neighbours.
(** ** Numbers at one exponent *)

Lemma value_at m e e0 : e0 <= e -> (valueOf m e == inject_Z (m * 10 ^ (e - e0)) * tens e0)%Q.
Proof.
  intros He. unfold valueOf. replace e with (e - e0 + e0) at 1 by lia. rewrite tens_add, tens_nonneg, inject_Z_mult by lia. ring.
Qed.

Lemma value_le m e m' e' e0 :
  e0 <= e -> e0 <= e' -> (valueOf m e <= valueOf m' e')%Q <-> m * 10 ^ (e - e0) <= m' * 10 ^ (e' - e0).
Proof.
  intros He He'. rewrite (value_at m e e0), (value_at m' e' e0) by done. rewrite Qmult_le_r by apply tens_pos. by rewrite <- Zle_Qle.
Qed.

Lemma value_lt m e m' e' e0 :
  e0 <= e -> e0 <= e' -> (valueOf m e < valueOf m' e')%Q <-> m * 10 ^ (e - e0) < m' * 10 ^ (e' - e0).
Proof.
  intros He He'. rewrite (value_at m e e0), (value_at m' e' e0) by done. rewrite Qmult_lt_r by apply tens_pos. by rewrite <- Zlt_Qlt.
Qed.

Lemma value_shift m e : (valueOf (m * 10) e == valueOf m (e + 1))%Q.
Proof. unfold valueOf. rewrite tens_succ, inject_Z_mult. change (inject_Z 10) with 10%Q. ring. Qed.

(** What lies between two integers at an exponent, in integers. *)
Lemma adjacent_units s lo hi e :
  (forall m' e', gridPoint s m' e' -> e <= e' -> m' * 10 ^ (e' - e) <= lo \/ hi <= m' * 10 ^ (e' - e)) ->
  (forall m' e', gridPoint s m' e' -> e' < e -> m' <= lo * 10 ^ (e - e') \/ hi * 10 ^ (e - e') <= m') ->
  forall m' e', gridPoint s m' e' -> (valueOf m' e' <= valueOf lo e)%Q \/ (valueOf hi e <= valueOf m' e')%Q.
Proof.
  intros Hup Hdown m' e' Hg. destruct (Z.le_gt_cases e e') as [He|He].
  - destruct (Hup m' e' Hg He) as [H|H]; [left|right]; rewrite (value_le _ _ _ _ e) by lia; rewrite Z.sub_diag, Z.pow_0_r, Z.mul_1_r; done.
  - destruct (Hdown m' e' Hg He) as [H|H]; [left|right]; rewrite (value_le _ _ _ _ e') by lia; rewrite Z.sub_diag, Z.pow_0_r, Z.mul_1_r; done.
Qed.

(** The least number of a scale. *)
Definition least (s : MantissaScale) : Q := valueOf (let '(minM, _, _) := params s in minM) xrplNumMinExponent.

(** Beyond every number of the scale. *)
Definition beyond (s : MantissaScale) (x : Q) : Prop := forall m e, gridPoint s m e -> (valueOf m e < x)%Q.

(** What a computation of the magnitude [x] returns, unless that is out of range:
    zero below the least number, and otherwise the rounded magnitude. *)
Definition outcome (s : MantissaScale) (mode : RoundingMode) (neg : bool) (x : Q) (r : numError + parts) : Prop :=
  beyond s x \/
  match r with
  | inl _ => False
  | inr (neg', m, e) =>
      (neg' = false /\ m = 0 /\ e = xrplNumZeroExponent /\ (x < least s)%Q) \/ (neg' = neg /\ roundsTo s (directionOf mode neg) x m e)
  end.

Lemma outcome_final s mode neg x c e loc :
  (e < xrplNumMinExponent -> (x < least s)%Q) ->
  (xrplNumMaxExponent < e -> beyond s x) ->
  (xrplNumMinExponent <= e <= xrplNumMaxExponent -> roundsTo s (directionOf mode neg) x c e) ->
  outcome s mode neg x
    (if e <? xrplNumMinExponent then inr (false, 0, xrplNumZeroExponent) else if xrplNumMaxExponent <? e then inl loc else inr (neg, c, e)).
Proof.
  intros Hlow Hhigh Hin. destruct (Z.ltb_spec e xrplNumMinExponent) as [Hl|Hl]; [right; cbn; left; by auto|].
  destruct (Z.ltb_spec xrplNumMaxExponent e) as [Hh|Hh]; [left; by apply Hhigh|]. right. cbn. right. split; [done|]. apply Hin. lia.
Qed.

Lemma settle_final neg c e minM fix_ loc :
  0 < c -> c < 1844674407370955161 \/ minM <= c ->
  settle (neg, c, e) minM fix_ loc =
    let '(c, e) := if c <? minM then (c * 10, e - 1) else (c, e) in
    if e <? xrplNumMinExponent then inr (false, 0, xrplNumZeroExponent) else if xrplNumMaxExponent <? e then inl loc else inr (neg, c, e).
Proof.
  intros Hc Hw. unfold settle, bringIntoRange. rewrite (proj2 (Z.eqb_neq c 0)) by lia. rewrite orb_true_r, andb_true_r.
  destruct (Z.ltb_spec c minM) as [Hm|Hm].
  - rewrite wrap_small by (split; lia). rewrite (proj2 (Z.eqb_neq (c * 10) 0)), andb_false_r, orb_false_r by lia.
    destruct (e - 1 <? xrplNumMinExponent); [done|]. by destruct (xrplNumMaxExponent <? e - 1).
  - rewrite (proj2 (Z.eqb_neq c 0)), andb_false_r, orb_false_r by lia. destruct (e <? xrplNumMinExponent); [done|]. by destruct (xrplNumMaxExponent <? e).
Qed.

Lemma pow10_ge n : 0 < n -> 10 <= 10 ^ n.
Proof. intros Hn. change 10 with (10 ^ 1) at 1. apply Z.pow_le_mono_r; lia. Qed.

Lemma pow10_pos n : 0 <= n -> 1 <= 10 ^ n.
Proof. intros Hn. pose proof (Z.pow_pos_nonneg 10 n). lia. Qed.

(** Beyond the largest exponent, and below the least. *)
Lemma above_grid s c e x :
  let '(minM, maxM, _) := params s in
  minM <= c -> xrplNumMaxExponent < e -> (valueOf c e <= x)%Q -> beyond s x.
Proof.
  destruct (params s) as [[minM maxM] lg] eqn:Hp. intros Hc He Hx m' e' Hg. unfold gridPoint in Hg. rewrite Hp in Hg. destruct Hg as (Hm & He' & _).
  eapply Qlt_le_trans; [|exact Hx]. rewrite (value_lt _ _ _ _ e') by lia. rewrite Z.sub_diag, Z.pow_0_r, Z.mul_1_r.
  pose proof (pow10_ge (e - e') ltac:(lia)). assert (maxM < minM * 10) by (destruct s; injection Hp as <- <- <-; lia). nia.
Qed.

Lemma below_least s c e x :
  let '(minM, maxM, _) := params s in
  0 <= c <= minM * 10 -> e < xrplNumMinExponent -> (x < valueOf c e)%Q -> (x < least s)%Q.
Proof.
  unfold least. destruct (params s) as [[minM maxM] lg]. intros Hc He Hx. eapply Qlt_le_trans; [exact Hx|].
  rewrite (value_le _ _ _ _ e) by lia. rewrite Z.sub_diag, Z.pow_0_r, Z.mul_1_r. pose proof (pow10_ge (xrplNumMinExponent - e) ltac:(lia)). nia.
Qed.

(** ** The small scale *)

(** The exact magnitude, as a mantissa, a fraction and an exponent. *)
Definition exactly (x : Q) (m : Z) (f : Q) (e : Z) : Prop := (x == (inject_Z m + f) * tens e)%Q.

Lemma exactly_between x m f e : exactly x m f e -> (0 <= f < 1)%Q -> (valueOf m e <= x < valueOf (m + 1) e)%Q.
Proof.
  unfold exactly, valueOf. intros -> Hf. pose proof (tens_pos e) as Hp. rewrite inject_Z_plus. change (inject_Z 1) with 1%Q.
  split; [apply Qmult_le_compat_r; lra|]. rewrite Qmult_lt_r by done. lra.
Qed.

(** Distances to the neighbours, from the fraction. *)
Lemma exactly_distances x m f e :
  exactly x m f e -> (x - valueOf m e == f * tens e)%Q /\ (valueOf (m + 1) e - x == (1 - f) * tens e)%Q.
Proof. unfold exactly, valueOf. intros ->. rewrite inject_Z_plus. change (inject_Z 1) with 1%Q. split; ring. Qed.

(** The decision of the guard picks the right neighbour one unit apart. *)
Lemma unit_rounds s mode neg g f x m e c ec fix_ :
  guards g f -> sbit g = neg -> exactly x m f e ->
  (forall m' e', gridPoint s m' e' -> (valueOf m' e' <= valueOf m e)%Q \/ (valueOf (m + 1) e <= valueOf m' e')%Q) ->
  (valueOf c ec == valueOf (if goesUp g m mode fix_ then m + 1 else m) e)%Q ->
  (Z.even (if goesUp g m mode fix_ then m + 1 else m) = true -> tieRule c = true) ->
  gridPoint s c ec -> roundsTo s (directionOf mode neg) x c ec.
Proof.
  intros Hg Hs Hx Hadj Hv Hev Hgp. pose proof (guards_range g f Hg) as Hf. pose proof (exactly_between x m f e Hx Hf) as Hb.
  destruct (exactly_distances x m f e Hx) as [Hlo Hhi]. pose proof (tens_pos e) as Hp. pose proof (goesUp_spec g f m mode fix_ Hg) as Hu. rewrite Hs in Hu.
  destruct (goesUp g m mode fix_).
  - apply (roundsTo_upper s (directionOf mode neg) x _ _ Hb Hadj c ec Hgp Hv). destruct (directionOf mode neg).
    + destruct Hu as [Hu Ht]. rewrite Hlo, Hhi. split; [apply Qmult_le_compat_r; lra|]. intros Heq. apply Hev, Ht.
      apply (Qmult_inj_r f (1 - f) (tens e)) in Heq; lra.
    + discriminate.
    + assert (0 < x - valueOf m e)%Q; [|lra]. rewrite Hlo. rewrite <- (Qmult_0_l (tens e)). by apply Qmult_lt_r.
  - apply (roundsTo_lower s (directionOf mode neg) x _ _ Hb Hadj c ec Hgp Hv). destruct (directionOf mode neg).
    + destruct Hu as [Hu Ht]. rewrite Hlo, Hhi. split; [apply Qmult_le_compat_r; lra|]. intros Heq. apply Hev, Ht.
      apply (Qmult_inj_r f (1 - f) (tens e)) in Heq; lra.
    + done.
    + assert (x - valueOf m e == 0)%Q; [|lra]. rewrite Hlo, Hu. ring.
Qed.

Lemma adjacent_small m e :
  1000000000000000 <= m ->
  forall m' e', gridPoint MantissaScaleSmall m' e' -> (valueOf m' e' <= valueOf m e)%Q \/ (valueOf (m + 1) e <= valueOf m' e')%Q.
Proof.
  intros Hm. apply adjacent_units; intros m' e' (Hm' & _) He; [lia|]. pose proof (pow10_ge (e - e') ltac:(lia)). left. nia.
Qed.

Lemma finish_small fuel g f x m e mode loc :
  guards g f -> exactly x m f e -> 1000000000000000 <= m <= 9999999999999999 ->
  outcome MantissaScaleSmall mode (sbit g) x
    (doRoundUp (S fuel) g (sbit g, m, e) 1000000000000000 9999999999999999 cuspRoundingDisabled mode loc).
Proof.
  intros Hg Hx Hm. pose proof (guards_range g f Hg) as Hf. pose proof (exactly_between x m f e Hx Hf) as Hb.
  assert (Hround : forall c ec, 1000000000000000 <= c <= 9999999999999999 -> xrplNumMinExponent <= ec <= xrplNumMaxExponent ->
    (valueOf c ec == valueOf (if goesUp g m mode cuspRoundingDisabled then m + 1 else m) e)%Q ->
    (Z.even (if goesUp g m mode cuspRoundingDisabled then m + 1 else m) = true -> Z.even c = true) ->
    roundsTo MantissaScaleSmall (directionOf mode (sbit g)) x c ec).
  { intros c ec Hc Hec Hv Hev. apply (unit_rounds _ mode _ g f x m e c ec cuspRoundingDisabled); [done|done|done|apply adjacent_small; lia|done| |].
    - intros He. unfold tieRule. rewrite (proj2 (Z.leb_le c xrplNumMaxRep)) by (unfold xrplNumMaxRep; lia). by apply Hev.
    - split; [done|]. split; [done|discriminate]. }
  cbn [doRoundUp]. replace (pushOverflow g m cuspRoundingDisabled mode) with g by done. cbn [isDisabled negb].
  fold (goesUp g m mode cuspRoundingDisabled). destruct (goesUp g m mode cuspRoundingDisabled) eqn:Hu.
  - rewrite wrap_small by (split; lia). destruct (Z.ltb_spec 9999999999999999 (m + 1)) as [Hc|Hc]; cbn [orb].
    + assert (m = 9999999999999999) as -> by lia. change ((9999999999999999 + 1) / 10) with 1000000000000000. rewrite settle_final by lia. cbn [Z.ltb Z.compare Pos.compare Pos.compare_cont]. apply outcome_final.
      * intros He. apply (below_least MantissaScaleSmall (9999999999999999 + 1) e); [lia|lia|apply Hb].
      * intros He m' e' Hg'. destruct (Z.eq_dec e xrplNumMaxExponent) as [->|Hne].
        -- assert (Hlt : (valueOf 9999999999999999 xrplNumMaxExponent < x)%Q).
           { destruct (exactly_distances x _ f _ Hx) as [Hlo _]. pose proof (goesUp_spec g f 9999999999999999 mode cuspRoundingDisabled Hg) as Hsp. rewrite Hu in Hsp.
             assert (Hf0 : (0 < f)%Q) by (destruct (directionOf mode (sbit g)); [destruct Hsp; lra|discriminate|done]).
             assert (0 < x - valueOf 9999999999999999 xrplNumMaxExponent)%Q; [|lra]. rewrite Hlo, <- (Qmult_0_l (tens xrplNumMaxExponent)). apply Qmult_lt_r; [apply tens_pos|done]. }
           eapply Qle_lt_trans; [|exact Hlt]. destruct Hg' as (Hm' & He' & _). rewrite (value_le _ _ _ _ e') by lia. rewrite Z.sub_diag, Z.pow_0_r, Z.mul_1_r.
           assert (0 < 10 ^ (xrplNumMaxExponent - e')) by (apply Z.pow_pos_nonneg; lia). nia.
        -- eapply (above_grid MantissaScaleSmall 9999999999999999 e); [lia|lia|apply Hb|done].
      * intros He. apply Hround; [lia|done| |done]. rewrite <- value_shift. done.
    + rewrite (proj2 (Z.ltb_ge xrplNumMaxRep (m + 1))) by (unfold xrplNumMaxRep; lia). rewrite settle_final by lia. rewrite (proj2 (Z.ltb_ge (m + 1) _)) by lia. apply outcome_final.
      * intros He. apply (below_least MantissaScaleSmall (m + 1) e); [lia|lia|apply Hb].
      * intros He. apply (above_grid MantissaScaleSmall m e); [lia|lia|apply Hb].
      * intros He. by apply Hround; [lia|..].
  - replace (inCusp cuspRoundingDisabled m) with false by done. rewrite settle_final by lia. rewrite (proj2 (Z.ltb_ge m _)) by lia. apply outcome_final.
    + intros He. apply (below_least MantissaScaleSmall (m + 1) e); [lia|lia|apply Hb].
    + intros He. apply (above_grid MantissaScaleSmall m e); [lia|lia|apply Hb].
    + intros He. by apply Hround; [lia|..].
Qed.

(** ** The large scale *)

Abbreviation big := MantissaScaleLarge330.

Lemma pow10_mod n : 0 < n -> 10 ^ n mod 10 = 0.
Proof. intros Hn. replace n with (n - 1 + 1) by lia. rewrite Z.pow_add_r by lia. apply Z.mod_mul. lia. Qed.

(** Integers at the exponent of a multiple of ten are multiples of ten. *)
Lemma grid_multiple m' e' e : gridPoint big m' e' -> e <= e' -> m' * 10 ^ (e' - e) <= xrplNumMaxRep \/ (m' * 10 ^ (e' - e)) mod 10 = 0.
Proof.
  intros (_ & _ & Hg) He. destruct (decide (e = e')) as [->|Hne].
  - rewrite Z.sub_diag, Z.pow_0_r, Z.mul_1_r. destruct (Hg eq_refl) as [?|[? _]]; [by left|by right].
  - right. rewrite Z.mul_mod, pow10_mod, Z.mul_0_r by lia. done.
Qed.

Lemma adjacent_fine m e :
  1000000000000000000 <= m ->
  forall m' e', gridPoint big m' e' -> (valueOf m' e' <= valueOf m e)%Q \/ (valueOf (m + 1) e <= valueOf m' e')%Q.
Proof. intros Hm. apply adjacent_units; intros m' e' (Hm' & _) He; [lia|]. pose proof (pow10_ge (e - e') ltac:(lia)). left. nia. Qed.

Lemma adjacent_coarse m e :
  922337203685477581 <= m ->
  forall m' e', gridPoint big m' e' -> (valueOf m' e' <= valueOf m e)%Q \/ (valueOf (m + 1) e <= valueOf m' e')%Q.
Proof.
  intros Hm. apply adjacent_units; intros m' e' Hg He; [lia|]. destruct Hg as (Hm' & _ & Hg). destruct (decide (e' = e - 1)) as [->|Hne].
  - replace (e - (e - 1)) with 1 by lia. rewrite Z.pow_1_r. unfold xrplNumMaxRep in Hg. destruct (Hg eq_refl) as [?|[? _]]; [left; lia|]. dmlia.
  - replace (e - e') with (e - e' - 2 + 2) by lia. rewrite Z.pow_add_r by lia. pose proof (pow10_pos (e - e' - 2) ltac:(lia)).
    left. change (10 ^ 2) with 100. nia.
Qed.

Lemma adjacent_cusp e :
  forall m' e', gridPoint big m' e' -> (valueOf m' e' <= valueOf xrplNumMaxRep e)%Q \/ (valueOf xrplNumMaxRepUp e <= valueOf m' e')%Q.
Proof.
  apply adjacent_units; intros m' e' Hg He.
  - destruct (grid_multiple m' e' e Hg He) as [?|Hm]; [by left|]. unfold xrplNumMaxRep, xrplNumMaxRepUp. dmlia.
  - destruct Hg as (Hm' & _). pose proof (pow10_ge (e - e') ltac:(lia)). left. unfold xrplNumMaxRep. nia.
Qed.

Lemma value_grid_le m e : gridPoint big m e -> (valueOf m e <= valueOf xrplNumMaxRepUp xrplNumMaxExponent)%Q.
Proof.
  intros (Hm & He & Hg). rewrite (value_le _ _ _ _ e) by lia. rewrite Z.sub_diag, Z.pow_0_r, Z.mul_1_r. destruct (decide (e = xrplNumMaxExponent)) as [->|Hne].
  - rewrite Z.sub_diag, Z.pow_0_r. unfold xrplNumMaxRep, xrplNumMaxRepUp in *. destruct (Hg eq_refl) as [?|[_ [?|?]]]; lia.
  - pose proof (pow10_ge (xrplNumMaxExponent - e) ltac:(lia)). unfold xrplNumMaxRepUp. nia.
Qed.

Lemma grid_fine m e : 1000000000000000000 <= m <= xrplNumMaxRep -> xrplNumMinExponent <= e <= xrplNumMaxExponent -> gridPoint big m e.
Proof. intros Hm He. unfold xrplNumMaxRep in *. split; [lia|]. split; [done|]. intros _. left. unfold xrplNumMaxRep. lia. Qed.

Lemma grid_coarse m e : 922337203685477581 <= m <= 999999999999999999 -> xrplNumMinExponent <= e < xrplNumMaxExponent -> gridPoint big (m * 10) e.
Proof. intros Hm He. split; [lia|]. split; [lia|]. intros _. right. split; [apply Z.mod_mul; lia|]. right; lia. Qed.

Lemma grid_up e : xrplNumMinExponent <= e <= xrplNumMaxExponent -> gridPoint big xrplNumMaxRepUp e.
Proof. intros He. split; [unfold xrplNumMaxRepUp; lia|]. split; [done|]. intros _. right. split; [done|by left]. Qed.

Lemma tieRule_fine m : m <= xrplNumMaxRep -> tieRule m = Z.even m.
Proof. intros Hm. unfold tieRule. by rewrite (proj2 (Z.leb_le m _)). Qed.

Lemma tieRule_coarse m : 922337203685477581 <= m -> Z.even m = true -> tieRule (m * 10) = true.
Proof. intros Hm He. unfold tieRule. rewrite (proj2 (Z.leb_gt (m * 10) _)) by (unfold xrplNumMaxRep; lia). rewrite Z.div_mul by lia. by rewrite He. Qed.

(** Past the largest exponent only one value is still a number. *)
Lemma coarse_top x m f e :
  exactly x m f e -> (0 <= f < 1)%Q -> 922337203685477581 <= m -> xrplNumMaxExponent < e ->
  beyond big x \/ ((x == valueOf xrplNumMaxRepUp xrplNumMaxExponent)%Q /\ (f == 0)%Q /\ m = 922337203685477581 /\ e = xrplNumMaxExponent + 1).
Proof.
  intros Hx Hf Hm He. pose proof (exactly_between x m f e Hx Hf) as Hb.
  destruct (Qlt_le_dec (valueOf xrplNumMaxRepUp xrplNumMaxExponent) x) as [Hlt|Hle].
  { left. intros m' e' Hg'. eapply Qle_lt_trans; [by apply value_grid_le|done]. }
  right. assert (Hv : (valueOf m e <= valueOf xrplNumMaxRepUp xrplNumMaxExponent)%Q) by (destruct Hb; lra).
  rewrite (value_le _ _ _ _ xrplNumMaxExponent), Z.sub_diag, Z.pow_0_r, Z.mul_1_r in Hv by lia.
  assert (e = xrplNumMaxExponent + 1) as ->.
  { destruct (decide (e = xrplNumMaxExponent + 1)) as [|Hne]; [done|]. replace (e - xrplNumMaxExponent) with (e - xrplNumMaxExponent - 2 + 2) in Hv by lia.
    rewrite Z.pow_add_r in Hv by lia. pose proof (pow10_pos (e - xrplNumMaxExponent - 2) ltac:(lia)).
    change (10 ^ 2) with 100 in Hv. unfold xrplNumMaxRepUp in Hv. nia. }
  replace (xrplNumMaxExponent + 1 - xrplNumMaxExponent) with 1 in Hv by lia. change (10 ^ 1) with 10 in Hv.
  assert (m = 922337203685477581) as -> by (unfold xrplNumMaxRepUp in Hv; lia).
  destruct (exactly_distances x _ f _ Hx) as [Hlo _]. change xrplNumMaxRepUp with (922337203685477581 * 10) in *. rewrite value_shift in *. destruct Hb as [Hb _].
  pose proof (tens_pos (xrplNumMaxExponent + 1)) as Hp. split; [lra|]. split; [|done]. assert (H0 : (f * tens (xrplNumMaxExponent + 1) == 0)%Q) by lra.
  apply Qmult_integral in H0 as [?|?]; [done|lra].
Qed.

(** One unit apart: the mantissa is below 63 bits. *)
Lemma finish_unit fuel g f x m e mode loc :
  guards g f -> exactly x m f e -> 922337203685477581 <= m < xrplNumMaxRep ->
  outcome big mode (sbit g) x (doRoundUp (S fuel) g (sbit g, m, e) 1000000000000000000 9999999999999999999 cuspRounding330 mode loc).
Proof.
  intros Hg Hx Hm. unfold xrplNumMaxRep in Hm. pose proof (guards_range g f Hg) as Hf. pose proof (exactly_between x m f e Hx Hf) as Hb.
  set (c := if goesUp g m mode cuspRounding330 then m + 1 else m). assert (Hc : m <= c <= m + 1) by (unfold c; destruct (goesUp _ _ _ _); lia).
  replace (doRoundUp _ _ _ _ _ _ _ _) with (settle (sbit g, c, e) 1000000000000000000 cuspRounding330 loc).
  2:{ cbn [doRoundUp]. unfold pushOverflow, inCusp, xrplNumMaxRep. rewrite (proj2 (Z.ltb_lt m 9223372036854775807)), (proj2 (Z.ltb_ge 9223372036854775807 m)), (proj2 (Z.ltb_lt m 9999999999999999999)) by lia.
      cbn [is330 isDisabled negb orb andb]. fold (goesUp g m mode cuspRounding330). unfold c. destruct (goesUp g m mode cuspRounding330); [|done]. by rewrite wrap_small by (split; lia). }
  assert (Hadj : forall m' e', gridPoint big m' e' -> (valueOf m' e' <= valueOf m e)%Q \/ (valueOf (m + 1) e <= valueOf m' e')%Q) by (apply adjacent_coarse; lia).
  rewrite settle_final by lia. destruct (Z.ltb_spec c 1000000000000000000) as [Hlow|Hhigh].
  - destruct (decide (xrplNumMaxExponent < e)) as [He|He].
    + destruct (coarse_top x m f e Hx Hf ltac:(lia) ltac:(lia)) as [Hby|(Hxe & Hf0 & -> & ->)]; [by left|].
      assert (Hcm : c = 922337203685477581).
      { unfold c. pose proof (goesUp_spec g f 922337203685477581 mode cuspRounding330 Hg) as Hs. destruct (goesUp _ _ _ _); [|done].
        destruct (directionOf mode (sbit g)); [destruct Hs; lra|discriminate|lra]. }
      rewrite Hcm. replace (xrplNumMaxExponent + 1 - 1) with xrplNumMaxExponent by lia. apply outcome_final; [unfold xrplNumMaxExponent, xrplNumMinExponent; lia|lia|]. intros _.
      change (922337203685477581 * 10) with xrplNumMaxRepUp. apply roundsTo_exact; [apply grid_up; unfold xrplNumMaxExponent, xrplNumMinExponent; lia|exact Hxe].
    + apply outcome_final; [|lia|].
      * intros He'. destruct (decide (e = xrplNumMinExponent)) as [->|].
        -- change (least big) with (valueOf 1000000000000000000 xrplNumMinExponent). eapply Qlt_le_trans; [apply Hb|].
           rewrite (value_le _ _ _ _ xrplNumMinExponent), !Z.sub_diag, !Z.pow_0_r by lia. lia.
        -- apply (below_least big (m + 1) e); [lia|lia|apply Hb].
      * intros He'. apply (unit_rounds big mode _ g f x m e (c * 10) (e - 1) cuspRounding330); [done|done|done|done| | |].
        -- rewrite value_shift. replace (e - 1 + 1) with e by lia. done.
        -- intros Hev. apply tieRule_coarse; [lia|done].
        -- apply grid_coarse; lia.
  - apply outcome_final.
    + intros He. apply (below_least big (m + 1) e); [lia|lia|apply Hb].
    + intros He m' e' Hg'. eapply Qle_lt_trans; [by apply value_grid_le|]. eapply Qlt_le_trans; [|apply Hb].
      rewrite (value_lt _ _ _ _ xrplNumMaxExponent), Z.sub_diag, Z.pow_0_r, Z.mul_1_r by lia.
      pose proof (pow10_ge (e - xrplNumMaxExponent) ltac:(lia)). unfold xrplNumMaxRepUp. nia.
    + intros He. apply (unit_rounds big mode _ g f x m e c e cuspRounding330); [done|done|done|done|done| |].
      * intros Hev. by rewrite tieRule_fine by (unfold xrplNumMaxRep; lia).
      * apply grid_fine; [unfold xrplNumMaxRep; lia|done].
Qed.

(** Evaluates the integers among the rationals of a goal. *)
Ltac closedQ :=
  repeat match goal with
  | |- context [inject_Z (?a - ?b)] => let v := eval vm_compute in (a - b) in change (inject_Z (a - b)) with (v # 1)%Q
  end.

(** Three units apart: the largest mantissa of 63 bits and the next multiple of ten. *)
Section Cusp.
Context (g : xrplGuard) (f x : Q) (m e : Z) (mode : RoundingMode) (loc : numError).
Hypothesis Hg : guards g f.
Hypothesis Hx : exactly x m f e.
Hypothesis Hm : xrplNumMaxRep <= m < xrplNumMaxRepUp.

Abbreviation lo := (valueOf xrplNumMaxRep e).
Abbreviation hi := (valueOf xrplNumMaxRepUp e).

Lemma cusp_between : (lo <= x < hi)%Q.
Proof.
  pose proof (guards_range g f Hg) as Hf. destruct (exactly_between x m f e Hx Hf) as [Hlo Hhi].
  split; [eapply Qle_trans; [|exact Hlo]|eapply Qlt_le_trans; [exact Hhi|]]; rewrite (value_le _ _ _ _ e), Z.sub_diag, Z.pow_0_r by lia; lia.
Qed.

Lemma cusp_distances :
  (x - lo == (inject_Z (m - xrplNumMaxRep) + f) * tens e)%Q /\ (hi - x == (inject_Z (xrplNumMaxRepUp - m) - f) * tens e)%Q.
Proof.
  unfold exactly, valueOf in *. unfold Z.sub. rewrite !inject_Z_plus, !inject_Z_opp. split; rewrite Hx; ring.
Qed.

(** Rounding at the cusp is right when the decision is. *)
Lemma cusp_lower :
  match directionOf mode (sbit g) with
  | TowardsZero => True
  | AwayFromZero => m = xrplNumMaxRep /\ (f == 0)%Q
  | ToNearest => m = xrplNumMaxRep \/ (m = xrplNumMaxRep + 1 /\ (f < 1 # 2)%Q)
  end -> outcome big mode (sbit g) x (settle (sbit g, xrplNumMaxRep, e) 1000000000000000000 cuspRounding330 loc).
Proof.
  intros Hd. pose proof cusp_between as Hb. destruct cusp_distances as [Hlo Hhi]. pose proof (guards_range g f Hg) as Hf. pose proof (tens_pos e) as Hp.
  rewrite settle_final by (unfold xrplNumMaxRep; lia). change (xrplNumMaxRep <? 1000000000000000000) with false. apply outcome_final.
  - intros He. apply (below_least big xrplNumMaxRepUp e); [unfold xrplNumMaxRepUp; lia|lia|apply Hb].
  - intros He. apply (above_grid big xrplNumMaxRep e); [unfold xrplNumMaxRep; lia|lia|apply Hb].
  - intros He. apply (roundsTo_lower big _ x _ _ Hb (adjacent_cusp e)); [by apply grid_fine|reflexivity|]. destruct (directionOf mode (sbit g)); [|done|].
    + rewrite Hlo, Hhi.
      assert (Hlt : ((inject_Z (m - xrplNumMaxRep) + f) * tens e < (inject_Z (xrplNumMaxRepUp - m) - f) * tens e)%Q).
      { apply Qmult_lt_r; [done|]. unfold xrplNumMaxRep, xrplNumMaxRepUp in *. destruct Hd as [->|[-> Hd]]; closedQ; lra. }
      split; [lra|]. intros Heq. lra.
    + destruct Hd as [-> Hf0]. assert (x - lo == 0)%Q; [|lra]. rewrite Hlo, Z.sub_diag, Hf0. cbn. ring.
Qed.


Lemma cusp_upper :
  match directionOf mode (sbit g) with
  | TowardsZero => False
  | AwayFromZero => xrplNumMaxRep < m \/ (0 < f)%Q
  | ToNearest => m = xrplNumMaxRep + 2 \/ (m = xrplNumMaxRep + 1 /\ (1 # 2 <= f)%Q)
  end -> outcome big mode (sbit g) x (settle (sbit g, xrplNumMaxRepUp, e) 1000000000000000000 cuspRounding330 loc).
Proof.
  intros Hd. pose proof cusp_between as Hb. destruct cusp_distances as [Hlo Hhi]. pose proof (guards_range g f Hg) as Hf. pose proof (tens_pos e) as Hp.
  rewrite settle_final by (unfold xrplNumMaxRepUp; lia). change (xrplNumMaxRepUp <? 1000000000000000000) with false. apply outcome_final.
  - intros He. apply (below_least big xrplNumMaxRepUp e); [unfold xrplNumMaxRepUp; lia|lia|apply Hb].
  - intros He. apply (above_grid big xrplNumMaxRep e); [unfold xrplNumMaxRep; lia|lia|apply Hb].
  - intros He. apply (roundsTo_upper big _ x _ _ Hb (adjacent_cusp e)); [by apply grid_up|reflexivity|]. destruct (directionOf mode (sbit g)); [|done|].
    + split; [|done]. rewrite Hlo, Hhi. apply Qmult_le_compat_r; [|lra]. unfold xrplNumMaxRep, xrplNumMaxRepUp in *. destruct Hd as [->|[-> Hd]]; closedQ; lra.
    + assert (0 < x - lo)%Q; [|lra]. rewrite Hlo. rewrite <- (Qmult_0_l (tens e)). apply Qmult_lt_r; [done|].
      assert (H0 : (0 <= inject_Z (m - xrplNumMaxRep))%Q) by (change 0%Q with (inject_Z 0); apply injZ_le; lia).
      destruct Hd as [Hd|Hd]; [|lra]. assert (H1 : (1 <= inject_Z (m - xrplNumMaxRep))%Q) by (change 1%Q with (inject_Z 1); apply injZ_le; lia). lra.
Qed.

(** The digit that the cusp puts in front of the guard. *)
Lemma cusp_pushed :
  exists d, pushOverflow g m cuspRounding330 mode = push g d /\ guards (push g d) ((inject_Z d + f) * (1 # 10))%Q /\ sbit (push g d) = sbit g /\
    match directionOf mode (sbit g) with
    | TowardsZero => True
    | AwayFromZero => (m = xrplNumMaxRep -> (f == 0)%Q -> d = 0) /\ (xrplNumMaxRep < m \/ (0 < f)%Q -> 3 <= d)
    | ToNearest => (m = xrplNumMaxRep \/ (m = xrplNumMaxRep + 1 /\ (f < 1 # 2)%Q) -> d <= 3) /\
                   (m = xrplNumMaxRep + 2 \/ (m = xrplNumMaxRep + 1 /\ (1 # 2 <= f)%Q) -> 6 <= d)
    end.
Proof.
  unfold pushOverflow. rewrite (proj2 (Z.ltb_ge m xrplNumMaxRep)), (proj2 (Z.leb_gt xrplNumMaxRepUp m)) by lia. cbn [is330 negb orb].
  destruct (round_spec g f mode cuspRounding330 Hg) as [Hr _]. pose proof (guards_range g f Hg) as Hf. set (r := round g mode cuspRounding330) in *.
  set (m1 := if m mod 10 <? 9 then _ else m). set (d := Z.quot ((m1 - xrplNumMaxRep) * 10) (xrplNumMaxRepUp - xrplNumMaxRep)).
  assert (Hm1 : m1 = m \/ (m1 = m + 1 /\ m < xrplNumMaxRep + 2)).
  { unfold m1. destruct (Z.ltb_spec (m mod 10) 9) as [H9|]; [|by left]. destruct (_ || _); [right|by left]. split; [done|]. unfold xrplNumMaxRep, xrplNumMaxRepUp in *. dmlia. }
  assert (Hdv : (m1 = xrplNumMaxRep /\ d = 0) \/ (m1 = xrplNumMaxRep + 1 /\ d = 3) \/ (m1 = xrplNumMaxRep + 2 /\ d = 6)).
  { assert (m1 = xrplNumMaxRep \/ m1 = xrplNumMaxRep + 1 \/ m1 = xrplNumMaxRep + 2) as [->|[->| ->]] by (unfold xrplNumMaxRepUp, xrplNumMaxRep in *; lia);
      [left|right; left|right; right]; (split; [done|]); reflexivity. }
  assert (Hdd : isDigit d) by (unfold isDigit; lia).
  exists d. split; [done|]. split; [by apply guards_push|]. split; [done|]. unfold xrplNumMaxRep, xrplNumMaxRepUp in *.
  assert (Hup : m mod 10 < 9 -> r = 1 \/ (r = 0 /\ m = 9223372036854775808) -> m1 = m + 1).
  { intros H9 Hr1. unfold m1. rewrite (proj2 (Z.ltb_lt _ _) H9). destruct Hr1 as [->|[-> ->]]; done. }
  assert (Hdn : r < 0 \/ (r = 0 /\ m <> 9223372036854775808) -> m1 = m).
  { intros Hr1. unfold m1. destruct (m mod 10 <? 9); [|done]. destruct (Z.eqb_spec r 1); [lia|]. destruct (Z.eqb_spec r 0); cbn [orb andb]; [|done]. destruct (Z.eqb_spec m (9223372036854775807 + 1)); [lia|done]. }
  destruct (directionOf mode (sbit g)); [|done|].
  - destruct Hr as (Hlt & Heq & Hgt). split.
    + intros [->|[-> Hf1]]; [|specialize (Hdn (or_introl (Hlt Hf1))); lia]. destruct Hm1 as [|[? _]]; lia.
    + intros [->|[-> Hf1]]; [destruct Hm1 as [|[? ?]]; lia|].
      assert (m1 = 9223372036854775807 + 1 + 1); [|lia]. apply Hup; [done|]. destruct (Qlt_le_dec (1 # 2) f) as [H|H]; [left; auto|right; split; [apply Heq; lra|done]].
  - destruct Hr as [H0 H1]. split.
    + intros -> Hf0. specialize (Hdn (or_introl (H0 Hf0))). lia.
    + intros [Hgt|Hf1]; [lia|]. specialize (H1 Hf1). destruct (Z.lt_ge_cases (m mod 10) 9) as [H9|H9]; [specialize (Hup H9 (or_introl H1)); lia|]. dmlia.
Qed.
Lemma cusp_decision :
  exists d, pushOverflow g m cuspRounding330 mode = push g d /\ guards (push g d) ((inject_Z d + f) * (1 # 10))%Q /\ 0 <= d /\
    if goesUp (push g d) m mode cuspRounding330 then
      match directionOf mode (sbit g) with
      | TowardsZero => False
      | AwayFromZero => xrplNumMaxRep < m \/ (0 < f)%Q
      | ToNearest => m = xrplNumMaxRep + 2 \/ (m = xrplNumMaxRep + 1 /\ (1 # 2 <= f)%Q)
      end
    else
      match directionOf mode (sbit g) with
      | TowardsZero => True
      | AwayFromZero => m = xrplNumMaxRep /\ (f == 0)%Q
      | ToNearest => m = xrplNumMaxRep \/ (m = xrplNumMaxRep + 1 /\ (f < 1 # 2)%Q)
      end.
Proof.
  destruct cusp_pushed as (d & Hpush & Hd & Hs & Hdec). exists d. split; [done|]. split; [done|].
  pose proof (guards_range g f Hg) as Hf. pose proof (guards_range _ _ Hd) as Hf'.
  assert (Hd0 : 0 <= d). { assert (H : (inject_Z (-1) < inject_Z d)%Q) by (change (inject_Z (-1)) with (-1)%Q; lra). rewrite <- Zlt_Qlt in H. lia. }
  split; [done|]. pose proof (goesUp_spec _ _ m mode cuspRounding330 Hd) as Hu. rewrite Hs in Hu.
  assert (Hlow : d <= 3 -> (inject_Z d <= 3)%Q) by (intros; change 3%Q with (inject_Z 3); rewrite <- Zle_Qle; done).
  assert (Hhigh : 6 <= d -> (6 <= inject_Z d)%Q) by (intros; change 6%Q with (inject_Z 6); rewrite <- Zle_Qle; done).
  assert (Hmid : 3 <= d -> (3 <= inject_Z d)%Q) by (intros; change 3%Q with (inject_Z 3); rewrite <- Zle_Qle; done).
  assert (Hcase : (m = xrplNumMaxRep \/ (m = xrplNumMaxRep + 1 /\ (f < 1 # 2)%Q)) \/ (m = xrplNumMaxRep + 2 \/ (m = xrplNumMaxRep + 1 /\ (1 # 2 <= f)%Q))).
  { assert (m = xrplNumMaxRep \/ m = xrplNumMaxRep + 1 \/ m = xrplNumMaxRep + 2) as [?|[?|?]] by (unfold xrplNumMaxRep, xrplNumMaxRepUp in *; lia); auto.
    destruct (Qlt_le_dec f (1 # 2)); auto. }
  destruct (directionOf mode (sbit g)), (goesUp (push g d) m mode cuspRounding330); try done.
  - destruct Hcase as [H|H]; [|done]. specialize (Hlow (proj1 Hdec H)). destruct Hu. lra.
  - destruct Hcase as [H|H]; [done|]. specialize (Hhigh (proj2 Hdec H)). destruct Hu. lra.
  - destruct (decide (m = xrplNumMaxRep)) as [->|]; [|left; lia]. right. destruct (Qlt_le_dec 0 f) as [|Hle]; [done|]. rewrite (proj1 Hdec) in Hu by (done || lra). change (inject_Z 0) with 0%Q in Hu. lra.
  - destruct (decide (m = xrplNumMaxRep)) as [->|]; [split; [done|]|specialize (Hmid (proj2 Hdec ltac:(left; lia))); lra].
    destruct (Qlt_le_dec 0 f) as [H|Hle]; [|lra]. specialize (Hmid (proj2 Hdec (or_intror H))). lra.
Qed.

(** The same number with one digit less. *)
Lemma settle_coarse neg e' : settle (neg, 922337203685477581, e' + 1) 1000000000000000000 cuspRounding330 loc =
  settle (neg, xrplNumMaxRepUp, e') 1000000000000000000 cuspRounding330 loc.
Proof. rewrite !settle_final by (unfold xrplNumMaxRepUp; lia). cbn -[Z.add Z.sub xrplNumMaxRepUp]. by replace (e' + 1 - 1) with e' by lia. Qed.

Lemma finish_cusp fuel :
  outcome big mode (sbit g) x (doRoundUp (S (S fuel)) g (sbit g, m, e) 1000000000000000000 9999999999999999999 cuspRounding330 mode loc).
Proof.
  destruct cusp_decision as (d & Hpush & Hd & Hd0 & Hdec). remember (S fuel) as fuel' eqn:Hfu. cbn [doRoundUp]. rewrite Hpush. fold (goesUp (push g d) m mode cuspRounding330).
  assert (Hcusp : inCusp cuspRounding330 m = negb (m =? xrplNumMaxRep)).
  { unfold inCusp, xrplNumMaxRep, xrplNumMaxRepUp in *. cbn [is330 andb]. destruct (Z.eqb_spec m 9223372036854775807), (Z.ltb_spec 9223372036854775807 m), (Z.ltb_spec m 9223372036854775810); lia || done. }
  rewrite Hcusp. unfold isDisabled. cbn [negb].
  destruct (goesUp (push g d) m mode cuspRounding330).
  - rewrite (proj2 (Z.ltb_ge m xrplNumMaxRep)), andb_false_r by lia. destruct (Z.eqb_spec m xrplNumMaxRep) as [Hmr|Hne]; cbn [negb]; [|by apply cusp_upper].
    rewrite Hmr at 1 2. change (xrplNumMaxRep mod 10) with 7. change (xrplNumMaxRep / 10) with 922337203685477580. set (g2 := push (push g d) 7).
    rewrite Hfu. cbn [doRoundUp]. change (pushOverflow g2 922337203685477580 cuspRounding330 mode) with g2.
    assert (Hs : guards g2 ((inject_Z 7 + (inject_Z d + f) * (1 # 10)) * (1 # 10))) by (apply guards_push; [done|unfold isDigit; lia]).
    assert (Hdir : directionOf mode (sbit g) = AwayFromZero).
    { destruct (directionOf mode (sbit g)); [|done|done]. destruct Hdec as [H|[H _]]; exfalso; rewrite Hmr in H; revert H; unfold xrplNumMaxRep; lia. }
    destruct (round_spec g2 _ mode cuspRounding330 Hs) as [Hr _]. change (sbit g2) with (sbit g) in Hr. pose proof (guards_range g f Hg) as Hf.
    assert (H0 : (0 <= inject_Z d)%Q) by (change 0%Q with (inject_Z 0); rewrite <- Zle_Qle; done).
    rewrite Hdir in Hr. destruct Hr as [_ Hr]. change (inject_Z 7) with 7%Q in Hr. rewrite Hr by lra.
    change (outcome big mode (sbit g) x (settle (sbit g, 922337203685477581, e + 1) 1000000000000000000 cuspRounding330 loc)).
    rewrite settle_coarse. by apply cusp_upper.
  - destruct (Z.eqb_spec m xrplNumMaxRep) as [Hmr|Hne]; cbn [negb]; [rewrite Hmr|]; by apply cusp_lower.
Qed.


End Cusp.


(** At the multiple of ten above 63 bits, the digit dropped is a zero. *)
Lemma finish_top fuel g f x e mode loc :
  guards g f -> exactly x xrplNumMaxRepUp f e ->
  outcome big mode (sbit g) x (doRoundUp (S (S fuel)) g (sbit g, xrplNumMaxRepUp, e) 1000000000000000000 9999999999999999999 cuspRounding330 mode loc).
Proof.
  intros Hg Hx. assert (Hg' : guards (push g 0) ((inject_Z 0 + f) * (1 # 10))) by (apply guards_push; [done|unfold isDigit; lia]).
  assert (Hx' : exactly x 922337203685477581 ((inject_Z 0 + f) * (1 # 10)) (e + 1)).
  { unfold exactly in *. rewrite Hx, tens_succ. change (inject_Z xrplNumMaxRepUp) with (9223372036854775810 # 1)%Q. change (inject_Z 922337203685477581) with (922337203685477581 # 1)%Q. change (inject_Z 0) with 0%Q. ring. }
  pose proof (finish_unit fuel (push g 0) _ x 922337203685477581 (e + 1) mode loc Hg' Hx' ltac:(unfold xrplNumMaxRep; lia)) as Hout. change (sbit (push g 0)) with (sbit g) in Hout.
  remember (S fuel) as fuel' eqn:Hfu. cbn [doRoundUp]. change (pushOverflow g xrplNumMaxRepUp cuspRounding330 mode) with g. fold (goesUp g xrplNumMaxRepUp mode cuspRounding330).
  change (xrplNumMaxRepUp mod 10) with 0. change (xrplNumMaxRepUp / 10) with 922337203685477581. pose proof (goesUp_spec g f xrplNumMaxRepUp mode cuspRounding330 Hg) as Hup.
  destruct (goesUp g xrplNumMaxRepUp mode cuspRounding330); [exact Hout|]. change (inCusp cuspRounding330 xrplNumMaxRepUp) with false. cbn iota.
  rewrite Hfu in Hout. cbn [doRoundUp] in Hout. change (pushOverflow (push g 0) 922337203685477581 cuspRounding330 mode) with (push g 0) in Hout.
  fold (goesUp (push g 0) 922337203685477581 mode cuspRounding330) in Hout. pose proof (goesUp_spec _ _ 922337203685477581 mode cuspRounding330 Hg') as Hdown.
  change (inject_Z 0) with 0%Q in Hdown. change (sbit (push g 0)) with (sbit g) in Hdown.
  destruct (goesUp (push g 0) 922337203685477581 mode cuspRounding330).
  - destruct (directionOf mode (sbit g)); [destruct Hup, Hdown; lra|done|lra].
  - change (inCusp cuspRounding330 922337203685477581) with false in Hout. cbn iota in Hout. by rewrite <- settle_coarse.
Qed.

(** Rounding up from any mantissa in the range. *)
Lemma finish_large fuel g f x m e mode loc :
  guards g f -> exactly x m f e -> 922337203685477581 <= m <= xrplNumMaxRepUp ->
  outcome big mode (sbit g) x (doRoundUp (S (S fuel)) g (sbit g, m, e) 1000000000000000000 9999999999999999999 cuspRounding330 mode loc).
Proof.
  intros Hg Hx Hm. destruct (Z.lt_ge_cases m xrplNumMaxRep); [eapply finish_unit; [done|done|lia]|].
  destruct (decide (m = xrplNumMaxRepUp)) as [->|]; [by eapply finish_top|]. eapply finish_cusp; [done|done|lia].
Qed.

End XrplRound.
