(* ===== verification/XrplArith.v ===== *)
(** * Arithmetic of decimal numbers is correctly rounded

    Normalization, addition, multiplication and division of [XrplNumber] at the
    sixteen digit scale and at the nineteen digit scale of the 3.3.0 fixes, against
    exact arithmetic on the rationals. *)

From Stdlib Require Import ZArith Lia QArith Qabs Qpower Lqa.
From stdpp Require Import base list.
From S2P Require Import Prelude XrplNumber XrplRound.
Import XrplNumber XrplRound.

Open Scope Z_scope.

Module XrplArith.

#[local] Opaque tens.

(** ** Digits into the guard *)

Lemma exactly_push x m f e : exactly x m f e -> exactly x (m / 10) ((inject_Z (m mod 10) + f) * (1 # 10)) (e + 1).
Proof.
  unfold exactly. intros ->. rewrite tens_succ. rewrite (Z.div_mod m 10) at 1 by lia. rewrite inject_Z_plus, inject_Z_mult. change (inject_Z 10) with 10%Q. field.
Qed.

Lemma mod_digit m : isDigit (m mod 10).
Proof. unfold isDigit. dmlia. Qed.

#[export] Hint Resolve mod_digit : go.

(** ** The scales that round correctly *)

Definition exactScale (s : MantissaScale) : Prop := s = MantissaScaleSmall \/ s = MantissaScaleLarge330.

(** The mantissas that rounding up starts from. *)
Definition workable (s : MantissaScale) (m : Z) : Prop :=
  match s with
  | MantissaScaleSmall => 1000000000000000 <= m <= 9999999999999999
  | _ => 922337203685477581 <= m <= xrplNumMaxRepUp
  end.

Lemma finish s g f x m e mode loc :
  exactScale s -> guards g f -> exactly x m f e -> workable s m ->
  let '(minM, maxM, _) := params s in
  outcome s mode (sbit g) x (doRoundUp roundFuel g (sbit g, m, e) minM maxM (cuspRoundingFix s) mode loc).
Proof. intros [->| ->] Hg Hx Hm; cbn [params cuspRoundingFix]; [by eapply finish_small|by eapply finish_large]. Qed.

(** ** Into the range *)

Lemma scaleUp_spec w fuel m e minM :
  0 < m -> (forall z, 0 <= z < minM * 10 -> w z = z) -> minM <= m * 10 ^ Z.of_nat fuel ->
  exists j, 0 <= j /\ scaleUp w fuel m e minM = (m * 10 ^ j, e - j) /\ (minM <= m * 10 ^ j \/ e - j <= xrplNumMinExponent) /\
    (j = 0 \/ (m < minM /\ m * 10 ^ j < minM * 10)).
Proof.
  revert m e. induction fuel as [|fuel IH]; intros m e Hm Hw Hf.
  - exists 0. rewrite Z.sub_0_r, Z.mul_1_r. cbn in Hf. split; [lia|]. split; [done|]. lia.
  - cbn [scaleUp]. destruct (Z.ltb_spec m minM) as [Hlt|Hge]; cbn [andb].
    2:{ exists 0. rewrite Z.sub_0_r, Z.mul_1_r. split; [lia|]. split; [done|]. lia. }
    destruct (Z.ltb_spec xrplNumMinExponent e) as [He|He].
    2:{ exists 0. rewrite Z.sub_0_r, Z.mul_1_r. split; [lia|]. split; [done|]. lia. }
    rewrite Hw by lia. rewrite Nat2Z.inj_succ, Z.pow_succ_r in Hf by lia.
    destruct (IH (m * 10) (e - 1) ltac:(lia) Hw ltac:(lia)) as (j & Hj & -> & Hr & Hb). exists (j + 1). rewrite Z.pow_add_r by lia. change (10 ^ 1) with 10.
    split; [lia|]. split; [f_equal; lia|]. replace (m * (10 ^ j * 10)) with (m * 10 * 10 ^ j) by lia. replace (e - (j + 1)) with (e - 1 - j) by lia. split; [done|].
    right. split; [done|]. destruct Hb as [->|Hb]; [|lia]. rewrite Z.mul_1_r. lia.
Qed.

(** Either the guard knows the fraction, or at least one more digit comes first. *)
Definition guardsOnce (maxM m : Z) (g : xrplGuard) (f : Q) : Prop := guards g f \/ (maxM < m /\ stands 16 g f).

Lemma guardsOnce_push maxM m g f d : guardsOnce maxM m g f -> isDigit d -> guards (push g d) ((inject_Z d + f) * (1 # 10))%Q.
Proof.
  intros [Hg|[_ Hg]] Hd; [by apply guards_push|]. destruct (stands_push 16 g f d ltac:(lia) Hg Hd) as (k & Hk & Hg'). exists k. split; [lia|done].
Qed.

Lemma scaleDown_spec fuel g f x m e maxM :
  guardsOnce maxM m g f -> (0 <= f)%Q -> exactly x m f e -> 0 <= m < 2 ^ Z.of_nat fuel -> 9 <= maxM ->
  match scaleDown fuel g m e maxM with
  | inl _ => (valueOf (maxM + 1) xrplNumMaxExponent <= x)%Q
  | inr (g', m', e') =>
      exists f', guards g' f' /\ sbit g' = sbit g /\ exactly x m' f' e' /\ 0 <= m' <= maxM /\
        (m' = m /\ e' = e \/ (maxM + 1) / 10 <= m' /\ maxM < m)
  end.
Proof.
  revert g f m e. induction fuel as [|fuel IH]; intros g f m e Hg Hf Hx Hm HM; cbn [scaleDown].
  - change (2 ^ Z.of_nat 0) with 1 in Hm. exists f. destruct Hg as [Hg|[? _]]; [|lia]. split; [done|]. split; [done|]. split; [done|]. lia.
  - rewrite Nat2Z.inj_succ, Z.pow_succ_r in Hm by lia. destruct (Z.ltb_spec maxM m) as [Hgt|Hle].
    2:{ exists f. destruct Hg as [Hg|[? _]]; [|lia]. split; [done|]. split; [done|]. split; [done|]. lia. }
    destruct (Z.leb_spec xrplNumMaxExponent e) as [He|He].
    + assert (Hv : (valueOf m e <= x)%Q). { unfold exactly, valueOf in *. rewrite Hx. apply Qmult_le_compat_r; [lra|]. apply Qlt_le_weak, tens_pos. }
      eapply Qle_trans; [|exact Hv]. rewrite (value_le _ _ _ _ xrplNumMaxExponent), Z.sub_diag, Z.pow_0_r by lia. pose proof (pow10_pos (e - xrplNumMaxExponent) ltac:(lia)). nia.
    + pose proof (guardsOnce_push _ _ _ _ (m mod 10) Hg (mod_digit m)) as Hg'. pose proof (guards_range _ _ Hg') as Hf'.
      specialize (IH (push g (m mod 10)) _ (m / 10) (e + 1) (or_introl Hg') (proj1 Hf') (exactly_push x m f e Hx) ltac:(dmlia) HM).
      destruct (scaleDown fuel _ _ _ _) as [|[[g' m'] e']]; [done|]. destruct IH as (f' & ? & ? & ? & ? & Hm'). exists f'. split; [done|]. split; [done|]. split; [done|]. split; [done|].
      right. split; [|done]. destruct Hm' as [[-> _]|[? _]]; [|done]. apply Z.div_le_mono; lia.
Qed.

Lemma downFuel_enough m : 0 < m -> 0 <= m < 2 ^ Z.of_nat (downFuel m).
Proof.
  intros Hm. split; [lia|]. unfold downFuel. pose proof (Z.log2_nonneg m). rewrite Z2Nat.id by lia. rewrite Z.add_1_r. by apply Z.log2_spec.
Qed.
Lemma params_ratio s : let '(minM, maxM, _) := params s in maxM + 1 = minM * 10 /\ 1000000000000000 <= minM <= 1000000000000000000.
Proof. destruct s; cbn; lia. Qed.

(** Too large, and too small. *)
Lemma beyond_range s x : let '(_, maxM, _) := params s in (valueOf (maxM + 1) xrplNumMaxExponent <= x)%Q -> beyond s x.
Proof.
  pose proof (params_ratio s) as Hp. pose proof (above_grid s) as Ha. destruct (params s) as [[minM maxM] lg]. destruct Hp as [-> Hmin]. intros Hx.
  rewrite value_shift in Hx. apply (Ha minM (xrplNumMaxExponent + 1)); [lia|lia|done].
Qed.

Lemma flushed s mode neg x m f e :
  let '(minM, maxM, _) := params s in
  exactly x m f e -> (0 <= f < 1)%Q -> 0 <= m <= maxM -> e < xrplNumMinExponent \/ (m < minM /\ e <= xrplNumMinExponent) ->
  outcome s mode neg x (inr (false, 0, xrplNumZeroExponent)).
Proof.
  pose proof (params_ratio s) as Hp. pose proof (below_least s) as Hb. unfold outcome, least in *. destruct (params s) as [[minM maxM] lg]. destruct Hp as [Hr Hmin].
  intros Hx Hf Hm He. destruct (exactly_between x m f e Hx Hf) as [_ Hlt]. right. left. split; [done|]. split; [done|]. split; [done|].
  destruct (Z.lt_ge_cases e xrplNumMinExponent) as [|]; [by apply (Hb (m + 1) e); [lia| |]|]. destruct He as [|[Hlow He]]; [lia|].
  eapply Qlt_le_trans; [exact Hlt|]. rewrite (value_le _ _ _ _ xrplNumMinExponent) by lia. replace (e - xrplNumMinExponent) with 0 by lia. rewrite Z.sub_diag, Z.pow_0_r. lia.
Qed.

(** In range after scaling, one digit more is dropped above the numbers of 63 bits. *)
Lemma finish_limit s g f x m e mode loc :
  exactScale s -> guards g f -> exactly x m f e ->
  let '(minM, maxM, _) := params s in
  minM <= m <= maxM ->
  outcome s mode (sbit g) x
    (if repLimit (cuspRoundingFix s) <? m then
       if xrplNumMaxExponent <=? e then inl loc
       else doRoundUp roundFuel (push g (m mod 10)) (sbit g, m / 10, e + 1) minM maxM (cuspRoundingFix s) mode loc
     else doRoundUp roundFuel g (sbit g, m, e) minM maxM (cuspRoundingFix s) mode loc).
Proof.
  intros Hs Hg Hx. pose proof (fun m e f g => finish s g f x m e mode loc Hs) as Hfin. destruct Hs as [->| ->]; cbn [params cuspRoundingFix] in *; intros Hm.
  - change (repLimit cuspRoundingDisabled) with 9223372036854775807. rewrite (proj2 (Z.ltb_ge _ _)) by lia. apply (Hfin m e f); [done|done|exact Hm].
  - change (repLimit cuspRounding330) with xrplNumMaxRepUp. destruct (Z.ltb_spec xrplNumMaxRepUp m) as [Hgt|Hle]; [|apply (Hfin m e f); [done|done|cbn; lia]].
    destruct (Z.leb_spec xrplNumMaxExponent e) as [He|He].
    + left. intros m' e' Hg'. eapply Qle_lt_trans; [by apply value_grid_le|]. eapply Qlt_le_trans; [|apply (exactly_between x m f e Hx (guards_range g f Hg))].
      rewrite (value_lt _ _ _ _ xrplNumMaxExponent), Z.sub_diag, Z.pow_0_r, Z.mul_1_r by lia. pose proof (pow10_pos (e - xrplNumMaxExponent) ltac:(lia)). unfold xrplNumMaxRepUp in *. nia.
    + change (sbit g) with (sbit (push g (m mod 10))). apply (Hfin (m / 10) (e + 1) _ _ (guards_push g f _ Hg (mod_digit m))); [by apply exactly_push|].
      cbn. unfold xrplNumMaxRepUp in *. dmlia.
Qed.

(** What normalization returns, in terms of the mantissa after scaling up. *)
Lemma normalizeParts_outcome s w g f x m e m1 e1 mode :
  exactScale s ->
  let '(minM, maxM, _) := params s in
  0 < m -> (forall z, 0 <= z < minM * 10 -> w z = z) -> scaleUp w upFuel m e minM = (m1, e1) ->
  exactly x m1 f e1 -> (0 <= f < 1)%Q -> guardsOnce maxM m1 g f ->
  outcome s mode (sbit g) x (normalizeParts w g m e minM maxM (cuspRoundingFix s) mode (sbit g)).
Proof.
  intros Hs. pose proof (params_ratio s) as Hr. pose proof (beyond_range s x) as Hby. pose proof (fun m f e => flushed s mode (sbit g) x m f e) as Hfl.
  pose proof (fun g f m e => finish_limit s g f x m e mode NormalizeOverflow Hs) as Hfin. destruct (params s) as [[minM maxM] lg]. destruct Hr as [Hr Hmin].
  intros Hm Hw Hup Hx Hf Hg.
  destruct (scaleUp_spec w upFuel m e minM Hm Hw) as (j & Hj & Hup' & Hlow & _); [change (10 ^ Z.of_nat upFuel) with 100000000000000000000; lia|].
  rewrite Hup in Hup'. injection Hup' as Hm1 He1. assert (Hpos : 0 < m1) by (rewrite Hm1; pose proof (pow10_pos j Hj); nia). rewrite <- Hm1, <- He1 in Hlow. clear Hm1 He1.
  pose proof (scaleDown_spec (downFuel m1) g f x m1 e1 maxM Hg (proj1 Hf) Hx (downFuel_enough m1 Hpos) ltac:(lia)) as Hd.
  unfold normalizeParts. rewrite Hup. destruct (scaleDown (downFuel m1) g m1 e1 maxM) as [|[[g' m'] e']]; cbn; [left; by apply Hby|].
  destruct Hd as (f' & Hg' & Hsb & Hx' & Hm' & Hcase). pose proof (guards_range g' f' Hg') as Hf'.
  assert (Hcase' : minM <= m' \/ e' <= xrplNumMinExponent).
  { destruct Hcase as [[-> ->]|[H _]]; [done|]. left. rewrite Hr, Z.div_mul in H by lia. done. }
  destruct (Z.ltb_spec e' xrplNumMinExponent) as [He|He]; cbn [orb]; [apply (Hfl m' f' e'); [done|done|lia|lia]|].
  destruct (Z.ltb_spec m' minM) as [Hlt|Hge]; [apply (Hfl m' f' e'); [done|done|lia|lia]|]. rewrite <- Hsb. apply (Hfin g' f'); [done|done|lia].
Qed.

(** ** Numbers *)

Definition num (n : XRPLNumber) : Q := valueOf (signed (negative n) (mantissa n)) (exponent n).

Definition wellFormed (s : MantissaScale) (n : XRPLNumber) : Prop := scale n = s /\ (n = zeroIn s \/ gridPoint s (mantissa n) (exponent n)).

(** [z] is the exact [q], rounded. *)
Definition rounded (s : MantissaScale) (mode : RoundingMode) (q : Q) (z : XRPLNumber) : Prop :=
  match mode with
  | RoundToNearest =>
      forall z', wellFormed s z' ->
        (Qabs (num z - q) <= Qabs (num z' - q))%Q /\
        ((Qabs (num z - q) == Qabs (num z' - q))%Q -> (num z == num z')%Q \/ tieRule (mantissa z) = true)
  | RoundTowardsZero =>
      (Qabs (num z) <= Qabs q)%Q /\ (0 <= num z * q)%Q /\ forall z', wellFormed s z' -> (Qabs (num z') <= Qabs q)%Q -> (Qabs (num z') <= Qabs (num z))%Q
  | RoundDownward => (num z <= q)%Q /\ forall z', wellFormed s z' -> (num z' <= q)%Q -> (num z' <= num z)%Q
  | RoundUpward => (q <= num z)%Q /\ forall z', wellFormed s z' -> (q <= num z')%Q -> (num z <= num z')%Q
  end.

(** What an operation with the exact result [q] returns, when [q] is in range: the
    rounded result, and below the least number either zero or that number. *)
Definition computes (s : MantissaScale) (mode : RoundingMode) (q : Q) (r : numError + XRPLNumber) : Prop :=
  beyond s (Qabs q) \/
  match r with
  | inl _ => False
  | inr z =>
      wellFormed s z /\ ((least s <= Qabs q)%Q -> rounded s mode q z) /\
      ((Qabs q < least s)%Q -> z = zeroIn s \/ ((Qabs (num z) == least s)%Q /\ (0 <= num z * q)%Q))
  end.

Definition mirror (neg : bool) (x : Q) : Q := if neg then (- x)%Q else x.

Lemma num_mirror n : (num n == mirror (negative n) (valueOf (mantissa n) (exponent n)))%Q.
Proof. unfold num, valueOf, mirror, signed. destruct (negative n); [rewrite inject_Z_opp; ring|reflexivity]. Qed.

Lemma mirror_abs neg x : (0 <= x)%Q -> (Qabs (mirror neg x) == x)%Q.
Proof. intros Hx. unfold mirror. destruct neg; [rewrite Qabs_opp|]; by apply Qabs_pos. Qed.

Lemma num_zero s : (num (zeroIn s) == 0)%Q.
Proof. unfold num, valueOf. change (inject_Z (signed (negative (zeroIn s)) (mantissa (zeroIn s)))) with 0%Q. apply Qmult_0_l. Qed.

Lemma value_pos m e : 0 < m -> (0 < valueOf m e)%Q.
Proof. intros Hm. apply Qmult_lt_0_compat; [change 0%Q with (inject_Z 0); by apply injZ_lt|apply tens_pos]. Qed.

Lemma grid_pos s m e : gridPoint s m e -> 0 < m.
Proof. unfold gridPoint. pose proof (params_ratio s) as Hp. destruct (params s) as [[minM maxM] lg]. intros (Hm & _). lia. Qed.

Lemma grid_least s m e : gridPoint s m e -> (least s <= valueOf m e)%Q.
Proof.
  unfold gridPoint, least. pose proof (params_ratio s) as Hp. destruct (params s) as [[minM maxM] lg]. intros (Hm & He & _).
  rewrite (value_le _ _ _ _ xrplNumMinExponent), Z.sub_diag, Z.pow_0_r by lia. pose proof (pow10_pos (e - xrplNumMinExponent) ltac:(lia)). nia.
Qed.

Lemma least_pos s : (0 < least s)%Q.
Proof. unfold least. pose proof (params_ratio s) as Hp. destruct (params s) as [[minM maxM] lg]. apply value_pos. lia. Qed.

Definition minOf (s : MantissaScale) : Z := let '(minM, _, _) := params s in minM.

Lemma least_grid s : exactScale s -> gridPoint s (minOf s) xrplNumMinExponent.
Proof. intros [->| ->]; cbn; (split; [lia|]); (split; [done|]); [done|]. intros _. left. unfold xrplNumMaxRep. lia. Qed.

(** A number is zero, or lies on the grid on one side of zero. *)
Lemma wellFormed_cases s z :
  wellFormed s z -> (num z == 0)%Q \/ exists neg m e, gridPoint s m e /\ (num z == mirror neg (valueOf m e))%Q /\ (0 < valueOf m e)%Q.
Proof.
  intros [_ [->|Hg]]; [left; apply num_zero|right]. exists (negative z), (mantissa z), (exponent z). split; [done|]. split; [apply num_mirror|]. eapply value_pos, grid_pos, Hg.
Qed.

Lemma rounded_resp s mode q q' z : (q == q')%Q -> rounded s mode q z -> rounded s mode q' z.
Proof.
  intros Hq Hr. destruct mode; cbn [rounded] in *; [intros z' Hz'; rewrite <- Hq; by apply Hr|setoid_rewrite <- Hq; done..].
Qed.

Lemma computes_resp s mode q q' r : (q == q')%Q -> computes s mode q r -> computes s mode q' r.
Proof.
  intros Hq [Hb|H]; [left; intros m e Hg; rewrite <- Hq; by apply Hb|right]. destruct r as [|z]; [done|]. destruct H as (Hw & Hr & Hl). split; [done|]. split.
  - intros H. rewrite <- Hq in H. apply (rounded_resp s mode q); auto.
  - intros H. rewrite <- Hq in H |- *. by apply Hl.
Qed.

Lemma mirror_dist neg a b : (Qabs (mirror neg a - mirror neg b) == Qabs (a - b))%Q.
Proof. unfold mirror. destruct neg; [|reflexivity]. rewrite <- Qabs_opp. apply Qabs_wd. ring. Qed.

Lemma mirror_far neg a b : (0 <= a)%Q -> (0 <= b)%Q -> (Qabs (mirror (negb neg) a - mirror neg b) == a + b)%Q.
Proof. intros Ha Hb. unfold mirror. destruct neg; cbn [negb]; [rewrite Qabs_pos by lra|rewrite Qabs_neg by lra]; ring. Qed.

Lemma mirror_same neg a b : (0 <= a)%Q -> (0 <= b)%Q -> (0 <= mirror neg a * mirror neg b)%Q.
Proof. intros Ha Hb. pose proof (Qmult_le_0_compat a b Ha Hb). unfold mirror. destruct neg; lra. Qed.

(** Rounding of magnitudes is rounding of numbers: zero and the numbers on the
    other side are further away. *)
Lemma rounded_nearest s neg x m e :
  (least s <= x)%Q -> exactScale s -> roundsTo s ToNearest x m e -> rounded s RoundToNearest (mirror neg x) (mkNumber neg m e s).
Proof.
  intros Hx Hs [Hg Hr] z' Hz'. pose proof (least_pos s) as Hl. pose proof (num_mirror (mkNumber neg m e s)) as Hn. cbn [negative mantissa exponent] in *. rewrite Hn, mirror_dist.
  pose proof (proj1 (Hr _ _ (least_grid s Hs))) as Hrl. change (valueOf (minOf s) xrplNumMinExponent) with (least s) in Hrl. rewrite (Qabs_neg (least s - x)) in Hrl by lra.
  destruct (wellFormed_cases s z' Hz') as [Hz0|(neg' & m' & e' & Hg' & Hz0 & Hv')]; rewrite Hz0.
  - assert (Ha : (Qabs (0 - mirror neg x) == x)%Q) by (transitivity (Qabs (mirror neg x)); [rewrite <- Qabs_opp; apply Qabs_wd; ring|apply mirror_abs; lra]).
    rewrite Ha. split; [lra|]. intros. exfalso. lra.
  - destruct (decide (neg' = neg)) as [->|Hne].
    + rewrite mirror_dist. destruct (Hr m' e' Hg') as [H1 H2]. split; [done|]. intros H. destruct (H2 H) as [H'|]; [left|by right]. unfold mirror. destruct neg; rewrite H'; reflexivity.
    + assert (neg' = negb neg) as -> by (destruct neg, neg'; done). rewrite mirror_far by lra. split; [lra|]. intros. exfalso. lra.
Qed.

(** Against every number, zero and the other side included. *)
Ltac side Hz Hr := intros z' Hz'; destruct (Hz z' Hz') as [Hz0|(neg' & m' & e' & Hg' & Hz0 & Hv')]; rewrite Hz0; [intros; lra|];
  destruct (Hr m' e' Hg') as [_ Hr']; destruct neg'; intros; first [lra|apply Hr'; lra|apply Qopp_le_compat, Hr'; lra].

Lemma rounded_directed s mode neg x m e :
  mode <> RoundToNearest -> (0 < x)%Q -> exactScale s -> roundsTo s (directionOf mode neg) x m e -> rounded s mode (mirror neg x) (mkNumber neg m e s).
Proof.
  intros Hm Hx Hs [Hg Hr]. pose proof (value_pos _ e (grid_pos s m e Hg)) as Hv. pose proof (num_mirror (mkNumber neg m e s)) as Hn. cbn [negative mantissa exponent] in *.
  assert (Hz : forall z', wellFormed s z' -> (num z' == 0)%Q \/ exists neg' m' e', gridPoint s m' e' /\ (num z' == mirror neg' (valueOf m' e'))%Q /\ (0 < valueOf m' e')%Q) by apply wellFormed_cases.
  destruct mode; [done| | |]; cbn [directionOf rounded] in *.
  - rewrite Hn, !mirror_abs by lra. split; [apply (Hr m e Hg)|]. split; [by apply mirror_same; lra|]. intros z' Hz'. rewrite Hn, !mirror_abs by lra.
    destruct (Hz z' Hz') as [->|(neg' & m' & e' & Hg' & -> & Hv')]; [intros _; apply Qlt_le_weak; exact Hv|]. rewrite mirror_abs by lra. apply (Hr m' e' Hg').
  - destruct neg; (split; [rewrite Hn; destruct (Hr m e Hg); unfold mirror; lra|]); setoid_rewrite Hn; unfold mirror in *; side Hz Hr.
  - destruct neg; (split; [rewrite Hn; destruct (Hr m e Hg); unfold mirror; lra|]); setoid_rewrite Hn; unfold mirror in *; side Hz Hr.
Qed.
Lemma roundsTo_least s d x m e : exactScale s -> (x < least s)%Q -> roundsTo s d x m e -> (valueOf m e == least s)%Q.
Proof.
  intros Hs Hx [Hg Hr]. pose proof (grid_least s m e Hg) as Hl. pose proof (Hr _ _ (least_grid s Hs)) as Hrl. change (valueOf (minOf s) xrplNumMinExponent) with (least s) in Hrl.
  destruct d; [|destruct Hrl; lra|destruct Hrl as [_ Hrl]; specialize (Hrl ltac:(lra)); lra].
  destruct Hrl as [Hrl _]. rewrite !Qabs_pos in Hrl by lra. lra.
Qed.

Lemma outcome_computes s mode neg x q r :
  exactScale s -> (0 < x)%Q -> (q == mirror neg x)%Q -> outcome s mode neg x r -> computes s mode q (let? p := r in inr (ofParts s p)).
Proof.
  intros Hs Hx Hq Hout. apply (computes_resp _ _ (mirror neg x)); [by symmetry|]. clear q Hq. unfold computes. pose proof (mirror_abs neg x ltac:(lra)) as Ha.
  destruct Hout as [Hb|Hr]; [left; intros m e Hg; rewrite Ha; by apply Hb|right]. destruct r as [|[[neg' m] e]]; [done|]. cbn [ofParts]. rewrite Ha. destruct Hr as [(-> & -> & -> & Hlt)|[-> Hr]].
  - split; [split; [done|by left]|]. split; [intros; exfalso; lra|intros _; by left].
  - split; [split; [done|right; apply Hr]|]. split.
    + intros Hl. assert (mode = RoundToNearest \/ mode <> RoundToNearest) as [->|Hne] by (destruct mode; [by left|by right..]); [by apply rounded_nearest|by apply rounded_directed].
    + intros Hl. right. rewrite num_mirror. cbn [negative mantissa exponent]. pose proof (value_pos m e (grid_pos s m e (proj1 Hr))). rewrite mirror_abs by lra.
      split; [by eapply roundsTo_least|]. apply mirror_same; lra.
Qed.

(** ** Normalization *)

Lemma exactly_scale x m f e j : 0 <= j -> exactly x m f e -> exactly x (m * 10 ^ j) (f * inject_Z (10 ^ j)) (e - j).
Proof.
  intros Hj. unfold exactly. intros ->. replace e with (e - j + j) at 1 by lia. rewrite tens_add, (tens_nonneg j), inject_Z_mult by done. ring.
Qed.

Lemma exactly_value m e : exactly (valueOf m e) m 0 e.
Proof. unfold exactly, valueOf. ring. Qed.

Lemma u64_small z : 0 <= z < 18446744073709551616 -> u64 z = z.
Proof. intros Hz. apply wrap_small. split; lia. Qed.

(** Without a fraction, at any mantissa. *)
Lemma normalizeParts_exact s w neg m e mode :
  exactScale s ->
  let '(minM, maxM, _) := params s in
  0 < m -> (forall z, 0 <= z < minM * 10 -> w z = z) ->
  outcome s mode neg (valueOf m e) (normalizeParts w (newGuard neg) m e minM maxM (cuspRoundingFix s) mode neg).
Proof.
  intros Hs. pose proof (fun m1 e1 => normalizeParts_outcome s w (newGuard neg) 0 (valueOf m e) m e m1 e1 mode Hs) as Hn. pose proof (params_ratio s) as Hr.
  destruct (params s) as [[minM maxM] lg]. intros Hm Hw.
  destruct (scaleUp_spec w upFuel m e minM Hm Hw) as (j & Hj & Hup & _); [change (10 ^ Z.of_nat upFuel) with 100000000000000000000; lia|].
  apply (Hn (m * 10 ^ j) (e - j)); [done|done|done| |lra|left; apply guards_new].
  pose proof (exactly_scale _ _ _ _ j Hj (exactly_value m e)) as Hx. unfold exactly in *. rewrite Qmult_0_l in Hx. done.
Qed.

Lemma normalize_computes n mode :
  exactScale (scale n) -> 0 < mantissa n -> computes (scale n) mode (num n) (normalize n mode).
Proof.
  intros Hs Hm. unfold normalize. pose proof (fun w => normalizeParts_exact (scale n) w (negative n) (mantissa n) (exponent n) mode Hs) as Hn. pose proof (params_ratio (scale n)) as Hr.
  destruct (params (scale n)) as [[minM maxM] lg]. rewrite (proj2 (Z.eqb_neq _ _)) by lia.
  eapply outcome_computes; [done| |apply num_mirror|apply Hn; [done|intros z Hz; apply u64_small; lia]]. by apply value_pos.
Qed.

Lemma zero_computes s mode q : (q == 0)%Q -> computes s mode q (inr (zeroIn s)).
Proof.
  intros Hq. apply (computes_resp _ _ 0); [by symmetry|]. right. change (Qabs 0) with 0%Q. pose proof (least_pos s). split; [split; [done|by left]|]. split; [intros; exfalso; lra|by left].
Qed.

Lemma normalize_zero n mode : mantissa n = 0 -> normalize n mode = inr (zero n).
Proof. intros Hm. unfold normalize. destruct (params (scale n)) as [[minM maxM] lg]. by rewrite Hm. Qed.

Lemma newNumber_computes m e s mode :
  exactScale s -> - 9223372036854775808 <= m <= 9223372036854775807 -> computes s mode (valueOf m e) (newNumber m e s mode).
Proof.
  intros Hs Hm. unfold newNumber, externalToInternal. destruct (Z.leb_spec 0 m) as [Hp|Hn].
  - destruct (decide (m = 0)) as [->|Hne]; [rewrite normalize_zero by done; apply zero_computes; unfold valueOf; change (inject_Z 0) with 0%Q; ring|].
    apply (normalize_computes (mkNumber false m e s) mode); [done|cbn; lia].
  - destruct (Z.leb_spec (-9223372036854775807) m) as [Hl|Hl].
    + apply (computes_resp _ _ (num (mkNumber true (- m) e s))); [unfold num; cbn [signed negative mantissa exponent]; by rewrite Z.opp_involutive|].
      apply (normalize_computes (mkNumber true (- m) e s) mode); [done|cbn; lia].
    + apply (computes_resp _ _ (num (mkNumber true (xrplNumMaxRep + 1) e s))); [|apply (normalize_computes (mkNumber true (xrplNumMaxRep + 1) e s) mode); [done|cbn; done]].
      assert (m = -9223372036854775808) as -> by lia. reflexivity.
Qed.

(** ** Numbers are in normal form *)

Lemma grid_unique s m e m' e' : gridPoint s m e -> gridPoint s m' e' -> (valueOf m e == valueOf m' e')%Q -> m = m' /\ e = e'.
Proof.
  unfold gridPoint. pose proof (params_ratio s) as Hr. destruct (params s) as [[minM maxM] lg]. intros (Hm & _) (Hm' & _) Hv.
  assert (Hcmp : forall a ea b eb, minM <= a <= maxM -> minM <= b <= maxM -> (valueOf a ea <= valueOf b eb)%Q -> ea <= eb).
  { intros a ea b eb Ha Hb Hle. destruct (Z.le_gt_cases ea eb) as [|Hgt]; [done|]. rewrite (value_le _ _ _ _ eb), Z.sub_diag, Z.pow_0_r in Hle by lia.
    pose proof (pow10_ge (ea - eb) ltac:(lia)). nia. }
  assert (He : e = e') by (apply Z.le_antisymm; [apply (Hcmp m e m' e')|apply (Hcmp m' e' m e)]; done || lra). subst e'. split; [|done].
  apply Z.le_antisymm; [assert (H : (valueOf m e <= valueOf m' e)%Q) by lra|assert (H : (valueOf m' e <= valueOf m e)%Q) by lra];
    rewrite (value_le _ _ _ _ e), Z.sub_diag, Z.pow_0_r in H by lia; lia.
Qed.

Lemma roundsTo_grid s d m e m' e' : gridPoint s m e -> roundsTo s d (valueOf m e) m' e' -> m' = m /\ e' = e.
Proof.
  intros Hg [Hg' Hr]. apply (grid_unique s); [done|done|]. specialize (Hr m e Hg). generalize dependent (valueOf m e). generalize (valueOf m' e'). intros v' v Hr. destruct d.
  - destruct Hr as [Hr _]. rewrite (Qabs_pos (v - v)) in Hr by lra. pose proof (Qle_Qabs (v' - v)). pose proof (Qle_Qabs (- (v' - v))). rewrite Qabs_opp in *. lra.
  - destruct Hr as [H1 H2]. specialize (H2 ltac:(lra)). lra.
  - destruct Hr as [H1 H2]. specialize (H2 ltac:(lra)). lra.
Qed.

(** Normalization does not change a number. *)
Lemma normalize_wellFormed n mode : exactScale (scale n) -> wellFormed (scale n) n -> normalize n mode = inr n.
Proof.
  intros Hs [_ [Hz|Hg]]; [rewrite normalize_zero by (by rewrite Hz); unfold zero; by rewrite <- Hz|].
  unfold normalize. pose proof (fun w => normalizeParts_exact (scale n) w (negative n) (mantissa n) (exponent n) mode Hs) as Hn. pose proof (params_ratio (scale n)) as Hr.
  pose proof (grid_pos _ _ _ Hg) as Hpos. pose proof (grid_least _ _ _ Hg) as Hl. destruct (params (scale n)) as [[minM maxM] lg]. rewrite (proj2 (Z.eqb_neq _ _)) by lia.
  destruct (Hn (fun z => u64 z) Hpos ltac:(intros z Hz; apply u64_small; lia)) as [Hb|Hout]; [specialize (Hb _ _ Hg); lra|].
  destruct (normalizeParts _ _ _ _ _ _ _ _ _) as [|[[neg' m'] e']]; [done|]. destruct Hout as [(_ & _ & _ & Hlt)|[-> Hrt]]; [lra|].
  apply roundsTo_grid in Hrt as [-> ->]; [|done]. cbn. by destruct n.
Qed.

Lemma outcome_normalized s mode mode' neg x q r :
  exactScale s -> (0 < x)%Q -> (q == mirror neg x)%Q -> outcome s mode neg x r -> computes s mode q (let? p := r in normalize (ofParts s p) mode').
Proof.
  intros Hs Hx Hq Hout. pose proof (outcome_computes s mode neg x q r Hs Hx Hq Hout) as Hc. destruct Hout as [Hb|Hr]; [left; intros m e Hg; rewrite Hq, mirror_abs by lra; by apply Hb|].
  destruct r as [|[[neg' m] e]]; [done|]. cbn in Hr |- *. rewrite normalize_wellFormed; [done|done|]. split; [done|]. destruct Hr as [(-> & -> & -> & _)|[_ [Hg _]]]; [by left|by right].
Qed.

(** ** Multiplication *)

Lemma shrinkProduct_spec fuel g f x m e maxM limit :
  guards g f -> exactly x m f e -> 0 <= m < 2 ^ Z.of_nat fuel -> 9 <= Z.min maxM limit ->
  let '(g', m', e') := shrinkProduct fuel g m e maxM limit in
  exists f', guards g' f' /\ sbit g' = sbit g /\ exactly x m' f' e' /\ 0 <= m' <= Z.min maxM limit /\ (m' = m \/ (Z.min maxM limit + 1) / 10 <= m').
Proof.
  revert g f m e. induction fuel as [|fuel IH]; intros g f m e Hg Hx Hm HM; cbn [shrinkProduct].
  - change (2 ^ Z.of_nat 0) with 1 in Hm. exists f. split; [done|]. split; [done|]. split; [done|]. lia.
  - rewrite Nat2Z.inj_succ, Z.pow_succ_r in Hm by lia. destruct (_ || _) eqn:Hc.
    + assert (Hgt : Z.min maxM limit < m) by (apply orb_true_iff in Hc as [?%Z.ltb_lt|?%Z.ltb_lt]; lia).
      specialize (IH (push g (m mod 10)) _ (m / 10) (e + 1) (guards_push g f _ Hg (mod_digit m)) (exactly_push x m f e Hx) ltac:(dmlia) HM).
      destruct (shrinkProduct fuel _ _ _ _ _) as [[g' m'] e']. destruct IH as (f' & ? & ? & ? & ? & Hm'). exists f'. split; [done|]. split; [done|]. split; [done|]. split; [done|].
      right. destruct Hm' as [->|?]; [|done]. apply Z.div_le_mono; lia.
    + apply orb_false_iff in Hc as [?%Z.ltb_ge ?%Z.ltb_ge]. exists f. split; [done|]. split; [done|]. split; [done|]. lia.
Qed.

Lemma num_mult n y :
  (num n * num y == mirror (negb (eqb (negative n) (negative y))) (valueOf (mantissa n * mantissa y) (exponent n + exponent y)))%Q.
Proof.
  rewrite !num_mirror. unfold mirror, valueOf. destruct (negative n), (negative y); cbn [eqb negb]; rewrite tens_add, inject_Z_mult; ring.
Qed.

Lemma MulRounded_computes s n y mode :
  exactScale s -> wellFormed s n -> wellFormed s y -> computes s mode (num n * num y) (MulRounded n y mode).
Proof.
  intros Hs [Hsn Hn] [_ Hy]. unfold MulRounded, IsZero. rewrite Hsn. destruct Hn as [->|Hn]; [apply zero_computes; rewrite num_zero; ring|]. pose proof (grid_pos _ _ _ Hn) as Hnp.
  rewrite (proj2 (Z.eqb_neq _ _)) by lia. destruct Hy as [->|Hy]; [apply zero_computes; rewrite num_zero; ring|]. pose proof (grid_pos _ _ _ Hy) as Hyp. rewrite (proj2 (Z.eqb_neq _ _)) by lia.
  pose proof (fun g f m e => finish s g f (valueOf (mantissa n * mantissa y) (exponent n + exponent y)) m e mode MultiplicationOverflow Hs) as Hfin.
  assert (Hmin : 1000000000000000000000000000000 <= mantissa n * mantissa y /\ (s = MantissaScaleLarge330 -> 1000000000000000000000000000000000000 <= mantissa n * mantissa y)).
  { destruct Hs as [->| ->]; destruct Hn as [Hn _], Hy as [Hy _]; split; nia || done. }
  set (zn := negb _). set (x := valueOf _ _) in *. assert (Hwork : forall m' limit, (s = MantissaScaleSmall -> limit = 9999999999999999) -> (s = MantissaScaleLarge330 -> limit = xrplNumMaxRepUp) ->
    m' <= limit -> (limit + 1) / 10 <= m' -> workable s m').
  { intros m' limit H1 H2 Hle Hge. destruct Hs as [->| ->]; [rewrite H1 in * by done|rewrite H2 in * by done]; unfold workable, xrplNumMaxRepUp in *; dmlia. }
  assert (Hlim : let '(_, maxM, _) := params s in let limit := Z.min maxM (repLimit (cuspRoundingFix s)) in
    (s = MantissaScaleSmall -> limit = 9999999999999999) /\ (s = MantissaScaleLarge330 -> limit = xrplNumMaxRepUp)) by (destruct Hs as [->| ->]; done).
  destruct (params s) as [[minM maxM] lg]. destruct Hlim as [Hl1 Hl2]. set (limit := Z.min maxM _) in *.
  assert (Hl9 : 9 <= limit <= 9223372036854775810) by (destruct Hs as [Hs'|Hs']; [rewrite (Hl1 Hs')|rewrite (Hl2 Hs')]; unfold xrplNumMaxRepUp; lia).
  pose proof (shrinkProduct_spec (downFuel (mantissa n * mantissa y)) (newGuard zn) 0 x _ _ maxM (repLimit (cuspRoundingFix s))
    (guards_new zn) (exactly_value _ _) (downFuel_enough (mantissa n * mantissa y) ltac:(lia)) (proj1 Hl9)) as Hsh.
  destruct (shrinkProduct _ _ _ _ _ _) as [[g m'] e']. destruct Hsh as (f' & Hg & Hsb & Hx & Hm' & Hcase). cbn in Hsb. rewrite <- Hsb.
  apply (outcome_normalized s mode mode (sbit g) x); [done| |rewrite Hsb; apply num_mult|eapply Hfin; [exact Hg|exact Hx|]]; [apply value_pos; lia|].
  apply (Hwork m' limit Hl1 Hl2); [apply Hm'|]. destruct Hcase as [->|]; [|done]. fold limit in Hm'. lia.
Qed.

(** ** Large mantissas with a sticky remainder *)

Lemma normalizeFromBig_computes s neg m e mode :
  exactScale s -> 0 <= m -> computes s mode (mirror neg (valueOf m e)) (normalizeFromBigDropped neg m e s mode false).
Proof.
  intros Hs Hm. unfold normalizeFromBigDropped. destruct (Z.eqb_spec m 0) as [->|Hne].
  { apply zero_computes. assert (H0 : (valueOf 0 e == 0)%Q) by (unfold valueOf; change (inject_Z 0) with 0%Q; ring). destruct neg; cbn [mirror]; rewrite H0; reflexivity. }
  pose proof (fun w => normalizeParts_exact s w neg m e mode Hs) as Hn. destruct (params s) as [[minM maxM] lg].
  eapply outcome_computes; [done| |reflexivity|apply Hn; [lia|done]]. apply value_pos. lia.
Qed.

(** The remainder is only known not to be zero. It must not matter for the digits
    that scaling up adds. *)
Lemma dropped_computes s neg m f e x mode :
  exactScale s -> exactly x m f e -> (0 < f < 1)%Q ->
  let '(minM, maxM, _) := params s in
  maxM < m \/ (0 < m /\ minM <= m * 100 /\ (f * 1000 < 1)%Q) ->
  computes s mode (mirror neg x) (normalizeFromBigDropped neg m e s mode true).
Proof.
  intros Hs Hx Hf. unfold normalizeFromBigDropped. pose proof (params_ratio s) as Hr.
  pose proof (fun f m1 e1 => normalizeParts_outcome s (fun z => z) (setDropped (newGuard neg)) f x m e m1 e1 mode Hs) as Hn. destruct (params s) as [[minM maxM] lg]. intros Hcase.
  assert (Hpos : 0 < m) by lia. rewrite (proj2 (Z.eqb_neq _ _)) by lia.
  assert (Hxp : (0 < x)%Q). { eapply Qlt_le_trans; [apply (value_pos m e Hpos)|]. apply (exactly_between x m f e Hx). lra. }
  destruct (scaleUp_spec (fun z => z) upFuel m e minM Hpos ltac:(done)) as (j & Hj & Hup & _ & Hbound); [change (10 ^ Z.of_nat upFuel) with 100000000000000000000; lia|].
  assert (Hj2 : (j = 0 /\ maxM < m) \/ ((j = 0 \/ j = 1 \/ j = 2) /\ (f * 1000 < 1)%Q)).
  { destruct Hcase as [Hgt|(_ & Hm & Hf3)]; [left; lia|right; split; [|done]]. destruct (decide (j <= 2)) as [|Hbig]; [lia|].
    destruct Hbound as [->|[_ Hb]]; [lia|]. exfalso. replace j with (j - 3 + 3) in Hb by lia. rewrite Z.pow_add_r in Hb by lia.
    pose proof (pow10_pos (j - 3) ltac:(lia)). change (10 ^ 3) with 1000 in Hb. nia. }
  eapply outcome_computes; [done|exact Hxp|reflexivity|]. apply (Hn (f * inject_Z (10 ^ j))%Q (m * 10 ^ j) (e - j)); [done|done|done|by apply exactly_scale| |].
  - destruct Hj2 as [[-> _]|[[->|[->| ->]] Hf3]]; [change (inject_Z (10 ^ 0)) with 1%Q|change (inject_Z (10 ^ 0)) with 1%Q|change (inject_Z (10 ^ 1)) with 10%Q|change (inject_Z (10 ^ 2)) with 100%Q]; lra.
  - destruct Hj2 as [[-> Hgt]|[Hj2 Hf3]].
    + right. split; [lia|]. apply stands_dropped; [lia|change (inject_Z (10 ^ 0)) with 1%Q; lra|change (inject_Z (10 ^ (16 - 16))) with 1%Q; change (inject_Z (10 ^ 0)) with 1%Q; lra].
    + left. exists 15. split; [lia|]. change (10 ^ (16 - 15)) with 10.
      destruct Hj2 as [->|[->| ->]]; apply stands_dropped; try lia; change (16 - 15) with 1; change (inject_Z (10 ^ 0)) with 1%Q; change (inject_Z (10 ^ 1)) with 10%Q; change (inject_Z (10 ^ 2)) with 100%Q; lra.
Qed.
(** With the fraction and whether there is one. *)
Lemma sticky_computes s neg m f e x mode (dropped : bool) :
  exactScale s -> exactly x m f e -> 0 <= m ->
  let '(minM, maxM, _) := params s in
  (if dropped then (0 < f < 1)%Q /\ (maxM < m \/ (0 < m /\ minM <= m * 100 /\ (f * 1000 < 1)%Q)) else (f == 0)%Q) ->
  computes s mode (mirror neg x) (normalizeFromBigDropped neg m e s mode dropped).
Proof.
  intros Hs Hx Hm. pose proof (dropped_computes s neg m f e x mode Hs Hx) as Hd. destruct (params s) as [[minM maxM] lg]. destruct dropped.
  - intros [Hf Hc]. by apply Hd.
  - intros Hf. apply (computes_resp _ _ (mirror neg (valueOf m e))); [|by apply normalizeFromBig_computes]. unfold exactly, valueOf, mirror in *. destruct neg; rewrite Hx, Hf; ring.
Qed.

(** ** Division *)

Lemma mirror_div n y :
  0 < mantissa y ->
  (num n / num y == mirror (negb (eqb (negative n) (negative y))) (valueOf (mantissa n) (exponent n) / valueOf (mantissa y) (exponent y)))%Q.
Proof.
  intros Hy. pose proof (value_pos _ (exponent y) Hy) as Hv. rewrite !num_mirror. unfold mirror. destruct (negative n), (negative y); cbn [eqb negb]; field; lra.
Qed.

Lemma injZ_pos z : 0 < z -> (0 < inject_Z z)%Q.
Proof. intros Hz. change 0%Q with (inject_Z 0). by apply injZ_lt. Qed.

(** Long division leaves a fraction. *)
Lemma exactly_quotient a b ea eb k :
  0 < b -> 0 <= k ->
  exactly (valueOf a ea / valueOf b eb) (a * 10 ^ k / b) (inject_Z (a * 10 ^ k mod b) / inject_Z b) (ea - eb - k).
Proof.
  intros Hb Hk. unfold exactly. pose proof (injZ_pos b Hb) as Hb'. pose proof (tens_pos (ea - eb - k)) as Ht. pose proof (tens_pos eb) as Ht'. unfold valueOf.
  assert (Hd : (inject_Z (a * 10 ^ k / b) + inject_Z (a * 10 ^ k mod b) / inject_Z b == inject_Z a * tens k / inject_Z b)%Q).
  { rewrite tens_nonneg, <- inject_Z_mult by done. rewrite (Z.div_mod (a * 10 ^ k) b) at 3 by lia. rewrite inject_Z_plus, inject_Z_mult. field. lra. }
  rewrite Hd. replace ea with ((ea - eb - k) + k + eb) at 1 by lia. rewrite !tens_add. field. split; lra.
Qed.

Lemma fraction_range r b : 0 < b -> 0 < r < b -> (0 < inject_Z r / inject_Z b < 1)%Q.
Proof.
  intros Hb Hr. pose proof (injZ_pos b Hb). split; [apply Qlt_shift_div_l|apply Qlt_shift_div_r]; [done| |done|]; rewrite ?Qmult_0_l, ?Qmult_1_l; apply injZ_lt || apply injZ_pos; lia.
Qed.

Lemma DivRounded_computes n y mode :
  wellFormed big n -> wellFormed big y -> IsZero y = false -> computes big mode (num n / num y) (DivRounded n y mode).
Proof.
  intros [Hsn Hn] [_ Hy] Hyz. unfold DivRounded. rewrite Hyz. destruct Hy as [->|Hy]; [done|]. pose proof (grid_pos _ _ _ Hy) as Hyp. unfold IsZero in *.
  destruct Hn as [->|Hn]; [apply zero_computes; rewrite num_zero; apply Qmult_0_l|]. pose proof (grid_pos _ _ _ Hn) as Hnp. rewrite (proj2 (Z.eqb_neq (mantissa n) _)) by lia.
  destruct Hn as [Hn _], Hy as [Hy _]. rewrite Hsn. rewrite bool_decide_eq_false_2 by done. cbn [negb andb isDisabled cuspRoundingFix].
  assert (Hs : exactScale big) by (by right). apply (computes_resp _ _ _ _ _ (Qeq_sym _ _ (mirror_div n y Hyp))). set (zn := negb _). set (a := mantissa n) in *. set (b := mantissa y) in *.
  set (x := (valueOf a _ / valueOf b _)%Q). pose proof (exactly_quotient a b (exponent n) (exponent y) 17 Hyp ltac:(lia)) as Hx. fold x in Hx. change (10 ^ 17) with 100000000000000000 in Hx.
  set (zm := a * 100000000000000000 / b) in *. set (r := a * 100000000000000000 mod b) in *. assert (Hzm : 10000000000000000 <= zm) by (unfold zm; apply Z.div_le_lower_bound; lia).
  pose proof (Z.mod_pos_bound (a * 100000000000000000) b Hyp) as Hr. fold r in Hr.
  pose proof (injZ_pos b Hyp) as Hb. destruct (Z.eqb_spec r 0) as [Hr0|Hr0]; cbn [negb].
  - apply (sticky_computes big _ _ _ _ _ _ _ Hs Hx); [lia|]. cbn. rewrite Hr0. apply Qmult_0_l.
  - pose proof (exactly_quotient a b (exponent n) (exponent y) 22 Hyp ltac:(lia)) as Hx2. fold x in Hx2.
    assert (Hsplit : a * 10 ^ 22 = zm * 100000 * b + r * 100000). { change (10 ^ 22) with (100000000000000000 * 100000). pose proof (Z.div_mod (a * 100000000000000000) b ltac:(lia)) as H. fold zm r in H. lia. }
    rewrite Hsplit, Z.div_add_l, (Z.add_comm (zm * 100000 * b)), Z.mod_add in Hx2 by lia. pose proof (Z.mod_pos_bound (r * 100000) b Hyp) as Hr2.
    destruct (Z.eqb_spec (r * 100000 / b) 0) as [Hc|Hc]; cbn [negb].
    + assert (Hlt : r * 100000 < b) by (apply Z.div_small_iff in Hc; lia). apply (sticky_computes big _ _ _ _ _ _ _ Hs Hx); [lia|]. rewrite Z.mod_small by lia.
      rewrite (proj2 (Z.eqb_neq _ _)) by lia. cbn [negb]. split; [apply fraction_range; lia|]. right. split; [lia|]. split; [lia|].
      assert (Hq : (inject_Z r * 1000 < inject_Z b)%Q) by (change 1000%Q with (inject_Z 1000); rewrite <- inject_Z_mult; apply injZ_lt; lia).
      assert (Heq : (inject_Z r / inject_Z b * 1000 == inject_Z r * 1000 / inject_Z b)%Q) by (field; lra). rewrite Heq. apply Qlt_shift_div_r; [done|]. lra.
    + assert (Hcp : 0 <= r * 100000 / b) by (apply Z.div_pos; lia). replace (exponent n - exponent y - 17 - 5) with (exponent n - exponent y - 22) by lia.
      apply (sticky_computes big _ _ _ _ _ _ _ Hs Hx2); [lia|]. destruct (Z.eqb_spec (r * 100000 mod b) 0) as [H0|H0]; cbn [negb]; [rewrite H0; apply Qmult_0_l|].
      split; [apply fraction_range; lia|left; lia].
Qed.
(** ** Addition *)

Lemma stands_resp k g f f' : (f == f')%Q -> stands k g f -> stands k g f'.
Proof. intros Hf (ds & Hh & H). exists ds. split; [done|]. destruct (xbit g); [|by rewrite <- Hf]. destruct H as [? H]. split; [done|]. by rewrite <- Hf. Qed.

Lemma exactly_resp x m f f' e : (f == f')%Q -> exactly x m f e -> exactly x m f' e.
Proof. unfold exactly. intros Hf. by rewrite Hf. Qed.

Lemma dropDigits_spec n g f x m e :
  stands 0 g f -> exactly x m f e -> 0 <= m ->
  let '(g', m') := dropDigits n g m in
  exists f', stands 0 g' f' /\ exactly x m' f' (e + Z.of_nat n) /\ 0 <= m' /\ (n = O -> f' = f /\ m' = m) /\ (n <> O -> m' <= m / 10).
Proof.
  revert g f m e. induction n as [|n IH]; intros g f m e Hg Hx Hm; cbn [dropDigits]; [exists f; rewrite Z.add_0_r; done|].
  specialize (IH (push g (m mod 10)) _ (m / 10) (e + 1) (stands_push_new g f _ Hg (mod_digit m)) (exactly_push x m f e Hx) ltac:(dmlia)).
  destruct (dropDigits n _ _) as [g' m']. destruct IH as (f' & Hg' & Hx' & Hm' & Hz & Hs). exists f'. replace (e + Z.of_nat (S n)) with (e + 1 + Z.of_nat n) by lia.
  split; [done|]. split; [done|]. split; [done|]. split; [done|]. intros _. destruct n as [|n]; [destruct (Hz eq_refl); lia|]. specialize (Hs ltac:(done)). dmlia.
Qed.

Lemma dropZeros_spec n g x m e :
  stands 0 g 0 -> exactly x m 0 e -> 0 < m ->
  let '(g', m', e') := dropZeros n g m e in stands 0 g' 0 /\ exactly x m' 0 e' /\ 0 < m' <= m /\ e <= e' <= e + Z.of_nat n.
Proof.
  revert g m e. induction n as [|n IH]; intros g m e Hg Hx Hm; cbn [dropZeros]; [lia || (repeat split; done || lia)|].
  destruct (Z.eqb_spec (m mod 10) 0) as [H0|H0]; [|repeat split; done || lia].
  assert (Hf : ((inject_Z (m mod 10) + 0) * (1 # 10) == 0)%Q) by (rewrite H0; reflexivity).
  specialize (IH (push g (m mod 10)) (m / 10) (e + 1) (stands_resp _ _ _ _ Hf (stands_push_new g 0 _ Hg (mod_digit m))) (exactly_resp _ _ _ _ _ Hf (exactly_push x m 0 e Hx)) ltac:(dmlia)).
  destruct (dropZeros n _ _ _) as [[g' m'] e']. destruct IH as (? & ? & ? & ?). split; [done|]. split; [done|]. dmlia.
Qed.

Lemma expandDigits_spec n m e :
  0 < m -> exists j, 0 <= j <= Z.of_nat n /\ expandDigits n m e = (m * 10 ^ j, e - j) /\ (j = Z.of_nat n \/ upperLimit <= m * 10 ^ j \/ e - j <= xrplNumMinExponent).
Proof.
  revert m e. induction n as [|n IH]; intros m e Hm; cbn [expandDigits]; [exists 0; rewrite Z.mul_1_r, Z.sub_0_r; repeat split; lia || auto|].
  destruct (Z.ltb_spec xrplNumMinExponent e) as [He|He]; cbn [andb].
  - destruct (Z.ltb_spec m upperLimit) as [Hlt|Hge]; [|exists 0; rewrite Z.mul_1_r, Z.sub_0_r; repeat split; lia || auto].
    destruct (IH (m * 10) (e - 1) ltac:(lia)) as (j & Hj & -> & Hc). exists (j + 1). rewrite Z.pow_add_r by lia. change (10 ^ 1) with 10.
    replace (m * (10 ^ j * 10)) with (m * 10 * 10 ^ j) by lia. replace (e - (j + 1)) with (e - 1 - j) by lia. split; [lia|]. split; [done|]. destruct Hc as [->|Hc]; [left; lia|by right].
  - exists 0. rewrite Z.mul_1_r, Z.sub_0_r. repeat split; lia || auto.
Qed.

Lemma value_scale m e j : 0 <= j -> (valueOf m e == valueOf (m * 10 ^ j) (e - j))%Q.
Proof. intros Hj. unfold valueOf. replace e with (e - j + j) at 1 by lia. rewrite tens_add, (tens_nonneg j), inject_Z_mult by done. ring. Qed.

(** The operands at one exponent: the larger one is exact, and large when the
    smaller one leaves digits in the guard. *)
Definition aligned (g : xrplGuard) (a b : Q) (am bm e : Z) : Prop :=
  exists f, stands 0 g f /\ exactly a am 0 e /\ exactly b bm f e /\ 0 <= am /\ 0 <= bm /\
    ((f == 0)%Q \/ (upperLimit <= am /\ bm < 1000000000000000000)).

Lemma adjust_spec neg expandM expandE shrinkM shrinkE :
  xrplNumMinExponent <= shrinkE < expandE -> 0 < expandM -> 0 < shrinkM < 10000000000000000000 ->
  let '(g, em, sm, e) := adjust (newGuard neg) expandM expandE shrinkM shrinkE in
  aligned g (valueOf expandM expandE) (valueOf shrinkM shrinkE) em sm e.
Proof.
  intros He Hem Hsm. unfold adjust.
  pose proof (dropZeros_spec (Z.to_nat (expandE - shrinkE)) (newGuard neg) _ shrinkM shrinkE (stands_new neg) (exactly_value shrinkM shrinkE) ltac:(lia)) as Hz.
  destruct (dropZeros _ _ _ _) as [[g1 sm1] se1]. destruct Hz as (Hg1 & Hx1 & Hsm1 & Hse1).
  destruct (expandDigits_spec (Z.to_nat (expandE - se1)) expandM expandE Hem) as (j & Hj & -> & Hc).
  pose proof (dropDigits_spec (Z.to_nat (expandE - j - se1)) g1 0 _ sm1 se1 Hg1 Hx1 ltac:(lia)) as Hd. destruct (dropDigits _ _ _) as [g2 sm2].
  destruct Hd as (f & Hg2 & Hx2 & Hsm2 & Hn0 & Hn1). exists f. split; [done|]. rewrite Z2Nat.id in Hj, Hc, Hx2 by lia. replace (se1 + (expandE - j - se1)) with (expandE - j) in Hx2 by lia.
  split; [unfold exactly; rewrite (value_scale _ _ j) by lia; unfold valueOf; ring|]. split; [done|]. split; [pose proof (pow10_pos j ltac:(lia)); nia|]. split; [done|].
  destruct (decide (expandE - j = se1)) as [Heq|Hne].
  - left. rewrite (proj1 (Hn0 ltac:(lia))). reflexivity.
  - right. destruct Hc as [->|[Hc|Hc]]; [lia| |lia]. split; [done|]. specialize (Hn1 ltac:(lia)). dmlia.
Qed.

Lemma big_exact : exactScale big.
Proof. by right. Qed.

#[export] Hint Resolve big_exact : go.

(** A difference whose guard digits are still to be taken away. *)
Lemma difference_end k g f d e x neg mode :
  0 <= k <= 15 -> stands k g f -> (x == (inject_Z d - f) * tens e)%Q -> 0 <= d -> (f == 0)%Q \/ 10000000000000000000 < d ->
  computes big mode (mirror neg x)
    (normalizeFromBigDropped neg (if negb (round g mode cuspRounding330 =? -2) then d - 1 else d) e big mode (negb (guardEmpty g))).
Proof.
  intros Hk Hg Hx Hd Hbig. pose proof (stands_range k g f Hk Hg) as Hf. destruct (round_spec g f mode cuspRounding330 (ex_intro _ k (conj Hk Hg))) as [_ Hr]. specialize (Hr eq_refl).
  pose proof (stands_empty k g f Hk Hg) as He. destruct (guardEmpty g) eqn:Hem; cbn [negb].
  - assert (H0 : (f == 0)%Q) by (by apply He). rewrite (proj2 Hr H0). cbn [Z.eqb Pos.eqb negb]. apply (sticky_computes big neg d 0 e x); [auto with go| |done|reflexivity].
    unfold exactly. rewrite Hx, H0. ring.
  - assert (H0 : ~ (f == 0)%Q) by (intros H; apply He in H; congruence). destruct Hbig as [?|Hbig]; [done|]. rewrite (proj2 (Z.eqb_neq _ (-2))) by (intros H; by apply Hr in H). cbn [negb].
    apply (sticky_computes big neg (d - 1) (1 - f) e x); [auto with go| |lia|].
    + unfold exactly. rewrite Hx. unfold Z.sub. rewrite inject_Z_plus, inject_Z_opp. change (inject_Z 1) with 1%Q. ring.
    + cbn. split; [lra|left; lia].
Qed.

(** One digit is enough to have the difference large again. *)
Lemma difference_computes g f d e x neg mode :
  stands 0 g f -> (x == (inject_Z d - f) * tens e)%Q -> 0 <= d -> (f == 0)%Q \/ 999000000000000000000 <= d ->
  computes big mode (mirror neg x)
    (let? r := borrow (fun g m => (m <? upperLimit) && negb (guardEmpty g)) (fun z => z) borrowFuel g d e in
     let '(g, m, e) := r in
     normalizeFromBigDropped neg (if negb (round g mode cuspRounding330 =? -2) then m - 1 else m) e big mode (negb (guardEmpty g))).
Proof.
  intros Hg Hx Hd Hbig. pose proof (stands_empty 0 g f ltac:(lia) Hg) as He. unfold borrowFuel. cbn [borrow]. destruct (Z.ltb_spec d upperLimit) as [Hlt|Hge]; cbn [andb negb].
  2:{ apply (difference_end 0 g f); [lia|done|done|done|]. unfold upperLimit in Hge. right. lia. }
  destruct (guardEmpty g) eqn:Hem; cbn [negb].
  { apply (difference_end 0 g f); [lia|done|done|done|]. left. by apply He. }
  destruct Hbig as [Hz|Hbig]; [apply He in Hz; congruence|]. destruct (stands_pop 0 g f ltac:(lia) Hg) as (Hdig & Hg' & _). destruct (pop g) as [c g']. cbn [fst snd] in *. unfold isDigit in Hdig.
  rewrite (proj2 (Z.ltb_ge (d * 10 - c) upperLimit)) by (unfold upperLimit; lia). cbn [andb negb].
  apply (difference_end 1 g' (f * 10 - inject_Z c)); [lia|done| |lia|right; lia].
  rewrite Hx. replace e with (e - 1 + 1) at 1 by lia. rewrite tens_succ. unfold Z.sub at 2. rewrite inject_Z_plus, inject_Z_opp, inject_Z_mult. change (inject_Z 10) with 10%Q. ring.
Qed.

(** Sum and difference of aligned magnitudes. *)
Lemma aligned_sum g a b am bm e neg mode :
  aligned g a b am bm e -> computes big mode (mirror neg (a + b)) (normalizeFromBigDropped neg (am + bm) e big mode (negb (guardEmpty g))).
Proof.
  intros (f & Hg & Ha & Hb & Ham & Hbm & Hc). pose proof (stands_empty 0 g f ltac:(lia) Hg) as He. pose proof (stands_range 0 g f ltac:(lia) Hg) as Hf.
  apply (sticky_computes big neg (am + bm) f e); [auto with go| |lia|].
  - unfold exactly in *. rewrite Ha, Hb, inject_Z_plus. ring.
  - cbn. destruct (guardEmpty g) eqn:Hem; cbn [negb]; [by apply He|]. assert (H0 : ~ (f == 0)%Q) by (intros H; apply He in H; congruence).
    destruct Hc as [?|[Hl _]]; [done|]. unfold upperLimit in Hl. split; [lra|left; lia].
Qed.

(** The larger magnitude decides the sign. *)
Lemma aligned_difference g a b am bm e na nb m neg mode :
  aligned g a b am bm e -> na = negb nb -> (m = am - bm /\ neg = na /\ bm <= am) \/ (m = bm - am /\ neg = nb /\ am <= bm) ->
  computes big mode (mirror na a + mirror nb b)
    (let? r := borrow (fun g m => (m <? upperLimit) && negb (guardEmpty g)) (fun z => z) borrowFuel g m e in
     let '(g, m, e) := r in
     normalizeFromBigDropped neg (if negb (round g mode cuspRounding330 =? -2) then m - 1 else m) e big mode (negb (guardEmpty g))).
Proof.
  intros (f & Hg & Ha & Hb & Ham & Hbm & Hc) Hn. unfold exactly in *. intros [(-> & -> & Hle)|(-> & -> & Hle)].
  - apply (computes_resp _ _ (mirror na (a - b))); [subst na; unfold mirror; destruct nb; cbn [negb]; ring|]. apply (difference_computes g f); [done| |lia|].
    + rewrite Ha, Hb. unfold Z.sub. rewrite inject_Z_plus, inject_Z_opp. ring.
    + destruct Hc as [?|[Hl Hs]]; [by left|right]. unfold upperLimit in Hl. lia.
  - assert (Hf0 : (f == 0)%Q) by (destruct Hc as [?|[Hl Hs]]; [done|unfold upperLimit in Hl; lia]).
    apply (computes_resp _ _ (mirror nb (b - a))); [subst na; unfold mirror; destruct nb; cbn [negb]; ring|]. apply (difference_computes g f); [done| |lia|by left].
    rewrite Ha, Hb, Hf0. unfold Z.sub. rewrite inject_Z_plus, inject_Z_opp. ring.
Qed.

(** The end of an addition, for two operands at one exponent. *)
Lemma aligned_add g n y xm ym e mode :
  aligned g (valueOf (mantissa n) (exponent n)) (valueOf (mantissa y) (exponent y)) xm ym e \/
  aligned g (valueOf (mantissa y) (exponent y)) (valueOf (mantissa n) (exponent n)) ym xm e ->
  computes big mode (num n + num y)
    (if eqb (negative n) (negative y) then normalizeFromBigDropped (negative n) (xm + ym) e big mode (negb (guardEmpty g))
     else
       let '(xm, xn) := if ym <? xm then (xm - ym, negative n) else (ym - xm, negative y) in
       let? r := borrow (fun g m => (m <? upperLimit) && negb (guardEmpty g)) (fun z => z) borrowFuel g xm e in
       let '(g, xm, xe) := r in
       let xm := if negb (round g mode cuspRounding330 =? -2) then xm - 1 else xm in
       normalizeFromBigDropped xn xm xe big mode (negb (guardEmpty g))).
Proof.
  intros Hal. set (a := valueOf (mantissa n) (exponent n)) in *. set (b := valueOf (mantissa y) (exponent y)) in *.
  apply (computes_resp _ _ (mirror (negative n) a + mirror (negative y) b)); [by rewrite !num_mirror|]. destruct (eqb (negative n) (negative y)) eqn:Hs.
  - apply eqb_prop in Hs. rewrite <- Hs. apply (computes_resp _ _ (mirror (negative n) (a + b))); [unfold mirror; destruct (negative n); ring|]. destruct Hal as [Hal|Hal]; [by apply aligned_sum|].
    apply (computes_resp _ _ (mirror (negative n) (b + a))); [unfold mirror; destruct (negative n); ring|]. rewrite Z.add_comm. by apply aligned_sum.
  - apply eqb_false_iff in Hs. assert (Hn : negative n = negb (negative y)) by (destruct (negative n), (negative y); done). destruct Hal as [Hal|Hal].
    + destruct (Z.ltb_spec ym xm); (eapply aligned_difference; [exact Hal|done|]); [left|right]; (split; [done|]); (split; [done|lia]).
    + apply (computes_resp _ _ (mirror (negative y) b + mirror (negative n) a)); [ring|].
      destruct (Z.ltb_spec ym xm); (eapply aligned_difference; [exact Hal|by rewrite Hn, negb_involutive|]); [right|left]; (split; [done|]); (split; [done|lia]).
Qed.

Lemma self_computes s n mode : exactScale s -> wellFormed s n -> computes s mode (num n) (inr n).
Proof.
  intros Hs Hn. pose proof Hn as [Hsn [->|Hg]]; [apply zero_computes, num_zero|]. subst s. rewrite <- (normalize_wellFormed n mode) by done. apply normalize_computes; [done|]. by eapply grid_pos.
Qed.

Lemma AddRounded_computes n y mode : wellFormed big n -> wellFormed big y -> computes big mode (num n + num y) (AddRounded n y mode).
Proof.
  intros Hn Hy. pose proof Hn as [Hsn Hn']. pose proof Hy as [Hsy Hy']. unfold AddRounded. rewrite bool_decide_eq_true_2 by done. unfold addRounded330, IsZero.
  destruct Hy' as [->|Hgy]; [apply (computes_resp _ _ (num n)); [rewrite num_zero; ring|]; cbn; apply self_computes; auto with go|]. pose proof (grid_pos _ _ _ Hgy) as Hyp. rewrite (proj2 (Z.eqb_neq _ _)) by lia.
  destruct Hn' as [->|Hgn]; [apply (computes_resp _ _ (num y)); [rewrite num_zero; ring|]; cbn; apply self_computes; auto with go|]. pose proof (grid_pos _ _ _ Hgn) as Hnp. rewrite (proj2 (Z.eqb_neq _ _)) by lia.
  destruct (Equal n (Negate y)) eqn:Heq.
  { unfold zero. rewrite Hsn. apply zero_computes. unfold Equal, Negate in Heq. rewrite (proj2 (Z.eqb_neq _ _)) in Heq by lia. cbn [negative mantissa exponent] in Heq.
    apply andb_true_iff in Heq as [[Hs%eqb_prop Hm%Z.eqb_eq]%andb_true_iff He%Z.eqb_eq]. rewrite !num_mirror, Hs, Hm, He. unfold mirror. destruct (negative y); cbn [negb]; ring. }
  rewrite Hsn. destruct Hgn as (Hmn & Hen & _), Hgy as (Hmy & Hey & _).
  destruct (Z.ltb_spec (exponent n) (exponent y)) as [Hlt|Hge].
  - pose proof (adjust_spec (negative n) (mantissa y) (exponent y) (mantissa n) (exponent n) ltac:(lia) ltac:(lia) ltac:(lia)) as Ha. destruct (adjust _ _ _ _ _) as [[[g em] sm] e].
    apply aligned_add. by right.
  - destruct (Z.ltb_spec (exponent y) (exponent n)) as [Hlt|Hge'].
    + pose proof (adjust_spec (negative y) (mantissa n) (exponent n) (mantissa y) (exponent y) ltac:(lia) ltac:(lia) ltac:(lia)) as Ha. destruct (adjust _ _ _ _ _) as [[[g em] sm] e].
      apply aligned_add. by left.
    + apply aligned_add. left. exists 0%Q. split; [apply stands_new|]. split; [apply exactly_value|]. replace (exponent n) with (exponent y) by lia. split; [apply exactly_value|].
      split; [lia|]. split; [lia|]. left. reflexivity.
Qed.
(** ** Comparison *)

Lemma grid_order s m e m' e' :
  gridPoint s m e -> gridPoint s m' e' -> (valueOf m e < valueOf m' e')%Q <-> e < e' \/ (e = e' /\ m < m').
Proof.
  unfold gridPoint. pose proof (params_ratio s) as Hr. destruct (params s) as [[minM maxM] lg]. intros (Hm & _) (Hm' & _).
  destruct (Z.lt_trichotomy e e') as [Hlt|[->|Hgt]].
  - rewrite (value_lt _ _ _ _ e), Z.sub_diag, Z.pow_0_r by lia. pose proof (pow10_ge (e' - e) ltac:(lia)). split; [by left|]. intros _. nia.
  - rewrite (value_lt _ _ _ _ e'), Z.sub_diag, Z.pow_0_r by lia. lia.
  - rewrite (value_lt _ _ _ _ e'), Z.sub_diag, Z.pow_0_r by lia. pose proof (pow10_ge (e - e') ltac:(lia)). split; [intros; nia|lia].
Qed.

Definition signOf (c : comparison) : Z := match c with Lt => -1 | Eq => 0 | Gt => 1 end.

Lemma signOf_opp a b : signOf (- a ?= - b)%Q = - signOf (a ?= b)%Q.
Proof.
  destruct (Qcompare_spec a b) as [H|H|H].
  - rewrite (proj1 (Qeq_alt _ _)); [done|]. lra.
  - rewrite (proj1 (Qgt_alt _ _)); [done|]. lra.
  - rewrite (proj1 (Qlt_alt _ _)); [done|]. lra.
Qed.

(** Magnitudes compare by exponent and then by mantissa. *)
Lemma magnitude_order s m e m' e' :
  gridPoint s m e -> gridPoint s m' e' ->
  (if e <? e' then -1 else if e' <? e then 1 else if m <? m' then -1 else if m' <? m then 1 else 0) = signOf (valueOf m e ?= valueOf m' e')%Q.
Proof.
  intros Hg Hg'. pose proof (grid_order s m e m' e' Hg Hg') as H1. pose proof (grid_order s m' e' m e Hg' Hg) as H2.
  destruct (Qcompare_spec (valueOf m e) (valueOf m' e')) as [H|H|H]; cbn [signOf].
  - apply (grid_unique s) in H as [-> ->]; [|done|done]. by rewrite !Z.ltb_irrefl.
  - apply H1 in H as [H|[-> H]]; [by rewrite (proj2 (Z.ltb_lt _ _) H)|]. rewrite Z.ltb_irrefl. by rewrite (proj2 (Z.ltb_lt _ _) H).
  - apply H2 in H as [H|[-> H]]; [rewrite (proj2 (Z.ltb_ge e e')), (proj2 (Z.ltb_lt _ _) H) by lia; done|].
    rewrite Z.ltb_irrefl, (proj2 (Z.ltb_ge m m')), (proj2 (Z.ltb_lt _ _) H) by lia. done.
Qed.

Lemma num_sign s n :
  wellFormed s n -> (mantissa n = 0 /\ negative n = false /\ (num n == 0)%Q) \/
    (gridPoint s (mantissa n) (exponent n) /\ 0 < mantissa n /\ (num n == mirror (negative n) (valueOf (mantissa n) (exponent n)))%Q /\ (0 < valueOf (mantissa n) (exponent n))%Q).
Proof.
  intros [_ [->|Hg]]; [left; split; [done|]; split; [done|apply num_zero]|right]. pose proof (grid_pos _ _ _ Hg) as Hp. split; [done|]. split; [done|]. split; [apply num_mirror|by apply value_pos].
Qed.

Lemma signOf_lt a b : (a < b)%Q -> signOf (a ?= b)%Q = -1.
Proof. intros H. by rewrite (proj1 (Qlt_alt _ _) H). Qed.

Lemma signOf_gt a b : (b < a)%Q -> signOf (a ?= b)%Q = 1.
Proof. intros H. by rewrite (proj1 (Qgt_alt _ _) H). Qed.

Lemma Cmp_order s n y : wellFormed s n -> wellFormed s y -> Cmp n y = signOf (num n ?= num y)%Q.
Proof.
  intros Hn Hy. unfold Cmp. destruct (num_sign s n Hn) as [(Hm & Hneg & Hv)|(Hg & Hp & Hv & Hpos)], (num_sign s y Hy) as [(Hm' & Hneg' & Hv')|(Hg' & Hp' & Hv' & Hpos')].
  - rewrite Hneg, Hneg', Hm, Hm'. cbn. rewrite (proj1 (Qeq_alt _ _)) by lra. done.
  - rewrite Hneg, Hm. unfold mirror in Hv'. rewrite (proj2 (Z.eqb_neq (mantissa y) 0)) by lia.
    destruct (negative y); cbn [eqb negb Z.eqb]; symmetry; [apply signOf_gt|apply signOf_lt]; lra.
  - rewrite Hneg', Hm'. unfold mirror in Hv. rewrite (proj2 (Z.eqb_neq (mantissa n) 0)) by lia.
    destruct (negative n); cbn [eqb negb Z.eqb]; symmetry; [apply signOf_lt|apply signOf_gt]; lra.
  - rewrite (proj2 (Z.eqb_neq (mantissa n) 0)), (proj2 (Z.eqb_neq (mantissa y) 0)) by lia. rewrite (magnitude_order s _ _ _ _ Hg Hg'). unfold mirror in *.
    rewrite Hv, Hv'. destruct (negative n), (negative y); cbn [eqb negb]; [by rewrite signOf_opp|symmetry; apply signOf_lt; lra|symmetry; apply signOf_gt; lra|done].
Qed.

(** ** To integers *)

(** An integer is the exact [q], rounded. *)
Definition roundsInt (mode : RoundingMode) (q : Q) (z : Z) : Prop :=
  match mode with
  | RoundToNearest => (Qabs (q - inject_Z z) <= 1 # 2)%Q /\ ((Qabs (q - inject_Z z) == 1 # 2)%Q -> Z.even z = true)
  | RoundTowardsZero => if Qle_bool 0 q then (inject_Z z <= q < inject_Z z + 1)%Q else (inject_Z z - 1 < q <= inject_Z z)%Q
  | RoundDownward => (inject_Z z <= q < inject_Z z + 1)%Q
  | RoundUpward => (inject_Z z - 1 < q <= inject_Z z)%Q
  end.

Lemma injZ_inj_lt a b : (inject_Z a < inject_Z b + 1)%Q -> a <= b.
Proof. intros H. change 1%Q with (inject_Z 1) in H. rewrite <- inject_Z_plus, <- Zlt_Qlt in H. lia. Qed.

Lemma roundsInt_unique mode q a b : roundsInt mode q a -> roundsInt mode q b -> a = b.
Proof.
  assert (Hhalf : forall z, (Qabs (q - inject_Z z) <= 1 # 2)%Q -> (q - inject_Z z <= 1 # 2)%Q /\ (inject_Z z - q <= 1 # 2)%Q).
  { intros z H. pose proof (Qle_Qabs (q - inject_Z z)). pose proof (Qle_Qabs (- (q - inject_Z z))). rewrite Qabs_opp in *. lra. }
  assert (Hnear : forall z w, roundsInt RoundToNearest q z -> roundsInt RoundToNearest q w -> z <= w).
  { intros z w [Hz Hz'] [Hw Hw']. apply Hhalf in Hz, Hw. destruct (Z.le_gt_cases z w) as [|Hgt]; [done|]. assert (Hzw : w + 1 <= z) by lia. apply injZ_le in Hzw. rewrite inject_Z_plus in Hzw. change (inject_Z 1) with 1%Q in Hzw.
    assert (Hze : z = w + 1). { assert (Hlt : (inject_Z z < inject_Z (w + 1) + 1)%Q) by (rewrite inject_Z_plus; change (inject_Z 1) with 1%Q; lra). apply injZ_inj_lt in Hlt. lia. }
    rewrite Qabs_neg in Hz' by lra. rewrite Qabs_pos in Hw' by lra. specialize (Hz' ltac:(lra)). specialize (Hw' ltac:(lra)). rewrite Hze, Z.even_add, Hw' in Hz'. done. }
  destruct mode; cbn [roundsInt]; intros Ha Hb.
  - apply Z.le_antisymm; by apply Hnear.
  - destruct (Qle_bool 0 q); apply Z.le_antisymm; apply injZ_inj_lt; lra.
  - apply Z.le_antisymm; apply injZ_inj_lt; lra.
  - apply Z.le_antisymm; apply injZ_inj_lt; lra.
Qed.

(** The decision of the guard, for an integer and a fraction. *)
Lemma goesUp_whole g f d mode fix_ :
  guards g f -> 0 <= d ->
  roundsInt mode (mirror (sbit g) (inject_Z d + f)) (signed (sbit g) (if goesUp g d mode fix_ then d + 1 else d)).
Proof.
  intros Hg Hd. pose proof (guards_range g f Hg) as Hf. pose proof (goesUp_spec g f d mode fix_ Hg) as Hu. apply injZ_le in Hd. change (inject_Z 0) with 0%Q in Hd.
  unfold mirror, signed. destruct mode; cbn [directionOf roundsInt] in *.
  - destruct (goesUp g d RoundToNearest fix_), (sbit g); destruct Hu as [Hu Hev]; rewrite ?inject_Z_opp, ?inject_Z_plus, ?Z.even_opp; change (inject_Z 1) with 1%Q;
      (rewrite Qabs_pos by lra) || (rewrite Qabs_neg by lra); (split; [lra|]); intros; apply Hev; lra.
  - rewrite Hu. destruct (sbit g); rewrite ?inject_Z_opp.
    + destruct (Qle_bool 0 (- (inject_Z d + f))) eqn:Hle; [apply Qle_bool_iff in Hle|]; lra.
    + rewrite (proj2 (Qle_bool_iff _ _)) by lra. lra.
  - destruct (sbit g), (goesUp g d RoundDownward fix_); try discriminate; rewrite ?inject_Z_opp, ?inject_Z_plus; change (inject_Z 1) with 1%Q; lra.
  - destruct (sbit g), (goesUp g d RoundUpward fix_); try discriminate; rewrite ?inject_Z_opp, ?inject_Z_plus; change (inject_Z 1) with 1%Q; lra.
Qed.

Lemma growDrops_spec n d :
  0 < d <= xrplNumMaxRep ->
  match growDrops n d with
  | inl _ => xrplNumMaxRep < d * 10 ^ Z.of_nat n
  | inr r => r = d * 10 ^ Z.of_nat n /\ r <= xrplNumMaxRep
  end.
Proof.
  revert d. induction n as [|n IH]; intros d Hd; cbn [growDrops]; [change (10 ^ Z.of_nat 0) with 1; lia|].
  rewrite Nat2Z.inj_succ, Z.pow_succ_r by lia. pose proof (pow10_pos (Z.of_nat n) ltac:(lia)). destruct (Z.ltb_spec (xrplNumMaxRep / 10) d) as [Hlt|Hge].
  - assert (xrplNumMaxRep < d * 10) by (unfold xrplNumMaxRep in *; dmlia). nia.
  - specialize (IH (d * 10) ltac:(unfold xrplNumMaxRep in *; dmlia)). replace (d * (10 * 10 ^ Z.of_nat n)) with (d * 10 * 10 ^ Z.of_nat n) by lia. done.
Qed.

(** The views of mantissa and exponent give the number back. *)
Lemma view_spec s n :
  exactScale s -> wellFormed s n -> mantissa n <> 0 ->
  exists d, Mantissa n = signed (negative n) d /\ 0 < d <= xrplNumMaxRep /\ (num n == mirror (negative n) (valueOf d (Exponent n)))%Q.
Proof.
  intros Hs [_ [->|Hg]] H0; [done|]. pose proof (grid_pos _ _ _ Hg) as Hp. unfold Mantissa, Exponent. destruct (Z.ltb_spec xrplNumMaxRep (mantissa n)) as [Hgt|Hle].
  - exists (mantissa n / 10). destruct Hs as [->| ->]; destruct Hg as (Hm & _ & Hg); [unfold xrplNumMaxRep in *; lia|].
    destruct (Hg eq_refl) as [?|[Hmod _]]; [lia|]. split; [done|]. split; [unfold xrplNumMaxRep in *; dmlia|].
    rewrite num_mirror. rewrite (Z.div_mod (mantissa n) 10) at 1 by lia. rewrite Hmod, Z.add_0_r, Z.mul_comm. unfold mirror. destruct (negative n); rewrite value_shift; reflexivity.
  - exists (mantissa n). split; [done|]. split; [lia|]. apply num_mirror.
Qed.
Lemma dropDigits_sbit n g m : sbit (fst (dropDigits n g m)) = sbit g.
Proof. revert g m. induction n as [|n IH]; intros g m; [done|]. cbn [dropDigits]. by rewrite IH. Qed.

Lemma dropDigits_le n g m : 0 <= m -> snd (dropDigits n g m) <= m.
Proof. revert g m. induction n as [|n IH]; intros g m Hm; [done|]. cbn [dropDigits]. specialize (IH (push g (m mod 10)) (m / 10)). dmlia. Qed.

Lemma roundsInt_resp mode q q' z : (q == q')%Q -> roundsInt mode q z -> roundsInt mode q' z.
Proof.
  intros Hq. unfold roundsInt. destruct mode; [by rewrite Hq| |by rewrite Hq..]. replace (Qle_bool 0 q') with (Qle_bool 0 q); [destruct (Qle_bool 0 q); by rewrite Hq|].
  apply eq_true_iff_eq. rewrite !Qle_bool_iff. by rewrite Hq.
Qed.

(** What a conversion to 64 bits returns: the rounded integer, unless it has too
    many bits. *)
Definition converts (mode : RoundingMode) (q : Q) (r : numError + Z) : Prop :=
  match r with
  | inl _ => forall z, roundsInt mode q z -> xrplNumMaxRep < Z.abs z
  | inr z => roundsInt mode q z /\ Z.abs z <= xrplNumMaxRep
  end.

Lemma abs_signed neg d : 0 <= d -> Z.abs (signed neg d) = d.
Proof. unfold signed. destruct neg; lia. Qed.

Lemma signed_sign neg d : 0 < d -> (signed neg d <? 0) = neg.
Proof. intros Hd. unfold signed. destruct neg; [apply Z.ltb_lt|apply Z.ltb_ge]; lia. Qed.

(** The end of a conversion. *)
Lemma whole_end g f d mode fix_ q :
  guards g f -> 0 <= d <= xrplNumMaxRep -> (q == mirror (sbit g) (inject_Z d + f))%Q ->
  converts mode q
    (let? drops := if goesUp g d mode fix_ then if xrplNumMaxRep <=? d then inl RepRoundingOverflow else inr (d + 1) else inr d in
     inr (signed (sbit g) drops)).
Proof.
  intros Hg Hd Hq. pose proof (roundsInt_resp _ _ _ _ (Qeq_sym _ _ Hq) (goesUp_whole g f d mode fix_ Hg ltac:(lia))) as Hr. destruct (goesUp g d mode fix_).
  - destruct (Z.leb_spec xrplNumMaxRep d) as [Hle|Hlt]; cbn.
    + intros z Hz. rewrite (roundsInt_unique _ _ _ _ Hz Hr), abs_signed by lia. lia.
    + split; [done|]. rewrite abs_signed by lia. lia.
  - cbn. split; [done|]. rewrite abs_signed by lia. lia.
Qed.

Lemma whole_exact mode q k z : (q == inject_Z k)%Q -> roundsInt mode q z -> z = k.
Proof.
  intros Hq Hz. apply (roundsInt_unique mode q); [done|]. apply (roundsInt_resp mode (inject_Z k)); [by symmetry|]. unfold roundsInt. destruct mode; [|destruct (Qle_bool 0 (inject_Z k)); lra|lra|lra].
  rewrite Qabs_pos by lra. split; lra.
Qed.

Lemma ToInt64_converts s n mode : exactScale s -> wellFormed s n -> converts mode (num n) (ToInt64WithMode n mode).
Proof.
  intros Hs Hn. unfold ToInt64WithMode. destruct (decide (mantissa n = 0)) as [H0|H0].
  { assert (Hz : Mantissa n = 0) by (unfold Mantissa, signed; rewrite H0; by destruct (negative n)). rewrite Hz. change (converts mode (num n) (inr 0)).
    destruct (num_sign s n Hn) as [(_ & _ & Hv)|(_ & Hp & _)]; [|lia]. split; [|done]. apply (roundsInt_resp _ 0); [by symmetry|]. by destruct mode. }
  destruct (view_spec s n Hs Hn H0) as (d & -> & Hd & Hq). rewrite signed_sign, abs_signed by lia.
  rewrite (proj2 (Z.eqb_neq _ 0)) by (unfold signed; destruct (negative n); lia). set (neg := negative n) in *. set (k := Exponent n) in *.
  pose proof (dropDigits_spec (Z.to_nat (- k)) (newGuard neg) 0 _ d k (stands_new neg) (exactly_value d k) ltac:(lia)) as Hdrop.
  pose proof (dropDigits_sbit (Z.to_nat (- k)) (newGuard neg) d) as Hsb. pose proof (dropDigits_le (Z.to_nat (- k)) (newGuard neg) d ltac:(lia)) as Hdle.
  destruct (dropDigits _ _ _) as [g d']. destruct Hdrop as (f & Hg & Hx & Hd' & Hn0 & _). cbn [fst snd sbit newGuard] in *. assert (Hgg : guards g f) by (exists 0; split; [lia|done]).
  destruct (Z.le_gt_cases 0 k) as [Hk|Hk].
  - destruct (Hn0 ltac:(lia)) as [-> ->]. pose proof (growDrops_spec (Z.to_nat k) d Hd) as Hgr. rewrite Z2Nat.id in Hgr by lia.
    assert (Hval : (valueOf d k == inject_Z (d * 10 ^ k) + 0)%Q) by (unfold valueOf; rewrite tens_nonneg, inject_Z_mult by done; ring).
    destruct (growDrops _ _) as [err|r]; cbn [mbind].
    + intros z Hz. rewrite (whole_exact mode (num n) (signed neg (d * 10 ^ k)) z); [rewrite abs_signed by lia; lia| |done].
      rewrite Hq. unfold mirror, signed. destruct neg; rewrite Hval, ?inject_Z_opp; ring.
    + destruct Hgr as [-> Hle]. fold (goesUp g (d * 10 ^ k) mode (cuspRoundingFix (scale n))). apply (whole_end g 0); [done|pose proof (pow10_pos k Hk); nia|].
      rewrite Hq, Hsb. unfold mirror. destruct neg; rewrite Hval; reflexivity.
  - replace (Z.to_nat k) with O by lia. cbn [growDrops]. fold (goesUp g d' mode (cuspRoundingFix (scale n))). apply (whole_end g f); [done|lia|].
    rewrite Hq, Hsb. rewrite Z2Nat.id in Hx by lia. replace (k + - k) with 0 in Hx by lia. assert (Hval : (valueOf d k == inject_Z d' + f)%Q) by (unfold exactly in Hx; rewrite Hx; change (tens 0) with 1%Q; ring).
    unfold mirror. destruct neg; rewrite Hval; reflexivity.
Qed.

Lemma number_unique s n y : wellFormed s n -> wellFormed s y -> (num n == num y)%Q -> n = y.
Proof.
  intros Hn Hy Hv. pose proof Hn as [Hsn Hn']. pose proof Hy as [Hsy Hy'].
  destruct (num_sign s n Hn) as [(Hm & _ & Hv1)|(Hg & Hp & Hv1 & Hpos)], (num_sign s y Hy) as [(Hm' & _ & Hv2)|(Hg' & Hp' & Hv2 & Hpos')]; unfold mirror in *.
  - destruct Hn' as [->|Hg]; [|apply grid_pos in Hg; lia]. destruct Hy' as [->|Hg]; [done|apply grid_pos in Hg; lia].
  - destruct (negative y); lra.
  - destruct (negative n); lra.
  - assert (Hs : negative n = negative y) by (destruct (negative n), (negative y); done || lra).
    assert (Hvv : (valueOf (mantissa n) (exponent n) == valueOf (mantissa y) (exponent y))%Q) by (destruct (negative n), (negative y); done || lra).
    apply (grid_unique s) in Hvv as [? ?]; [|done|done]. destruct n, y. cbn in *. by subst.
Qed.

Lemma Negate_wellFormed s n : wellFormed s n -> wellFormed s (Negate n) /\ (num (Negate n) == - num n)%Q.
Proof.
  intros [Hs Hn]. unfold Negate. destruct (Z.eqb_spec (mantissa n) 0) as [H0|H0].
  - split; [done|]. destruct Hn as [->|Hg]; [rewrite num_zero; reflexivity|]. pose proof (grid_pos _ _ _ Hg). lia.
  - destruct Hn as [->|Hg]; [done|]. split; [split; [done|by right]|]. rewrite !num_mirror. unfold mirror. cbn [negative mantissa exponent]. destruct (negative n); cbn [negb]; ring.
Qed.

(** ** Results *)

(** C7: At the scale of the 3.3.0 fixes, addition and subtraction return the exact
    sum or difference of the operands, rounded in the requested mode to the nearest
    representable number (or the next one up or down), with no double rounding:
    the guard digits and the sticky remainder lose nothing that rounding needs. *)
Theorem add_correctly_rounded n y mode :
  wellFormed big n -> wellFormed big y ->
  computes big mode (num n + num y) (AddRounded n y mode) /\ computes big RoundToNearest (num n - num y) (Sub n y).
Proof.
  intros Hn Hy. split; [by apply AddRounded_computes|]. destruct (Negate_wellFormed big y Hy) as [Hy' Hv]. unfold Sub.
  apply (computes_resp _ _ (num n + num (Negate y))); [rewrite Hv; ring|]. by apply AddRounded_computes.
Qed.

(** C17: Multiplication returns the exact product, rounded, at the sixteen digit
    scale and at the scale of the 3.3.0 fixes: the largest mantissas, where the
    product crosses the limit of 63 bits, included. *)
Theorem mul_correctly_rounded s n y mode :
  exactScale s -> wellFormed s n -> wellFormed s y -> computes s mode (num n * num y) (MulRounded n y mode).
Proof. apply MulRounded_computes. Qed.

(** C18: At the scale of the 3.3.0 fixes, division returns the exact quotient,
    rounded, although only twenty-two digits and one sticky bit of it are computed;
    division by zero is an error. *)
Theorem div_correctly_rounded n y mode :
  wellFormed big n -> wellFormed big y ->
  if IsZero y then DivRounded n y mode = inl DivideByZero else computes big mode (num n / num y) (DivRounded n y mode).
Proof. intros Hn Hy. destruct (IsZero y) eqn:Hz; [unfold DivRounded; by rewrite Hz|by apply DivRounded_computes]. Qed.

(** C38: The conversion to a 64-bit integer returns the exact value rounded to an
    integer in the requested mode, and fails exactly when that integer has more than
    63 bits. *)
Theorem to_int64_rounded s n mode : exactScale s -> wellFormed s n -> converts mode (num n) (ToInt64WithMode n mode).
Proof. apply ToInt64_converts. Qed.

(** Numbers compare, by sign, exponent and mantissa, as the rationals they stand
    for; only equal numbers compare equal. *)
Theorem compare_exact s n y :
  wellFormed s n -> wellFormed s y -> Cmp n y = signOf (num n ?= num y)%Q /\ (Cmp n y = 0 <-> n = y).
Proof.
  intros Hn Hy. pose proof (Cmp_order s n y Hn Hy) as Hc. split; [done|]. rewrite Hc. split; [|intros ->; destruct (Qcompare_spec (num y) (num y)); [done|lra..]].
  intros H0. assert (Heq : (num n == num y)%Q) by (destruct (Qcompare_spec (num n) (num y)); [done|discriminate..]). by apply (number_unique s).
Qed.

(** ** Concrete numbers *)

Definition one330 : XRPLNumber := mkNumber false 1000000000000000000 (-18) big.
Definition third330 : XRPLNumber := mkNumber true 3333333333333333333 (-19) big.
Definition third : XRPLNumber := mkNumber false 3333333333333333 (-16) MantissaScaleSmall.

Lemma one330_wellFormed : wellFormed big one330.
Proof. split; [done|]. right. split; [cbn; lia|]. split; [done|]. intros _. left. cbn. unfold xrplNumMaxRep. lia. Defined.

Lemma third330_wellFormed : wellFormed big third330.
Proof. split; [done|]. right. split; [cbn; lia|]. split; [done|]. intros _. left. cbn. unfold xrplNumMaxRep. lia. Defined.

Lemma third_wellFormed : wellFormed MantissaScaleSmall third.
Proof. split; [done|]. right. split; [cbn; lia|]. split; [done|]. done. Defined.

Lemma add_correctly_rounded_witness :
  computes big RoundUpward (num one330 + num third330) (inr (mkNumber false 6666666666666666667 (-19) big)) /\
  computes big RoundToNearest (num one330 - num third330) (inr (mkNumber false 1333333333333333333 (-18) big)).
Proof. exact (add_correctly_rounded one330 third330 RoundUpward one330_wellFormed third330_wellFormed). Defined.

Lemma mul_correctly_rounded_witness :
  computes MantissaScaleSmall RoundUpward (num third * num third) (inr (mkNumber false 1111111111111111 (-16) MantissaScaleSmall)).
Proof. exact (mul_correctly_rounded MantissaScaleSmall third third RoundUpward (or_introl eq_refl) third_wellFormed third_wellFormed). Defined.

Lemma div_correctly_rounded_witness :
  computes big RoundDownward (num one330 / num third330) (inr (mkNumber true 3000000000000000001 (-18) big)).
Proof. exact (div_correctly_rounded one330 third330 RoundDownward one330_wellFormed third330_wellFormed). Defined.

Lemma to_int64_rounded_witness : converts RoundDownward (num third330) (inr (-1)).
Proof. exact (to_int64_rounded big third330 RoundDownward (or_intror eq_refl) third330_wellFormed). Defined.

Lemma compare_exact_witness : 1 = signOf (num one330 ?= num third330)%Q.
Proof. exact (proj1 (compare_exact big one330 third330 one330_wellFormed third330_wellFormed)). Defined.


End XrplArith.
