(* ===== verification/Amount.v ===== *)
(** * Asset amounts

    XRP in drops, issued currencies with a sixteen digit mantissa, and multi-purpose
    tokens in whole units: [internal/ledger/state], the files [amount.go],
    [amount_arithmetic.go] and [amount_sqrt.go], the number context of
    [xrpl_number.go] and the rate of [directory.go]. A panic is an error value. *)

From Stdlib Require Import ZArith Lia String Ascii.
From stdpp Require Import base list strings option.
From S2P Require Import Prelude XrplNumber.
Import XrplNumber.

Open Scope Z_scope.

Module Amount.

(** ** Constants and errors *)

Definition MinExponent : Z := -96.
Definition MaxExponent : Z := 80.
Definition MinMantissa : Z := 1000000000000000.
Definition MaxMantissa : Z := 9999999999999999.
Definition cMaxValue : Z := 10000000000000000.
Definition tenTo14 : Z := 100000000000000.
Definition tenTo17 : Z := 100000000000000000.
Definition maxNativeDrops : Z := 100000000000000000.
Definition zeroExponent : Z := -100.

Inductive amountError :=
  | NumberPanic (e : numError) | IOUOverflow | ToIOUOverflow | MixedAssets | DifferentIssuances | DifferentCurrencies | MPTOverflow
  | NativeRange | NativeValueOverflow | MuldivOverflow | DivisionByZero | NegativeRoot | Endless.

Definition lift {A : Type} (r : numError + A) : amountError + A := match r with inl e => inl (NumberPanic e) | inr x => inr x end.

(** 64-bit two's complement. *)
Definition i64 (z : Z) : Z := (z + 2 ^ 63) mod 2 ^ 64 - 2 ^ 63.
Definition isInt64 (z : Z) : bool := (- 2 ^ 63 <=? z) && (z <? 2 ^ 63).

(** ** The arithmetic that the ledger rules select *)

Record NumberContext := mkContext { ctxScale : MantissaScale; universalNumber : bool; mptokensV2 : bool }.

Definition NewNumberContext (s : MantissaScale) (universal : bool) : NumberContext := mkContext s universal false.

Definition legacyContext : NumberContext := NewNumberContext MantissaScaleSmall false.

Definition ctxNumber (c : NumberContext) (m e : Z) (mode : RoundingMode) : numError + XRPLNumber := newNumber m e (ctxScale c) mode.

(** ** Issued values *)

Record IOUAmountValue := mkIOU { iouMantissa : Z; iouExponent : Z }.

Definition ZeroIOUValue : IOUAmountValue := mkIOU 0 zeroExponent.

Definition iouIsZero (v : IOUAmountValue) : bool := iouMantissa v =? 0.

Definition iouSignum (v : IOUAmountValue) : Z := if iouMantissa v <? 0 then -1 else if 0 <? iouMantissa v then 1 else 0.

Definition iouNegate (v : IOUAmountValue) : IOUAmountValue := mkIOU (i64 (- iouMantissa v)) (iouExponent v).

Definition ToIOUAmountValueRounded (n : XRPLNumber) (mode : RoundingMode) : amountError + IOUAmountValue :=
  if IsZero n then inr ZeroIOUValue
  else
    let? n := if bool_decide (scale n = MantissaScaleSmall) then inr n else lift (newNumber (Mantissa n) (Exponent n) MantissaScaleSmall mode) in
    let e := Exponent n in
    if MaxExponent <? e then inl ToIOUOverflow
    else if e <? MinExponent then inr ZeroIOUValue
    else inr (mkIOU (Mantissa n) e).

Definition ToIOUAmountValue (n : XRPLNumber) : amountError + IOUAmountValue := ToIOUAmountValueRounded n RoundToNearest.

Fixpoint growIOU (fuel : nat) (m e : Z) : Z * Z :=
  match fuel with
  | O => (m, e)
  | S fuel => if (m <? MinMantissa) && (MinExponent <? e) then growIOU fuel (i64 (m * 10)) (e - 1) else (m, e)
  end.

Fixpoint shrinkIOU (fuel : nat) (m e : Z) : amountError + (Z * Z) :=
  match fuel with
  | O => inr (m, e)
  | S fuel => if MaxMantissa <? m then if MaxExponent <=? e then inl IOUOverflow else shrinkIOU fuel (Z.quot m 10) (e + 1) else inr (m, e)
  end.

(** Four digits too many at most. *)
Definition shrinkFuel : nat := 20.

(** The normalization before the universal number: digits are cut off. *)
Definition normalizeLegacy (m e : Z) : amountError + IOUAmountValue :=
  let negative := m <? 0 in
  let m := if negative then i64 (- m) else m in
  let '(m, e) := growIOU (Z.to_nat (e - MinExponent)) m e in
  let? r := shrinkIOU shrinkFuel m e in
  let '(m, e) := r in
  if (e <? MinExponent) || (m <? MinMantissa) then inr ZeroIOUValue
  else if MaxExponent <? e then inl IOUOverflow
  else inr (mkIOU (if negative then i64 (- m) else m) e).

Definition newIOUAmountValueRoundedWithContext (m e : Z) (mode : RoundingMode) (c : NumberContext) : amountError + IOUAmountValue :=
  if m =? 0 then inr ZeroIOUValue
  else if universalNumber c then
    let? n := lift (ctxNumber c m e mode) in
    ToIOUAmountValueRounded n mode
  else normalizeLegacy m e.

Definition NewIOUAmountValue (m e : Z) : amountError + IOUAmountValue := newIOUAmountValueRoundedWithContext m e RoundToNearest legacyContext.

Definition cutDigits (n : nat) (m : Z) : Z := Nat.iter n (fun z => Z.quot z 10) m.

Definition addIOUValuesRoundedWithContext (a b : IOUAmountValue) (mode : RoundingMode) (c : NumberContext) : amountError + IOUAmountValue :=
  if iouIsZero a then inr b
  else if iouIsZero b then inr a
  else if universalNumber c then
    let? na := lift (ctxNumber c (iouMantissa a) (iouExponent a) mode) in
    let? nb := lift (ctxNumber c (iouMantissa b) (iouExponent b) mode) in
    let? r := lift (AddRounded na nb mode) in
    if negb (bool_decide (ctxScale c = MantissaScaleSmall)) then ToIOUAmountValueRounded r mode else ToIOUAmountValue r
  else
    let aMant := cutDigits (Z.to_nat (iouExponent b - iouExponent a)) (iouMantissa a) in
    let bMant := cutDigits (Z.to_nat (iouExponent a - iouExponent b)) (iouMantissa b) in
    let result := i64 (aMant + bMant) in
    if (-10 <=? result) && (result <=? 10) then inr ZeroIOUValue
    else NewIOUAmountValue result (Z.max (iouExponent a) (iouExponent b)).

Definition compareIOUValues (a b : IOUAmountValue) : Z :=
  let aSign := iouSignum a in
  let bSign := iouSignum b in
  if aSign <? bSign then -1
  else if bSign <? aSign then 1
  else if (aSign =? 0) && (bSign =? 0) then 0
  else if iouExponent b <? iouExponent a then if 0 <? aSign then 1 else -1
  else if iouExponent a <? iouExponent b then if 0 <? aSign then -1 else 1
  else if iouMantissa a <? iouMantissa b then -1
  else if iouMantissa b <? iouMantissa a then 1
  else 0.
(** ** Amounts *)

Record Amount := mkAmount {
  xrp : Z;
  iou : IOUAmountValue;
  Currency : string;
  Issuer : string;
  Native : bool;
  mptRaw : option Z;
  mptIssuanceID : string }.

(** What Go leaves in a field that is not set. *)
Definition noIOU : IOUAmountValue := mkIOU 0 0.

Definition NewXRPAmountFromInt (drops : Z) : Amount := mkAmount drops noIOU EmptyString EmptyString true None EmptyString.

Definition issued (v : IOUAmountValue) (currency issuer : string) : Amount := mkAmount 0 v currency issuer false None EmptyString.

Definition IssuedAmount (c : NumberContext) (m e : Z) (currency issuer : string) (mode : RoundingMode) : amountError + Amount :=
  let? v := newIOUAmountValueRoundedWithContext m e mode c in
  inr (issued v currency issuer).

Definition NewIssuedAmountFromValue (m e : Z) (currency issuer : string) : amountError + Amount :=
  IssuedAmount legacyContext m e currency issuer RoundToNearest.

Definition NewMPTAmountDirect (value : Z) (currency issuer : string) : amountError + Amount :=
  let? v := NewIOUAmountValue value 0 in
  inr (mkAmount 0 v currency issuer false (Some value) EmptyString).

(** Upper case, of the letters in hexadecimal. *)
Definition upperAscii (c : ascii) : ascii :=
  let n := nat_of_ascii c in if (97 <=? n)%nat && (n <=? 122)%nat then ascii_of_nat (n - 32) else c.

Fixpoint ToUpper (s : string) : string := match s with EmptyString => EmptyString | String c s => String (upperAscii c) (ToUpper s) end.

Definition NewMPTAmountWithIssuanceID (value : Z) (issuer issuanceID : string) : amountError + Amount :=
  let? v := NewIOUAmountValue value 0 in
  inr (mkAmount 0 v EmptyString issuer false (Some value) (ToUpper issuanceID)).

Definition newMPTAmountLike (prototype : Amount) (value : Z) : amountError + Amount :=
  let? v := NewIOUAmountValue value 0 in
  inr (mkAmount 0 v (Currency prototype) (Issuer prototype) false (Some value) (mptIssuanceID prototype)).

Definition IsMPT (a : Amount) : bool := negb (bool_decide (mptIssuanceID a = EmptyString)).

Definition Drops (a : Amount) : Z := if negb (Native a) then 0 else xrp a.

Definition amountIsZero (a : Amount) : bool :=
  if Native a then xrp a =? 0 else match mptRaw a with Some v => v =? 0 | None => iouIsZero (iou a) end.

Definition amountIsNegative (a : Amount) : bool :=
  if Native a then xrp a <? 0 else match mptRaw a with Some v => v <? 0 | None => iouMantissa (iou a) <? 0 end.

Definition signum (z : Z) : Z := if z <? 0 then -1 else if 0 <? z then 1 else 0.

Definition amountSignum (a : Amount) : Z :=
  if Native a then signum (xrp a) else match mptRaw a with Some v => signum v | None => iouSignum (iou a) end.

Definition amountMantissa (a : Amount) : Z :=
  if Native a then Drops a else match mptRaw a with Some v => v | None => iouMantissa (iou a) end.

Definition amountExponent (a : Amount) : Z :=
  if Native a then 0 else match mptRaw a with Some _ => 0 | None => iouExponent (iou a) end.

Definition amountNegate (a : Amount) : amountError + Amount :=
  if Native a then inr (NewXRPAmountFromInt (i64 (- xrp a)))
  else
    match mptRaw a with
    | Some v => if v =? - 2 ^ 63 then inl MPTOverflow else newMPTAmountLike a (- v)
    | None => inr (issued (iouNegate (iou a)) (Currency a) (Issuer a))
    end.

(** ** Addition and subtraction *)

Definition someMPT (a : Amount) : bool := match mptRaw a with Some _ => true | None => false end.

(** Both amounts in whole units of one issuance, or neither. *)
Definition wholeUnits (op : Z -> Z -> Z) (a b : Amount) : option (amountError + Amount) :=
  match mptRaw a, mptRaw b with
  | None, None => None
  | Some x, Some y =>
      Some (if negb (bool_decide (mptIssuanceID a = mptIssuanceID b)) then inl DifferentIssuances
            else if negb (isInt64 (op x y)) then inl MPTOverflow
            else newMPTAmountLike a (op x y))
  | _, _ => Some (inl MixedAssets)
  end.

Definition addRounded (a b : Amount) (mode : RoundingMode) (c : NumberContext) : amountError + Amount :=
  match wholeUnits Z.add a b with
  | Some r => r
  | None =>
      if negb (eqb (Native a) (Native b)) then inl MixedAssets
      else if negb (Native a) && negb (bool_decide (Currency a = EmptyString)) && negb (bool_decide (Currency b = EmptyString)) &&
              negb (bool_decide (Currency a = Currency b)) then inl DifferentCurrencies
      else if Native a then inr (NewXRPAmountFromInt (i64 (xrp a + xrp b)))
      else
        let? r := addIOUValuesRoundedWithContext (iou a) (iou b) mode c in
        inr (issued r (Currency a) (Issuer a))
  end.

Definition subRounded (a b : Amount) (mode : RoundingMode) (c : NumberContext) : amountError + Amount :=
  match wholeUnits Z.sub a b with
  | Some r => r
  | None => let? nb := amountNegate b in addRounded a nb mode c
  end.

(** ** Comparison *)

Definition amountsComparable (a b : Amount) : bool :=
  if Native a || Native b then Native a && Native b
  else
    match mptRaw a, mptRaw b with
    | None, None => bool_decide (Currency a = Currency b)
    | Some _, Some _ => bool_decide (mptIssuanceID a = mptIssuanceID b)
    | _, _ => false
    end.

Definition compareZ (x y : Z) : Z := if x <? y then -1 else if y <? x then 1 else 0.

Definition CompareChecked (a b : Amount) : amountError + Z :=
  if negb (amountsComparable a b) then inl MixedAssets
  else if Native a && Native b then inr (compareZ (xrp a) (xrp b))
  else
    match mptRaw a, mptRaw b with
    | Some x, Some y => inr (compareZ x y)
    | _, _ => inr (compareIOUValues (iou a) (iou b))
    end.

(** ** Multiplication by a ratio *)

(** Whole units: towards the side that is asked for. *)
Definition ratioWhole (units num den : Z) (roundUp : bool) : Z :=
  let product := units * num in
  let quotient := Z.quot product den in
  if negb (Z.rem product den =? 0) then
    if (0 <=? product) && roundUp then quotient + 1
    else if (product <? 0) && negb roundUp then quotient - 1
    else quotient
  else quotient.

Definition mulRatioFL64 : Z := 18.

(** The least power of ten that is not below [v]. *)
Fixpoint log10From (fuel : nat) (p idx v : Z) : Z :=
  match fuel with
  | O => idx
  | S fuel => if p <? v then log10From fuel (p * 10) (idx + 1) v else idx
  end.

Definition log10Ceil (v : Z) : Z := if v <=? 0 then -1 else log10From (Z.to_nat (Z.log2 v + 1)) 1 0 v.

Definition ratioDigits (mantissa exponent num den : Z) : Z * Z * bool :=
  let mul := mantissa * num in
  let low := mul / den in
  let rem := mul - low * den in
  let '(low, rem, exponent) :=
    if negb (rem =? 0) then
      let roomToGrow := mulRatioFL64 - log10Ceil low in
      let '(exponent, low, rem) := if 0 <? roomToGrow then (exponent - roomToGrow, low * 10 ^ roomToGrow, rem * 10 ^ roomToGrow) else (exponent, low, rem) in
      let addRem := rem / den in
      (low + addRem, rem - addRem * den, exponent)
    else (low, rem, exponent) in
  let hasRem := negb (rem =? 0) in
  let mustShrink := log10Ceil low - mulRatioFL64 in
  if 0 <? mustShrink then
    let low' := low / 10 ^ mustShrink in
    (low', exponent + mustShrink, hasRem || negb (low - low' * 10 ^ mustShrink =? 0))
  else (low, exponent, hasRem).

Definition MulRatioWithNumberContext (a : Amount) (num den : Z) (roundUp : bool) (c : NumberContext) : amountError + Amount :=
  if den =? 0 then inl DivisionByZero
  else
    match mptRaw a with
    | Some units =>
        let q := ratioWhole units num den roundUp in
        if negb (isInt64 q) then inl MPTOverflow else newMPTAmountLike a q
    | None =>
        if Native a then
          let q := ratioWhole (Drops a) num den roundUp in
          if negb (isInt64 q) then inl NativeRange else inr (NewXRPAmountFromInt q)
        else if amountIsZero a then inr a
        else
          let negative := iouMantissa (iou a) <? 0 in
          let mantissa := if negative then i64 (- iouMantissa (iou a)) else iouMantissa (iou a) in
          let '(low, exponent, hasRem) := ratioDigits mantissa (iouExponent (iou a)) num den in
          let resultMant := if negative then i64 (- i64 low) else i64 low in
          let make m e := IssuedAmount c m e (Currency a) (Issuer a) RoundToNearest in
          let? result := make resultMant exponent in
          let v := iou result in
          if hasRem && roundUp && negb negative then
            if amountIsZero result then make MinMantissa MinExponent else make (i64 (iouMantissa v + 1)) (iouExponent v)
          else if hasRem && negb roundUp && negative then
            if amountIsZero result then make (- MinMantissa) MinExponent else make (i64 (iouMantissa v - 1)) (iouExponent v)
          else inr result
    end.

Definition MulRatio (a : Amount) (num den : Z) (roundUp : bool) : amountError + Amount := MulRatioWithNumberContext a num den roundUp legacyContext.


End Amount.
