(* ===== verification/AmountRound.v ===== *)
(** * Products and quotients of amounts

    The directed rounding of [amount_round.go], and the multiplication, division,
    square root and exchange rate of [amount_arithmetic.go], [amount_sqrt.go] and
    [directory.go]. *)

From Stdlib Require Import ZArith Lia String.
From stdpp Require Import base list strings option.
From S2P Require Import Prelude XrplNumber Amount.
Import XrplNumber Amount.

Open Scope Z_scope.

Module AmountRound.

(** ** Operands *)

(** Whole units with as many digits as an issued mantissa. The loop does not end on
    what is not positive. *)
Fixpoint liftMantissa (fuel : nat) (m e : Z) : amountError + (Z * Z) :=
  if m <? MinMantissa then
    match fuel with
    | O => inl Endless
    | S fuel => liftMantissa fuel (i64 (m * 10)) (e - 1)
    end
  else inr (m, e).

(** Fifteen digits reach the range from one. *)
Definition liftFuel : nat := 16.

Definition absInt64 (m : Z) : Z := if m <? 0 then i64 (- m) else m.

Definition PrepareMulDivOperand (a : Amount) : amountError + (Z * Z) :=
  if Native a || IsMPT a then
    let? r := liftMantissa liftFuel (absInt64 (amountMantissa a)) (amountExponent a) in
    let '(m, e) := r in
    inr (absInt64 m, e)
  else inr (absInt64 (amountMantissa a), amountExponent a).

Definition muldivRound (x y divisor : Z) (addSlop : bool) : amountError + Z :=
  let n := x * y in
  let n := if addSlop then n + (divisor - 1) else n in
  let n := n / divisor in
  if (n <? 0) || negb (n <? 2 ^ 64) then inl MuldivOverflow else inr n.

Definition MulMantissas (value1 value2 : Z) (addSlop : bool) : amountError + Z := muldivRound value1 value2 tenTo14 addSlop.

Definition DivMantissas (numVal denVal : Z) (addSlop : bool) : amountError + Z := muldivRound numVal tenTo17 denVal addSlop.

(** ** Into whole units *)

Definition guardNativeOffset (exponent : Z) : amountError + unit := if 17 <? exponent then inl NativeRange else inr tt.
Definition guardNativeDrops (value : Z) : amountError + unit := if maxNativeDrops <? value then inl NativeRange else inr tt.

(** Divisions by ten, how many, and whether one had a remainder. *)
Fixpoint integralLoop (n : nat) (amount : Z) (hadRemainder : bool) : Z * bool :=
  match n with
  | O => (amount, hadRemainder)
  | S n => integralLoop n (amount / 10) (hadRemainder || negb (amount =? amount / 10 * 10))
  end.

Definition canonicalizeIntegralRound (amount offset : Z) (roundUp strict : bool) : Z * Z :=
  if 0 <=? offset then (amount, offset)
  else
    let loops := Z.to_nat (-1 - offset) in
    let '(amount, hadRemainder) := integralLoop loops amount false in
    let adder := if strict then if hadRemainder && roundUp then 10 else 9 else if (2 <=? loops)%nat then 9 else 10 in
    (u64 (amount + adder) / 10, 0).

Fixpoint growNative (n : nat) (amount : Z) : amountError + Z :=
  match n with
  | O => inr amount
  | S n => if maxNativeDrops <? amount then inl NativeRange else growNative n (u64 (amount * 10))
  end.

Fixpoint cutNative (n : nat) (amount : Z) : Z := match n with O => amount | S n => cutNative n (amount / 10) end.

Definition canonicalizeDropsNumber (amount offset : Z) (mode : RoundingMode) : amountError + Z :=
  if (amount =? 0) || (offset <=? -20) then inr 0
  else
    let? _ := guardNativeOffset offset in
    let? drops := lift (ToInt64WithMode (mkNumber false amount offset MantissaScaleSmall) mode) in
    let? _ := guardNativeDrops drops in
    inr drops.

Definition canonicalizeDropsNoRound (amount offset : Z) (strict : bool) (c : NumberContext) : amountError + Z :=
  if negb strict && universalNumber c then canonicalizeDropsNumber amount offset RoundToNearest
  else if (amount =? 0) || (offset <=? -20) then inr 0
  else
    let? _ := guardNativeOffset offset in
    let? amount := growNative (Z.to_nat offset) amount in
    let amount := cutNative (Z.to_nat (- offset)) amount in
    if maxNativeDrops <? amount then inl NativeRange else inr amount.

Definition NativeRoundDropsWithNumberContext (amount offset : Z) (resultNegative roundUp addSlop strict : bool) (c : NumberContext) : amountError + Z :=
  let? drops :=
    if addSlop then
      let '(amount, offset) := canonicalizeIntegralRound amount offset roundUp strict in canonicalizeDropsNoRound amount offset true c
    else canonicalizeDropsNoRound amount offset strict c in
  let drops := if (drops =? 0) && roundUp && negb resultNegative then 1 else drops in
  inr (if resultNegative then - drops else drops).

(** Drops in Go start from the mantissa and exponent directly. *)
Fixpoint growDropsGuarded (n : nat) (value : Z) : amountError + Z :=
  match n with
  | O => inr value
  | S n => let? _ := guardNativeDrops value in growDropsGuarded n (i64 (value * 10))
  end.

Definition CanonicalizeDrops (mantissa exponent : Z) : amountError + Z :=
  if mantissa =? 0 then inr 0
  else
    let value := absInt64 mantissa in
    let? _ := guardNativeOffset exponent in
    let? value := growDropsGuarded (Z.to_nat exponent) value in
    let value :=
      if exponent <? 0 then
        let loops := Z.to_nat (-1 - exponent) in
        let adder := if (2 <=? loops)%nat then 9 else 10 in
        Z.quot (i64 (cutDigits loops value + adder)) 10
      else value in
    let? _ := guardNativeDrops value in
    inr (if mantissa <? 0 then i64 (- value) else value).

Fixpoint strictLoop (n : nat) (value : Z) (hadRemainder : bool) : Z * bool :=
  match n with
  | O => (value, hadRemainder)
  | S n => strictLoop n (Z.quot value 10) (hadRemainder || negb (value =? Z.quot value 10 * 10))
  end.

Definition CanonicalizeDropsStrict (mantissa exponent : Z) (roundUp : bool) : amountError + Z :=
  if mantissa =? 0 then inr 0
  else
    let value := absInt64 mantissa in
    let? _ := guardNativeOffset exponent in
    let? value := growDropsGuarded (Z.to_nat exponent) value in
    let value :=
      if exponent <? 0 then
        let '(value, hadRemainder) := strictLoop (Z.to_nat (-1 - exponent)) value false in
        let adder := if hadRemainder && roundUp then 10 else 9 in
        Z.quot (i64 (value + adder)) 10
      else value in
    let? _ := guardNativeDrops value in
    inr (if mantissa <? 0 then i64 (- value) else value).

(** The product of two drop values, guarded before the multiplication. *)
Definition mulNativeNative (a b : Z) : amountError + Z :=
  let '(a, b) := if b <? a then (b, a) else (a, b) in
  let minV := u64 a in
  let maxV := u64 b in
  if 3000000000 <? minV then inl NativeValueOverflow
  else if 2095475792 <? u64 (Z.shiftr maxV 32 * minV) then inl NativeValueOverflow
  else
    let product := i64 (u64 (minV * maxV)) in
    let? _ := guardNativeDrops product in
    inr product.
(** ** Rounded products and quotients *)

(** The common part: the operands, the sign, and whether to round away from zero. *)
Definition product (v1 v2 : Amount) (roundUp : bool) : amountError + (Z * Z * bool * bool) :=
  let? p1 := PrepareMulDivOperand v1 in
  let? p2 := PrepareMulDivOperand v2 in
  let '(value1, offset1) := p1 in
  let '(value2, offset2) := p2 in
  let resultNegative := negb (eqb (amountIsNegative v1) (amountIsNegative v2)) in
  let addSlop := negb (eqb resultNegative roundUp) in
  let? amount := MulMantissas value1 value2 addSlop in
  inr (amount, offset1 + offset2 + 14, resultNegative, addSlop).

Definition quotient (num den : Amount) (roundUp : bool) : amountError + (Z * Z * bool * bool) :=
  let? p1 := PrepareMulDivOperand num in
  let? p2 := PrepareMulDivOperand den in
  let '(numVal, numOffset) := p1 in
  let '(denVal, denOffset) := p2 in
  let resultNegative := negb (eqb (amountIsNegative num) (amountIsNegative den)) in
  let addSlop := negb (eqb resultNegative roundUp) in
  let? amount := DivMantissas numVal denVal addSlop in
  inr (amount, numOffset - denOffset - 17, resultNegative, addSlop).

Fixpoint overflowLoop (fuel : nat) (amount offset : Z) : Z * Z :=
  match fuel with
  | O => (amount, offset)
  | S fuel => if 10 * MaxMantissa <? amount then overflowLoop fuel (amount / 10) (offset + 1) else (amount, offset)
  end.

(** A mantissa of 64 bits has twenty digits. *)
Definition overflowFuel : nat := 20.

Definition CanonicalizeRoundIOUOverflow (amount offset : Z) : Z * Z :=
  if MaxMantissa <? amount then
    let '(amount, offset) := overflowLoop overflowFuel amount offset in
    (u64 (amount + 9) / 10, offset + 1)
  else (amount, offset).

Definition FinalizeRoundIOUWithNumberContext (amount offset : Z) (resultNegative roundUp : bool) (currency issuer : string)
    (mode : option RoundingMode) (c : NumberContext) : amountError + Amount :=
  let mantissa := if resultNegative then i64 (- i64 amount) else i64 amount in
  let? result := IssuedAmount c mantissa offset currency issuer (default RoundToNearest mode) in
  if roundUp && negb resultNegative && amountIsZero result then IssuedAmount c MinMantissa MinExponent currency issuer RoundToNearest
  else inr result.

Definition finishIOU (r : Z * Z * bool * bool) (roundUp : bool) (currency issuer : string) (mode : bool -> option RoundingMode) (c : NumberContext) :
    amountError + Amount :=
  let '(amount, offset, resultNegative, addSlop) := r in
  let '(amount, offset) := if addSlop then CanonicalizeRoundIOUOverflow amount offset else (amount, offset) in
  FinalizeRoundIOUWithNumberContext amount offset resultNegative roundUp currency issuer (mode resultNegative) c.

Definition MulRoundStrictWithNumberContext (v1 v2 : Amount) (currency issuer : string) (c : NumberContext) (roundUp : bool) : amountError + Amount :=
  if amountIsZero v1 || amountIsZero v2 then NewIssuedAmountFromValue 0 (-100) currency issuer
  else let? r := product v1 v2 roundUp in finishIOU r roundUp currency issuer (fun _ => Some RoundTowardsZero) c.

Definition MulRoundWithNumberContext (v1 v2 : Amount) (currency issuer : string) (c : NumberContext) (roundUp : bool) : amountError + Amount :=
  if amountIsZero v1 || amountIsZero v2 then NewIssuedAmountFromValue 0 (-100) currency issuer
  else let? r := product v1 v2 roundUp in finishIOU r roundUp currency issuer (fun _ => None) c.

Definition DivRoundWithNumberContext (num den : Amount) (currency issuer : string) (c : NumberContext) (roundUp : bool) : amountError + Amount :=
  if amountIsZero den then inl DivisionByZero
  else if amountIsZero num then NewIssuedAmountFromValue 0 (-100) currency issuer
  else let? r := quotient num den roundUp in finishIOU r roundUp currency issuer (fun _ => None) c.

Definition DivRoundStrictWithNumberContext (num den : Amount) (currency issuer : string) (c : NumberContext) (roundUp : bool) : amountError + Amount :=
  if amountIsZero den then inl DivisionByZero
  else if amountIsZero num then NewIssuedAmountFromValue 0 (-100) currency issuer
  else
    let? r := quotient num den roundUp in
    finishIOU r roundUp currency issuer (fun neg => Some (if negb (eqb roundUp neg) then RoundUpward else RoundDownward)) c.

Definition finishNative (r : Z * Z * bool * bool) (roundUp strict : bool) (c : NumberContext) : amountError + Z :=
  let '(amount, offset, resultNegative, addSlop) := r in
  NativeRoundDropsWithNumberContext amount offset resultNegative roundUp addSlop strict c.

Definition DivRoundNativeWithNumberContext (num den : Amount) (c : NumberContext) (roundUp : bool) : amountError + Z :=
  if amountIsZero den then inl DivisionByZero
  else if amountIsZero num then inr 0
  else let? r := quotient num den roundUp in finishNative r roundUp false c.

Definition MulRoundNativeWithNumberContext (v1 v2 : Amount) (c : NumberContext) (roundUp : bool) : amountError + Z :=
  if amountIsZero v1 || amountIsZero v2 then inr 0
  else if Native v1 && Native v2 then mulNativeNative (Drops v1) (Drops v2)
  else let? r := product v1 v2 roundUp in finishNative r roundUp false c.

Definition MulRoundNativeStrictWithNumberContext (v1 v2 : Amount) (c : NumberContext) (roundUp : bool) : amountError + Z :=
  if amountIsZero v1 || amountIsZero v2 then inr 0
  else if Native v1 && Native v2 then mulNativeNative (Drops v1) (Drops v2)
  else let? r := product v1 v2 roundUp in finishNative r roundUp true c.

Definition DivRoundNativeStrictWithNumberContext (num den : Amount) (c : NumberContext) (roundUp : bool) : amountError + Z :=
  if amountIsZero den then inl DivisionByZero
  else if amountIsZero num then inr 0
  else
    let? r := quotient num den roundUp in
    let '(amount, offset, resultNegative, addSlop) := r in
    let '(amount, offset) := if addSlop then canonicalizeIntegralRound amount offset roundUp false else (amount, offset) in
    let? drops :=
      if negb addSlop && resultNegative && universalNumber c then canonicalizeDropsNumber amount offset RoundUpward
      else canonicalizeDropsNoRound amount offset true c in
    let drops := if (drops =? 0) && roundUp && negb resultNegative then 1 else drops in
    inr (if resultNegative then - drops else drops).

(** ** Whole units of tokens *)

Definition maxInt64Value : Z := 9223372036854775807.

Definition mptLegacyRoundMode (strict strictCanonicalize roundUp : bool) : RoundingMode :=
  if negb strict then RoundToNearest else if strictCanonicalize then RoundTowardsZero else if roundUp then RoundUpward else RoundDownward.

Definition mptRoundMode (resultNegative roundUp : bool) : RoundingMode := if negb (eqb roundUp resultNegative) then RoundUpward else RoundDownward.

Definition materializeMPTRound (n : XRPLNumber) (mode : RoundingMode) : amountError + Z :=
  let? value := lift (ToInt64WithMode n mode) in
  if value =? - 2 ^ 63 then inl MPTOverflow else inr value.

Definition materializeMPTMagnitude (amount : Z) (resultNegative roundUp : bool) : amountError + Z :=
  if maxInt64Value <? amount then inl MPTOverflow
  else
    let amount := if (amount =? 0) && roundUp && negb resultNegative then 1 else amount in
    inr (if resultNegative then - amount else amount).

Fixpoint growMPT (n : nat) (amount : Z) : amountError + Z :=
  match n with
  | O => inr amount
  | S n => if maxInt64Value / 10 <? amount then inl MPTOverflow else growMPT n (amount * 10)
  end.

Definition canonicalizeMPTNoRound (amount offset : Z) : amountError + Z :=
  let? amount := growMPT (Z.to_nat offset) amount in
  inr (cutNative (Z.to_nat (- offset)) amount).

Definition finalizeMPTRound (amount offset : Z) (resultNegative roundUp addSlop strict strictCanonicalize : bool) (c : NumberContext) : amountError + Z :=
  let tiny := if roundUp && negb resultNegative then 1 else 0 in
  if amount =? 0 then inr tiny
  else
    let '(amount, offset) := if addSlop then canonicalizeIntegralRound amount offset roundUp strictCanonicalize else (amount, offset) in
    if offset <=? -20 then inr tiny
    else if 18 <? offset then inl MPTOverflow
    else if universalNumber c then
      let mode := mptLegacyRoundMode strict strictCanonicalize roundUp in
      let? value := lift (ToInt64WithMode (newXRPLNumberRawUnsigned amount offset) mode) in
      if value <? 0 then inl MPTOverflow else materializeMPTMagnitude value resultNegative roundUp
    else
      let? amount := canonicalizeMPTNoRound amount offset in
      materializeMPTMagnitude amount resultNegative roundUp.

Definition mulRoundMPTMPT (v1 v2 : Amount) : amountError + Z :=
  match mptRaw v1, mptRaw v2 with
  | Some value1, Some value2 =>
      if (value1 <? 0) || (value2 <? 0) then inl MPTOverflow
      else
        let '(minValue, maxValue) := if value2 <? value1 then (value2, value1) else (value1, value2) in
        if (3037000499 <? minValue) || (2147483648 <? u64 (Z.shiftr maxValue 32 * minValue)) then inl MPTOverflow
        else materializeMPTRound (newXRPLNumberRawUnsigned (u64 (minValue * maxValue)) 0) RoundToNearest
  | _, _ => inl MPTOverflow
  end.

Definition FromAmount (c : NumberContext) (a : Amount) (mode : RoundingMode) : numError + XRPLNumber :=
  if Native a then ctxNumber c (Drops a) 0 mode
  else
    match mptRaw a with
    | Some raw => ctxNumber c raw 0 mode
    | None => ctxNumber c (amountMantissa a) (amountExponent a) mode
    end.

Definition mulRoundMPT (v1 v2 : Amount) (c : NumberContext) (roundUp strict : bool) : amountError + Z :=
  if amountIsZero v1 || amountIsZero v2 then inr 0
  else if IsMPT v1 && IsMPT v2 then mulRoundMPTMPT v1 v2
  else if mptokensV2 c then
    let mode := mptRoundMode (negb (eqb (amountIsNegative v1) (amountIsNegative v2))) roundUp in
    let? n1 := lift (FromAmount c v1 mode) in
    let? n2 := lift (FromAmount c v2 mode) in
    let? r := lift (MulRounded n1 n2 mode) in
    materializeMPTRound r mode
  else
    let? r := product v1 v2 roundUp in
    let '(amount, offset, resultNegative, addSlop) := r in
    finalizeMPTRound amount offset resultNegative roundUp addSlop strict strict c.

Definition divRoundMPT (num den : Amount) (c : NumberContext) (roundUp strict : bool) : amountError + Z :=
  if amountIsZero den then inl DivisionByZero
  else if amountIsZero num then inr 0
  else if mptokensV2 c then
    let mode := mptRoundMode (negb (eqb (amountIsNegative num) (amountIsNegative den))) roundUp in
    let? n1 := lift (FromAmount c num mode) in
    let? n2 := lift (FromAmount c den mode) in
    let? r := lift (DivRounded n1 n2 mode) in
    materializeMPTRound r mode
  else
    let? r := quotient num den roundUp in
    let '(amount, offset, resultNegative, addSlop) := r in
    finalizeMPTRound amount offset resultNegative roundUp addSlop strict false c.

(** ** Multiplication and division *)

Definition nativeAmountFromMagnitude (magnitude exponent : Z) (negative : bool) : amountError + Amount :=
  let drops := if 0 <? exponent then magnitude * 10 ^ exponent else if exponent <? 0 then Z.quot magnitude (10 ^ (- exponent)) else magnitude in
  if drops =? 0 then inr (NewXRPAmountFromInt 0)
  else if negb (isInt64 drops) then inl NativeRange
  else
    let? _ := guardNativeDrops drops in
    inr (NewXRPAmountFromInt (if negative then - drops else drops)).

(** The zero of the asset that [a] is in. *)
Definition zeroLike (a : Amount) : amountError + Amount :=
  if Native a then inr (NewXRPAmountFromInt 0)
  else match mptRaw a with Some _ => newMPTAmountLike a 0 | None => NewIssuedAmountFromValue 0 (-100) (Currency a) (Issuer a) end.

(** Up to a power of ten the mantissa is cut, and rounded up at the last digit. *)
Fixpoint cutAbove (fuel : nat) (limit m e : Z) : Z * Z :=
  match fuel with
  | O => (m, e)
  | S fuel => if limit <? m then cutAbove fuel limit (m / 10) (e + 1) else (m, e)
  end.

Definition roundAway (m e : Z) : Z * Z :=
  if cMaxValue <? m then
    let '(m, e) := cutAbove (downFuel m) (10 * cMaxValue) m e in
    ((m + 9) / 10, e + 1)
  else (m, e).

Fixpoint raise (fuel : nat) (m e : Z) : Z * Z :=
  match fuel with
  | O => (m, e)
  | S fuel => if (m <? MinMantissa) && negb (m =? 0) then raise fuel (m * 10) (e - 1) else (m, e)
  end.

Definition inIOURange (m e : Z) : Z * Z :=
  let '(m, e) := cutAbove (downFuel m) (cMaxValue - 1) m e in
  raise liftFuel m e.

Definition liftedOperand (a : Amount) : amountError + (Z * Z) :=
  let m := absInt64 (amountMantissa a) in
  if Native a || IsMPT a then liftMantissa liftFuel m (amountExponent a) else inr (m, amountExponent a).

Definition mulRounded (a other : Amount) (roundUp : bool) (mode : RoundingMode) (c : NumberContext) : amountError + Amount :=
  if amountIsZero a || amountIsZero other then zeroLike a
  else
    match mptRaw a, mptRaw other with
    | Some x, Some y => if negb (isInt64 (x * y)) then inl MPTOverflow else newMPTAmountLike a (x * y)
    | _, _ =>
        if Native a && Native other then let? p := mulNativeNative (Drops a) (Drops other) in inr (NewXRPAmountFromInt p)
        else
          let negative := negb (eqb (amountMantissa a <? 0) (amountMantissa other <? 0)) in
          if universalNumber c && negb (Native a) then
            let? na := lift (ctxNumber c (absInt64 (amountMantissa a)) (amountExponent a) mode) in
            let? nb := lift (ctxNumber c (absInt64 (amountMantissa other)) (amountExponent other) mode) in
            let? r := lift (MulRounded na nb mode) in
            match mptRaw a with
            | Some _ => let? value := lift (ToInt64WithMode r mode) in newMPTAmountLike a (if negative then i64 (- value) else value)
            | None =>
                let? v := ToIOUAmountValue r in
                IssuedAmount c (if negative then i64 (- iouMantissa v) else iouMantissa v) (iouExponent v) (Currency a) (Issuer a) mode
            end
          else
            let? p1 := liftedOperand a in
            let? p2 := liftedOperand other in
            let '(m1, e1) := p1 in
            let '(m2, e2) := p2 in
            let away := negb (eqb negative roundUp) in
            let p := u64 m1 * u64 m2 in
            let p := if away then p + (tenTo14 - 1) else p in
            let r := p / tenTo14 in
            let r := if negb roundUp then r + 7 else r in
            let '(r, e) := if away then roundAway r (e1 + e2 + 14) else (r, e1 + e2 + 14) in
            let '(r, e) := inIOURange r e in
            if Native a then nativeAmountFromMagnitude r e negative
            else
              let? result := IssuedAmount c (if negative then - r else r) e (Currency a) (Issuer a) mode in
              match mptRaw a with
              | Some _ =>
                  let? n := lift (newNumber (iouMantissa (iou result)) (iouExponent (iou result)) MantissaScaleSmall mode) in
                  let? value := lift (ToInt64WithMode n mode) in
                  newMPTAmountLike a value
              | None => inr result
              end
    end.

(** One decimal digit of guard, and whether there was more. *)
Fixpoint cutGuarded (fuel : nat) (m e guardDigit : Z) (hasRemainder : bool) : Z * Z * Z * bool :=
  match fuel with
  | O => (m, e, guardDigit, hasRemainder)
  | S fuel =>
      if cMaxValue <=? m then cutGuarded fuel (m / 10) (e + 1) (m mod 10) (hasRemainder || negb (guardDigit =? 0))
      else (m, e, guardDigit, hasRemainder)
  end.

Definition nearestInRange (m e : Z) : Z * Z :=
  let '(m, e, guardDigit, hasRemainder) := cutGuarded (downFuel m) m e 0 false in
  if (5 <? guardDigit) || ((guardDigit =? 5) && (hasRemainder || (Z.rem m 2 =? 1))) then
    if cMaxValue <=? m + 1 then (Z.quot (m + 1) 10, e + 1) else (m + 1, e)
  else (m, e).

Definition divWithNumberContext (a other : Amount) (roundUp : bool) (c : NumberContext) : amountError + Amount :=
  if amountIsZero other then inl DivisionByZero
  else if amountIsZero a then zeroLike a
  else
    match mptRaw a with
    | Some _ => let? value := divRoundMPT a other c roundUp false in newMPTAmountLike a value
    | None =>
        if Native a && Native other then
          let q := i64 (Z.quot (Drops a) (Drops other)) in
          if roundUp && negb (Z.rem (Drops a) (Drops other) =? 0) then
            inr (NewXRPAmountFromInt (if negb (eqb (Drops a <? 0) (Drops other <? 0)) then i64 (q - 1) else i64 (q + 1)))
          else inr (NewXRPAmountFromInt q)
        else
          let negative := negb (eqb (amountMantissa a <? 0) (amountMantissa other <? 0)) in
          let? p1 := liftedOperand a in
          let? p2 := liftedOperand other in
          let '(m1, e1) := p1 in
          let '(m2, e2) := p2 in
          let away := negb (eqb negative roundUp) in
          let p := u64 m1 * tenTo17 in
          let p := if away then p + (u64 m2 - 1) else p in
          let r := p / u64 m2 in
          let r := if negb roundUp then r + 5 else r in
          let '(r, e) := if away then roundAway r (e1 - e2 - 17) else (r, e1 - e2 - 17) in
          let '(r, e) := if negb roundUp then nearestInRange r e else cutAbove (downFuel r) (cMaxValue - 1) r e in
          let '(r, e) := raise liftFuel r e in
          if Native a then nativeAmountFromMagnitude r e negative
          else NewIssuedAmountFromValue (if negative then - r else r) e (Currency a) (Issuer a)
    end.

(** ** Exchange rates *)

Definition divideIOUComponents (numMantissa numExp denMantissa denExp : Z) : amountError + (Z * Z) :=
  let q := numMantissa * tenTo17 / denMantissa in
  if negb (q <? 2 ^ 64) then inl MuldivOverflow else inr (u64 (q + 5), numExp - denExp - 17).

Definition divideIOUWithNumberContext (numMantissa numExp denMantissa denExp : Z) (negative : bool) (currency issuer : string) (c : NumberContext) :
    amountError + Amount :=
  let? r := divideIOUComponents numMantissa numExp denMantissa denExp in
  let '(mantissa, exponent) := r in
  let signedMantissa := if negative then i64 (- i64 mantissa) else i64 mantissa in
  IssuedAmount c signedMantissa exponent currency issuer RoundToNearest.

Fixpoint liftUnsigned (fuel : nat) (v offset : Z) : Z * Z :=
  match fuel with
  | O => (v, offset)
  | S fuel => if (v <? MinMantissa) && (0 <? v) then liftUnsigned fuel (u64 (v * 10)) (offset - 1) else (v, offset)
  end.

Definition rateMantissa (a : Amount) : Z * Z :=
  if Native a || IsMPT a then liftUnsigned liftFuel (Z.abs (amountMantissa a)) 0
  else (u64 (absInt64 (iouMantissa (iou a))), iouExponent (iou a)).

(** A panic on the way is a rate of zero, which no offer has. *)
Definition GetRateWithNumberContext (offerOut offerIn : Amount) (c : NumberContext) : Z :=
  if amountIsZero offerOut || amountIsZero offerIn then 0
  else
    let '(numVal, numOffset) := rateMantissa offerIn in
    let '(denVal, denOffset) := rateMantissa offerOut in
    if (numVal =? 0) || (denVal =? 0) then 0
    else
      match divideIOUWithNumberContext numVal numOffset denVal denOffset false EmptyString EmptyString c with
      | inl _ => 0
      | inr r =>
          if amountIsZero r then 0
          else let '(mantissa, exponent) := rateMantissa r in Z.lor (u64 (Z.shiftl (u64 (exponent + 100)) 56)) mantissa
      end.

Definition numberToIOUAmountValue (n : XRPLNumber) : amountError + IOUAmountValue :=
  let? r := lift (NormalizeToRange n MinMantissa MaxMantissa) in
  let '(mantissa, exponent) := r in
  if (mantissa =? 0) || (exponent <? MinExponent) then inr ZeroIOUValue
  else if MaxExponent <? exponent then inl ToIOUOverflow
  else inr (mkIOU mantissa exponent).

Definition DivideNoIssue (num den : Amount) : amountError + Amount :=
  if amountIsZero den then inl DivisionByZero
  else if amountIsZero num then inr (issued ZeroIOUValue EmptyString EmptyString)
  else
    let '(numMantissa, numExponent) := rateMantissa num in
    let '(denMantissa, denExponent) := rateMantissa den in
    let? r := divideIOUComponents numMantissa numExponent denMantissa denExponent in
    let '(mantissa, exponent) := r in
    let? n := lift (normalize (mkNumber (negb (eqb (amountIsNegative num) (amountIsNegative den))) mantissa exponent MantissaScaleLarge330) RoundToNearest) in
    let? v := numberToIOUAmountValue n in
    inr (issued v EmptyString EmptyString).

(** ** Integer square root *)

Fixpoint sqrtLoop (fuel : nat) (n x y : Z) : option Z :=
  if negb (y <? x) then Some x
  else
    match fuel with
    | O => None
    | S fuel => sqrtLoop fuel n y (u64 (y + n / y) / 2)
    end.

(** Every round at least halves what is left above the root, or is the last. *)
Definition intSqrt (fuel : nat) (n : Z) : option Z := if n =? 0 then Some 0 else sqrtLoop fuel n n (u64 (n + 1) / 2).

(** ** Between numbers and assets *)

(** [number_asset.go], [lending_number.go]: sixteen digits, or whole units. *)
Definition smallUniversal : NumberContext := NewNumberContext MantissaScaleSmall true.

Definition RoundToAsset (n : XRPLNumber) (integral : bool) : amountError + XRPLNumber :=
  if IsZero n then inr n
  else if integral then
    let? v := lift (ToInt64WithMode n RoundToNearest) in lift (newNumber v 0 (scale n) RoundToNearest)
  else
    let? v := newIOUAmountValueRoundedWithContext (Mantissa n) (Exponent n) RoundToNearest smallUniversal in
    if iouIsZero v then inr (zero n) else lift (newNumber (iouMantissa v) (iouExponent v) (scale n) RoundToNearest).

Definition AssociateAssetField (value : XRPLNumber) (integral soeDefault : bool) : amountError + (XRPLNumber * bool) :=
  let? r := RoundToAsset value integral in inr (r, soeDefault && IsZero r).

(** A coarser exponent, by adding a reference value and taking it away again. *)
Definition roundIOUToScale (v : IOUAmountValue) (decimals : Z) (mode : RoundingMode) : amountError + IOUAmountValue :=
  if iouIsZero v || (decimals <=? iouExponent v) then inr v
  else
    let refMant := if iouMantissa v <? 0 then - MinMantissa else MinMantissa in
    let? sum := addIOUValuesRoundedWithContext v (mkIOU refMant decimals) mode smallUniversal in
    addIOUValuesRoundedWithContext sum (mkIOU (- refMant) decimals) mode smallUniversal.

Definition RoundToAssetScale (n : XRPLNumber) (integral : bool) (decimals : Z) (mode : RoundingMode) : amountError + XRPLNumber :=
  if IsZero n then inr n
  else if integral then
    let? v := lift (ToInt64WithMode n mode) in lift (newNumber v 0 (scale n) RoundToNearest)
  else
    let? v := newIOUAmountValueRoundedWithContext (Mantissa n) (Exponent n) mode smallUniversal in
    let? v := roundIOUToScale v decimals mode in
    if iouIsZero v then inr (zero n) else lift (newNumber (iouMantissa v) (iouExponent v) (scale n) RoundToNearest).

Definition AssetExponent (n : XRPLNumber) (integral : bool) (mode : RoundingMode) : amountError + Z :=
  if integral then inr 0
  else let? v := newIOUAmountValueRoundedWithContext (Mantissa n) (Exponent n) mode smallUniversal in inr (iouExponent v).

(** Back to the asset of a prototype. *)
Definition ToAmount (n : XRPLNumber) (prototype : Amount) (mode : RoundingMode) : amountError + Amount :=
  if Native prototype then
    let? drops := lift (ToInt64WithMode n mode) in
    if (maxNativeDrops <? drops) || (drops <? - maxNativeDrops) then inl NativeRange else inr (NewXRPAmountFromInt drops)
  else
    match mptRaw prototype with
    | Some _ =>
        let? value := lift (ToInt64WithMode n mode) in
        if IsMPT prototype then NewMPTAmountWithIssuanceID value (Issuer prototype) (mptIssuanceID prototype)
        else NewMPTAmountDirect value (Currency prototype) (Issuer prototype)
    | None => let? v := ToIOUAmountValueRounded n mode in inr (issued v (Currency prototype) (Issuer prototype))
    end.

Definition ToAmountWithNativeRounding (n : XRPLNumber) (prototype : Amount) (nativeMode ambientMode : RoundingMode) : amountError + Amount :=
  if Native prototype || someMPT prototype then ToAmount n prototype nativeMode else ToAmount n prototype ambientMode.


End AmountRound.
