(* ===== verification/AmountSpec.v ===== *)
(** * What amounts stand for

    Amounts against the rationals: comparison, normalization of issued values,
    ratios, rounded products in drops and exchange rates. *)

From Stdlib Require Import ZArith Lia QArith Qabs Qround Lqa String.
From stdpp Require Import base list strings option.
From S2P Require Import Prelude XrplNumber XrplRound XrplArith Amount AmountRound.
Import XrplNumber XrplRound XrplArith Amount AmountRound.

Open Scope Z_scope.

Module AmountSpec.

#[local] Opaque tens.

(** ** Values *)

(** Issued values in normal form. *)
Definition normalIOU (v : IOUAmountValue) : Prop :=
  v = ZeroIOUValue \/ (MinMantissa <= Z.abs (iouMantissa v) <= MaxMantissa /\ MinExponent <= iouExponent v <= MaxExponent).

Definition iouValue (v : IOUAmountValue) : Q := valueOf (iouMantissa v) (iouExponent v).

(** The decimal number of an issued value. *)
Definition iouNumber (v : IOUAmountValue) : XRPLNumber :=
  if iouIsZero v then zeroIn MantissaScaleSmall else mkNumber (iouMantissa v <? 0) (Z.abs (iouMantissa v)) (iouExponent v) MantissaScaleSmall.

Definition amountValue (a : Amount) : Q :=
  if Native a then inject_Z (xrp a) else match mptRaw a with Some v => inject_Z v | None => iouValue (iou a) end.

Definition normalAmount (a : Amount) : Prop := Native a = false -> mptRaw a = None -> normalIOU (iou a).

Lemma value_zero e : (valueOf 0 e == 0)%Q.
Proof. unfold valueOf. change (inject_Z 0) with 0%Q. apply Qmult_0_l. Qed.

Lemma iouNumber_wellFormed v : normalIOU v -> wellFormed MantissaScaleSmall (iouNumber v).
Proof.
  intros [->|(Hm & He)]; [split; [done|by left]|]. unfold iouNumber, iouIsZero. rewrite (proj2 (Z.eqb_neq _ _)) by (unfold MinMantissa in *; lia). split; [done|]. right.
  unfold MinMantissa, MaxMantissa, MinExponent, MaxExponent in *. split; [cbn; lia|]. split; [|done]. cbn [exponent]. unfold xrplNumMinExponent, xrplNumMaxExponent. lia.
Qed.

Lemma iouNumber_value v : (num (iouNumber v) == iouValue v)%Q.
Proof.
  unfold iouNumber, iouIsZero. destruct (Z.eqb_spec (iouMantissa v) 0) as [H0|H0]; [rewrite num_zero; unfold iouValue; rewrite H0, value_zero; reflexivity|].
  unfold num, iouValue. cbn [negative mantissa exponent]. unfold signed. destruct (Z.ltb_spec (iouMantissa v) 0); [|by rewrite Z.abs_eq]. by rewrite Z.abs_neq, Z.opp_involutive by lia.
Qed.

(** ** Comparison *)

Lemma compareIOUValues_Cmp a b : normalIOU a -> normalIOU b -> compareIOUValues a b = Cmp (iouNumber a) (iouNumber b).
Proof.
  intros Ha Hb. assert (Hz : forall v, normalIOU v -> iouMantissa v = 0 -> v = ZeroIOUValue) by (intros v [->|[Hv _]]; [done|unfold MinMantissa in Hv; lia]).
  unfold compareIOUValues, iouSignum, iouNumber, iouIsZero, Cmp. set (m := iouMantissa a) in *. set (m' := iouMantissa b) in *. set (e := iouExponent a) in *. set (e' := iouExponent b) in *.
  destruct (Z.eqb_spec m 0) as [H0|H0], (Z.eqb_spec m' 0) as [H0'|H0']; cbn [negative mantissa exponent zeroIn].
  - rewrite H0, H0'. done.
  - rewrite H0. cbn. destruct (Z.ltb_spec m' 0), (Z.ltb_spec 0 m'); try lia; cbn; [done|]. rewrite (proj2 (Z.eqb_neq (Z.abs m') 0)) by lia. done.
  - rewrite H0'. cbn. destruct (Z.ltb_spec m 0), (Z.ltb_spec 0 m); try lia; cbn; [done|]. rewrite (proj2 (Z.eqb_neq (Z.abs m) 0)) by lia. done.
  - rewrite (proj2 (Z.eqb_neq (Z.abs m) 0)), (proj2 (Z.eqb_neq (Z.abs m') 0)) by lia.
    destruct (Z.ltb_spec m 0), (Z.ltb_spec 0 m), (Z.ltb_spec m' 0), (Z.ltb_spec 0 m'); try lia; cbn; try done; rewrite ?Z.abs_eq, ?Z.abs_neq by lia;
      destruct (Z.ltb_spec e' e), (Z.ltb_spec e e'); try lia; try done.
    destruct (Z.ltb_spec m m'), (Z.ltb_spec (- m) (- m')), (Z.ltb_spec m' m), (Z.ltb_spec (- m') (- m)); lia || done.
Qed.

Lemma signOf_resp a a' b b' : (a == a')%Q -> (b == b')%Q -> signOf (a ?= b)%Q = signOf (a' ?= b')%Q.
Proof. intros Ha Hb. by rewrite Ha, Hb. Qed.

Lemma compareIOU_order a b : normalIOU a -> normalIOU b -> compareIOUValues a b = signOf (iouValue a ?= iouValue b)%Q.
Proof.
  intros Ha Hb. rewrite compareIOUValues_Cmp, (Cmp_order MantissaScaleSmall) by (done || by apply iouNumber_wellFormed). apply signOf_resp; apply iouNumber_value.
Qed.

Lemma compareZ_order x y : compareZ x y = signOf (inject_Z x ?= inject_Z y)%Q.
Proof.
  unfold compareZ. destruct (Z.ltb_spec x y) as [H|H]; [symmetry; apply signOf_lt; by rewrite <- Zlt_Qlt|].
  destruct (Z.ltb_spec y x) as [H'|H']; [symmetry; apply signOf_gt; by rewrite <- Zlt_Qlt|]. assert (x = y) as -> by lia. rewrite (proj1 (Qeq_alt _ _)); [done|reflexivity].
Qed.

(** Amounts of one asset compare as the rationals they stand for, whatever the
    asset: drops, whole units of a token, or an issued value in normal form; amounts
    of different assets are refused. *)
Theorem amount_compare_exact a b :
  normalAmount a -> normalAmount b ->
  CompareChecked a b = if amountsComparable a b then inr (signOf (amountValue a ?= amountValue b)%Q) else inl MixedAssets.
Proof.
  intros Ha Hb. unfold CompareChecked, amountsComparable, amountValue, normalAmount in *.
  destruct (Native a), (Native b); cbn [orb andb negb]; [by rewrite compareZ_order|done|done|].
  destruct (mptRaw a), (mptRaw b); cbn [negb]; try done.
  - destruct (bool_decide _); cbn [negb]; [by rewrite compareZ_order|done].
  - destruct (bool_decide _); cbn [negb]; [by rewrite compareIOU_order by auto|done].
Qed.
(** ** Ratios of whole units *)

Lemma ratioWhole_floor units num den : 0 < den -> ratioWhole units num den false = units * num / den.
Proof.
  intros Hd. unfold ratioWhole. set (p := units * num). rewrite andb_false_r. cbn [negb]. rewrite andb_true_r.
  pose proof (Z.quot_rem p den ltac:(lia)) as Hq. destruct (Z.eqb_spec (Z.rem p den) 0) as [H0|H0]; cbn [negb].
  - rewrite H0, Z.add_0_r in Hq. rewrite Hq at 2. rewrite Z.mul_comm, Z.div_mul by lia. done.
  - destruct (Z.ltb_spec p 0) as [Hn|Hp].
    + apply Z.div_unique_pos with (r := Z.rem p den + den); [|lia]. pose proof (Z.rem_bound_pos_neg p den ltac:(lia) ltac:(lia)). lia.
    + apply Z.quot_div_nonneg; lia.
Qed.

(** Rounding up is rounding the negated amount down. *)
Lemma ratioWhole_mirror units num den roundUp : 0 < den -> ratioWhole (- units) num den (negb roundUp) = - ratioWhole units num den roundUp.
Proof.
  intros Hd. unfold ratioWhole. rewrite Z.mul_opp_l. set (p := units * num). rewrite Z.quot_opp_l, Z.rem_opp_l by lia.
  destruct (Z.eqb_spec (Z.rem p den) 0) as [H0|H0]; [rewrite H0; done|]. rewrite (proj2 (Z.eqb_neq (- Z.rem p den) 0)) by lia. cbn [negb].
  assert (p <> 0) by (intros ->; by rewrite Z.rem_0_l in H0 by lia).
  destruct (Z.leb_spec 0 p), (Z.leb_spec 0 (- p)), (Z.ltb_spec p 0), (Z.ltb_spec (- p) 0); try lia; destruct roundUp; cbn [negb andb]; lia.
Qed.

Lemma ratioWhole_ceil units num den : 0 < den -> ratioWhole units num den true = - (- (units * num) / den).
Proof.
  intros Hd. pose proof (ratioWhole_mirror units num den true Hd) as H. cbn [negb] in H. rewrite ratioWhole_floor, Z.mul_opp_l in H by done. lia.
Qed.

Lemma Qfloor_div p den : 0 < den -> Qfloor (inject_Z p * / inject_Z den) = p / den.
Proof.
  intros Hd. assert (Heq : (inject_Z p * / inject_Z den == p # Z.to_pos den)%Q).
  { rewrite (Qmake_Qdiv p (Z.to_pos den)). rewrite Z2Pos.id by done. reflexivity. }
  rewrite Heq. unfold Qfloor. by rewrite Z2Pos.id by done.
Qed.

Definition wholeRatio (units num den : Z) (roundUp : bool) : Z :=
  let q := (inject_Z units * inject_Z num / inject_Z den)%Q in if roundUp then Qceiling q else Qfloor q.

Lemma ratioWhole_exact units num den roundUp : 0 < den -> ratioWhole units num den roundUp = wholeRatio units num den roundUp.
Proof.
  intros Hd. unfold wholeRatio, Qdiv. destruct roundUp.
  - rewrite ratioWhole_ceil by done. unfold Qceiling. f_equal. rewrite <- (Qfloor_div _ den Hd). apply Qfloor_comp. rewrite inject_Z_opp, inject_Z_mult. ring.
  - rewrite ratioWhole_floor by done. rewrite <- (Qfloor_div _ den Hd). apply Qfloor_comp. by rewrite inject_Z_mult.
Qed.

(** An integer always has an issued form. *)
Lemma shrinkIOU_total fuel m e : e + Z.of_nat fuel <= MaxExponent -> exists m' e', shrinkIOU fuel m e = inr (m', e') /\ e' <= MaxExponent.
Proof.
  revert m e. induction fuel as [|fuel IH]; intros m e He; cbn [shrinkIOU]; [exists m, e; split; [done|lia]|].
  destruct (MaxMantissa <? m); [|exists m, e; split; [done|lia]]. destruct (Z.leb_spec MaxExponent e); [lia|]. apply IH. lia.
Qed.

Lemma growIOU_down fuel m e : snd (growIOU fuel m e) <= e.
Proof. revert m e. induction fuel as [|fuel IH]; intros m e; cbn [growIOU]; [done|]. destruct (_ && _); [|done]. specialize (IH (i64 (m * 10)) (e - 1)). lia. Qed.

Lemma NewIOUAmountValue_total m e : e <= 60 -> exists v, NewIOUAmountValue m e = inr v.
Proof.
  intros He. unfold NewIOUAmountValue, newIOUAmountValueRoundedWithContext. destruct (m =? 0); [by eexists|]. cbn [universalNumber legacyContext NewNumberContext]. unfold normalizeLegacy.
  pose proof (growIOU_down (Z.to_nat (e - MinExponent)) (if m <? 0 then i64 (- m) else m) e) as Hg. destruct (growIOU _ _ _) as [m1 e1]. cbn [snd] in Hg.
  destruct (shrinkIOU_total shrinkFuel m1 e1) as (m2 & e2 & -> & He2); [unfold shrinkFuel, MaxExponent; lia|]. cbn. destruct (_ || _); [by eexists|].
  rewrite (proj2 (Z.ltb_ge _ _)) by done. by eexists.
Qed.

Lemma newMPTAmountLike_total a v :
  exists r, newMPTAmountLike a v = inr r /\ mptRaw r = Some v /\ Native r = false /\ Currency r = Currency a /\ Issuer r = Issuer a /\ mptIssuanceID r = mptIssuanceID a.
Proof. unfold newMPTAmountLike. destruct (NewIOUAmountValue_total v 0 ltac:(lia)) as [i ->]. by eexists. Qed.

(** The ratio of an XRP or a token amount is the exact quotient in whole units of
    the same asset, rounded up or down as asked, for both signs; it fails only when
    that has more than 64 bits, or the denominator is zero. *)
Theorem mul_ratio_exact a num den roundUp c :
  0 <= den -> (Native a = true /\ mptRaw a = None) \/ (Native a = false /\ mptRaw a <> None) ->
  match MulRatioWithNumberContext a num den roundUp c with
  | inl e => (den = 0 /\ e = DivisionByZero) \/ (0 < den /\ isInt64 (wholeRatio (amountMantissa a) num den roundUp) = false)
  | inr r =>
      0 < den /\ amountMantissa r = wholeRatio (amountMantissa a) num den roundUp /\
      Native r = Native a /\ (mptRaw r = None <-> mptRaw a = None) /\ (mptRaw a <> None -> mptIssuanceID r = mptIssuanceID a)
  end.
Proof.
  intros Hd Ha. unfold MulRatioWithNumberContext. destruct (Z.eqb_spec den 0) as [->|Hne]; [by left|]. destruct Ha as [[Hn Hm]|[Hn Hm]].
  - assert (Ha : amountMantissa a = Drops a) by (unfold amountMantissa; by rewrite Hn). rewrite Ha, Hm, Hn, ratioWhole_exact by lia.
    destruct (isInt64 _); cbn [negb]; [|right; split; [lia|done]]. split; [lia|]. repeat split; by try (intros H; destruct H).
  - destruct (mptRaw a) as [v|] eqn:Hv; [|done]. assert (Ha : amountMantissa a = v) by (unfold amountMantissa; by rewrite Hn, Hv). rewrite Ha, ratioWhole_exact by lia.
    destruct (isInt64 _); cbn [negb]; [|right; split; [lia|done]]. destruct (newMPTAmountLike_total a (wholeRatio v num den roundUp)) as (r & -> & Hr & Hn' & _ & _ & Hid).
    split; [lia|]. unfold amountMantissa. rewrite Hr, Hn', Hn. repeat split; done.
Qed.
(** ** Products in drops *)
















(** ** Consequences of correct rounding *)

(** Absolute values by the sign of what they are taken of. *)
Ltac qabs :=
  repeat match goal with
  | H : context [Qabs ?a] |- _ => destruct (Qlt_le_dec a 0); [rewrite (Qabs_neg a) in H by lra|rewrite (Qabs_pos a) in H by lra]
  | |- context [Qabs ?a] => destruct (Qlt_le_dec a 0); [rewrite (Qabs_neg a) by lra|rewrite (Qabs_pos a) by lra]
  end.


(** Nothing to round. *)
Lemma rounded_exact s mode q z w : rounded s mode q z -> wellFormed s w -> (num w == q)%Q -> (num z == q)%Q.
Proof.
  intros Hr Hw Hq. destruct mode; cbn [rounded] in Hr.
  - destruct (Hr w Hw) as [H _]. generalize dependent (num z). generalize dependent (num w). intros nw Hq nz _ H. rewrite (Qabs_pos (nw - q)) in H by lra. qabs; lra.
  - destruct Hr as (H1 & H2 & H3). specialize (H3 w Hw). rewrite Hq in H3. specialize (H3 ltac:(lra)). assert (Ha : (Qabs (num z) == Qabs q)%Q) by lra. clear H1 H3. generalize dependent (num z). intros nz H2 Ha.
    qabs; [lra| | |lra]; assert (Hzz : (nz == 0)%Q \/ ~ (nz == 0)%Q) by (destruct (Qeq_dec nz 0); auto); destruct Hzz as [Hzz|Hzz]; try lra; exfalso; nra.
  - destruct Hr as [H1 H2]. specialize (H2 w Hw ltac:(lra)). lra.
  - destruct Hr as [H1 H2]. specialize (H2 w Hw ltac:(lra)). lra.
Qed.

Lemma computes_exact s mode r w : computes s mode (num w) r -> wellFormed s w -> mantissa w <> 0 -> r = inr w.
Proof.
  intros Hc Hw H0. pose proof Hw as [_ [->|Hg]]; [done|]. pose proof (grid_least s _ _ Hg) as Hl. assert (Ha : (Qabs (num w) == valueOf (mantissa w) (exponent w))%Q).
  { rewrite num_mirror. apply mirror_abs. apply Qlt_le_weak, value_pos. by eapply grid_pos. }
  destruct Hc as [Hb|Hc]; [specialize (Hb _ _ Hg); lra|]. destruct r as [|z]; [done|]. destruct Hc as (Hz & Hr & _). f_equal. apply (number_unique s); [done|done|].
  eapply rounded_exact; [apply Hr; lra|exact Hw|reflexivity].
Qed.

(** Rounding is monotone: it does not pass a number. *)
Lemma rounding_above s d x m e m' e' : roundsTo s d x m e -> gridPoint s m' e' -> (x <= valueOf m' e')%Q -> (valueOf m e <= valueOf m' e')%Q.
Proof.
  intros [_ Hr] Hg Hx. specialize (Hr m' e' Hg). generalize dependent (valueOf m e). generalize dependent (valueOf m' e'). intros v' Hx v Hr. destruct d; [|lra|by apply Hr].
  destruct Hr as [Hr _]. rewrite (Qabs_pos (v' - x)) in Hr by lra. qabs; lra.
Qed.

Lemma rounding_below s d x m e m' e' : roundsTo s d x m e -> gridPoint s m' e' -> (valueOf m' e' <= x)%Q -> (valueOf m' e' <= valueOf m e)%Q.
Proof.
  intros [_ Hr] Hg Hx. specialize (Hr m' e' Hg). generalize dependent (valueOf m e). generalize dependent (valueOf m' e'). intros v' Hx v Hr. destruct d; [|by apply Hr|lra].
  destruct Hr as [Hr _]. rewrite (Qabs_neg (v' - x)) in Hr by lra. qabs; lra.
Qed.

Lemma newNumber_outcome s m e mode :
  exactScale s -> - 9223372036854775808 <= m <= 9223372036854775807 -> m <> 0 ->
  exists r, newNumber m e s mode = (let? p := r in inr (ofParts s p)) /\ outcome s mode (m <? 0) (valueOf (Z.abs m) e) r.
Proof.
  intros Hs Hm H0. unfold newNumber, externalToInternal.
  assert (Hn : forall neg k, 0 < k -> exists r, normalize (mkNumber neg k e s) mode = (let? p := r in inr (ofParts s p)) /\ outcome s mode neg (valueOf k e) r).
  { intros neg k Hk. unfold normalize. cbn [negative mantissa exponent scale]. pose proof (normalizeParts_exact s (fun z => u64 z) neg k e mode Hs) as Ho. pose proof (params_ratio s) as Hr.
    destruct (params s) as [[minM maxM] lg]. rewrite (proj2 (Z.eqb_neq _ _)) by lia. eexists. split; [reflexivity|]. apply Ho; [done|]. intros z Hz. apply u64_small. lia. }
  destruct (Z.leb_spec 0 m) as [Hp|Hp]; [rewrite (proj2 (Z.ltb_ge m 0)), Z.abs_eq by lia; apply Hn; lia|]. rewrite (proj2 (Z.ltb_lt m 0)), Z.abs_neq by lia.
  destruct (Z.leb_spec (-9223372036854775807) m) as [Hl|Hl]; [apply Hn; lia|]. replace (- m) with (xrplNumMaxRep + 1) by (unfold xrplNumMaxRep; lia). apply Hn. done.
Qed.
(** ** Normalization of issued values *)

Definition leastIOU : Q := valueOf MinMantissa MinExponent.
Definition mostIOU : Q := valueOf MaxMantissa MaxExponent.

(** What the normalization of an exact [q] returns: the rounded value; zero or the
    least value below that; and no value only beyond the greatest. *)
Definition issuedFor (mode : RoundingMode) (q : Q) (r : amountError + IOUAmountValue) : Prop :=
  match r with
  | inl _ => (mostIOU < Qabs q)%Q
  | inr v =>
      normalIOU v /\ ((leastIOU <= Qabs q)%Q -> rounded MantissaScaleSmall mode q (iouNumber v)) /\
      ((Qabs q < leastIOU)%Q -> v = ZeroIOUValue \/ ((Qabs (iouValue v) == leastIOU)%Q /\ (0 <= iouValue v * q)%Q))
  end.

Definition clampIOU (n : XRPLNumber) : amountError + IOUAmountValue :=
  if MaxExponent <? Exponent n then inl ToIOUOverflow else if Exponent n <? MinExponent then inr ZeroIOUValue else inr (mkIOU (Mantissa n) (Exponent n)).

Lemma clamp_small n mode : scale n = MantissaScaleSmall -> wellFormed MantissaScaleSmall n -> ToIOUAmountValueRounded n mode = clampIOU n.
Proof.
  intros Hs [_ Hn]. unfold ToIOUAmountValueRounded. destruct (IsZero n) eqn:Hz; [|by rewrite bool_decide_eq_true_2 by done].
  destruct Hn as [->|Hg]; [done|]. apply grid_pos in Hg. unfold IsZero in Hz. apply Z.eqb_eq in Hz. lia.
Qed.

Lemma small_exponents : xrplNumMinExponent < MinExponent /\ MaxExponent < xrplNumMaxExponent.
Proof. done. Qed.

Lemma small_least : (least MantissaScaleSmall < leastIOU)%Q.
Proof.
  unfold least, leastIOU. cbn [params]. rewrite (value_lt _ _ _ _ xrplNumMinExponent), Z.sub_diag, Z.pow_0_r by done. pose proof (pow10_ge (MinExponent - xrplNumMinExponent) ltac:(done)). unfold MinMantissa. nia.
Qed.

Lemma small_grid m e : MinMantissa <= m <= MaxMantissa -> MinExponent <= e <= MaxExponent -> gridPoint MantissaScaleSmall m e.
Proof. intros Hm He. pose proof small_exponents. split; [exact Hm|]. split; [lia|done]. Qed.

Lemma clamp_rounded mode neg x m e :
  (0 < x)%Q -> roundsTo MantissaScaleSmall (directionOf mode neg) x m e -> issuedFor mode (mirror neg x) (clampIOU (mkNumber neg m e MantissaScaleSmall)).
Proof.
  intros Hx Hr. pose proof (proj1 Hr) as (Hm & He & _). cbn in Hm. pose proof small_least as Hsl.
  assert (Hg : gridPoint MantissaScaleSmall MinMantissa MinExponent /\ gridPoint MantissaScaleSmall MaxMantissa MaxExponent) by (split; apply small_grid; unfold MinMantissa, MaxMantissa, MinExponent, MaxExponent; lia).
  destruct Hg as [Hg1 Hg2].
  pose proof (rounding_below _ _ _ _ _ _ _ Hr Hg1) as Hlow1. pose proof (rounding_above _ _ _ _ _ _ _ Hr Hg1) as Hlow2. pose proof (rounding_above _ _ _ _ _ _ _ Hr Hg2) as Hhigh.
  unfold clampIOU, Exponent, Mantissa. cbn [mantissa exponent negative]. rewrite (proj2 (Z.ltb_ge xrplNumMaxRep m)) by (unfold xrplNumMaxRep; lia).
  destruct (Z.ltb_spec MaxExponent e) as [Hbig|Hbig].
  { cbn. rewrite mirror_abs by lra. destruct (Qlt_le_dec mostIOU x) as [|Hle]; [done|]. specialize (Hhigh Hle). rewrite (value_le _ _ _ _ MaxExponent), Z.sub_diag, Z.pow_0_r in Hhigh by lia.
    pose proof (pow10_ge (e - MaxExponent) ltac:(lia)). unfold MaxMantissa in Hhigh. nia. }
  destruct (Z.ltb_spec e MinExponent) as [Hsmall|Hsmall]; unfold issuedFor; rewrite mirror_abs by lra.
  { assert (Hlt : (x < leastIOU)%Q). { destruct (Qlt_le_dec x leastIOU) as [|Hle]; [done|]. specialize (Hlow1 Hle). rewrite (value_le _ _ _ _ e), Z.sub_diag, Z.pow_0_r in Hlow1 by lia.
      pose proof (pow10_ge (MinExponent - e) ltac:(lia)). unfold MinMantissa in Hlow1. nia. }
    split; [by left|]. split; [intros; lra|by left]. }
  assert (Hiou : iouNumber (mkIOU (signed neg m) e) = mkNumber neg m e MantissaScaleSmall).
  { unfold iouNumber, iouIsZero. cbn [iouMantissa iouExponent]. rewrite signed_sign, abs_signed by lia. rewrite (proj2 (Z.eqb_neq _ _)) by (unfold signed; destruct neg; lia). done. }
  rewrite Hiou. split; [right; cbn; rewrite abs_signed by lia; split; [exact Hm|lia]|]. split.
  - intros Hle. destruct mode; [apply rounded_nearest; [lra|by left|done]|apply rounded_directed; [done|done|by left|done]..].
  - intros Hlt. right. rewrite <- iouNumber_value, Hiou, num_mirror. cbn [negative mantissa exponent]. pose proof (value_pos m e ltac:(lia)) as Hv. rewrite mirror_abs by lra. split; [|apply mirror_same; lra].
    specialize (Hlow2 ltac:(unfold leastIOU in Hlt; lra)). assert (Hge : (valueOf MinMantissa MinExponent <= valueOf m e)%Q); [|unfold leastIOU; lra].
    rewrite (value_le _ _ _ _ MinExponent), Z.sub_diag, Z.pow_0_r by lia. pose proof (pow10_pos (e - MinExponent) ltac:(lia)). unfold MinMantissa. nia.
Qed.

Lemma in_range s x m e :
  exactScale s -> 0 < m <= 9223372036854775807 -> -30000 <= e <= 30000 -> (x == valueOf m e)%Q -> ~ beyond s x.
Proof.
  intros Hs Hm He Hx Hb. assert (Hg : gridPoint s (minOf s) xrplNumMaxExponent).
  { destruct Hs as [->| ->]; cbn; (split; [lia|]); (split; [done|]); [done|]. intros _. left. unfold xrplNumMaxRep. lia. }
  specialize (Hb _ _ Hg). rewrite Hx, (value_lt _ _ _ _ e) in Hb by (unfold xrplNumMaxExponent; lia). rewrite Z.sub_diag, Z.pow_0_r in Hb.
  assert (10 ^ 10 <= 10 ^ (xrplNumMaxExponent - e)) by (apply Z.pow_le_mono_r; unfold xrplNumMaxExponent; lia). change (10 ^ 10) with 10000000000 in *.
  assert (1000000000000000 <= minOf s) by (destruct Hs as [->| ->]; cbn; lia). nia.
Qed.

(** Numbers of nineteen digits hold every integer of 63 bits. *)
Lemma exact330 m e :
  0 < m <= xrplNumMaxRep -> -30000 <= e <= 30000 -> exists k j, gridPoint big k j /\ (valueOf k j == valueOf m e)%Q.
Proof.
  intros Hm He. destruct (scaleUp_spec (fun z => z) 20 m 0 1000000000000000000 ltac:(lia) ltac:(done)) as (j & Hj & _ & Hlow & Hb); [change (10 ^ Z.of_nat 20) with 100000000000000000000; lia|].
  assert (Hj19 : j < 20). { destruct Hb as [->|[_ Hb]]; [lia|]. destruct (Z.lt_ge_cases j 20) as [|Hge]; [done|]. assert (10 ^ 20 <= 10 ^ j) by (apply Z.pow_le_mono_r; lia). change (10 ^ 20) with 100000000000000000000 in *. nia. }
  assert (Hlow' : 1000000000000000000 <= m * 10 ^ j) by (destruct Hlow as [|H]; [done|unfold xrplNumMinExponent in H; lia]).
  exists (m * 10 ^ j), (e - j). split; [|by rewrite <- value_scale]. unfold xrplNumMaxRep in *. split; [cbn; destruct Hb as [->|[_ Hb]]; lia|].
  split; [unfold xrplNumMinExponent, xrplNumMaxExponent; lia|]. intros _. destruct (decide (j = 0)) as [->|Hj0]; [left; unfold xrplNumMaxRep; lia|]. right.
  replace j with (j - 1 + 1) by lia. rewrite Z.pow_add_r, Z.mul_assoc by lia. split; [apply Z.mod_mul; lia|]. right. unfold xrplNumMaxExponent. lia.
Qed.

Lemma outcome_resp s mode neg x x' r : (x == x')%Q -> outcome s mode neg x r -> outcome s mode neg x' r.
Proof.
  intros Hx [Hb|H]; [left; intros m e Hg; rewrite <- Hx; by apply Hb|right]. destruct r as [|[[neg' m] e]]; [done|]. destruct H as [(? & ? & ? & Hl)|[? [Hg Hr]]]; [left; by rewrite <- Hx|right].
  split; [done|]. split; [done|]. intros m' e' Hg'. specialize (Hr m' e' Hg'). destruct (directionOf mode neg); by rewrite <- Hx.
Qed.

Lemma issuedFor_resp mode q q' r : (q == q')%Q -> issuedFor mode q r -> issuedFor mode q' r.
Proof.
  intros Hq. unfold issuedFor. destruct r as [|v]; [by rewrite Hq|]. intros (Hn & Hr & Hl). split; [done|]. split.
  - intros H. rewrite <- Hq in H. apply (rounded_resp _ _ q); auto.
  - intros H. rewrite <- Hq in H |- *. auto.
Qed.

(** Any issued conversion that goes through sixteen digits once. *)
Lemma small_issued mode neg x r :
  (0 < x)%Q -> ~ beyond MantissaScaleSmall x -> outcome MantissaScaleSmall mode neg x r ->
  issuedFor mode (mirror neg x) (let? n := lift (let? p := r in inr (ofParts MantissaScaleSmall p)) in ToIOUAmountValueRounded n mode).
Proof.
  intros Hx Hnb [Hb|Hr]; [done|]. destruct r as [|[[neg' m] e]]; [done|]. cbn [lift ofParts]. destruct Hr as [(-> & -> & -> & Hl)|[-> Hr]].
  - cbn -[leastIOU mostIOU]. pose proof small_least. rewrite mirror_abs by lra. split; [by left|]. split; [intros; lra|by left].
  - rewrite clamp_small; [by apply clamp_rounded|done|]. split; [done|right; apply Hr].
Qed.

Lemma issued_normalization m e mode c :
  universalNumber c = true -> exactScale (ctxScale c) -> - 9223372036854775807 <= m <= 9223372036854775807 -> -30000 <= e <= 30000 ->
  issuedFor mode (valueOf m e) (newIOUAmountValueRoundedWithContext m e mode c).
Proof.
  intros Hu Hs Hm He. unfold newIOUAmountValueRoundedWithContext, ctxNumber. rewrite Hu. destruct (Z.eqb_spec m 0) as [->|H0].
  { cbn -[leastIOU valueOf]. assert (Hq : (Qabs (valueOf 0 e) == 0)%Q) by (rewrite value_zero; reflexivity). assert (0 < leastIOU)%Q by (by apply value_pos). split; [by left|]. split; [intros; lra|by left]. }
  assert (Hq : (valueOf m e == mirror (m <? 0) (valueOf (Z.abs m) e))%Q).
  { unfold mirror, valueOf. destruct (Z.ltb_spec m 0); [rewrite Z.abs_neq, inject_Z_opp by lia; ring|by rewrite Z.abs_eq by lia]. }
  pose proof (value_pos (Z.abs m) e ltac:(lia)) as Hx. destruct Hs as [Hs|Hs]; rewrite Hs.
  - destruct (newNumber_outcome MantissaScaleSmall m e mode (or_introl eq_refl) ltac:(lia) H0) as (r & -> & Ho). apply (issuedFor_resp _ _ _ _ (Qeq_sym _ _ Hq)).
    apply small_issued; [done| |done]. apply (in_range _ _ (Z.abs m) e); [by left|lia|done|reflexivity].
  - destruct (exact330 (Z.abs m) e ltac:(unfold xrplNumMaxRep; lia) He) as (k & j & Hg & Hv). set (w := mkNumber (m <? 0) k j big).
    assert (Hw : wellFormed big w) by (split; [done|by right]). assert (Hwn : (num w == valueOf m e)%Q) by (rewrite Hq, num_mirror; cbn [w negative mantissa exponent]; unfold mirror; destruct (m <? 0); by rewrite Hv).
    pose proof (grid_pos _ _ _ Hg) as Hk. assert (Hw0 : mantissa w <> 0) by (cbn; lia).
    rewrite (computes_exact big mode _ w (computes_resp _ _ _ _ _ (Qeq_sym _ _ Hwn) (newNumber_computes m e big mode big_exact ltac:(lia))) Hw Hw0). cbn [lift].
    unfold ToIOUAmountValueRounded, IsZero. rewrite (proj2 (Z.eqb_neq _ _)) by done. rewrite bool_decide_eq_false_2 by done.
    destruct (view_spec big w big_exact Hw Hw0) as (d & -> & Hd & Hdv). change (negative w) with (m <? 0) in *. set (kd := Exponent w) in *.
    assert (Hdx : (valueOf d kd == valueOf (Z.abs m) e)%Q). { rewrite Hwn, Hq in Hdv. unfold mirror in Hdv. destruct (m <? 0); lra. }
    destruct (newNumber_outcome MantissaScaleSmall (signed (m <? 0) d) kd mode (or_introl eq_refl)) as (r & -> & Ho);
      [unfold signed, xrplNumMaxRep in *; destruct (m <? 0); lia|unfold signed; destruct (m <? 0); lia|]. rewrite signed_sign, abs_signed in Ho by lia.
    pose proof (small_issued mode (m <? 0) (valueOf d kd) r ltac:(by apply value_pos; lia)) as Hsm. apply (issuedFor_resp _ (mirror (m <? 0) (valueOf d kd))).
    + rewrite Hq. unfold mirror. destruct (m <? 0); by rewrite Hdx.
    + assert (Hnb : ~ beyond MantissaScaleSmall (valueOf d kd)) by (apply (in_range _ _ (Z.abs m) e); [by left|lia|done|done]). specialize (Hsm Hnb Ho).
      destruct r as [|[[neg' m'] e']]; [destruct Ho; done|]. cbn [lift ofParts] in Hsm |- *. rewrite clamp_small in Hsm; [exact Hsm|done|].
      split; [done|]. destruct Ho as [|Ho]; [done|]. destruct Ho as [(-> & -> & -> & _)|[_ [Hg' _]]]; [by left|by right].
Qed.

(** C28: An issued amount built under the universal number is the exact mantissa and
    exponent given, correctly rounded to sixteen digits in the requested mode, whether
    the ledger computes with sixteen or with nineteen digits; it is zero (or the least
    amount) only below the least amount, and fails only beyond the greatest. *)
Theorem issued_normalization_exact m e mode c :
  universalNumber c = true -> exactScale (ctxScale c) -> - 9223372036854775807 <= m <= 9223372036854775807 -> -30000 <= e <= 30000 ->
  issuedFor mode (valueOf m e) (newIOUAmountValueRoundedWithContext m e mode c).
Proof. apply issued_normalization. Qed.
(** ** Exchange rates *)







Definition price (offerOut offerIn : Amount) : Q := (amountValue offerIn / amountValue offerOut)%Q.




(** ** Integer square root *)

Lemma newton_bounds n s x : 0 < n -> s * s <= n < (s + 1) * (s + 1) -> s <= x -> 0 < x -> s <= (x + n / x) / 2 /\ (s < x -> (x + n / x) / 2 <= s + (x - s) / 2).
Proof.
  intros Hn Hs Hx Hp. split.
  - assert (2 * s - x <= n / x) by (apply Z.div_le_lower_bound; nia). apply Z.div_le_lower_bound; lia.
  - intros Hlt. assert (n / x < s + 1) by (apply Z.div_lt_upper_bound; nia). replace (s + (x - s) / 2) with ((x + s) / 2); [apply Z.div_le_mono; lia|].
    replace (x + s) with (x - s + s * 2) by lia. rewrite Z.div_add by lia. lia.
Qed.

Lemma sqrtLoop_spec fuel n s x :
  0 < n < 2 ^ 63 -> 0 < s -> s * s <= n < (s + 1) * (s + 1) -> s <= x <= n -> x - s < 2 ^ Z.of_nat fuel ->
  sqrtLoop fuel n x ((x + n / x) / 2) = Some s.
Proof.
  intros Hn Hs Hsq. revert x. induction fuel as [|fuel IH]; intros x Hx Hd; pose proof (newton_bounds n s x ltac:(lia) Hsq ltac:(lia) ltac:(lia)) as [Hlow Hup]; cbn [sqrtLoop].
  - change (2 ^ Z.of_nat 0) with 1 in Hd. assert (x = s) as -> by lia. by rewrite (proj2 (Z.ltb_ge _ _) Hlow).
  - rewrite Nat2Z.inj_succ, Z.pow_succ_r in Hd by lia. destruct (decide (x = s)) as [->|Hne]; [by rewrite (proj2 (Z.ltb_ge _ _) Hlow)|].
    specialize (Hup ltac:(lia)). set (y := (x + n / x) / 2) in *. assert (Hy : y < x) by dmlia. rewrite (proj2 (Z.ltb_lt _ _) Hy). cbn [negb].
    pose proof (Z.div_le_upper_bound n y n ltac:(lia) ltac:(nia)). pose proof (Z.div_pos n y ltac:(lia) ltac:(lia)). rewrite u64_small by lia. apply IH; [lia|dmlia].
Qed.

(** The square root of an amount of drops is the exact integer square root; the
    iteration ends within 64 rounds for every amount. *)
Theorem intSqrt_exact n : 0 <= n < 2 ^ 63 -> intSqrt 64 n = Some (Z.sqrt n).
Proof.
  intros Hn. unfold intSqrt. destruct (Z.eqb_spec n 0) as [->|H0]; [done|]. pose proof (Z.sqrt_spec n ltac:(lia)) as Hs. assert (Hp : 0 < Z.sqrt n) by (by apply Z.sqrt_pos; lia). unfold Z.succ in Hs.
  rewrite u64_small by lia. replace (n + 1) with (n + n / n) by (rewrite Z.div_same by lia; lia). apply sqrtLoop_spec; [lia|done|lia| |].
  - split; [apply Z.sqrt_le_lin; lia|lia].
  - change (2 ^ Z.of_nat 64) with 18446744073709551616. lia.
Qed.

(** ** Concrete amounts *)

Definition dollars (m e : Z) : Amount := issued (mkIOU m e) "USD"%string EmptyString.

Definition universal : NumberContext := NewNumberContext MantissaScaleSmall true.

(** The rates of the largest XRP amounts, where the quotient has 64 bits, are those
    that the repository's tests expect. *)
Example large_rates :
  map (fun drops => GetRateWithNumberContext (dollars 1000000000000000 (-15)) (NewXRPAmountFromInt drops) universal)
    [92233720368547758; 92233720368547759; 95720761450600688; 100000000000000000] =
  map (fun m => Z.lor (Z.shiftl 101 56) m) [9223372036854776; 9223372036854776; 8874667928649483; 8446744073709552].
Proof. vm_compute. reflexivity. Qed.

(** Five units of the eighteenth digit decide some quotients: two offers at ten for
    three have different rates. *)
Example equal_prices :
  (price (dollars 3000000000000000 (-15)) (dollars 1000000000000000 (-14)) == price (dollars 1500000000000000 (-15)) (dollars 5000000000000000 (-15)))%Q /\
  GetRateWithNumberContext (dollars 3000000000000000 (-15)) (dollars 1000000000000000 (-14)) universal =
  GetRateWithNumberContext (dollars 1500000000000000 (-15)) (dollars 5000000000000000 (-15)) universal + 1.
Proof. split; vm_compute; reflexivity. Qed.




Lemma amount_compare_exact_witness :
  CompareChecked (dollars 2500000000000000 (-15)) (dollars (-1000000000000000) (-10)) = inr 1.
Proof.
  rewrite (amount_compare_exact (dollars 2500000000000000 (-15)) (dollars (-1000000000000000) (-10)));
    [vm_compute; reflexivity|intros _ _; right; cbn; unfold MinMantissa, MaxMantissa, MinExponent, MaxExponent; lia..].
Defined.

Lemma mul_ratio_exact_witness : wholeRatio (-10) 1 3 true = -3.
Proof.
  pose proof (mul_ratio_exact (NewXRPAmountFromInt (-10)) 1 3 true legacyContext ltac:(lia) (or_introl (conj eq_refl eq_refl))) as H.
  cbn -[wholeRatio] in H. destruct H as (_ & H & _). symmetry. exact H.
Defined.


Lemma issued_normalization_exact_witness : issuedFor RoundUpward (valueOf 9223372036854775807 0) (inr (mkIOU 9223372036854776 3)).
Proof. exact (issued_normalization_exact 9223372036854775807 0 RoundUpward universal eq_refl (or_introl eq_refl) ltac:(lia) ltac:(lia)). Defined.


(** Within the gap the order is not kept: 10 for 3 is the lower price of the two, and has
    the higher rate. *)
Example close_rates_inverted :
  let out1 := dollars 3000000000000000 (-15) in let in1 := dollars 1000000000000000 (-14) in
  let out2 := dollars 2999999999999999 (-15) in let in2 := dollars 9999999999999997 (-15) in
  (price out1 in1 < price out2 in2)%Q /\ GetRateWithNumberContext out2 in2 universal < GetRateWithNumberContext out1 in1 universal.
Proof. vm_compute. split; reflexivity. Qed.

Lemma intSqrt_exact_witness : intSqrt 64 100000000000000000 = Some 316227766.
Proof. rewrite (intSqrt_exact 100000000000000000); [reflexivity|lia]. Defined.


End AmountSpec.
