(* ===== verification/FeeTrack.v ===== *)
(** * Load-fee tracker (internal/feetrack)

    The local, remote and cluster load factors, the operations that move them,
    and the scaling of a fee by the resulting factor. *)

From stdpp Require Import base list numbers relations.
From S2P Require Import Prelude.

Module FeeTrack.

Definition LoadBase : Z := 256.
Definition feeIncFraction : Z := 4.
Definition feeDecFraction : Z := 4.
Definition feeMax : Z := LoadBase * 1000000.

Inductive FeeError := ErrOverflow.

(** [onChange] records whether a callback is installed; an operation reports
    whether it invoked it. *)
Record LoadFeeTrack := mkLoadFeeTrack {
  localFee : Z;
  remoteFee : Z;
  clusterFee : Z;
  raiseCount : Z;
  onChange : bool }.

Definition New : LoadFeeTrack := mkLoadFeeTrack LoadBase LoadBase LoadBase 0 false.

Definition SetRemoteFee (t : LoadFeeTrack) (f : Z) : LoadFeeTrack * bool :=
  let changed := negb (remoteFee t =? f) in
  (mkLoadFeeTrack (localFee t) f (clusterFee t) (raiseCount t) (onChange t),
   changed && onChange t).

Definition SetClusterFee (t : LoadFeeTrack) (f : Z) : LoadFeeTrack * bool :=
  let changed := negb (clusterFee t =? f) in
  (mkLoadFeeTrack (localFee t) (remoteFee t) f (raiseCount t) (onChange t),
   changed && onChange t).

Definition SetOnChange (t : LoadFeeTrack) (fn : bool) : LoadFeeTrack :=
  mkLoadFeeTrack (localFee t) (remoteFee t) (clusterFee t) (raiseCount t) fn.

Definition LoadFactor (t : LoadFeeTrack) : Z :=
  Z.max (Z.max (clusterFee t) (localFee t)) (remoteFee t).

Definition scalingFactors (t : LoadFeeTrack) : Z * Z :=
  (Z.max (localFee t) (remoteFee t), Z.max (remoteFee t) (clusterFee t)).

Definition IsLoadedLocal (t : LoadFeeTrack) : bool :=
  negb (raiseCount t =? 0) || negb (localFee t =? LoadBase).

Definition IsLoadedCluster (t : LoadFeeTrack) : bool :=
  negb (raiseCount t =? 0) || negb (localFee t =? LoadBase) || negb (clusterFee t =? LoadBase).

(** State after the call, the returned [changed], and whether the callback ran. *)
Definition RaiseLocalFee (t : LoadFeeTrack) : LoadFeeTrack * bool * bool :=
  let count := wrap 32 (raiseCount t + 1) in
  if count <? 2 then
    (mkLoadFeeTrack (localFee t) (remoteFee t) (clusterFee t) count (onChange t), false, false)
  else
    let orig := localFee t in
    let base := Z.max (localFee t) (remoteFee t) in
    let raised := wrap 64 (base + base / feeIncFraction) in
    let raised := if feeMax <? raised then feeMax else raised in
    let localFee' := wrap 32 raised in
    let changed := negb (orig =? localFee') in
    (mkLoadFeeTrack localFee' (remoteFee t) (clusterFee t) count (onChange t),
     changed, changed && onChange t).

Definition LowerLocalFee (t : LoadFeeTrack) : LoadFeeTrack * bool * bool :=
  let orig := localFee t in
  let lowered := wrap 32 (localFee t - localFee t / feeDecFraction) in
  let localFee' := if lowered <? LoadBase then LoadBase else lowered in
  let changed := negb (orig =? localFee') in
  (mkLoadFeeTrack localFee' (remoteFee t) (clusterFee t) 0 (onChange t),
   changed, changed && onChange t).

(** A nil tracker is [None]. *)
Definition ScaleFeeLoad (fee : Z) (t : option LoadFeeTrack) (unlimited : bool) : FeeError + Z :=
  if fee =? 0 then inr 0
  else if max_i64 <? fee then inl ErrOverflow
  else match t with
  | None => inr fee
  | Some t =>
      let '(feeFactor, remFee) := scalingFactors t in
      let feeFactor :=
        if unlimited && (remFee <? feeFactor) && (feeFactor <? wrap 32 (4 * remFee))
        then remFee else feeFactor in
      let '(productHi, productLo) := mul64 fee feeFactor in
      if LoadBase <=? productHi then inl ErrOverflow
      else match div64 productHi productLo LoadBase with
      | None => inl ErrOverflow (* bits.Div64 would panic; never taken *)
      | Some (scaled, _) =>
          if max_i64 <? scaled then inl ErrOverflow else inr scaled
      end
  end.

(** ** Reachable trackers *)

Inductive step : LoadFeeTrack -> LoadFeeTrack -> Prop :=
  | step_remote t f : is_uint 32 f -> step t (SetRemoteFee t f).1
  | step_cluster t f : is_uint 32 f -> step t (SetClusterFee t f).1
  | step_callback t fn : step t (SetOnChange t fn)
  | step_raise t : step t (RaiseLocalFee t).1.1
  | step_lower t : step t (LowerLocalFee t).1.1.

Definition reachable (t : LoadFeeTrack) : Prop := rtc step New t.

Record inv (t : LoadFeeTrack) : Prop := {
  inv_local : LoadBase <= localFee t <= feeMax;
  inv_remote : is_uint 32 (remoteFee t);
  inv_cluster : is_uint 32 (clusterFee t);
  inv_count : is_uint 32 (raiseCount t) }.

Lemma inv_New : inv New.
Proof. split; cbn; unfold is_uint, feeMax, LoadBase; lia. Qed.

(** The raised local fee in closed form, with no wrap-around left. *)
Lemma RaiseLocalFee_local t :
  inv t ->
  localFee (RaiseLocalFee t).1.1 =
    if wrap 32 (raiseCount t + 1) <? 2 then localFee t
    else let base := Z.max (localFee t) (remoteFee t) in Z.min feeMax (base + base / 4).
Proof.
  intros [Hl Hr _ _]. unfold RaiseLocalFee. go_case; [done|]. cbn.
  unfold feeIncFraction, feeMax, LoadBase, is_uint in *.
  set (base := Z.max _ _). assert (0 <= base < 2 ^ 32) by lia.
  rewrite (wrap_small 64) by (unfold is_uint; dmlia).
  go_case; rewrite wrap_small by (unfold is_uint; dmlia); dmlia.
Qed.

Lemma LowerLocalFee_local t :
  inv t ->
  localFee (LowerLocalFee t).1.1 = Z.max LoadBase (localFee t - localFee t / 4).
Proof.
  intros [Hl _ _ _]. unfold LowerLocalFee; cbn.
  unfold feeDecFraction, feeMax, LoadBase in *.
  rewrite wrap_small by (unfold is_uint; dmlia). go_case; dmlia.
Qed.

Lemma inv_step t t' : inv t -> step t t' -> inv t'.
Proof.
  intros Hi Hs. pose proof Hi as [Hl Hr Hc Hn]. destruct Hs.
  - by split.
  - by split.
  - by split.
  - pose proof (RaiseLocalFee_local t Hi) as HL.
    split.
    + rewrite HL. go_case; [done|]. unfold feeMax, LoadBase in *. dmlia.
    + unfold RaiseLocalFee. by go_case.
    + unfold RaiseLocalFee. by go_case.
    + unfold RaiseLocalFee. go_case; cbn; apply wrap_range; lia.
  - pose proof (LowerLocalFee_local t Hi) as HL. split; try done.
    rewrite HL. unfold feeMax, LoadBase in *. dmlia.
Qed.

Lemma reachable_inv t : reachable t -> inv t.
Proof.
  unfold reachable. intros H. pose proof inv_New as Hi. revert Hi.
  induction H as [|x y z Hxy Hyz IH]; [done|]. eauto using inv_step.
Qed.

(** ** Scaling a fee *)

(** The factor a caller pays, computed without machine arithmetic: the larger
    of local and remote load, except that a privileged caller pays the
    network-wide factor while the local one is below four times it. *)
Definition effectiveFactor (t : LoadFeeTrack) (unlimited : bool) : Z :=
  let feeFactor := Z.max (localFee t) (remoteFee t) in
  let remFee := Z.max (remoteFee t) (clusterFee t) in
  if unlimited && (remFee <? feeFactor) && (feeFactor <? 4 * remFee) then remFee else feeFactor.

(** The 32-bit product [4*remFee] wraps for remote fees of 2^30 and more, but
    then the local fee, capped at [feeMax], cannot exceed the remote one. *)
Lemma factor_no_wrap t unlimited :
  inv t ->
  (if unlimited && ((scalingFactors t).2 <? (scalingFactors t).1)
      && ((scalingFactors t).1 <? wrap 32 (4 * (scalingFactors t).2))
   then (scalingFactors t).2 else (scalingFactors t).1) = effectiveFactor t unlimited.
Proof.
  intros [Hl Hr Hc _]. unfold effectiveFactor, scalingFactors; cbn [fst snd].
  destruct unlimited; cbn [andb]; [|done].
  destruct (Z.ltb_spec (Z.max (remoteFee t) (clusterFee t)) (Z.max (localFee t) (remoteFee t)));
    cbn [andb]; [|done].
  rewrite wrap_small; [done|]. unfold is_uint, feeMax, LoadBase in *. lia.
Qed.

Lemma effectiveFactor_range t unlimited : inv t -> is_uint 32 (effectiveFactor t unlimited).
Proof.
  intros [Hl Hr Hc _]. unfold effectiveFactor, is_uint, feeMax, LoadBase in *. go_case; lia.
Qed.

Lemma ScaleFeeLoad_value fee t unlimited :
  inv t -> is_uint 64 fee ->
  ScaleFeeLoad fee (Some t) unlimited =
    let scaled := fee * effectiveFactor t unlimited / LoadBase in
    if (fee <=? max_i64) && (scaled <=? max_i64) then inr scaled else inl ErrOverflow.
Proof.
  intros Hi Hfee. pose proof (effectiveFactor_range t unlimited Hi) as Hf.
  unfold ScaleFeeLoad.
  destruct (scalingFactors t) as [ff rf] eqn:Esf.
  pose proof (factor_no_wrap t unlimited Hi) as Hw. rewrite Esf in Hw. cbn [fst snd] in Hw.
  rewrite Hw. set (f := effectiveFactor t unlimited) in *.
  unfold is_uint in *. destruct (Z.eqb_spec fee 0) as [->|]; [done|].
  destruct (Z.ltb_spec max_i64 fee); [by destruct (Z.leb_spec fee max_i64); [lia|]|].
  destruct (Z.leb_spec fee max_i64); [|lia]. cbn [andb].
  destruct (mul64 fee f) as [hi lo] eqn:Em.
  pose proof (mul64_hi_lt fee f LoadBase ltac:(unfold LoadBase; lia)) as Hlt.
  pose proof (div64_mul64 fee f LoadBase ltac:(unfold LoadBase; lia)) as Hd.
  rewrite Em in Hlt, Hd. cbn [fst snd] in Hlt, Hd. cbv zeta.
  destruct (Z.leb_spec LoadBase hi).
  - assert (2 ^ 64 <= fee * f / LoadBase) by lia.
    destruct (Z.leb_spec (fee * f / LoadBase) max_i64); [|done]. unfold max_i64 in *. lia.
  - rewrite Hd by lia.
    by destruct (Z.ltb_spec max_i64 (fee * f / LoadBase)),
      (Z.leb_spec (fee * f / LoadBase) max_i64); try lia.
Qed.

(** For every reachable tracker and every 64-bit fee, the scaled fee is
    exactly fee * factor / 256 in unbounded arithmetic, and the overflow error
    is returned exactly when the fee or the result is above the signed 64-bit
    range; the wrap-around of the 32-bit test never shows. *)
Theorem ScaleFeeLoad_exact fee t unlimited :
  reachable t -> is_uint 64 fee ->
  ScaleFeeLoad fee (Some t) unlimited =
    let scaled := fee * effectiveFactor t unlimited / LoadBase in
    if (fee <=? max_i64) && (scaled <=? max_i64) then inr scaled else inl ErrOverflow.
Proof. intros Ht. by apply ScaleFeeLoad_value, reachable_inv. Qed.

(** No sequence of operations takes the local fee outside
    [LoadBase, feeMax], so the load factor is never below the reference. *)
Theorem local_fee_bounded t :
  reachable t -> LoadBase <= localFee t <= feeMax /\ LoadBase <= LoadFactor t.
Proof.
  intros [Hl _ _ _]%reachable_inv. split; [done|]. unfold LoadFactor. lia.
Qed.

(** A privileged caller is never charged more than an ordinary one, and
    gets an answer whenever the ordinary one does. *)
Theorem unlimited_pays_no_more fee t v :
  reachable t -> is_uint 64 fee ->
  ScaleFeeLoad fee (Some t) false = inr v ->
  exists v', ScaleFeeLoad fee (Some t) true = inr v' /\ v' <= v.
Proof.
  intros Ht%reachable_inv Hfee. rewrite !ScaleFeeLoad_value by done. cbv zeta.
  assert (Hle : effectiveFactor t true <= effectiveFactor t false).
  { unfold effectiveFactor; cbn [andb]. go_case; lia. }
  assert (Hs : fee * effectiveFactor t true / LoadBase <= fee * effectiveFactor t false / LoadBase).
  { apply Z.div_le_mono; [unfold LoadBase; lia|]. unfold is_uint in Hfee. nia. }
  go_case; [|done]. intros [= <-]. eexists. split; [|exact Hs].
  by go_case; [|lia].
Qed.

(** ** Decay and hysteresis *)

Fixpoint lowerN (n : nat) (t : LoadFeeTrack) : LoadFeeTrack :=
  match n with
  | O => t
  | S n => lowerN n (LowerLocalFee t).1.1
  end.

Definition decay (x : Z) : Z := Z.max LoadBase (x - x / 4).

Lemma decay_mono x y : x <= y -> decay x <= decay y.
Proof. unfold decay. intros. dmlia. Qed.

Lemma decay_iter_mono n x y : x <= y -> Nat.iter n decay x <= Nat.iter n decay y.
Proof. induction n; cbn; auto using decay_mono. Qed.

Lemma lowerN_inv n t : inv t -> inv (lowerN n t).
Proof.
  revert t. induction n; cbn; intros; [done|]. apply IHn. eapply inv_step; [done|]. constructor.
Qed.

Lemma lowerN_local n t : inv t -> localFee (lowerN n t) = Nat.iter n decay (localFee t).
Proof.
  revert t. induction n as [|n IH]; cbn [lowerN]; intros t Ht; [done|].
  rewrite IH by (eapply inv_step; [done|constructor]).
  rewrite LowerLocalFee_local by done. change (Z.max _ _) with (decay (localFee t)).
  rewrite <- Nat.iter_succ_r. done.
Qed.

Lemma lowerN_count n t : raiseCount (lowerN (S n) t) = 0.
Proof.
  revert t. induction n as [|n IH]; intros t; [done|].
  change (raiseCount (lowerN (S n) (LowerLocalFee t).1.1) = 0). apply IH.
Qed.

(** Whatever the load was, 60 consecutive calls of [LowerLocalFee] bring
    the local fee back to the reference and the node reports no local load. *)
Theorem lower_converges t :
  reachable t -> localFee (lowerN 60 t) = LoadBase /\ IsLoadedLocal (lowerN 60 t) = false.
Proof.
  intros Ht%reachable_inv. pose proof (lowerN_inv 60 t Ht) as [Hl _ _ _].
  assert (H60 : localFee (lowerN 60 t) = LoadBase).
  { rewrite lowerN_local in * by done. destruct Ht as [Hl0 _ _ _].
    pose proof (decay_iter_mono 60 (localFee t) feeMax ltac:(lia)) as Hm.
    assert (Hc : Nat.iter 60 decay feeMax = LoadBase) by (vm_compute; reflexivity). lia. }
  split; [done|]. unfold IsLoadedLocal. by rewrite H60, lowerN_count.
Qed.

(** Raising has hysteresis: right after a decay the first raise changes
    no fee and reports so; the second one takes effect and strictly increases
    the local fee unless it is already at its cap. *)
Theorem raise_hysteresis t :
  reachable t ->
  let t0 := (LowerLocalFee t).1.1 in
  let '(t1, changed1, _) := RaiseLocalFee t0 in
  let '(t2, changed2, _) := RaiseLocalFee t1 in
  localFee t1 = localFee t0 /\ changed1 = false /\
  (localFee t1 < feeMax -> localFee t1 < localFee t2 /\ changed2 = true) /\
  (localFee t1 = feeMax -> localFee t2 = feeMax /\ changed2 = false).
Proof.
  intros Ht%reachable_inv t0.
  assert (H0 : inv t0) by (eapply inv_step; [done|constructor]).
  assert (Hc0 : raiseCount t0 = 0) by done.
  destruct (RaiseLocalFee t0) as [[t1 c1] n1] eqn:E1.
  destruct (RaiseLocalFee t1) as [[t2 c2] n2] eqn:E2.
  unfold RaiseLocalFee in E1. rewrite Hc0 in E1. cbn in E1. injection E1 as <- <- <-.
  set (t1 := mkLoadFeeTrack _ _ _ _ _) in *.
  assert (H1 : inv t1) by (destruct H0; split; cbn; (done || unfold is_uint; lia)).
  pose proof (RaiseLocalFee_local t1 H1) as HL. rewrite E2 in HL. cbn [fst] in HL.
  assert (Hc2 : c2 = negb (localFee t1 =? localFee t2)).
  { unfold RaiseLocalFee in E2. cbn in E2. injection E2 as <- <- <-. done. }
  destruct H1 as [Hl1 _ _ _]. clear E2.
  change (raiseCount t1) with 1 in HL. change (wrap 32 (1 + 1) <? 2) with false in HL.
  cbv zeta iota in HL. change (localFee t1) with (localFee t0) in *.
  unfold feeMax, LoadBase in *. subst c2.
  split; [done|]. split; [done|].
  split; intros; (split; [dmlia|]);
    rewrite ?negb_true_iff, ?negb_false_iff, ?Z.eqb_neq, ?Z.eqb_eq; dmlia.
Qed.

(** ** Instances *)

(** A tracker after two raises. *)
Definition exTrack : LoadFeeTrack := (RaiseLocalFee (RaiseLocalFee New).1.1).1.1.

Lemma exTrack_reachable : reachable exTrack.
Proof.
  eapply rtc_l; [apply step_raise|]. eapply rtc_l; [apply step_raise|]. apply rtc_refl.
Qed.

Lemma ScaleFeeLoad_exact_witness :
  ScaleFeeLoad 10 (Some exTrack) false =
    let scaled := 10 * effectiveFactor exTrack false / LoadBase in
    if (10 <=? max_i64) && (scaled <=? max_i64) then inr scaled else inl ErrOverflow.
Proof.
  apply (ScaleFeeLoad_exact 10 exTrack false exTrack_reachable). cbv; split; [discriminate|reflexivity].
Defined.

Lemma local_fee_bounded_witness :
  LoadBase <= localFee exTrack <= feeMax /\ LoadBase <= LoadFactor exTrack.
Proof. exact (local_fee_bounded exTrack exTrack_reachable). Defined.

Lemma unlimited_pays_no_more_witness :
  exists v', ScaleFeeLoad 10 (Some exTrack) true = inr v' /\ v' <= 12.
Proof.
  apply (unlimited_pays_no_more 10 exTrack 12 exTrack_reachable).
  - cbv; split; [discriminate|reflexivity].
  - vm_compute. reflexivity.
Defined.

Lemma lower_converges_witness :
  localFee (lowerN 60 exTrack) = LoadBase /\ IsLoadedLocal (lowerN 60 exTrack) = false.
Proof. exact (lower_converges exTrack exTrack_reachable). Defined.

Lemma raise_hysteresis_witness :
  let t0 := (LowerLocalFee exTrack).1.1 in
  let '(t1, changed1, _) := RaiseLocalFee t0 in
  let '(t2, changed2, _) := RaiseLocalFee t1 in
  localFee t1 = localFee t0 /\ changed1 = false /\
  (localFee t1 < feeMax -> localFee t1 < localFee t2 /\ changed2 = true) /\
  (localFee t1 = feeMax -> localFee t2 = feeMax /\ changed2 = false).
Proof. exact (raise_hysteresis exTrack exTrack_reachable). Defined.

End FeeTrack.
