(* ===== verification/TxqFee.v ===== *)
(** * Transaction queue: configuration and fee escalation
    (internal/txq/config.go, internal/txq/fee.go)

    Queue configuration and its normalization, fee levels, the metrics kept
    over closed ledgers, and the fee level the open ledger requires. *)

From Stdlib Require Import ZArith Lia.
From stdpp Require Import base list sorting numbers sets gmap.
From S2P Require Import Prelude.

Module TxqFee.

(** ** Fee levels *)

Definition BaseLevel : Z := 256.

(** (a * b) / c in 128 bits, saturating. *)
Definition mulDiv (a b c : Z) : Z :=
  if c =? 0 then max_u64
  else
    let '(hi, lo) := mul64 a b in
    if c <=? hi then max_u64
    else match div64 hi lo c with
         | Some (quo, _) => quo
         | None => 0 (* bits.Div64 would panic; never taken, see [mulDiv_value] *)
         end.

Definition ToFeeLevelWithDefaultBaseFee (drops baseFee defaultBaseFee : Z) : Z :=
  let '(drops, baseFee) :=
    if baseFee =? 0 then
      let modifier := if defaultBaseFee =? 0 then 1 else defaultBaseFee in
      (wrap 64 (drops + modifier), modifier)
    else (drops, baseFee) in
  mulDiv drops BaseLevel baseFee.

Definition ToFeeLevel (drops baseFee : Z) : Z := ToFeeLevelWithDefaultBaseFee drops baseFee 0.

Definition ToDrops (level baseFee : Z) : Z := mulDiv level baseFee BaseLevel.

(** ** Configuration *)

Definition maxLedgersInQueue : Z := 2 ^ 20.

Record Config := mkConfig {
  LedgersInQueue : Z;
  QueueSizeMin : Z;
  RetrySequencePercent : Z;
  MinimumEscalationMultiplier : Z;
  MinimumTxnInLedger : Z;
  MinimumTxnInLedgerStandalone : Z;
  TargetTxnInLedger : Z;
  MaximumTxnInLedger : Z;
  MaximumTxnInLedgerSet : bool;
  NormalConsensusIncreasePercent : Z;
  SlowConsensusDecreasePercent : Z;
  MaximumTxnPerAccount : Z;
  MinimumLastLedgerBuffer : Z;
  Standalone : bool }.

Definition set_Target (c : Config) (v : Z) : Config :=
  mkConfig (LedgersInQueue c) (QueueSizeMin c) (RetrySequencePercent c)
    (MinimumEscalationMultiplier c) (MinimumTxnInLedger c) (MinimumTxnInLedgerStandalone c)
    v (MaximumTxnInLedger c) (MaximumTxnInLedgerSet c)
    (NormalConsensusIncreasePercent c) (SlowConsensusDecreasePercent c)
    (MaximumTxnPerAccount c) (MinimumLastLedgerBuffer c) (Standalone c).

Definition set_Maximum (c : Config) (v : Z) (isSet : bool) : Config :=
  mkConfig (LedgersInQueue c) (QueueSizeMin c) (RetrySequencePercent c)
    (MinimumEscalationMultiplier c) (MinimumTxnInLedger c) (MinimumTxnInLedgerStandalone c)
    (TargetTxnInLedger c) v isSet
    (NormalConsensusIncreasePercent c) (SlowConsensusDecreasePercent c)
    (MaximumTxnPerAccount c) (MinimumLastLedgerBuffer c) (Standalone c).

Definition set_Percents (c : Config) (normal slow : Z) : Config :=
  mkConfig (LedgersInQueue c) (QueueSizeMin c) (RetrySequencePercent c)
    (MinimumEscalationMultiplier c) (MinimumTxnInLedger c) (MinimumTxnInLedgerStandalone c)
    (TargetTxnInLedger c) (MaximumTxnInLedger c) (MaximumTxnInLedgerSet c)
    normal slow
    (MaximumTxnPerAccount c) (MinimumLastLedgerBuffer c) (Standalone c).

Inductive ConfigError :=
  | ErrLedgersInQueueZero
  | ErrLedgersInQueueCap
  | ErrMinimumExceedsMaximum (minimum maximum : Z)
  | ErrStandaloneMinimumExceedsMaximum (minimum maximum : Z).

Definition effectiveMin (c : Config) : Z :=
  if Standalone c then MinimumTxnInLedgerStandalone c else MinimumTxnInLedger c.

Definition normalize (c : Config) : ConfigError + Config :=
  if LedgersInQueue c =? 0 then inl ErrLedgersInQueueZero
  else if maxLedgersInQueue <? LedgersInQueue c then inl ErrLedgersInQueueCap
  else
    let c := if TargetTxnInLedger c <? effectiveMin c then set_Target c (effectiveMin c) else c in
    let c := if negb (MaximumTxnInLedger c =? 0)
             then set_Maximum c (MaximumTxnInLedger c) true else c in
    let? c :=
      (if MaximumTxnInLedgerSet c then
         if MaximumTxnInLedger c <? MinimumTxnInLedger c then
           inl (ErrMinimumExceedsMaximum (MinimumTxnInLedger c) (MaximumTxnInLedger c))
         else if MaximumTxnInLedger c <? MinimumTxnInLedgerStandalone c then
           inl (ErrStandaloneMinimumExceedsMaximum
                  (MinimumTxnInLedgerStandalone c) (MaximumTxnInLedger c))
         else if MaximumTxnInLedger c <? TargetTxnInLedger c then
           inr (set_Maximum c (TargetTxnInLedger c) (MaximumTxnInLedgerSet c))
         else inr c
       else inr c) in
    inr (set_Percents c
           (if 1000 <? NormalConsensusIncreasePercent c
            then 1000 else NormalConsensusIncreasePercent c)
           (if 100 <? SlowConsensusDecreasePercent c
            then 100 else SlowConsensusDecreasePercent c)).

Definition Validate (c : Config) : option ConfigError :=
  match normalize c with
  | inl e => Some e
  | inr _ => None
  end.

Definition DefaultConfig : Config :=
  mkConfig 20 2000 25 (BaseLevel * 500) 32 1000 256 0 false 20 50 10 2 false.

Definition StandaloneConfig : Config :=
  mkConfig 20 2000 25 (BaseLevel * 500) 32 1000 256 0 false 20 50 10 2 true.

(** ** Fee metrics *)

Record feeMetrics := mkFeeMetrics {
  minimumTxnCount : Z;
  targetTxnCount : Z;
  maximumTxnCount : Z;
  hasMaximumTxnCount : bool;
  txnsExpected : Z;
  recentTxnCounts : list Z;
  recentIndex : nat;
  recentSize : nat;
  recentCapacity : nat;
  escalationMultiplier : Z }.

Definition newFeeMetrics (cfg : Config) : feeMetrics :=
  let minTxn := if Standalone cfg then MinimumTxnInLedgerStandalone cfg
                else MinimumTxnInLedger cfg in
  let targetTxn := Z.max (TargetTxnInLedger cfg) minTxn in
  let maxTxn := if negb (MaximumTxnInLedger cfg =? 0) && (MaximumTxnInLedger cfg <? targetTxn)
                then targetTxn else MaximumTxnInLedger cfg in
  let ledgersInQueue := Z.to_nat (LedgersInQueue cfg) in
  mkFeeMetrics minTxn targetTxn maxTxn (MaximumTxnInLedgerSet cfg) minTxn
    (replicate ledgersInQueue 0) 0 0 ledgersInQueue (MinimumEscalationMultiplier cfg).

Record feeMetricsSnapshot := mkSnapshot {
  TxnsExpected : Z;
  EscalationMultiplier : Z }.

Definition snapshot (fm : feeMetrics) : feeMetricsSnapshot :=
  mkSnapshot (txnsExpected fm) (escalationMultiplier fm).

Definition set_expected (fm : feeMetrics) (v : Z) : feeMetrics :=
  mkFeeMetrics (minimumTxnCount fm) (targetTxnCount fm) (maximumTxnCount fm)
    (hasMaximumTxnCount fm) v (recentTxnCounts fm) (recentIndex fm) (recentSize fm)
    (recentCapacity fm) (escalationMultiplier fm).

Definition set_recent (fm : feeMetrics) (counts : list Z) (index size : nat) : feeMetrics :=
  mkFeeMetrics (minimumTxnCount fm) (targetTxnCount fm) (maximumTxnCount fm)
    (hasMaximumTxnCount fm) (txnsExpected fm) counts index size
    (recentCapacity fm) (escalationMultiplier fm).

Definition set_multiplier (fm : feeMetrics) (v : Z) : feeMetrics :=
  mkFeeMetrics (minimumTxnCount fm) (targetTxnCount fm) (maximumTxnCount fm)
    (hasMaximumTxnCount fm) (txnsExpected fm) (recentTxnCounts fm) (recentIndex fm)
    (recentSize fm) (recentCapacity fm) v.

Definition addRecentCount (fm : feeMetrics) (count : Z) : feeMetrics :=
  if (recentCapacity fm =? 0)%nat then fm
  else
    set_recent fm (<[recentIndex fm := count]> (recentTxnCounts fm))
      ((recentIndex fm + 1) mod recentCapacity fm)%nat
      (if (recentSize fm <? recentCapacity fm)%nat then S (recentSize fm) else recentSize fm).

Definition maxRecentCount (fm : feeMetrics) : Z :=
  if (recentSize fm =? 0)%nat then 0
  else foldl (fun m i => if m <? recentTxnCounts fm !!! i then recentTxnCounts fm !!! i else m)
         0 (seq 0 (recentSize fm)).

(** Average of the two middle elements, rounded up. *)
Definition median (sorted : list Z) : Z :=
  let count := length sorted in
  wrap 64 (sorted !!! (count / 2)%nat + sorted !!! ((count - 1) / 2)%nat + 1) / 2.

Definition update (fm : feeMetrics) (feeLevels : list Z) (size : Z) (timeLeap : bool)
    (cfg : Config) : feeMetrics * Z :=
  let sorted := merge_sort Z.le feeLevels in
  let fm :=
    if timeLeap then
      let cutPct := wrap 32 (100 - SlowConsensusDecreasePercent cfg) in
      let upperLimit := Z.max (mulDiv (txnsExpected fm) cutPct 100) (minimumTxnCount fm) in
      let newExpected :=
        Z.min (Z.max (mulDiv size cutPct 100) (minimumTxnCount fm)) upperLimit in
      let fm := set_expected fm newExpected in
      set_recent fm (recentTxnCounts fm) 0 0
    else if (txnsExpected fm <? size) || (targetTxnCount fm <? size) then
      let increased := mulDiv size (wrap 64 (100 + NormalConsensusIncreasePercent cfg)) 100 in
      let fm := addRecentCount fm increased in
      let maxRecent := maxRecentCount fm in
      let next :=
        if txnsExpected fm <=? maxRecent then maxRecent
        else wrap 64 (wrap 64 (txnsExpected fm * 9) + maxRecent) / 10 in
      let next := if hasMaximumTxnCount fm && (maximumTxnCount fm <? next)
                  then maximumTxnCount fm else next in
      set_expected fm next
    else fm in
  let fm :=
    if (length sorted =? 0)%nat then set_multiplier fm (MinimumEscalationMultiplier cfg)
    else set_multiplier fm (Z.max (median sorted) (MinimumEscalationMultiplier cfg)) in
  (fm, size).

(** ** Required fee levels *)

Definition scaleFeeLevel (snap : feeMetricsSnapshot) (txInLedger : Z) : Z :=
  if txInLedger <=? TxnsExpected snap then BaseLevel
  else
    let current := txInLedger in
    let target := TxnsExpected snap in
    mulDiv (EscalationMultiplier snap) (wrap 64 (current * current)) (wrap 64 (target * target)).

Definition sumOfSquares (x : Z) : Z * bool :=
  if 2 ^ 21 <=? x then (max_u64, false)
  else (wrap 64 (wrap 64 (x * wrap 64 (x + 1)) * wrap 64 (wrap 64 (2 * x) + 1)) / 6, true).

Definition escalatedSeriesFeeLevel (snap : feeMetricsSnapshot)
    (txInLedger extraCount seriesSize : Z) : Z * bool :=
  let current := wrap 64 (txInLedger + extraCount) in
  let last := wrap 64 (wrap 64 (current + seriesSize) - 1) in
  let target := TxnsExpected snap in
  let '(sumLast, ok1) := sumOfSquares last in
  let '(sumCurrent, ok2) := sumOfSquares (wrap 64 (current - 1)) in
  if negb ok1 || negb ok2 then (max_u64, false)
  else
    let diff := wrap 64 (sumLast - sumCurrent) in
    (mulDiv (EscalationMultiplier snap) diff (wrap 64 (target * target)), true).

(** ** Saturating division *)

Lemma mulDiv_value a b c :
  0 <= c -> mulDiv a b c = if c =? 0 then max_u64 else Z.min max_u64 (a * b / c).
Proof.
  intros Hc. unfold mulDiv. destruct (Z.eqb_spec c 0); [done|].
  pose proof (mul64_hi_lt a b c ltac:(lia)) as Hlt.
  pose proof (div64_mul64 a b c ltac:(lia)) as Hd.
  destruct (mul64 a b) as [hi lo]. cbn [fst snd] in *.
  unfold max_u64. destruct (Z.leb_spec c hi); [lia|]. rewrite Hd by done. lia.
Qed.

Lemma mulDiv_pos a b c : 0 < c -> mulDiv a b c = Z.min max_u64 (a * b / c).
Proof. intros. rewrite mulDiv_value by lia. by destruct (Z.eqb_spec c 0); [lia|]. Qed.

Lemma mulDiv_range a b c : 0 <= a -> 0 <= b -> 0 <= c -> is_uint 64 (mulDiv a b c).
Proof.
  intros. rewrite mulDiv_value by done. unfold is_uint, max_u64.
  go_case; [lia|]. assert (0 <= a * b / c) by (apply Z.div_pos; nia). lia.
Qed.

Lemma mulDiv_mono_l a a' b c :
  0 <= b -> 0 <= c -> a <= a' -> mulDiv a b c <= mulDiv a' b c.
Proof.
  intros. rewrite !mulDiv_value by done. go_case; [done|].
  assert (a * b / c <= a' * b / c) by (apply Z.div_le_mono; nia). lia.
Qed.

Lemma mulDiv_mono_r a b b' c :
  0 <= a -> 0 <= c -> b <= b' -> mulDiv a b c <= mulDiv a b' c.
Proof.
  intros. rewrite !mulDiv_value by done. go_case; [done|].
  assert (a * b / c <= a * b' / c) by (apply Z.div_le_mono; nia). lia.
Qed.

(** Converting drops to a fee level and back never asks for more than was
    paid, and loses less than one unit of the fee level's worth of drops,
    unless the level saturated. *)
Theorem fee_level_roundtrip drops baseFee :
  is_uint 64 drops -> is_uint 64 baseFee -> 0 < baseFee ->
  ToDrops (ToFeeLevel drops baseFee) baseFee <= drops /\
  (drops * BaseLevel / baseFee <= max_u64 ->
   drops - (baseFee / BaseLevel + 1) <= ToDrops (ToFeeLevel drops baseFee) baseFee).
Proof.
  intros [Hd0 Hd] [Hb0 Hb] Hpos.
  unfold ToDrops, ToFeeLevel, ToFeeLevelWithDefaultBaseFee.
  destruct (Z.eqb_spec baseFee 0); [lia|].
  rewrite !mulDiv_pos by (unfold BaseLevel; lia). unfold BaseLevel, max_u64 in *.
  set (q := drops * 256 / baseFee).
  assert (Hq : baseFee * q <= drops * 256 < baseFee * q + baseFee).
  { pose proof (Z.mul_div_le (drops * 256) baseFee Hpos).
    pose proof (Z.mul_succ_div_gt (drops * 256) baseFee Hpos). subst q. lia. }
  assert (0 <= q) by (apply Z.div_pos; lia).
  split.
  - assert (Z.min (2 ^ 64 - 1) q * baseFee / 256 <= drops); [|lia].
    apply Z.div_le_upper_bound; [lia|]. nia.
  - intros Hsat. rewrite (Z.min_r _ q) by lia.
    assert (drops - (baseFee / 256 + 1) <= q * baseFee / 256).
    { apply Z.div_le_lower_bound; [lia|].
      pose proof (Z.mul_succ_div_gt baseFee 256 ltac:(lia)). nia. }
    assert (q * baseFee / 256 <= drops) by (apply Z.div_le_upper_bound; lia). lia.
Qed.

(** ** Required fee level of the open ledger *)

(** The required level is computed without wrap-around: it is the base
    level while the ledger holds no more than the expected count, and beyond
    that multiplier * n^2 / expected^2 rounded down and saturated. *)
Theorem scaleFeeLevel_exact snap n :
  is_uint 32 n -> is_uint 64 (TxnsExpected snap) ->
  scaleFeeLevel snap n =
    if n <=? TxnsExpected snap then BaseLevel
    else if TxnsExpected snap =? 0 then max_u64
    else Z.min max_u64
           (EscalationMultiplier snap * (n * n) / (TxnsExpected snap * TxnsExpected snap)).
Proof.
  intros [Hn0 Hn] [He0 He]. unfold scaleFeeLevel. go_case; [done|].
  rewrite !wrap_small by (unfold is_uint; nia).
  rewrite mulDiv_value by nia.
  destruct (Z.eqb_spec (TxnsExpected snap) 0) as [->|]; [done|].
  by destruct (Z.eqb_spec (TxnsExpected snap * TxnsExpected snap) 0); [nia|].
Qed.

Lemma scaleFeeLevel_escalated snap n :
  is_uint 32 n -> is_uint 64 (TxnsExpected snap) -> is_uint 64 (EscalationMultiplier snap) ->
  TxnsExpected snap < n -> EscalationMultiplier snap <= scaleFeeLevel snap n.
Proof.
  intros [Hn0 Hn] [He0 He] [Hm0 Hm] Hlt. unfold scaleFeeLevel.
  destruct (Z.leb_spec n (TxnsExpected snap)); [lia|].
  rewrite !wrap_small by (unfold is_uint; nia). rewrite mulDiv_value by nia.
  unfold max_u64. go_case; [lia|].
  assert (EscalationMultiplier snap <=
    EscalationMultiplier snap * (n * n) / (TxnsExpected snap * TxnsExpected snap)); [|lia].
  assert (TxnsExpected snap * TxnsExpected snap <= n * n) by nia.
  apply Z.div_le_lower_bound; nia.
Qed.

(** The required level never falls as transactions enter the open ledger. *)
Theorem scaleFeeLevel_mono snap n n' :
  is_uint 32 n' -> is_uint 64 (TxnsExpected snap) -> is_uint 64 (EscalationMultiplier snap) ->
  BaseLevel <= EscalationMultiplier snap -> 0 <= n <= n' ->
  scaleFeeLevel snap n <= scaleFeeLevel snap n'.
Proof.
  intros Hn' He Hm Hbase Hle. pose proof Hn' as [H0 H1].
  destruct (Z.lt_ge_cases (TxnsExpected snap) n) as [Hn|Hn].
  - unfold scaleFeeLevel. go_cases; try lia. destruct He, Hm.
    rewrite !(wrap_small 64 (_ * _)) by (unfold is_uint; nia).
    apply mulDiv_mono_r; nia.
  - destruct (Z.lt_ge_cases (TxnsExpected snap) n') as [Hn2|Hn2].
    + pose proof (scaleFeeLevel_escalated snap n' Hn' He Hm Hn2).
      unfold scaleFeeLevel at 1. go_case; lia.
    + unfold scaleFeeLevel. go_cases; lia.
Qed.

(** ** Fee level of a series *)

(** Reference definition: the squares of n consecutive integers from [first]. *)
Fixpoint sumSquaresFrom (first : Z) (n : nat) : Z :=
  match n with
  | O => 0
  | S n => first * first + sumSquaresFrom (first + 1) n
  end.

Lemma sumSquares_closed first n :
  6 * sumSquaresFrom first n =
    (first + Z.of_nat n - 1) * (first + Z.of_nat n) * (2 * (first + Z.of_nat n - 1) + 1)
    - (first - 1) * first * (2 * (first - 1) + 1).
Proof.
  revert first. induction n as [|n IH]; intros first; cbn [sumSquaresFrom].
  - rewrite Z.add_0_r. ring.
  - rewrite Z.mul_add_distr_l, IH, Nat2Z.inj_succ. ring.
Qed.

(** x (x+1) (2x+1) is divisible by six: it is six times a sum of squares. *)
Lemma sum_formula x : 0 <= x -> 6 * sumSquaresFrom 1 (Z.to_nat x) = x * (x + 1) * (2 * x + 1).
Proof. intros. rewrite sumSquares_closed, Z2Nat.id by done. ring. Qed.

Lemma sum_formula_bound x : 0 <= x < 2 ^ 21 -> 0 <= x * (x + 1) * (2 * x + 1) < 2 ^ 64.
Proof.
  intros Hx. assert (0 <= x * (x + 1) <= 2 ^ 21 * (2 ^ 21 - 1)) by nia. nia.
Qed.

Lemma sumOfSquares_value x :
  0 <= x < 2 ^ 21 -> sumOfSquares x = (sumSquaresFrom 1 (Z.to_nat x), true).
Proof.
  intros Hx. unfold sumOfSquares. destruct (Z.leb_spec (2 ^ 21) x); [lia|].
  pose proof (sum_formula_bound x Hx).
  rewrite (wrap_small 64 (x + 1)), (wrap_small 64 (2 * x)), (wrap_small 64 (2 * x + 1)),
    (wrap_small 64 (x * (x + 1))) by (unfold is_uint; nia).
  rewrite wrap_small by done.
  by rewrite <- sum_formula, Z.mul_comm, Z.div_mul by lia.
Qed.

Lemma sumSquaresFrom_split a b n :
  sumSquaresFrom a (b + n) = sumSquaresFrom a b + sumSquaresFrom (a + Z.of_nat b) n.
Proof.
  revert a. induction b as [|b IH]; intros a; cbn [Nat.add sumSquaresFrom Z.of_nat].
  - by rewrite Z.add_0_r.
  - rewrite IH. replace (a + 1 + Z.of_nat b) with (a + Z.of_nat (S b)) by lia. lia.
Qed.

Lemma sumSquaresFrom_nonneg a n : 0 <= sumSquaresFrom a n.
Proof. revert a. induction n; intros; cbn [sumSquaresFrom]; [lia|]. specialize (IHn (a + 1)). nia. Qed.

(** The fee level that clears a series of queued transactions is the
    multiplier times the sum of the squares of the positions txInLedger to
    txInLedger + series - 1, divided by the squared target, with no overflow
    up to position 2^21; beyond it the computation reports failure. *)
Theorem escalatedSeries_exact snap n k :
  is_uint 32 (TxnsExpected snap) -> 0 < TxnsExpected snap ->
  0 < n -> 0 < k -> is_uint 32 n -> is_uint 32 k ->
  escalatedSeriesFeeLevel snap n 0 k =
    if n + k - 1 <? 2 ^ 21 then
      (Z.min max_u64 (EscalationMultiplier snap * sumSquaresFrom n (Z.to_nat k)
                      / (TxnsExpected snap * TxnsExpected snap)), true)
    else (max_u64, false).
Proof.
  intros [He0 He] Hpos Hn Hk [_ Hn1] [_ Hk1]. unfold escalatedSeriesFeeLevel.
  rewrite Z.add_0_r, !(wrap_small 64 n), (wrap_small 64 (n + k)) by (unfold is_uint; lia).
  rewrite (wrap_small 64 (n + k - 1)), (wrap_small 64 (n - 1)) by (unfold is_uint; lia).
  destruct (Z.ltb_spec (n + k - 1) (2 ^ 21)).
  - rewrite !sumOfSquares_value by lia. cbn [negb orb].
    assert (Hsplit : sumSquaresFrom 1 (Z.to_nat (n + k - 1)) =
              sumSquaresFrom 1 (Z.to_nat (n - 1)) + sumSquaresFrom n (Z.to_nat k)).
    { replace (Z.to_nat (n + k - 1)) with (Z.to_nat (n - 1) + Z.to_nat k)%nat by lia.
      rewrite sumSquaresFrom_split. do 2 f_equal. lia. }
    pose proof (sum_formula (n + k - 1) ltac:(lia)).
    pose proof (sum_formula_bound (n + k - 1) ltac:(lia)).
    pose proof (sumSquaresFrom_nonneg n (Z.to_nat k)).
    pose proof (sumSquaresFrom_nonneg 1 (Z.to_nat (n - 1))).
    replace (sumSquaresFrom 1 _ - _) with (sumSquaresFrom n (Z.to_nat k)) by lia.
    rewrite (wrap_small 64 (sumSquaresFrom _ _)) by (unfold is_uint; lia).
    rewrite wrap_small by (unfold is_uint; nia). rewrite mulDiv_pos by nia. done.
  - assert (sumOfSquares (n + k - 1) = (max_u64, false)) as ->.
    { unfold sumOfSquares. by destruct (Z.leb_spec (2 ^ 21) (n + k - 1)); [|lia]. }
    by destruct (sumOfSquares (n - 1)).
Qed.

(** ** Normalized configurations *)

(** The ranges of the Go field types. *)
Definition config_typed (c : Config) : Prop :=
  Forall (is_uint 32) [LedgersInQueue c; QueueSizeMin c; RetrySequencePercent c;
    MinimumTxnInLedger c; MinimumTxnInLedgerStandalone c; TargetTxnInLedger c;
    MaximumTxnInLedger c; NormalConsensusIncreasePercent c; SlowConsensusDecreasePercent c;
    MaximumTxnPerAccount c; MinimumLastLedgerBuffer c] /\
  is_uint 64 (MinimumEscalationMultiplier c).

(** What the rest of the queue relies on. *)
Record config_ok (c : Config) : Prop := {
  ok_typed : config_typed c;
  ok_ledgers : 1 <= LedgersInQueue c <= maxLedgersInQueue;
  ok_target : effectiveMin c <= TargetTxnInLedger c;
  ok_set : MaximumTxnInLedger c <> 0 -> MaximumTxnInLedgerSet c = true;
  ok_max : MaximumTxnInLedgerSet c = true ->
    MinimumTxnInLedger c <= MaximumTxnInLedger c /\
    MinimumTxnInLedgerStandalone c <= MaximumTxnInLedger c /\
    TargetTxnInLedger c <= MaximumTxnInLedger c;
  ok_normal : NormalConsensusIncreasePercent c <= 1000;
  ok_slow : SlowConsensusDecreasePercent c <= 100 }.

Ltac forall_intro := repeat (apply List.Forall_cons; [done|]); apply List.Forall_nil.

Lemma typed_set_Target c v : config_typed c -> is_uint 32 v -> config_typed (set_Target c v).
Proof. intros [H ?] ?. split; [|done]. decompose_Forall_hyps. cbn. forall_intro. Qed.

Lemma typed_set_Maximum c v b : config_typed c -> is_uint 32 v -> config_typed (set_Maximum c v b).
Proof. intros [H ?] ?. split; [|done]. decompose_Forall_hyps. cbn. forall_intro. Qed.

Lemma typed_set_Percents c n s :
  config_typed c -> is_uint 32 n -> is_uint 32 s -> config_typed (set_Percents c n s).
Proof. intros [H ?] ??. split; [|done]. decompose_Forall_hyps. cbn. forall_intro. Qed.

Lemma typed_fields c :
  config_typed c ->
  is_uint 32 (effectiveMin c) /\ is_uint 32 (TargetTxnInLedger c) /\
  is_uint 32 (MaximumTxnInLedger c) /\ is_uint 32 (NormalConsensusIncreasePercent c) /\
  is_uint 32 (SlowConsensusDecreasePercent c).
Proof. intros [H ?]. decompose_Forall_hyps. unfold effectiveMin. by destruct (Standalone c). Qed.

#[local] Hint Resolve typed_set_Target typed_set_Maximum typed_set_Percents : go.

(** The three stages of [normalize] that rewrite the configuration. *)
Definition stageTarget (c : Config) : Config :=
  if TargetTxnInLedger c <? effectiveMin c then set_Target c (effectiveMin c) else c.

Definition stageSet (c : Config) : Config :=
  if negb (MaximumTxnInLedger c =? 0) then set_Maximum c (MaximumTxnInLedger c) true else c.

Definition stagePercents (c : Config) : Config :=
  set_Percents c
    (if 1000 <? NormalConsensusIncreasePercent c then 1000 else NormalConsensusIncreasePercent c)
    (if 100 <? SlowConsensusDecreasePercent c then 100 else SlowConsensusDecreasePercent c).

Lemma stageTarget_ok c :
  config_typed c ->
  config_typed (stageTarget c) /\ LedgersInQueue (stageTarget c) = LedgersInQueue c /\
  effectiveMin (stageTarget c) <= TargetTxnInLedger (stageTarget c).
Proof.
  intros Ht. pose proof (typed_fields c Ht) as (? & _).
  unfold stageTarget. go_case; [|done]. split; [auto with go|]. split; [done|].
  change (effectiveMin c <= effectiveMin c). lia.
Qed.

Lemma stageSet_ok c :
  config_typed c -> effectiveMin c <= TargetTxnInLedger c ->
  config_typed (stageSet c) /\ LedgersInQueue (stageSet c) = LedgersInQueue c /\
  effectiveMin (stageSet c) <= TargetTxnInLedger (stageSet c) /\
  (MaximumTxnInLedger (stageSet c) <> 0 -> MaximumTxnInLedgerSet (stageSet c) = true).
Proof.
  intros Ht ?. pose proof (typed_fields c Ht) as (_ & _ & ? & _).
  unfold stageSet. go_case; [|done]. split_and!; auto with go.
Qed.

Lemma normalize_ok c c' : config_typed c -> normalize c = inr c' -> config_ok c'.
Proof.
  intros Ht HN. unfold normalize in HN.
  destruct (Z.eqb_spec (LedgersInQueue c) 0) as [|Hz]; [done|].
  destruct (Z.ltb_spec maxLedgersInQueue (LedgersInQueue c)) as [|Hl]; [done|].
  fold (stageTarget c) in HN. pose proof (stageTarget_ok c Ht) as (Ht1 & E1 & H1).
  fold (stageSet (stageTarget c)) in HN.
  pose proof (stageSet_ok _ Ht1 H1) as (Ht2 & E2 & H2 & H3).
  assert (Hlq : 0 <= LedgersInQueue c) by (destruct Ht as [H ?]; decompose_Forall_hyps; by destruct H).
  rewrite E1 in E2. clear Ht Ht1 E1 H1. set (c2 := stageSet (stageTarget c)) in *. clearbody c2.
  pose proof (typed_fields c2 Ht2) as (_ & ? & ? & ? & ?).
  assert (Hfin : exists c3, c' = stagePercents c3 /\ config_typed c3 /\
     LedgersInQueue c3 = LedgersInQueue c2 /\ effectiveMin c3 <= TargetTxnInLedger c3 /\
     (MaximumTxnInLedger c3 <> 0 -> MaximumTxnInLedgerSet c3 = true) /\
     (MaximumTxnInLedgerSet c3 = true -> MinimumTxnInLedger c3 <= MaximumTxnInLedger c3 /\
        MinimumTxnInLedgerStandalone c3 <= MaximumTxnInLedger c3 /\
        TargetTxnInLedger c3 <= MaximumTxnInLedger c3)).
  { destruct (MaximumTxnInLedgerSet c2) eqn:Es.
    - destruct (Z.ltb_spec (MaximumTxnInLedger c2) (MinimumTxnInLedger c2)); [done|].
      destruct (Z.ltb_spec (MaximumTxnInLedger c2) (MinimumTxnInLedgerStandalone c2)); [done|].
      destruct (Z.ltb_spec (MaximumTxnInLedger c2) (TargetTxnInLedger c2)).
      + injection HN as <-. exists (set_Maximum c2 (TargetTxnInLedger c2) true).
        split; [reflexivity|]. split_and!; auto with go. intros _. cbn. lia.
      + injection HN as <-. exists c2. split_and!; auto.
    - injection HN as <-. exists c2. split_and!; auto; try congruence.
      intros Hne. discriminate (H3 Hne). }
  destruct Hfin as (c3 & -> & Ht3 & El & ? & ? & ?).
  pose proof (typed_fields c3 Ht3) as (_ & _ & _ & Hn3 & Hs3). unfold is_uint in *.
  unfold stagePercents. split; cbn; auto; try lia; try (go_case; lia).
  apply typed_set_Percents; [done| |]; unfold is_uint; go_case; lia.
Qed.

Lemma stagePercents_fixed c :
  NormalConsensusIncreasePercent c <= 1000 -> SlowConsensusDecreasePercent c <= 100 ->
  stagePercents c = c.
Proof. intros. unfold stagePercents. go_cases; try lia. by destruct c. Qed.

Lemma normalize_fixed c : config_ok c -> normalize c = inr c.
Proof.
  intros [_ Hl Htg Hset Hmx Hnc Hsc]. unfold normalize.
  destruct (Z.eqb_spec (LedgersInQueue c) 0); [lia|].
  destruct (Z.ltb_spec maxLedgersInQueue (LedgersInQueue c)); [lia|].
  destruct (Z.ltb_spec (TargetTxnInLedger c) (effectiveMin c)); [lia|].
  assert (Hst : stageSet c = c).
  { unfold stageSet. destruct (Z.eqb_spec (MaximumTxnInLedger c) 0) as [|Hne]; [done|]. cbn.
    rewrite <- (Hset Hne). by destruct c. }
  unfold stageSet in Hst. rewrite Hst. cbv zeta.
  pose proof (stagePercents_fixed c Hnc Hsc) as Hp. unfold stagePercents in Hp.
  destruct (MaximumTxnInLedgerSet c) eqn:Es; [|by rewrite Hp].
  destruct (Hmx eq_refl) as (? & ? & ?). go_cases; try lia; by rewrite Hp.
Qed.

(** Normalization is idempotent: the configuration a queue runs with is
    accepted unchanged when it is normalized again. *)
Theorem normalize_idempotent c c' :
  config_typed c -> normalize c = inr c' -> normalize c' = inr c'.
Proof. eauto using normalize_fixed, normalize_ok. Qed.

(** ** The recent-count buffer is a sliding window *)

(** Maximum of a list of counts, zero when it is empty. *)
Definition maxZ (l : list Z) : Z := foldr Z.max 0 l.

Lemma maxZ_ge l x : x ∈ l -> x <= maxZ l.
Proof.
  unfold maxZ. induction l as [|y l IH]; intros H; [by apply not_elem_of_nil in H|]. cbn.
  apply elem_of_cons in H as [->|H]; [lia|]. specialize (IH H). lia.
Qed.

Lemma maxZ_elem l : maxZ l = 0 \/ maxZ l ∈ l.
Proof.
  induction l as [|y l IH]; [by left|]. change (maxZ (y :: l)) with (Z.max y (maxZ l)).
  destruct (Z.max_spec y (maxZ l)) as [[_ ->]|[_ ->]]; [|right; set_solver].
  destruct IH; [by left|right; set_solver].
Qed.

Lemma maxZ_nonneg l : 0 <= maxZ l.
Proof. unfold maxZ. induction l; cbn; lia. Qed.

Lemma maxZ_ext l l' : (forall x, x ∈ l <-> x ∈ l') -> maxZ l = maxZ l'.
Proof.
  intros H. apply Z.le_antisymm.
  - destruct (maxZ_elem l) as [->|He]; [apply maxZ_nonneg|]. apply maxZ_ge. by apply H.
  - destruct (maxZ_elem l') as [->|He]; [apply maxZ_nonneg|]. apply maxZ_ge. by apply H.
Qed.

Lemma foldl_max (f : nat -> Z) l m :
  0 <= m ->
  foldl (fun m i => if m <? f i then f i else m) m l = Z.max m (maxZ (f <$> l)).
Proof.
  revert m. induction l as [|i l IH]; intros m Hm; cbn [foldl fmap list_fmap maxZ foldr]; [lia|].
  change (foldr Z.max 0 (f <$> l)) with (maxZ (f <$> l)).
  rewrite IH; destruct (Z.ltb_spec m (f i)); lia.
Qed.

Lemma fmap_Some_1 {A B} (f : A -> B) x : f <$> Some x = Some (f x).
Proof. done. Qed.

(** The buffer's shape: indices in range and, until it has wrapped once, the
    write position is the number of entries. *)
Record buffer_ok (fm : feeMetrics) : Prop := {
  buf_cap : (0 < recentCapacity fm)%nat;
  buf_len : length (recentTxnCounts fm) = recentCapacity fm;
  buf_index : (recentIndex fm < recentCapacity fm)%nat;
  buf_size : (recentSize fm <= recentCapacity fm)%nat;
  buf_fill : (recentSize fm < recentCapacity fm)%nat -> recentIndex fm = recentSize fm }.

(** Position of the j-th most recent entry. *)
Definition slot (fm : feeMetrics) (j : nat) : nat :=
  ((recentIndex fm + (recentCapacity fm - 1 - j)) mod recentCapacity fm)%nat.

(** The entries, most recent first. *)
Definition window (fm : feeMetrics) : list Z :=
  (fun j => recentTxnCounts fm !!! slot fm j) <$> seq 0 (recentSize fm).

Lemma maxRecentCount_value fm :
  maxRecentCount fm = maxZ ((fun i => recentTxnCounts fm !!! i) <$> seq 0 (recentSize fm)).
Proof.
  unfold maxRecentCount. destruct (Nat.eqb_spec (recentSize fm) 0) as [->|]; [done|].
  rewrite foldl_max by lia.
  pose proof (maxZ_nonneg ((fun i => recentTxnCounts fm !!! i) <$> seq 0 (recentSize fm))). lia.
Qed.

(** The slots of the window are the first [recentSize] cells of the buffer. *)
Lemma slot_lt fm j : buffer_ok fm -> (j < recentSize fm)%nat -> (slot fm j < recentSize fm)%nat.
Proof.
  intros [Hc _ Hi Hs Hf] Hj. unfold slot.
  destruct (decide (recentSize fm < recentCapacity fm)%nat) as [Hlt|Hge].
  - rewrite Hf by done.
    replace (recentSize fm + (recentCapacity fm - 1 - j))%nat
      with ((recentSize fm - 1 - j) + 1 * recentCapacity fm)%nat by lia.
    rewrite Nat.Div0.mod_add, Nat.mod_small by lia. lia.
  - replace (recentSize fm) with (recentCapacity fm) by lia. apply Nat.mod_upper_bound. lia.
Qed.

Lemma slot_surj fm i :
  buffer_ok fm -> (i < recentSize fm)%nat -> exists j, (j < recentSize fm)%nat /\ slot fm j = i.
Proof.
  intros [Hc _ Hi Hs Hf] Hlt. unfold slot.
  destruct (decide (recentSize fm < recentCapacity fm)%nat) as [Hp|Hge].
  - rewrite Hf by done. exists (recentSize fm - 1 - i)%nat. split; [lia|].
    replace (recentSize fm + (recentCapacity fm - 1 - (recentSize fm - 1 - i)))%nat
      with (i + 1 * recentCapacity fm)%nat by lia.
    rewrite Nat.Div0.mod_add, Nat.mod_small by lia. done.
  - assert (recentSize fm = recentCapacity fm) as -> by lia.
    destruct (decide (i < recentIndex fm)%nat).
    + exists (recentIndex fm - 1 - i)%nat. split; [lia|].
      replace (recentIndex fm + (recentCapacity fm - 1 - (recentIndex fm - 1 - i)))%nat
        with (i + 1 * recentCapacity fm)%nat by lia.
      rewrite Nat.Div0.mod_add, Nat.mod_small by lia. done.
    + exists (recentIndex fm + recentCapacity fm - 1 - i)%nat. split; [lia|].
      replace (recentIndex fm + (recentCapacity fm - 1 - (recentIndex fm + recentCapacity fm - 1 - i)))%nat
        with i by lia.
      apply Nat.mod_small. lia.
Qed.

Lemma maxRecentCount_window fm : buffer_ok fm -> maxRecentCount fm = maxZ (window fm).
Proof.
  intros Hb. rewrite maxRecentCount_value. apply maxZ_ext. intros x.
  unfold window. rewrite !list_elem_of_fmap. split.
  - intros (i & -> & [_ Hi]%elem_of_seq). destruct (slot_surj fm i Hb) as (j & ? & <-); [lia|].
    exists j. split; [done|]. apply elem_of_seq. lia.
  - intros (j & -> & [_ Hj]%elem_of_seq). exists (slot fm j). split; [done|].
    apply elem_of_seq. pose proof (slot_lt fm j Hb). lia.
Qed.

Lemma addRecentCount_ok fm c : buffer_ok fm -> buffer_ok (addRecentCount fm c).
Proof.
  intros [Hc Hl Hi Hs Hf]. unfold addRecentCount.
  destruct (Nat.eqb_spec (recentCapacity fm) 0); [lia|].
  assert ((recentIndex fm + 1) mod recentCapacity fm < recentCapacity fm)%nat
    by (apply Nat.mod_upper_bound; lia).
  destruct (Nat.ltb_spec (recentSize fm) (recentCapacity fm)); unfold set_recent;
    split; cbn [recentCapacity recentTxnCounts recentIndex recentSize];
    rewrite ?length_insert; try done; try lia.
  intros ?. rewrite Hf, Nat.mod_small by lia. lia.
Qed.

Lemma slot_add fm c j :
  buffer_ok fm -> (S j < recentCapacity fm)%nat ->
  slot (addRecentCount fm c) (S j) = slot fm j /\ slot fm j <> recentIndex fm.
Proof.
  intros [Hc Hl Hi Hs Hf] Hj. unfold slot, addRecentCount.
  destruct (Nat.eqb_spec (recentCapacity fm) 0); [lia|]. cbn.
  set (cap := recentCapacity fm) in *. set (ix := recentIndex fm) in *.
  split.
  - rewrite Nat.Div0.add_mod_idemp_l.
    replace (ix + 1 + (cap - 1 - S j))%nat with (ix + (cap - 1 - j))%nat by lia. done.
  - intros Heq. destruct (decide (ix + (cap - 1 - j) < cap)%nat).
    + rewrite Nat.mod_small in Heq by lia. lia.
    + replace (ix + (cap - 1 - j))%nat with ((ix - 1 - j) + 1 * cap)%nat in Heq by lia.
      rewrite Nat.Div0.mod_add, Nat.mod_small in Heq by lia. lia.
Qed.

Lemma slot_add_0 fm c : buffer_ok fm -> slot (addRecentCount fm c) 0 = recentIndex fm.
Proof.
  intros [Hc Hl Hi Hs Hf]. unfold slot, addRecentCount.
  destruct (Nat.eqb_spec (recentCapacity fm) 0); [lia|]. cbn.
  rewrite Nat.Div0.add_mod_idemp_l.
  replace (recentIndex fm + 1 + (recentCapacity fm - 1 - 0))%nat
    with (recentIndex fm + 1 * recentCapacity fm)%nat by lia.
  rewrite Nat.Div0.mod_add, Nat.mod_small by lia. done.
Qed.

Lemma window_add fm c :
  buffer_ok fm -> window (addRecentCount fm c) = take (recentCapacity fm) (c :: window fm).
Proof.
  intros Hb. pose proof Hb as [Hc Hl Hi Hs Hf].
  assert (Hsz : recentSize (addRecentCount fm c) = Nat.min (recentCapacity fm) (S (recentSize fm))).
  { unfold addRecentCount. destruct (Nat.eqb_spec (recentCapacity fm) 0); [lia|]. cbn [recentSize set_recent].
    destruct (Nat.ltb_spec (recentSize fm) (recentCapacity fm)); lia. }
  apply list_eq. intros j. unfold window at 1. rewrite Hsz, list_lookup_fmap.
  destruct (decide (j < Nat.min (recentCapacity fm) (S (recentSize fm)))%nat) as [Hj|Hj].
  - rewrite lookup_seq_lt, lookup_take_lt by lia. rewrite fmap_Some_1. destruct j as [|j].
    + change ((c :: window fm) !! 0%nat) with (Some c). f_equal.
      change (0 + 0)%nat with 0%nat. rewrite slot_add_0 by done. unfold addRecentCount.
      destruct (Nat.eqb_spec (recentCapacity fm) 0); [lia|].
      cbn [recentTxnCounts set_recent]. by rewrite list_lookup_total_insert_eq by lia.
    + change ((c :: window fm) !! S j) with (window fm !! j).
      change (0 + S j)%nat with (S j). destruct (slot_add fm c j Hb ltac:(lia)) as [-> Hne].
      unfold window. rewrite list_lookup_fmap, lookup_seq_lt, fmap_Some_1 by lia. f_equal.
      unfold addRecentCount. destruct (Nat.eqb_spec (recentCapacity fm) 0); [lia|].
      cbn [recentTxnCounts set_recent]. by rewrite list_lookup_total_insert_ne by done.
  - rewrite lookup_seq_ge by lia. symmetry. apply lookup_ge_None.
    rewrite length_take. cbn. unfold window. rewrite length_fmap, length_seq. lia.
Qed.

(** The circular buffer refines a sliding window: recording a count puts
    it in front of the window and drops the entry that falls out of the last
    [recentCapacity] ledgers, and [maxRecentCount] is the window's maximum. *)
Theorem recent_counts_window fm c :
  buffer_ok fm ->
  window (addRecentCount fm c) = take (recentCapacity fm) (c :: window fm) /\
  maxRecentCount (addRecentCount fm c) = maxZ (take (recentCapacity fm) (c :: window fm)).
Proof.
  intros Hb. rewrite <- window_add by done. split; [done|].
  by apply maxRecentCount_window, addRecentCount_ok.
Qed.

(** ** Metrics invariant *)

(** Counts of at most 2^32 transactions, increased by at most 1000 percent. *)
Definition countBound : Z := 11 * 2 ^ 32.

Record metrics_ok (cfg : Config) (fm : feeMetrics) : Prop := {
  mo_min : minimumTxnCount fm = effectiveMin cfg;
  mo_target : targetTxnCount fm = TargetTxnInLedger cfg;
  mo_max : hasMaximumTxnCount fm = true -> maximumTxnCount fm = MaximumTxnInLedger cfg;
  mo_has : hasMaximumTxnCount fm = MaximumTxnInLedgerSet cfg;
  mo_buffer : buffer_ok fm;
  mo_entries : Forall (fun e => 0 <= e <= countBound) (recentTxnCounts fm);
  mo_expected : minimumTxnCount fm <= txnsExpected fm <= countBound;
  mo_capped : hasMaximumTxnCount fm = true -> txnsExpected fm <= maximumTxnCount fm;
  mo_multiplier : MinimumEscalationMultiplier cfg <= escalationMultiplier fm < 2 ^ 64 }.

Lemma config_ok_fields cfg :
  config_ok cfg ->
  is_uint 32 (effectiveMin cfg) /\ is_uint 32 (TargetTxnInLedger cfg) /\
  is_uint 32 (MaximumTxnInLedger cfg) /\ is_uint 64 (MinimumEscalationMultiplier cfg) /\
  0 <= NormalConsensusIncreasePercent cfg <= 1000 /\
  0 <= SlowConsensusDecreasePercent cfg <= 100.
Proof.
  intros [Ht _ _ _ _ Hn Hs]. pose proof (typed_fields cfg Ht) as (? & ? & ? & [? _] & [? _]).
  destruct Ht as [_ ?]. done.
Qed.

Lemma newFeeMetrics_ok cfg : config_ok cfg -> metrics_ok cfg (newFeeMetrics cfg).
Proof.
  intros Hc. pose proof (config_ok_fields cfg Hc) as ([? ?] & [? ?] & _ & [? ?] & _).
  destruct Hc as [Ht Hl Htg Hset Hmx _ _].
  assert (Htarget : Z.max (TargetTxnInLedger cfg) (effectiveMin cfg) = TargetTxnInLedger cfg) by lia.
  assert (Hn : (0 < Z.to_nat (LedgersInQueue cfg))%nat) by lia.
  unfold newFeeMetrics. fold (effectiveMin cfg). rewrite Htarget.
  assert (Hmax : (if negb (MaximumTxnInLedger cfg =? 0) &&
                     (MaximumTxnInLedger cfg <? TargetTxnInLedger cfg)
                  then TargetTxnInLedger cfg else MaximumTxnInLedger cfg) = MaximumTxnInLedger cfg).
  { destruct (Z.eqb_spec (MaximumTxnInLedger cfg) 0) as [|Hne]; [done|]. cbn.
    destruct (Hmx (Hset Hne)) as (_ & _ & ?). go_case; lia. }
  rewrite Hmax. split; cbn; auto.
  - split; cbn; rewrite ?length_replicate; lia.
  - apply Forall_replicate. unfold countBound. lia.
  - unfold countBound. lia.
  - intros Hs. destruct (Hmx Hs) as (? & ? & _). unfold effectiveMin. by destruct (Standalone cfg).
  - lia.
Qed.

Lemma median_range l : is_uint 64 (median l).
Proof.
  unfold median. set (x := _ + _ + 1). pose proof (wrap_range 64 x ltac:(lia)) as [? ?].
  unfold is_uint. dmlia.
Qed.

Lemma maxRecent_bounds fm B :
  Forall (fun e => 0 <= e <= B) (recentTxnCounts fm) -> buffer_ok fm -> 0 <= B ->
  0 <= maxRecentCount fm <= B.
Proof.
  intros HF [Hc Hl Hi Hs _] HB. rewrite maxRecentCount_value. split; [apply maxZ_nonneg|].
  destruct (maxZ_elem ((fun i => recentTxnCounts fm !!! i) <$> seq 0 (recentSize fm))) as [->|He];
    [done|].
  apply list_elem_of_fmap in He as (i & -> & [_ Hlt]%elem_of_seq).
  destruct (lookup_lt_is_Some_2 (recentTxnCounts fm) i) as [x Hx]; [lia|].
  rewrite (list_lookup_total_correct _ _ _ Hx). rewrite Forall_lookup in HF. by apply (HF i).
Qed.

(** The multiplier step of [update] touches nothing but the multiplier. *)
Lemma metrics_ok_multiplier cfg fm m :
  metrics_ok cfg fm -> MinimumEscalationMultiplier cfg <= m < 2 ^ 64 ->
  metrics_ok cfg (set_multiplier fm m).
Proof. intros [? ? ? ? [] ? ? ? ?] ?. split; done. Qed.

Lemma metrics_ok_slow cfg fm size :
  config_ok cfg -> metrics_ok cfg fm -> is_uint 32 size ->
  let cutPct := wrap 32 (100 - SlowConsensusDecreasePercent cfg) in
  let upperLimit := Z.max (mulDiv (txnsExpected fm) cutPct 100) (minimumTxnCount fm) in
  let e := Z.min (Z.max (mulDiv size cutPct 100) (minimumTxnCount fm)) upperLimit in
  metrics_ok cfg (set_recent (set_expected fm e) (recentTxnCounts fm) 0 0).
Proof.
  intros Hc [? ? ? ? Hb He Hexp Hcap Hm] [? ?]. cbv zeta.
  pose proof (config_ok_fields cfg Hc) as ([? ?] & _ & _ & _ & _ & Hs).
  rewrite (wrap_small 32) by (unfold is_uint; lia). set (cut := 100 - _) in *.
  rewrite !mulDiv_pos by lia.
  assert (txnsExpected fm * cut / 100 <= txnsExpected fm).
  { apply Z.div_le_upper_bound; [lia|]. nia. }
  assert (size * cut / 100 <= size) by (apply Z.div_le_upper_bound; [lia|]; nia).
  destruct Hb as [? ? ? ? ?]. unfold countBound in *.
  split; cbn [minimumTxnCount targetTxnCount maximumTxnCount hasMaximumTxnCount txnsExpected
              recentTxnCounts escalationMultiplier set_recent set_expected]; auto; unfold countBound; try lia.
  - split; cbn; auto; lia.
  - intros Hh. specialize (Hcap Hh). lia.
Qed.

(** The count that is recorded is at least the ledger's size, and so is the
    window's maximum after recording it. *)
Lemma increased_bounds cfg size :
  config_ok cfg -> is_uint 32 size ->
  let inc := mulDiv size (wrap 64 (100 + NormalConsensusIncreasePercent cfg)) 100 in
  size <= inc <= countBound.
Proof.
  intros Hc [? ?]. cbv zeta. pose proof (config_ok_fields cfg Hc) as (_ & _ & _ & _ & Hn & _).
  rewrite wrap_small by (unfold is_uint; lia). rewrite mulDiv_pos by lia.
  unfold countBound, max_u64.
  assert (size <= size * (100 + NormalConsensusIncreasePercent cfg) / 100)
    by (apply Z.div_le_lower_bound; nia).
  assert (size * (100 + NormalConsensusIncreasePercent cfg) / 100 <= 11 * 2 ^ 32)
    by (apply Z.div_le_upper_bound; nia).
  lia.
Qed.

Lemma addRecentCount_max fm c :
  buffer_ok fm -> 0 <= c -> c <= maxRecentCount (addRecentCount fm c).
Proof.
  intros Hb Hc. rewrite maxRecentCount_window, window_add by auto using addRecentCount_ok.
  apply maxZ_ge.
  destruct Hb as [? _ _ _ _]. destruct (recentCapacity fm); [lia|]. apply list_elem_of_here.
Qed.

Lemma metrics_ok_grow cfg fm size :
  config_ok cfg -> metrics_ok cfg fm -> is_uint 32 size ->
  txnsExpected fm < size \/ targetTxnCount fm < size ->
  let fm1 := addRecentCount fm
    (mulDiv size (wrap 64 (100 + NormalConsensusIncreasePercent cfg)) 100) in
  let maxRecent := maxRecentCount fm1 in
  let next := if txnsExpected fm1 <=? maxRecent then maxRecent
              else wrap 64 (wrap 64 (txnsExpected fm1 * 9) + maxRecent) / 10 in
  let next := if hasMaximumTxnCount fm1 && (maximumTxnCount fm1 <? next)
              then maximumTxnCount fm1 else next in
  metrics_ok cfg (set_expected fm1 next).
Proof.
  intros Hc Hok Hsize Hbig. pose proof (increased_bounds cfg size Hc Hsize) as Hinc.
  pose proof Hc as [_ _ Htg _ Hmx _ _].
  pose proof (config_ok_fields cfg Hc) as ([? ?] & [? ?] & _). cbv zeta in *.
  set (inc := mulDiv size _ 100) in *. clearbody inc. destruct Hok as [E1 E2 E3 E4 Hb He Hexp Hcap Hm].
  destruct Hsize as [? _].
  pose proof (addRecentCount_ok fm inc Hb) as Hb1.
  pose proof (addRecentCount_max fm inc Hb ltac:(lia)) as Hge.
  assert (He1 : Forall (fun e => 0 <= e <= countBound) (recentTxnCounts (addRecentCount fm inc))).
  { unfold addRecentCount. case_match; [done|]. cbn. apply Forall_insert; [done|lia]. }
  pose proof (maxRecent_bounds _ countBound He1 Hb1 ltac:(unfold countBound; lia)) as Hr.
  assert (Hsame : txnsExpected (addRecentCount fm inc) = txnsExpected fm /\
    minimumTxnCount (addRecentCount fm inc) = minimumTxnCount fm /\
    targetTxnCount (addRecentCount fm inc) = targetTxnCount fm /\
    maximumTxnCount (addRecentCount fm inc) = maximumTxnCount fm /\
    hasMaximumTxnCount (addRecentCount fm inc) = hasMaximumTxnCount fm /\
    escalationMultiplier (addRecentCount fm inc) = escalationMultiplier fm).
  { unfold addRecentCount. by case_match. }
  destruct Hsame as (S1 & S2 & S3 & S4 & S5 & S6). rewrite S1, S4, S5.
  set (r := maxRecentCount _) in *.
  set (next := if txnsExpected fm <=? r then r else _).
  assert (Hnext : minimumTxnCount fm <= next <= countBound).
  { subst next. unfold countBound in *. go_case; [lia|].
    rewrite (wrap_small 64 (txnsExpected fm * 9)) by (unfold is_uint; lia).
    rewrite wrap_small by (unfold is_uint; lia). dmlia. }
  assert (Hmax : hasMaximumTxnCount fm = true -> minimumTxnCount fm <= maximumTxnCount fm).
  { intros Hh. rewrite E1, E3 by done. rewrite E4 in Hh.
    destruct (Hmx Hh) as (? & ? & ?). lia. }
  destruct Hb1. split; cbn; rewrite ?S2, ?S3, ?S4, ?S5, ?S6; auto; try done.
  - destruct (hasMaximumTxnCount fm); cbn [andb]; [|done]. specialize (Hmax eq_refl). go_case; lia.
  - intros Hh. rewrite Hh; cbn [andb]. go_case; lia.
Qed.

Lemma update_fst fm feeLevels size timeLeap cfg :
  config_ok cfg -> metrics_ok cfg fm -> is_uint 32 size ->
  metrics_ok cfg (update fm feeLevels size timeLeap cfg).1.
Proof.
  intros Hc Hok Hsize. unfold update. cbn [fst].
  pose proof (config_ok_fields cfg Hc) as (_ & _ & _ & [? ?] & _).
  assert (Hgen : forall fm0, metrics_ok cfg fm0 ->
    metrics_ok cfg (if (length (merge_sort Z.le feeLevels) =? 0)%nat
                    then set_multiplier fm0 (MinimumEscalationMultiplier cfg)
                    else set_multiplier fm0 (Z.max (median (merge_sort Z.le feeLevels))
                                               (MinimumEscalationMultiplier cfg)))).
  { intros fm0 Hf. destruct (median_range (merge_sort Z.le feeLevels)) as [? ?].
    case_match; apply metrics_ok_multiplier; auto; lia. }
  apply Hgen. destruct timeLeap; [exact (metrics_ok_slow cfg fm size Hc Hok Hsize)|].
  destruct ((txnsExpected fm <? size) || (targetTxnCount fm <? size)) eqn:E; [|done].
  apply metrics_ok_grow; auto. apply orb_true_iff in E as [?|?]; zbool; auto.
Qed.

(** The metrics a queue can have: fresh from a normalized configuration, then
    updated by any number of closed ledgers. *)
Inductive metrics_reachable (cfg : Config) : feeMetrics -> Prop :=
  | metrics_new : metrics_reachable cfg (newFeeMetrics cfg)
  | metrics_update fm feeLevels size timeLeap :
      metrics_reachable cfg fm -> is_uint 32 size ->
      metrics_reachable cfg (update fm feeLevels size timeLeap cfg).1.

Lemma metrics_reachable_ok cfg fm : config_ok cfg -> metrics_reachable cfg fm -> metrics_ok cfg fm.
Proof. intros Hc. induction 1; auto using newFeeMetrics_ok, update_fst. Qed.

(** After any sequence of closed ledgers, slow or not, the expected
    ledger size stays between the configured minimum and the configured
    maximum when there is one, and the escalation multiplier never falls
    below its configured minimum. *)
Theorem metrics_bounded c cfg fm :
  config_typed c -> normalize c = inr cfg -> metrics_reachable cfg fm ->
  effectiveMin cfg <= txnsExpected fm /\
  (MaximumTxnInLedgerSet cfg = true -> txnsExpected fm <= MaximumTxnInLedger cfg) /\
  MinimumEscalationMultiplier cfg <= escalationMultiplier fm.
Proof.
  intros Ht Hn Hr. pose proof (normalize_ok c cfg Ht Hn) as Hc.
  destruct (metrics_reachable_ok cfg fm Hc Hr) as [E1 E2 E3 E4 _ _ Hexp Hcap Hm].
  rewrite <- E1, <- E4. split_and!; [lia| |lia].
  intros Hh. rewrite <- E3 by done. auto.
Qed.

(** ** Order of the fee levels *)

Lemma merge_sort_perm l l' : l ≡ₚ l' -> merge_sort Z.le l = merge_sort Z.le l'.
Proof.
  intros Hp. apply (StronglySorted_unique Z.le).
  - apply (StronglySorted_merge_sort Z.le).
  - apply (StronglySorted_merge_sort Z.le).
  - by rewrite !merge_sort_Permutation.
Qed.

(** The metrics do not depend on the order in which a closed ledger's fee
    levels are reported: only their multiset matters. *)
Lemma update_order_independent fm l l' size timeLeap cfg :
  l ≡ₚ l' -> update fm l size timeLeap cfg = update fm l' size timeLeap cfg.
Proof. intros Hp. unfold update. by rewrite (merge_sort_perm l l' Hp). Qed.

(** ** Instances *)

Definition exSnap : feeMetricsSnapshot := mkSnapshot 32 128000.

Lemma fee_level_roundtrip_witness :
  ToDrops (ToFeeLevel 15 10) 10 <= 15 /\
  (15 * BaseLevel / 10 <= max_u64 -> 15 - (10 / BaseLevel + 1) <= ToDrops (ToFeeLevel 15 10) 10).
Proof. apply (fee_level_roundtrip 15 10); [cbv; split; [discriminate|reflexivity]..|lia]. Defined.

Lemma scaleFeeLevel_exact_witness :
  scaleFeeLevel exSnap 40 =
    if 40 <=? 32 then BaseLevel else if 32 =? 0 then max_u64
    else Z.min max_u64 (128000 * (40 * 40) / (32 * 32)).
Proof. apply (scaleFeeLevel_exact exSnap 40); cbv; split; [discriminate|reflexivity|discriminate|reflexivity]. Defined.

Lemma scaleFeeLevel_mono_witness : scaleFeeLevel exSnap 33 <= scaleFeeLevel exSnap 40.
Proof.
  apply (scaleFeeLevel_mono exSnap 33 40); [cbv; split; [discriminate|reflexivity]..|cbv; discriminate|lia].
Defined.

Lemma escalatedSeries_exact_witness :
  escalatedSeriesFeeLevel exSnap 40 0 3 =
    if 40 + 3 - 1 <? 2 ^ 21 then
      (Z.min max_u64 (128000 * sumSquaresFrom 40 (Z.to_nat 3) / (32 * 32)), true)
    else (max_u64, false).
Proof.
  apply (escalatedSeries_exact exSnap 40 3);
    [cbv; split; [discriminate|reflexivity]|reflexivity|lia|lia
    |cbv; split; [discriminate|reflexivity]..].
Defined.

Lemma default_typed : config_typed DefaultConfig.
Proof. split; [repeat constructor; cbv; discriminate || reflexivity|cbv; split; [discriminate|reflexivity]]. Qed.

Lemma normalize_idempotent_witness :
  match normalize DefaultConfig with inr c => normalize c = inr c | inl _ => False end.
Proof.
  destruct (normalize DefaultConfig) as [e|c] eqn:E; [vm_compute in E; discriminate|].
  exact (normalize_idempotent DefaultConfig c default_typed E).
Defined.

Lemma recent_counts_window_witness :
  let fm := newFeeMetrics DefaultConfig in
  window (addRecentCount fm 40) = take (recentCapacity fm) (40 :: window fm) /\
  maxRecentCount (addRecentCount fm 40) = maxZ (take (recentCapacity fm) (40 :: window fm)).
Proof. apply (recent_counts_window (newFeeMetrics DefaultConfig) 40). vm_compute. repeat constructor. Defined.

Lemma metrics_bounded_witness :
  match normalize DefaultConfig with
  | inr cfg => let fm := (update (newFeeMetrics cfg) [256; 300] 40 false cfg).1 in
      effectiveMin cfg <= txnsExpected fm /\
      (MaximumTxnInLedgerSet cfg = true -> txnsExpected fm <= MaximumTxnInLedger cfg) /\
      MinimumEscalationMultiplier cfg <= escalationMultiplier fm
  | inl _ => False
  end.
Proof.
  destruct (normalize DefaultConfig) as [e|cfg] eqn:E; [vm_compute in E; discriminate|].
  apply (metrics_bounded DefaultConfig cfg); [exact default_typed|exact E|].
  apply metrics_update; [apply metrics_new|cbv; split; [discriminate|reflexivity]].
Defined.

End TxqFee.
