(* ===== verification/TxqQueue.v ===== *)
(** * Transaction queue: candidates and indices
    (internal/txq/candidate.go, internal/txq/txq.go, internal/txq/process.go)

    Candidates live in a store addressed by pointers, because the queue's three
    indices (by fee, by transaction id, by account) share them and update them
    in place. The file models the indices, the per-account queries, insertion,
    erasure and rebuilding, and proves the invariant that ties them together. *)

From Stdlib Require Import ZArith Lia.
From stdpp Require Import base sorting list gmap strings numbers.
From S2P Require Import Prelude TxqFee.

Module TxqQueue.
Import TxqFee.

(** ** Sequence proxies *)

Record SeqProxy := mkSeqProxy { Value : Z; IsTicket : bool }.

#[global] Instance SeqProxy_eq_dec : EqDecision SeqProxy.
Proof. solve_decision. Defined.

#[global] Instance SeqProxy_countable : Countable SeqProxy.
Proof.
  apply (inj_countable' (fun s => (Value s, IsTicket s)) (fun p => mkSeqProxy p.1 p.2)).
  by intros [].
Defined.

Definition NewSeqProxySequence (seq : Z) : SeqProxy := mkSeqProxy seq false.
Definition NewSeqProxyTicket (ticket : Z) : SeqProxy := mkSeqProxy ticket true.

Definition Less (s other : SeqProxy) : bool :=
  if negb (IsTicket s) && IsTicket other then true
  else if IsTicket s && negb (IsTicket other) then false
  else Value s <? Value other.

(** ** Transactions as the queue sees them *)

(** An amount: native with its signed drops, or something else. *)
Inductive Amount := NativeAmount (drops : Z) | OtherAmount.

(** The transaction types whose contents the queue inspects. *)
Inductive TxBody :=
  | Payment (amount : Amount) (sendMax : option Amount)
  | OfferCreate (takerGets : Amount)
  | EscrowCreate (amount : Amount)
  | PaymentChannelCreate (amount : Amount)
  | PaymentChannelFund (amount : Amount)
  | XChainCommit (amount : Amount)
  | SponsorshipSet (feeAmountDelta : option Amount)
  | TicketCreate (ticketCount : Z)
  | AccountSet (setFlag clearFlag : option Z)
  | RegularKeySet
  | SignerListSet
  | AccountDelete
  | XChainClaim
  | XChainAddClaimAttestation
  | XChainAddAccountCreateAttest
  | Batch
  | OtherTx.

(** The common fields the queue reads, with the outcome of decoding the source
    account. Empty strings and absent pointers are [None] or [false]. *)
Record Common := mkCommon {
  SourceAccount : option bytes;
  Fee : string;
  Sequence : option Z;
  TicketSequence : option Z;
  LastLedgerSequence : option Z;
  TxFlags : option Z;
  HasPreviousTxnID : bool;
  HasAccountTxnID : bool;
  HasDelegate : bool;
  HasSponsor : bool;
  SponsorFlags : option Z }.

Record Transaction := mkTransaction {
  GetCommon : Common;
  Body : TxBody;
  RawBytes : bytes;
  Synthetic : bool }.

(** ** Candidates *)

Definition RetriesAllowed : Z := 10.

Record txConsequences := mkConsequences {
  ConsFee : Z;
  PotentialSpend : Z;
  IsBlocker : bool;
  FollowingSeq : SeqProxy }.

(** [amendment.Rules] pointers are compared by identity. *)
Abbreviation RulesId := nat.
Abbreviation Result := Z.

Record candidate := mkCandidate {
  Txn : option Transaction;
  blob : bytes;
  TxID : bytes;
  Account : bytes;
  FeeLevel : Z;
  SeqProxyOf : SeqProxy;
  LastValid : Z;
  RetriesRemaining : Z;
  LastResult : Result;
  PreflightResult : Result;
  Flags : Z;
  PreflightFlags : Z;
  PreflightRules : option RulesId;
  Consequences : txConsequences }.

Definition nilConsequences : txConsequences :=
  mkConsequences 0 0 false (mkSeqProxy 0 false).

#[global] Instance candidate_inhabited : Inhabited candidate :=
  populate (mkCandidate None [] [] [] 0 (mkSeqProxy 0 false) 0 0 0 0 0 0 None nilConsequences).

Definition newCandidate (txID account : bytes) (feeLevel : Z) (seqProxy : SeqProxy)
    (lastValid : Z) (preflightResult : Result) (consequences : txConsequences) : candidate :=
  mkCandidate None [] txID account feeLevel seqProxy lastValid RetriesAllowed 0
    preflightResult 0 0 None consequences.

Definition rawBlob (c : candidate) : bytes :=
  if negb (Nat.eqb (length (blob c)) 0) then blob c
  else match Txn c with
       | Some t => RawBytes t
       | None => []
       end.

Definition rawBlobSize (c : candidate) : Z :=
  if negb (Nat.eqb (length (blob c)) 0) then Z.of_nat (length (blob c))
  else match Txn c with
       | Some t => Z.of_nat (length (RawBytes t))
       | None => 0
       end.

(** Updates of the fields the queue writes in place. *)
Definition set_retries (c : candidate) (n : Z) : candidate :=
  mkCandidate (Txn c) (blob c) (TxID c) (Account c) (FeeLevel c) (SeqProxyOf c) (LastValid c)
    n (LastResult c) (PreflightResult c) (Flags c) (PreflightFlags c) (PreflightRules c)
    (Consequences c).

Definition set_lastResult (c : candidate) (r : Result) : candidate :=
  mkCandidate (Txn c) (blob c) (TxID c) (Account c) (FeeLevel c) (SeqProxyOf c) (LastValid c)
    (RetriesRemaining c) r (PreflightResult c) (Flags c) (PreflightFlags c) (PreflightRules c)
    (Consequences c).

Definition set_preflight (c : candidate) (r : Result) (flags : Z) (rules : option RulesId) : candidate :=
  mkCandidate (Txn c) (blob c) (TxID c) (Account c) (FeeLevel c) (SeqProxyOf c) (LastValid c)
    (RetriesRemaining c) (LastResult c) r (Flags c) flags rules (Consequences c).

(** A [*candidate]. *)
Abbreviation cptr := nat.

(** ** Account queues *)

Record accountQueue := mkAccountQueue {
  AQAccount : bytes;
  Transactions : gmap SeqProxy cptr;
  RetryPenalty : bool;
  DropPenalty : bool }.

Definition newAccountQueue (account : bytes) : accountQueue :=
  mkAccountQueue account ∅ false false.

Definition set_transactions (aq : accountQueue) (m : gmap SeqProxy cptr) : accountQueue :=
  mkAccountQueue (AQAccount aq) m (RetryPenalty aq) (DropPenalty aq).

Definition set_retryPenalty (aq : accountQueue) : accountQueue :=
  mkAccountQueue (AQAccount aq) (Transactions aq) true (DropPenalty aq).

Definition set_dropPenalty (aq : accountQueue) : accountQueue :=
  mkAccountQueue (AQAccount aq) (Transactions aq) (RetryPenalty aq) true.

Abbreviation store := (gmap cptr candidate).

Definition Add (h : store) (aq : accountQueue) (c : cptr) : accountQueue :=
  set_transactions aq (<[SeqProxyOf (h !!! c) := c]> (Transactions aq)).

Definition Remove (aq : accountQueue) (seqProxy : SeqProxy) : accountQueue * bool :=
  match Transactions aq !! seqProxy with
  | Some _ => (set_transactions aq (delete seqProxy (Transactions aq)), true)
  | None => (aq, false)
  end.

Definition removeCandidate (h : store) (aq : accountQueue) (c : cptr) : accountQueue * bool :=
  match Transactions aq !! SeqProxyOf (h !!! c) with
  | Some existing =>
      if (existing =? c)%nat
      then (set_transactions aq (delete (SeqProxyOf (h !!! c)) (Transactions aq)), true)
      else (aq, false)
  | None => (aq, false)
  end.

Definition Count (aq : accountQueue) : nat := size (Transactions aq).
Definition Empty (aq : accountQueue) : bool := (size (Transactions aq) =? 0)%nat.

(** The loops over an account's map visit its entries in an unspecified order:
    they are folds over a list of entries, run on one enumeration of the map
    and shown below not to depend on which. *)
Definition entries (aq : accountQueue) : list (SeqProxy * cptr) := map_to_list (Transactions aq).

Definition prevLoop (h : store) (seqProxy : SeqProxy) (l : list (SeqProxy * cptr)) : option cptr :=
  foldl (fun prev e =>
    if Less e.1 seqProxy then
      match prev with
      | None => Some e.2
      | Some p => if Less (SeqProxyOf (h !!! p)) e.1 then Some e.2 else prev
      end
    else prev) None l.

Definition PrevTx (h : store) (aq : accountQueue) (seqProxy : SeqProxy) : option cptr :=
  prevLoop h seqProxy (entries aq).

Definition nextLoop (h : store) (seqProxy : SeqProxy) (l : list (SeqProxy * cptr)) : option cptr :=
  foldl (fun next e =>
    if Less seqProxy e.1 then
      match next with
      | None => Some e.2
      | Some n => if Less e.1 (SeqProxyOf (h !!! n)) then Some e.2 else next
      end
    else next) None l.

Definition GetNextTx (h : store) (aq : accountQueue) (seqProxy : SeqProxy) : option cptr :=
  nextLoop h seqProxy (entries aq).

Definition firstSeqLoop (h : store) (l : list (SeqProxy * cptr)) : option cptr :=
  foldl (fun first e =>
    if negb (IsTicket (SeqProxyOf (h !!! e.2))) then
      match first with
      | None => Some e.2
      | Some f => if Value (SeqProxyOf (h !!! e.2)) <? Value (SeqProxyOf (h !!! f))
                  then Some e.2 else first
      end
    else first) None l.

Definition FirstSeqTx (h : store) (aq : accountQueue) : option cptr :=
  firstSeqLoop h (entries aq).

Definition RelevantCount (aq : accountQueue) (acctSeqProx : SeqProxy) : Z :=
  foldl (fun count e => if negb (Less e.1 acctSeqProx) then count + 1 else count) 0 (entries aq).

Definition firstRelevantLoop (h : store) (acctSeqProx : SeqProxy) (l : list (SeqProxy * cptr))
  : option cptr :=
  foldl (fun first e =>
    if negb (Less e.1 acctSeqProx) then
      match first with
      | None => Some e.2
      | Some f => if Less e.1 (SeqProxyOf (h !!! f)) then Some e.2 else first
      end
    else first) None l.

Definition FirstRelevant (h : store) (aq : accountQueue) (acctSeqProx : SeqProxy) : option cptr :=
  firstRelevantLoop h acctSeqProx (entries aq).

Definition seqLess (h : store) (a b : cptr) : bool :=
  Less (SeqProxyOf (h !!! a)) (SeqProxyOf (h !!! b)).

Definition SortedCandidates (h : store) (aq : accountQueue) : list cptr :=
  sort_by (seqLess h) (entries aq).*2.

Definition RelevantSortedCandidates (h : store) (aq : accountQueue) (acctSeqProx : SeqProxy)
  : list cptr :=
  List.filter (fun c => negb (Less (SeqProxyOf (h !!! c)) acctSeqProx)) (SortedCandidates h aq).

(** ** The queue *)

Record TxQ := mkTxQ {
  config : Config;
  metrics : feeMetrics;
  heap : store;
  byFee : list cptr;
  byID : gmap bytes cptr;
  byAccount : gmap bytes accountQueue;
  maxSize : option Z;
  parentHash : bytes;
  txqFull : Z }.

Definition zeroHash : bytes := replicate 32 0.

Definition New (cfg : Config) : ConfigError + TxQ :=
  let? effective := normalize cfg in
  inr (mkTxQ effective (newFeeMetrics effective) ∅ [] ∅ ∅ None zeroHash 0).

Definition set_heap (q : TxQ) (h : store) : TxQ :=
  mkTxQ (config q) (metrics q) h (byFee q) (byID q) (byAccount q) (maxSize q) (parentHash q) (txqFull q).
Definition set_byFee (q : TxQ) (l : list cptr) : TxQ :=
  mkTxQ (config q) (metrics q) (heap q) l (byID q) (byAccount q) (maxSize q) (parentHash q) (txqFull q).
Definition set_byID (q : TxQ) (m : gmap bytes cptr) : TxQ :=
  mkTxQ (config q) (metrics q) (heap q) (byFee q) m (byAccount q) (maxSize q) (parentHash q) (txqFull q).
Definition set_byAccount (q : TxQ) (m : gmap bytes accountQueue) : TxQ :=
  mkTxQ (config q) (metrics q) (heap q) (byFee q) (byID q) m (maxSize q) (parentHash q) (txqFull q).
Definition set_maxSize (q : TxQ) (m : option Z) : TxQ :=
  mkTxQ (config q) (metrics q) (heap q) (byFee q) (byID q) (byAccount q) m (parentHash q) (txqFull q).
Definition set_metrics (q : TxQ) (m : feeMetrics) : TxQ :=
  mkTxQ (config q) m (heap q) (byFee q) (byID q) (byAccount q) (maxSize q) (parentHash q) (txqFull q).
Definition set_parentHash (q : TxQ) (h : bytes) : TxQ :=
  mkTxQ (config q) (metrics q) (heap q) (byFee q) (byID q) (byAccount q) (maxSize q) h (txqFull q).

Definition incTxQFull (q : TxQ) : TxQ :=
  mkTxQ (config q) (metrics q) (heap q) (byFee q) (byID q) (byAccount q) (maxSize q) (parentHash q)
    (wrap 64 (txqFull q + 1)).

(** Dereferences a candidate pointer. *)
Definition cand (q : TxQ) (c : cptr) : candidate := heap q !!! c.

(** Writes a candidate in place. *)
Definition write (q : TxQ) (c : cptr) (v : candidate) : TxQ := set_heap q (<[c := v]> (heap q)).

Definition isFull (q : TxQ) : bool :=
  match maxSize q with
  | None => false
  | Some m => m <=? Z.of_nat (length (byFee q))
  end.

Definition isFullPct (q : TxQ) (fillPct : Z) : bool :=
  match maxSize q with
  | None => false
  | Some m =>
      if fillPct =? 0 then true
      else if 100 <=? fillPct then m <=? Z.of_nat (length (byFee q))
      else
        let threshold := wrap 64 (m / 100 * fillPct) in
        let threshold := wrap 64 (threshold + wrap 64 ((m mod 100) * fillPct) / 100) in
        threshold <=? Z.of_nat (length (byFee q))
  end.

Definition Size (q : TxQ) : Z := Z.of_nat (length (byFee q)).

Definition saturatingSnapshotAdd (total amount : Z) : Z :=
  if wrap 64 (max_u64 - total) <? amount then max_u64 else wrap 64 (total + amount).

Definition SnapshotStats (q : TxQ) : Z * Z :=
  foldl (fun acc c => (saturatingSnapshotAdd acc.1 1,
                       saturatingSnapshotAdd acc.2 (rawBlobSize (cand q c)))) (0, 0) (byFee q).

Definition GetTxBlob (q : TxQ) (txID : bytes) : option bytes :=
  match byID q !! txID with
  | None => None
  | Some c =>
      let raw := rawBlob (cand q c) in
      if (length raw =? 0)%nat then None else Some raw
  end.

Definition RequiredFeeLevel (q : TxQ) (txInLedger : Z) : Z :=
  scaleFeeLevel (snapshot (metrics q)) txInLedger.

(** ** Fee order *)

Definition xorHash (a b : bytes) : bytes := zip_with Z.lxor a b.

Definition candLess (hash : bytes) (a b : candidate) : bool :=
  if negb (FeeLevel a =? FeeLevel b) then FeeLevel b <? FeeLevel a
  else match bytes_compare (xorHash (TxID a) hash) (xorHash (TxID b) hash) with
       | Lt => true
       | _ => false
       end.

Definition candidateLess (q : TxQ) (a b : cptr) : bool :=
  candLess (parentHash q) (cand q a) (cand q b).

Definition findInsertPosition (q : TxQ) (c : cptr) : nat :=
  searchLoop (fun mid => candidateLess q c (byFee q !!! mid))
    (S (length (byFee q))) 0 (length (byFee q)).

Definition insertByFee (q : TxQ) (c : cptr) : TxQ :=
  let pos := findInsertPosition q c in
  let q := set_byFee q (take pos (byFee q) ++ c :: drop pos (byFee q)) in
  set_byID q (<[TxID (cand q c) := c]> (byID q)).

(** [delete(q.byID, c.TxID)] guarded by [q.byID[c.TxID] == c]. *)
Definition dropID (q : TxQ) (c : cptr) : TxQ :=
  if bool_decide (byID q !! TxID (cand q c) = Some c)
  then set_byID q (delete (TxID (cand q c)) (byID q)) else q.

Fixpoint removeFirst (c : cptr) (l : list cptr) : option (list cptr) :=
  match l with
  | [] => None
  | x :: l' => if (x =? c)%nat then Some l' else cons x <$> removeFirst c l'
  end.

Definition removeByFee (q : TxQ) (c : cptr) : TxQ :=
  match removeFirst c (byFee q) with
  | None => q
  | Some l => dropID (set_byFee q l) c
  end.

Definition erase (q : TxQ) (c : cptr) : TxQ :=
  let q := removeByFee q c in
  let q := match byAccount q !! Account (cand q c) with
           | Some aq => set_byAccount q
               (<[Account (cand q c) := (removeCandidate (heap q) aq c).1]> (byAccount q))
           | None => q
           end in
  dropID q c.

Definition bytesLess (a b : bytes) : bool :=
  match bytes_compare a b with Lt => true | _ => false end.

Definition rebuildByFee (q : TxQ) : TxQ :=
  let q := set_byID (set_byFee q []) ∅ in
  let accounts := sort_by bytesLess (map_to_list (byAccount q)).*1 in
  foldl (fun q a =>
    match byAccount q !! a with
    | Some aq => foldl insertByFee q (SortedCandidates (heap q) aq)
    | None => q
    end) q accounts.

(** ** Closing a ledger *)

(** The closed ledger: its sequence, its transaction count, its fee levels. *)
Record ClosedLedger := mkClosedLedger {
  ClosedSequence : Z;
  TransactionCount : Z;
  TransactionFeeLevels : list Z }.

(** Marks the accounts of the expired candidates and collects them. *)
Definition expireLoop (q : TxQ) (ledgerSeq : Z) : TxQ * list cptr :=
  foldl (fun acc c =>
    let q := acc.1 in
    if negb (LastValid (cand q c) =? 0) && (LastValid (cand q c) <=? ledgerSeq) then
      let q := match byAccount q !! Account (cand q c) with
               | Some aq => set_byAccount q
                   (<[Account (cand q c) := set_dropPenalty aq]> (byAccount q))
               | None => q
               end in
      (q, acc.2 ++ [c])
    else acc) (q, []) (byFee q).

Definition dropEmptyAccounts (q : TxQ) : TxQ :=
  set_byAccount q (filter (fun e => Empty e.2 = false) (byAccount q)).

Definition ProcessClosedLedger (q : TxQ) (ctx : ClosedLedger) (timeLeap : bool) : TxQ * Z :=
  let '(fm, txCount) :=
    update (metrics q) (TransactionFeeLevels ctx) (TransactionCount ctx) timeLeap (config q) in
  let q := set_metrics q fm in
  let q :=
    if negb timeLeap then
      let product := TxnsExpected (snapshot (metrics q)) in
      let product := if max_u64 / LedgersInQueue (config q) <? product then max_u64
                     else wrap 64 (product * LedgersInQueue (config q)) in
      set_maxSize q (Some (Z.max product (QueueSizeMin (config q))))
    else q in
  let '(q, toRemove) := expireLoop q (ClosedSequence ctx) in
  let q := foldl erase q toRemove in
  (dropEmptyAccounts q, txCount).

Definition clear (q : TxQ) : TxQ := set_byAccount (set_byID (set_byFee q []) ∅) ∅.
Definition setMaxSize (q : TxQ) (m : Z) : TxQ := set_maxSize q (Some m).

(** ** Queries *)

Record Metrics := mkMetrics {
  TxCount : Z;
  TxQMaxSize : option Z;
  TxInLedger : Z;
  TxPerLedger : Z;
  ReferenceFeeLevel : Z;
  MinProcessingFeeLevel : Z;
  MedFeeLevel : Z;
  OpenLedgerFeeLevel : Z;
  TxQFull : Z }.

Definition MetricsOf (q : TxQ) (txInLedger : Z) : Metrics :=
  let snap := snapshot (metrics q) in
  let openLedgerFeeLevel := scaleFeeLevel snap txInLedger in
  let minProcessingFeeLevel :=
    if isFull q && (0 <? length (byFee q))%nat
    then wrap 64 (FeeLevel (cand q (byFee q !!! (length (byFee q) - 1)%nat)) + 1)
    else BaseLevel in
  mkMetrics (Z.of_nat (length (byFee q))) (maxSize q) txInLedger (TxnsExpected snap) BaseLevel
    minProcessingFeeLevel (EscalationMultiplier snap) openLedgerFeeLevel (txqFull q).

Record CandidateDetails := mkCandidateDetails {
  DTxID : bytes;
  DAccount : bytes;
  DFeeLevel : Z;
  DSeqProxy : SeqProxy;
  DLastValid : Z;
  DRetriesRemaining : Z;
  DLastResult : Result;
  DHasLastResult : bool;
  DPreflightResult : Result;
  DFee : Z;
  DPotentialSpend : Z;
  DAuthChange : bool;
  DTxBlob : bytes }.

Definition candidateDetails (c : candidate) : CandidateDetails :=
  mkCandidateDetails (TxID c) (Account c) (FeeLevel c) (SeqProxyOf c) (LastValid c)
    (RetriesRemaining c) (LastResult c) (RetriesRemaining c <? RetriesAllowed)
    (PreflightResult c) (ConsFee (Consequences c)) (PotentialSpend (Consequences c))
    (IsBlocker (Consequences c)) (rawBlob c).

Definition AccountTxs (q : TxQ) (account : bytes) : list CandidateDetails :=
  match byAccount q !! account with
  | Some aq =>
      if Empty aq then []
      else (fun c => candidateDetails (cand q c)) <$> SortedCandidates (heap q) aq
  | None => []
  end.

Definition AllTxs (q : TxQ) : list CandidateDetails :=
  (fun c => candidateDetails (cand q c)) <$> byFee q.

(** The smallest key strictly after [sp]. *)
Definition upperBoundLoop (sp : SeqProxy) (l : list SeqProxy) : option SeqProxy :=
  foldl (fun best k =>
    if negb (Less sp k) then best
    else match best with
         | None => Some k
         | Some b => if Less k b then Some k else best
         end) None l.

Definition upperBoundSeqProxy (aq : accountQueue) (sp : SeqProxy) : option SeqProxy :=
  upperBoundLoop sp (entries aq).*1.

(** The search for the entry at the account's sequence: the candidates from
    that entry on, unless a later sequence comes first. *)
Fixpoint findStart (h : store) (acctSeqProx : SeqProxy) (l : list cptr) : option (cptr * list cptr) :=
  match l with
  | [] => None
  | c :: l' =>
      if negb (IsTicket (SeqProxyOf (h !!! c))) && negb (Less (SeqProxyOf (h !!! c)) acctSeqProx)
      then if bool_decide (SeqProxyOf (h !!! c) = acctSeqProx) then Some (c, l') else None
      else findStart h acctSeqProx l'
  end.

Fixpoint walkChain (h : store) (acctSeqProx : SeqProxy) (attempt : Z) (l : list cptr) : Z :=
  match l with
  | [] => attempt
  | c :: l' =>
      let sp := SeqProxyOf (h !!! c) in
      if IsTicket sp then walkChain h acctSeqProx attempt l'
      else if Less sp acctSeqProx then walkChain h acctSeqProx attempt l'
      else if attempt <? Value sp then attempt
      else walkChain h acctSeqProx (Value (FollowingSeq (Consequences (h !!! c)))) l'
  end.

Definition getNextQueuableSeq (h : store) (aq : accountQueue) (acctSeq : Z) : Z :=
  if Empty aq then acctSeq
  else
    let acctSeqProx := NewSeqProxySequence acctSeq in
    match findStart h acctSeqProx (SortedCandidates h aq) with
    | None => acctSeq
    | Some (c, rest) =>
        walkChain h acctSeqProx (Value (FollowingSeq (Consequences (h !!! c)))) rest
    end.

Definition NextQueuableSeq (q : TxQ) (account : bytes) (acctSeq : Z) : Z :=
  match byAccount q !! account with
  | Some aq => if Empty aq then acctSeq else getNextQueuableSeq (heap q) aq acctSeq
  | None => acctSeq
  end.

Record FeeAndSeq := mkFeeAndSeq { RequiredFee : Z; AccountSeq : Z; AvailableSeq : Z }.

Definition TxRequiredFeeAndSeq (q : TxQ) (account : bytes) (acctSeq baseFee txInLedger : Z)
  : FeeAndSeq :=
  let feeLevel := scaleFeeLevel (snapshot (metrics q)) txInLedger in
  let requiredFee := ToDrops feeLevel baseFee in
  let requiredFee := if max_i64 <? requiredFee then max_i64 else requiredFee in
  let availableSeq :=
    match byAccount q !! account with
    | Some aq => getNextQueuableSeq (heap q) aq acctSeq
    | None => acctSeq
    end in
  mkFeeAndSeq requiredFee acctSeq availableSeq.

(** ** The order on sequence proxies *)

#[global] Instance Less_strict : StrictWeak Less.
Proof.
  split.
  - intros [v []]; unfold Less; cbn; lia.
  - intros [v []] [v' []] [v'' []]; unfold Less; cbn; intros; try done; lia.
  - intros [v []] [v' []] [v'' []]; unfold Less; cbn; intros; try done; lia.
Qed.

Lemma Less_total a b : Less a b = false -> Less b a = false -> a = b.
Proof.
  destruct a as [v []], b as [v' []]; unfold Less; cbn; intros; try done; f_equal; lia.
Qed.

#[global] Instance seqLess_strict h : StrictWeak (seqLess h).
Proof.
  split; unfold seqLess; intros.
  - apply less_irrefl.
  - by eapply less_trans.
  - by eapply less_neg_trans.
Qed.

(** ** Loops over an account's map

    All four searches keep the best entry among those a test selects. *)

Section BestLoop.
Context (h : store) (keep : SeqProxy -> bool) (better : SeqProxy -> SeqProxy -> bool).

Definition bestStep (acc : option cptr) (e : SeqProxy * cptr) : option cptr :=
  if keep e.1 then
    match acc with
    | None => Some e.2
    | Some p => if better e.1 (SeqProxyOf (h !!! p)) then Some e.2 else acc
    end
  else acc.

(** [r] is the best kept entry of [l], or [None] when there is none. *)
Definition is_best (l : list (SeqProxy * cptr)) (r : option cptr) : Prop :=
  match r with
  | None => forall e, e ∈ l -> keep e.1 = false
  | Some c => exists sp, (sp, c) ∈ l /\ keep sp = true /\
      forall e, e ∈ l -> keep e.1 = true -> better e.1 sp = false
  end.

Context `{!StrictWeak better}.

Lemma bestLoop_best l :
  (forall e, e ∈ l -> SeqProxyOf (h !!! e.2) = e.1) -> is_best l (foldl bestStep None l).
Proof.
  induction l as [|e l IH] using rev_ind; intros Hk; [by intros ? ?%elem_of_nil|].
  rewrite foldl_app; cbn. unfold bestStep at 1.
  specialize (IH ltac:(intros; apply Hk; set_solver)).
  destruct (keep e.1) eqn:Ek.
  - destruct (foldl bestStep None l) as [p|] eqn:El; cbn in IH.
    + destruct IH as (sp & Hin & Hks & Hbest).
      assert (Hs : SeqProxyOf (h !!! p) = sp) by (apply (Hk (sp, p)); set_solver).
      rewrite Hs. destruct (better e.1 sp) eqn:Eb.
      * exists e.1. split; [destruct e; set_solver|]. split; [done|].
        intros e' [He'| ->%list_elem_of_singleton]%elem_of_app Hke'; [|apply less_irrefl].
        specialize (Hbest e' He' Hke'). eapply less_neg_trans; [|exact Hbest].
        by apply less_asym.
      * exists sp. split; [set_solver|]. split; [done|].
        intros e' [He'| ->%list_elem_of_singleton]%elem_of_app Hke'; [by apply Hbest|done].
    + exists e.1. split; [destruct e; set_solver|]. split; [done|].
      intros e' [He'| ->%list_elem_of_singleton]%elem_of_app Hke'; [|apply less_irrefl].
      by rewrite IH in Hke'.
  - destruct (foldl bestStep None l) as [p|] eqn:El; cbn in IH |- *.
    + destruct IH as (sp & Hin & Hks & Hbest). exists sp. split; [set_solver|].
      split; [done|].
      intros e' [He'| ->%list_elem_of_singleton]%elem_of_app Hke'; [by apply Hbest|congruence].
    + intros e' [He'| ->%list_elem_of_singleton]%elem_of_app; [by apply IH|done].
Qed.

Lemma is_best_unique l r r' :
  NoDup l.*1 ->
  (forall a b, keep a = true -> keep b = true ->
     better a b = false -> better b a = false -> a = b) ->
  is_best l r -> is_best l r' -> r = r'.
Proof.
  intros Hnd Htot. destruct r as [c|], r' as [c'|]; cbn; [| | |done].
  - intros (sp & Hin & Hks & Hb) (sp' & Hin' & Hks' & Hb').
    assert (sp = sp') as <-.
    { apply Htot; [done..|by apply (Hb' (sp, c))|by apply (Hb (sp', c'))]. }
    apply (elem_of_list_to_map_1 (M := gmap SeqProxy)) in Hin, Hin'; [congruence|done..].
  - intros (sp & Hin & Hks & _) Hn. specialize (Hn _ Hin); cbn in Hn. congruence.
  - intros Hn (sp & Hin & Hks & _). specialize (Hn _ Hin); cbn in Hn. congruence.
Qed.
End BestLoop.

(** An account queue files each of its candidates under its own key. *)
Definition aq_ok (h : store) (aq : accountQueue) : Prop :=
  forall sp c, Transactions aq !! sp = Some c -> SeqProxyOf (h !!! c) = sp.

Lemma aq_ok_entries h aq e : aq_ok h aq -> e ∈ entries aq -> SeqProxyOf (h !!! e.2) = e.1.
Proof. destruct e as [sp c]. intros Hok He%elem_of_map_to_list. by apply Hok. Qed.

(** The map loops as instances of the search for the best entry. *)
Definition prevBetter (a b : SeqProxy) : bool := Less b a.

#[global] Instance prevBetter_strict : StrictWeak prevBetter.
Proof.
  split; unfold prevBetter; intros.
  - apply less_irrefl.
  - by eapply less_trans.
  - by eapply less_neg_trans.
Qed.

Definition valueLess (a b : SeqProxy) : bool := Value a <? Value b.

#[global] Instance valueLess_strict : StrictWeak valueLess.
Proof. split; unfold valueLess; intros; zbool; lia. Qed.

Section AccountLoops.
Context (h : store) (aq : accountQueue) (Hok : aq_ok h aq).

Lemma PrevTx_best sp : is_best (fun k => Less k sp) prevBetter (entries aq) (PrevTx h aq sp).
Proof. apply (bestLoop_best h); eauto using aq_ok_entries, prevBetter_strict. Qed.

Lemma GetNextTx_best sp : is_best (Less sp) Less (entries aq) (GetNextTx h aq sp).
Proof. apply (bestLoop_best h); eauto using aq_ok_entries, Less_strict. Qed.

Lemma FirstRelevant_best sp :
  is_best (fun k => negb (Less k sp)) Less (entries aq) (FirstRelevant h aq sp).
Proof. apply (bestLoop_best h (fun k => negb (Less k sp))); eauto using aq_ok_entries, Less_strict. Qed.

Lemma FirstSeqTx_best :
  is_best (fun k => negb (IsTicket k)) valueLess (entries aq) (FirstSeqTx h aq).
Proof.
  unfold FirstSeqTx, firstSeqLoop. erewrite foldl_ext_in.
  - apply (bestLoop_best h (fun k => negb (IsTicket k)) valueLess). eauto using aq_ok_entries.
  - intros acc e He. unfold bestStep. by rewrite (aq_ok_entries h aq e Hok He).
Qed.
End AccountLoops.

Lemma entries_NoDup aq : NoDup (entries aq).*1.
Proof. apply NoDup_fst_map_to_list. Qed.

Lemma elem_of_entries aq sp c : (sp, c) ∈ entries aq <-> Transactions aq !! sp = Some c.
Proof. apply elem_of_map_to_list. Qed.

(** Whatever order Go's map iteration takes, the four searches an account
    queue runs over its map return the same candidate as the model's: any list
    that enumerates the same entries yields the same predecessor, successor and
    first relevant entry, because no two keys of a map compare equal. *)
Theorem account_searches_order_independent h aq sp l :
  aq_ok h aq -> l ≡ₚ entries aq ->
  prevLoop h sp l = PrevTx h aq sp /\ nextLoop h sp l = GetNextTx h aq sp /\
  firstRelevantLoop h sp l = FirstRelevant h aq sp /\ firstSeqLoop h l = FirstSeqTx h aq.
Proof.
  intros Hok Hp.
  assert (Hl : forall e, e ∈ l -> SeqProxyOf (h !!! e.2) = e.1)
    by (intros e He; rewrite Hp in He; by eapply aq_ok_entries).
  assert (Hnd : NoDup l.*1) by (rewrite Hp; apply entries_NoDup).
  assert (Hib : forall keep better r, is_best keep better (entries aq) r -> is_best keep better l r).
  { intros keep better [c|]; cbn; [|by setoid_rewrite Hp]. by setoid_rewrite Hp. }
  split_and!.
  - apply (is_best_unique (fun k => Less k sp) prevBetter l); [done| | |apply Hib, PrevTx_best, Hok].
    + intros a b. unfold prevBetter. intros. by apply Less_total.
    + by apply (bestLoop_best h (fun k => Less k sp) prevBetter).
  - apply (is_best_unique (Less sp) Less l);
      [done|eauto using Less_total| |apply Hib, GetNextTx_best, Hok].
    by apply (bestLoop_best h (Less sp) Less).
  - apply (is_best_unique (fun k => negb (Less k sp)) Less l);
      [done|eauto using Less_total| |apply Hib, FirstRelevant_best, Hok].
    by apply (bestLoop_best h (fun k => negb (Less k sp)) Less).
  - apply (is_best_unique (fun k => negb (IsTicket k)) valueLess l);
      [done| | |apply Hib, FirstSeqTx_best, Hok].
    + intros [v []] [v' []]; unfold valueLess; cbn; intros; try done. f_equal; lia.
    + unfold firstSeqLoop. erewrite foldl_ext_in.
      * by apply (bestLoop_best h (fun k => negb (IsTicket k)) valueLess).
      * intros acc e He. unfold bestStep. by rewrite (Hl e He).
Qed.

(** ** The fee order *)

Lemma bytes_compare_neg_trans a b c :
  bytes_compare b a <> Lt -> bytes_compare c b <> Lt -> bytes_compare c a <> Lt.
Proof.
  intros H1 H2 H3.
  destruct (bytes_compare b a) eqn:E1; [apply bytes_compare_eq in E1 as ->; done|done|].
  assert (Hab : bytes_compare a b = Lt) by (by rewrite bytes_compare_antisym, E1).
  by apply H2, (bytes_compare_lt_trans c a b).
Qed.

#[global] Instance candLess_strict hash : StrictWeak (candLess hash).
Proof.
  split; unfold candLess.
  - intros a. rewrite Z.eqb_refl; cbn.
    by rewrite (proj2 (bytes_compare_eq _ _) eq_refl).
  - intros a b c.
    destruct (Z.eqb_spec (FeeLevel a) (FeeLevel b)) as [Hab|Hab];
      destruct (Z.eqb_spec (FeeLevel b) (FeeLevel c)) as [Hbc|Hbc];
      destruct (Z.eqb_spec (FeeLevel a) (FeeLevel c)) as [Hac|Hac]; cbn; intros; try lia.
    destruct (bytes_compare (xorHash (TxID a) hash) (xorHash (TxID b) hash)) eqn:E1; try done.
    destruct (bytes_compare (xorHash (TxID b) hash) (xorHash (TxID c) hash)) eqn:E2; try done.
    by rewrite (bytes_compare_lt_trans _ _ _ E1 E2).
  - intros a b c.
    destruct (Z.eqb_spec (FeeLevel b) (FeeLevel a)) as [Hab|Hab];
      destruct (Z.eqb_spec (FeeLevel c) (FeeLevel b)) as [Hbc|Hbc];
      destruct (Z.eqb_spec (FeeLevel c) (FeeLevel a)) as [Hac|Hac]; cbn; intros; try lia.
    pose proof (bytes_compare_neg_trans (xorHash (TxID a) hash) (xorHash (TxID b) hash)
      (xorHash (TxID c) hash)) as Hn.
    destruct (bytes_compare (xorHash (TxID b) hash) _), (bytes_compare (xorHash (TxID c) hash) (xorHash (TxID b) _)),
      (bytes_compare (xorHash (TxID c) hash) (xorHash (TxID a) _)); try done; exfalso; by apply Hn.
Qed.

#[global] Instance candidateLess_strict q : StrictWeak (candidateLess q).
Proof.
  split; unfold candidateLess; intros.
  - apply less_irrefl.
  - by eapply less_trans.
  - by eapply less_neg_trans.
Qed.

(** Candidates that tie in the fee order have the same fee level and, for
    identifiers of the hash's length, the same identifier. *)
Lemma xorHash_inj hash a b :
  length a = length hash -> length b = length hash -> xorHash a hash = xorHash b hash -> a = b.
Proof.
  revert a b. induction hash as [|x hash IH]; intros [|y a] [|z b] Ha Hb H; try done.
  cbn in H. injection H as H1 H2. f_equal; [|by apply IH; auto].
  rewrite <- (Z.lxor_0_r y), <- (Z.lxor_0_r z), <- (Z.lxor_nilpotent x).
  by rewrite <- !Z.lxor_assoc, H1.
Qed.

Lemma candLess_tie hash a b :
  length (TxID a) = length hash -> length (TxID b) = length hash ->
  candLess hash a b = false -> candLess hash b a = false ->
  FeeLevel a = FeeLevel b /\ TxID a = TxID b.
Proof.
  intros Ha Hb. unfold candLess. rewrite (Z.eqb_sym (FeeLevel b)).
  destruct (Z.eqb_spec (FeeLevel a) (FeeLevel b)) as [Hf|Hf]; cbn; [|lia].
  rewrite (bytes_compare_antisym (xorHash (TxID a) hash)).
  destruct (bytes_compare (xorHash (TxID a) hash) (xorHash (TxID b) hash)) eqn:E; try done.
  intros _ _. split; [done|]. apply bytes_compare_eq in E. by eapply xorHash_inj.
Qed.

Lemma findInsertPosition_spec q c :
  sorted_by (candidateLess q) (byFee q) ->
  findInsertPosition q c = insertPos (candidateLess q) c (byFee q).
Proof.
  intros Hs. unfold findInsertPosition. apply searchLoop_spec.
  - intros i Hi. by apply insertPos_before.
  - intros i Hi. by apply insertPos_after; [apply _|..].
  - pose proof (insertPos_le (candidateLess q) c (byFee q)). lia.
  - lia.
Qed.

Lemma insertByFee_byFee q c :
  sorted_by (candidateLess q) (byFee q) ->
  byFee (insertByFee q c) = insert_by (candidateLess q) c (byFee q).
Proof.
  intros Hs. unfold insertByFee; cbn [byFee set_byFee set_byID]. rewrite findInsertPosition_spec by done.
  apply insertPos_insert.
Qed.

(** ** The invariant of the queue

    The fee index is duplicate free and sorted; it holds exactly the candidates
    filed in the account queues, each under its own account and sequence proxy;
    the identifier index only names queued candidates. *)
Record wf (q : TxQ) : Prop := mkWf {
  wf_nodup : NoDup (byFee q);
  wf_sorted : sorted_by (candidateLess q) (byFee q);
  wf_live c : c ∈ byFee q -> is_Some (heap q !! c);
  wf_filed c : c ∈ byFee q -> exists aq,
    byAccount q !! Account (cand q c) = Some aq /\
    Transactions aq !! SeqProxyOf (cand q c) = Some c;
  wf_account a aq : byAccount q !! a = Some aq -> AQAccount aq = a;
  wf_entry a aq sp c : byAccount q !! a = Some aq -> Transactions aq !! sp = Some c ->
    c ∈ byFee q /\ Account (cand q c) = a /\ SeqProxyOf (cand q c) = sp;
  wf_id id c : byID q !! id = Some c -> c ∈ byFee q /\ TxID (cand q c) = id }.

#[export] Hint Resolve wf_nodup wf_sorted : go.

Lemma wf_aq_ok q a aq : wf q -> byAccount q !! a = Some aq -> aq_ok (heap q) aq.
Proof. intros Hwf Ha sp c Hc. by eapply wf_entry. Qed.

(** Every queued candidate can be found by its identifier. *)
Definition ids_indexed (q : TxQ) : Prop :=
  forall c, c ∈ byFee q -> byID q !! TxID (cand q c) = Some c.

(** Transaction identifiers determine the account and the sequence proxy, as a
    collision-free hash of the transaction does. *)
Definition ids_keyed (key : bytes -> bytes * SeqProxy) (q : TxQ) : Prop :=
  forall c, c ∈ byFee q -> key (TxID (cand q c)) = (Account (cand q c), SeqProxyOf (cand q c)).

Lemma keyed_unique key q c d :
  wf q -> ids_keyed key q -> c ∈ byFee q -> d ∈ byFee q ->
  TxID (cand q c) = TxID (cand q d) -> c = d.
Proof.
  intros Hwf Hk Hc Hd He. pose proof (Hk c Hc) as Kc. pose proof (Hk d Hd) as Kd.
  rewrite He, Kd in Kc. injection Kc as Ha Hs.
  destruct (wf_filed q Hwf c Hc) as (aq & Haq & Htx).
  destruct (wf_filed q Hwf d Hd) as (aq' & Haq' & Htx').
  rewrite <- Ha, Haq' in Haq. injection Haq as ->. congruence.
Qed.

(** *** Erasing *)

Lemma removeFirst_None c l : removeFirst c l = None <-> c ∉ l.
Proof.
  induction l as [|x l IH]; cbn [removeFirst]; [split; [intros _; apply not_elem_of_nil|done]|].
  rewrite not_elem_of_cons. destruct (Nat.eqb_spec x c) as [->|Hne]; [naive_solver|].
  rewrite fmap_None, IH. naive_solver.
Qed.

Lemma removeFirst_Some c l l' :
  removeFirst c l = Some l' -> l ≡ₚ c :: l' /\ l' `sublist_of` l.
Proof.
  revert l'. induction l as [|x l IH]; cbn [removeFirst]; intros l'; [done|].
  destruct (Nat.eqb_spec x c) as [->|Hne].
  - intros [= <-]. split; [done|by constructor].
  - intros (k & Hk & ->)%fmap_Some. destruct (IH k Hk) as [Hp Hs].
    split; [rewrite Hp; apply Permutation_swap|by constructor].
Qed.

Lemma removeFirst_elem c l l' :
  NoDup l -> removeFirst c l = Some l' -> forall x, x ∈ l' <-> x ∈ l /\ x <> c.
Proof.
  intros Hnd [Hp _]%removeFirst_Some x. rewrite Hp in Hnd |- *.
  apply list.NoDup_cons in Hnd as [Hc _]. rewrite elem_of_cons. naive_solver.
Qed.

(** Erasing a queued candidate, index by index. *)
Record erased (q : TxQ) (c : cptr) (q' : TxQ) : Prop := mkErased {
  er_perm : byFee q ≡ₚ c :: byFee q';
  er_sub : byFee q' `sublist_of` byFee q;
  er_heap : heap q' = heap q;
  er_hash : parentHash q' = parentHash q;
  er_config : config q' = config q;
  er_metrics : metrics q' = metrics q;
  er_maxSize : maxSize q' = maxSize q;
  er_account : byAccount q' = alter (fun aq => set_transactions aq
    (delete (SeqProxyOf (cand q c)) (Transactions aq))) (Account (cand q c)) (byAccount q);
  er_id : byID q' = (if bool_decide (byID q !! TxID (cand q c) = Some c)
                     then delete (TxID (cand q c)) (byID q) else byID q) }.

Lemma erase_spec q c : wf q -> c ∈ byFee q -> erased q c (erase q c).
Proof.
  intros Hwf Hc. unfold erase, removeByFee.
  destruct (removeFirst c (byFee q)) as [l|] eqn:E; [|by apply removeFirst_None in E].
  destruct (removeFirst_Some _ _ _ E) as [Hp Hsub].
  destruct (wf_filed q Hwf c Hc) as (aq & Haq & Htx).
  set (q1 := dropID (set_byFee q l) c).
  assert (Hh : heap q1 = heap q /\ byAccount q1 = byAccount q /\ byFee q1 = l /\
    byID q1 = (if bool_decide (byID q !! TxID (cand q c) = Some c)
               then delete (TxID (cand q c)) (byID q) else byID q)).
  { subst q1. unfold dropID. unfold cand; cbn [heap byID set_byFee]. by case_bool_decide. }
  assert (Hr : parentHash q1 = parentHash q /\ config q1 = config q /\
    metrics q1 = metrics q /\ maxSize q1 = maxSize q).
  { subst q1. unfold dropID. by destruct (bool_decide _). }
  destruct Hh as (H1 & H2 & H3 & H4), Hr as (H5 & H6 & H7 & H8). clearbody q1.
  unfold cand in *. rewrite H1, H2, Haq.
  unfold removeCandidate. rewrite Htx, Nat.eqb_refl; cbn [fst].
  set (q2 := set_byAccount q1 _).
  assert (Hd : dropID q2 c = q2).
  { unfold dropID. rewrite bool_decide_eq_false_2; [done|]. subst q2; unfold cand; cbn.
    rewrite H1, H4. case_bool_decide as Ei; [by rewrite lookup_delete_eq|done]. }
  rewrite Hd. constructor; subst q2; cbn; rewrite ?H3; try congruence; try done.
  unfold cand. apply map_eq. intros a. rewrite lookup_alter.
  destruct (decide (Account (heap q !!! c) = a)) as [<-|Hne].
  - by rewrite lookup_insert_eq, Haq.
  - by rewrite lookup_insert_ne.
Qed.

Lemma erase_absent q c : wf q -> c ∉ byFee q -> erase q c = q.
Proof.
  intros Hwf Hc. unfold erase, removeByFee. rewrite (proj2 (removeFirst_None _ _) Hc).
  assert (Hd : forall q', heap q' = heap q -> byID q' = byID q -> dropID q' c = q').
  { intros q' Hh Hi. unfold dropID, cand. rewrite Hh, Hi.
    case_bool_decide as E; [|done]. by apply (wf_id q Hwf) in E as [??]. }
  destruct (byAccount q !! Account (cand q c)) as [aq|] eqn:Ea; [|by apply Hd].
  assert (Hr : (removeCandidate (heap q) aq c).1 = aq).
  { unfold removeCandidate. destruct (Transactions aq !! _) as [x|] eqn:Et; [|done].
    destruct (Nat.eqb_spec x c) as [->|]; [|done].
    by eapply wf_entry in Et as [??]; [|done..]. }
  rewrite Hr, insert_id by done. destruct q. by apply Hd.
Qed.

Lemma er_cand q c q' d : erased q c q' -> cand q' d = cand q d.
Proof. intros He. unfold cand. by rewrite (er_heap _ _ _ He). Qed.

Lemma er_less q c q' a b : erased q c q' -> candidateLess q' a b = candidateLess q a b.
Proof. intros He. unfold candidateLess, cand. by rewrite (er_heap _ _ _ He), (er_hash _ _ _ He). Qed.

Lemma er_elem q c q' x : wf q -> erased q c q' -> x ∈ byFee q' <-> x ∈ byFee q /\ x <> c.
Proof.
  intros Hwf He. pose proof (wf_nodup q Hwf) as Hnd. rewrite (er_perm _ _ _ He) in Hnd |- *.
  apply list.NoDup_cons in Hnd as [Hc _]. rewrite elem_of_cons. naive_solver.
Qed.

(** The account queues after an erasure hold the same candidates but [c]. *)
Lemma er_lookup q c q' a aq' :
  erased q c q' -> byAccount q' !! a = Some aq' -> exists aq,
    byAccount q !! a = Some aq /\ AQAccount aq' = AQAccount aq /\
    DropPenalty aq' = DropPenalty aq /\ RetryPenalty aq' = RetryPenalty aq /\
    forall sp, Transactions aq' !! sp =
      if bool_decide (a = Account (cand q c) /\ sp = SeqProxyOf (cand q c)) then None
      else Transactions aq !! sp.
Proof.
  intros He. rewrite (er_account _ _ _ He). destruct (decide (a = Account (cand q c))) as [->|Hne].
  - rewrite lookup_alter_eq. intros (aq & Haq & ->)%fmap_Some. exists aq. split_and!; [done..|].
    intros sp; cbn. case_bool_decide as E.
    + destruct E as [_ ->]. by rewrite lookup_delete_eq.
    + rewrite lookup_delete_ne; naive_solver.
  - rewrite lookup_alter_ne by done. intros Haq. exists aq'. split_and!; [done..|].
    intros sp. rewrite bool_decide_eq_false_2; naive_solver.
Qed.

Lemma wf_entry_inj q a aq sp c a' aq' sp' :
  wf q -> byAccount q !! a = Some aq -> Transactions aq !! sp = Some c ->
  byAccount q !! a' = Some aq' -> Transactions aq' !! sp' = Some c -> a = a' /\ sp = sp'.
Proof.
  intros Hwf H1 H2 H3 H4. destruct (wf_entry q Hwf _ _ _ _ H1 H2) as (_ & <- & <-).
  by destruct (wf_entry q Hwf _ _ _ _ H3 H4) as (_ & <- & <-).
Qed.

Lemma erased_wf q c q' : wf q -> erased q c q' -> wf q'.
Proof.
  intros Hwf He. constructor.
  - pose proof (wf_nodup q Hwf) as Hnd. rewrite (er_perm _ _ _ He) in Hnd.
    by apply list.NoDup_cons in Hnd as [_ ?].
  - eapply sorted_by_ext; [|eapply sorted_by_sublist; [eapply er_sub|apply (wf_sorted q)]; eauto].
    intros a b _ _. symmetry. by eapply er_less.
  - intros d [Hd _]%(er_elem _ _ _ _ Hwf He). rewrite (er_heap _ _ _ He). by apply wf_live.
  - intros d Hd. rewrite (er_cand q c q' d He). apply (er_elem _ _ _ _ Hwf He) in Hd as [Hd Hne].
    destruct (wf_filed q Hwf d Hd) as (aq & Haq & Htx).
    assert (Hs : is_Some (byAccount q' !! Account (cand q d))).
    { rewrite (er_account _ _ _ He). apply lookup_alter_is_Some. eauto. }
    destruct Hs as [aq' Haq']. exists aq'. split; [done|].
    destruct (er_lookup _ _ _ _ _ He Haq') as (aq0 & Haq0 & _ & _ & _ & Hl).
    rewrite Hl. case_bool_decide as E; [|congruence].
    destruct E as [Ea Es].
    destruct (wf_filed q Hwf c) as (aq1 & Haq1 & Htx1); [rewrite (er_perm _ _ _ He); left|].
    rewrite <- Ea, Haq in Haq1. injection Haq1 as <-. rewrite <- Es, Htx in Htx1. congruence.
  - intros a aq' Haq'. destruct (er_lookup _ _ _ _ _ He Haq') as (aq & Haq & -> & _).
    by eapply wf_account.
  - intros a aq' sp d Haq' Hd.
    destruct (er_lookup _ _ _ _ _ He Haq') as (aq & Haq & _ & _ & _ & Hl).
    rewrite Hl in Hd. case_bool_decide as E; [done|].
    destruct (wf_entry q Hwf a aq sp d Haq Hd) as (H1 & H2 & H3).
    rewrite (er_cand q c q' d He). split; [|done]. apply (er_elem _ _ _ _ Hwf He).
    split; [done|]. intros ->. by apply E.
  - intros id d. rewrite (er_id _ _ _ He), (er_cand q c q' d He), (er_elem _ _ _ _ Hwf He).
    case_bool_decide as E.
    + intros [Hne Hd]%lookup_delete_Some. destruct (wf_id q Hwf _ _ Hd) as [? <-]. naive_solver.
    + intros Hd. destruct (wf_id q Hwf _ _ Hd) as [? <-]. split; [|done]. split; [done|].
      by intros ->.
Qed.

Lemma erase_wf q c : wf q -> wf (erase q c).
Proof.
  intros Hwf. destruct (decide (c ∈ byFee q)) as [Hc|Hc].
  - eapply erased_wf; [done|by apply erase_spec].
  - by rewrite erase_absent.
Qed.

Lemma erase_elem q c x : wf q -> x ∈ byFee (erase q c) <-> x ∈ byFee q /\ x <> c.
Proof.
  intros Hwf. destruct (decide (c ∈ byFee q)) as [Hc|Hc].
  - by eapply er_elem; [|apply erase_spec].
  - rewrite erase_absent by done. split; [|naive_solver]. intros Hx. split; [done|]. by intros ->.
Qed.

(** What an erasure leaves alone. *)
Lemma erase_heap q c : heap (erase q c) = heap q.
Proof.
  unfold erase, removeByFee, dropID.
  destruct (removeFirst c (byFee q)); repeat (case_match || case_bool_decide); done.
Qed.

Lemma erase_ids q c : wf q -> ids_indexed q -> ids_indexed (erase q c).
Proof.
  intros Hwf Hi. destruct (decide (c ∈ byFee q)) as [Hc|Hc]; [|by rewrite erase_absent].
  pose proof (erase_spec q c Hwf Hc) as He. intros d Hd.
  rewrite (er_cand q c _ d He), (er_id _ _ _ He).
  apply (er_elem _ _ _ _ Hwf He) in Hd as [Hd Hne]. pose proof (Hi d Hd) as Hid.
  case_bool_decide as E; [|done]. rewrite lookup_delete_ne; [done|].
  intros Heq. rewrite <- Heq, E in Hid. congruence.
Qed.

(** *** Inserting *)

(** [q'] is [q] with the candidates of [l] added to the fee and id indices. *)
Record inserted (q : TxQ) (l : list cptr) (q' : TxQ) : Prop := mkInserted {
  in_perm : byFee q' ≡ₚ byFee q ++ l;
  in_sorted : sorted_by (candidateLess q') (byFee q');
  in_heap : heap q' = heap q;
  in_hash : parentHash q' = parentHash q;
  in_config : config q' = config q;
  in_metrics : metrics q' = metrics q;
  in_maxSize : maxSize q' = maxSize q;
  in_txqFull : txqFull q' = txqFull q;
  in_account : byAccount q' = byAccount q;
  in_id id c : byID q' !! id = Some c ->
    byID q !! id = Some c \/ (c ∈ l /\ TxID (cand q c) = id);
  in_index c : c ∈ l \/ byID q !! TxID (cand q c) = Some c ->
    (forall d, d ∈ l -> TxID (cand q d) = TxID (cand q c) -> d = c) ->
    byID q' !! TxID (cand q c) = Some c }.

Lemma insertByFee_inserted q c :
  sorted_by (candidateLess q) (byFee q) -> inserted q [c] (insertByFee q c).
Proof.
  intros Hs. constructor; try done.
  - rewrite insertByFee_byFee by done. rewrite insert_by_perm. by rewrite Permutation_app_comm.
  - rewrite insertByFee_byFee by done. by apply (insert_by_sorted (candidateLess q)).
  - intros id d. unfold insertByFee; cbn [byID set_byID set_byFee].
    unfold cand; cbn [heap set_byFee].
    intros [[<- <-]|[_ ?]]%lookup_insert_Some; [right; split; [left|done]|by left].
  - intros d Hd Hu. unfold insertByFee; cbn [byID set_byID set_byFee].
    unfold cand in *; cbn [heap set_byFee].
    destruct (decide (TxID (heap q !!! c) = TxID (heap q !!! d))) as [He|He].
    + rewrite (Hu c) by (done || left). apply lookup_insert_eq.
    + rewrite lookup_insert_ne by done. destruct Hd as [->%list_elem_of_singleton|Hd]; done.
Qed.

Lemma inserted_cand q l q' c : inserted q l q' -> cand q' c = cand q c.
Proof. intros Hi. unfold cand. by rewrite (in_heap _ _ _ Hi). Qed.

Lemma inserted_trans q l q' l' q'' :
  inserted q l q' -> inserted q' l' q'' -> inserted q (l ++ l') q''.
Proof.
  intros H1 H2. constructor.
  - rewrite (in_perm _ _ _ H2), (in_perm _ _ _ H1). by rewrite (assoc (++)).
  - apply (in_sorted _ _ _ H2).
  - by rewrite (in_heap _ _ _ H2), (in_heap _ _ _ H1).
  - by rewrite (in_hash _ _ _ H2), (in_hash _ _ _ H1).
  - by rewrite (in_config _ _ _ H2), (in_config _ _ _ H1).
  - by rewrite (in_metrics _ _ _ H2), (in_metrics _ _ _ H1).
  - by rewrite (in_maxSize _ _ _ H2), (in_maxSize _ _ _ H1).
  - by rewrite (in_txqFull _ _ _ H2), (in_txqFull _ _ _ H1).
  - by rewrite (in_account _ _ _ H2), (in_account _ _ _ H1).
  - intros id c Hc. apply (in_id _ _ _ H2) in Hc as [Hc|[Hc <-]].
    + apply (in_id _ _ _ H1) in Hc as [Hc|[Hc <-]]; [by left|right; set_solver].
    + right. rewrite (inserted_cand _ _ _ _ H1). set_solver.
  - intros c Hc Hu. rewrite <- (inserted_cand _ _ _ c H1). apply (in_index _ _ _ H2).
    + destruct (decide (c ∈ l')) as [Hin|Hin]; [by left|right].
      rewrite (inserted_cand _ _ _ c H1). apply (in_index _ _ _ H1); [set_solver|].
      intros d Hd. apply Hu. set_solver.
    + intros d Hd. rewrite !(inserted_cand _ _ _ _ H1). apply Hu. set_solver.
Qed.

Lemma inserted_nil q : sorted_by (candidateLess q) (byFee q) -> inserted q [] q.
Proof.
  intros Hs. constructor; try done.
  - by rewrite app_nil_r.
  - intros id c ?. by left.
  - intros c [Hc|Hc] _; [by apply elem_of_nil in Hc|done].
Qed.

Lemma insertMany q l :
  sorted_by (candidateLess q) (byFee q) -> inserted q l (foldl insertByFee q l).
Proof.
  induction l as [|c l IH] using rev_ind; intros Hs; [by apply inserted_nil|].
  rewrite foldl_app. eapply inserted_trans; [by apply IH|].
  apply insertByFee_inserted, (in_sorted _ _ _ (IH Hs)).
Qed.

(** Indices rebuilt from scratch over a duplicate-free list of the candidates
    the account queues hold restore the invariant. *)
Definition filed (q : TxQ) (c : cptr) : Prop :=
  exists a aq sp, byAccount q !! a = Some aq /\ Transactions aq !! sp = Some c.

Lemma wf_filed_iff q c : wf q -> c ∈ byFee q <-> filed q c.
Proof.
  intros Hwf. split.
  - intros (aq & H1 & H2)%(wf_filed q Hwf). by exists (Account (cand q c)), aq, (SeqProxyOf (cand q c)).
  - intros (a & aq & sp & H1 & H2). by eapply wf_entry.
Qed.

(** *** Rebuilding *)

Definition accountsOf (q : TxQ) : list bytes := sort_by bytesLess (map_to_list (byAccount q)).*1.

Definition rebuildOrder (q : TxQ) : list cptr :=
  a ← accountsOf q;
  match byAccount q !! a with Some aq => SortedCandidates (heap q) aq | None => [] end.

Lemma SortedCandidates_elem h aq c :
  c ∈ SortedCandidates h aq <-> exists sp, Transactions aq !! sp = Some c.
Proof.
  unfold SortedCandidates. rewrite sort_by_perm, list_elem_of_fmap. split.
  - intros ([sp d] & -> & Hd%elem_of_entries). by exists sp.
  - intros [sp Hsp%elem_of_entries]. by exists (sp, c).
Qed.

Lemma SortedCandidates_NoDup h aq : aq_ok h aq -> NoDup (SortedCandidates h aq).
Proof.
  intros Hok. unfold SortedCandidates. rewrite sort_by_perm.
  apply NoDup_fmap_2_strong; [|apply NoDup_map_to_list].
  intros [sp c] [sp' c'] H1%elem_of_entries H2%elem_of_entries; cbn; intros ->.
  apply Hok in H1, H2. congruence.
Qed.

Lemma accountsOf_elem q a : a ∈ accountsOf q <-> is_Some (byAccount q !! a).
Proof.
  unfold accountsOf. rewrite sort_by_perm, list_elem_of_fmap. split.
  - intros ([a' aq] & -> & Ha%elem_of_map_to_list). by exists aq.
  - intros [aq Ha%elem_of_map_to_list]. by exists (a, aq).
Qed.

Lemma rebuildOrder_elem q c : c ∈ rebuildOrder q <-> filed q c.
Proof.
  unfold rebuildOrder. rewrite list_elem_of_bind. split.
  - intros (a & Hc & [aq Ha]%accountsOf_elem). rewrite Ha in Hc.
    apply SortedCandidates_elem in Hc as [sp Hsp]. by exists a, aq, sp.
  - intros (a & aq & sp & Ha & Hsp). exists a. rewrite Ha, SortedCandidates_elem, accountsOf_elem.
    eauto.
Qed.

Lemma rebuildOrder_NoDup q : wf q -> NoDup (rebuildOrder q).
Proof.
  intros Hwf. unfold rebuildOrder.
  assert (Hnd : NoDup (accountsOf q))
    by (unfold accountsOf; rewrite sort_by_perm; apply NoDup_fst_map_to_list).
  induction Hnd as [|a l Ha Hnd IH]; cbn; [constructor|].
  apply list.NoDup_app. split_and!; [|intros c Hc Hc'|apply IH].
  - destruct (byAccount q !! a) as [aq|] eqn:E; [|constructor].
    by eapply SortedCandidates_NoDup, wf_aq_ok.
  - destruct (byAccount q !! a) as [aq|] eqn:E; [|by apply elem_of_nil in Hc].
    apply SortedCandidates_elem in Hc as [sp Hsp].
    apply list_elem_of_bind in Hc' as (a' & Hc' & Ha').
    destruct (byAccount q !! a') as [aq'|] eqn:E'; [|by apply elem_of_nil in Hc'].
    apply SortedCandidates_elem in Hc' as [sp' Hsp'].
    by destruct (wf_entry_inj _ _ _ _ _ _ _ _ Hwf E Hsp E' Hsp') as [-> _].
Qed.

Lemma foldl_bind {A B C} (f : C -> B -> C) (g : A -> list B) l c :
  foldl f c (l ≫= g) = foldl (fun c a => foldl f c (g a)) c l.
Proof. revert c. induction l as [|a l IH]; intros c; cbn; [done|]. by rewrite foldl_app, IH. Qed.

(** The nested loops insert the candidates in [rebuildOrder]. *)
Lemma rebuildByFee_foldl q :
  rebuildByFee q = foldl insertByFee (set_byID (set_byFee q []) ∅) (rebuildOrder q).
Proof.
  unfold rebuildByFee, rebuildOrder. rewrite foldl_bind. fold (accountsOf q).
  cbn [byAccount set_byID set_byFee]. fold (accountsOf q).
  set (q0 := set_byID (set_byFee q []) ∅).
  assert (Hg : forall l q', byAccount q' = byAccount q -> heap q' = heap q ->
    sorted_by (candidateLess q') (byFee q') ->
    foldl (fun q a => match byAccount q !! a with
                      | Some aq => foldl insertByFee q (SortedCandidates (heap q) aq)
                      | None => q end) q' l =
    foldl (fun c a => foldl insertByFee c
             match byAccount q !! a with
             | Some aq => SortedCandidates (heap q) aq | None => [] end) q' l).
  { induction l as [|a l IH]; intros q' Ha Hh Hs; cbn; [done|]. rewrite Ha, Hh.
    destruct (byAccount q !! a) as [aq|]; [|by apply IH].
    pose proof (insertMany q' (SortedCandidates (heap q) aq) Hs) as Hi.
    apply IH; [by rewrite (in_account _ _ _ Hi)|by rewrite (in_heap _ _ _ Hi)|].
    apply (in_sorted _ _ _ Hi). }
  apply Hg; [done..|]. constructor.
Qed.

Lemma rebuild_spec q h :
  wf q -> let q' := rebuildByFee (set_parentHash q h) in
  wf q' /\ byFee q' ≡ₚ byFee q /\ heap q' = heap q /\ byAccount q' = byAccount q /\
  parentHash q' = h /\ config q' = config q /\ metrics q' = metrics q /\ maxSize q' = maxSize q.
Proof.
  intros Hwf q'.
  pose proof (insertMany (set_byID (set_byFee (set_parentHash q h) []) ∅)
    (rebuildOrder (set_parentHash q h)) ltac:(constructor)) as Hi.
  rewrite <- rebuildByFee_foldl in Hi. fold q' in Hi. clearbody q'.
  assert (Hp : byFee q' ≡ₚ byFee q).
  { rewrite (in_perm _ _ _ Hi); cbn. apply NoDup_Permutation.
    - by apply (rebuildOrder_NoDup q).
    - by apply wf_nodup.
    - intros c. change (rebuildOrder (set_parentHash q h)) with (rebuildOrder q).
      by rewrite rebuildOrder_elem, wf_filed_iff. }
  assert (Hh : heap q' = heap q) by apply (in_heap _ _ _ Hi).
  assert (Ha : byAccount q' = byAccount q) by apply (in_account _ _ _ Hi).
  assert (Hc : forall c, cand q' c = cand q c) by (intros c; unfold cand; by rewrite Hh).
  split_and!; [|done..|apply (in_hash _ _ _ Hi)|apply (in_config _ _ _ Hi)
    |apply (in_metrics _ _ _ Hi)|apply (in_maxSize _ _ _ Hi)].
  constructor.
  - rewrite Hp. by apply wf_nodup.
  - apply (in_sorted _ _ _ Hi).
  - intros c. rewrite Hp, Hh. by apply wf_live.
  - intros c. rewrite Hp, Ha, Hc. by apply wf_filed.
  - intros a aq. rewrite Ha. by apply wf_account.
  - intros a aq sp c. rewrite Ha, Hc, Hp. by apply wf_entry.
  - intros id c [Hid|[Hid <-]]%(in_id _ _ _ Hi); [by cbn [byID set_byID] in Hid; rewrite lookup_empty in Hid|].
    rewrite Hp, Hc. split; [|done]. change (c ∈ rebuildOrder q) in Hid.
    by rewrite rebuildOrder_elem, <- wf_filed_iff in Hid.
Qed.

Lemma rebuild_ids q h key :
  wf q -> ids_keyed key q ->
  let q' := rebuildByFee (set_parentHash q h) in ids_keyed key q' /\ ids_indexed q'.
Proof.
  intros Hwf Hk q'. destruct (rebuild_spec q h Hwf) as (Hwf' & Hp & Hh & _). fold q' in Hwf', Hp, Hh.
  assert (Hc : forall c, cand q' c = cand q c) by (intros c; unfold cand; by rewrite Hh).
  split.
  - intros c. rewrite Hp, Hc. apply Hk.
  - intros c Hin. rewrite Hp in Hin.
    pose proof (insertMany (set_byID (set_byFee (set_parentHash q h) []) ∅)
      (rebuildOrder (set_parentHash q h)) ltac:(constructor)) as Hi.
    rewrite <- rebuildByFee_foldl in Hi. fold q' in Hi. rewrite Hc.
    apply (in_index _ _ _ Hi c).
    + left. change (c ∈ rebuildOrder q). rewrite rebuildOrder_elem. by apply wf_filed_iff.
    + intros d Hd He. change (d ∈ rebuildOrder q) in Hd.
      apply rebuildOrder_elem, wf_filed_iff in Hd; [|done]. exact (keyed_unique key q d c Hwf Hk Hd Hin He).
Qed.

(** Identifiers have the length of the hash they are mixed with. *)
Definition ids_sized (q : TxQ) : Prop :=
  length (parentHash q) = 32%nat /\ forall c, c ∈ byFee q -> length (TxID (cand q c)) = 32%nat.

Lemma sorted_by_fmap {A B} (f : A -> B) (less : B -> B -> bool) l :
  sorted_by (fun a b => less (f a) (f b)) l -> sorted_by less (f <$> l).
Proof.
  unfold sorted_by. induction 1 as [|x l Hs IH Hx]; cbn; constructor; [done|].
  apply list.Forall_forall. intros y (a & -> & Ha)%list_elem_of_fmap.
  by eapply list.Forall_forall in Hx.
Qed.

(** The fee index is a function of the queue's contents: two well-formed
    queues that hold the same candidates under the same parent hash list them
    in the same order, whatever insertions, erasures and rebuilds led there,
    provided no two of them share an identifier. *)
Theorem fee_order_canonical q q' :
  wf q -> wf q' -> ids_sized q -> parentHash q' = parentHash q ->
  cand q <$> byFee q ≡ₚ cand q' <$> byFee q' -> NoDup (TxID <$> (cand q <$> byFee q)) ->
  cand q <$> byFee q = cand q' <$> byFee q'.
Proof.
  intros Hwf Hwf' [Hl Hs] Hh Hp Hnd.
  apply (sorted_by_unique (candLess (parentHash q))); [| |done|].
  - apply sorted_by_fmap, wf_sorted, Hwf.
  - rewrite <- Hh. apply sorted_by_fmap, wf_sorted, Hwf'.
  - intros a b Ha Hb H1 H2.
    assert (Hlen : forall x, x ∈ cand q <$> byFee q -> length (TxID x) = length (parentHash q)).
    { intros x (c & -> & Hc)%list_elem_of_fmap. by rewrite Hl, Hs. }
    destruct (candLess_tie (parentHash q) a b) as [_ He]; [by apply Hlen..|done|done|].
    apply list_elem_of_lookup in Ha as [i Hi], Hb as [j Hj].
    assert (i = j) as ->; [|congruence].
    eapply NoDup_lookup; [exact Hnd| |]; rewrite list_lookup_fmap.
    + by rewrite Hi.
    + by rewrite Hj, He.
Qed.

(** *** Updates that leave the indices alone

    Penalties, retry counts and cached verdicts can change freely: the indices
    only depend on a candidate's identifier, account, fee level and sequence
    proxy. *)
Definition ckey (c : candidate) : bytes * bytes * Z * SeqProxy :=
  (TxID c, Account c, FeeLevel c, SeqProxyOf c).
Definition aview (aq : accountQueue) : bytes * gmap SeqProxy cptr := (AQAccount aq, Transactions aq).

Record same_index (q q' : TxQ) : Prop := mkSameIndex {
  si_byFee : byFee q' = byFee q;
  si_byID : byID q' = byID q;
  si_hash : parentHash q' = parentHash q;
  si_config : config q' = config q;
  si_metrics : metrics q' = metrics q;
  si_maxSize : maxSize q' = maxSize q;
  si_account a : aview <$> (byAccount q' !! a) = aview <$> (byAccount q !! a);
  si_live c : is_Some (heap q !! c) -> is_Some (heap q' !! c);
  si_key c : ckey (cand q' c) = ckey (cand q c) }.

#[global] Instance same_index_refl : Reflexive same_index.
Proof. by constructor. Qed.

#[global] Instance same_index_trans : Transitive same_index.
Proof.
  intros q1 q2 q3 [] []. constructor; try congruence; eauto.
Qed.

Lemma si_cand q q' c : same_index q q' ->
  TxID (cand q' c) = TxID (cand q c) /\ Account (cand q' c) = Account (cand q c) /\
  FeeLevel (cand q' c) = FeeLevel (cand q c) /\ SeqProxyOf (cand q' c) = SeqProxyOf (cand q c).
Proof. intros Hs. pose proof (si_key _ _ Hs c) as Hk. by injection Hk. Qed.

Lemma si_lookup q q' a aq' : same_index q q' -> byAccount q' !! a = Some aq' ->
  exists aq, byAccount q !! a = Some aq /\ AQAccount aq' = AQAccount aq /\
    Transactions aq' = Transactions aq.
Proof.
  intros Hs Ha. pose proof (si_account _ _ Hs a) as He. rewrite Ha in He; cbn in He.
  symmetry in He. apply fmap_Some in He as (aq & ? & [= ??]). by exists aq.
Qed.

Lemma si_lookup_r q q' a aq : same_index q q' -> byAccount q !! a = Some aq ->
  exists aq', byAccount q' !! a = Some aq' /\ AQAccount aq' = AQAccount aq /\
    Transactions aq' = Transactions aq.
Proof.
  intros Hs Ha. pose proof (si_account _ _ Hs a) as He. rewrite Ha in He; cbn in He.
  apply fmap_Some in He as (aq' & ? & [= ??]). by exists aq'.
Qed.

Lemma si_less q q' a b : same_index q q' -> candidateLess q' a b = candidateLess q a b.
Proof.
  intros Hs. unfold candidateLess, candLess.
  destruct (si_cand _ _ a Hs) as (-> & _ & -> & _), (si_cand _ _ b Hs) as (-> & _ & -> & _).
  by rewrite (si_hash _ _ Hs).
Qed.

Lemma same_index_wf q q' : same_index q q' -> wf q -> wf q'.
Proof.
  intros Hs Hwf. constructor; rewrite ?(si_byFee _ _ Hs), ?(si_byID _ _ Hs).
  - by apply wf_nodup.
  - eapply sorted_by_ext; [|by apply (wf_sorted q)]. intros a b _ _. symmetry. by apply si_less.
  - intros c Hc. by apply (si_live _ _ Hs), wf_live.
  - intros c Hc. destruct (si_cand _ _ c Hs) as (_ & -> & _ & ->).
    destruct (wf_filed q Hwf c Hc) as (aq & Ha & Ht).
    destruct (si_lookup_r _ _ _ _ Hs Ha) as (aq' & Ha' & _ & He). exists aq'. by rewrite He.
  - intros a aq' Ha'. destruct (si_lookup _ _ _ _ Hs Ha') as (aq & Ha & -> & _).
    by apply (wf_account q).
  - intros a aq' sp c Ha' Hc. destruct (si_lookup _ _ _ _ Hs Ha') as (aq & Ha & _ & He).
    destruct (si_cand _ _ c Hs) as (_ & -> & _ & ->). rewrite He in Hc. by eapply wf_entry.
  - intros id c. destruct (si_cand _ _ c Hs) as (-> & _). by apply wf_id.
Qed.

Lemma same_index_ids q q' : same_index q q' -> ids_indexed q -> ids_indexed q'.
Proof.
  intros Hs Hi c. rewrite (si_byFee _ _ Hs), (si_byID _ _ Hs).
  destruct (si_cand _ _ c Hs) as (-> & _). apply Hi.
Qed.

Lemma penalise_same q a aq aq' :
  byAccount q !! a = Some aq -> aview aq' = aview aq ->
  same_index q (set_byAccount q (<[a := aq']> (byAccount q))).
Proof.
  intros Ha He. constructor; try done. intros b; cbn.
  destruct (decide (a = b)) as [<-|Hne].
  - by rewrite lookup_insert_eq, Ha; cbn; rewrite He.
  - by rewrite lookup_insert_ne.
Qed.

Lemma write_same q c v :
  ckey v = ckey (cand q c) -> same_index q (write q c v).
Proof.
  intros He. unfold write. constructor; try done.
  - intros d Hd; cbn. destruct (decide (c = d)) as [<-|Hne].
    + rewrite lookup_insert_eq. eauto.
    + by rewrite lookup_insert_ne.
  - intros d. unfold cand; cbn. destruct (decide (c = d)) as [<-|Hne].
    + by rewrite lookup_total_insert_eq.
    + by rewrite lookup_total_insert_ne.
Qed.

(** *** Adding a new candidate (the end of Apply) *)

(** A pointer not yet in use. *)
Definition alloc (h : store) : cptr := S (foldr Nat.max 0%nat (map_to_list h).*1).

Lemma alloc_fresh h : h !! alloc h = None.
Proof.
  destruct (h !! alloc h) as [v|] eqn:E; [|done]. exfalso.
  assert (Hin : alloc h ∈ (map_to_list h).*1).
  { apply list_elem_of_fmap. exists (alloc h, v). by rewrite elem_of_map_to_list. }
  unfold alloc in Hin. revert Hin. generalize (map_to_list h).*1 as l. clear.
  intros l. assert (H : forall x, x ∈ l -> (x <= foldr Nat.max 0 l)%nat).
  { induction l as [|y l IH]; intros x; [by intros ?%elem_of_nil|].
    intros [->|Hx]%elem_of_cons; cbn; [lia|]. specialize (IH x Hx). lia. }
  intros Hin%H. lia.
Qed.

(** Allocates the candidate, files it in its account's queue (created when
    there is none) and inserts it in the fee and identifier indices. *)
Definition addCandidate (q : TxQ) (v : candidate) : TxQ :=
  let c := alloc (heap q) in
  let q := set_heap q (<[c := v]> (heap q)) in
  let aq := match byAccount q !! Account v with
            | Some aq => aq
            | None => newAccountQueue (Account v)
            end in
  let q := set_byAccount q (<[Account v := Add (heap q) aq c]> (byAccount q)) in
  insertByFee q c.

Lemma wf_fresh q : wf q -> alloc (heap q) ∉ byFee q.
Proof.
  intros Hwf Hc%(wf_live q Hwf). rewrite alloc_fresh in Hc. by apply is_Some_None in Hc.
Qed.

Section AddCandidate.
Context (q : TxQ) (v : candidate).
Context (Hwf : wf q).
Context (Hfree : forall aq, byAccount q !! Account v = Some aq ->
  Transactions aq !! SeqProxyOf v = None).

Let c := alloc (heap q).
Let aq0 := match byAccount q !! Account v with
           | Some aq => aq
           | None => newAccountQueue (Account v)
           end.
Let q1 := set_byAccount (set_heap q (<[c := v]> (heap q)))
            (<[Account v := Add (<[c := v]> (heap q)) aq0 c]> (byAccount q)).

Lemma add_unfold : addCandidate q v = insertByFee q1 c.
Proof. done. Qed.

Lemma add_cand_new : cand q1 c = v.
Proof. unfold cand, q1; cbn. apply lookup_total_insert_eq. Qed.

Lemma add_cand_old d : d ∈ byFee q -> cand q1 d = cand q d.
Proof.
  intros Hd. unfold cand, q1; cbn. rewrite lookup_total_insert_ne; [done|].
  intros <-. by apply (wf_fresh q Hwf).
Qed.

Lemma add_sorted : sorted_by (candidateLess q1) (byFee q1).
Proof.
  eapply sorted_by_ext; [|apply (wf_sorted q Hwf)]. intros a b Ha Hb.
  unfold candidateLess. by rewrite !add_cand_old.
Qed.

Lemma add_inserted : inserted q1 [c] (addCandidate q v).
Proof. rewrite add_unfold. apply insertByFee_inserted, add_sorted. Qed.

Lemma add_elem d : d ∈ byFee (addCandidate q v) <-> d ∈ byFee q \/ d = c.
Proof.
  rewrite (in_perm _ _ _ add_inserted), elem_of_app, list_elem_of_singleton. done.
Qed.

Lemma add_cand d : cand (addCandidate q v) d = cand q1 d.
Proof. apply inserted_cand with (l := [c]), add_inserted. Qed.

Lemma add_account a aq' : byAccount (addCandidate q v) !! a = Some aq' ->
  (a = Account v /\ AQAccount aq' = a /\
   forall sp d, Transactions aq' !! sp = Some d -> (sp = SeqProxyOf v /\ d = c) \/
     exists aq, byAccount q !! a = Some aq /\ Transactions aq !! sp = Some d) \/
  byAccount q !! a = Some aq'.
Proof.
  rewrite (in_account _ _ _ add_inserted); cbn [byAccount q1 set_byAccount].
  intros [[<- <-]|[_ ?]]%lookup_insert_Some; [left|by right].
  unfold Add; cbn [Transactions set_transactions AQAccount].
  rewrite lookup_total_insert_eq. split_and!; [done| |].
  - unfold aq0. destruct (byAccount q !! Account v) eqn:E; [by apply (wf_account q)|done].
  - intros sp d [[<- <-]|[_ Hd]]%lookup_insert_Some; [by left|right].
    unfold aq0 in Hd. destruct (byAccount q !! Account v) as [aq|]; [by exists aq|].
    cbn in Hd. by rewrite lookup_empty in Hd.
Qed.

Lemma add_filed d :
  d ∈ byFee (addCandidate q v) -> exists aq,
    byAccount (addCandidate q v) !! Account (cand (addCandidate q v) d) = Some aq /\
    Transactions aq !! SeqProxyOf (cand (addCandidate q v) d) = Some d.
Proof.
  rewrite add_elem, add_cand, (in_account _ _ _ add_inserted); cbn [byAccount q1 set_byAccount].
  intros [Hd| ->].
  - rewrite add_cand_old by done. destruct (wf_filed q Hwf d Hd) as (aq & Ha & Ht).
    destruct (decide (Account v = Account (cand q d))) as [He|Hne].
    + eexists. rewrite <- He, lookup_insert_eq. split; [done|].
      unfold Add; cbn [Transactions set_transactions]. rewrite lookup_total_insert_eq.
      unfold aq0. rewrite He, Ha. rewrite lookup_insert_ne; [done|].
      intros Hs. rewrite <- He in Ha. rewrite <- Hs, (Hfree aq Ha) in Ht. done.
    + exists aq. by rewrite lookup_insert_ne.
  - rewrite add_cand_new. eexists. rewrite lookup_insert_eq. split; [done|].
    unfold Add; cbn [Transactions set_transactions].
    rewrite lookup_total_insert_eq. apply lookup_insert_eq.
Qed.

Lemma addCandidate_wf : wf (addCandidate q v).
Proof.
  constructor.
  - rewrite (in_perm _ _ _ add_inserted). apply list.NoDup_app. split_and!.
    + apply (wf_nodup q Hwf).
    + intros d Hd ->%list_elem_of_singleton. by apply (wf_fresh q Hwf).
    + apply NoDup_singleton.
  - apply (in_sorted _ _ _ add_inserted).
  - intros d. rewrite add_elem, (in_heap _ _ _ add_inserted); cbn [heap q1 set_byAccount set_heap].
    intros [Hd| ->]; [|by rewrite lookup_insert_eq; eauto].
    apply lookup_insert_is_Some. destruct (decide (c = d)); [by left|right].
    split; [done|by apply (wf_live q)].
  - apply add_filed.
  - intros a aq [(_ & ? & _)|?]%add_account; [done|by apply (wf_account q)].
  - intros a aq sp d Ha Hd. rewrite add_elem, add_cand.
    assert (Hold : forall aq, byAccount q !! a = Some aq -> Transactions aq !! sp = Some d ->
      (d ∈ byFee q \/ d = c) /\ Account (cand q1 d) = a /\ SeqProxyOf (cand q1 d) = sp).
    { intros aq' H1 H2. destruct (wf_entry q Hwf _ _ _ _ H1 H2) as (? & ? & ?).
      rewrite add_cand_old by done. auto. }
    apply add_account in Ha as [(-> & _ & Ha)|Ha]; [|by eapply Hold].
    destruct (Ha sp d Hd) as [[-> ->]|(aq' & ? & ?)]; [|by eapply Hold].
    rewrite add_cand_new. auto.
  - intros id d. rewrite add_elem, add_cand.
    intros [Hd|[->%list_elem_of_singleton <-]]%(in_id _ _ _ add_inserted); [|by auto].
    cbn [byID q1 set_byAccount set_heap] in Hd.
    destruct (wf_id q Hwf _ _ Hd) as [? <-]. rewrite add_cand_old by done. auto.
Qed.

Lemma add_length : length (byFee (addCandidate q v)) = S (length (byFee q)).
Proof. rewrite (in_perm _ _ _ add_inserted), length_app; cbn. lia. Qed.

Lemma add_ids key :
  ids_keyed key q -> ids_indexed q -> key (TxID v) = (Account v, SeqProxyOf v) ->
  ids_keyed key (addCandidate q v) /\ ids_indexed (addCandidate q v).
Proof.
  intros Hk Hi Hv.
  assert (Hk' : ids_keyed key (addCandidate q v)).
  { intros d. rewrite add_elem, add_cand. intros [Hd| ->].
    - rewrite add_cand_old by done. by apply Hk.
    - by rewrite add_cand_new. }
  split; [done|]. intros d Hd. rewrite add_cand. apply (in_index _ _ _ add_inserted).
  - apply add_elem in Hd as [Hd| ->]; [right|by left; left].
    rewrite add_cand_old by done. by apply Hi.
  - intros e ->%list_elem_of_singleton He. rewrite <- !add_cand in He.
    eapply (keyed_unique key (addCandidate q v)); [apply addCandidate_wf|done| |done|done].
    apply add_elem. by right.
Qed.
End AddCandidate.

(** *** Closing a ledger *)

Definition expired (q : TxQ) (ledgerSeq : Z) (c : cptr) : bool :=
  negb (LastValid (cand q c) =? 0) && (LastValid (cand q c) <=? ledgerSeq).

Lemma expireLoop_spec q ledgerSeq :
  same_index q (expireLoop q ledgerSeq).1 /\ heap (expireLoop q ledgerSeq).1 = heap q /\
  forall c, c ∈ (expireLoop q ledgerSeq).2 <-> c ∈ byFee q /\ expired q ledgerSeq c = true.
Proof.
  unfold expireLoop. generalize (byFee q) as l.
  induction l as [|c l IH] using rev_ind.
  { cbn. split_and!; [done..|]. intros c. rewrite elem_of_nil. naive_solver. }
  rewrite foldl_app; cbn [foldl].
  set (r := foldl _ (q, []) l) in *. clearbody r. destruct r as [q1 rem]; cbn in IH.
  destruct IH as (Hs & Hh & Hr).
  assert (Hc : forall d, cand q1 d = cand q d) by (intros d; unfold cand; by rewrite Hh).
  cbn [fst snd]. fold (expired q1 ledgerSeq c).
  assert (He : expired q1 ledgerSeq c = expired q ledgerSeq c) by (unfold expired; by rewrite Hc).
  rewrite He. destruct (expired q ledgerSeq c) eqn:Ee; cbn [fst snd].
  - split_and!.
    + etrans; [exact Hs|]. destruct (byAccount q1 !! _) as [aq|] eqn:Ea; [|done].
      by eapply penalise_same.
    + by destruct (byAccount q1 !! _).
    + intros d. rewrite !elem_of_app, !list_elem_of_singleton, Hr. naive_solver.
  - split_and!; [done..|]. intros d. rewrite elem_of_app, list_elem_of_singleton, Hr.
    split; [intuition|]. intros [[Hd| ->] Ed]; [done|congruence].
Qed.

(** Erasing a list of candidates. *)
Lemma eraseMany_spec q l :
  wf q -> let q' := foldl erase q l in
  wf q' /\ heap q' = heap q /\ maxSize q' = maxSize q /\ metrics q' = metrics q /\
  config q' = config q /\ parentHash q' = parentHash q /\
  (forall c, c ∈ byFee q' <-> c ∈ byFee q /\ c ∉ l) /\ byFee q' `sublist_of` byFee q /\
  (ids_indexed q -> ids_indexed q').
Proof.
  intros Hwf. induction l as [|c l IH] using rev_ind.
  { cbn. split_and!; try done. intros c. rewrite elem_of_nil. naive_solver. }
  rewrite foldl_app; cbn [foldl]. set (q1 := foldl erase q l) in *. clearbody q1.
  destruct IH as (Hw & Hh & Hm & Hf & Hc & Hp & Hel & Hsub & Hids).
  assert (He : erase q1 c = q1 \/ erased q1 c (erase q1 c)).
  { destruct (decide (c ∈ byFee q1)); [right; by apply erase_spec|left; by apply erase_absent]. }
  split_and!.
  - by apply erase_wf.
  - by rewrite erase_heap.
  - destruct He as [->|He]; [done|by rewrite (er_maxSize _ _ _ He)].
  - destruct He as [->|He]; [done|by rewrite (er_metrics _ _ _ He)].
  - destruct He as [->|He]; [done|by rewrite (er_config _ _ _ He)].
  - destruct He as [->|He]; [done|by rewrite (er_hash _ _ _ He)].
  - intros d. rewrite erase_elem, Hel, elem_of_app, list_elem_of_singleton by done. naive_solver.
  - destruct He as [->|He]; [done|]. etrans; [apply (er_sub _ _ _ He)|done].
  - intros Hi. by apply erase_ids, Hids.
Qed.

Lemma Empty_true aq : Empty aq = true <-> Transactions aq = ∅.
Proof. unfold Empty. rewrite Nat.eqb_eq. apply map_size_empty_iff. Qed.

(** Dropping account queues that hold nothing keeps every index. *)
Lemma dropEmptyAccounts_wf q : wf q -> wf (dropEmptyAccounts q).
Proof.
  intros Hwf. unfold dropEmptyAccounts. constructor; cbn [byFee set_byAccount byAccount byID heap].
  - by apply wf_nodup.
  - apply (wf_sorted q Hwf).
  - apply (wf_live q Hwf).
  - intros c Hc. destruct (wf_filed q Hwf c Hc) as (aq & Ha & Ht). exists aq. split; [|done].
    apply map_lookup_filter_Some. split; [done|]. cbn.
    destruct (Empty aq) eqn:E; [|done]. apply Empty_true in E. rewrite E in Ht. by rewrite lookup_empty in Ht.
  - intros a aq [Ha _]%map_lookup_filter_Some. by apply (wf_account q).
  - intros a aq sp c [Ha _]%map_lookup_filter_Some Hc. by eapply (wf_entry q).
  - apply (wf_id q Hwf).
Qed.

(** Closing a ledger keeps the queue well formed and indexed by identifier,
    erases exactly the candidates whose LastLedgerSequence is set and has been
    reached, keeps the others in order, and leaves no empty account queue. *)
Theorem ProcessClosedLedger_exact q ctx timeLeap :
  wf q -> ids_indexed q ->
  let q' := (ProcessClosedLedger q ctx timeLeap).1 in
  wf q' /\ ids_indexed q' /\ byFee q' `sublist_of` byFee q /\
  (forall c, c ∈ byFee q' <->
     c ∈ byFee q /\ (LastValid (cand q c) = 0 \/ ClosedSequence ctx < LastValid (cand q c))) /\
  (forall a aq, byAccount q' !! a = Some aq -> Transactions aq <> ∅).
Proof.
  intros Hwf Hids. unfold ProcessClosedLedger. destruct (update _ _ _ _ _) as [fm txCount].
  match goal with |- context [expireLoop ?x _] => set (q1 := x) end.
  assert (H1 : wf q1 /\ ids_indexed q1 /\ byFee q1 = byFee q /\ heap q1 = heap q).
  { subst q1. destruct timeLeap; cbn; split_and!; try done; constructor; try apply Hwf. }
  clearbody q1. destruct H1 as (Hw1 & Hi1 & Hf1 & Hh1).
  pose proof (expireLoop_spec q1 (ClosedSequence ctx)) as (Hs & Hh & Hrem).
  destruct (expireLoop q1 (ClosedSequence ctx)) as [q2 rem]; cbn [fst snd] in *.
  assert (Hw2 : wf q2) by (by eapply same_index_wf).
  destruct (eraseMany_spec q2 rem Hw2) as (Hw3 & Hh3 & _ & _ & _ & _ & Hel & Hsub & Hids3).
  set (q3 := foldl erase q2 rem) in *. clearbody q3.
  assert (Hc : forall c, cand q1 c = cand q c) by (intros c; unfold cand; by rewrite Hh1).
  split_and!.
  - by apply dropEmptyAccounts_wf.
  - apply Hids3. by eapply same_index_ids.
  - cbn. by rewrite <- Hf1, <- (si_byFee _ _ Hs).
  - intros c. change (byFee (dropEmptyAccounts q3)) with (byFee q3).
    rewrite Hel, Hrem, (si_byFee _ _ Hs), Hf1. unfold expired. rewrite Hc.
    rewrite andb_true_iff, negb_true_iff, Z.eqb_neq, Z.leb_le.
    destruct (decide (LastValid (cand q c) = 0));
      destruct (decide (LastValid (cand q c) <= ClosedSequence ctx)); intuition lia.
  - intros a aq [_ He]%map_lookup_filter_Some Ht. cbn in He. apply Empty_true in Ht. congruence.
Qed.

(** ** The next sequence an account can queue *)

(** A queued sequence transaction that consumes the sequence number [k]. *)
Definition covers (h : store) (c : cptr) (k : Z) : Prop :=
  IsTicket (SeqProxyOf (h !!! c)) = false /\
  Value (SeqProxyOf (h !!! c)) <= k < Value (FollowingSeq (Consequences (h !!! c))).

(** Sequence transactions advance the account's sequence. *)
Definition advances (h : store) (c : cptr) : Prop :=
  IsTicket (SeqProxyOf (h !!! c)) = false ->
  Value (SeqProxyOf (h !!! c)) < Value (FollowingSeq (Consequences (h !!! c))).

(** [c] holds the sequence number [k]. *)
Definition holds_seq (h : store) (c : cptr) (k : Z) : Prop :=
  SeqProxyOf (h !!! c) = NewSeqProxySequence k.

Lemma SortedCandidates_sorted h aq : sorted_by (seqLess h) (SortedCandidates h aq).
Proof. apply sort_by_sorted, _. Qed.

Lemma findStart_None h k l :
  sorted_by (seqLess h) l -> findStart h (NewSeqProxySequence k) l = None ->
  forall c, c ∈ l -> ~ holds_seq h c k.
Proof.
  unfold sorted_by. induction 1 as [|d l Hs IH Hd]; cbn [findStart]; intros Hf c; [by intros ?%elem_of_nil|].
  rewrite elem_of_cons. destruct (negb _ && _) eqn:E.
  - case_bool_decide as Ed; [done|]. apply andb_true_iff in E as [Et El]. unfold holds_seq.
    intros [->|Hc] Hk; [done|]. eapply list.Forall_forall in Hd; [|exact Hc].
    unfold seqLess in Hd. rewrite Hk in Hd. apply Ed, Less_total; [|done].
    by apply negb_true_iff in El.
  - intros [->|Hc]; [|by apply IH]. unfold holds_seq. intros Hk. rewrite Hk in E.
    unfold Less, NewSeqProxySequence in E; cbn in E. lia.
Qed.

Lemma findStart_Some h k l c l' :
  findStart h (NewSeqProxySequence k) l = Some (c, l') ->
  holds_seq h c k /\ exists pre, l = pre ++ c :: l' /\
    forall d, d ∈ pre -> IsTicket (SeqProxyOf (h !!! d)) = false ->
      Value (SeqProxyOf (h !!! d)) < k.
Proof.
  revert c l'. induction l as [|d l IH]; cbn [findStart]; intros c l' H; [done|].
  destruct (negb _ && _) eqn:E.
  - case_bool_decide as Ed; [|done]. injection H as -> ->. split; [done|].
    exists []. split; [done|]. by intros ? ?%elem_of_nil.
  - destruct (IH c l' H) as (Hk & pre & -> & Hpre). split; [done|].
    exists (d :: pre). split; [done|]. intros e [->|He]%elem_of_cons Ht; [|by apply Hpre].
    rewrite Ht in E; cbn in E. unfold Less in E. rewrite Ht in E; cbn in E. lia.
Qed.

(** The walk ends on a sequence no later entry holds, and every sequence it
    passed is consumed by some entry. [b] is the last sequence walked. *)
Lemma walkChain_spec h k l b attempt :
  sorted_by (seqLess h) l -> NoDup ((fun c => SeqProxyOf (h !!! c)) <$> l) ->
  (forall c, c ∈ l -> advances h c) -> k <= b < attempt ->
  (forall c, c ∈ l -> IsTicket (SeqProxyOf (h !!! c)) = false -> b < Value (SeqProxyOf (h !!! c))) ->
  let r := walkChain h (NewSeqProxySequence k) attempt l in
  b < r /\ (forall c, c ∈ l -> ~ holds_seq h c r) /\
  (forall x, k <= x < r -> x < attempt \/ exists c, c ∈ l /\ covers h c x).
Proof.
  unfold sorted_by. intros Hs. revert b attempt.
  induction Hs as [|c l Hs IH Hc]; intros b attempt Hnd Hadv Hb Hgt; cbn [walkChain].
  { split_and!; [lia|by intros ? ?%elem_of_nil|]. intros x Hx. left. lia. }
  rewrite fmap_cons in Hnd. apply list.NoDup_cons in Hnd as [Hcn Hnd].
  assert (Hadv' : forall d, d ∈ l -> advances h d) by (intros; apply Hadv; by right).
  set (sp := SeqProxyOf (h !!! c)) in *. cbv zeta.
  destruct (IsTicket sp) eqn:Et.
  - destruct (IH b attempt Hnd Hadv' Hb) as (H1 & H2 & H3); [intros; apply Hgt; [by right|done]|].
    split_and!; [done| |].
    + intros d [->|Hd]%elem_of_cons; [|by apply H2]. unfold holds_seq. fold sp. intros He.
      by rewrite He in Et.
    + intros x Hx. destruct (H3 x Hx) as [?|(d & ? & ?)]; [by left|right]. exists d. split; [by right|done].
  - pose proof (Hgt c ltac:(left) Et) as Hcb. fold sp in Hcb.
    assert (El : Less sp (NewSeqProxySequence k) = false)
      by (unfold Less; rewrite Et; cbn; lia).
    rewrite El.
    assert (Hafter : forall d, d ∈ l -> IsTicket (SeqProxyOf (h !!! d)) = false ->
      Value sp < Value (SeqProxyOf (h !!! d))).
    { intros d Hd Htd. eapply list.Forall_forall in Hc; [|exact Hd]. unfold seqLess, Less in Hc.
      fold sp in Hc. rewrite Htd, Et in Hc; cbn in Hc.
      destruct (decide (Value sp = Value (SeqProxyOf (h !!! d)))) as [He|]; [|lia].
      exfalso. apply Hcn. apply list_elem_of_fmap. exists d. split; [|done].
      destruct sp as [v t], (SeqProxyOf (h !!! d)) as [v' t']; cbn in *. congruence. }
    destruct (Z.ltb_spec attempt (Value sp)) as [Hlt|Hge].
    + split_and!; [lia| |intros x Hx; left; lia].
      intros d [->|Hd]%elem_of_cons; unfold holds_seq; intros He.
      * fold sp in He. rewrite He in Hlt; cbn in Hlt. lia.
      * specialize (Hafter d Hd). rewrite He in Hafter; cbn in Hafter. specialize (Hafter eq_refl). lia.
    + pose proof (Hadv c ltac:(left) Et) as Hfc. fold sp in Hfc.
      destruct (IH (Value sp) (Value (FollowingSeq (Consequences (h !!! c)))) Hnd Hadv')
        as (H1 & H2 & H3); [lia|done|].
      split_and!; [lia| |].
      * intros d [->|Hd]%elem_of_cons; [|by apply H2]. unfold holds_seq. fold sp.
        intros He%(f_equal Value). cbn [Value NewSeqProxySequence] in He. lia.
      * intros x Hx. destruct (H3 x Hx) as [Hx'|(d & ? & ?)]; [|right; exists d; split; [by right|done]].
        destruct (decide (x < Value sp)) as [?|Hn]; [left; lia|right].
        exists c. split; [left|]. unfold covers. fold sp. rewrite Et. split; [done|lia].
Qed.

Lemma SortedCandidates_keys h aq :
  aq_ok h aq -> NoDup ((fun c => SeqProxyOf (h !!! c)) <$> SortedCandidates h aq).
Proof.
  intros Hok. apply NoDup_fmap_2_strong; [|by apply SortedCandidates_NoDup].
  intros c d [sp Hsp]%SortedCandidates_elem [sp' Hsp']%SortedCandidates_elem He.
  pose proof (Hok _ _ Hsp) as H1. pose proof (Hok _ _ Hsp') as H2.
  rewrite <- H1, He, H2, Hsp' in Hsp. by injection Hsp.
Qed.

(** The next queuable sequence is the first gap in the account's chain:
    it is not below the account's sequence, no queued transaction holds it,
    and every sequence number from the account's up to it is consumed by a
    queued transaction (a TicketCreate consumes several). *)
Theorem getNextQueuableSeq_first_gap h aq acctSeq :
  aq_ok h aq -> (forall c sp, Transactions aq !! sp = Some c -> advances h c) ->
  let s := getNextQueuableSeq h aq acctSeq in
  acctSeq <= s /\ Transactions aq !! NewSeqProxySequence s = None /\
  forall x, acctSeq <= x < s -> exists c sp, Transactions aq !! sp = Some c /\ covers h c x.
Proof.
  intros Hok Hadv. unfold getNextQueuableSeq. destruct (Empty aq) eqn:Ee.
  { apply Empty_true in Ee. rewrite Ee. split_and!; [lia|apply lookup_empty|lia]. }
  pose proof (SortedCandidates_sorted h aq) as Hs.
  pose proof (SortedCandidates_keys h aq Hok) as Hnd.
  pose proof (fun c => SortedCandidates_elem h aq c) as Hel.
  set (l := SortedCandidates h aq) in *. clearbody l. cbv zeta.
  assert (Hnone : forall s, (forall c, c ∈ l -> ~ holds_seq h c s) ->
    Transactions aq !! NewSeqProxySequence s = None).
  { intros s Hn. destruct (Transactions aq !! NewSeqProxySequence s) as [c|] eqn:E; [|done].
    exfalso. apply (Hn c); [by apply Hel; eauto|]. by apply Hok. }
  destruct (findStart _ _ _) as [[c l']|] eqn:Ef.
  2:{ split_and!; [lia| |lia]. by apply Hnone, findStart_None. }
  destruct (findStart_Some _ _ _ _ _ Ef) as (Hk & pre & -> & Hpre).
  rewrite fmap_app, fmap_cons in Hnd. apply list.NoDup_app in Hnd as (_ & _ & Hnd).
  apply list.NoDup_cons in Hnd as [Hcn Hnd].
  apply sorted_by_app_inv in Hs as [_ Hs]. inversion_clear Hs as [|? ? Hs' Hc].
  assert (Hadv' : forall d, d ∈ pre ++ c :: l' -> advances h d).
  { intros d [sp Hsp]%Hel. by eapply Hadv. }
  pose proof (Hadv' c ltac:(set_solver)) as Hac. unfold advances in Hac. unfold holds_seq in Hk.
  rewrite Hk in Hac; cbn in Hac. specialize (Hac eq_refl).
  destruct (walkChain_spec h acctSeq l' acctSeq (Value (FollowingSeq (Consequences (h !!! c)))))
    as (H1 & H2 & H3); [done..|intros; apply Hadv'; set_solver|lia| |].
  { intros d Hd Ht. eapply list.Forall_forall in Hc; [|exact Hd]. unfold seqLess, Less in Hc.
    rewrite Hk, Ht in Hc; cbn in Hc.
    destruct (decide (Value (SeqProxyOf (h !!! d)) = acctSeq)) as [He|]; [|lia].
    exfalso. apply Hcn. rewrite Hk. apply list_elem_of_fmap. exists d. split; [|done].
    destruct (SeqProxyOf (h !!! d)) as [v t]; cbn in *. unfold NewSeqProxySequence. congruence. }
  split_and!; [lia| |].
  - apply Hnone. intros d [Hd|[->|Hd]%elem_of_cons]%elem_of_app Hh; [| |by eapply H2].
    + unfold holds_seq in Hh. specialize (Hpre d Hd). rewrite Hh in Hpre; cbn in Hpre.
      specialize (Hpre eq_refl). lia.
    + unfold holds_seq in Hh. rewrite Hk in Hh. injection Hh. lia.
  - intros x Hx. destruct (H3 x Hx) as [Hx'|(d & Hd & Hcov)].
    + destruct (proj1 (Hel c) ltac:(set_solver)) as [sp Hsp]. exists c, sp. split; [done|].
      unfold covers. rewrite Hk; cbn. split; [done|lia].
    + destruct (proj1 (Hel d) ltac:(set_solver)) as [sp Hsp]. by exists d, sp.
Qed.

(** ** Capacity *)

(** The fill test compares the queue's length with the truncated
    percentage of the capacity: splitting the product into quotient and
    remainder by 100 neither overflows nor loses precision. *)
Theorem isFullPct_exact q m pct :
  maxSize q = Some m -> is_uint 64 m -> 0 < pct < 100 ->
  isFullPct q pct = (m * pct / 100 <=? Size q).
Proof.
  intros Hm Hu Hp. unfold isFullPct, Size. rewrite Hm.
  destruct (Z.eqb_spec pct 0); [lia|]. destruct (Z.leb_spec 100 pct); [lia|]. cbv zeta.
  unfold is_uint in Hu. change (2 ^ 64) with 18446744073709551616 in Hu.
  pose proof (Z.div_mod m 100 ltac:(lia)) as Hd. pose proof (Z.mod_pos_bound m 100 ltac:(lia)) as Hr.
  set (d := m / 100) in *. set (r := m mod 100) in *. clearbody d r. subst m.
  assert (Hs : (100 * d + r) * pct / 100 = d * pct + r * pct / 100).
  { rewrite Z.mul_add_distr_r. replace (100 * d * pct) with (d * pct * 100) by lia.
    by rewrite Z.div_add_l by lia. }
  assert (Hd0 : 0 <= d) by lia.
  assert (Hdp : 0 <= d * pct <= 99 * d) by nia.
  assert (Hrp : 0 <= r * pct < 10000) by nia.
  assert (Hrd : 0 <= r * pct / 100 < 100) by dmlia.
  rewrite Hs, (wrap_small 64 (d * pct)), (wrap_small 64 (r * pct)), wrap_small;
    [done|unfold is_uint; lia..].
Qed.

Lemma saturatingSnapshotAdd_value a b :
  is_uint 64 a -> 0 <= b -> saturatingSnapshotAdd a b = Z.min max_u64 (a + b).
Proof.
  unfold is_uint, saturatingSnapshotAdd, max_u64. intros Ha Hb.
  rewrite wrap_small by (unfold is_uint; lia).
  destruct (Z.ltb_spec (2 ^ 64 - 1 - a) b); [lia|]. rewrite wrap_small; [lia|unfold is_uint; lia].
Qed.

Definition totalBlob (q : TxQ) (l : list cptr) : Z :=
  foldr (fun c s => rawBlobSize (cand q c) + s) 0 l.

Lemma rawBlobSize_length c : rawBlobSize c = Z.of_nat (length (rawBlob c)).
Proof. unfold rawBlobSize, rawBlob. by repeat case_match. Qed.

(** The queue statistics are the number of queued transactions and the
    total size of their blobs, each saturating at the largest 64-bit value
    instead of wrapping. *)
Theorem SnapshotStats_saturates q :
  SnapshotStats q =
  (Z.min max_u64 (Size q),
   Z.min max_u64 (foldr (fun c s => Z.of_nat (length (rawBlob (cand q c))) + s) 0 (byFee q))).
Proof.
  unfold SnapshotStats, Size.
  assert (Hg : forall l n b, is_uint 64 n -> is_uint 64 b ->
    foldl (fun acc c => (saturatingSnapshotAdd acc.1 1,
                         saturatingSnapshotAdd acc.2 (rawBlobSize (cand q c)))) (n, b) l =
    (Z.min max_u64 (n + Z.of_nat (length l)),
     Z.min max_u64 (b + foldr (fun c s => Z.of_nat (length (rawBlob (cand q c))) + s) 0 l))).
  { induction l as [|c l IH]; intros n b Hn Hb; cbn [foldl foldr length fst snd].
    - unfold is_uint, max_u64 in *. f_equal; lia.
    - rewrite !saturatingSnapshotAdd_value by (done || lia || (rewrite rawBlobSize_length; lia)).
      rewrite rawBlobSize_length.
      assert (0 <= foldr (fun c s => Z.of_nat (length (rawBlob (cand q c))) + s) 0 l)
        by (clear; induction l; cbn; lia).
      rewrite IH by (unfold is_uint, max_u64 in *; lia). unfold is_uint, max_u64 in *.
      f_equal; lia. }
  by rewrite Hg.
Qed.

Lemma empty_wf q : byFee q = [] -> byID q = ∅ -> byAccount q = ∅ -> wf q.
Proof.
  intros Hf Hi Ha. constructor; rewrite ?Hf, ?Hi, ?Ha.
  - apply NoDup_nil_2.
  - constructor.
  - by intros c ?%elem_of_nil.
  - by intros c ?%elem_of_nil.
  - intros a aq. by rewrite lookup_empty.
  - intros a aq sp c. by rewrite lookup_empty.
  - intros id c. by rewrite lookup_empty.
Qed.

Lemma New_wf cfg q : New cfg = inr q -> wf q /\ ids_indexed q.
Proof.
  unfold New. destruct (normalize cfg) as [e|c]; [done|]. intros [= <-]. split.
  - by apply empty_wf.
  - by intros c' ?%elem_of_nil.
Qed.

Lemma clear_wf q : wf (clear q) /\ ids_indexed (clear q).
Proof.
  split.
  - by apply empty_wf.
  - by intros c' ?%elem_of_nil.
Qed.

Lemma setMaxSize_same q m : wf q -> wf (setMaxSize q m).
Proof. intros Hwf. constructor; apply Hwf. Qed.

(** ** Instances *)

Definition exAccount : bytes := replicate 20 7.
Definition exID (n : Z) : bytes := replicate 31 0 ++ [n].

(** A payment-like candidate of [exAccount]. *)
Definition exCand (n fee seq lastValid : Z) : candidate :=
  mkCandidate None [18; 0; n] (exID n) exAccount fee (NewSeqProxySequence seq) lastValid
    RetriesAllowed 0 0 0 0 None (mkConsequences 10 0 false (NewSeqProxySequence (seq + 1))).

Definition exEmpty : TxQ :=
  mkTxQ DefaultConfig (newFeeMetrics DefaultConfig) ∅ [] ∅ ∅ (Some 2000) zeroHash 0.

Definition exQ1 : TxQ := addCandidate exEmpty (exCand 1 300 5 0).
Definition exQ : TxQ := addCandidate exQ1 (exCand 2 400 6 10).
(** The same candidates, queued in the other order. *)
Definition exQ' : TxQ := addCandidate (addCandidate exEmpty (exCand 2 400 6 10)) (exCand 1 300 5 0).

Definition exKey (id : bytes) : bytes * SeqProxy :=
  if bool_decide (id = exID 1) then (exAccount, NewSeqProxySequence 5)
  else if bool_decide (id = exID 9) then (exAccount, NewSeqProxySequence 7)
  else (exAccount, NewSeqProxySequence 6).

Ltac ex_free := let aq := fresh in let H := fresh in
  intros aq H; vm_compute in H; first [discriminate H | injection H as <-; reflexivity].

Lemma exEmpty_wf : wf exEmpty.
Proof. by apply empty_wf. Qed.

Lemma exQ1_wf : wf exQ1.
Proof. apply addCandidate_wf; [apply exEmpty_wf|ex_free]. Qed.

Lemma exQ_wf : wf exQ.
Proof. apply addCandidate_wf; [apply exQ1_wf|ex_free]. Qed.

Lemma exQ'_wf : wf exQ'.
Proof.
  apply addCandidate_wf; [apply addCandidate_wf; [apply exEmpty_wf|ex_free]|ex_free].
Qed.

Lemma exQ_ids : ids_keyed exKey exQ /\ ids_indexed exQ.
Proof.
  assert (H1 : ids_keyed exKey exQ1 /\ ids_indexed exQ1).
  { apply add_ids; [apply exEmpty_wf|ex_free| | |reflexivity]; by intros c ?%elem_of_nil. }
  destruct H1. by apply add_ids; [apply exQ1_wf|ex_free| | |].
Qed.

Lemma account_searches_order_independent_witness :
  match byAccount exQ !! exAccount with
  | Some aq =>
      prevLoop (heap exQ) (NewSeqProxySequence 6) (reverse (entries aq)) =
        PrevTx (heap exQ) aq (NewSeqProxySequence 6) /\
      nextLoop (heap exQ) (NewSeqProxySequence 6) (reverse (entries aq)) =
        GetNextTx (heap exQ) aq (NewSeqProxySequence 6) /\
      firstRelevantLoop (heap exQ) (NewSeqProxySequence 6) (reverse (entries aq)) =
        FirstRelevant (heap exQ) aq (NewSeqProxySequence 6) /\
      firstSeqLoop (heap exQ) (reverse (entries aq)) = FirstSeqTx (heap exQ) aq
  | None => False
  end.
Proof.
  destruct (byAccount exQ !! exAccount) as [aq|] eqn:E; [|vm_compute in E; discriminate].
  apply (account_searches_order_independent (heap exQ) aq (NewSeqProxySequence 6) (reverse (entries aq))).
  - exact (wf_aq_ok exQ exAccount aq exQ_wf E).
  - apply reverse_Permutation.
Defined.

Lemma fee_order_canonical_witness : cand exQ <$> byFee exQ = cand exQ' <$> byFee exQ'.
Proof.
  apply (fee_order_canonical exQ exQ' exQ_wf exQ'_wf).
  - split; [reflexivity|]. intros c Hc. assert (H : c ∈ [2; 1]%nat) by exact Hc.
    apply elem_of_cons in H as [->|[->|[]%elem_of_nil]%elem_of_cons]; reflexivity.
  - reflexivity.
  - vm_compute. reflexivity.
  - vm_compute. apply (bool_decide_unpack _). vm_compute. exact I.
Defined.

Lemma ProcessClosedLedger_exact_witness :
  let q' := (ProcessClosedLedger exQ (mkClosedLedger 12 40 [256; 300]) false).1 in
  wf q' /\ ids_indexed q' /\ byFee q' `sublist_of` byFee exQ /\
  (forall c, c ∈ byFee q' <-> c ∈ byFee exQ /\ (LastValid (cand exQ c) = 0 \/ 12 < LastValid (cand exQ c))) /\
  (forall a aq, byAccount q' !! a = Some aq -> Transactions aq <> ∅).
Proof.
  exact (ProcessClosedLedger_exact exQ (mkClosedLedger 12 40 [256; 300]) false exQ_wf (proj2 exQ_ids)).
Defined.

Lemma getNextQueuableSeq_first_gap_witness :
  match byAccount exQ !! exAccount with
  | Some aq => let s := getNextQueuableSeq (heap exQ) aq 5 in
      s = 7 /\ 5 <= s /\ Transactions aq !! NewSeqProxySequence s = None /\
      forall x, 5 <= x < s -> exists c sp, Transactions aq !! sp = Some c /\ covers (heap exQ) c x
  | None => False
  end.
Proof.
  destruct (byAccount exQ !! exAccount) as [aq|] eqn:E; [|vm_compute in E; discriminate].
  split; [vm_compute in E; injection E as <-; vm_compute; reflexivity|].
  apply (getNextQueuableSeq_first_gap (heap exQ) aq 5).
  - exact (wf_aq_ok exQ exAccount aq exQ_wf E).
  - intros c sp Hc. destruct (wf_entry exQ exQ_wf _ _ _ _ E Hc) as [Hin _].
    assert (H : c ∈ [2; 1]%nat) by exact Hin. intros _.
    apply elem_of_cons in H as [->|[->|[]%elem_of_nil]%elem_of_cons]; vm_compute; reflexivity.
Defined.

Lemma isFullPct_exact_witness : isFullPct exQ 95 = (2000 * 95 / 100 <=? Size exQ).
Proof.
  apply (isFullPct_exact exQ 2000 95); [reflexivity|cbv; split; [discriminate|reflexivity]|lia].
Defined.

End TxqQueue.
