(* ===== verification/TxqAccept.v ===== *)
(** * Transaction queue: moving transactions into the open ledger
    (internal/txq/accept.go, internal/txq/submission.go)

    One pass of Accept over the fee index: candidates are tried from the highest
    fee down, sequence transactions of an account in order, failing ones lose
    retries or are dropped. The open ledger is an interface; cancellation is an
    oracle consulted at the points where the code consults its context. *)

From Stdlib Require Import ZArith Lia.
From stdpp Require Import base sorting list gmap strings numbers relations.
From S2P Require Import Prelude TxqFee TxqQueue.

Module TxqAccept.
Import TxqFee TxqQueue.

(** ** Transaction results (internal/tx/ter) *)

Definition TesSUCCESS : Result := 0.
Definition IsTec (r : Result) : bool := 100 <=? r.
Definition IsTef (r : Result) : bool := (-199 <=? r) && (r <=? -100).
Definition IsTem (r : Result) : bool := (-299 <=? r) && (r <=? -200).

(** ** The open ledger, as the queue sees it *)

(** The operations Accept and Apply share. *)
Class OpenView (V : Type) := {
  GetTxInLedger : V -> Z;
  ApplyTransactionWithFlags : V -> option Transaction -> Z -> V * (Result * bool);
  PreflightTransactionWithFlags : V -> option Transaction -> Z -> Result;
  RulesIdentity : V -> option RulesId }.

Class AcceptContext (V : Type) := {
  #[global] accept_view :: OpenView V;
  GetParentHash : V -> bytes }.

Section Accept.
Context {V : Type} `{!AcceptContext V}.
(** The binary transaction parser ([None]: a parse error). *)
Context (ParseFromBinary : bytes -> option Transaction).
(** The n-th check of the cancellation context finds it cancelled. *)
Context (Err : nat -> bool).

Definition candidateTransaction (c : candidate) : option Transaction :=
  if (32 <=? length (blob c))%nat then
    match ParseFromBinary (blob c) with
    | Some parsed => Some parsed
    | None => Txn c
    end
  else Txn c.

(** Position of a pointer in the fee index. *)
Fixpoint indexOf (c : cptr) (l : list cptr) : option nat :=
  match l with
  | [] => None
  | x :: l' => if (x =? c)%nat then Some 0%nat else S <$> indexOf c l'
  end.

Definition indexInByFee (q : TxQ) (c : cptr) : option nat := indexOf c (byFee q).

Definition eraseAndAdvance (q : TxQ) (idx : nat) (c : cptr) : TxQ * nat :=
  match byAccount q !! Account (cand q c) with
  | None => (removeByFee q c, idx)
  | Some aq =>
      let nextCandidate := GetNextTx (heap q) aq (SeqProxyOf (cand q c)) in
      let feeNext := byFee q !! S idx in
      let useAccountNext :=
        match nextCandidate with
        | None => None
        | Some n => match feeNext with
                    | None => Some n
                    | Some f => if candidateLess q n f then Some n else None
                    end
        end in
      let q := erase q c in
      match useAccountNext with
      | Some n => match indexOf n (byFee q) with
                  | Some j => (q, j)
                  | None => (q, idx)
                  end
      | None => (q, idx)
      end
  end.

Definition dropLastForAccount (q : TxQ) (aq : accountQueue) (current : cptr) (idx : nat) : TxQ * nat :=
  match last (SortedCandidates (heap q) aq) with
  | None => (q, idx)
  | Some dropTarget =>
      if (dropTarget =? current)%nat then (q, idx)
      else
        let dropIdx := indexInByFee q dropTarget in
        let q := erase q dropTarget in
        match dropIdx with
        | Some d => if (d <? idx)%nat then (q, (idx - 1)%nat) else (q, idx)
        | None => (q, idx)
        end
  end.

(** The loop's variables: the queue, the open ledger, the index, the
    [ledgerChanged] flag and the number of cancellation checks made. *)
Record LoopState := mkLoop {
  lq : TxQ;
  lv : V;
  li : nat;
  lchanged : bool;
  lk : nat }.

Inductive Outcome := Continue (s : LoopState) | Break (s : LoopState) | Return (s : LoopState).

(** After the attempt: removal, penalties, retries. [aq] is the queue of the
    candidate's account. *)
Definition settle (q : TxQ) (v : V) (i : nat) (changed : bool) (k : nat) (c : cptr)
    (aq : accountQueue) (result : Result) (applied : bool) : Outcome :=
  if applied then
    let '(q, i) := eraseAndAdvance q i c in Continue (mkLoop q v i true k)
  else
    let q := write q c (set_lastResult (cand q c) result) in
    if IsTef result || IsTem result || (RetriesRemaining (cand q c) <=? 0) then
      let aq := if RetriesRemaining (cand q c) <=? 0 then set_retryPenalty aq
                else set_dropPenalty aq in
      let q := set_byAccount q (<[Account (cand q c) := aq]> (byAccount q)) in
      let '(q, i) := eraseAndAdvance q i c in Continue (mkLoop q v i changed k)
    else
      let retries := if RetryPenalty aq && (2 <? RetriesRemaining (cand q c)) then 1
                     else RetriesRemaining (cand q c) - 1 in
      let q := write q c (set_retries (cand q c) retries) in
      if DropPenalty aq && (1 <? Count aq)%nat && isFullPct q 95 then
        if IsTicket (SeqProxyOf (cand q c)) then
          let '(q, i) := eraseAndAdvance q i c in Continue (mkLoop q v i changed k)
        else
          let '(q, i) := dropLastForAccount q aq c i in Continue (mkLoop q v (S i) changed k)
      else Continue (mkLoop q v (S i) changed k).

(** The attempt to apply candidate [c]. *)
Definition attempt (q : TxQ) (v : V) (i : nat) (changed : bool) (k : nat) (c : cptr)
    (aq : accountQueue) : Outcome :=
  if Err k then Return (mkLoop q v i changed (S k))
  else
    let '(v, (result, applied)) :=
      ApplyTransactionWithFlags v (candidateTransaction (cand q c)) (Flags (cand q c)) in
    if Err (S k) then Return (mkLoop q v i changed (2 + k))
    else if Err (2 + k) then Return (mkLoop q v i changed (3 + k))
    else settle q v i changed (3 + k) c aq result applied.

(** The candidate must wait for an earlier sequence of its account. *)
Definition mustWait (q : TxQ) (aq : accountQueue) (c : cptr) : bool :=
  negb (IsTicket (SeqProxyOf (cand q c))) &&
  match FirstSeqTx (heap q) aq with
  | Some f => Value (SeqProxyOf (cand q f)) <? Value (SeqProxyOf (cand q c))
  | None => false
  end.

(** The cached preflight verdict no longer applies. *)
Definition needPreflight (c : candidate) (currentRules : option RulesId) : bool :=
  negb (PreflightResult c =? TesSUCCESS) || negb (PreflightFlags c =? Flags c) ||
  negb (bool_decide (PreflightRules c = currentRules)).

(** One iteration, for [i < len(q.byFee)]. *)
Definition acceptStep (snap : feeMetricsSnapshot) (s : LoopState) : Outcome :=
  let '(mkLoop q v i changed k) := s in
  if Err k then Return (mkLoop q v i changed (S k))
  else
    let c := byFee q !!! i in
    match byAccount q !! Account (cand q c) with
    | None => Continue (mkLoop (erase q c) v i changed (S k))
    | Some aq =>
        if mustWait q aq c then Continue (mkLoop q v (S i) changed (S k))
        else
          let txInLedger := GetTxInLedger v in
          if Err (S k) then Return (mkLoop q v i changed (2 + k))
          else if FeeLevel (cand q c) <? scaleFeeLevel snap txInLedger
          then Break (mkLoop q v i changed (2 + k))
          else
            let currentRules := RulesIdentity v in
            if needPreflight (cand q c) currentRules then
              let preflight := PreflightTransactionWithFlags v
                (candidateTransaction (cand q c)) (Flags (cand q c)) in
              if Err (2 + k) then Return (mkLoop q v i changed (3 + k))
              else
                let q := write q c
                  (set_preflight (cand q c) preflight (Flags (cand q c)) currentRules) in
                if negb (preflight =? TesSUCCESS) then
                  if Err (3 + k) then Return (mkLoop q v i changed (4 + k))
                  else settle q v i changed (4 + k) c aq preflight false
                else attempt q v i changed (3 + k) c aq
            else attempt q v i changed (2 + k) c aq
    end.

(** The loop; [None] is only returned when the fuel runs out, and the flag says
    whether the pass was cancelled. *)
Fixpoint acceptLoop (snap : feeMetricsSnapshot) (fuel : nat) (s : LoopState) : option (LoopState * bool) :=
  match fuel with
  | O => None
  | S fuel =>
      if (li s <? length (byFee (lq s)))%nat then
        match acceptStep snap s with
        | Continue s => acceptLoop snap fuel s
        | Break s => Some (s, false)
        | Return s => Some (s, true)
        end
      else Some (s, false)
  end.

Definition acceptFuel (q : TxQ) : nat :=
  let n := length (byFee q) in S (n * S n + n).

Definition accept (q : TxQ) (v : V) : option (TxQ * V * bool) :=
  if Err 0%nat then Some (q, v, false)
  else if Err 1%nat then Some (q, v, false)
  else
    let parent := GetParentHash v in
    if Err 2%nat then Some (q, v, false)
    else
      match acceptLoop (snapshot (metrics q)) (acceptFuel q) (mkLoop q v 0 false 3) with
      | None => None
      | Some (mkLoop q v i changed k, true) => Some (q, v, changed)
      | Some (mkLoop q v i changed k, false) =>
          if Err k then Some (q, v, changed)
          else if negb (bool_decide (parent = parentHash q)) then
            if Err (S k) then Some (q, v, changed)
            else Some (rebuildByFee (set_parentHash q parent), v, changed)
          else Some (q, v, changed)
      end.

(** ** How a pass changes the queue

    Candidates' verdicts and penalties are updated and candidates are erased;
    nothing else happens before the final reordering. *)

Definition evolve1 (q q' : TxQ) : Prop :=
  same_index q q' \/ exists c, c ∈ byFee q /\ q' = erase q c.

Definition evolves : TxQ -> TxQ -> Prop := rtc evolve1.

#[global] Instance evolves_trans : Transitive evolves.
Proof. unfold evolves. apply _. Qed.

Lemma evolves_same q q' : same_index q q' -> evolves q q'.
Proof. intros. apply rtc_once. by left. Qed.

Lemma evolves_erase q c : c ∈ byFee q -> evolves q (erase q c).
Proof. intros Hc. apply rtc_once. right. eauto. Qed.

(** What every evolution preserves. *)
Record preserved (q q' : TxQ) : Prop := mkPreserved {
  pr_wf : wf q';
  pr_ids : ids_indexed q -> ids_indexed q';
  pr_sub : byFee q' `sublist_of` byFee q;
  pr_key c : ckey (cand q' c) = ckey (cand q c);
  pr_hash : parentHash q' = parentHash q;
  pr_config : config q' = config q;
  pr_metrics : metrics q' = metrics q;
  pr_maxSize : maxSize q' = maxSize q }.

Lemma preserved_refl q : wf q -> preserved q q.
Proof. by constructor. Qed.

Lemma preserved_trans q q' q'' : preserved q q' -> preserved q' q'' -> preserved q q''.
Proof.
  intros [] []. constructor; try congruence; eauto. by etrans.
Qed.

Lemma same_index_preserved q q' : wf q -> same_index q q' -> preserved q q'.
Proof.
  intros Hwf Hs. constructor; try apply Hs.
  - by eapply same_index_wf.
  - by apply same_index_ids.
  - by rewrite (si_byFee _ _ Hs).
Qed.

Lemma erase_preserved q c : wf q -> c ∈ byFee q -> preserved q (erase q c).
Proof.
  intros Hwf Hc. pose proof (erase_spec q c Hwf Hc) as He. constructor; try apply He.
  - by apply erase_wf.
  - by apply erase_ids.
  - intros d. by rewrite (er_cand _ _ _ _ He).
Qed.

Lemma evolves_preserved q q' : wf q -> evolves q q' -> preserved q q'.
Proof.
  intros Hwf He. revert Hwf. induction He as [q|q q1 q2 H1 He IH]; intros Hwf.
  - by apply preserved_refl.
  - assert (Hp : preserved q q1).
    { destruct H1 as [H1|(c & Hc & ->)]; [by apply same_index_preserved|by apply erase_preserved]. }
    eapply preserved_trans; [exact Hp|]. apply IH, (pr_wf _ _ Hp).
Qed.

(** ** One iteration *)

Lemma indexOf_lookup c l j : indexOf c l = Some j -> l !! j = Some c.
Proof.
  revert j. induction l as [|x l IH]; cbn [indexOf]; intros j; [done|].
  destruct (Nat.eqb_spec x c) as [->|Hne]; [by intros [= <-]|].
  intros (j' & Hj & ->)%fmap_Some. by apply IH.
Qed.

Lemma eraseAndAdvance_spec q i c :
  wf q -> c ∈ byFee q -> (i < length (byFee q))%nat ->
  (eraseAndAdvance q i c).1 = erase q c /\
  ((eraseAndAdvance q i c).2 <= length (byFee (erase q c)))%nat.
Proof.
  intros Hwf Hc Hi. unfold eraseAndAdvance.
  destruct (wf_filed q Hwf c Hc) as (aq & Ha & Ht). rewrite Ha.
  pose proof (er_perm _ _ _ (erase_spec q c Hwf Hc)) as Hp.
  assert (Hl : length (byFee q) = S (length (byFee (erase q c)))) by (by rewrite Hp).
  cbv zeta. set (use := match GetNextTx _ _ _ with Some _ => _ | None => _ end). clearbody use.
  destruct use as [n|]; cbn [fst snd]; [|split; [done|lia]].
  destruct (indexOf n (byFee (erase q c))) as [j|] eqn:Ej; cbn [fst snd]; [|split; [done|lia]].
  split; [done|]. apply indexOf_lookup, lookup_lt_Some in Ej. lia.
Qed.

Lemma dropLastForAccount_spec q a aq c i :
  wf q -> byAccount q !! a = Some aq -> (i < length (byFee q))%nat ->
  let r := dropLastForAccount q aq c i in
  (r = (q, i)) \/
  exists d, d ∈ byFee q /\ r.1 = erase q d /\ (S r.2 <= S (length (byFee r.1)))%nat.
Proof.
  intros Hwf Ha Hi. unfold dropLastForAccount. cbv zeta.
  destruct (last _) as [d|] eqn:El; [|by left].
  destruct (Nat.eqb_spec d c); [by left|right]. exists d.
  assert (Hd : d ∈ byFee q).
  { apply last_Some in El as [l' El]. assert (Hin : d ∈ SortedCandidates (heap q) aq) by (rewrite El; set_solver).
    apply SortedCandidates_elem in Hin as [sp Hsp]. by eapply wf_entry. }
  pose proof (er_perm _ _ _ (erase_spec q d Hwf Hd)) as Hp.
  assert (Hl : length (byFee q) = S (length (byFee (erase q d)))) by (by rewrite Hp).
  split; [done|]. destruct (indexInByFee q d) as [j|]; cbn [fst snd]; [|split; [done|lia]].
  destruct (j <? i)%nat; cbn [fst snd]; (split; [done|lia]).
Qed.

(** The loop's measure: removing an entry outweighs any move of the index. *)
Definition measure (q : TxQ) (i : nat) : nat :=
  let n := length (byFee q) in (n * S n + (n - i))%nat.

Lemma measure_shorter q i q' j :
  (length (byFee q') < length (byFee q))%nat -> (measure q' j < measure q i)%nat.
Proof. unfold measure. intros H. nia. Qed.

Lemma measure_next q i q' :
  (length (byFee q') <= length (byFee q))%nat -> (i < length (byFee q))%nat ->
  (measure q' (S i) < measure q i)%nat.
Proof.
  intros Hl Hi. destruct (decide (length (byFee q') = length (byFee q))) as [He|He].
  - unfold measure. rewrite He. lia.
  - apply measure_shorter. lia.
Qed.

Lemma erase_shorter q c : wf q -> c ∈ byFee q -> (length (byFee (erase q c)) < length (byFee q))%nat.
Proof. intros Hwf Hc. rewrite (er_perm _ _ _ (erase_spec q c Hwf Hc)); cbn. lia. Qed.

(** ** The abstract pass

    What a pass does to the queue and the open ledger, as a sequence of steps,
    each with what must hold for it. *)

(** A candidate without the fields a pass may change: its last result, its
    retries and its cached preflight verdict. *)
Definition fixed (c : candidate) : candidate := set_preflight (set_lastResult (set_retries c 0) 0) 0 0 None.

Definition verdict (c : candidate) : Result * Z * option RulesId := (PreflightResult c, PreflightFlags c, PreflightRules c).

Definition penalties (q : TxQ) (a : bytes) : option (bool * bool) :=
  (fun aq => (RetryPenalty aq, DropPenalty aq)) <$> byAccount q !! a.

(** Apart from membership, penalties and the record of [c], whose transaction,
    flags, fee level and verdict stay, the queue is as it was. *)
Record frame (c : cptr) (q q' : TxQ) : Prop := {
  fr_other d : d <> c -> cand q' d = cand q d;
  fr_fixed : fixed (cand q' c) = fixed (cand q c);
  fr_verdict : verdict (cand q' c) = verdict (cand q c);
  fr_hash : parentHash q' = parentHash q;
  fr_config : config q' = config q;
  fr_metrics : metrics q' = metrics q;
  fr_maxSize : maxSize q' = maxSize q }.

(** A failure that is not tried again. *)
Definition final (q : TxQ) (c : cptr) (r : Result) : Prop :=
  IsTef r = true \/ IsTem r = true \/ RetriesRemaining (cand q c) <= 0.

(** An account under the drop penalty has more than one candidate in a queue
    that is nearly full. *)
Definition crowded (q : TxQ) (c : cptr) : Prop :=
  exists aq, byAccount q !! Account (cand q c) = Some aq /\ DropPenalty aq = true /\ (1 < Count aq)%nat /\ isFullPct q 95 = true.

(** Which of them has to go: the candidate itself when it uses a ticket, and else
    the last one of the account, if that is another one. *)
Definition victim (q : TxQ) (c d : cptr) : Prop :=
  if IsTicket (SeqProxyOf (cand q c)) then d = c
  else d <> c /\ d ∈ byFee q /\ Account (cand q d) = Account (cand q c) /\
       forall e, e ∈ byFee q -> Account (cand q e) = Account (cand q c) -> Less (SeqProxyOf (cand q d)) (SeqProxyOf (cand q e)) = false.

Definition retriesLeft (q : TxQ) (c : cptr) : Z :=
  match penalties q (Account (cand q c)) with
  | Some (true, _) => if 2 <? RetriesRemaining (cand q c) then 1 else RetriesRemaining (cand q c) - 1
  | _ => RetriesRemaining (cand q c) - 1
  end.

(** What becomes of a candidate whose attempt ended in [r]. *)
Inductive failure (q : TxQ) (c : cptr) (r : Result) (q' : TxQ) : Prop :=
  | fail_final :
      final q c r -> byFee q ≡ₚ c :: byFee q' -> RetriesRemaining (cand q' c) = RetriesRemaining (cand q c) ->
      (forall a, penalties q' a =
         if decide (a = Account (cand q c))
         then (fun p : bool * bool => if RetriesRemaining (cand q c) <=? 0 then (true, p.2) else (p.1, true)) <$> penalties q a
         else penalties q a) ->
      failure q c r q'
  | fail_retry :
      ~ final q c r -> (forall d, crowded q c -> ~ victim q c d) -> byFee q' = byFee q ->
      RetriesRemaining (cand q' c) = retriesLeft q c -> (forall a, penalties q' a = penalties q a) -> failure q c r q'
  | fail_crowded d :
      ~ final q c r -> crowded q c -> victim q c d -> byFee q ≡ₚ d :: byFee q' ->
      RetriesRemaining (cand q' c) = retriesLeft q c -> (forall a, penalties q' a = penalties q a) -> failure q c r q'.

(** Candidate [c] may be applied to the open ledger [v]: it pays the fee level
    [v] requires at its current load, its preflight verdict is a success for the
    flags it is applied with and the rules of [v], and no queued transaction of
    its account has an earlier sequence. *)
Record admissible (snap : feeMetricsSnapshot) (q : TxQ) (v : V) (c : cptr) : Prop := {
  ad_queued : c ∈ byFee q;
  ad_fee : scaleFeeLevel snap (GetTxInLedger v) <= FeeLevel (cand q c);
  ad_verdict : verdict (cand q c) = (TesSUCCESS, Flags (cand q c), RulesIdentity v);
  ad_first : IsTicket (SeqProxyOf (cand q c)) = false ->
    forall d, d ∈ byFee q -> Account (cand q d) = Account (cand q c) ->
    IsTicket (SeqProxyOf (cand q d)) = false ->
    Value (SeqProxyOf (cand q c)) <= Value (SeqProxyOf (cand q d)) }.

Abbreviation txOf q c := (candidateTransaction (cand q c)).

(** The steps: the verdict of a candidate whose cached one does not apply is
    taken from the open ledger's own preflight; an admissible candidate is applied
    and leaves the queue, or fails; one that fails its preflight is not applied. A
    cancelled pass may stop right after an attempt. *)
Inductive pass1 (snap : feeMetricsSnapshot) : TxQ * V -> TxQ * V -> Prop :=
  | pass_preflight q v c :
      c ∈ byFee q -> needPreflight (cand q c) (RulesIdentity v) = true ->
      pass1 snap (q, v)
        (write q c (set_preflight (cand q c) (PreflightTransactionWithFlags v (txOf q c) (Flags (cand q c))) (Flags (cand q c)) (RulesIdentity v)), v)
  | pass_applied q v c v' r :
      admissible snap q v c -> ApplyTransactionWithFlags v (txOf q c) (Flags (cand q c)) = (v', (r, true)) ->
      pass1 snap (q, v) (erase q c, v')
  | pass_failed q v c v' r q' :
      admissible snap q v c -> ApplyTransactionWithFlags v (txOf q c) (Flags (cand q c)) = (v', (r, false)) ->
      frame c q q' -> LastResult (cand q' c) = r -> failure q c r q' -> pass1 snap (q, v) (q', v')
  | pass_rejected q v c r q' :
      c ∈ byFee q -> verdict (cand q c) = (r, Flags (cand q c), RulesIdentity v) -> r <> TesSUCCESS ->
      r = PreflightTransactionWithFlags v (txOf q c) (Flags (cand q c)) ->
      frame c q q' -> LastResult (cand q' c) = r -> failure q c r q' -> pass1 snap (q, v) (q', v)
  | pass_cut q v c k :
      Err k = true -> admissible snap q v c ->
      pass1 snap (q, v) (q, (ApplyTransactionWithFlags v (txOf q c) (Flags (cand q c))).1).

Definition passes (snap : feeMetricsSnapshot) : TxQ * V -> TxQ * V -> Prop := rtc (pass1 snap).

(** ** Settling an attempt *)

Lemma last_greatest {A} (less : A -> A -> bool) `{!StrictWeak less} l x y :
  sorted_by less l -> last l = Some x -> y ∈ l -> less x y = false.
Proof.
  intros Hs Hx Hy. apply last_Some in Hx as [l' ->]. apply elem_of_app in Hy as [Hy|Hy%list_elem_of_singleton]; [|subst; apply less_irrefl].
  unfold sorted_by in Hs. induction l' as [|z l' IH]; [by apply elem_of_nil in Hy|]. inversion Hs as [|? ? Hs' Hall]; subst.
  apply elem_of_cons in Hy as [->|Hy]; [|by apply IH]. rewrite list.Forall_forall in Hall. apply Hall. apply elem_of_app. right. by left.
Qed.

Lemma aq_member q a aq d :
  wf q -> byAccount q !! a = Some aq -> d ∈ SortedCandidates (heap q) aq <-> d ∈ byFee q /\ Account (cand q d) = a.
Proof.
  intros Hwf Ha. rewrite SortedCandidates_elem. split.
  - intros [sp Hsp]. destruct (wf_entry q Hwf _ _ _ _ Ha Hsp) as (? & ? & _). done.
  - intros [Hd <-]. destruct (wf_filed q Hwf d Hd) as (aq' & Ha' & Ht). rewrite Ha in Ha'. injection Ha' as <-. by eexists.
Qed.

Lemma dropLast_victim q aq c i :
  wf q -> c ∈ byFee q -> byAccount q !! Account (cand q c) = Some aq -> (i < length (byFee q))%nat ->
  IsTicket (SeqProxyOf (cand q c)) = false ->
  (dropLastForAccount q aq c i = (q, i) /\ forall d, ~ victim q c d) \/
  exists d, victim q c d /\ d ∈ byFee q /\ (dropLastForAccount q aq c i).1 = erase q d.
Proof.
  intros Hwf Hc Ha Hi Ht. pose proof (fun d => aq_member q (Account (cand q c)) aq d Hwf Ha) as Hm. unfold victim. rewrite Ht. unfold dropLastForAccount.
  pose proof (SortedCandidates_sorted (heap q) aq) as Hs. destruct (last (SortedCandidates (heap q) aq)) as [d|] eqn:Hl.
  2:{ left. split; [done|]. intros d (_ & Hd & Had & _). apply last_None in Hl.
      assert (Hin : d ∈ SortedCandidates (heap q) aq) by by apply Hm. rewrite Hl in Hin. by apply elem_of_nil in Hin. }
  assert (Hmax : forall e, e ∈ byFee q -> Account (cand q e) = Account (cand q c) -> Less (SeqProxyOf (cand q d)) (SeqProxyOf (cand q e)) = false).
  { intros e He Hae. apply (last_greatest (seqLess (heap q)) _ _ _ Hs Hl). by apply Hm. }
  assert (Hd : d ∈ SortedCandidates (heap q) aq) by (apply last_Some in Hl as [l' ->]; apply elem_of_app; right; by left).
  apply Hm in Hd as [Hd Had]. destruct (Nat.eqb_spec d c) as [->|Hne].
  - left. split; [done|]. intros e (Hne & He & Hae & Hmax'). destruct Hne.
    assert (Hsp : SeqProxyOf (cand q e) = SeqProxyOf (cand q c)) by (apply Less_total; [by apply Hmax'|by apply Hmax]).
    destruct (wf_filed q Hwf e He) as (aq1 & Ha1 & Ht1). destruct (wf_filed q Hwf c Hc) as (aq2 & Ha2 & Ht2).
    rewrite Hae, Hsp in *. congruence.
  - right. exists d. split; [done|]. split; [done|]. destruct (indexInByFee q d) as [j|]; [by destruct (j <? i)%nat|done].
Qed.

Lemma penalties_erase q c a : wf q -> c ∈ byFee q -> penalties (erase q c) a = penalties q a.
Proof.
  intros Hwf Hc. unfold penalties. rewrite (er_account _ _ _ (erase_spec q c Hwf Hc)).
  destruct (decide (a = Account (cand q c))) as [->|Hne]; [rewrite lookup_alter_eq|by rewrite lookup_alter_ne].
  by destruct (byAccount q !! Account (cand q c)).
Qed.

Lemma frame_erase c q q' d : wf q' -> d ∈ byFee q' -> frame c q q' -> frame c q (erase q' d).
Proof.
  intros Hwf Hd [Ho Hf Hv Hh Hc Hm Hx]. pose proof (erase_spec q' d Hwf Hd) as He.
  constructor; rewrite ?(er_hash _ _ _ He), ?(er_config _ _ _ He), ?(er_metrics _ _ _ He), ?(er_maxSize _ _ _ He); try done.
  all: intros; rewrite (er_cand _ _ _ _ He); auto.
Qed.

Lemma frame_write c q v :
  fixed v = fixed (cand q c) -> verdict v = verdict (cand q c) -> frame c q (write q c v) /\ cand (write q c v) c = v.
Proof.
  intros Hf Hv. assert (Hc : cand (write q c v) c = v) by (unfold cand; cbn; by rewrite lookup_total_insert_eq).
  split; [|done]. constructor; rewrite ?Hc; try done. intros d Hd. unfold cand; cbn. by rewrite lookup_total_insert_ne.
Qed.

Lemma frame_same c q q1 q' :
  frame c q q1 -> heap q' = heap q1 -> parentHash q' = parentHash q1 -> config q' = config q1 -> metrics q' = metrics q1 ->
  maxSize q' = maxSize q1 -> frame c q q'.
Proof.
  intros [Ho Hf Hv Hh Hc Hm Hx] He E1 E2 E3 E4. unfold cand in *. constructor; unfold cand; rewrite ?He; congruence || auto.
Qed.

(** From queue [q] at index [i], the iteration goes on in [s] with a smaller
    measure and the ledger [v]. *)
Definition goesOn (q : TxQ) (i : nat) (v : V) (s : LoopState) : Prop :=
  evolves q (lq s) /\ lv s = v /\ (measure (lq s) (li s) < measure q i)%nat.

Lemma goesOn_erase q0 q i v ch k c :
  wf q -> same_index q0 q -> c ∈ byFee q -> (i < length (byFee q))%nat ->
  exists s, (let '(q', i') := eraseAndAdvance q i c in Continue (mkLoop q' v i' ch k)) = Continue s /\ lq s = erase q c /\ goesOn q0 i v s.
Proof.
  intros Hwf Hs Hc Hi. destruct (eraseAndAdvance_spec q i c Hwf Hc Hi) as [H1 H2].
  destruct (eraseAndAdvance q i c) as [q' i']; cbn in H1, H2. subst q'. eexists. split; [done|]. split; [done|]. split_and!; [|done|].
  - etrans; [by apply evolves_same|by apply evolves_erase].
  - apply measure_shorter. rewrite <- (si_byFee _ _ Hs). by apply erase_shorter.
Qed.

Lemma penalise_lookup q a aq f b :
  byAccount q !! a = Some aq ->
  penalties (set_byAccount q (<[a := f aq]> (byAccount q))) b =
  if decide (b = a) then Some (RetryPenalty (f aq), DropPenalty (f aq)) else penalties q b.
Proof.
  intros Ha. unfold penalties. cbn. destruct (decide (b = a)) as [->|Hne]; [by rewrite lookup_insert_eq|by rewrite lookup_insert_ne].
Qed.

Section Settle.
Context (q : TxQ) (v : V) (i : nat) (ch : bool) (k : nat) (c : cptr) (aq : accountQueue) (r : Result).
Hypothesis Hwf : wf q.
Hypothesis Hi : byFee q !! i = Some c.
Hypothesis Ha : byAccount q !! Account (cand q c) = Some aq.

(** What settling a failed attempt comes to. *)
Definition settles (o : Outcome) : Prop :=
  exists s, o = Continue s /\ goesOn q i v s /\ frame c q (lq s) /\ LastResult (cand (lq s) c) = r /\ failure q c r (lq s).

Lemma settle_passes q1 :
  same_index q q1 -> byAccount q1 = byAccount q -> frame c q q1 -> LastResult (cand q1 c) = r ->
  RetriesRemaining (cand q1 c) = RetriesRemaining (cand q c) -> final q c r ->
  settles (let aq' := if RetriesRemaining (cand q1 c) <=? 0 then set_retryPenalty aq else set_dropPenalty aq in
           let q2 := set_byAccount q1 (<[Account (cand q1 c) := aq']> (byAccount q1)) in
           let '(q3, i') := eraseAndAdvance q2 i c in Continue (mkLoop q3 v i' ch k)).
Proof.
  intros H1 Hb Hfr Hl Hrt Hfin. cbv zeta. destruct (si_cand _ _ c H1) as (_ & Hac & _). rewrite Hac, Hrt.
  set (aq' := if RetriesRemaining (cand q c) <=? 0 then set_retryPenalty aq else set_dropPenalty aq). set (q2 := set_byAccount q1 _).
  assert (H2 : same_index q1 q2) by (eapply penalise_same; [by rewrite Hb|]; unfold aq'; by destruct (_ <=? 0)).
  pose proof (same_index_wf _ _ H1 Hwf) as Hwf1. pose proof (same_index_wf _ _ H2 Hwf1) as Hwf2.
  assert (Hf2 : byFee q2 = byFee q) by (etrans; [apply H2|apply H1]).
  assert (Hc : c ∈ byFee q2) by (rewrite Hf2; by eapply list_elem_of_lookup_2).
  destruct (goesOn_erase q q2 i v ch k c Hwf2) as (s & -> & Hq & Hgo); [by etrans|done|rewrite Hf2; by eapply lookup_lt_Some|].
  pose proof (erase_spec q2 c Hwf2 Hc) as He. exists s. split; [done|]. split; [done|]. rewrite Hq.
  split; [apply frame_erase; [done|done|]; by eapply frame_same|]. rewrite !(er_cand _ _ _ _ He).
  split; [exact Hl|]. apply fail_final; [done| |by rewrite (er_cand _ _ _ _ He)|].
  - rewrite <- Hf2. apply He.
  - intros a. rewrite penalties_erase by done. unfold q2. rewrite Hb.
    transitivity (penalties (set_byAccount q (<[Account (cand q c) := aq']> (byAccount q))) a); [done|].
    rewrite (penalise_lookup q _ aq (fun _ => aq') a Ha). destruct (decide _) as [->|]; [|done].
    unfold penalties. rewrite Ha. cbn. unfold aq'. by destruct (_ <=? 0).
Qed.

(** The rest of a failure that is tried again. *)
Lemma settle_retry q2 :
  same_index q q2 -> byAccount q2 = byAccount q -> (forall d, SeqProxyOf (cand q2 d) = SeqProxyOf (cand q d)) ->
  frame c q q2 -> LastResult (cand q2 c) = r -> RetriesRemaining (cand q2 c) = retriesLeft q c -> ~ final q c r ->
  settles (if DropPenalty aq && (1 <? Count aq)%nat && isFullPct q2 95 then
             if IsTicket (SeqProxyOf (cand q2 c)) then let '(q3, i') := eraseAndAdvance q2 i c in Continue (mkLoop q3 v i' ch k)
             else let '(q3, i') := dropLastForAccount q2 aq c i in Continue (mkLoop q3 v (S i') ch k)
           else Continue (mkLoop q2 v (S i) ch k)).
Proof.
  intros H2 Hb Hsp Hfr Hl Hrt Hnf. pose proof (same_index_wf _ _ H2 Hwf) as Hwf2. pose proof (si_byFee _ _ H2) as Hf2.
  assert (Hlt : (i < length (byFee q))%nat) by by eapply lookup_lt_Some.
  assert (Hc : c ∈ byFee q2) by (rewrite Hf2; by eapply list_elem_of_lookup_2).
  assert (Hac : forall d, Account (cand q2 d) = Account (cand q d)) by (intros d; by destruct (si_cand _ _ d H2) as (_ & ? & _)).
  assert (Hpen : forall a, penalties q2 a = penalties q a) by (intros a; unfold penalties; by rewrite Hb).
  assert (Hfull : isFullPct q2 95 = isFullPct q 95) by (unfold isFullPct; by rewrite (si_maxSize _ _ H2), Hf2).
  assert (Hvic : forall d, victim q2 c d <-> victim q c d).
  { intros d. unfold victim. rewrite !Hsp. destruct (IsTicket _); [done|]. rewrite Hf2, !Hac. setoid_rewrite Hsp. setoid_rewrite Hac. done. }
  rewrite Hfull, Hsp. destruct (DropPenalty aq && (1 <? Count aq)%nat && isFullPct q 95) eqn:Hcr.
  2:{ eexists. split; [done|]. split; [split_and!; [by apply evolves_same|done|apply measure_next; [cbn [lq]; by rewrite Hf2|done]]|].
      split; [done|]. split; [done|]. apply fail_retry; try done. intros d (aq0 & Ha0 & Hd0 & Hc0 & Hfl0) _.
      rewrite Ha in Ha0. injection Ha0 as <-. by rewrite Hd0, (proj2 (Nat.ltb_lt _ _) Hc0), Hfl0 in Hcr. }
  apply andb_true_iff in Hcr as [[Hd Hcnt%Nat.ltb_lt]%andb_true_iff Hfl].
  assert (Hcrowd : crowded q c) by by exists aq.
  assert (Hgone : forall d s, victim q c d -> d ∈ byFee q2 -> lq s = erase q2 d -> goesOn q i v s -> settles (Continue s)).
  { intros d s Hv Hdq Hq Hgo. pose proof (erase_spec q2 d Hwf2 Hdq) as He. exists s. split; [done|]. split; [done|]. rewrite Hq.
    split; [by apply frame_erase|]. rewrite (er_cand _ _ _ _ He). split; [done|].
    apply (fail_crowded _ _ _ _ d); [done|done|done|rewrite <- Hf2; apply He|by rewrite (er_cand _ _ _ _ He)|].
    intros a. by rewrite penalties_erase. }
  destruct (IsTicket (SeqProxyOf (cand q c))) eqn:Ht.
  - destruct (goesOn_erase q q2 i v ch k c Hwf2 H2 Hc) as (s & -> & Hq & Hgo); [by rewrite Hf2|].
    apply (Hgone c s); [|done..]. unfold victim. by rewrite Ht.
  - destruct (dropLast_victim q2 aq c i Hwf2 Hc) as [[-> Hno]|(d & Hv & Hdq & Hq)]; [by rewrite Hb, Hac|by rewrite Hf2|by rewrite Hsp|..].
    + eexists. split; [done|]. split; [split_and!; [by apply evolves_same|done|apply measure_next; [cbn [lq]; by rewrite Hf2|done]]|].
      split; [done|]. split; [done|]. apply fail_retry; try done. intros d _ Hv. by apply (Hno d), Hvic.
    + destruct (dropLastForAccount q2 aq c i) as [q3 i3]. cbn in Hq. subst q3. apply (Hgone d); [by apply Hvic|done|done|].
      split_and!; [etrans; [by apply evolves_same|by apply evolves_erase]|done|]. apply measure_shorter. cbn [lq]. rewrite <- Hf2.
      by apply erase_shorter.
Qed.

Lemma settle_failed : settles (settle q v i ch k c aq r false).
Proof.
  unfold settle. cbv zeta. destruct (frame_write c q (set_lastResult (cand q c) r)) as [Hf1 Hc1]; [done|done|].
  assert (H1 : same_index q (write q c (set_lastResult (cand q c) r))) by by apply write_same.
  set (q1 := write q c _) in *. rewrite Hc1. change (RetriesRemaining (set_lastResult (cand q c) r)) with (RetriesRemaining (cand q c)).
  destruct (IsTef r || IsTem r || (RetriesRemaining (cand q c) <=? 0)) eqn:Hfin.
  - pose proof (settle_passes q1 H1 eq_refl Hf1) as Hs. cbv zeta in Hs. rewrite Hc1 in Hs. apply Hs; [done|done|].
    unfold final. apply orb_true_iff in Hfin as [[?|?]%orb_true_iff|?%Z.leb_le]; auto.
  - assert (Hnf : ~ final q c r).
    { intros [Hx|[Hx|Hx%Z.leb_le]]; rewrite Hx in Hfin; by rewrite ?orb_true_r in Hfin. }
    match goal with |- context [write q1 c ?w] => set (w2 := w) end.
    destruct (frame_write c q1 w2) as [Hf2 Hc2]; [by rewrite Hc1|by rewrite Hc1|].
    assert (H2 : same_index q1 (write q1 c w2)) by (apply write_same; by rewrite Hc1).
    apply (settle_retry (write q1 c w2)); [by etrans|done| | | | |done].
    + intros d. destruct (si_cand _ _ d H1) as (_ & _ & _ & <-). by destruct (si_cand _ _ d H2) as (_ & _ & _ & <-).
    + destruct Hf1, Hf2. constructor; try congruence. intros d Hd. rewrite fr_other1, fr_other0 by done. done.
    + by rewrite Hc2.
    + rewrite Hc2. unfold w2, retriesLeft, penalties. rewrite Ha. cbn. destruct (RetryPenalty aq); [|done]. by destruct (2 <? _).
Qed.

Lemma settle_applied : exists s, settle q v i ch k c aq r true = Continue s /\ lq s = erase q c /\ goesOn q i v s.
Proof.
  apply (goesOn_erase q q i v true k c Hwf); [done|by eapply list_elem_of_lookup_2|by eapply lookup_lt_Some].
Qed.

End Settle.

(** Outcome of an iteration, as a passage of the abstract pass. *)
Definition steps_to (snap : feeMetricsSnapshot) (q : TxQ) (v : V) (i : nat) (o : Outcome) : Prop :=
  match o with
  | Continue s => passes snap (q, v) (lq s, lv s) /\ evolves q (lq s) /\ (measure (lq s) (li s) < measure q i)%nat
  | Break s | Return s => passes snap (q, v) (lq s, lv s) /\ evolves q (lq s)
  end.

Lemma steps_from snap q q1 v i o :
  pass1 snap (q, v) (q1, v) -> evolves q q1 -> (measure q1 i <= measure q i)%nat -> steps_to snap q1 v i o -> steps_to snap q v i o.
Proof.
  intros Hp He Hm. destruct o as [s|s|s]; cbn.
  1: intros (Hp' & He' & Hm'); split_and!; [by eapply rtc_l|by etrans|lia].
  all: intros (Hp' & He'); split; [by eapply rtc_l|by etrans].
Qed.

Lemma stays snap q v i s : lq s = q -> lv s = v -> steps_to snap q v i (Return s) /\ steps_to snap q v i (Break s).
Proof. unfold steps_to. intros -> ->. split; (split; apply rtc_refl). Qed.

Lemma mustWait_first q a aq c d :
  wf q -> byAccount q !! a = Some aq -> a = Account (cand q c) -> mustWait q aq c = false ->
  IsTicket (SeqProxyOf (cand q c)) = false ->
  d ∈ byFee q -> Account (cand q d) = a -> IsTicket (SeqProxyOf (cand q d)) = false ->
  Value (SeqProxyOf (cand q c)) <= Value (SeqProxyOf (cand q d)).
Proof.
  intros Hwf Ha -> Hm Htc Hd Had Htd. unfold mustWait in Hm. rewrite Htc in Hm; cbn in Hm.
  pose proof (FirstSeqTx_best (heap q) aq (wf_aq_ok _ _ _ Hwf Ha)) as Hb.
  destruct (wf_filed q Hwf d Hd) as (aq' & Ha' & Ht'). rewrite Had, Ha in Ha'. injection Ha' as <-.
  assert (He : (SeqProxyOf (cand q d), d) ∈ entries aq) by (by apply elem_of_entries).
  destruct (FirstSeqTx (heap q) aq) as [f|]; cbn in Hb.
  - destruct Hb as (sp & Hin & _ & Hbest). apply elem_of_entries in Hin.
    pose proof (wf_aq_ok _ _ _ Hwf Ha _ _ Hin) as Hsp. unfold cand at 1 in Hm. rewrite Hsp in Hm.
    specialize (Hbest _ He). cbn in Hbest. rewrite Htd in Hbest. specialize (Hbest eq_refl).
    unfold valueLess in Hbest. lia.
  - specialize (Hb _ He). cbn in Hb. by rewrite Htd in Hb.
Qed.

Lemma attempt_steps snap q v i ch k c aq :
  wf q -> byFee q !! i = Some c -> byAccount q !! Account (cand q c) = Some aq ->
  admissible snap q v c -> steps_to snap q v i (attempt q v i ch k c aq).
Proof.
  intros Hwf Hi Ha Had. unfold attempt. destruct (Err k) eqn:Ek; [by apply stays|].
  pose proof (fun k Ek => pass_cut snap q v c k Ek Had) as Hcut.
  pose proof (pass_applied snap q v c) as Hap. pose proof (pass_failed snap q v c) as Hfl.
  destruct (ApplyTransactionWithFlags _ _ _) as [v' [r applied]]; cbn [fst] in Hcut.
  destruct (Err (S k)) eqn:E1; [split; [by eapply rtc_once, Hcut|apply rtc_refl]|].
  destruct (Err (2 + k)) eqn:E2; [split; [by eapply rtc_once, Hcut|apply rtc_refl]|]. destruct applied.
  - destruct (settle_applied q v' i ch (3 + k) c aq r Hwf Hi) as (s & -> & Hq & He & Hv & Hm). split_and!; [|done|done].
    rewrite Hq, Hv. apply rtc_once. by eapply Hap.
  - destruct (settle_failed q v' i ch (3 + k) c aq r Hwf Hi Ha) as (s & -> & (He & Hv & Hm) & Hfr & Hl & Hf). split_and!; [|done|done].
    rewrite Hv. apply rtc_once. by eapply Hfl.
Qed.

Lemma acceptStep_steps snap q v i ch k :
  wf q -> (i < length (byFee q))%nat -> steps_to snap q v i (acceptStep snap (mkLoop q v i ch k)).
Proof.
  intros Hwf Hi. destruct (lookup_lt_is_Some_2 _ _ Hi) as [c Hc].
  unfold acceptStep. rewrite (list_lookup_total_correct _ _ _ Hc).
  assert (Hin : c ∈ byFee q) by (by eapply list_elem_of_lookup_2).
  destruct (Err k); [by apply stays|]. cbv zeta. destruct (wf_filed q Hwf c Hin) as (aq & Ha & _). rewrite Ha.
  destruct (mustWait q aq c) eqn:Hm; [split_and!; [apply rtc_refl|apply rtc_refl|by apply measure_next]|].
  destruct (Err (S k)); [by apply stays|].
  destruct (Z.ltb_spec (FeeLevel (cand q c)) (scaleFeeLevel snap (GetTxInLedger v))) as [|Hfee]; [by apply stays|].
  destruct (needPreflight (cand q c) (RulesIdentity v)) eqn:Hn.
  - destruct (Err (2 + k)); [by apply stays|].
    pose proof (pass_preflight snap q v c Hin Hn) as Hp. set (w1 := set_preflight _ _ _ _) in *.
    set (q1 := write q c w1) in *. assert (H1 : same_index q q1) by (by apply write_same).
    assert (Hw : cand q1 c = w1) by (unfold cand, q1; cbn; by rewrite lookup_total_insert_eq).
    pose proof (same_index_wf _ _ H1 Hwf) as Hwf1.
    assert (Ha1 : byAccount q1 !! Account (cand q1 c) = Some aq) by (by rewrite Hw).
    apply (steps_from snap q q1 v i _ Hp); [by apply evolves_same|done|].
    destruct (negb _) eqn:Hs.
    + destruct (Err (3 + k)); [by apply stays|]. apply negb_true_iff, Z.eqb_neq in Hs.
      set (r := PreflightTransactionWithFlags _ _ _) in *.
      destruct (settle_failed q1 v i ch (4 + k) c aq r Hwf1 Hc Ha1) as (s & -> & (He & Hv & Hm') & Hfr & Hl & Hf).
      split_and!; [|done|done]. rewrite Hv. apply rtc_once. apply (pass_rejected snap q1 v c r); rewrite ?Hw; done.
    + apply attempt_steps; [done..|]. apply negb_false_iff, Z.eqb_eq in Hs.
      constructor; rewrite ?Hw; try done; [unfold verdict, w1; cbn; by rewrite Hs|].
      intros Ht d Hd. destruct (si_cand _ _ d H1) as (_ & -> & _ & ->). by eapply mustWait_first.
  - apply attempt_steps; [done..|]. unfold needPreflight in Hn.
    apply orb_false_iff in Hn as [[Hn1%negb_false_iff Hn2%negb_false_iff]%orb_false_iff Hn3%negb_false_iff].
    constructor; [done|lia| |intros; by eapply mustWait_first].
    apply Z.eqb_eq in Hn1, Hn2. apply bool_decide_eq_true in Hn3. unfold verdict. congruence.
Qed.

(** ** The pass as a whole *)

Lemma acceptLoop_passes snap fuel q v i ch k :
  wf q -> (measure q i < fuel)%nat ->
  exists s b, acceptLoop snap fuel (mkLoop q v i ch k) = Some (s, b) /\
    passes snap (q, v) (lq s, lv s) /\ evolves q (lq s).
Proof.
  revert q v i ch k. induction fuel as [|fuel IH]; intros q v i ch k Hwf Hf; [lia|].
  cbn [acceptLoop lq li].
  destruct (Nat.ltb_spec i (length (byFee q))) as [Hi|Hi]; [|eexists _, _; split; [done|]; split; apply rtc_refl].
  pose proof (acceptStep_steps snap q v i ch k Hwf Hi) as Hs.
  destruct (acceptStep snap _) as [[q1 v1 i1 ch1 k1]|s|s]; cbn in Hs; [|by eauto..].
  destruct Hs as (Hp & Hev & Hm). pose proof (evolves_preserved _ _ Hwf Hev) as Hpr.
  destruct (IH q1 v1 i1 ch1 k1 (pr_wf _ _ Hpr) ltac:(lia)) as (s & b & He & Hp' & Hev').
  exists s, b. split; [done|]. split; by etrans.
Qed.

Lemma acceptFuel_enough q : (measure q 0 < acceptFuel q)%nat.
Proof. unfold measure, acceptFuel. lia. Qed.

(** What a pass returns: the queue of some passage, reordered for the new parent
    hash when the pass ran to its end. *)
Lemma accept_spec q v :
  wf q -> exists q1 q' v' ch, accept q v = Some (q', v', ch) /\
    passes (snapshot (metrics q)) (q, v) (q1, v') /\ evolves q q1 /\
    (q' = q1 \/ (parentHash q1 <> GetParentHash v /\
                 q' = rebuildByFee (set_parentHash q1 (GetParentHash v)))).
Proof.
  intros Hwf. unfold accept.
  assert (Hid : exists q1 q' v' ch, Some (q, v, false) = Some (q', v', ch) /\
    passes (snapshot (metrics q)) (q, v) (q1, v') /\ evolves q q1 /\
    (q' = q1 \/ (parentHash q1 <> GetParentHash v /\
                 q' = rebuildByFee (set_parentHash q1 (GetParentHash v))))).
  { exists q, q, v, false. split_and!; [done|apply rtc_refl|apply rtc_refl|by left]. }
  destruct (Err 0); [done|]. destruct (Err 1); [done|]. cbv zeta. destruct (Err 2); [done|].
  destruct (acceptLoop_passes (snapshot (metrics q)) (acceptFuel q) q v 0 false 3 Hwf
    (acceptFuel_enough q)) as ([q1 v1 i1 ch1 k1] & b & -> & Hp & Hev); cbn [lq lv] in Hp, Hev.
  destruct b; [exists q1, q1; eauto 10|].
  destruct (Err k1); [exists q1, q1; eauto 10|].
  case_bool_decide as Eh; cbn [negb]; [exists q1, q1; eauto 10|].
  destruct (Err (S k1)); [exists q1, q1; eauto 10|].
  eexists q1, _, _, _. split_and!; [done|done|done|]. right. split; [by apply not_eq_sym|done].
Qed.

(** C34: a pass always ends, whatever the open ledger answers and whenever it is
    cancelled: the fuel (n+1)^2 - roughly one visit of each position for every
    entry that can be removed - is never exhausted. *)
Theorem accept_terminates q v : wf q -> is_Some (accept q v).
Proof. intros Hwf. destruct (accept_spec q v Hwf) as (? & ? & ? & ? & -> & _). eauto. Qed.

(** C6: a pass refines the abstract pass: the open ledger changes only by the
    application of admissible candidates, with the very transactions and flags
    they were queued with - paying the fee level required at that moment, with a
    preflight verdict that is a success under the current rules (the cached one
    when it was for these flags and rules, else the one of the open ledger's own
    preflight), and never ahead of an earlier sequence of the same account; and a
    candidate leaves the queue only when it was applied, failed for good, ran out
    of retries, or had to make room. *)
Theorem accept_refines q v q' v' ch :
  wf q -> accept q v = Some (q', v', ch) ->
  exists q1, passes (snapshot (metrics q)) (q, v) (q1, v') /\
    byFee q' ≡ₚ byFee q1 /\ heap q' = heap q1 /\ byAccount q' = byAccount q1.
Proof.
  intros Hwf He. destruct (accept_spec q v Hwf) as (q1 & q2 & v2 & ch2 & He' & Hp & Hev & Hq).
  rewrite He in He'. injection He' as <- <- <-. exists q1. split; [done|].
  destruct Hq as [->|[_ ->]]; [done|].
  destruct (rebuild_spec q1 (GetParentHash v) (pr_wf _ _ (evolves_preserved _ _ Hwf Hev)))
    as (_ & ? & ? & ? & _). done.
Qed.

(** After a pass the queue is well formed and indexed by identifier, holds
    only candidates it held before, and keeps its metrics, capacity and
    configuration. *)
Theorem accept_invariant key q v q' v' ch :
  wf q -> ids_keyed key q -> ids_indexed q ->
  accept q v = Some (q', v', ch) ->
  wf q' /\ ids_keyed key q' /\ ids_indexed q' /\ (forall c, c ∈ byFee q' -> c ∈ byFee q) /\
  config q' = config q /\ metrics q' = metrics q /\ maxSize q' = maxSize q.
Proof.
  intros Hwf Hk Hi He. destruct (accept_spec q v Hwf) as (q1 & q2 & v2 & ch2 & He' & _ & Hev & Hq).
  rewrite He in He'. injection He' as <- <- <-.
  pose proof (evolves_preserved _ _ Hwf Hev) as Hpr.
  assert (Hk1 : ids_keyed key q1).
  { intros c Hc. pose proof (pr_key _ _ Hpr c) as Hck. unfold ckey in Hck.
    injection Hck as -> -> _ ->. apply Hk. eapply elem_of_sublist; [exact Hc|apply Hpr]. }
  assert (Hsub : forall c, c ∈ byFee q1 -> c ∈ byFee q).
  { intros c Hc. eapply elem_of_sublist; [exact Hc|apply Hpr]. }
  destruct Hpr as [Hw Hids _ _ _ Hcf Hm Hx]. destruct Hq as [->|[_ ->]]; [by split_and!; auto|].
  destruct (rebuild_spec q1 (GetParentHash v) Hw) as (Hw' & Hpm & _ & _ & _ & Hcf' & Hm' & Hx').
  destruct (rebuild_ids q1 (GetParentHash v) key Hw Hk1) as [Hk' Hi'].
  split_and!; [done..| |congruence|congruence|congruence].
  intros c. rewrite Hpm. apply Hsub.
Qed.

End Accept.

(** The background context is never cancelled. *)
Definition Accept {V} `{!AcceptContext V} (ParseFromBinary : bytes -> option Transaction)
    (q : TxQ) (v : V) : option (TxQ * V * bool) :=
  accept ParseFromBinary (fun _ => false) q v.

(** ** Instances *)

(** An open ledger that only counts the transactions applied to it. *)
#[global] Instance counterView : OpenView Z := {
  GetTxInLedger := fun v => v;
  ApplyTransactionWithFlags := fun v _ _ => (v + 1, (TesSUCCESS, true));
  PreflightTransactionWithFlags := fun _ _ _ => TesSUCCESS;
  RulesIdentity := fun _ => None }.

#[global] Instance counterAccept : AcceptContext Z := {
  accept_view := counterView;
  GetParentHash := fun _ => exID 9 }.

Definition exParse (b : bytes) : option Transaction := None.
Definition never (n : nat) : bool := false.

(** Both candidates fit: the pass empties the queue. *)
Definition exPass : TxQ * Z * bool :=
  match accept exParse never exQ 3 with Some r => r | None => (exQ, 3, false) end.

Lemma exPass_eq : accept exParse never exQ 3 = Some (exPass.1.1, 5, true).
Proof. vm_compute. reflexivity. Qed.

Lemma accept_terminates_witness : is_Some (accept exParse never exQ 3).
Proof. exact (accept_terminates exParse never exQ 3 exQ_wf). Defined.

Lemma accept_refines_witness :
  exists q1, passes exParse never (snapshot (metrics exQ)) (exQ, 3) (q1, 5) /\
    byFee exPass.1.1 ≡ₚ byFee q1 /\ heap exPass.1.1 = heap q1 /\ byAccount exPass.1.1 = byAccount q1.
Proof. exact (accept_refines exParse never exQ 3 exPass.1.1 5 true exQ_wf exPass_eq). Defined.

Lemma accept_invariant_witness :
  wf exPass.1.1 /\ ids_keyed exKey exPass.1.1 /\ ids_indexed exPass.1.1 /\
  (forall c, c ∈ byFee exPass.1.1 -> c ∈ byFee exQ) /\
  config exPass.1.1 = config exQ /\ metrics exPass.1.1 = metrics exQ /\
  maxSize exPass.1.1 = maxSize exQ.
Proof.
  exact (accept_invariant exParse never exKey exQ 3 exPass.1.1 5 true exQ_wf
    (proj1 exQ_ids) (proj2 exQ_ids) exPass_eq).
Defined.

End TxqAccept.
