(* ===== verification/TxqApply.v ===== *)
(** * Transaction queue: submitting a transaction
    (internal/txq/apply.go, internal/txq/submission.go)

    Apply decides whether a submitted transaction goes straight into the open
    ledger, is queued, or is refused. The model follows the code's stages, each
    with its early returns, over the queue and the open ledger. *)

From Stdlib Require Import ZArith Lia Ascii.
From stdpp Require Import base sorting list gmap strings numbers relations.
From S2P Require Import Prelude Strconv TxqFee TxqQueue TxqAccept.

Module TxqApply.
Import TxqFee TxqQueue TxqAccept.

(** ** Result codes and flags *)

Definition TelCAN_NOT_QUEUE : Result := -392.
Definition TelCAN_NOT_QUEUE_BALANCE : Result := -391.
Definition TelCAN_NOT_QUEUE_BLOCKS : Result := -390.
Definition TelCAN_NOT_QUEUE_BLOCKED : Result := -389.
Definition TelCAN_NOT_QUEUE_FEE : Result := -388.
Definition TelCAN_NOT_QUEUE_FULL : Result := -387.
Definition TemMALFORMED : Result := -299.
Definition TemBAD_FEE : Result := -295.
Definition TemBAD_SRC_ACCOUNT : Result := -281.
Definition TefEXCEPTION : Result := -193.
Definition TefINTERNAL : Result := -192.
Definition TefPAST_SEQ : Result := -190.
Definition TefNO_TICKET : Result := -180.
Definition TerNO_ACCOUNT : Result := -96.
Definition TerPRE_SEQ : Result := -92.
Definition TerQUEUED : Result := -89.
Definition TerPRE_TICKET : Result := -88.

Definition TapFAIL_HARD : Z := 0x10.
Definition TapRETRY : Z := 0x20.
Definition TapDRY_RUN : Z := 0x1000.
Definition SpfSponsorFee : Z := 1.

Definition hasFlag (flags f : Z) : bool := negb (Z.land flags f =? 0).

Record ApplyResult := mkApplyResult { ResultCode : Result; Applied : bool; Queued : bool }.

Definition rejected (r : Result) : ApplyResult := mkApplyResult r false false.

(** ** What Apply needs of the open ledger *)

(** Errors of the fee computation: a result code, or something else. *)
Inductive FeeError := ResultError (code : Result) | OtherError.

Class ApplyContext (V : Type) := {
  #[global] apply_view :: OpenView V;
  GetAccountSequence : V -> bytes -> option Z;
  AccountExists : V -> bytes -> option bool;
  TicketExists : V -> bytes -> Z -> option bool;
  GetAccountBalance : V -> bytes -> option Z;
  GetAccountReserve : V -> Z -> Z;
  GetBaseFees : V -> Transaction -> FeeError + (Z * Z);
  GetReferenceFee : V -> Z;
  GetLedgerSequence : V -> Z;
  PreclaimTransactionWithFlags : V -> Transaction -> bytes -> Z -> Z -> Z -> Result;
  GetApplyFlags : V -> Z;
  SandboxContext : Type;
  NewSandbox : V -> option SandboxContext;
  SandboxApply : SandboxContext -> option Transaction -> Z -> SandboxContext * (Result * bool);
  Commit : V -> SandboxContext -> V * bool }.

(** strconv.ParseUint(s, 10, 64): the value and whether there was an error *)
Definition ParseUint (s : string) : Z * bool := Strconv.ParseUint 10 s.

(** ** Consequences *)

Definition SeqProxyKey (c : Common) : Z :=
  match Sequence c with
  | Some seq => if negb (seq =? 0) then seq
                else match TicketSequence c with
                     | Some t => Z.lor t (2 ^ 32)
                     | None => 0
                     end
  | None => match TicketSequence c with
            | Some t => Z.lor t (2 ^ 32)
            | None => 0
            end
  end.

Definition seqProxyFor (c : Common) : option SeqProxy :=
  match Sequence c, TicketSequence c with
  | None, None => None
  | _, _ =>
      let key := SeqProxyKey c in
      if negb (Z.land key (2 ^ 32) =? 0) then Some (NewSeqProxyTicket (wrap 32 key))
      else Some (NewSeqProxySequence (wrap 32 key))
  end.

Definition authFlag (f : option Z) : bool :=
  match f with
  | Some v => (v =? 2) || (v =? 4) || (v =? 5)
  | None => false
  end.

Definition isAccountSetBlocker (txn : Transaction) : bool :=
  match Body txn with
  | AccountSet setFlag clearFlag =>
      if match TxFlags (GetCommon txn) with
         | Some flags => hasFlag flags (Z.lor 0x00040000 0x00080000)
         | None => false
         end then true
      else if authFlag setFlag then true
      else authFlag clearFlag
  | _ => false
  end.

Definition isBlockerTx (txn : Transaction) : bool :=
  match Body txn with
  | RegularKeySet | SignerListSet | AccountDelete | XChainClaim
  | XChainAddClaimAttestation | XChainAddAccountCreateAttest => true
  | AccountSet _ _ => isAccountSetBlocker txn
  | _ => false
  end.

Definition nativeDrops (a : Amount) : Z :=
  match a with NativeAmount drops => wrap 64 drops | OtherAmount => 0 end.

Definition potentialSpendOf (txn : Transaction) : Z :=
  match Body txn with
  | Payment amount sendMax =>
      nativeDrops (match sendMax with Some m => m | None => amount end)
  | OfferCreate a | EscrowCreate a | PaymentChannelCreate a | PaymentChannelFund a => nativeDrops a
  | XChainCommit a => if 0 <? nativeDrops a then nativeDrops a else 0
  | SponsorshipSet (Some (NativeAmount drops)) => if 0 <? drops then wrap 64 drops else 0
  | _ => 0
  end.

Definition computeConsequences (txn : Transaction) (seqProxy : SeqProxy) : txConsequences :=
  let fee := (ParseUint (Fee (GetCommon txn))).1 in
  let following :=
    if IsTicket seqProxy then seqProxy
    else NewSeqProxySequence
      match Body txn with
      | TicketCreate count =>
          if 0 <? count then wrap 32 (Value seqProxy + count) else wrap 32 (Value seqProxy + 1)
      | _ => wrap 32 (Value seqProxy + 1)
      end in
  mkConsequences fee (potentialSpendOf txn) (isBlockerTx txn) following.

(** ** Stages

    A stage reads and writes the queue and the open ledger, and either returns
    a value or ends the submission with a result. *)

Definition Stage (V A : Type) : Type := TxQ * V -> TxQ * V * (ApplyResult + A).

Definition done_ {V A} (a : A) : Stage V A := fun s => (s, inr a).
Definition exit_ {V A} (r : ApplyResult) : Stage V A := fun s => (s, inl r).
Definition reject {V A} (r : Result) : Stage V A := exit_ (rejected r).
Definition queue_ {V} : Stage V TxQ := fun s => (s, inr s.1).
Definition view_ {V} : Stage V V := fun s => (s, inr s.2).
Definition setQueue {V} (q : TxQ) : Stage V unit := fun s => ((q, s.2), inr tt).
Definition setView {V} (v : V) : Stage V unit := fun s => ((s.1, v), inr tt).

Definition bind_ {V A B} (m : Stage V A) (k : A -> Stage V B) : Stage V B := fun s =>
  match m s with
  | (s, inl r) => (s, inl r)
  | (s, inr a) => k a s
  end.

Declare Scope stage_scope.
Notation "'let*' x := m 'in' k" := (bind_ m (fun x => k))
  (at level 10, x name, m at level 200, k at level 200) : stage_scope.
Notation "'do*' m 'in' k" := (bind_ m (fun _ : unit => k))
  (at level 10, m at level 200, k at level 200) : stage_scope.
Open Scope stage_scope.

(** [if b { return r }] *)
Definition rejectIf {V} (b : bool) (r : Result) : Stage V unit :=
  if b then reject r else done_ tt.

Section Apply.
Context {V : Type} `{!ApplyContext V}.
(** Codec functions of the transaction package ([None]: an error). *)
Context (ParseFromBinary : bytes -> option Transaction).
Context (SerializeTransaction : Transaction -> option bytes).
Context (ComputeTransactionHash : Transaction -> option bytes).

Definition zeroID : bytes := replicate 32 0.
Definition zeroAccount : bytes := replicate 20 0.

Definition canonicalSubmission (txn : Transaction) (suppliedID suppliedAccount : bytes)
  : option (Transaction * bytes * bytes * bytes) :=
  raw ← (if (length (RawBytes txn) =? 0)%nat then SerializeTransaction txn else Some (RawBytes txn));
  parsed ← ParseFromBinary raw;
  id ← ComputeTransactionHash parsed;
  account ← SourceAccount (GetCommon parsed);
  if negb (bool_decide (suppliedAccount = zeroAccount)) && negb (bool_decide (suppliedAccount = account))
  then None
  else if negb (bool_decide (suppliedID = zeroID)) && negb (bool_decide (suppliedID = id))
  then None
  else Some (parsed, raw, id, account).

(** What the admission stages work on. *)
Record Submission := mkSubmission {
  sTxn : Transaction;
  sBlob : bytes;
  sTxID : bytes;
  sAccount : bytes;
  sFlags : Z;
  sDryRun : bool;
  sAcctSeq : Z;
  sTxInLedger : Z;
  sLedgerSeq : Z;
  sSeqProxy : SeqProxy;
  sLastValid : Z }.

(** The canonical form of the submission, unless it is a dry run. *)
Definition canonicalise (txn : Transaction) (txID account : bytes) (isDryRun : bool)
  : Stage V (Transaction * bytes * bytes * bytes) :=
  if isDryRun then done_ (txn, [], txID, account)
  else
    let* c :=
      match canonicalSubmission txn txID account with
      | Some c => done_ c
      | None => if negb (Synthetic txn) then reject TemMALFORMED
                else done_ (txn, RawBytes txn, txID, account)
      end in
    let '(canonicalTxn, canonicalBlob, canonicalID, canonicalAccount) := c in
    done_ (canonicalTxn, canonicalBlob,
           if bool_decide (canonicalID = zeroID) then txID else canonicalID,
           if bool_decide (canonicalAccount = zeroAccount) then account else canonicalAccount).

Definition prepare (txn : option Transaction) (txID account : bytes) : Stage V Submission :=
  match txn with
  | None => reject TefINTERNAL
  | Some txn =>
      let* v := view_ in
      let originalFlags := GetApplyFlags v in
      let isDryRun := hasFlag originalFlags TapDRY_RUN in
      let* c := canonicalise txn txID account isDryRun in
      let '(txn, blob, txID, account) := c in
      let preflightResult := PreflightTransactionWithFlags v (Some txn) originalFlags in
      do* rejectIf (negb (preflightResult =? TesSUCCESS)) preflightResult in
      let common := GetCommon txn in
      let* account :=
        if isDryRun then
          match SourceAccount common with
          | None => reject TemBAD_SRC_ACCOUNT
          | Some currentAccount => done_ currentAccount
          end
        else done_ account in
      match AccountExists v account with
      | None => reject TefINTERNAL
      | Some false => if isDryRun then reject TelCAN_NOT_QUEUE else reject TerNO_ACCOUNT
      | Some true =>
          match GetAccountSequence v account with
          | None => reject TefINTERNAL
          | Some acctSeq =>
              match seqProxyFor common with
              | None => reject TefINTERNAL
              | Some seqProxy =>
                  done_ (mkSubmission txn blob txID account originalFlags isDryRun acctSeq
                    (GetTxInLedger v) (GetLedgerSequence v) seqProxy
                    (match LastLedgerSequence common with Some l => l | None => 0 end))
              end
          end
      end
  end.

Definition computeFeeLevel (txn : Transaction) : Stage V Z :=
  let* v := view_ in
  match GetBaseFees v txn with
  | inl (ResultError code) => reject code
  | inl OtherError => reject TefEXCEPTION
  | inr (baseFee, defaultBaseFee) =>
      let '(feePaid, parseErr) := ParseUint (Fee (GetCommon txn)) in
      if parseErr then reject TemBAD_FEE
      else done_ (ToFeeLevelWithDefaultBaseFee feePaid baseFee defaultBaseFee)
  end.

(** The attempt to apply directly; returns the required fee level. *)
Definition tryDirectApply (s : Submission) : Stage V Z :=
  let* q := queue_ in
  let requiredFeeLevel := scaleFeeLevel (snapshot (metrics q)) (sTxInLedger s) in
  let canDirectApply := IsTicket (sSeqProxy s) || (Value (sSeqProxy s) =? sAcctSeq s) in
  if canDirectApply then
    let* feeLevel := computeFeeLevel (sTxn s) in
    if requiredFeeLevel <=? feeLevel then
      let* v := view_ in
      let '(v, (result, applied)) := ApplyTransactionWithFlags v (Some (sTxn s)) (sFlags s) in
      do* setView v in
      if applied then
        let* q := queue_ in
        do* match byAccount q !! sAccount s with
            | Some aq => match Transactions aq !! sSeqProxy s with
                         | Some c => setQueue (erase q c)
                         | None => done_ tt
                         end
            | None => done_ tt
            end in
        exit_ (mkApplyResult result true false)
      else reject result
    else done_ requiredFeeLevel
  else done_ requiredFeeLevel.

Definition checkTicket (s : Submission) : Stage V unit :=
  if IsTicket (sSeqProxy s) then
    let* v := view_ in
    match TicketExists v (sAccount s) (Value (sSeqProxy s)) with
    | None => reject TefINTERNAL
    | Some true => done_ tt
    | Some false => if Value (sSeqProxy s) <? sAcctSeq s then reject TefNO_TICKET
                    else reject TerPRE_TICKET
    end
  else done_ tt.

(** ** Admission to the queue *)

(** The account's queue, as found before the admission checks. *)
Definition accountOf (q : TxQ) (s : Submission) : option accountQueue := byAccount q !! sAccount s.

Definition acctSeqProx (s : Submission) : SeqProxy := NewSeqProxySequence (sAcctSeq s).

Definition relevantTxs (q : TxQ) (s : Submission) : Z :=
  match accountOf q s with
  | Some aq => RelevantCount aq (acctSeqProx s)
  | None => 0
  end.

Definition firstRelevantOf (q : TxQ) (s : Submission) : option cptr :=
  match accountOf q s with
  | Some aq => FirstRelevant (heap q) aq (acctSeqProx s)
  | None => None
  end.

Definition replacingCandidateOf (q : TxQ) (s : Submission) : option cptr :=
  match accountOf q s with
  | Some aq => Transactions aq !! sSeqProxy s
  | None => None
  end.

(** A blocker may only enter an empty account queue or replace its only entry. *)
Definition checkIncomingBlocker (s : Submission) (cons : txConsequences) : Stage V unit :=
  let* q := queue_ in
  let acctTxCount := relevantTxs q s in
  if IsBlocker cons then
    if 1 <? acctTxCount then reject TelCAN_NOT_QUEUE_BLOCKS
    else if acctTxCount =? 1 then
      match firstRelevantOf q s with
      | None => reject TelCAN_NOT_QUEUE_BLOCKS
      | Some f => rejectIf (negb (bool_decide (SeqProxyOf (cand q f) = sSeqProxy s)))
                    TelCAN_NOT_QUEUE_BLOCKS
      end
    else done_ tt
  else done_ tt.

(** A queued blocker admits nothing but its replacement, and a replacement must
    pay enough more. *)
Definition checkReplacement (s : Submission) (feeLevel : Z) : Stage V unit :=
  let* q := queue_ in
  let acctTxCount := relevantTxs q s in
  if 0 <? acctTxCount then
    do* match firstRelevantOf q s with
        | Some f => rejectIf ((acctTxCount =? 1) && IsBlocker (Consequences (cand q f)) &&
                      negb (bool_decide (SeqProxyOf (cand q f) = sSeqProxy s)))
                      TelCAN_NOT_QUEUE_BLOCKED
        | None => done_ tt
        end in
    match replacingCandidateOf q s with
    | Some r =>
        let requiredRetryLevel := mulDiv (FeeLevel (cand q r))
          (wrap 64 (100 + RetrySequencePercent (config q))) 100 in
        rejectIf (feeLevel <=? requiredRetryLevel) TelCAN_NOT_QUEUE_FEE
    | None => done_ tt
    end
  else done_ tt.

Definition rejectFull {A} : Stage V A :=
  let* q := queue_ in do* setQueue (incTxQFull q) in reject TelCAN_NOT_QUEUE_FULL.

Definition isBatch (txn : Transaction) : bool :=
  match Body txn with Batch => true | _ => false end.

Definition canBeHeld (s : Submission) : Stage V unit :=
  let* q := queue_ in
  let common := GetCommon (sTxn s) in
  do* rejectIf (HasPreviousTxnID common || HasAccountTxnID common || hasFlag (sFlags s) TapFAIL_HARD)
        TelCAN_NOT_QUEUE in
  do* rejectIf (isBatch (sTxn s)) TelCAN_NOT_QUEUE in
  do* rejectIf (HasDelegate common) TelCAN_NOT_QUEUE in
  do* rejectIf (HasSponsor common &&
        match SponsorFlags common with Some f => hasFlag f SpfSponsorFee | None => false end)
        TelCAN_NOT_QUEUE in
  do* rejectIf match LastLedgerSequence common with
               | Some l => l <? wrap 32 (sLedgerSeq s + MinimumLastLedgerBuffer (config q))
               | None => false
               end TelCAN_NOT_QUEUE in
  match accountOf q s with
  | None => done_ tt
  | Some aq =>
      if bool_decide (is_Some (replacingCandidateOf q s)) ||
         (wrap 32 (Z.of_nat (Count aq)) <? MaximumTxnPerAccount (config q))
      then done_ tt
      else
        let nextSeq := getNextQueuableSeq (heap q) aq (sAcctSeq s) in
        if negb (IsTicket (sSeqProxy s)) && (Value (sSeqProxy s) =? nextSeq) then
          match upperBoundSeqProxy aq (sSeqProxy s) with
          | None => rejectFull
          | Some nextSP => if IsTicket nextSP then rejectFull else done_ tt
          end
        else rejectFull
  end.

(** Sequence rules; returns whether the account's in-flight transactions matter. *)
Definition checkSequence (s : Submission) : Stage V bool :=
  let* q := queue_ in
  let sp := sSeqProxy s in
  if relevantTxs q s =? 0 then
    if negb (IsTicket sp) && negb (Value sp =? sAcctSeq s) then
      if Value sp <? sAcctSeq s then reject TefPAST_SEQ else reject TerPRE_SEQ
    else done_ false
  else
    do* rejectIf (negb (IsTicket sp) && (Value sp <? sAcctSeq s)) TefPAST_SEQ in
    match accountOf q s with
    | None => done_ false
    | Some aq =>
        if (1 <? relevantTxs q s) || bool_decide (replacingCandidateOf q s = None) then
          do* canBeHeld s in
          if negb (IsTicket sp) then
            let goesAtFront := match PrevTx (heap q) aq sp with
                               | None => true
                               | Some p => Less sp (SeqProxyOf (cand q p))
                               end in
            if goesAtFront then
              if Value sp <? sAcctSeq s then reject TefPAST_SEQ
              else if sAcctSeq s <? Value sp then reject TerPRE_SEQ
              else done_ true
            else if bool_decide (replacingCandidateOf q s = None) then
              if negb (getNextQueuableSeq (heap q) aq (sAcctSeq s) =? Value sp)
              then reject TelCAN_NOT_QUEUE else done_ true
            else done_ true
          else done_ true
        else done_ false
    end.

(** The fees and potential spends of the account's queued transactions, the new
    one standing in for the one it replaces in the middle. *)
Fixpoint inFlight (q : TxQ) (sp : SeqProxy) (cons : txConsequences) (l : list cptr)
    (totalFee potentialSpend : Z) : Z * Z :=
  match l with
  | [] => (totalFee, potentialSpend)
  | c :: l' =>
      if negb (bool_decide (SeqProxyOf (cand q c) = sp)) then
        inFlight q sp cons l' (wrap 64 (totalFee + ConsFee (Consequences (cand q c))))
          (wrap 64 (potentialSpend + PotentialSpend (Consequences (cand q c))))
      else if (0 <? length l')%nat then
        inFlight q sp cons l' (wrap 64 (totalFee + ConsFee cons))
          (wrap 64 (potentialSpend + PotentialSpend cons))
      else inFlight q sp cons l' totalFee potentialSpend
  end.

(** The balance and sequence the preclaim runs against. *)
Definition multiTxnView (s : Submission) (cons : txConsequences) (balance : Z) : Stage V (Z * Z) :=
  let* q := queue_ in
  let* v := view_ in
  match accountOf q s with
  | None => done_ (balance, sAcctSeq s)
  | Some aq =>
      let '(totalFee, potentialSpend) :=
        inFlight q (sSeqProxy s) cons (RelevantSortedCandidates (heap q) aq (acctSeqProx s)) 0 0 in
      let reserve := GetAccountReserve v 0 in
      let referenceFee := GetReferenceFee v in
      do* rejectIf ((balance <=? totalFee) ||
            ((wrap 64 (10 * referenceFee) <? reserve) && (reserve <=? totalFee)))
            TelCAN_NOT_QUEUE_BALANCE in
      let minBalReserve := Z.min reserve balance in
      let spendableAboveReserve := Z.min potentialSpend (wrap 64 (balance - minBalReserve)) in
      let potentialTotalSpend := wrap 64 (totalFee + spendableAboveReserve) in
      let preclaimBalance :=
        if potentialTotalSpend <=? balance then wrap 64 (balance - potentialTotalSpend) else 0 in
      let preclaimSeq :=
        if IsTicket (sSeqProxy s) then getNextQueuableSeq (heap q) aq (sAcctSeq s)
        else Value (sSeqProxy s) in
      done_ (preclaimBalance, preclaimSeq)
  end.

Definition runPreclaim (s : Submission) (preclaimBalance preclaimSeq : Z) : Stage V unit :=
  let* v := view_ in
  let result := PreclaimTransactionWithFlags v (sTxn s) (sAccount s) preclaimBalance preclaimSeq
                  (sFlags s) in
  rejectIf (negb (result =? TesSUCCESS) && (negb (IsTec result) || hasFlag (sFlags s) TapRETRY))
    result.

(** ** Clearing the account's queue *)

(** Queued transactions of the account before the new one. *)
Fixpoint takePreceding (q : TxQ) (sp : SeqProxy) (l : list cptr) : list cptr :=
  match l with
  | [] => []
  | c :: l' => if negb (Less (SeqProxyOf (cand q c)) sp) then [] else c :: takePreceding q sp l'
  end.

(** Applies the preceding transactions in the sandbox: the attempts made, and
    the sandbox unless one of them failed. *)
Fixpoint sandboxLoop (q : TxQ) (sb : SandboxContext) (l : list cptr) (updates : list (cptr * Result))
  : list (cptr * Result) * option SandboxContext :=
  match l with
  | [] => (updates, Some sb)
  | c :: l' =>
      let '(sb, (result, ok)) :=
        SandboxApply sb (candidateTransaction ParseFromBinary (cand q c)) (Flags (cand q c)) in
      let updates := updates ++ [(c, result)] in
      if result =? TefNO_TICKET then sandboxLoop q sb l' updates
      else if negb ok then (updates, None)
      else sandboxLoop q sb l' updates
  end.

Definition retryUpdate (q : TxQ) (u : cptr * Result) : TxQ :=
  let c := cand q u.1 in
  let c := if 0 <? RetriesRemaining c then set_retries c (RetriesRemaining c - 1) else c in
  write q u.1 (set_lastResult c u.2).

(** [None]: go on and queue the transaction. *)
Definition tryClearAccountQueue (s : Submission) (aq : accountQueue) (feeLevelPaid : Z)
  : Stage V (option ApplyResult) :=
  let* q := queue_ in
  let preceding := takePreceding q (sSeqProxy s)
                     (RelevantSortedCandidates (heap q) aq (acctSeqProx s)) in
  if (length preceding =? 0)%nat then done_ None
  else
    let dist := wrap 32 (Z.of_nat (length preceding)) in
    let '(requiredTotalFeeLevel, ok) :=
      escalatedSeriesFeeLevel (snapshot (metrics q)) (sTxInLedger s) 0 (wrap 32 (dist + 1)) in
    if negb ok then done_ None
    else
      let totalFeeLevelPaid :=
        foldl (fun t c => wrap 64 (t + FeeLevel (cand q c))) feeLevelPaid preceding in
      if totalFeeLevelPaid <? requiredTotalFeeLevel then done_ None
      else
        let* v := view_ in
        match NewSandbox v with
        | None => done_ None
        | Some sb =>
            match sandboxLoop q sb preceding [] with
            | (updates, None) => do* setQueue (foldl retryUpdate q updates) in done_ None
            | (updates, Some sb) =>
                let '(sb, (result, ok)) := SandboxApply sb (Some (sTxn s)) (sFlags s) in
                if negb ok then do* setQueue (foldl retryUpdate q updates) in done_ None
                else
                  let '(v, committed) := Commit v sb in
                  do* setView v in
                  if negb committed then done_ (Some (rejected TefINTERNAL))
                  else
                    let q := foldl erase q preceding in
                    let q := match byAccount q !! sAccount s with
                             | Some aq => match Transactions aq !! sSeqProxy s with
                                          | Some c => erase q c
                                          | None => q
                                          end
                             | None => q
                             end in
                    do* setQueue q in
                    done_ (Some (mkApplyResult result true false))
            end
        end.

Definition tryClear (s : Submission) (multiTxn : bool) (feeLevel requiredFeeLevel : Z) : Stage V unit :=
  let* q := queue_ in
  match accountOf q s with
  | None => done_ tt
  | Some aq =>
      if negb (IsTicket (sSeqProxy s)) && (0 <? relevantTxs q s) && multiTxn &&
         (requiredFeeLevel <? feeLevel) && (BaseLevel <? requiredFeeLevel) then
        match FirstRelevant (heap q) aq (acctSeqProx s) with
        | None => done_ tt
        | Some f =>
            if RetriesRemaining (cand q f) =? RetriesAllowed then
              let* r := tryClearAccountQueue s aq feeLevel in
              match r with
              | Some result => exit_ result
              | None => done_ tt
              end
            else done_ tt
        end
      else done_ tt
  end.

(** ** Making room in a full queue *)

(** The average fee level of an account's queue: quotients and remainders are
    summed apart; [None] on overflow. *)
Fixpoint averageLoop (count : Z) (fees : list Z) (sumDiv sumMod : Z) : option Z :=
  match fees with
  | [] => Some (wrap 64 (sumDiv + sumMod / count))
  | fee :: fees' =>
      let next := fee / count in
      let rem := fee mod count in
      if (wrap 64 (max_u64 - next) <=? sumDiv) || (wrap 64 (max_u64 - rem) <=? sumMod) then None
      else averageLoop count fees' (wrap 64 (sumDiv + next)) (wrap 64 (sumMod + rem))
  end.

Definition feesOf (q : TxQ) (aq : accountQueue) : list Z :=
  (fun e => FeeLevel (cand q e.2)) <$> entries aq.

Definition effectiveFeeLevel (q : TxQ) (lowest : cptr) (endAccount : accountQueue) (feeLevel : Z) : Z :=
  if (FeeLevel (cand q lowest) <=? feeLevel) && (1 <? Count endAccount)%nat then
    match averageLoop (Z.of_nat (Count endAccount)) (feesOf q endAccount) 0 0 with
    | Some avg => avg
    | None => max_u64
    end
  else FeeLevel (cand q lowest).

(** The lowest-paying candidate of another account, from the back. *)
Definition lowestOther (q : TxQ) (account : bytes) : option cptr :=
  last (List.filter (fun c => negb (bool_decide (Account (cand q c) = account))) (byFee q)).

Definition makeRoom (s : Submission) (feeLevel : Z) : Stage V unit :=
  let* q := queue_ in
  if bool_decide (replacingCandidateOf q s = None) && isFull q then
    match lowestOther q (sAccount s) with
    | None => rejectFull
    | Some lowest =>
        match byAccount q !! Account (cand q lowest) with
        | None => rejectFull (* the code would panic; excluded by [wf] *)
        | Some endAccount =>
            if effectiveFeeLevel q lowest endAccount feeLevel <? feeLevel then
              match last (SortedCandidates (heap q) endAccount) with
              | Some dropCandidate => setQueue (erase q dropCandidate)
              | None => done_ tt
              end
            else rejectFull
        end
    end
  else done_ tt.

(** ** Queueing *)

Definition queuedCandidate (s : Submission) (feeLevel : Z) (cons : txConsequences)
    (rules : option RulesId) : candidate :=
  let c := newCandidate (sTxID s) (sAccount s) feeLevel (sSeqProxy s) (sLastValid s) TesSUCCESS cons in
  mkCandidate (if Synthetic (sTxn s) then Some (sTxn s) else None) (sBlob s) (TxID c) (Account c)
    (FeeLevel c) (SeqProxyOf c) (LastValid c) (RetriesRemaining c) (LastResult c)
    (PreflightResult c) (Z.ldiff (sFlags s) TapRETRY) (sFlags s) rules (Consequences c).

Definition enqueue (s : Submission) (feeLevel : Z) (cons : txConsequences) : Stage V ApplyResult :=
  let* q := queue_ in
  let* v := view_ in
  let q := match replacingCandidateOf q s with
           | Some r => erase q r
           | None => q
           end in
  do* setQueue (addCandidate q (queuedCandidate s feeLevel cons (RulesIdentity v))) in
  done_ (mkApplyResult TerQUEUED false true).

(** ** The submission *)

(** Everything after the direct application. *)
Definition admission (s : Submission) (requiredFeeLevel : Z) : Stage V ApplyResult :=
  do* rejectIf (sDryRun s) TelCAN_NOT_QUEUE in
  do* checkTicket s in
  let cons := computeConsequences (sTxn s) (sSeqProxy s) in
  do* checkIncomingBlocker s cons in
  let* feeLevel := computeFeeLevel (sTxn s) in
  do* checkReplacement s feeLevel in
  let* v := view_ in
  let* balance :=
    match GetAccountBalance v (sAccount s) with
    | None => reject TefINTERNAL
    | Some balance => done_ balance
    end in
  let* multiTxn := checkSequence s in
  let* p :=
    (if multiTxn then multiTxnView s cons balance else done_ (balance, sAcctSeq s)) in
  do* runPreclaim s p.1 p.2 in
  do* tryClear s multiTxn feeLevel requiredFeeLevel in
  do* (if negb multiTxn then canBeHeld s else done_ tt) in
  do* makeRoom s feeLevel in
  enqueue s feeLevel cons.

Definition submit (txn : option Transaction) (txID account : bytes) : Stage V ApplyResult :=
  let* s := prepare txn txID account in
  let* requiredFeeLevel := tryDirectApply s in
  admission s requiredFeeLevel.

Definition Apply (q : TxQ) (v : V) (txn : option Transaction) (txID account : bytes)
  : TxQ * V * ApplyResult :=
  match submit txn txID account (q, v) with
  | (s, inl r) => (s, r)
  | (s, inr r) => (s, r)
  end.

(** ** Stages that only check *)

(** A submission that is refused without effect on the ledger. *)
Record refused (q : TxQ) (v : V) (q' : TxQ) (v' : V) (r : ApplyResult) : Prop := mkRefused {
  rf_queue : same_index q q';
  rf_view : v' = v;
  rf_applied : Applied r = false;
  rf_queued : Queued r = false }.

(** A stage that returns its value without changing anything, or refuses. *)
Definition checks {A} (m : Stage V A) : Prop := forall q v,
  match m (q, v) with
  | ((q', v'), inr a) => q' = q /\ v' = v
  | ((q', v'), inl r) => refused q v q' v' r
  end.

Lemma checks_done {A} (a : A) : checks (done_ a).
Proof. by intros q v. Qed.

Lemma checks_reject {A} r : checks (reject (A := A) r).
Proof. intros q v. by constructor. Qed.

Lemma checks_queue : checks queue_.
Proof. by intros q v. Qed.

Lemma checks_view : checks view_.
Proof. by intros q v. Qed.

Lemma checks_rejectIf b r : checks (rejectIf b r).
Proof. destruct b; [apply checks_reject|apply checks_done]. Qed.

Lemma checks_bind {A B} (m : Stage V A) (k : A -> Stage V B) :
  checks m -> (forall a, checks (k a)) -> checks (bind_ m k).
Proof.
  intros Hm Hk q v. unfold bind_. specialize (Hm q v).
  destruct (m (q, v)) as [[q1 v1] [r|a]]; [done|]. destruct Hm as [-> ->]. apply Hk.
Qed.

Lemma checks_inv {A B} (m : Stage V A) (k : A -> Stage V B) q v s' x :
  checks m -> bind_ m k (q, v) = (s', x) ->
  (exists r, x = inl r /\ refused q v s'.1 s'.2 r) \/
  (exists a, m (q, v) = (q, v, inr a) /\ k a (q, v) = (s', x)).
Proof.
  intros Hm Hb. unfold bind_ in Hb. specialize (Hm q v).
  destruct (m (q, v)) as [[q1 v1] [r|a]].
  - injection Hb as <- <-. left. eauto.
  - destruct Hm as [-> ->]. right. eauto.
Qed.

Lemma incTxQFull_same q : same_index q (incTxQFull q).
Proof. by constructor. Qed.

Ltac checks_tac :=
  repeat first
    [ apply checks_done | apply checks_reject | apply checks_queue | apply checks_view
    | apply checks_rejectIf | progress intros
    | apply checks_bind
    | case_match ].

Lemma checks_rejectFull {A} : checks (rejectFull (A := A)).
Proof. intros q v. constructor; [apply incTxQFull_same|done..]. Qed.

Lemma checks_prepare txn txID account :
  checks (prepare txn txID account).
Proof. unfold prepare, canonicalise. checks_tac. Qed.

Lemma checks_computeFeeLevel txn : checks (computeFeeLevel txn).
Proof. unfold computeFeeLevel. checks_tac. Qed.

Lemma checks_checkTicket s : checks (checkTicket s).
Proof. unfold checkTicket. checks_tac. Qed.

Lemma checks_checkIncomingBlocker s cons : checks (checkIncomingBlocker s cons).
Proof. unfold checkIncomingBlocker. checks_tac. Qed.

Lemma checks_checkReplacement s fee : checks (checkReplacement s fee).
Proof. unfold checkReplacement. checks_tac. Qed.

Lemma checks_canBeHeld s : checks (canBeHeld s).
Proof.
  unfold canBeHeld. repeat (apply checks_bind; [checks_tac|intros]).
  repeat case_match; auto using checks_done, @checks_rejectFull.
Qed.

Lemma checks_checkSequence s : checks (checkSequence s).
Proof.
  unfold checkSequence. apply checks_bind; [checks_tac|intros q]. cbv zeta.
  destruct (_ =? _); [checks_tac|]. apply checks_bind; [checks_tac|intros _].
  destruct (accountOf _ _); [|checks_tac]. destruct (_ || _); [|checks_tac].
  apply checks_bind; [apply checks_canBeHeld|intros _]. checks_tac.
Qed.

Lemma checks_multiTxnView s cons balance : checks (multiTxnView s cons balance).
Proof. unfold multiTxnView. checks_tac. Qed.

Lemma checks_runPreclaim s b n : checks (runPreclaim s b n).
Proof. unfold runPreclaim. checks_tac. Qed.

(** ** Stages with effects *)

Lemma evolves_erase_any q c : wf q -> evolves q (erase q c).
Proof.
  intros Hwf. destruct (decide (c ∈ byFee q)); [by apply evolves_erase|].
  rewrite erase_absent by done. apply rtc_refl.
Qed.

Lemma evolves_eraseMany q l : wf q -> evolves q (foldl erase q l).
Proof.
  revert q. induction l as [|c l IH]; intros q Hwf; cbn; [apply rtc_refl|].
  etrans; [by apply evolves_erase_any|]. by apply IH, erase_wf.
Qed.

Lemma retryUpdates_same q us : same_index q (foldl retryUpdate q us).
Proof.
  revert q. induction us as [|u us IH]; intros q; cbn; [done|]. etrans; [|apply IH].
  apply write_same. by destruct (0 <? _).
Qed.

(** The ways a submission can end before it is queued. *)
Inductive ended (q : TxQ) (v : V) (q' : TxQ) (v' : V) (r : ApplyResult) : Prop :=
  | ended_refused : refused q v q' v' r -> ended q v q' v' r
  | ended_failed txn flags :
      same_index q q' -> Applied r = false -> Queued r = false ->
      ApplyTransactionWithFlags v txn flags = (v', (ResultCode r, false)) -> ended q v q' v' r
  | ended_uncommitted sb :
      same_index q q' -> r = rejected TefINTERNAL -> Commit v sb = (v', false) -> ended q v q' v' r
  | ended_applied :
      evolves q q' -> Applied r = true -> Queued r = false -> ended q v q' v' r.

Lemma tryDirectApply_spec s q v s' x :
  wf q -> tryDirectApply s (q, v) = (s', x) ->
  (exists r, x = inl r /\ ended q v s'.1 s'.2 r) \/
  (s' = (q, v) /\ x = inr (scaleFeeLevel (snapshot (metrics q)) (sTxInLedger s))).
Proof.
  intros Hwf. unfold tryDirectApply. intros H.
  apply checks_inv in H as [(r & -> & Hr)|(q0 & Hq & H)]; [left; eauto using ended| |apply checks_queue].
  injection Hq as <-. cbv zeta in H.
  destruct (IsTicket _ || _); [|injection H as <- <-; by right].
  apply checks_inv in H as [(r & -> & Hr)|(fee & _ & H)];
    [left; eauto using ended| |apply checks_computeFeeLevel].
  destruct (_ <=? fee); [|injection H as <- <-; by right].
  apply checks_inv in H as [(r & -> & Hr)|(v0 & Hv & H)]; [left; eauto using ended| |apply checks_view].
  injection Hv as <-. left.
  destruct (ApplyTransactionWithFlags v (Some (sTxn s)) (sFlags s)) as [v1 [result applied]] eqn:Ea.
  destruct applied.
  - exists (mkApplyResult result true false). unfold bind_, setView, queue_, setQueue, exit_ in H. cbn in H.
    destruct (byAccount q !! sAccount s) as [aq|]; [destruct (Transactions aq !! sSeqProxy s) as [c|]|];
      injection H as <- <-; (split; [done|]); apply ended_applied; try done; try apply rtc_refl.
    by apply evolves_erase_any.
  - injection H as <- <-. eexists. split; [done|]. by eapply ended_failed.
Qed.

(** Clearing either leaves the ledger alone and the queue's contents in place,
    or ends the submission. *)
Lemma tryClear_spec s multi fee req q v s' x :
  wf q -> tryClear s multi fee req (q, v) = (s', x) ->
  (exists r, x = inl r /\ ended q v s'.1 s'.2 r) \/
  (x = inr tt /\ s'.2 = v /\ same_index q s'.1).
Proof.
  intros Hwf. unfold tryClear. intros H.
  apply checks_inv in H as [(r & -> & Hr)|(q0 & Hq & H)]; [left; eauto using ended| |apply checks_queue].
  injection Hq as <-.
  assert (Hdone : done_ tt (q, v) = (s', x) -> x = inr tt /\ s'.2 = v /\ same_index q s'.1)
    by (by intros [= <- <-]).
  destruct (accountOf q s) as [aq|]; [|by auto]. destruct (_ && _ && _ && _ && _); [|by auto].
  destruct (FirstRelevant _ _ _) as [f|]; [|by auto]. destruct (_ =? RetriesAllowed); [|by auto].
  unfold bind_ at 1 in H.
  destruct (tryClearAccountQueue s aq fee (q, v)) as [[q1 v1] y] eqn:Ec.
  unfold tryClearAccountQueue in Ec. unfold bind_ at 1, queue_ at 1 in Ec. cbn [fst snd] in Ec.
  destruct (length _ =? 0)%nat; [injection Ec as <- <- <-; by auto|].
  destruct (escalatedSeriesFeeLevel _ _ _ _) as [reqTotal ok]. cbv zeta in Ec.
  destruct (negb ok); [injection Ec as <- <- <-; by auto|].
  destruct (_ <? reqTotal); [injection Ec as <- <- <-; by auto|].
  unfold bind_ at 1, view_ at 1 in Ec. cbn [fst snd] in Ec.
  destruct (NewSandbox v) as [sb|]; [|injection Ec as <- <- <-; by auto].
  set (l := takePreceding _ _ _) in *. clearbody l.
  destruct (sandboxLoop q sb l []) as [us [sb'|]].
  2:{ injection Ec as <- <- <-. injection H as <- <-. right.
      split_and!; [done|done|apply retryUpdates_same]. }
  destruct (SandboxApply sb' _ _) as [sb2 [result ok2]]. destruct (negb ok2).
  { injection Ec as <- <- <-. injection H as <- <-. right.
    split_and!; [done|done|apply retryUpdates_same]. }
  destruct (Commit v sb2) as [v2 committed] eqn:Ecm. unfold bind_, setView, setQueue in Ec. cbn in Ec.
  destruct committed; cbn [negb] in Ec; injection Ec as <- <- <-; injection H as <- <-; left;
    eexists; (split; [done|]); cbn [fst snd].
  - apply ended_applied; [|done..].
    pose proof (evolves_eraseMany q l Hwf) as He.
    pose proof (pr_wf _ _ (evolves_preserved _ _ Hwf He)) as Hw.
    destruct (byAccount (foldl erase q l) !! sAccount s) as [aq'|]; [|done].
    destruct (Transactions aq' !! sSeqProxy s); [|done].
    etrans; [exact He|by apply evolves_erase_any].
  - by eapply ended_uncommitted.
Qed.

(** Room for the new candidate: there was some (or it takes the place of the one
    it replaces), or a cheaper candidate of another account was erased. *)
Inductive roomFor (s : Submission) (fee : Z) (q : TxQ) : TxQ -> Prop :=
  | room_free : (replacingCandidateOf q s = None -> isFull q = false) -> roomFor s fee q q
  | room_made d :
      replacingCandidateOf q s = None -> isFull q = true -> d ∈ byFee q ->
      Account (cand q d) <> sAccount s -> roomFor s fee q (erase q d).

Lemma lowestOther_spec q a c : lowestOther q a = Some c -> c ∈ byFee q /\ Account (cand q c) <> a.
Proof.
  unfold lowestOther. intros [l Hl]%last_Some.
  assert (Hin : List.In c (List.filter (fun c => negb (bool_decide (Account (cand q c) = a))) (byFee q)))
    by (rewrite Hl; apply List.in_or_app; right; by left).
  apply List.filter_In in Hin as [Hin Hn]. split; [by apply list_elem_of_In|].
  apply negb_true_iff, bool_decide_eq_false in Hn. done.
Qed.

Lemma makeRoom_spec s fee q (v : V) s' x :
  wf q -> makeRoom s fee (q, v) = (s', x) ->
  (exists r, x = inl r /\ refused q v s'.1 s'.2 r) \/
  (x = inr tt /\ s'.2 = v /\ roomFor s fee q s'.1).
Proof.
  intros Hwf. unfold makeRoom. intros H.
  apply checks_inv in H as [(r & -> & Hr)|(q0 & Hq & H)]; [by eauto| |apply checks_queue].
  injection Hq as <-. assert (Hfull : forall x', rejectFull (A := unit) (q, v) = (s', x') ->
    exists r, x' = inl r /\ refused q v s'.1 s'.2 r).
  { intros x' Hx. pose proof (checks_rejectFull (A := unit) q v) as Hc. rewrite Hx in Hc.
    destruct s', x' as [r|[]]; [by eauto|]. by injection Hx. }
  case_bool_decide as Er; cbn [andb] in H.
  2:{ injection H as <- <-. right. split_and!; [done..|]. by constructor. }
  destruct (isFull q) eqn:Ef.
  2:{ injection H as <- <-. right. split_and!; [done..|]. by constructor. }
  destruct (lowestOther q (sAccount s)) as [low|] eqn:El; [|by auto].
  apply lowestOther_spec in El as [Hlow Hacc].
  destruct (wf_filed q Hwf low Hlow) as (aq & Ha & Ht). rewrite Ha in H.
  destruct (_ <? fee); [|by auto].
  destruct (last (SortedCandidates (heap q) aq)) as [d|] eqn:Ed.
  - injection H as <- <-. right. split_and!; [done..|]. cbn.
    apply last_Some in Ed as [l Hl].
    assert (Hd : d ∈ SortedCandidates (heap q) aq) by (rewrite Hl; set_solver).
    apply SortedCandidates_elem in Hd as [sp Hsp].
    destruct (wf_entry q Hwf _ _ _ _ Ha Hsp) as (Hd & Hda & _).
    apply room_made; [done..|]. by rewrite Hda.
  - apply last_None in Ed. assert (Hin : low ∈ SortedCandidates (heap q) aq)
      by (apply SortedCandidates_elem; eauto).
    rewrite Ed in Hin. by apply elem_of_nil in Hin.
Qed.

(** The queue the new candidate is added to. *)
Definition withoutReplaced (q : TxQ) (s : Submission) : TxQ :=
  match replacingCandidateOf q s with Some r => erase q r | None => q end.

(** Everything that holds when submission [s] has been queued. *)
Record queuedBy (q : TxQ) (v : V) (q' : TxQ) (v' : V) (r : ApplyResult) (s : Submission)
    (fee : Z) : Prop := mkQueuedBy {
  qb_view : v' = v;
  qb_result : r = mkApplyResult TerQUEUED false true;
  qb_live : sDryRun s = false;
  qb_fee : computeFeeLevel (sTxn s) (q, v) = (q, v, inr fee);
  qb_replace : checkReplacement s fee (q, v) = (q, v, inr tt);
  qb_seq : exists multi, checkSequence s (q, v) = (q, v, inr multi);
  qb_queue : exists q1 q2, same_index q q1 /\ roomFor s fee q1 q2 /\
    q' = addCandidate (withoutReplaced q2 s)
           (queuedCandidate s fee (computeConsequences (sTxn s) (sSeqProxy s)) (RulesIdentity v)) }.

Lemma ended_same q v q1 q' v' r : same_index q q1 -> ended q1 v q' v' r -> ended q v q' v' r.
Proof.
  intros Hs [[Hq Hv Ha Hr]|txn flags Hq Ha Hr He|sb Hq -> He|Hq Ha Hr].
  - apply ended_refused. constructor; [by etrans|done..].
  - eapply ended_failed; [by etrans|done..].
  - eapply ended_uncommitted; [by etrans|done..].
  - apply ended_applied; [|done..]. etrans; [by apply evolves_same|done].
Qed.

Lemma admission_spec s req q (v : V) s' x :
  wf q -> admission s req (q, v) = (s', x) ->
  (exists r, x = inl r /\ ended q v s'.1 s'.2 r) \/
  (exists r fee, x = inr r /\ queuedBy q v s'.1 s'.2 r s fee).
Proof.
  intros Hwf H. unfold admission in H.
  apply checks_inv in H as [(r & -> & Hr)|([] & Hd & H)]; [left; eauto using ended| |apply checks_rejectIf].
  apply checks_inv in H as [(r & -> & Hr)|([] & _ & H)]; [left; eauto using ended| |apply checks_checkTicket].
  cbv zeta in H.
  apply checks_inv in H as [(r & -> & Hr)|([] & _ & H)];
    [left; eauto using ended| |apply checks_checkIncomingBlocker].
  apply checks_inv in H as [(r & -> & Hr)|(fee & Hfee & H)];
    [left; eauto using ended| |apply checks_computeFeeLevel].
  apply checks_inv in H as [(r & -> & Hr)|([] & Hrep & H)];
    [left; eauto using ended| |apply checks_checkReplacement].
  apply checks_inv in H as [(r & -> & Hr)|(v0 & Hv & H)]; [left; eauto using ended| |apply checks_view].
  injection Hv as <-.
  apply checks_inv in H as [(r & -> & Hr)|(bal & _ & H)]; [left; eauto using ended| |checks_tac].
  apply checks_inv in H as [(r & -> & Hr)|(multi & Hseq & H)];
    [left; eauto using ended| |apply checks_checkSequence].
  apply checks_inv in H as [(r & -> & Hr)|([pb ps] & _ & H)]; [left; eauto using ended| |
    destruct multi; [apply checks_multiTxnView|apply checks_done]].
  apply checks_inv in H as [(r & -> & Hr)|([] & _ & H)]; [left; eauto using ended| |apply checks_runPreclaim].
  unfold bind_ at 1 in H.
  destruct (tryClear s multi fee req (q, v)) as [[q1 v1] y] eqn:Ec.
  apply tryClear_spec in Ec as [(r & -> & He)|(-> & Hv1 & Hs1)]; [| |done].
  { injection H as <- <-. left. eauto. }
  cbn [fst snd] in Hv1, Hs1. subst v1. pose proof (same_index_wf _ _ Hs1 Hwf) as Hwf1.
  apply checks_inv in H as [(r & -> & Hr)|([] & _ & H)];
    [left; eauto using ended, ended_same| |destruct multi; [apply checks_done|apply checks_canBeHeld]].
  unfold bind_ at 1 in H. destruct (makeRoom s fee (q1, v)) as [[q2 v2] y] eqn:Em.
  apply makeRoom_spec in Em as [(r & -> & He)|(-> & Hv2 & Hroom)]; [| |done].
  { injection H as <- <-. left. eauto using ended, ended_same. }
  cbn [fst snd] in Hv2, Hroom. subst v2. injection H as <- <-. right.
  eexists _, fee. split; [done|]. constructor; try done; [|by eauto|].
  - unfold rejectIf in Hd. by destruct (sDryRun s).
  - exists q1, q2. cbn [fst snd]. split_and!; [done|done|]. unfold withoutReplaced. done.
Qed.

(** ** The submission as a whole *)

Lemma Apply_cases (q : TxQ) (v : V) txn txID account q' v' r :
  wf q -> Apply q v txn txID account = (q', v', r) ->
  ended q v q' v' r \/
  exists s fee, prepare txn txID account (q, v) = (q, v, inr s) /\ queuedBy q v q' v' r s fee.
Proof.
  intros Hwf H. unfold Apply in H.
  destruct (submit txn txID account (q, v)) as [s' x] eqn:E. unfold submit in E.
  apply checks_inv in E as [(r' & -> & Hr)|(s & Hp & E)]; [| |apply checks_prepare].
  { injection H as -> ->. left. by apply ended_refused. }
  unfold bind_ at 1 in E. destruct (tryDirectApply s (q, v)) as [[q1 v1] y] eqn:Ed.
  apply tryDirectApply_spec in Ed as [(r' & -> & He)|([= -> ->] & ->)]; [| |done].
  { injection E as <- <-. injection H as <- <- <-. by left. }
  apply admission_spec in E as [(r' & -> & He)|(r' & fee & -> & He)]; [| |done].
  - injection H as -> ->. by left.
  - injection H as -> ->. right. eauto.
Qed.

Lemma roomFor_wf s fee q q2 : wf q -> roomFor s fee q q2 -> wf q2.
Proof. intros Hwf [|]; [done|by apply erase_wf]. Qed.

Lemma roomFor_evolves s fee q q2 : wf q -> roomFor s fee q q2 -> evolves q q2.
Proof. intros Hwf [|]; [apply rtc_refl|by apply evolves_erase]. Qed.

Lemma replacing_in q s r : wf q -> replacingCandidateOf q s = Some r ->
  r ∈ byFee q /\ Account (cand q r) = sAccount s /\ SeqProxyOf (cand q r) = sSeqProxy s.
Proof.
  intros Hwf. unfold replacingCandidateOf, accountOf.
  destruct (byAccount q !! sAccount s) as [aq|] eqn:Ea; [|done]. intros Ht. by eapply wf_entry.
Qed.

Lemma replacing_None q s : replacingCandidateOf q s = None <->
  forall aq, byAccount q !! sAccount s = Some aq -> Transactions aq !! sSeqProxy s = None.
Proof.
  unfold replacingCandidateOf, accountOf.
  destruct (byAccount q !! sAccount s) as [aq|]; [|done]. naive_solver.
Qed.

(** Erasing a candidate empties at most its own slot. *)
Lemma erase_slot q d a sp :
  wf q -> (forall aq, byAccount q !! a = Some aq -> Transactions aq !! sp = None \/ Transactions aq !! sp = Some d) ->
  d ∈ byFee q ->
  forall aq', byAccount (erase q d) !! a = Some aq' -> Transactions aq' !! sp = None.
Proof.
  intros Hwf Hslot Hd aq' Ha'. pose proof (erase_spec q d Hwf Hd) as He.
  destruct (er_lookup _ _ _ _ _ He Ha') as (aq & Ha & _ & _ & _ & Hl). rewrite Hl.
  case_bool_decide as Ek; [done|]. destruct (Hslot aq Ha) as [?|Ht]; [done|].
  destruct (wf_entry q Hwf _ _ _ _ Ha Ht) as (_ & <- & <-). by destruct Ek.
Qed.

Lemma withoutReplaced_free q s :
  wf q -> replacingCandidateOf (withoutReplaced q s) s = None /\ wf (withoutReplaced q s).
Proof.
  intros Hwf. unfold withoutReplaced. destruct (replacingCandidateOf q s) as [r|] eqn:Er; [|done].
  split; [|by apply erase_wf]. apply replacing_None.
  destruct (replacing_in q s r Hwf Er) as (Hr & _). apply erase_slot; [done| |done].
  intros aq Ha. right. unfold replacingCandidateOf, accountOf in Er. by rewrite Ha in Er.
Qed.

(** The length of the queue the candidate is added to. *)
Lemma withoutReplaced_length q s fee q2 :
  wf q -> roomFor s fee q q2 -> let n := length (byFee (withoutReplaced q2 s)) in
  (S n <= length (byFee q))%nat \/ (n = length (byFee q) /\ isFull q = false).
Proof.
  intros Hwf Hr. cbv zeta. destruct Hr as [Hfree|d Hrep Hfull Hd Hacc]; unfold withoutReplaced.
  - destruct (replacingCandidateOf q s) as [r|] eqn:Er; [left|right; auto].
    destruct (replacing_in q s r Hwf Er) as (Hr & _). pose proof (erase_shorter q r Hwf Hr). lia.
  - left. assert (Hn : replacingCandidateOf (erase q d) s = None).
    { apply replacing_None, erase_slot; [done| |done]. intros aq Ha. left.
      by eapply replacing_None. }
    rewrite Hn. pose proof (erase_shorter q d Hwf Hd). lia.
Qed.

(** C4: a submission keeps the queue well formed and within its capacity: it never
    makes the queue longer than it was or than its maximum size, whichever is
    larger, whatever the ledger and the codec answer. *)
Theorem Apply_invariant (q : TxQ) (v : V) txn txID account q' v' r :
  wf q -> Apply q v txn txID account = (q', v', r) ->
  wf q' /\ maxSize q' = maxSize q /\
  (forall m, maxSize q = Some m -> Size q' <= Z.max (Size q) m).
Proof.
  intros Hwf H. destruct (Apply_cases _ _ _ _ _ _ _ _ Hwf H) as [He|(s & fee & _ & Hq)].
  - assert (Hev : evolves q q').
    { destruct He as [[? _ _ _]|? ? ? _ _ _|? ? _ _|? _ _]; try done; by apply evolves_same. }
    pose proof (evolves_preserved _ _ Hwf Hev) as [Hw _ Hsub _ _ _ _ Hm]. split_and!; [done..|].
    intros m _. unfold Size. apply sublist_length in Hsub. lia.
  - destruct (qb_queue _ _ _ _ _ _ _ Hq) as (q1 & q2 & Hs & Hroom & ->).
    pose proof (same_index_wf _ _ Hs Hwf) as Hw1. pose proof (roomFor_wf _ _ _ _ Hw1 Hroom) as Hw2.
    destruct (withoutReplaced_free q2 s Hw2) as [Hfree Hw3].
    pose proof (withoutReplaced_length q1 s fee q2 Hw1 Hroom) as Hlen. cbv zeta in Hlen.
    assert (Hm3 : maxSize (withoutReplaced q2 s) = maxSize q).
    { assert (Hm2 : maxSize q2 = maxSize q).
      { rewrite <- (si_maxSize _ _ Hs). destruct Hroom as [|d _ _ Hd _]; [done|].
        apply (er_maxSize _ _ _ (erase_spec _ _ Hw1 Hd)). }
      rewrite <- Hm2. unfold withoutReplaced. destruct (replacingCandidateOf q2 s) as [d|] eqn:Er; [|done].
      destruct (replacing_in _ _ _ Hw2 Er) as (Hd & _). apply (er_maxSize _ _ _ (erase_spec _ _ Hw2 Hd)). }
    pose proof (proj1 (replacing_None _ _) Hfree) as Hslot.
    split_and!.
    + by apply addCandidate_wf.
    + rewrite <- Hm3. by rewrite (in_maxSize _ _ _ (add_inserted _ _ Hw3)).
    + intros m Hm. unfold Size. rewrite add_length by done. rewrite (si_byFee _ _ Hs) in Hlen.
      destruct Hlen as [?|[-> Hf]]; [lia|]. unfold isFull in Hf.
      rewrite (si_maxSize _ _ Hs), Hm, (si_byFee _ _ Hs) in Hf. lia.
Qed.

(** C37: a submission that is neither applied nor queued costs nobody a place: the
    fee index, the identifier index and the account queues are what they were. *)
Theorem Apply_refusal_harmless (q : TxQ) (v : V) txn txID account q' v' r :
  wf q -> Apply q v txn txID account = (q', v', r) -> Applied r = false -> Queued r = false ->
  byFee q' = byFee q /\ byID q' = byID q /\
  (forall a, Transactions <$> (byAccount q' !! a) = Transactions <$> (byAccount q !! a)).
Proof.
  intros Hwf H Hna Hnq. destruct (Apply_cases _ _ _ _ _ _ _ _ Hwf H) as [He|(s & fee & _ & Hq)].
  - assert (Hs : same_index q q').
    { destruct He as [[? _ _ _]|? ? ? _ _ _|? ? _ _|? Ha _]; try done. congruence. }
    split_and!; [apply Hs..|]. intros a. pose proof (si_account _ _ Hs a) as Ha.
    apply (f_equal (fmap snd)) in Ha. by rewrite <- !option_fmap_compose in Ha.
  - by rewrite (qb_result _ _ _ _ _ _ _ Hq) in Hnq.
Qed.

(** A submission answered terQUEUED leaves the ledger untouched and puts
    exactly one new candidate in the queue: filed under the submission's account
    and sequence proxy with its canonical blob, with all its retries, and in
    every slot of every other account and sequence proxy nothing new appears. *)
Theorem Apply_queued (q : TxQ) (v : V) txn txID account q' v' r :
  wf q -> Apply q v txn txID account = (q', v', r) -> Queued r = true ->
  v' = v /\ ResultCode r = TerQUEUED /\
  exists s c, prepare txn txID account (q, v) = (q, v, inr s) /\
    c ∈ byFee q' /\ c ∉ byFee q /\ (forall d, d ∈ byFee q' -> d = c \/ d ∈ byFee q) /\
    TxID (cand q' c) = sTxID s /\ Account (cand q' c) = sAccount s /\
    SeqProxyOf (cand q' c) = sSeqProxy s /\ blob (cand q' c) = sBlob s /\
    LastValid (cand q' c) = sLastValid s /\ RetriesRemaining (cand q' c) = RetriesAllowed /\
    Flags (cand q' c) = Z.ldiff (sFlags s) TapRETRY.
Proof.
  intros Hwf H Hqd. destruct (Apply_cases _ _ _ _ _ _ _ _ Hwf H) as [He|(s & fee & Hp & Hq)].
  { exfalso. destruct He as [[_ _ _ ?]|? ? _ _ ? _|? _ -> _|_ _ ?]; try congruence. done. }
  split; [apply Hq|]. split; [by rewrite (qb_result _ _ _ _ _ _ _ Hq)|].
  destruct (qb_queue _ _ _ _ _ _ _ Hq) as (q1 & q2 & Hs & Hroom & ->).
  pose proof (same_index_wf _ _ Hs Hwf) as Hw1. pose proof (roomFor_wf _ _ _ _ Hw1 Hroom) as Hw2.
  destruct (withoutReplaced_free q2 s Hw2) as [Hfree Hw3].
  assert (Hold : forall d, d ∈ byFee (withoutReplaced q2 s) -> d ∈ byFee q).
  { intros d Hd. rewrite <- (si_byFee _ _ Hs).
    assert (Hd2 : d ∈ byFee q2).
    { unfold withoutReplaced in Hd. destruct (replacingCandidateOf q2 s); [|done].
      apply erase_elem in Hd as [? _]; done. }
    destruct Hroom; [done|]. by apply erase_elem in Hd2 as [? _]. }
  assert (Hh : heap (withoutReplaced q2 s) = heap q1).
  { unfold withoutReplaced. destruct (replacingCandidateOf q2 s); rewrite ?erase_heap;
      destruct Hroom; by rewrite ?erase_heap. }
  set (new := queuedCandidate _ _ _ _). exists s, (alloc (heap (withoutReplaced q2 s))).
  split; [done|]. split; [apply add_elem; auto|]. split.
  { rewrite <- (si_byFee _ _ Hs), Hh. by apply wf_fresh. }
  split; [intros d [Hd| ->]%add_elem; auto|].
  rewrite !add_cand, !add_cand_new by done. done.
Qed.

Lemma foldl_count {A} (p : A -> bool) l n :
  n <= foldl (fun count e => if p e then count + 1 else count) n l.
Proof. revert n. induction l as [|e l IH]; intros n; cbn; [lia|]. destruct (p e); [etrans; [|apply IH]; lia|apply IH]. Qed.

Lemma foldl_count_pos {A} (p : A -> bool) l n e :
  e ∈ l -> p e = true -> n < foldl (fun count e => if p e then count + 1 else count) n l.
Proof.
  revert n. induction l as [|x l IH]; intros n; [by intros ?%elem_of_nil|].
  intros [->|He]%elem_of_cons Hp; cbn.
  - rewrite Hp. pose proof (foldl_count p l (n + 1)). lia.
  - specialize (IH (if p x then n + 1 else n) He Hp). destruct (p x); lia.
Qed.

(** A candidate with the submission's sequence proxy counts as relevant unless it
    is a sequence the account has passed. *)
Lemma replacing_relevant q s r :
  replacingCandidateOf q s = Some r -> Less (sSeqProxy s) (acctSeqProx s) = false ->
  0 < relevantTxs q s.
Proof.
  unfold replacingCandidateOf, relevantTxs. destruct (accountOf q s) as [aq|]; [|done].
  intros Hr Hl. unfold RelevantCount.
  apply (foldl_count_pos (fun e => negb (Less e.1 (acctSeqProx s))) _ _ (sSeqProxy s, r)).
  - by apply elem_of_entries.
  - cbn. by rewrite Hl.
Qed.

Lemma checkSequence_not_past s q (v : V) multi :
  checkSequence s (q, v) = (q, v, inr multi) -> Less (sSeqProxy s) (acctSeqProx s) = false.
Proof.
  unfold checkSequence, bind_ at 1, queue_ at 1. cbn [fst snd]. intros H.
  unfold Less, acctSeqProx, NewSeqProxySequence; cbn [IsTicket Value].
  destruct (IsTicket (sSeqProxy s)) eqn:Et; cbn in H |- *; [done|].
  destruct (relevantTxs q s =? 0).
  - destruct (Z.eqb_spec (Value (sSeqProxy s)) (sAcctSeq s)) as [->|]; [lia|]. cbn in H.
    by destruct (Value (sSeqProxy s) <? sAcctSeq s).
  - unfold bind_ at 1, rejectIf in H. by destruct (Value (sSeqProxy s) <? sAcctSeq s).
Qed.

(** A queued transaction is only ever displaced by one for the same account
    and sequence proxy that pays a fee level more than RetrySequencePercent
    above its own. *)
Theorem Apply_replacement_pays_more (q : TxQ) (v : V) txn txID account q' v' r s old :
  wf q -> Apply q v txn txID account = (q', v', r) -> Queued r = true ->
  prepare txn txID account (q, v) = (q, v, inr s) -> replacingCandidateOf q s = Some old ->
  is_uint 32 (RetrySequencePercent (config q)) ->
  exists fee, computeFeeLevel (sTxn s) (q, v) = (q, v, inr fee) /\
    Z.min max_u64 (FeeLevel (cand q old) * (100 + RetrySequencePercent (config q)) / 100) < fee.
Proof.
  intros Hwf H Hqd Hp Hold Hc.
  destruct (Apply_cases _ _ _ _ _ _ _ _ Hwf H) as [He|(s' & fee & Hp' & Hq)].
  { exfalso. destruct He as [[_ _ _ ?]|? ? _ _ ? _|? _ -> _|_ _ ?]; try congruence. done. }
  rewrite Hp in Hp'. injection Hp' as <-. exists fee. split; [apply Hq|].
  destruct (qb_seq _ _ _ _ _ _ _ Hq) as [multi Hseq]. apply checkSequence_not_past in Hseq.
  pose proof (replacing_relevant _ _ _ Hold Hseq) as Hrel.
  pose proof (qb_replace _ _ _ _ _ _ _ Hq) as Hrep. unfold checkReplacement, bind_ at 1, queue_ at 1 in Hrep.
  cbn [fst snd] in Hrep. destruct (Z.ltb_spec 0 (relevantTxs q s)); [|lia].
  apply checks_inv in Hrep as [(? & ? & _)|([] & _ & Hrep)]; [done| |checks_tac].
  rewrite Hold in Hrep. cbv zeta in Hrep. unfold rejectIf in Hrep.
  destruct (Z.leb_spec fee (mulDiv (FeeLevel (cand q old)) (wrap 64 (100 + RetrySequencePercent (config q))) 100))
    as [|Hlt]; [done|].
  unfold is_uint in Hc. rewrite wrap_small in Hlt by (unfold is_uint; lia).
  rewrite mulDiv_value in Hlt by lia. done.
Qed.

(** ** Identifiers *)

Section Ids.
(** The identifier of a parsed transaction determines its account and sequence
    proxy, as a collision-free hash does. *)
Context (key : bytes -> bytes * SeqProxy).
Context (Hkey : forall raw t id a sp, ParseFromBinary raw = Some t ->
  ComputeTransactionHash t = Some id -> SourceAccount (GetCommon t) = Some a ->
  seqProxyFor (GetCommon t) = Some sp -> key id = (a, sp)).

Lemma canonicalSubmission_key txn id0 a0 t raw id a :
  canonicalSubmission txn id0 a0 =
    Some (t, raw, id, a) ->
  ParseFromBinary raw = Some t /\ ComputeTransactionHash t = Some id /\
  SourceAccount (GetCommon t) = Some a /\
  (a0 = zeroAccount \/ a0 = a) /\ (id0 = zeroID \/ id0 = id).
Proof.
  unfold canonicalSubmission. intros (raw' & Hraw & H)%bind_Some.
  apply bind_Some in H as (t' & Ht & H). apply bind_Some in H as (id' & Hid & H).
  apply bind_Some in H as (a' & Ha & H).
  repeat case_bool_decide; cbn in H; try done; injection H as -> -> -> ->; split_and!; auto.
Qed.

Lemma prepare_key txn txID account (q : TxQ) (v : V) s :
  Synthetic txn = false ->
  prepare (Some txn) txID account (q, v) = (q, v, inr s) -> sDryRun s = false ->
  key (sTxID s) = (sAccount s, sSeqProxy s).
Proof.
  intros Hsyn. unfold prepare, bind_ at 1, view_ at 1. cbn [fst snd].
  destruct (hasFlag (GetApplyFlags v) TapDRY_RUN) eqn:Ed; intros H Hdry.
  { exfalso. unfold canonicalise, bind_, done_ in H. cbn in H.
    repeat case_match; try done; simplify_eq. }
  unfold canonicalise in H.
  destruct (canonicalSubmission txn txID account) as [[[[t raw] id] a]|] eqn:Ec.
  2:{ rewrite Hsyn in H. by unfold bind_ in H. }
  apply canonicalSubmission_key in Ec as (Hp & Hh & Ha & Ha0 & Hid0).
  cbv beta iota zeta delta [bind_ done_ rejectIf fst snd] in H.
  assert (Hide : (if bool_decide (id = zeroID) then txID else id) = id)
    by (clear H; case_bool_decide as Ez; [destruct Hid0 as [Hz|Hz]; rewrite Hz; [symmetry; exact Ez|done]|done]).
  assert (Hae : (if bool_decide (a = zeroAccount) then account else a) = a)
    by (clear H Hide; case_bool_decide as Ez; [destruct Ha0 as [Hz|Hz]; rewrite Hz; [symmetry; exact Ez|done]|done]).
  rewrite Hide, Hae in H. destruct (negb _); [done|].
  destruct (AccountExists v a) as [[|]|]; [|done..].
  destruct (GetAccountSequence v a) as [seq|]; [|done].
  destruct (seqProxyFor (GetCommon t)) as [sp|] eqn:Es; [|done]. injection H as <-. cbn.
  by eapply Hkey.
Qed.

(** As long as identifiers are collision free, every queued transaction can
    be fetched by its identifier after any submission, as it could before. *)
Theorem Apply_indexed (q : TxQ) (v : V) txn txID account q' v' r :
  wf q -> ids_keyed key q -> ids_indexed q -> Synthetic txn = false ->
  Apply q v (Some txn) txID account = (q', v', r) -> ids_keyed key q' /\ ids_indexed q'.
Proof.
  intros Hwf Hk Hi Hsyn H.
  assert (Hpre : forall q1, preserved q q1 -> ids_keyed key q1).
  { intros q1 Hpr c Hc. pose proof (pr_key _ _ Hpr c) as Hck. unfold ckey in Hck.
    injection Hck as -> -> _ ->. apply Hk. eapply elem_of_sublist; [exact Hc|apply Hpr]. }
  destruct (Apply_cases _ _ _ _ _ _ _ _ Hwf H) as [He|(s & fee & Hp & Hq)].
  - assert (Hev : evolves q q').
    { destruct He as [[? _ _ _]|? ? ? _ _ _|? ? _ _|? _ _]; try done; by apply evolves_same. }
    pose proof (evolves_preserved _ _ Hwf Hev) as Hpr. split; [by apply Hpre|by apply Hpr].
  - destruct (qb_queue _ _ _ _ _ _ _ Hq) as (q1 & q2 & Hs & Hroom & ->).
    assert (Hev : evolves q (withoutReplaced q2 s)).
    { pose proof (same_index_wf _ _ Hs Hwf) as Hw1. pose proof (roomFor_wf _ _ _ _ Hw1 Hroom) as Hw2.
      etrans; [by apply evolves_same|]. etrans; [by eapply roomFor_evolves|].
      unfold withoutReplaced. destruct (replacingCandidateOf q2 s); [by apply evolves_erase_any|apply rtc_refl]. }
    pose proof (evolves_preserved _ _ Hwf Hev) as Hpr.
    pose proof (same_index_wf _ _ Hs Hwf) as Hw1. pose proof (roomFor_wf _ _ _ _ Hw1 Hroom) as Hw2.
    destruct (withoutReplaced_free q2 s Hw2) as [Hfree Hw3].
    apply add_ids; [done|by apply replacing_None|by apply Hpre|by apply Hpr|]. cbn.
    eapply prepare_key; [done|exact Hp|apply Hq].
Qed.
End Ids.

(** ** The average fee level of an account *)

Lemma averageLoop_sums count fees a b :
  0 < count < 2 ^ 31 -> Forall (is_uint 64) fees -> 0 <= a -> 0 <= b ->
  a + foldr (fun f s => f / count + s) 0 fees < max_u64 ->
  b + count * Z.of_nat (length fees) < max_u64 ->
  averageLoop count fees a b =
    Some (wrap 64 (a + foldr (fun f s => f / count + s) 0 fees +
                   (b + foldr (fun f s => f mod count + s) 0 fees) / count)).
Proof.
  intros Hc. revert a b. induction fees as [|f fees IH]; intros a b Hf Ha Hb Hda Hdb; cbn [averageLoop foldr].
  { by rewrite !Z.add_0_r. }
  apply Forall_cons in Hf as [Hf1 Hf2]. unfold is_uint in Hf1. cbn [length foldr] in *.
  assert (0 <= f / count) by (apply Z.div_pos; lia).
  assert (0 <= foldr (fun f s => f / count + s) 0 fees).
  { clear -Hf2 Hc. induction Hf2 as [|x l Hx _ IHl]; cbn; [lia|]. unfold is_uint in Hx.
    assert (0 <= x / count) by (apply Z.div_pos; lia). lia. }
  pose proof (Z.mod_pos_bound f count ltac:(lia)).
  unfold max_u64 in *.
  rewrite !wrap_small by (unfold is_uint; lia).
  destruct (Z.leb_spec (2 ^ 64 - 1 - f / count) a); [lia|].
  destruct (Z.leb_spec (2 ^ 64 - 1 - f mod count) b); [lia|]. cbn [orb].
  rewrite IH by (done || lia). do 2 f_equal. f_equal; [lia|f_equal; lia].
Qed.

Definition sumZ (l : list Z) : Z := foldr Z.add 0 l.

Lemma sumZ_perm l l' : l ≡ₚ l' -> sumZ l = sumZ l'.
Proof. unfold sumZ. induction 1; cbn; lia. Qed.

Lemma sums_split count fees :
  0 < count -> sumZ fees = count * foldr (fun f s => f / count + s) 0 fees +
                           foldr (fun f s => f mod count + s) 0 fees.
Proof.
  intros Hc. induction fees as [|f fees IH]; cbn; [lia|]. unfold sumZ in IH. rewrite IH.
  pose proof (Z.div_mod f count ltac:(lia)). lia.
Qed.

Lemma sumZ_bound fees : Forall (is_uint 64) fees -> 0 <= sumZ fees <= Z.of_nat (length fees) * max_u64.
Proof.
  induction 1 as [|f fees Hf _ IH]; cbn; [lia|]. unfold sumZ, is_uint, max_u64 in *. lia.
Qed.

Lemma averageLoop_overflow count fees a b :
  0 < count -> Forall (is_uint 64) fees -> 0 <= a < max_u64 ->
  max_u64 <= a + foldr (fun f s => f / count + s) 0 fees -> averageLoop count fees a b = None.
Proof.
  intros Hc. revert a b. induction fees as [|f fees IH]; intros a b Hf Ha Hs; cbn [foldr averageLoop] in *.
  { lia. }
  apply Forall_cons in Hf as [Hf1 Hf2]. unfold is_uint in Hf1.
  assert (0 <= f / count <= f) by (split; [apply Z.div_pos; lia|apply Z.div_le_upper_bound; nia]).
  unfold max_u64 in *. rewrite (wrap_small 64 (2 ^ 64 - 1 - f / count)) by (unfold is_uint; lia).
  destruct (Z.leb_spec (2 ^ 64 - 1 - f / count) a); [done|]. cbn [orb].
  destruct (_ <=? b); [done|]. rewrite (wrap_small 64 (a + f / count)) by (unfold is_uint; lia).
  apply IH; [done|lia|lia].
Qed.

Lemma average_exact count fees :
  0 < count < 2 ^ 31 -> Z.of_nat (length fees) = count -> Forall (is_uint 64) fees ->
  match averageLoop count fees 0 0 with Some a => a | None => max_u64 end = sumZ fees / count.
Proof.
  intros Hc Hl Hf. pose proof (sums_split count fees ltac:(lia)) as Hs.
  pose proof (sumZ_bound fees Hf) as Hb. rewrite Hl in Hb.
  assert (Hm : 0 <= foldr (fun f s => f mod count + s) 0 fees).
  { clear -Hc. induction fees as [|f fees IH]; cbn; [lia|].
    pose proof (Z.mod_pos_bound f count ltac:(lia)). lia. }
  set (D := foldr (fun f s => f / count + s) 0 fees) in *.
  destruct (decide (D < max_u64)) as [Hd|Hd].
  - rewrite averageLoop_sums by (done || (fold D; unfold max_u64 in *; nia)).
    fold D. rewrite !Z.add_0_l, Hs.
    rewrite (Z.mul_comm count D), Z.div_add_l by lia. apply wrap_small. unfold is_uint.
    rewrite <- Z.div_add_l, Z.mul_comm, <- Hs by lia.
    pose proof (Z.div_le_upper_bound (sumZ fees) count max_u64 ltac:(lia) ltac:(lia)).
    pose proof (Z.div_pos (sumZ fees) count ltac:(lia) ltac:(lia)). unfold max_u64 in *. lia.
  - rewrite averageLoop_overflow by (done || lia || (fold D; unfold max_u64 in *; lia)).
    assert (sumZ fees = max_u64 * count) as -> by nia. by rewrite Z.div_mul by lia.
Qed.

(** When the queue is full, the level a newcomer must beat is the exact
    truncated average of the fee levels of the account it would displace, for
    any account queue: summing quotients and remainders apart, in whatever
    order the map is traversed, neither overflows nor loses precision. *)
Theorem effectiveFeeLevel_average (q : TxQ) lowest aq feeLevel fees :
  FeeLevel (cand q lowest) <= feeLevel -> (1 < Count aq)%nat -> Z.of_nat (Count aq) < 2 ^ 31 ->
  fees ≡ₚ feesOf q aq -> Forall (is_uint 64) fees ->
  effectiveFeeLevel q lowest aq feeLevel = sumZ fees / Z.of_nat (Count aq) /\
  match averageLoop (Z.of_nat (Count aq)) fees 0 0 with Some a => a | None => max_u64 end =
    sumZ fees / Z.of_nat (Count aq).
Proof.
  intros Hl Hn Hc Hp Hf.
  assert (Hlen : length (feesOf q aq) = Count aq).
  { unfold feesOf, Count, entries. by rewrite length_fmap, length_map_to_list. }
  assert (Hsum : sumZ fees = sumZ (feesOf q aq)) by (by apply sumZ_perm).
  split.
  - unfold effectiveFeeLevel. destruct (Z.leb_spec (FeeLevel (cand q lowest)) feeLevel); [|lia].
    destruct (Nat.ltb_spec 1 (Count aq)); [|lia]. cbn [andb]. rewrite Hsum.
    apply average_exact; [lia|by rewrite Hlen|]. by rewrite <- Hp.
  - apply average_exact; [lia| |done]. by rewrite Hp, Hlen.
Qed.

End Apply.

(** ** Parsing fees *)

(** A fee string is accepted exactly when it is a non-empty string of decimal
    digits whose value fits in 64 bits, and then that value is the fee. *)
Theorem ParseUint_exact s n :
  ParseUint s = (n, false) <-> s <> EmptyString /\ Strconv.numeral 10 s 0 = Some n /\ n <= max_u64.
Proof. apply Strconv.ParseUint_numeral. by left. Qed.

(** The sequence proxy of a submission: a non-zero Sequence wins, otherwise a
    present TicketSequence makes it a ticket, even with value zero, and a
    transaction with neither field has none. *)
Theorem seqProxyFor_exact c :
  (forall x, Sequence c = Some x -> is_uint 32 x) ->
  (forall x, TicketSequence c = Some x -> is_uint 32 x) ->
  seqProxyFor c =
    match Sequence c, TicketSequence c with
    | None, None => None
    | Some 0, None => Some (NewSeqProxySequence 0)
    | Some 0, Some t | None, Some t => Some (NewSeqProxyTicket t)
    | Some s, _ => Some (NewSeqProxySequence s)
    end.
Proof.
  intros Hs Ht.
  assert (Hseq : forall x, is_uint 32 x -> Z.land x (2 ^ 32) = 0).
  { intros x Hx. unfold is_uint in Hx. apply Z.bits_inj'. intros n Hn.
    rewrite Z.land_spec, Z.pow2_bits_eqb, Z.bits_0 by lia.
    destruct (Z.eqb_spec 32 n) as [<-|]; [|by rewrite andb_false_r].
    rewrite andb_true_r. destruct (decide (x = 0)) as [->|]; [apply Z.bits_0|].
    apply Z.bits_above_log2; [lia|]. apply Z.log2_lt_pow2; lia. }
  assert (Htk : forall t, is_uint 32 t ->
    negb (Z.land (Z.lor t (2 ^ 32)) (2 ^ 32) =? 0) = true /\ wrap 32 (Z.lor t (2 ^ 32)) = t).
  { intros t Hu. pose proof (Hseq t Hu) as Hz. split.
    - rewrite Z.land_lor_distr_l, Hz, Z.land_diag. done.
    - assert (Hor : Z.lor t (2 ^ 32) = t + 2 ^ 32) by (symmetry; by apply Z.add_nocarry_lor).
      rewrite Hor. unfold wrap. unfold is_uint in Hu. symmetry. apply (Z.mod_unique _ _ 1); lia. }
  assert (Hsq : forall x, is_uint 32 x ->
    negb (Z.land x (2 ^ 32) =? 0) = false /\ wrap 32 x = x).
  { intros x Hx. rewrite Hseq by done. split; [done|by apply wrap_small]. }
  unfold seqProxyFor, SeqProxyKey. destruct (Sequence c) as [s|], (TicketSequence c) as [t|]; cbv zeta.
  - specialize (Hs s eq_refl). specialize (Ht t eq_refl).
    destruct (Z.eqb_spec s 0) as [->|Hne]; cbn [negb].
    + destruct (Htk t Ht) as [-> ->]. done.
    + destruct (Hsq s Hs) as [-> ->]. destruct s; [done|done|done].
  - specialize (Hs s eq_refl). destruct (Z.eqb_spec s 0) as [->|Hne]; cbn [negb]; [done|].
    destruct (Hsq s Hs) as [-> ->]. destruct s; [done|done|done].
  - specialize (Ht t eq_refl). destruct (Htk t Ht) as [-> ->]. done.
  - done.
Qed.

(** ** Instances *)

(** A ledger in which [exAccount] has sequence 5, and that accepts everything. *)
#[global] Instance counterApply : ApplyContext Z := {
  apply_view := counterView;
  GetAccountSequence := fun _ _ => Some 5;
  AccountExists := fun _ _ => Some true;
  TicketExists := fun _ _ _ => Some false;
  GetAccountBalance := fun _ _ => Some 1000000000;
  GetAccountReserve := fun _ _ => 10000000;
  GetBaseFees := fun _ _ => inr (10, 10);
  GetReferenceFee := fun _ => 10;
  GetLedgerSequence := fun _ => 20;
  PreclaimTransactionWithFlags := fun _ _ _ _ _ _ => TesSUCCESS;
  GetApplyFlags := fun _ => 0;
  SandboxContext := Z;
  NewSandbox := fun v => Some v;
  SandboxApply := fun v _ _ => (v + 1, (TesSUCCESS, true));
  Commit := fun _ s => (s, true) }.

Definition exTx (fee : string) (seq n : Z) : Transaction :=
  mkTransaction (mkCommon (Some exAccount) fee (Some seq) None None None false false false false None)
    (Payment (NativeAmount 1000) None) [18; 0; n] false.

(** A codec for two transactions: the next sequence, and a replacement. *)
Definition exNext : Transaction := exTx "12" 7 9.
Definition exReplace : Transaction := exTx "25" 6 2.

Definition exParseTx (b : bytes) : option Transaction :=
  if bool_decide (b = [18; 0; 9]) then Some exNext
  else if bool_decide (b = [18; 0; 2]) then Some exReplace else None.
Definition exSerialize (t : Transaction) : option bytes := Some (RawBytes t).
Definition exHash (t : Transaction) : option bytes :=
  match RawBytes t with [_; _; n] => Some (exID n) | _ => None end.

Definition exApply (t : Transaction) : TxQ * Z * ApplyResult :=
  Apply exParseTx exSerialize exHash exQ 40 (Some t) zeroID zeroAccount.

Lemma exApply_eq t : Apply exParseTx exSerialize exHash exQ 40 (Some t) zeroID zeroAccount =
  ((exApply t).1.1, (exApply t).1.2, (exApply t).2).
Proof. unfold exApply. by destruct (Apply _ _ _ _ _ _ _ _) as [[??]?]. Qed.

Lemma Apply_invariant_witness :
  let q' := (exApply exNext).1.1 in
  wf q' /\ maxSize q' = maxSize exQ /\ (forall m, maxSize exQ = Some m -> Size q' <= Z.max (Size exQ) m).
Proof.
  exact (Apply_invariant exParseTx exSerialize exHash exQ 40 (Some exNext) zeroID zeroAccount
    _ _ _ exQ_wf (exApply_eq exNext)).
Defined.

(** Resubmitting a queued transaction at the same fee is refused. *)
Definition exCheap : Transaction := exTx "15" 6 2.

Definition exParseCheap (b : bytes) : option Transaction := Some exCheap.

Lemma Apply_refusal_harmless_witness :
  match Apply exParseCheap exSerialize exHash exQ 40 (Some exCheap) zeroID zeroAccount with
  | (q', v', r) => ResultCode r = TelCAN_NOT_QUEUE_FEE /\
      byFee q' = byFee exQ /\ byID q' = byID exQ /\
      (forall a, Transactions <$> (byAccount q' !! a) = Transactions <$> (byAccount exQ !! a))
  end.
Proof.
  destruct (Apply exParseCheap exSerialize exHash exQ 40 (Some exCheap) zeroID zeroAccount)
    as [[q' v'] r] eqn:E.
  assert (Hr : r = rejected TelCAN_NOT_QUEUE_FEE) by (vm_compute in E; by injection E).
  split; [rewrite Hr; reflexivity|].
  apply (Apply_refusal_harmless exParseCheap exSerialize exHash exQ 40 (Some exCheap) zeroID zeroAccount
    q' v' r exQ_wf E); rewrite Hr; reflexivity.
Defined.

Lemma Apply_queued_witness :
  let q' := (exApply exNext).1.1 in
  (exApply exNext).1.2 = 40 /\ ResultCode (exApply exNext).2 = TerQUEUED /\
  exists s c, prepare exParseTx exSerialize exHash (Some exNext) zeroID zeroAccount (exQ, 40) =
      (exQ, 40, inr s) /\
    c ∈ byFee q' /\ c ∉ byFee exQ /\ (forall d, d ∈ byFee q' -> d = c \/ d ∈ byFee exQ) /\
    TxID (cand q' c) = sTxID s /\ Account (cand q' c) = sAccount s /\
    SeqProxyOf (cand q' c) = sSeqProxy s /\ blob (cand q' c) = sBlob s /\
    LastValid (cand q' c) = sLastValid s /\ RetriesRemaining (cand q' c) = RetriesAllowed /\
    Flags (cand q' c) = Z.ldiff (sFlags s) TapRETRY.
Proof.
  apply (Apply_queued exParseTx exSerialize exHash exQ 40 (Some exNext) zeroID zeroAccount
    _ _ _ exQ_wf (exApply_eq exNext)). vm_compute. reflexivity.
Defined.

Definition exSub (t : Transaction) (id : bytes) (seq : Z) : Submission :=
  mkSubmission t (RawBytes t) id exAccount 0 false 5 40 20 (NewSeqProxySequence seq) 0.

Lemma Apply_replacement_pays_more_witness :
  exists fee, computeFeeLevel exReplace (exQ, 40) = (exQ, 40, inr fee) /\
    Z.min max_u64 (400 * (100 + 25) / 100) < fee.
Proof.
  apply (Apply_replacement_pays_more exParseTx exSerialize exHash exQ 40 (Some exReplace) zeroID zeroAccount
    _ _ _ (exSub exReplace (exID 2) 6) 2%nat exQ_wf (exApply_eq exReplace)).
  - vm_compute. reflexivity.
  - vm_compute. reflexivity.
  - vm_compute. reflexivity.
  - cbv. split; [discriminate|reflexivity].
Defined.

Lemma Apply_indexed_witness :
  let q' := (exApply exNext).1.1 in ids_keyed exKey q' /\ ids_indexed q'.
Proof.
  apply (Apply_indexed exParseTx exSerialize exHash exKey) with
    (q := exQ) (v := 40) (txn := exNext) (txID := zeroID) (account := zeroAccount)
    (v' := (exApply exNext).1.2) (r := (exApply exNext).2).
  - intros raw t id a sp Hp Hh Ha Hs. unfold exParseTx in Hp.
    repeat case_bool_decide; try discriminate; injection Hp as <-;
      vm_compute in Hh, Ha, Hs; injection Hh as <-; injection Ha as <-; injection Hs as <-; reflexivity.
  - exact exQ_wf.
  - exact (proj1 exQ_ids).
  - exact (proj2 exQ_ids).
  - reflexivity.
  - exact (exApply_eq exNext).
Defined.

Lemma effectiveFeeLevel_average_witness :
  match byAccount exQ !! exAccount with
  | Some aq =>
      effectiveFeeLevel exQ 1%nat aq 500 = sumZ [300; 400] / Z.of_nat (Count aq) /\
      match averageLoop (Z.of_nat (Count aq)) [300; 400] 0 0 with Some a => a | None => max_u64 end =
        sumZ [300; 400] / Z.of_nat (Count aq)
  | None => False
  end.
Proof.
  destruct (byAccount exQ !! exAccount) as [aq|] eqn:E; [|vm_compute in E; discriminate].
  vm_compute in E. injection E as <-.
  match goal with |- context [effectiveFeeLevel exQ 1 ?aq 500] =>
    apply (effectiveFeeLevel_average exQ 1%nat aq 500 [300; 400]) end.
  - vm_compute. discriminate.
  - vm_compute. repeat constructor.
  - vm_compute. reflexivity.
  - apply (bool_decide_unpack _). vm_compute. exact I.
  - repeat constructor; cbv; discriminate || reflexivity.
Defined.

Lemma seqProxyFor_exact_witness :
  seqProxyFor (GetCommon exNext) = Some (NewSeqProxySequence 7).
Proof.
  apply (seqProxyFor_exact (GetCommon exNext)); intros x Hx; [|discriminate].
  injection Hx as <-. cbv. split; [discriminate|reflexivity].
Defined.

End TxqApply.
