(* ===== verification/TxqFork.v ===== *)
(** * Transaction queue: forking (internal/txq/fork.go)

    A fork owns copies of every candidate, with the transaction parsed again
    from its canonical blob. It is given a store of its own in which the copy of
    a candidate has the original's pointer, which is what the cloner's memo
    table amounts to: one copy per candidate, shared by the three indices. *)

From Stdlib Require Import ZArith Lia.
From stdpp Require Import base sorting list gmap strings numbers.
From S2P Require Import Prelude TxqFee TxqQueue.

Module TxqFork.
Import TxqFee TxqQueue.

Section Fork.
Context (ParseFromBinary : bytes -> option Transaction).
Context (SerializeTransaction : Transaction -> option bytes).

Definition set_txn (c : candidate) (t : Transaction) (b : bytes) : candidate :=
  mkCandidate (Some t) b (TxID c) (Account c) (FeeLevel c) (SeqProxyOf c) (LastValid c)
    (RetriesRemaining c) (LastResult c) (PreflightResult c) (Flags c) (PreflightFlags c)
    (PreflightRules c) (Consequences c).

(** The copy of a candidate; [None] when its transaction does not parse. *)
Definition cloneCandidate (c : candidate) : option candidate :=
  if (0 <? length (blob c))%nat then
    (fun t => set_txn c t (blob c)) <$> ParseFromBinary (blob c)
  else match Txn c with
       | None => Some c
       | Some t =>
           serialized ← SerializeTransaction t;
           parsed ← ParseFromBinary serialized;
           Some (set_txn c parsed serialized)
       end.

(** The candidates the three indices reach. *)
Definition reachable (q : TxQ) : list cptr :=
  ((map_to_list (byAccount q)) ≫= (fun e => (entries e.2).*2)) ++ byFee q ++ (map_to_list (byID q)).*2.

Definition forkTxQ (q : TxQ) : option TxQ :=
  if forallb (fun c => bool_decide (is_Some (cloneCandidate (cand q c)))) (reachable q) then
    Some (set_heap q (foldr (fun c h => <[c := default (cand q c) (cloneCandidate (cand q c))]> h)
                        (heap q) (reachable q)))
  else None.

Lemma clone_key c c' : cloneCandidate c = Some c' -> ckey c' = ckey c.
Proof.
  unfold cloneCandidate. destruct (0 <? _)%nat.
  - by intros (t & _ & ->)%fmap_Some.
  - destruct (Txn c) as [t|]; [|by intros [= ->]].
    intros (b & _ & (p & _ & [= <-])%bind_Some)%bind_Some. done.
Qed.

Lemma clone_details c c' :
  blob c <> [] -> cloneCandidate c = Some c' ->
  candidateDetails c' = candidateDetails c /\ rawBlob c' = rawBlob c.
Proof.
  intros Hb. unfold cloneCandidate. destruct (Nat.ltb_spec 0 (length (blob c))) as [Hl|Hl].
  - intros (t & _ & ->)%fmap_Some. unfold candidateDetails, rawBlob; cbn.
    destruct (Nat.eqb_spec (length (blob c)) 0); [lia|]. done.
  - destruct (blob c); [done|cbn in Hl; lia].
Qed.

(** Cells of the fork's store. *)
Lemma fork_cell q l c :
  let h := foldr (fun c h => <[c := default (cand q c) (cloneCandidate (cand q c))]> h) (heap q) l in
  h !! c = if bool_decide (c ∈ l) then Some (default (cand q c) (cloneCandidate (cand q c)))
           else heap q !! c.
Proof.
  cbv zeta. induction l as [|d l IH]; cbn; [done|].
  destruct (decide (d = c)) as [->|Hne].
  - rewrite lookup_insert_eq, bool_decide_eq_true_2; [done|by left].
  - rewrite lookup_insert_ne, IH by done.
    destruct (decide (c ∈ l)) as [Hin|Hin].
    + rewrite !bool_decide_eq_true_2; [done|by right|done].
    + rewrite !bool_decide_eq_false_2; [done| |done]. rewrite elem_of_cons. naive_solver.
Qed.

Lemma fork_inv q q' :
  forkTxQ q = Some q' ->
  same_index q q' /\ byAccount q' = byAccount q /\
  forall c, c ∈ reachable q -> Some (cand q' c) = cloneCandidate (cand q c).
Proof.
  unfold forkTxQ. destruct (forallb _ _) eqn:Eall; [|done]. intros [= <-].
  assert (Hc : forall c, c ∈ reachable q -> is_Some (cloneCandidate (cand q c))).
  { intros c Hin. apply list_elem_of_In in Hin.
    by apply (proj1 (forallb_forall _ _) Eall), bool_decide_eq_true in Hin. }
  assert (Hcell : forall c, cand (set_heap q (foldr (fun c h =>
      <[c := default (cand q c) (cloneCandidate (cand q c))]> h) (heap q) (reachable q))) c =
    if bool_decide (c ∈ reachable q) then default (cand q c) (cloneCandidate (cand q c))
    else cand q c).
  { intros c. unfold cand at 1; cbn. rewrite lookup_total_alt, fork_cell.
    case_bool_decide; [done|]. unfold cand. by rewrite lookup_total_alt. }
  split_and!; [|done|].
  - constructor; try done.
    + intros c Hl; cbn. rewrite fork_cell. case_bool_decide; eauto.
    + intros c. rewrite Hcell. case_bool_decide as Hin; [|done].
      destruct (Hc c Hin) as [c' Hc']. rewrite Hc'; cbn. by apply clone_key.
  - intros c Hin. rewrite Hcell, bool_decide_eq_true_2 by done.
    destruct (Hc c Hin) as [c' ->]. done.
Qed.

(** A fork is a well-formed queue that answers like the original: for queues
    whose candidates carry their canonical blobs, it lists the same transactions
    in the same order, finds the same blobs by identifier and has the same
    metrics, capacity and parent hash. *)
Theorem fork_faithful q q' :
  wf q -> (forall c, c ∈ byFee q -> blob (cand q c) <> []) -> forkTxQ q = Some q' ->
  wf q' /\ AllTxs q' = AllTxs q /\ (forall id, GetTxBlob q' id = GetTxBlob q id) /\
  (forall n, MetricsOf q' n = MetricsOf q n) /\ parentHash q' = parentHash q.
Proof.
  intros Hwf Hb Hf. pose proof Hf as Hq. apply fork_inv in Hf as (Hs & _ & Hc).
  assert (Hclone : forall c, c ∈ byFee q ->
    candidateDetails (cand q' c) = candidateDetails (cand q c) /\
    rawBlob (cand q' c) = rawBlob (cand q c)).
  { intros c Hin. apply clone_details; [by apply Hb|]. symmetry. apply Hc.
    unfold reachable. set_solver. }
  assert (Hrest : txqFull q' = txqFull q).
  { unfold forkTxQ in Hq. destruct (forallb _ _); [|done]. by injection Hq as <-. }
  split_and!.
  - by eapply same_index_wf.
  - unfold AllTxs. rewrite (si_byFee _ _ Hs). apply list_fmap_ext. intros i c Hi.
    apply Hclone. by eapply list_elem_of_lookup_2.
  - intros id. unfold GetTxBlob. rewrite (si_byID _ _ Hs).
    destruct (byID q !! id) as [c|] eqn:E; [|done].
    destruct (wf_id q Hwf _ _ E) as [Hin _]. by rewrite (proj2 (Hclone c Hin)).
  - intros n. unfold MetricsOf, isFull.
    rewrite (si_byFee _ _ Hs), (si_maxSize _ _ Hs), (si_metrics _ _ Hs), Hrest.
    by destruct (si_cand _ _ (byFee q !!! (length (byFee q) - 1)%nat) Hs) as (_ & _ & -> & _).
  - apply Hs.
Qed.

End Fork.

(** ** Instance *)

Definition exTxn : Transaction :=
  mkTransaction (mkCommon (Some exAccount) "10" (Some 5) None None None false false false false None)
    OtherTx [18; 0; 1] false.

Definition isSome {A} (o : option A) : bool := match o with Some _ => true | None => false end.

Lemma exFork_some : isSome (forkTxQ (fun _ => Some exTxn) (fun t => Some (RawBytes t)) exQ) = true.
Proof. vm_compute. reflexivity. Qed.

Lemma fork_faithful_witness :
  match forkTxQ (fun _ => Some exTxn) (fun t => Some (RawBytes t)) exQ with
  | Some q' => wf q' /\ AllTxs q' = AllTxs exQ /\ (forall id, GetTxBlob q' id = GetTxBlob exQ id) /\
      (forall n, MetricsOf q' n = MetricsOf exQ n) /\ parentHash q' = parentHash exQ
  | None => False
  end.
Proof.
  pose proof exFork_some as Hs.
  destruct (forkTxQ (fun _ => Some exTxn) (fun t => Some (RawBytes t)) exQ) as [q'|] eqn:E;
    [|discriminate Hs].
  apply (fork_faithful (fun _ => Some exTxn) (fun t => Some (RawBytes t)) exQ q' exQ_wf); [|exact E].
  intros c Hc. assert (H : c ∈ [2; 1]%nat) by exact Hc.
  apply elem_of_cons in H as [->|[->|[]%elem_of_nil]%elem_of_cons]; vm_compute; discriminate.
Defined.

End TxqFork.
