(* ===== verification/LedgerTrie.v ===== *)
(** * Ledger trie (internal/consensus/ledgertrie)

    The compressed ancestry trie that ranks ledgers by the validations of their
    descendants. Nodes are a tree of spans; the code's parent pointers are the
    paths from the root. Panics are [None]. *)

From Stdlib Require Import ZArith Lia.
From stdpp Require Import base sorting list gmap strings numbers relations.
From S2P Require Import Prelude.

Module LedgerTrie.

(** ** Ledgers *)

Class Ledger (L : Type) := {
  ID : L -> bytes;
  Seq : L -> Z;
  MinSeq : L -> Z;
  Ancestor : L -> Z -> bytes }.

Record SpanTip := mkSpanTip { TipSeq : Z; TipID : bytes }.

#[global] Instance SpanTip_eq_dec : EqDecision SpanTip.
Proof. solve_decision. Defined.

Section Trie.
Context {L : Type} `{!Ledger L}.

(** Binary search for the first sequence at which [a] and [b] differ; [fuel]
    bounds the number of halvings. *)
Fixpoint mismatchLoop (a b : L) (fuel : nat) (low hi : Z) : Z :=
  match fuel with
  | O => low
  | S fuel =>
      if low <? hi then
        let mid := wrap 32 (low + (hi - low) / 2) in
        if bool_decide (Ancestor a mid = Ancestor b mid)
        then mismatchLoop a b fuel (wrap 32 (mid + 1)) hi
        else mismatchLoop a b fuel low mid
      else low
  end.

Definition mismatch (a b : L) : Z :=
  let upper := Z.min (Seq b) (Seq a) in
  let lower := if MinSeq a <? MinSeq b then MinSeq b else MinSeq a in
  if upper <? lower then 1
  else
    let low := mismatchLoop a b 33 lower (wrap 32 (upper + 1)) in
    if low =? lower then 1 else low.

(** ** Spans *)

Record span := mkSpan { start : Z; send : Z; ledger : L }.

Definition newSpanFromLedger (l : L) : span := mkSpan 0 (wrap 32 (Seq l + 1)) l.

Definition clamp (s : span) (val : Z) : Z :=
  if val <? start s then start s else if send s <? val then send s else val.

Definition sub_ (s : span) (from to : Z) : option span :=
  let nf := clamp s from in
  let nt := clamp s to in
  if nf <? nt then Some (mkSpan nf nt (ledger s)) else None.

Definition from (s : span) (spot : Z) : option span := sub_ s spot (send s).
Definition before (s : span) (spot : Z) : option span := sub_ s (start s) spot.

Definition startID (s : span) : bytes := Ancestor (ledger s) (start s).
Definition diff (s : span) (o : L) : Z := clamp s (mismatch (ledger s) o).

Definition tip (s : span) : SpanTip :=
  mkSpanTip (send s - 1) (Ancestor (ledger s) (send s - 1)).

Definition mergeSpans (a b : span) : span :=
  let lo := Z.min (start b) (start a) in
  if send a <? send b then mkSpan lo (send b) (ledger b) else mkSpan lo (send a) (ledger a).

(** ** Nodes *)

Inductive node := Node (s : span) (tipSupport branchSupport : Z) (children : list node).

Definition spanOf (n : node) : span := let '(Node s _ _ _) := n in s.
Definition tipSupport (n : node) : Z := let '(Node _ t _ _) := n in t.
Definition branchSupport (n : node) : Z := let '(Node _ _ b _) := n in b.
Definition children (n : node) : list node := let '(Node _ _ _ c) := n in c.

Definition newEmptyNode (genesis : L) : node := Node (mkSpan 0 1 genesis) 0 0 [].

(** Swap-pops the element at [i]. *)
Definition eraseChild (i : nat) (l : list node) : list node :=
  match list.last l with
  | Some x => take (length l - 1) (<[i := x]> l)
  | None => l
  end.

Record Trie := mkTrie {
  root : node;
  seqSupport : gmap Z Z;
  seqKeys : list Z }.

Definition New (genesis : L) : option Trie :=
  if negb (Seq genesis =? 0) then None
  else Some (mkTrie (newEmptyNode genesis) ∅ []).

Definition empty_ (t : Trie) : bool := branchSupport (root t) =? 0.

(** ** Searching *)

(** Descends from [n], already known to agree with [l] up to [pos]: the path to
    the node that shares the longest prefix with [l], and where they diverge. *)
Fixpoint findFrom (l : L) (n : node) (pos : Z) {struct n} : list nat * Z :=
  match n with
  | Node s _ _ ch =>
      if pos =? send s then
        (fix go (i : nat) (cs : list node) : list nat * Z :=
           match cs with
           | [] => ([], pos)
           | c :: cs' =>
               let childPos := diff (spanOf c) l in
               if pos <? childPos
               then let '(p, r) := findFrom l c childPos in (i :: p, r)
               else go (S i) cs'
           end) 0%nat ch
      else ([], pos)
  end.

Definition find (t : Trie) (l : L) : list nat * Z :=
  findFrom l (root t) (diff (spanOf (root t)) l).

Fixpoint findByIDWalk (id : bytes) (n : node) {struct n} : option (list nat) :=
  match n with
  | Node s _ _ ch =>
      if bool_decide (TipID (tip s) = id) then Some []
      else (fix go (i : nat) (cs : list node) : option (list nat) :=
              match cs with
              | [] => None
              | c :: cs' => match findByIDWalk id c with
                            | Some p => Some (i :: p)
                            | None => go (S i) cs'
                            end
              end) 0%nat ch
  end.

Definition findByLedgerID (t : Trie) (l : L) : option (list nat) := findByIDWalk (ID l) (root t).

(** The node at the end of a path, and the nodes along it. *)
Fixpoint nodeAt (p : list nat) (n : node) : option node :=
  match p with
  | [] => Some n
  | i :: p => c ← children n !! i; nodeAt p c
  end.

Fixpoint nodesOn (p : list nat) (n : node) : list node :=
  match p with
  | [] => [n]
  | i :: p => n :: match children n !! i with Some c => nodesOn p c | None => [] end
  end.

(** ** Support per sequence *)

(** Position of the first key not below [seq]. *)
Fixpoint searchKey (keys : list Z) (seq : Z) : nat :=
  match keys with
  | [] => 0
  | k :: keys' => if k <? seq then S (searchKey keys' seq) else 0
  end.

Definition supportAt (t : Trie) (seq : Z) : Z := default 0 (seqSupport t !! seq).

Definition seqSupportAdd (t : Trie) (seq delta : Z) : option Trie :=
  let current := supportAt t seq in
  if max_u32 - delta <? current then None
  else
    let keys := match seqSupport t !! seq with
                | Some _ => seqKeys t
                | None => let idx := searchKey (seqKeys t) seq in
                          take idx (seqKeys t) ++ seq :: drop idx (seqKeys t)
                end in
    Some (mkTrie (root t) (<[seq := wrap 32 (current + delta)]> (seqSupport t)) keys).

Definition seqSupportSub (t : Trie) (seq delta : Z) : option Trie :=
  match seqSupport t !! seq with
  | None => None
  | Some cur =>
      if cur <? delta then None
      else if cur - delta =? 0 then
        let idx := searchKey (seqKeys t) seq in
        let keys := if bool_decide (seqKeys t !! idx = Some seq)
                    then take idx (seqKeys t) ++ drop (S idx) (seqKeys t) else seqKeys t in
        Some (mkTrie (root t) (delete seq (seqSupport t)) keys)
      else Some (mkTrie (root t) (<[seq := cur - delta]> (seqSupport t)) (seqKeys t))
  end.

(** ** Insert *)

(** Applies [f] at the end of the path, and adds [count] to the branch support
    of every node above it. *)
Fixpoint updateAt (count : Z) (f : node -> node) (p : list nat) (n : node) : node :=
  match p with
  | [] => f n
  | i :: p =>
      let '(Node s t b ch) := n in
      Node s t (wrap 32 (b + count)) (alter (updateAt count f p) i ch)
  end.

(** The change at the node found: split it, hang the new suffix below it, add
    the support. *)
Definition insertHere (prefix oldSuffix newSuffix : option span) (count : Z) (n : node) : node :=
  let '(Node s t b ch) := n in
  let '(Node s t b ch) :=
    match prefix, oldSuffix with
    | Some pre, Some old => Node pre 0 b [Node old t b ch]
    | _, _ => Node s t b ch
    end in
  match newSuffix with
  | Some new => Node s t (wrap 32 (b + count)) (ch ++ [Node new count count []])
  | None => Node s (wrap 32 (t + count)) (wrap 32 (b + count)) ch
  end.

Definition set_root (t : Trie) (n : node) : Trie := mkTrie n (seqSupport t) (seqKeys t).

Definition Insert (t : Trie) (l : L) (count : Z) : option Trie :=
  let seq := Seq l in
  if seq =? max_u32 then None
  else if count =? 0 then Some t
  else
    let '(path, diffSeq) := find t l in
    loc ← nodeAt path (root t);
    let prefix := before (spanOf loc) diffSeq in
    let oldSuffix := from (spanOf loc) diffSeq in
    let newSuffix := from (newSpanFromLedger l) diffSeq in
    if bool_decide (oldSuffix = None) && bool_decide (newSuffix = None) &&
       (max_u32 - count <? tipSupport loc) then None
    else if existsb (fun n => max_u32 - count <? branchSupport n) (nodesOn path (root t)) then None
    else if max_u32 - count <? supportAt t seq then None
    else if bool_decide (is_Some oldSuffix) && bool_decide (prefix = None) then None
    else
      seqSupportAdd (set_root t (updateAt count (insertHere prefix oldSuffix newSuffix count) path (root t)))
        seq count.

(** ** Remove *)

(** Removes [count] from the tip support at the end of the path and from the
    branch supports along it, then compacts upwards; the flag says whether the
    compaction loop has come up to this node. *)
Fixpoint removeAt (count : Z) (p : list nat) (n : node) : node * bool :=
  let '(Node s t b ch) := n in
  match p with
  | [] => (Node s (wrap 32 (t - count)) (wrap 32 (b - count)) ch, true)
  | i :: p =>
      match ch !! i with
      | None => (n, false)
      | Some c =>
          let '(c', up) := removeAt count p c in
          let b' := wrap 32 (b - count) in
          let ch' := <[i := c']> ch in
          if up && (tipSupport c' =? 0) then
            match children c' with
            | [] => (Node s t b' (eraseChild i ch'), true)
            | [Node gs gt gb gch] =>
                let child := Node (mergeSpans (spanOf c') gs) gt gb gch in
                (Node s t b' (eraseChild i (ch' ++ [child])), true)
            | _ => (Node s t b' ch', false)
            end
          else (Node s t b' ch', false)
      end
  end.

Definition Remove (t : Trie) (l : L) (count : Z) : option (Trie * bool) :=
  match findByLedgerID t l with
  | None => Some (t, false)
  | Some path =>
      loc ← nodeAt path (root t);
      if tipSupport loc =? 0 then Some (t, false)
      else
        let count := if tipSupport loc <? count then tipSupport loc else count in
        let seq := Seq l in
        if negb (seq =? send (spanOf loc) - 1) then None
        else if match seqSupport t !! seq with Some support => support <? count | None => true end
        then None
        else
          t' ← seqSupportSub t seq count;
          Some (set_root t' (removeAt count path (root t)).1, true)
  end.

(** ** Queries *)

Definition TipSupport (t : Trie) (l : L) : Z :=
  match findByLedgerID t l with
  | Some path => match nodeAt path (root t) with Some loc => tipSupport loc | None => 0 end
  | None => 0
  end.

Definition BranchSupport (t : Trie) (l : L) : Z :=
  match findByLedgerID t l with
  | Some path => match nodeAt path (root t) with Some loc => branchSupport loc | None => 0 end
  | None =>
      let '(path, diffSeq) := find t l in
      match nodeAt path (root t) with
      | Some candidate =>
          if (Seq l <? diffSeq) && (Seq l <? send (spanOf candidate))
          then branchSupport candidate else 0
      | None => 0
      end
  end.

(** ** The preferred ledger *)

Definition ledgerIDGreater (a b : bytes) : bool :=
  match bytes_compare a b with Gt => true | _ => false end.

Definition nodeOutranks (a b : node) : bool :=
  if negb (branchSupport a =? branchSupport b) then branchSupport b <? branchSupport a
  else ledgerIDGreater (startID (spanOf a)) (startID (spanOf b)).

(** Absorbs the support of the sequences below [floor]. *)
Fixpoint absorb (support : Z -> Z) (floor : Z) (keys : list Z) (uncommitted : Z) : list Z * Z :=
  match keys with
  | k :: keys' => if k <? floor then absorb support floor keys' (wrap 64 (uncommitted + support k))
                  else (keys, uncommitted)
  | [] => ([], uncommitted)
  end.

(** Walks along the span while its branch outweighs the uncommitted support. *)
Fixpoint walkSpan (support : Z -> Z) (end_ branch : Z) (keys : list Z) (nextSeq uncommitted : Z)
  : list Z * Z * Z :=
  if (nextSeq <? end_) && (uncommitted <? branch) then
    match keys with
    | k :: keys' =>
        if k <? end_ then walkSpan support end_ branch keys' (wrap 32 (k + 1)) (wrap 64 (uncommitted + support k))
        else (keys, end_, uncommitted)
    | [] => ([], end_, uncommitted)
    end
  else (keys, nextSeq, uncommitted).

(** The indices of the best child and of the runner-up. *)
Fixpoint rankLoop (ch rest : list node) (i best second : nat) : nat * nat :=
  match rest with
  | [] => (best, second)
  | c :: rest' =>
      if match ch !! best with Some b => nodeOutranks c b | None => false end
      then rankLoop ch rest' (S i) i best
      else if match ch !! second with Some b => nodeOutranks c b | None => false end
      then rankLoop ch rest' (S i) best i
      else rankLoop ch rest' (S i) best second
  end.

Definition swap (i j : nat) (l : list node) : list node :=
  match l !! i, l !! j with
  | Some x, Some y => <[j := x]> (<[i := y]> l)
  | _, _ => l
  end.

(** Ranks the children: the reordered list (best first, runner-up second), and
    the margin of the best. *)
Definition rankChildren (ch : list node) : list node * Z :=
  match ch with
  | [] => ([], 0)
  | [c] => ([c], branchSupport c)
  | c0 :: c1 :: rest =>
      let '(bestIndex, secondIndex) := if nodeOutranks c1 c0 then (1%nat, 0%nat) else (0%nat, 1%nat) in
      let '(bestIndex, secondIndex) := rankLoop ch rest 2 bestIndex secondIndex in
      let ch1 := if (bestIndex =? 0)%nat then ch else swap 0 bestIndex ch in
      let secondPos := if (secondIndex =? 0)%nat then bestIndex else secondIndex in
      let ch2 := swap 1 secondPos ch1 in
      match ch2 with
      | best :: second :: _ =>
          let margin := wrap 64 (branchSupport best - branchSupport second) in
          let margin := if ledgerIDGreater (startID (spanOf best)) (startID (spanOf second))
                        then wrap 64 (margin + 1) else margin in
          (ch2, margin)
      | _ => (ch2, 0)
      end
  end.

(** One descent; [fuel] bounds the depth. Returns the preferred tip and the node
    with its children as the search leaves them. *)
Fixpoint preferLoop (support : Z -> Z) (largestIssued : Z) (fuel : nat) (n : node)
    (keys : list Z) (uncommitted : Z) : option (SpanTip * node) :=
  match fuel with
  | O => None
  | S fuel =>
      let '(Node s t b ch) := n in
      let nextSeq := wrap 32 (start s + 1) in
      let floor := Z.max largestIssued nextSeq in
      let '(keys, uncommitted) := absorb support floor keys uncommitted in
      let '(keys, nextSeq, uncommitted) := walkSpan support (send s) b keys nextSeq uncommitted in
      if nextSeq <? send s then
        match before s nextSeq with
        | Some sub => Some (tip sub, n)
        | None => None
        end
      else
        let '(ch, margin) := rankChildren ch in
        match ch with
        | best :: rest =>
            if (uncommitted <? margin) || (uncommitted =? 0) then
              '(r, best') ← preferLoop support largestIssued fuel best keys uncommitted;
              Some (r, Node s t b (best' :: rest))
            else Some (tip s, Node s t b ch)
        | [] => Some (tip s, Node s t b ch)
        end
  end.

Fixpoint nodeDepth (n : node) : nat :=
  let '(Node _ _ _ ch) := n in S (foldr (fun c d => Nat.max (nodeDepth c) d) 0%nat ch).

Definition GetPreferred (t : Trie) (largestIssued : Z) : option (option SpanTip * Trie) :=
  if empty_ t then Some (None, t)
  else
    '(r, n) ← preferLoop (supportAt t) largestIssued (nodeDepth (root t)) (root t) (seqKeys t) 0;
    Some (Some r, set_root t n).

(** ** Self-check *)

(** Tip supports of the subtree, with their sequences. *)
Fixpoint tipsBySeq (n : node) : list (Z * Z) :=
  let '(Node s t _ ch) := n in
  (if negb (t =? 0) then [(send s - 1, t)] else []) ++ (ch ≫= tipsBySeq).

Definition nodeCheck (isRoot : bool) (n : node) : bool :=
  let '(Node s t b ch) := n in
  let support := foldl (fun u c => u + branchSupport c) t ch in
  negb (send s <=? start s) &&
  negb (negb isRoot && (t =? 0) && (length ch <? 2)%nat) &&
  negb ((max_u32 <? support) || negb (support =? b)).

Fixpoint subtreeCheck (isRoot : bool) (n : node) : bool :=
  nodeCheck isRoot n && forallb (subtreeCheck false) (children n).

Fixpoint strictlySorted (l : list Z) : bool :=
  match l with
  | x :: (y :: _) as l' => (x <? y) && strictlySorted l'
  | _ => true
  end.

Definition sumBySeq (l : list (Z * Z)) : gmap Z Z :=
  foldl (fun m e => <[e.1 := default 0 (m !! e.1) + e.2]> m) ∅ l.

Definition CheckInvariants (t : Trie) : bool :=
  (length (seqKeys t) =? size (seqSupport t))%nat &&
  strictlySorted (seqKeys t) &&
  forallb (fun k => match seqSupport t !! k with Some v => negb (v =? 0) | None => false end) (seqKeys t) &&
  subtreeCheck true (root t) &&
  let expected := sumBySeq (tipsBySeq (root t)) in
  forallb (fun e => e.2 <=? max_u32) (map_to_list expected) &&
  (size expected =? size (seqSupport t))%nat &&
  forallb (fun e => supportAt t e.1 =? e.2) (map_to_list expected).

End Trie.

Arguments span L : clear implicits.
Arguments node L : clear implicits.
Arguments Trie L : clear implicits.

(** ** What the trie relies on of ledgers *)

(** Ancestors are known on [MinSeq, Seq]; the last is the ledger itself; there
    is one genesis; two ledgers that share an ancestor share everything before it. *)
Definition known `{!Ledger L} (l : L) (s : Z) : Prop := MinSeq l <= s <= Seq l.

Class LedgerLaws (L : Type) `{!Ledger L} : Prop := {
  seq_range (l : L) : 0 <= MinSeq l <= Seq l /\ Seq l < max_u32;
  ancestor_self (l : L) : Ancestor l (Seq l) = ID l;
  one_genesis (a b : L) : Seq a = 0 -> Seq b = 0 -> ID a = ID b;
  unique_history (a b : L) s p : known a s -> known b s -> Ancestor a s = Ancestor b s ->
    p <= s -> known a p -> known b p -> Ancestor a p = Ancestor b p }.

Section Search.
Context {L : Type} `{!Ledger L} `{!LedgerLaws L}.

(** ** Mismatch *)

Definition agree (a b : L) (x : Z) : Prop := Ancestor a x = Ancestor b x.

Lemma mismatchLoop_spec (a b : L) lower upper fuel low hi :
  (forall x, lower <= x <= upper -> known a x /\ known b x) ->
  0 <= lower <= low -> low <= hi <= upper + 1 -> upper < max_u32 ->
  (low = lower \/ agree a b (low - 1)) -> (hi = upper + 1 \/ ~ agree a b hi) ->
  hi - low < 2 ^ Z.of_nat fuel ->
  let r := mismatchLoop a b (S fuel) low hi in
  lower <= r <= upper + 1 /\ (r = lower \/ agree a b (r - 1)) /\ (r = upper + 1 \/ ~ agree a b r).
Proof.
  intros Hk Hl. revert low hi Hl. induction fuel as [|fuel IH]; intros low hi Hl Hh Hu Hlo Hhi Hf.
  { cbn in Hf. assert (low = hi) as <- by lia. cbn. destruct (Z.ltb_spec low low); [lia|]. cbn.
    split; [lia|done]. }
  cbn [mismatchLoop]. destruct (Z.ltb_spec low hi) as [Hlt|Hge].
  2:{ cbv zeta. assert (low = hi) as <- by lia. split; [lia|done]. }
  rewrite Nat2Z.inj_succ, Z.pow_succ_r in Hf by lia. cbv zeta. unfold max_u32 in Hu.
  assert (Hmid : low <= low + (hi - low) / 2 < hi) by dmlia.
  rewrite (wrap_small 32 (low + (hi - low) / 2)) by (unfold is_uint; lia).
  set (mid := low + (hi - low) / 2) in *.
  case_bool_decide as Ha.
  - rewrite (wrap_small 32 (mid + 1)) by (unfold is_uint; lia). apply IH; [lia|lia|done| |done|].
    + right. unfold agree. by replace (mid + 1 - 1) with mid by lia.
    + subst mid. dmlia.
  - apply IH; [lia|lia|done|done|by right|]. subst mid. dmlia.
Qed.

Definition overlapLo (a b : L) : Z := Z.max (MinSeq a) (MinSeq b).
Definition overlapHi (a b : L) : Z := Z.min (Seq a) (Seq b).

(** The divergence point: the ledgers agree just before it, and differ at it
    unless one of them ends there. When they share nothing it is 1. *)
Lemma mismatch_spec (a b : L) :
  let m := mismatch a b in
  (m = 1 /\ (overlapHi a b < overlapLo a b \/ ~ agree a b (overlapLo a b))) \/
  (overlapLo a b < m <= overlapHi a b + 1 /\ agree a b (m - 1) /\
   (m = overlapHi a b + 1 \/ ~ agree a b m)).
Proof.
  cbv zeta. unfold mismatch. pose proof (seq_range a) as [Ra Ra']. pose proof (seq_range b) as [Rb Rb'].
  assert (Hlo : (if MinSeq a <? MinSeq b then MinSeq b else MinSeq a) = overlapLo a b)
    by (unfold overlapLo; destruct (Z.ltb_spec (MinSeq a) (MinSeq b)); lia).
  assert (Hhi : Z.min (Seq b) (Seq a) = overlapHi a b) by (unfold overlapHi; lia).
  rewrite Hlo, Hhi. cbv zeta. destruct (Z.ltb_spec (overlapHi a b) (overlapLo a b)) as [|Hle]; [by left; auto|].
  assert (Hu : overlapHi a b < max_u32) by (unfold overlapHi; lia).
  assert (Hl0 : 0 <= overlapLo a b) by (unfold overlapLo; lia).
  rewrite (wrap_small 32 (overlapHi a b + 1)) by (unfold is_uint, max_u32 in *; lia).
  destruct (mismatchLoop_spec a b (overlapLo a b) (overlapHi a b) 32 (overlapLo a b) (overlapHi a b + 1))
    as (H1 & H2 & H3).
  - unfold known, overlapLo, overlapHi. lia.
  - lia.
  - lia.
  - done.
  - by left.
  - by left.
  - unfold max_u32 in Hu. change (2 ^ Z.of_nat 32) with (2 ^ 32). lia.
  - change (33%nat) with (S 32). set (r := mismatchLoop a b (S 32) _ _) in *. clearbody r.
    destruct (Z.eqb_spec r (overlapLo a b)) as [->|Hne].
    + left. split; [done|]. right. destruct H3 as [H3|H3]; [lia|done].
    + right. split; [lia|]. split; [|done]. by destruct H2.
Qed.

(** ** Sums over a tree *)

Definition sumOf {A} (f : A -> Z) (l : list A) : Z := foldr (fun x acc => f x + acc) 0 l.

Lemma sumOf_cons {A} (f : A -> Z) y l : sumOf f (y :: l) = f y + sumOf f l.
Proof. done. Qed.

Lemma sumOf_zero {A} (l : list A) : sumOf (fun _ => 0) l = 0.
Proof. by induction l. Qed.

Lemma sumOf_app {A} (f : A -> Z) l l' : sumOf f (l ++ l') = sumOf f l + sumOf f l'.
Proof. unfold sumOf. induction l; cbn; lia. Qed.

Lemma sumOf_one {A} (f : A -> Z) l i y :
  Forall (fun z => 0 <= f z) l -> l !! i = Some y -> 0 <= f y <= sumOf f l.
Proof.
  intros Hf. revert i. induction Hf as [|z l Hz Hf IH]; intros [|i] Hi; try done; rewrite sumOf_cons.
  - injection Hi as ->. assert (0 <= sumOf f l) by (clear -Hf; induction Hf; [done|rewrite sumOf_cons; lia]). lia.
  - specialize (IH i Hi). lia.
Qed.

Lemma sumOf_two {A} (f : A -> Z) l i j y z :
  Forall (fun z => 0 <= f z) l -> i <> j -> l !! i = Some y -> l !! j = Some z -> f y + f z <= sumOf f l.
Proof.
  intros Hf. revert i j. induction Hf as [|w l Hw Hf IH]; intros [|i] [|j] Hij Hi Hj; try done; rewrite sumOf_cons.
  - injection Hi as ->. pose proof (sumOf_one f l j z Hf Hj). lia.
  - injection Hj as ->. pose proof (sumOf_one f l i y Hf Hi). lia.
  - specialize (IH i j ltac:(lia) Hi Hj). lia.
Qed.

Lemma sumOf_perm {A} (f : A -> Z) l l' : l ≡ₚ l' -> sumOf f l = sumOf f l'.
Proof. unfold sumOf. induction 1; cbn; lia. Qed.

Lemma sumOf_ext {A} (f g : A -> Z) l : (forall x, x ∈ l -> f x = g x) -> sumOf f l = sumOf g l.
Proof.
  unfold sumOf. induction l as [|x l IH]; cbn; intros H; [done|].
  rewrite (H x), IH; [done| |by left]. intros y Hy. apply H. by right.
Qed.

Lemma sumOf_insert {A} (f : A -> Z) l i x y :
  l !! i = Some x -> sumOf f (<[i := y]> l) = sumOf f l - f x + f y.
Proof.
  unfold sumOf. revert i. induction l as [|z l IH]; intros [|i] H; simpl in *; try done.
  - injection H as ->. lia.
  - rewrite (IH i H). lia.
Qed.

Lemma sumOf_alter {A} (f : A -> Z) l i x g :
  l !! i = Some x -> sumOf f (alter g i l) = sumOf f l - f x + f (g x).
Proof.
  revert i. induction l as [|z l IH]; intros [|i] H; try done.
  - injection H as ->. unfold sumOf; simpl. lia.
  - change (f z + sumOf f (alter g i l) = f z + sumOf f l - f x + f (g x)).
    rewrite (IH i H). lia.
Qed.

Lemma eraseChild_perm i (ch : list (node L)) c : ch !! i = Some c -> ch ≡ₚ c :: eraseChild i ch.
Proof.
  intros Hi. unfold eraseChild. destruct (list.last ch) as [x|] eqn:El.
  2:{ apply last_None in El as ->. done. }
  apply last_Some in El as [l ->]. rewrite length_app; cbn.
  replace (length l + 1 - 1)%nat with (length l) by lia.
  destruct (decide (i < length l)%nat) as [Hlt|Hge].
  - rewrite lookup_app_l in Hi by done. rewrite insert_app_l by done.
    rewrite take_app_le by (rewrite length_insert; lia).
    rewrite take_ge by (rewrite length_insert; lia).
    rewrite insert_take_drop by done. pose proof (take_drop_middle l i c Hi) as Hl.
    rewrite <- Hl at 1. rewrite <- app_assoc; cbn. rewrite <- Permutation_middle. constructor.
    rewrite app_assoc, Permutation_app_comm; cbn. by rewrite Permutation_middle.
  - apply lookup_lt_Some in Hi as Hl. rewrite length_app in Hl; cbn in Hl.
    assert (i = length l) as -> by lia. rewrite lookup_app_r, Nat.sub_diag in Hi by lia.
    injection Hi as ->. rewrite insert_app_r_alt, Nat.sub_diag by lia. cbn.
    rewrite take_app_length. by rewrite Permutation_app_comm.
Qed.

(** The weight [f] of the tips of a tree, by their support. *)
Fixpoint sumTips (f : SpanTip -> Z) (n : node L) : Z :=
  let '(Node s t _ ch) := n in f (tip s) * t + sumOf (sumTips f) ch.

Lemma sumTips_unfold f (s : span L) t b ch :
  sumTips f (Node s t b ch) = f (tip s) * t + sumOf (sumTips f) ch.
Proof. done. Qed.

Lemma nodeAt_cons i p (n c : node L) : children n !! i = Some c -> nodeAt (i :: p) n = nodeAt p c.
Proof. intros H. cbn. by rewrite H. Qed.

Lemma updateAt_tips f count g p (n loc : node L) :
  nodeAt p n = Some loc ->
  sumTips f (updateAt count g p n) = sumTips f n - sumTips f loc + sumTips f (g loc).
Proof.
  revert n. induction p as [|i p IH]; intros [s t b ch]; cbn [nodeAt updateAt children].
  - intros [= <-]. lia.
  - intros (c & Hc & H)%bind_Some. rewrite !sumTips_unfold.
    rewrite (sumOf_alter _ _ _ c) by done. rewrite (IH c H). lia.
Qed.

(** ** Well-formed trees *)

(** Spans are non-empty and join end to start; branch supports are the sums of
    the tip supports below; only the root may be an unsupported node with fewer
    than two children. *)
Inductive nodeOk : bool -> node L -> Prop :=
  | NodeOk r s t b ch :
      0 <= start s < send s -> send s <= Seq (ledger s) + 1 ->
      0 <= t -> b = t + sumOf branchSupport ch -> b <= max_u32 ->
      (r = false -> t <> 0 \/ (2 <= length ch)%nat) ->
      Forall (fun c => start (spanOf c) = send s) ch -> Forall (nodeOk false) ch ->
      nodeOk r (Node s t b ch).

(** Induction on nodes with the hypothesis for every child. *)
Lemma node_nested_ind (P : node L -> Prop) :
  (forall s t b ch, Forall P ch -> P (Node s t b ch)) -> forall n, P n.
Proof.
  intros H. fix F 1. intros [s t b ch]. apply H.
  induction ch as [|c ch IH]; constructor; [apply F|exact IH].
Qed.

Lemma nodeOk_bounds r (n : node L) :
  nodeOk r n -> 0 <= tipSupport n <= branchSupport n /\ branchSupport n <= max_u32.
Proof.
  revert r. induction n as [s t b ch IH] using node_nested_ind. intros r Hok.
  inversion_clear Hok as [? ? ? ? ? Hs He Ht Hb Hm Hc Hst Hch]. cbn.
  assert (0 <= sumOf branchSupport ch); [|lia]. unfold sumOf.
  clear -IH Hch. induction ch as [|c ch IHc]; cbn; [lia|].
  apply list.Forall_cons in IH as [IH1 IH2]. apply list.Forall_cons in Hch as [H1 H2].
  specialize (IH1 _ H1). specialize (IHc IH2 H2). lia.
Qed.

(** ** Where [find] ends *)

(** [l] agrees with the span up to [pos], as far as the trie can tell: [pos] is
    inside the span, not beyond [l], and at [l]'s own sequence the span has [l]. *)
Definition meets (l : L) (s : span L) (pos : Z) : Prop :=
  start s < pos <= send s /\ pos <= Seq l + 1 /\
  (pos = Seq l + 1 -> Ancestor (ledger s) (Seq l) = ID l).

Lemma diff_range (s : span L) l : start s < send s -> start s <= diff s l <= send s.
Proof. unfold diff, clamp. intros. destruct (Z.ltb_spec (mismatch (ledger s) l) (start s)); [lia|].
  destruct (Z.ltb_spec (send s) (mismatch (ledger s) l)); lia. Qed.

Lemma diff_meets (s : span L) l :
  1 <= start s < send s -> start s < diff s l -> meets l s (diff s l).
Proof.
  intros Hs Hd. pose proof (diff_range s l ltac:(lia)) as Hr. split; [lia|].
  assert (Hm : diff s l <= mismatch (ledger s) l).
  { unfold diff, clamp in *. destruct (Z.ltb_spec (mismatch (ledger s) l) (start s)); [lia|].
    destruct (Z.ltb_spec (send s) (mismatch (ledger s) l)); lia. }
  destruct (mismatch_spec (ledger s) l) as [[Hm1 _]|(Hm1 & Hag & _)]; [lia|].
  unfold overlapHi in Hm1. split; [lia|]. intros He.
  assert (Hmm : mismatch (ledger s) l = Seq l + 1) by lia. rewrite Hmm in Hag.
  replace (Seq l + 1 - 1) with (Seq l) in Hag by lia. rewrite <- ancestor_self. exact Hag.
Qed.

(** The flag of a node at the end of a path. *)
Definition flagAt (r : bool) (p : list nat) : bool := match p with [] => r | _ => false end.

(** The descent takes the first child that follows [l] beyond [pos]. *)
Lemma findFrom_eq (l : L) s t b ch pos :
  findFrom l (Node s t b ch) pos =
  if pos =? send s then
    match list_find (fun c => pos < diff (spanOf c) l) ch with
    | Some (i, c) => (i :: (findFrom l c (diff (spanOf c) l)).1, (findFrom l c (diff (spanOf c) l)).2)
    | None => ([], pos)
    end
  else ([], pos).
Proof.
  cbn [findFrom]. destruct (_ =? _); [|done].
  match goal with |- context [?f 0%nat ch] => set (go := f) end.
  assert (Hgo : forall i, go i ch =
    match list_find (fun c => pos < diff (spanOf c) l) ch with
    | Some (j, c) => ((i + j)%nat :: (findFrom l c (diff (spanOf c) l)).1, (findFrom l c (diff (spanOf c) l)).2)
    | None => ([], pos)
    end); [|exact (Hgo 0%nat)].
  induction ch as [|c ch IH]; intros i; [done|]. cbn [go list_find]. fold go.
  destruct (Z.ltb_spec pos (diff (spanOf c) l)) as [Hlt|Hge].
  - rewrite decide_True by done. rewrite Nat.add_0_r. by destruct (findFrom l c _).
  - rewrite decide_False by lia. rewrite IH. destruct (list_find _ ch) as [[j d]|]; cbn; [|done].
    by rewrite Nat.add_succ_r.
Qed.

Lemma findFrom_spec (l : L) n r pos :
  nodeOk r n -> meets l (spanOf n) pos ->
  exists loc, nodeAt (findFrom l n pos).1 n = Some loc /\
    nodeOk (flagAt r (findFrom l n pos).1) loc /\ meets l (spanOf loc) (findFrom l n pos).2.
Proof.
  revert r pos. induction n as [s t b ch IH] using node_nested_ind. intros r pos Hok Hm.
  rewrite findFrom_eq. destruct (Z.eqb_spec pos (send s)) as [->|]; [|by exists (Node s t b ch)].
  destruct (list_find _ ch) as [[i c]|] eqn:Ef; [|by exists (Node s t b ch)].
  apply list_find_Some in Ef as (Hic & Hlt & _).
  inversion_clear Hok as [? ? ? ? ? Hs He Ht Hb Hmx Hc Hst Hch]. cbn [spanOf] in Hm.
  pose proof (Forall_lookup_1 _ _ _ _ Hst Hic) as Hcs. pose proof (Forall_lookup_1 _ _ _ _ Hch Hic) as Hcok.
  cbn in Hcs, Hcok. assert (Hspan : 0 <= start (spanOf c) < send (spanOf c)) by (by inversion Hcok).
  destruct (Forall_lookup_1 _ _ _ _ IH Hic false (diff (spanOf c) l) Hcok) as (loc & H1 & H2 & H3).
  { apply diff_meets; lia. }
  exists loc. split; [by cbn; rewrite Hic|]. split; [|done]. by destruct (findFrom l c _).1.
Qed.

(** ** Insertion at the node found *)

Lemma before_eq (s : span L) d :
  start s < d <= send s -> before s d = Some (mkSpan (start s) d (ledger s)).
Proof.
  intros H. unfold before, sub_, clamp.
  destruct (Z.ltb_spec (start s) (start s)); [lia|]. destruct (Z.ltb_spec (send s) (start s)); [lia|].
  destruct (Z.ltb_spec d (start s)); [lia|]. destruct (Z.ltb_spec (send s) d); [lia|].
  destruct (Z.ltb_spec (start s) d); [done|lia].
Qed.

Lemma from_eq (s : span L) d :
  start s <= d <= send s ->
  from s d = if d <? send s then Some (mkSpan d (send s) (ledger s)) else None.
Proof.
  intros H. unfold from, sub_, clamp.
  destruct (Z.ltb_spec d (start s)); [lia|]. destruct (Z.ltb_spec (send s) d); [lia|].
  destruct (Z.ltb_spec (send s) (start s)); [lia|]. destruct (Z.ltb_spec (send s) (send s)); [lia|]. done.
Qed.

Lemma newSpan_from (l : L) d :
  0 < d <= Seq l + 1 ->
  from (newSpanFromLedger l) d = if d <? Seq l + 1 then Some (mkSpan d (Seq l + 1) l) else None.
Proof.
  intros H. pose proof (seq_range l) as [_ Hr]. unfold newSpanFromLedger, max_u32 in *.
  rewrite wrap_small by (unfold is_uint; lia). rewrite from_eq by (cbn; lia). done.
Qed.

(** The insertion at a node, with the suffixes computed from the meeting point. *)
Definition insertAt (l : L) (d count : Z) (n : node L) : node L :=
  insertHere (before (spanOf n) d) (from (spanOf n) d) (from (newSpanFromLedger l) d) count n.

Definition ledgerTip (l : L) : SpanTip := mkSpanTip (Seq l) (ID l).

Lemma tip_new (l : L) d : tip (mkSpan d (Seq l + 1) l) = ledgerTip l.
Proof. unfold tip, ledgerTip; cbn. by rewrite Z.add_simpl_r, ancestor_self. Qed.

Lemma tip_suffix (s : span L) d : tip (mkSpan d (send s) (ledger s)) = tip s.
Proof. done. Qed.

Section InsertAt.
Context (l : L) (d count : Z) (r : bool) (n : node L).
Context (Hok : nodeOk r n) (Hm : meets l (spanOf n) d) (Hr : r = true -> d = send (spanOf n)).
Context (Hcount : 0 < count) (Hbr : branchSupport n + count <= max_u32).

Lemma insertAt_tips f : sumTips f (insertAt l d count n) = sumTips f n + f (ledgerTip l) * count.
Proof.
  pose proof (nodeOk_bounds _ _ Hok) as Hbd.
  destruct n as [s t b ch]. inversion_clear Hok as [? ? ? ? ? Hs He Ht Hb Hmx Hc Hst Hch].
  destruct Hm as (Hd & Hdl & Hag). cbn [spanOf tipSupport branchSupport] in *.
  unfold insertAt. cbn [spanOf]. rewrite before_eq, from_eq, newSpan_from by lia.
  assert (Hself : d = Seq l + 1 -> forall e, e = d -> f (tip (mkSpan (start s) e (ledger s))) = f (ledgerTip l)).
  { intros Hl e ->. f_equal. unfold tip, ledgerTip. cbn. replace (d - 1) with (Seq l) by lia. by rewrite Hag. }
  assert (Hw : wrap 32 (t + count) = t + count) by (apply wrap_small; unfold is_uint, max_u32 in *; lia).
  destruct (Z.ltb_spec d (send s)) as [Hlt|Hge], (Z.ltb_spec d (Seq l + 1)) as [Hlt'|Hge'];
    cbn [insertHere]; rewrite ?sumTips_unfold, ?sumOf_app; unfold sumOf; cbn [foldr];
    rewrite ?sumTips_unfold, ?tip_new; unfold sumOf; cbn [foldr].
  - rewrite tip_suffix. lia.
  - rewrite (Hself ltac:(lia) d eq_refl), tip_suffix.
    rewrite wrap_small by (unfold is_uint, max_u32 in *; lia). lia.
  - lia.
  - assert (Hsd : send s = d) by lia. rewrite Hw. destruct s as [st en le]; cbn in *. subst en.
    rewrite (Hself ltac:(lia) d eq_refl). lia.
Qed.

Lemma insertAt_branch : branchSupport (insertAt l d count n) = branchSupport n + count.
Proof.
  pose proof (nodeOk_bounds _ _ Hok) as Hbd. unfold insertAt, insertHere.
  destruct n as [s t b ch]. cbn [branchSupport tipSupport] in *.
  repeat case_match; simplify_eq; cbn; apply wrap_small; unfold is_uint, max_u32 in *; lia.
Qed.

Lemma insertAt_start : start (spanOf (insertAt l d count n)) = start (spanOf n).
Proof.
  destruct Hm as (Hd & _). destruct n as [s t b ch]. cbn [spanOf] in *.
  unfold insertAt. cbn [spanOf]. rewrite before_eq by lia. unfold insertHere.
  by repeat case_match; simplify_eq.
Qed.

Lemma insertAt_ok : nodeOk r (insertAt l d count n).
Proof.
  pose proof (nodeOk_bounds _ _ Hok) as Hbd.
  destruct n as [s t b ch]. inversion_clear Hok as [? ? ? ? ? Hs He Ht Hb Hmx Hc Hst Hch].
  destruct Hm as (Hd & Hdl & _). cbn [spanOf tipSupport branchSupport] in *.
  unfold insertAt. cbn [spanOf]. rewrite before_eq, from_eq, newSpan_from by lia.
  assert (Hw : wrap 32 (b + count) = b + count) by (apply wrap_small; unfold is_uint, max_u32 in *; lia).
  assert (Hwt : forall x, 0 <= x <= b -> wrap 32 (x + count) = x + count)
    by (intros; apply wrap_small; unfold is_uint, max_u32 in *; lia).
  assert (Hnew : d < Seq l + 1 -> nodeOk false (Node (mkSpan d (Seq l + 1) l) count count [])).
  { intros. constructor; cbn; try lia; try done. }
  destruct (Z.ltb_spec d (send s)) as [Hlt|Hge].
  - assert (Hrf : r = false) by (destruct r; [specialize (Hr eq_refl); lia|done]).
    assert (Hsfx : nodeOk false (Node (mkSpan d (send s) (ledger s)) t b ch)).
    { constructor; cbn; try done; try lia. intros _. by apply Hc. }
    destruct (Z.ltb_spec d (Seq l + 1)) as [Hlt'|Hge']; cbn [insertHere]; rewrite ?Hw, ?Hwt by lia.
    + constructor; cbn; try lia; rewrite !list.Forall_cons; split_and!; try done; try apply Forall_nil_2.
      by apply Hnew.
    + constructor; cbn; try lia; rewrite !list.Forall_cons; split_and!; try done; apply Forall_nil_2.
  - destruct (Z.ltb_spec d (Seq l + 1)) as [Hlt'|Hge']; cbn [insertHere]; rewrite ?Hw, ?Hwt by lia.
    + constructor; try done; try lia.
      * rewrite sumOf_app. unfold sumOf at 2; cbn. lia.
      * intros Hrf. rewrite length_app. destruct (Hc Hrf); [by left|right; lia].
      * apply Forall_app. split; [done|]. repeat constructor. cbn. lia.
      * apply Forall_app. split; [done|]. rewrite list.Forall_cons. split; [by apply Hnew|apply Forall_nil_2].
    + constructor; try done; try lia.
Qed.

End InsertAt.

Lemma updateAt_ok r p n loc g count :
  nodeOk r n -> nodeAt p n = Some loc ->
  Forall (fun m => branchSupport m + count <= max_u32) (nodesOn p n) -> 0 <= count ->
  nodeOk (flagAt r p) (g loc) -> branchSupport (g loc) = branchSupport loc + count ->
  start (spanOf (g loc)) = start (spanOf loc) ->
  nodeOk r (updateAt count g p n) /\
  branchSupport (updateAt count g p n) = branchSupport n + count /\
  start (spanOf (updateAt count g p n)) = start (spanOf n).
Proof.
  revert r n. induction p as [|i p IH]; intros r n Hok; cbn [nodeAt nodesOn updateAt].
  { by intros [= <-]. }
  destruct n as [s t b ch]. cbn [children]. intros (c & Hc & Hat)%bind_Some. rewrite Hc.
  intros [Hb1 Hbp]%list.Forall_cons Hcount Hg Hgb Hgs. cbn [branchSupport spanOf] in *.
  pose proof (nodeOk_bounds _ _ Hok) as Hbd. cbn in Hbd.
  inversion_clear Hok as [? ? ? ? ? Hs He Ht Hb Hmx Hcmp Hst Hch].
  pose proof (Forall_lookup_1 _ _ _ _ Hch Hc) as Hcok. cbn in Hcok.
  destruct (IH false c Hcok Hat Hbp Hcount) as (H1 & H2 & H3); [by destruct p|done|done|].
  rewrite wrap_small by (unfold is_uint, max_u32 in *; lia). split_and!; [|done|done].
  constructor; try done; try lia.
  - rewrite (sumOf_alter _ _ _ c) by done. lia.
  - by rewrite length_alter.
  - apply Forall_alter; [done|]. intros x Hx Hxs. rewrite Hc in Hx. injection Hx as <-. by rewrite H3.
  - apply Forall_alter; [done|]. intros x Hx _. rewrite Hc in Hx. by injection Hx as <-.
Qed.

(** ** Well-formed tries *)

Definition bySeq (k : Z) (tp : SpanTip) : Z := if TipSeq tp =? k then 1 else 0.
Definition byID (id : bytes) (tp : SpanTip) : Z := if bool_decide (TipID tp = id) then 1 else 0.

Record trie_ok (t : Trie L) : Prop := mkTrieOk {
  ok_root : nodeOk true (root t);
  ok_genesis : start (spanOf (root t)) = 0 /\ send (spanOf (root t)) = 1 /\
    Seq (ledger (spanOf (root t))) = 0;
  ok_support k : supportAt t k = sumTips (bySeq k) (root t);
  ok_values k v : seqSupport t !! k = Some v -> 0 < v <= max_u32;
  ok_sorted : StronglySorted Z.lt (seqKeys t);
  ok_keys k : k ∈ seqKeys t <-> is_Some (seqSupport t !! k) }.

Lemma searchKey_insert keys seq :
  StronglySorted Z.lt keys -> seq ∉ keys ->
  let keys' := take (searchKey keys seq) keys ++ seq :: drop (searchKey keys seq) keys in
  StronglySorted Z.lt keys' /\ forall k, k ∈ keys' <-> k = seq \/ k ∈ keys.
Proof.
  intros Hs Hn. cbv zeta. split.
  - induction Hs as [|k keys Hs IH Hk]; cbn; [by repeat constructor|].
    apply not_elem_of_cons in Hn as [Hne Hn].
    destruct (Z.ltb_spec k seq) as [Hlt|Hge]; cbn.
    + constructor; [by apply IH|]. apply Forall_app. split; [by apply Forall_take|].
      apply list.Forall_cons. split; [done|by apply Forall_drop].
    + constructor; [by constructor|]. apply list.Forall_cons. split; [lia|].
      eapply Forall_impl; [exact Hk|]. cbn. lia.
  - intros k. rewrite elem_of_app, elem_of_cons.
    assert (Hin : k ∈ keys <-> k ∈ take (searchKey keys seq) keys \/ k ∈ drop (searchKey keys seq) keys)
      by (by rewrite <- elem_of_app, take_drop).
    rewrite Hin. naive_solver.
Qed.

Lemma seqSupportAdd_ok (t : Trie L) seq delta t' :
  StronglySorted Z.lt (seqKeys t) -> (forall k, k ∈ seqKeys t <-> is_Some (seqSupport t !! k)) ->
  (forall k v, seqSupport t !! k = Some v -> 0 < v <= max_u32) -> 0 < delta ->
  seqSupportAdd t seq delta = Some t' ->
  root t' = root t /\ StronglySorted Z.lt (seqKeys t') /\
  (forall k, k ∈ seqKeys t' <-> is_Some (seqSupport t' !! k)) /\
  (forall k v, seqSupport t' !! k = Some v -> 0 < v <= max_u32) /\
  (forall k, supportAt t' k = supportAt t k + (if seq =? k then delta else 0)).
Proof.
  intros Hs Hk Hv Hd. unfold seqSupportAdd. cbv zeta.
  destruct (Z.ltb_spec (max_u32 - delta) (supportAt t seq)) as [|Hle]; [done|]. intros [= <-]. cbn [root seqKeys seqSupport].
  assert (Hc0 : 0 <= supportAt t seq).
  { unfold supportAt. destruct (seqSupport t !! seq) as [v|] eqn:E; cbn; [|lia]. apply Hv in E. lia. }
  rewrite wrap_small by (unfold is_uint, max_u32 in *; lia).
  assert (Hkeys : StronglySorted Z.lt (match seqSupport t !! seq with
      | Some _ => seqKeys t
      | None => take (searchKey (seqKeys t) seq) (seqKeys t) ++ seq :: drop (searchKey (seqKeys t) seq) (seqKeys t) end) /\
    forall k, k ∈ (match seqSupport t !! seq with
      | Some _ => seqKeys t
      | None => take (searchKey (seqKeys t) seq) (seqKeys t) ++ seq :: drop (searchKey (seqKeys t) seq) (seqKeys t) end)
      <-> k = seq \/ k ∈ seqKeys t).
  { destruct (seqSupport t !! seq) as [v|] eqn:E.
    - split; [done|]. intros k. split; [by right|]. intros [->|?]; [|done]. apply Hk. eauto.
    - apply searchKey_insert; [done|]. rewrite Hk, E. by apply is_Some_None. }
  destruct Hkeys as [H1 H2]. split_and!; [done|done| | |].
  - intros k. rewrite H2, Hk, lookup_insert_is_Some. destruct (decide (seq = k)); naive_solver.
  - intros k v [[_ <-]|[_ ?]]%lookup_insert_Some; [lia|by eapply Hv].
  - intros k. unfold supportAt at 1; cbn. destruct (Z.eqb_spec seq k) as [<-|Hne].
    + by rewrite lookup_insert_eq.
    + rewrite lookup_insert_ne by done. unfold supportAt. lia.
Qed.

(** ** Insert *)

Lemma branch_is_sum r n : nodeOk r n -> branchSupport n = sumTips (fun _ => 1) n.
Proof.
  revert r. induction n as [s t b ch IH] using node_nested_ind. intros r Hok.
  inversion_clear Hok as [? ? ? ? ? Hs He Ht Hb Hmx Hc Hst Hch]. cbn [branchSupport].
  rewrite sumTips_unfold, Hb, Z.mul_1_l. f_equal. apply sumOf_ext. intros c Hin.
  rewrite list.Forall_forall in IH, Hch. by eapply IH; [|apply Hch].
Qed.

Lemma sumTips_le r n f g :
  nodeOk r n -> (forall tp, 0 <= f tp <= g tp) -> 0 <= sumTips f n <= sumTips g n.
Proof.
  intros Hok Hfg. revert r Hok. induction n as [s t b ch IH] using node_nested_ind. intros r Hok.
  inversion_clear Hok as [? ? ? ? ? Hs He Ht Hb Hmx Hc Hst Hch]. rewrite !sumTips_unfold.
  assert (0 <= sumOf (sumTips f) ch <= sumOf (sumTips g) ch).
  { clear -IH Hch. unfold sumOf. induction ch as [|c ch IHc]; cbn; [lia|].
    apply list.Forall_cons in IH as [IH1 IH2]. apply list.Forall_cons in Hch as [H1 H2].
    specialize (IH1 _ H1). specialize (IHc IH2 H2). lia. }
  specialize (Hfg (tip s)). nia.
Qed.

Lemma nodeAt_bounds r p n loc :
  nodeOk r n -> nodeAt p n = Some loc ->
  Forall (fun m => branchSupport m <= branchSupport n) (nodesOn p n) /\ loc ∈ nodesOn p n.
Proof.
  revert r n. induction p as [|i p IH]; intros r n Hok; cbn [nodeAt nodesOn].
  { intros [= <-]. split; [|by left]. rewrite list.Forall_cons. split; [lia|apply Forall_nil_2]. }
  intros (c & Hc & Hat)%bind_Some. rewrite Hc.
  destruct n as [s t b ch]. cbn [children branchSupport] in *.
  inversion_clear Hok as [? ? ? ? ? Hs He Ht Hb Hmx Hcmp Hst Hch].
  pose proof (Forall_lookup_1 _ _ _ _ Hch Hc) as Hcok. cbn in Hcok.
  destruct (IH false c Hcok Hat) as [H1 H2].
  assert (Hle : branchSupport c <= b).
  { assert (Hsum : branchSupport c <= sumOf branchSupport ch); [|lia].
    clear -Hch Hc. unfold sumOf. revert i Hc. induction ch as [|d ch IHc]; intros [|i] Hc; try done; cbn.
    - injection Hc as ->. apply list.Forall_cons in Hch as [_ H2].
      assert (0 <= foldr (fun (x : node L) acc => branchSupport x + acc) 0 ch); [|lia].
      clear -H2. induction H2 as [|c ch Hc _ IH]; cbn; [lia|]. apply nodeOk_bounds in Hc. lia.
    - apply list.Forall_cons in Hch as [H1 H2]. specialize (IHc H2 i Hc).
      apply nodeOk_bounds in H1. lia. }
  split; [|by right]. rewrite list.Forall_cons. split; [cbn; lia|].
  eapply Forall_impl; [exact H1|]. cbn. lia.
Qed.

Lemma updateAt_ext count f g p (n loc : node L) :
  nodeAt p n = Some loc -> f loc = g loc -> updateAt count f p n = updateAt count g p n.
Proof.
  intros Hat Hfg. revert n Hat. induction p as [|i p IH]; intros [s t b ch] Hat; cbn in *.
  { by injection Hat as ->. }
  apply bind_Some in Hat as (c & Hc & Hat). f_equal.
  apply list_alter_ext; [|done]. intros y Hy. rewrite Hc in Hy. injection Hy as <-. by apply IH.
Qed.

Lemma insertAt_span (l : L) d count n :
  d = send (spanOf n) -> spanOf (insertAt l d count n) = spanOf n.
Proof.
  intros ->. destruct n as [s t b ch]. unfold insertAt, insertHere, from, sub_. cbn [spanOf].
  rewrite (proj2 (Z.ltb_ge _ _)) by lia. destruct (before _ _); by case_match.
Qed.

Lemma updateAt_span count f p (n loc : node L) :
  nodeAt p n = Some loc -> (p = [] -> spanOf (f loc) = spanOf loc) ->
  spanOf (updateAt count f p n) = spanOf n.
Proof. destruct p, n; cbn; [|done]. intros [= <-] H. by apply H. Qed.

Lemma root_meets t (l : L) : trie_ok t -> meets l (spanOf (root t)) (diff (spanOf (root t)) l).
Proof.
  intros Ht. destruct (ok_genesis _ Ht) as (Hs & He & Hg). pose proof (seq_range l) as [Hl _].
  pose proof (seq_range (ledger (spanOf (root t)))) as [Hgr _].
  assert (Hd : diff (spanOf (root t)) l = 1).
  { unfold diff, clamp. rewrite Hs, He.
    destruct (mismatch_spec (ledger (spanOf (root t))) l) as [[-> _]|(Hm & _)]; [done|].
    unfold overlapLo in Hm. destruct (Z.ltb_spec (mismatch (ledger (spanOf (root t))) l) 0); [lia|].
    destruct (Z.ltb_spec 1 (mismatch (ledger (spanOf (root t))) l)); lia. }
  rewrite Hd. split; [lia|]. split; [lia|]. intros H1.
  assert (Hl0 : Seq l = 0) by lia. rewrite Hl0, <- Hg, ancestor_self. by apply one_genesis.
Qed.

(** Where an insertion lands, and that it can only fail for lack of room. *)
Lemma Insert_spec t (l : L) count :
  trie_ok t -> 0 < count ->
  exists path d loc, find t l = (path, d) /\ nodeAt path (root t) = Some loc /\
    nodeOk (flagAt true path) loc /\ meets l (spanOf loc) d /\
    (flagAt true path = true -> d = send (spanOf loc)) /\
    Insert t l count =
      if max_u32 - count <? branchSupport (root t) then None
      else seqSupportAdd (set_root t (updateAt count (insertAt l d count) path (root t))) (Seq l) count.
Proof.
  intros Ht Hc. pose proof (seq_range l) as [Hl0 Hl1].
  pose proof (findFrom_spec l (root t) true (diff (spanOf (root t)) l) (ok_root _ Ht) (root_meets t l Ht))
    as (loc & Hat & Hlok & Hmeet). fold (find t l) in Hat, Hlok, Hmeet.
  destruct (find t l) as [path d] eqn:Ef; cbn [fst snd] in *. exists path, d, loc.
  assert (Hflag : flagAt true path = true -> d = send (spanOf loc)).
  { destruct path; [|done]. intros _. cbn in Hat. injection Hat as <-.
    destruct (ok_genesis _ Ht) as (Hs & He & _). destruct Hmeet as (Hm & _). lia. }
  split_and!; [done..|].
  unfold Insert. destruct (Z.eqb_spec (Seq l) max_u32); [lia|]. destruct (Z.eqb_spec count 0); [lia|].
  rewrite Ef, Hat. cbn [mbind option_bind].
  destruct (nodeAt_bounds _ _ _ _ (ok_root _ Ht) Hat) as [Hall Hlin].
  pose proof (nodeOk_bounds _ _ Hlok) as Hlb.
  assert (Hsup : supportAt t (Seq l) <= branchSupport (root t)).
  { rewrite (ok_support _ Ht), (branch_is_sum _ _ (ok_root _ Ht)).
    apply (sumTips_le true (root t)); [apply Ht|]. intros tp. unfold bySeq. destruct (_ =? _); lia. }
  assert (Hex : existsb (fun n => max_u32 - count <? branchSupport n) (nodesOn path (root t)) =
                (max_u32 - count <? branchSupport (root t))).
  { destruct (Z.ltb_spec (max_u32 - count) (branchSupport (root t))) as [Hlt|Hge].
    - apply existsb_exists. exists (root t). split; [|by apply Z.ltb_lt].
      destruct path as [|i path]; cbn; by left.
    - apply not_true_iff_false. rewrite existsb_exists. intros (m & Hm & Hlt).
      apply list_elem_of_In in Hm. rewrite list.Forall_forall in Hall. specialize (Hall m Hm). lia. }
  rewrite Hex. destruct (Z.ltb_spec (max_u32 - count) (branchSupport (root t))) as [Hlt|Hge].
  { by destruct (_ && _ && _). }
  rewrite list.Forall_forall in Hall. specialize (Hall loc Hlin).
  destruct (Z.ltb_spec (max_u32 - count) (tipSupport loc)); [lia|]. rewrite andb_false_r.
  destruct (Z.ltb_spec (max_u32 - count) (supportAt t (Seq l))); [lia|].
  destruct Hmeet as (Hm & _).
  rewrite (bool_decide_eq_false_2 (before _ _ = None)) by (by rewrite before_eq by lia).
  rewrite andb_false_r. by rewrite (updateAt_ext _ _ (insertAt l d count) _ _ loc Hat).
Qed.

(** Insertion succeeds whenever the total support has room for it. *)
Lemma Insert_defined t (l : L) count :
  trie_ok t -> 0 < count -> branchSupport (root t) + count <= max_u32 ->
  is_Some (Insert t l count).
Proof.
  intros Ht Hc Hroom. destruct (Insert_spec t l count Ht Hc) as (p & d & loc & _ & _ & _ & _ & _ & ->).
  destruct (Z.ltb_spec (max_u32 - count) (branchSupport (root t))); [lia|].
  assert (supportAt t (Seq l) <= branchSupport (root t)).
  { rewrite (ok_support _ Ht), (branch_is_sum _ _ (ok_root _ Ht)).
    apply (sumTips_le true (root t)); [apply Ht|]. intros tp. unfold bySeq. destruct (_ =? _); lia. }
  unfold seqSupportAdd, set_root, supportAt in *. cbn [seqSupport].
  destruct (Z.ltb_spec (max_u32 - count) (default 0 (seqSupport t !! Seq l))); [lia|]. by eexists.
Qed.

Lemma Insert_ok t (l : L) count t' :
  trie_ok t -> 0 < count -> Insert t l count = Some t' ->
  trie_ok t' /\ (forall f, sumTips f (root t') = sumTips f (root t) + f (ledgerTip l) * count).
Proof.
  intros Ht Hc.
  destruct (Insert_spec t l count Ht Hc) as (p & d & loc & _ & Hat & Hlok & Hm & Hf & ->).
  destruct (Z.ltb_spec (max_u32 - count) (branchSupport (root t))) as [|Hroom]; [done|].
  intros Hadd. destruct (nodeAt_bounds _ _ _ _ (ok_root _ Ht) Hat) as [Hall Hin].
  assert (Hloc : branchSupport loc + count <= max_u32)
    by (rewrite list.Forall_forall in Hall; specialize (Hall loc Hin); lia).
  destruct (seqSupportAdd_ok (set_root t _) _ _ _ (ok_sorted _ Ht) (ok_keys _ Ht) (ok_values _ Ht) Hc Hadd)
    as (Hroot & Hsorted & Hkeys & Hvals & Hsup).
  destruct (updateAt_ok true p (root t) loc (insertAt l d count) count) as (H1 & H2 & H3);
    [apply Ht|done| |lia|by apply insertAt_ok|by apply (insertAt_branch l d count _ loc Hlok)
    |by apply (insertAt_start l d count _ loc Hlok Hm)|].
  { eapply Forall_impl; [exact Hall|]. cbn. lia. }
  assert (Hsum : forall f, sumTips f (root t') = sumTips f (root t) + f (ledgerTip l) * count).
  { intros f. rewrite Hroot. cbn [set_root root]. rewrite (updateAt_tips _ _ _ _ _ loc Hat).
    rewrite (insertAt_tips l d count (flagAt true p) loc) by done. lia. }
  split; [|done]. split; [by rewrite Hroot| | |done..].
  - rewrite Hroot. cbn [set_root root].
    rewrite (updateAt_span _ _ _ _ loc Hat); [apply Ht|]. intros Hp.
    apply insertAt_span. apply Hf. by rewrite Hp.
  - intros k. rewrite Hsup, Hsum. unfold supportAt. cbn [set_root seqSupport].
    fold (supportAt t k). rewrite (ok_support _ Ht). unfold bySeq, ledgerTip. cbn.
    destruct (_ =? _); lia.
Qed.

(** ** Remove *)

Lemma nodeOk_weaken r (n : node L) : nodeOk r n -> nodeOk true n.
Proof. intros []. by constructor. Qed.

Lemma nodeOk_strengthen r (n : node L) :
  nodeOk true n -> tipSupport n <> 0 \/ (2 <= length (children n))%nat -> nodeOk r n.
Proof. inversion_clear 1; cbn. intros. by constructor. Qed.

Lemma merge_eq (s : span L) t b g :
  nodeOk true (Node s t b [g]) ->
  mergeSpans s (spanOf g) = mkSpan (start s) (send (spanOf g)) (ledger (spanOf g)) /\
  0 <= start s < send s /\ start (spanOf g) = send s /\ nodeOk false g.
Proof.
  inversion_clear 1 as [? ? ? ? ? Hs He Ht Hb Hmx Hc Hst Hch].
  apply list.Forall_cons in Hst as [Hst _]. apply list.Forall_cons in Hch as [Hch _].
  assert (Hg : start (spanOf g) < send (spanOf g)) by (inversion Hch; subst; cbn in *; lia).
  split_and!; try done; try lia. unfold mergeSpans. rewrite (proj2 (Z.ltb_lt _ _)) by lia. f_equal. lia.
Qed.

(** The child that takes its parent's place keeps its weight and its support,
    and starts where the parent did. *)
Lemma merge_ok (s : span L) t b g :
  nodeOk true (Node s t b [g]) ->
  let child := Node (mergeSpans s (spanOf g)) (tipSupport g) (branchSupport g) (children g) in
  nodeOk false child /\ start (spanOf child) = start s /\
  branchSupport child = branchSupport g /\ forall f, sumTips f child = sumTips f g.
Proof.
  intros Hok. cbv zeta. destruct (merge_eq _ _ _ _ Hok) as (-> & Hs & Hst & Hg). destruct g as [gs gt gb gch].
  inversion_clear Hg as [? ? ? ? ? Hs' He' Ht' Hb' Hmx' Hc' Hst' Hch']. cbn [spanOf] in *.
  split; [|done]. constructor; cbn; try done. lia.
Qed.

Lemma insert_delete_perm (ch : list (node L)) i c c' :
  ch !! i = Some c -> <[i := c']> ch ≡ₚ c' :: delete i ch.
Proof.
  intros Hi. rewrite insert_take_drop by (by eapply lookup_lt_Some).
  by rewrite delete_take_drop, Permutation_middle.
Qed.

Lemma eraseChild_insert (ch e : list (node L)) i c c' :
  ch !! i = Some c -> eraseChild i (<[i := c']> ch ++ e) ≡ₚ e ++ delete i ch.
Proof.
  intros Hi. apply (Permutation_cons_inv (a := c')). rewrite <- eraseChild_perm.
  - rewrite (insert_delete_perm _ _ _ _ Hi); cbn. by rewrite (Permutation_app_comm e).
  - rewrite lookup_app_l by (rewrite length_insert; by eapply lookup_lt_Some).
    apply list_lookup_insert_eq. by eapply lookup_lt_Some.
Qed.

(** [n'] is [n] with [count] of the support of the tip [tp] taken out. *)
Definition taken (r : bool) (n n' : node L) (tp : SpanTip) (count : Z) : Prop :=
  nodeOk r n' /\ spanOf n' = spanOf n /\ branchSupport n' = branchSupport n - count /\
  forall f, sumTips f n' = sumTips f n - f tp * count.

Section RemoveChild.
Context (r : bool) (s : span L) (t b count : Z) (ch : list (node L)) (i : nat) (c c' : node L).
Context (tp : SpanTip) (Hok : nodeOk r (Node s t b ch)) (Hi : ch !! i = Some c).
Context (Hc' : taken true c c' tp count) (Hcount : 0 <= count).

Lemma wrap_branch : wrap 32 (b - count) = b - count.
Proof.
  destruct (nodeAt_bounds r [i] (Node s t b ch) c Hok) as [H1 H2].
  { cbn. by rewrite Hi. }
  rewrite list.Forall_forall in H1. specialize (H1 c H2). cbn in H1.
  pose proof (nodeOk_bounds _ _ Hok) as Hb. cbn in Hb.
  destruct Hc' as (Hw & _ & Hbr & _). pose proof (nodeOk_bounds _ _ Hw).
  apply wrap_small. unfold is_uint, max_u32 in *. lia.
Qed.

(** [ch'] has the nodes [e] in the place of the old child. *)
Lemma replaceChild r' (ch' e : list (node L)) :
  ch' ≡ₚ e ++ delete i ch ->
  Forall (nodeOk false) e -> Forall (fun d => start (spanOf d) = start (spanOf c')) e ->
  sumOf branchSupport e = branchSupport c' -> (forall f, sumOf (sumTips f) e = sumTips f c') ->
  (r' = false -> t <> 0 \/ (2 <= length ch')%nat) ->
  taken r' (Node s t b ch) (Node s t (wrap 32 (b - count)) ch') tp count.
Proof.
  intros Hch' He1 He2 He3 He4 Hr'. unfold taken. rewrite wrap_branch.
  destruct Hc' as (Hw & Hspan & Hbr & Htips). pose proof (delete_Permutation _ _ _ Hi) as Hd.
  split_and!; [|done|done|].
  2:{ intros f. rewrite !sumTips_unfold, (sumOf_perm _ _ _ Hch'), (sumOf_perm _ _ _ Hd).
      rewrite sumOf_app, sumOf_cons, He4, Htips. lia. }
  inversion_clear Hok as [? ? ? ? ? Hs He Ht Hb Hmx Hcmp Hst Hch].
  rewrite Hd in Hst, Hch. apply list.Forall_cons in Hst as [Hst1 Hst2].
  apply list.Forall_cons in Hch as [Hch1 Hch2]. rewrite Hspan in He2.
  constructor; [lia|lia|lia| |lia|done| |].
  - rewrite (sumOf_perm _ _ _ Hch'), sumOf_app, He3, Hb, (sumOf_perm _ _ _ Hd), sumOf_cons. lia.
  - rewrite Hch'. apply Forall_app. split; [|done]. eapply Forall_impl; [exact He2|]. cbn. lia.
  - rewrite Hch'. by apply Forall_app.
Qed.

Lemma keepChild :
  nodeOk false c' ->
  taken (r || false) (Node s t b ch) (Node s t (wrap 32 (b - count)) (<[i := c']> ch)) tp count.
Proof.
  intros Hf. rewrite orb_false_r. apply (replaceChild r _ [c']).
  - by apply insert_delete_perm with c.
  - by apply Forall_singleton.
  - by apply Forall_singleton.
  - apply Z.add_0_r.
  - intros f. apply Z.add_0_r.
  - rewrite length_insert. by inversion_clear Hok.
Qed.

Lemma dropChild r' :
  branchSupport c' = 0 -> (forall f, sumTips f c' = 0) ->
  taken (r' || true) (Node s t b ch) (Node s t (wrap 32 (b - count)) (eraseChild i (<[i := c']> ch))) tp count.
Proof.
  intros Hb Hf. rewrite orb_true_r. apply (replaceChild true _ []); try done.
  rewrite <- (app_nil_r (<[i := c']> ch)). by apply eraseChild_insert with c.
Qed.

Lemma liftChild r' g :
  nodeOk false g -> start (spanOf g) = start (spanOf c') -> branchSupport g = branchSupport c' ->
  (forall f, sumTips f g = sumTips f c') ->
  taken (r' || true) (Node s t b ch)
    (Node s t (wrap 32 (b - count)) (eraseChild i (<[i := c']> ch ++ [g]))) tp count.
Proof.
  intros Hg Hs Hb Hf. rewrite orb_true_r. apply (replaceChild true _ [g]).
  - by apply eraseChild_insert with c.
  - by apply Forall_singleton.
  - by apply Forall_singleton.
  - rewrite <- Hb. apply Z.add_0_r.
  - intros f. rewrite <- Hf. apply Z.add_0_r.
  - done.
Qed.

End RemoveChild.

Lemma removeAt_ok r count p n loc :
  nodeOk r n -> nodeAt p n = Some loc -> 0 <= count <= tipSupport loc ->
  let '(n', up) := removeAt count p n in taken (r || up) n n' (tip (spanOf loc)) count.
Proof.
  revert r n. induction p as [|i p IH]; intros r [s t b ch] Hok Hat Hcount; cbn [removeAt].
  { injection Hat as <-. pose proof (nodeOk_bounds _ _ Hok) as Hbd.
    inversion_clear Hok as [? ? ? ? ? Hs He Ht Hb Hmx Hcmp Hst Hch].
    cbn [tipSupport branchSupport spanOf] in *. unfold taken.
    rewrite !wrap_small by (unfold is_uint, max_u32 in *; lia). rewrite orb_true_r.
    split_and!; [constructor; try done; lia|done|done|]. intros f. rewrite !sumTips_unfold. lia. }
  apply bind_Some in Hat as (c & Hc & Hat). cbn [children] in Hc. rewrite Hc.
  assert (Hcok : nodeOk false c).
  { inversion_clear Hok. by eapply (Forall_lookup_1 (nodeOk false)). }
  specialize (IH false c Hcok Hat Hcount). destruct (removeAt count p c) as [c' up].
  assert (Hw : taken true c c' (tip (spanOf loc)) count).
  { destruct IH as [IH1 IH2]. split; [by eapply nodeOk_weaken|done]. }
  destruct Hcount as [H0 _]. destruct IH as [IH _].
  destruct up; cbn [andb orb] in *; [|by eapply keepChild].
  destruct (Z.eqb_spec (tipSupport c') 0) as [Ht0|Hne];
    [|eapply keepChild; [done..|apply nodeOk_strengthen; [done|by left]]].
  destruct c' as [cs ct cb [|g [|g2 rest]]]; cbn [children tipSupport spanOf] in *; subst ct.
  - eapply dropChild; [done..| |]; inversion_clear IH as [? ? ? ? ? ? ? ? Hb].
    + by rewrite Hb.
    + intros f. rewrite sumTips_unfold. unfold sumOf; cbn. lia.
  - pose proof (merge_ok _ _ _ _ IH) as (M1 & M2 & M3 & M4). destruct g as [gs gt gb gch].
    eapply liftChild; [done..| |].
    + inversion_clear IH as [? ? ? ? ? ? ? ? Hb]. cbn [branchSupport]. rewrite Hb. unfold sumOf; cbn. lia.
    + intros f. etransitivity; [apply M4|]. rewrite (sumTips_unfold f cs), sumOf_cons. unfold sumOf; cbn. lia.
  - destruct g. eapply keepChild; [done..|]. apply nodeOk_strengthen; [done|right; cbn; lia].
Qed.

Lemma searchKey_delete keys seq :
  StronglySorted Z.lt keys -> seq ∈ keys ->
  let idx := searchKey keys seq in
  keys !! idx = Some seq /\ StronglySorted Z.lt (take idx keys ++ drop (S idx) keys) /\
  forall k, k ∈ take idx keys ++ drop (S idx) keys <-> k <> seq /\ k ∈ keys.
Proof.
  intros Hs Hin. cbv zeta. induction Hs as [|k keys Hs IH Hk]; cbn [searchKey]; [by apply not_elem_of_nil in Hin|].
  rewrite list.Forall_forall in Hk. apply elem_of_cons in Hin.
  destruct (Z.ltb_spec k seq) as [Hlt|Hge].
  - destruct Hin as [->|Hin]; [lia|]. destruct (IH Hin) as (H1 & H2 & H3).
    split; [done|]. cbn [take drop app]. split.
    + constructor; [done|]. apply list.Forall_forall. intros j [_ Hj]%H3. by apply Hk.
    + intros j. rewrite !elem_of_cons, H3. intuition lia.
  - assert (seq = k) as ->. { destruct Hin as [->|Hin]; [done|]. specialize (Hk seq Hin). lia. }
    cbn. rewrite drop_0. split_and!; [done..|]. intros j. rewrite elem_of_cons. split.
    + intros Hj. specialize (Hk j Hj). split; [lia|by right].
    + intros [Hne [->|Hj]]; done.
Qed.

Lemma seqSupportSub_ok (t : Trie L) seq delta :
  StronglySorted Z.lt (seqKeys t) -> (forall k, k ∈ seqKeys t <-> is_Some (seqSupport t !! k)) ->
  (forall k v, seqSupport t !! k = Some v -> 0 < v <= max_u32) -> 0 <= delta ->
  is_Some (seqSupport t !! seq) -> delta <= supportAt t seq ->
  exists t', seqSupportSub t seq delta = Some t' /\ root t' = root t /\
  StronglySorted Z.lt (seqKeys t') /\
  (forall k, k ∈ seqKeys t' <-> is_Some (seqSupport t' !! k)) /\
  (forall k v, seqSupport t' !! k = Some v -> 0 < v <= max_u32) /\
  (forall k, supportAt t' k = supportAt t k - (if seq =? k then delta else 0)).
Proof.
  intros Hs Hk Hv Hd [cur Hcur] Hle. unfold seqSupportSub. unfold supportAt in Hle.
  rewrite Hcur in *. cbn in Hle. destruct (Z.ltb_spec cur delta); [lia|].
  destruct (Z.eqb_spec (cur - delta) 0) as [H0|Hne]; eexists; (split; [done|]); cbn [root seqKeys seqSupport].
  - destruct (searchKey_delete (seqKeys t) seq Hs) as (H1 & H2 & H3); [apply Hk; by eexists|].
    rewrite bool_decide_eq_true_2 by done. split_and!; [done..| | |].
    + intros k. rewrite H3, Hk. destruct (decide (k = seq)) as [->|].
      * rewrite lookup_delete_eq. split; [by intros []|by intros [? ?]].
      * rewrite lookup_delete_ne by done. naive_solver.
    + intros k v [_ Hl]%lookup_delete_Some. by apply (Hv k).
    + intros k. unfold supportAt; cbn. destruct (Z.eqb_spec seq k) as [->|].
      * rewrite lookup_delete_eq, Hcur. cbn. lia.
      * rewrite lookup_delete_ne by done. lia.
  - split_and!; [done..| | |].
    + intros k. rewrite Hk. destruct (decide (k = seq)) as [->|].
      * rewrite lookup_insert_eq, Hcur. split; by eexists.
      * by rewrite lookup_insert_ne by done.
    + intros k v [[<- <-]|[_ Hl]]%lookup_insert_Some; [|by apply (Hv k)].
      specialize (Hv _ _ Hcur). lia.
    + intros k. unfold supportAt; cbn. destruct (Z.eqb_spec seq k) as [->|].
      * rewrite lookup_insert_eq, Hcur. cbn. lia.
      * rewrite lookup_insert_ne by done. lia.
Qed.

Fixpoint subtree (n : node L) : list (node L) := n :: (children n ≫= subtree).

Lemma subtree_unfold (n : node L) : subtree n = n :: (children n ≫= subtree).
Proof. by destruct n. Qed.

Lemma findByIDWalk_spec id (n : node L) :
  match findByIDWalk id n with
  | Some p => exists loc, nodeAt p n = Some loc /\ TipID (tip (spanOf loc)) = id
  | None => Forall (fun m => TipID (tip (spanOf m)) <> id) (subtree n)
  end.
Proof.
  induction n as [s t b ch IH] using node_nested_ind. rewrite subtree_unfold.
  cbn [findByIDWalk children]. case_bool_decide as Hid; [by exists (Node s t b ch)|].
  match goal with |- context [?f 0%nat ch] => set (go := f) end.
  assert (Hgo : forall cs i, Forall (fun c => match findByIDWalk id c with
      | Some p => exists loc, nodeAt p c = Some loc /\ TipID (tip (spanOf loc)) = id
      | None => Forall (fun m => TipID (tip (spanOf m)) <> id) (subtree c) end) cs ->
    (forall j c, cs !! j = Some c -> ch !! (i + j)%nat = Some c) ->
    match go i cs with
    | Some p => exists loc, nodeAt p (Node s t b ch) = Some loc /\ TipID (tip (spanOf loc)) = id
    | None => Forall (fun m => TipID (tip (spanOf m)) <> id) (cs ≫= subtree)
    end).
  { induction cs as [|c cs IHc]; intros i Hall Hj; cbn [go]; [apply Forall_nil_2|].
    apply list.Forall_cons in Hall as [H1 H2].
    destruct (findByIDWalk id c) as [p|] eqn:Ec.
    - destruct H1 as (loc & Hat & Hid'). exists loc. split; [|done].
      rewrite (nodeAt_cons _ _ _ c); [done|]. specialize (Hj 0%nat c eq_refl). by rewrite Nat.add_0_r in Hj.
    - specialize (IHc (S i) H2). fold go in IHc. fold go.
      assert (Hs : forall j c0, cs !! j = Some c0 -> ch !! (S i + j)%nat = Some c0).
      { intros j c0 Hc0. specialize (Hj (S j) c0 Hc0). by rewrite Nat.add_succ_r in Hj. }
      specialize (IHc Hs). destruct (go (S i) cs); [done|]. cbn [mbind list_bind]. by apply Forall_app. }
  specialize (Hgo ch 0%nat IH). destruct (go 0%nat ch); [by apply Hgo|].
  apply list.Forall_cons. split; [done|]. by apply Hgo.
Qed.

Lemma nodeAt_ok r p (n loc : node L) :
  nodeOk r n -> nodeAt p n = Some loc -> nodeOk (flagAt r p) loc.
Proof.
  revert r n. induction p as [|i p IH]; intros r [s t b ch] Hok; cbn [nodeAt children].
  { by intros [= <-]. }
  intros (c & Hc & Hat)%bind_Some. inversion_clear Hok as [? ? ? ? ? ? ? ? ? ? ? ? Hch].
  pose proof (Forall_lookup_1 _ _ _ _ Hch Hc) as Hcok. specialize (IH false c Hcok Hat).
  by destruct p.
Qed.

(** A located tip is part of the whole weight. *)
Lemma nodeAt_weight r p (n loc : node L) f :
  nodeOk r n -> nodeAt p n = Some loc -> (forall tp, 0 <= f tp) ->
  f (tip (spanOf loc)) * tipSupport loc <= sumTips f n.
Proof.
  intros Hok Hat Hf. pose proof (nodeOk_bounds _ _ (nodeAt_ok _ _ _ _ Hok Hat)) as Hb.
  pose proof (removeAt_ok r (tipSupport loc) p n loc Hok Hat ltac:(lia)) as Hr.
  destruct (removeAt _ p n) as [n' up]. destruct Hr as (Hok' & _ & _ & Hw).
  pose proof (sumTips_le _ n' f f Hok' (fun tp => conj (Hf tp) (Z.le_refl _))). rewrite Hw in *. lia.
Qed.

(** Remove takes out what the tip has, as long as the tip it finds carries the
    ledger's sequence. *)
Lemma Remove_spec t (l : L) count :
  trie_ok t -> 0 <= count ->
  (forall p loc, findByLedgerID t l = Some p -> nodeAt p (root t) = Some loc ->
     tipSupport loc <> 0 -> send (spanOf loc) - 1 = Seq l) ->
  let n := Z.min count (TipSupport t l) in
  exists t', Remove t l count = Some (t', negb (TipSupport t l =? 0)) /\ trie_ok t' /\
    forall f, sumTips f (root t') = sumTips f (root t) - f (ledgerTip l) * n.
Proof.
  intros Ht Hc Hseq. cbv zeta. unfold Remove, TipSupport.
  pose proof (findByIDWalk_spec (ID l) (root t)) as Hfind. fold (findByLedgerID t l) in Hfind.
  destruct (findByLedgerID t l) as [p|].
  2:{ exists t. split_and!; [done|done|]. intros f. lia. }
  destruct Hfind as (loc & Hat & Hid). rewrite Hat. cbn [mbind option_bind].
  destruct (Z.eqb_spec (tipSupport loc) 0) as [H0|Hne].
  { exists t. rewrite H0. split_and!; [done|done|]. intros f. lia. }
  specialize (Hseq p loc eq_refl Hat Hne).
  pose proof (nodeOk_bounds _ _ (nodeAt_ok _ _ _ _ (ok_root _ Ht) Hat)) as Hb.
  assert (Hn : (if tipSupport loc <? count then tipSupport loc else count) = Z.min count (tipSupport loc))
    by (destruct (Z.ltb_spec (tipSupport loc) count); lia).
  rewrite Hn. set (n := Z.min _ _) in *.
  assert (Htip : tip (spanOf loc) = ledgerTip l).
  { unfold tip, ledgerTip in *. cbn in Hid. by rewrite Hseq in *; rewrite Hid. }
  rewrite (proj2 (Z.eqb_eq (Seq l) _)) by lia. cbn [negb].
  assert (Hsup : tipSupport loc <= supportAt t (Seq l)).
  { rewrite (ok_support _ Ht). pose proof (nodeAt_weight true p (root t) loc (bySeq (Seq l)) (ok_root _ Ht) Hat) as H.
    rewrite Htip in H. unfold bySeq, ledgerTip in H. cbn in H. rewrite Z.eqb_refl in H.
    etransitivity; [|apply H]; [lia|]. intros tp. destruct (_ =? _); lia. }
  assert (Hsome : is_Some (seqSupport t !! Seq l)).
  { unfold supportAt in Hsup. destruct (seqSupport t !! Seq l); [by eexists|cbn in Hsup; lia]. }
  destruct (seqSupportSub_ok t (Seq l) n (ok_sorted _ Ht) (ok_keys _ Ht) (ok_values _ Ht))
    as (t1 & Hsub & Hroot & Hsorted & Hkeys & Hvals & Hs1); [lia|done|lia|].
  pose proof (removeAt_ok true n p (root t) loc (ok_root _ Ht) Hat ltac:(lia)) as Hrm.
  destruct (removeAt n p (root t)) as [r' up] eqn:Er. destruct Hrm as (R1 & R2 & R3 & R4).
  exists (set_root t1 r'). rewrite Htip in R4. split_and!; [| |done].
  - unfold supportAt in Hsup. destruct (seqSupport t !! Seq l) as [v|]; [|by destruct Hsome].
    cbn in Hsup. rewrite (proj2 (Z.ltb_ge v n)) by lia. rewrite Hsub. done.
  - split; [done|cbn [set_root root]; by rewrite R2; apply Ht| |done..].
    intros k. unfold supportAt in *. cbn [set_root seqSupport root]. rewrite Hs1, R4.
    pose proof (ok_support _ Ht k) as Hk. unfold supportAt in Hk. rewrite Hk.
    unfold bySeq, ledgerTip; cbn. destruct (_ =? _); lia.
Qed.

(** ** Self-check *)

Definition entryAt (k : Z) (e : Z * Z) : Z := if e.1 =? k then e.2 else 0.

Lemma sumOf_bind {A B} (f : B -> Z) (g : A -> list B) l : sumOf f (l ≫= g) = sumOf (fun y => sumOf f (g y)) l.
Proof. induction l as [|y l IH]; [done|]. cbn [mbind list_bind]. by rewrite sumOf_app, sumOf_cons, <- IH. Qed.

Lemma tipsBySeq_ok r (n : node L) :
  nodeOk r n -> Forall (fun e => 0 < e.2) (tipsBySeq n) /\
  forall k, sumOf (entryAt k) (tipsBySeq n) = sumTips (bySeq k) n.
Proof.
  revert r. induction n as [s t b ch IH] using node_nested_ind. intros r Hok.
  inversion_clear Hok as [? ? ? ? ? Hs He Ht Hb Hmx Hc Hst Hch]. cbn [tipsBySeq].
  rewrite list.Forall_forall in IH, Hch. split.
  - apply Forall_app. split.
    + destruct (Z.eqb_spec t 0); cbn [negb]; [apply Forall_nil_2|]. apply Forall_singleton. cbn; lia.
    + apply list.Forall_forall. intros e (c & He' & Hin)%list_elem_of_bind.
      destruct (IH c Hin false (Hch c Hin)) as [H1 _]. rewrite list.Forall_forall in H1. by apply H1.
  - intros k. rewrite sumOf_app, sumOf_bind, sumTips_unfold. f_equal.
    + unfold bySeq, entryAt, tip. cbn. destruct (Z.eqb_spec t 0) as [->|]; cbn; [lia|].
      unfold sumOf; cbn. destruct (_ =? _); lia.
    + apply sumOf_ext. intros c Hin. by destruct (IH c Hin false (Hch c Hin)) as [_ ->].
Qed.

Lemma sumBySeq_lookup l k :
  Forall (fun e => 0 < e.2) l ->
  sumBySeq l !! k = (if sumOf (entryAt k) l =? 0 then None else Some (sumOf (entryAt k) l)) /\
  0 <= sumOf (entryAt k) l.
Proof.
  unfold sumBySeq. induction l as [|e l IH] using rev_ind; [done|].
  intros [Hl He]%Forall_app. apply list.Forall_cons in He as [He _]. destruct (IH Hl) as [IH1 IH2].
  rewrite foldl_app, sumOf_app. cbn [foldl]. set (m := foldl _ ∅ l) in *. clearbody m.
  rewrite (sumOf_cons _ e []), (Z.add_0_r (entryAt k e) : _ + sumOf _ [] = _).
  set (x := sumOf (entryAt k) l) in *. clearbody x. destruct e as [k' v]. unfold entryAt. simpl in He. cbn [fst snd].
  destruct (Z.eqb_spec k' k) as [->|Hne].
  - rewrite lookup_insert_eq, IH1, (proj2 (Z.eqb_neq (x + v) 0)) by lia.
    destruct (Z.eqb_spec x 0) as [Hx|Hx]; cbn [default from_option id]; (split; [f_equal; lia|lia]).
  - rewrite lookup_insert_ne by done. by rewrite !Z.add_0_r.
Qed.

Lemma subtreeCheck_ok r (n : node L) : nodeOk r n -> subtreeCheck r n = true.
Proof.
  revert r. induction n as [s t b ch IH] using node_nested_ind. intros r Hok.
  pose proof (nodeOk_bounds _ _ Hok) as Hbd. cbn in Hbd.
  inversion_clear Hok as [? ? ? ? ? Hs He Ht Hb Hmx Hc Hst Hch]. cbn [subtreeCheck nodeCheck children].
  assert (Hf : foldl (fun u c => u + branchSupport c) t ch = b).
  { rewrite Hb. clear. revert t. induction ch as [|c ch IH]; intros t; cbn [foldl].
    - unfold sumOf; cbn; lia.
    - rewrite IH, sumOf_cons. lia. }
  rewrite Hf, Z.eqb_refl, (proj2 (Z.ltb_ge _ _)) by lia. rewrite (proj2 (Z.leb_gt _ _)) by lia.
  cbn [negb orb andb]. rewrite andb_true_r. apply andb_true_intro. split.
  - destruct r; cbn [negb andb]; [done|]. destruct (Hc eq_refl) as [H|H].
    + by rewrite (proj2 (Z.eqb_neq _ _) H).
    + rewrite (proj2 (Nat.ltb_ge _ _)) by lia. by rewrite andb_false_r.
  - apply forallb_forall. intros c Hin%list_elem_of_In. rewrite list.Forall_forall in IH, Hch. by apply IH, Hch.
Qed.

Lemma strictlySorted_ok l : StronglySorted Z.lt l -> strictlySorted l = true.
Proof.
  induction 1 as [|k [|j l] Hs IH Hk]; cbn; [done..|]. apply list.Forall_cons in Hk as [Hk _].
  rewrite (proj2 (Z.ltb_lt _ _)) by done. by apply IH.
Qed.

Lemma sorted_NoDup l : StronglySorted Z.lt l -> NoDup l.
Proof.
  induction 1 as [|k l Hs IH Hk]; constructor; [|done].
  intros Hin. rewrite list.Forall_forall in Hk. specialize (Hk k Hin). lia.
Qed.

Lemma expected_is_support t : trie_ok t -> sumBySeq (tipsBySeq (root t)) = seqSupport t.
Proof.
  intros Ht. destruct (tipsBySeq_ok _ _ (ok_root _ Ht)) as [Hpos Hsum]. apply map_eq. intros k.
  destruct (sumBySeq_lookup _ k Hpos) as [-> _]. rewrite Hsum, <- (ok_support _ Ht).
  unfold supportAt. destruct (seqSupport t !! k) as [v|] eqn:E; cbn; [|done].
  apply (ok_values _ Ht) in E. by rewrite (proj2 (Z.eqb_neq _ _)) by lia.
Qed.

Lemma CheckInvariants_holds t : trie_ok t -> CheckInvariants t = true.
Proof.
  intros Ht. unfold CheckInvariants. rewrite (expected_is_support t Ht), Nat.eqb_refl, (subtreeCheck_ok _ _ (ok_root _ Ht)).
  rewrite (strictlySorted_ok _ (ok_sorted _ Ht)), !andb_true_r.
  assert (Hlen : length (seqKeys t) = size (seqSupport t)).
  { rewrite <- size_dom. assert (Hd : dom (seqSupport t) = list_to_set (seqKeys t)).
    { apply set_eq. intros k. by rewrite elem_of_list_to_set, (ok_keys _ Ht), elem_of_dom. }
    rewrite Hd, size_list_to_set; [done|]. apply sorted_NoDup. apply Ht. }
  rewrite Hlen, Nat.eqb_refl. cbn [andb]. repeat (apply andb_true_intro; split).
  - apply forallb_forall. intros k Hk%list_elem_of_In. apply (ok_keys _ Ht) in Hk as [v Hv].
    rewrite Hv. apply (ok_values _ Ht) in Hv. by rewrite (proj2 (Z.eqb_neq _ _)) by lia.
  - apply forallb_forall. intros [k v] Hin%list_elem_of_In%elem_of_map_to_list.
    apply (ok_values _ Ht) in Hin. cbn. lia.
  - apply forallb_forall. intros [k v] Hin%list_elem_of_In%elem_of_map_to_list.
    unfold supportAt. cbn. rewrite Hin. apply Z.eqb_refl.
Qed.

(** ** Ranking the children *)

Lemma swap_perm i j (ch : list (node L)) : swap i j ch ≡ₚ ch.
Proof.
  unfold swap. destruct (ch !! i) as [y|] eqn:Ei; [|done]. destruct (ch !! j) as [z|] eqn:Ej; [|done].
  destruct (decide (i = j)) as [->|Hne].
  { rewrite Ei in Ej. injection Ej as ->. rewrite list_insert_insert_eq, list_insert_id by done. done. }
  assert (Hj : <[i := z]> ch !! j = Some z) by (by rewrite list_lookup_insert_ne).
  rewrite (insert_delete_perm _ _ _ _ Hj). transitivity (y :: delete i ch); [|by rewrite <- delete_Permutation].
  constructor.
  apply (Permutation_cons_inv (a := z)). rewrite <- (delete_Permutation _ _ _ Hj).
  by apply insert_delete_perm with y.
Qed.

Lemma swap_lookup i j (ch : list (node L)) y z :
  ch !! i = Some y -> ch !! j = Some z -> swap i j ch !! i = Some z /\ swap i j ch !! j = Some y /\
  forall k, k <> i -> k <> j -> swap i j ch !! k = ch !! k.
Proof.
  intros Hi Hj. unfold swap. rewrite Hi, Hj. pose proof (lookup_lt_Some _ _ _ Hi). pose proof (lookup_lt_Some _ _ _ Hj).
  split_and!.
  - destruct (decide (i = j)) as [->|]; [|rewrite list_lookup_insert_ne by done; by apply list_lookup_insert_eq].
    rewrite Hi in Hj. rewrite list_lookup_insert_eq by (by rewrite length_insert). done.
  - by rewrite list_lookup_insert_eq by (by rewrite length_insert).
  - intros k Hki Hkj. by rewrite !list_lookup_insert_ne by done.
Qed.

(** [b] and [s] are two children among the first [i], and [b] is the heaviest
    child if it has been seen. *)
Definition ranked (ch : list (node L)) (top : nat) (i b s : nat) : Prop :=
  b <> s /\ (b < i)%nat /\ (s < i)%nat /\ ((top < i)%nat -> b = top).

Lemma rankLoop_spec (ch rest : list (node L)) top c i b s :
  ch !! top = Some c -> (forall k d, k <> top -> ch !! k = Some d -> branchSupport d < branchSupport c) ->
  rest = drop i ch -> (i <= length ch)%nat -> ranked ch top i b s ->
  ranked ch top (length ch) (rankLoop ch rest i b s).1 (rankLoop ch rest i b s).2.
Proof.
  intros Htop Hmax. revert i b s. induction rest as [|d rest IH]; intros i b s Hr Hi (H1 & H2 & H3 & H4).
  { cbn. assert (length ch = i) as ->; [|done]. apply (f_equal length) in Hr. rewrite length_drop in Hr. cbn in Hr. lia. }
  assert (Hd : ch !! i = Some d).
  { rewrite <- (Nat.add_0_r i), <- lookup_drop, <- Hr. done. }
  assert (Hrest : rest = drop (S i) ch).
  { rewrite (drop_S _ _ _ Hd) in Hr. by injection Hr. }
  pose proof (lookup_lt_Some _ _ _ Hd) as Hil. cbn [rankLoop].
  destruct (lookup_lt_is_Some_2 ch b ltac:(lia)) as [nb Hb]. rewrite Hb.
  destruct (lookup_lt_is_Some_2 ch s ltac:(lia)) as [ns Hs]. rewrite Hs.
  assert (Hwin : nodeOutranks d nb = true -> (top < S i)%nat -> i = top).
  { intros Ho Ht. destruct (decide (i = top)) as [|Hne]; [done|]. assert (b = top) as -> by (apply H4; lia).
    rewrite Htop in Hb. injection Hb as <-. pose proof (Hmax i d Hne Hd). unfold nodeOutranks in Ho.
    rewrite (proj2 (Z.eqb_neq _ _)) in Ho by lia. cbn in Ho. lia. }
  assert (Hlose : nodeOutranks d nb = false -> (top < S i)%nat -> b = top).
  { intros Ho Ht. destruct (decide (top = i)) as [->|]; [|apply H4; lia]. exfalso.
    rewrite Htop in Hd. injection Hd as <-. pose proof (Hmax b nb ltac:(lia) Hb). unfold nodeOutranks in Ho.
    rewrite (proj2 (Z.eqb_neq _ _)) in Ho by lia. cbn in Ho. lia. }
  destruct (nodeOutranks d nb) eqn:E; [|destruct (nodeOutranks d ns)]; (apply IH; [done|lia|]);
    split_and!; try lia; auto.
Qed.

Lemma rankChildren_perm (ch : list (node L)) : (rankChildren ch).1 ≡ₚ ch.
Proof.
  unfold rankChildren. destruct ch as [|c0 [|c1 rest]]; [done..|].
  destruct (if nodeOutranks c1 c0 then _ else _) as [b0 s0].
  destruct (rankLoop _ rest 2 b0 s0) as [b s1]. cbv zeta. set (ch := c0 :: c1 :: rest).
  assert (Hp : swap 1 (if (s1 =? 0)%nat then b else s1) (if (b =? 0)%nat then ch else swap 0 b ch) ≡ₚ ch).
  { rewrite swap_perm. destruct (b =? 0)%nat; [done|apply swap_perm]. }
  destruct (swap _ _ _) as [|y [|z l]]; cbn; done.
Qed.

Lemma swap_length i j (ch : list (node L)) : length (swap i j ch) = length ch.
Proof. by rewrite (swap_perm i j ch). Qed.

(** Bringing the two ranked children to the front. *)
Lemma swap_front (ch : list (node L)) b s c :
  ch !! b = Some c -> b <> s -> (s < length ch)%nat -> (2 <= length ch)%nat ->
  let ch1 := if (b =? 0)%nat then ch else swap 0 b ch in
  exists second l, swap 1 (if (s =? 0)%nat then b else s) ch1 = c :: second :: l.
Proof.
  intros Hb Hne Hs Hlen. cbv zeta. pose proof (lookup_lt_Some _ _ _ Hb) as Hbl.
  set (ch1 := if (b =? 0)%nat then ch else swap 0 b ch). set (pos := if (s =? 0)%nat then b else s).
  assert (Hlen1 : length ch1 = length ch) by (unfold ch1; destruct (b =? 0)%nat; [done|apply swap_length]).
  assert (H0 : ch1 !! 0%nat = Some c).
  { unfold ch1. destruct (Nat.eqb_spec b 0) as [->|]; [done|].
    destruct (lookup_lt_is_Some_2 ch 0%nat ltac:(lia)) as [y Hy]. by apply (swap_lookup 0 b ch y c). }
  assert (Hpos : pos <> 0%nat /\ (pos < length ch)%nat).
  { unfold pos. destruct (Nat.eqb_spec s 0) as [->|]; lia. }
  destruct (lookup_lt_is_Some_2 ch1 1%nat ltac:(lia)) as [y Hy].
  destruct (lookup_lt_is_Some_2 ch1 pos ltac:(lia)) as [z Hz].
  destruct (swap_lookup 1 pos ch1 y z Hy Hz) as (S1 & _ & S2). specialize (S2 0%nat ltac:(lia) ltac:(lia)).
  rewrite H0 in S2. destruct (swap 1 pos ch1) as [|d [|e l]]; [done..|]. injection S2 as ->. by exists e, l.
Qed.

(** A child heavier than each of the others is ranked first, with at least the
    margin it has over all of them together. *)
Lemma rankChildren_top (ch : list (node L)) top c :
  ch !! top = Some c -> (forall k d, k <> top -> ch !! k = Some d -> branchSupport d < branchSupport c) ->
  Forall (fun d => 0 <= branchSupport d <= max_u32) ch ->
  exists rest, (rankChildren ch).1 = c :: rest /\ 2 * branchSupport c - sumOf branchSupport ch <= (rankChildren ch).2.
Proof.
  intros Htop Hmax Hb. pose proof (rankChildren_perm ch) as Hperm. pose proof (sumOf_perm branchSupport _ _ Hperm) as Hsum.
  unfold rankChildren in *. destruct ch as [|c0 [|c1 rest]]; [done| |].
  { destruct top as [|top]; [|done]. injection Htop as ->. exists []. cbn. unfold sumOf; cbn. split; [done|lia]. }
  set (ch := c0 :: c1 :: rest) in *.
  assert (Hinit : ranked ch top 2 (if nodeOutranks c1 c0 then (1%nat, 0%nat) else (0%nat, 1%nat)).1
                                  (if nodeOutranks c1 c0 then (1%nat, 0%nat) else (0%nat, 1%nat)).2).
  { unfold nodeOutranks. destruct top as [|[|top]].
    - injection Htop as <-. pose proof (Hmax 1%nat c1 ltac:(lia) eq_refl).
      rewrite (proj2 (Z.eqb_neq _ _)), (proj2 (Z.ltb_ge _ _)) by lia. cbn. split_and!; lia.
    - injection Htop as <-. pose proof (Hmax 0%nat c0 ltac:(lia) eq_refl).
      rewrite (proj2 (Z.eqb_neq _ _)), (proj2 (Z.ltb_lt _ _)) by lia. cbn. split_and!; lia.
    - destruct (if negb _ then _ else _); cbn; split_and!; lia. }
  destruct (if nodeOutranks c1 c0 then _ else _) as [b0 s0]. cbn [fst snd] in Hinit.
  pose proof (rankLoop_spec ch rest top c 2 b0 s0 Htop Hmax eq_refl ltac:(cbn; lia) Hinit) as (R1 & R2 & R3 & R4).
  destruct (rankLoop ch rest 2 b0 s0) as [b s1]. cbn [fst snd] in *. cbv zeta in *.
  specialize (R4 (lookup_lt_Some _ _ _ Htop)). subst b.
  destruct (swap_front ch top s1 c Htop R1 R3 ltac:(cbn; lia)) as (second & l & Hf). rewrite Hf in *.
  exists (second :: l). split; [done|]. cbn [fst snd] in *. rewrite <- Hsum, !sumOf_cons.
  assert (Hbd : forall d, d ∈ ch -> 0 <= branchSupport d <= branchSupport c /\ branchSupport d <= max_u32).
  { intros d Hd. rewrite list.Forall_forall in Hb. specialize (Hb d Hd). apply list_elem_of_lookup in Hd as [k Hk].
    destruct (decide (k = top)) as [->|Hne]; [rewrite Htop in Hk; injection Hk as <-; lia|].
    specialize (Hmax k d Hne Hk). lia. }
  assert (Hl : 0 <= sumOf branchSupport l).
  { assert (Hin : Forall (fun d => 0 <= branchSupport d) l).
    { apply list.Forall_forall. intros d Hd. apply Hbd. rewrite <- Hperm. by right; right. }
    clear -Hin. induction Hin as [|d l Hd _ IH]; [done|]. rewrite sumOf_cons. lia. }
  assert (Hsec : second ∈ ch) by (rewrite <- Hperm; right; left).
  assert (Hcin : c ∈ ch) by (by eapply list_elem_of_lookup_2).
  pose proof (Hbd second Hsec). pose proof (Hbd c Hcin). unfold max_u32 in *.
  rewrite (wrap_small 64 (branchSupport c - branchSupport second)) by (unfold is_uint; lia).
  destruct (ledgerIDGreater _ _); [rewrite wrap_small by (unfold is_uint; lia)|]; lia.
Qed.

(** ** The preferred ledger *)

(** The search reorders children along one path and changes nothing else. *)
Inductive reordered : node L -> node L -> Prop :=
  | Reordered_perm s t b ch ch' : ch ≡ₚ ch' -> reordered (Node s t b ch) (Node s t b ch')
  | Reordered_down s t b c c' rest :
      reordered c c' -> reordered (Node s t b (c :: rest)) (Node s t b (c' :: rest))
  | Reordered_trans n1 n2 n3 : reordered n1 n2 -> reordered n2 n3 -> reordered n1 n3.

Lemma reordered_same n n' :
  reordered n n' -> spanOf n' = spanOf n /\ tipSupport n' = tipSupport n /\ branchSupport n' = branchSupport n /\
  forall f, sumTips f n' = sumTips f n.
Proof.
  induction 1 as [s t b ch ch' Hp|s t b c c' rest _ (_ & _ & _ & IH)|n1 n2 n3 _ (A1 & A2 & A3 & A4) _ (B1 & B2 & B3 & B4)].
  - split_and!; [done..|]. intros f. by rewrite !sumTips_unfold, (sumOf_perm _ _ _ Hp).
  - split_and!; [done..|]. intros f. by rewrite !sumTips_unfold, !sumOf_cons, IH.
  - split_and!; congruence.
Qed.

Lemma reordered_ok n n' : reordered n n' -> forall r, nodeOk r n -> nodeOk r n'.
Proof.
  induction 1 as [s t b ch ch' Hp|s t b c c' rest Hre IH|]; [| |by auto]; intros r Hok;
    inversion_clear Hok as [? ? ? ? ? Hs He Ht Hb Hmx Hc Hst Hch].
  - constructor; try done; [by rewrite <- (sumOf_perm _ _ _ Hp)|..]; by rewrite <- Hp.
  - destruct (reordered_same _ _ Hre) as (S1 & S2 & S3 & _).
    apply list.Forall_cons in Hst as [Hst1 Hst2]. apply list.Forall_cons in Hch as [Hch1 Hch2].
    constructor; try done.
    + by rewrite Hb, !sumOf_cons, S3.
    + apply list.Forall_cons. by rewrite S1.
    + apply list.Forall_cons. auto.
Qed.

Section Walk.
Context (support : Z -> Z) (Hsup : forall k, 0 <= support k).

Lemma sum_nonneg keys : 0 <= sumOf support keys.
Proof. induction keys as [|k keys IH]; [done|]. rewrite sumOf_cons. specialize (Hsup k). lia. Qed.

Lemma absorb_spec floor keys u :
  StronglySorted Z.lt keys -> 0 <= u -> u + sumOf support keys <= max_u32 ->
  let '(keys', u') := absorb support floor keys u in
  exists pre, keys = pre ++ keys' /\ Forall (fun k => k < floor) pre /\ Forall (fun k => floor <= k) keys' /\
    0 <= u' /\ u' + sumOf support keys' = u + sumOf support keys.
Proof.
  intros Hs. revert u. induction Hs as [|k keys Hs IH Hk]; intros u Hu Hm; cbn [absorb].
  { exists []. split_and!; try done; apply Forall_nil_2. }
  rewrite sumOf_cons in *. destruct (Z.ltb_spec k floor) as [Hlt|Hge].
  - pose proof (sum_nonneg keys). pose proof (Hsup k).
    rewrite wrap_small by (unfold is_uint, max_u32 in *; lia).
    specialize (IH (u + support k) ltac:(lia) ltac:(lia)). destruct (absorb _ _ _ _) as [keys' u'].
    destruct IH as (pre & -> & I1 & I2 & I3 & I4). exists (k :: pre).
    split_and!; [done| |done|done|lia]. by apply list.Forall_cons.
  - exists []. split_and!; [done|apply Forall_nil_2| |done|by rewrite sumOf_cons]. apply list.Forall_cons. split; [done|].
    eapply Forall_impl; [exact Hk|]. cbn. lia.
Qed.

Lemma walkSpan_spec end_ branch keys ns u :
  StronglySorted Z.lt keys -> Forall (fun k => ns <= k) keys -> 0 <= ns <= end_ -> end_ <= max_u32 ->
  0 <= u -> u + sumOf support keys <= max_u32 ->
  let '(keys', ns', u') := walkSpan support end_ branch keys ns u in
  exists pre, keys = pre ++ keys' /\ Forall (fun k => k < ns') pre /\ ns <= ns' <= end_ /\
    0 <= u' /\ u' + sumOf support keys' = u + sumOf support keys /\ (ns' = end_ \/ branch <= u').
Proof.
  intros Hs. revert ns u. induction Hs as [|k keys Hs IH Hk]; intros ns u Hns Hle Hmax Hu Hm; cbn [walkSpan].
  { destruct (Z.ltb_spec ns end_); destruct (Z.ltb_spec u branch); cbn [andb];
      (exists []; split_and!; try done; try apply Forall_nil_2; lia). }
  destruct (Z.ltb_spec ns end_) as [Hlt|Hge]; [destruct (Z.ltb_spec u branch) as [Hub|Hub]|]; cbn [andb];
    try by (exists []; split_and!; try done; try apply Forall_nil_2; lia).
  apply list.Forall_cons in Hns as [Hnk Hns]. rewrite sumOf_cons in *.
  destruct (Z.ltb_spec k end_) as [Hke|Hke].
  2:{ exists []; rewrite sumOf_cons; split_and!; try done; try apply Forall_nil_2; lia. }
  pose proof (sum_nonneg keys). pose proof (Hsup k).
  rewrite !wrap_small by (unfold is_uint, max_u32 in *; lia).
  assert (Hk1 : Forall (fun j => k + 1 <= j) keys) by (eapply Forall_impl; [exact Hk|]; cbn; lia).
  specialize (IH (k + 1) (u + support k) Hk1 ltac:(lia) ltac:(lia) ltac:(lia) ltac:(lia)).
  destruct (walkSpan _ _ _ _ _ _) as [[keys' ns'] u']. destruct IH as (pre & -> & I1 & I2 & I3 & I4 & I5).
  exists (k :: pre). split_and!; try done; try lia. apply list.Forall_cons. split; [lia|done].
Qed.

Lemma depth_child (c : node L) ch :
  c ∈ ch -> (nodeDepth c <= foldr (fun c d => Nat.max (nodeDepth c) d) 0%nat ch)%nat.
Proof.
  induction ch as [|d ch IH]; [by intros ?%not_elem_of_nil|]. intros [->|Hin]%elem_of_cons; cbn; [lia|].
  specialize (IH Hin). lia.
Qed.

(** [tp] is a point of the span of a node of the tree. *)
Definition pointOf (n : node L) (tp : SpanTip) : Prop :=
  exists m, m ∈ subtree n /\ start (spanOf m) <= TipSeq tp < send (spanOf m) /\
    TipID tp = Ancestor (ledger (spanOf m)) (TipSeq tp).

(** What one level of the descent does: where the walk along the span stops. *)
Lemma level_spec li r (s : span L) t b ch keys u :
  nodeOk r (Node s t b ch) -> StronglySorted Z.lt keys -> 0 <= u -> u + sumOf support keys <= max_u32 ->
  let '(keys1, u1) := absorb support (Z.max li (wrap 32 (start s + 1))) keys u in
  let '(keys2, ns, u2) := walkSpan support (send s) b keys1 (wrap 32 (start s + 1)) u1 in
  exists pre1 pre2, keys = pre1 ++ pre2 ++ keys2 /\
    Forall (fun k => k < Z.max li (start s + 1)) pre1 /\ Forall (fun k => k < ns) pre2 /\
    start s < ns <= send s /\ 0 <= u2 /\ u2 + sumOf support keys2 = u + sumOf support keys /\
    (ns = send s \/ b <= u2) /\ StronglySorted Z.lt keys2.
Proof.
  intros Hok Hs Hu Hm. inversion_clear Hok as [? ? ? ? ? Hss He _ _ _ _ _ _]. pose proof (seq_range (ledger s)) as [_ Hr].
  rewrite wrap_small by (unfold is_uint, max_u32 in *; lia).
  pose proof (absorb_spec (Z.max li (start s + 1)) keys u Hs Hu Hm) as Ha.
  destruct (absorb _ _ _ _) as [keys1 u1]. destruct Ha as (pre1 & -> & A1 & A2 & A3 & A4).
  apply StronglySorted_app in Hs as (_ & _ & Hs1).
  pose proof (walkSpan_spec (send s) b keys1 (start s + 1) u1 Hs1) as Hw.
  destruct (walkSpan _ _ _ _ _ _) as [[keys2 ns] u2].
  destruct Hw as (pre2 & -> & W1 & W2 & W3 & W4 & W5); [|lia..|].
  { eapply Forall_impl; [exact A2|]. cbn. lia. }
  apply StronglySorted_app in Hs1 as (_ & _ & Hs2).
  exists pre1, pre2. split_and!; try done; lia.
Qed.

Lemma preferLoop_ok li fuel r n keys u :
  nodeOk r n -> (nodeDepth n <= fuel)%nat -> StronglySorted Z.lt keys -> 0 <= u ->
  u + sumOf support keys <= max_u32 ->
  exists tp n', preferLoop support li fuel n keys u = Some (tp, n') /\ reordered n n' /\ pointOf n tp.
Proof.
  revert r n keys u. induction fuel as [|fuel IH]; intros r [s t b ch] keys u Hok Hd Hs Hu Hm; [cbn in Hd; lia|].
  pose proof (level_spec li r s t b ch keys u Hok Hs Hu Hm) as Hl. cbn [preferLoop].
  destruct (absorb _ _ _ _) as [keys1 u1]. destruct (walkSpan _ _ _ _ _ _) as [[keys2 ns] u2].
  destruct Hl as (pre1 & pre2 & _ & _ & _ & Hns & Hu2 & Hsum & _ & Hs2).
  assert (Hself : reordered (Node s t b ch) (Node s t b ch)) by (by apply Reordered_perm).
  assert (Hpt : forall x, start s < x <= send s -> pointOf (Node s t b ch) (tip (mkSpan (start s) x (ledger s)))).
  { intros x Hx. exists (Node s t b ch). rewrite subtree_unfold. split; [by left|]. cbn. split; [lia|done]. }
  destruct (Z.ltb_spec ns (send s)) as [Hlt|Hge].
  { rewrite before_eq by lia. eexists _, _. split; [done|]. split; [done|]. by apply Hpt. }
  pose proof (rankChildren_perm ch) as Hp. destruct (rankChildren ch) as [ch' margin]. cbn [fst] in Hp.
  assert (Hstop : exists tp n', Some (tip s, Node s t b ch') = Some (tp, n') /\
    reordered (Node s t b ch) n' /\ pointOf (Node s t b ch) tp).
  { eexists _, _. split; [done|]. split; [by apply Reordered_perm; rewrite Hp|]. apply (Hpt (send s)). lia. }
  destruct ch' as [|best rest]; [done|]. destruct (_ || _); [|done].
  assert (Hin : best ∈ ch) by (rewrite <- Hp; by left).
  assert (Hbest : nodeOk false best).
  { inversion_clear Hok as [? ? ? ? ? _ _ _ _ _ _ _ Hch]. rewrite list.Forall_forall in Hch. by apply Hch. }
  pose proof (depth_child best ch Hin) as Hdep. cbn [nodeDepth] in Hd.
  destruct (IH false best keys2 u2 Hbest ltac:(lia) Hs2 Hu2 ltac:(lia)) as (tp & n' & -> & Hre & m & Hm1 & Hm2).
  cbn [mbind option_bind]. eexists _, _. split; [done|]. split.
  - eapply Reordered_trans; [apply (Reordered_perm _ _ _ ch (best :: rest)); by rewrite Hp|]. by apply Reordered_down.
  - exists m. split; [|done]. rewrite subtree_unfold. right. apply list_elem_of_bind. by exists best.
Qed.

End Walk.

Fixpoint sumSpans (w : span L -> Z) (n : node L) : Z :=
  let '(Node s t _ ch) := n in w s * t + sumOf (sumSpans w) ch.

Lemma sumSpans_tips f n : sumSpans (fun s => f (tip s)) n = sumTips f n.
Proof.
  induction n as [s t b ch IH] using node_nested_ind. cbn [sumSpans sumTips]. f_equal.
  apply sumOf_ext. intros c Hin. rewrite list.Forall_forall in IH. by apply IH.
Qed.

Lemma sumSpans_ext w w' n :
  (forall m, m ∈ subtree n -> tipSupport m <> 0 -> w (spanOf m) = w' (spanOf m)) ->
  sumSpans w n = sumSpans w' n.
Proof.
  induction n as [s t b ch IH] using node_nested_ind. intros Hw. rewrite subtree_unfold in Hw.
  cbn [sumSpans children] in *. f_equal.
  - destruct (decide (t = 0)) as [->|Ht]; [lia|]. f_equal.
    apply (Hw (Node s t b ch)); [by left|done].
  - apply sumOf_ext. intros c Hin. rewrite list.Forall_forall in IH. apply (IH c Hin).
    intros m Hm. apply Hw. right. apply list_elem_of_bind. by exists c.
Qed.

Lemma sumSpans_zero w n :
  (forall m, m ∈ subtree n -> w (spanOf m) = 0) -> sumSpans w n = 0.
Proof.
  intros Hw. rewrite (sumSpans_ext w (fun _ => 0)) by (intros; by apply Hw). clear Hw.
  induction n as [s t b ch IH] using node_nested_ind. cbn [sumSpans].
  rewrite (sumOf_ext _ (fun _ => 0)) by (intros c Hin; rewrite list.Forall_forall in IH; by apply IH).
  by rewrite sumOf_zero.
Qed.

Lemma subtree_nodeAt (n m : node L) : m ∈ subtree n -> exists p, nodeAt p n = Some m.
Proof.
  induction n as [s t b ch IH] using node_nested_ind. rewrite subtree_unfold, elem_of_cons.
  intros [->|(c & Hm & Hc)%list_elem_of_bind]; [by exists []|]. rewrite list.Forall_forall in IH.
  destruct (IH c Hc Hm) as [p Hp]. apply list_elem_of_lookup in Hc as [i Hi]. exists (i :: p). cbn in *. by rewrite Hi.
Qed.

Lemma sumSpans_le w w' r n :
  nodeOk r n ->
  (forall m, m ∈ subtree n -> tipSupport m <> 0 -> w (spanOf m) <= w' (spanOf m)) ->
  sumSpans w n <= sumSpans w' n.
Proof.
  revert r. induction n as [s t b ch IH] using node_nested_ind. intros r Hok Hw. rewrite subtree_unfold in Hw.
  inversion_clear Hok as [? ? ? ? ? Hs He Ht Hb Hmx Hc Hst Hch]. cbn [sumSpans children] in *.
  assert (Hle : sumOf (sumSpans w) ch <= sumOf (sumSpans w') ch).
  { assert (Hall : forall c, c ∈ ch -> sumSpans w c <= sumSpans w' c).
    { intros c Hin. rewrite list.Forall_forall in IH, Hch. apply (IH c Hin false (Hch c Hin)).
      intros m Hm. apply Hw. right. apply list_elem_of_bind. by exists c. }
    clear -Hall. induction ch as [|c ch IH]; [done|]. rewrite !sumOf_cons.
    pose proof (Hall c ltac:(by left)). specialize (IH (fun d Hd => Hall d ltac:(by right))). lia. }
  destruct (decide (t = 0)) as [->|Hne]; [lia|].
  pose proof (Hw (Node s t b ch) ltac:(by left) Hne) as Hs'. cbn in Hs'. nia.
Qed.

Definition inKeys (keys : list Z) (s : span L) : Z := if bool_decide (send s - 1 ∈ keys) then 1 else 0.

(** The support recorded at [keys] is that of the tips with these sequences. *)
Lemma keys_weight t keys :
  trie_ok t -> NoDup keys -> sumOf (supportAt t) keys = sumSpans (inKeys keys) (root t).
Proof.
  intros Ht Hnd. rewrite (sumOf_ext _ (fun k => sumSpans (fun s => bySeq k (tip s)) (root t))).
  2:{ intros k _. by rewrite (ok_support _ Ht), sumSpans_tips. }
  generalize (root t). intros n. induction n as [s ts b ch IH] using node_nested_ind. cbn [sumSpans].
  assert (Hsplit : forall g h, sumOf (fun k => g k * ts + h k) keys = sumOf g keys * ts + sumOf h keys).
  { intros g h. clear. induction keys as [|k keys IH]; [done|]. rewrite !sumOf_cons, IH. lia. }
  rewrite Hsplit. f_equal.
  - f_equal. unfold inKeys. clear -Hnd. induction Hnd as [|k keys Hk Hnd IH]; [by rewrite bool_decide_eq_false_2 by apply not_elem_of_nil|].
    rewrite sumOf_cons, IH. unfold bySeq, tip; cbn. destruct (Z.eqb_spec (send s - 1) k) as [->|Hne].
    + rewrite bool_decide_eq_false_2 by done. rewrite bool_decide_eq_true_2 by left. done.
    + rewrite (bool_decide_ext (send s - 1 ∈ k :: keys) (send s - 1 ∈ keys)); [done|]. rewrite elem_of_cons. intuition.
  - rewrite list.Forall_forall in IH. induction ch as [|c ch IHc]; [by rewrite sumOf_zero|].
    rewrite !sumOf_cons, <- IHc by (intros d Hd; apply IH; by right). rewrite <- (IH c) by left.
    clear. induction keys as [|k keys IH]; [done|]. rewrite !sumOf_cons, IH. lia.
Qed.

Lemma supported_key t m : trie_ok t -> m ∈ subtree (root t) -> tipSupport m <> 0 -> send (spanOf m) - 1 ∈ seqKeys t.
Proof.
  intros Ht Hm Hne. apply (ok_keys _ Ht). destruct (subtree_nodeAt _ _ Hm) as [p Hat].
  pose proof (nodeOk_bounds _ _ (nodeAt_ok _ _ _ _ (ok_root _ Ht) Hat)).
  pose proof (nodeAt_weight true p (root t) m (bySeq (send (spanOf m) - 1)) (ok_root _ Ht) Hat) as Hw.
  rewrite <- (ok_support _ Ht) in Hw. unfold bySeq at 2 in Hw. cbn in Hw. rewrite Z.eqb_refl in Hw.
  assert (Hf : forall tp, 0 <= bySeq (send (spanOf m) - 1) tp) by (intros tp; unfold bySeq; destruct (_ =? _); lia).
  specialize (Hw Hf). unfold supportAt in Hw. destruct (seqSupport t !! _); [by eexists|cbn in Hw; lia].
Qed.

Lemma keys_total t : trie_ok t -> sumOf (supportAt t) (seqKeys t) = branchSupport (root t).
Proof.
  intros Ht. rewrite (keys_weight t _ Ht (sorted_NoDup _ (ok_sorted _ Ht))).
  rewrite (branch_is_sum _ _ (ok_root _ Ht)), <- sumSpans_tips. apply sumSpans_ext. intros m Hm Hne.
  unfold inKeys. by rewrite bool_decide_eq_true_2 by (by apply supported_key).
Qed.

Lemma New_ok (genesis : L) t :
  New genesis = Some t -> trie_ok t /\ spanOf (root t) = mkSpan 0 1 genesis /\ children (root t) = [] /\
  forall f, sumTips f (root t) = 0.
Proof.
  unfold New. destruct (Z.eqb_spec (Seq genesis) 0) as [Hg|]; [|done]. cbn [negb]. intros [= <-].
  split_and!; [|done|done|intros f; unfold newEmptyNode; cbn; rewrite Z.mul_0_r; done].
  split; cbn [root seqSupport seqKeys newEmptyNode]; [|done| | |constructor|].
  - constructor; cbn; try done; try lia; apply Forall_nil_2.
  - intros k. unfold supportAt. cbn [seqSupport]. rewrite lookup_empty. unfold newEmptyNode. rewrite sumTips_unfold, Z.mul_0_r. done.
  - intros k v. by rewrite lookup_empty.
  - intros k. rewrite lookup_empty. split; [by intros ?%not_elem_of_nil|by intros []].
Qed.

Lemma Remove_ok t (l : L) count t' b :
  trie_ok t -> 0 <= count -> Remove t l count = Some (t', b) -> trie_ok t'.
Proof.
  intros Ht Hc Hr. destruct (Remove_spec t l count Ht Hc) as (t1 & Hr1 & Hok & _).
  - intros p loc Hf Hat Hne. unfold Remove in Hr. rewrite Hf, Hat in Hr. cbn [mbind option_bind] in Hr.
    rewrite (proj2 (Z.eqb_neq _ _) Hne) in Hr. destruct (Z.eqb_spec (Seq l) (send (spanOf loc) - 1)); [done|by cbn in Hr].
  - rewrite Hr in Hr1. by injection Hr1 as ->.
Qed.

Lemma support_nonneg t k : trie_ok t -> 0 <= supportAt t k.
Proof.
  intros Ht. unfold supportAt. destruct (seqSupport t !! k) as [v|] eqn:E; cbn; [|lia]. apply (ok_values _ Ht) in E. lia.
Qed.

Lemma reordered_trie t n : trie_ok t -> reordered (root t) n -> trie_ok (set_root t n).
Proof.
  intros Ht Hre. destruct (reordered_same _ _ Hre) as (S1 & _ & _ & S4).
  split; cbn [set_root root seqSupport seqKeys]; try apply Ht.
  - by eapply reordered_ok, Ht.
  - rewrite S1. apply Ht.
  - intros k. rewrite S4. apply Ht.
Qed.

Lemma preferStart t : trie_ok t -> 0 + sumOf (supportAt t) (seqKeys t) <= max_u32.
Proof. intros Ht. rewrite (keys_total t Ht). pose proof (nodeOk_bounds _ _ (ok_root _ Ht)). lia. Qed.

Lemma GetPreferred_spec t li :
  trie_ok t -> branchSupport (root t) <> 0 ->
  exists tp n, GetPreferred t li = Some (Some tp, set_root t n) /\ reordered (root t) n /\ pointOf (root t) tp /\
    preferLoop (supportAt t) li (nodeDepth (root t)) (root t) (seqKeys t) 0 = Some (tp, n).
Proof.
  intros Ht Hne. unfold GetPreferred, empty_. rewrite (proj2 (Z.eqb_neq _ _) Hne).
  destruct (preferLoop_ok (supportAt t) (fun k => support_nonneg t k Ht) li _ true (root t) (seqKeys t) 0
    (ok_root _ Ht) (Nat.le_refl _) (ok_sorted _ Ht) (Z.le_refl 0) (preferStart t Ht)) as (tp & n & Hp & Hre & Hpt).
  exists tp, n. by rewrite Hp.
Qed.

(** On every trie with any support the search returns a point of the trie's
    own spans (the panic for an empty prefix is out of reach), and on an empty
    trie it reports that there is none; the support is untouched either way. *)
Theorem GetPreferred_total t largestIssued :
  trie_ok t ->
  exists o t', GetPreferred t largestIssued = Some (o, t') /\ trie_ok t' /\
    (forall f, sumTips f (root t') = sumTips f (root t)) /\
    match o with None => branchSupport (root t) = 0 | Some tp => pointOf (root t) tp end.
Proof.
  intros Ht. destruct (decide (branchSupport (root t) = 0)) as [H0|Hne].
  - exists None, t. unfold GetPreferred, empty_. by rewrite H0.
  - destruct (GetPreferred_spec t largestIssued Ht Hne) as (tp & n & -> & Hre & Hpt & _).
    exists (Some tp), (set_root t n). split_and!; [done|by apply reordered_trie| |done].
    by destruct (reordered_same _ _ Hre) as (_ & _ & _ & Hw).
Qed.

(** ** Everything the trie can become *)

Inductive reachable : Trie L -> Prop :=
  | reach_New genesis t : New genesis = Some t -> reachable t
  | reach_Insert t l count t' : reachable t -> 0 <= count -> Insert t l count = Some t' -> reachable t'
  | reach_Remove t l count t' b : reachable t -> 0 <= count -> Remove t l count = Some (t', b) -> reachable t'
  | reach_GetPreferred t li o t' : reachable t -> GetPreferred t li = Some (o, t') -> reachable t'.

Lemma reachable_ok t : reachable t -> trie_ok t.
Proof.
  induction 1 as [g t Hn|t l count t' _ IH Hc Hi|t l count t' b _ IH Hc Hr|t li o t' _ IH Hg].
  - by destruct (New_ok g t Hn).
  - destruct (decide (count = 0)) as [->|]; [|by eapply (Insert_ok t l count); [..|exact Hi]; [|lia]].
    unfold Insert in Hi. destruct (_ =? _); [done|]. by injection Hi as <-.
  - by eapply Remove_ok.
  - destruct (decide (branchSupport (root t) = 0)) as [H0|Hne].
    + unfold GetPreferred, empty_ in Hg. rewrite H0 in Hg. by injection Hg as _ <-.
    + destruct (GetPreferred_spec t li IH Hne) as (tp & n & Hg' & Hre & _). rewrite Hg in Hg'.
      injection Hg' as _ ->. by apply reordered_trie.
Qed.

(** Whatever sequence of insertions, removals and preference searches has
    run, truncated histories included, the trie passes its own self-check. *)
Theorem reachable_checked t : reachable t -> CheckInvariants t = true.
Proof. intros Hr. by apply CheckInvariants_holds, reachable_ok. Qed.

(** ** The trie as a tally of supported ledgers *)

(** The support entered and not withdrawn, as a list of ledgers with their
    counts: it fixes the support that stands at every tip of the trie. *)
Record recorded (sup : list (L * Z)) (t : Trie L) : Prop := mkRecorded {
  re_ok : trie_ok t;
  re_weight f : sumTips f (root t) = sumOf (fun e => f (ledgerTip e.1) * e.2) sup }.

Lemma recorded_total sup t : recorded sup t -> branchSupport (root t) = sumOf snd sup.
Proof.
  intros [Ht Hw]. rewrite (branch_is_sum _ _ (ok_root _ Ht)), Hw. apply sumOf_ext. intros e _. lia.
Qed.

Lemma New_recorded (genesis : L) t : New genesis = Some t -> recorded [] t.
Proof. intros (Hok & _ & _ & Hw)%New_ok. split; [done|]. intros f. by rewrite Hw. Qed.

Lemma Insert_recorded sup t (l : L) count t' :
  recorded sup t -> 0 < count -> Insert t l count = Some t' -> recorded ((l, count) :: sup) t'.
Proof.
  intros [Ht Hsup] Hc Hi. destruct (Insert_ok t l count t' Ht Hc Hi) as [Hok Hw]. split; [done|].
  intros f. rewrite sumOf_cons, Hw, Hsup. cbn. lia.
Qed.

(** C20: whatever the ledgers know of their histories, an insertion of a ledger
    below the last sequence adds one entry of support for it to the tally and
    leaves the trie well formed, when the total still fits 32 bits; it panics
    exactly when the total does not. *)
Theorem Insert_refines sup t (l : L) count :
  recorded sup t -> 0 < count ->
  if sumOf snd sup + count <=? max_u32
  then exists t', Insert t l count = Some t' /\ recorded ((l, count) :: sup) t'
  else Insert t l count = None.
Proof.
  intros Hsup Hc. pose proof (re_ok _ _ Hsup) as Ht. rewrite <- (recorded_total _ _ Hsup).
  destruct (Z.leb_spec (branchSupport (root t) + count) max_u32) as [Hle|Hgt].
  - destruct (Insert_defined t l count Ht Hc Hle) as [t' Hi]. exists t'. split; [done|]. by eapply Insert_recorded.
  - destruct (Insert_spec t l count Ht Hc) as (p & d & loc & _ & _ & _ & _ & _ & ->).
    by rewrite (proj2 (Z.ltb_lt _ _)) by lia.
Qed.

End Search.

(** ** Histories that meet *)

(** Every ledger has a chain of ancestors back to the common genesis, of which
    it knows the part from [MinSeq] on: identifiers commit to the sequence, and
    ledgers that share one share all before. [L] is the type of the ledgers in
    play, any two of them close enough to be told apart right: where both know
    their ancestors they have one in common, or else their chains share nothing
    but the genesis. A server's ledgers, which know 256 ancestors each, are so
    while they are within 256 of their last common ancestor. *)
Class ResolvedHistory (L : Type) `{!Ledger L} : Type := {
  chain : L -> Z -> bytes;
  chain_known (l : L) s : known l s -> Ancestor l s = chain l s;
  chain_root (a b : L) : chain a 0 = chain b 0;
  chain_unique (a b : L) s p : 0 <= p <= s -> s <= Seq a -> s <= Seq b -> chain a s = chain b s -> chain a p = chain b p;
  chain_seq (a b : L) s : 0 <= s <= Seq a -> chain a s = ID b -> s = Seq b;
  chain_met (a b : L) :
    (overlapLo a b <= overlapHi a b /\ chain a (overlapLo a b) = chain b (overlapLo a b)) \/
    (forall s, 1 <= s <= overlapHi a b -> chain a s <> chain b s) }.

Section History.
Context {L : Type} `{!Ledger L} `{!LedgerLaws L} `{!ResolvedHistory L}.

Definition same (a b : L) (x : Z) : Prop := chain a x = chain b x.

Definition firstID (s : span L) : bytes := chain (ledger s) (start s).

Lemma same_mono (a b : L) p x :
  0 <= p <= x -> x <= Seq a -> x <= Seq b -> same a b x -> same a b p.
Proof. intros Hp Ha Hb. by apply chain_unique. Qed.

Lemma chain_self (l : L) : chain l (Seq l) = ID l.
Proof. pose proof (seq_range l). rewrite <- ancestor_self. symmetry. apply chain_known. unfold known. lia. Qed.

Lemma agree_same (a b : L) x : known a x -> known b x -> agree a b x <-> same a b x.
Proof. intros Ha Hb. unfold agree, same. by rewrite !chain_known. Qed.

Lemma mismatch_full (a b : L) :
  let m := mismatch a b in
  1 <= m <= Z.min (Seq a) (Seq b) + 1 /\ (forall x, 0 <= x < m -> same a b x) /\
  (m <= Seq a -> m <= Seq b -> ~ same a b m) /\ (m = 1 \/ (MinSeq a < m /\ MinSeq b < m)).
Proof.
  cbv zeta. pose proof (seq_range a) as [Ra _]. pose proof (seq_range b) as [Rb _].
  pose proof (mismatch_spec a b) as Hm. cbv zeta in Hm. set (m := mismatch a b) in *. clearbody m.
  assert (Hk : forall x, overlapLo a b <= x <= overlapHi a b -> known a x /\ known b x) by (unfold known, overlapLo, overlapHi; lia).
  assert (Hone : forall x, 0 <= x < 1 -> same a b x) by (intros x Hx; replace x with 0 by lia; apply chain_root).
  destruct (chain_met a b) as [[Hle Hlo]|Hpart], Hm as [[-> Hm]|(H1 & H2 & H3)].
  - exfalso. destruct Hm as [|Hm]; [lia|]. destruct (Hk (overlapLo a b) (conj (Z.le_refl _) Hle)). by destruct Hm; apply agree_same.
  - destruct (Hk (m - 1) ltac:(lia)). apply agree_same in H2; [|done..]. unfold overlapLo, overlapHi in *.
    split; [lia|]. split; [intros x Hx; eapply (same_mono a b x (m - 1)); [lia..|done]|]. split; [|lia].
    intros Ha Hb. destruct H3 as [H3|H3]; [lia|]. destruct (Hk m ltac:(lia)). by rewrite <- agree_same.
  - split; [lia|]. split; [done|]. split; [|by left]. intros Ha Hb. apply Hpart. unfold overlapHi. lia.
  - destruct (Hk (m - 1) ltac:(lia)). apply agree_same in H2; [|done..].
    destruct (decide (m - 1 = 0)) as [Hm0|Hm0]; [|by destruct (Hpart (m - 1)); [unfold overlapLo, overlapHi in *; lia|]].
    assert (m = 1) as -> by lia. unfold overlapLo, overlapHi in *. split; [lia|]. split; [done|]. split; [|by left].
    intros Ha Hb. apply Hpart. lia.
Qed.

Lemma diff_full (s : span L) l :
  0 <= start s < send s -> send s <= Seq (ledger s) + 1 ->
  let d := diff s l in
  (start s < d -> (forall x, 0 <= x < d -> same (ledger s) l x) /\
    (d < send s -> d <= Seq l -> ~ same (ledger s) l d)) /\
  (d <= start s -> start s <= Seq l -> ~ same (ledger s) l (start s)).
Proof.
  intros Hs He. cbv zeta. unfold diff, clamp.
  destruct (mismatch_full (ledger s) l) as (H1 & H2 & H3 & _). set (m := mismatch _ _) in *. clearbody m.
  assert (Hlow : m <= start s -> start s <= Seq l -> ~ same (ledger s) l (start s)).
  { intros Hm Hl Ha. apply H3; [lia..|]. eapply (same_mono _ _ m (start s)); [lia..|done]. }
  destruct (Z.ltb_spec m (start s)) as [Hlt|Hge]; [|destruct (Z.ltb_spec (send s) m) as [Hgt|Hle]].
  - split; [lia|]. intros _. apply Hlow. lia.
  - split; [|lia]. intros _. split; [intros y Hy; apply H2; lia|lia].
  - split; [|exact Hlow]. intros _. split; [intros y Hy; apply H2; lia|]. intros Hd Hl. apply H3; lia.
Qed.

(** Inside a span, a divergence is after what its ledger knows first. *)
Lemma diff_inside (s : span L) l : 1 <= start s -> start s < diff s l < send s -> MinSeq (ledger s) < diff s l.
Proof.
  unfold diff, clamp. destruct (mismatch_full (ledger s) l) as (H1 & _ & _ & H4). set (m := mismatch _ _) in *. clearbody m.
  destruct (Z.ltb_spec m (start s)); [lia|]. destruct (Z.ltb_spec (send s) m); lia.
Qed.

(** Children continue their parent's history and part from each other at once. *)
Inductive history : node L -> Prop :=
  | History s t b ch :
      Forall (fun c => forall x, 0 <= x < send s -> same (ledger s) (ledger (spanOf c)) x) ch ->
      NoDup ((fun c => firstID (spanOf c)) <$> ch) -> Forall history ch -> MinSeq (ledger s) < send s ->
      history (Node s t b ch).

(** [l] follows the node up to [d], and nothing in the node follows it further. *)
Definition diverges (l : L) (n : node L) (d : Z) : Prop :=
  (forall x, 0 <= x < d -> same (ledger (spanOf n)) l x) /\
  (d < send (spanOf n) -> MinSeq (ledger (spanOf n)) < d) /\
  (d < send (spanOf n) -> d <= Seq l -> ~ same (ledger (spanOf n)) l d) /\
  (d = send (spanOf n) -> d <= Seq l ->
   Forall (fun c => ~ same (ledger (spanOf c)) l d) (children n)).

Lemma findFrom_diverges (l : L) n r pos :
  nodeOk r n -> meets l (spanOf n) pos ->
  (forall x, 0 <= x < pos -> same (ledger (spanOf n)) l x) ->
  (pos < send (spanOf n) -> MinSeq (ledger (spanOf n)) < pos) ->
  (pos < send (spanOf n) -> pos <= Seq l -> ~ same (ledger (spanOf n)) l pos) ->
  exists loc, nodeAt (findFrom l n pos).1 n = Some loc /\ diverges l loc (findFrom l n pos).2.
Proof.
  revert r pos. induction n as [s t b ch IH] using node_nested_ind. intros r pos Hok Hm Ha Hkn Hn.
  inversion_clear Hok as [? ? ? ? ? Hs He Ht Hb Hmx Hc Hst Hch]. cbn [spanOf] in *.
  rewrite findFrom_eq. destruct (Z.eqb_spec pos (send s)) as [->|Hne].
  2:{ exists (Node s t b ch). split; [done|]. split_and!; [done|done|done|]. cbn. lia. }
  rewrite list.Forall_forall in Hst, Hch.
  assert (Hspan : forall c, c ∈ ch -> start (spanOf c) = send s /\ 0 <= start (spanOf c) < send (spanOf c) /\
    send (spanOf c) <= Seq (ledger (spanOf c)) + 1).
  { intros c Hin. specialize (Hst c Hin). specialize (Hch c Hin). inversion Hch; subst. cbn in *. lia. }
  destruct (list_find _ ch) as [[i c]|] eqn:Ef.
  - apply list_find_Some in Ef as (Hic & Hlt & _). pose proof (list_elem_of_lookup_2 _ _ _ Hic) as Hin.
    destruct (Hspan c Hin) as (S1 & S2 & S3). destruct (diff_full (spanOf c) l S2 S3) as [D _].
    destruct (D ltac:(lia)) as [D1 D2].
    destruct (Forall_lookup_1 _ _ _ _ IH Hic false (diff (spanOf c) l) (Hch c Hin)) as (loc & H1 & H2);
      [apply diff_meets; lia|done|intros Hlt'; apply diff_inside; lia|done|].
    exists loc. split; [|done]. cbn. by rewrite Hic.
  - apply list_find_None in Ef. exists (Node s t b ch). split; [done|]. split_and!; [done|cbn; lia|cbn; lia|].
    cbn. intros _ Hl. rewrite list.Forall_forall in *. intros c Hin.
    destruct (Hspan c Hin) as (S1 & S2 & S3). destruct (diff_full (spanOf c) l S2 S3) as [_ D].
    specialize (Ef c Hin). cbn in Ef. rewrite <- S1 in *. apply D; lia.
Qed.

Lemma span_bounds r (n : node L) :
  nodeOk r n -> 0 <= start (spanOf n) < send (spanOf n) /\ send (spanOf n) <= Seq (ledger (spanOf n)) + 1.
Proof. intros []. cbn. lia. Qed.

Lemma root_diverges t (l : L) :
  trie_ok t -> exists loc, nodeAt (find t l).1 (root t) = Some loc /\ diverges l loc (find t l).2.
Proof.
  intros Ht. pose proof (root_meets t l Ht) as Hrm. pose proof (span_bounds _ _ (ok_root _ Ht)) as [B1 B2].
  destruct (diff_full (spanOf (root t)) l B1 B2) as [D _]. destruct (D ltac:(apply Hrm)) as [D1 D2].
  apply (findFrom_diverges l (root t) true _ (ok_root _ Ht) Hrm D1); [|done]. destruct (ok_genesis _ Ht) as (Hs & He & _).
  destruct Hrm as [[? ?] _]. lia.
Qed.

Lemma fmap_alter_id {A B} (f : A -> B) g (l : list A) i y :
  l !! i = Some y -> f (g y) = f y -> f <$> alter g i l = f <$> l.
Proof.
  revert i. induction l as [|z l IH]; intros [|i] Hi Hf; try done.
  - injection Hi as ->. cbn. by rewrite Hf.
  - change (f z :: (f <$> alter g i l) = f z :: (f <$> l)). by rewrite (IH i).
Qed.

(** Two nodes that look alike to their parent and siblings. *)
Definition sameHead (n n' : node L) : Prop :=
  ledger (spanOf n') = ledger (spanOf n) /\ start (spanOf n') = start (spanOf n).

Lemma updateAt_history count g p (n loc : node L) :
  nodeAt p n = Some loc -> history n -> (history loc -> history (g loc)) -> sameHead loc (g loc) ->
  history (updateAt count g p n) /\ sameHead n (updateAt count g p n).
Proof.
  intros Hat Hh Hg Hs. revert n Hat Hh. induction p as [|i p IH]; intros [s t b ch] Hat Hh; cbn [updateAt].
  { injection Hat as <-. split; [by apply Hg|done]. }
  apply bind_Some in Hat as (c & Hc & Hat). cbn [children] in Hc. split; [|done].
  inversion_clear Hh as [? ? ? ? H1 H2 H3 H4].
  destruct (IH c Hat (Forall_lookup_1 _ _ _ _ H3 Hc)) as [IH1 IH2]. destruct IH2 as [Hl Hst].
  constructor.
  - apply Forall_alter; [done|]. intros y Hy Hyy. rewrite Hc in Hy. injection Hy as <-. by rewrite Hl.
  - rewrite (fmap_alter_id _ _ _ _ c); [done|done|]. unfold firstID. by rewrite Hl, Hst.
  - apply Forall_alter; [done|]. intros y Hy _. rewrite Hc in Hy. by injection Hy as <-.
  - done.
Qed.

Lemma insertAt_history r (l : L) d count n :
  nodeOk r n -> history n -> meets l (spanOf n) d -> diverges l n d ->
  history (insertAt l d count n) /\ sameHead n (insertAt l d count n).
Proof.
  intros Hok Hh (Hm1 & Hm2 & _) (D1 & D0 & D2 & D3). destruct n as [s t b ch]. cbn [spanOf children] in *.
  inversion_clear Hok as [? ? ? ? ? Hs He Ht Hb Hmx Hc Hst Hch]. inversion_clear Hh as [? ? ? ? H1 H2 H3 H4].
  pose proof (seq_range l) as [Hl0 Hl1].
  unfold insertAt. cbn [spanOf]. rewrite before_eq, from_eq, newSpan_from by lia. unfold insertHere.
  assert (Hleaf : forall x c1 c2, history (Node (mkSpan x (Seq l + 1) l) c1 c2 [])).
  { intros. constructor; [apply Forall_nil_2|constructor|apply Forall_nil_2|cbn; lia]. }
  destruct (Z.ltb_spec d (send s)) as [Hd|Hd].
  - assert (Hold : forall c, history (Node (mkSpan d (send s) (ledger s)) t c ch)) by (by constructor).
    destruct (Z.ltb_spec d (Seq l + 1)) as [Hdl|Hdl]; (split; [|done]); constructor; cbn [app].
    + repeat (apply list.Forall_cons; split); [done| |apply Forall_nil_2]. exact D1.
    + cbn. apply list.NoDup_cons. split; [|apply NoDup_singleton]. rewrite list_elem_of_singleton.
      unfold firstID. cbn. apply D2; lia.
    + repeat (apply list.Forall_cons; split); [done|apply Hleaf|apply Forall_nil_2].
    + by apply D0.
    + by apply Forall_singleton.
    + apply NoDup_singleton.
    + by apply Forall_singleton.
    + by apply D0.
  - assert (d = send s) as -> by lia.
    destruct (Z.ltb_spec (send s) (Seq l + 1)) as [Hdl|Hdl]; (split; [|done]); [|by constructor].
    constructor.
    + apply Forall_app. split; [done|]. apply Forall_singleton. exact D1.
    + rewrite fmap_app. apply list.NoDup_app. split_and!; [done| |apply NoDup_singleton].
      intros x (c & -> & Hin)%list_elem_of_fmap. cbn. rewrite list_elem_of_singleton.
      specialize (D3 eq_refl ltac:(lia)). rewrite list.Forall_forall in D3, Hst.
      unfold firstID; cbn. rewrite (Hst c Hin). by apply D3.
    + apply Forall_app. split; [done|]. by apply Forall_singleton.
    + done.
Qed.

Lemma replaceChild_history (s : span L) t b b' ch i c ch' e :
  history (Node s t b ch) -> ch !! i = Some c -> ch' ≡ₚ e ++ delete i ch -> (length e <= 1)%nat ->
  Forall (fun g => history g /\ firstID (spanOf g) = firstID (spanOf c) /\
    forall x, 0 <= x < send s -> same (ledger s) (ledger (spanOf g)) x) e ->
  history (Node s t b' ch').
Proof.
  intros Hh Hi Hp Hlen He. inversion_clear Hh as [? ? ? ? H1 H2 H3 H4].
  pose proof (delete_Permutation _ _ _ Hi) as Hd. rewrite Hd in H1, H2, H3.
  apply list.Forall_cons in H1 as [_ H1]. apply list.Forall_cons in H3 as [_ H3].
  rewrite fmap_cons in H2. apply list.NoDup_cons in H2 as [Hni H2].
  constructor; rewrite ?Hp; [..|done].
  - apply Forall_app. split; [|done]. eapply Forall_impl; [exact He|]. by intros g (_ & _ & Hg).
  - destruct e as [|g [|? ?]]; [done| |cbn in Hlen; lia]. apply list.Forall_cons in He as [(_ & Hg & _) _].
    rewrite fmap_app. cbn. apply list.NoDup_cons. by rewrite Hg.
  - apply Forall_app. split; [|done]. eapply Forall_impl; [exact He|]. by intros g (Hg & _).
Qed.

Lemma removeAt_history r count p n loc :
  nodeOk r n -> history n -> nodeAt p n = Some loc -> 0 <= count <= tipSupport loc ->
  history (removeAt count p n).1.
Proof.
  revert r n. induction p as [|i p IH]; intros r [s t b ch] Hok Hh Hat Hcount; cbn [removeAt].
  { by inversion_clear Hh; constructor. }
  apply bind_Some in Hat as (c & Hc & Hat). cbn [children] in Hc. rewrite Hc.
  pose proof Hok as Hok0. inversion_clear Hok0 as [? ? ? ? ? Hs He Ht Hb Hmx Hcmp Hst Hch].
  pose proof Hh as Hh0. inversion_clear Hh0 as [? ? ? ? H1 H2 H3].
  pose proof (Forall_lookup_1 _ _ _ _ Hch Hc) as Hcok. pose proof (Forall_lookup_1 _ _ _ _ Hst Hc) as Hcs.
  pose proof (Forall_lookup_1 _ _ _ _ H1 Hc) as Hca. cbn in Hca, Hcs.
  specialize (IH false c Hcok (Forall_lookup_1 _ _ _ _ H3 Hc) Hat Hcount).
  pose proof (removeAt_ok false count p c loc Hcok Hat Hcount) as Htk.
  destruct (removeAt count p c) as [c' up]. destruct Htk as (Hok' & Hspan & _). cbn [fst] in IH.
  assert (Hkeep : history (Node s t (wrap 32 (b - count)) (<[i := c']> ch))).
  { eapply (replaceChild_history s t b _ ch i c _ [c']); [done|done|by eapply insert_delete_perm|done|].
    apply Forall_singleton. by rewrite Hspan. }
  destruct (up && _); [|done]. destruct c' as [cs ct cb [|g [|g2 rest]]]; cbn [children spanOf] in *; [| |by destruct g].
  - eapply (replaceChild_history s t b _ ch i c _ []); [done|done| |cbn; lia|apply Forall_nil_2].
    rewrite <- (app_nil_r (<[i := _]> ch)). by eapply eraseChild_insert.
  - destruct (merge_eq cs ct cb g (nodeOk_weaken _ _ Hok')) as (Hmg & Hcss & _).
    destruct g as [gs gt gb gch]. cbn [spanOf tipSupport branchSupport children fst] in *. rewrite Hmg.
    eapply (replaceChild_history s t b _ ch i c _ [_]); [done|done|by eapply eraseChild_insert|done|].
    apply Forall_singleton. inversion_clear IH as [? ? ? ? G1 _ G3 _].
    apply list.Forall_cons in G1 as [G1 _]. apply list.Forall_cons in G3 as [G3 _]. cbn [spanOf] in G1.
    split_and!.
    + inversion_clear G3. by constructor.
    + unfold firstID. cbn. rewrite <- Hspan. symmetry. apply G1. rewrite Hspan in *. lia.
    + cbn. intros y Hy. rewrite <- Hspan in *. etransitivity; [by apply Hca|]. apply G1. lia.
Qed.

(** ** One branch per ledger *)

Lemma subtree_facts r n m :
  nodeOk r n -> history n -> m ∈ subtree n ->
  (exists r', nodeOk r' m) /\ (m = n \/ send (spanOf n) <= start (spanOf m)) /\
  forall x, 0 <= x < send (spanOf n) -> same (ledger (spanOf n)) (ledger (spanOf m)) x.
Proof.
  revert r. induction n as [s t b ch IH] using node_nested_ind. intros r Hok Hh Hin.
  rewrite subtree_unfold in Hin. apply elem_of_cons in Hin as [->|Hin].
  { split_and!; [by exists r|by left|done]. }
  inversion_clear Hok as [? ? ? ? ? Hs He Ht Hb Hmx Hcmp Hst Hch]. inversion_clear Hh as [? ? ? ? H1 H2 H3].
  apply list_elem_of_bind in Hin as (c & Hm & Hc). cbn [children spanOf] in *.
  rewrite list.Forall_forall in IH, Hst, Hch, H1, H3.
  destruct (IH c Hc false (Hch c Hc) (H3 c Hc) Hm) as (I1 & I2 & I3). specialize (Hst c Hc).
  assert (Hcs : start (spanOf c) < send (spanOf c)) by (specialize (Hch c Hc); inversion Hch; subst; cbn in *; lia).
  split_and!; [done| |].
  - right. destruct I2 as [->|I2]; lia.
  - intros y Hy. etransitivity; [by apply (H1 c Hc)|]. apply I3. lia.
Qed.

Lemma subtree_tip (n m : node L) : history n -> m ∈ subtree n -> MinSeq (ledger (spanOf m)) < send (spanOf m).
Proof.
  induction n as [s t b ch IH] using node_nested_ind. intros Hh Hin. inversion_clear Hh as [? ? ? ? _ _ H3 H4].
  rewrite subtree_unfold in Hin. apply elem_of_cons in Hin as [->|Hin]; [done|].
  apply list_elem_of_bind in Hin as (c & Hm & Hc). cbn [children] in Hc. rewrite list.Forall_forall in IH, H3. by apply (IH c Hc (H3 c Hc)).
Qed.

Lemma nodeAt_subtree p (n loc : node L) : nodeAt p n = Some loc -> loc ∈ subtree n.
Proof.
  revert n. induction p as [|i p IH]; intros n Hat; rewrite subtree_unfold.
  { injection Hat as <-. by left. }
  apply bind_Some in Hat as (c & Hc & Hat). right. apply list_elem_of_bind. exists c.
  split; [by apply IH|by eapply list_elem_of_lookup_2].
Qed.

(** [n]'s span reaches [l], on [l]'s own history. *)
Definition carries (l : L) (n : node L) : Prop :=
  Seq l < send (spanOf n) /\ chain (ledger (spanOf n)) (Seq l) = ID l.

(** Nodes of two different children cannot both carry [l]. *)
Lemma siblings_part r (s : span L) t b ch i c d m loc (l : L) :
  nodeOk r (Node s t b ch) -> history (Node s t b ch) -> ch !! i = Some c -> d ∈ delete i ch ->
  m ∈ subtree d -> loc ∈ subtree c -> carries l m -> carries l loc -> send s <= Seq l -> False.
Proof.
  intros Hok Hh Hi Hd Hm Hloc [Cm1 Cm2] [Cl1 Cl2] Hl.
  inversion_clear Hok as [? ? ? ? ? Hs He Ht Hb Hmx Hcmp Hst Hch]. inversion_clear Hh as [? ? ? ? H1 H2 H3].
  pose proof (delete_Permutation _ _ _ Hi) as Hp.
  assert (Hc : c ∈ ch) by (by eapply list_elem_of_lookup_2).
  assert (Hdin : d ∈ ch) by (rewrite Hp; by right).
  rewrite list.Forall_forall in Hst, Hch, H3.
  destruct (subtree_facts false d m (Hch d Hdin) (H3 d Hdin) Hm) as ([rm Km] & _ & Am).
  destruct (subtree_facts false c loc (Hch c Hc) (H3 c Hc) Hloc) as ([rl Kl] & _ & Al).
  pose proof (span_bounds _ _ Km) as Bm. pose proof (span_bounds _ _ Kl) as Bl.
  pose proof (span_bounds _ _ (Hch c Hc)) as Bc. pose proof (span_bounds _ _ (Hch d Hdin)) as Bd.
  assert (Hag : same (ledger (spanOf m)) (ledger (spanOf loc)) (send s)).
  { eapply (same_mono _ _ _ (Seq l)); [lia..|]. unfold same. by rewrite Cm2, Cl2. }
  rewrite Hp, fmap_cons in H2. apply list.NoDup_cons in H2 as [Hni _]. apply Hni.
  apply list_elem_of_fmap. exists d. split; [|done]. unfold firstID.
  rewrite (Hst c Hc), (Hst d Hdin) in *. unfold same in *.
  rewrite (Al (send s)), (Am (send s)) by lia. done.
Qed.

Lemma carry_unique r p n loc (l : L) w :
  nodeOk r n -> history n -> nodeAt p n = Some loc -> carries l loc -> start (spanOf loc) <= Seq l ->
  (forall m, m ∈ subtree n -> w (spanOf m) <> 0 -> carries l m) ->
  sumSpans w n = sumSpans w loc.
Proof.
  revert r n. induction p as [|i p IH]; intros r [s t b ch] Hok Hh Hat Hcl Hst Hw.
  { by injection Hat as <-. }
  apply bind_Some in Hat as (c & Hc & Hat). cbn [children] in Hc. rewrite subtree_unfold in Hw.
  pose proof Hok as Hok0. inversion_clear Hok0 as [? ? ? ? ? Hs He Ht Hb Hmx Hcmp Hsts Hch].
  pose proof Hh as Hh0. inversion_clear Hh0 as [? ? ? ? H1 H2 H3].
  pose proof (list_elem_of_lookup_2 _ _ _ Hc) as Hin. rewrite list.Forall_forall in Hsts, Hch, H3.
  pose proof (nodeAt_subtree _ _ _ Hat) as Hloc.
  destruct (subtree_facts false c loc (Hch c Hin) (H3 c Hin) Hloc) as (_ & Hpos & _).
  pose proof (span_bounds _ _ (Hch c Hin)) as Bc. specialize (Hsts c Hin).
  assert (Hsl : send s <= Seq l) by (destruct Hpos as [->|]; lia).
  cbn [sumSpans]. rewrite (sumOf_perm _ _ _ (delete_Permutation _ _ _ Hc)), sumOf_cons.
  rewrite (IH false c (Hch c Hin) (H3 c Hin) Hat Hcl Hst).
  2:{ intros m Hm. apply Hw. right. apply list_elem_of_bind. by exists c. }
  rewrite (sumOf_ext _ (fun _ => 0)).
  - destruct (decide (w s = 0)) as [->|Hw0].
    + rewrite sumOf_zero. lia.
    + destruct (Hw (Node s t b ch)) as [Hlt _]; [by left|done|]. cbn in Hlt. lia.
  - intros d Hd. apply sumSpans_zero. intros m Hm. destruct (decide (w (spanOf m) = 0)) as [|Hne]; [done|].
    exfalso. eapply (siblings_part r s t b ch i c d m loc l); try done.
    apply Hw; [|done]. right. apply list_elem_of_bind. exists d. split; [done|].
    cbn [children]. rewrite (delete_Permutation _ _ _ Hc). by right.
Qed.

(** ** The search finds the node that carries a ledger *)

Lemma same_to (a l : L) x :
  0 <= x <= Seq l -> Seq l <= Seq a -> chain a (Seq l) = ID l -> same a l x.
Proof.
  intros Hx Hs Ha. eapply (same_mono a l x (Seq l)); [lia..|]. unfold same. by rewrite Ha, chain_self.
Qed.

Lemma diff_along (s : span L) l m r :
  0 <= start s < send s -> send s <= Seq (ledger s) + 1 -> start s < diff s l <= Seq l + 1 ->
  nodeOk r m -> carries l m ->
  (forall x, 0 <= x < send s -> same (ledger s) (ledger (spanOf m)) x) ->
  diff s l = Z.min (send s) (Seq l + 1).
Proof.
  intros Hs He Hd Hm [C1 C2] Ha. destruct (diff_full s l Hs He) as [D _]. destruct (D ltac:(lia)) as [_ D2].
  pose proof (diff_range s l ltac:(lia)) as Hr. pose proof (span_bounds _ _ Hm) as Bm.
  destruct (decide (diff s l < Z.min (send s) (Seq l + 1))) as [Hlt|]; [|lia].
  destruct (D2 ltac:(lia) ltac:(lia)). etransitivity; [apply Ha; lia|]. apply same_to; [lia..|done].
Qed.

(** The only child to follow [l] past [send s] is the one whose subtree carries it. *)
Lemma first_child r (s : span L) t b ch c m (l : L) :
  nodeOk r (Node s t b ch) -> history (Node s t b ch) -> c ∈ ch -> m ∈ subtree c -> carries l m ->
  send s <= Seq l -> exists i, list_find (fun d => send s < diff (spanOf d) l) ch = Some (i, c).
Proof.
  intros Hok Hh Hc Hm Hcar Hl.
  inversion_clear Hok as [? ? ? ? ? Hs He Ht Hb Hmx Hcmp Hst Hch]. inversion_clear Hh as [? ? ? ? H1 H2 H3].
  rewrite list.Forall_forall in Hst, Hch, H3.
  destruct (subtree_facts false c m (Hch c Hc) (H3 c Hc) Hm) as ([rm Km] & _ & Am).
  pose proof (span_bounds _ _ Km) as Bm. destruct Hcar as [C1 C2].
  assert (Hfollow : forall d, d ∈ ch -> send s < diff (spanOf d) l <-> same (ledger (spanOf d)) l (send s)).
  { intros d Hd. specialize (Hst d Hd). destruct (span_bounds _ _ (Hch d Hd)) as [B1 B2].
    destruct (diff_full (spanOf d) l B1 B2) as [D1 D2]. rewrite Hst in *. split.
    - intros Hlt. by apply (proj1 (D1 Hlt)); lia.
    - intros Ha. destruct (decide (send s < diff (spanOf d) l)) as [|Hn]; [done|]. by destruct (D2 ltac:(lia) Hl). }
  assert (Hcl : same (ledger (spanOf c)) l (send s)).
  { pose proof (span_bounds _ _ (Hch c Hc)). pose proof (Hst c Hc).
    etransitivity; [apply Am; lia|]. apply same_to; [lia..|done]. }
  destruct (list_find _ ch) as [[i d]|] eqn:Ef.
  - exists i. apply list_find_Some in Ef as (Hd & Hlt & _). pose proof (list_elem_of_lookup_2 _ _ _ Hd) as Hdin.
    apply (Hfollow d Hdin) in Hlt. apply list_elem_of_lookup in Hc as [j Hj]. do 2 f_equal.
    assert (i = j) as ->; [|congruence].
    eapply (NoDup_lookup _ _ _ (firstID (spanOf d)) H2); rewrite list_lookup_fmap; [by rewrite Hd|].
    rewrite Hj. cbn. f_equal. unfold firstID. pose proof (list_elem_of_lookup_2 _ _ _ Hj) as Hcin.
    rewrite (Hst c Hcin), (Hst d Hdin). unfold same in *. congruence.
  - apply list_find_None in Ef. rewrite list.Forall_forall in Ef. destruct (Ef c Hc). by apply Hfollow.
Qed.

Lemma findFrom_carries r (l : L) n m :
  nodeOk r n -> history n -> meets l (spanOf n) (diff (spanOf n) l) -> m ∈ subtree n -> carries l m ->
  exists loc, nodeAt (findFrom l n (diff (spanOf n) l)).1 n = Some loc /\ carries l loc /\
    (findFrom l n (diff (spanOf n) l)).2 = Seq l + 1.
Proof.
  revert r. induction n as [s t b ch IH] using node_nested_ind. intros r Hok Hh (Hm1 & Hm2 & _) Hin Hcar.
  destruct (subtree_facts r _ m Hok Hh Hin) as ([rm Km] & _ & Am). pose proof (span_bounds _ _ Km) as Bm.
  pose proof (span_bounds _ _ Hok) as [Bs1 Bs2]. cbn [spanOf] in *.
  rewrite findFrom_eq. rewrite (diff_along s l m rm) in * by (done || lia).
  pose proof (fun c => first_child r s t b ch c m l Hok Hh) as Hfirst.
  inversion_clear Hok as [? ? ? ? ? Hs He Ht Hb Hmx Hcmp Hst Hch]. inversion_clear Hh as [? ? ? ? H1 H2 H3].
  rewrite list.Forall_forall in IH, Hst, Hch, H3. destruct Hcar as [C1 C2].
  destruct (decide (Seq l < send s)) as [Hlt|Hge].
  - assert (Hself : carries l (Node s t b ch)).
    { split; [done|]. cbn. rewrite <- C2. apply Am. pose proof (seq_range l). lia. }
    rewrite Z.min_r by lia. exists (Node s t b ch).
    destruct (Z.eqb_spec (Seq l + 1) (send s)) as [Heq|]; [|done].
    destruct (list_find (fun c => Seq l + 1 < diff (spanOf c) l) ch) as [[i c]|] eqn:Ef; [|done].
    apply list_find_Some in Ef as (Hc & Hd & _). apply list_elem_of_lookup_2 in Hc.
    pose proof (Hst c Hc). pose proof (span_bounds _ _ (Hch c Hc)).
    destruct (diff_meets (spanOf c) l) as (? & ? & _); cbn in *; lia.
  - rewrite Z.min_l, Z.eqb_refl in * by lia.
    rewrite subtree_unfold in Hin. apply elem_of_cons in Hin as [->|Hin]; [cbn in C1; lia|].
    apply list_elem_of_bind in Hin as (c & Hm & Hc). cbn [children] in Hc.
    destruct (Hfirst c Hc Hm (conj C1 C2) ltac:(lia)) as [i Hf]. rewrite Hf.
    apply list_find_Some in Hf as (Hi & Hlt & _). pose proof (Hst c Hc). pose proof (span_bounds _ _ (Hch c Hc)).
    destruct (IH c Hc false (Hch c Hc) (H3 c Hc)) as (loc & Hat & I1 & I2); [apply diff_meets; lia|done|done|].
    exists loc. split_and!; [|done|done]. cbn. by rewrite Hi.
Qed.

(** ** Tallies over histories that meet *)

Record tracks (sup : list (L * Z)) (t : Trie L) : Prop := mkTracks {
  tr_recorded : recorded sup t;
  tr_history : history (root t) }.

Lemma tr_ok sup t : tracks sup t -> trie_ok t.
Proof. by intros [[]]. Qed.

Lemma tr_weight sup t : tracks sup t -> forall f, sumTips f (root t) = sumOf (fun e => f (ledgerTip e.1) * e.2) sup.
Proof. by intros [[]]. Qed.

(** Ancestry as the chains have it, known to the ledgers or not. *)
Definition descends (a l : L) : bool := (Seq l <=? Seq a) && bool_decide (chain a (Seq l) = ID l).

Definition specTip (sup : list (L * Z)) (l : L) : Z :=
  sumOf (fun e => if bool_decide (ID e.1 = ID l) then e.2 else 0) sup.

Definition specBranch (sup : list (L * Z)) (l : L) : Z :=
  sumOf (fun e => if descends e.1 l then e.2 else 0) sup.

(** A tip with the identifier of [l] is [l]'s own. *)
Lemma tip_is_ledger r (m : node L) (l : L) :
  nodeOk r m -> MinSeq (ledger (spanOf m)) < send (spanOf m) -> TipID (tip (spanOf m)) = ID l ->
  send (spanOf m) - 1 = Seq l /\ carries l m.
Proof.
  intros Hm Hk Hid. pose proof (span_bounds _ _ Hm) as [B1 B2]. cbn in Hid. rewrite chain_known in Hid by (unfold known; lia).
  assert (Hs : send (spanOf m) - 1 = Seq l) by (eapply chain_seq; [|exact Hid]; lia).
  split; [done|]. split; [lia|]. by rewrite <- Hs.
Qed.

Lemma nodeAt_history p (n loc : node L) : history n -> nodeAt p n = Some loc -> history loc.
Proof.
  revert n. induction p as [|i p IH]; intros n Hh Hat.
  { by injection Hat as <-. }
  apply bind_Some in Hat as (c & Hc & Hat). eapply (IH c); [|done].
  inversion Hh; subst. by eapply (Forall_lookup_1 history).
Qed.

Lemma below_later r (n c m : node L) :
  nodeOk r n -> history n -> c ∈ children n -> m ∈ subtree c ->
  send (spanOf n) <= start (spanOf m) /\ exists r', nodeOk r' m.
Proof.
  intros Hok Hh Hc Hm. destruct Hok as [? s t b ch Hs He Ht Hb Hmx Hcmp Hst Hch].
  inversion_clear Hh as [? ? ? ? H1 H2 H3]. cbn [children spanOf] in *. rewrite list.Forall_forall in Hst, Hch, H3.
  destruct (subtree_facts false c m (Hch c Hc) (H3 c Hc) Hm) as (Km & Hpos & _). split; [|done].
  pose proof (span_bounds _ _ (Hch c Hc)). specialize (Hst c Hc). destruct Hpos as [->|]; lia.
Qed.

Lemma TipSupport_weight t (l : L) :
  trie_ok t -> history (root t) -> TipSupport t l = sumTips (byID (ID l)) (root t).
Proof.
  intros Ht Hh. unfold TipSupport. rewrite <- sumSpans_tips.
  pose proof (findByIDWalk_spec (ID l) (root t)) as Hf. fold (findByLedgerID t l) in Hf.
  destruct (findByLedgerID t l) as [p|].
  2:{ symmetry. apply sumSpans_zero. rewrite list.Forall_forall in Hf. intros m Hm. unfold byID.
      by rewrite bool_decide_eq_false_2 by (by apply Hf). }
  destruct Hf as (loc & Hat & Hid). rewrite Hat.
  pose proof (nodeAt_ok _ _ _ _ (ok_root _ Ht) Hat) as Hloc.
  assert (Htk : forall m, m ∈ subtree (root t) -> MinSeq (ledger (spanOf m)) < send (spanOf m)) by (intros m; by apply subtree_tip).
  destruct (tip_is_ledger _ loc l Hloc (Htk loc (nodeAt_subtree _ _ _ Hat)) Hid) as [Hs Hcar]. pose proof (span_bounds _ _ Hloc) as Bl.
  rewrite (carry_unique true p (root t) loc l _ (ok_root _ Ht) Hh Hat Hcar); [|lia|].
  2:{ intros m Hm Hw. destruct (subtree_facts _ _ m (ok_root _ Ht) Hh Hm) as ([rm Km] & _ & _).
      unfold byID in Hw. case_bool_decide as Hb; [|done]. by eapply tip_is_ledger; [|apply Htk|]. }
  pose proof (nodeAt_history _ _ _ Hh Hat) as Hlh.
  destruct loc as [s ts b ch]. cbn [sumSpans tipSupport spanOf] in *. unfold byID at 1.
  rewrite bool_decide_eq_true_2 by done. rewrite (sumOf_ext _ (fun _ => 0)), sumOf_zero; [lia|].
  intros c Hc. apply sumSpans_zero. intros m Hm. unfold byID. case_bool_decide as Hb; [|done].
  destruct (below_later _ _ c m Hloc Hlh Hc Hm) as (Hlt & rm & Km). pose proof (span_bounds _ _ Km).
  assert (Hmr : MinSeq (ledger (spanOf m)) < send (spanOf m)).
  { eapply (subtree_tip (Node s ts b ch)); [done|]. rewrite subtree_unfold. right. apply list_elem_of_bind. by exists c. }
  destruct (tip_is_ledger _ m l Km Hmr Hb) as [Hsm _]. cbn in Hlt. lia.
Qed.

(** Weight 1 on the spans that carry [l]. *)
Definition carryWeight (l : L) (s : span L) : Z :=
  if (Seq l <? send s) && bool_decide (chain (ledger s) (Seq l) = ID l) then 1 else 0.

Lemma carryWeight_carries l m : carryWeight l (spanOf m) <> 0 <-> carries l m.
Proof.
  unfold carryWeight, carries. destruct (Z.ltb_spec (Seq l) (send (spanOf m))); cbn [andb].
  - case_bool_decide; intuition lia.
  - intuition lia.
Qed.

Lemma carryWeight_one l m : carries l m -> carryWeight l (spanOf m) = 1.
Proof.
  intros [H1 H2]. unfold carryWeight. rewrite (proj2 (Z.ltb_lt _ _) H1). by rewrite bool_decide_eq_true_2.
Qed.

(** Everything below a node that carries [l] carries it. *)
Lemma carry_branch r (n : node L) (l : L) :
  nodeOk r n -> history n -> carries l n -> sumSpans (carryWeight l) n = branchSupport n.
Proof.
  intros Hok Hh Hc. rewrite (branch_is_sum _ _ Hok), <- sumSpans_tips. apply sumSpans_ext.
  intros m Hm _. apply carryWeight_one. destruct (subtree_facts _ _ m Hok Hh Hm) as ([rm Km] & Hpos & Ha).
  pose proof (span_bounds _ _ Km). pose proof (seq_range l). destruct Hc as [H1 H2]. split.
  - destruct Hpos as [->|]; lia.
  - rewrite <- H2. symmetry. apply Ha. lia.
Qed.

Lemma BranchSupport_weight t (l : L) :
  trie_ok t -> history (root t) -> BranchSupport t l = sumSpans (carryWeight l) (root t).
Proof.
  intros Ht Hh. unfold BranchSupport.
  assert (Huniq : forall p loc, nodeAt p (root t) = Some loc -> carries l loc -> start (spanOf loc) <= Seq l ->
    branchSupport loc = sumSpans (carryWeight l) (root t)).
  { intros p loc Hat Hcar Hst. pose proof (nodeAt_ok _ _ _ _ (ok_root _ Ht) Hat) as Hloc.
    rewrite (carry_unique true p (root t) loc l _ (ok_root _ Ht) Hh Hat Hcar Hst).
    - symmetry. eapply carry_branch; [done|by eapply nodeAt_history|done].
    - intros m _. by apply carryWeight_carries. }
  pose proof (findByIDWalk_spec (ID l) (root t)) as Hf. fold (findByLedgerID t l) in Hf.
  destruct (findByLedgerID t l) as [p|].
  { destruct Hf as (loc & Hat & Hid). rewrite Hat. pose proof (nodeAt_ok _ _ _ _ (ok_root _ Ht) Hat) as Hloc.
    destruct (tip_is_ledger _ loc l Hloc (subtree_tip _ _ Hh (nodeAt_subtree _ _ _ Hat)) Hid) as [Hs Hcar].
    pose proof (span_bounds _ _ Hloc). eapply Huniq; [done..|lia]. }
  pose proof (root_meets t l Ht) as Hrm.
  pose proof (fun m => findFrom_carries true l (root t) m (ok_root _ Ht) Hh Hrm) as Hfc.
  destruct (findFrom_spec l (root t) true _ (ok_root _ Ht) Hrm) as (loc & Hat & _ & Hm1 & Hm2 & Hm3).
  destruct (root_diverges t l Ht) as (loc' & Hat' & Hdiv & _).
  fold (find t l) in *. destruct (find t l) as [p d]. cbn [fst snd] in *. rewrite Hat in Hat' |- *. injection Hat' as <-.
  destruct (Z.ltb_spec (Seq l) d) as [Hd|Hd]; cbn [andb].
  1: destruct (Z.ltb_spec (Seq l) (send (spanOf loc))) as [Hs|Hs].
  - eapply Huniq; [done| |lia]. split; [done|]. etransitivity; [apply Hdiv; pose proof (seq_range l); lia|apply chain_self].
  - lia.
  - symmetry. apply sumSpans_zero. intros m Hin. destruct (decide (carryWeight l (spanOf m) = 0)) as [|Hne]; [done|].
    apply carryWeight_carries in Hne. destruct (Hfc m Hin Hne) as (_ & _ & _ & ->). lia.
Qed.

Lemma same_tip_descends (a b l : L) : ledgerTip a = ledgerTip b -> descends a l = descends b l.
Proof.
  intros Ht. injection Ht as Hs Hid. unfold descends. rewrite Hs.
  destruct (Z.leb_spec (Seq l) (Seq b)) as [Hle|]; [|done]. cbn [andb].
  assert (Ha : same a b (Seq l)).
  { pose proof (seq_range l). eapply (same_mono a b (Seq l) (Seq b)); [lia..|].
    unfold same. rewrite <- Hs at 1. by rewrite !chain_self. }
  unfold same in Ha. by rewrite Ha.
Qed.

(** A supported tip is the tip of one of the tallied ledgers. *)
Lemma tallied sup t m :
  tracks sup t -> m ∈ subtree (root t) -> tipSupport m <> 0 ->
  exists e, e ∈ sup /\ ledgerTip e.1 = tip (spanOf m).
Proof.
  intros Hsup Hm Ht. destruct (subtree_nodeAt _ _ Hm) as [p Hat].
  pose proof (tr_ok _ _ Hsup) as Hok. pose proof (nodeOk_bounds _ _ (nodeAt_ok _ _ _ _ (ok_root _ Hok) Hat)) as Hb.
  set (f := fun tp => if bool_decide (tp = tip (spanOf m)) then 1 else 0).
  pose proof (nodeAt_weight true p (root t) m f (ok_root _ Hok) Hat) as Hw.
  rewrite (tr_weight _ _ Hsup) in Hw. unfold f at 2 in Hw. rewrite bool_decide_eq_true_2 in Hw by done.
  assert (Hf : forall tp, 0 <= f tp) by (intros tp; unfold f; case_bool_decide; lia).
  specialize (Hw Hf). destruct (decide (Exists (fun e => ledgerTip e.1 = tip (spanOf m)) sup)) as [He|Hn].
  { by apply Exists_exists in He. }
  rewrite (sumOf_ext _ (fun _ => 0)), sumOf_zero in Hw; [lia|]. intros e He. unfold f.
  rewrite bool_decide_eq_false_2; [lia|]. intros Heq. apply Hn, Exists_exists. by exists e.
Qed.

Lemma specTip_weight sup t l : tracks sup t -> sumTips (byID (ID l)) (root t) = specTip sup l.
Proof.
  intros Hsup. rewrite (tr_weight _ _ Hsup). apply sumOf_ext. intros e _. unfold byID. cbn.
  case_bool_decide; lia.
Qed.

Lemma specBranch_weight sup t l : tracks sup t -> sumSpans (carryWeight l) (root t) = specBranch sup l.
Proof.
  intros Hsup.
  set (f := fun tp => if existsb (fun e => bool_decide (ledgerTip e.1 = tp) && descends e.1 l) sup then 1 else 0).
  assert (Hf : forall e, e ∈ sup -> f (ledgerTip e.1) = if descends e.1 l then 1 else 0).
  { intros e He. unfold f. destruct (existsb _ sup) eqn:Ex.
    - apply existsb_exists in Ex as (e' & _ & [Hb Hd]%andb_prop). apply bool_decide_eq_true in Hb.
      by rewrite <- (same_tip_descends e'.1 e.1 l Hb), Hd.
    - destruct (descends e.1 l) eqn:Ed; [|done]. rewrite <- not_true_iff_false, existsb_exists in Ex.
      destruct Ex. exists e. split; [by apply list_elem_of_In|]. by rewrite bool_decide_eq_true_2, Ed. }
  rewrite (sumSpans_ext _ (fun s => f (tip s))), sumSpans_tips, (tr_weight _ _ Hsup).
  - apply sumOf_ext. intros e He. rewrite (Hf e He). destruct (descends _ _); lia.
  - intros m Hm Ht. destruct (tallied _ _ _ Hsup Hm Ht) as (e & He & Htip). rewrite <- Htip, (Hf e He).
    destruct (subtree_facts _ _ m (ok_root _ (tr_ok _ _ Hsup)) (tr_history _ _ Hsup) Hm) as ([rm Km] & _).
    pose proof (span_bounds _ _ Km) as [B1 B2]. unfold tip, ledgerTip in Htip. injection Htip as Hs Hid.
    rewrite chain_known in Hid by (pose proof (subtree_tip _ _ (tr_history _ _ Hsup) Hm); unfold known; lia).
    unfold carryWeight, descends. pose proof (seq_range l).
    destruct (Z.ltb_spec (Seq l) (send (spanOf m))), (Z.leb_spec (Seq l) (Seq e.1)); try lia; [|done].
    cbn [andb]. assert (Ha : same (ledger (spanOf m)) e.1 (Seq l)).
    { eapply (same_mono _ _ _ (Seq e.1)); [lia..|]. unfold same. by rewrite chain_self, Hid, Hs. }
    unfold same in Ha. by rewrite Ha.
Qed.

Lemma New_tracks (genesis : L) t : New genesis = Some t -> tracks [] t.
Proof.
  intros Hn. split; [by eapply New_recorded|]. destruct (New_ok genesis t Hn) as (Hok & _ & Hch & _).
  destruct (ok_genesis _ Hok) as (_ & He & Hg). destruct (root t) as [s ts b ch]. cbn in Hch, He, Hg. subst ch.
  constructor; [apply Forall_nil_2|apply NoDup_nil_2|apply Forall_nil_2|].
  pose proof (seq_range (ledger s)). lia.
Qed.

Lemma Insert_history t (l : L) count t' :
  trie_ok t -> history (root t) -> 0 < count -> Insert t l count = Some t' -> history (root t').
Proof.
  intros Ht Hh Hc. destruct (Insert_spec t l count Ht Hc) as (p & d & loc & Hf & Hat & Hlok & Hm & _ & ->).
  destruct (_ <? _); [done|]. intros Hadd.
  assert (Hroot : root t' = updateAt count (insertAt l d count) p (root t)).
  { unfold seqSupportAdd in Hadd. destruct (_ <? _); [done|]. by injection Hadd as <-. }
  rewrite Hroot. destruct (root_diverges t l Ht) as (loc' & Hat' & Hdiv). rewrite Hf in Hat', Hdiv. cbn [fst snd] in *.
  rewrite Hat in Hat'. injection Hat' as <-.
  assert (Hi : history loc -> history (insertAt l d count loc) /\ sameHead loc (insertAt l d count loc))
    by (intros Hl; by eapply insertAt_history).
  apply (updateAt_history _ _ _ _ loc Hat Hh).
  - intros Hl. by apply Hi.
  - apply Hi. by eapply nodeAt_history.
Qed.

Lemma found_seq t (l : L) p loc :
  trie_ok t -> history (root t) -> findByLedgerID t l = Some p -> nodeAt p (root t) = Some loc -> send (spanOf loc) - 1 = Seq l.
Proof.
  intros Ht Hh Hf Hat. pose proof (findByIDWalk_spec (ID l) (root t)) as Hs. fold (findByLedgerID t l) in Hs.
  rewrite Hf in Hs. destruct Hs as (loc' & Hat' & Hid). rewrite Hat in Hat'. injection Hat' as <-.
  eapply tip_is_ledger; [by eapply (nodeAt_ok true), Hat; apply Ht|by eapply subtree_tip, nodeAt_subtree|done].
Qed.

Lemma Remove_history t (l : L) count t' b :
  trie_ok t -> history (root t) -> 0 <= count -> Remove t l count = Some (t', b) -> history (root t').
Proof.
  intros Ht Hh Hc. unfold Remove. destruct (findByLedgerID t l) as [p|]; [|by intros [= <- _]].
  intros (loc & Hat & H)%bind_Some. destruct (Z.eqb_spec (tipSupport loc) 0); [by injection H as <- _|].
  pose proof (nodeOk_bounds _ _ (nodeAt_ok _ _ _ _ (ok_root _ Ht) Hat)) as Hb. revert H. cbv zeta.
  set (n1 := if _ <? _ then _ else _). assert (Hn : 0 <= n1 <= tipSupport loc).
  { unfold n1. destruct (Z.ltb_spec (tipSupport loc) count); lia. }
  clearbody n1. destruct (negb _); [done|]. destruct (match _ with Some _ => _ | None => _ end); [done|].
  intros (t1 & _ & [= <- _])%bind_Some. cbn [set_root root].
  by apply (removeAt_history true n1 p (root t) loc (ok_root _ Ht) Hh Hat).
Qed.

(** ** A super-majority is preferred *)

(** Once the keys before [l] are consumed, [l]'s branch is still to come. *)
Lemma keys_ahead t pre keys (l : L) :
  trie_ok t -> seqKeys t = pre ++ keys -> Forall (fun k => k < Seq l) pre ->
  sumSpans (carryWeight l) (root t) <= sumOf (supportAt t) keys.
Proof.
  intros Ht Hk Hpre. pose proof (sorted_NoDup _ (ok_sorted _ Ht)) as Hnd. rewrite Hk in Hnd.
  apply list.NoDup_app in Hnd as (_ & _ & Hnd). rewrite (keys_weight t _ Ht Hnd).
  apply (sumSpans_le _ _ true); [apply Ht|]. intros m Hm Hne. unfold inKeys, carryWeight.
  destruct (Z.ltb_spec (Seq l) (send (spanOf m))) as [Hlt|]; cbn [andb]; [|case_bool_decide; lia].
  pose proof (supported_key t m Ht Hm Hne) as Hin. rewrite Hk in Hin. apply elem_of_app in Hin as [Hin|Hin].
  - rewrite list.Forall_forall in Hpre. specialize (Hpre _ Hin). lia.
  - rewrite (bool_decide_eq_true_2 (_ ∈ keys)) by done. case_bool_decide; lia.
Qed.

(** [tp] lies on a history that passes through [l]: that of [a], at a height
    from [l]'s on, under the identifier [a] gives for it. *)
Definition through (l : L) (tp : SpanTip) : Prop :=
  exists a : L, Seq l <= TipSeq tp <= Seq a /\ Ancestor a (TipSeq tp) = TipID tp /\ chain a (Seq l) = ID l.

Lemma point_through r n (l : L) tp :
  nodeOk r n -> history n -> carries l n -> pointOf n tp -> Seq l <= TipSeq tp -> through l tp.
Proof.
  intros Hok Hh [C1 C2] (m & Hm & H1 & H2) Hl. destruct (subtree_facts _ _ m Hok Hh Hm) as ([rm Km] & _ & Ha).
  pose proof (span_bounds _ _ Km). pose proof (seq_range l). exists (ledger (spanOf m)).
  split_and!; [lia|lia|done|]. rewrite <- C2. symmetry. apply Ha. lia.
Qed.

Section Majority.
Context (t : Trie L) (l : L) (B : Z) (li : Z).
Context (Ht : trie_ok t) (HB : sumSpans (carryWeight l) (root t) = B) (Hli : li <= Seq l).
Context (Hmaj : 2 * (branchSupport (root t) - B) < B).

(** The uncommitted support [u] comes from keys below [l]; [keys] are left. *)
Definition ahead (keys : list Z) (u : Z) : Prop :=
  0 <= u /\ u + sumOf (supportAt t) keys = branchSupport (root t) /\
  exists pre, seqKeys t = pre ++ keys /\ Forall (fun k => k < Seq l) pre.

Lemma ahead_small keys u : ahead keys u -> u <= branchSupport (root t) - B.
Proof.
  intros (_ & Hu & pre & Hk & Hpre). pose proof (keys_ahead t pre keys l Ht Hk Hpre). lia.
Qed.

Lemma ahead_sorted keys u : ahead keys u -> StronglySorted Z.lt keys /\ 0 <= u /\ u + sumOf (supportAt t) keys <= max_u32.
Proof.
  intros (H0 & Hu & pre & Hk & _). pose proof (ok_sorted _ Ht) as Hs. rewrite Hk in Hs.
  apply StronglySorted_app in Hs as (_ & _ & Hs). pose proof (nodeOk_bounds _ _ (ok_root _ Ht)). split_and!; [done|done|lia].
Qed.

(** One level: either the walk passes [l], or it ends at the end of the span
    with [l]'s branch still ahead. *)
Lemma level_majority r (s : span L) ts b ch keys u :
  nodeOk r (Node s ts b ch) -> ahead keys u -> start s <= Seq l -> B <= b ->
  let '(keys1, u1) := absorb (supportAt t) (Z.max li (wrap 32 (start s + 1))) keys u in
  let '(keys2, ns, u2) := walkSpan (supportAt t) (send s) b keys1 (wrap 32 (start s + 1)) u1 in
  (ns <= Seq l -> ns = send s /\ ahead keys2 u2) /\ ns <= send s.
Proof.
  intros Hok Hah Hst Hb. destruct (ahead_sorted _ _ Hah) as (Hs & Hu & Hm).
  pose proof (level_spec (supportAt t) (fun k => support_nonneg t k Ht) li r s ts b ch keys u Hok Hs Hu Hm) as Hl.
  destruct (absorb _ _ _ _) as [keys1 u1]. destruct (walkSpan _ _ _ _ _ _) as [[keys2 ns] u2].
  destruct Hl as (pre1 & pre2 & Hk & P1 & P2 & Hns & Hu2 & Hsum & Hend & Hs2). split; [|lia]. intros Hle.
  assert (Ha2 : ahead keys2 u2).
  { destruct Hah as (_ & Hu' & pre & Hpre & Hall). split; [done|]. split; [lia|].
    exists (pre ++ pre1 ++ pre2). split; [by rewrite Hpre, Hk, <- !app_assoc|].
    repeat (apply Forall_app; split); [done|eapply Forall_impl; [exact P1|]|eapply Forall_impl; [exact P2|]]; cbn; lia. }
  split; [|done]. destruct Hend as [|Hend]; [done|]. pose proof (ahead_small _ _ Ha2). lia.
Qed.

(** At the node that carries [l], the search does not stop before [l]. *)
Lemma prefer_carrier r fuel n keys u tp n' :
  nodeOk r n -> history n -> (nodeDepth n <= fuel)%nat -> ahead keys u -> carries l n ->
  start (spanOf n) <= Seq l -> B <= branchSupport n ->
  preferLoop (supportAt t) li fuel n keys u = Some (tp, n') -> through l tp.
Proof.
  intros Hok Hh Hd Hah Hcar Hst Hb Hp. destruct (ahead_sorted _ _ Hah) as (Hs & Hu & Hm).
  destruct (preferLoop_ok (supportAt t) (fun k => support_nonneg t k Ht) li fuel r n keys u Hok Hd Hs Hu Hm) as (tp' & n1 & Hp' & _ & Hpt).
  rewrite Hp in Hp'. injection Hp' as <- <-. eapply point_through; [done..|].
  destruct fuel as [|fuel]; [done|]. destruct n as [s ts b ch]. cbn [spanOf branchSupport] in *.
  pose proof (level_majority r s ts b ch keys u Hok Hah Hst Hb) as Hl.
  pose proof (level_spec (supportAt t) (fun k => support_nonneg t k Ht) li r s ts b ch keys u Hok Hs Hu Hm) as Hl'.
  cbn [preferLoop] in Hp. destruct (absorb _ _ _ _) as [keys1 u1]. destruct (walkSpan _ _ _ _ _ _) as [[keys2 ns] u2].
  destruct Hl as [Hl1 Hl2]. destruct Hl' as (_ & _ & _ & _ & _ & Hns & Hu2 & Hsum & _ & Hs2).
  destruct Hcar as [C1 _]. cbn in C1.
  destruct (Z.ltb_spec ns (send s)) as [Hlt|Hge].
  { rewrite before_eq in Hp by lia. injection Hp as <- <-. cbn. destruct (decide (ns <= Seq l)) as [H|H]; [|lia].
    destruct (Hl1 H); lia. }
  pose proof (rankChildren_perm ch) as Hperm. destruct (rankChildren ch) as [ch' margin]. cbn [fst] in Hperm.
  destruct ch' as [|best rest]; [injection Hp as <- <-; cbn; lia|].
  destruct (_ || _); [|injection Hp as <- <-; cbn; lia].
  apply bind_Some in Hp as ([tp1 n2] & Hp & [= <- <-]).
  assert (Hin : best ∈ ch) by (rewrite <- Hperm; by left). pose proof (depth_child best ch Hin) as Hdep. cbn [nodeDepth] in Hd.
  assert (Hbest : nodeOk false best).
  { inversion_clear Hok as [? ? ? ? ? _ _ _ _ _ _ _ Hch]. rewrite list.Forall_forall in Hch. by apply Hch. }
  destruct (preferLoop_ok (supportAt t) (fun k => support_nonneg t k Ht) li fuel false best keys2 u2 Hbest ltac:(lia) Hs2 Hu2 ltac:(lia))
    as (tp' & n3 & Hp' & _ & m & Hm1 & Hm2 & _). rewrite Hp in Hp'. injection Hp' as <- <-.
  destruct (below_later r (Node s ts b ch) best m Hok Hh Hin Hm1) as [Hlater _]. cbn in Hlater. lia.
Qed.

Lemma heavy_child r (s : span L) ts b ch i c :
  nodeOk r (Node s ts b ch) -> ch !! i = Some c -> B <= branchSupport c -> b <= branchSupport (root t) ->
  exists rest, (rankChildren ch).1 = c :: rest /\ branchSupport (root t) - B < (rankChildren ch).2.
Proof.
  intros Hok Hc Hb HT. inversion_clear Hok as [? ? ? ? ? _ _ Hts Hbs _ _ _ Hch].
  assert (Hbd : Forall (fun d => 0 <= branchSupport d <= max_u32) ch).
  { eapply Forall_impl; [exact Hch|]. intros d Hd%nodeOk_bounds. lia. }
  assert (H0 : Forall (fun d => 0 <= branchSupport d) ch) by (eapply Forall_impl; [exact Hbd|]; cbn; lia).
  destruct (rankChildren_top ch i c Hc) as (rest & Hr & Hm); [|done|].
  - intros k d Hk Hd. pose proof (sumOf_two branchSupport ch k i d c H0 Hk Hd Hc).
    pose proof (sumOf_one branchSupport ch k d H0 Hd). lia.
  - exists rest. split; [done|]. pose proof (sumOf_one branchSupport ch i c H0 Hc). lia.
Qed.

Lemma prefer_majority r fuel p n m keys u tp n' :
  nodeOk r n -> history n -> (nodeDepth n <= fuel)%nat -> ahead keys u ->
  nodeAt p n = Some m -> carries l m -> start (spanOf m) <= Seq l -> B <= branchSupport m ->
  branchSupport n <= branchSupport (root t) ->
  preferLoop (supportAt t) li fuel n keys u = Some (tp, n') -> through l tp.
Proof.
  revert r fuel n keys u tp n'. induction p as [|i p IH]; intros r fuel n keys u tp n' Hok Hh Hd Hah Hat Hcar Hst Hb HT Hp.
  { injection Hat as <-. by eapply prefer_carrier. }
  destruct (nodeAt_bounds _ _ _ _ Hok Hat) as [Hall Hmin]. rewrite list.Forall_forall in Hall.
  pose proof (Hall m Hmin) as Hmn. destruct n as [s ts b ch]. apply bind_Some in Hat as (c & Hc & Hat). cbn [children] in Hc.
  pose proof (list_elem_of_lookup_2 _ _ _ Hc) as Hin.
  destruct (below_later r (Node s ts b ch) c m Hok Hh Hin (nodeAt_subtree _ _ _ Hat)) as [Hlater _]. cbn [spanOf branchSupport] in *.
  pose proof (span_bounds _ _ Hok) as [Bs _]. cbn in Bs.
  destruct fuel as [|fuel]; [done|]. pose proof (level_majority r s ts b ch keys u Hok Hah ltac:(lia) ltac:(lia)) as Hl.
  cbn [preferLoop] in Hp. destruct (absorb _ _ _ _) as [keys1 u1]. destruct (walkSpan _ _ _ _ _ _) as [[keys2 ns] u2].
  destruct Hl as [Hl1 Hl2]. destruct (Hl1 ltac:(lia)) as [-> Ha2]. rewrite (proj2 (Z.ltb_ge _ _)) in Hp by lia.
  pose proof (depth_child c ch Hin) as Hdep. cbn [nodeDepth] in Hd.
  pose proof Hok as Hok0. inversion_clear Hok0 as [? ? ? ? ? Hs He Hts Hbs Hmx Hcmp Hsts Hch].
  inversion_clear Hh as [? ? ? ? H1 H2 H3].
  pose proof (Forall_lookup_1 _ _ _ _ Hch Hc) as Hcok. pose proof (Forall_lookup_1 _ _ _ _ H3 Hc) as Hch'. cbn in Hcok, Hch'.
  destruct (nodeAt_bounds _ _ _ _ Hcok Hat) as [Hall' Hmin']. rewrite list.Forall_forall in Hall'. pose proof (Hall' m Hmin') as Hmc. cbn in Hmc.
  destruct (heavy_child r s ts _ ch i c Hok Hc ltac:(lia) HT) as (rest & Hr1 & Hr2).
  destruct (rankChildren ch) as [ch' margin]. cbn [fst snd] in Hr1, Hr2. subst ch'.
  pose proof (ahead_small _ _ Ha2). rewrite (proj2 (Z.ltb_lt u2 margin)) in Hp by lia. cbn [orb] in Hp.
  apply bind_Some in Hp as ([tp1 n2] & Hp & [= <- <-]).
  assert (Hpos : Forall (fun d => 0 <= branchSupport d) ch).
  { eapply Forall_impl; [exact Hch|]. intros d Hdb%nodeOk_bounds. lia. }
  pose proof (sumOf_one branchSupport ch i c Hpos Hc).
  eapply (IH false fuel c keys2 u2 _ n2 Hcok Hch'); try done; lia.
Qed.

End Majority.

Lemma reordered_history n n' : reordered n n' -> history n -> history n'.
Proof.
  induction 1 as [s t b ch ch' Hp|s t b c c' rest Hre IH|]; [| |by auto]; intros Hh;
    inversion_clear Hh as [? ? ? ? H1 H2 H3 H4].
  - constructor; by rewrite <- ?Hp.
  - destruct (reordered_same _ _ Hre) as (S1 & _).
    apply list.Forall_cons in H1 as [H1 H1']. apply list.Forall_cons in H3 as [H3 H3'].
    constructor; [apply list.Forall_cons; by rewrite S1|cbn in *; by rewrite S1|apply list.Forall_cons; auto|done].
Qed.

Lemma reordered_tracks sup t n : tracks sup t -> reordered (root t) n -> tracks sup (set_root t n).
Proof.
  intros [[Ht Hw] Hh] Hre. split; [split; [by apply reordered_trie|]|by eapply reordered_history].
  intros f. cbn [set_root root]. destruct (reordered_same _ _ Hre) as (_ & _ & _ & ->). apply Hw.
Qed.

Lemma Insert_tracks sup t (l : L) count t' :
  tracks sup t -> 0 < count -> Insert t l count = Some t' -> tracks ((l, count) :: sup) t'.
Proof.
  intros [Hsup Hh] Hc Hi. split; [by eapply Insert_recorded|]. by eapply Insert_history; [apply Hsup|..].
Qed.

(** ** What the trie guarantees *)

Section Guarantees.
Context (sup : list (L * Z)) (t : Trie L) (Hsup : tracks sup t).

(** C21: among ledgers whose histories meet, a removal never panics, takes out as much of the ledger's own support as
    there is up to [count], and reports whether there was any. *)
Theorem Remove_refines (l : L) count :
  0 <= count ->
  exists t', Remove t l count = Some (t', negb (specTip sup l =? 0)) /\
    tracks ((l, - Z.min count (specTip sup l)) :: sup) t'.
Proof.
  intros Hc. pose proof (tr_ok _ _ Hsup) as Ht.
  assert (Htip : TipSupport t l = specTip sup l).
  { rewrite TipSupport_weight; [|done|apply Hsup]. by apply specTip_weight. }
  destruct (Remove_spec t l count Ht Hc) as (t' & Hr & Hok & Hw); [intros; by eapply (found_seq t); [|apply Hsup|..]|].
  rewrite Htip in *. exists t'. split; [done|].
  split; [split; [done|]|by eapply Remove_history; [apply Ht|apply Hsup|..]].
  intros f. rewrite sumOf_cons, Hw, (tr_weight _ _ Hsup). cbn. lia.
Qed.

(** The two queries return the support of the ledger itself, and of the
    ledger and all its descendants. *)
Theorem supports_exact (l : L) : TipSupport t l = specTip sup l /\ BranchSupport t l = specBranch sup l.
Proof.
  pose proof (tr_ok _ _ Hsup) as Ht. pose proof (tr_history _ _ Hsup) as Hh. split.
  - rewrite TipSupport_weight by done. by apply specTip_weight.
  - rewrite BranchSupport_weight by done. by apply specBranch_weight.
Qed.

(** C8: among ledgers whose histories meet, truncated or not, the search for the
    preferred ledger ends, reorders children only, and does not pass over a
    ledger whose branch outweighs twice the rest of the support, unless
    validations were already issued beyond it. *)
Theorem GetPreferred_majority largestIssued (l : L) :
  largestIssued <= Seq l -> 2 * (branchSupport (root t) - specBranch sup l) < specBranch sup l ->
  exists tp t', GetPreferred t largestIssued = Some (Some tp, t') /\ tracks sup t' /\ through l tp.
Proof.
  intros Hli Hmaj. pose proof (tr_ok _ _ Hsup) as Ht. pose proof (tr_history _ _ Hsup) as Hh.
  pose proof (specBranch_weight sup t l Hsup) as HB. set (B := specBranch sup l) in *.
  assert (HBT : 0 <= B <= branchSupport (root t)).
  { rewrite (branch_is_sum _ _ (ok_root _ Ht)), <- HB, <- sumSpans_tips.
    split; [rewrite <- (sumSpans_zero (fun _ => 0) (root t)) by done|];
      (apply (sumSpans_le _ _ true); [apply Ht|]; intros m _ _; unfold carryWeight; destruct (_ && _); lia). }
  destruct (GetPreferred_spec t largestIssued Ht ltac:(lia)) as (tp & n & Hg & Hre & _ & Hp).
  exists tp, (set_root t n). split; [done|]. split; [by apply reordered_tracks|].
  assert (Hex : Exists (carries l) (subtree (root t))).
  { destruct (decide (Exists (fun m => carryWeight l (spanOf m) <> 0) (subtree (root t)))) as [He|Hn].
    - eapply Exists_impl; [exact He|]. intros m. by apply carryWeight_carries.
    - rewrite (sumSpans_zero (carryWeight l)) in HB; [lia|]. intros m Hm.
      destruct (decide (carryWeight l (spanOf m) = 0)) as [|Hne]; [done|].
      destruct Hn. apply Exists_exists. by exists m. }
  apply Exists_exists in Hex as (m & Hm & Hcar). pose proof (root_meets t l Ht) as Hrm.
  destruct (findFrom_carries true l (root t) m (ok_root _ Ht) Hh Hrm Hm Hcar) as (loc & Hat & Hlc & Hd).
  destruct (findFrom_spec l (root t) true _ (ok_root _ Ht) Hrm) as (loc' & Hat' & Hlok & (Hst & _)).
  rewrite Hat in Hat'. injection Hat' as <-. rewrite Hd in Hst.
  assert (HlB : B <= branchSupport loc).
  { rewrite <- HB. rewrite (carry_unique true _ (root t) loc l (carryWeight l) (ok_root _ Ht) Hh Hat Hlc); [|lia|].
    - by rewrite (carry_branch _ loc l Hlok (nodeAt_history _ _ _ Hh Hat) Hlc).
    - intros x _. by apply carryWeight_carries. }
  eapply (prefer_majority t l B largestIssued Ht HB Hli Hmaj true _ _ (root t) loc (seqKeys t) 0);
    [apply Ht|done|done| |done|done|lia|done|lia|done].
  split; [done|]. split; [by rewrite (keys_total t Ht)|]. exists []. split; [done|apply Forall_nil_2].
Qed.

End Guarantees.

End History.

(** ** A network with a long trunk *)

(** Ledgers up to a hundred hops above a trunk of a thousand, which know 256
    ancestors as the ledgers of a running server do, and the genesis. *)
Inductive exLedger :=
  | genesis
  | above (hops : list Z).

Definition exHops (l : exLedger) : list Z := match l with genesis => [] | above h => take 100 h end.

Definition exSeq (l : exLedger) : Z := match l with genesis => 0 | above _ => 1000 + Z.of_nat (length (exHops l)) end.

Definition exMinSeq (l : exLedger) : Z := match l with genesis => 0 | above _ => exSeq l - Z.min (exSeq l - 1) 256 end.

Definition exChain (l : exLedger) (s : Z) : bytes := s :: take (Z.to_nat (s - 1000)) (exHops l).

#[global] Instance exampleLedger : Ledger exLedger := {
  ID l := exChain l (exSeq l);
  Seq := exSeq;
  MinSeq := exMinSeq;
  Ancestor l s := if (exMinSeq l <=? s) && (s <=? exSeq l) then exChain l s else [] }.

Lemma exHops_length l : (length (exHops l) <= 100)%nat.
Proof. destruct l; cbn; rewrite ?length_take; lia. Qed.

Lemma exSeq_range l : 0 <= exMinSeq l <= exSeq l /\ exSeq l <= 1100 /\ exMinSeq l <= 844 /\ (l = genesis \/ 1000 <= exSeq l).
Proof. pose proof (exHops_length l). destruct l; cbn in *; rewrite ?length_take in *; split_and!; auto; lia. Qed.

Lemma exAncestor (l : exLedger) s : known l s -> Ancestor l s = exChain l s.
Proof. intros [H1 H2]. cbn in *. by rewrite !(proj2 (Z.leb_le _ _)). Qed.

Lemma exChain_unique a b s p : p <= s -> exChain a s = exChain b s -> exChain a p = exChain b p.
Proof.
  intros Hp Hab. unfold exChain in *. f_equal. injection Hab as Hab. apply (f_equal (take (Z.to_nat (p - 1000)))) in Hab.
  by rewrite !take_take, !Nat.min_l in Hab by lia.
Qed.

#[global] Instance exampleLaws : LedgerLaws exLedger.
Proof.
  split.
  - intros l. pose proof (exSeq_range l). unfold max_u32. cbn. lia.
  - intros l. rewrite exAncestor; [done|]. pose proof (exSeq_range l). unfold known. cbn. lia.
  - intros a b Ha Hb. destruct (exSeq_range a) as (_ & _ & _ & [->|]), (exSeq_range b) as (_ & _ & _ & [->|]); cbn in *; first [done | lia].
  - intros a b s p Ha Hb Hab Hp Hpa Hpb. rewrite !exAncestor in * by done. by eapply exChain_unique.
Qed.

#[global] Instance exampleHistory : ResolvedHistory exLedger.
Proof.
  refine {| chain := exChain |}.
  - apply exAncestor.
  - done.
  - intros a b s p Hp _ _. apply exChain_unique. lia.
  - intros a b s _. by intros [=].
  - intros a b. unfold overlapLo, overlapHi. cbn.
    destruct (exSeq_range a) as (A1 & A2 & A3 & [->|A4]); [right; cbn in *; lia|].
    destruct (exSeq_range b) as (B1 & B2 & B3 & [->|B4]); [right; cbn in *; lia|].
    left. split; [lia|]. unfold exChain. by rewrite Z2Nat.nonpos by lia.
Defined.

Definition the (o : option (Trie exLedger)) : Trie exLedger :=
  match o with Some t => t | None => mkTrie (newEmptyNode genesis) ∅ [] end.

(** Two branches above hop 1: one with support 2, the other with support 7. *)
Definition exTrie0 : Trie exLedger := the (New genesis).
Definition exTrie1 : Trie exLedger := the (Insert exTrie0 (above [1; 2]) 2).
Definition exTrie2 : Trie exLedger := the (Insert exTrie1 (above [1; 3; 4]) 7).

Lemma exTrie1_tracks : tracks [(above [1; 2], 2)] exTrie1.
Proof.
  apply (Insert_tracks [] exTrie0); [|lia|by vm_compute].
  by apply (New_tracks genesis); vm_compute.
Qed.

Lemma exTrie2_tracks : tracks [(above [1; 3; 4], 7); (above [1; 2], 2)] exTrie2.
Proof. apply (Insert_tracks _ exTrie1); [apply exTrie1_tracks|lia|by vm_compute]. Qed.

Lemma Insert_refines_witness :
  exists t', Insert exTrie1 (above [1; 3; 4]) 7 = Some t' /\ recorded [(above [1; 3; 4], 7); (above [1; 2], 2)] t'.
Proof. exact (Insert_refines _ _ (above [1; 3; 4]) 7 (tr_recorded _ _ exTrie1_tracks) ltac:(lia)). Defined.

Lemma Remove_refines_witness :
  exists t', Remove exTrie2 (above [1; 2]) 5 = Some (t', true) /\
    tracks [(above [1; 2], -2); (above [1; 3; 4], 7); (above [1; 2], 2)] t'.
Proof. exact (Remove_refines _ _ exTrie2_tracks (above [1; 2]) 5 ltac:(lia)). Defined.

Lemma supports_exact_witness : TipSupport exTrie2 (above [1]) = 0 /\ BranchSupport exTrie2 (above [1]) = 9.
Proof. exact (supports_exact _ _ exTrie2_tracks (above [1])). Defined.

Lemma GetPreferred_total_witness :
  exists o t', GetPreferred exTrie2 1002 = Some (o, t') /\ trie_ok t' /\
    (forall f, sumTips f (root t') = sumTips f (root exTrie2)) /\
    match o with None => branchSupport (root exTrie2) = 0 | Some tp => pointOf (root exTrie2) tp end.
Proof. exact (GetPreferred_total exTrie2 1002 (tr_ok _ _ exTrie2_tracks)). Defined.

Lemma GetPreferred_majority_witness :
  exists tp t', GetPreferred exTrie2 1002 = Some (Some tp, t') /\
    tracks [(above [1; 3; 4], 7); (above [1; 2], 2)] t' /\ through (above [1; 3]) tp.
Proof.
  apply (GetPreferred_majority _ _ exTrie2_tracks 1002 (above [1; 3])); [by vm_compute|by vm_compute].
Defined.

Lemma reachable_checked_witness : reachable exTrie1 /\ CheckInvariants exTrie1 = true.
Proof.
  assert (Hr : reachable exTrie1).
  { apply (reach_Insert exTrie0 (above [1; 2]) 2); [|lia|by vm_compute]. by apply (reach_New genesis); vm_compute. }
  exact (conj Hr (reachable_checked exTrie1 Hr)).
Defined.

End LedgerTrie.
