(* ===== verification/Sha512.v ===== *)
(** * SHA-512Half (crypto/sha512half)

    The hash behind every node of the state tree: the first half of SHA-512,
    written out as the standard (FIPS 180-4) defines it, over 64-bit words held
    as integers. The components that hash do so through the class [Hasher], so
    that their theorems hold for any function with 32-byte results. *)

From Stdlib Require Import ZArith Lia.
From stdpp Require Import base list numbers.
From S2P Require Import Prelude.

Module Sha512.

(** ** Big-endian words *)

Fixpoint bytesToZ (l : bytes) (acc : Z) : Z :=
  match l with [] => acc | x :: l' => bytesToZ l' (acc * 256 + x) end.

(** The [n] low bytes of [z], the most significant first. *)
Fixpoint zToBytes (n : nat) (z : Z) : bytes :=
  match n with O => [] | S n => zToBytes n (z / 256) ++ [z mod 256] end.

Fixpoint toWords (fuel : nat) (l : bytes) : list Z :=
  match fuel, l with
  | S fuel, _ :: _ => bytesToZ (take 8 l) 0 :: toWords fuel (drop 8 l)
  | _, _ => []
  end.

(** ** The compression function *)

Definition rotr (n x : Z) : Z := Z.lor (Z.shiftr x n) (u64 (Z.shiftl x (64 - n))).

Definition Ch (x y z : Z) : Z := Z.lxor (Z.land x y) (Z.land (Z.lxor x max_u64) z).
Definition Maj (x y z : Z) : Z := Z.lxor (Z.lxor (Z.land x y) (Z.land x z)) (Z.land y z).
Definition bigSigma0 (x : Z) : Z := Z.lxor (Z.lxor (rotr 28 x) (rotr 34 x)) (rotr 39 x).
Definition bigSigma1 (x : Z) : Z := Z.lxor (Z.lxor (rotr 14 x) (rotr 18 x)) (rotr 41 x).
Definition sigma0 (x : Z) : Z := Z.lxor (Z.lxor (rotr 1 x) (rotr 8 x)) (Z.shiftr x 7).
Definition sigma1 (x : Z) : Z := Z.lxor (Z.lxor (rotr 19 x) (rotr 61 x)) (Z.shiftr x 6).

Definition roundConstants : list Z := [
  0x428a2f98d728ae22; 0x7137449123ef65cd; 0xb5c0fbcfec4d3b2f; 0xe9b5dba58189dbbc;
  0x3956c25bf348b538; 0x59f111f1b605d019; 0x923f82a4af194f9b; 0xab1c5ed5da6d8118;
  0xd807aa98a3030242; 0x12835b0145706fbe; 0x243185be4ee4b28c; 0x550c7dc3d5ffb4e2;
  0x72be5d74f27b896f; 0x80deb1fe3b1696b1; 0x9bdc06a725c71235; 0xc19bf174cf692694;
  0xe49b69c19ef14ad2; 0xefbe4786384f25e3; 0x0fc19dc68b8cd5b5; 0x240ca1cc77ac9c65;
  0x2de92c6f592b0275; 0x4a7484aa6ea6e483; 0x5cb0a9dcbd41fbd4; 0x76f988da831153b5;
  0x983e5152ee66dfab; 0xa831c66d2db43210; 0xb00327c898fb213f; 0xbf597fc7beef0ee4;
  0xc6e00bf33da88fc2; 0xd5a79147930aa725; 0x06ca6351e003826f; 0x142929670a0e6e70;
  0x27b70a8546d22ffc; 0x2e1b21385c26c926; 0x4d2c6dfc5ac42aed; 0x53380d139d95b3df;
  0x650a73548baf63de; 0x766a0abb3c77b2a8; 0x81c2c92e47edaee6; 0x92722c851482353b;
  0xa2bfe8a14cf10364; 0xa81a664bbc423001; 0xc24b8b70d0f89791; 0xc76c51a30654be30;
  0xd192e819d6ef5218; 0xd69906245565a910; 0xf40e35855771202a; 0x106aa07032bbd1b8;
  0x19a4c116b8d2d0c8; 0x1e376c085141ab53; 0x2748774cdf8eeb99; 0x34b0bcb5e19b48a8;
  0x391c0cb3c5c95a63; 0x4ed8aa4ae3418acb; 0x5b9cca4f7763e373; 0x682e6ff3d6b2b8a3;
  0x748f82ee5defb2fc; 0x78a5636f43172f60; 0x84c87814a1f0ab72; 0x8cc702081a6439ec;
  0x90befffa23631e28; 0xa4506cebde82bde9; 0xbef9a3f7b2c67915; 0xc67178f2e372532b;
  0xca273eceea26619c; 0xd186b8c721c0c207; 0xeada7dd6cde0eb1e; 0xf57d4f7fee6ed178;
  0x06f067aa72176fba; 0x0a637dc5a2c898a6; 0x113f9804bef90dae; 0x1b710b35131c471b;
  0x28db77f523047d84; 0x32caab7b40c72493; 0x3c9ebe0a15c9bebc; 0x431d67c49c100d4c;
  0x4cc5d4becb3e42b6; 0x597f299cfc657e2a; 0x5fcb6fab3ad6faec; 0x6c44198c4a475817].

Definition initialHash : list Z := [
  0x6a09e667f3bcc908; 0xbb67ae8584caa73b; 0x3c6ef372fe94f82b; 0xa54ff53a5f1d36f1;
  0x510e527fade682d1; 0x9b05688c2b3e6c1f; 0x1f83d9abfb41bd6b; 0x5be0cd19137e2179].

(** Extends the schedule, held with the latest word first. *)
Fixpoint schedule (n : nat) (w : list Z) : list Z :=
  match n with
  | O => w
  | S n =>
      let next := u64 (sigma1 (nth 1 w 0) + nth 6 w 0 + sigma0 (nth 14 w 0) + nth 15 w 0) in
      schedule n (next :: w)
  end.

Definition round (s : list Z) (kw : Z * Z) : list Z :=
  match s with
  | [a; b; c; d; e; f; g; h] =>
      let t1 := u64 (h + bigSigma1 e + Ch e f g + kw.1 + kw.2) in
      let t2 := u64 (bigSigma0 a + Maj a b c) in
      [u64 (t1 + t2); a; b; c; u64 (d + t1); e; f; g]
  | _ => s
  end.

Definition compress (h : list Z) (block : bytes) : list Z :=
  let w := rev (schedule 64 (rev (toWords 16 block))) in
  zip_with (fun x y => u64 (x + y)) h (foldl round h (zip roundConstants w)).

Definition pad (msg : bytes) : bytes :=
  let n := Z.of_nat (length msg) in
  msg ++ 128 :: replicate (Z.to_nat ((- n - 17) mod 128)) 0 ++ zToBytes 16 (8 * n).

Fixpoint blocks (fuel : nat) (h : list Z) (l : bytes) : list Z :=
  match fuel, l with
  | S fuel, _ :: _ => blocks fuel (compress h (take 128 l)) (drop 128 l)
  | _, _ => h
  end.

Definition sha512 (msg : bytes) : bytes :=
  let l := pad msg in
  blocks (length l) initialHash l ≫= zToBytes 8.

(** The source's [Sum] of one concatenated argument list. *)
Definition Sum (msg : bytes) : bytes := take 32 (sha512 msg).

(** ** Length *)

Lemma zToBytes_length n z : length (zToBytes n z) = n.
Proof. revert z. induction n as [|n IH]; intros z; cbn; [done|]. rewrite length_app, IH. cbn. lia. Qed.

Lemma zToBytes_bytes n z : all_bytes (zToBytes n z).
Proof.
  revert z. induction n as [|n IH]; intros z; cbn; [constructor|].
  apply Forall_app. split; [apply IH|]. constructor; [|constructor].
  unfold is_uint. change (2 ^ 8) with 256. apply Z.mod_pos_bound. lia.
Qed.

Lemma round_length s kw : length (round s kw) = length s.
Proof. by destruct s as [|? [|? [|? [|? [|? [|? [|? [|? [|]]]]]]]]]. Qed.

Lemma compress_length h block : length h = 8%nat -> length (compress h block) = 8%nat.
Proof.
  intros Hh. unfold compress. rewrite length_zip_with.
  assert (Hf : forall l s, length (foldl round s l) = length s).
  { induction l as [|x l IH]; intros s; cbn; [done|]. by rewrite IH, round_length. }
  rewrite Hf, Hh. done.
Qed.

Lemma blocks_length fuel h l : length h = 8%nat -> length (blocks fuel h l) = 8%nat.
Proof.
  revert h l. induction fuel as [|fuel IH]; intros h [|x l] Hh; cbn; try done.
  by apply IH, compress_length.
Qed.

Lemma Sum_length msg : length (Sum msg) = 32%nat.
Proof.
  unfold Sum, sha512. rewrite length_take.
  assert (Hs : forall l : list Z, length (l ≫= zToBytes 8) = (8 * length l)%nat).
  { induction l as [|x l IH]; [done|].
    rewrite bind_cons, length_app, zToBytes_length, IH. cbn. lia. }
  rewrite Hs, blocks_length by done. done.
Qed.

Lemma Sum_bytes msg : all_bytes (Sum msg).
Proof.
  unfold Sum. apply Forall_take. unfold sha512. apply list.Forall_forall. intros x Hx.
  apply list_elem_of_bind in Hx as (z & Hx & _). by eapply list.Forall_forall in Hx; [|apply zToBytes_bytes].
Qed.

End Sha512.

(** ** Hash functions as the tree uses them *)

Class Hasher := {
  Hash : bytes -> bytes;
  Hash_length x : length (Hash x) = 32%nat;
  Hash_bytes x : all_bytes (Hash x) }.

Definition sha512half : Hasher :=
  {| Hash := Sha512.Sum; Hash_length := Sha512.Sum_length; Hash_bytes := Sha512.Sum_bytes |}.

(** The digest the repository's own test expects of [fakeRandomString]. *)
Example Sum_test_vector :
  Sha512.Sum [102; 97; 107; 101; 82; 97; 110; 100; 111; 109; 83; 116; 114; 105; 110; 103] =
  [0xbb; 0x3e; 0xca; 0x89; 0x85; 0xe1; 0x48; 0x4f; 0xa6; 0xa2; 0x8c; 0x4b; 0x30; 0xfb; 0x00; 0x42;
   0xa2; 0xcc; 0x5d; 0xf3; 0xec; 0x8d; 0xc3; 0x7b; 0x5f; 0x3d; 0x12; 0x6d; 0xdf; 0xd3; 0xca; 0x14].
Proof. vm_compute. reflexivity. Qed.

(** A function of the same shape that is cheap to evaluate, for examples. *)
Definition exampleHash (x : bytes) : bytes := 1 :: take 31 ((fun b => b mod 256) <$> x ++ replicate 31 0).

Lemma exampleHash_length x : length (exampleHash x) = 32%nat.
Proof. unfold exampleHash. cbn [length]. rewrite length_take, length_fmap, length_app, length_replicate. lia. Qed.

Lemma exampleHash_bytes x : all_bytes (exampleHash x).
Proof.
  constructor; [unfold is_uint; lia|]. apply Forall_take, Forall_fmap, Forall_true. intros b. unfold is_uint, compose.
  apply Z.mod_pos_bound. lia.
Qed.

Definition exampleHasher : Hasher :=
  {| Hash := exampleHash; Hash_length := exampleHash_length; Hash_bytes := exampleHash_bytes |}.
