(* ===== verification/ShaMapKey.v ===== *)
(** * State tree: keys and positions (shamap/keypath.go, shamap/node_id.go)

    A key is 32 bytes, read as 64 nibbles; the nibble at a depth selects the
    branch of the inner node at that depth. A node's position is its depth and
    the key prefix that leads to it. *)

From Stdlib Require Import ZArith Lia.
From stdpp Require Import base list numbers.
From S2P Require Import Prelude.

Module ShaMapKey.

(** The errors of the package, in the order of its files; [errMalformed] stands
    for the decoders' formatted messages. [outOfFuel] is no error of the source:
    a bounded recursion of the model reports with it that its bound was reached. *)
Inductive Error :=
  | ErrImmutable | errNilItem | ErrItemNotFound | errInvalidType | errInvalidState
  | errItemTooSmall | errNilFamily
  | errInvalidBranch | errEmptyNonRoot
  | errInvalidNodeIDLength | errMaxDepthExceeded | errNonCanonicalNodeID
  | ErrNodeNotInStore (hash : bytes) | ErrInvalidNodeData | errFetch
  | errMalformed | outOfFuel.

Abbreviation Result A := (sum Error A).

Definition maxDepth : Z := 64.
Definition branchMask : Z := 0x0F.

(** A [[32]byte]. *)
Definition is_key (k : bytes) : Prop := length k = 32%nat /\ all_bytes k.

Definition zeroHash : bytes := replicate 32 0.
Definition isZeroHash (h : bytes) : bool := bool_decide (h = zeroHash).

(** ** Nibbles *)

Definition byteAt (k : bytes) (i : Z) : Z := k !!! Z.to_nat i.

Definition getBranchAtDepth (key : bytes) (depth : Z) : Z :=
  if maxDepth <=? depth then 0
  else
    let byteIndex := depth / 2 in
    if 32 <=? byteIndex then 0
    else
      let b := byteAt key byteIndex in
      if depth mod 2 =? 0 then Z.shiftr b 4 else Z.land b 0x0F.

(** The first depth from [startDepth] on at which the keys differ. *)
Fixpoint splitLoop (fuel : nat) (key1 key2 : bytes) (depth : Z) : Z :=
  match fuel with
  | O => maxDepth - 1
  | S fuel =>
      if depth <? maxDepth then
        if negb (getBranchAtDepth key1 depth =? getBranchAtDepth key2 depth) then depth
        else splitLoop fuel key1 key2 (depth + 1)
      else maxDepth - 1
  end.

Definition findSplitDepth (key1 key2 : bytes) (startDepth : Z) : Z :=
  splitLoop (Z.to_nat (maxDepth - startDepth)) key1 key2 startDepth.

Definition setByte (k : bytes) (i : Z) (f : Z -> Z) : bytes := alter f (Z.to_nat i) k.

Definition childPathForBranch (parentPath : bytes) (depth branch : Z) : bytes :=
  let bytePos := depth / 2 in
  if depth mod 2 =? 0
  then setByte parentPath bytePos (fun b => Z.lor (Z.land b 0x0F) (u8 (Z.shiftl branch 4)))
  else setByte parentPath bytePos (fun b => Z.lor (Z.land b 0xF0) branch).

Definition selectBranchForPath (path : bytes) (depth : Z) : Z :=
  let bytePos := depth / 2 in
  if depth mod 2 =? 0 then Z.shiftr (byteAt path bytePos) 4 else Z.land (byteAt path bytePos) 0x0F.

Definition pathPrefixEq (a b : bytes) (depth : Z) : bool :=
  forallb (fun d => selectBranchForPath a (Z.of_nat d) =? selectBranchForPath b (Z.of_nat d))
    (seq 0 (Z.to_nat depth)).

(** ** Positions *)

Record NodeID := mkNodeID { depth : Z; id : bytes }.

Definition NodeIDSize : Z := 33.
Definition newRootNodeID : NodeID := mkNodeID 0 zeroHash.

(** Clears the nibbles from [depth] on. *)
Definition maskKey (depth : Z) (key : bytes) : bytes :=
  if depth <? maxDepth then
    let byteIndex := depth / 2 in
    let id := if depth mod 2 =? 1 then setByte key byteIndex (fun b => Z.land b 0xF0) else key in
    let from := Z.to_nat ((depth + 1) / 2) in
    take from id ++ replicate (32 - from) 0
  else key.

Definition createNodeID (depth : Z) (key : bytes) : Result NodeID :=
  if maxDepth <? depth then inl errMaxDepthExceeded
  else inr (mkNodeID depth (maskKey depth key)).

Definition IsRoot (n : NodeID) : bool := depth n =? 0.

Definition ParseNodeID (data : bytes) : Result NodeID :=
  if negb (Z.of_nat (length data) =? NodeIDSize) then inl errInvalidNodeIDLength
  else
    let depth := byteAt data 32 in
    if maxDepth <? depth then inl errMaxDepthExceeded
    else
      let key := take 32 data in
      let? canonical := createNodeID depth key in
      if negb (bool_decide (id canonical = key)) then inl errNonCanonicalNodeID
      else inr canonical.

Definition Bytes (n : NodeID) : bytes := id n ++ [depth n].

Definition childNodeID (n : NodeID) (branch : Z) : Result NodeID :=
  if 15 <? branch then inl errInvalidBranch
  else if maxDepth <=? depth n then inl errMaxDepthExceeded
  else
    let newDepth := u8 (depth n + 1) in
    let byteIndex := depth n / 2 in
    if 32 <=? byteIndex then inl errMaxDepthExceeded
    else
      let newID :=
        if depth n mod 2 =? 0
        then setByte (id n) byteIndex (fun b => Z.lor (Z.land b 0x0F) (u8 (Z.shiftl branch 4)))
        else setByte (id n) byteIndex (fun b => Z.lor (Z.land b 0xF0) branch) in
      inr (mkNodeID newDepth newID).

Definition selectBranch (nodeID : NodeID) (key : bytes) : Z :=
  let d := if maxDepth <=? depth nodeID then maxDepth - 1 else depth nodeID in
  let byteIndex := d / 2 in
  if 32 <=? byteIndex then 0
  else
    let b := byteAt key byteIndex in
    if d mod 2 =? 0 then Z.shiftr b 4 else Z.land b branchMask.

(** [compareKeys]. *)
Definition compareKeys (a b : bytes) : comparison := bytes_compare a b.

(** ** Nibbles of well-formed keys *)

(** The branch of the node at depth [d] on the way to [k]. *)
Definition nibble (k : bytes) (d : nat) : nat := Z.to_nat (getBranchAtDepth k (Z.of_nat d)).

Lemma key_byte k i : is_key k -> (i < 32)%nat -> is_uint 8 (k !!! i).
Proof.
  intros [Hl Hb] Hi. destruct (lookup_lt_is_Some_2 k i ltac:(lia)) as [x Hx].
  rewrite (list_lookup_total_correct _ _ _ Hx). by eapply (Forall_lookup_1 (is_uint 8)).
Qed.

Lemma key_lookup k i x : is_key k -> k !! i = Some x -> is_uint 8 x.
Proof. intros [_ Hb] Hx. by eapply (Forall_lookup_1 (is_uint 8)). Qed.

Lemma byte_split b : is_uint 8 b -> b = 16 * Z.shiftr b 4 + Z.land b 0x0F /\ 0 <= Z.shiftr b 4 < 16 /\ 0 <= Z.land b 0x0F < 16.
Proof.
  unfold is_uint. intros Hb. rewrite Z.shiftr_div_pow2 by lia. change 0x0F with (Z.ones 4).
  rewrite Z.land_ones by lia. change (2 ^ 4) with 16. change (2 ^ 8) with 256 in Hb. dmlia.
Qed.

Lemma branch_even k d : (d < 32)%nat -> getBranchAtDepth k (2 * Z.of_nat d) = Z.shiftr (k !!! d) 4.
Proof.
  intros Hd. unfold getBranchAtDepth, maxDepth, byteAt. rewrite (proj2 (Z.leb_gt _ _)) by lia.
  rewrite Z.mul_comm, Z.div_mul, Z_mod_mult by lia. rewrite (proj2 (Z.leb_gt _ _)) by lia. by rewrite Nat2Z.id.
Qed.

Lemma branch_odd k d : (d < 32)%nat -> getBranchAtDepth k (2 * Z.of_nat d + 1) = Z.land (k !!! d) 0x0F.
Proof.
  intros Hd. unfold getBranchAtDepth, maxDepth, byteAt. rewrite (proj2 (Z.leb_gt _ _)) by lia.
  replace ((2 * Z.of_nat d + 1) / 2) with (Z.of_nat d) by dmlia.
  replace ((2 * Z.of_nat d + 1) mod 2) with 1 by dmlia.
  rewrite (proj2 (Z.leb_gt _ _)) by lia. by rewrite Nat2Z.id.
Qed.

Lemma depth_cases (d : nat) : exists j, Z.of_nat d = 2 * Z.of_nat j \/ Z.of_nat d = 2 * Z.of_nat j + 1.
Proof.
  exists (d / 2)%nat. pose proof (Nat.div_mod_eq d 2). pose proof (Nat.mod_upper_bound d 2 ltac:(lia)). lia.
Qed.

Lemma branch_range k (d : nat) : is_key k -> 0 <= getBranchAtDepth k (Z.of_nat d) < 16.
Proof.
  intros Hk. destruct (decide (d < 64)%nat) as [Hd|Hd].
  2:{ unfold getBranchAtDepth, maxDepth. rewrite (proj2 (Z.leb_le _ _)) by lia. lia. }
  destruct (depth_cases d) as [j [Hj|Hj]]; rewrite Hj.
  - rewrite branch_even by lia. by apply byte_split, key_byte; [|lia].
  - rewrite branch_odd by lia. by apply byte_split, key_byte; [|lia].
Qed.

Lemma nibble_lt k d : is_key k -> (nibble k d < 16)%nat.
Proof. intros Hk. pose proof (branch_range k d Hk). unfold nibble. lia. Qed.

Lemma nibble_branch k d : is_key k -> Z.of_nat (nibble k d) = getBranchAtDepth k (Z.of_nat d).
Proof. intros Hk. pose proof (branch_range k d Hk). unfold nibble. lia. Qed.

(** Keys that agree on every nibble are equal. *)
Lemma key_ext a b : is_key a -> is_key b -> (forall d, (d < 64)%nat -> nibble a d = nibble b d) -> a = b.
Proof.
  intros Ha Hb Hn. apply list_eq_same_length with 32%nat; [by destruct Hb|destruct Ha, Hb; congruence|].
  intros i x y Hi Hx Hy.
  assert (Hz : forall d, (d < 64)%nat -> getBranchAtDepth a (Z.of_nat d) = getBranchAtDepth b (Z.of_nat d)).
  { intros d Hd. rewrite <- !nibble_branch by done. by rewrite Hn. }
  pose proof (Hz (2 * i)%nat ltac:(lia)) as H0. pose proof (Hz (2 * i + 1)%nat ltac:(lia)) as H1.
  replace (Z.of_nat (2 * i)) with (2 * Z.of_nat i) in H0 by lia.
  replace (Z.of_nat (2 * i + 1)) with (2 * Z.of_nat i + 1) in H1 by lia.
  rewrite !branch_even in H0 by lia. rewrite !branch_odd in H1 by lia.
  rewrite (list_lookup_total_correct _ _ _ Hx), (list_lookup_total_correct _ _ _ Hy) in H0, H1.
  destruct (byte_split x (key_lookup _ _ _ Ha Hx)) as [Hxs _].
  destruct (byte_split y (key_lookup _ _ _ Hb Hy)) as [Hys _].
  rewrite Hxs, Hys. lia.
Qed.

(** ** Where two keys part *)

(** [a] and [b] agree on the first [n] nibbles. *)
Definition samePrefix (n : nat) (a b : bytes) : Prop := forall d, (d < n)%nat -> nibble a d = nibble b d.

Lemma samePrefix_refl n a : samePrefix n a a.
Proof. done. Qed.

Lemma samePrefix_sym n a b : samePrefix n a b -> samePrefix n b a.
Proof. intros H d Hd. symmetry. by apply H. Qed.

Lemma samePrefix_trans n a b c : samePrefix n a b -> samePrefix n b c -> samePrefix n a c.
Proof. intros H1 H2 d Hd. rewrite H1 by done. by apply H2. Qed.

Lemma samePrefix_le m n a b : (m <= n)%nat -> samePrefix n a b -> samePrefix m a b.
Proof. intros Hm H d Hd. apply H. lia. Qed.

Lemma samePrefix_S n a b : samePrefix (S n) a b <-> samePrefix n a b /\ nibble a n = nibble b n.
Proof.
  split.
  - intros H. split; [by apply (samePrefix_le n (S n)); [lia|]|apply H; lia].
  - intros [H Hn] d Hd. destruct (decide (d = n)) as [->|]; [done|apply H; lia].
Qed.

Lemma samePrefix_64 a b : is_key a -> is_key b -> samePrefix 64 a b -> a = b.
Proof. intros Ha Hb H. by apply key_ext. Qed.

Lemma splitLoop_spec fuel a b (d : nat) :
  is_key a -> is_key b -> a <> b -> samePrefix d a b -> (d + fuel = 64)%nat ->
  exists s : nat, splitLoop fuel a b (Z.of_nat d) = Z.of_nat s /\ (d <= s < 64)%nat /\
    samePrefix s a b /\ nibble a s <> nibble b s.
Proof.
  intros Ha Hb Hne. revert d. induction fuel as [|fuel IH]; intros d Hp Hf.
  { destruct Hne. apply samePrefix_64; [done..|]. by replace 64%nat with d by lia. }
  cbn [splitLoop]. unfold maxDepth. rewrite (proj2 (Z.ltb_lt _ _)) by lia.
  destruct (Z.eqb_spec (getBranchAtDepth a (Z.of_nat d)) (getBranchAtDepth b (Z.of_nat d))) as [He|He]; cbn [negb].
  - replace (Z.of_nat d + 1) with (Z.of_nat (S d)) by lia.
    destruct (IH (S d)) as (s & Hs & Hsd & Hsp & Hsn); [|lia|exists s; split_and!; try done; lia].
    apply samePrefix_S. split; [done|]. unfold nibble. by rewrite He.
  - exists d. split_and!; try done; [lia..|]. unfold nibble.
    pose proof (branch_range a d Ha). pose proof (branch_range b d Hb). lia.
Qed.

Lemma findSplitDepth_spec a b (d : nat) :
  is_key a -> is_key b -> a <> b -> samePrefix d a b -> (d <= 64)%nat ->
  exists s : nat, findSplitDepth a b (Z.of_nat d) = Z.of_nat s /\ (d <= s < 64)%nat /\
    samePrefix s a b /\ nibble a s <> nibble b s.
Proof.
  intros Ha Hb Hne Hp Hd. unfold findSplitDepth, maxDepth. apply splitLoop_spec; try done. lia.
Qed.

(** ** The order of keys is the order of their nibbles *)

Lemma bytes_compare_app p a b : bytes_compare (p ++ a) (p ++ b) = bytes_compare a b.
Proof. induction p as [|x p IH]; cbn; [done|]. by rewrite Z.compare_refl. Qed.

Lemma prefix_bytes a b (j : nat) :
  is_key a -> is_key b -> (j <= 32)%nat -> samePrefix (2 * j) a b -> take j a = take j b.
Proof.
  intros Ha Hb Hj Hp. apply list_eq. intros i. destruct (decide (i < j)%nat) as [Hi|Hi].
  2:{ rewrite !lookup_take_ge by lia. done. }
  rewrite !lookup_take_lt by done.
  pose proof Ha as [La _]. pose proof Hb as [Lb _].
  destruct (lookup_lt_is_Some_2 a i ltac:(lia)) as [x Hx]. destruct (lookup_lt_is_Some_2 b i ltac:(lia)) as [y Hy].
  rewrite Hx, Hy. f_equal.
  destruct (byte_split x (key_lookup _ _ _ Ha Hx)) as [Hxs _].
  destruct (byte_split y (key_lookup _ _ _ Hb Hy)) as [Hys _].
  pose proof (Hp (2 * i)%nat ltac:(lia)) as H0. pose proof (Hp (2 * i + 1)%nat ltac:(lia)) as H1.
  apply (f_equal Z.of_nat) in H0, H1. rewrite !nibble_branch in H0, H1 by done.
  replace (Z.of_nat (2 * i)) with (2 * Z.of_nat i) in H0 by lia.
  replace (Z.of_nat (2 * i + 1)) with (2 * Z.of_nat i + 1) in H1 by lia.
  rewrite !branch_even in H0 by lia. rewrite !branch_odd in H1 by lia.
  rewrite (list_lookup_total_correct _ _ _ Hx), (list_lookup_total_correct _ _ _ Hy) in H0, H1. lia.
Qed.

Lemma compareKeys_nibble a b (s : nat) :
  is_key a -> is_key b -> (s < 64)%nat -> samePrefix s a b -> (nibble a s < nibble b s)%nat ->
  compareKeys a b = Lt.
Proof.
  intros Ha Hb Hs Hp Hn. unfold compareKeys. destruct (depth_cases s) as [j Hj].
  assert (Hj32 : (j < 32)%nat) by lia. pose proof Ha as [La Ba]. pose proof Hb as [Lb Bb].
  rewrite <- (take_drop j a), <- (take_drop j b), (prefix_bytes a b j Ha Hb), bytes_compare_app;
    [|lia|by apply (samePrefix_le _ s); [lia|]].
  destruct (lookup_lt_is_Some_2 a j ltac:(lia)) as [x Hx]. destruct (lookup_lt_is_Some_2 b j ltac:(lia)) as [y Hy].
  rewrite (drop_S _ _ _ Hx), (drop_S _ _ _ Hy). cbn [bytes_compare].
  destruct (byte_split x (key_lookup _ _ _ Ha Hx)) as [Hxs Hxr].
  destruct (byte_split y (key_lookup _ _ _ Hb Hy)) as [Hys Hyr].
  assert (Hlt : x < y); [|by rewrite (proj2 (Z.compare_lt_iff x y) Hlt)].
  apply Nat2Z.inj_lt in Hn. rewrite !nibble_branch in Hn by done.
  destruct Hj as [Hj|Hj]; rewrite Hj in Hn.
  - rewrite !branch_even in Hn by lia.
    rewrite (list_lookup_total_correct _ _ _ Hx), (list_lookup_total_correct _ _ _ Hy) in Hn. lia.
  - rewrite !branch_odd in Hn by lia.
    assert (H0 : getBranchAtDepth a (2 * Z.of_nat j) = getBranchAtDepth b (2 * Z.of_nat j)).
    { pose proof (Hp (2 * j)%nat ltac:(lia)) as H0. apply (f_equal Z.of_nat) in H0.
      rewrite !nibble_branch in H0 by done. by replace (Z.of_nat (2 * j)) with (2 * Z.of_nat j) in H0 by lia. }
    rewrite !branch_even in H0 by lia.
    rewrite (list_lookup_total_correct _ _ _ Hx), (list_lookup_total_correct _ _ _ Hy) in Hn, H0. lia.
Qed.

(** ** Changing one nibble *)

Definition bytePairs (P : Z -> Z -> bool) : bool :=
  forallb (fun x => forallb (P (Z.of_nat x)) (Z.of_nat <$> seq 0 16)) (seq 0 256).

Lemma bytePairs_spec P x b : bytePairs P = true -> is_uint 8 x -> 0 <= b < 16 -> P x b = true.
Proof.
  unfold bytePairs, is_uint. intros HP Hx Hb. rewrite forallb_forall in HP.
  specialize (HP (Z.to_nat x)). rewrite forallb_forall in HP. rewrite <- (Z2Nat.id x), <- (Z2Nat.id b) by lia.
  apply HP.
  - apply in_seq. change (2 ^ 8) with 256 in Hx. lia.
  - apply in_map, in_seq. lia.
Qed.

Lemma set_high x b :
  is_uint 8 x -> 0 <= b < 16 -> Z.lor (Z.land x 0x0F) (u8 (Z.shiftl b 4)) = 16 * b + Z.land x 0x0F.
Proof.
  intros Hx Hb. apply Z.eqb_eq.
  by apply (bytePairs_spec (fun x b => Z.lor (Z.land x 0x0F) (u8 (Z.shiftl b 4)) =? 16 * b + Z.land x 0x0F)).
Qed.

Lemma set_low x b : is_uint 8 x -> 0 <= b < 16 -> Z.lor (Z.land x 0xF0) b = 16 * Z.shiftr x 4 + b.
Proof.
  intros Hx Hb. apply Z.eqb_eq.
  by apply (bytePairs_spec (fun x b => Z.lor (Z.land x 0xF0) b =? 16 * Z.shiftr x 4 + b)).
Qed.

Lemma mask_low x : is_uint 8 x -> Z.land x 0xF0 = 16 * Z.shiftr x 4.
Proof. intros Hx. pose proof (set_low x 0 Hx ltac:(lia)) as H. by rewrite Z.lor_0_r, Z.add_0_r in H. Qed.

Lemma byte_of_nibbles h l : 0 <= h < 16 -> 0 <= l < 16 ->
  is_uint 8 (16 * h + l) /\ Z.shiftr (16 * h + l) 4 = h /\ Z.land (16 * h + l) 0x0F = l.
Proof.
  intros Hh Hl. unfold is_uint. change (2 ^ 8) with 256. rewrite Z.shiftr_div_pow2 by lia.
  change 0x0F with (Z.ones 4). rewrite Z.land_ones by lia. change (2 ^ 4) with 16. split_and!; dmlia.
Qed.

Lemma setByte_key k i f :
  is_key k -> (forall x, is_uint 8 x -> is_uint 8 (f x)) -> is_key (setByte k i f).
Proof.
  intros [Hl Hb] Hf. unfold setByte. split; [by rewrite length_alter|].
  apply Forall_alter; [done|]. intros x _ Hx. by apply Hf.
Qed.

Lemma setByte_lookup k (j i : nat) f :
  is_key k -> (j < 32)%nat -> setByte k (Z.of_nat i) f !!! j = if decide (j = i) then f (k !!! j) else k !!! j.
Proof.
  intros [Hl _] Hj. unfold setByte. rewrite Nat2Z.id. rewrite !list_lookup_total_alt.
  destruct (decide (j = i)) as [->|Hne].
  - rewrite list_lookup_alter_eq. destruct (lookup_lt_is_Some_2 k i ltac:(lia)) as [x Hx]. by rewrite Hx.
  - by rewrite list_lookup_alter_ne.
Qed.

(** The nibbles of a key in terms of its bytes. *)
Lemma nibble_even k (j : nat) : (j < 32)%nat -> nibble k (2 * j) = Z.to_nat (Z.shiftr (k !!! j) 4).
Proof. intros Hj. unfold nibble. rewrite <- branch_even by done. do 2 f_equal. lia. Qed.

Lemma nibble_odd k (j : nat) : (j < 32)%nat -> nibble k (2 * j + 1) = Z.to_nat (Z.land (k !!! j) 0x0F).
Proof. intros Hj. unfold nibble. rewrite <- branch_odd by done. do 2 f_equal. lia. Qed.

Lemma nibble_ge k d : (64 <= d)%nat -> nibble k d = 0%nat.
Proof. intros Hd. unfold nibble, getBranchAtDepth, maxDepth. by rewrite (proj2 (Z.leb_le _ _)) by lia. Qed.

Lemma nat_half (d : nat) : exists j, d = (2 * j)%nat \/ d = (2 * j + 1)%nat.
Proof. destruct (depth_cases d) as [j Hj]. exists j. lia. Qed.

Lemma setByte_nibble k (j i : nat) f :
  is_key k -> (j < 32)%nat ->
  nibble (setByte k (Z.of_nat j) f) i =
  if decide (i = 2 * j)%nat then Z.to_nat (Z.shiftr (f (k !!! j)) 4)
  else if decide (i = 2 * j + 1)%nat then Z.to_nat (Z.land (f (k !!! j)) 0x0F)
  else nibble k i.
Proof.
  intros Hk Hj. destruct (decide (64 <= i)%nat) as [Hge|Hlt].
  { rewrite !nibble_ge by done. destruct (decide _); [lia|]. destruct (decide _); [lia|done]. }
  destruct (nat_half i) as [j' [->| ->]].
  - rewrite !nibble_even, setByte_lookup by (done || lia). destruct (decide (j' = j)) as [->|].
    + by rewrite decide_True.
    + rewrite !decide_False by lia. done.
  - rewrite !nibble_odd, setByte_lookup by (done || lia). destruct (decide (j' = j)) as [->|].
    + rewrite decide_False, decide_True by lia. done.
    + rewrite !decide_False by lia. done.
Qed.

Lemma childPath_nibbles k (d b : nat) :
  is_key k -> (d < 64)%nat -> (b < 16)%nat ->
  let k' := childPathForBranch k (Z.of_nat d) (Z.of_nat b) in
  is_key k' /\ forall i, nibble k' i = if decide (i = d) then b else nibble k i.
Proof.
  intros Hk Hd Hb. cbv zeta. unfold childPathForBranch. destruct (nat_half d) as [j Hj].
  assert (Hj32 : (j < 32)%nat) by lia. pose proof (key_byte k j Hk Hj32) as Hx.
  replace (Z.of_nat d / 2) with (Z.of_nat j) by dmlia.
  destruct (byte_split _ Hx) as (_ & Hxh & Hxl). destruct Hj as [->| ->].
  - rewrite (proj2 (Z.eqb_eq (_ mod 2) 0)) by dmlia. split.
    + apply setByte_key; [done|]. intros x Hx'. rewrite set_high by (done || lia).
      by apply byte_of_nibbles; [lia|apply byte_split].
    + intros i. rewrite setByte_nibble, set_high by (done || lia).
      destruct (byte_of_nibbles (Z.of_nat b) (Z.land (k !!! j) 0x0F)) as (_ & -> & ->); [lia|done|].
      destruct (decide (i = 2 * j)%nat) as [->|]; [lia|].
      destruct (decide (i = 2 * j + 1)%nat) as [->|]; [by rewrite nibble_odd|done].
  - rewrite (proj2 (Z.eqb_neq (_ mod 2) 0)) by dmlia. split.
    + apply setByte_key; [done|]. intros x Hx'. rewrite set_low by (done || lia).
      by apply byte_of_nibbles; [apply byte_split|lia].
    + intros i. rewrite setByte_nibble, set_low by (done || lia).
      destruct (byte_of_nibbles (Z.shiftr (k !!! j) 4) (Z.of_nat b)) as (_ & -> & ->); [done|lia|].
      destruct (decide (i = 2 * j)%nat) as [->|].
      { rewrite decide_False by lia. by rewrite nibble_even. }
      destruct (decide (i = 2 * j + 1)%nat); [lia|done].
Qed.

(** ** Positions on the way to a key *)

Lemma truncated_lookup k (n j : nat) :
  is_key k -> (n <= 32)%nat -> (j < 32)%nat ->
  (take n k ++ replicate (32 - n) 0) !!! j = if decide (j < n)%nat then k !!! j else 0.
Proof.
  intros [Hl _] Hn Hj. rewrite !list_lookup_total_alt. destruct (decide (j < n)%nat).
  - rewrite lookup_app_l by (rewrite length_take; lia). by rewrite lookup_take_lt.
  - rewrite lookup_app_r by (rewrite length_take; lia). rewrite length_take.
    by rewrite lookup_replicate_2 by lia.
Qed.

Lemma truncated_key k n : is_key k -> (n <= 32)%nat -> is_key (take n k ++ replicate (32 - n) 0).
Proof.
  intros [Hl Hb] Hn. split.
  - rewrite length_app, length_take, length_replicate. lia.
  - apply Forall_app. split; [by apply Forall_take|]. apply Forall_replicate. unfold is_uint. lia.
Qed.

Lemma truncated_nibble k n i :
  is_key k -> (n <= 32)%nat ->
  nibble (take n k ++ replicate (32 - n) 0) i = if decide (i < 2 * n)%nat then nibble k i else 0%nat.
Proof.
  intros Hk Hn. destruct (decide (64 <= i)%nat) as [Hge|Hlt].
  { rewrite nibble_ge by done. by rewrite decide_False by lia. }
  destruct (nat_half i) as [j [->| ->]]; rewrite ?nibble_even, ?nibble_odd, truncated_lookup by (done || lia);
    destruct (decide (j < n)%nat); by rewrite ?decide_True, ?decide_False by lia.
Qed.

Lemma maskKey_nibbles (d : nat) k :
  is_key k -> (d <= 64)%nat ->
  is_key (maskKey (Z.of_nat d) k) /\
  forall i, nibble (maskKey (Z.of_nat d) k) i = if decide (i < d)%nat then nibble k i else 0%nat.
Proof.
  intros Hk Hd. unfold maskKey, maxDepth. destruct (Z.ltb_spec (Z.of_nat d) 64) as [Hlt|Hge].
  2:{ split; [done|]. intros i. destruct (decide (i < d)%nat); [done|]. apply nibble_ge. lia. }
  destruct (nat_half d) as [j Hj]. replace (Z.of_nat d / 2) with (Z.of_nat j) by dmlia. destruct Hj as [->| ->].
  - rewrite (proj2 (Z.eqb_neq (_ mod 2) 1)) by dmlia. replace (Z.to_nat _) with j by dmlia.
    split; [apply truncated_key; [done|lia]|]. intros i. by rewrite truncated_nibble by (done || lia).
  - rewrite (proj2 (Z.eqb_eq (_ mod 2) 1)) by dmlia. replace (Z.to_nat ((_ + 1) / 2)) with (S j) by dmlia.
    assert (Hk' : is_key (setByte k (Z.of_nat j) (fun b => Z.land b 0xF0))).
    { apply setByte_key; [done|]. intros x Hx. rewrite mask_low, <- (Z.add_0_r (_ * _)) by done.
      apply byte_of_nibbles; [by apply byte_split|lia]. }
    split; [apply truncated_key; [done|lia]|]. intros i. rewrite truncated_nibble, setByte_nibble by (done || lia).
    assert (Hj32 : (j < 32)%nat) by lia. pose proof (key_byte k j Hk Hj32) as Hx.
    rewrite mask_low, <- (Z.add_0_r (16 * _)) by done.
    destruct (byte_of_nibbles (Z.shiftr (k !!! j) 4) 0) as (_ & -> & ->); [by apply byte_split|lia|].
    destruct (decide (i = 2 * j)%nat) as [->|].
    { rewrite !decide_True by lia. by rewrite nibble_even. }
    destruct (decide (i = 2 * j + 1)%nat) as [->|].
    { rewrite decide_True, decide_False by lia. done. }
    destruct (decide (i < 2 * j + 1)%nat); [by rewrite decide_True by lia|by rewrite decide_False by lia].
Qed.

Lemma selectBranch_depth n k (d : nat) :
  depth n = Z.of_nat d -> (d < 64)%nat -> is_key k -> selectBranch n k = Z.of_nat (nibble k d).
Proof.
  intros Hn Hd Hk. rewrite nibble_branch by done. unfold selectBranch, getBranchAtDepth, maxDepth. rewrite Hn.
  by rewrite !(proj2 (Z.leb_gt 64 (Z.of_nat d))) by lia.
Qed.

Lemma childNodeID_path n (b d : nat) :
  depth n = Z.of_nat d -> (d < 64)%nat -> (b < 16)%nat ->
  childNodeID n (Z.of_nat b) = inr (mkNodeID (Z.of_nat (S d)) (childPathForBranch (id n) (Z.of_nat d) (Z.of_nat b))).
Proof.
  intros Hn Hd Hb. unfold childNodeID, childPathForBranch, maxDepth. rewrite Hn.
  rewrite (proj2 (Z.ltb_ge _ _)), (proj2 (Z.leb_gt 64 _)) by lia. rewrite (proj2 (Z.leb_gt 32 _)) by dmlia.
  rewrite wrap_small by (unfold is_uint; change (2 ^ 8) with 256; lia). by replace (Z.of_nat d + 1) with (Z.of_nat (S d)) by lia.
Qed.

Lemma zeroHash_key : is_key zeroHash.
Proof. split; [done|]. apply Forall_replicate. unfold is_uint. lia. Qed.

Lemma zeroHash_nibble i : nibble zeroHash i = 0%nat.
Proof.
  destruct (decide (64 <= i)%nat) as [|Hlt]; [by apply nibble_ge|].
  destruct (nat_half i) as [j [->| ->]]; rewrite ?nibble_even, ?nibble_odd by lia;
    unfold zeroHash; by rewrite lookup_total_replicate_2 by lia.
Qed.

(** A position that canonically names the first [d] nibbles of [k]. *)
Definition idOf (d : nat) (k : bytes) : NodeID := mkNodeID (Z.of_nat d) (maskKey (Z.of_nat d) k).

Lemma idOf_root k : idOf 0 k = newRootNodeID.
Proof. done. Qed.

Lemma childNodeID_idOf (d : nat) k :
  is_key k -> (d < 64)%nat -> childNodeID (idOf d k) (Z.of_nat (nibble k d)) = inr (idOf (S d) k).
Proof.
  intros Hk Hd. pose proof (nibble_lt k d Hk). rewrite (childNodeID_path _ _ d) by done. unfold idOf. cbn [id]. do 2 f_equal.
  destruct (maskKey_nibbles d k Hk ltac:(lia)) as [H1 H2]. destruct (maskKey_nibbles (S d) k Hk ltac:(lia)) as [H3 H4].
  destruct (childPath_nibbles (maskKey (Z.of_nat d) k) d (nibble k d)) as [H5 H6]; [done..|].
  apply key_ext; [done..|]. intros i _. rewrite H6, H4, H2.
  destruct (decide (i = d)) as [->|]; [by rewrite decide_True by lia|].
  destruct (decide (i < d)%nat); [by rewrite decide_True by lia|by rewrite decide_False by lia].
Qed.

(** ** Parsing a position *)

(** The position is canonical: its key has no nibble below its depth. *)
Definition wfNodeID (n : NodeID) : Prop :=
  exists (d : nat) k, (d <= 64)%nat /\ is_key k /\ n = idOf d k.

Lemma maskKey_idem (d : nat) k :
  is_key k -> (d <= 64)%nat -> maskKey (Z.of_nat d) (maskKey (Z.of_nat d) k) = maskKey (Z.of_nat d) k.
Proof.
  intros Hk Hd. destruct (maskKey_nibbles d k Hk Hd) as [H1 H2].
  destruct (maskKey_nibbles d _ H1 Hd) as [H3 H4]. apply key_ext; [done..|].
  intros i _. rewrite H4, H2. by destruct (decide (i < d)%nat).
Qed.

Lemma childNodeID_wf n (b : nat) n' :
  wfNodeID n -> (b < 16)%nat -> childNodeID n (Z.of_nat b) = inr n' -> wfNodeID n'.
Proof.
  intros (d & k & Hd & Hk & ->) Hb Hc.
  assert (Hd64 : (d < 64)%nat).
  { destruct (decide (d = 64)%nat) as [->|]; [|lia]. unfold childNodeID, maxDepth in Hc. cbn [depth idOf] in Hc.
    rewrite (proj2 (Z.ltb_ge 15 _)) in Hc by lia. done. }
  rewrite (childNodeID_path _ _ d) in Hc by done. injection Hc as <-.
  destruct (maskKey_nibbles d k Hk Hd) as [H1 H2].
  destruct (childPath_nibbles (maskKey (Z.of_nat d) k) d b H1 Hd64 Hb) as [H3 H4].
  exists (S d), (childPathForBranch (maskKey (Z.of_nat d) k) (Z.of_nat d) (Z.of_nat b)).
  split_and!; [lia|done|]. unfold idOf. f_equal. cbn [id].
  destruct (maskKey_nibbles (S d) _ H3 ltac:(lia)) as [H5 H6]. apply key_ext; [done..|].
  intros i _. rewrite H6, H4, H2. repeat case_decide; done || lia.
Qed.

(** Every canonical position survives the wire, and every 33-byte string that
    parses is the encoding of the position it parses to. *)
Lemma Bytes_Parse n : wfNodeID n -> ParseNodeID (Bytes n) = inr n.
Proof.
  intros (d & k & Hd & Hk & ->). destruct (maskKey_nibbles d k Hk Hd) as [[Hl Hb] _].
  unfold ParseNodeID, Bytes, NodeIDSize, byteAt, createNodeID, maxDepth. cbn [id depth idOf].
  rewrite length_app, Hl. cbn [length Z.of_nat Z.eqb negb Pos.of_succ_nat Pos.succ Pos.add Nat.add Pos.eqb].
  rewrite list_lookup_total_middle by (rewrite Hl; done).
  rewrite !(proj2 (Z.ltb_ge 64 (Z.of_nat d))) by lia. rewrite take_app_length' by done. cbn [id].
  rewrite maskKey_idem by done. by rewrite bool_decide_eq_true_2.
Qed.

Lemma Parse_Bytes b n : all_bytes b -> ParseNodeID b = inr n -> wfNodeID n /\ Bytes n = b.
Proof.
  intros Hb. unfold ParseNodeID, NodeIDSize. destruct (Z.eqb_spec (Z.of_nat (length b)) 33) as [Hl|]; [|done]. cbn [negb].
  destruct (Z.ltb_spec maxDepth (byteAt b 32)) as [|Hd]; [done|]. unfold createNodeID.
  rewrite (proj2 (Z.ltb_ge _ _) Hd). cbn [id]. case_bool_decide as Hc; [|done]. cbn [negb]. intros [= <-].
  unfold byteAt in *. change (Z.to_nat 32) with 32%nat in *. unfold maxDepth in Hd.
  destruct (lookup_lt_is_Some_2 b 32 ltac:(lia)) as [x Hx].
  assert (Hxr : is_uint 8 x) by by eapply (Forall_lookup_1 (is_uint 8)). unfold is_uint in Hxr.
  rewrite (list_lookup_total_correct _ _ _ Hx) in *. split.
  - exists (Z.to_nat x), (take 32 b). split_and!; [lia| |].
    + split; [rewrite length_take; lia|by apply Forall_take].
    + unfold idOf. by rewrite Z2Nat.id by lia.
  - unfold Bytes. cbn [id depth]. rewrite Hc. rewrite <- (take_drop 32 b) at 2. f_equal.
    rewrite (drop_S _ _ _ Hx), drop_ge by lia. done.
Qed.

(** Node positions on the wire: a string of bytes parses to a position
    exactly when it is the 33-byte encoding of that position and the position is
    canonical (a depth of at most 64, and no path nibble beyond it). *)
Theorem NodeID_codec_exact b n : all_bytes b -> ParseNodeID b = inr n <-> wfNodeID n /\ b = Bytes n.
Proof.
  intros Hb. split; [intros Hp; apply Parse_Bytes in Hp as [Hw <-]; done|]. intros [Hw ->]. by apply Bytes_Parse.
Qed.

Lemma NodeID_codec_exact_witness : ParseNodeID (zeroHash ++ [0]) = inr newRootNodeID.
Proof.
  apply (NodeID_codec_exact (zeroHash ++ [0]) newRootNodeID).
  - apply Forall_app. split; [apply Forall_replicate|constructor; [|constructor]]; unfold is_uint; lia.
  - split; [|reflexivity]. exists 0%nat, zeroHash. split; [lia|]. split; [apply zeroHash_key|reflexivity].
Defined.

End ShaMapKey.
