(* ===== verification/ShaMapNode.v ===== *)
(** * State tree: nodes (shamap/item.go, leaf.go, inner_node.go, node.go, store.go)

    A leaf holds an item; an inner node holds, for each of its sixteen branches,
    a bit that says whether the branch is in use, the hash of the child and,
    when it is in memory, the child itself. A node is written to peers in wire
    format (trailing type byte) and to the store in prefix format (leading hash
    prefix), and its hash is the hash of the prefix format.

    Node locks are not modelled, and neither is [fullBelowGen], which caches a
    traversal result and enters no hash. Trees are values: mutations copy the
    path they change ([shallowClone]), so a shared subtree is never written. *)

From Stdlib Require Import ZArith Lia.
From stdpp Require Import base list numbers option.
From S2P Require Import Prelude Sha512 ShaMapKey.

Import ShaMapKey.

Module ShaMapNode.

(** ** Data *)

Record Item := mkItem { key : bytes; data : bytes }.

Inductive NodeType :=
  | NodeTypeInner | NodeTypeTransactionNoMeta | NodeTypeTransactionWithMeta | NodeTypeAccountState.

Inductive leafKind := leafAccountState | leafTransaction | leafTransactionWithMeta.

#[export] Instance Item_eq_dec : EqDecision Item.
Proof. solve_decision. Defined.
#[export] Instance leafKind_eq_dec : EqDecision leafKind.
Proof. solve_decision. Defined.
#[export] Instance NodeType_eq_dec : EqDecision NodeType.
Proof. solve_decision. Defined.

Definition HashPrefixInnerNode : bytes := [0x4D; 0x49; 0x4E; 0].
Definition HashPrefixLeafNode : bytes := [0x4D; 0x4C; 0x4E; 0].
Definition HashPrefixTxNode : bytes := [0x53; 0x4E; 0x44; 0].
Definition HashPrefixTransactionID : bytes := [0x54; 0x58; 0x4E; 0].

Definition WireTypeTransaction : Z := 0.
Definition WireTypeAccountState : Z := 1.
Definition WireTypeInner : Z := 2.
Definition WireTypeCompressedInner : Z := 3.
Definition WireTypeTransactionWithMeta : Z := 4.

(** The table [leafKinds]. *)
Record leafKindInfo := mkKindInfo {
  nodeType : NodeType; hashPrefix : bytes; wireType : Z; keyOnWire : bool }.

Definition leafKinds (kind : leafKind) : leafKindInfo :=
  match kind with
  | leafAccountState => mkKindInfo NodeTypeAccountState HashPrefixLeafNode WireTypeAccountState true
  | leafTransaction => mkKindInfo NodeTypeTransactionNoMeta HashPrefixTransactionID WireTypeTransaction false
  | leafTransactionWithMeta =>
      mkKindInfo NodeTypeTransactionWithMeta HashPrefixTxNode WireTypeTransactionWithMeta true
  end.

Record leafNode := mkLeaf { lhash : bytes; ldirty : bool; item : Item; kind : leafKind }.

Record innerNode_ (N : Type) := mkInner {
  hash : bytes; dirty : bool;
  isBranch : Z;
  hashes : list bytes;
  children : list (option N) }.
Arguments mkInner {N} hash dirty isBranch hashes children.
Arguments hash {N} i.
Arguments dirty {N} i.
Arguments isBranch {N} i.
Arguments hashes {N} i.
Arguments children {N} i.

Inductive mapNode := MInner (inner : innerNode_ mapNode) | MLeaf (leaf : leafNode).
Abbreviation innerNode := (innerNode_ mapNode).

Definition nodeHash (n : mapNode) : bytes :=
  match n with MInner i => hash i | MLeaf l => lhash l end.
Definition nodeDirty (n : mapNode) : bool :=
  match n with MInner i => dirty i | MLeaf l => ldirty l end.
Definition nodeKind (n : mapNode) : NodeType :=
  match n with MInner _ => NodeTypeInner | MLeaf l => nodeType (leafKinds (kind l)) end.

Definition SetDirty (d : bool) (n : mapNode) : mapNode :=
  match n with
  | MInner i => MInner (mkInner (hash i) d (isBranch i) (hashes i) (children i))
  | MLeaf l => MLeaf (mkLeaf (lhash l) d (item l) (kind l))
  end.

(** ** Branch masks: 16-bit integers *)

Definition BranchFactor : Z := 16.
Definition branches : list nat := seq 0 16.

Definition hasBit (mask index : Z) : bool := negb (Z.land mask (Z.shiftl 1 index) =? 0).
Definition setBit (mask index : Z) : Z := Z.lor mask (Z.shiftl 1 index).
Definition clearBit (mask index : Z) : Z := Z.land mask (Z.lnot (Z.shiftl 1 index)).
Definition OnesCount16 (mask : Z) : Z :=
  Z.of_nat (length (filter (fun i : nat => hasBit mask (Z.of_nat i) = true) branches)).
Definition TrailingZeros16 (mask : Z) : Z :=
  match list_find (fun i : nat => hasBit mask (Z.of_nat i) = true) branches with
  | Some (_, i) => Z.of_nat i
  | None => 16
  end.

(** ** Inner nodes *)

Definition newInnerNode : innerNode := mkInner zeroHash true 0 (replicate 16 zeroHash) (replicate 16 None).

Definition IsEmpty (n : innerNode) : bool := isBranch n =? 0.

Definition outOfRange (index : Z) : bool := (index <? 0) || (BranchFactor <=? index).

Definition IsEmptyBranch (n : innerNode) (index : Z) : bool :=
  if outOfRange index then true else negb (hasBit (isBranch n) index).

Definition BranchCount (n : innerNode) : Z := OnesCount16 (isBranch n).

Definition childAt (n : innerNode) (index : Z) : option mapNode := children n !!! Z.to_nat index.
Definition hashAt (n : innerNode) (index : Z) : bytes := hashes n !!! Z.to_nat index.

Definition Child (n : innerNode) (index : Z) : Result (option mapNode) :=
  if outOfRange index then inl errInvalidBranch else inr (childAt n index).

Definition LoadChild (n : innerNode) (index : Z) : option mapNode * bytes * bool :=
  (childAt n index, hashAt n index, hasBit (isBranch n) index).

Definition ChildHash (n : innerNode) (index : Z) : Result bytes :=
  if outOfRange index then inl errInvalidBranch else inr (hashAt n index).

(** The hash branch [i] contributes: the child's own when it is in memory. *)
Definition childPreimageHash (n : innerNode) (i : Z) : bytes :=
  match childAt n i with
  | Some child => nodeHash child
  | None => hashAt n i
  end.

(** The sixteen hashes that are hashed and serialized, zero for unused branches. *)
Definition branchHashes (n : innerNode) : list bytes :=
  (fun i : nat => if hasBit (isBranch n) (Z.of_nat i) then childPreimageHash n (Z.of_nat i) else zeroHash) <$> branches.

Section Nodes.
Context `{Hasher}.

Definition updateHashUnsafe (n : innerNode) : innerNode :=
  let h := if isBranch n =? 0 then zeroHash
           else Hash (HashPrefixInnerNode ++ mjoin (branchHashes n)) in
  mkInner h (dirty n) (isBranch n) (hashes n) (children n).

Definition SetChild (n : innerNode) (index : Z) (child : option mapNode) : Result innerNode :=
  if outOfRange index then inl errInvalidBranch
  else
    let i := Z.to_nat index in
    let children' := <[i := child]> (children n) in
    inr (updateHashUnsafe
      match child with
      | Some c => mkInner (hash n) true (setBit (isBranch n) index) (<[i := nodeHash c]> (hashes n)) children'
      | None => mkInner (hash n) true (clearBit (isBranch n) index) (<[i := zeroHash]> (hashes n)) children'
      end).

(** Attaches a child read from the store unless one is there already. *)
Definition SetChildIfNil (n : innerNode) (index : Z) (child : mapNode) : innerNode * mapNode :=
  match childAt n index with
  | Some existing => (n, existing)
  | None =>
      (mkInner (hash n) (dirty n) (isBranch n) (hashes n) (<[Z.to_nat index := Some child]> (children n)), child)
  end.

Definition updateHashDeep (n : innerNode) : innerNode :=
  let step hs (i : nat) :=
    if hasBit (isBranch n) (Z.of_nat i) then
      match childAt n (Z.of_nat i) with
      | Some child => <[i := nodeHash child]> hs
      | None => hs
      end
    else hs in
  updateHashUnsafe (mkInner (hash n) (dirty n) (isBranch n) (foldl step (hashes n) branches) (children n)).

Definition ReleaseChildren (n : innerNode) : innerNode :=
  mkInner (hash n) (dirty n) (isBranch n) (hashes n) (replicate 16 None).

Definition shallowClone (n : innerNode) : innerNode :=
  mkInner (hash n) true (isBranch n) (hashes n) (children n).

Definition HasChildren (n : innerNode) : bool := negb (IsEmpty n).

(** Wire format: below twelve branches the pairs (hash, position), otherwise all
    sixteen hashes. *)
Definition innerForWire (n : innerNode) : Result bytes :=
  let branchCount := OnesCount16 (isBranch n) in
  if branchCount =? 0 then inl errEmptyNonRoot
  else if branchCount <? 12 then
    inr (mjoin ((fun i : nat =>
                   if hasBit (isBranch n) (Z.of_nat i)
                   then childPreimageHash n (Z.of_nat i) ++ [Z.of_nat i] else []) <$> branches)
         ++ [WireTypeCompressedInner])
  else inr (mjoin (branchHashes n) ++ [WireTypeInner]).

Definition innerWithPrefix (n : innerNode) : Result bytes :=
  if isBranch n =? 0 then inl errEmptyNonRoot
  else inr (HashPrefixInnerNode ++ mjoin (branchHashes n)).

(** The [i]-th group of 32 bytes. *)
Definition chunk32 (data : bytes) (i : nat) : bytes := take 32 (drop (32 * i) data).

Definition parseFullInnerNode (data : bytes) : Result innerNode :=
  if negb (Z.of_nat (length data) =? BranchFactor * 32) then inl errMalformed
  else
    let step (acc : Z * list bytes) (i : nat) :=
      let hash := chunk32 data i in
      if negb (isZeroHash hash) then (setBit (fst acc) (Z.of_nat i), <[i := hash]> (snd acc)) else acc in
    let '(mask, hs) := foldl step (0, replicate 16 zeroHash) branches in
    inr (updateHashUnsafe (mkInner zeroHash false mask hs (replicate 16 None))).

(** One pass of the loop per 33-byte group. *)
Fixpoint compressedLoop (groups : nat) (data : bytes) (mask : Z) (hs : list bytes) : Result (Z * list bytes) :=
  match groups with
  | O => inr (mask, hs)
  | S groups =>
      let hash := take 32 data in
      let position := byteAt data 32 in
      if BranchFactor <=? position then inl errMalformed
      else compressedLoop groups (drop 33 data) (setBit mask position) (<[Z.to_nat position := hash]> hs)
  end.

Definition parseCompressedInnerNode (data : bytes) : Result innerNode :=
  let len := Z.of_nat (length data) in
  if negb (len mod 33 =? 0) then inl errMalformed
  else if 33 * BranchFactor <? len then inl errMalformed
  else
    let? r := compressedLoop (Z.to_nat (len / 33)) data 0 (replicate 16 zeroHash) in
    let '(mask, hs) := r in
    inr (updateHashUnsafe (mkInner zeroHash false mask hs (replicate 16 None))).

Definition newInnerNodeFromWire (data : bytes) : Result innerNode :=
  match list.last data with
  | None => inl errMalformed
  | Some wireType =>
      let nodeData := take (length data - 1) data in
      if wireType =? WireTypeInner then parseFullInnerNode nodeData
      else if wireType =? WireTypeCompressedInner then parseCompressedInnerNode nodeData
      else inl errMalformed
  end.

(** ** Leaves *)

(** What a leaf's hash is taken of. *)
Definition leafPreimage (kind : leafKind) (item : Item) : bytes :=
  hashPrefix (leafKinds kind) ++ data item ++ (if keyOnWire (leafKinds kind) then key item else []).

Definition updateLeafHash (n : leafNode) : leafNode :=
  mkLeaf (Hash (leafPreimage (kind n) (item n))) (ldirty n) (item n) (kind n).

Definition newLeafNode (kind : leafKind) (item : Item) : Result leafNode :=
  if Z.of_nat (length (data item)) <? 12 then inl errItemTooSmall
  else inr (updateLeafHash (mkLeaf zeroHash true item kind)).

Definition leafForWire (n : leafNode) : bytes :=
  data (item n) ++ (if keyOnWire (leafKinds (kind n)) then key (item n) else []) ++ [wireType (leafKinds (kind n))].

Definition leafWithPrefix (n : leafNode) : bytes := leafPreimage (kind n) (item n).

Definition cleanLeaf (n : leafNode) : leafNode := mkLeaf (lhash n) false (item n) (kind n).

(** The three readers of wire leaves: [newAccountStateLeafFromWire] refuses the
    zero key, and a transaction without metadata is keyed by its hash. *)
Definition newAccountStateLeafFromWire (data : bytes) : Result leafNode :=
  match list.last data with
  | None => inl errMalformed
  | Some wireType =>
      if negb (wireType =? WireTypeAccountState) then inl errMalformed
      else
        let nodeData := take (length data - 1) data in
        if Z.of_nat (length nodeData) <? 32 then inl errMalformed
        else
          let keyStart := (length nodeData - 32)%nat in
          let key := drop keyStart nodeData in
          if isZeroHash key then inl errMalformed
          else
            let? node := newLeafNode leafAccountState (mkItem key (take keyStart nodeData)) in
            inr (cleanLeaf node)
  end.

Definition newTransactionLeafFromWire (data : bytes) : Result leafNode :=
  match list.last data with
  | None => inl errMalformed
  | Some wireType =>
      if negb (wireType =? WireTypeTransaction) then inl errMalformed
      else
        let nodeData := take (length data - 1) data in
        let key := Hash (HashPrefixTransactionID ++ nodeData) in
        let? node := newLeafNode leafTransaction (mkItem key nodeData) in
        inr (cleanLeaf node)
  end.

Definition newTransactionWithMetaLeafFromWire (data : bytes) : Result leafNode :=
  match list.last data with
  | None => inl errMalformed
  | Some wireType =>
      if negb (wireType =? WireTypeTransactionWithMeta) then inl errMalformed
      else
        let nodeData := take (length data - 1) data in
        if Z.of_nat (length nodeData) <? 32 then inl errMalformed
        else
          let keyStart := (length nodeData - 32)%nat in
          let? node := newLeafNode leafTransactionWithMeta (mkItem (drop keyStart nodeData) (take keyStart nodeData)) in
          inr (cleanLeaf node)
  end.

Definition createLeafNode (nodeType : NodeType) (item : Item) : Result leafNode :=
  match nodeType with
  | NodeTypeAccountState => newLeafNode leafAccountState item
  | NodeTypeTransactionNoMeta => newLeafNode leafTransaction item
  | NodeTypeTransactionWithMeta => newLeafNode leafTransactionWithMeta item
  | NodeTypeInner => inl errMalformed
  end.

(** ** Any node *)

Definition UpdateHash (n : mapNode) : mapNode :=
  match n with
  | MInner i => MInner (updateHashUnsafe i)
  | MLeaf l => MLeaf (updateLeafHash l)
  end.

Definition SerializeForWire (n : mapNode) : Result bytes :=
  match n with MInner i => innerForWire i | MLeaf l => inr (leafForWire l) end.

Definition SerializeWithPrefix (n : mapNode) : Result bytes :=
  match n with MInner i => innerWithPrefix i | MLeaf l => inr (leafWithPrefix l) end.

Definition mapR {A B} (f : A -> B) (r : Result A) : Result B :=
  match r with inl e => inl e | inr a => inr (f a) end.

Definition deserializeNodeFromWire (data : bytes) : Result mapNode :=
  match list.last data with
  | None => inl errMalformed
  | Some wireType =>
      if wireType =? WireTypeInner then mapR MInner (newInnerNodeFromWire data)
      else if wireType =? WireTypeCompressedInner then mapR MInner (newInnerNodeFromWire data)
      else if wireType =? WireTypeAccountState then mapR MLeaf (newAccountStateLeafFromWire data)
      else if wireType =? WireTypeTransaction then mapR MLeaf (newTransactionLeafFromWire data)
      else if wireType =? WireTypeTransactionWithMeta then mapR MLeaf (newTransactionWithMetaLeafFromWire data)
      else inl errMalformed
  end.

(** ** Prefix format (store.go) *)

Inductive storedNodeKind := storedInner | storedAccountState | storedTransaction | storedTransactionWithMeta.

Record prefixNodeBody := mkBody { bkind : storedNodeKind; payload : bytes; bkey : bytes }.

Definition decodePrefixBody (data : bytes) : Result prefixNodeBody :=
  let len := Z.of_nat (length data) in
  if len <? 4 then inl errMalformed
  else
    let prefix := take 4 data in
    let keyStart := (length data - 32)%nat in
    if bool_decide (prefix = HashPrefixInnerNode) then
      if negb (len =? 4 + BranchFactor * 32) then inl errMalformed
      else inr (mkBody storedInner (drop 4 data) zeroHash)
    else if bool_decide (prefix = HashPrefixLeafNode) then
      if len <? 4 + 32 then inl errMalformed
      else
        let k := drop keyStart data in
        if isZeroHash k then inl errMalformed
        else inr (mkBody storedAccountState (drop 4 (take keyStart data)) k)
    else if bool_decide (prefix = HashPrefixTransactionID) then
      if len <=? 4 then inl errMalformed
      else inr (mkBody storedTransaction (drop 4 data) zeroHash)
    else if bool_decide (prefix = HashPrefixTxNode) then
      if len <? 4 + 32 then inl errMalformed
      else inr (mkBody storedTransactionWithMeta (drop 4 (take keyStart data)) (drop keyStart data))
    else inl errMalformed.

Definition decodeInnerBranches (body : prefixNodeBody) : Result (Z * list bytes) :=
  match bkind body with
  | storedInner =>
      if negb (Z.of_nat (length (payload body)) =? BranchFactor * 32) then inl errMalformed
      else
        let step (acc : Z * list bytes) (i : nat) :=
          let hash := chunk32 (payload body) i in
          (if negb (isZeroHash hash) then setBit (fst acc) (Z.of_nat i) else fst acc, <[i := hash]> (snd acc)) in
        inr (foldl step (0, replicate 16 zeroHash) branches)
  | _ => inl errMalformed
  end.

Definition materializePrefixNode (body : prefixNodeBody) : Result mapNode :=
  match bkind body with
  | storedInner =>
      let? r := decodeInnerBranches body in
      let '(mask, hs) := r in
      inr (MInner (updateHashUnsafe (mkInner zeroHash false mask hs (replicate 16 None))))
  | storedAccountState =>
      let? node := newLeafNode leafAccountState (mkItem (bkey body) (payload body)) in
      inr (MLeaf (cleanLeaf node))
  | storedTransaction =>
      let key := Hash (HashPrefixTransactionID ++ payload body) in
      let? node := newLeafNode leafTransaction (mkItem key (payload body)) in
      inr (MLeaf (cleanLeaf node))
  | storedTransactionWithMeta =>
      let? node := newLeafNode leafTransactionWithMeta (mkItem (bkey body) (payload body)) in
      inr (MLeaf (cleanLeaf node))
  end.

Definition deserializeFromPrefix (data : bytes) : Result mapNode :=
  let? body := decodePrefixBody data in
  materializePrefixNode body.

Definition materializeAndVerifyPrefixNode (body : prefixNodeBody) (expected : bytes) : Result mapNode :=
  match materializePrefixNode body with
  | inl _ => inl ErrInvalidNodeData
  | inr node => if negb (bool_decide (nodeHash node = expected)) then inl ErrInvalidNodeData else inr node
  end.

Definition decodeAndVerifyPrefixNode (data expected : bytes) : Result mapNode :=
  match decodePrefixBody data with
  | inl _ => inl ErrInvalidNodeData
  | inr body => materializeAndVerifyPrefixNode body expected
  end.

(** Sizes of the wire format, of a node and of a stored record. *)
Definition wireDataSize (n : mapNode) : Result Z :=
  match n with
  | MInner i =>
      let branches := BranchCount i in
      if branches =? 0 then inl errEmptyNonRoot
      else if branches <? 12 then inr (branches * 33 + 1)
      else inr (BranchFactor * 32 + 1)
  | MLeaf l =>
      let size := Z.of_nat (length (data (item l))) in
      if keyOnWire (leafKinds (kind l)) then inr (size + 33) else inr (size + 1)
  end.

Definition wireSizeForPrefixBody (body : prefixNodeBody) : Result Z :=
  let size := Z.of_nat (length (payload body)) in
  match bkind body with
  | storedInner =>
      if negb (size =? BranchFactor * 32) then inl errMalformed
      else
        let count := Z.of_nat (length (filter (fun i => isZeroHash (chunk32 (payload body) i) = false) branches)) in
        if count =? 0 then inl errEmptyNonRoot
        else if count <? 12 then inr (count * 33 + 1)
        else inr (BranchFactor * 32 + 1)
  | storedAccountState | storedTransactionWithMeta => inr (size + 33)
  | storedTransaction => inr (size + 1)
  end.

End Nodes.

(** ** Branch masks *)

Definition is_mask (m : Z) : Prop := 0 <= m < 2 ^ 16.

Lemma hasBit_testbit m (i : nat) : hasBit m (Z.of_nat i) = Z.testbit m (Z.of_nat i).
Proof.
  unfold hasBit. destruct (Z.testbit m (Z.of_nat i)) eqn:Hb.
  - apply negb_true_iff, Z.eqb_neq. intros Hz. apply (f_equal (fun z => Z.testbit z (Z.of_nat i))) in Hz.
    rewrite Z.land_spec, Z.shiftl_spec, Z.sub_diag, Hb, Z.bits_0 in Hz by lia. done.
  - apply negb_false_iff, Z.eqb_eq, Z.bits_inj'. intros n Hn. rewrite Z.land_spec, Z.shiftl_spec, Z.bits_0 by lia.
    destruct (decide (n = Z.of_nat i)) as [->|Hne]; [by rewrite Hb|].
    rewrite andb_false_iff. right. destruct (Z.ltb_spec n (Z.of_nat i)); [apply Z.testbit_neg_r; lia|].
    apply Z.bits_above_log2; [lia|]. change (Z.log2 1) with 0. lia.
Qed.

Lemma bit_one (i j : nat) : Z.testbit (Z.shiftl 1 (Z.of_nat i)) (Z.of_nat j) = bool_decide (i = j).
Proof.
  rewrite Z.shiftl_spec by lia. case_bool_decide as Hij.
  - subst. by rewrite Z.sub_diag.
  - destruct (Z.ltb_spec (Z.of_nat j) (Z.of_nat i)); [apply Z.testbit_neg_r; lia|].
    apply Z.bits_above_log2; [lia|]. change (Z.log2 1) with 0. lia.
Qed.

Lemma hasBit_setBit m (i j : nat) :
  hasBit (setBit m (Z.of_nat i)) (Z.of_nat j) = bool_decide (i = j) || hasBit m (Z.of_nat j).
Proof. rewrite !hasBit_testbit. unfold setBit. by rewrite Z.lor_spec, bit_one, orb_comm. Qed.

Lemma hasBit_clearBit m (i j : nat) :
  hasBit (clearBit m (Z.of_nat i)) (Z.of_nat j) = negb (bool_decide (i = j)) && hasBit m (Z.of_nat j).
Proof.
  rewrite !hasBit_testbit. unfold clearBit. by rewrite Z.land_spec, Z.lnot_spec, bit_one, andb_comm by lia.
Qed.

Lemma hasBit_0 i : hasBit 0 i = false.
Proof. done. Qed.

Lemma mask_bits m : 0 <= m -> is_mask m <-> forall n, 16 <= n -> Z.testbit m n = false.
Proof.
  intros Hm. split.
  - intros [_ Hlt] n Hn. destruct (decide (m = 0)) as [->|]; [apply Z.bits_0|].
    apply Z.bits_above_log2; [lia|]. apply Z.log2_lt_pow2 in Hlt; lia.
  - intros Hb. split; [done|]. destruct (decide (m = 0)) as [->|]; [done|].
    apply Z.log2_lt_pow2; [lia|]. destruct (Z.lt_ge_cases (Z.log2 m) 16) as [|Hge]; [done|].
    specialize (Hb _ Hge). rewrite Z.bit_log2 in Hb by lia. done.
Qed.

Lemma one_high (i : nat) n : (i < 16)%nat -> 16 <= n -> Z.testbit (Z.shiftl 1 (Z.of_nat i)) n = false.
Proof.
  intros Hi Hn. replace n with (Z.of_nat (Z.to_nat n)) by lia. rewrite bit_one. apply bool_decide_eq_false. lia.
Qed.

Lemma setBit_mask m (i : nat) : is_mask m -> (i < 16)%nat -> is_mask (setBit m (Z.of_nat i)).
Proof.
  intros Hm Hi. assert (0 <= setBit m (Z.of_nat i)).
  { apply Z.lor_nonneg. split; [apply Hm|]. apply Z.shiftl_nonneg. lia. }
  apply mask_bits; [done|]. intros n Hn. unfold setBit. rewrite Z.lor_spec, one_high by done.
  rewrite orb_false_r. apply mask_bits; [apply Hm|done..].
Qed.

Lemma clearBit_mask m (i : nat) : is_mask m -> is_mask (clearBit m (Z.of_nat i)).
Proof.
  intros Hm. assert (0 <= clearBit m (Z.of_nat i)).
  { apply Z.land_nonneg. left. apply Hm. }
  apply mask_bits; [done|]. intros n Hn. unfold clearBit. rewrite Z.land_spec.
  rewrite (proj1 (mask_bits m (proj1 Hm)) Hm n Hn). done.
Qed.

(** Masks are determined by their sixteen bits. *)
Lemma mask_ext m m' :
  is_mask m -> is_mask m' -> (forall i, (i < 16)%nat -> hasBit m (Z.of_nat i) = hasBit m' (Z.of_nat i)) -> m = m'.
Proof.
  intros Hm Hm' Hb. apply Z.bits_inj'. intros n Hn. destruct (Z.lt_ge_cases n 16) as [Hlt|Hge].
  - specialize (Hb (Z.to_nat n)). rewrite !hasBit_testbit, Z2Nat.id in Hb by lia. apply Hb. lia.
  - rewrite (proj1 (mask_bits m (proj1 Hm)) Hm n Hge). by rewrite (proj1 (mask_bits m' (proj1 Hm')) Hm' n Hge).
Qed.

Lemma mask_0 : is_mask 0.
Proof. unfold is_mask. lia. Qed.

Lemma mask_nonzero m : is_mask m -> m <> 0 <-> exists i, (i < 16)%nat /\ hasBit m (Z.of_nat i) = true.
Proof.
  intros Hm. split.
  - intros Hne. destruct (decide (Exists (fun i => hasBit m (Z.of_nat i) = true) branches)) as [He|He].
    + apply list.Exists_exists in He as (i & Hi & Hb). exists i. split; [|done]. apply elem_of_seq in Hi. lia.
    + destruct Hne. apply mask_ext; [done|apply mask_0|]. intros i Hi. rewrite hasBit_0.
      destruct (hasBit m (Z.of_nat i)) eqn:Hb; [|done]. destruct He. apply list.Exists_exists. exists i.
      split; [|done]. apply elem_of_seq. lia.
  - intros (i & _ & Hb) ->. by rewrite hasBit_0 in Hb.
Qed.

(** The branches in use, in order. *)
Definition setBits (m : Z) : list nat := filter (fun i : nat => hasBit m (Z.of_nat i) = true) branches.

Lemma setBits_elem m i : i ∈ setBits m <-> (i < 16)%nat /\ hasBit m (Z.of_nat i) = true.
Proof. unfold setBits, branches. rewrite list_elem_of_filter, elem_of_seq. split; intros [? ?]; split; done || lia. Qed.

Lemma setBits_NoDup m : NoDup (setBits m).
Proof. apply list.NoDup_filter, NoDup_seq. Qed.

Lemma OnesCount16_setBits m : OnesCount16 m = Z.of_nat (length (setBits m)).
Proof. done. Qed.

Lemma OnesCount16_0 m : is_mask m -> OnesCount16 m = 0 <-> m = 0.
Proof.
  intros Hm. rewrite OnesCount16_setBits. split.
  - intros Hl. destruct (decide (m = 0)) as [|Hne]; [done|]. apply mask_nonzero in Hne as (i & Hi & Hb); [|done].
    assert (Hin : i ∈ setBits m) by by apply setBits_elem. destruct (setBits m); [by apply elem_of_nil in Hin|done].
  - by intros ->.
Qed.

(** With one branch in use, [TrailingZeros16] is that branch. *)
Lemma OnesCount16_1 m :
  is_mask m -> OnesCount16 m = 1 ->
  exists i, (i < 16)%nat /\ TrailingZeros16 m = Z.of_nat i /\
    forall j, (j < 16)%nat -> hasBit m (Z.of_nat j) = true <-> j = i.
Proof.
  intros Hm. rewrite OnesCount16_setBits. intros Hl.
  destruct (setBits m) as [|i [|? ?]] eqn:Hs; cbn [length] in Hl; try lia. clear Hl.
  assert (Hi : forall j, (j < 16)%nat /\ hasBit m (Z.of_nat j) = true <-> j = i).
  { intros j. rewrite <- setBits_elem, Hs. apply list_elem_of_singleton. }
  destruct (proj2 (Hi i) eq_refl) as [Hi16 Hib]. exists i. split; [done|]. split.
  - unfold TrailingZeros16. destruct (list_find _ branches) as [[p x]|] eqn:Hf.
    + apply list_find_Some in Hf as (Hp & Hx & _). f_equal. apply Hi. split; [|done].
      apply list_elem_of_lookup_2, elem_of_seq in Hp. lia.
    + apply list_find_None in Hf. rewrite list.Forall_forall in Hf. destruct (Hf i); [|done]. apply elem_of_seq. lia.
  - intros j Hj. rewrite <- Hi. tauto.
Qed.

(** ** Inner nodes *)

(** The arrays have sixteen entries and the mask sixteen bits. *)
Definition shaped (n : innerNode) : Prop :=
  is_mask (isBranch n) /\ length (hashes n) = 16%nat /\ length (children n) = 16%nat.

Lemma outOfRange_nat i : (i < 16)%nat -> outOfRange (Z.of_nat i) = false.
Proof. intros Hi. unfold outOfRange, BranchFactor. apply orb_false_iff. split; [apply Z.ltb_ge|apply Z.leb_gt]; lia. Qed.

Lemma insert_total {A} `{Inhabited A} (l : list A) i j x :
  (i < length l)%nat -> <[i := x]> l !!! j = if decide (j = i) then x else l !!! j.
Proof.
  intros Hi. rewrite !list_lookup_total_alt. destruct (decide (j = i)) as [->|].
  - by rewrite list_lookup_insert_eq.
  - by rewrite list_lookup_insert_ne.
Qed.

Lemma branches_lt : Forall (fun j => j < 16)%nat branches.
Proof. apply list.Forall_forall. intros j Hj. apply elem_of_seq in Hj. lia. Qed.

Lemma foldl_pointwise {A B} (f g : A -> B -> A) a l : (forall a x, f a x = g a x) -> foldl f a l = foldl g a l.
Proof. intros Hfg. revert a. induction l as [|x l IH]; intros a; [done|]. cbn. by rewrite Hfg. Qed.

(** A loop that overwrites the entries for which [f] has a value. *)
Lemma foldl_insert {A} `{Inhabited A} (f : nat -> option A) l hs i :
  Forall (fun j => j < length hs)%nat l ->
  foldl (fun hs j => match f j with Some h => <[j := h]> hs | None => hs end) hs l !!! i =
  if decide (i ∈ l) then match f i with Some h => h | None => hs !!! i end else hs !!! i.
Proof.
  revert hs. induction l as [|j l IH]; intros hs Hl; [done|].
  apply list.Forall_cons in Hl as [Hj Hl]. cbn [foldl].
  assert (Hs : forall k, match f j with Some h => <[j := h]> hs | None => hs end !!! k =
    if decide (k = j) then match f k with Some h => h | None => hs !!! k end else hs !!! k).
  { intros k. destruct (f j) as [h|] eqn:Hf; [rewrite insert_total by done|];
      (destruct (decide (k = j)) as [->|]; [by rewrite Hf|done]). }
  rewrite IH.
  2:{ destruct (f j); [by rewrite length_insert|done]. }
  rewrite Hs. destruct (decide (i = j)) as [->|Hij].
  - rewrite (decide_True (P := j ∈ j :: l)) by left. destruct (decide (j ∈ l)); by destruct (f j).
  - destruct (decide (i ∈ l)) as [Hin|Hin].
    + by rewrite decide_True by by right.
    + rewrite decide_False; [done|]. rewrite elem_of_cons. tauto.
Qed.

Lemma newInnerNode_shaped : shaped newInnerNode.
Proof. split_and!; [apply mask_0|done..]. Qed.

Lemma newInnerNode_empty i : hasBit (isBranch newInnerNode) i = false.
Proof. apply hasBit_0. Qed.

(** What a branch holds: whether it is used, its cached hash, its child. *)
Definition slot (n : innerNode) (i : nat) : bool * bytes * option mapNode :=
  (hasBit (isBranch n) (Z.of_nat i), hashAt n (Z.of_nat i), childAt n (Z.of_nat i)).

Definition slotHash (s : bool * bytes * option mapNode) : bytes :=
  match s with
  | (true, _, Some c) => nodeHash c
  | (true, h, None) => h
  | (false, _, _) => zeroHash
  end.

Lemma branchHashes_slots n : branchHashes n = (fun i => slotHash (slot n i)) <$> branches.
Proof.
  unfold branchHashes. apply list_fmap_ext. intros _ i _. unfold slot, slotHash, childPreimageHash.
  by destruct (hasBit _ _), (childAt n (Z.of_nat i)).
Qed.

Section InnerLemmas.
Context `{Hasher}.

(** A node's stored hash is the one its branches give. *)
Definition hashed (n : innerNode) : Prop := hash n = hash (updateHashUnsafe n).

Lemma updateHash_hashed n : hashed (updateHashUnsafe n).
Proof. done. Qed.

Lemma SetChild_spec n i c :
  shaped n -> (i < 16)%nat ->
  exists n', SetChild n (Z.of_nat i) c = inr n' /\ shaped n' /\ hashed n' /\ dirty n' = true /\
    slot n' i = (match c with Some _ => true | None => false end,
                 match c with Some c => nodeHash c | None => zeroHash end, c) /\
    forall j, j <> i -> slot n' j = slot n j.
Proof.
  intros (Hm & Hh & Hc) Hi. unfold SetChild. rewrite outOfRange_nat by done.
  eexists. split; [done|]. rewrite Nat2Z.id.
  assert (Hslot : forall j b h, let n' := mkInner h true b (<[i:=match c with Some c => nodeHash c | None => zeroHash end]> (hashes n))
      (<[i:=c]> (children n)) in
    slot n' j = (hasBit b (Z.of_nat j), if decide (j = i) then match c with Some c => nodeHash c | None => zeroHash end
                                        else hashAt n (Z.of_nat j), if decide (j = i) then c else childAt n (Z.of_nat j))).
  { intros j b h. unfold slot, hashAt, childAt. cbn [isBranch hashes children]. rewrite Nat2Z.id.
    rewrite !insert_total by lia. done. }
  destruct c as [c|]; cbn [updateHashUnsafe]; (split; [|split; [done|split; [done|split]]]).
  - split; [by apply setBit_mask|]. cbn [updateHashUnsafe hashes children]. by rewrite !length_insert.
  - unfold updateHashUnsafe. cbn [dirty isBranch hashes children]. rewrite Hslot, hasBit_setBit.
    rewrite bool_decide_eq_true_2, !decide_True by done. done.
  - intros j Hj. unfold updateHashUnsafe. cbn [dirty isBranch hashes children]. rewrite Hslot, hasBit_setBit.
    rewrite bool_decide_eq_false_2, !decide_False by done. done.
  - split; [by apply clearBit_mask|]. cbn [updateHashUnsafe hashes children]. by rewrite !length_insert.
  - unfold updateHashUnsafe. cbn [dirty isBranch hashes children]. rewrite Hslot, hasBit_clearBit.
    rewrite bool_decide_eq_true_2, !decide_True by done. done.
  - intros j Hj. unfold updateHashUnsafe. cbn [dirty isBranch hashes children]. rewrite Hslot, hasBit_clearBit.
    rewrite bool_decide_eq_false_2, !decide_False by done. done.
Qed.

Lemma shallowClone_slot n i : slot (shallowClone n) i = slot n i.
Proof. done. Qed.

Lemma shallowClone_shaped n : shaped n -> shaped (shallowClone n).
Proof. done. Qed.

(** The hash of a node, from the hashes of its sixteen branches. *)
Definition innerHash (empty : bool) (hs : list bytes) : bytes :=
  if empty then zeroHash else Hash (HashPrefixInnerNode ++ mjoin hs).

Lemma hashed_innerHash n : hashed n -> hash n = innerHash (isBranch n =? 0) (branchHashes n).
Proof. done. Qed.

Lemma updateHashDeep_slots n i :
  shaped n -> (i < 16)%nat ->
  slot (updateHashDeep n) i =
  (hasBit (isBranch n) (Z.of_nat i),
   if hasBit (isBranch n) (Z.of_nat i) then childPreimageHash n (Z.of_nat i) else hashAt n (Z.of_nat i),
   childAt n (Z.of_nat i)).
Proof.
  intros (Hm & Hh & Hc) Hi. unfold updateHashDeep, updateHashUnsafe, slot.
  cbn [isBranch]. f_equal. f_equal. unfold hashAt at 1. cbn [hashes]. rewrite Nat2Z.id.
  rewrite (foldl_pointwise _ (fun hs j => match (if hasBit (isBranch n) (Z.of_nat j)
             then nodeHash <$> childAt n (Z.of_nat j) else None) with Some h => <[j := h]> hs | None => hs end)).
  2:{ intros hs j. destruct (hasBit _ _); [|done]. by destruct (childAt n (Z.of_nat j)). }
  rewrite foldl_insert by (rewrite Hh; apply branches_lt). rewrite decide_True by (apply elem_of_seq; lia).
  unfold childPreimageHash, hashAt. rewrite Nat2Z.id. destruct (hasBit _ _); [|done]. by destruct (childAt n (Z.of_nat i)).
Qed.

Lemma branchHashes_length n : length (branchHashes n) = 16%nat.
Proof. unfold branchHashes. by rewrite length_fmap. Qed.

Lemma branchHashes_lookup n i : (i < 16)%nat -> branchHashes n !! i = Some (slotHash (slot n i)).
Proof.
  intros Hi. rewrite branchHashes_slots, list_lookup_fmap. unfold branches. rewrite lookup_seq_lt by done. done.
Qed.

Lemma branchHashes_ext n n' :
  (forall i, (i < 16)%nat -> slotHash (slot n i) = slotHash (slot n' i)) <-> branchHashes n = branchHashes n'.
Proof.
  split.
  - intros He. apply list_eq. intros i. destruct (decide (i < 16)%nat) as [Hi|Hi].
    + rewrite !branchHashes_lookup by done. by rewrite He.
    + rewrite !lookup_ge_None_2; rewrite ?branchHashes_length; done || lia.
  - intros He i Hi. apply (f_equal (fun l => l !! i)) in He. rewrite !branchHashes_lookup in He by done. by injection He.
Qed.

(** A leaf as the constructors make it. *)
Definition wfLeaf (l : leafNode) : Prop :=
  is_key (key (item l)) /\ all_bytes (data (item l)) /\ (12 <= length (data (item l)))%nat /\
  lhash l = Hash (leafPreimage (kind l) (item l)).

End InnerLemmas.

End ShaMapNode.
