(* ===== verification/ShaMapCodec.v ===== *)
(** * State tree: the wire and prefix formats are exact

    What a node serializes to is read back as the same node without its children
    in memory ([stub]); in prefix format a record that is accepted is the
    serialization of what it decodes to, so a record verified against a hash is
    a preimage of it. *)

From Stdlib Require Import ZArith Lia.
From stdpp Require Import base list numbers option.
From S2P Require Import Prelude Sha512 ShaMapKey ShaMapNode.

Import ShaMapKey ShaMapNode.

Module ShaMapCodec.

(** ** Groups of 32 bytes *)

Lemma mjoin_cons (x : bytes) l : mjoin (x :: l) = x ++ mjoin l.
Proof. done. Qed.

Lemma chunk_mjoin (hs : list bytes) i :
  Forall is_key hs -> (i < length hs)%nat -> chunk32 (mjoin hs) i = hs !!! i.
Proof.
  revert i. induction hs as [|x hs IH]; intros i Hk Hi; [cbn in Hi; lia|].
  apply list.Forall_cons in Hk as [[Hx _] Hk]. unfold chunk32 in *. rewrite mjoin_cons. destruct i as [|i].
  - rewrite Nat.mul_0_r, drop_0. by rewrite take_app_length' by done.
  - replace (32 * S i)%nat with (length x + 32 * i)%nat by lia. rewrite drop_app_add. cbn [length] in Hi. rewrite IH; [done|done|lia].
Qed.

Lemma chunks_mjoin (hs : list bytes) : Forall is_key hs -> length hs = 16%nat -> chunk32 (mjoin hs) <$> branches = hs.
Proof.
  intros Hk Hl. apply list_eq. intros i. rewrite list_lookup_fmap. destruct (decide (i < 16)%nat) as [Hi|Hi].
  - unfold branches. rewrite lookup_seq_lt by done. cbn [fmap option_fmap option_map Nat.add]. rewrite chunk_mjoin by (done || lia).
    symmetry. apply list_lookup_lookup_total_lt. lia.
  - rewrite !lookup_ge_None_2; [done|lia|]. unfold branches. rewrite length_seq. lia.
Qed.

Lemma mjoin_chunks_aux (p : bytes) n : (32 * n <= length p)%nat -> mjoin (chunk32 p <$> seq 0 n) = take (32 * n) p.
Proof.
  induction n as [|n IH]; intros Hl; [done|]. rewrite seq_S, fmap_app. cbn [fmap list_fmap Nat.add].
  rewrite join_app. rewrite IH by lia. change (mjoin [chunk32 p n]) with (chunk32 p n ++ []). rewrite app_nil_r.
  unfold chunk32. replace (32 * S n)%nat with (32 * n + 32)%nat by lia. by rewrite take_take_drop.
Qed.

Lemma mjoin_chunks (p : bytes) : length p = 512%nat -> mjoin (chunk32 p <$> branches) = p.
Proof. intros Hl. unfold branches. rewrite mjoin_chunks_aux by lia. by rewrite take_ge by lia. Qed.

Lemma mjoin_length (hs : list bytes) : Forall is_key hs -> length (mjoin hs) = (32 * length hs)%nat.
Proof.
  induction hs as [|x hs IH]; intros Hk; [done|]. apply list.Forall_cons in Hk as [[Hx _] Hk].
  rewrite mjoin_cons. rewrite length_app, Hx, IH by done. cbn [length]. lia.
Qed.

(** ** Masks and tables built by loops *)

Definition maskOf (f : nat -> bool) (l : list nat) : Z :=
  foldl (fun m i => if f i then setBit m (Z.of_nat i) else m) 0 l.

Lemma maskFold_bit (f : nat -> bool) l m0 j :
  hasBit (foldl (fun m i => if f i then setBit m (Z.of_nat i) else m) m0 l) (Z.of_nat j) =
  hasBit m0 (Z.of_nat j) || (f j && bool_decide (j ∈ l)).
Proof.
  revert m0. induction l as [|i l IH]; intros m0; cbn [foldl].
  - rewrite bool_decide_eq_false_2 by apply not_elem_of_nil. by rewrite andb_false_r, orb_false_r.
  - rewrite IH. destruct (decide (i = j)) as [->|Hne].
    + rewrite (bool_decide_eq_true_2 (j ∈ j :: l)) by left.
      destruct (f j) eqn:Hf; [rewrite hasBit_setBit, bool_decide_eq_true_2 by done|];
        by destruct (hasBit m0 _), (bool_decide (j ∈ l)).
    + replace (bool_decide (j ∈ i :: l)) with (bool_decide (j ∈ l)).
      2:{ apply bool_decide_ext. rewrite elem_of_cons. naive_solver. }
      destruct (f i); [|done]. rewrite hasBit_setBit, bool_decide_eq_false_2 by done. done.
Qed.

Lemma maskFold_mask (f : nat -> bool) l m0 :
  is_mask m0 -> Forall (fun j => j < 16)%nat l ->
  is_mask (foldl (fun m i => if f i then setBit m (Z.of_nat i) else m) m0 l).
Proof.
  revert m0. induction l as [|i l IH]; intros m0 Hm Hl; [done|]. apply list.Forall_cons in Hl as [Hi Hl]. cbn [foldl].
  apply IH; [|done]. destruct (f i); [by apply setBit_mask|done].
Qed.

Lemma maskOf_bit f j : (j < 16)%nat -> hasBit (maskOf f branches) (Z.of_nat j) = f j.
Proof.
  intros Hj. unfold maskOf. rewrite maskFold_bit, hasBit_0. rewrite bool_decide_eq_true_2 by (apply elem_of_seq; lia).
  by rewrite andb_true_r.
Qed.

Lemma maskOf_mask f : is_mask (maskOf f branches).
Proof. apply maskFold_mask; [apply mask_0|apply branches_lt]. Qed.

Lemma foldl_pair {A B C} (f : A -> C -> A) (g : B -> C -> B) a b l :
  foldl (fun acc x => (f (fst acc) x, g (snd acc) x)) (a, b) l = (foldl f a l, foldl g b l).
Proof. revert a b. induction l as [|x l IH]; intros a b; [done|]. cbn. by rewrite IH. Qed.

Lemma foldl_insert_length {A} (f : nat -> option A) l (hs : list A) :
  length (foldl (fun hs j => match f j with Some h => <[j := h]> hs | None => hs end) hs l) = length hs.
Proof. revert hs. induction l as [|j l IH]; intros hs; [done|]. cbn. rewrite IH. destruct (f j); [by rewrite length_insert|done]. Qed.

(** A table is given by its entries. *)
Lemma table_ext (hs : list bytes) (g : nat -> bytes) :
  length hs = 16%nat -> (forall i, (i < 16)%nat -> hs !!! i = g i) -> hs = g <$> branches.
Proof.
  intros Hl Hg. apply list_eq. intros i. rewrite list_lookup_fmap. destruct (decide (i < 16)%nat) as [Hi|Hi].
  - unfold branches. rewrite lookup_seq_lt by done. cbn. rewrite <- Hg by done. apply list_lookup_lookup_total_lt. lia.
  - rewrite !lookup_ge_None_2; [done| |lia]. unfold branches. rewrite length_seq. lia.
Qed.

Section Codec.
Context `{Hasher}.

Lemma parseFull_total p : length p = 512%nat \/ parseFullInnerNode p = inl errMalformed.
Proof.
  unfold parseFullInnerNode. destruct (Z.eqb_spec (Z.of_nat (length p)) (BranchFactor * 32)) as [He|]; [|by right].
  left. unfold BranchFactor in He. lia.
Qed.

(** The node read from sixteen hashes: a zero hash marks an unused branch. *)
Definition fromHashes (hs : list bytes) : innerNode :=
  updateHashUnsafe (mkInner zeroHash false (maskOf (fun i => negb (isZeroHash (hs !!! i))) branches) hs (replicate 16 None)).

Lemma chunks_total p i : (i < 16)%nat -> (chunk32 p <$> branches) !!! i = chunk32 p i.
Proof.
  intros Hi. apply list_lookup_total_correct. rewrite list_lookup_fmap. unfold branches. by rewrite lookup_seq_lt.
Qed.

Lemma maskOf_chunks p :
  foldl (fun m i => if negb (isZeroHash (chunk32 p i)) then setBit m (Z.of_nat i) else m) 0 branches =
  maskOf (fun i => negb (isZeroHash ((chunk32 p <$> branches) !!! i))) branches.
Proof.
  unfold maskOf. apply foldl_ext_in. intros m i Hi. apply elem_of_seq in Hi. by rewrite chunks_total by lia.
Qed.

Lemma decodeInnerBranches_chunks body :
  bkind body = storedInner -> length (payload body) = 512%nat ->
  decodeInnerBranches body =
  inr (maskOf (fun i => negb (isZeroHash ((chunk32 (payload body) <$> branches) !!! i))) branches,
       chunk32 (payload body) <$> branches).
Proof.
  intros Hk Hl. unfold decodeInnerBranches. rewrite Hk, Hl. cbn [negb Z.eqb]. apply (f_equal inr).
  rewrite <- maskOf_chunks.
  rewrite (foldl_pair (fun m i => if negb (isZeroHash (chunk32 (payload body) i)) then setBit m (Z.of_nat i) else m)
    (fun hs i => <[i := chunk32 (payload body) i]> hs)). apply pair_equal_spec. split; [done|].
  apply table_ext.
  - by rewrite (foldl_insert_length (fun i => Some (chunk32 (payload body) i))).
  - intros i Hi. rewrite (foldl_insert (fun i => Some (chunk32 (payload body) i))) by (rewrite length_replicate; apply branches_lt).
    by rewrite decide_True by (apply elem_of_seq; lia).
Qed.

Lemma decode_total body :
  bkind body = storedInner -> length (payload body) = 512%nat \/ decodeInnerBranches body = inl errMalformed.
Proof.
  intros Hk. unfold decodeInnerBranches. rewrite Hk.
  destruct (Z.eqb_spec (Z.of_nat (length (payload body))) (BranchFactor * 32)) as [He|]; [left; unfold BranchFactor in He; lia|by right].
Qed.

Lemma parseFull_chunks p :
  length p = 512%nat -> parseFullInnerNode p = inr (fromHashes (chunk32 p <$> branches)).
Proof.
  intros Hl. unfold parseFullInnerNode. rewrite Hl. cbn [negb Z.eqb].
  set (nz i := negb (isZeroHash (chunk32 p i))).
  rewrite (foldl_pointwise _ (fun acc i => ((if nz i then setBit (fst acc) (Z.of_nat i) else fst acc),
     (match (if nz i then Some (chunk32 p i) else None) with Some h => <[i := h]> (snd acc) | None => snd acc end)))).
  2:{ intros [m hs] i. unfold nz. by destruct (negb (isZeroHash (chunk32 p i))). }
  rewrite (foldl_pair (fun m i => if nz i then setBit m (Z.of_nat i) else m)
    (fun hs i => match (if nz i then Some (chunk32 p i) else None) with Some h => <[i := h]> hs | None => hs end)).
  unfold fromHashes, nz. rewrite maskOf_chunks. do 3 f_equal. apply table_ext.
  - by rewrite (foldl_insert_length (fun i => if negb (isZeroHash (chunk32 p i)) then Some (chunk32 p i) else None)).
  - intros i Hi. rewrite (foldl_insert (fun i => if negb (isZeroHash (chunk32 p i)) then Some (chunk32 p i) else None))
      by (rewrite length_replicate; apply branches_lt).
    rewrite decide_True by (apply elem_of_seq; lia). unfold isZeroHash. case_bool_decide as Hz; [|done].
    cbn [negb]. by rewrite lookup_total_replicate_2, Hz.
Qed.

(** ** What is written is read back *)

(** The node without its children in memory, as a reader of its bytes has it. *)
Definition stub (n : mapNode) : mapNode :=
  match n with
  | MInner n => MInner (mkInner (hash n) false (isBranch n) (branchHashes n) (replicate 16 None))
  | MLeaf l => MLeaf (cleanLeaf l)
  end.

(** Nodes the formats can carry. Zero stands for an unused branch and is no key
    of the state tree, and a transaction without metadata is read back under
    its hash. *)
Definition sendable (n : mapNode) : Prop :=
  match n with
  | MInner n =>
      shaped n /\ hashed n /\ isBranch n <> 0 /\
      forall i, (i < 16)%nat -> hasBit (isBranch n) (Z.of_nat i) = true ->
        is_key (slotHash (slot n i)) /\ slotHash (slot n i) <> zeroHash
  | MLeaf l =>
      wfLeaf l /\
      match kind l with
      | leafAccountState => key (item l) <> zeroHash
      | leafTransaction => key (item l) = Hash (HashPrefixTransactionID ++ data (item l))
      | leafTransactionWithMeta => True
      end
  end.

Lemma slotHash_unused n i : hasBit (isBranch n) (Z.of_nat i) = false -> slotHash (slot n i) = zeroHash.
Proof. intros Hb. unfold slotHash, slot. by rewrite Hb. Qed.

Lemma sendable_keys n : sendable (MInner n) -> Forall is_key (branchHashes n).
Proof.
  intros (_ & _ & _ & Hs). rewrite branchHashes_slots. apply list.Forall_forall. intros x Hx.
  apply list_elem_of_fmap in Hx as (i & -> & Hi). apply elem_of_seq in Hi.
  destruct (hasBit (isBranch n) (Z.of_nat i)) eqn:Hb; [apply Hs; [lia|done]|].
  rewrite slotHash_unused by done. apply zeroHash_key.
Qed.

Lemma branchHashes_total n i : (i < 16)%nat -> branchHashes n !!! i = slotHash (slot n i).
Proof. intros Hi. apply list_lookup_total_correct. by apply branchHashes_lookup. Qed.

(** A node whose table and mask are those of [n] is its stub. *)
Lemma rebuilt n mask hs :
  hashed n -> mask = isBranch n -> hs = branchHashes n ->
  MInner (updateHashUnsafe (mkInner zeroHash false mask hs (replicate 16 None))) = stub (MInner n).
Proof.
  intros Hh -> ->. unfold stub. f_equal. unfold updateHashUnsafe. cbn [isBranch hashes children dirty]. f_equal.
  rewrite Hh. unfold updateHashUnsafe. cbn [hash]. destruct (isBranch n =? 0); [done|]. do 3 f_equal.
  apply branchHashes_ext. intros i Hi. pose proof (branchHashes_total n i Hi) as Ht. pose proof (slotHash_unused n i) as Hu.
  revert Ht Hu. generalize (slotHash (slot n i)) as r. intros r Ht Hu.
  unfold slot, slotHash, hashAt, childAt. cbn [isBranch hashes children].
  rewrite Nat2Z.id, lookup_total_replicate_2, Ht by done. destruct (hasBit _ _); [done|]. by rewrite Hu.
Qed.

Lemma fromHashes_stub n : sendable (MInner n) -> MInner (fromHashes (branchHashes n)) = stub (MInner n).
Proof.
  intros Hs. pose proof Hs as (Hsh & Hh & _ & Hset). apply rebuilt; [done| |done].
  apply mask_ext; [apply maskOf_mask|apply Hsh|]. intros i Hi. rewrite maskOf_bit by done.
  rewrite branchHashes_total by done. unfold isZeroHash. destruct (hasBit (isBranch n) (Z.of_nat i)) eqn:Hb.
  - destruct (Hset i Hi Hb) as [_ Hz]. by rewrite bool_decide_eq_false_2.
  - rewrite slotHash_unused by done. by rewrite bool_decide_eq_true_2.
Qed.

Lemma innerPayload_length n : sendable (MInner n) -> length (mjoin (branchHashes n)) = 512%nat.
Proof. intros Hs. rewrite mjoin_length, branchHashes_length by by apply sendable_keys. done. Qed.

Lemma newLeafNode_again l :
  wfLeaf l -> exists l', newLeafNode (kind l) (item l) = inr l' /\ cleanLeaf l' = cleanLeaf l.
Proof.
  intros (_ & _ & Hl & Hh). unfold newLeafNode. rewrite (proj2 (Z.ltb_ge _ _)) by lia. eexists. split; [done|].
  unfold updateLeafHash, cleanLeaf. cbn. by rewrite Hh.
Qed.

Lemma take_drop_tail {A} (a b : list A) : take (length (a ++ b) - length b) (a ++ b) = a /\ drop (length (a ++ b) - length b) (a ++ b) = b.
Proof.
  rewrite length_app. replace (length a + length b - length b)%nat with (length a) by lia.
  by rewrite take_app_length, drop_app_length.
Qed.

(** The record of a leaf that carries its key. *)
Lemma decode_keyed p d k :
  length p = 4%nat -> is_key k ->
  let b := p ++ d ++ k in
  take 4 b = p /\ (length b < 4 -> False)%nat /\ (4 + 32 <= length b)%nat /\
  drop 4 (take (length b - 32) b) = d /\ drop (length b - 32) b = k.
Proof.
  intros Hp [Hk _]. cbv zeta. rewrite app_assoc. destruct (take_drop_tail (p ++ d) k) as [Ht Hd].
  rewrite Hk in Ht, Hd. split_and!.
  - rewrite <- app_assoc. by rewrite take_app_length' by done.
  - rewrite !length_app. lia.
  - rewrite !length_app. lia.
  - rewrite Ht. by rewrite drop_app_length' by done.
  - done.
Qed.

Lemma prefix_leaf l : sendable (MLeaf l) -> deserializeFromPrefix (leafWithPrefix l) = inr (stub (MLeaf l)).
Proof.
  intros [Hwf Hk]. pose proof (newLeafNode_again l Hwf) as (l' & Hnl & Hcl). destruct Hwf as (Hkey & _ & Hlen & _).
  unfold deserializeFromPrefix, leafWithPrefix, leafPreimage, decodePrefixBody.
  destruct (item l) as [k dt] eqn:Hit, (kind l) eqn:Hkd; cbn [leafKinds hashPrefix keyOnWire data key] in *.
  - destruct (decode_keyed HashPrefixLeafNode dt k eq_refl Hkey) as (-> & H4 & H36 & -> & ->).
    rewrite (proj2 (Z.ltb_ge _ 4)), (proj2 (Z.ltb_ge _ (4 + 32))) by lia.
    rewrite !bool_decide_eq_false_2, bool_decide_eq_true_2 by done. unfold isZeroHash. rewrite bool_decide_eq_false_2 by done.
    unfold materializePrefixNode. cbn [bkind bkey payload]. rewrite Hnl. cbn [stub]. by rewrite Hcl.
  - rewrite app_nil_r, length_app. rewrite (proj2 (Z.ltb_ge _ 4)), (proj2 (Z.leb_gt _ 4)) by (cbn [length HashPrefixTransactionID]; lia).
    rewrite take_app_length' by done. rewrite !bool_decide_eq_false_2, bool_decide_eq_true_2 by done.
    unfold materializePrefixNode. cbn [bkind bkey payload]. rewrite drop_app_length' by done.
    rewrite <- Hk, Hnl. cbn [stub]. by rewrite Hcl.
  - destruct (decode_keyed HashPrefixTxNode dt k eq_refl Hkey) as (-> & H4 & H36 & -> & ->).
    rewrite (proj2 (Z.ltb_ge _ 4)), (proj2 (Z.ltb_ge _ (4 + 32))) by lia.
    rewrite !bool_decide_eq_false_2, bool_decide_eq_true_2 by done.
    unfold materializePrefixNode. cbn [bkind bkey payload]. rewrite Hnl. cbn [stub]. by rewrite Hcl.
Qed.

Lemma prefix_inner n :
  sendable (MInner n) ->
  deserializeFromPrefix (HashPrefixInnerNode ++ mjoin (branchHashes n)) = inr (stub (MInner n)).
Proof.
  intros Hs. pose proof (innerPayload_length n Hs) as Hl.
  unfold deserializeFromPrefix, decodePrefixBody. rewrite length_app, Hl. cbn [length HashPrefixInnerNode].
  rewrite (proj2 (Z.ltb_ge _ 4)), (proj2 (Z.eqb_eq _ (4 + BranchFactor * 32))) by done.
  rewrite take_app_length' by done. rewrite bool_decide_eq_true_2 by done. cbn [negb].
  unfold materializePrefixNode. cbn [bkind]. rewrite decodeInnerBranches_chunks by (cbn [payload bkind]; rewrite ?drop_app_length' by done; done).
  cbn [payload]. rewrite drop_app_length' by done.
  rewrite chunks_mjoin by (by apply sendable_keys || by rewrite branchHashes_length).
  f_equal. by apply fromHashes_stub.
Qed.

Lemma wire_tail (x : bytes) t : list.last (x ++ [t]) = Some t /\ take (length (x ++ [t]) - 1) (x ++ [t]) = x.
Proof. split; [apply last_snoc|]. apply (take_drop_tail x [t]). Qed.

Lemma wire_leaf l : sendable (MLeaf l) -> deserializeNodeFromWire (leafForWire l) = inr (stub (MLeaf l)).
Proof.
  intros [Hwf Hk]. pose proof (newLeafNode_again l Hwf) as (l' & Hnl & Hcl). destruct Hwf as ([Hkl _] & _ & Hlen & _).
  unfold deserializeNodeFromWire, leafForWire. rewrite app_assoc.
  set (x := data (item l) ++ _). destruct (wire_tail x (wireType (leafKinds (kind l)))) as [Hlast Hinit]. rewrite Hlast.
  unfold newAccountStateLeafFromWire, newTransactionLeafFromWire, newTransactionWithMetaLeafFromWire. rewrite Hlast, Hinit.
  subst x. destruct (item l) as [k dt] eqn:Hit, (kind l) eqn:Hkd; cbn [leafKinds wireType keyOnWire data key] in *.
  - cbn [Z.eqb WireTypeAccountState WireTypeInner WireTypeCompressedInner Pos.eqb negb].
    rewrite length_app, Hkl. rewrite (proj2 (Z.ltb_ge _ 32)) by lia.
    replace (length dt + 32 - 32)%nat with (length dt) by lia. rewrite take_app_length, drop_app_length.
    unfold isZeroHash. rewrite bool_decide_eq_false_2 by done. rewrite Hnl. cbn. by rewrite Hcl.
  - cbn [Z.eqb WireTypeAccountState WireTypeInner WireTypeCompressedInner WireTypeTransaction Pos.eqb negb].
    rewrite app_nil_r, <- Hk, Hnl. cbn. by rewrite Hcl.
  - cbn [Z.eqb WireTypeAccountState WireTypeInner WireTypeCompressedInner WireTypeTransaction WireTypeTransactionWithMeta Pos.eqb negb].
    rewrite length_app, Hkl. rewrite (proj2 (Z.ltb_ge _ 32)) by lia.
    replace (length dt + 32 - 32)%nat with (length dt) by lia. rewrite take_app_length, drop_app_length.
    rewrite Hnl. cbn. by rewrite Hcl.
Qed.

Lemma compressedLoop_pairs (f : nat -> bytes) js mask hs :
  Forall (fun i => i < 16 /\ length (f i) = 32)%nat js ->
  compressedLoop (length js) (mjoin ((fun i => f i ++ [Z.of_nat i]) <$> js)) mask hs =
  inr (foldl (fun m i => setBit m (Z.of_nat i)) mask js, foldl (fun hs i => <[i := f i]> hs) hs js).
Proof.
  revert mask hs. induction js as [|i js IH]; intros mask hs Hjs; [done|].
  apply list.Forall_cons in Hjs as [[Hi Hl] Hjs]. rewrite fmap_cons.
  rewrite mjoin_cons, <- app_assoc. cbn [length compressedLoop foldl].
  rewrite take_app_length' by done. unfold byteAt. cbn [app]. rewrite list_lookup_total_middle by (rewrite Hl; done).
  unfold BranchFactor. rewrite (proj2 (Z.leb_gt _ _)) by lia. rewrite cons_middle, app_assoc.
  rewrite drop_app_length' by (rewrite length_app, Hl; done). rewrite Nat2Z.id. by apply IH.
Qed.

Lemma mjoin_filter (P : nat -> bool) (g : nat -> bytes) l :
  mjoin ((fun i => if P i then g i else []) <$> l) = mjoin (g <$> filter (fun i => P i = true) l).
Proof.
  induction l as [|i l IH]; [done|]. rewrite filter_cons, fmap_cons.
  rewrite mjoin_cons, IH.
  destruct (decide (P i = true)) as [->|Hp]; [done|]. by apply not_true_is_false in Hp as ->.
Qed.

Lemma pairs_length (f : nat -> bytes) js :
  Forall (fun i => length (f i) = 32)%nat js -> length (mjoin ((fun i => f i ++ [Z.of_nat i]) <$> js)) = (33 * length js)%nat.
Proof.
  induction js as [|i js IH]; intros Hjs; [done|]. apply list.Forall_cons in Hjs as [Hl Hjs]. rewrite fmap_cons.
  rewrite mjoin_cons, !length_app, Hl, IH by done. cbn [length]. lia.
Qed.

(** The compressed payload of a node: its used branches in order. *)
Lemma compressed_payload n :
  mjoin ((fun i : nat => if hasBit (isBranch n) (Z.of_nat i)
                         then childPreimageHash n (Z.of_nat i) ++ [Z.of_nat i] else []) <$> branches) =
  mjoin ((fun i => slotHash (slot n i) ++ [Z.of_nat i]) <$> setBits (isBranch n)).
Proof.
  rewrite (mjoin_filter (fun i => hasBit (isBranch n) (Z.of_nat i))). change (filter _ branches) with (setBits (isBranch n)).
  f_equal. apply list_fmap_ext. intros p i Hi. apply list_elem_of_lookup_2, setBits_elem in Hi as [_ Hb].
  unfold slotHash, slot, childPreimageHash. rewrite Hb. by destruct (childAt n (Z.of_nat i)).
Qed.

Lemma setBits_sent n :
  sendable (MInner n) -> Forall (fun i => i < 16 /\ length (slotHash (slot n i)) = 32)%nat (setBits (isBranch n)).
Proof.
  intros (_ & _ & _ & Hs). apply list.Forall_forall. intros i Hi. apply setBits_elem in Hi as [Hi Hb].
  split; [done|]. by destruct (Hs i Hi Hb) as [[Hl _] _].
Qed.

Lemma parseCompressed_stub n :
  sendable (MInner n) ->
  mapR MInner (parseCompressedInnerNode (mjoin ((fun i => slotHash (slot n i) ++ [Z.of_nat i]) <$> setBits (isBranch n)))) =
  inr (stub (MInner n)).
Proof.
  intros Hs. pose proof (setBits_sent n Hs) as Hjs. unfold parseCompressedInnerNode.
  rewrite pairs_length by (eapply list.Forall_impl; [exact Hjs|]; by intros ? [? ?]).
  assert (Hle : (length (setBits (isBranch n)) <= 16)%nat).
  { change 16%nat with (length branches). apply length_filter. }
  rewrite (proj2 (Z.eqb_eq (_ mod 33) 0)) by dmlia. cbn [negb]. unfold BranchFactor. rewrite (proj2 (Z.ltb_ge _ _)) by lia.
  replace (Z.to_nat (Z.of_nat (33 * length (setBits (isBranch n))) / 33)) with (length (setBits (isBranch n))) by dmlia.
  rewrite compressedLoop_pairs by done. cbn [mapR]. f_equal. destruct Hs as (Hsh & Hh & _ & _). apply rebuilt; [done|..].
  - apply mask_ext; [|apply Hsh|].
    + apply (maskFold_mask (fun _ => true)); [apply mask_0|]. eapply list.Forall_impl; [exact Hjs|]. by intros ? [? ?].
    + intros i Hi. rewrite (maskFold_bit (fun _ => true)), hasBit_0. cbn [orb andb]. destruct (hasBit (isBranch n) (Z.of_nat i)) eqn:Hb.
      * apply bool_decide_eq_true_2. by apply setBits_elem.
      * apply bool_decide_eq_false_2. rewrite setBits_elem, Hb. by intros [_ ?].
  - rewrite branchHashes_slots. apply table_ext.
    + by rewrite (foldl_insert_length (fun i => Some (slotHash (slot n i)))).
    + intros i Hi. rewrite (foldl_insert (fun i => Some (slotHash (slot n i)))).
      2:{ rewrite length_replicate. eapply list.Forall_impl; [exact Hjs|]. by intros ? [? ?]. }
      destruct (decide (i ∈ _)) as [|Hn]; [done|]. rewrite lookup_total_replicate_2 by done. symmetry.
      apply slotHash_unused. destruct (hasBit _ _) eqn:Hb; [|done]. destruct Hn. by apply setBits_elem.
Qed.

Lemma wire_inner n :
  sendable (MInner n) -> exists b, innerForWire n = inr b /\ deserializeNodeFromWire b = inr (stub (MInner n)).
Proof.
  intros Hs. pose proof Hs as (Hsh & _ & Hne & _). unfold innerForWire.
  destruct (Z.eqb_spec (OnesCount16 (isBranch n)) 0) as [H0|_].
  { by apply (proj1 (OnesCount16_0 _ (proj1 Hsh))) in H0. }
  unfold deserializeNodeFromWire. destruct (OnesCount16 (isBranch n) <? 12).
  - eexists. split; [done|]. rewrite compressed_payload. set (x := mjoin _).
    destruct (wire_tail x WireTypeCompressedInner) as [Hlast Hinit]. rewrite Hlast.
    cbn [Z.eqb WireTypeCompressedInner WireTypeInner Pos.eqb]. unfold newInnerNodeFromWire. rewrite Hlast, Hinit.
    cbn [Z.eqb WireTypeCompressedInner WireTypeInner Pos.eqb]. by apply parseCompressed_stub.
  - eexists. split; [done|]. destruct (wire_tail (mjoin (branchHashes n)) WireTypeInner) as [Hlast Hinit]. rewrite Hlast.
    cbn [Z.eqb WireTypeInner Pos.eqb]. unfold newInnerNodeFromWire. rewrite Hlast, Hinit. cbn [Z.eqb WireTypeInner Pos.eqb].
    rewrite parseFull_chunks by by apply innerPayload_length. cbn [mapR].
    rewrite chunks_mjoin by (by apply sendable_keys || by rewrite branchHashes_length). f_equal. by apply fromHashes_stub.
Qed.

Lemma wire_node n :
  sendable n -> exists b, SerializeForWire n = inr b /\ deserializeNodeFromWire b = inr (stub n).
Proof.
  destruct n as [n|l]; intros Hs; [by apply wire_inner|]. exists (leafForWire l). split; [done|]. by apply wire_leaf.
Qed.

Lemma prefix_node n :
  sendable n -> exists b, SerializeWithPrefix n = inr b /\ deserializeFromPrefix b = inr (stub n) /\ Hash b = nodeHash n.
Proof.
  destruct n as [n|l]; intros Hs.
  - exists (HashPrefixInnerNode ++ mjoin (branchHashes n)). pose proof Hs as (_ & Hh & Hne & _). split_and!.
    + cbn [SerializeWithPrefix]. unfold innerWithPrefix. by rewrite (proj2 (Z.eqb_neq _ _)).
    + by apply prefix_inner.
    + cbn [nodeHash]. rewrite (hashed_innerHash n Hh). unfold innerHash. by rewrite (proj2 (Z.eqb_neq _ _)).
  - exists (leafWithPrefix l). split_and!; [done|by apply prefix_leaf|]. destruct Hs as [(_ & _ & _ & Hh) _]. cbn. by rewrite Hh.
Qed.

(** ** What is accepted is what would be written *)

Lemma fromHashes_slot hs i :
  (i < 16)%nat -> slotHash (slot (fromHashes hs) i) = hs !!! i /\
  hasBit (isBranch (fromHashes hs)) (Z.of_nat i) = negb (isZeroHash (hs !!! i)).
Proof.
  intros Hi. unfold slot, slotHash, fromHashes, updateHashUnsafe, hashAt, childAt. cbn [isBranch hashes children].
  rewrite maskOf_bit, Nat2Z.id, lookup_total_replicate_2 by done. split; [|done].
  unfold isZeroHash. by case_bool_decide as Hz.
Qed.

Lemma fromHashes_branchHashes hs : length hs = 16%nat -> branchHashes (fromHashes hs) = hs.
Proof.
  intros Hl. rewrite branchHashes_slots. symmetry. apply table_ext; [done|]. intros i Hi. symmetry. by apply fromHashes_slot.
Qed.

Lemma fromHashes_shaped hs : length hs = 16%nat -> shaped (fromHashes hs).
Proof. intros Hl. split; [apply maskOf_mask|]. split; done. Qed.

Lemma fromHashes_sendable hs :
  length hs = 16%nat -> Forall is_key hs -> isBranch (fromHashes hs) <> 0 -> sendable (MInner (fromHashes hs)).
Proof.
  intros Hl Hk Hne. split; [by apply fromHashes_shaped|]. split; [apply updateHash_hashed|]. split; [exact Hne|]. intros i Hi.
  destruct (fromHashes_slot hs i Hi) as [-> ->]. unfold isZeroHash. case_bool_decide as Hz; [done|]. intros _. split; [|done].
  rewrite list.Forall_forall in Hk. apply Hk, list_elem_of_lookup_total_2. lia.
Qed.

Lemma stub_fromHashes hs : length hs = 16%nat -> stub (MInner (fromHashes hs)) = MInner (fromHashes hs).
Proof.
  intros Hl. unfold stub. rewrite fromHashes_branchHashes by done. unfold fromHashes, updateHashUnsafe.
  cbn [hash isBranch hashes children dirty]. reflexivity.
Qed.

Lemma chunk_key p i : all_bytes p -> length p = 512%nat -> (i < 16)%nat -> is_key (chunk32 p i).
Proof.
  intros Hp Hl Hi. unfold chunk32. split; [rewrite length_take, length_drop; lia|]. by apply Forall_take, Forall_drop.
Qed.

Lemma chunks_keys p : all_bytes p -> length p = 512%nat -> Forall is_key (chunk32 p <$> branches).
Proof.
  intros Hp Hl. apply list.Forall_forall. intros x Hx. apply list_elem_of_fmap in Hx as (i & -> & Hi).
  apply elem_of_seq in Hi. apply chunk_key; [done..|lia].
Qed.

(** A leaf built from a key and data of the right lengths. *)
Lemma newLeaf_sound kd k dt l :
  is_key k -> all_bytes dt -> newLeafNode kd (mkItem k dt) = inr l ->
  wfLeaf (cleanLeaf l) /\ kind l = kd /\ item l = mkItem k dt.
Proof.
  intros Hk Hd. unfold newLeafNode. cbn [data]. destruct (Z.ltb_spec (Z.of_nat (length dt)) 12); [done|].
  intros [= <-]. split; [|done]. split; [done|]. split; [done|]. split; [cbn [item cleanLeaf updateLeafHash data]; lia|done].
Qed.

Lemma tail_key b : all_bytes b -> (32 <= length b)%nat -> is_key (drop (length b - 32) b).
Proof. intros Hb Hl. split; [rewrite length_drop; lia|]. by apply Forall_drop. Qed.

Lemma reassemble (b : bytes) : (36 <= length b)%nat ->
  take 4 b ++ drop 4 (take (length b - 32) b) ++ drop (length b - 32) b = b.
Proof.
  intros Hl. rewrite app_assoc. replace (take 4 b) with (take 4 (take (length b - 32) b)).
  2:{ rewrite take_take. f_equal. lia. }
  by rewrite take_drop, take_drop.
Qed.

Lemma leaf_sound kd k dt l b :
  is_key k -> all_bytes dt -> newLeafNode kd (mkItem k dt) = inr l -> leafPreimage kd (mkItem k dt) = b ->
  match kd with
  | leafAccountState => k <> zeroHash
  | leafTransaction => k = Hash (HashPrefixTransactionID ++ dt)
  | leafTransactionWithMeta => True
  end ->
  sendable (MLeaf (cleanLeaf l)) /\ SerializeWithPrefix (MLeaf (cleanLeaf l)) = inr b.
Proof.
  intros Hk Hd Hnl <- Hc. apply newLeaf_sound in Hnl as (Hwf & Hkd & Hit); [|done..].
  split.
  - cbn [sendable]. split; [done|]. cbn [cleanLeaf kind item]. by rewrite Hkd, Hit.
  - cbn [SerializeWithPrefix]. unfold leafWithPrefix. cbn [cleanLeaf kind item]. by rewrite Hkd, Hit.
Qed.

Lemma prefix_sound b n :
  all_bytes b -> deserializeFromPrefix b = inr n ->
  stub n = n /\ ((exists i, n = MInner i /\ isBranch i = 0) \/ (sendable n /\ SerializeWithPrefix n = inr b)).
Proof.
  intros Hb. unfold deserializeFromPrefix, decodePrefixBody. destruct (Z.ltb_spec (Z.of_nat (length b)) 4) as [|H4]; [done|].
  case_bool_decide as Hp1; [|case_bool_decide as Hp2; [|case_bool_decide as Hp3; [|case_bool_decide as Hp4; [|done]]]].
  - destruct (Z.eqb_spec (Z.of_nat (length b)) (4 + BranchFactor * 32)) as [Hl|]; [|done]. cbn [negb].
    assert (Hdl : length (drop 4 b) = 512%nat) by (rewrite length_drop; unfold BranchFactor in Hl; lia).
    assert (Hdb : all_bytes (drop 4 b)) by by apply Forall_drop.
    unfold materializePrefixNode. cbn [bkind]. rewrite decodeInnerBranches_chunks by done. cbn [payload].
    set (i := updateHashUnsafe _). change i with (fromHashes (chunk32 (drop 4 b) <$> branches)). clear i. intros Hn.
    apply (f_equal (fun r => match r with inr x => x | inl _ => n end)) in Hn. cbv beta iota in Hn. subst n.
    assert (Hbh : branchHashes (fromHashes (chunk32 (drop 4 b) <$> branches)) = chunk32 (drop 4 b) <$> branches)
      by by apply fromHashes_branchHashes.
    split.
    { by apply stub_fromHashes. }
    destruct (decide (isBranch (fromHashes (chunk32 (drop 4 b) <$> branches)) = 0)) as [H0|H0]; [left; by eexists|right].
    split; [apply fromHashes_sendable; [done|by apply chunks_keys|done]|].
    cbn [SerializeWithPrefix]. unfold innerWithPrefix. rewrite (proj2 (Z.eqb_neq _ _) H0), Hbh, mjoin_chunks by done.
    by rewrite <- Hp1, take_drop.
  - destruct (Z.ltb_spec (Z.of_nat (length b)) (4 + 32)) as [|Hl]; [done|]. unfold isZeroHash. case_bool_decide as Hz; [done|].
    unfold materializePrefixNode. cbn [bkind bkey payload]. destruct (newLeafNode _ _) as [|l] eqn:Hnl; [done|]. intros [= <-].
    split; [done|right]. eapply leaf_sound; [|by apply Forall_drop, Forall_take|exact Hnl| |done]; [apply tail_key; [done|lia]|].
    unfold leafPreimage. cbn [leafKinds hashPrefix keyOnWire data key]. rewrite <- Hp2. apply reassemble. lia.
  - destruct (Z.leb_spec (Z.of_nat (length b)) 4) as [|Hl]; [done|].
    unfold materializePrefixNode. cbn [bkind bkey payload]. destruct (newLeafNode _ _) as [|l] eqn:Hnl; [done|]. intros [= <-].
    split; [done|right]. eapply leaf_sound; [|by apply Forall_drop|exact Hnl| |done]; [split; [apply Hash_length|apply Hash_bytes]|].
    unfold leafPreimage. cbn [leafKinds hashPrefix keyOnWire data key]. rewrite <- Hp3, app_nil_r. apply take_drop.
  - destruct (Z.ltb_spec (Z.of_nat (length b)) (4 + 32)) as [|Hl]; [done|].
    unfold materializePrefixNode. cbn [bkind bkey payload]. destruct (newLeafNode _ _) as [|l] eqn:Hnl; [done|]. intros [= <-].
    split; [done|right]. eapply leaf_sound; [|by apply Forall_drop, Forall_take|exact Hnl| |done]; [apply tail_key; [done|lia]|].
    unfold leafPreimage. cbn [leafKinds hashPrefix keyOnWire data key]. rewrite <- Hp4. apply reassemble. lia.
Qed.

(** Verified against a hash, a record is a preimage of it. *)
Lemma verified_preimage b h n :
  all_bytes b -> decodeAndVerifyPrefixNode b h = inr n ->
  nodeHash n = h /\ stub n = n /\
  ((exists i, n = MInner i /\ isBranch i = 0 /\ h = zeroHash) \/ (sendable n /\ SerializeWithPrefix n = inr b /\ Hash b = h)).
Proof.
  intros Hb. unfold decodeAndVerifyPrefixNode, materializeAndVerifyPrefixNode.
  destruct (decodePrefixBody b) as [|body] eqn:Hd; [done|]. destruct (materializePrefixNode body) as [|n'] eqn:Hm; [done|].
  case_bool_decide as Hh; [|done]. cbn [negb]. intros [= ->].
  destruct (prefix_sound b n Hb) as [Hs Hc]; [unfold deserializeFromPrefix; by rewrite Hd|]. split_and!; [done..|].
  destruct Hc as [(i & -> & H0)|[Hsd Hser]].
  - left. exists i. split_and!; [done..|]. rewrite <- Hh. clear -Hm H0. unfold materializePrefixNode in Hm.
    destruct (bkind body); [|by destruct (newLeafNode _ _)..].
    destruct (decodeInnerBranches body) as [|[mask hs]]; [done|].
    apply (f_equal (fun r => match r with inr (MInner x) => x | _ => i end)) in Hm. cbv beta iota in Hm. subst i.
    cbn [isBranch updateHashUnsafe] in H0. cbn [nodeHash]. unfold updateHashUnsafe. cbn [hash isBranch]. by rewrite H0.
  - right. split_and!; [done..|]. destruct (prefix_node n Hsd) as (b' & Hb' & _ & Hhb). congruence.
Qed.

(** ** What a peer sends *)

(** An inner node read from the wire: its table is zero where its mask is. *)
Definition wireInner (n : innerNode) : Prop :=
  shaped n /\ hashed n /\
  forall i, (i < 16)%nat -> hashAt n (Z.of_nat i) = slotHash (slot n i) /\ is_key (hashAt n (Z.of_nat i)).

Lemma table_wireInner mask (hs : list bytes) :
  is_mask mask -> length hs = 16%nat -> Forall is_key hs ->
  (forall i, (i < 16)%nat -> hasBit mask (Z.of_nat i) = false -> hs !!! i = zeroHash) ->
  wireInner (updateHashUnsafe (mkInner zeroHash false mask hs (replicate 16 None))).
Proof.
  intros Hm Hl Hk Hz. split; [split; [done|split; done]|]. split; [apply updateHash_hashed|]. intros i Hi.
  unfold slotHash, slot, hashAt, childAt, updateHashUnsafe. cbn [isBranch hashes children]. rewrite Nat2Z.id.
  rewrite lookup_total_replicate_2 by done. split.
  - destruct (hasBit mask (Z.of_nat i)) eqn:Hb; [done|]. by apply Hz.
  - rewrite list.Forall_forall in Hk. apply Hk, list_elem_of_lookup_total_2. lia.
Qed.

Lemma compressedLoop_inv groups p mask hs mask' hs' :
  all_bytes p -> length p = (33 * groups)%nat -> is_mask mask -> length hs = 16%nat -> Forall is_key hs ->
  (forall i, (i < 16)%nat -> hasBit mask (Z.of_nat i) = false -> hs !!! i = zeroHash) ->
  compressedLoop groups p mask hs = inr (mask', hs') ->
  is_mask mask' /\ length hs' = 16%nat /\ Forall is_key hs' /\
  (forall i, (i < 16)%nat -> hasBit mask' (Z.of_nat i) = false -> hs' !!! i = zeroHash).
Proof.
  revert p mask hs. induction groups as [|groups IH]; intros p mask hs Hb Hl Hm Hh Hk Hz; cbn [compressedLoop].
  { by intros [= <- <-]. }
  unfold BranchFactor, byteAt. change (Z.to_nat 32) with 32%nat. destruct (lookup_lt_is_Some_2 p 32 ltac:(lia)) as [x Hx].
  rewrite (list_lookup_total_correct _ _ _ Hx). destruct (Z.leb_spec 16 x) as [|Hlt]; [done|].
  assert (Hxb : is_uint 8 x) by by eapply (Forall_lookup_1 (is_uint 8)). unfold is_uint in Hxb.
  replace x with (Z.of_nat (Z.to_nat x)) by lia. rewrite !Nat2Z.id. set (j := Z.to_nat x) in *.
  apply IH.
  - by apply Forall_drop.
  - rewrite length_drop. lia.
  - apply setBit_mask; [done|lia].
  - by rewrite length_insert.
  - apply Forall_insert; [done|]. split; [rewrite length_take; lia|by apply Forall_take].
  - intros i Hi. rewrite hasBit_setBit, insert_total by lia. destruct (decide (i = j)) as [->|Hne].
    + by rewrite bool_decide_eq_true_2.
    + rewrite bool_decide_eq_false_2 by done. by apply Hz.
Qed.

Lemma zeros_keys : Forall is_key (replicate 16 zeroHash).
Proof. apply Forall_replicate, zeroHash_key. Qed.

Lemma wireInner_sound b n : all_bytes b -> newInnerNodeFromWire b = inr n -> wireInner n.
Proof.
  intros Hb. unfold newInnerNodeFromWire. destruct (list.last b) as [t|]; [|done].
  assert (Hp : all_bytes (take (length b - 1) b)) by by apply Forall_take. revert Hp.
  generalize (take (length b - 1) b) as p. intros p Hp. destruct (t =? WireTypeInner).
  - destruct (parseFull_total p) as [Hl'|He]; [|by rewrite He]. rewrite parseFull_chunks by done. intros Hn.
    apply (f_equal (fun r => match r with inr x => x | inl _ => n end)) in Hn. cbv beta iota in Hn. subst n.
    apply table_wireInner; [apply maskOf_mask|done|by apply chunks_keys|]. intros i Hi. rewrite maskOf_bit by done.
    unfold isZeroHash. by case_bool_decide.
  - destruct (t =? WireTypeCompressedInner); [|done]. unfold parseCompressedInnerNode.
    destruct (Z.eqb_spec (Z.of_nat (length p) mod 33) 0) as [Hmod|]; [|done]. cbn [negb].
    destruct (33 * BranchFactor <? Z.of_nat (length p)); [done|].
    destruct (compressedLoop _ _ _ _) as [|[mask hs]] eqn:Hc; [done|]. intros Hn.
    apply (f_equal (fun r => match r with inr x => x | inl _ => n end)) in Hn. cbv beta iota in Hn. subst n.
    apply compressedLoop_inv in Hc as (H1 & H2 & H3 & H4); [by apply table_wireInner|done|dmlia|apply mask_0|done|apply zeros_keys|].
    intros i Hi _. by rewrite lookup_total_replicate_2.
Qed.

(** A leaf read from the wire is one the formats can carry. *)
Lemma wireLeaf_sound b l : all_bytes b -> deserializeNodeFromWire b = inr (MLeaf l) -> sendable (MLeaf l).
Proof.
  intros Hb. unfold deserializeNodeFromWire. destruct (list.last b) as [t|] eqn:Hlast; [|done].
  assert (Hp : all_bytes (take (length b - 1) b)) by by apply Forall_take.
  destruct (t =? WireTypeInner); [by destruct (newInnerNodeFromWire b)|].
  destruct (t =? WireTypeCompressedInner); [by destruct (newInnerNodeFromWire b)|].
  destruct (t =? WireTypeAccountState) eqn:Ht; [|clear Ht; destruct (t =? WireTypeTransaction) eqn:Ht;
    [|clear Ht; destruct (t =? WireTypeTransactionWithMeta) eqn:Ht; [|done]]].
  - unfold newAccountStateLeafFromWire. rewrite Hlast, Ht. cbn [negb]. revert Hp. generalize (take (length b - 1) b) as p. intros p Hp.
    destruct (Z.ltb_spec (Z.of_nat (length p)) 32); [done|]. unfold isZeroHash. case_bool_decide as Hz; [done|].
    destruct (newLeafNode _ _) as [|l'] eqn:Hnl; [done|]. intros [= <-].
    eapply leaf_sound; [| |exact Hnl|done|done]; [apply tail_key; [done|lia]|by apply Forall_take].
  - unfold newTransactionLeafFromWire. rewrite Hlast, Ht. cbn [negb].
    destruct (newLeafNode _ _) as [|l'] eqn:Hnl; [done|]. intros [= <-].
    eapply leaf_sound; [| |exact Hnl|done|done]; [split; [apply Hash_length|apply Hash_bytes]|done].
  - unfold newTransactionWithMetaLeafFromWire. rewrite Hlast, Ht. cbn [negb]. revert Hp. generalize (take (length b - 1) b) as p. intros p Hp.
    destruct (Z.ltb_spec (Z.of_nat (length p)) 32); [done|].
    destruct (newLeafNode _ _) as [|l'] eqn:Hnl; [done|]. intros [= <-].
    eapply leaf_sound; [| |exact Hnl|done|done]; [apply tail_key; [done|lia]|by apply Forall_take].
Qed.

Lemma wireNode_inner b n : all_bytes b -> deserializeNodeFromWire b = inr (MInner n) -> wireInner n.
Proof.
  intros Hb. unfold deserializeNodeFromWire. destruct (list.last b) as [t|]; [|done].
  destruct (t =? WireTypeInner).
  { destruct (newInnerNodeFromWire b) as [|n'] eqn:Hn; [done|]. intros [= <-]. by eapply wireInner_sound. }
  destruct (t =? WireTypeCompressedInner).
  { destruct (newInnerNodeFromWire b) as [|n'] eqn:Hn; [done|]. intros [= <-]. by eapply wireInner_sound. }
  destruct (t =? WireTypeAccountState); [by destruct (newAccountStateLeafFromWire b)|].
  destruct (t =? WireTypeTransaction); [by destruct (newTransactionLeafFromWire b)|].
  destruct (t =? WireTypeTransactionWithMeta); [by destruct (newTransactionWithMetaLeafFromWire b)|done].
Qed.

(** ** Sizes *)

Lemma wire_size n b : sendable n -> SerializeForWire n = inr b -> wireDataSize n = inr (Z.of_nat (length b)).
Proof.
  destruct n as [n|l]; intros Hs; cbn [SerializeForWire wireDataSize].
  - unfold innerForWire, BranchCount. destruct (OnesCount16 (isBranch n) =? 0); [done|].
    destruct (OnesCount16 (isBranch n) <? 12); intros Hb; apply (f_equal (fun r => match r with inr x => x | inl _ => b end)) in Hb;
      cbv beta iota in Hb; subst b; f_equal; rewrite length_app.
    + rewrite compressed_payload, pairs_length, OnesCount16_setBits; [cbn [length]; lia|].
      eapply list.Forall_impl; [by apply setBits_sent|]. by intros ? [? ?].
    + rewrite innerPayload_length by done. done.
  - intros [= <-]. destruct Hs as [([Hk _] & _) _]. unfold leafForWire.
    destruct (keyOnWire (leafKinds (kind l))); f_equal; rewrite !length_app; rewrite ?Hk; cbn [length]; lia.
Qed.

Lemma filter_in {A} (P Q : A -> Prop) `{!forall x, Decision (P x), !forall x, Decision (Q x)} (l : list A) :
  (forall x, x ∈ l -> P x <-> Q x) -> filter P l = filter Q l.
Proof.
  induction l as [|x l IH]; intros Hpq; [done|]. rewrite !filter_cons.
  rewrite IH by (intros y Hy; apply Hpq; by right). specialize (Hpq x ltac:(by left)).
  destruct (decide (P x)), (decide (Q x)); tauto.
Qed.

Lemma count_bits hs :
  OnesCount16 (isBranch (fromHashes hs)) = Z.of_nat (length (filter (fun i => isZeroHash (hs !!! i) = false) branches)).
Proof.
  rewrite OnesCount16_setBits. unfold setBits. do 2 f_equal. apply filter_in. intros i Hi. apply elem_of_seq in Hi.
  destruct (fromHashes_slot hs i) as [_ ->]; [lia|]. by rewrite negb_true_iff.
Qed.

(** The size computed from a stored record is that of the wire form of its node. *)
Lemma prefix_size b body n :
  decodePrefixBody b = inr body -> materializePrefixNode body = inr n -> wireSizeForPrefixBody body = wireDataSize n.
Proof.
  intros _. unfold materializePrefixNode, wireSizeForPrefixBody. destruct (bkind body) eqn:Hk.
  - destruct (decode_total body) as [Hl|He]; [done| |by rewrite He]. rewrite decodeInnerBranches_chunks by done.
    set (i := updateHashUnsafe _). change i with (fromHashes (chunk32 (payload body) <$> branches)). clear i. intros Hn.
    apply (f_equal (fun r => match r with inr x => x | inl _ => n end)) in Hn. cbv beta iota in Hn. subst n.
    rewrite (proj2 (Z.eqb_eq _ (BranchFactor * 32))) by (rewrite Hl; done). cbn [negb wireDataSize]. unfold BranchCount.
    rewrite count_bits. rewrite (filter_in (fun i => isZeroHash ((chunk32 (payload body) <$> branches) !!! i) = false)
      (fun i => isZeroHash (chunk32 (payload body) i) = false)); [done|].
    intros i Hi. apply elem_of_seq in Hi. by rewrite chunks_total by lia.
  - unfold newLeafNode. destruct (_ <? 12); [done|]. by intros [= <-].
  - unfold newLeafNode. destruct (_ <? 12); [done|]. by intros [= <-].
  - unfold newLeafNode. destruct (_ <? 12); [done|]. by intros [= <-].
Qed.

Lemma stub_hash n : nodeHash (stub n) = nodeHash n.
Proof. by destruct n. Qed.

(** A record made from a node, filed under its hash, stands for the node. *)
Lemma record_verifies n b :
  sendable n -> SerializeWithPrefix n = inr b -> nodeHash n = Hash b /\ decodeAndVerifyPrefixNode b (nodeHash n) = inr (stub n).
Proof.
  intros Hs Hb. destruct (prefix_node n Hs) as (b' & Hb' & Hd & Hh). rewrite Hb in Hb'. injection Hb' as <-.
  split; [done|]. revert Hd. unfold deserializeFromPrefix, decodeAndVerifyPrefixNode, materializeAndVerifyPrefixNode.
  destruct (decodePrefixBody b) as [|body]; [done|]. intros ->. by rewrite bool_decide_eq_true_2 by (by rewrite stub_hash).
Qed.

Lemma record_bytes n b : sendable n -> SerializeWithPrefix n = inr b -> all_bytes b.
Proof.
  destruct n as [n|l]; cbn [SerializeWithPrefix].
  - intros Hs. unfold innerWithPrefix. destruct (isBranch n =? 0); [done|]. intros Hb.
    apply (f_equal (fun r => match r with inr x => x | inl _ => b end)) in Hb. cbv beta iota in Hb. subst b.
    apply Forall_app. split; [by repeat constructor|]. pose proof (sendable_keys n Hs) as Hk. revert Hk.
    generalize (branchHashes n) as l. intros l Hk. induction l as [|x l IH]; [by constructor|].
    apply list.Forall_cons in Hk as [[_ Hx] Hk]. rewrite mjoin_cons. apply Forall_app. by split; [|apply IH].
  - intros [([_ Hk] & Hd & _) _] [= <-]. unfold all_bytes, leafWithPrefix, leafPreimage. apply Forall_app. split.
    + destruct (kind l); by repeat constructor.
    + apply Forall_app. split; [done|]. destruct (keyOnWire _); [done|by constructor].
Qed.

Lemma wireDataSize_stub n : wireDataSize (stub n) = wireDataSize n.
Proof. by destruct n. Qed.

(** C40: A node the formats can carry survives both of them: read back from its
    wire form, or from its stored record under the node's hash, it is the same
    node with its children by hash; the record hashes to the node's hash, and
    both size computations give the length of the wire form. *)
Theorem node_codec_roundtrip n :
  sendable n ->
  exists w p body,
    SerializeForWire n = inr w /\ deserializeNodeFromWire w = inr (stub n) /\ wireDataSize n = inr (Z.of_nat (length w)) /\
    SerializeWithPrefix n = inr p /\ nodeHash n = Hash p /\ decodeAndVerifyPrefixNode p (nodeHash n) = inr (stub n) /\
    decodePrefixBody p = inr body /\ wireSizeForPrefixBody body = inr (Z.of_nat (length w)).
Proof.
  intros Hs. destruct (wire_node n Hs) as (w & Hw & Hdw). destruct (prefix_node n Hs) as (p & Hp & Hdp & Hh).
  destruct (record_verifies n p Hs Hp) as [Hnh Hv]. pose proof (wire_size n w Hs Hw) as Hsz.
  pose proof Hdp as Hdp'. unfold deserializeFromPrefix in Hdp'. destruct (decodePrefixBody p) as [|body] eqn:Hb; [done|].
  exists w, p, body. split; [done|]. split; [done|]. split; [done|]. split; [done|]. split; [done|]. split; [done|]. split; [done|].
  by rewrite (prefix_size p body _ Hb Hdp'), wireDataSize_stub.
Qed.

(** A stored record is accepted under a hash in one form only: the node read
    has that hash, refers to its children by hash, and serializes to the very
    bytes read, which hash to it. Nothing else passes for a node. *)
Theorem stored_record_canonical b h n :
  all_bytes b -> h <> zeroHash -> decodeAndVerifyPrefixNode b h = inr n ->
  nodeHash n = h /\ stub n = n /\ sendable n /\ SerializeWithPrefix n = inr b /\ Hash b = h.
Proof.
  intros Hb Hz Hd. apply verified_preimage in Hd as (He & Hst & Hcase); [|done].
  destruct Hcase as [(i & _ & _ & H0)|(Hsd & Hser & Hh)]; [done|]. done.
Qed.

End Codec.

(** ** Instances *)

#[local] Existing Instance exampleHasher.

(** A leaf with twelve bytes of data. *)
Definition sampleLeaf : leafNode := updateLeafHash (mkLeaf zeroHash true (mkItem (replicate 32 1) (replicate 12 7)) leafAccountState).

Lemma sampleLeaf_sendable : sendable (MLeaf sampleLeaf).
Proof.
  split; [|discriminate]. split; [split; [done|]|]; [apply Forall_replicate; unfold is_uint; lia|].
  split; [apply Forall_replicate; unfold is_uint; lia|]. split; [cbn; lia|reflexivity].
Qed.

Lemma node_codec_roundtrip_witness :
  exists w, SerializeForWire (MLeaf sampleLeaf) = inr w /\ deserializeNodeFromWire w = inr (stub (MLeaf sampleLeaf)).
Proof.
  destruct (node_codec_roundtrip (MLeaf sampleLeaf) sampleLeaf_sendable) as (w & p & body & Hw & Hd & _). by exists w.
Defined.

Lemma stored_record_canonical_witness : SerializeWithPrefix (stub (MLeaf sampleLeaf)) = inr (leafWithPrefix sampleLeaf).
Proof.
  apply (stored_record_canonical (leafWithPrefix sampleLeaf) (lhash sampleLeaf)).
  - apply (record_bytes (MLeaf sampleLeaf)); [apply sampleLeaf_sendable|reflexivity].
  - discriminate.
  - apply (record_verifies (MLeaf sampleLeaf)); [apply sampleLeaf_sendable|reflexivity].
Defined.

End ShaMapCodec.
