(* ===== verification/ShaMap.v ===== *)
(** * State tree: the map (shamap/shamap.go, traverse.go, mutation.go, snapshot.go)

    The operations on one map. The Family, which reads serialized nodes by hash,
    is outside the package and an argument of the map: a function that returns a
    record, nothing, or an error. A lazily loaded child is read and verified on
    every descent; keeping it in memory afterwards (the clean-node residency
    cache, and attaching while syncing) changes no result and is not modelled.
    Contexts are never cancelled. *)

From Stdlib Require Import ZArith Lia.
From stdpp Require Import base list numbers option.
From S2P Require Import Prelude Sha512 ShaMapKey ShaMapNode.

Import ShaMapKey ShaMapNode.

Module ShaMap.

Inductive Type_ := TypeTransaction | TypeState.
Inductive mapState := stateModifying | stateImmutable | stateSyncing | stateInvalid.

#[export] Instance mapState_eq_dec : EqDecision mapState.
Proof. solve_decision. Defined.

(** [Family.Fetch]: the read fails, the store has no such node, or its record. *)
Inductive fetchResult := Failed | Absent | Found (data : bytes).
Definition Family : Type := bytes -> fetchResult.

(** The fields of [treeState] and [backingState]. *)
Record SHAMap := mkMap {
  root : innerNode; mapType : Type_; state : mapState; ledgerSeq : Z; cachedSize : Z;
  family : option Family }.

Definition New (mapType : Type_) : SHAMap := mkMap newInnerNode mapType stateModifying 0 (-1) None.

Definition NewBacked (mapType : Type_) (family : option Family) : Result SHAMap :=
  match family with
  | None => inl errNilFamily
  | Some f => inr (mkMap newInnerNode mapType stateModifying 0 (-1) (Some f))
  end.

Definition setRoot (sm : SHAMap) (r : innerNode) : SHAMap :=
  mkMap r (mapType sm) (state sm) (ledgerSeq sm) (cachedSize sm) (family sm).

Definition setState (sm : SHAMap) (s : mapState) : SHAMap :=
  mkMap (root sm) (mapType sm) s (ledgerSeq sm) (cachedSize sm) (family sm).

(** [nodeStack], top first. *)
Abbreviation nodeStack := (list (mapNode * NodeID)).

Section Ops.
Context `{Hasher}.

Definition NewFromRootHash (mapType : Type_) (rootHash : bytes) (family : option Family) : Result SHAMap :=
  match family with
  | None => inl errNilFamily
  | Some fetch =>
      match fetch rootHash with
      | Failed => inl errFetch
      | Absent => inl (ErrNodeNotInStore rootHash)
      | Found data =>
          match decodeAndVerifyPrefixNode data rootHash with
          | inl _ => inl ErrInvalidNodeData
          | inr (MInner r) => inr (mkMap r mapType stateModifying 0 (-1) (Some fetch))
          | inr (MLeaf _) => inl ErrInvalidNodeData
          end
      end
  end.

(** ** Reading a child *)

Definition readSlot (fam : option Family) (s : bool * bytes * option mapNode) : Result (option mapNode) :=
  let '(hasBranch, hash, child) := s in
  match child with
  | Some c => inr (Some c)
  | None =>
      match fam with
      | None => inr None
      | Some fetch =>
          if negb hasBranch || isZeroHash hash then inr None
          else
            match fetch hash with
            | Failed => inl errFetch
            | Absent => inl (ErrNodeNotInStore hash)
            | Found data =>
                let? node := decodeAndVerifyPrefixNode data hash in
                inr (Some node)
            end
      end
  end.

Definition readChild (fam : option Family) (inner : innerNode) (branch : Z) : Result (option mapNode) :=
  let '(child, hash, hasBranch) := LoadChild inner branch in
  readSlot fam (hasBranch, hash, child).

(** ** Walking to a key *)

Fixpoint walkLoop (fuel : nat) (fam : option Family) (key : bytes) (node : mapNode) (nodeID : NodeID)
    (stack : nodeStack) : Result (option mapNode * NodeID * nodeStack) :=
  match fuel with
  | O => inl outOfFuel
  | S fuel =>
      match node with
      | MLeaf _ => inr (Some node, nodeID, stack)
      | MInner inner =>
          let stack := (node, nodeID) :: stack in
          let branch := selectBranch nodeID key in
          if IsEmptyBranch inner branch then inr (None, nodeID, stack)
          else
            let? child := readChild fam inner branch in
            match child with
            | None => inr (None, nodeID, stack)
            | Some child =>
                let? childID := childNodeID nodeID branch in
                walkLoop fuel fam key child childID stack
            end
      end
  end.

(** [childNodeID] fails below depth 64, which bounds the loop. *)
Definition walkFuel : nat := 66.

Definition walkToKey (sm : SHAMap) (key : bytes) (pushLeaf : bool) : Result (option mapNode * nodeStack) :=
  let? r := walkLoop walkFuel (family sm) key (MInner (root sm)) newRootNodeID [] in
  let '(node, nodeID, stack) := r in
  match node with
  | Some n => inr (node, if pushLeaf then (n, nodeID) :: stack else stack)
  | None => inr (None, stack)
  end.

Definition findItem (sm : SHAMap) (k : bytes) : Result (option Item) :=
  let? r := walkToKey sm k false in
  match fst r with
  | None => inr None
  | Some (MInner _) => inl errInvalidType
  | Some (MLeaf l) => if bool_decide (key (item l) = k) then inr (Some (item l)) else inr None
  end.

Definition Get (sm : SHAMap) (k : bytes) : Result (option Item * bool) :=
  let? item := findItem sm k in
  inr (item, match item with Some _ => true | None => false end).

Definition Has (sm : SHAMap) (k : bytes) : Result bool :=
  let? item := findItem sm k in
  inr match item with Some _ => true | None => false end.

Definition Hash_ (sm : SHAMap) : Result bytes :=
  match state sm with
  | stateInvalid => inl errInvalidState
  | _ => inr (hash (root sm))
  end.

(** ** Putting an item *)

Definition getLeafNodeType (sm : SHAMap) : NodeType :=
  match mapType sm with
  | TypeTransaction => NodeTypeTransactionNoMeta
  | TypeState => NodeTypeAccountState
  end.

Fixpoint dirtyLoop (stack : nodeStack) (target : bytes) (child : mapNode) : Result mapNode :=
  match stack with
  | [] => inr child
  | (MLeaf _, _) :: _ => inl errInvalidType
  | (MInner inner, nodeID) :: stack =>
      let cloned := shallowClone inner in
      let branch := selectBranch nodeID target in
      let? cloned := SetChild cloned branch (Some child) in
      dirtyLoop stack target (MInner cloned)
  end.

Definition dirtyUp (sm : SHAMap) (stack : nodeStack) (target : bytes) (child : mapNode) : Result mapNode :=
  match state sm with
  | stateSyncing | stateImmutable => inl errInvalidState
  | _ => dirtyLoop stack target child
  end.

Definition assignRoot (sm : SHAMap) (newRoot : mapNode) (key : bytes) : Result SHAMap :=
  match newRoot with
  | MInner innerRoot => inr (setRoot sm innerRoot)
  | MLeaf _ =>
      let branch := selectBranch newRootNodeID key in
      let? r := SetChild newInnerNode branch (Some newRoot) in
      inr (setRoot sm r)
  end.

(** The inner nodes from [currentDepth] to the split, top first, each holding the
    next one while it is still empty; the last one is the deepest. *)
Fixpoint chainDown (n : nat) (key : bytes) (d : Z) : Result (list innerNode) :=
  match n with
  | O => inr []
  | S n =>
      let? top := SetChild newInnerNode (getBranchAtDepth key d) (Some (MInner newInnerNode)) in
      let? rest := chainDown n key (d + 1) in
      inr (top :: rest)
  end.

(** The refresh loop: each node takes its child again, deepest first. *)
Fixpoint refreshChain (chain : list innerNode) (key : bytes) (d : Z) (deepest : innerNode) : Result innerNode :=
  match chain with
  | [] => inr deepest
  | top :: rest =>
      let? child := refreshChain rest key (d + 1) deepest in
      SetChild top (getBranchAtDepth key d) (Some (MInner child))
  end.

Definition splitLeaves (k : bytes) (newLeaf leaf : leafNode) (currentDepth : Z) : Result innerNode :=
  let existingKey := key (item leaf) in
  let splitDepth := findSplitDepth k existingKey currentDepth in
  let? chain := chainDown (Z.to_nat (splitDepth - currentDepth)) k currentDepth in
  let newBranch := getBranchAtDepth k splitDepth in
  let existingBranch := getBranchAtDepth existingKey splitDepth in
  let? deepest := SetChild newInnerNode newBranch (Some (MLeaf newLeaf)) in
  let? deepest := SetChild deepest existingBranch (Some (MLeaf leaf)) in
  refreshChain chain k currentDepth deepest.

Definition putItemWithNodeTypeUnsafe (sm : SHAMap) (it : Item) (nodeType : NodeType) : Result SHAMap :=
  let k := key it in
  let? r := walkToKey sm k false in
  let '(node, stack) := r in
  match node with
  | None =>
      let? newLeaf := createLeafNode nodeType it in
      let? newRoot := dirtyUp sm stack k (MLeaf newLeaf) in
      assignRoot sm newRoot k
  | Some (MInner _) => inl errInvalidType
  | Some (MLeaf leaf) =>
      if bool_decide (k = key (item leaf)) then
        let? newLeaf := createLeafNode nodeType it in
        let? newRoot := dirtyUp sm stack k (MLeaf newLeaf) in
        assignRoot sm newRoot k
      else
        let? newLeaf := createLeafNode nodeType it in
        let? topInner := splitLeaves k newLeaf leaf (Z.of_nat (length stack)) in
        let? newRoot := dirtyUp sm stack k (MInner topInner) in
        assignRoot sm newRoot k
  end.

Definition putItemUnsafe (sm : SHAMap) (it : Item) : Result SHAMap :=
  putItemWithNodeTypeUnsafe sm it (getLeafNodeType sm).

Definition Put (sm : SHAMap) (k data : bytes) : Result SHAMap :=
  if negb (bool_decide (state sm = stateModifying)) then inl ErrImmutable
  else putItemUnsafe sm (mkItem k data).

Definition PutWithNodeType (sm : SHAMap) (k data : bytes) (nodeType : NodeType) : Result SHAMap :=
  if negb (bool_decide (state sm = stateModifying)) then inl ErrImmutable
  else putItemWithNodeTypeUnsafe sm (mkItem k data) nodeType.

(** ** Deleting an item *)

Fixpoint onlyBelow (fuel : nat) (fam : option Family) (node : mapNode) : Result (option Item) :=
  match fuel with
  | O => inl outOfFuel
  | S fuel =>
      match node with
      | MLeaf l => inr (Some (item l))
      | MInner inner =>
          if negb (OnesCount16 (isBranch inner) =? 1) then inr None
          else
            let? next := readChild fam inner (TrailingZeros16 (isBranch inner)) in
            match next with
            | None => inr None
            | Some next => onlyBelow fuel fam next
            end
      end
  end.

Fixpoint consolidateLoop (sm : SHAMap) (stack : nodeStack) (key : bytes) (prevNode : option mapNode) :
    Result (option mapNode) :=
  match stack with
  | [] => inr prevNode
  | (MLeaf _, _) :: _ => inl errInvalidType
  | (MInner inner, nodeID) :: stack =>
      let branch := selectBranch nodeID key in
      let? cloned := SetChild (shallowClone inner) branch prevNode in
      if negb (IsRoot nodeID) then
        if BranchCount cloned =? 0 then consolidateLoop sm stack key None
        else if BranchCount cloned =? 1 then
          let? onlyItem := onlyBelow walkFuel (family sm) (MInner cloned) in
          match onlyItem with
          | Some it =>
              let? newLeaf := createLeafNode (getLeafNodeType sm) it in
              consolidateLoop sm stack key (Some (MLeaf newLeaf))
          | None => consolidateLoop sm stack key (Some (MInner cloned))
          end
        else consolidateLoop sm stack key (Some (MInner cloned))
      else consolidateLoop sm stack key (Some (MInner cloned))
  end.

Definition consolidateAfterDelete (sm : SHAMap) (stack : nodeStack) (key : bytes) : Result mapNode :=
  let? r := consolidateLoop sm stack key None in
  match r with None => inl errMalformed | Some n => inr n end.

Definition findAndRemoveLeaf (sm : SHAMap) (k : bytes) : Result nodeStack :=
  let? r := walkToKey sm k true in
  match snd r with
  | [] => inl ErrItemNotFound
  | (MInner _, _) :: _ => inl ErrItemNotFound
  | (MLeaf leaf, _) :: stack =>
      if negb (bool_decide (k = key (item leaf))) then inl ErrItemNotFound else inr stack
  end.

Definition Delete (sm : SHAMap) (k : bytes) : Result SHAMap :=
  if negb (bool_decide (state sm = stateModifying)) then inl ErrImmutable
  else
    let? stack := findAndRemoveLeaf sm k in
    let? newRoot := consolidateAfterDelete sm stack k in
    match newRoot with
    | MInner rootInner => inr (setRoot sm rootInner)
    | MLeaf _ => inl errMalformed
    end.

(** ** States and snapshots *)

Definition SetImmutable (sm : SHAMap) : Result SHAMap :=
  match state sm with
  | stateInvalid => inl errInvalidState
  | _ => inr (setState sm stateImmutable)
  end.

Definition StartSync (sm : SHAMap) : Result SHAMap :=
  match state sm with
  | stateInvalid => inl errInvalidState
  | _ => inr (setState sm stateSyncing)
  end.

Definition snapshotLocked (sm : SHAMap) (mutable : bool) : Result SHAMap :=
  match state sm with
  | stateInvalid => inl errInvalidState
  | _ =>
      let newState := if mutable then stateModifying else stateImmutable in
      let size :=
        if negb mutable && bool_decide (state sm = stateImmutable) && (0 <=? cachedSize sm)
        then cachedSize sm else -1 in
      inr (mkMap (root sm) (mapType sm) newState (ledgerSeq sm) size (family sm))
  end.

Definition MutableFork (sm : SHAMap) : Result SHAMap := snapshotLocked sm true.

Fixpoint putAll (sm : SHAMap) (items : list (option Item)) : Result SHAMap :=
  match items with
  | [] => inr sm
  | None :: _ => inl errNilItem
  | Some it :: items =>
      let? sm := putItemUnsafe sm it in
      putAll sm items
  end.

(** On an error the map is left as it was: the staged copy is dropped. *)
Definition PutItemsAtomically (sm : SHAMap) (items : list (option Item)) : Result SHAMap :=
  if negb (bool_decide (state sm = stateModifying)) then inl ErrImmutable
  else
    let? staged := snapshotLocked sm true in
    let? staged := putAll staged items in
    inr (mkMap (root staged) (mapType sm) (state sm) (ledgerSeq sm) (-1) (family sm)).

End Ops.

End ShaMap.
