(* ===== verification/ShaMapRefine.v ===== *)
(** * State tree: the tree implements a finite map

    [rep h d n m] says that the node [n], at depth [d] with [h] levels left below
    it, holds exactly the items [m]: every branch in use leads (in memory or in
    the store) to a node with the branch's hash that represents the items whose
    nibble at [d] is that branch, unused branches hold nothing, stored hashes are
    the hashes of what they summarize, and no inner node but the root stands for
    fewer than two items. Every operation is proved against it. *)

From Stdlib Require Import ZArith Lia.
From stdpp Require Import base list numbers option gmap fin_maps.
From S2P Require Import Prelude Sha512 ShaMapKey ShaMapNode ShaMap.

Import ShaMapKey ShaMapNode ShaMap.

Module ShaMapRefine.

(** Items by key: their kind and data. *)
Abbreviation contents := (gmap bytes (leafKind * bytes)).

(** The items whose nibble at depth [d] is [i]. *)
Definition sub (d i : nat) (m : contents) : contents := filter (fun kv => nibble kv.1 d = i) m.

(** The keys are 32 bytes and agree with [k] on the first [d] nibbles. *)
Definition under (d : nat) (k : bytes) (m : contents) : Prop := map_Forall (fun k' _ => samePrefix d k' k) m.
Definition keyed (m : contents) : Prop := map_Forall (fun k _ => is_key k) m.

Lemma sub_lookup d i m k : sub d i m !! k = if decide (nibble k d = i) then m !! k else None.
Proof.
  unfold sub. destruct (decide (nibble k d = i)) as [Hn|Hn].
  - destruct (m !! k) as [v|] eqn:Hk.
    + by apply map_lookup_filter_Some_2.
    + apply map_lookup_filter_None. by left.
  - apply map_lookup_filter_None. right. intros v _. done.
Qed.

Lemma sub_insert_eq d i m k v : nibble k d = i -> sub d i (<[k := v]> m) = <[k := v]> (sub d i m).
Proof. intros Hn. unfold sub. by rewrite map_filter_insert_True. Qed.

Lemma sub_insert_ne d i m k v : nibble k d <> i -> sub d i (<[k := v]> m) = sub d i m.
Proof.
  intros Hn. apply map_eq. intros k'. rewrite !sub_lookup. destruct (decide (nibble k' d = i)) as [Hk'|]; [|done].
  rewrite lookup_insert_ne; [done|]. intros ->. done.
Qed.

Lemma sub_delete d i m k : sub d i (delete k m) = delete k (sub d i m).
Proof. unfold sub. apply map_filter_delete. Qed.

Lemma sub_delete_ne d i m k : nibble k d <> i -> sub d i (delete k m) = sub d i m.
Proof.
  intros Hn. rewrite sub_delete. apply delete_id. rewrite sub_lookup. by rewrite decide_False.
Qed.

Lemma sub_keyed d i m : keyed m -> keyed (sub d i m).
Proof. intros Hm k v Hk. rewrite sub_lookup in Hk. destruct (decide _); [by eapply Hm|done]. Qed.

Lemma under_sub d k m : under d k m -> under (S d) k (sub d (nibble k d) m).
Proof.
  intros Hu k' v Hk'. rewrite sub_lookup in Hk'. destruct (decide _) as [Hn|]; [|done].
  apply samePrefix_S. split; [by eapply Hu|done].
Qed.

Lemma under_0 k m : under 0 k m.
Proof. intros k' v _ d Hd. lia. Qed.

(** Nothing is lost by looking at the branches one by one. *)
Lemma sub_all_empty d m : keyed m -> (forall i, (i < 16)%nat -> sub d i m = ∅) -> m = ∅.
Proof.
  intros Hk He. apply map_empty. intros k. destruct (m !! k) as [v|] eqn:Hm; [|done].
  specialize (He (nibble k d) (nibble_lt k d (Hk _ _ Hm))).
  apply (f_equal (fun m => m !! k)) in He. rewrite sub_lookup, decide_True, Hm, lookup_empty in He by done. done.
Qed.

Lemma sub_only d i m : keyed m -> (forall j, (j < 16)%nat -> j <> i -> sub d j m = ∅) -> sub d i m = m.
Proof.
  intros Hk He. apply map_eq. intros k. rewrite sub_lookup. destruct (decide (nibble k d = i)) as [|Hn]; [done|].
  destruct (m !! k) as [v|] eqn:Hm; [|done]. specialize (He (nibble k d) (nibble_lt k d (Hk _ _ Hm)) Hn).
  apply (f_equal (fun m => m !! k)) in He. by rewrite sub_lookup, decide_True, Hm, lookup_empty in He.
Qed.

Section Rep.
Context `{Hasher} (fam : option Family).

Definition leafContents (l : leafNode) : contents := {[ key (item l) := (kind l, data (item l)) ]}.

Fixpoint rep (h d : nat) (n : mapNode) (m : contents) : Prop :=
  match n with
  | MLeaf l => wfLeaf l /\ m = leafContents l
  | MInner n =>
      match h with
      | O => False
      | S h =>
          shaped n /\ hashed n /\ keyed m /\ (d <> 0%nat -> (2 <= size m)%nat) /\
          forall i, (i < 16)%nat ->
            if hasBit (isBranch n) (Z.of_nat i)
            then exists c, readSlot fam (slot n i) = inr (Some c) /\ hashAt n (Z.of_nat i) = nodeHash c /\
                   rep h (S d) c (sub d i m)
            else hashAt n (Z.of_nat i) = zeroHash /\ childAt n (Z.of_nat i) = None /\ sub d i m = ∅
      end
  end.

(** A possibly absent subtree. *)
Definition repO (h d : nat) (n : option mapNode) (m : contents) : Prop :=
  match n with Some n => rep h d n m | None => m = ∅ end.

(** What a branch of an inner node must hold. *)
Definition slotRep (h d : nat) (s : bool * bytes * option mapNode) (m : contents) : Prop :=
  let '(b, hh, c) := s in
  if b then exists c', readSlot fam s = inr (Some c') /\ hh = nodeHash c' /\ rep h d c' m
  else hh = zeroHash /\ c = None /\ m = ∅.

Lemma rep_leaf h d l m : rep h d (MLeaf l) m <-> wfLeaf l /\ m = leafContents l.
Proof. by destruct h. Qed.

Lemma rep_inner h d n m :
  rep (S h) d (MInner n) m <->
  shaped n /\ hashed n /\ keyed m /\ (d <> 0%nat -> (2 <= size m)%nat) /\
  forall i, (i < 16)%nat -> slotRep h (S d) (slot n i) (sub d i m).
Proof. done. Qed.

Lemma rep_keyed h d n m : rep h d n m -> keyed m.
Proof.
  destruct n as [n|l].
  - destruct h; [done|]. by intros (_ & _ & Hk & _).
  - intros [(Hk & _) ->]%rep_leaf. unfold keyed, leafContents. by apply map_Forall_singleton.
Qed.

Lemma readChild_slot n (i : nat) : readChild fam n (Z.of_nat i) = readSlot fam (slot n i).
Proof. done. Qed.

(** [rep] of an inner node without the bound on its size. *)
Definition preRep (h d : nat) (n : innerNode) (m : contents) : Prop :=
  shaped n /\ hashed n /\ keyed m /\ forall i, (i < 16)%nat -> slotRep h (S d) (slot n i) (sub d i m).

Lemma preRep_rep h d n m :
  rep (S h) d (MInner n) m <-> preRep h d n m /\ (d <> 0%nat -> (2 <= size m)%nat).
Proof. rewrite rep_inner. unfold preRep. tauto. Qed.

(** Replacing one branch. *)
Lemma preRep_setChild h d n m i c m' :
  rep (S h) d (MInner n) m -> (i < 16)%nat -> repO h (S d) c (sub d i m') ->
  (forall j, j <> i -> sub d j m' = sub d j m) -> keyed m' ->
  exists n', SetChild (shallowClone n) (Z.of_nat i) c = inr n' /\ preRep h d n' m'.
Proof.
  intros (Hs & _ & _ & _ & Hsl)%rep_inner Hi Hc Hne Hk.
  destruct (SetChild_spec (shallowClone n) i c) as (n' & Hset & Hs' & Hh' & _ & Heq & Hother); [done..|].
  exists n'. split; [done|]. split; [done|]. split; [done|]. split; [done|].
  intros j Hj. destruct (decide (j = i)) as [->|Hji].
  - rewrite Heq. unfold slotRep. destruct c as [c|].
    + exists c. split_and!; done.
    + done.
  - rewrite Hother, Hne by done. by apply Hsl.
Qed.

Lemma rep_setChild h d n m i c m' :
  rep (S h) d (MInner n) m -> (i < 16)%nat -> repO h (S d) c (sub d i m') ->
  (forall j, j <> i -> sub d j m' = sub d j m) -> keyed m' -> (d <> 0%nat -> (2 <= size m')%nat) ->
  exists n', SetChild (shallowClone n) (Z.of_nat i) c = inr n' /\ rep (S h) d (MInner n') m'.
Proof.
  intros Hr Hi Hc Hne Hk Hsz. destruct (preRep_setChild h d n m i c m') as (n' & Hset & Hp); try done.
  exists n'. split; [done|]. by apply preRep_rep.
Qed.

(** ** The way to a key *)

(** [descent k h d n m stk r hb db mb]: from [n] the walk to [k] pushes [stk] and
    ends at the leaf [r], or at an unused branch when [r] is [None]; the place it
    ends at is at depth [db] and holds [mb]. *)
Inductive descent (k : bytes) :
    nat -> nat -> mapNode -> contents -> nodeStack -> option leafNode -> nat -> nat -> contents -> Prop :=
  | descent_leaf h d l m :
      rep h d (MLeaf l) m -> descent k h d (MLeaf l) m [] (Some l) h d m
  | descent_empty h d n m :
      rep (S h) d (MInner n) m -> hasBit (isBranch n) (Z.of_nat (nibble k d)) = false ->
      descent k (S h) d (MInner n) m [(MInner n, idOf d k)] None h (S d) ∅
  | descent_step h d n m c stk r hb db mb :
      rep (S h) d (MInner n) m -> hasBit (isBranch n) (Z.of_nat (nibble k d)) = true ->
      readSlot fam (slot n (nibble k d)) = inr (Some c) ->
      descent k h (S d) c (sub d (nibble k d) m) stk r hb db mb ->
      descent k (S h) d (MInner n) m (stk ++ [(MInner n, idOf d k)]) r hb db mb.

Lemma slot_in_use h d n m i :
  preRep h d n m -> (i < 16)%nat -> hasBit (isBranch n) (Z.of_nat i) = true ->
  exists c, readSlot fam (slot n i) = inr (Some c) /\ hashAt n (Z.of_nat i) = nodeHash c /\ rep h (S d) c (sub d i m).
Proof.
  intros (_ & _ & _ & Hsl) Hi Hb. specialize (Hsl i Hi). unfold slotRep, slot in Hsl.
  rewrite Hb in Hsl. unfold slot. by rewrite Hb.
Qed.

Lemma slot_unused h d n m i :
  preRep h d n m -> (i < 16)%nat -> hasBit (isBranch n) (Z.of_nat i) = false -> sub d i m = ∅.
Proof.
  intros (_ & _ & _ & Hsl) Hi Hb. specialize (Hsl i Hi). unfold slotRep, slot in Hsl.
  rewrite Hb in Hsl. by destruct Hsl as (_ & _ & ?).
Qed.

Lemma walk_descent k h d n m stack fuel :
  rep h d n m -> (h + d = 64)%nat -> is_key k -> (h < fuel)%nat ->
  exists stk r hb db mb id,
    walkLoop fuel fam k n (idOf d k) stack = inr (MLeaf <$> r, id, stk ++ stack) /\
    descent k h d n m stk r hb db mb /\ (r <> None -> id = idOf db k).
Proof.
  revert h d n m stack. induction fuel as [|fuel IH]; intros h d n m stack Hr Hhd Hk Hf; [lia|].
  destruct n as [n|l]; cbn [walkLoop].
  2:{ exists [], (Some l), h, d, m, (idOf d k). split_and!; try done. by constructor. }
  destruct h as [|h]; [done|]. rewrite (selectBranch_depth _ _ d) by (done || lia).
  pose proof (nibble_lt k d Hk) as Hn. unfold IsEmptyBranch. rewrite outOfRange_nat by done.
  destruct (hasBit (isBranch n) (Z.of_nat (nibble k d))) eqn:Hb; cbn [negb].
  - destruct (slot_in_use h d n m _ (proj1 (proj1 (preRep_rep _ _ _ _) Hr)) Hn Hb) as (c & Hc & _ & Hrc). rewrite readChild_slot, Hc.
    rewrite childNodeID_idOf by (done || lia).
    destruct (IH h (S d) c _ ((MInner n, idOf d k) :: stack) Hrc) as (stk & r & hb & db & mb & id & Hw & Hd & Hid);
      [lia|done|lia|].
    exists (stk ++ [(MInner n, idOf d k)]), r, hb, db, mb, id. split_and!; [by rewrite Hw, <- app_assoc| |done].
    by econstructor.
  - exists [(MInner n, idOf d k)], None, h, (S d), ∅, (idOf d k). split_and!; try done. by constructor.
Qed.

Lemma descent_depth k h d n m stk r hb db mb :
  descent k h d n m stk r hb db mb -> (db = d + length stk)%nat /\ (hb + db = h + d)%nat.
Proof.
  induction 1 as [| |? ? ? ? ? ? ? ? ? ? ? ? ? ? IH]; cbn [length]; rewrite ?length_app; cbn [length]; lia.
Qed.

Lemma descent_lookup k h d n m stk r hb db mb :
  descent k h d n m stk r hb db mb -> is_key k -> mb !! k = m !! k.
Proof.
  induction 1 as [|h d n m Hr Hb|h d n m c stk r hb db mb Hr Hb Hc Hd IH]; intros Hk; [done| |].
  - pose proof (slot_unused h d n m _ (proj1 (proj1 (preRep_rep _ _ _ _) Hr)) (nibble_lt k d Hk) Hb) as He.
    apply (f_equal (fun m => m !! k)) in He. rewrite sub_lookup, decide_True in He by done. by rewrite He.
  - rewrite IH by done. by rewrite sub_lookup, decide_True.
Qed.

Lemma descent_under k h d n m stk r hb db mb :
  descent k h d n m stk r hb db mb -> under d k m -> under db k mb.
Proof.
  induction 1 as [| |h d n m c stk r hb db mb Hr Hb Hc Hd IH]; intros Hu; [done| |].
  - apply map_Forall_empty.
  - by apply IH, under_sub.
Qed.

Lemma descent_bottom k h d n m stk r hb db mb :
  descent k h d n m stk r hb db mb ->
  match r with Some l => wfLeaf l /\ mb = leafContents l | None => mb = ∅ /\ stk <> [] end.
Proof. induction 1 as [h d l m Hr| |]; [by apply rep_leaf in Hr|done|]. destruct r; [done|]. by destruct IHdescent, stk. Qed.

Lemma dirtyLoop_app s1 s2 k c :
  dirtyLoop (s1 ++ s2) k c = let? c' := dirtyLoop s1 k c in dirtyLoop s2 k c'.
Proof.
  revert c. induction s1 as [|[[n|l] nid] s1 IH]; intros c; [done| |done]. cbn [app dirtyLoop].
  destruct (SetChild _ _ _); [done|]. by rewrite IH.
Qed.

Lemma keyed_insert m k v : keyed m -> is_key k -> keyed (<[k := v]> m).
Proof. intros Hm Hk. by apply map_Forall_insert_2. Qed.

Lemma size_insert_le (m : contents) k (v : leafKind * bytes) : (size m <= size (<[k := v]> m))%nat.
Proof.
  destruct (m !! k) as [v'|] eqn:Hk.
  - rewrite map_size_insert_Some; done || eauto.
  - rewrite map_size_insert_None by done. lia.
Qed.

(** Rebuilding the path above a changed place. *)
Lemma dirty_descent k v h d n m stk r hb db mb c' :
  descent k h d n m stk r hb db mb -> is_key k -> (h + d = 64)%nat -> rep hb db c' (<[k := v]> mb) ->
  exists n', dirtyLoop stk k c' = inr n' /\ rep h d n' (<[k := v]> m) /\ (stk <> [] -> exists i, n' = MInner i).
Proof.
  induction 1 as [h d l m Hr|h d n m Hr Hb|h d n m c stk r hb db mb Hr Hb Hc Hd IH]; intros Hk Hhd Hc'.
  - exists c'. split_and!; done.
  - pose proof (nibble_lt k d Hk) as Hn. pose proof (slot_unused h d n m _ (proj1 (proj1 (preRep_rep _ _ _ _) Hr)) Hn Hb) as He.
    destruct (rep_setChild h d n m (nibble k d) (Some c') (<[k := v]> m)) as (n' & Hset & Hr'); try done.
    + cbn [repO]. by rewrite sub_insert_eq, He.
    + intros j Hj. by rewrite sub_insert_ne.
    + apply keyed_insert; [by eapply rep_keyed|done].
    + intros Hd0. apply rep_inner in Hr as (_ & _ & _ & Hsz & _). pose proof (size_insert_le m k v). specialize (Hsz Hd0). lia.
    + exists (MInner n'). cbn [dirtyLoop]. rewrite (selectBranch_depth _ _ d) by (done || lia). rewrite Hset. eauto.
  - destruct IH as (c'' & Hl & Hr'' & _); [done|lia|done|]. rewrite dirtyLoop_app, Hl. cbn [dirtyLoop].
    pose proof (nibble_lt k d Hk) as Hn.
    destruct (rep_setChild h d n m (nibble k d) (Some c'') (<[k := v]> m)) as (n' & Hset & Hr'); try done.
    + cbn [repO]. by rewrite sub_insert_eq.
    + intros j Hj. by rewrite sub_insert_ne.
    + apply keyed_insert; [by eapply rep_keyed|done].
    + intros Hd0. apply rep_inner in Hr as (_ & _ & _ & Hsz & _). pose proof (size_insert_le m k v). specialize (Hsz Hd0). lia.
    + exists (MInner n'). rewrite (selectBranch_depth _ _ d) by (done || lia). rewrite Hset. eauto.
Qed.

(** ** Splitting a leaf *)

Lemma newLeafNode_ok kd it :
  is_key (key it) -> all_bytes (data it) -> (12 <= length (data it))%nat ->
  exists l, newLeafNode kd it = inr l /\ wfLeaf l /\ item l = it /\ kind l = kd /\ ldirty l = true.
Proof.
  intros Hk Hb Hl. unfold newLeafNode. rewrite (proj2 (Z.ltb_ge _ _)) by lia.
  eexists. split; [done|]. done.
Qed.

Lemma newInner_slot i : (i < 16)%nat -> slot newInnerNode i = (false, zeroHash, None).
Proof.
  intros Hi. unfold slot, hashAt, childAt, newInnerNode. cbn [isBranch hashes children]. rewrite Nat2Z.id, hasBit_0.
  rewrite !lookup_total_replicate_2 by done. done.
Qed.

(** A node with a single branch in use. *)
Lemma rep_single h d n m i c :
  shaped n -> hashed n -> (i < 16)%nat -> slot n i = (true, nodeHash c, Some c) ->
  (forall j, (j < 16)%nat -> j <> i -> slot n j = (false, zeroHash, None)) ->
  rep h (S d) c m -> map_Forall (fun k _ => nibble k d = i) m -> (2 <= size m)%nat ->
  rep (S h) d (MInner n) m.
Proof.
  intros Hs Hh Hi Hsi Hsj Hc Hn Hsz. pose proof (rep_keyed _ _ _ _ Hc) as Hk. apply rep_inner.
  split_and!; try done; try apply Hs. intros j Hj. destruct (decide (j = i)) as [->|Hji].
  - rewrite Hsi. exists c. split_and!; try done.
    replace (sub d i m) with m; [done|]. apply map_eq. intros k. rewrite sub_lookup.
    destruct (decide _) as [|Hne]; [done|]. destruct (m !! k) eqn:Hm; [|done]. destruct Hne. by eapply Hn.
  - rewrite Hsj by done. split_and!; try done. apply map_empty. intros k. rewrite sub_lookup.
    destruct (decide _) as [He|]; [|done]. destruct (m !! k) eqn:Hm; [|done]. destruct Hji. rewrite <- He. by eapply Hn.
Qed.

Lemma SetChild_new i c :
  (i < 16)%nat ->
  exists n', SetChild newInnerNode (Z.of_nat i) (Some c) = inr n' /\ shaped n' /\ hashed n' /\
    slot n' i = (true, nodeHash c, Some c) /\
    forall j, (j < 16)%nat -> j <> i -> slot n' j = (false, zeroHash, None).
Proof.
  intros Hi. destruct (SetChild_spec newInnerNode i (Some c)) as (n' & Hset & Hs & Hh & _ & Hsi & Hsj);
    [apply newInnerNode_shaped|done|].
  exists n'. split_and!; try done; try apply Hs. intros j Hj Hji. by rewrite Hsj, newInner_slot.
Qed.

Lemma chain_ok k (n : nat) h d deepest m :
  is_key k -> (d + n < 64)%nat -> rep h (d + n) (MInner deepest) m -> (2 <= size m)%nat -> under (d + n) k m ->
  exists chain top, chainDown n k (Z.of_nat d) = inr chain /\
    refreshChain chain k (Z.of_nat d) deepest = inr top /\ rep (h + n) d (MInner top) m.
Proof.
  intros Hk. revert d. induction n as [|n IH]; intros d Hd Hr Hsz Hu.
  { exists [], deepest. rewrite !Nat.add_0_r in *. done. }
  destruct (IH (S d)) as (chain & top & Hc & Ht & Hrt); [lia|by rewrite Nat.add_succ_comm|done|by rewrite Nat.add_succ_comm|].
  cbn [chainDown]. rewrite <- nibble_branch by done. pose proof (nibble_lt k d Hk) as Hn.
  destruct (SetChild_new (nibble k d) (MInner newInnerNode) Hn) as (t0 & Hset & Hs0 & _ & Hi0 & Hj0).
  rewrite Hset. replace (Z.of_nat d + 1) with (Z.of_nat (S d)) by lia. rewrite Hc. exists (t0 :: chain).
  cbn [refreshChain]. replace (Z.of_nat d + 1) with (Z.of_nat (S d)) by lia. rewrite Ht. rewrite <- nibble_branch by done.
  destruct (SetChild_spec t0 (nibble k d) (Some (MInner top)) Hs0 Hn) as (t1 & Hset1 & Hs1 & Hh1 & _ & Hi1 & Hj1).
  exists t1. split_and!; [done..|]. rewrite Nat.add_succ_r. apply (rep_single _ _ _ _ (nibble k d) (MInner top)); try done.
  - intros j Hj Hji. by rewrite Hj1, Hj0.
  - intros k' v Hk'. apply (Hu _ _ Hk'). lia.
Qed.

Lemma sub_singleton d i k (v : leafKind * bytes) :
  sub d i {[k := v]} = if decide (nibble k d = i) then {[k := v]} else ∅.
Proof.
  apply map_eq. intros k'. rewrite sub_lookup. destruct (decide (k' = k)) as [->|Hne].
  - by destruct (decide (nibble k d = i)).
  - rewrite lookup_singleton_ne by done. destruct (decide (nibble k' d = i)), (decide (nibble k d = i)); try done.
    all: by rewrite lookup_singleton_ne.
Qed.

(** The two leaves under the node at the split. *)
Lemma pair_ok h s (l1 l2 : leafNode) :
  wfLeaf l1 -> wfLeaf l2 -> nibble (key (item l1)) s <> nibble (key (item l2)) s ->
  exists n1 n2,
    SetChild newInnerNode (Z.of_nat (nibble (key (item l1)) s)) (Some (MLeaf l1)) = inr n1 /\
    SetChild n1 (Z.of_nat (nibble (key (item l2)) s)) (Some (MLeaf l2)) = inr n2 /\
    rep (S h) s (MInner n2) (<[key (item l1) := (kind l1, data (item l1))]> (leafContents l2)).
Proof.
  intros H1 H2 Hne. pose proof (proj1 H1) as Hk1. pose proof (proj1 H2) as Hk2.
  assert (Hkk : key (item l1) <> key (item l2)) by (intros He; by rewrite He in Hne).
  destruct (SetChild_new (nibble (key (item l1)) s) (MLeaf l1) (nibble_lt _ _ Hk1)) as (n1 & Hset1 & Hs1 & _ & Hi1 & Hj1).
  destruct (SetChild_spec n1 (nibble (key (item l2)) s) (Some (MLeaf l2)) Hs1 (nibble_lt _ _ Hk2))
    as (n2 & Hset2 & Hs2 & Hh2 & _ & Hi2 & Hj2).
  exists n1, n2. split_and!; [done..|]. apply rep_inner. split_and!; try done; try apply Hs2.
  - apply keyed_insert; [|done]. unfold leafContents. by apply map_Forall_singleton.
  - intros _. rewrite map_size_insert_None; [unfold leafContents; by rewrite map_size_singleton|]. by apply lookup_singleton_ne.
  - intros j Hj. unfold leafContents. destruct (decide (j = nibble (key (item l2)) s)) as [->|Hj2'].
    + rewrite Hi2, sub_insert_ne, sub_singleton, decide_True by done. exists (MLeaf l2). split_and!; try done.
      by apply rep_leaf.
    + rewrite Hj2 by done. destruct (decide (j = nibble (key (item l1)) s)) as [->|Hj1'].
      * rewrite Hi1, sub_insert_eq, sub_singleton, decide_False by done. exists (MLeaf l1). split_and!; try done.
        by apply rep_leaf.
      * rewrite Hj1, sub_insert_ne, sub_singleton, decide_False by done. done.
Qed.

Lemma splitLeaves_ok k h d (newLeaf leaf : leafNode) :
  wfLeaf newLeaf -> key (item newLeaf) = k -> wfLeaf leaf -> k <> key (item leaf) ->
  samePrefix d k (key (item leaf)) -> (h + d = 64)%nat ->
  exists top, splitLeaves k newLeaf leaf (Z.of_nat d) = inr top /\
    rep h d (MInner top) (<[k := (kind newLeaf, data (item newLeaf))]> (leafContents leaf)).
Proof.
  intros H1 Hk1 H2 Hne Hp Hhd. subst k. pose proof (proj1 H1) as Hk1. pose proof (proj1 H2) as Hk2.
  unfold splitLeaves.
  destruct (findSplitDepth_spec _ _ d Hk1 Hk2 Hne Hp ltac:(lia)) as (s & Hs & Hsd & Hps & Hns). rewrite Hs.
  destruct (pair_ok (63 - s) s newLeaf leaf H1 H2 Hns) as (n1 & n2 & Hset1 & Hset2 & Hr).
  destruct (chain_ok (key (item newLeaf)) (s - d) (S (63 - s)) d n2
    (<[key (item newLeaf) := (kind newLeaf, data (item newLeaf))]> (leafContents leaf)) Hk1 ltac:(lia)) as (chain & top & Hc & Ht & Hrt).
  - by replace (d + (s - d))%nat with s by lia.
  - rewrite map_size_insert_None; [unfold leafContents; by rewrite map_size_singleton|]. by apply lookup_singleton_ne.
  - replace (d + (s - d))%nat with s by lia. apply map_Forall_insert_2; [apply samePrefix_refl|].
    unfold leafContents. apply map_Forall_singleton. by apply samePrefix_sym.
  - replace (Z.to_nat (Z.of_nat s - Z.of_nat d)) with (s - d)%nat by lia. rewrite Hc.
    rewrite <- !nibble_branch by done. rewrite Hset1, Hset2, Ht. exists top. split; [done|].
    by replace h with (S (63 - s) + (s - d))%nat by lia.
Qed.

(** ** Removing a key *)

Lemma size_two (m : contents) k1 v1 k2 v2 :
  m !! k1 = Some v1 -> m !! k2 = Some v2 -> k1 <> k2 -> (2 <= size m)%nat.
Proof.
  intros H1 H2 Hne. rewrite <- (insert_delete_id m k1 v1 H1), map_size_insert_None by apply lookup_delete_eq.
  rewrite <- (insert_delete_id (delete k1 m) k2 v2), map_size_insert_None; [lia|apply lookup_delete_eq|].
  by rewrite lookup_delete_ne.
Qed.

Lemma nonempty_lookup (m : contents) : m <> ∅ -> exists k v, m !! k = Some v.
Proof. intros Hm. apply map_choose in Hm as (k & v & Hk). eauto. Qed.

Lemma rep_nonempty h d n m : rep h d n m -> d <> 0%nat -> m <> ∅.
Proof.
  destruct n as [n|l].
  - destruct h; [done|]. intros (_ & Hsz)%preRep_rep Hd ->. specialize (Hsz Hd). rewrite map_size_empty in Hsz. lia.
  - intros [_ ->]%rep_leaf _. apply map_non_empty_singleton.
Qed.

Lemma two_branches h d n m :
  preRep h d n m -> ~ (BranchCount n = 0) -> ~ (BranchCount n = 1) -> (2 <= size m)%nat.
Proof.
  intros Hp H0 H1. unfold BranchCount in *. rewrite OnesCount16_setBits in H0, H1.
  pose proof (setBits_NoDup (isBranch n)) as Hnd. destruct (setBits (isBranch n)) as [|i [|j l]] eqn:Hs; cbn in H0, H1; try lia.
  assert (Hi : forall x, x ∈ [i; j] -> exists k v, m !! k = Some v /\ nibble k d = x).
  { intros x Hx. assert (Hx' : x ∈ setBits (isBranch n)).
    { rewrite Hs. rewrite !elem_of_cons in Hx |- *. rewrite elem_of_nil in Hx. tauto. }
    apply setBits_elem in Hx' as [Hx16 Hxb]. destruct (slot_in_use h d n m x Hp Hx16 Hxb) as (c & _ & _ & Hc).
    apply rep_nonempty in Hc; [|done]. apply nonempty_lookup in Hc as (k & v & Hk). rewrite sub_lookup in Hk.
    destruct (decide _); [|done]. eauto. }
  destruct (Hi i) as (k1 & v1 & Hk1 & Hn1); [by left|]. destruct (Hi j) as (k2 & v2 & Hk2 & Hn2); [by right; left|].
  apply (size_two m k1 v1 k2 v2 Hk1 Hk2). intros ->. apply list.NoDup_cons in Hnd as [Hnd _]. apply Hnd.
  rewrite <- Hn1, Hn2. by left.
Qed.

(** The only branch in use holds everything. *)
Lemma one_branch h d n m :
  preRep h d n m -> BranchCount n = 1 ->
  exists i c, (i < 16)%nat /\ TrailingZeros16 (isBranch n) = Z.of_nat i /\
    readSlot fam (slot n i) = inr (Some c) /\ rep h (S d) c m.
Proof.
  intros Hp H1. destruct (OnesCount16_1 (isBranch n)) as (i & Hi & Htz & Hbits); [apply Hp|done|].
  destruct (slot_in_use h d n m i Hp Hi) as (c & Hc & _ & Hrc); [by apply Hbits|].
  exists i, c. split_and!; try done. rewrite sub_only in Hrc; [done|apply Hp|].
  intros j Hj Hji. apply (slot_unused h d n m j Hp Hj). destruct (hasBit _ (Z.of_nat j)) eqn:Hb; [|done].
  destruct Hji. by apply Hbits.
Qed.

Lemma onlyBelow_inner fuel h d n m :
  preRep h d n m -> (2 <= size m)%nat -> (S h < fuel)%nat -> onlyBelow fuel fam (MInner n) = inr None.
Proof.
  revert h d n. induction fuel as [|fuel IH]; intros h d n Hp Hsz Hf; [lia|]. cbn [onlyBelow].
  destruct (Z.eqb_spec (OnesCount16 (isBranch n)) 1) as [H1|]; [|done]. cbn [negb].
  destruct (one_branch h d n m Hp H1) as (i & c & Hi & -> & Hc & Hrc). rewrite readChild_slot, Hc.
  destruct c as [c|l].
  - destruct h as [|h]; [done|]. apply preRep_rep in Hrc as [Hpc _]. apply (IH h (S d)); [done..|lia].
  - apply rep_leaf in Hrc as [_ ->]. unfold leafContents in Hsz. rewrite map_size_singleton in Hsz. lia.
Qed.

End Rep.

(** ** The operations of the map *)

Section Map.
Context `{Hasher}.

Definition Rep (sm : SHAMap) (m : contents) : Prop := rep (family sm) 64 0 (MInner (root sm)) m.

(** The kind of the leaves [Put] makes. *)
Definition defaultKind (t : Type_) : leafKind :=
  match t with TypeTransaction => leafTransaction | TypeState => leafAccountState end.

Definition uniform (kd : leafKind) (m : contents) : Prop := map_Forall (fun _ v => v.1 = kd) m.

Lemma createLeafNode_default sm it : createLeafNode (getLeafNodeType sm) it = newLeafNode (defaultKind (mapType sm)) it.
Proof. unfold getLeafNodeType. by destruct (mapType sm). Qed.

Lemma New_rep t : Rep (New t) ∅.
Proof.
  apply preRep_rep. split; [|done]. split; [apply newInnerNode_shaped|]. split; [done|].
  split; [apply map_Forall_empty|]. intros i Hi. cbn [root New]. rewrite newInner_slot by done. done.
Qed.

Lemma consolidateLoop_app sm s1 s2 k c :
  consolidateLoop sm (s1 ++ s2) k c = let? c' := consolidateLoop sm s1 k c in consolidateLoop sm s2 k c'.
Proof.
  revert c. induction s1 as [|[[n|l] nid] s1 IH]; intros c; [done| |done]. cbn [app consolidateLoop].
  destruct (SetChild _ _ _) as [|cl]; [done|]. destruct (negb (IsRoot nid)); [|apply IH].
  destruct (BranchCount cl =? 0); [apply IH|]. destruct (BranchCount cl =? 1); [|apply IH].
  destruct (onlyBelow _ _ _) as [|[it|]]; [done| |apply IH]. destruct (createLeafNode _ _); [done|apply IH].
Qed.

(** ** What a deletion leaves

    The other items that share the first [d] nibbles with the key. *)
Lemma samePrefix_Forall d a b : samePrefix d a b <-> Forall (fun i => nibble a i = nibble b i) (seq 0 d).
Proof.
  rewrite list.Forall_forall. split; intros Hs i Hi; [apply elem_of_seq in Hi; apply Hs; lia|apply Hs, elem_of_seq; lia].
Qed.

#[global] Instance samePrefix_dec d a b : Decision (samePrefix d a b).
Proof. refine (cast_if (decide (Forall (fun i => nibble a i = nibble b i) (seq 0 d)))); by rewrite samePrefix_Forall. Defined.

Definition sharing (d : nat) (k : bytes) (m : contents) : contents := filter (fun kv => samePrefix d kv.1 k) (delete k m).

(** For some number of nibbles, at least [lo], the item is the only other one
    that shares them with the key. *)
Definition lastWith (lo : nat) (k : bytes) (m : contents) (k' : bytes) : bool :=
  existsb (fun d => (size (sharing d k m) =? 1)%nat && bool_decide (is_Some (sharing d k m !! k'))) (seq lo (64 - lo)).

(** Without the key, and with an item that is left alone below an inner node of
    the key's path other than the root turned into a leaf of kind [kd]. *)
Definition afterFrom (kd : leafKind) (lo : nat) (k : bytes) (m : contents) : contents :=
  map_imap (fun k' v => Some (if lastWith lo k m k' then (kd, v.2) else v)) (delete k m).

Definition afterDelete (kd : leafKind) (k : bytes) (m : contents) : contents := afterFrom kd 1 k m.

Lemma afterFrom_lookup kd lo k m k' :
  afterFrom kd lo k m !! k' = (fun v => if lastWith lo k m k' then (kd, v.2) else v) <$> delete k m !! k'.
Proof. unfold afterFrom. rewrite map_lookup_imap. by destruct (delete k m !! k'). Qed.

Lemma afterFrom_dom kd lo k m : dom (afterFrom kd lo k m) = dom (delete k m).
Proof. apply set_eq. intros k'. rewrite !elem_of_dom, afterFrom_lookup. by rewrite fmap_is_Some. Qed.

Lemma afterFrom_size kd lo k m : size (afterFrom kd lo k m) = size (delete k m).
Proof. by rewrite <- !size_dom, afterFrom_dom. Qed.

Lemma sharing_lookup d k m k' v : sharing d k m !! k' = Some v <-> delete k m !! k' = Some v /\ samePrefix d k' k.
Proof. unfold sharing. by rewrite map_lookup_filter_Some. Qed.

Lemma sharing_sub d d' k m : (d < d')%nat -> sharing d' k (sub d (nibble k d) m) = sharing d' k m.
Proof.
  intros Hd. apply map_eq. intros k'. apply option_eq. intros v. rewrite !sharing_lookup, !lookup_delete_Some, sub_lookup.
  split; [destruct (decide _); naive_solver|]. intros [Hm Hs]. by rewrite decide_True by (apply Hs; lia).
Qed.

Lemma sharing_under d k m : under d k m -> sharing d k m = delete k m.
Proof.
  intros Hu. apply map_eq. intros k'. apply option_eq. intros v. rewrite sharing_lookup. split; [naive_solver|].
  intros Hm. split; [done|]. apply lookup_delete_Some in Hm as [_ Hm]. by eapply Hu.
Qed.

Lemma lastWith_sub d k m k' : lastWith (S d) k (sub d (nibble k d) m) k' = lastWith (S d) k m k'.
Proof.
  unfold lastWith. assert (Hall : Forall (fun d' => d < d')%nat (seq (S d) (64 - S d))).
  { apply list.Forall_forall. intros d' Hd'. apply elem_of_seq in Hd'. lia. }
  induction Hall as [|d' l Hd Hall IH]; [done|]. cbn [existsb]. by rewrite IH, sharing_sub.
Qed.

Lemma lastWith_other d k m k' : nibble k' d <> nibble k d -> lastWith (S d) k m k' = false.
Proof.
  intros Hne. unfold lastWith. apply not_true_iff_false. intros Hl. apply existsb_exists in Hl as (d' & Hd' & Hl).
  apply list_elem_of_In, elem_of_seq in Hd'. apply andb_true_iff in Hl as [_ Hl]. apply bool_decide_eq_true in Hl as [v Hl].
  apply sharing_lookup in Hl as [_ Hs]. destruct Hne. apply Hs. lia.
Qed.

Lemma lastWith_step d k m k' :
  (d < 64)%nat -> under d k m ->
  lastWith d k m k' = (size (delete k m) =? 1)%nat && bool_decide (is_Some (delete k m !! k')) || lastWith (S d) k m k'.
Proof.
  intros Hd Hu. unfold lastWith at 1. replace (64 - d)%nat with (S (64 - S d)) by lia. cbn [seq existsb]. by rewrite sharing_under.
Qed.

(** The leaf that a lone item becomes. *)
Definition retag (kd : leafKind) (m : contents) : contents := if (size m =? 1)%nat then (fun v => (kd, v.2)) <$> m else m.

Lemma retag_after kd d k m : (d < 64)%nat -> under d k m -> retag kd (afterFrom kd (S d) k m) = afterFrom kd d k m.
Proof.
  intros Hd Hu. unfold retag. rewrite afterFrom_size. apply map_eq. intros k'.
  destruct (size (delete k m) =? 1)%nat eqn:Hsz; rewrite ?lookup_fmap, !afterFrom_lookup, (lastWith_step d k m k' Hd Hu), Hsz; [|done].
  destruct (delete k m !! k') as [v|] eqn:Hv; [|done]. rewrite bool_decide_eq_true_2 by by eexists. by destruct (lastWith (S d) k m k').
Qed.

Lemma afterFrom_sub kd d k m : sub d (nibble k d) (afterFrom kd (S d) k m) = afterFrom kd (S d) k (sub d (nibble k d) m).
Proof.
  apply map_eq. intros k'. rewrite sub_lookup, !afterFrom_lookup, lastWith_sub, <- sub_delete, sub_lookup. by destruct (decide _).
Qed.

Lemma afterFrom_sub_ne kd d k m j : j <> nibble k d -> sub d j (afterFrom kd (S d) k m) = sub d j m.
Proof.
  intros Hj. apply map_eq. intros k'. rewrite !sub_lookup. destruct (decide (nibble k' d = j)) as [<-|]; [|done].
  rewrite afterFrom_lookup, lastWith_other, lookup_delete_ne by congruence. by destruct (m !! k').
Qed.

Lemma afterFrom_keyed kd lo k m : keyed m -> keyed (afterFrom kd lo k m).
Proof.
  intros Hk k' v Hv. rewrite afterFrom_lookup in Hv. apply fmap_Some in Hv as (v' & Hv & _).
  apply lookup_delete_Some in Hv as [_ Hv]. by eapply Hk.
Qed.

Lemma afterFrom_uniform kd lo k m : uniform kd m -> afterFrom kd lo k m = delete k m.
Proof.
  intros Hu. apply map_eq. intros k'. rewrite afterFrom_lookup. destruct (delete k m !! k') as [v|] eqn:Hv; [|done]. cbn. f_equal.
  apply lookup_delete_Some in Hv as [_ Hv]. specialize (Hu _ _ Hv). destruct v as [kd' dt]. cbn in Hu. subst kd'. by destruct (lastWith _ _ _ _).
Qed.

(** One level of the consolidation, below the root. *)
Lemma collapse sm h d n m :
  preRep (family sm) h d n m -> (d <> 0)%nat -> (h < 64)%nat -> m <> ∅ ->
  exists r, (forall stack k,
    (if BranchCount n =? 0 then consolidateLoop sm stack k None
     else if BranchCount n =? 1 then
       let? onlyItem := onlyBelow walkFuel (family sm) (MInner n) in
       match onlyItem with
       | Some it =>
           let? newLeaf := createLeafNode (getLeafNodeType sm) it in
           consolidateLoop sm stack k (Some (MLeaf newLeaf))
       | None => consolidateLoop sm stack k (Some (MInner n))
       end
     else consolidateLoop sm stack k (Some (MInner n))) = consolidateLoop sm stack k (Some r)) /\
    rep (family sm) (S h) d r (retag (defaultKind (mapType sm)) m).
Proof.
  intros Hp Hd Hh Hne. assert (Hkeep : (2 <= size m)%nat -> retag (defaultKind (mapType sm)) m = m).
  { intros Hsz. unfold retag. by rewrite (proj2 (Nat.eqb_neq _ _)) by lia. }
  destruct (Z.eqb_spec (BranchCount n) 0) as [H0|H0].
  { destruct Hne. apply (proj1 (OnesCount16_0 _ (proj1 (proj1 Hp)))) in H0. apply (sub_all_empty d); [apply Hp|]. intros i Hi.
    apply (slot_unused _ h d n m i Hp Hi). by rewrite H0, hasBit_0. }
  destruct (Z.eqb_spec (BranchCount n) 1) as [H1|H1].
  2:{ assert (Hsz : (2 <= size m)%nat) by by eapply two_branches.
      exists (MInner n). split; [done|]. rewrite Hkeep by done. by apply preRep_rep. }
  destruct (one_branch _ h d n m Hp H1) as (i & c & Hi & Htz & Hc & Hrc). destruct c as [c|l].
  - assert (Hsz : (2 <= size m)%nat).
    { destruct h as [|h]; [done|]. apply preRep_rep in Hrc as [_ Hsz]. by apply Hsz. }
    exists (MInner n). split; [|rewrite Hkeep by done; by apply preRep_rep]. intros stack k.
    rewrite (onlyBelow_inner (family sm) walkFuel h d n m) by (done || unfold walkFuel; lia). done.
  - apply rep_leaf in Hrc as [Hwl ->]. change walkFuel with (S (S 64)). cbn [onlyBelow]. unfold BranchCount in H1.
    rewrite H1. cbn [Z.eqb Pos.eqb negb]. rewrite Htz, readChild_slot, Hc. cbn [onlyBelow].
    rewrite createLeafNode_default. destruct Hwl as (Hk & Hb & Hl & Hh').
    destruct (newLeafNode_ok (defaultKind (mapType sm)) (item l) Hk Hb Hl) as (l' & Hnl & Hwl' & Hit & Hkd & _).
    rewrite Hnl. exists (MLeaf l'). split; [done|]. apply rep_leaf. split; [done|].
    unfold retag, leafContents. rewrite map_size_singleton. cbn [Nat.eqb]. by rewrite map_fmap_singleton, Hit, Hkd.
Qed.

Lemma uniform_sub kd d i m : uniform kd m -> uniform kd (sub d i m).
Proof. intros Hm k v Hk. rewrite sub_lookup in Hk. destruct (decide _); [by eapply Hm|done]. Qed.

Lemma uniform_delete kd k m : uniform kd m -> uniform kd (delete k m).
Proof. intros Hm k' v Hk. apply lookup_delete_Some in Hk as [_ Hk]. by eapply Hm. Qed.

Lemma size_delete_nonempty (m : contents) k : (2 <= size m)%nat -> delete k m <> ∅.
Proof.
  intros Hsz He. pose proof (map_size_delete k m) as Hd. rewrite He, map_size_empty in Hd.
  destruct (m !! k); cbn in Hd; lia.
Qed.

Lemma consolidate_descent sm k h d n m stk l hb db mb :
  descent (family sm) k h d n m stk (Some l) hb db mb -> key (item l) = k -> is_key k -> (h + d = 64)%nat -> under d k m ->
  exists r', consolidateLoop sm stk k None = inr r' /\
    repO (family sm) h d r' (afterFrom (defaultKind (mapType sm)) (Nat.max 1 d) k m) /\
    (d = 0%nat -> stk <> [] -> exists i, r' = Some (MInner i)).
Proof.
  set (kd := defaultKind (mapType sm)). remember (Some l) as r eqn:Hrl.
  induction 1 as [h d l' m Hr|h d n m Hr Hb|h d n m c stk r hb db mb Hr Hb Hc Hd IH]; intros Hkl Hk Hhd Hu; [|done|].
  { exists None. split; [done|]. split; [|done]. cbn [repO]. injection Hrl as ->. apply rep_leaf in Hr as [_ ->].
    apply map_empty. intros k'. rewrite afterFrom_lookup. unfold leafContents. by rewrite Hkl, delete_singleton_eq. }
  destruct IH as (c' & Hl & Hr' & _); [done..|lia|by apply under_sub|]. rewrite Nat.max_r in Hr' by lia.
  rewrite consolidateLoop_app, Hl. cbn [consolidateLoop]. rewrite (selectBranch_depth _ _ d) by (done || lia).
  pose proof (nibble_lt k d Hk) as Hn.
  destruct (preRep_setChild (family sm) h d n m (nibble k d) c' (afterFrom kd (S d) k m)) as (n' & Hset & Hp); try done.
  { by rewrite afterFrom_sub. }
  { intros j Hj. by rewrite afterFrom_sub_ne. }
  { apply afterFrom_keyed. by eapply rep_keyed. }
  rewrite Hset. unfold IsRoot. cbn [depth idOf]. destruct (Z.eqb_spec (Z.of_nat d) 0) as [Hd0|Hd0]; cbn [negb].
  - exists (Some (MInner n')). split_and!; [done| |by eauto]. cbn [repO]. replace d with 0%nat in * by lia.
    apply preRep_rep. split; [done|]. lia.
  - destruct (collapse sm h d n' _ Hp ltac:(lia) ltac:(lia)) as (r' & Hr1 & Hr2).
    + intros He. apply (f_equal size) in He. rewrite afterFrom_size, map_size_empty in He.
      apply preRep_rep in Hr as [_ Hsz]. apply map_size_empty_inv in He. eapply size_delete_nonempty, He. apply Hsz. lia.
    + fold kd in Hr2. rewrite retag_after in Hr2 by (done || lia). rewrite Nat.max_r by lia.
      exists (Some r'). specialize (Hr1 [] k). cbn [consolidateLoop] in Hr1. rewrite Hr1. split_and!; [done|done|lia].
Qed.

Lemma descent_inner fam k h d n m stk r hb db mb : descent fam k h d (MInner n) m stk r hb db mb -> stk <> [].
Proof. inversion 1; [done|]. by destruct stk0. Qed.

Lemma descent_inners fam k h d n m stk r hb db mb :
  descent fam k h d n m stk r hb db mb -> Forall (fun e => exists i, e.1 = MInner i) stk.
Proof.
  induction 1; [constructor|constructor; [by eexists|constructor]|].
  apply Forall_app. split; [done|]. constructor; [by eexists|constructor].
Qed.

Lemma walkToKey_rep sm m k push :
  Rep sm m -> is_key k ->
  exists stk r hb db mb,
    walkToKey sm k push =
      inr (MLeaf <$> r, match r with Some l => if push then (MLeaf l, idOf db k) :: stk else stk | None => stk end) /\
    descent (family sm) k 64 0 (MInner (root sm)) m stk r hb db mb.
Proof.
  intros Hr Hk. unfold walkToKey.
  destruct (walk_descent (family sm) k 64 0 (MInner (root sm)) m [] walkFuel Hr) as (stk & r & hb & db & mb & id & Hw & Hd & Hid);
    [done|done|unfold walkFuel; lia|].
  rewrite idOf_root in Hw. rewrite Hw, app_nil_r. exists stk, r, hb, db, mb. split; [|done].
  destruct r as [l|]; [|done]. cbn [fmap option_fmap option_map]. by rewrite Hid.
Qed.

(** The item at a key, as the map has it. *)
Definition itemAt (m : contents) (k : bytes) : option Item := (fun v => mkItem k v.2) <$> m !! k.

Lemma findItem_rep sm m k : Rep sm m -> is_key k -> findItem sm k = inr (itemAt m k).
Proof.
  intros Hr Hk. unfold findItem, itemAt. destruct (walkToKey_rep sm m k false Hr Hk) as (stk & r & hb & db & mb & Hw & Hd).
  rewrite Hw. cbn [fst]. pose proof (descent_lookup _ _ _ _ _ _ _ _ _ _ _ Hd Hk) as Hl.
  pose proof (descent_bottom _ _ _ _ _ _ _ _ _ _ _ Hd) as Hbot. rewrite <- Hl. destruct r as [l|]; cbn.
  - destruct Hbot as [_ ->]. unfold leafContents. case_bool_decide as He.
    + rewrite <- He, lookup_singleton_eq. cbn. by destruct (item l).
    + by rewrite lookup_singleton_ne.
  - destruct Hbot as [-> _]. by rewrite lookup_empty.
Qed.

(** The map [sm'] differs from [sm] in its tree only. *)
Definition sameButRoot (sm sm' : SHAMap) : Prop := sm' = setRoot sm (root sm').

Lemma put_rep sm m k data kd nt :
  Rep sm m -> is_key k -> all_bytes data -> (12 <= length data)%nat ->
  state sm = stateModifying -> (forall it, createLeafNode nt it = newLeafNode kd it) ->
  exists sm', putItemWithNodeTypeUnsafe sm (mkItem k data) nt = inr sm' /\
    Rep sm' (<[k := (kd, data)]> m) /\ sameButRoot sm sm'.
Proof.
  intros Hr Hk Hb Hlen Hst Hnt. unfold putItemWithNodeTypeUnsafe. cbn [key].
  destruct (walkToKey_rep sm m k false Hr Hk) as (stk & r & hb & db & mb & Hw & Hd). rewrite Hw.
  pose proof (descent_bottom _ _ _ _ _ _ _ _ _ _ _ Hd) as Hbot.
  pose proof (descent_depth _ _ _ _ _ _ _ _ _ _ _ Hd) as [Hdb Hhb].
  pose proof (descent_under _ _ _ _ _ _ _ _ _ _ _ Hd (under_0 k m)) as Hun.
  destruct (newLeafNode_ok kd (mkItem k data) Hk Hb Hlen) as (nl & Hnl & Hwf & Hit & Hkd & _). rewrite !Hnt, Hnl.
  assert (Hup : forall c, rep (family sm) hb db c (<[k := (kd, data)]> mb) ->
    exists sm', (let? newRoot := dirtyUp sm stk k c in assignRoot sm newRoot k) = inr sm' /\
      Rep sm' (<[k := (kd, data)]> m) /\ sameButRoot sm sm').
  { intros c Hc. unfold dirtyUp. rewrite Hst.
    destruct (dirty_descent _ k (kd, data) _ _ _ _ _ _ _ _ _ c Hd Hk eq_refl Hc) as (n' & Hdl & Hrn & Hin).
    destruct Hin as [i ->]; [by eapply descent_inner|]. rewrite Hdl. by exists (setRoot sm i). }
  destruct r as [l|]; cbn [fmap option_fmap option_map].
  2:{ destruct Hbot as [-> _]. apply Hup, rep_leaf. split; [done|]. unfold leafContents. rewrite Hit, Hkd. by rewrite insert_empty. }
  destruct Hbot as [Hwl ->]. case_bool_decide as He.
  - apply Hup, rep_leaf. split; [done|]. unfold leafContents. rewrite <- He, insert_singleton_eq. by rewrite Hit, Hkd.
  - unfold under, leafContents in Hun. rewrite map_Forall_singleton in Hun.
    destruct (splitLeaves_ok (family sm) k hb db nl l) as (top & Htop & Hrt); try done.
    { by rewrite Hit. }
    { by apply samePrefix_sym. }
    replace (length stk) with db by lia. rewrite Htop. apply Hup. by rewrite Hkd, Hit in Hrt.
Qed.

Lemma put_small sm m k data nt :
  Rep sm m -> is_key k -> (length data < 12)%nat -> nt <> NodeTypeInner ->
  putItemWithNodeTypeUnsafe sm (mkItem k data) nt = inl errItemTooSmall.
Proof.
  intros Hr Hk Hlen Hnt. unfold putItemWithNodeTypeUnsafe. cbn [key].
  assert (Hc : createLeafNode nt (mkItem k data) = inl errItemTooSmall).
  { destruct nt; [done|..]; cbn [createLeafNode]; unfold newLeafNode; cbn [ShaMapNode.data];
      by rewrite (proj2 (Z.ltb_lt _ _)) by lia. }
  destruct (walkToKey_rep sm m k false Hr Hk) as (stk & r & hb & db & mb & Hw & _). rewrite Hw, Hc.
  destruct r as [l|]; cbn; [|done]. by case_bool_decide.
Qed.

Lemma delete_rep_any sm m k :
  Rep sm m -> is_key k -> state sm = stateModifying -> is_Some (m !! k) ->
  exists sm', Delete sm k = inr sm' /\ Rep sm' (afterDelete (defaultKind (mapType sm)) k m) /\ sameButRoot sm sm'.
Proof.
  intros Hr Hk Hst [v Hv]. unfold Delete. rewrite bool_decide_eq_true_2 by done. cbn [negb]. unfold findAndRemoveLeaf.
  destruct (walkToKey_rep sm m k true Hr Hk) as (stk & r & hb & db & mb & Hw & Hd). rewrite Hw. cbn [snd].
  pose proof (descent_lookup _ _ _ _ _ _ _ _ _ _ _ Hd Hk) as Hl. rewrite Hv in Hl.
  pose proof (descent_bottom _ _ _ _ _ _ _ _ _ _ _ Hd) as Hbot. destruct r as [l|].
  2:{ destruct Hbot as [-> _]. done. }
  destruct Hbot as [Hwl ->]. unfold leafContents in Hl. apply lookup_singleton_Some in Hl as [Hkl Hvl].
  rewrite bool_decide_eq_true_2 by done. cbn [negb]. unfold consolidateAfterDelete.
  destruct (consolidate_descent sm k _ _ _ _ _ _ _ _ _ Hd Hkl Hk eq_refl (under_0 k m)) as (r' & Hcl & Hr' & Hin).
  destruct Hin as [i ->]; [done|by eapply descent_inner|]. rewrite Hcl. by exists (setRoot sm i).
Qed.

Lemma delete_rep sm m k :
  Rep sm m -> is_key k -> state sm = stateModifying -> uniform (defaultKind (mapType sm)) m -> is_Some (m !! k) ->
  exists sm', Delete sm k = inr sm' /\ Rep sm' (delete k m) /\ sameButRoot sm sm'.
Proof.
  intros Hr Hk Hst Hu Hv. destruct (delete_rep_any sm m k Hr Hk Hst Hv) as (sm' & Hd & Hr' & Hs).
  unfold afterDelete in Hr'. rewrite afterFrom_uniform in Hr' by done. by exists sm'.
Qed.

Lemma delete_absent sm m k :
  Rep sm m -> is_key k -> state sm = stateModifying -> m !! k = None -> Delete sm k = inl ErrItemNotFound.
Proof.
  intros Hr Hk Hst Hv. unfold Delete. rewrite bool_decide_eq_true_2 by done. cbn [negb]. unfold findAndRemoveLeaf.
  destruct (walkToKey_rep sm m k true Hr Hk) as (stk & r & hb & db & mb & Hw & Hd). rewrite Hw. cbn [snd].
  pose proof (descent_lookup _ _ _ _ _ _ _ _ _ _ _ Hd Hk) as Hl. rewrite Hv in Hl.
  pose proof (descent_bottom _ _ _ _ _ _ _ _ _ _ _ Hd) as Hbot. destruct r as [l|].
  - destruct Hbot as [_ ->]. unfold leafContents in Hl. case_bool_decide as He; [|done].
    rewrite He, lookup_singleton_eq in Hl. done.
  - apply descent_inners in Hd. destruct stk as [|[[n|l] nid] stk']; [done|done|].
    apply list.Forall_cons in Hd as [[i Hi] _]. done.
Qed.

(** ** Walking ends *)

(** No error that a read of a child can give is the model's own. *)
Lemma readSlot_error fam s e : readSlot fam s = inl e -> e <> outOfFuel.
Proof.
  unfold readSlot. destruct s as [[b hh] [c|]]; [done|]. destruct fam as [f|]; [|done]. destruct (_ || _); [done|].
  destruct (f hh) as [| |r]; [by intros [= <-]|by intros [= <-]|]. unfold decodeAndVerifyPrefixNode, materializeAndVerifyPrefixNode.
  destruct (decodePrefixBody r) as [|body]; [by intros [= <-]|]. destruct (materializePrefixNode body); [by intros [= <-]|].
  destruct (negb _); [by intros [= <-]|done].
Qed.

Lemma childNodeID_inv n b r :
  childNodeID n b = r -> 0 <= depth n < 256 ->
  match r with inl e => e <> outOfFuel | inr n' => depth n' = depth n + 1 /\ depth n < 64 end.
Proof.
  intros <- Hd. unfold childNodeID, maxDepth. destruct (15 <? b); [done|]. destruct (Z.leb_spec 64 (depth n)); [done|].
  destruct (32 <=? depth n / 2); [done|]. cbn [depth]. rewrite wrap_small; [done|]. unfold is_uint. change (2 ^ 8) with 256. lia.
Qed.

Lemma walkLoop_fuel fuel fam k n nid stk :
  0 <= depth nid < 256 -> 65 - depth nid < Z.of_nat fuel -> 1 < Z.of_nat fuel -> walkLoop fuel fam k n nid stk <> inl outOfFuel.
Proof.
  revert n nid stk. induction fuel as [|fuel IH]; intros n nid stk Hd Hf H1; [lia|]. cbn [walkLoop]. destruct n as [n|l]; [|done].
  destruct (IsEmptyBranch _ _); [done|]. unfold readChild. destruct (LoadChild n (selectBranch nid k)) as [[c hh] b].
  destruct (readSlot fam (b, hh, c)) as [e|[child|]] eqn:Hr; [intros [= ->]; by apply readSlot_error in Hr| |done].
  destruct (childNodeID nid _) as [e|nid'] eqn:Hc; apply childNodeID_inv in Hc; [by intros [= ->]|done| |done].
  apply IH; lia.
Qed.

Lemma walkToKey_fuel sm k push : walkToKey sm k push <> inl outOfFuel.
Proof.
  unfold walkToKey. pose proof (walkLoop_fuel walkFuel (family sm) k (MInner (root sm)) newRootNodeID []) as Hw. cbn [depth newRootNodeID] in Hw.
  destruct (walkLoop _ _ _ _ _ _) as [e|[[[n|] nid] stk]]; [|done|done]. intros [= ->]. apply Hw; done || lia.
Qed.

Lemma SetChild_fuel n i c : SetChild n i c <> inl outOfFuel.
Proof. unfold SetChild. by destruct (outOfRange i). Qed.

Lemma createLeafNode_fuel nt it : createLeafNode nt it <> inl outOfFuel.
Proof. destruct nt; [done|..]; cbn; unfold newLeafNode; by destruct (_ <? _). Qed.

Lemma dirtyUp_fuel sm stk k c : dirtyUp sm stk k c <> inl outOfFuel.
Proof.
  assert (Hl : dirtyLoop stk k c <> inl outOfFuel).
  { revert c. induction stk as [|[[n|l] nid] stk IH]; intros c; cbn [dirtyLoop]; [done| |done].
    pose proof (SetChild_fuel (shallowClone n) (selectBranch nid k) (Some c)) as Hs. destruct (SetChild _ _ _); [congruence|apply IH]. }
  unfold dirtyUp. by destruct (state sm).
Qed.

Lemma splitLeaves_fuel k nl l d : splitLeaves k nl l d <> inl outOfFuel.
Proof.
  unfold splitLeaves. set (s := findSplitDepth _ _ _).
  assert (Hc : forall n d, chainDown n k d <> inl outOfFuel).
  { induction n as [|n IH]; intros d0; cbn [chainDown]; [done|].
    pose proof (SetChild_fuel newInnerNode (getBranchAtDepth k d0) (Some (MInner newInnerNode))) as Hs.
    destruct (SetChild _ _ _); [congruence|]. specialize (IH (d0 + 1)). destruct (chainDown _ _ _); [congruence|done]. }
  assert (Hr : forall chain d n, refreshChain chain k d n <> inl outOfFuel).
  { induction chain as [|top chain IH]; intros d0 n; cbn [refreshChain]; [done|]. specialize (IH (d0 + 1) n).
    destruct (refreshChain _ _ _ _); [congruence|]. apply SetChild_fuel. }
  specialize (Hc (Z.to_nat (s - d)) d). destruct (chainDown _ _ _) as [|chain]; [congruence|].
  pose proof (SetChild_fuel newInnerNode (getBranchAtDepth k s) (Some (MLeaf nl))) as H1. destruct (SetChild newInnerNode _ _) as [|n1]; [congruence|].
  pose proof (SetChild_fuel n1 (getBranchAtDepth (key (item l)) s) (Some (MLeaf l))) as H2. destruct (SetChild n1 _ _) as [|n2]; [congruence|].
  apply Hr.
Qed.

Lemma assign_fuel sm stk k c : (let? r := dirtyUp sm stk k c in assignRoot sm r k) <> inl outOfFuel.
Proof.
  pose proof (dirtyUp_fuel sm stk k c) as Hd. destruct (dirtyUp sm stk k c) as [|[n|l]]; [congruence|done|]. cbn [assignRoot].
  pose proof (SetChild_fuel newInnerNode (selectBranch newRootNodeID k) (Some (MLeaf l))) as Hs. by destruct (SetChild _ _ _); [congruence|].
Qed.

(** Whatever the tree and the store hold (a corrupt store included), looking
    up a key and putting an item come to an end within the bound on the number of
    levels: the walk fails at the latest below depth 64. *)
Theorem Get_Put_terminate sm k dt nt :
  Get sm k <> inl outOfFuel /\ Has sm k <> inl outOfFuel /\ PutWithNodeType sm k dt nt <> inl outOfFuel.
Proof.
  assert (Hf : findItem sm k <> inl outOfFuel).
  { unfold findItem. pose proof (walkToKey_fuel sm k false) as Hw. destruct (walkToKey sm k false) as [|[n stk]]; [congruence|].
    cbn [fst]. destruct n as [[n|l]|]; [done| |done]. by case_bool_decide. }
  split_and!; [unfold Get|unfold Has|]; [by destruct (findItem sm k); [congruence|]..|].
  unfold PutWithNodeType, putItemWithNodeTypeUnsafe. destruct (negb _); [done|]. cbn [key].
  pose proof (walkToKey_fuel sm k false) as Hw. destruct (walkToKey sm k false) as [|[n stk]]; [congruence|].
  pose proof (createLeafNode_fuel nt (mkItem k dt)) as Hc.
  destruct n as [[n|l]|]; [done| |]; [case_bool_decide|]; (destruct (createLeafNode _ _) as [|nl]; [congruence|]); try apply assign_fuel.
  pose proof (splitLeaves_fuel k nl l (Z.of_nat (length stk))) as Hs. destruct (splitLeaves _ _ _ _); [congruence|]. apply assign_fuel.
Qed.

(** ** Every outcome of Put and Delete *)

Definition kindOf (nt : NodeType) : option leafKind :=
  match nt with
  | NodeTypeInner => None
  | NodeTypeTransactionNoMeta => Some leafTransaction
  | NodeTypeTransactionWithMeta => Some leafTransactionWithMeta
  | NodeTypeAccountState => Some leafAccountState
  end.

Lemma put_inner sm m k dt :
  Rep sm m -> is_key k -> putItemWithNodeTypeUnsafe sm (mkItem k dt) NodeTypeInner = inl errMalformed.
Proof.
  intros Hr Hk. unfold putItemWithNodeTypeUnsafe. cbn [key].
  destruct (walkToKey_rep sm m k false Hr Hk) as (stk & r & hb & db & mb & -> & _). destruct r; cbn; [by case_bool_decide|done].
Qed.

Definition present (m : contents) (k : bytes) : bool := match m !! k with Some _ => true | None => false end.

Lemma Get_rep sm m k : Rep sm m -> is_key k -> Get sm k = inr (itemAt m k, present m k).
Proof. intros Hr Hk. unfold Get. rewrite (findItem_rep sm m k Hr Hk). unfold itemAt, present. by destruct (m !! k). Qed.

(** C16: Putting an item in a map that represents the contents [m]: it is refused
    unless the map is being modified, for an inner node type and for fewer than
    twelve bytes of data; otherwise the new map represents [m] with the item
    inserted, differs from the old one in its tree only, and every later lookup
    gives exactly what is in it. [Put] is the case of the map's own leaf type. *)
Theorem Put_refines sm m k dt nt :
  Rep sm m -> is_key k -> all_bytes dt ->
  Put sm k dt = PutWithNodeType sm k dt (getLeafNodeType sm) /\
  if negb (bool_decide (state sm = stateModifying)) then PutWithNodeType sm k dt nt = inl ErrImmutable
  else match kindOf nt with
       | None => PutWithNodeType sm k dt nt = inl errMalformed
       | Some kd =>
           if (length dt <? 12)%nat then PutWithNodeType sm k dt nt = inl errItemTooSmall
           else exists sm', PutWithNodeType sm k dt nt = inr sm' /\ Rep sm' (<[k := (kd, dt)]> m) /\ sameButRoot sm sm' /\
                  forall k', is_key k' -> Get sm' k' = inr (itemAt (<[k := (kd, dt)]> m) k', present (<[k := (kd, dt)]> m) k')
       end.
Proof.
  intros Hr Hk Hb. split; [done|]. unfold PutWithNodeType. case_bool_decide as Hst; cbn [negb]; [|done].
  destruct (kindOf nt) as [kd|] eqn:Hkd.
  2:{ destruct nt; try done. by apply (put_inner sm m). }
  destruct (Nat.ltb_spec (length dt) 12) as [Hl|Hl]; [by apply (put_small sm m); [..|destruct nt]|].
  destruct (put_rep sm m k dt kd nt Hr Hk Hb Hl Hst) as (sm' & Hp & Hr' & Hs); [by destruct nt; simplify_eq/=|].
  exists sm'. split; [done|]. split; [exact Hr'|]. split; [done|]. intros k' Hk'. by apply Get_rep.
Qed.

(** C22: Deleting a key: it is refused unless the map is being modified, it fails
    with [ErrItemNotFound] exactly when the key is absent, and otherwise every
    later lookup gives what the contents without the key hold, and the new map,
    its path collapsed, represents exactly these contents but for one leaf: an
    item that is the only other one to share some leading nibbles with the key
    becomes a leaf of the map's default kind, whatever its kind was. *)
Theorem Delete_refines sm m k :
  Rep sm m -> is_key k ->
  if negb (bool_decide (state sm = stateModifying)) then Delete sm k = inl ErrImmutable
  else match m !! k with
       | None => Delete sm k = inl ErrItemNotFound
       | Some _ => exists sm', Delete sm k = inr sm' /\ Rep sm' (afterDelete (defaultKind (mapType sm)) k m) /\ sameButRoot sm sm' /\
           forall k', is_key k' -> Get sm' k' = inr (itemAt (delete k m) k', present (delete k m) k')
       end.
Proof.
  intros Hr Hk. case_bool_decide as Hst; cbn [negb].
  - destruct (m !! k) as [v|] eqn:Hm; [|by apply (delete_absent sm m)].
    destruct (delete_rep_any sm m k Hr Hk Hst) as (sm' & Hd & Hr' & Hs); [by eexists|]. exists sm'. split; [done|]. split; [exact Hr'|].
    split; [done|]. intros k' Hk'. rewrite (Get_rep _ _ _ Hr' Hk'). unfold itemAt, present, afterDelete. rewrite afterFrom_lookup.
    destruct (delete k m !! k') as [v'|]; [|done]. by destruct (lastWith 1 k m k').
  - unfold Delete. by rewrite bool_decide_eq_false_2.
Qed.

End Map.

(** ** Atomic batches *)

Definition insertItem (kd : leafKind) (m : contents) (it : Item) : contents := <[key it := (kd, data it)]> m.

Definition firstError (items : list (option Item)) : option Error :=
  foldr (fun it r => match it with
                     | None => Some errNilItem
                     | Some it => if Z.of_nat (length (data it)) <? 12 then Some errItemTooSmall else r
                     end) None items.

Definition insertAll (kd : leafKind) (m : contents) (items : list (option Item)) : contents :=
  foldl (fun m it => match it with Some it => insertItem kd m it | None => m end) m items.


Section Batches.
Context `{Hasher}.

Lemma putAll_rep sm m items :
  Rep sm m -> state sm = stateModifying ->
  Forall (fun it => match it with Some it => is_key (key it) /\ all_bytes (data it) | None => True end) items ->
  match firstError items with
  | Some e => putAll sm items = inl e
  | None => exists sm', putAll sm items = inr sm' /\ Rep sm' (insertAll (defaultKind (mapType sm)) m items) /\ sameButRoot sm sm'
  end.
Proof.
  intros Hr Hst Hg. revert sm m Hr Hst. induction Hg as [|[it|] items Hit Hg IH]; intros sm m Hr Hst; [|destruct Hit as [Hk Hb]|done].
  { exists sm. split; [done|]. split; [exact Hr|by destruct sm]. }
  cbn [firstError foldr putAll]. fold (firstError items). unfold putItemUnsafe. destruct it as [k dt]. cbn [key data] in *.
  destruct (Z.ltb_spec (Z.of_nat (length dt)) 12) as [Hl|Hl].
  { rewrite (put_small sm m k dt (getLeafNodeType sm) Hr Hk); [done|lia|]. unfold getLeafNodeType. by destruct (mapType sm). }
  destruct (put_rep sm m k dt (defaultKind (mapType sm)) (getLeafNodeType sm) Hr Hk Hb) as (sm1 & -> & Hr1 & Hs1);
    [lia|done|apply createLeafNode_default|].
  assert (Hf : state sm1 = state sm /\ mapType sm1 = mapType sm) by (rewrite Hs1; done). destruct Hf as [Hst1 Ht1].
  specialize (IH sm1 _ Hr1 ltac:(congruence)). destruct (firstError items) as [e|]; [done|].
  destruct IH as (sm' & Hp & Hr' & Hs'). exists sm'. split; [done|]. rewrite Ht1 in Hr'. split; [exact Hr'|].
  unfold sameButRoot in *. rewrite Hs', Hs1. done.
Qed.

Lemma putAtomically_rep sm m items :
  Rep sm m -> Forall (fun it => match it with Some it => is_key (key it) /\ all_bytes (data it) | None => True end) items ->
  if negb (bool_decide (state sm = stateModifying)) then PutItemsAtomically sm items = inl ErrImmutable
  else match firstError items with
       | Some e => PutItemsAtomically sm items = inl e
       | None => exists sm', PutItemsAtomically sm items = inr sm' /\ Rep sm' (insertAll (defaultKind (mapType sm)) m items) /\
                   cachedSize sm' = -1 /\ state sm' = stateModifying /\ mapType sm' = mapType sm /\ ledgerSeq sm' = ledgerSeq sm /\ family sm' = family sm
       end.
Proof.
  intros Hr Hg. unfold PutItemsAtomically. case_bool_decide as Hst; cbn [negb]; [|done]. unfold snapshotLocked. rewrite Hst.
  cbn [negb andb]. set (staged := mkMap _ _ _ _ _ _). pose proof (putAll_rep staged m items Hr eq_refl Hg) as Hp.
  destruct (firstError items) as [e|]; [by rewrite Hp|]. destruct Hp as (sm' & -> & Hr' & Hs). eexists. split; [reflexivity|].
  split; [|done]. unfold Rep. cbn [family root]. unfold Rep in Hr'. rewrite Hs in Hr'. exact Hr'.
Qed.

(** An atomic batch takes effect as a whole or not at all: it is refused
    unless the map is being modified, it fails with the error of its first bad
    item (a nil one, or fewer than twelve bytes), and otherwise the map represents
    its contents with all items inserted in order, the memoised size dropped. *)
Theorem PutItemsAtomically_exact sm m items :
  Rep sm m -> Forall (fun it => match it with Some it => is_key (key it) /\ all_bytes (data it) | None => True end) items ->
  if negb (bool_decide (state sm = stateModifying)) then PutItemsAtomically sm items = inl ErrImmutable
  else match firstError items with
       | Some e => PutItemsAtomically sm items = inl e
       | None => exists sm', PutItemsAtomically sm items = inr sm' /\ Rep sm' (insertAll (defaultKind (mapType sm)) m items) /\
                   cachedSize sm' = -1 /\ state sm' = stateModifying /\ mapType sm' = mapType sm /\ ledgerSeq sm' = ledgerSeq sm
       end.
Proof.
  intros Hr Hg. pose proof (putAtomically_rep sm m items Hr Hg) as Hp. destruct (negb _); [done|]. destruct (firstError items); [done|].
  destruct Hp as (sm' & Hp & Hr' & Hc & Hst & Ht & Hl & _). exists sm'. split; [done|]. split; [exact Hr'|]. done.
Qed.

End Batches.

(** ** Where Delete changes another item

    The kind of the leaf a key leads to. *)
Definition leafKindAt `{Hasher} (sm : SHAMap) (k : bytes) : option leafKind :=
  match walkToKey sm k false with inr (Some (MLeaf l), _) => Some (kind l) | _ => None end.

(** In a transaction map whose leaves carry metadata, deleting one of two items
    that share a first nibble turns the other into a leaf without metadata: the
    collapsed leaf is made with the map's default type, not with its own. *)
Theorem Delete_changes_kind `{Hasher} :
  let other := replicate 32 0x11 in
  let k := replicate 32 0x12 in
  (let? sm1 := PutWithNodeType (New TypeTransaction) other (replicate 12 1) NodeTypeTransactionWithMeta in
   let? sm2 := PutWithNodeType sm1 k (replicate 12 2) NodeTypeTransactionWithMeta in
   let? sm3 := Delete sm2 k in
   inr (leafKindAt sm1 other, leafKindAt sm2 other, leafKindAt sm3 other)) =
  inr (Some leafTransactionWithMeta, Some leafTransactionWithMeta, Some leafTransaction).
Proof. vm_compute. reflexivity. Qed.

(** ** Instances *)

#[local] Existing Instance exampleHasher.

Definition key1 : bytes := replicate 32 1.
Definition data1 : bytes := replicate 12 7.

Lemma key1_key : is_key key1.
Proof. split; [done|]. apply Forall_replicate. unfold is_uint. lia. Qed.

Lemma data1_bytes : all_bytes data1.
Proof. apply Forall_replicate. unfold is_uint. lia. Qed.

Lemma Put_refines_witness :
  exists sm', PutWithNodeType (New TypeState) key1 data1 NodeTypeAccountState = inr sm' /\ Rep sm' {[key1 := (leafAccountState, data1)]}.
Proof.
  destruct (Put_refines (New TypeState) ∅ key1 data1 NodeTypeAccountState (New_rep _) key1_key data1_bytes)
    as [_ (sm' & Hp & Hr & _)].
  exists sm'. split; [exact Hp|]. rewrite <- insert_empty. exact Hr.
Defined.

Lemma one_item :
  exists sm, Rep sm {[key1 := (leafAccountState, data1)]} /\ state sm = stateModifying /\ mapType sm = TypeState.
Proof.
  destruct (put_rep (New TypeState) ∅ key1 data1 leafAccountState NodeTypeAccountState (New_rep _) key1_key data1_bytes)
    as (sm & _ & Hr & Hs); [done..|].
  rewrite insert_empty in Hr. exists sm. split; [exact Hr|]. rewrite Hs. done.
Qed.

(** A transaction map with two items that carry metadata. *)
Definition metaMap : SHAMap :=
  match (let? sm := PutWithNodeType (New TypeTransaction) (replicate 32 0x11) data1 NodeTypeTransactionWithMeta in
         PutWithNodeType sm (replicate 32 0x12) data1 NodeTypeTransactionWithMeta) with
  | inr sm => sm
  | inl _ => New TypeTransaction
  end.

Definition metaContents : contents :=
  <[replicate 32 0x12 := (leafTransactionWithMeta, data1)]> (<[replicate 32 0x11 := (leafTransactionWithMeta, data1)]> ∅).

Lemma replicate_key z : 0 <= z < 256 -> is_key (replicate 32 z).
Proof. intros Hz. split; [apply length_replicate|]. apply Forall_replicate. exact Hz. Qed.

Lemma metaMap_rep : Rep metaMap metaContents.
Proof.
  destruct (put_rep (New TypeTransaction) ∅ (replicate 32 0x11) data1 leafTransactionWithMeta NodeTypeTransactionWithMeta (New_rep _))
    as (sm & Hp & Hr & Hs); [by apply replicate_key|apply data1_bytes|cbn; lia|done|done|].
  destruct (put_rep sm _ (replicate 32 0x12) data1 leafTransactionWithMeta NodeTypeTransactionWithMeta Hr)
    as (sm' & Hp' & Hr' & _); [by apply replicate_key|apply data1_bytes|cbn; lia|by rewrite Hs|done|].
  unfold metaMap, PutWithNodeType. cbn [New state]. rewrite bool_decide_eq_true_2 by done. cbn [negb]. rewrite Hp.
  rewrite bool_decide_eq_true_2 by (by rewrite Hs). cbn [negb]. rewrite Hp'. exact Hr'.
Qed.

Lemma Delete_refines_witness :
  exists sm', Delete metaMap (replicate 32 0x12) = inr sm' /\ Rep sm' {[replicate 32 0x11 := (leafTransaction, data1)]}.
Proof.
  pose proof (Delete_refines metaMap _ (replicate 32 0x12) metaMap_rep (replicate_key 0x12 ltac:(lia))) as Hd.
  rewrite bool_decide_eq_true_2 in Hd by (vm_compute; reflexivity). cbn [negb] in Hd.
  unfold metaContents at 1 in Hd. rewrite lookup_insert_eq in Hd. destruct Hd as (sm' & Hd & Hr & _).
  exists sm'. split; [exact Hd|]. replace {[replicate 32 0x11 := (leafTransaction, data1)]}
    with (afterDelete (defaultKind (mapType metaMap)) (replicate 32 0x12) metaContents); [exact Hr|].
  apply (bool_decide_unpack (_ = _)). vm_compute. exact I.
Defined.

Lemma PutItemsAtomically_exact_witness :
  PutItemsAtomically (New TypeState) [Some (mkItem key1 data1); None] = inl errNilItem /\
  exists sm, PutItemsAtomically (New TypeState) [Some (mkItem key1 data1)] = inr sm /\ Rep sm {[key1 := (leafAccountState, data1)]}.
Proof.
  split.
  - refine (PutItemsAtomically_exact (New TypeState) ∅ [Some (mkItem key1 data1); None] (New_rep _) _).
    constructor; [split; [exact key1_key|exact data1_bytes]|by repeat constructor].
  - destruct (PutItemsAtomically_exact (New TypeState) ∅ [Some (mkItem key1 data1)] (New_rep _)) as (sm & Hp & Hr & _).
    + constructor; [split; [exact key1_key|exact data1_bytes]|constructor].
    + exists sm. split; [exact Hp|]. rewrite <- insert_empty. exact Hr.
Defined.

End ShaMapRefine.
