(* ===== verification/ShaMapHash.v ===== *)
(** * State tree: the root hash names the contents

    The root hash is a function of the contents alone, whatever the history of
    the tree and whichever of its nodes are in memory; and, as long as the hash
    function shows no collision among the inputs hashed for two trees (and no
    preimage of zero, which marks an unused branch), maps with the same root hash
    have the same contents. *)

From Stdlib Require Import ZArith Lia.
From stdpp Require Import base list numbers option gmap fin_maps.
From S2P Require Import Prelude Sha512 ShaMapKey ShaMapNode ShaMap ShaMapRefine.

Import ShaMapKey ShaMapNode ShaMap ShaMapRefine.

Module ShaMapHash.

Section HashLemmas.
Context `{Hasher}.

Lemma Hash_key x : is_key (Hash x).
Proof. split; [apply Hash_length|apply Hash_bytes]. Qed.

Lemma innerHash_key b hs : is_key (innerHash b hs).
Proof. unfold innerHash. destruct b; [apply zeroHash_key|apply Hash_key]. Qed.

Lemma rep_hash_key fam h d n m : rep fam h d n m -> is_key (nodeHash n).
Proof.
  destruct n as [n|l].
  - destruct h; [done|]. intros ((_ & Hh & _) & _)%preRep_rep. cbn [nodeHash]. rewrite (hashed_innerHash n Hh). apply innerHash_key.
  - intros [(_ & _ & _ & Hl) _]%rep_leaf. cbn [nodeHash]. rewrite Hl. apply Hash_key.
Qed.

(** A branch: in use with the hash of the subtree it leads to, or empty. *)
Lemma branch_view fam h d n m i :
  preRep fam h d n m -> (i < 16)%nat ->
  (hasBit (isBranch n) (Z.of_nat i) = true /\
   exists c, readSlot fam (slot n i) = inr (Some c) /\ slotHash (slot n i) = nodeHash c /\ hashAt n (Z.of_nat i) = nodeHash c /\
     rep fam h (S d) c (sub d i m)) \/
  (hasBit (isBranch n) (Z.of_nat i) = false /\ slotHash (slot n i) = zeroHash /\ sub d i m = ∅).
Proof.
  intros Hp Hi. destruct (hasBit (isBranch n) (Z.of_nat i)) eqn:Hb.
  - left. split; [done|]. destruct (slot_in_use _ h d n m i Hp Hi Hb) as (c & Hc & Hh & Hr).
    exists c. split_and!; try done. revert Hc. unfold slot, slotHash, readSlot. rewrite Hb.
    destruct (childAt n (Z.of_nat i)) as [c'|]; [by intros [= ->]|done].
  - right. split_and!; [done| |by eapply slot_unused]. unfold slotHash, slot. by rewrite Hb.
Qed.

Lemma branchHashes_keys fam h d n m : preRep fam h d n m -> Forall is_key (branchHashes n).
Proof.
  intros Hp. rewrite branchHashes_slots. apply list.Forall_forall. intros x Hx.
  apply list_elem_of_fmap in Hx as (i & -> & Hi). apply elem_of_seq in Hi.
  destruct (branch_view fam h d n m i Hp) as [(_ & c & _ & -> & _ & Hr)|(_ & -> & _)]; [lia| |apply zeroHash_key].
  by eapply rep_hash_key.
Qed.

Lemma mask_empty fam h d n m : preRep fam h d n m -> isBranch n = 0 -> m = ∅.
Proof.
  intros Hp H0. apply (sub_all_empty d); [apply Hp|]. intros i Hi. apply (slot_unused _ h d n m i Hp Hi).
  by rewrite H0, hasBit_0.
Qed.

Lemma sub_ext d m m' : keyed m -> keyed m' -> (forall i, (i < 16)%nat -> sub d i m = sub d i m') -> m = m'.
Proof.
  intros Hk Hk' He. apply map_eq. intros k.
  destruct (decide (is_key k)) as [Hkey|Hn].
  - specialize (He (nibble k d) (nibble_lt k d Hkey)). apply (f_equal (fun m => m !! k)) in He.
    by rewrite !sub_lookup, !decide_True in He.
  - destruct (m !! k) eqn:Hm; [destruct Hn; by eapply Hk|]. destruct (m' !! k) eqn:Hm'; [destruct Hn; by eapply Hk'|done].
Qed.

(** ** The hash depends on the contents alone *)

Lemma leaf_contents_inj l l' : leafContents l = leafContents l' -> item l = item l' /\ kind l = kind l'.
Proof.
  unfold leafContents. intros He.
  assert (Hl : ({[key (item l) := (kind l, data (item l))]} : contents) !! key (item l') = Some (kind l', data (item l'))).
  { rewrite He. apply lookup_singleton_eq. }
  apply lookup_singleton_Some in Hl as [Hk [= Hkd Hdt]]. destruct (item l), (item l'); cbn in *. by subst.
Qed.

Lemma mask_nonempty fam h d n m : preRep fam h d n m -> isBranch n <> 0 -> m <> ∅.
Proof.
  intros Hp Hn ->. apply mask_nonzero in Hn as (i & Hi & Hb); [|apply Hp].
  destruct (slot_in_use _ _ _ _ _ _ Hp Hi Hb) as (c & _ & _ & Hr). apply rep_nonempty in Hr; [|done]. apply Hr.
  apply map_empty. intros k. rewrite sub_lookup, lookup_empty. by destruct (decide _).
Qed.

(** The tree hash of contents, [h] levels above the deepest one: zero for
    nothing, that of the leaf for one item below the root, and else that of the
    sixteen hashes one nibble further down. *)
Definition leafInput (m : contents) : bytes :=
  match map_to_list m with (k, (kd, dt)) :: _ => leafPreimage kd (mkItem k dt) | [] => [] end.

Definition splits (d : nat) (m : contents) : bool := bool_decide (m <> ∅) && ((d =? 0)%nat || (2 <=? size m)%nat).

Definition innerInput (below : nat -> bytes) : bytes := HashPrefixInnerNode ++ mjoin (below <$> branches).

Fixpoint treeHash (h d : nat) (m : contents) : bytes :=
  if bool_decide (m = ∅) then zeroHash
  else if splits d m then
    match h with
    | O => zeroHash
    | S h => Hash (innerInput (fun i => treeHash h (S d) (sub d i m)))
    end
  else Hash (leafInput m).

(** What is hashed on the way: the finitely many inputs the hash of a tree is
    made of. *)
Fixpoint inputs (h d : nat) (m : contents) : list bytes :=
  (if bool_decide (size m = 1%nat) then [leafInput m] else []) ++
  match h with
  | O => []
  | S h =>
      if splits d m
      then innerInput (fun i => treeHash h (S d) (sub d i m)) :: mjoin ((fun i => inputs h (S d) (sub d i m)) <$> branches)
      else []
  end.

Lemma leafInput_leaf l : leafInput (leafContents l) = leafPreimage (kind l) (item l).
Proof. unfold leafInput, leafContents. rewrite map_to_list_singleton. by destruct (item l). Qed.

Lemma splits_inner fam h d n m : rep fam (S h) d (MInner n) m -> m <> ∅ -> splits d m = true.
Proof.
  intros [_ Hsz]%preRep_rep Hne. unfold splits. rewrite bool_decide_eq_true_2 by done. cbn [andb].
  destruct (Nat.eqb_spec d 0); [done|]. apply Nat.leb_le. by apply Hsz.
Qed.

Lemma treeHash_empty h d : treeHash h d ∅ = zeroHash.
Proof. by destruct h. Qed.

Lemma branchHashes_below fam h d n m below :
  preRep fam h d n m -> (forall i c, rep fam h (S d) c (sub d i m) -> nodeHash c = below i) ->
  (forall i, sub d i m = ∅ -> below i = zeroHash) -> HashPrefixInnerNode ++ mjoin (branchHashes n) = innerInput below.
Proof.
  intros Hp Hc Hz. unfold innerInput. rewrite branchHashes_slots. do 2 f_equal. apply list_fmap_ext.
  intros j i [-> Hi]%lookup_seq. cbn [Nat.add].
  destruct (branch_view fam h d n m j Hp Hi) as [(_ & c & _ & -> & _ & Hr)|(_ & -> & He)]; [by apply Hc|symmetry; by apply Hz].
Qed.

Lemma rep_treeHash fam h d n m :
  rep fam h d n m -> (d <> 0%nat \/ exists i, n = MInner i) -> nodeHash n = treeHash h d m.
Proof.
  revert d n m. induction h as [|h IH]; intros d [n|l] m; [done|..].
  1,3: intros [(_ & _ & _ & Hl) ->]%rep_leaf [Hd|[i Hi]]; [|done]; cbn [nodeHash treeHash]; rewrite Hl;
    rewrite bool_decide_eq_false_2 by apply map_non_empty_singleton;
    unfold splits; replace (size (leafContents l)) with 1%nat by (symmetry; apply map_size_singleton);
    rewrite (proj2 (Nat.eqb_neq d 0) Hd), andb_false_r; by rewrite leafInput_leaf.
  intros Hr _. pose proof Hr as [Hp _]%preRep_rep. cbn [nodeHash treeHash]. rewrite (hashed_innerHash n) by apply Hp.
  unfold innerHash. destruct (Z.eqb_spec (isBranch n) 0) as [H0|H0].
  { by rewrite (mask_empty _ _ _ _ _ Hp H0). }
  pose proof (mask_nonempty _ _ _ _ _ Hp H0) as Hne. rewrite bool_decide_eq_false_2, (splits_inner _ _ _ _ _ Hr Hne) by done.
  f_equal. apply (branchHashes_below fam h d n m); [done| |by intros i ->; apply treeHash_empty].
  intros i c Hc. apply (IH (S d) c); [exact Hc|by left].
Qed.

Lemma branchHashes_treeHash fam h d n m :
  preRep fam h d n m -> HashPrefixInnerNode ++ mjoin (branchHashes n) = innerInput (fun i => treeHash h (S d) (sub d i m)).
Proof.
  intros Hp. apply (branchHashes_below fam h d n m); [done| |by intros i ->; apply treeHash_empty].
  intros i c Hc. apply (rep_treeHash _ _ _ _ _ Hc). by left.
Qed.

(** ** The contents depend on the hash alone *)

(** No two of the inputs have one hash, and none of them hashes to zero, which
    marks an unused branch. *)
Definition collisionFree (l : list bytes) : Prop :=
  Forall (fun x => Hash x <> zeroHash /\ Forall (fun y => Hash x = Hash y -> x = y) l) l.

#[global] Instance collisionFree_dec l : Decision (collisionFree l) := _.

Lemma collisionFree_sub l l' : l ⊆ l' -> collisionFree l' -> collisionFree l.
Proof.
  unfold collisionFree. rewrite !list.Forall_forall. intros Hsub Hc x Hx. destruct (Hc x (Hsub _ Hx)) as [Hz Hy]. split; [done|].
  rewrite list.Forall_forall in *. intros y Hy'. by apply Hy, Hsub.
Qed.

End HashLemmas.

(** The inputs in play in an argument: those among which a collision would
    have to be found. *)
Class InPlay := inPlay : bytes -> Prop.

Section Binding.
Context `{Hasher} {known : InPlay}.

(** The hash function is broken on these inputs. *)
Definition broken : Prop :=
  (exists x y, inPlay x /\ inPlay y /\ x <> y /\ Hash x = Hash y) \/ exists x, inPlay x /\ Hash x = zeroHash.

Lemma same_preimage x y : inPlay x -> inPlay y -> Hash x = Hash y -> x = y \/ broken.
Proof. intros Hx Hy He. destruct (decide (x = y)) as [->|Hne]; [by left|right; left; by exists x, y]. Qed.

Lemma zero_preimage x : inPlay x -> Hash x = zeroHash -> broken.
Proof. intros Hx He. right. by exists x. Qed.

(** All that is hashed for these contents is in play. *)
Definition covers (h d : nat) (m : contents) : Prop := forall x, x ∈ inputs h d m -> inPlay x.

(** What is hashed for a node is in play. *)
Definition nodeInPlay (n : mapNode) : Prop :=
  match n with
  | MInner n => isBranch n <> 0 -> inPlay (HashPrefixInnerNode ++ mjoin (branchHashes n))
  | MLeaf l => inPlay (leafPreimage (kind l) (item l))
  end.

Lemma covers_leaf h d l : covers h d (leafContents l) -> inPlay (leafPreimage (kind l) (item l)).
Proof.
  intros Hc. apply Hc. assert (Hin : [leafInput (leafContents l)] ⊆ inputs h d (leafContents l)).
  { destruct h; cbn [inputs]; rewrite bool_decide_eq_true_2 by apply map_size_singleton; intros x Hx; apply elem_of_app; by left. }
  apply Hin. rewrite leafInput_leaf. by apply list_elem_of_singleton.
Qed.

Lemma covers_node fam h d n m : rep fam h d n m -> covers h d m -> nodeInPlay n.
Proof.
  destruct n as [n|l].
  - destruct h as [|h]; [done|]. intros Hr Hc H0. pose proof Hr as [Hp _]%preRep_rep. apply Hc. cbn [inputs].
    rewrite (splits_inner _ _ _ _ _ Hr) by by eapply mask_nonempty. apply elem_of_app. right.
    rewrite (branchHashes_treeHash _ _ _ _ _ Hp). by left.
  - intros [_ ->]%rep_leaf Hc. by eapply covers_leaf.
Qed.

Lemma covers_empty h d : covers h d ∅.
Proof. intros x Hx. destruct h; by apply elem_of_nil in Hx. Qed.

Lemma covers_sub fam h d n m i : rep fam (S h) d (MInner n) m -> (i < 16)%nat -> covers (S h) d m -> covers h (S d) (sub d i m).
Proof.
  intros Hr Hi Hc. destruct (decide (m = ∅)) as [->|Hne].
  { replace (sub d i ∅) with (∅ : contents) by (symmetry; apply map_filter_empty). apply covers_empty. }
  intros x Hx. apply Hc. cbn [inputs]. rewrite (splits_inner _ _ _ _ _ Hr Hne). apply elem_of_app. right. right.
  apply list_elem_of_join. eexists. split; [exact Hx|]. apply list_elem_of_fmap. exists i. split; [done|]. apply elem_of_seq. lia.
Qed.

(** Transactions without metadata are stored under their hash; the key of the
    other leaves is part of what is hashed. *)
Definition txKeyed (m : contents) : Prop :=
  map_Forall (fun k v => v.1 = leafTransaction -> k = Hash (HashPrefixTransactionID ++ v.2)) m.

Lemma txKeyed_sub d i m : txKeyed m -> txKeyed (sub d i m).
Proof. intros Hm k v Hk. rewrite sub_lookup in Hk. destruct (decide _); [by eapply Hm|done]. Qed.

Lemma txKeyed_leaf l : txKeyed (leafContents l) -> kind l = leafTransaction -> key (item l) = Hash (HashPrefixTransactionID ++ data (item l)).
Proof. unfold txKeyed, leafContents. rewrite map_Forall_singleton. by cbn. Qed.

Lemma leafPreimage_inj l l' :
  wfLeaf l -> wfLeaf l' -> txKeyed (leafContents l) -> txKeyed (leafContents l') ->
  leafPreimage (kind l) (item l) = leafPreimage (kind l') (item l') -> leafContents l = leafContents l'.
Proof.
  intros (Hk & _) (Hk' & _) Ht Ht' He. pose proof (txKeyed_leaf l Ht) as Htk. pose proof (txKeyed_leaf l' Ht') as Htk'.
  assert (Hkd : kind l = kind l').
  { unfold leafPreimage in He. destruct (kind l), (kind l'); try done; cbn in He; discriminate He. }
  unfold leafContents, leafPreimage in *. rewrite <- Hkd in *. apply app_inv_head in He.
  destruct (kind l); cbn [leafKinds keyOnWire] in He.
  - apply app_inj_2 in He as [-> ->]; [done|]. destruct Hk, Hk'. congruence.
  - rewrite !app_nil_r in He. rewrite Htk, Htk', He by done. done.
  - apply app_inj_2 in He as [-> ->]; [done|]. destruct Hk, Hk'. congruence.
Qed.

Lemma leaf_prefix l p : leafPreimage (kind l) (item l) <> HashPrefixInnerNode ++ p.
Proof. unfold leafPreimage. destruct (kind l); cbn; discriminate. Qed.

Lemma mjoin_inj (l l' : list bytes) :
  Forall is_key l -> Forall is_key l' -> length l = length l' -> mjoin l = mjoin l' -> l = l'.
Proof.
  revert l'. induction l as [|x l IH]; intros [|x' l'] Hl Hl' Hlen He; try done.
  apply list.Forall_cons in Hl as [[Hx _] Hl]. apply list.Forall_cons in Hl' as [[Hx' _] Hl'].
  cbn in He. apply app_inj_1 in He as [-> He]; [|congruence]. f_equal. apply IH; try done. by injection Hlen.
Qed.

(** The hash of a node that holds something is not the zero hash. *)
Lemma child_hash fam h d n m : rep fam h d n m -> m <> ∅ -> covers h d m -> nodeHash n <> zeroHash \/ broken.
Proof.
  intros Hr Hne Hc. pose proof (covers_node _ _ _ _ _ Hr Hc) as Hin.
  destruct (decide (nodeHash n = zeroHash)) as [Hz|]; [right|by left]. destruct n as [n|l].
  - destruct h; [done|]. apply preRep_rep in Hr as [Hp _]. cbn [nodeHash nodeInPlay] in *.
    rewrite (hashed_innerHash n) in Hz by apply Hp. unfold innerHash in Hz.
    destruct (Z.eqb_spec (isBranch n) 0) as [H0|H0]; [by apply (mask_empty _ _ _ _ _ Hp) in H0|].
    eapply zero_preimage, Hz. by apply Hin.
  - apply rep_leaf in Hr as [(_ & _ & _ & Hl) _]. cbn [nodeHash nodeInPlay] in *. rewrite Hl in Hz. by eapply zero_preimage.
Qed.

Lemma all_or_broken (P : nat -> Prop) n :
  (forall i, (i < n)%nat -> P i \/ broken) -> (forall i, (i < n)%nat -> P i) \/ broken.
Proof.
  induction n as [|n IH]; intros HP; [left; lia|].
  destruct IH as [Ha|]; [intros i Hi; apply HP; lia| |by right].
  destruct (HP n ltac:(lia)) as [Hn|]; [|by right]. left. intros i Hi.
  destruct (decide (i = n)) as [->|]; [done|apply Ha; lia].
Qed.

Lemma innerHash_inj fam fam' h d n n' m m' :
  preRep fam h d n m -> preRep fam' h d n' m' -> nodeInPlay (MInner n) -> nodeInPlay (MInner n') -> hash n = hash n' ->
  (m = ∅ /\ m' = ∅) \/ (forall i, (i < 16)%nat -> slotHash (slot n i) = slotHash (slot n' i)) \/ broken.
Proof.
  intros Hp Hp' Hin Hin' He. rewrite (hashed_innerHash n), (hashed_innerHash n') in He by apply Hp || apply Hp'.
  unfold innerHash in He. cbn [nodeInPlay] in *.
  destruct (Z.eqb_spec (isBranch n) 0) as [H0|H0], (Z.eqb_spec (isBranch n') 0) as [H0'|H0'].
  - left. split; by eapply mask_empty.
  - right. right. symmetry in He. eapply zero_preimage, He. by apply Hin'.
  - right. right. eapply zero_preimage, He. by apply Hin.
  - right. apply same_preimage in He as [He|]; [|by right|by apply Hin|by apply Hin']. left. apply branchHashes_ext. apply mjoin_inj.
    + by eapply branchHashes_keys.
    + by eapply branchHashes_keys.
    + by rewrite !branchHashes_length.
    + by apply app_inv_head in He.
Qed.

Lemma inner_leaf_broken n l :
  hashed n -> lhash l = Hash (leafPreimage (kind l) (item l)) -> nodeInPlay (MInner n) -> nodeInPlay (MLeaf l) ->
  hash n = lhash l -> broken.
Proof.
  intros Hh Hl Hin Hin' He. cbn [nodeInPlay] in *. rewrite (hashed_innerHash n Hh), Hl in He. unfold innerHash in He.
  destruct (Z.eqb_spec (isBranch n) 0); [by eapply zero_preimage|]. apply same_preimage in He as [He|]; [|done|by auto..].
  by destruct (leaf_prefix l (mjoin (branchHashes n))).
Qed.

Lemma rep_binding fam fam' h d n n' m m' :
  rep fam h d n m -> rep fam' h d n' m' -> txKeyed m -> txKeyed m' -> covers h d m -> covers h d m' ->
  nodeHash n = nodeHash n' -> m = m' \/ broken.
Proof.
  revert d n n' m m'. induction h as [|h IH]; intros d n n' m m' Hr Hr' Ht Ht' Hv Hv' He.
  all: pose proof (covers_node _ _ _ _ _ Hr Hv) as Hin; pose proof (covers_node _ _ _ _ _ Hr' Hv') as Hin'.
  all: destruct n as [n|l], n' as [n'|l']; try done.
  1,5: apply rep_leaf in Hr as [Hl ->]; apply rep_leaf in Hr' as [Hl' ->]; cbn [nodeHash] in He;
    pose proof Hl as (_ & _ & _ & Hh); pose proof Hl' as (_ & _ & _ & Hh'); rewrite Hh, Hh' in He;
    apply same_preimage in He as [He|]; [left; by apply leafPreimage_inj|by right|done|done].
  - pose proof Hr as [Hp _]%preRep_rep. pose proof Hr' as [Hp' _]%preRep_rep.
    destruct (innerHash_inj _ _ _ _ _ _ _ _ Hp Hp' Hin Hin' He) as [[-> ->]|[Hs|]]; [by left| |by right].
    destruct (all_or_broken (fun i => sub d i m = sub d i m') 16) as [Ha|]; [| |by right].
    + intros i Hi. specialize (Hs i Hi).
      destruct (branch_view fam h d n m i Hp Hi) as [(_ & c & _ & Hc & _ & Hrc)|(_ & Hz & ->)];
        destruct (branch_view fam' h d n' m' i Hp' Hi) as [(_ & c' & _ & Hc' & _ & Hrc')|(_ & Hz' & ->)].
      * rewrite Hc, Hc' in Hs. apply (IH (S d) c c'); [done|done|by apply txKeyed_sub..|by eapply covers_sub|by eapply covers_sub|done].
      * rewrite Hc, Hz' in Hs. right. by destruct (child_hash _ _ _ _ _ Hrc) as [?|]; [by eapply rep_nonempty|by eapply covers_sub|..].
      * rewrite Hc', Hz in Hs. right. by destruct (child_hash _ _ _ _ _ Hrc') as [?|]; [by eapply rep_nonempty|by eapply covers_sub|..].
      * by left.
    + left. apply (sub_ext d); [apply Hp|apply Hp'|done].
  - apply preRep_rep in Hr as [Hp _]. apply rep_leaf in Hr' as [(_ & _ & _ & Hl') ->]. cbn [nodeHash] in He.
    right. by eapply inner_leaf_broken; [apply Hp|..].
  - apply preRep_rep in Hr' as [Hp _]. apply rep_leaf in Hr as [(_ & _ & _ & Hl') ->]. cbn [nodeHash] in He.
    right. by eapply inner_leaf_broken; [apply Hp|..].
Qed.

End Binding.

(** No collision among finitely many inputs: the way in from a claim. *)
Lemma collisionFree_not_broken `{Hasher} l : collisionFree l -> ~ @broken _ (fun x => x ∈ l).
Proof.
  unfold collisionFree. rewrite list.Forall_forall. intros Hc [(x & y & Hx & Hy & Hne & He)|(x & Hx & Hz)].
  - destruct (Hc x Hx) as [_ Hall]. rewrite list.Forall_forall in Hall. by apply Hne, Hall.
  - by destruct (Hc x Hx).
Qed.

Lemma covers_in `{Hasher} h d m l : inputs h d m ⊆ l -> @covers _ (fun x => x ∈ l) h d m.
Proof. intros Hl. exact Hl. Qed.

Section RootHash.
Context `{Hasher}.

(** The root hash is the tree hash of the contents. *)
Lemma root_treeHash sm m : Rep sm m -> hash (root sm) = treeHash 64 0 m.
Proof. intros Hr. apply (rep_treeHash _ _ _ _ _ Hr). right. by eexists. Qed.

(** C23: The root hash is a function of the contents: two maps that represent the
    same contents have the same root hash, whatever was put and deleted in which
    order to reach them, whether their nodes are in memory or in a store. *)
Theorem root_hash_canonical sm sm' m :
  Rep sm m -> Rep sm' m -> state sm <> stateInvalid -> state sm' <> stateInvalid -> Hash_ sm = Hash_ sm'.
Proof.
  intros Hr Hr' Hv Hv'. unfold Hash_. rewrite (root_treeHash _ _ Hr), (root_treeHash _ _ Hr'). by destruct (state sm), (state sm').
Qed.

(** C5: The root hash commits to the contents: maps with the same root hash have
    the same contents, as long as no two of the inputs hashed for the two trees
    have one hash and none of them hashes to zero (transactions without metadata
    are keyed by their hash). *)
Theorem root_hash_binding sm sm' m m' h :
  Rep sm m -> Rep sm' m' -> txKeyed m -> txKeyed m' -> collisionFree (inputs 64 0 m ++ inputs 64 0 m') ->
  Hash_ sm = inr h -> Hash_ sm' = inr h -> m = m'.
Proof.
  intros Hr Hr' Ht Ht' Hc Hh Hh'. set (known := (fun x => x ∈ inputs 64 0 m ++ inputs 64 0 m') : InPlay).
  destruct (rep_binding _ _ _ _ _ _ _ _ Hr Hr' Ht Ht') as [|Hb]; [..|done|].
  - apply covers_in, list_subseteq_app_l. reflexivity.
  - apply covers_in, list_subseteq_app_r. reflexivity.
  - unfold Hash_ in Hh, Hh'. cbn [nodeHash]. destruct (state sm), (state sm'); try done; congruence.
  - by apply collisionFree_not_broken in Hb.
Qed.

End RootHash.

(** ** Instances *)

#[local] Existing Instance exampleHasher.

Lemma root_hash_canonical_witness :
  exists sm, Rep sm ∅ /\ mapType sm = TypeState /\ Hash_ sm = Hash_ (New TypeState).
Proof.
  destruct one_item as (sm & Hr & Hst & Ht).
  destruct (delete_rep sm _ key1 Hr key1_key Hst) as (sm' & _ & Hr' & Hs).
  - rewrite Ht. by apply map_Forall_singleton.
  - rewrite lookup_singleton_eq. by eexists.
  - rewrite delete_singleton_eq in Hr'. assert (Hst' : state sm' = stateModifying) by (rewrite Hs; exact Hst).
    assert (Ht' : mapType sm' = TypeState) by (rewrite Hs; exact Ht).
    exists sm'. split; [exact Hr'|]. split; [exact Ht'|].
    apply (root_hash_canonical sm' (New TypeState) ∅ Hr' (New_rep _)); [by rewrite Hst'|done].
Defined.

(** A map with one item, and one that held another item before. *)
Definition oneItemMap : SHAMap := match Put (New TypeState) key1 data1 with inr sm => sm | inl _ => New TypeState end.

Definition key2 : bytes := replicate 32 2.

Definition twoItemMap : SHAMap := match Put oneItemMap key2 data1 with inr sm => sm | inl _ => New TypeState end.

Definition formerMap : SHAMap := match Delete twoItemMap key2 with inr sm => sm | inl _ => New TypeState end.

Lemma key2_key : is_key key2.
Proof. split; [done|]. apply Forall_replicate. unfold is_uint. lia. Qed.

Lemma put_example sm m k :
  Rep sm m -> is_key k -> state sm = stateModifying -> mapType sm = TypeState ->
  exists sm', Put sm k data1 = inr sm' /\ Rep sm' (<[k := (leafAccountState, data1)]> m) /\ sameButRoot sm sm'.
Proof.
  intros Hr Hk Hst Ht. unfold Put. rewrite bool_decide_eq_true_2 by done. cbn [negb]. unfold putItemUnsafe, getLeafNodeType. rewrite Ht.
  by apply (put_rep sm m k data1 leafAccountState NodeTypeAccountState Hr Hk data1_bytes).
Qed.

Lemma oneItemMap_rep : Rep oneItemMap {[key1 := (leafAccountState, data1)]}.
Proof.
  destruct (put_example (New TypeState) ∅ key1 (New_rep _) key1_key) as (sm & Hp & Hr & _); [done..|].
  rewrite insert_empty in Hr. unfold oneItemMap. by rewrite Hp.
Qed.

Definition twoItems : contents := <[key2 := (leafAccountState, data1)]> {[key1 := (leafAccountState, data1)]}.

Lemma twoItemMap_rep : Rep twoItemMap twoItems.
Proof.
  destruct (put_example oneItemMap _ key2 oneItemMap_rep key2_key) as (sm & Hp & Hr & _); [done..|].
  unfold twoItemMap. by rewrite Hp.
Qed.

Lemma formerMap_rep : Rep formerMap (delete key2 twoItems).
Proof.
  destruct (delete_rep twoItemMap _ key2 twoItemMap_rep key2_key) as (sm & Hd & Hr & _); [done| |unfold twoItems; rewrite lookup_insert_eq; by eexists|].
  - apply map_Forall_insert_2; [done|]. by apply map_Forall_singleton.
  - unfold formerMap. by rewrite Hd.
Qed.

Lemma root_hash_binding_witness : {[key1 := (leafAccountState, data1)]} = delete key2 twoItems.
Proof.
  apply (root_hash_binding oneItemMap formerMap _ _ (hash (root oneItemMap)) oneItemMap_rep formerMap_rep).
  - apply map_Forall_singleton. discriminate.
  - apply map_Forall_delete, map_Forall_insert_2; [discriminate|]. apply map_Forall_singleton. discriminate.
  - apply (bool_decide_unpack (collisionFree _)). vm_compute. exact I.
  - vm_compute. reflexivity.
  - vm_compute. reflexivity.
Defined.

End ShaMapHash.
