(* ===== verification/ShaMapProof.v ===== *)
(** * State tree: Merkle proofs (shamap/proof.go)

    A proof is the wire form of the nodes from a leaf to the root. *)

From Stdlib Require Import ZArith Lia.
From stdpp Require Import base list numbers option gmap fin_maps.
From S2P Require Import Prelude Sha512 ShaMapKey ShaMapNode ShaMap ShaMapRefine ShaMapHash ShaMapCodec.

Import ShaMapKey ShaMapNode ShaMap ShaMapRefine ShaMapHash ShaMapCodec.

Module ShaMapProof.

Record ProofPath := mkProof { Key : bytes; Path : list bytes; FoundKey : bool }.

Section Proofs.
Context `{Hasher}.

(** Serializes the stack from its top. *)
Fixpoint serializeAll (stack : nodeStack) : Result (list bytes) :=
  match stack with
  | [] => inr []
  | (node, _) :: stack =>
      let? serialized := SerializeForWire node in
      let? rest := serializeAll stack in
      inr (serialized :: rest)
  end.

Definition GetProofPath (sm : SHAMap) (k : bytes) : Result ProofPath :=
  let? r := walkToKey sm k true in
  let '(leaf, stack) := r in
  match leaf with
  | Some (MLeaf l) =>
      if negb (bool_decide (key (item l) = k)) then inr (mkProof k [] false)
      else
        let? path := serializeAll stack in
        inr (mkProof k path true)
  | _ => inr (mkProof k [] false)
  end.

(** The loop of [verifyProofPath], over the blobs from the root to the leaf. *)
Fixpoint verifyLoop (blobs : list bytes) (d : Z) (k currentHash : bytes) : option bytes :=
  match blobs with
  | [] => None
  | nodeData :: rest =>
      match deserializeNodeFromWire nodeData with
      | inl _ => None
      | inr node =>
          let node := UpdateHash node in
          if negb (bool_decide (nodeHash node = currentHash)) then None
          else
            match node with
            | MInner typed =>
                if maxDepth <=? d then None
                else
                  match createNodeID (u8 d) k with
                  | inl _ => None
                  | inr nodeID =>
                      let branch := selectBranch nodeID k in
                      match ChildHash typed branch with
                      | inl _ => None
                      | inr childHash => if isZeroHash childHash then None else verifyLoop rest (d + 1) k childHash
                      end
                  end
            | MLeaf typed =>
                match rest with
                | _ :: _ => None
                | [] => if negb (bool_decide (key (item typed) = k)) then None else Some (data (item typed))
                end
            end
      end
  end.

Definition verifyProofPath (rootHash k : bytes) (path : list bytes) : option bytes :=
  let len := Z.of_nat (length path) in
  if (len =? 0) || (maxDepth + 1 <? len) then None
  else verifyLoop (rev path) 0 k rootHash.

Definition VerifyProofPath (rootHash k : bytes) (path : list bytes) : bool :=
  match verifyProofPath rootHash k path with Some _ => true | None => false end.

(** ** What survives serialization *)

(** Contents the formats can carry. *)
Definition storable (m : contents) : Prop :=
  txKeyed m /\ map_Forall (fun k v => v.1 = leafAccountState -> k <> zeroHash) m.

Lemma storable_sub d i m : storable m -> storable (sub d i m).
Proof.
  intros [Ht Hz]. split; [by apply txKeyed_sub|]. intros k v Hk. rewrite sub_lookup in Hk.
  destruct (decide _); [by eapply Hz|done].
Qed.

Lemma storable_leaf l : wfLeaf l -> storable (leafContents l) -> sendable (MLeaf l).
Proof.
  intros Hwf [Ht Hz]. split; [done|]. unfold leafContents in Hz. rewrite map_Forall_singleton in Hz. cbn in Hz.
  destruct (kind l) eqn:Hk; [by apply Hz|by apply txKeyed_leaf|done].
Qed.

Lemma rep_sendable {known : InPlay} fam h d n m :
  rep fam h d n m -> storable m -> m <> ∅ -> covers h d m -> sendable n \/ broken.
Proof.
  destruct n as [n|l]; intros Hr Hs Hne Hv.
  2:{ apply rep_leaf in Hr as [Hwf ->]. left. by apply storable_leaf. }
  destruct h as [|h]; [done|]. pose proof Hr as [Hp _]%preRep_rep.
  destruct (all_or_broken (fun i => hasBit (isBranch n) (Z.of_nat i) = true -> slotHash (slot n i) <> zeroHash) 16) as [Ha|];
    [| |by right].
  - intros i Hi. destruct (branch_view fam h d n m i Hp Hi) as [(_ & c & _ & Hc & _ & Hrc)|(Hb & _)]; [|left; by rewrite Hb].
    rewrite Hc. destruct (child_hash _ _ _ _ _ Hrc) as [Hz|]; [by eapply rep_nonempty|by eapply covers_sub|by left|by right].
  - left. cbn [sendable]. split; [apply Hp|]. split; [apply Hp|]. split.
    + intros H0. by apply (mask_empty _ _ _ _ _ Hp) in H0.
    + intros i Hi Hb. split; [|by apply Ha].
      destruct (branch_view fam h d n m i Hp Hi) as [(_ & c & _ & -> & _ & Hrc)|(Hb' & _)]; [by eapply rep_hash_key|congruence].
Qed.

Lemma UpdateHash_stub n : sendable n -> UpdateHash (stub n) = stub n.
Proof.
  destruct n as [n|l].
  - intros (_ & Hh & _). rewrite <- (rebuilt n (isBranch n) (branchHashes n) Hh eq_refl eq_refl). done.
  - intros [(_ & _ & _ & Hl) _]. cbn [stub UpdateHash]. unfold updateLeafHash, cleanLeaf. cbn. by rewrite Hl.
Qed.

(** ** Proofs of present keys are accepted *)

Lemma serializeAll_app s1 s2 :
  serializeAll (s1 ++ s2) = let? b1 := serializeAll s1 in let? b2 := serializeAll s2 in inr (b1 ++ b2).
Proof.
  induction s1 as [|[n nid] s1 IH]; cbn [app serializeAll]; [by destruct (serializeAll s2)|].
  destruct (SerializeForWire n); [done|]. rewrite IH. destruct (serializeAll s1); [done|]. by destruct (serializeAll s2).
Qed.

Lemma createNodeID_idOf (d : nat) k : (d < 64)%nat -> createNodeID (u8 (Z.of_nat d)) k = inr (idOf d k).
Proof.
  intros Hd. rewrite wrap_small by (unfold is_uint; change (2 ^ 8) with 256; lia). unfold createNodeID, maxDepth.
  by rewrite (proj2 (Z.ltb_ge _ _)) by lia.
Qed.

Lemma verify_leaf l b d k :
  sendable (MLeaf l) -> deserializeNodeFromWire b = inr (stub (MLeaf l)) -> key (item l) = k ->
  verifyLoop [b] d k (lhash l) = Some (data (item l)).
Proof.
  intros Hs Hb Hk. cbn [verifyLoop]. rewrite Hb, UpdateHash_stub by done. rewrite stub_hash. cbn [nodeHash].
  rewrite bool_decide_eq_true_2 by done. cbn [negb stub cleanLeaf item]. by rewrite bool_decide_eq_true_2.
Qed.

Lemma verify_inner n b rest (d : nat) k c :
  sendable (MInner n) -> deserializeNodeFromWire b = inr (stub (MInner n)) -> is_key k -> (d < 64)%nat ->
  hasBit (isBranch n) (Z.of_nat (nibble k d)) = true -> slotHash (slot n (nibble k d)) = nodeHash c ->
  verifyLoop (b :: rest) (Z.of_nat d) k (hash n) = verifyLoop rest (Z.of_nat (S d)) k (nodeHash c).
Proof.
  intros Hs Hb Hk Hd Hbit Hc. cbn [verifyLoop]. rewrite Hb, UpdateHash_stub by done. rewrite stub_hash. cbn [nodeHash].
  rewrite bool_decide_eq_true_2 by done. cbn [negb stub]. unfold maxDepth. rewrite (proj2 (Z.leb_gt _ _)) by lia.
  rewrite createNodeID_idOf by done. pose proof (nibble_lt k d Hk) as Hn.
  rewrite (selectBranch_depth _ _ d) by done. unfold ChildHash. rewrite outOfRange_nat by done.
  unfold hashAt. cbn [hashes]. rewrite Nat2Z.id, branchHashes_total, Hc by done.
  destruct Hs as (_ & _ & _ & Hset). destruct (Hset _ Hn Hbit) as [_ Hz]. rewrite Hc in Hz.
  unfold isZeroHash. rewrite bool_decide_eq_false_2 by done. by replace (Z.of_nat d + 1) with (Z.of_nat (S d)) by lia.
Qed.

Lemma proof_complete {known : InPlay} fam k h d n m stk r hb db mb l nid :
  descent fam k h d n m stk r hb db mb -> r = Some l -> key (item l) = k -> is_key k -> (h + d = 64)%nat ->
  storable m -> m <> ∅ -> covers h d m ->
  (exists blobs, serializeAll ((MLeaf l, nid) :: stk) = inr blobs /\ length blobs = S (length stk) /\
     verifyLoop (rev blobs) (Z.of_nat d) k (nodeHash n) = Some (data (item l))) \/ broken.
Proof.
  induction 1 as [h d l' m Hr|h d n m Hr Hb|h d n m c stk r hb db mb Hr Hb Hc Hd IH]; intros Hrl Hkl Hk Hhd Hs Hne Hv; [|done|].
  { injection Hrl as ->. destruct (rep_sendable _ _ _ _ _ Hr Hs Hne Hv) as [Hsd|]; [|by right]. left.
    destruct (wire_node _ Hsd) as (b & Hb & Hdec). exists [b]. cbn [serializeAll]. rewrite Hb. split_and!; [done..|].
    by apply verify_leaf. }
  pose proof (nibble_lt k d Hk) as Hn. pose proof (proj1 (proj1 (preRep_rep _ _ _ _ _) Hr)) as Hp.
  destruct (branch_view fam h d n m _ Hp Hn) as [(_ & c' & Hc' & Hsh & _ & Hrc)|(Hb' & _)]; [|congruence].
  rewrite Hc in Hc'. injection Hc' as <-.
  destruct IH as [(blobs & Hser & Hlen & Hver)|]; [done|done|done|lia|by apply storable_sub|by eapply rep_nonempty|by eapply covers_sub| |by right].
  destruct (rep_sendable _ _ _ _ _ Hr Hs Hne Hv) as [Hsd|]; [|by right]. left.
  destruct (wire_node _ Hsd) as (b & Hbw & Hdec). exists (blobs ++ [b]). split_and!.
  - rewrite app_comm_cons, serializeAll_app, Hser. cbn [serializeAll]. by rewrite Hbw.
  - rewrite !length_app, Hlen. cbn [length]. lia.
  - rewrite rev_app_distr. cbn [rev app nodeHash]. rewrite (verify_inner n b _ d k c) by (done || lia). done.
Qed.

(** ** Accepted proofs are of present keys *)

Lemma UpdateHash_wireInner n : wireInner n -> updateHashUnsafe n = n.
Proof. intros (_ & Hh & _). unfold hashed in Hh. destruct n as [h0 d0 b0 hs0 cs0]. cbn in Hh. unfold updateHashUnsafe. cbn. by rewrite <- Hh. Qed.

(** A wire node whose hash is that of an inner node of the tree agrees with it
    on every branch. *)
Lemma wireInner_agrees {known : InPlay} fam h d n m w i :
  preRep fam h d n m -> wireInner w -> nodeInPlay (MInner n) -> nodeInPlay (MInner w) -> hash w = hash n -> (i < 16)%nat -> hashAt w (Z.of_nat i) <> zeroHash ->
  hashAt w (Z.of_nat i) = slotHash (slot n i) \/ broken.
Proof.
  intros Hp (Hsh & Hh & Hw) Hin Hin' He Hi Hz. cbn [nodeInPlay] in *. rewrite (hashed_innerHash w Hh), (hashed_innerHash n) in He by apply Hp.
  unfold innerHash in He. destruct (Z.eqb_spec (isBranch w) 0) as [H0|Hw0].
  { destruct Hz. destruct (Hw i Hi) as [-> _]. apply slotHash_unused. by rewrite H0, hasBit_0. }
  destruct (Z.eqb_spec (isBranch n) 0); [right; by eapply zero_preimage, He; apply Hin'|].
  apply same_preimage in He as [He|]; [|by right|by apply Hin'|by apply Hin]. left. apply app_inv_head in He. apply mjoin_inj in He.
  - apply branchHashes_ext with (i := i) in He; [|done]. destruct (Hw i Hi) as [-> _]. done.
  - rewrite branchHashes_slots. apply list.Forall_forall. intros x Hx. apply list_elem_of_fmap in Hx as (j & -> & Hj).
    apply elem_of_seq in Hj. destruct (Hw j) as [<- Hkj]; [lia|done].
  - by eapply branchHashes_keys.
  - by rewrite !branchHashes_length.
Qed.

(** What is hashed when a path is checked. *)
Definition nodeInput (n : mapNode) : list bytes :=
  match n with
  | MInner n => if isBranch n =? 0 then [] else [HashPrefixInnerNode ++ mjoin (branchHashes n)]
  | MLeaf l => [leafPreimage (kind l) (item l)]
  end.

Definition pathInputs (path : list bytes) : list bytes :=
  mjoin ((fun b => match deserializeNodeFromWire b with inr n => nodeInput n | inl _ => [] end) <$> path).

Lemma nodeInput_inPlay {known : InPlay} n : (forall x, x ∈ nodeInput n -> inPlay x) -> nodeInPlay n.
Proof.
  destruct n as [n|l]; cbn [nodeInput nodeInPlay]; intros Hin.
  - intros H0. rewrite (proj2 (Z.eqb_neq _ _) H0) in Hin. apply Hin. by left.
  - apply Hin. by left.
Qed.

Lemma pathInputs_inPlay {known : InPlay} path b n :
  (forall x, x ∈ pathInputs path -> inPlay x) -> b ∈ path -> deserializeNodeFromWire b = inr n -> nodeInPlay n.
Proof.
  intros Hin Hb Hn. apply nodeInput_inPlay. intros x Hx. apply Hin, list_elem_of_join. exists (nodeInput n). split; [done|].
  apply list_elem_of_fmap. exists b. by rewrite Hn.
Qed.

Lemma proof_sound {known : InPlay} fam h d n m k path blobs dt :
  rep fam h d n m -> (h + d = 64)%nat -> is_key k -> txKeyed m -> Forall all_bytes blobs -> covers h d m ->
  (forall x, x ∈ pathInputs path -> inPlay x) -> blobs ⊆ path ->
  verifyLoop blobs (Z.of_nat d) k (nodeHash n) = Some dt ->
  (exists kd, m !! k = Some (kd, dt)) \/ broken.
Proof.
  revert h d n m. induction blobs as [|b blobs IH]; intros h d n m Hr Hhd Hk Ht Hbl Hcov Hpath Hsub; [done|].
  apply list.Forall_cons in Hbl as [Hb Hbl]. cbn [verifyLoop].
  destruct (deserializeNodeFromWire b) as [|w] eqn:Hdec; [done|]. case_bool_decide as He; [|done]. cbn [negb].
  pose proof (covers_node _ _ _ _ _ Hr Hcov) as Hin. pose proof (pathInputs_inPlay _ _ _ Hpath (Hsub b ltac:(by left)) Hdec) as Hin'.
  destruct w as [w|l]; cbn [UpdateHash nodeHash] in He |- *.
  - apply wireNode_inner in Hdec; [|done]. rewrite UpdateHash_wireInner in He |- * by done.
    unfold maxDepth. destruct (Z.leb_spec 64 (Z.of_nat d)) as [|Hd]; [done|].
    rewrite createNodeID_idOf by lia. pose proof (nibble_lt k d Hk) as Hn.
    rewrite (selectBranch_depth _ _ d) by (done || lia). unfold ChildHash. rewrite outOfRange_nat by done.
    unfold isZeroHash. case_bool_decide as Hz; [done|]. intros Hv.
    destruct n as [n|l].
    + destruct h as [|h]; [done|]. pose proof Hr as [Hp _]%preRep_rep. cbn [nodeHash] in He.
      destruct (wireInner_agrees fam h d n m w (nibble k d) Hp Hdec Hin Hin' He Hn Hz) as [Hw|]; [|by right].
      destruct (branch_view fam h d n m _ Hp Hn) as [(_ & c & _ & Hc & _ & Hrc)|(_ & Hz' & _)]; [|congruence].
      rewrite Hw, Hc in Hv. replace (Z.of_nat d + 1) with (Z.of_nat (S d)) in Hv by lia.
      destruct (IH h (S d) c _ Hrc) as [[kd Hkd]|]; [lia|done|by apply txKeyed_sub|done|by eapply covers_sub|done| |done| |by right].
      { intros x Hx. apply Hsub. by right. }
      left. exists kd. rewrite sub_lookup, decide_True in Hkd by done. done.
    + right. apply rep_leaf in Hr as [(_ & _ & _ & Hl) _]. cbn [nodeHash] in He. destruct Hdec as (_ & Hh & _).
      by eapply inner_leaf_broken.
  - apply wireLeaf_sound in Hdec; [|done]. destruct blobs; [|done]. case_bool_decide as Hkey; [|done]. cbn [negb].
    intros [= <-]. cbn [updateLeafHash item lhash] in *. destruct Hdec as [Hwf Hx].
    destruct n as [n|l'].
    + right. destruct h as [|h]; [done|]. apply preRep_rep in Hr as [Hp _]. destruct Hwf as (_ & _ & _ & Hl).
      eapply (inner_leaf_broken n l); [apply Hp|done|done|done|]. cbn [nodeHash] in He. congruence.
    + apply rep_leaf in Hr as [Hwf' ->]. cbn [nodeHash] in He. pose proof Hwf' as (_ & _ & _ & Hl'). rewrite Hl' in He.
      apply same_preimage in He as [He|]; [|by right|done|done]. left. exists (kind l).
      rewrite <- (leafPreimage_inj l l'); try done; [|].
      * unfold leafContents. rewrite <- Hkey. apply lookup_singleton_eq.
      * unfold txKeyed, leafContents. apply map_Forall_singleton. cbn. intros Hkd. by rewrite Hkd in Hx.
Qed.

(** The proof served for a key: an absent key is reported as not found, and
    for a present one the path is accepted against the root hash and verifies to
    the very data of the item (no input hashed for the tree collides with
    another or hashes to zero). *)
Theorem proof_path_complete sm m k :
  Rep sm m -> is_key k -> storable m -> collisionFree (inputs 64 0 m) ->
  match m !! k with
  | None => GetProofPath sm k = inr (mkProof k [] false)
  | Some (_, dt) =>
      exists path, GetProofPath sm k = inr (mkProof k path true) /\
         verifyProofPath (hash (root sm)) k path = Some dt /\ VerifyProofPath (hash (root sm)) k path = true
  end.
Proof.
  intros Hr Hk Hs Hcf. set (known := (fun x => x ∈ inputs 64 0 m) : InPlay). unfold GetProofPath. destruct (walkToKey_rep sm m k true Hr Hk) as (stk & r & hb & db & mb & -> & Hd).
  pose proof (descent_lookup _ _ _ _ _ _ _ _ _ _ _ Hd Hk) as Hl. pose proof (descent_bottom _ _ _ _ _ _ _ _ _ _ _ Hd) as Hbot.
  destruct r as [l|]; cbn [fmap option_fmap option_map].
  2:{ destruct Hbot as [-> _]. rewrite lookup_empty in Hl. by rewrite <- Hl. }
  destruct Hbot as [Hwl ->]. unfold leafContents in Hl. case_bool_decide as Hkl; cbn [negb].
  2:{ rewrite lookup_singleton_ne in Hl by done. by rewrite <- Hl. }
  rewrite Hkl, lookup_singleton_eq in Hl. rewrite <- Hl.
  assert (Hne : m <> ∅) by (intros ->; by rewrite lookup_empty in Hl).
  destruct (proof_complete _ k _ _ _ _ _ _ _ _ _ l (idOf db k) Hd eq_refl Hkl Hk eq_refl Hs Hne) as [(blobs & Hser & Hlen & Hv)|Hb];
    [by intros x|..|by apply collisionFree_not_broken in Hb].
  exists blobs. rewrite Hser. split; [done|].
  assert (Hver : verifyProofPath (hash (root sm)) k blobs = Some (data (item l))).
  { unfold verifyProofPath. pose proof (descent_depth _ _ _ _ _ _ _ _ _ _ _ Hd) as [_ Hdep].
    pose proof (descent_depth _ _ _ _ _ _ _ _ _ _ _ Hd) as [Hdb _]. unfold maxDepth. rewrite Hlen.
    rewrite (proj2 (Z.eqb_neq _ 0)), (proj2 (Z.ltb_ge _ _)) by lia. exact Hv. }
  split; [exact Hver|]. unfold VerifyProofPath. by rewrite Hver.
Qed.

(** C24: An accepted proof is right: whatever bytes a peer sends, a path that
    verifies for a key against the root hash of a map gives the data the map
    holds at that key, as long as among what was hashed for the map's tree and
    what is hashed to check the path no two inputs have one hash and none hashes
    to zero. *)
Theorem proof_path_sound sm m k path dt :
  Rep sm m -> is_key k -> txKeyed m -> Forall all_bytes path -> collisionFree (inputs 64 0 m ++ pathInputs path) ->
  verifyProofPath (hash (root sm)) k path = Some dt -> exists kd, m !! k = Some (kd, dt).
Proof.
  intros Hr Hk Ht Hb Hcf. unfold verifyProofPath. destruct (_ || _); [done|]. intros Hv.
  set (known := (fun x => x ∈ inputs 64 0 m ++ pathInputs path) : InPlay).
  destruct (proof_sound _ 64 0 _ m k path (rev path) dt Hr eq_refl Hk Ht) as [|Hbr]; [by apply Forall_rev|..|done|].
  - intros x Hx. apply elem_of_app. by left.
  - intros x Hx. apply elem_of_app. by right.
  - intros x Hx. apply list_elem_of_In, in_rev. by apply list_elem_of_In.
  - exact Hv.
  - by apply collisionFree_not_broken in Hbr.
Qed.

End Proofs.

(** ** Instances *)

#[local] Existing Instance exampleHasher.

Lemma one_storable : storable {[key1 := (leafAccountState, data1)]}.
Proof. split; apply map_Forall_singleton; done. Qed.

(** The proof of the item of a map with two is three blobs. *)
Definition oneItemProof : list bytes := match GetProofPath twoItemMap key1 with inr p => Path p | inl _ => [] end.

Lemma two_storable : storable twoItems.
Proof. split; (apply map_Forall_insert_2; [done|]); apply map_Forall_singleton; done. Qed.

Lemma proof_path_complete_witness :
  exists path, GetProofPath twoItemMap key1 = inr (mkProof key1 path true) /\
     verifyProofPath (hash (root twoItemMap)) key1 path = Some data1 /\
     VerifyProofPath (hash (root twoItemMap)) key1 path = true.
Proof.
  refine (proof_path_complete twoItemMap twoItems key1 twoItemMap_rep key1_key two_storable _).
  apply (bool_decide_unpack (collisionFree _)). vm_compute. exact I.
Defined.

Lemma proof_path_sound_witness : exists kd, twoItems !! key1 = Some (kd, data1).
Proof.
  apply (proof_path_sound twoItemMap _ key1 oneItemProof data1 twoItemMap_rep key1_key (proj1 two_storable)).
  - apply (bool_decide_unpack (Forall (Forall (fun z => 0 <= z < 2 ^ 8)) oneItemProof)). vm_compute. exact I.
  - apply (bool_decide_unpack (collisionFree _)). vm_compute. exact I.
  - vm_compute. reflexivity.
Defined.

End ShaMapProof.
