(* ===== verification/ShaMapQuery.v ===== *)
(** * State tree: traversals in key order (shamap/traverse.go, iteration.go, iterator.go)

    Recursion over nodes read from the store is bounded by fuel; the tree has 64
    levels, so [walkFuel] is enough on every represented tree, which is what the
    theorems show: they give the result, not only its correctness. *)

From Stdlib Require Import ZArith Lia Sorting.Sorted.
From stdpp Require Import base list numbers option gmap fin_maps.
From S2P Require Import Prelude Sha512 ShaMapKey ShaMapNode ShaMap ShaMapRefine ShaMapHash.

Import ShaMapKey ShaMapNode ShaMap ShaMapRefine ShaMapHash.

Module ShaMapQuery.

(** A loop over branches that a step may stop, keeping the callback's state. *)
Fixpoint branchLoop {A} (step : A -> nat -> A * Result bool) (l : list nat) (acc : A) : A * Result bool :=
  match l with
  | [] => (acc, inr true)
  | i :: l =>
      let '(acc, r) := step acc i in
      match r with
      | inr true => branchLoop step l acc
      | _ => (acc, r)
      end
  end.

(** A loop over branches that returns the first result. *)
Fixpoint firstLoop {X} (step : nat -> Result (option X)) (l : list nat) : Result (option X) :=
  match l with
  | [] => inr None
  | i :: l =>
      let? r := step i in
      match r with Some x => inr (Some x) | None => firstLoop step l end
  end.

Section Queries.
Context `{Hasher}.

(** One branch of the walk: [rec] walks the child. *)
Definition leafStep {A} (rec : mapNode -> A -> A * Result bool) (fam : option Family) (inner : innerNode) (acc : A) (i : nat) :
    A * Result bool :=
  match readChild fam inner (Z.of_nat i) with
  | inl e => (acc, inl e)
  | inr None => (acc, inr true)
  | inr (Some child) => rec child acc
  end.

Fixpoint walkLeavesRec {A} (fuel : nat) (fam : option Family) (fn : A -> Item -> A * bool) (node : mapNode) (acc : A) :
    A * Result bool :=
  match fuel with
  | O => (acc, inl outOfFuel)
  | S fuel =>
      match node with
      | MLeaf leaf => let '(acc, cont) := fn acc (item leaf) in (acc, inr cont)
      | MInner inner => branchLoop (leafStep (walkLeavesRec fuel fam fn) fam inner) branches acc
      end
  end.

Definition ForEach {A} (sm : SHAMap) (fn : A -> Item -> A * bool) (acc : A) : A * Result unit :=
  let '(acc, r) := walkLeavesRec walkFuel (family sm) fn (MInner (root sm)) acc in
  (acc, match r with inl e => inl e | inr _ => inr tt end).

(** [Size] returns the count and the map with its memoised size. A failed walk
    leaves a partial count, which is returned and not kept. *)
Definition Size (sm : SHAMap) : Z * SHAMap :=
  if 0 <=? cachedSize sm then (cachedSize sm, sm)
  else
    let '(count, r) := ForEach sm (fun n _ => (n + 1, true)) 0 in
    match r with
    | inr _ =>
        if bool_decide (state sm = stateImmutable)
        then (count, mkMap (root sm) (mapType sm) (state sm) (ledgerSeq sm) count (family sm))
        else (count, sm)
    | inl _ => (count, sm)
    end.

Fixpoint boundBelow (fuel : nat) (fam : option Family) (node : mapNode) (ascending : bool) : Result (option leafNode) :=
  match fuel with
  | O => inl outOfFuel
  | S fuel =>
      match node with
      | MLeaf leaf => inr (Some leaf)
      | MInner inner =>
          firstLoop (fun i =>
            let? child := readChild fam inner (Z.of_nat i) in
            match child with
            | Some child => boundBelow fuel fam child ascending
            | None => inr None
            end) (if ascending then branches else rev branches)
      end
  end.

(** [walkBoundStack], top first. *)
Fixpoint boundWalk (fuel : nat) (fam : option Family) (id : bytes) (node : mapNode) (nodeID : NodeID) (stack : nodeStack) :
    Result nodeStack :=
  match fuel with
  | O => inl outOfFuel
  | S fuel =>
      match node with
      | MLeaf _ => inr ((node, nodeID) :: stack)
      | MInner inner =>
          let branch := selectBranch nodeID id in
          let stack := (node, nodeID) :: stack in
          if IsEmptyBranch inner branch then inr stack
          else
            let? child := readChild fam inner branch in
            match child with
            | None => inr stack
            | Some child =>
                let? childID := childNodeID nodeID branch in
                boundWalk fuel fam id child childID stack
            end
      end
  end.

(** The branches [upperBoundUnsafe] and [lowerBoundUnsafe] search at a node whose
    branch toward the key is [b], in their order. *)
Definition above (b : nat) : list nat := seq (S b) (15 - b).
Definition below (b : nat) : list nat := rev (seq 0 b).

Fixpoint boundLoop (fam : option Family) (id : bytes) (ascending : bool) (stack : nodeStack) : Result (option Item) :=
  match stack with
  | [] => inr None
  | (MLeaf leaf, _) :: stack =>
      if bool_decide (compareKeys (key (item leaf)) id = if ascending then Gt else Lt)
      then inr (Some (item leaf)) else boundLoop fam id ascending stack
  | (MInner inner, nodeID) :: stack =>
      let b := Z.to_nat (selectBranch nodeID id) in
      let? r := firstLoop (fun i =>
                  let? child := readChild fam inner (Z.of_nat i) in
                  match child with
                  | Some child => boundBelow walkFuel fam child ascending
                  | None => inr None
                  end) (if ascending then above b else below b) in
      match r with Some leaf => inr (Some (item leaf)) | None => boundLoop fam id ascending stack end
  end.

Definition walkBoundStack (sm : SHAMap) (id : bytes) : Result nodeStack :=
  boundWalk walkFuel (family sm) id (MInner (root sm)) newRootNodeID [].

Definition upperBoundUnsafe (sm : SHAMap) (id : bytes) : Result (option Item) :=
  let? stack := walkBoundStack sm id in
  boundLoop (family sm) id true stack.

Definition lowerBoundUnsafe (sm : SHAMap) (id : bytes) : Result (option Item) :=
  let? stack := walkBoundStack sm id in
  boundLoop (family sm) id false stack.

(** ** Iterators *)

Record Iterator := mkIter { current : option Item; iterErr : option Error }.

Definition iterOf (r : Result (option Item)) : Iterator :=
  match r with inl e => mkIter None (Some e) | inr item => mkIter item None end.

Definition UpperBound (sm : SHAMap) (id : bytes) : Iterator := iterOf (upperBoundUnsafe sm id).
Definition LowerBound (sm : SHAMap) (id : bytes) : Iterator := iterOf (lowerBoundUnsafe sm id).

Definition Valid (it : Iterator) : bool :=
  match current it, iterErr it with Some _, None => true | _, _ => false end.

Definition Next (sm : SHAMap) (it : Iterator) : Iterator * bool :=
  match iterErr it, current it with
  | Some _, _ => (it, false)
  | None, None => (it, false)
  | None, Some cur =>
      match upperBoundUnsafe sm (key cur) with
      | inl e => (mkIter None (Some e), false)
      | inr item => (mkIter item None, match item with Some _ => true | None => false end)
      end
  end.

(** The caller's loop: [for it.Valid() { visit(it.Item()); it.Next() }]. *)
Fixpoint drain (fuel : nat) (sm : SHAMap) (it : Iterator) : list Item :=
  match fuel, current it with
  | S fuel, Some cur => if Valid it then cur :: drain fuel sm (fst (Next sm it)) else []
  | _, _ => []
  end.

(** ** Traversal in ascending order *)

(** What [ForEach] does with a callback on a list of items. *)
Fixpoint foldUntil {A} (fn : A -> Item -> A * bool) (acc : A) (items : list Item) : A * bool :=
  match items with
  | [] => (acc, true)
  | it :: items => let '(acc, cont) := fn acc it in if cont then foldUntil fn acc items else (acc, false)
  end.

Definition keyLt (a b : Item) : Prop := compareKeys (key a) (key b) = Lt.

(** The items of [m], in ascending key order. *)
Definition lists (m : contents) (items : list Item) : Prop :=
  StronglySorted keyLt items /\ forall it, it ∈ items <-> itemAt m (key it) = Some it.

(** The keys agree on the first [d] nibbles. *)
Definition coherent (d : nat) (m : contents) : Prop :=
  forall k v k' v', m !! k = Some v -> m !! k' = Some v' -> samePrefix d k k'.

Lemma coherent_0 m : coherent 0 m.
Proof. intros k v k' v' _ _ d Hd. lia. Qed.

Lemma coherent_sub d i m : coherent d m -> coherent (S d) (sub d i m).
Proof.
  intros Hc k v k' v' Hk Hk'. rewrite sub_lookup in Hk, Hk'.
  destruct (decide (nibble k d = i)) as [Hn|]; [|done]. destruct (decide (nibble k' d = i)) as [Hn'|]; [|done].
  apply samePrefix_S. split; [by eapply Hc|congruence].
Qed.

Lemma itemAt_sub d i m it : itemAt (sub d i m) (key it) = Some it <-> itemAt m (key it) = Some it /\ nibble (key it) d = i.
Proof.
  unfold itemAt. rewrite sub_lookup. destruct (decide (nibble (key it) d = i)); [tauto|]. split; [done|]. by intros [_ ?].
Qed.

Lemma itemAt_Some m it : itemAt m (key it) = Some it <-> exists kd, m !! key it = Some (kd, data it).
Proof.
  unfold itemAt. destruct (m !! key it) as [[kd dt]|] eqn:Hm; cbn.
  - split; [intros [= He]; exists kd; rewrite <- He; done|]. intros [kd' [= -> ->]]. by destruct it.
  - split; [done|]. by intros [? ?].
Qed.

Lemma nibble_order d m a b :
  coherent d m -> keyed m -> (d < 64)%nat -> itemAt m (key a) = Some a -> itemAt m (key b) = Some b ->
  (nibble (key a) d < nibble (key b) d)%nat -> keyLt a b.
Proof.
  intros Hc Hk Hd Ha Hb Hn. apply itemAt_Some in Ha as [ka Ha]. apply itemAt_Some in Hb as [kb Hb].
  apply (compareKeys_nibble _ _ d); [by eapply Hk|by eapply Hk|done|by eapply Hc|done].
Qed.

Lemma foldUntil_app {A} (fn : A -> Item -> A * bool) acc xs ys :
  foldUntil fn acc (xs ++ ys) = let '(acc, cont) := foldUntil fn acc xs in if cont then foldUntil fn acc ys else (acc, false).
Proof.
  revert acc. induction xs as [|x xs IH]; intros acc; cbn [app foldUntil]; [done|].
  destruct (fn acc x) as [acc' []]; [apply IH|done].
Qed.

Lemma StronglySorted_app {X} (R : X -> X -> Prop) xs ys :
  StronglySorted R xs -> StronglySorted R ys -> (forall x y, x ∈ xs -> y ∈ ys -> R x y) -> StronglySorted R (xs ++ ys).
Proof.
  induction 1 as [|x xs Hs IH Hf]; intros Hy Hr; [done|]. cbn. constructor.
  - apply IH; [done|]. intros a b Ha Hb. apply Hr; [by right|done].
  - apply Forall_app. split; [done|]. apply list.Forall_forall. intros y Hyy. apply Hr; [by left|done].
Qed.

(** A branch that is not in use reads as no child. *)
Lemma unused_read fam h d n m i :
  preRep fam h d n m -> (i < 16)%nat -> hasBit (isBranch n) (Z.of_nat i) = false -> readChild fam n (Z.of_nat i) = inr None.
Proof.
  intros (_ & _ & _ & Hsl) Hi Hb. rewrite readChild_slot. specialize (Hsl i Hi). unfold slotRep, slot in *. rewrite Hb in *.
  destruct Hsl as (_ & Hch & _). unfold readSlot. rewrite Hch. cbn. by destruct fam.
Qed.

(** [rec] walks the subtrees below depth [d] in ascending order. *)
Definition walks (d : nat) (m : contents) (rec : forall A, (A -> Item -> A * bool) -> A -> A * Result bool) : Prop :=
  exists items, lists m items /\
    forall A (fn : A -> Item -> A * bool) acc, rec A fn acc = let '(acc, cont) := foldUntil fn acc items in (acc, inr cont).

Lemma walks_leaf d l : walks d (leafContents l) (fun A fn acc => let '(acc, cont) := fn acc (item l) in (acc, inr cont)).
Proof.
  exists [item l]. split.
  - split; [repeat constructor|]. intros it. rewrite list_elem_of_singleton, itemAt_Some. unfold leafContents.
    setoid_rewrite lookup_singleton_Some. split; [intros ->; by eexists|].
    intros (kd & Hk & [= _ Hd]). destruct it, (item l); cbn in *. by subst.
  - intros A fn acc. cbn. by destruct (fn acc (item l)) as [acc' []].
Qed.

Lemma walks_branches d m (step : forall A, (A -> Item -> A * bool) -> A -> nat -> A * Result bool) l :
  coherent d m -> keyed m -> (d < 64)%nat -> StronglySorted lt l ->
  (forall i, i ∈ l -> walks (S d) (sub d i m) (fun A fn acc => step A fn acc i)) ->
  exists items, StronglySorted keyLt items /\
    (forall it, it ∈ items <-> itemAt m (key it) = Some it /\ nibble (key it) d ∈ l) /\
    forall A (fn : A -> Item -> A * bool) acc,
      branchLoop (step A fn) l acc = let '(acc, cont) := foldUntil fn acc items in (acc, inr cont).
Proof.
  intros Hc Hk Hd. induction l as [|i l IHl]; intros Hsl Hst.
  { exists []. split_and!; [constructor| |done]. intros it. rewrite !elem_of_nil. tauto. }
  apply StronglySorted_inv in Hsl as [Hsl Hil].
  destruct IHl as (rest & Hrs & Hre & Hrw); [done|intros j Hj; apply Hst; by right|].
  destruct (Hst i) as (items & [Hsi Hei] & Hwi); [by left|]. exists (items ++ rest). split_and!.
  - apply StronglySorted_app; [done..|]. intros x y Hx Hy. apply Hei, itemAt_sub in Hx as [Hx Hnx]. apply Hre in Hy as [Hy Hny].
    apply (nibble_order d m); [done..|]. rewrite Hnx. rewrite list.Forall_forall in Hil. by apply Hil.
  - intros it. rewrite elem_of_app, Hei, Hre, itemAt_sub, elem_of_cons. tauto.
  - intros A fn acc. cbn [branchLoop]. rewrite Hwi, foldUntil_app. destruct (foldUntil fn acc items) as [acc' []]; [apply Hrw|done].
Qed.

Lemma branches_sorted : StronglySorted lt branches.
Proof. unfold branches. cbn. repeat constructor. Qed.

Lemma walkLeaves_rep fuel fam h d n m :
  rep fam h d n m -> coherent d m -> (h + d = 64)%nat -> (h < fuel)%nat ->
  walks d m (fun A fn acc => walkLeavesRec fuel fam fn n acc).
Proof.
  revert h d n m. induction fuel as [|fuel IH]; intros h d n m Hr Hc Hhd Hf; [lia|]. destruct n as [n|l].
  2:{ apply rep_leaf in Hr as [_ ->]. apply walks_leaf. }
  destruct h as [|h]; [done|]. apply preRep_rep in Hr as [Hp _]. pose proof Hp as (_ & _ & Hk & _).
  destruct (walks_branches d m (fun A fn => leafStep (walkLeavesRec fuel fam fn) fam n) branches)
    as (items & Hs & He & Hw); [done|done|lia|apply branches_sorted| |].
  - intros i Hi. apply elem_of_seq in Hi. unfold leafStep.
    destruct (branch_view fam h d n m i Hp) as [(_ & c & Hc' & _ & _ & Hrc)|(Hb & _ & He)]; [lia| |].
    + rewrite readChild_slot, Hc'. apply (IH h (S d)); [done|by apply coherent_sub|lia|lia].
    + rewrite (unused_read fam h d n m i) by (done || lia). rewrite He. exists []. split; [|done]. split; [constructor|].
      intros it. rewrite elem_of_nil. unfold itemAt. by rewrite lookup_empty.
  - exists items. split; [split; [done|]|exact Hw]. intros it. rewrite He. split; [by intros [? _]|]. intros Hi. split; [done|].
    apply itemAt_Some in Hi as [kd Hi]. apply elem_of_seq. pose proof (nibble_lt _ d (Hk _ _ Hi)). lia.
Qed.

Lemma ForEach_rep sm m :
  Rep sm m -> exists items, lists m items /\
    forall A (fn : A -> Item -> A * bool) acc, ForEach sm fn acc = (fst (foldUntil fn acc items), inr tt).
Proof.
  intros Hr. destruct (walkLeaves_rep walkFuel (family sm) 64 0 (MInner (root sm)) m Hr (coherent_0 m)) as (items & Hl & Hw);
    [done|unfold walkFuel; lia|].
  exists items. split; [done|]. intros A fn acc. unfold ForEach. rewrite Hw. by destruct (foldUntil fn acc items).
Qed.

Lemma lists_length m items : lists m items -> length items = size m.
Proof.
  intros [Hs He]. set (f := fun kv : bytes * (leafKind * bytes) => mkItem kv.1 kv.2.2).
  assert (Hp : items ≡ₚ f <$> map_to_list m).
  { apply NoDup_Permutation.
    - clear He. induction Hs as [|x items Hs IH Hf]; constructor; [|done]. intros Hx.
      rewrite list.Forall_forall in Hf. apply Hf in Hx. unfold keyLt, compareKeys in Hx.
      rewrite (proj2 (bytes_compare_eq _ _)) in Hx; done.
    - apply (NoDup_fmap_1 key). rewrite <- list_fmap_compose. apply NoDup_fst_map_to_list.
    - intros it. rewrite He, list_elem_of_fmap, itemAt_Some. split.
      + intros [kd Hk]. exists (key it, (kd, data it)). split; [by destruct it|]. by apply elem_of_map_to_list.
      + intros ([k [kd dt]] & -> & Hk). apply elem_of_map_to_list in Hk. exists kd. done. }
  rewrite Hp, length_fmap. apply length_map_to_list.
Qed.

(** ** Bounds *)

(** [a] comes before [b] in the direction of the search. *)
Definition precedes (ascending : bool) (a b : bytes) : Prop := compareKeys a b = if ascending then Lt else Gt.
#[local] Instance before_dec asc a b : Decision (precedes asc a b).
Proof. unfold precedes. apply _. Defined.

Definition ahead (ascending : bool) : nat -> nat -> Prop := if ascending then lt else gt.

Lemma compareKeys_antisym a b : compareKeys b a = CompOpp (compareKeys a b).
Proof. apply bytes_compare_antisym. Qed.

Lemma nibble_before asc a b d :
  is_key a -> is_key b -> (d < 64)%nat -> samePrefix d a b -> ahead asc (nibble a d) (nibble b d) -> precedes asc a b.
Proof.
  intros Ha Hb Hd Hp Hn. unfold precedes, ahead in *. destruct asc.
  - by apply (compareKeys_nibble a b d).
  - rewrite compareKeys_antisym. rewrite (compareKeys_nibble b a d); [done..|by apply samePrefix_sym|lia].
Qed.

(** [leaf] is the first item of [m] on the branches [l]. *)
Definition firstOn (asc : bool) (d : nat) (l : list nat) (m : contents) (leaf : leafNode) : Prop :=
  itemAt m (key (item leaf)) = Some (item leaf) /\ nibble (key (item leaf)) d ∈ l /\
  forall k v, m !! k = Some v -> nibble k d ∈ l -> k = key (item leaf) \/ precedes asc (key (item leaf)) k.

Lemma firstLoop_rep fam asc h d n m (rec : mapNode -> Result (option leafNode)) l :
  preRep fam h d n m -> coherent d m -> (d < 64)%nat -> StronglySorted (ahead asc) l -> Forall (fun i => i < 16)%nat l ->
  (forall i c, i ∈ l -> rep fam h (S d) c (sub d i m) -> exists leaf, rec c = inr (Some leaf) /\
     itemAt (sub d i m) (key (item leaf)) = Some (item leaf) /\
     forall k v, sub d i m !! k = Some v -> k = key (item leaf) \/ precedes asc (key (item leaf)) k) ->
  exists r, firstLoop (fun i => let? child := readChild fam n (Z.of_nat i) in
                                match child with Some child => rec child | None => inr None end) l = inr r /\
    match r with
    | Some leaf => firstOn asc d l m leaf
    | None => forall k v, m !! k = Some v -> nibble k d ∉ l
    end.
Proof.
  intros Hp Hc Hd. pose proof Hp as (_ & _ & Hk & _). induction l as [|i l IHl]; intros Hs Hlt Hrec.
  { exists None. split; [done|]. intros k v _. apply not_elem_of_nil. }
  apply StronglySorted_inv in Hs as [Hs Hil]. apply list.Forall_cons in Hlt as [Hi Hlt].
  destruct (branch_view fam h d n m i Hp Hi) as [(_ & c & Hcr & _ & _ & Hrc)|(Hb & _ & He)]; cbn [firstLoop].
  - destruct (Hrec i c ltac:(by left) Hrc) as (leaf & Hl & Hit & Hmin). rewrite readChild_slot, Hcr, Hl.
    exists (Some leaf). split; [done|]. apply itemAt_sub in Hit as [Hit Hn]. split_and!; [done|rewrite Hn; by left|].
    intros k v Hkv Hin. apply elem_of_cons in Hin as [Hin|Hin].
    + apply (Hmin k v). by rewrite sub_lookup, decide_True.
    + right. apply itemAt_Some in Hit as [kd Hit]. apply (nibble_before asc _ _ d); [by eapply Hk|by eapply Hk|done|by eapply Hc|].
      rewrite Hn. rewrite list.Forall_forall in Hil. by apply Hil.
  - rewrite (unused_read fam h d n m i) by done.
    destruct IHl as (r & Hr & Hspec); [done..|intros j c' Hj; apply Hrec; by right|]. exists r. split; [done|].
    assert (Hni : forall k v, m !! k = Some v -> nibble k d <> i).
    { intros k v Hkv Hn. apply (f_equal (fun m => m !! k)) in He. by rewrite sub_lookup, decide_True, Hkv in He. }
    destruct r as [leaf|].
    + destruct Hspec as (Hit & Hin & Hmin). split_and!; [done|by right|]. intros k v Hkv Hin'.
      apply elem_of_cons in Hin' as [Hin'|Hin']; [by eapply Hni in Hkv|by eapply Hmin].
    + intros k v Hkv. rewrite elem_of_cons. intros [Hin|Hin]; [by eapply Hni in Hkv|by eapply Hspec].
Qed.

Lemma order_sorted asc : StronglySorted (ahead asc) (if asc then branches else rev branches).
Proof. unfold branches. destruct asc; cbn; repeat constructor; unfold ahead; lia. Qed.

Lemma order_elem (asc : bool) i : i ∈ (if asc then branches else rev branches) <-> (i < 16)%nat.
Proof.
  destruct asc; [|rewrite list_elem_of_In, <- in_rev, <- list_elem_of_In]; unfold branches; rewrite elem_of_seq; lia.
Qed.

Lemma boundBelow_rep asc fuel fam h d n m :
  rep fam h d n m -> coherent d m -> (h + d = 64)%nat -> (h < fuel)%nat -> d <> 0%nat ->
  exists leaf, boundBelow fuel fam n asc = inr (Some leaf) /\ itemAt m (key (item leaf)) = Some (item leaf) /\
    forall k v, m !! k = Some v -> k = key (item leaf) \/ precedes asc (key (item leaf)) k.
Proof.
  revert h d n m. induction fuel as [|fuel IH]; intros h d n m Hr Hc Hhd Hf Hd; [lia|]. destruct n as [n|l].
  2:{ apply rep_leaf in Hr as [_ ->]. exists l. split; [done|]. unfold leafContents. split.
      - apply itemAt_Some. exists (kind l). apply lookup_singleton_eq.
      - intros k v Hk. apply lookup_singleton_Some in Hk as [-> _]. by left. }
  destruct h as [|h]; [done|]. pose proof (rep_nonempty _ _ _ _ _ Hr Hd) as Hne. apply preRep_rep in Hr as [Hp _].
  destruct (firstLoop_rep fam asc h d n m (fun c => boundBelow fuel fam c asc) (if asc then branches else rev branches))
    as (r & Hr & Hspec); [done|done|lia|apply order_sorted| | |].
  - apply list.Forall_forall. intros i Hi. by apply order_elem in Hi.
  - intros i c _ Hrc. apply (IH h (S d)); [done|by apply coherent_sub|lia|lia|done].
  - cbn [boundBelow]. rewrite Hr. pose proof Hp as (_ & _ & Hk & _).
    assert (Hall : forall k v, m !! k = Some v -> nibble k d ∈ (if asc then branches else rev branches)).
    { intros k v Hkv. apply order_elem, nibble_lt. by eapply Hk. }
    destruct r as [leaf|].
    + exists leaf. split; [done|]. destruct Hspec as (Hit & _ & Hmin). split; [done|]. intros k v Hkv. by eapply Hmin, Hall.
    + apply nonempty_lookup in Hne as (k & v & Hkv). destruct (Hspec k v Hkv). by eapply Hall.
Qed.

Lemma seq_sorted a n : StronglySorted lt (seq a n).
Proof.
  revert a. induction n as [|n IH]; intros a; cbn; constructor; [apply IH|].
  apply list.Forall_forall. intros i Hi. apply elem_of_seq in Hi. lia.
Qed.

Lemma rev_sorted l : StronglySorted lt l -> StronglySorted gt (rev l).
Proof.
  induction 1 as [|x l Hs IH Hf]; cbn; [constructor|]. apply StronglySorted_app; [done|repeat constructor|].
  intros a b Ha Hb. apply list_elem_of_singleton in Hb as ->. rewrite list_elem_of_In, <- in_rev, <- list_elem_of_In in Ha.
  rewrite list.Forall_forall in Hf. apply Hf in Ha. lia.
Qed.

Definition searched (asc : bool) (b : nat) : list nat := if asc then above b else below b.

Lemma searched_sorted asc b : StronglySorted (ahead asc) (searched asc b).
Proof. destruct asc; [apply seq_sorted|apply rev_sorted, seq_sorted]. Qed.

Lemma searched_elem asc b i : (b < 16)%nat -> i ∈ searched asc b <-> ahead asc b i /\ (i < 16)%nat.
Proof.
  intros Hb. unfold searched, above, below, ahead. destruct asc.
  - rewrite elem_of_seq. lia.
  - rewrite list_elem_of_In, <- in_rev, <- list_elem_of_In, elem_of_seq. lia.
Qed.

(** [r] is the item of [m] next to [id] in the direction of the search. *)
Definition isBound (asc : bool) (id : bytes) (m : contents) (r : option Item) : Prop :=
  match r with
  | Some it =>
      itemAt m (key it) = Some it /\ precedes asc id (key it) /\
      forall k v, m !! k = Some v -> precedes asc id k -> k = key it \/ precedes asc (key it) k
  | None => forall k v, m !! k = Some v -> ~ precedes asc id k
  end.

Lemma before_asym asc a b : precedes asc a b -> ~ precedes asc b a.
Proof. unfold precedes. rewrite (compareKeys_antisym a b). by destruct asc, (compareKeys a b). Qed.

(** Where a key of the map stands relative to the branch toward [id]. *)
Lemma branch_cases asc d id m k v :
  is_key id -> keyed m -> (d < 64)%nat -> under d id m -> m !! k = Some v -> precedes asc id k ->
  nibble k d = nibble id d \/ ahead asc (nibble id d) (nibble k d).
Proof.
  intros Hid Hk Hd Hu Hkv Hb. destruct (decide (nibble k d = nibble id d)) as [|Hne]; [by left|]. right.
  assert (Hnot : ~ ahead asc (nibble k d) (nibble id d)).
  { intros Ha. apply (nibble_before asc k id d) in Ha; [|by eapply Hk|done|done|by eapply Hu]. by apply before_asym in Ha. }
  unfold ahead in *. destruct asc; lia.
Qed.

Lemma bound_inner asc fam h d n m id r1 :
  preRep fam h d n m -> is_key id -> (S h + d = 64)%nat -> under d id m ->
  isBound asc id (sub d (nibble id d) m) r1 ->
  exists r, isBound asc id m r /\
    match r1 with
    | Some it => r = Some it
    | None => forall rest, boundLoop fam id asc ((MInner n, idOf d id) :: rest) =
                match r with Some it => inr (Some it) | None => boundLoop fam id asc rest end
    end.
Proof.
  intros Hp Hid Hhd Hu Hr1. pose proof Hp as (_ & _ & Hk & _). pose proof (nibble_lt id d Hid) as Hn.
  assert (Hc : coherent d m).
  { intros k v k' v' Hkv Hkv'. apply (samePrefix_trans _ _ id); [by eapply Hu|]. apply samePrefix_sym. by eapply Hu. }
  destruct r1 as [it|].
  - exists (Some it). split; [|done]. destruct Hr1 as (Hit & Hb & Hmin). apply itemAt_sub in Hit as [Hit Hnit].
    split_and!; [done..|]. intros k v Hkv Hbk.
    destruct (branch_cases asc d id m k v) as [He|Ha]; [done..|lia|done|done|done| |].
    + apply (Hmin k v); [|done]. by rewrite sub_lookup, decide_True.
    + right. apply itemAt_Some in Hit as [kd Hit].
      apply (nibble_before asc _ _ d); [by eapply Hk|by eapply Hk|lia|by eapply Hc|by rewrite Hnit].
  - destruct (firstLoop_rep fam asc h d n m (fun c => boundBelow walkFuel fam c asc) (searched asc (nibble id d)))
      as (r & Hr & Hspec); [done|done|lia|apply searched_sorted| | |].
    { apply list.Forall_forall. intros i Hi. by apply searched_elem in Hi as [_ ?]. }
    { intros i c _ Hrc. apply (boundBelow_rep asc walkFuel fam h (S d)); [done|by apply coherent_sub|lia|unfold walkFuel; lia|done]. }
    assert (Hin : forall k v, m !! k = Some v -> precedes asc id k -> nibble k d ∈ searched asc (nibble id d)).
    { intros k v Hkv Hbk. apply searched_elem; [done|]. split; [|apply nibble_lt; by eapply Hk].
      destruct (branch_cases asc d id m k v) as [He|Ha]; [done..|lia|done|done|done| |done].
      destruct (Hr1 k v); [|done]. by rewrite sub_lookup, decide_True. }
    exists (item <$> r). split.
    + destruct r as [leaf|]; cbn.
      * destruct Hspec as (Hit & Hnl & Hmin). split_and!; [done| |].
        { apply searched_elem in Hnl as [Ha _]; [|done]. apply itemAt_Some in Hit as [kd Hit].
          apply (nibble_before asc id _ d); [done|by eapply Hk|lia|apply samePrefix_sym; by eapply Hu|done]. }
        { intros k v Hkv Hbk. by eapply Hmin, Hin. }
      * intros k v Hkv Hbk. by eapply Hspec, Hin.
    + intros rest. cbn [boundLoop]. rewrite (selectBranch_depth _ _ d) by (done || lia). rewrite Nat2Z.id.
      unfold searched in Hr. rewrite Hr. by destruct r.
Qed.

Lemma bound_descent asc fam id h d n m stk r hb db mb :
  descent fam id h d n m stk r hb db mb -> is_key id -> (h + d = 64)%nat -> under d id m ->
  exists res, isBound asc id m res /\
    forall nid rest, boundLoop fam id asc (match r with Some l => [(MLeaf l, nid)] | None => [] end ++ stk ++ rest) =
      match res with Some it => inr (Some it) | None => boundLoop fam id asc rest end.
Proof.
  induction 1 as [h d l m Hr|h d n m Hr Hb|h d n m c stk r hb db mb Hr Hb Hc Hd IH]; intros Hid Hhd Hu.
  - apply rep_leaf in Hr as [Hwf ->]. unfold leafContents.
    destruct (decide (precedes asc id (key (item l)))) as [Hbf|Hbf].
    + exists (Some (item l)). split.
      * split_and!; [apply itemAt_Some; exists (kind l); apply lookup_singleton_eq|done|].
        intros k v Hk _. apply lookup_singleton_Some in Hk as [-> _]. by left.
      * intros nid rest. cbn. rewrite bool_decide_eq_true_2; [done|]. rewrite compareKeys_antisym. unfold precedes in Hbf.
        rewrite Hbf. by destruct asc.
    + exists None. split.
      * intros k v Hk. by apply lookup_singleton_Some in Hk as [<- _].
      * intros nid rest. cbn. rewrite bool_decide_eq_false_2; [done|]. intros He. apply Hbf. unfold precedes.
        rewrite compareKeys_antisym, He. by destruct asc.
  - apply preRep_rep in Hr as [Hp _].
    destruct (bound_inner asc fam h d n m id None) as (res & Hres & Hloop); [done..| |].
    + rewrite (slot_unused fam h d n m) by (done || by apply nibble_lt). intros k v Hk. by rewrite lookup_empty in Hk.
    + exists res. split; [done|]. intros nid rest. apply Hloop.
  - apply preRep_rep in Hr as [Hp _].
    destruct IH as (r1 & Hr1 & Hl1); [done|lia|by apply under_sub|].
    destruct (bound_inner asc fam h d n m id r1) as (res & Hres & Hloop); [done..|].
    exists res. split; [done|]. intros nid rest. rewrite <- (app_assoc stk), Hl1.
    destruct r1 as [it|]; [by rewrite Hloop|]. apply Hloop.
Qed.

Lemma boundWalk_walkLoop fuel fam id n nid stack :
  boundWalk fuel fam id n nid stack =
  let? r := walkLoop fuel fam id n nid stack in
  let '(node, nid', stack') := r in
  inr (match node with Some n' => [(n', nid')] | None => [] end ++ stack').
Proof.
  revert n nid stack. induction fuel as [|fuel IH]; intros n nid stack; [done|]. cbn [boundWalk walkLoop].
  destruct n as [n|l]; [|done]. destruct (IsEmptyBranch n _); [done|]. destruct (readChild fam n _) as [|[c|]]; [done| |done].
  destruct (childNodeID nid _) as [|nid']; [done|]. apply IH.
Qed.

Lemma bound_rep asc sm m id :
  Rep sm m -> is_key id ->
  exists res, isBound asc id m res /\ (let? stack := walkBoundStack sm id in boundLoop (family sm) id asc stack) = inr res.
Proof.
  intros Hr Hid. unfold walkBoundStack. rewrite boundWalk_walkLoop.
  destruct (walk_descent (family sm) id 64 0 (MInner (root sm)) m [] walkFuel Hr) as (stk & r & hb & db & mb & nid & Hw & Hd & _);
    [done|done|unfold walkFuel; lia|].
  rewrite idOf_root in Hw. rewrite Hw.
  destruct (bound_descent asc _ _ _ _ _ _ _ _ _ _ _ Hd Hid) as (res & Hres & Hl); [done|apply under_0|].
  exists res. split; [done|]. specialize (Hl nid []). destruct r as [l|]; cbn [fmap option_fmap option_map]; rewrite Hl; by destruct res.
Qed.

(** ** Iterating *)

(** The items above [id]. *)
Definition itemsAbove (id : bytes) (items : list Item) : list Item :=
  filter (fun it => compareKeys id (key it) = Lt) items.

Lemma compareKeys_trans a b c : compareKeys a b = Lt -> compareKeys b c = Lt -> compareKeys a c = Lt.
Proof. apply bytes_compare_lt_trans. Qed.

Lemma compareKeys_refl a : compareKeys a a = Eq.
Proof. by apply bytes_compare_eq. Qed.

Lemma sorted_filter {X} (R : X -> X -> Prop) (P : X -> Prop) `{!forall x, Decision (P x)} (l : list X) :
  StronglySorted R l -> StronglySorted R (filter P l).
Proof.
  induction 1 as [|x l Hs IH Hf]; [constructor|]. rewrite filter_cons. destruct (decide (P x)); [|done].
  constructor; [done|]. apply list.Forall_forall. intros y Hy. apply list_elem_of_filter in Hy as [_ Hy].
  rewrite list.Forall_forall in Hf. by apply Hf.
Qed.

Lemma isBound_head m items id res :
  lists m items -> isBound true id m res -> res = head (itemsAbove id items).
Proof.
  intros [Hs He] Hb. pose proof (sorted_filter keyLt (fun it => compareKeys id (key it) = Lt) items Hs) as Hsf.
  fold (itemsAbove id items) in Hsf.
  assert (Hin : forall it, it ∈ itemsAbove id items <-> itemAt m (key it) = Some it /\ compareKeys id (key it) = Lt).
  { intros it. unfold itemsAbove. rewrite list_elem_of_filter, He. tauto. }
  destruct (itemsAbove id items) as [|x xs].
  - destruct res as [it|]; [|done]. destruct Hb as (Hit & Hlt & _). exfalso. by apply (not_elem_of_nil it), Hin.
  - destruct (proj1 (Hin x) ltac:(by left)) as [Hx Hxlt]. pose proof (proj1 (itemAt_Some m x) Hx) as [kd Hxm].
    destruct res as [it|]; [|by destruct (Hb _ _ Hxm)]. destruct Hb as (Hit & Hlt & Hmin). cbn [head].
    assert (Hk : key x = key it); [|congruence].
    destruct (Hmin _ _ Hxm Hxlt) as [|Hbx]; [done|].
    assert (Hitl : it ∈ x :: xs) by by apply Hin. apply elem_of_cons in Hitl as [->|Hitl]; [done|].
    apply StronglySorted_inv in Hsf as [_ Hf]. rewrite list.Forall_forall in Hf. apply Hf in Hitl.
    unfold keyLt in Hitl. unfold precedes in Hbx. rewrite compareKeys_antisym, Hitl in Hbx. done.
Qed.

Lemma itemsAbove_next m items id x xs :
  lists m items -> itemsAbove id items = x :: xs -> itemsAbove (key x) items = xs.
Proof.
  intros [Hs _] Hx. pose proof (sorted_filter keyLt (fun it => compareKeys id (key it) = Lt) items Hs) as Hsf.
  fold (itemsAbove id items) in Hsf. rewrite Hx in Hsf. apply StronglySorted_inv in Hsf as [_ Hf].
  assert (Hidx : compareKeys id (key x) = Lt).
  { assert (Hin : x ∈ itemsAbove id items) by (rewrite Hx; by left). by apply list_elem_of_filter in Hin as [? _]. }
  transitivity (itemsAbove (key x) (itemsAbove id items)).
  - unfold itemsAbove. rewrite list_filter_filter. apply list_filter_iff. intros it. split; [|tauto].
    intros Hlt. split; [done|]. by apply (compareKeys_trans _ (key x)).
  - rewrite Hx. unfold itemsAbove. rewrite filter_cons, decide_False by by rewrite compareKeys_refl.
    clear -Hf. induction Hf as [|y ys Hy _ IH]; [done|]. by rewrite filter_cons, decide_True, IH.
Qed.

Lemma drain_rep sm m items id fuel :
  Rep sm m -> lists m items -> is_key id -> (length (itemsAbove id items) <= fuel)%nat ->
  drain fuel sm (UpperBound sm id) = itemsAbove id items.
Proof.
  intros Hr Hl. revert id. induction fuel as [|fuel IH]; intros id Hid Hf.
  { destruct (itemsAbove id items); [done|cbn in Hf; lia]. }
  destruct (bound_rep true sm m id Hr Hid) as (res & Hb & Hres). change (upperBoundUnsafe sm id = inr res) in Hres.
  apply (isBound_head m items) in Hb; [|done]. unfold UpperBound. rewrite Hres. cbn [iterOf drain current].
  destruct (itemsAbove id items) as [|x xs] eqn:Hab; cbn [head] in Hb; subst res; [done|]. cbn [Valid current iterErr].
  f_equal. rewrite <- (itemsAbove_next m items id x xs Hl Hab).
  assert (Hkx : is_key (key x)).
  { assert (Hin : x ∈ itemsAbove id items) by (rewrite Hab; by left). apply list_elem_of_filter in Hin as [_ Hin].
    destruct Hl as [_ He]. apply He, itemAt_Some in Hin as [kd Hin]. by eapply rep_keyed in Hin. }
  replace (fst (Next sm (mkIter (Some x) None))) with (UpperBound sm (key x)).
  - apply IH; [done|]. rewrite (itemsAbove_next m items id x xs Hl Hab). cbn in Hf. lia.
  - unfold UpperBound, Next. cbn. by destruct (upperBoundUnsafe sm (key x)).
Qed.

(** [ForEach] visits exactly the items of the map, in ascending key order,
    until the callback stops it; and [Size], when it is not memoised, is their
    number. *)
Theorem ForEach_ascending sm m :
  Rep sm m ->
  exists items, lists m items /\
    (forall A (fn : A -> Item -> A * bool) acc, ForEach sm fn acc = (fst (foldUntil fn acc items), inr tt)) /\
    (cachedSize sm < 0 -> fst (Size sm) = Z.of_nat (size m)).
Proof.
  intros Hr. destruct (ForEach_rep sm m Hr) as (items & Hl & Hf). exists items. split; [done|]. split; [done|].
  intros Hc. unfold Size. rewrite (proj2 (Z.leb_gt _ _)) by done. rewrite Hf.
  assert (Hn : forall n, fst (foldUntil (fun n (_ : Item) => (n + 1, true)) n items) = n + Z.of_nat (length items)).
  { clear. induction items as [|it items IH]; intros n; cbn [foldUntil length]; [cbn; lia|]. rewrite IH. lia. }
  rewrite Hn, (lists_length m items Hl). by destruct (bool_decide (state sm = stateImmutable)).
Qed.

(** The bounds of a key are the next item above it and the last one below it
    (none when there is none), and an iterator started at a key yields all items
    above it in ascending order. *)
Theorem bounds_exact sm m id :
  Rep sm m -> is_key id ->
  exists up lo items, upperBoundUnsafe sm id = inr up /\ isBound true id m up /\
    lowerBoundUnsafe sm id = inr lo /\ isBound false id m lo /\
    lists m items /\ drain (size m) sm (UpperBound sm id) = itemsAbove id items.
Proof.
  intros Hr Hid. destruct (bound_rep true sm m id Hr Hid) as (up & Hbu & Hu). destruct (bound_rep false sm m id Hr Hid) as (lo & Hbl & Hlo).
  destruct (ForEach_rep sm m Hr) as (items & Hl & _). exists up, lo, items. split; [exact Hu|]. split; [exact Hbu|]. split; [exact Hlo|].
  split; [exact Hbl|]. split; [exact Hl|]. apply (drain_rep sm m items id (size m) Hr Hl Hid).
  rewrite <- (lists_length m items Hl). apply length_filter.
Qed.

End Queries.

(** ** Instances *)

#[local] Existing Instance exampleHasher.

Lemma ForEach_ascending_witness :
  exists sm, Rep sm {[key1 := (leafAccountState, data1)]} /\ (cachedSize sm < 0 -> fst (Size sm) = 1).
Proof.
  destruct one_item as (sm & Hr & _). destruct (ForEach_ascending sm _ Hr) as (items & _ & _ & Hs). exists sm. split; [exact Hr|].
  rewrite map_size_singleton in Hs. exact Hs.
Defined.

Lemma bounds_exact_witness :
  exists sm up, Rep sm {[key1 := (leafAccountState, data1)]} /\ upperBoundUnsafe sm zeroHash = inr up.
Proof.
  destruct one_item as (sm & Hr & _). destruct (bounds_exact sm _ zeroHash Hr zeroHash_key) as (up & lo & items & Hu & _).
  exists sm, up. split; [exact Hr|exact Hu].
Defined.

End ShaMapQuery.
