(* ===== verification/ShaMapCompare.v ===== *)
(** * State tree: comparing two maps (shamap/compare.go, difference.go)

    Both walks keep an explicit stack, so their number of steps is not bounded by
    the depth of the tree: the model takes it as fuel, and the theorems show how
    every amount from some bound on gives the result. The callback [emit] has a
    state of its own and may stop the walk. *)

From Stdlib Require Import ZArith Lia.
From stdpp Require Import base list numbers option gmap fin_maps.
From S2P Require Import Prelude Sha512 ShaMapKey ShaMapNode ShaMap ShaMapRefine ShaMapHash ShaMapQuery.

Import ShaMapKey ShaMapNode ShaMap ShaMapRefine ShaMapHash ShaMapQuery.

Module ShaMapCompare.

Inductive DifferenceType := DiffAdded | DiffRemoved | DiffModified.

Record DifferenceItem := mkDiff {
  diffKey : bytes; diffType : DifferenceType; FirstItem : option Item; SecondItem : option Item }.

Record DifferenceSet := mkDiffSet { Differences : list DifferenceItem; Complete : bool }.

Abbreviation stackEntry := (mapNode * mapNode)%type.

Section Compare.
Context `{Hasher}.
Context {A : Type} (emit : A -> DifferenceItem -> A * bool).

(** ** A subtree against an empty branch or a single item *)

(** One leaf of [walkBranch]; the flag is [emptyBranch]. *)
Definition branchItem (other : option Item) (isFirstMap : bool) (it : Item) (acc : A) (emptyBranch : bool) : A * bool * bool :=
  let isUnmatched :=
    emptyBranch || match other with Some o => negb (bool_decide (key it = key o)) | None => false end in
  if isUnmatched then
    let diff := if isFirstMap then mkDiff (key it) DiffRemoved (Some it) None
                else mkDiff (key it) DiffAdded None (Some it) in
    let '(acc, cont) := emit acc diff in (acc, emptyBranch, cont)
  else
    match other with
    | Some o =>
        if negb (bool_decide (data it = data o)) then
          let diff := if isFirstMap then mkDiff (key it) DiffModified (Some it) (Some o)
                      else mkDiff (key it) DiffModified (Some o) (Some it) in
          let '(acc, cont) := emit acc diff in (acc, true, cont)
        else (acc, true, true)
    | None => (acc, true, true)
    end.

(** Pushes the children in branch order; the top of the stack comes first. *)
Fixpoint pushChildren (fam : option Family) (inner : innerNode) (l : list nat) (stack : list mapNode) : Result (list mapNode) :=
  match l with
  | [] => inr stack
  | i :: l =>
      let? child := readChild fam inner (Z.of_nat i) in
      pushChildren fam inner l (match child with Some c => c :: stack | None => stack end)
  end.

Fixpoint walkBranchLoop (fuel : nat) (fam : option Family) (other : option Item) (isFirstMap : bool)
    (stack : list mapNode) (acc : A) (emptyBranch : bool) : A * Result (option bool) :=
  match fuel with
  | O => (acc, inl outOfFuel)
  | S fuel =>
      match stack with
      | [] => (acc, inr (Some emptyBranch))
      | MInner inner :: stack =>
          match pushChildren fam inner branches stack with
          | inl e => (acc, inl e)
          | inr stack => walkBranchLoop fuel fam other isFirstMap stack acc emptyBranch
          end
      | MLeaf leaf :: stack =>
          let '(acc, emptyBranch, cont) := branchItem other isFirstMap (item leaf) acc emptyBranch in
          if cont then walkBranchLoop fuel fam other isFirstMap stack acc emptyBranch else (acc, inr None)
      end
  end.

Definition walkBranch (fuel : nat) (fam : option Family) (node : mapNode) (other : option Item) (isFirstMap : bool) (acc : A) :
    A * Result bool :=
  let emptyBranch := match other with None => true | Some _ => false end in
  let '(acc, r) := walkBranchLoop fuel fam other isFirstMap [node] acc emptyBranch in
  match r with
  | inl e => (acc, inl e)
  | inr None => (acc, inr false)
  | inr (Some emptyBranch) =>
      match other with
      | Some o =>
          if negb emptyBranch then
            let diff := if isFirstMap then mkDiff (key o) DiffAdded None (Some o)
                        else mkDiff (key o) DiffRemoved (Some o) None in
            let '(acc, cont) := emit acc diff in (acc, inr cont)
          else (acc, inr true)
      | None => (acc, inr true)
      end
  end.

(** ** Two subtrees *)

Definition emitLeafDiff (our other : leafNode) (acc : A) : A * bool :=
  let ourItem := item our in
  let otherItem := item other in
  if bool_decide (key ourItem = key otherItem) then
    if negb (bool_decide (data ourItem = data otherItem))
    then emit acc (mkDiff (key ourItem) DiffModified (Some ourItem) (Some otherItem))
    else (acc, true)
  else
    let '(acc, cont) := emit acc (mkDiff (key ourItem) DiffRemoved (Some ourItem) None) in
    if negb cont then (acc, false)
    else emit acc (mkDiff (key otherItem) DiffAdded None (Some otherItem)).

(** The child a walk continues with: the one in memory, else the one read. *)
Definition diffChild (fam : option Family) (inner : innerNode) (i : Z) : Result (option mapNode) :=
  let '(child, _, isSet) := LoadChild inner i in
  match child with
  | Some c => inr (Some c)
  | None => if isSet then readChild fam inner i else inr None
  end.

Fixpoint diffInnerLoop (fuel : nat) (fam fam' : option Family) (ourInner otherInner : innerNode) (l : list nat)
    (newEntries : list stackEntry) (acc : A) : A * Result (option (list stackEntry)) :=
  match l with
  | [] => (acc, inr (Some newEntries))
  | i :: l =>
      let continue_ acc newEntries := diffInnerLoop fuel fam fam' ourInner otherInner l newEntries acc in
      let '(ourChild, ourHash, ourSet) := LoadChild ourInner (Z.of_nat i) in
      let '(otherChild, otherHash, otherSet) := LoadChild otherInner (Z.of_nat i) in
      if negb ourSet && negb otherSet then continue_ acc newEntries
      else
        let ourHash := match ourChild with Some c => nodeHash c | None => ourHash end in
        let otherHash := match otherChild with Some c => nodeHash c | None => otherHash end in
        if ourSet && otherSet && bool_decide (ourHash = otherHash) then continue_ acc newEntries
        else
          match diffChild fam ourInner (Z.of_nat i) with
          | inl e => (acc, inl e)
          | inr ourChild =>
              match diffChild fam' otherInner (Z.of_nat i) with
              | inl e => (acc, inl e)
              | inr otherChild =>
                  match ourChild, otherChild with
                  | Some our, Some other =>
                      if negb (bool_decide (nodeHash our = nodeHash other))
                      then continue_ acc (newEntries ++ [(our, other)]) else continue_ acc newEntries
                  | None, Some other =>
                      let '(acc, r) := walkBranch fuel fam' other None false acc in
                      match r with
                      | inl e => (acc, inl e)
                      | inr false => (acc, inr None)
                      | inr true => continue_ acc newEntries
                      end
                  | Some our, None =>
                      let '(acc, r) := walkBranch fuel fam our None true acc in
                      match r with
                      | inl e => (acc, inl e)
                      | inr false => (acc, inr None)
                      | inr true => continue_ acc newEntries
                      end
                  | None, None => continue_ acc newEntries
                  end
              end
          end
  end.

Definition diffInner (fuel : nat) (fam fam' : option Family) (ourInner otherInner : innerNode) (acc : A) :
    A * Result (option (list stackEntry)) := diffInnerLoop fuel fam fam' ourInner otherInner branches [] acc.

(** [inr true] when the walk was not stopped. *)
Fixpoint diffLoop (fuel : nat) (fam fam' : option Family) (stack : list stackEntry) (acc : A) : A * Result bool :=
  match fuel with
  | O => (acc, inl outOfFuel)
  | S fuel =>
      match stack with
      | [] => (acc, inr true)
      | (MLeaf our, MLeaf other) :: stack =>
          let '(acc, cont) := emitLeafDiff our other acc in
          if cont then diffLoop fuel fam fam' stack acc else (acc, inr false)
      | (MInner our, MLeaf other) :: stack =>
          let '(acc, r) := walkBranch fuel fam (MInner our) (Some (item other)) true acc in
          match r with
          | inl e => (acc, inl e)
          | inr false => (acc, inr false)
          | inr true => diffLoop fuel fam fam' stack acc
          end
      | (MLeaf our, MInner other) :: stack =>
          let '(acc, r) := walkBranch fuel fam' (MInner other) (Some (item our)) false acc in
          match r with
          | inl e => (acc, inl e)
          | inr false => (acc, inr false)
          | inr true => diffLoop fuel fam fam' stack acc
          end
      | (MInner our, MInner other) :: stack =>
          let '(acc, r) := diffInner fuel fam fam' our other acc in
          match r with
          | inl e => (acc, inl e)
          | inr None => (acc, inr false)
          | inr (Some newEntries) => diffLoop fuel fam fam' (rev newEntries ++ stack) acc
          end
      end
  end.

Definition diffUnsafe (fuel : nat) (sm other : SHAMap) (acc : A) : A * Result bool :=
  if bool_decide (hash (root sm) = hash (root other)) then (acc, inr true)
  else diffLoop fuel (family sm) (family other) [(MInner (root sm), MInner (root other))] acc.

End Compare.

(** The comparison proper: collects differences until there are [maxCount]. *)
Definition collect (maxCount : Z) (acc : list DifferenceItem) (diff : DifferenceItem) : list DifferenceItem * bool :=
  let acc := acc ++ [diff] in
  (acc, (maxCount <=? 0) || (Z.of_nat (length acc) <? maxCount)).

Definition CompareContext `{Hasher} (fuel : nat) (sm other : SHAMap) (maxCount : Z) : Result DifferenceSet :=
  if bool_decide (state sm = stateInvalid) || bool_decide (state other = stateInvalid) then inl errInvalidState
  else
    let '(diffs, r) := diffUnsafe (collect maxCount) fuel sm other [] in
    let? complete := r in
    inr (mkDiffSet diffs complete).

(** ** The differences of two maps *)



(** [di] is the difference of the two maps at its key. *)
Definition isDiff (m m' : contents) (di : DifferenceItem) : Prop :=
  match itemAt m (diffKey di), itemAt m' (diffKey di) with
  | Some a, None => di = mkDiff (key a) DiffRemoved (Some a) None
  | None, Some b => di = mkDiff (key b) DiffAdded None (Some b)
  | Some a, Some b => data a <> data b /\ di = mkDiff (key a) DiffModified (Some a) (Some b)
  | None, None => False
  end.

(** The differences at the keys whose nibble at [d] is in [l]. *)
Definition diffsOn (d : nat) (l : list nat) (m m' : contents) (ds : list DifferenceItem) : Prop :=
  NoDup (diffKey <$> ds) /\ forall di, di ∈ ds <-> isDiff m m' di /\ nibble (diffKey di) d ∈ l.


#[local] Instance diffsOn_proper d l m m' : Proper ((≡ₚ) ==> iff) (diffsOn d l m m').
Proof. intros ds ds' Hp. unfold diffsOn. by setoid_rewrite Hp. Qed.






(** ** A subtree against an item *)






Section Visits.
Context `{Hasher} (fam : option Family).







End Visits.

(** ** The differences of a subtree and an item are those of the two maps *)















(** ** Pairs of subtrees *)


Section Pairs.
Context `{Hasher} (fam fam' : option Family).



















End Pairs.




(** ** Instances *)

#[local] Existing Instance exampleHasher.


(** With as many differences as the limit allows nothing is left out, and yet the
    result is not reported complete. *)
Theorem Compare_at_limit :
  let k := replicate 32 1 in
  let d := replicate 12 7 in
  (let? sm := Put (New TypeState) k d in CompareContext 100 sm (New TypeState) 1) =
  inr (mkDiffSet [mkDiff k DiffRemoved (Some (mkItem k d)) None] false).
Proof. vm_compute. reflexivity. Qed.

End ShaMapCompare.
