(* ===== verification/ShaMapStore.v ===== *)
(** * State tree: persistence (shamap/persistence.go, store.go, snapshot.go, completeness.go, fetchpack.go)

    Dirty nodes are serialized children first and handed to the store in one
    batch; only when it accepts are they marked clean and, on request, their
    children released. The tree in memory is finite and at most 65 nodes deep,
    which [walkFuel] covers. *)

From Stdlib Require Import ZArith Lia.
From stdpp Require Import base list numbers option gmap fin_maps.
From S2P Require Import Prelude Sha512 ShaMapKey ShaMapNode ShaMapCodec ShaMap ShaMapRefine ShaMapHash ShaMapProof.

Import ShaMapKey ShaMapNode ShaMapCodec ShaMap ShaMapRefine ShaMapHash ShaMapProof.

Module ShaMapStore.

Record FlushEntry := mkEntry { entryHash : bytes; entryData : bytes; entrySeq : Z; entryType : Type_ }.

(** Replaces a child in place: the pointer stays, what it points to changed. *)
Definition replaceChild (n : innerNode) (i : nat) (c : mapNode) : innerNode :=
  mkInner (hash n) (dirty n) (isBranch n) (hashes n) (<[i := Some c]> (children n)).

(** What a store holds: records by their hash. *)
Abbreviation nodeStore := (gmap bytes bytes).

Section Store.
Context `{Hasher}.

Definition flushEntryForNode (node : mapNode) (seq : Z) (mt : Type_) : Result FlushEntry :=
  let? prefixed := SerializeWithPrefix node in
  inr (mkEntry (nodeHash node) prefixed seq mt).

Definition FlushEntryFromWire (data : bytes) (seq : Z) (mt : Type_) : Result FlushEntry :=
  let? node := deserializeNodeFromWire data in
  flushEntryForNode (UpdateHash node) seq mt.

(** The loop over the loaded dirty children. *)
Fixpoint collectChildren (rec : mapNode -> Result (mapNode * list FlushEntry)) (n : innerNode) (l : list nat)
    (entries : list FlushEntry) : Result (innerNode * list FlushEntry) :=
  match l with
  | [] => inr (n, entries)
  | i :: l =>
      match childAt n (Z.of_nat i) with
      | Some child =>
          if nodeDirty child then
            let? r := rec child in
            collectChildren rec (replaceChild n i (fst r)) l (entries ++ snd r)
          else collectChildren rec n l entries
      | None => collectChildren rec n l entries
      end
  end.

(** The node with its refreshed hash cache, and the entries in store order. *)
Fixpoint collectDirtyNode (fuel : nat) (seq : Z) (mt : Type_) (node : mapNode) : Result (mapNode * list FlushEntry) :=
  match fuel with
  | O => inl outOfFuel
  | S fuel =>
      if negb (nodeDirty node) then inr (node, [])
      else
        match node with
        | MLeaf leaf =>
            let? data := SerializeWithPrefix node in
            inr (node, [mkEntry (nodeHash node) data seq mt])
        | MInner inner =>
            let? r := collectChildren (collectDirtyNode fuel seq mt) inner branches [] in
            let inner := updateHashDeep (fst r) in
            let? data := SerializeWithPrefix (MInner inner) in
            inr (MInner inner, snd r ++ [mkEntry (hash inner) data seq mt])
        end
  end.

(** What happens to the collected nodes once the store has accepted them. *)
Fixpoint markStored (fuel : nat) (releaseChildren : bool) (node : mapNode) : mapNode :=
  match fuel with
  | O => node
  | S fuel =>
      if negb (nodeDirty node) then node
      else
        match node with
        | MLeaf _ => SetDirty false node
        | MInner n =>
            let kept := map (option_map (markStored fuel releaseChildren)) (children n) in
            let n' := mkInner (hash n) false (isBranch n) (hashes n) kept in
            MInner (if releaseChildren then ReleaseChildren n' else n')
        end
  end.

(** The map after the call and the call's result; [None] when nothing was
    handed to the store. The code collects before it stores anything, refreshing
    the hash caches of the nodes it passes; when the collection fails the model
    leaves the map as it was, since what a refresh writes is what the caches hold
    already on every tree the operations build. *)
Definition storeDirty {St} (sm : SHAMap) (store : list FlushEntry -> Result St) (releaseChildren : bool) :
    SHAMap * Result (option St) :=
  if IsEmpty (root sm) then (sm, inr None)
  else
    match collectDirtyNode walkFuel (ledgerSeq sm) (mapType sm) (MInner (root sm)) with
    | inl e => (sm, inl e)
    | inr (MLeaf _, _) => (sm, inl errInvalidType)
    | inr (MInner r, entries) =>
        match entries with
        | [] => (setRoot sm r, inr None)
        | _ =>
            match store entries with
            | inl e => (setRoot sm r, inl e)
            | inr st =>
                match markStored walkFuel releaseChildren (MInner r) with
                | MInner r' => (setRoot sm r', inr (Some st))
                | MLeaf _ => (sm, inl errInvalidType)
                end
            end
        end
    end.

Definition StoreDirty {St} (sm : SHAMap) (store : list FlushEntry -> Result St) := storeDirty sm store false.
Definition StoreDirtyAndRelease {St} (sm : SHAMap) (store : list FlushEntry -> Result St) := storeDirty sm store true.

(** [snapshot]: a backed map is flushed first, under the given sequence. *)
Definition snapshot {St} (sm : SHAMap) (store : list FlushEntry -> Result St) (mutable : bool) (seq : option Z) :
    SHAMap * Result SHAMap :=
  let stamped := match seq with
                 | Some s => mkMap (root sm) (mapType sm) (state sm) s (cachedSize sm) (family sm)
                 | None => sm
                 end in
  let '(flushed, r) :=
    match family sm with
    | Some _ => let '(sm', r) := storeDirty stamped store false in (sm', match r with inl e => Some e | inr _ => None end)
    | None => (stamped, None)
    end in
  let restored := mkMap (root flushed) (mapType sm) (state sm) (ledgerSeq sm) (cachedSize sm) (family sm) in
  match r with
  | Some e => (restored, inl e)
  | None => (restored, snapshotLocked flushed mutable)
  end.

(** ** Completeness of the store *)

Record MissingNode := mkMissing { missHash : bytes; missDepth : Z; missParent : bytes; missBranch : Z }.

Record CompletenessResult := mkResult {
  InnerNodes : Z; LeafNodes : Z; Missing : list MissingNode; Corrupt : list MissingNode }.

Definition maxWalkDepth : Z := 64.

Fixpoint completeLoop (step : nat -> CompletenessResult -> Result CompletenessResult) (l : list nat) (res : CompletenessResult) :
    Result CompletenessResult :=
  match l with
  | [] => inr res
  | i :: l => let? res := step i res in completeLoop step l res
  end.

(** One branch of [checkNodeComplete]; [rec] checks the child. *)
Definition checkBranch (rec : mapNode -> CompletenessResult -> Result CompletenessResult) (fam : option Family)
    (inner : innerNode) (depth : Z) (branch : nat) (res : CompletenessResult) : Result CompletenessResult :=
  if negb (hasBit (isBranch inner) (Z.of_nat branch)) then inr res
  else
    match childAt inner (Z.of_nat branch) with
    | Some child => rec child res
    | None =>
        let miss := mkMissing (hashAt inner (Z.of_nat branch)) (depth + 1) (hash inner) (Z.of_nat branch) in
        let missing := mkResult (InnerNodes res) (LeafNodes res) (Missing res ++ [miss]) (Corrupt res) in
        match fam with
        | None => inr missing
        | Some fetch =>
            match fetch (missHash miss) with
            | Failed => inl errFetch
            | Absent => inr missing
            | Found data =>
                match decodeAndVerifyPrefixNode data (missHash miss) with
                | inl _ => inr (mkResult (InnerNodes res) (LeafNodes res) (Missing res) (Corrupt res ++ [miss]))
                | inr child => rec child res
                end
            end
        end
    end.

Fixpoint checkNodeComplete (fuel : nat) (fam : option Family) (node : mapNode) (depth : Z) (res : CompletenessResult) :
    Result CompletenessResult :=
  match fuel with
  | O => inl outOfFuel
  | S fuel =>
      if maxWalkDepth <? depth then inl errMaxDepthExceeded
      else
        match node with
        | MLeaf _ => inr (mkResult (InnerNodes res) (LeafNodes res + 1) (Missing res) (Corrupt res))
        | MInner inner =>
            let res := mkResult (InnerNodes res + 1) (LeafNodes res) (Missing res) (Corrupt res) in
            completeLoop (checkBranch (fun child => checkNodeComplete fuel fam child (depth + 1)) fam inner depth) branches res
        end
  end.

Definition CheckComplete (sm : SHAMap) : Result CompletenessResult :=
  checkNodeComplete walkFuel (family sm) (MInner (root sm)) 0 (mkResult 0 0 [] []).

(** ** Fetch packs *)

Record FetchPackNode := mkPackNode { packHash : bytes; packData : bytes }.

Definition VerifyFetchPackNode (expected data : bytes) : bool :=
  match data with
  | [] => false
  | _ =>
      match deserializeFromPrefix data with
      | inl _ => false
      | inr node => bool_decide (nodeHash (UpdateHash node) = expected)
      end
  end.

(** The nodes gathered so far, the bytes they take, and whether the byte limit
    has not been hit. A [maxBytes] of zero is no limit. *)
Record Pack := mkPack { packed : list FetchPackNode; used : Z; complete : bool }.

Definition packDone (maxNodes : Z) (p : Pack) : bool := (maxNodes <=? Z.of_nat (length (packed p))) || negb (complete p).

(** The loop over the branches of a wanted inner node. *)
Fixpoint packLoop (rec : mapNode -> option mapNode -> Pack -> Result Pack) (fam fam' : option Family) (maxNodes : Z)
    (want : innerNode) (have : option innerNode) (l : list nat) (p : Pack) : Result Pack :=
  match l with
  | [] => inr p
  | i :: l =>
      let continue_ child haveChild :=
        let? child := match child with Some c => inr (Some c) | None => readChild fam want (Z.of_nat i) end in
        let? p := match child with Some c => rec c haveChild p | None => inr p end in
        if packDone maxNodes p then inr p else packLoop rec fam fam' maxNodes want have l p in
      let '(child, wantHash, present) := LoadChild want (Z.of_nat i) in
      if negb present then packLoop rec fam fam' maxNodes want have l p
      else
        match have with
        | None => continue_ child None
        | Some haveInner =>
            let '(haveChild, haveHash, havePresent) := LoadChild haveInner (Z.of_nat i) in
            let wantHash := match child with Some c => nodeHash c | None => wantHash end in
            let haveHash := match haveChild with Some c => nodeHash c | None => haveHash end in
            if havePresent && bool_decide (haveHash = wantHash) then packLoop rec fam fam' maxNodes want have l p
            else
              let? haveChild :=
                match haveChild with
                | Some c => inr (Some c)
                | None => if havePresent then readChild fam' haveInner (Z.of_nat i) else inr None
                end in
              continue_ child haveChild
        end
  end.

Fixpoint walkFetchPackDifferences (fuel : nat) (fam fam' : option Family) (maxNodes maxBytes : Z)
    (want : mapNode) (have : option mapNode) (p : Pack) : Result Pack :=
  match fuel with
  | O => inl outOfFuel
  | S fuel =>
      if packDone maxNodes p then inr p
      else if match have with Some h => bool_decide (nodeHash want = nodeHash h) | None => false end then inr p
      else
        let? data := SerializeWithPrefix want in
        if (0 <? maxBytes) && (maxBytes - used p <? Z.of_nat (length data)) then inr (mkPack (packed p) (used p) false)
        else
          let p := mkPack (packed p ++ [mkPackNode (nodeHash want) data]) (used p + Z.of_nat (length data)) (complete p) in
          if maxNodes <=? Z.of_nat (length (packed p)) then inr p
          else
            match want with
            | MLeaf _ => inr p
            | MInner wantInner =>
                let haveInner := match have with Some (MInner h) => Some h | _ => None end in
                packLoop (walkFetchPackDifferences fuel fam fam' maxNodes maxBytes) fam fam' maxNodes wantInner haveInner branches p
            end
  end.

Definition WalkFetchPackNodes (sm : SHAMap) (maxNodes : Z) : Result (list FetchPackNode) :=
  if (maxNodes <=? 0) || negb (HasChildren (root sm)) then inr []
  else
    let? p := walkFetchPackDifferences walkFuel (family sm) None maxNodes 0 (MInner (root sm)) None (mkPack [] 0 true) in
    inr (packed p).

Definition WalkFetchPackDifferencesBounded (sm : SHAMap) (have : option SHAMap) (maxNodes maxBytes : Z) :
    Result (list FetchPackNode * bool) :=
  if (maxNodes <=? 0) || (maxBytes <=? 0) then inr ([], false)
  else if negb (HasChildren (root sm)) then inr ([], true)
  else
    let fam' := match have with Some h => family h | None => None end in
    let haveRoot := (fun h => MInner (root h)) <$> have in
    let? p := walkFetchPackDifferences walkFuel (family sm) fam' maxNodes maxBytes (MInner (root sm)) haveRoot (mkPack [] 0 true) in
    inr (packed p, complete p).

(** ** The store

    The family over a store reads a record by its hash, and an accepted batch
    is filed entry by entry. *)

Definition famOf (s : nodeStore) : Family := fun h => match s !! h with Some b => Found b | None => Absent end.

Definition putEntries (s : nodeStore) (es : list FlushEntry) : nodeStore :=
  foldl (fun s e => <[entryHash e := entryData e]> s) s es.

(** Records are bytes filed under their hash. *)
Definition honest (s : nodeStore) : Prop := map_Forall (fun h b => all_bytes b /\ Hash b = h) s.

(** The store has the node with hash [hh] and everything below it, at most [h]
    levels down. *)
Fixpoint holds (s : nodeStore) (h : nat) (hh : bytes) : Prop :=
  hh <> zeroHash /\
  exists b n, s !! hh = Some b /\ decodeAndVerifyPrefixNode b hh = inr n /\
    match n with
    | MLeaf _ => True
    | MInner i =>
        match h with
        | O => False
        | S h => forall j : nat, (j < 16)%nat -> hasBit (isBranch i) (Z.of_nat j) = true -> holds s h (hashAt i (Z.of_nat j))
        end
    end.

(** Whatever is not marked dirty, or not in memory, is in the store. *)
Fixpoint backed (s : nodeStore) (h : nat) (n : mapNode) : Prop :=
  (nodeDirty n = false -> holds s h (nodeHash n)) /\
  match n with
  | MLeaf _ => True
  | MInner i =>
      match h with
      | O => True
      | S h =>
          forall j : nat, (j < 16)%nat -> hasBit (isBranch i) (Z.of_nat j) = true ->
            match childAt i (Z.of_nat j) with
            | Some c => backed s h c
            | None => holds s h (hashAt i (Z.of_nat j))
            end
      end
  end.

Lemma holds_mono s s' h hh : s ⊆ s' -> holds s h hh -> holds s' h hh.
Proof.
  intros Hs. revert hh. induction h as [|h IH]; intros hh (Hz & b & n & Hb & Hd & Hn); (split; [done|]); exists b, n;
    (split; [by eapply lookup_weaken|]); (split; [done|]); destruct n as [i|l]; try done. intros j Hj Hbit. by apply IH, Hn.
Qed.

Lemma backed_mono s s' h n : s ⊆ s' -> backed s h n -> backed s' h n.
Proof.
  intros Hs. revert n. induction h as [|h IH]; intros [i|l] [Hd Hn]; (split; [intros Hc; eapply holds_mono; [done|by apply Hd]|]);
    try done. intros j Hj Hb. specialize (Hn j Hj Hb). destruct (childAt i (Z.of_nat j)) as [c|]; [by apply IH|by eapply holds_mono].
Qed.

Lemma famOf_mono s s' x n : s ⊆ s' -> readSlot (Some (famOf s)) x = inr (Some n) -> readSlot (Some (famOf s')) x = inr (Some n).
Proof.
  intros Hs. unfold readSlot, famOf. destruct x as [[b h] [c|]]; [done|]. destruct (_ || _); [done|].
  destruct (s !! h) as [r|] eqn:Hl; [|done]. by rewrite (lookup_weaken _ _ _ _ Hl Hs).
Qed.

(** A family that answers from nothing, or from part of the store. *)
Definition within (fam : option Family) (s : nodeStore) : Prop :=
  match fam with None => True | Some _ => exists s0, fam = Some (famOf s0) /\ s0 ⊆ s end.

Lemma within_read fam s x n : within fam s -> readSlot fam x = inr (Some n) -> readSlot (Some (famOf s)) x = inr (Some n).
Proof.
  intros Hw Hx. destruct fam as [f|].
  - destruct Hw as (s0 & Hf & Hs). rewrite Hf in Hx. by eapply famOf_mono.
  - destruct x as [[b h] [c|]]; done.
Qed.

Lemma rep_within fam s h d n m : within fam s -> rep fam h d n m -> rep (Some (famOf s)) h d n m.
Proof.
  intros Hw. revert d n m. induction h as [|h IH]; intros d [n|l] m; [done|by rewrite !rep_leaf| |by rewrite !rep_leaf].
  rewrite !rep_inner. intros (Hs & Hh & Hk & Hsz & Hsl). split; [done|]. split; [done|]. split; [done|]. split; [done|].
  intros i Hi. specialize (Hsl i Hi). destruct (slot n i) as [[[] hh] c]; [|done].
  destruct Hsl as (c' & Hc' & He & Hr). exists c'. split; [by eapply within_read|]. split; [done|]. by apply IH.
Qed.

(** ** Records and the nodes they stand for *)

Lemma stub_slot n j : (j < 16)%nat -> stub (MInner n) = MInner n -> slot n j = (hasBit (isBranch n) (Z.of_nat j), slotHash (slot n j), None).
Proof.
  intros Hj Hs. rewrite <- (branchHashes_total n j Hj).
  assert (Hh : hashes n = branchHashes n /\ children n = replicate 16 None).
  { unfold stub in Hs. split; [apply (f_equal (fun x => match x with MInner i => hashes i | _ => [] end)) in Hs|
      apply (f_equal (fun x => match x with MInner i => children i | _ => [] end)) in Hs]; by symmetry. }
  destruct Hh as [Hh Hc]. unfold slot, hashAt, childAt. rewrite Nat2Z.id, <- Hh, Hc. by rewrite lookup_total_replicate_2.
Qed.

(** What was hashed for the records of a store is in play. *)
Context {known : InPlay}.

Definition filed (s : nodeStore) : Prop := map_Forall (fun h b => all_bytes b /\ Hash b = h /\ inPlay b) s.

Lemma filed_insert s b :
  filed s -> all_bytes b -> inPlay b -> (filed (<[Hash b := b]> s) /\ s ⊆ <[Hash b := b]> s) \/ broken.
Proof.
  intros Hs Hb Hin. destruct (s !! Hash b) as [b'|] eqn:Hl.
  - destruct (Hs _ _ Hl) as (Hb' & He & Hin'). apply same_preimage in He as [->|]; [|by right|done|done]. left.
    rewrite insert_id by done. done.
  - left. split; [by apply map_Forall_insert_2|]. by apply insert_subseteq.
Qed.

Lemma record_inPlay n b : SerializeWithPrefix n = inr b -> nodeInPlay n <-> inPlay b.
Proof.
  destruct n as [n|l]; cbn [SerializeWithPrefix nodeInPlay]; [|by intros [= <-]].
  unfold innerWithPrefix. destruct (Z.eqb_spec (isBranch n) 0) as [|H0]; [done|]. intros Hb.
  apply (f_equal (fun r => match r with inr x => x | inl _ => b end)) in Hb. cbv beta iota in Hb. subst b. by split; [auto|].
Qed.

(** A record with the hash of a node of the tree spells out its branches. *)
Lemma stored_agrees fam h d n m w b :
  rep fam (S h) d (MInner n) m -> covers (S h) d m -> all_bytes b -> inPlay b -> hash n <> zeroHash -> decodeAndVerifyPrefixNode b (hash n) = inr w ->
  (exists i, w = MInner i /\ hash i = hash n /\ shaped i /\ hashed i /\
     forall j, (j < 16)%nat -> slot i j = (hasBit (isBranch n) (Z.of_nat j), slotHash (slot n j), None)) \/ broken.
Proof.
  intros Hr Hv Hb Hib Hz Hd. apply verified_preimage in Hd as (He & Hst & Hcase); [|done].
  pose proof (covers_node _ _ _ _ _ Hr Hv) as Hin. pose proof Hr as [Hp _]%preRep_rep.
  destruct Hcase as [(i & _ & _ & Hzero)|(Hsd & Hser & _)]; [done|]. apply (record_inPlay _ _ Hser) in Hib.
  destruct w as [i|l].
  2:{ right. destruct Hsd as [(_ & _ & _ & Hl) _]. by eapply (inner_leaf_broken n l); [apply Hp|..]. }
  pose proof Hsd as (Hsh & Hh & Hne & Hset). cbn [nodeHash] in He.
  assert (Hbits : (forall j, (j < 16)%nat -> slotHash (slot i j) = slotHash (slot n j)) \/ broken).
  { pose proof He as He'. rewrite (hashed_innerHash i Hh), (hashed_innerHash n) in He' by apply Hp. unfold innerHash in He'.
    rewrite (proj2 (Z.eqb_neq _ _) Hne) in He'. destruct (Z.eqb_spec (isBranch n) 0) as [H0|H0].
    - right. by eapply zero_preimage, He'; apply Hib.
    - apply same_preimage in He' as [He'|]; [|by right|by apply Hib|by apply Hin]. left. apply branchHashes_ext. apply app_inv_head in He'.
      apply mjoin_inj in He'; [done|by apply sendable_keys|by eapply branchHashes_keys|by rewrite !branchHashes_length]. }
  destruct Hbits as [Hbits|]; [|by right].
  destruct (all_or_broken (fun j => slot i j = (hasBit (isBranch n) (Z.of_nat j), slotHash (slot n j), None)) 16) as [Ha|];
    [| |by right].
  - intros j Hj. rewrite (stub_slot i j Hj Hst), Hbits by done.
    destruct (hasBit (isBranch i) (Z.of_nat j)) eqn:Hbi.
    + destruct (Hset j Hj Hbi) as [_ Hnz]. rewrite Hbits in Hnz by done.
      destruct (hasBit (isBranch n) (Z.of_nat j)) eqn:Hbn; [by left|]. by rewrite slotHash_unused in Hnz.
    + destruct (branch_view fam h d n m j Hp Hj) as [(Hbn & c & _ & Hc & _ & Hrc)|(-> & _)]; [|by left].
      right. destruct (child_hash _ _ _ _ _ Hrc) as [Hx|]; [by eapply rep_nonempty|by eapply covers_sub| |done].
      destruct Hx. rewrite <- Hc, <- Hbits by done. by apply slotHash_unused.
  - left. by exists i.
Qed.

(** ** Reading back *)

Lemma holds_zero s h hh : holds s h hh -> hh <> zeroHash.
Proof. by destruct h; intros [? _]. Qed.

Lemma holds_record s h hh :
  holds s h hh <-> hh <> zeroHash /\ exists b n, s !! hh = Some b /\ decodeAndVerifyPrefixNode b hh = inr n /\
    match n with
    | MLeaf _ => True
    | MInner i =>
        match h with
        | O => False
        | S h => forall j : nat, (j < 16)%nat -> hasBit (isBranch i) (Z.of_nat j) = true -> holds s h (hashAt i (Z.of_nat j))
        end
    end.
Proof. by destruct h. Qed.

(** The store holds what the branches of a held node lead to. *)
Lemma holds_branches fam s h d n m :
  rep fam (S h) d (MInner n) m -> covers (S h) d m -> filed s -> holds s (S h) (hash n) ->
  (exists b i, s !! hash n = Some b /\ decodeAndVerifyPrefixNode b (hash n) = inr (MInner i) /\
     hash i = hash n /\ shaped i /\ hashed i /\
     (forall j, (j < 16)%nat -> slot i j = (hasBit (isBranch n) (Z.of_nat j), slotHash (slot n j), None)) /\
     (forall j, (j < 16)%nat -> hasBit (isBranch n) (Z.of_nat j) = true -> holds s h (slotHash (slot n j)))) \/ broken.
Proof.
  intros Hr Hv Hs (Hz & b & w & Hb & Hd & Hw)%holds_record. destruct (Hs _ _ Hb) as (Hby & _ & Hib).
  destruct (stored_agrees _ _ _ _ _ _ _ Hr Hv Hby Hib Hz Hd) as [(i & -> & He & Hsh & Hh & Hsl)|]; [|by right].
  left. exists b, i. split_and!; try done; try apply Hsh. intros j Hj Hbit. specialize (Hsl j Hj). unfold slot at 1 in Hsl.
  apply pair_equal_spec in Hsl as [[Hb1 Hb2]%pair_equal_spec _]. rewrite <- Hb2. apply Hw; [done|congruence].
Qed.

Lemma leafContents_clean l : leafContents (cleanLeaf l) = leafContents l.
Proof. done. Qed.

Lemma reload_leaf s l b w m :
  wfLeaf l -> m = leafContents l -> txKeyed m -> nodeInPlay (MLeaf l) -> all_bytes b -> inPlay b -> lhash l <> zeroHash ->
  decodeAndVerifyPrefixNode b (lhash l) = inr w ->
  (exists l', w = MLeaf l' /\ nodeHash w = lhash l /\ forall h d, rep s h d w m) \/ broken.
Proof.
  intros Hwf -> Ht Hin Hb Hib Hz Hd. apply verified_preimage in Hd as (He & _ & Hcase); [|done].
  destruct Hcase as [(i & _ & _ & Hzero)|(Hsd & Hser & _)]; [done|]. apply (record_inPlay _ _ Hser) in Hib.
  destruct w as [i|l'].
  - right. destruct Hsd as (_ & Hh & _). destruct Hwf as (_ & _ & _ & Hl). by eapply (inner_leaf_broken i l).
  - destruct Hsd as [Hwf' Hx]. cbn [nodeHash] in He. pose proof Hwf as (_ & _ & _ & Hl). pose proof Hwf' as (_ & _ & _ & Hl').
    rewrite Hl, Hl' in He. apply same_preimage in He as [He|]; [|by right|done|done]. left. exists l'. split; [done|].
    split; [cbn [nodeHash]; by rewrite Hl, Hl', He|]. intros h d. apply rep_leaf. split; [done|]. symmetry.
    apply leafPreimage_inj; try done. unfold txKeyed, leafContents. apply map_Forall_singleton. cbn.
    intros Hk. by rewrite Hk in Hx.
Qed.

(** A node the store holds is read back with the same contents. *)
Lemma reload fam s h d n m :
  rep fam h d n m -> txKeyed m -> covers h d m -> filed s -> holds s h (nodeHash n) ->
  (exists n', readSlot (Some (famOf s)) (true, nodeHash n, None) = inr (Some n') /\ nodeHash n' = nodeHash n /\
     rep (Some (famOf s)) h d n' m /\ ((exists i, n = MInner i) -> exists i, n' = MInner i)) \/ broken.
Proof.
  revert d n m. induction h as [|h IH]; intros d n m Hr Ht Hv Hs Hh; pose proof (holds_zero _ _ _ Hh) as Hz;
    pose proof (covers_node _ _ _ _ _ Hr Hv) as Hin.
  all: unfold readSlot, famOf, isZeroHash; rewrite bool_decide_eq_false_2 by done; cbn [negb orb].
  all: destruct n as [n|l]; try done.
  1,3: apply rep_leaf in Hr as [Hwf ->]; apply holds_record in Hh as (_ & b & w & Hb & Hd & _); cbn [nodeHash] in *;
    rewrite Hb, Hd; destruct (Hs _ _ Hb) as (Hby & _ & Hib);
    destruct (reload_leaf (Some (famOf s)) l b w _ Hwf eq_refl Ht Hin Hby Hib Hz Hd) as [(l' & -> & He & Hrep)|]; [|by right];
    left; exists (MLeaf l'); split_and!; [done|done|apply Hrep|by intros [i [=]]].
  pose proof Hr as [Hp Hsz]%preRep_rep. cbn [nodeHash] in *.
  destruct (holds_branches _ _ _ _ _ _ Hr Hv Hs Hh) as [(b & i & Hb & Hd & He & Hsh & Hhd & Hsl & Hch)|]; [|by right].
  rewrite Hb, Hd.
  destruct (all_or_broken (fun j => slotRep (Some (famOf s)) h (S d) (slot i j) (sub d j m)) 16) as [Ha|]; [| |by right].
  - intros j Hj. rewrite Hsl by done.
    destruct (branch_view fam h d n m j Hp Hj) as [(Hbit & c & _ & Hc & _ & Hrc)|(Hbit & Hzs & Hem)].
    + specialize (Hch j Hj Hbit). rewrite Hbit, Hc in *.
      destruct (IH (S d) c _ Hrc) as [(c' & Hread & He' & Hr' & _)|]; [by apply txKeyed_sub|by eapply covers_sub|done|done| |by right].
      left. exists c'. by split_and!.
    + left. rewrite Hbit, Hzs. by split_and!.
  - left. exists (MInner i). split_and!; [done|done| |by eauto]. apply preRep_rep. split; [|done].
    split; [done|]. split; [done|]. split; [apply Hp|done].
Qed.

(** ** Flushing *)

(** Swapping the table entries of a node for others with the same hashes. *)
Lemma preRep_same fam fam' h d n n' m :
  preRep fam h d n m -> shaped n' -> isBranch n' = isBranch n ->
  (forall j, (j < 16)%nat -> slotHash (slot n' j) = slotHash (slot n j)) ->
  (forall j, (j < 16)%nat -> slotRep fam' h (S d) (slot n' j) (sub d j m)) -> hash n' = hash n ->
  preRep fam' h d n' m.
Proof.
  intros (_ & Hh & Hk & _) Hs Hb Hsl Hr He. split; [done|]. split; [|by split].
  unfold hashed. rewrite He, Hh. unfold updateHashUnsafe. cbn [hash]. rewrite Hb.
  by rewrite (proj1 (branchHashes_ext n' n) Hsl).
Qed.

Lemma replaceChild_slot n i c j :
  shaped n -> (i < 16)%nat ->
  slot (replaceChild n i c) j =
  (hasBit (isBranch n) (Z.of_nat j), hashAt n (Z.of_nat j), if decide (j = i) then Some c else childAt n (Z.of_nat j)).
Proof.
  intros (_ & _ & Hc) Hi. unfold slot, replaceChild, hashAt, childAt. cbn [isBranch hashes children].
  by rewrite Nat2Z.id, insert_total by lia.
Qed.

Lemma replaceChild_preRep fam h d n m i c c' :
  preRep fam h d n m -> (i < 16)%nat -> childAt n (Z.of_nat i) = Some c ->
  rep fam h (S d) c' (sub d i m) -> nodeHash c' = nodeHash c ->
  preRep fam h d (replaceChild n i c') m /\
  forall j, (j < 16)%nat -> slotHash (slot (replaceChild n i c') j) = slotHash (slot n j).
Proof.
  intros Hp Hi Hc Hr He. pose proof Hp as (Hs & _ & _ & Hsl).
  assert (Hsame : forall j, (j < 16)%nat -> slotHash (slot (replaceChild n i c') j) = slotHash (slot n j)).
  { intros j Hj. rewrite replaceChild_slot by done. unfold slot. destruct (decide (j = i)) as [->|]; [|done].
    rewrite Hc. unfold slotHash. by destruct (hasBit _ _). }
  split; [|done]. eapply preRep_same; try done.
  - destruct Hs as (? & ? & ?). split; [done|]. split; [done|]. cbn. by rewrite length_insert.
  - intros j Hj. specialize (Hsl j Hj). rewrite replaceChild_slot by done. destruct (decide (j = i)) as [->|]; [|done].
    unfold slot in Hsl. rewrite Hc in Hsl. destruct (hasBit _ _); [|by destruct Hsl as (_ & ? & _)].
    destruct Hsl as (c0 & [= <-] & Hh & _). exists c'. split_and!; [done|congruence|done].
Qed.

Lemma updateHashDeep_preRep fam h d n m :
  preRep fam h d n m -> preRep fam h d (updateHashDeep n) m /\ hash (updateHashDeep n) = hash n /\
  (forall j, (j < 16)%nat -> slotHash (slot (updateHashDeep n) j) = slotHash (slot n j)).
Proof.
  intros Hp. pose proof Hp as (Hs & Hh & _ & Hsl).
  assert (Hsame : forall j, (j < 16)%nat -> slotHash (slot (updateHashDeep n) j) = slotHash (slot n j)).
  { intros j Hj. rewrite updateHashDeep_slots by done. unfold slot, slotHash, childPreimageHash.
    destruct (hasBit _ _), (childAt n (Z.of_nat j)); done. }
  assert (He : hash (updateHashDeep n) = hash n).
  { rewrite (hashed_innerHash n Hh), (hashed_innerHash (updateHashDeep n) (updateHash_hashed _)).
    by rewrite (proj1 (branchHashes_ext (updateHashDeep n) n) Hsame). }
  split; [|done]. eapply preRep_same; try done.
  - destruct Hs as (Hm & Hl & Hc). split; [done|]. split; [|done]. unfold updateHashDeep, updateHashUnsafe. cbn [hashes].
    rewrite (foldl_pointwise _ (fun hs j => match (if hasBit (isBranch n) (Z.of_nat j)
               then nodeHash <$> childAt n (Z.of_nat j) else None) with Some h => <[j := h]> hs | None => hs end)).
    2:{ intros hs j. destruct (hasBit _ _); [|done]. by destruct (childAt n (Z.of_nat j)). }
    by rewrite foldl_insert_length.
  - intros j Hj. specialize (Hsl j Hj). rewrite updateHashDeep_slots by done. unfold slot in Hsl. unfold childPreimageHash.
    destruct (hasBit _ _); [|done]. destruct (childAt n (Z.of_nat j)) as [c|] eqn:Hc; [|done].
    destruct Hsl as (c' & [= <-] & _ & Hr). by exists c.
Qed.

(** An entry as it should be: the record of a node under the node's hash, with
    the map's sequence and type. *)
Definition entryTyped (seq : Z) (mt : Type_) (e : FlushEntry) : Prop :=
  entrySeq e = seq /\ entryType e = mt /\ all_bytes (entryData e) /\ Hash (entryData e) = entryHash e /\
  exists n, sendable n /\ nodeHash n = entryHash e /\ SerializeWithPrefix n = inr (entryData e).

Lemma node_entry seq mt n b : sendable n -> SerializeWithPrefix n = inr b -> entryTyped seq mt (mkEntry (nodeHash n) b seq mt).
Proof.
  intros Hs Hb. destruct (record_verifies n b Hs Hb) as [He _]. split; [done|]. split; [done|].
  split; [by eapply record_bytes|]. split; [done|]. by exists n.
Qed.

(** What collecting from a node comes to: the node keeps its hash and contents,
    and a store that takes the entries holds all of it. *)
Definition collected (seq : Z) (mt : Type_) (fam : option Family) (h d : nat) (s : nodeStore) (n : mapNode) (m : contents)
    (r : Result (mapNode * list FlushEntry)) : Prop :=
  exists n' es, r = inr (n', es) /\ nodeHash n' = nodeHash n /\ rep fam h d n' m /\
    ((exists i, n = MInner i) -> exists i, n' = MInner i) /\ (nodeDirty n = true -> es <> []) /\
    Forall (entryTyped seq mt) es /\ (forall s0, backed s0 h n -> backed s0 h n') /\ filed (putEntries s es) /\ s ⊆ putEntries s es /\ holds (putEntries s es) h (nodeHash n).

Definition branchBacked (s : nodeStore) (h : nat) (n : innerNode) (j : nat) : Prop :=
  hasBit (isBranch n) (Z.of_nat j) = true ->
  match childAt n (Z.of_nat j) with
  | Some c => backed s h c
  | None => holds s h (hashAt n (Z.of_nat j))
  end.

Lemma branchBacked_mono s s' h n n' j :
  s ⊆ s' -> slot n' j = slot n j -> branchBacked s h n j -> branchBacked s' h n' j.
Proof.
  intros Hs He Hb. unfold branchBacked. unfold slot in He. apply pair_equal_spec in He as [[-> ->]%pair_equal_spec ->].
  intros Hbit. specialize (Hb Hbit). destruct (childAt n _); [by eapply backed_mono|by eapply holds_mono].
Qed.

Lemma updateHashDeep_backed s h n j :
  shaped n -> (j < 16)%nat -> branchBacked s h n j -> branchBacked s h (updateHashDeep n) j.
Proof.
  intros Hsh Hj Hb. unfold branchBacked in *. pose proof (updateHashDeep_slots n j Hsh Hj) as Hs. unfold slot, childPreimageHash in Hs.
  apply pair_equal_spec in Hs as [[-> Hh]%pair_equal_spec ->]. intros Hbit. specialize (Hb Hbit). rewrite Hbit in Hh.
  destruct (childAt n (Z.of_nat j)); [done|]. by rewrite Hh.
Qed.

Lemma backed_clean s h n : backed s h n -> nodeDirty n = false -> holds s h (nodeHash n).
Proof. destruct h; by intros [Hd _]. Qed.

Lemma putEntries_app s es es' : putEntries s (es ++ es') = putEntries (putEntries s es) es'.
Proof. apply foldl_app. Qed.

Section Collect.
Context (seq : Z) (mt : Type_) (fam : option Family) (h d : nat) (m : contents) (rec : mapNode -> Result (mapNode * list FlushEntry)).
Hypothesis Hrec : forall c m' s, rep fam h (S d) c m' -> storable m' -> m' <> ∅ -> covers h (S d) m' -> backed s h c -> filed s ->
  collected seq mt fam h (S d) s c m' (rec c) \/ broken.
Hypothesis Hm : storable m.

Definition loopCollected (n : innerNode) (l : list nat) (s : nodeStore)
    (loop : list FlushEntry -> Result (innerNode * list FlushEntry)) (es0 : list FlushEntry) : Prop :=
  exists n' es, loop es0 = inr (n', es0 ++ es) /\ preRep fam h d n' m /\ hash n' = hash n /\
    isBranch n' = isBranch n /\ dirty n' = dirty n /\ Forall (entryTyped seq mt) es /\
    (forall s0, (forall j, (j < 16)%nat -> branchBacked s0 h n j) -> forall j, (j < 16)%nat -> branchBacked s0 h n' j) /\ (forall j, (j < 16)%nat -> slotHash (slot n' j) = slotHash (slot n j)) /\
    filed (putEntries s es) /\ s ⊆ putEntries s es /\
    Forall (fun j => hasBit (isBranch n) (Z.of_nat j) = true -> holds (putEntries s es) h (slotHash (slot n j))) l.

Lemma children_collected n l s es0 :
  preRep fam h d n m -> (d <> 0%nat -> (2 <= size m)%nat) -> covers (S h) d m -> filed s -> NoDup l -> Forall (fun j => j < 16)%nat l -> Forall (branchBacked s h n) l ->
  loopCollected n l s (collectChildren rec n l) es0 \/ broken.
Proof.
  revert n s es0. induction l as [|i l IH]; intros n s es0 Hp Hsz Hv Hs Hnd Hl Hb.
  { left. exists n, []. rewrite app_nil_r. by split_and!. }
  apply list.NoDup_cons in Hnd as [Hni Hnd]. apply list.Forall_cons in Hl as [Hi Hl]. apply list.Forall_cons in Hb as [Hbi Hb].
  cbn [collectChildren].
  (* a branch whose child is not collected from *)
  assert (Hskip : (hasBit (isBranch n) (Z.of_nat i) = true -> holds s h (slotHash (slot n i))) ->
    loopCollected n (i :: l) s (collectChildren rec n l) es0 \/ broken).
  { intros Hh. destruct (IH n s es0) as [(n' & es & Hc & Hp' & He & Hm' & Hd' & Hty & Hkeep & Hsl & Hs' & Hsub & Hall)|]; [done..| |by right].
    left. exists n', es. split_and!; try done. constructor; [|done]. intros Hbit. eapply holds_mono; [done|by apply Hh]. }
  unfold branchBacked in Hbi. pose proof (branch_view _ _ _ _ _ _ Hp Hi) as Hview. revert Hskip.
  destruct (childAt n (Z.of_nat i)) as [c|] eqn:Hc; intros Hskip.
  2:{ apply Hskip. intros Hbit. specialize (Hbi Hbit). unfold slot, slotHash. by rewrite Hbit, Hc. }
  assert (Hbit : hasBit (isBranch n) (Z.of_nat i) = true).
  { destruct Hp as (_ & _ & _ & Hsl). specialize (Hsl i Hi). unfold slot in Hsl. destruct (hasBit _ _); [done|].
    destruct Hsl as (_ & Hn & _). congruence. }
  specialize (Hbi Hbit). assert (Hsh : slotHash (slot n i) = nodeHash c) by (unfold slot, slotHash; by rewrite Hbit, Hc).
  destruct (nodeDirty c) eqn:Hd.
  2:{ apply Hskip. intros _. rewrite Hsh. by apply backed_clean. }
  clear Hskip. destruct Hview as [(_ & c' & Hread & _ & _ & Hrc)|(Hb' & _)]; [|congruence].
  unfold slot, readSlot in Hread. rewrite Hc in Hread. injection Hread as <-.
  destruct (Hrec c _ s Hrc) as [(c' & es & -> & Hec & Hrc' & _ & _ & Htc & Hkc & Hs1 & Hsub1 & Hh1)|];
    [by apply storable_sub|by eapply rep_nonempty|by eapply covers_sub; [by apply preRep_rep|..]|done|done| |by right].
  cbn [fst snd]. destruct (replaceChild_preRep _ _ _ _ _ _ _ _ Hp Hi Hc Hrc' Hec) as [Hp1 Hsl1].
  destruct (IH (replaceChild n i c') (putEntries s es) (es0 ++ es)) as [(n' & es' & Hcol & Hp' & He & Hm' & Hd' & Hty & Hkeep & Hsl & Hs' & Hsub & Hall)|];
    [done|done|done|done|done|done| | |by right].
  { apply list.Forall_forall. intros j Hj. rewrite list.Forall_forall in Hb. eapply branchBacked_mono; [done| |by apply Hb].
    rewrite replaceChild_slot by (done || apply Hp). rewrite decide_False by (by intros ->). done. }
  left. exists n', (es ++ es'). rewrite putEntries_app. split_and!; try done.
  - by rewrite Hcol, app_assoc.
  - by apply Forall_app.
  - intros s0 Hall0. apply Hkeep. intros j Hj. specialize (Hall0 j Hj). unfold branchBacked in *.
    pose proof (replaceChild_slot n i c' j (proj1 Hp) Hi) as Hrs. unfold slot in Hrs.
    apply pair_equal_spec in Hrs as [[-> ->]%pair_equal_spec ->]. intros Hbj. specialize (Hall0 Hbj).
    destruct (decide (j = i)) as [->|]; [|done]. rewrite Hc in Hall0. by apply Hkc.
  - intros j Hj. by rewrite Hsl, Hsl1.
  - by etrans.
  - constructor.
    + intros _. rewrite Hsh. by eapply holds_mono.
    + apply list.Forall_forall. intros j Hj Hbj. rewrite list.Forall_forall in Hall, Hl. rewrite <- Hsl1 by by apply Hl.
      by apply Hall.
Qed.

End Collect.

(** What a record refers to is held by the store. *)
Definition childrenHeld (s : nodeStore) (h : nat) (n : mapNode) : Prop :=
  match n with
  | MLeaf _ => True
  | MInner i =>
      exists h', h = S h' /\ forall j, (j < 16)%nat -> hasBit (isBranch i) (Z.of_nat j) = true -> holds s h' (slotHash (slot i j))
  end.

Lemma record_holds s h n b :
  sendable n -> SerializeWithPrefix n = inr b -> inPlay b -> s !! nodeHash n = Some b -> childrenHeld s h n ->
  holds s h (nodeHash n) \/ broken.
Proof.
  intros Hsd Hb Hin Hl Hn. destruct (record_verifies n b Hsd Hb) as [He Hd].
  destruct (decide (nodeHash n = zeroHash)) as [Hz|Hz]; [right; apply (zero_preimage b); [done|congruence]|].
  left. apply holds_record. split; [done|]. exists b, (stub n). split; [done|]. split; [done|]. destruct n as [i|l]; [|done].
  cbn [stub]. destruct Hn as (h' & -> & Hn). intros j Hj Hbit. cbn [isBranch] in Hbit. unfold hashAt. cbn [hashes].
  rewrite Nat2Z.id, branchHashes_total by done. by apply Hn.
Qed.

(** A new record joins a store that holds what it refers to. *)
Lemma store_record s h n b :
  sendable n -> SerializeWithPrefix n = inr b -> inPlay b -> filed s -> childrenHeld s h n ->
  (filed (<[nodeHash n := b]> s) /\ s ⊆ <[nodeHash n := b]> s /\ holds (<[nodeHash n := b]> s) h (nodeHash n)) \/ broken.
Proof.
  intros Hsd Hb Hin Hs Hn. destruct (record_verifies n b Hsd Hb) as [He _].
  destruct (filed_insert s b Hs (record_bytes n b Hsd Hb) Hin) as [[Hs' Hsub]|]; [|by right]. rewrite <- He in Hs', Hsub.
  destruct (record_holds (<[nodeHash n := b]> s) h n b Hsd Hb Hin) as [Hh|]; [apply lookup_insert_eq| |by left|by right].
  destruct n as [i|l]; [|done]. destruct Hn as (h' & -> & Hn). exists h'. split; [done|]. intros j Hj Hbit.
  eapply holds_mono; [done|]. by apply Hn.
Qed.

Lemma collect_ok fam seq mt fuel h d n m s :
  rep fam h d n m -> storable m -> m <> ∅ -> covers h d m -> backed s h n -> filed s -> (h < fuel)%nat ->
  collected seq mt fam h d s n m (collectDirtyNode fuel seq mt n) \/ broken.
Proof.
  revert h d n m s. induction fuel as [|fuel IH]; intros h d n m s Hr Hst Hne Hv Hb Hs Hf; [lia|].
  cbn [collectDirtyNode]. destruct (nodeDirty n) eqn:Hd; cbn [negb].
  2:{ left. exists n, []. split_and!; try done; [congruence|]. by apply backed_clean. }
  destruct (rep_sendable _ _ _ _ _ Hr Hst Hne Hv) as [Hsd|]; [|by right]. destruct n as [n|l].
  - destruct h as [|h]; [done|]. pose proof Hr as [Hp Hsz]%preRep_rep.
    destruct (children_collected seq mt fam h d m (collectDirtyNode fuel seq mt)) with (n := n) (l := branches) (s := s) (es0 := @nil FlushEntry)
      as [(n1 & es & Hc & Hp1 & He1 & Hb1 & Hd1 & Ht1 & Hk1 & Hsl1 & Hs1 & Hsub1 & Hall)|];
      [|done|done|done|done|done|apply NoDup_seq|apply branches_lt| | |by right].
    { intros c m' s' Hrc Hst' Hne' Hvc Hbc Hs'. apply IH; try done. lia. }
    { apply list.Forall_forall. intros j Hj. apply elem_of_seq in Hj. intros Hbit. destruct Hb as [_ Hb]. apply Hb; [lia|done]. }
    rewrite Hc. cbn [fst snd app]. destruct (updateHashDeep_preRep _ _ _ _ _ Hp1) as (Hp2 & He2 & Hsl2).
    set (n2 := updateHashDeep n1) in *.
    assert (Hr2 : rep fam (S h) d (MInner n2) m) by by apply preRep_rep.
    destruct (rep_sendable _ _ _ _ _ Hr2 Hst Hne Hv) as [Hsd2|]; [|by right].
    destruct (prefix_node _ Hsd2) as (b & Hser & _). rewrite Hser.
    destruct (store_record (putEntries s es) (S h) (MInner n2) b) as [(Hs3 & Hsub3 & Hh3)|];
      [done|done|by apply (record_inPlay _ _ Hser); eapply covers_node|done| | |by right].
    { exists h. split; [done|]. intros j Hj Hbit. rewrite Hsl2, Hsl1 by done. rewrite list.Forall_forall in Hall.
      apply Hall; [apply elem_of_seq; lia|]. rewrite <- Hb1. done. }
    assert (Hty : Forall (entryTyped seq mt) (es ++ [mkEntry (hash n2) b seq mt])).
    { apply Forall_app. split; [done|]. constructor; [|constructor]. exact (node_entry seq mt (MInner n2) b Hsd2 Hser). }
    left. exists (MInner n2), (es ++ [mkEntry (hash n2) b seq mt]). rewrite putEntries_app. cbn [nodeHash] in *.
    rewrite He2, He1 in *. split_and!; try done; [by eauto|by destruct es| |by etrans].
    intros s0 [_ Hb0]. split; [intros Hcl; change (dirty n1 = false) in Hcl; change (dirty n = true) in Hd; congruence|].
    intros j Hj. apply (updateHashDeep_backed s0 h n1 j); [apply Hp1|done|]. by apply Hk1.
  - cbn [SerializeWithPrefix]. destruct (store_record s h (MLeaf l) (leafWithPrefix l)) as [(Hs3 & Hsub3 & Hh3)|];
      [done|done|exact (covers_node _ _ _ _ _ Hr Hv)|done|done| |by right].
    left. eexists (MLeaf l), [_]. split_and!; try done. constructor; [by apply (node_entry seq mt (MLeaf l))|constructor].
Qed.

(** ** After the store has accepted *)

(** Everything below a held node is held. *)
Lemma held_backed fam s h d n m :
  rep fam h d n m -> covers h d m -> filed s -> holds s h (nodeHash n) -> backed s h n \/ broken.
Proof.
  intros Hr Hv Hs. revert d n m Hr Hv. induction h as [|h IH]; intros d [n|l] m Hr Hv Hh; [done|by left| |by left].
  pose proof Hr as [Hp _]%preRep_rep. cbn [nodeHash] in Hh.
  destruct (holds_branches _ _ _ _ _ _ Hr Hv Hs Hh) as [(b & i & _ & _ & _ & _ & _ & _ & Hch)|]; [|by right].
  destruct (all_or_broken (branchBacked s h n) 16) as [Ha|]; [| |by right].
  - intros j Hj. unfold branchBacked.
    destruct (branch_view _ _ _ _ _ _ Hp Hj) as [(Hbit & c & Hread & Hc & _ & Hrc)|(-> & _)]; [|by left].
    specialize (Hch j Hj Hbit). unfold slot, slotHash in Hch. unfold slot, readSlot in Hread. rewrite Hbit in *.
    destruct (childAt n (Z.of_nat j)) as [c'|]; [|by left]. injection Hread as ->.
    destruct (IH _ _ _ Hrc); [by eapply covers_sub|exact Hch|by left|by right].
  - left. by split.
Qed.

Lemma markStored_hash fuel rel n : nodeHash (markStored fuel rel n) = nodeHash n.
Proof. destruct fuel; [done|]. cbn [markStored]. destruct (negb _); [done|]. destruct n as [n|l]; [|done]. by destruct rel. Qed.

Lemma markStored_inner fuel rel n : exists n', markStored fuel rel (MInner n) = MInner n' /\ (fuel <> O -> dirty n' = false).
Proof.
  destruct fuel as [|fuel]; [by exists n|]. cbn [markStored nodeDirty]. destruct (dirty n) eqn:Hd; cbn [negb]; [|by exists n].
  eexists. split; [done|]. by destruct rel.
Qed.

Lemma kept_slot {f : mapNode -> mapNode} n d j :
  shaped n -> (j < 16)%nat ->
  slot (mkInner (hash n) d (isBranch n) (hashes n) (map (option_map f) (children n))) j =
  (hasBit (isBranch n) (Z.of_nat j), hashAt n (Z.of_nat j), option_map f (childAt n (Z.of_nat j))).
Proof.
  intros (_ & _ & Hc) Hj. unfold slot, hashAt, childAt. cbn [isBranch hashes children]. rewrite Nat2Z.id. f_equal.
  apply (list_lookup_total_fmap (option_map f) (children n)). lia.
Qed.

(** Marking nodes clean, and releasing their children, keeps the contents as
    long as the store has them. *)
Lemma markStored_rep fam s fuel rel h d n m :
  rep fam h d n m -> within fam s -> txKeyed m -> covers h d m -> filed s -> holds s h (nodeHash n) ->
  rep (Some (famOf s)) h d (markStored fuel rel n) m \/ broken.
Proof.
  intros Hr Hw Ht Hv Hs. revert h d n m Hr Ht Hv. induction fuel as [|fuel IH]; intros h d n m Hr Ht Hv Hh; cbn [markStored].
  { left. by apply (rep_within fam). }
  destruct (nodeDirty n); cbn [negb]; [|left; by apply (rep_within fam)].
  destruct n as [n|l]; [|left; by apply rep_leaf in Hr; apply rep_leaf].
  destruct h as [|h]; [done|]. pose proof Hr as [Hp Hsz]%preRep_rep. cbn [nodeHash] in Hh.
  destruct (holds_branches _ _ _ _ _ _ Hr Hv Hs Hh) as [(b & i & _ & _ & _ & _ & _ & _ & Hch)|]; [|by right].
  set (n1 := mkInner (hash n) false (isBranch n) (hashes n) (map (option_map (markStored fuel rel)) (children n))).
  set (n2 := if rel then ReleaseChildren n1 else n1).
  pose proof Hp as (Hsh & Hhd & Hk & Hsl).
  assert (Hslot : forall j, (j < 16)%nat -> slot n2 j = (hasBit (isBranch n) (Z.of_nat j), hashAt n (Z.of_nat j),
    if rel then None else option_map (markStored fuel rel) (childAt n (Z.of_nat j)))).
  { intros j Hj. unfold n2. destruct rel; [|by apply kept_slot]. unfold slot, childAt. cbn [children ReleaseChildren isBranch].
    rewrite Nat2Z.id. rewrite lookup_total_replicate_2 by done. done. }
  assert (Hhash : forall j, (j < 16)%nat -> slotHash (slot n2 j) = slotHash (slot n j)).
  { intros j Hj. rewrite Hslot by done. specialize (Hsl j Hj). unfold slot, slotHash in *.
    destruct (hasBit _ _); [|done]. destruct (childAt n (Z.of_nat j)) as [c|] eqn:Hc; [|by destruct rel].
    destruct Hsl as (c' & [= <-] & He & _). destruct rel; [done|]. apply markStored_hash. }
  destruct (all_or_broken (fun j => slotRep (Some (famOf s)) h (S d) (slot n2 j) (sub d j m)) 16) as [Ha|]; [| |by right].
  - intros j Hj. rewrite Hslot by done. specialize (Hch j Hj). rewrite <- Hhash, Hslot in Hch by done.
    destruct (branch_view _ _ _ _ _ _ Hp Hj) as [(Hbit & c & Hread & Hc & Hat & Hrc)|(Hbit & _ & Hem)].
    + specialize (Hch Hbit). rewrite Hbit, Hat in *. unfold slot, readSlot in Hread. cbn [slotHash] in Hch.
      set (kept := if rel then None else option_map (markStored fuel rel) (childAt n (Z.of_nat j))) in *.
      assert (Hkept : kept = None \/ kept = Some (markStored fuel rel c)).
      { unfold kept. destruct rel; [by left|]. destruct (childAt n (Z.of_nat j)); [|by left]. injection Hread as ->. by right. }
      destruct Hkept as [Hkept|Hkept]; rewrite Hkept in *.
      * destruct (reload fam s h (S d) c _ Hrc) as [(c' & Hrd & He' & Hr' & _)|];
          [by apply txKeyed_sub|by eapply covers_sub|done|done| |by right].
        left. exists c'. by split_and!.
      * rewrite markStored_hash in Hch.
        destruct (IH h (S d) c _ Hrc) as [Hr'|]; [by apply txKeyed_sub|by eapply covers_sub|done| |by right].
        left. eexists. split; [done|]. by rewrite markStored_hash.
    + left. specialize (Hsl j Hj). unfold slot in Hsl. rewrite Hbit in *. destruct Hsl as (-> & -> & _). by destruct rel.
  - left. apply preRep_rep. split; [|done]. apply (preRep_same fam _ _ _ n); try done.
    + destruct Hsh as (Hm & Hl & Hc). unfold n2, n1. destruct rel; (split; [done|]); (split; [done|]); cbn [children ReleaseChildren].
      * by rewrite length_replicate.
      * by rewrite length_map.
    + unfold n2. by destruct rel.
    + unfold n2. by destruct rel.
Qed.

(** ** The map over a store *)

(** The map's family reads the store as it is now. *)
Definition onStore (sm : SHAMap) (s : nodeStore) : SHAMap :=
  mkMap (root sm) (mapType sm) (state sm) (ledgerSeq sm) (cachedSize sm) (Some (famOf s)).

(** What a map and the store below it look like after a flush. *)
Record flushedTo (sm : SHAMap) (m : contents) (s : nodeStore) (sm' : SHAMap) (s' : nodeStore) : Prop := {
  flushed_filed : filed s';
  flushed_grows : s ⊆ s';
  flushed_rep : Rep (onStore sm' s') m;
  flushed_backed : backed s' 64 (MInner (root sm'));
  flushed_frame : sameButRoot sm sm';
  flushed_hash : hash (root sm') = hash (root sm);
  flushed_held : m <> ∅ -> dirty (root sm') = false /\ holds s' 64 (hash (root sm)) }.

Lemma storeDirty_ok sm m s rel :
  Rep sm m -> storable m -> covers 64 0 m -> backed s 64 (MInner (root sm)) -> filed s -> within (family sm) s ->
  (exists sm' o, storeDirty sm (fun es => inr (putEntries s es)) rel = (sm', inr o) /\ flushedTo sm m s sm' (default s o)) \/ broken.
Proof.
  intros Hr Hst Hv Hb Hs Hw. pose proof Hr as [Hp _]%preRep_rep. unfold storeDirty, IsEmpty.
  destruct (Z.eqb_spec (isBranch (root sm)) 0) as [H0|H0].
  { left. exists sm, None. split; [done|]. pose proof (mask_empty _ _ _ _ _ Hp H0) as ->.
    split; [exact Hs|reflexivity|exact (rep_within _ _ _ _ _ _ Hw Hr)|exact Hb|by destruct sm|reflexivity|done]. }
  pose proof (mask_nonempty _ _ _ _ _ Hp H0) as Hne.
  destruct (collect_ok (family sm) (ledgerSeq sm) (mapType sm) walkFuel 64 0 (MInner (root sm)) m s)
    as [(n' & es & Hc & He & Hr' & Hin & Hes & _ & _ & Hs' & Hsub & Hh)|];
    [exact Hr|exact Hst|exact Hne|exact Hv|exact Hb|exact Hs|unfold walkFuel; lia| |by right].
  destruct Hin as [r ->]; [by eexists|]. rewrite Hc. cbn [nodeHash nodeDirty] in *.
  destruct es as [|e es].
  - left. exists (setRoot sm r), None. split; [done|]. cbn [default] in *.
    destruct (dirty (root sm)) eqn:Hd; [by destruct (Hes eq_refl)|].
    assert (r = root sm) as ->. { cbn [collectDirtyNode walkFuel nodeDirty] in Hc. rewrite Hd in Hc. by injection Hc. }
    split; [exact Hs|reflexivity|exact (rep_within _ _ _ _ _ _ Hw Hr)|exact Hb|reflexivity|reflexivity|].
    intros _. split; [exact Hd|exact Hh].
  - set (s' := putEntries s (e :: es)) in *.
    assert (Hw' : within (family sm) s').
    { unfold within in *. destruct (family sm); [|done]. destruct Hw as (s0 & -> & Hs0). exists s0. split; [done|]. by etrans. }
    destruct (markStored_inner walkFuel rel r) as (r' & Hr1 & Hclean). rewrite Hr1.
    pose proof (markStored_hash walkFuel rel (MInner r)) as Hmh. rewrite Hr1 in Hmh. cbn [nodeHash] in Hmh.
    destruct (markStored_rep (family sm) s' walkFuel rel 64 0 (MInner r) m) as [Hm|];
      [exact Hr'|exact Hw'|apply Hst|exact Hv|exact Hs'| | |by right].
    { cbn [nodeHash]. by rewrite He. }
    rewrite Hr1 in Hm. destruct (held_backed _ s' 64 0 _ m Hm) as [Hbk|]; [exact Hv|exact Hs'| | |by right].
    { cbn [nodeHash]. by rewrite Hmh, He. }
    left. exists (setRoot sm r'), (Some s'). split; [done|]. cbn [default]. split; [exact Hs'|exact Hsub|exact Hm|exact Hbk|reflexivity|exact (eq_trans Hmh He)|].
    intros _. split; [by apply Hclean|exact Hh].
Qed.

(** A map is opened again from its root hash. *)
Lemma open_ok sm m s t :
  Rep sm m -> txKeyed m -> covers 64 0 m -> filed s -> holds s 64 (hash (root sm)) ->
  (exists sm', NewFromRootHash t (hash (root sm)) (Some (famOf s)) = inr sm' /\ Rep sm' m /\ hash (root sm') = hash (root sm) /\
     mapType sm' = t /\ state sm' = stateModifying) \/ broken.
Proof.
  intros Hr Ht Hv Hs Hh. destruct (reload _ _ _ _ _ _ Hr Ht Hv Hs Hh) as [(n' & Hread & He & Hr' & Hin)|]; [|by right].
  destruct Hin as [r ->]; [by eexists|]. left. pose proof (holds_zero _ _ _ Hh) as Hz. revert Hread.
  unfold readSlot, famOf, NewFromRootHash, isZeroHash. cbn [nodeHash] in *. rewrite bool_decide_eq_false_2 by done. cbn [negb orb].
  destruct (s !! hash (root sm)) as [b|]; [|done]. destruct (decodeAndVerifyPrefixNode b (hash (root sm))) as [|n]; [done|].
  intros [= ->]. eexists. split; [reflexivity|]. split; [exact Hr'|]. split; [exact He|]. by split.
Qed.

(** A store that refuses leaves the map as good as it was. *)
Lemma storeDirty_refused sm m s rel (e : Error) :
  Rep sm m -> storable m -> covers 64 0 m -> backed s 64 (MInner (root sm)) -> filed s -> m <> ∅ -> dirty (root sm) = true ->
  (exists sm', storeDirty sm (fun _ => (inl e : Result nodeStore)) rel = (sm', inl e) /\ Rep sm' m /\
     backed s 64 (MInner (root sm')) /\ sameButRoot sm sm' /\ hash (root sm') = hash (root sm)) \/ broken.
Proof.
  intros Hr Hst Hv Hb Hs Hne Hd. pose proof Hr as [Hp _]%preRep_rep. unfold storeDirty, IsEmpty.
  destruct (Z.eqb_spec (isBranch (root sm)) 0) as [H0|_]; [by destruct Hne; apply (mask_empty _ _ _ _ _ Hp)|].
  destruct (collect_ok (family sm) (ledgerSeq sm) (mapType sm) walkFuel 64 0 (MInner (root sm)) m s)
    as [(n' & es & Hc & He & Hr' & Hin & Hes & _ & Hk & _)|];
    [exact Hr|exact Hst|exact Hne|exact Hv|exact Hb|exact Hs|unfold walkFuel; lia| |by right].
  destruct Hin as [r ->]; [by eexists|]. rewrite Hc. specialize (Hes Hd). destruct es; [done|]. left. exists (setRoot sm r).
  split; [reflexivity|]. split; [exact Hr'|]. split; [exact (Hk s Hb)|]. by split.
Qed.

Lemma flush_entries sm m s rel :
  Rep sm m -> storable m -> covers 64 0 m -> backed s 64 (MInner (root sm)) -> filed s ->
  (exists sm' o, storeDirty sm (fun es => inr es) rel = (sm', inr o) /\
     Forall (entryTyped (ledgerSeq sm) (mapType sm)) (default [] o) /\
     (m <> ∅ -> holds (putEntries s (default [] o)) 64 (hash (root sm)))) \/ broken.
Proof.
  intros Hr Hst Hv Hb Hs. pose proof Hr as [Hp _]%preRep_rep. unfold storeDirty, IsEmpty.
  destruct (Z.eqb_spec (isBranch (root sm)) 0) as [H0|H0].
  { left. exists sm, None. split; [done|]. split; [constructor|]. pose proof (mask_empty _ _ _ _ _ Hp H0) as ->. done. }
  pose proof (mask_nonempty _ _ _ _ _ Hp H0) as Hne.
  destruct (collect_ok (family sm) (ledgerSeq sm) (mapType sm) walkFuel 64 0 (MInner (root sm)) m s)
    as [(n' & es & Hc & He & Hr' & Hin & Hes & Hty & _ & _ & _ & Hh)|];
    [exact Hr|exact Hst|exact Hne|exact Hv|exact Hb|exact Hs|unfold walkFuel; lia| |by right].
  destruct Hin as [r ->]; [by eexists|]. rewrite Hc. left. destruct (markStored_inner walkFuel rel r) as (r' & Hr1 & _). rewrite Hr1.
  destruct es as [|e es]; eexists _, _; (split; [reflexivity|]); (split; [exact Hty|]); intros _; exact Hh.
Qed.

End Store.

Section Flush.
Context `{Hasher}.

(** What was hashed for the records of a store. *)
Definition records (s : nodeStore) : list bytes := (map_to_list s).*2.

Lemma honest_filed s l : honest s -> records s ⊆ l -> @filed _ (fun x => x ∈ l) s.
Proof.
  intros Hs Hl h b Hb. destruct (Hs _ _ Hb) as [Hby He]. split; [done|]. split; [done|]. apply Hl, list_elem_of_fmap.
  exists (h, b). split; [done|]. by apply elem_of_map_to_list.
Qed.

(** C39: What a flush hands to the store is well typed and enough: every entry is
    the record of a node, filed under the hash of its bytes, with the map's
    ledger sequence and type, and a store that files the entries holds the whole
    tree, as long as among what was hashed for the tree and the records of the
    store no two inputs have one hash and none hashes to zero. *)
Theorem StoreDirty_entries_typed sm m s rel :
  Rep sm m -> storable m -> backed s 64 (MInner (root sm)) -> honest s -> collisionFree (inputs 64 0 m ++ records s) ->
  exists sm' o, storeDirty sm (fun es => inr es) rel = (sm', inr o) /\
     Forall (entryTyped (ledgerSeq sm) (mapType sm)) (default [] o) /\
     (m <> ∅ -> holds (putEntries s (default [] o)) 64 (hash (root sm))).
Proof.
  intros Hr Hst Hb Hs Hcf. set (known := (fun x => x ∈ inputs 64 0 m ++ records s) : InPlay).
  destruct (flush_entries sm m s rel Hr Hst) as [Hf|Hbr]; [..|exact Hf|by apply collisionFree_not_broken in Hbr].
  - apply covers_in, list_subseteq_app_l. reflexivity.
  - exact Hb.
  - apply honest_filed; [exact Hs|]. apply list_subseteq_app_r. reflexivity.
Qed.

(** A store that refuses a flush loses nothing: the error is passed on, the
    map keeps its contents and root hash, and the next flush that is accepted
    still stores the whole tree (no collision among what was hashed for the tree
    and the records of the store). *)
Theorem StoreDirty_refused sm m s rel rel' (e : Error) :
  Rep sm m -> storable m -> backed s 64 (MInner (root sm)) -> honest s -> collisionFree (inputs 64 0 m ++ records s) ->
  within (family sm) s -> m <> ∅ -> dirty (root sm) = true ->
  exists sm' sm'' o,
     storeDirty sm (fun _ => (inl e : Result nodeStore)) rel = (sm', inl e) /\ Rep sm' m /\ sameButRoot sm sm' /\
     storeDirty sm' (fun es => inr (putEntries s es)) rel' = (sm'', inr o) /\
     Rep (onStore sm'' (default s o)) m /\ holds (default s o) 64 (hash (root sm)).
Proof.
  intros Hr Hst Hb Hh Hcf Hw Hne Hd. set (known := (fun x => x ∈ inputs 64 0 m ++ records s) : InPlay).
  assert (Hv : covers 64 0 m) by (apply covers_in, list_subseteq_app_l; reflexivity).
  assert (Hs : filed s) by (apply honest_filed; [exact Hh|apply list_subseteq_app_r; reflexivity]).
  destruct (storeDirty_refused sm m s rel e Hr Hst Hv Hb Hs Hne Hd) as [(sm' & Href & Hr' & Hb' & Hsame & He)|Hbr];
    [|by apply collisionFree_not_broken in Hbr].
  assert (Hw' : within (family sm') s) by (unfold sameButRoot in Hsame; rewrite Hsame; exact Hw).
  destruct (storeDirty_ok sm' m s rel' Hr' Hst Hv Hb' Hs Hw') as [(sm'' & o & Hok & Hf)|Hbr];
    [|by apply collisionFree_not_broken in Hbr].
  exists sm', sm'', o. split; [exact Href|]. split; [exact Hr'|]. split; [exact Hsame|]. split; [exact Hok|].
  split; [exact (flushed_rep _ _ _ _ _ Hf)|]. rewrite <- He. exact (proj2 (flushed_held _ _ _ _ _ Hf Hne)).
Qed.

End Flush.

(** ** Instances *)

#[local] Existing Instance exampleHasher.

Lemma oneItemMap_backed : backed ∅ 64 (MInner (root oneItemMap)).
Proof.
  split; [discriminate|]. intros j Hj. destruct j as [|j]; [intros _; split; [discriminate|exact I]|].
  do 15 (destruct j as [|j]; [intros Hb; discriminate Hb|]). lia.
Qed.

Lemma oneItem_collisionFree : collisionFree (inputs 64 0 {[key1 := (leafAccountState, data1)]} ++ records ∅).
Proof. apply (bool_decide_unpack (collisionFree _)). vm_compute. exact I. Qed.

Lemma StoreDirty_entries_typed_witness :
  exists sm' o, storeDirty oneItemMap (fun es => inr es) true = (sm', inr o) /\
     Forall (entryTyped 0 TypeState) (default [] o) /\ holds (putEntries ∅ (default [] o)) 64 (hash (root oneItemMap)).
Proof.
  destruct (StoreDirty_entries_typed oneItemMap _ ∅ true oneItemMap_rep one_storable oneItemMap_backed (map_Forall_empty _) oneItem_collisionFree)
    as (sm' & o & Hs & Hty & Hh). exists sm', o. split; [exact Hs|]. split; [exact Hty|]. apply Hh, map_non_empty_singleton.
Defined.

Lemma StoreDirty_refused_witness :
  exists sm', fst (storeDirty oneItemMap (fun _ => (inl errFetch : Result nodeStore)) true) = sm' /\
     Rep sm' {[key1 := (leafAccountState, data1)]}.
Proof.
  destruct (StoreDirty_refused oneItemMap _ ∅ true false errFetch oneItemMap_rep one_storable oneItemMap_backed (map_Forall_empty _)
    oneItem_collisionFree I) as (sm' & sm'' & o & Hs & Hr & _).
  - apply map_non_empty_singleton.
  - reflexivity.
  - exists sm'. split; [rewrite Hs; reflexivity|exact Hr].
Defined.

End ShaMapStore.
