(* ===== verification/ShaMapSession.v ===== *)
(** * State tree: a map over its store

    A map is changed, flushed and opened again many times over. The invariant
    that ties the tree in memory to the store is [backed]: whatever is not marked
    dirty, or not in memory, is in the store. Every operation keeps it, so that
    whatever was done to a map, its next flush leaves a store from which the root
    hash alone brings the contents back. *)

From Stdlib Require Import ZArith Lia.
From stdpp Require Import base list numbers option gmap fin_maps.
From S2P Require Import Prelude Sha512 ShaMapKey ShaMapNode ShaMapCodec ShaMap ShaMapRefine ShaMapHash ShaMapProof ShaMapStore.

Import ShaMapKey ShaMapNode ShaMapCodec ShaMap ShaMapRefine ShaMapHash ShaMapProof ShaMapStore.

Module ShaMapSession.

Section Session.
Context `{Hasher} {known : InPlay}.

(** ** Reading and rebuilding a path *)

Lemma read_backed fam s h n i c :
  within fam s -> filed s -> (i < 16)%nat -> branchBacked s h n i -> hasBit (isBranch n) (Z.of_nat i) = true ->
  readSlot fam (slot n i) = inr (Some c) -> backed s h c.
Proof.
  intros Hw Hs Hi Hb Hbit Hread. apply (within_read _ _ _ _ Hw) in Hread. specialize (Hb Hbit).
  unfold slot, readSlot, famOf in Hread. destruct (childAt n (Z.of_nat i)) as [c'|]; [by injection Hread as ->|].
  rewrite Hbit in Hread. set (hh := hashAt n (Z.of_nat i)) in *. pose proof Hb as (Hz & b & w & Hl & Hd & Hn)%holds_record.
  unfold isZeroHash in Hread. rewrite bool_decide_eq_false_2, Hl, Hd in Hread by done. injection Hread as ->.
  destruct (verified_preimage b hh c) as (He & Hst & _); [apply (Hs _ _ Hl)|done|].
  destruct c as [w|l]; [|destruct h; (split; [|done]); by rewrite He].
  destruct h as [|h]; [done|]. split; [intros _; by rewrite He|].
  intros j Hj Hbj. pose proof (stub_slot w j Hj Hst) as Hsl. unfold slot at 1 in Hsl. apply pair_equal_spec in Hsl as [_ Hc].
  rewrite Hc. by apply Hn.
Qed.

Lemma backed_inner s h n : (forall j, (j < 16)%nat -> branchBacked s h n j) -> dirty n = true -> backed s (S h) (MInner n).
Proof. intros Hb Hd. split; [cbn; congruence|done]. Qed.

Lemma SetChild_backed s h n index c n' :
  SetChild n index c = inr n' -> shaped n -> (forall j, (j < 16)%nat -> branchBacked s h n j) ->
  (forall c', c = Some c' -> backed s h c') -> shaped n' /\ (forall j, (j < 16)%nat -> branchBacked s h n' j) /\ backed s (S h) (MInner n').
Proof.
  intros Hset Hsh Hb Hc. assert (Hr : outOfRange index = false).
  { unfold SetChild in Hset. by destruct (outOfRange index). }
  unfold outOfRange, BranchFactor in Hr. apply orb_false_iff in Hr as [H1%Z.ltb_ge H2%Z.leb_gt].
  replace index with (Z.of_nat (Z.to_nat index)) in Hset by lia.
  destruct (SetChild_spec n (Z.to_nat index) c Hsh) as (n1 & Hset' & Hsh' & _ & Hd & Heq & Hne); [lia|].
  rewrite Hset in Hset'. apply (f_equal (fun r => match r with inr x => x | inl _ => n' end)) in Hset'. cbv beta iota in Hset'. subst n1.
  assert (Hb' : forall j, (j < 16)%nat -> branchBacked s h n' j).
  { intros j Hj. destruct (decide (j = Z.to_nat index)) as [->|Hji].
    - unfold branchBacked. unfold slot in Heq. apply pair_equal_spec in Heq as [[-> ->]%pair_equal_spec ->].
      destruct c as [c|]; [|done]. intros _. by apply Hc.
    - eapply branchBacked_mono; [reflexivity|by apply Hne|by apply Hb]. }
  split; [done|]. split; [done|]. by apply backed_inner.
Qed.

(** Every inner node on the stack, the deepest first, is backed. *)
Fixpoint stackBacked (s : nodeStore) (h : nat) (stk : nodeStack) : Prop :=
  match stk with
  | [] => True
  | (MLeaf _, _) :: _ => False
  | (MInner n, _) :: stk => shaped n /\ (forall j, (j < 16)%nat -> branchBacked s h n j) /\ stackBacked s (S h) stk
  end.

Lemma stackBacked_snoc s h stk n nid :
  stackBacked s h stk -> shaped n -> (forall j, (j < 16)%nat -> branchBacked s (h + length stk) n j) ->
  stackBacked s h (stk ++ [(MInner n, nid)]).
Proof.
  revert h. induction stk as [|[[n'|l] nid'] stk IH]; intros h Hst Hsh Hb; [|split_and!; try apply Hst|done].
  - rewrite Nat.add_0_r in Hb. by split_and!; try apply Hsh.
  - apply IH; [apply Hst|done|]. intros j Hj. replace (S h + length stk)%nat with (h + length ((MInner n', nid') :: stk))%nat by (cbn; lia).
    by apply Hb.
Qed.

Lemma descent_backed fam s k h d n m stk r hb db mb :
  descent fam k h d n m stk r hb db mb -> within fam s -> filed s -> is_key k -> covers h d m -> backed s h n ->
  stackBacked s hb stk /\ (forall l, r = Some l -> backed s hb (MLeaf l) /\ nodeInPlay (MLeaf l)) /\ h = (hb + length stk)%nat.
Proof.
  induction 1 as [h d l m Hr|h d n m Hr Hb|h d n m c stk r hb db mb Hr Hb Hc Hd IH]; intros Hw Hs Hk Hv Hbk.
  - split_and!; [done| |cbn; lia]. intros l' [= <-]. split; [done|]. exact (covers_node _ _ _ _ _ Hr Hv).
  - apply preRep_rep in Hr as [Hp _]. destruct Hbk as [_ Hbk]. split; [|split; [done|cbn; lia]].
    split; [apply Hp|]. split; [exact Hbk|done].
  - pose proof Hr as [Hp _]%preRep_rep. destruct Hbk as [_ Hbk].
    destruct IH as (Hst & Hl & He); [done|done|done|by eapply covers_sub; [|apply nibble_lt|]| |].
    { eapply read_backed; [done|done|exact (nibble_lt k d Hk)|exact (Hbk _ (nibble_lt k d Hk))|done|done]. }
    split; [|split; [done|rewrite length_app; cbn [length]; lia]].
    apply stackBacked_snoc; [done|apply Hp|]. rewrite <- He. exact Hbk.
Qed.

Lemma dirtyLoop_backed s h stk k c n :
  stackBacked s h stk -> backed s h c -> dirtyLoop stk k c = inr n -> backed s (h + length stk) n.
Proof.
  revert h c. induction stk as [|[[n'|l] nid] stk IH]; intros h c Hst Hc; cbn [dirtyLoop]; [|destruct Hst as (Hsh & Hb & Hst)|done].
  { intros [= <-]. cbn [length]. by rewrite Nat.add_0_r. }
  destruct (SetChild _ _ _) as [|n1] eqn:Hset; [done|].
  destruct (SetChild_backed s h _ _ _ _ Hset Hsh Hb) as (_ & _ & Hn1); [by intros c' [= <-]|].
  intros Hl. specialize (IH (S h) (MInner n1) Hst Hn1 Hl). cbn [length]. by rewrite Nat.add_succ_r.
Qed.

Lemma newLeaf_backed s h kd it l : newLeafNode kd it = inr l -> backed s h (MLeaf l).
Proof. unfold newLeafNode. destruct (_ <? _); [done|]. intros [= <-]. by destruct h. Qed.

Lemma createLeaf_backed s h nt it l : createLeafNode nt it = inr l -> backed s h (MLeaf l).
Proof. destruct nt; [done|..]; apply newLeaf_backed. Qed.

Lemma consolidateLoop_backed sm s h stk k prev r n :
  stackBacked s h stk -> (forall c, prev = Some c -> backed s h c) -> consolidateLoop sm stk k prev = inr r -> r = Some n ->
  backed s (h + length stk) n.
Proof.
  revert h prev. induction stk as [|[[n'|l] nid] stk IH]; intros h prev Hst Hc; cbn [consolidateLoop];
    [|destruct Hst as (Hsh & Hb & Hst)|done].
  { intros [= <-] Hp. cbn [length]. rewrite Nat.add_0_r. by apply Hc. }
  destruct (SetChild _ _ _) as [|n1] eqn:Hset; [done|].
  destruct (SetChild_backed s h _ _ _ _ Hset Hsh Hb Hc) as (_ & _ & Hn1).
  cbn [length]. rewrite Nat.add_succ_r.
  assert (Hkeep : forall c, Some (MInner n1) = Some c -> backed s (S h) c) by by intros c [= <-].
  destruct (negb (IsRoot nid)); [|by apply (IH (S h))].
  destruct (BranchCount n1 =? 0); [by apply (IH (S h))|].
  destruct (BranchCount n1 =? 1); [|by apply (IH (S h))].
  destruct (onlyBelow _ _ _) as [|[it|]]; [done| |by apply (IH (S h))].
  destruct (createLeafNode _ it) as [|nl] eqn:Hnl; [done|]. apply (IH (S h)); [done|].
  intros c [= <-]. by eapply createLeaf_backed.
Qed.

(** ** Splitting a leaf *)

Lemma newInner_backed s h j : (j < 16)%nat -> branchBacked s h newInnerNode j.
Proof. intros Hj. unfold branchBacked. by rewrite newInnerNode_empty. Qed.

(** A leaf can be looked up at any level. *)
Lemma leaf_backed s h h' l : wfLeaf l -> filed s -> nodeInPlay (MLeaf l) -> backed s h (MLeaf l) -> backed s h' (MLeaf l) \/ broken.
Proof.
  intros (_ & _ & _ & Hl) Hs Hin Hb. destruct (ldirty l) eqn:Hd; [left; destruct h'; (split; [cbn; congruence|done])|].
  pose proof (backed_clean _ _ _ Hb Hd) as Hh. cbn [nodeHash] in Hh. apply holds_record in Hh as (Hz & b & w & Hlk & Hdec & _).
  pose proof (Hs _ _ Hlk) as (Hby & _ & Hib). pose proof Hdec as Hv. apply verified_preimage in Hv as (He & _ & Hcase); [|done].
  destruct w as [i|l'].
  - destruct Hcase as [(i' & _ & _ & Hzero)|((_ & Hh & _) & Hser & _)]; [done|]. apply (record_inPlay _ _ Hser) in Hib.
    right. by eapply (inner_leaf_broken i l).
  - left. assert (Hh : holds s h' (lhash l)) by (apply holds_record; split; [done|]; by exists b, (MLeaf l')).
    destruct h'; (split; [by intros _|done]).
Qed.

Lemma chain_backed s h n k d chain deepest top :
  chainDown n k d = inr chain -> refreshChain chain k d deepest = inr top ->
  backed s h (MInner deepest) -> backed s (h + n) (MInner top).
Proof.
  revert d chain top. induction n as [|n IH]; intros d chain top; cbn [chainDown].
  { intros [= <-]. cbn [refreshChain]. intros [= <-]. by rewrite Nat.add_0_r. }
  destruct (SetChild newInnerNode _ _) as [|t0] eqn:Hset; [done|]. destruct (chainDown n k (d + 1)) as [|rest] eqn:Hrest; [done|].
  intros [= <-]. cbn [refreshChain]. destruct (refreshChain rest k (d + 1) deepest) as [|child] eqn:Hch; [done|].
  intros Hset1 Hb. specialize (IH _ _ _ Hrest Hch Hb). rewrite Nat.add_succ_r.
  destruct (SetChild_backed s (h + n) _ _ _ _ Hset newInnerNode_shaped (newInner_backed s _)) as (Hsh0 & Hb0 & _).
  { intros c [= <-]. destruct (h + n)%nat; (split; [done|]); [done|]. exact (newInner_backed s n0). }
  by destruct (SetChild_backed s (h + n) _ _ _ _ Hset1 Hsh0 Hb0) as (_ & _ & Ht); [by intros c [= <-]|].
Qed.

Lemma split_backed s h d k nl l top :
  wfLeaf nl -> key (item nl) = k -> wfLeaf l -> k <> key (item l) -> samePrefix d k (key (item l)) -> (h + d = 64)%nat ->
  filed s -> nodeInPlay (MLeaf l) -> (forall h, backed s h (MLeaf nl)) -> backed s h (MLeaf l) -> splitLeaves k nl l (Z.of_nat d) = inr top ->
  backed s h (MInner top) \/ broken.
Proof.
  intros H1 <- H2 Hne Hp Hhd Hs Hin Hnl Hl. unfold splitLeaves.
  destruct (findSplitDepth_spec _ _ d (proj1 H1) (proj1 H2) Hne Hp ltac:(lia)) as (sd & -> & Hsd & _ & _).
  destruct (leaf_backed s h (63 - sd) l H2 Hs Hin Hl) as [Hl'|]; [|by right].
  destruct (chainDown _ _ _) as [|chain] eqn:Hc; [done|].
  destruct (SetChild newInnerNode _ _) as [|n1] eqn:Hset1; [done|]. destruct (SetChild n1 _ _) as [|n2] eqn:Hset2; [done|].
  destruct (SetChild_backed s (63 - sd) _ _ _ _ Hset1 newInnerNode_shaped (newInner_backed s _))
    as (Hsh1 & Hb1 & _); [by intros c [= <-]|].
  destruct (SetChild_backed s (63 - sd) _ _ _ _ Hset2 Hsh1 Hb1) as (_ & _ & Hb2); [by intros c [= <-]|].
  intros Ht. left. pose proof (chain_backed s _ _ _ _ _ _ _ Hc Ht Hb2) as Hb.
  by replace (S (63 - sd) + Z.to_nat (Z.of_nat sd - Z.of_nat d))%nat with h in Hb by lia.
Qed.

(** ** The operations *)

Lemma dirtyLoop_inner stk k c n : dirtyLoop stk k c = inr n -> stk <> [] -> exists i, n = MInner i.
Proof.
  revert c. induction stk as [|[[n'|l] nid] stk IH]; intros c; cbn [dirtyLoop]; [done| |done].
  destruct (SetChild _ _ _) as [|n1]; [done|]. intros Hl _. destruct stk as [|e stk]; [|by eapply IH].
  injection Hl as <-. by eexists.
Qed.

Lemma createLeaf_wf nt it l :
  createLeafNode nt it = inr l -> is_key (key it) -> all_bytes (data it) -> (12 <= length (data it))%nat -> wfLeaf l /\ item l = it.
Proof.
  intros Hc Hk Hd Hl. destruct nt; [done|..]; cbn [createLeafNode] in Hc;
    [destruct (newLeafNode_ok leafTransaction it Hk Hd Hl) as (l' & Hn & Hwf & Hit & _)
    |destruct (newLeafNode_ok leafTransactionWithMeta it Hk Hd Hl) as (l' & Hn & Hwf & Hit & _)
    |destruct (newLeafNode_ok leafAccountState it Hk Hd Hl) as (l' & Hn & Hwf & Hit & _)];
    rewrite Hc in Hn; by injection Hn as ->.
Qed.

Lemma put_backed sm m s k dt nt sm' :
  Rep sm m -> is_key k -> covers 64 0 m -> within (family sm) s -> filed s -> backed s 64 (MInner (root sm)) ->
  all_bytes dt -> (12 <= length dt)%nat ->
  putItemWithNodeTypeUnsafe sm (mkItem k dt) nt = inr sm' -> backed s 64 (MInner (root sm')) \/ broken.
Proof.
  intros Hr Hk Hv Hw Hs Hb Hdt Hlen. unfold putItemWithNodeTypeUnsafe. cbn [key].
  destruct (walkToKey_rep sm m k false Hr Hk) as (stk & r & hb & db & mb & -> & Hd).
  destruct (descent_backed _ s _ _ _ _ _ _ _ _ _ _ Hd Hw Hs Hk Hv Hb) as (Hst & Hl & He).
  pose proof (descent_bottom _ _ _ _ _ _ _ _ _ _ _ Hd) as Hbot.
  pose proof (descent_depth _ _ _ _ _ _ _ _ _ _ _ Hd) as [Hdb Hhb].
  pose proof (descent_under _ _ _ _ _ _ _ _ _ _ _ Hd (under_0 k m)) as Hun.
  assert (Hup : forall c, backed s hb c -> (let? newRoot := dirtyUp sm stk k c in assignRoot sm newRoot k) = inr sm' ->
    backed s 64 (MInner (root sm'))).
  { intros c Hc. unfold dirtyUp. destruct (state sm); try done.
    all: destruct (dirtyLoop stk k c) as [|[n|l]] eqn:Hdl; try done; pose proof (dirtyLoop_backed _ _ _ _ _ _ Hst Hc Hdl) as Hn;
      rewrite <- He in Hn; cbn [assignRoot].
    1,3: by intros [= <-].
    all: apply dirtyLoop_inner in Hdl as [i [=]]; by eapply descent_inner. }
  destruct r as [l|]; cbn [fmap option_fmap option_map].
  2:{ destruct (createLeafNode nt _) as [|nl] eqn:Hnl; [done|]. intros Hput. left. eapply Hup, Hput. by eapply createLeaf_backed. }
  destruct Hbot as [Hwl ->]. case_bool_decide as Hkl; (destruct (createLeafNode nt _) as [|nl] eqn:Hnl; [done|]).
  { intros Hput. left. eapply Hup, Hput. by eapply createLeaf_backed. }
  destruct (splitLeaves _ _ _ _) as [|top] eqn:Hsplit; [done|]. intros Hput.
  unfold under, leafContents in Hun. rewrite map_Forall_singleton in Hun.
  destruct (createLeaf_wf _ _ _ Hnl Hk Hdt Hlen) as [Hwf Hit].
  destruct (split_backed s hb db k nl l top) as [Ht|]; try done.
  - by rewrite Hit.
  - by apply samePrefix_sym.
  - by apply Hl.
  - intros h. by eapply createLeaf_backed.
  - by apply Hl.
  - by replace (length stk) with db in Hsplit by lia.
  - left. by eapply Hup, Hput.
  - by right.
Qed.

Lemma delete_backed sm m s k sm' :
  Rep sm m -> is_key k -> covers 64 0 m -> within (family sm) s -> filed s -> backed s 64 (MInner (root sm)) ->
  Delete sm k = inr sm' -> backed s 64 (MInner (root sm')).
Proof.
  intros Hr Hk Hv Hw Hs Hb. unfold Delete, findAndRemoveLeaf. destruct (negb (bool_decide (state sm = _))); [done|].
  destruct (walkToKey_rep sm m k true Hr Hk) as (stk & r & hb & db & mb & -> & Hd). cbn [snd].
  destruct (descent_backed _ s _ _ _ _ _ _ _ _ _ _ Hd Hw Hs Hk Hv Hb) as (Hst & Hl & He).
  destruct r as [l|].
  2:{ by destruct stk as [|[[n|l] nid] stk]. }
  destruct (negb _); [done|]. unfold consolidateAfterDelete. destruct (consolidateLoop sm stk k None) as [|[n|]] eqn:Hc; try done.
  destruct n as [n|]; [|done]. intros [= <-]. cbn [root setRoot].
  pose proof (consolidateLoop_backed sm s hb stk k None _ _ Hst ltac:(done) Hc eq_refl) as Hn. by rewrite <- He in Hn.
Qed.

(** ** Sessions *)

(** What is done to a map: changes, flushes the store accepts or refuses, and
    restarts, which flush and open the map again from its root hash. *)
Inductive op :=
  | DoPut (k dt : bytes)
  | DoPutAll (items : list (option Item))
  | DoDelete (k : bytes)
  | DoFlush (release : bool)
  | DoRefused (release : bool) (e : Error)
  | DoRestart.

Definition flush (release : bool) (st : SHAMap * nodeStore) : SHAMap * nodeStore :=
  match storeDirty (fst st) (fun es => inr (putEntries (snd st) es)) release with
  | (sm, inr o) => (onStore sm (default (snd st) o), default (snd st) o)
  | (sm, inl _) => (sm, snd st)
  end.

Definition orElse {A} (r : Result A) (a : A) : A := match r with inr x => x | inl _ => a end.

Definition exec (st : SHAMap * nodeStore) (o : op) : SHAMap * nodeStore :=
  let '(sm, s) := st in
  match o with
  | DoPut k dt => (orElse (Put sm k dt) sm, s)
  | DoPutAll items => (orElse (PutItemsAtomically sm items) sm, s)
  | DoDelete k => (orElse (Delete sm k) sm, s)
  | DoFlush release => flush release st
  | DoRefused release e => (fst (storeDirty sm (fun _ => (inl e : Result nodeStore)) release), s)
  | DoRestart =>
      let '(sm, s) := flush true st in
      (orElse (NewFromRootHash (mapType sm) (hash (root sm)) (Some (famOf s))) sm, s)
  end.

(** The same on a finite map. *)
Definition effect (t : Type_) (m : contents) (o : op) : contents :=
  match o with
  | DoPut k dt => if Z.of_nat (length dt) <? 12 then m else insertItem (defaultKind t) m (mkItem k dt)
  | DoPutAll items => match firstError items with Some _ => m | None => insertAll (defaultKind t) m items end
  | DoDelete k => delete k m
  | _ => m
  end.

(** The contents the operation goes through: those a batch has item by item,
    up to the first that is refused. *)
Fixpoint batchSteps (kd : leafKind) (m : contents) (items : list (option Item)) : list contents :=
  match items with
  | Some it :: items =>
      if Z.of_nat (length (data it)) <? 12 then [] else insertItem kd m it :: batchSteps kd (insertItem kd m it) items
  | _ => []
  end.

Definition stepsOf (t : Type_) (m : contents) (o : op) : list contents :=
  match o with
  | DoPut k dt => [effect t m o]
  | DoPutAll items => batchSteps (defaultKind t) m items
  | DoDelete k => [effect t m o]
  | _ => []
  end.

Fixpoint contentsAlong (t : Type_) (m : contents) (ops : list op) : list contents :=
  match ops with [] => [] | o :: ops => stepsOf t m o ++ contentsAlong t (effect t m o) ops end.

(** Keys are 32 bytes; a transaction's is the hash of it, and no ledger object
    has the zero key. *)
Definition goodItem (t : Type_) (it : Item) : Prop :=
  is_key (key it) /\ all_bytes (data it) /\
  match t with
  | TypeState => key it <> zeroHash
  | TypeTransaction => key it = Hash (HashPrefixTransactionID ++ data it)
  end.

Definition goodOp (t : Type_) (o : op) : Prop :=
  match o with
  | DoPut k dt => goodItem t (mkItem k dt)
  | DoPutAll items => Forall (fun it => match it with Some it => goodItem t it | None => True end) items
  | DoDelete k => is_key k
  | _ => True
  end.

Record Session (t : Type_) (st : SHAMap * nodeStore) (m : contents) : Prop := {
  session_rep : Rep (fst st) m;
  session_type : mapType (fst st) = t;
  session_state : state (fst st) = stateModifying;
  session_family : family (fst st) = Some (famOf (snd st));
  session_filed : filed (snd st);
  session_covers : covers 64 0 m;
  session_backed : backed (snd st) 64 (MInner (root (fst st)));
  session_storable : storable m;
  session_uniform : uniform (defaultKind t) m }.

Lemma session_within t st m : Session t st m -> within (family (fst st)) (snd st).
Proof. intros Hs. unfold within. rewrite (session_family _ _ _ Hs). by exists (snd st). Qed.

Lemma goodItem_contents t m it :
  goodItem t it -> storable m -> uniform (defaultKind t) m ->
  storable (insertItem (defaultKind t) m it) /\ uniform (defaultKind t) (insertItem (defaultKind t) m it).
Proof.
  intros (Hk & Hd & Ht) [Htx Hz] Hu. unfold insertItem. split; [split|]; apply map_Forall_insert_2; try done; by destruct t.
Qed.

Lemma put_session t sm s m it :
  Session t (sm, s) m -> goodItem t it -> (12 <= length (data it))%nat -> covers 64 0 (insertItem (defaultKind t) m it) ->
  (exists sm', putItemUnsafe sm it = inr sm' /\ sameButRoot sm sm' /\ Session t (sm', s) (insertItem (defaultKind t) m it)) \/ broken.
Proof.
  intros HS Hg Hl Hv'. pose proof HS as [Hr Ht Hst Hf Hs Hv Hb Hsto Hu]. cbn [fst snd] in *. pose proof Hg as (Hk & Hd & _).
  unfold putItemUnsafe. destruct it as [k dt]. cbn [key data] in *.
  destruct (put_rep sm m k dt (defaultKind t) (getLeafNodeType sm) Hr Hk Hd Hl Hst) as (sm' & Hput & Hr' & Hsame).
  { intros it. rewrite createLeafNode_default. by rewrite Ht. }
  destruct (put_backed sm m s k dt (getLeafNodeType sm) sm' Hr Hk Hv (session_within _ _ _ HS) Hs Hb Hd Hl Hput) as [Hb'|]; [|by right].
  destruct (goodItem_contents t m (mkItem k dt) Hg Hsto Hu) as [Hsto' Hu'].
  left. exists sm'. split; [exact Hput|]. split; [exact Hsame|]. unfold sameButRoot in Hsame.
  split; cbn [fst snd]; [exact Hr'| | | |exact Hs|exact Hv'|exact Hb'|exact Hsto'|exact Hu']; rewrite Hsame; cbn; done.
Qed.

Lemma small_session t sm s m it :
  Session t (sm, s) m -> goodItem t it -> (length (data it) < 12)%nat -> putItemUnsafe sm it = inl errItemTooSmall.
Proof.
  intros HS (Hk & _) Hl. unfold putItemUnsafe. destruct it as [k dt]. apply (put_small sm m); [apply HS|done|done|].
  unfold getLeafNodeType. by destruct (mapType sm).
Qed.

Lemma putAll_session t sm s m items :
  Session t (sm, s) m -> Forall (fun it => match it with Some it => goodItem t it | None => True end) items ->
  Forall (covers 64 0) (batchSteps (defaultKind t) m items) ->
  match firstError items with
  | Some e => putAll sm items = inl e \/ broken
  | None => (exists sm', putAll sm items = inr sm' /\ sameButRoot sm sm' /\ Session t (sm', s) (insertAll (defaultKind t) m items)) \/ broken
  end.
Proof.
  revert sm m. induction items as [|[it|] items IH]; intros sm m HS Hg Hv.
  - left. exists sm. split; [done|]. split; [by destruct sm|done].
  - apply list.Forall_cons in Hg as [Hit Hg]. cbn [batchSteps] in Hv. cbn [firstError foldr putAll]. fold (firstError items).
    destruct (Z.ltb_spec (Z.of_nat (length (data it))) 12) as [Hl|Hl].
    { left. by rewrite (small_session t sm s m it HS Hit) by lia. }
    apply list.Forall_cons in Hv as [Hv1 Hv].
    destruct (put_session t sm s m it HS Hit) as [(sm1 & Hput & Hsame & HS1)|]; [lia|exact Hv1| |destruct (firstError items); by right].
    specialize (IH sm1 _ HS1 Hg Hv). rewrite Hput. destruct (firstError items) as [e|]; [done|].
    destruct IH as [(sm' & Hp & Hsame' & HS')|]; [|by right]. left. exists sm'. split; [done|]. split; [|done].
    unfold sameButRoot in *. rewrite Hsame', Hsame. done.
  - by left.
Qed.

(** A session is given by the tree, type, state and family. *)
Lemma session_ext t sm sm' s m :
  Session t (sm, s) m -> root sm' = root sm -> mapType sm' = mapType sm -> state sm' = state sm -> family sm' = family sm ->
  Session t (sm', s) m.
Proof.
  intros [Hr Ht Hst Hf Hs Hv Hb Hsto Hu] Er Et Es Ef. unfold Rep in Hr. cbn [fst snd] in *.
  split; cbn [fst snd]; unfold Rep; rewrite ?Er, ?Et, ?Es, ?Ef; assumption.
Qed.

Lemma putAtomic_session t sm s m items :
  Session t (sm, s) m -> Forall (fun it => match it with Some it => goodItem t it | None => True end) items ->
  Forall (covers 64 0) (batchSteps (defaultKind t) m items) ->
  match firstError items with
  | Some e => PutItemsAtomically sm items = inl e \/ broken
  | None => (exists sm', PutItemsAtomically sm items = inr sm' /\ Session t (sm', s) (insertAll (defaultKind t) m items)) \/ broken
  end.
Proof.
  intros HS Hg Hv. unfold PutItemsAtomically. pose proof (session_state _ _ _ HS) as Hst. cbn [fst] in Hst.
  rewrite bool_decide_eq_true_2 by done. cbn [negb]. unfold snapshotLocked. rewrite Hst. cbn [negb andb].
  set (staged := mkMap _ _ _ _ _ _). assert (HS' : Session t (staged, s) m) by by apply (session_ext t sm).
  pose proof (putAll_session t staged s m items HS' Hg Hv) as Hall. destruct (firstError items) as [e|].
  - destruct Hall as [->|]; [by left|by right].
  - destruct Hall as [(sm' & -> & Hsame & HS'')|]; [|by right]. left. eexists. split; [done|].
    eapply session_ext; [exact HS''|..]; unfold sameButRoot in Hsame; rewrite Hsame; done.
Qed.

Lemma storable_delete m k : storable m -> storable (delete k m).
Proof. intros [H1 H2]. split; by apply map_Forall_delete. Qed.

Lemma delete_session t sm s m k :
  Session t (sm, s) m -> is_key k -> covers 64 0 (delete k m) -> Session t (orElse (Delete sm k) sm, s) (delete k m).
Proof.
  intros HS Hk Hv'. pose proof HS as [Hr Ht Hst Hf Hs Hv Hb Hsto Hu]. cbn [fst snd] in *. destruct (m !! k) as [v|] eqn:Hmk.
  - destruct (delete_rep sm m k Hr Hk Hst) as (sm' & Hd & Hr' & Hsame); [by rewrite Ht|by eexists|].
    pose proof (delete_backed sm m s k sm' Hr Hk Hv (session_within _ _ _ HS) Hs Hb Hd) as Hb'. rewrite Hd. cbn [orElse].
    unfold sameButRoot in Hsame.
    split; cbn [fst snd]; [exact Hr'| | | |exact Hs|exact Hv'|exact Hb'|by apply storable_delete|by apply uniform_delete];
      rewrite Hsame; cbn; assumption.
  - rewrite (delete_absent sm m k Hr Hk Hst Hmk), delete_id by done. exact HS.
Qed.

Lemma flush_session t st m rel :
  Session t st m ->
  (Session t (flush rel st) m /\ snd st ⊆ snd (flush rel st) /\
   hash (root (fst (flush rel st))) = hash (root (fst st)) /\
   (m <> ∅ -> dirty (root (fst (flush rel st))) = false /\ holds (snd (flush rel st)) 64 (hash (root (fst st))))) \/ broken.
Proof.
  intros HS. pose proof HS as [Hr Ht Hst Hf Hs Hv Hb Hsto Hu].
  destruct (storeDirty_ok (fst st) m (snd st) rel Hr Hsto Hv Hb Hs (session_within _ _ _ HS)) as [(sm' & o & Hd & Hfl)|]; [|by right].
  left. unfold flush. rewrite Hd. cbn [fst snd]. destruct Hfl as [Hs' Hg Hr' Hb' Hsame Hh Hheld]. unfold sameButRoot in Hsame.
  split; [|split; [exact Hg|split; [exact Hh|exact Hheld]]].
  split; cbn [fst snd]; [exact Hr'| | |reflexivity|exact Hs'|exact Hv|exact Hb'|exact Hsto|exact Hu]; cbn; rewrite Hsame; assumption.
Qed.

Lemma refused_session t sm s m rel e :
  Session t (sm, s) m -> Session t (fst (storeDirty sm (fun _ => (inl e : Result nodeStore)) rel), s) m \/ broken.
Proof.
  intros HS. pose proof HS as [Hr Ht Hst Hf Hs Hv Hb Hsto Hu]. cbn [fst snd] in *. pose proof Hr as [Hp _]%preRep_rep.
  destruct (decide (isBranch (root sm) = 0)) as [H0|H0].
  { left. unfold storeDirty, IsEmpty. rewrite (proj2 (Z.eqb_eq _ _) H0). exact HS. }
  pose proof (mask_nonempty _ _ _ _ _ Hp H0) as Hne. destruct (dirty (root sm)) eqn:Hd.
  - destruct (storeDirty_refused sm m s rel e Hr Hsto Hv Hb Hs Hne Hd) as [(sm' & -> & Hr' & Hb' & Hsame & _)|]; [|by right].
    left. unfold sameButRoot in Hsame. cbn [fst].
    split; cbn [fst snd]; [exact Hr'| | | |exact Hs|exact Hv|exact Hb'|exact Hsto|exact Hu]; rewrite Hsame; cbn; assumption.
  - left. unfold storeDirty, IsEmpty. rewrite (proj2 (Z.eqb_neq _ _) H0). cbn [collectDirtyNode walkFuel nodeDirty].
    rewrite Hd. cbn [negb fst]. by apply (session_ext t sm).
Qed.

Lemma open_session t sm s m :
  Session t (sm, s) m -> holds s 64 (hash (root sm)) ->
  (exists sm', NewFromRootHash t (hash (root sm)) (Some (famOf s)) = inr sm' /\ Session t (sm', s) m) \/ broken.
Proof.
  intros [Hr Ht Hst Hf Hs Hv Hb Hsto Hu] Hh. cbn [fst snd] in *.
  destruct (open_ok sm m s t Hr (proj1 Hsto) Hv Hs Hh) as [(sm' & Ho & Hr' & He & Ht' & Hst')|]; [|by right].
  assert (Hf' : family sm' = Some (famOf s)).
  { revert Ho. unfold NewFromRootHash. destruct (famOf s _); [done|done|]. destruct (decodeAndVerifyPrefixNode _ _) as [|[r|]]; [done| |done].
    by intros [= <-]. }
  destruct (held_backed _ s 64 0 (MInner (root sm')) m Hr' Hv Hs) as [Hb'|]; [cbn [nodeHash]; by rewrite He| |by right].
  left. exists sm'. split; [exact Ho|]. split; cbn [fst snd]; assumption.
Qed.

(** The hash of the empty tree names no record. *)
Lemma open_empty t sm s :
  Session t (sm, s) ∅ -> (exists e, NewFromRootHash t (hash (root sm)) (Some (famOf s)) = inl e) \/ broken.
Proof.
  intros HS. pose proof (session_rep _ _ _ HS) as [Hp _]%preRep_rep. cbn [fst] in Hp.
  assert (H0 : isBranch (root sm) = 0).
  { destruct (decide (isBranch (root sm) = 0)) as [|H0]; [done|]. by destruct (mask_nonempty _ _ _ _ _ Hp H0). }
  assert (Hz : hash (root sm) = zeroHash).
  { rewrite (hashed_innerHash (root sm)) by apply Hp. unfold innerHash. by rewrite H0. }
  unfold NewFromRootHash, famOf. rewrite Hz. destruct (s !! zeroHash) as [b|] eqn:Hb; [|left; by eexists].
  right. destruct (session_filed _ _ _ HS _ _ Hb) as (_ & He & Hin). by eapply zero_preimage.
Qed.

Lemma exec_session t st m o :
  Session t st m -> goodOp t o -> Forall (covers 64 0) (stepsOf t m o) -> Session t (exec st o) (effect t m o) \/ broken.
Proof.
  intros HS Hg Hv. destruct st as [sm s]. pose proof (session_state _ _ _ HS) as Hst. cbn [fst] in Hst.
  destruct o as [k dt|items|k|rel|rel e|]; cbn [exec effect goodOp stepsOf] in *.
  - unfold Put. rewrite bool_decide_eq_true_2 by done. cbn [negb]. destruct (Z.ltb_spec (Z.of_nat (length dt)) 12) as [Hl|Hl].
    + rewrite (small_session t sm s m (mkItem k dt) HS Hg) by (cbn; lia). by left.
    + apply list.Forall_cons in Hv as [Hv _].
      destruct (put_session t sm s m (mkItem k dt) HS Hg) as [(sm' & -> & _ & HS')|]; [cbn; lia|exact Hv|by left|by right].
  - pose proof (putAtomic_session t sm s m items HS Hg Hv) as Hp. destruct (firstError items) as [e|].
    + destruct Hp as [->|]; [by left|by right].
    + destruct Hp as [(sm' & -> & HS')|]; [by left|by right].
  - left. apply list.Forall_cons in Hv as [Hv _]. by apply delete_session.
  - destruct (flush_session t (sm, s) m rel HS) as [[HS' _]|]; [by left|by right].
  - by apply refused_session.
  - destruct (flush_session t (sm, s) m true HS) as [(HS' & _ & Hh & Hheld)|]; [|by right]. revert HS' Hh Hheld.
    destruct (flush true (sm, s)) as [sm1 s1]. cbn [fst snd]. intros HS' Hh Hheld.
    pose proof (session_type _ _ _ HS') as Ht. cbn [fst] in Ht. rewrite Ht.
    destruct (decide (m = ∅)) as [->|Hne].
    + destruct (open_empty t sm1 s1 HS') as [[e ->]|]; [by left|by right].
    + destruct (open_session t sm1 s1 m HS') as [(sm2 & -> & HS2)|]; [|by left|by right]. rewrite Hh. by apply Hheld.
Qed.

Definition start (t : Type_) : SHAMap * nodeStore :=
  (mkMap newInnerNode t stateModifying 0 (-1) (Some (famOf ∅)), ∅).

Lemma start_session t : Session t (start t) ∅.
Proof.
  split; try done; [|apply covers_empty]. exact (rep_within None ∅ 64 0 _ ∅ I (New_rep t)).
Qed.

Lemma session_run t ops st m :
  Session t st m -> Forall (goodOp t) ops -> Forall (covers 64 0) (contentsAlong t m ops) ->
  Session t (foldl exec st ops) (foldl (effect t) m ops) \/ broken.
Proof.
  intros HS Hg. revert st m HS. induction Hg as [|o ops Ho Hg IH]; intros st m HS Hv; [by left|].
  cbn [foldl contentsAlong] in *. apply Forall_app in Hv as [Hv1 Hv].
  destruct (exec_session t st m o HS Ho Hv1) as [HS'|]; [by apply IH|by right].
Qed.

End Session.

(** What is hashed in the course of a session. *)
Definition sessionInputs `{Hasher} (t : Type_) (ops : list op) : list bytes :=
  mjoin (inputs 64 0 <$> contentsAlong t ∅ ops).

Lemma sessionInputs_covers `{Hasher} t ops :
  Forall (@covers _ (fun x => x ∈ sessionInputs t ops) 64 0) (contentsAlong t ∅ ops).
Proof.
  apply list.Forall_forall. intros m Hm. apply covers_in. intros x Hx. apply list_elem_of_join. exists (inputs 64 0 m).
  split; [exact Hx|]. apply list_elem_of_fmap. by exists m.
Qed.

(** C1: A map over a store is a finite map, whatever is done to it: after any
    sequence of puts (single and atomic batches), deletes, flushes that the store
    accepts or refuses, releases of the nodes in memory, and restarts from the
    root hash, every lookup gives what a finite map given the same changes holds;
    and once flushed, the root hash and the store alone give a map with exactly
    these contents. This holds as long as among the inputs hashed for the trees
    of the session no two have one hash and none hashes to zero. *)
Theorem session_faithful `{Hasher} t ops :
  Forall (goodOp t) ops -> collisionFree (sessionInputs t ops) ->
  let st := foldl exec (start t) ops in
  let m := foldl (effect t) ∅ ops in
  (forall k, is_key k -> Get (fst st) k = inr (itemAt m k, present m k)) /\
  (m <> ∅ -> exists sm, NewFromRootHash t (hash (root (fst st))) (Some (famOf (snd (flush true st)))) = inr sm /\
     forall k, is_key k -> Get sm k = inr (itemAt m k, present m k)).
Proof.
  intros Hg Hcf st m. set (known := (fun x => x ∈ sessionInputs t ops) : InPlay).
  assert (Hbr : ~ broken) by by apply collisionFree_not_broken.
  destruct (session_run t ops (start t) ∅ (start_session t) Hg (sessionInputs_covers t ops)) as [HS|]; [|done]. fold st m in HS.
  destruct (flush_session t st m true HS) as [(HS' & _ & Hh & Hheld)|]; [|done].
  split; [intros k Hk; exact (Get_rep _ _ _ (session_rep _ _ _ HS) Hk)|]. intros Hm.
  destruct (flush true st) as [sm1 s1] eqn:Hfl. cbn [fst snd] in *.
  destruct (open_session t sm1 s1 m HS') as [(sm & Ho & HS2)|]; [rewrite Hh; by apply Hheld| |done].
  exists sm. rewrite <- Hh. split; [exact Ho|]. intros k Hk. exact (Get_rep _ _ _ (session_rep _ _ _ HS2) Hk).
Qed.

(** ** Instances *)

#[local] Existing Instance exampleHasher.

Definition exampleOps : list op := [DoPut key1 data1; DoFlush true; DoPut key2 data1; DoDelete key1; DoRestart].

Lemma session_faithful_witness :
  let st := foldl exec (start TypeState) exampleOps in
  (forall k, is_key k -> Get (fst st) k =
     inr (itemAt {[key2 := (leafAccountState, data1)]} k, present {[key2 := (leafAccountState, data1)]} k)) /\
  exists sm, NewFromRootHash TypeState (hash (root (fst st))) (Some (famOf (snd (flush true st)))) = inr sm /\
    Get sm key2 = inr (Some (mkItem key2 data1), true).
Proof.
  destruct (session_faithful TypeState exampleOps) as [Hg Ho].
  - repeat constructor; try apply key1_key; try apply key2_key; try apply data1_bytes; discriminate.
  - apply (bool_decide_unpack (collisionFree _)). vm_compute. exact I.
  - revert Hg Ho. set (st := foldl exec _ _). change (foldl (effect TypeState) ∅ exampleOps) with
      (delete key1 (<[key2 := (leafAccountState, data1)]> (<[key1 := (leafAccountState, data1)]> ∅) : contents)).
    rewrite delete_insert_ne, insert_empty, delete_singleton_eq, insert_empty by discriminate. intros Hg Ho. split; [exact Hg|].
    destruct Ho as (sm & Hn & Hs); [apply map_non_empty_singleton|]. exists sm. split; [exact Hn|]. exact (Hs key2 key2_key).
Defined.

End ShaMapSession.
