(* ===== verification/ShaMapAudit.v ===== *)
(** * State tree: is the store complete, and what a fetch pack brings

    [CheckComplete] reports nothing exactly when the store has the whole tree,
    and a fetch pack that was not cut short is what a peer that has the other
    tree lacks. *)

From Stdlib Require Import ZArith Lia.
From stdpp Require Import base list numbers option gmap fin_maps.
From S2P Require Import Prelude Sha512 ShaMapKey ShaMapNode ShaMapCodec ShaMap ShaMapRefine ShaMapHash ShaMapProof ShaMapStore.

Import ShaMapKey ShaMapNode ShaMapCodec ShaMap ShaMapRefine ShaMapHash ShaMapProof ShaMapStore.

Module ShaMapAudit.

Section Audit.
Context `{Hasher}.

(** ** CheckComplete *)

(** The store has everything below a node read from it. *)
Definition heldBelow (s : nodeStore) (h : nat) (n : mapNode) : Prop :=
  match n with
  | MLeaf _ => True
  | MInner i =>
      match h with
      | O => False
      | S h => forall j : nat, (j < 16)%nat -> hasBit (isBranch i) (Z.of_nat j) = true -> holds s h (hashAt i (Z.of_nat j))
      end
  end.

Lemma holds_heldBelow s h hh :
  holds s h hh <-> hh <> zeroHash /\ exists b n, s !! hh = Some b /\ decodeAndVerifyPrefixNode b hh = inr n /\ heldBelow s h n.
Proof. apply holds_record. Qed.

(** A node as it is read from the store: its branches by their hashes. *)
Definition fromStore (n : mapNode) : Prop :=
  match n with
  | MLeaf _ => True
  | MInner i => isBranch i <> 0 /\ shaped i /\ forall j : nat, (j < 16)%nat ->
      childAt i (Z.of_nat j) = None /\ (hasBit (isBranch i) (Z.of_nat j) = true -> hashAt i (Z.of_nat j) <> zeroHash)
  end.

Lemma decoded_fromStore b hh n :
  all_bytes b -> hh <> zeroHash -> decodeAndVerifyPrefixNode b hh = inr n -> fromStore n.
Proof.
  intros Hb Hz Hd. apply verified_preimage in Hd as (He & Hst & Hcase); [|done].
  destruct Hcase as [(i & _ & _ & Hzero)|(Hsd & _ & _)]; [done|]. destruct n as [i|l]; [|done].
  destruct Hsd as (Hsh & _ & Hne & Hset). split; [done|]. split; [done|]. intros j Hj. pose proof (stub_slot i j Hj Hst) as Hsl.
  unfold slot at 1 in Hsl. apply pair_equal_spec in Hsl as [[_ Hh]%pair_equal_spec Hc]. split; [done|].
  intros Hbit. rewrite Hh. by apply Hset.
Qed.

(** Nothing to report. *)
Definition allFound (res : CompletenessResult) : Prop := Missing res = [] /\ Corrupt res = [].

Section Check.
Context (s : nodeStore) (Hs : honest s).

(** The store's node at a hash, when it has one. *)
Definition storedAt (P : mapNode -> Prop) (hh : bytes) : Prop :=
  hh <> zeroHash /\ exists b n, s !! hh = Some b /\ decodeAndVerifyPrefixNode b hh = inr n /\ P n.

Lemma branch_clear (P : mapNode -> Prop) rec inner depth j res res' :
  checkBranch rec (Some (famOf s)) inner depth j res = inr res' -> allFound res' ->
  (j < 16)%nat -> fromStore (MInner inner) ->
  (forall child res res', fromStore child -> rec child res = inr res' -> allFound res' -> allFound res /\ P child) ->
  allFound res /\ (hasBit (isBranch inner) (Z.of_nat j) = true -> storedAt P (hashAt inner (Z.of_nat j))).
Proof.
  intros Hr Hcl Hj (_ & _ & Hf) Hrec. destruct (Hf j Hj) as [Hc Hz]. revert Hr. unfold checkBranch.
  destruct (hasBit (isBranch inner) (Z.of_nat j)) eqn:Hb; cbn [negb]; [|by intros [= <-]]. rewrite Hc. cbn [missHash].
  specialize (Hz eq_refl). unfold famOf. destruct (s !! hashAt inner (Z.of_nat j)) as [b|] eqn:Hl.
  - destruct (decodeAndVerifyPrefixNode b _) as [e|child] eqn:Hd.
    + intros [= <-]. destruct Hcl as [_ Hcor]. cbn in Hcor. by destruct (Corrupt res).
    + intros Hr. destruct (Hrec child res res') as [Hcl' Hh]; [|done|done|].
      { by eapply decoded_fromStore; [apply (Hs _ _ Hl)|..]. }
      split; [done|]. intros _. split; [done|]. by exists b, child.
  - intros [= <-]. destruct Hcl as [Hm _]. cbn in Hm. by destruct (Missing res).
Qed.

Lemma loop_clear (P : mapNode -> Prop) rec inner depth l res res' :
  completeLoop (checkBranch rec (Some (famOf s)) inner depth) l res = inr res' -> allFound res' ->
  Forall (fun j => j < 16)%nat l -> fromStore (MInner inner) ->
  (forall child res res', fromStore child -> rec child res = inr res' -> allFound res' -> allFound res /\ P child) ->
  allFound res /\ Forall (fun j => hasBit (isBranch inner) (Z.of_nat j) = true -> storedAt P (hashAt inner (Z.of_nat j))) l.
Proof.
  intros Hloop Hcl Hl Hf Hrec. revert res Hloop. induction Hl as [|j l Hj Hl IH]; intros res; cbn [completeLoop]; [by intros [= <-]|].
  destruct (checkBranch _ _ _ _ _ res) as [|res1] eqn:Hb; [done|]. intros Hloop.
  destruct (IH res1 Hloop) as [Hcl1 Hall]. destruct (branch_clear P rec inner depth j res res1 Hb Hcl1 Hj Hf Hrec). by split; [|constructor].
Qed.

Lemma check_sound fuel h n (d : nat) res res' :
  checkNodeComplete fuel (Some (famOf s)) n (Z.of_nat d) res = inr res' -> allFound res' ->
  (h + d = 64)%nat -> fromStore n -> allFound res /\ heldBelow s h n.
Proof.
  revert h n d res res'. induction fuel as [|fuel IH]; intros h n d res res'; [done|]. cbn [checkNodeComplete].
  destruct (maxWalkDepth <? Z.of_nat d); [done|]. destruct n as [inner|l]; [|by intros [= <-]].
  replace (Z.of_nat d + 1) with (Z.of_nat (S d)) by lia. intros Hloop Hcl Hhd Hf. destruct h as [|h].
  - (* at the bottom an inner node leads to nodes that are too deep *)
    exfalso. pose proof Hf as (Hne & Hsh & _). apply mask_nonzero in Hne as (j & Hj & Hb); [|apply Hsh].
    destruct (loop_clear (fun _ => False) _ _ _ _ _ _ Hloop Hcl branches_lt Hf) as [_ Hall].
    + intros child res1 res1' _ Hc. destruct fuel as [|fuel']; [done|]. cbn [checkNodeComplete] in Hc.
      unfold maxWalkDepth in Hc. rewrite (proj2 (Z.ltb_lt _ _)) in Hc by lia. done.
    + rewrite list.Forall_forall in Hall. destruct (Hall j) as (_ & b & n & _ & _ & []); [apply elem_of_seq; lia|done].
  - destruct (loop_clear (heldBelow s h) _ _ _ _ _ _ Hloop Hcl branches_lt Hf) as [Hcl' Hall].
    + intros child res1 res1' Hfc Hc Hcl1. apply (IH h child (S d) res1 res1'); [done|done|lia|done].
    + split; [done|]. intros j Hj Hb. rewrite list.Forall_forall in Hall. apply holds_heldBelow, Hall; [apply elem_of_seq; lia|done].
Qed.

Lemma loop_holds rec inner depth l res h :
  Forall (fun j => j < 16)%nat l -> fromStore (MInner inner) ->
  (forall j, (j < 16)%nat -> hasBit (isBranch inner) (Z.of_nat j) = true -> holds s h (hashAt inner (Z.of_nat j))) ->
  (forall child res, fromStore child -> heldBelow s h child -> allFound res -> exists res', rec child res = inr res' /\ allFound res') ->
  allFound res -> exists res', completeLoop (checkBranch rec (Some (famOf s)) inner depth) l res = inr res' /\ allFound res'.
Proof.
  intros Hl Hf Hh Hrec. revert res. induction Hl as [|j l Hj Hl IH]; intros res Hcl; cbn [completeLoop]; [by eexists|].
  unfold checkBranch at 1. destruct (hasBit (isBranch inner) (Z.of_nat j)) eqn:Hb; cbn [negb]; [|by apply IH].
  destruct Hf as (_ & _ & Hf). destruct (Hf j Hj) as [-> Hz]. cbn [missHash].
  pose proof (Hh j Hj Hb) as (_ & b & child & Hl' & Hd & Hbelow)%holds_heldBelow. unfold famOf at 1. rewrite Hl', Hd.
  destruct (Hrec child res) as (res1 & Hr & Hcl1); [|done|done|].
  { by eapply decoded_fromStore; [apply (Hs _ _ Hl')|apply Hz|]. }
  rewrite Hr. by apply IH.
Qed.

Lemma check_complete fuel h n (d : nat) res :
  (h + d = 64)%nat -> (h < fuel)%nat -> fromStore n -> heldBelow s h n -> allFound res ->
  exists res', checkNodeComplete fuel (Some (famOf s)) n (Z.of_nat d) res = inr res' /\ allFound res'.
Proof.
  revert h n d res. induction fuel as [|fuel IH]; intros h n d res Hhd Hfu Hf Hb Hcl; [lia|]. cbn [checkNodeComplete].
  unfold maxWalkDepth. rewrite (proj2 (Z.ltb_ge _ _)) by lia. destruct n as [inner|l]; [|by eexists].
  destruct h as [|h]; [done|]. replace (Z.of_nat d + 1) with (Z.of_nat (S d)) by lia.
  apply (loop_holds _ _ _ _ _ h); [apply branches_lt|done|done| |done].
  intros child res1 Hfc Hbc Hcl1. apply (IH h child (S d)); [lia|lia|done..].
Qed.

End Check.

(** ** Fetch packs *)

Definition addPack (s : nodeStore) (l : list FetchPackNode) : nodeStore :=
  foldl (fun s e => <[packHash e := packData e]> s) s l.

Definition packBytes (l : list FetchPackNode) : Z := foldr (fun e n => Z.of_nat (length (packData e)) + n) 0 l.

Lemma packBytes_app l l' : packBytes (l ++ l') = packBytes l + packBytes l'.
Proof. induction l as [|e l IH]; [done|]. cbn [app packBytes foldr]. fold (packBytes (l ++ l')) (packBytes l). rewrite IH. lia. Qed.

Lemma addPack_app s l l' : addPack s (l ++ l') = addPack (addPack s l) l'.
Proof. apply foldl_app. Qed.

(** Within the limits, and counted right. *)
Definition fits (maxNodes maxBytes : Z) (p : Pack) : Prop :=
  used p = packBytes (packed p) /\ (0 < maxBytes -> used p <= maxBytes) /\ Z.of_nat (length (packed p)) <= maxNodes.

Definition verifies (e : FetchPackNode) : Prop := VerifyFetchPackNode (packHash e) (packData e) = true.

Context {known : InPlay}.

(** [p'] extends [p] with nodes that verify. *)
Record extends (s : nodeStore) (maxNodes maxBytes : Z) (p p' : Pack) : Prop := {
  ext_new : exists new, packed p' = packed p ++ new /\ Forall verifies new;
  ext_filed : filed (addPack s (packed p'));
  ext_grows : addPack s (packed p) ⊆ addPack s (packed p');
  ext_fits : fits maxNodes maxBytes p -> fits maxNodes maxBytes p' }.

Lemma extends_refl s mn mb p : filed (addPack s (packed p)) -> extends s mn mb p p.
Proof. intros Hh. split; [exists []; by rewrite app_nil_r|done..]. Qed.

Lemma extends_trans s mn mb p p' p'' : extends s mn mb p p' -> extends s mn mb p' p'' -> extends s mn mb p p''.
Proof.
  intros [(n1 & H1 & Hv1) _ Hg1 Hf1] [(n2 & H2 & Hv2) Hh2 Hg2 Hf2]. split; [|done|by etrans|by auto].
  exists (n1 ++ n2). split; [by rewrite H2, H1, app_assoc|]. by apply Forall_app.
Qed.

Lemma serialized_verifies n b : sendable n -> SerializeWithPrefix n = inr b -> VerifyFetchPackNode (nodeHash n) b = true.
Proof.
  intros Hs Hb. destruct (prefix_node n Hs) as (b' & Hb' & Hd & _). rewrite Hb in Hb'. injection Hb' as <-.
  unfold VerifyFetchPackNode. rewrite Hd, UpdateHash_stub, stub_hash by done. rewrite bool_decide_eq_true_2 by done.
  by destruct b.
Qed.

(** Adding one node. *)
Lemma extends_node s mn mb p n b :
  sendable n -> SerializeWithPrefix n = inr b -> inPlay b -> filed (addPack s (packed p)) -> packDone mn p = false ->
  (0 <? mb) && (mb - used p <? Z.of_nat (length b)) = false ->
  extends s mn mb p (mkPack (packed p ++ [mkPackNode (nodeHash n) b]) (used p + Z.of_nat (length b)) (complete p)) \/ broken.
Proof.
  intros Hsd Hb Hin Hh Hd Hfit. destruct (record_verifies n b Hsd Hb) as [He _].
  destruct (filed_insert _ b Hh (record_bytes n b Hsd Hb) Hin) as [[Hh' Hg']|]; [|by right]. rewrite <- He in Hh', Hg'. left.
  split; cbn [packed].
  - exists [mkPackNode (nodeHash n) b]. split; [done|]. constructor; [by apply serialized_verifies|constructor].
  - by rewrite addPack_app.
  - by rewrite addPack_app.
  - intros (Hu & Hm & Hn). unfold packDone in Hd. apply orb_false_iff in Hd as [Hd%Z.leb_gt _]. unfold fits. cbn [used packed].
    rewrite packBytes_app, length_app. cbn [packBytes foldr packData length]. split; [lia|]. split; [|lia].
    intros Hmb. rewrite (proj2 (Z.ltb_lt _ _) Hmb) in Hfit. apply Z.ltb_ge in Hfit. lia.
Qed.

(** What the peer is said to have, it has. *)
Definition haves (fam' : option Family) (s : nodeStore) (h d : nat) (have : option mapNode) : Prop :=
  match have with
  | None => True
  | Some n => exists m, rep fam' h d n m /\ covers h d m /\ (m = ∅ \/ holds s h (nodeHash n))
  end.

Lemma haves_branch fam' s h d n m j :
  rep fam' (S h) d (MInner n) m -> covers (S h) d m -> (m = ∅ \/ holds s (S h) (hash n)) -> filed s -> (j < 16)%nat ->
  (hasBit (isBranch n) (Z.of_nat j) = true /\
   exists c, readSlot fam' (slot n j) = inr (Some c) /\ haves fam' s h (S d) (Some c) /\
     slotHash (slot n j) = nodeHash c /\ holds s h (slotHash (slot n j))) \/
  (hasBit (isBranch n) (Z.of_nat j) = false /\ childAt n (Z.of_nat j) = None) \/ broken.
Proof.
  intros Hw Hv Hh Hs Hj. pose proof Hw as [Hp _]%preRep_rep. destruct (branch_view _ _ _ _ _ _ Hp Hj) as [(Hb & c & Hread & Hc & _ & Hr)|(Hb & _)].
  - assert (Hne : m <> ∅).
    { apply (mask_nonempty _ _ _ _ _ Hp). intros H0. by rewrite H0, hasBit_0 in Hb. }
    destruct Hh as [|Hh]; [done|]. destruct (holds_branches _ _ _ _ _ _ Hw Hv Hs Hh) as [(_ & _ & _ & _ & _ & _ & _ & _ & Hch)|]; [|by right; right].
    left. split; [done|]. exists c. specialize (Hch j Hj Hb). split; [done|]. split; [|by split].
    exists (sub d j m). split; [done|]. split; [by eapply covers_sub|]. right. by rewrite <- Hc.
  - right. left. split; [done|]. destruct Hp as (_ & _ & _ & Hsl). specialize (Hsl j Hj). unfold slot in Hsl. rewrite Hb in Hsl. apply Hsl.
Qed.

Lemma extends_stop s mn mb p : filed (addPack s (packed p)) -> extends s mn mb p (mkPack (packed p) (used p) false).
Proof. intros Hh. split; [exists []; by rewrite app_nil_r|done..]. Qed.

Lemma empty_hash fam h d n : rep fam h d n ∅ -> nodeHash n = zeroHash.
Proof.
  destruct n as [n|l].
  - destruct h; [done|]. intros [Hp _]%preRep_rep. cbn [nodeHash]. rewrite (hashed_innerHash n) by apply Hp. unfold innerHash.
    destruct (Z.eqb_spec (isBranch n) 0) as [|H0]; [done|]. by destruct (mask_nonempty _ _ _ _ _ Hp H0).
  - intros [_ He]%rep_leaf. symmetry in He. unfold leafContents in He. by apply map_non_empty_singleton in He.
Qed.

Section Walk.
Context (fam fam' : option Family) (s : nodeStore) (mn mb : Z) (Hs : filed s).

Abbreviation held p := (addPack s (packed p)).

Definition haveInnerOK (h d : nat) (have : option innerNode) : Prop :=
  match have with
  | None => True
  | Some n => exists m, rep fam' (S h) d (MInner n) m /\ covers (S h) d m /\ (m = ∅ \/ holds s (S h) (hash n))
  end.

(** What walking a subtree comes to. *)
Definition walked (h : nat) (hh : bytes) (p : Pack) (r : Result Pack) : Prop :=
  exists p', r = inr p' /\ extends s mn mb p p' /\ (packDone mn p' = false -> holds (held p') h hh).

Lemma resolve_child f n j c :
  readSlot f (slot n j) = inr (Some c) ->
  match childAt n (Z.of_nat j) with Some c => inr (Some c) | None => readChild f n (Z.of_nat j) end = inr (Some c).
Proof. rewrite readChild_slot. unfold slot. by destruct (childAt n (Z.of_nat j)). Qed.

Section Loop.
Context (h d : nat) (m : contents) (want : innerNode) (have : option innerNode)
  (rec : mapNode -> option mapNode -> Pack -> Result Pack).
Hypothesis Hroot : rep fam (S h) d (MInner want) m.
Hypothesis Hcov : covers (S h) d m.
Hypothesis Hsto : storable m.
Hypothesis Hhave : haveInnerOK h d have.
Hypothesis Hrec : forall c hc m' p, rep fam h (S d) c m' -> storable m' -> m' <> ∅ -> covers h (S d) m' -> haves fam' s h (S d) hc ->
  filed (held p) -> s ⊆ held p -> walked h (nodeHash c) p (rec c hc p) \/ broken.

Definition loopWalked (l : list nat) (p : Pack) (r : Result Pack) : Prop :=
  exists p', r = inr p' /\ extends s mn mb p p' /\
    (packDone mn p' = false ->
     Forall (fun j => hasBit (isBranch want) (Z.of_nat j) = true -> holds (held p') h (slotHash (slot want j))) l).

(** One branch with its child walked, then the rest. *)
Lemma continue_walked j l p hc :
  (j < 16)%nat -> hasBit (isBranch want) (Z.of_nat j) = true -> haves fam' s h (S d) hc -> filed (held p) -> s ⊆ held p ->
  (forall p, filed (held p) -> s ⊆ held p -> loopWalked l p (packLoop rec fam fam' mn want have l p) \/ broken) ->
  loopWalked (j :: l) p
    (let? child := match childAt want (Z.of_nat j) with Some c => inr (Some c) | None => readChild fam want (Z.of_nat j) end in
     let? p := match child with Some c => rec c hc p | None => inr p end in
     if packDone mn p then inr p else packLoop rec fam fam' mn want have l p) \/ broken.
Proof.
  intros Hj Hb Hhc Hh Hsub IH. pose proof Hroot as [Hwant _]%preRep_rep. destruct (branch_view _ _ _ _ _ _ Hwant Hj) as [(_ & c & Hread & Hc & _ & Hr)|(Hb' & _)]; [|congruence].
  rewrite (resolve_child fam want j c Hread).
  destruct (Hrec c hc (sub d j m) p Hr) as [(p1 & -> & Hext & Hheld)|]; 
    [by apply storable_sub|by eapply rep_nonempty|by eapply covers_sub|done|done|done| |by right].
  destruct (packDone mn p1) eqn:Hd1.
  { left. exists p1. split; [done|]. split; [done|]. congruence. }
  destruct (IH p1) as [(p' & -> & Hext' & Hall)|]; [apply Hext|etrans; [done|apply Hext]| |by right].
  left. exists p'. split; [done|]. split; [by eapply extends_trans|]. intros Hd'. constructor; [|by apply Hall].
  intros _. rewrite Hc. eapply holds_mono; [apply Hext'|by apply Hheld].
Qed.

(** A branch that needs nothing. *)
Lemma skip_walked j l p r :
  (hasBit (isBranch want) (Z.of_nat j) = true -> holds s h (slotHash (slot want j))) -> s ⊆ held p ->
  loopWalked l p r \/ broken -> loopWalked (j :: l) p r \/ broken.
Proof.
  intros Hj Hsub [(p' & -> & Hext & Hall)|]; [|by right]. left. exists p'. split; [done|]. split; [done|]. intros Hd.
  constructor; [|by apply Hall]. intros Hb. eapply holds_mono; [|by apply Hj]. etrans; [done|apply Hext].
Qed.

Lemma packLoop_walked l p :
  Forall (fun j => j < 16)%nat l -> filed (held p) -> s ⊆ held p ->
  loopWalked l p (packLoop rec fam fam' mn want have l p) \/ broken.
Proof.
  intros Hl. revert p. induction Hl as [|j l Hj Hl IH]; intros p Hh Hsub.
  { left. exists p. split; [done|]. split; [by apply extends_refl|]. by constructor. }
  cbn [packLoop]. unfold LoadChild at 1. destruct (hasBit (isBranch want) (Z.of_nat j)) eqn:Hb; cbn [negb].
  2:{ apply skip_walked; [congruence|done|by apply IH]. }
  destruct have as [hi|] eqn:Hhi.
  2:{ rewrite <- Hhi. apply continue_walked; [done|done|done|done|done|]. rewrite Hhi. exact IH. }
  destruct Hhave as (m' & Hp' & Hcov' & Hhld). unfold LoadChild.
  destruct (haves_branch fam' s h d hi m' j Hp' Hcov' Hhld Hs Hj) as [(Hbh & c' & Hread' & Hhc & Hc' & Hold)|[[Hbh Hch]|]]; [| |by right].
  - rewrite Hbh. cbn [andb].
    assert (Hsame : forall n, hasBit (isBranch n) (Z.of_nat j) = true ->
      match childAt n (Z.of_nat j) with Some c => nodeHash c | None => hashAt n (Z.of_nat j) end = slotHash (slot n j)).
    { intros n Hn. unfold slot, slotHash. rewrite Hn. by destruct (childAt n (Z.of_nat j)). }
    rewrite !Hsame by done. case_bool_decide as He.
    + apply skip_walked; [|done|by apply IH]. intros _. by rewrite <- He.
    + rewrite (resolve_child fam' hi j c' Hread'). rewrite <- Hhi. apply continue_walked; [done..|]. rewrite Hhi. exact IH.
  - rewrite Hbh, Hch. cbn [andb]. rewrite <- Hhi. apply continue_walked; [done..|]. rewrite Hhi. exact IH.
Qed.

End Loop.

Lemma walk_walked fuel h d want have m p :
  rep fam h d want m -> storable m -> m <> ∅ -> covers h d m -> haves fam' s h d have -> (h < fuel)%nat -> filed (held p) -> s ⊆ held p ->
  walked h (nodeHash want) p (walkFetchPackDifferences fuel fam fam' mn mb want have p) \/ broken.
Proof.
  revert h d want have m p. induction fuel as [|fuel IH]; intros h d want have m p Hr Hsto Hne Hv Hhv Hf Hh Hsub; [lia|].
  cbn [walkFetchPackDifferences]. destruct (packDone mn p) eqn:Hdone.
  { left. exists p. split; [done|]. split; [by apply extends_refl|]. congruence. }
  destruct (match have with Some hn => bool_decide (nodeHash want = nodeHash hn) | None => false end) eqn:Hsame.
  { destruct have as [hn|]; [|done]. apply bool_decide_eq_true in Hsame. destruct Hhv as (m' & Hr' & _ & [->|Hhv]).
    - right. destruct (child_hash _ _ _ _ _ Hr Hne Hv) as [Hz|]; [|done]. destruct Hz. by rewrite Hsame, (empty_hash _ _ _ _ Hr').
    - left. exists p. split; [done|]. split; [by apply extends_refl|]. intros _. rewrite Hsame. by eapply holds_mono. }
  destruct (rep_sendable _ _ _ _ _ Hr Hsto Hne Hv) as [Hsd|]; [|by right].
  destruct (prefix_node want Hsd) as (b & Hb & _). rewrite Hb.
  assert (Hin : inPlay b) by (apply (record_inPlay _ _ Hb); exact (covers_node _ _ _ _ _ Hr Hv)).
  destruct ((0 <? mb) && (mb - used p <? Z.of_nat (length b))) eqn:Hfit.
  { left. eexists. split; [done|]. split; [by apply extends_stop|]. unfold packDone. cbn [complete negb]. by rewrite orb_true_r. }
  destruct (extends_node s mn mb p want b Hsd Hb Hin Hh Hdone Hfit) as [Hext|]; [|by right].
  set (p1 := mkPack _ _ _) in *. destruct (mn <=? Z.of_nat (length (packed p1))) eqn:Hfull.
  { left. exists p1. split; [done|]. split; [done|]. unfold packDone. by rewrite Hfull. }
  assert (Hrec1 : held p1 !! nodeHash want = Some b).
  { unfold p1. cbn [packed]. rewrite addPack_app. apply lookup_insert_eq. }
  destruct want as [wi|l].
  2:{ destruct (record_holds (held p1) h (MLeaf l) b Hsd Hb Hin Hrec1 I) as [Hl|]; [|by right]. left. by exists p1. }
  destruct h as [|h]; [done|].
  set (hi := match have with Some (MInner x) => Some x | _ => None end).
  destruct (packLoop_walked h d m wi hi (walkFetchPackDifferences fuel fam fam' mn mb) Hr Hv Hsto) with (l := branches) (p := p1)
    as [(p' & -> & Hext' & Hall)|]; [| |apply branches_lt|apply Hext|etrans; [done|apply Hext]| |by right].
  - unfold hi, haveInnerOK. destruct have as [[x|]|]; [|done|done]. destruct Hhv as (m' & Hr' & Hx). by exists m'.
  - intros c hc m' p0 Hrc Hst' Hne' Hvc Hhc Hh0 Hs0. apply (IH h (S d) c hc m' p0); [done..|lia|done|done].
  - destruct (packDone mn p') eqn:Hd'.
    { left. exists p'. split; [done|]. split; [by eapply extends_trans|]. congruence. }
    destruct (record_holds (held p') (S h) (MInner wi) b Hsd Hb Hin) as [Hl|]; [| | |by right].
    + eapply lookup_weaken; [done|apply Hext'].
    + exists h. split; [done|]. intros j Hj. specialize (Hall eq_refl). rewrite list.Forall_forall in Hall. apply Hall, elem_of_seq. lia.
    + left. exists p'. split; [done|]. split; [by eapply extends_trans|done].
Qed.

End Walk.

(** [CheckComplete] on a map opened from a store: it comes back with nothing
    missing and nothing corrupt exactly when the store holds every node of the
    tree, down to leaves within 64 levels. *)
Theorem CheckComplete_exact s rootHash t sm :
  honest s -> rootHash <> zeroHash -> NewFromRootHash t rootHash (Some (famOf s)) = inr sm ->
  (exists res, CheckComplete sm = inr res /\ allFound res) <-> holds s 64 rootHash.
Proof.
  intros Hs Hz Ho. unfold NewFromRootHash, famOf in Ho. destruct (s !! rootHash) as [b|] eqn:Hb; [|done].
  destruct (decodeAndVerifyPrefixNode b rootHash) as [|[r|]] eqn:Hd; [done| |done]. injection Ho as <-.
  assert (Hf : fromStore (MInner r)) by (eapply decoded_fromStore; [apply (Hs _ _ Hb)|done|done]).
  unfold CheckComplete. cbn [root family]. change (fun h => match s !! h with Some b => Found b | None => Absent end) with (famOf s).
  split.
  - intros (res & Hc & Hcl). destruct (check_sound s Hs walkFuel 64 (MInner r) 0 _ res Hc Hcl eq_refl Hf) as [_ Hh].
    apply holds_heldBelow. split; [done|]. by exists b, (MInner r).
  - intros (_ & b' & n & Hb' & Hd' & Hh)%holds_heldBelow. rewrite Hb in Hb'. injection Hb' as <-. rewrite Hd in Hd'. injection Hd' as <-.
    apply (check_complete s Hs walkFuel 64 (MInner r) 0); [done|unfold walkFuel; lia|done|done|by split].
Qed.

End Audit.

(** C36: A fetch pack: whatever the limits, it has at most [maxNodes] nodes and
    [maxBytes] bytes, and the receiver's check accepts each of them; and when it
    was not cut short, a peer that holds the tree it is said to have, and files
    the pack, can open the wanted tree from its root hash with exactly its
    contents. This holds as long as among what was hashed for the two trees and
    the records of the peer no two inputs have one hash and none hashes to zero. *)
Theorem fetch_pack_complete `{Hasher} sm m have m' s maxNodes maxBytes t :
  Rep sm m -> storable m -> m <> ∅ -> honest s -> 0 < maxNodes -> 0 < maxBytes ->
  match have with
  | None => True
  | Some hm => Rep hm m' /\ (m' = ∅ \/ holds s 64 (hash (root hm)))
  end ->
  collisionFree (inputs 64 0 m ++ inputs 64 0 m' ++ records s) ->
  exists nodes whole, WalkFetchPackDifferencesBounded sm have maxNodes maxBytes = inr (nodes, whole) /\
     Forall verifies nodes /\ Z.of_nat (length nodes) <= maxNodes /\ packBytes nodes <= maxBytes /\
     (whole = true -> Z.of_nat (length nodes) < maxNodes ->
      exists sm', NewFromRootHash t (hash (root sm)) (Some (famOf (addPack s nodes))) = inr sm' /\ Rep sm' m).
Proof.
  intros Hr Hst Hne Hhs Hmn Hmb Hh Hcf. set (known := (fun x => x ∈ inputs 64 0 m ++ inputs 64 0 m' ++ records s) : InPlay).
  assert (Hbr : ~ broken) by by apply collisionFree_not_broken.
  assert (Hv : covers 64 0 m) by (apply covers_in, list_subseteq_app_l; reflexivity).
  assert (Hv' : covers 64 0 m') by (apply covers_in, list_subseteq_app_r, list_subseteq_app_l; reflexivity).
  assert (Hs : filed s) by (apply honest_filed; [exact Hhs|apply list_subseteq_app_r, list_subseteq_app_r; reflexivity]).
  unfold WalkFetchPackDifferencesBounded.
  rewrite (proj2 (Z.leb_gt maxNodes 0)), (proj2 (Z.leb_gt maxBytes 0)) by done. cbn [orb].
  assert (H0 : HasChildren (root sm) = true).
  { unfold HasChildren, IsEmpty. destruct (Z.eqb_spec (isBranch (root sm)) 0) as [H0|]; [|done]. destruct Hne.
    pose proof Hr as [Hp _]%preRep_rep. exact (mask_empty _ _ _ _ _ Hp H0). }
  rewrite H0. cbn [negb]. set (fam' := match have with Some h => family h | None => None end).
  destruct (walk_walked (family sm) fam' s maxNodes maxBytes Hs walkFuel 64 0 (MInner (root sm)) ((fun h => MInner (root h)) <$> have) m (mkPack [] 0 true))
    as [(p' & -> & Hext & Hheld)|]; [exact Hr|exact Hst|exact Hne|exact Hv| |unfold walkFuel; lia|exact Hs|reflexivity| |done].
  { unfold fam', haves. destruct have as [hm|]; [|done]. destruct Hh as [Hrh Hh]. exists m'. by split; [exact Hrh|split; [exact Hv'|]]. }
  destruct (ext_new _ _ _ _ _ Hext) as (new & Hnew & Hver). cbn [packed app] in Hnew.
  destruct (ext_fits _ _ _ _ _ Hext) as (Hu & Hub & Hlen); [split; [done|]; cbn; lia|].
  exists (packed p'), (complete p'). split; [by destruct (packDone maxNodes p')|].
  rewrite <- Hnew in Hver. split; [done|]. split; [done|]. split; [by rewrite <- Hu; apply Hub|]. intros Hc Hlt.
  assert (Hdone : packDone maxNodes p' = false) by (unfold packDone; by rewrite Hc, (proj2 (Z.leb_gt _ _))).
  destruct (open_ok sm m _ t Hr (proj1 Hst) Hv (ext_filed _ _ _ _ _ Hext) (Hheld Hdone)) as [(sm' & Ho & Hr' & _)|]; [|done].
  exists sm'. split; [exact Ho|exact Hr'].
Qed.

(** ** Instances *)

#[local] Existing Instance exampleHasher.

(** The store after a flush of the map with one item. *)
Definition oneItemStore : nodeStore :=
  match storeDirty oneItemMap (fun es => inr (putEntries ∅ es)) false with (_, inr (Some s)) => s | _ => ∅ end.

Lemma oneItemStore_honest : honest oneItemStore.
Proof.
  apply map_Forall_to_list. apply (bool_decide_unpack (Forall (uncurry (fun h b => Forall (fun z => 0 <= z < 2 ^ 8) b /\ exampleHash b = h)) (map_to_list oneItemStore))).
  vm_compute. exact I.
Qed.

Lemma oneItemStore_holds : holds oneItemStore 64 (hash (root oneItemMap)).
Proof.
  set (known := (fun x => x ∈ inputs 64 0 {[key1 := (leafAccountState, data1)]} ++ records ∅) : InPlay).
  destruct (storeDirty_ok oneItemMap _ ∅ false oneItemMap_rep one_storable) as [(sm' & o & Hd & Hf)|Hb].
  - apply covers_in, list_subseteq_app_l. reflexivity.
  - exact oneItemMap_backed.
  - apply map_Forall_empty.
  - exact I.
  - unfold oneItemStore. rewrite Hd. destruct (flushed_held _ _ _ _ _ Hf) as [_ Hh]; [apply map_non_empty_singleton|]. by destruct o.
  - by apply collisionFree_not_broken in Hb; [|exact oneItem_collisionFree].
Qed.

Lemma CheckComplete_exact_witness :
  exists sm, NewFromRootHash TypeState (hash (root oneItemMap)) (Some (famOf oneItemStore)) = inr sm /\
    ((exists res, CheckComplete sm = inr res /\ allFound res) <-> holds oneItemStore 64 (hash (root oneItemMap))).
Proof.
  destruct (NewFromRootHash TypeState (hash (root oneItemMap)) (Some (famOf oneItemStore))) as [e|sm] eqn:Ho; [vm_compute in Ho; discriminate Ho|].
  exists sm. split; [reflexivity|].
  apply (CheckComplete_exact oneItemStore _ TypeState sm oneItemStore_honest); [vm_compute; discriminate|exact Ho].
Defined.

(** A peer with the first item fetches the second. *)
Lemma fetch_pack_complete_witness :
  exists nodes whole, WalkFetchPackDifferencesBounded twoItemMap (Some oneItemMap) 10 5000 = inr (nodes, whole) /\
    (whole = true -> Z.of_nat (length nodes) < 10 ->
     exists sm', NewFromRootHash TypeState (hash (root twoItemMap)) (Some (famOf (addPack oneItemStore nodes))) = inr sm' /\
       Rep sm' twoItems).
Proof.
  destruct (fetch_pack_complete twoItemMap _ (Some oneItemMap) {[key1 := (leafAccountState, data1)]} oneItemStore 10 5000 TypeState twoItemMap_rep two_storable)
    as (nodes & whole & Hw & _ & _ & _ & Hopen).
  - apply insert_non_empty.
  - exact oneItemStore_honest.
  - reflexivity.
  - reflexivity.
  - split; [exact oneItemMap_rep|right]. exact oneItemStore_holds.
  - apply (bool_decide_unpack (collisionFree _)). vm_compute. exact I.
  - exists nodes, whole. split; [exact Hw|exact Hopen].
Defined.

End ShaMapAudit.
