(* ===== verification/EntryStream.v ===== *)
(** * Serialized ledger entries (ledger/entry, codec/binarycodec/types)

    A ledger entry is stored as its fields in canonical order, each with its
    header. This file models the two sides that every entry shares: the stream
    reader of ledger/entry/decode_stream.go, with the loop of the generated
    [decode] methods, and the writing of a flat object by [STObject.FromJSON].
    Values are the bytes and integers on the wire; the hexadecimal and base58
    strings that the Go structs hold in between spell the same values. *)

From Stdlib Require Import ZArith Lia.
From stdpp Require Import base list numbers gmap strings.
From S2P Require Import Prelude Serdes Sha512.

Module EntryStream.
Import Serdes Sha512.

(** ** Reader *)

Inductive streamError :=
  | OutOfBounds
  | InvalidTypecode
  | InvalidFieldcode
  | InvalidPrefix
  | PrefixTooLong
  | NotHashes
  | BadAccountLength
  | DuplicateField (typeCode fieldCode : Z)
  | UnknownField (typeCode fieldCode : Z)
  | WrongEntryType (got : Z)
  | MissingField (name : string)
  | ArrayTooLarge
  | EncodeError (e : SerdesError).

(** A reader returns its value and the bytes left; after an error nothing is
    read any more. *)
Definition Reader (A : Type) : Type := bytes -> streamError + A * bytes.

Definition rret {A} (a : A) : Reader A := fun d => inr (a, d).
Definition rfail {A} (e : streamError) : Reader A := fun _ => inl e.
Definition rbind {A B} (m : Reader A) (k : A -> Reader B) : Reader B :=
  fun d => match m d with inl e => inl e | inr (a, d) => k a d end.

Notation "'let$' x := m 'in' k" := (rbind m (fun x => k))
  (at level 10, x name, m at level 100, k at level 200) : go_scope.

Definition readUint8 : Reader Z := fun d => match d with [] => inl OutOfBounds | b :: d => inr (b, d) end.

(** [n] bytes, if that many are left. *)
Definition readRaw (n : nat) : Reader bytes := fun d =>
  if (length d <? n)%nat then inl OutOfBounds else inr (take n d, drop n d).

Definition readFieldHeader : Reader (Z * Z) :=
  let$ b := readUint8 in
  let typeCode := Z.shiftr b 4 in
  let fieldCode := Z.land b 15 in
  let$ typeCode := (if typeCode =? 0 then
                      let$ t := readUint8 in
                      if t <? 16 then rfail InvalidTypecode else rret t
                    else rret typeCode) in
  let$ fieldCode := (if fieldCode =? 0 then
                       let$ f := readUint8 in
                       if f <? 16 then rfail InvalidFieldcode else rret f
                     else rret fieldCode) in
  rret (typeCode, fieldCode).

Definition readUint16 : Reader Z := let$ b := readRaw 2 in rret (bytesToZ b 0).
Definition readUint32 : Reader Z := let$ b := readRaw 4 in rret (bytesToZ b 0).
Definition readUint64Raw : Reader Z := let$ b := readRaw 8 in rret (bytesToZ b 0).
Definition readHash (n : nat) : Reader bytes := readRaw n.

Definition readVariableLength : Reader Z :=
  let$ b1 := readUint8 in
  if b1 <=? 192 then rret b1
  else if b1 <=? 240 then
    let$ b2 := readUint8 in
    rret (193 + (b1 - 193) * 256 + b2)
  else if b1 <=? 254 then
    let$ b2 := readUint8 in
    let$ b3 := readUint8 in
    let length := 12481 + (b1 - 241) * 65536 + b2 * 256 + b3 in
    if 918744 <? length then rfail PrefixTooLong else rret length
  else rfail InvalidPrefix.

(** An account is empty or has the twenty bytes of an address. *)
Definition AccountAddressLength : Z := 20.

Definition readAccountID : Reader bytes :=
  let$ n := readVariableLength in
  if n =? 0 then rret []
  else
    let$ b := readRaw (Z.to_nat n) in
    if negb (n =? AccountAddressLength) then rfail BadAccountLength else rret b.

(** Cuts a run of hashes into pieces of 32 bytes. *)
Fixpoint chunks (n : nat) (d : bytes) : list bytes :=
  match n with O => [] | S n => take 32 d :: chunks n (drop 32 d) end.

Definition readVector256 : Reader (list bytes) :=
  let$ n := readVariableLength in
  if negb (n mod 32 =? 0) then rfail NotHashes
  else
    let$ b := readRaw (Z.to_nat n) in
    rret (chunks (Z.to_nat (n / 32)) b).

(** The loop of a generated [decode] method: a header, the test for duplicates,
    then what [step] does with the field. Every round reads at least a byte, so the
    number of bytes is enough fuel. *)
Fixpoint fieldsLoop {A} (step : A -> Z -> Z -> Reader A) (fuel : nat) (seen : list (Z * Z)) (acc : A) : Reader A := fun d =>
  match d with
  | [] => inr (acc, [])
  | _ =>
      match fuel with
      | O => inl OutOfBounds
      | S fuel =>
          (let$ h := readFieldHeader in
           if bool_decide (h ∈ seen) then rfail (DuplicateField h.1 h.2)
           else
             let$ acc := step acc h.1 h.2 in
             fieldsLoop step fuel (h :: seen) acc) d
      end
  end.

(** ** Writer *)

Inductive wireValue :=
  | W16 (v : Z)
  | W32 (v : Z)
  | W64 (v : Z)
  | WHash (v : bytes)
  | WAccount (v : bytes)
  | WVector (v : list bytes).

Record wireField := mkWire { wtype : Z; wfield : Z; wvalue : wireValue }.

Definition wordinal (f : wireField) : Z := Z.shiftl (wtype f) 16 + wfield f.

Definition MaxJSONArrayElements : Z := 512.

Definition withPrefix (b : bytes) : streamError + bytes :=
  match encodeVariableLength (Z.of_nat (length b)) with inl e => inl (EncodeError e) | inr vl => inr (vl ++ b) end.

(** [FromJSON] of the type, with the length prefix [WriteFieldAndValue] adds. *)
Definition encodeValue (v : wireValue) : streamError + bytes :=
  match v with
  | W16 z => inr (zToBytes 2 z)
  | W32 z => inr (zToBytes 4 z)
  | W64 z => inr (zToBytes 8 z)
  | WHash b => inr b
  | WAccount b => withPrefix b
  | WVector hs => if MaxJSONArrayElements <? Z.of_nat (length hs) then inl ArrayTooLarge else withPrefix (concat hs)
  end.

Fixpoint encodeFields (fs : list wireField) : streamError + bytes :=
  match fs with
  | [] => inr []
  | f :: fs =>
      let? b := encodeValue (wvalue f) in
      let? rest := encodeFields fs in
      inr (encodeHeader (mkFieldHeader (wtype f) (wfield f)) ++ b ++ rest)
  end.

Definition ordinalLess (f g : wireField) : bool := wordinal f <? wordinal g.

(** [STObject.FromJSON] of a flat object: the fields in the order of their
    ordinals. *)
Definition fromJSON (fs : list wireField) : streamError + bytes := encodeFields (sort_by ordinalLess fs).

(** ** Reading back what was written *)

Lemma bytesToZ_app a b acc : bytesToZ (a ++ b) acc = bytesToZ b (bytesToZ a acc).
Proof. revert acc. induction a as [|x a IH]; intros acc; [done|]. cbn. apply IH. Qed.

Lemma bytesToZ_zToBytes n z acc : 0 <= z < 256 ^ Z.of_nat n -> bytesToZ (zToBytes n z) acc = acc * 256 ^ Z.of_nat n + z.
Proof.
  revert z. induction n as [|n IH]; intros z Hz; cbn [zToBytes bytesToZ].
  - rewrite Z.pow_0_r in *. lia.
  - rewrite Nat2Z.inj_succ, Z.pow_succ_r in * by lia. rewrite bytesToZ_app, IH by (split; [apply Z.div_pos; lia|apply Z.div_lt_upper_bound; lia]).
    cbn [bytesToZ]. pose proof (Z.div_mod z 256 ltac:(lia)). lia.
Qed.

Lemma readRaw_app b rest n : n = length b -> readRaw n (b ++ rest) = inr (b, rest).
Proof.
  intros ->. unfold readRaw. rewrite length_app, (proj2 (Nat.ltb_ge _ _)) by lia.
  by rewrite take_app_length, drop_app_length.
Qed.

Lemma readWord_app n z rest :
  is_uint (8 * Z.of_nat n) z -> (let$ b := readRaw n in rret (bytesToZ b 0)) (zToBytes n z ++ rest) = inr (z, rest).
Proof.
  unfold is_uint. intros Hz. unfold rbind. rewrite readRaw_app by (by rewrite zToBytes_length). unfold rret.
  rewrite bytesToZ_zToBytes; [done|]. by rewrite <- (Z.pow_mul_r 2 8) by lia.
Qed.

Lemma readUint8_cons b d : readUint8 (b :: d) = inr (b, d).
Proof. done. Qed.

Ltac run_reader := cbv [readVariableLength readFieldHeader rbind rret rfail]; rewrite ?readUint8_cons; cbn [app].

Ltac run_cases := repeat (go_case; try lia; cbn); try done.

Lemma readHeader_app tc fc rest :
  1 <= tc <= 255 -> 1 <= fc <= 255 -> readFieldHeader (encodeHeader (mkFieldHeader tc fc) ++ rest) = inr ((tc, fc), rest).
Proof.
  intros Ht Hf. rewrite encodeHeader_arith by done. go_cases; cbn [app]; run_reader; wbytes.
  - replace ((tc * 16 + fc) / 16) with tc by dmlia. replace ((tc * 16 + fc) mod 16) with fc by dmlia. run_cases.
  - replace (tc * 16 / 16) with tc by dmlia. replace ((tc * 16) mod 16) with 0 by dmlia. cbn. run_cases.
  - replace (fc / 16) with 0 by dmlia. replace (fc mod 16) with fc by dmlia. cbn. run_cases.
  - cbn. run_cases.
Qed.

Lemma readVL_app n vl rest : encodeVariableLength n = inr vl -> readVariableLength (vl ++ rest) = inr (n, rest).
Proof.
  intros He. unfold encodeVariableLength in He. revert He. go_cases; intros [= <-]; cbn [app]; wbytes; run_reader.
  - destruct (Z.leb_spec (n mod 256) 192); [|dmlia]. do 2 f_equal. dmlia.
  - destruct (Z.leb_spec (((n - 193) / 256 + 193) mod 256) 192); [dmlia|].
    destruct (Z.leb_spec (((n - 193) / 256 + 193) mod 256) 240); [|dmlia]. do 2 f_equal. dmlia.
  - set (m := n - 12481) in *.
    destruct (Z.leb_spec ((m / 65536 + 241) mod 256) 192); [dmlia|].
    destruct (Z.leb_spec ((m / 65536 + 241) mod 256) 240); [dmlia|].
    destruct (Z.leb_spec ((m / 65536 + 241) mod 256) 254); [|dmlia]. cbn [readUint8].
    match goal with |- context [918744 <? ?x] => assert (x = n) as -> by dmlia end.
    destruct (Z.ltb_spec 918744 n); [lia|]. done.
Qed.
(** What a field of each type may hold. *)
Definition wireOk (v : wireValue) : Prop :=
  match v with
  | W16 z => is_uint 16 z
  | W32 z => is_uint 32 z
  | W64 z => is_uint 64 z
  | WHash b => all_bytes b
  | WAccount b => all_bytes b /\ (b = [] \/ length b = 20%nat)
  | WVector hs => Forall (fun h => all_bytes h /\ length h = 32%nat) hs /\ (length hs <= 512)%nat
  end.

Definition whdr (f : wireField) : Z * Z := (wtype f, wfield f).

Definition fieldOk (f : wireField) : Prop := 1 <= wtype f <= 255 /\ 1 <= wfield f <= 255 /\ wireOk (wvalue f).

Lemma readUint16_app z rest : is_uint 16 z -> readUint16 (zToBytes 2 z ++ rest) = inr (z, rest).
Proof. apply (readWord_app 2). Qed.

Lemma readUint32_app z rest : is_uint 32 z -> readUint32 (zToBytes 4 z ++ rest) = inr (z, rest).
Proof. apply (readWord_app 4). Qed.

Lemma readUint64_app z rest : is_uint 64 z -> readUint64Raw (zToBytes 8 z ++ rest) = inr (z, rest).
Proof. apply (readWord_app 8). Qed.

Lemma withPrefix_ok b : Z.of_nat (length b) <= 918744 ->
  exists vl, encodeVariableLength (Z.of_nat (length b)) = inr vl /\ withPrefix b = inr (vl ++ b).
Proof.
  intros Hb. unfold withPrefix. destruct (proj2 (encodeVariableLength_domain (Z.of_nat (length b)))) as [vl ->]; [lia|]. by exists vl.
Qed.

Lemma readAccount_app b e rest : wireOk (WAccount b) -> encodeValue (WAccount b) = inr e -> readAccountID (e ++ rest) = inr (b, rest).
Proof.
  intros [_ Hb]. cbn [encodeValue]. destruct (withPrefix_ok b) as (vl & Hvl & ->); [destruct Hb as [->| ->]; cbn; lia|].
  intros [= <-]. unfold readAccountID, rbind at 1. rewrite <- app_assoc, (readVL_app _ _ _ Hvl).
  destruct Hb as [->|Hb]; [done|]. rewrite Hb. change (Z.of_nat 20) with 20. change (20 =? 0) with false. cbv iota. unfold rbind.
  rewrite readRaw_app by (by rewrite Hb). done.
Qed.

Lemma concat_length32 hs : Forall (fun h => all_bytes h /\ length h = 32%nat) hs -> length (concat hs) = (32 * length hs)%nat.
Proof. induction 1 as [|h hs [_ Hh] _ IH]; [done|]. cbn [concat length]. rewrite length_app. lia. Qed.

Lemma chunks_concat hs : Forall (fun h => all_bytes h /\ length h = 32%nat) hs -> chunks (length hs) (concat hs) = hs.
Proof.
  induction 1 as [|h hs [_ Hh] _ IH]; [done|]. cbn [concat length chunks]. rewrite take_app_le by lia. rewrite take_ge by lia.
  by rewrite drop_app_ge, Hh, Nat.sub_diag, drop_0, IH by lia.
Qed.

Lemma encodeVector_ok hs : wireOk (WVector hs) -> exists vl,
  encodeVariableLength (32 * Z.of_nat (length hs)) = inr vl /\ encodeValue (WVector hs) = inr (vl ++ concat hs).
Proof.
  intros [Hf Hl]. cbn [encodeValue]. unfold MaxJSONArrayElements. rewrite (proj2 (Z.ltb_ge _ _)) by lia.
  destruct (withPrefix_ok (concat hs)) as (vl & Hvl & ->); rewrite concat_length32 in * by done; [lia|].
  exists vl. split; [|done]. rewrite <- Hvl. f_equal. lia.
Qed.

Lemma readVector_app hs e rest : wireOk (WVector hs) -> encodeValue (WVector hs) = inr e -> readVector256 (e ++ rest) = inr (hs, rest).
Proof.
  intros Hok. destruct (encodeVector_ok hs Hok) as (vl & Hvl & ->). destruct Hok as [Hf Hl]. intros [= <-].
  unfold readVector256, rbind at 1. rewrite <- app_assoc, (readVL_app _ _ _ Hvl).
  replace ((32 * Z.of_nat (length hs)) mod 32) with 0 by dmlia. cbn [negb Z.eqb]. unfold rbind.
  rewrite readRaw_app by (rewrite concat_length32 by done; lia). unfold rret.
  replace (Z.to_nat (32 * Z.of_nat (length hs) / 32)) with (length hs) by dmlia. by rewrite chunks_concat.
Qed.

Lemma encodeValue_total v : wireOk v -> exists e, encodeValue v = inr e.
Proof.
  destruct v as [z|z|z|b|b|hs]; cbn [wireOk]; intros Hok; try (eexists; reflexivity).
  - destruct Hok as [_ Hb]. destruct (withPrefix_ok b) as (vl & _ & He); [destruct Hb as [->| ->]; cbn; lia|]. by exists (vl ++ b).
  - destruct (encodeVector_ok hs Hok) as (vl & _ & He). by eexists.
Qed.

Lemma encodeFields_total fs : Forall fieldOk fs -> exists b, encodeFields fs = inr b.
Proof.
  induction 1 as [|f fs (_ & _ & Hv) _ [b IH]]; [by exists []|]. cbn [encodeFields]. destruct (encodeValue_total _ Hv) as [e ->].
  rewrite IH. by eexists.
Qed.

Lemma encodeHeader_nonempty tc fc : 1 <= tc <= 255 -> 1 <= fc <= 255 -> (1 <= length (encodeHeader (mkFieldHeader tc fc)))%nat.
Proof. intros. rewrite encodeHeader_arith by done. go_cases; cbn; lia. Qed.

Lemma encodeFields_length fs b : Forall fieldOk fs -> encodeFields fs = inr b -> (length fs <= length b)%nat.
Proof.
  intros Hf. revert b. induction Hf as [|f fs (Ht & Hc & Hv) _ IH]; intros b; cbn [encodeFields]; [by intros [= <-]|].
  destruct (encodeValue (wvalue f)) as [|e]; [done|]. destruct (encodeFields fs) as [|r]; [done|]. intros [= <-].
  specialize (IH r eq_refl). pose proof (encodeHeader_nonempty _ _ Ht Hc). cbn [length]. rewrite !length_app. lia.
Qed.

(** The loop reads the fields back one after the other. *)
Lemma fieldsLoop_encode {A} (step : A -> Z -> Z -> Reader A) (store : A -> wireField -> A) fs acc b seen fuel :
  (forall acc f e rest, f ∈ fs -> encodeValue (wvalue f) = inr e -> step acc (wtype f) (wfield f) (e ++ rest) = inr (store acc f, rest)) ->
  Forall fieldOk fs -> NoDup (whdr <$> fs) -> (forall f, f ∈ fs -> whdr f ∉ seen) ->
  encodeFields fs = inr b -> (length fs <= fuel)%nat ->
  fieldsLoop step fuel seen acc b = inr (foldl store acc fs, []).
Proof.
  intros Hst Hf. revert acc b seen fuel. induction Hf as [|f fs (Ht & Hc & Hv) Hf IH]; intros acc b seen fuel Hnd Hns He Hl.
  - injection He as <-. by destruct fuel.
  - cbn [encodeFields] in He. destruct (encodeValue_total _ Hv) as [e Hev]. rewrite Hev in He.
    destruct (encodeFields_total fs Hf) as [r Hr]. rewrite Hr in He. injection He as <-. destruct fuel as [|fuel]; [cbn in Hl; lia|].
    cbn [fmap list_fmap] in Hnd. apply NoDup_cons in Hnd as [Hnf Hnd].
    pose proof (encodeHeader_nonempty _ _ Ht Hc) as Hne.
    destruct (encodeHeader _ ++ e ++ r) as [|x l] eqn:Heq; [apply (f_equal length) in Heq; rewrite length_app in Heq; cbn in Heq; lia|].
    cbn [fieldsLoop]. rewrite <- Heq. unfold rbind at 1. rewrite readHeader_app by done. cbn [fst snd].
    rewrite bool_decide_eq_false_2 by (apply Hns; left). unfold rbind. rewrite Hst by (done || left). cbn [foldl].
    apply IH; [|done| |done|cbn in Hl; lia].
    + intros acc' f' e' rest' Hin. apply Hst. by right.
    + intros f' Hin. rewrite not_elem_of_cons. split; [|apply Hns; by right]. intros Heq'. apply Hnf. apply list_elem_of_fmap. by exists f'.
Qed.

Lemma all_bytes_app a b : all_bytes (a ++ b) <-> all_bytes a /\ all_bytes b.
Proof. apply Forall_app. Qed.

Lemma withPrefix_bytes b e : all_bytes b -> withPrefix b = inr e -> all_bytes e.
Proof.
  intros Hb. unfold withPrefix. destruct (encodeVariableLength _) as [|vl] eqn:Hvl; [done|]. intros [= <-]. apply all_bytes_app.
  split; [by eapply encodeVariableLength_bytes|done].
Qed.

Lemma encodeValue_bytes v e : wireOk v -> encodeValue v = inr e -> all_bytes e.
Proof.
  destruct v as [z|z|z|b|b|hs]; cbn [wireOk encodeValue]; intros Hok.
  1-3: intros He; apply (inj inr) in He; subst e; apply zToBytes_bytes.
  - intros He. apply (inj inr) in He. by subst e.
  - destruct Hok as [Hb _]. by apply withPrefix_bytes.
  - destruct (_ <? _); [done|]. apply withPrefix_bytes. destruct Hok as [Hf _]. induction Hf as [|h hs [Hh _] _ IH]; [constructor|].
    cbn [concat]. by apply all_bytes_app.
Qed.

Lemma encodeFields_bytes fs b : Forall fieldOk fs -> encodeFields fs = inr b -> all_bytes b.
Proof.
  intros Hf. revert b. induction Hf as [|f fs (Ht & Hc & Hv) _ IH]; intros b; cbn [encodeFields]; [by intros [= <-]; constructor|].
  destruct (encodeValue (wvalue f)) as [|e] eqn:He; [done|]. destruct (encodeFields fs) as [|r]; [done|]. intros [= <-].
  rewrite !all_bytes_app. split_and!; [|by eapply encodeValue_bytes|by apply IH].
  rewrite encodeHeader_arith by done. go_cases; repeat constructor; unfold is_uint; lia.
Qed.

(** Fields listed in the order of their ordinals are written in that order. *)
#[global] Instance ordinalLess_weak : StrictWeak ordinalLess.
Proof. unfold ordinalLess. split; intros; zbool; rewrite ?Z.ltb_lt, ?Z.ltb_ge in *; lia. Qed.


End EntryStream.
