(* ===== verification/LedgerEntry.v ===== *)
(** * Ledger entries (ledger/entry, internal/ledger/state/sle.go, protocol)

    The generated structs of ledger/entry hold a value and a presence bit per
    field; here an entry is a finite map from field headers to values, so that
    [Has], [Get], [Set] and [Clear] are the map operations. The generated [decode]
    and [Encode] methods differ only in the fields they know and require, which a
    [schema] lists. Keylets and the type test of reads are here as well. *)

From Stdlib Require Import ZArith Lia.
From stdpp Require Import base list numbers gmap strings sorting.
From S2P Require Import Prelude Serdes Sha512 EntryStream.

Module LedgerEntry.
Import Serdes Sha512 EntryStream.

(** ** Types of entries *)

Definition LedgerEntryTypeAny : Z := 0.
Definition LedgerEntryTypeChild : Z := 0x1CD2.
Definition TypeDirectoryNode : Z := 0x0064.
Definition TypeLedgerHashes : Z := 0x0068.

Definition ledgerEntryTypes : list Z := [
  0x0037; 0x0043; 0x0049; 0x004E; 0x0050; 0x0053; 0x0054; 0x0061; 0x0063; 0x0064; 0x0066; 0x0067; 0x0068; 0x0069;
  0x006E; 0x006F; 0x0070; 0x0071; 0x0072; 0x0073; 0x0074; 0x0075; 0x0078; 0x0079; 0x007E; 0x007F; 0x0080; 0x0081;
  0x0082; 0x0083; 0x0084; 0x0088; 0x0089; 0x0090].

Definition LedgerEntryTypeByCode (code : Z) : bool := bool_decide (code ∈ ledgerEntryTypes).

(** The type in front of every entry, or nothing if it is malformed or unknown. *)
Definition DecodeType (data : bytes) : option Z :=
  match data with
  | h :: a :: b :: _ =>
      if negb (h =? 0x11) then None
      else let typ := bytesToZ [a; b] 0 in if LedgerEntryTypeByCode typ then Some typ else None
  | _ => None
  end.

Record Keylet := mkKeylet { KType : Z; Key : bytes }.

Definition MatchesKeyletType (k : Keylet) (data : bytes) : bool :=
  if KType k =? LedgerEntryTypeAny then true
  else
    match DecodeType data with
    | None => false
    | Some entryType =>
        if KType k =? LedgerEntryTypeChild then negb (entryType =? TypeDirectoryNode)
        else entryType =? KType k
    end.

(** ** Fields of an entry *)

Abbreviation header := (Z * Z)%type.
Abbreviation entry := (gmap header wireValue).

Definition sfLedgerEntryType : header := (1, 1).
Definition sfFlags : header := (2, 2).

Definition has (h : header) (e : entry) : bool := bool_decide (is_Some (e !! h)).
Definition getInt (h : header) (e : entry) : Z :=
  match e !! h with Some (W16 z) | Some (W32 z) | Some (W64 z) => z | _ => 0 end.
Definition getHash (n : nat) (h : header) (e : entry) : bytes :=
  match e !! h with Some (WHash b) => b | _ => replicate n 0 end.
Definition getAccount (h : header) (e : entry) : bytes :=
  match e !! h with Some (WAccount (x :: b)) => x :: b | _ => replicate 20 0 end.
Definition getVector (h : header) (e : entry) : list bytes :=
  match e !! h with Some (WVector hs) => hs | _ => [] end.
Definition set (h : header) (v : wireValue) (e : entry) : entry := <[h := v]> e.
Definition clear (h : header) (e : entry) : entry := delete h e.

(** ** Decoding and encoding *)

Record schema := mkSchema { entryCode : Z; known : list header; required : list (header * string) }.

(** A value of the type with this code. *)
Definition readValue (typeCode : Z) : Reader wireValue :=
  if typeCode =? 1 then let$ v := readUint16 in rret (W16 v)
  else if typeCode =? 2 then let$ v := readUint32 in rret (W32 v)
  else if typeCode =? 3 then let$ v := readUint64Raw in rret (W64 v)
  else if typeCode =? 5 then let$ v := readHash 32 in rret (WHash v)
  else if typeCode =? 8 then let$ v := readAccountID in rret (WAccount v)
  else if typeCode =? 17 then let$ v := readHash 20 in rret (WHash v)
  else if typeCode =? 19 then let$ v := readVector256 in rret (WVector v)
  else let$ v := readHash 24 in rret (WHash v).

Definition knownType (s : schema) (typeCode : Z) : bool :=
  (typeCode =? 1) || bool_decide (typeCode ∈ fst <$> known s).

(** One field: the reader of its type comes before the test of the field code,
    except for 64-bit integers. *)
Definition decodeStep (s : schema) (a : entry * bool) (typeCode fieldCode : Z) : Reader (entry * bool) :=
  let '(d, sawLedgerEntryType) := a in
  let unknown := negb (bool_decide ((typeCode, fieldCode) ∈ sfLedgerEntryType :: known s)) in
  if negb (knownType s typeCode) then rfail (UnknownField typeCode fieldCode)
  else if (typeCode =? 3) && unknown then rfail (UnknownField typeCode fieldCode)
  else
    let$ v := readValue typeCode in
    if unknown then rfail (UnknownField typeCode fieldCode)
    else if bool_decide ((typeCode, fieldCode) = sfLedgerEntryType) then
      match v with
      | W16 val => if negb (val =? entryCode s) then rfail (WrongEntryType val) else rret (d, true)
      | _ => rret (d, sawLedgerEntryType)
      end
    else rret (<[(typeCode, fieldCode) := v]> d, sawLedgerEntryType).

(** The first required field that is not there. *)
Fixpoint validate (req : list (header * string)) (e : entry) : option streamError :=
  match req with
  | [] => None
  | (h, name) :: req => if has h e then validate req e else Some (MissingField name)
  end.

Definition Decode (s : schema) (data : bytes) : streamError + entry :=
  match fieldsLoop (decodeStep s) (length data) [] (∅, false) data with
  | inl err => inl err
  | inr ((d, saw), _) =>
      if negb saw then inl (MissingField "LedgerEntryType")
      else match validate (required s) d with Some err => inl err | None => inr d end
  end.

Definition ToMap (s : schema) (e : entry) : list wireField :=
  mkWire 1 1 (W16 (entryCode s)) :: ((fun hv => mkWire hv.1.1 hv.1.2 hv.2) <$> map_to_list e).

Definition Encode (s : schema) (e : entry) : streamError + bytes :=
  match validate (required s) e with
  | Some err => inl err
  | None => fromJSON (ToMap s e)
  end.

(** ** Well-typed entries *)

Definition typed (typeCode : Z) (v : wireValue) : Prop :=
  match v with
  | W16 _ => typeCode = 1
  | W32 _ => typeCode = 2
  | W64 _ => typeCode = 3
  | WHash b => typeCode = 5 /\ length b = 32%nat \/ typeCode = 17 /\ length b = 20%nat \/ typeCode = 21 /\ length b = 24%nat
  | WAccount _ => typeCode = 8
  | WVector _ => typeCode = 19
  end.

Definition entryTyped (s : schema) (e : entry) : Prop :=
  map_Forall (fun h v => h ∈ known s /\ typed h.1 v /\ wireOk v) e.

Definition schemaOk (s : schema) : Prop :=
  is_uint 16 (entryCode s) /\ Forall (fun h => 2 <= h.1 <= 255 /\ 1 <= h.2 <= 255) (known s).

Lemma readValue_encode tc v e rest : typed tc v -> wireOk v -> encodeValue v = inr e -> readValue tc (e ++ rest) = inr (v, rest).
Proof.
  intros Ht Hok He. unfold readValue. destruct v as [z|z|z|b|b|hs]; cbn [typed wireOk encodeValue] in *.
  1-4: apply (inj inr) in He; subst e.
  - subst tc. change ((let$ v := readUint16 in rret (W16 v)) (zToBytes 2 z ++ rest) = inr (W16 z, rest)). unfold rbind. by rewrite readUint16_app.
  - subst tc. change ((let$ v := readUint32 in rret (W32 v)) (zToBytes 4 z ++ rest) = inr (W32 z, rest)). unfold rbind. by rewrite readUint32_app.
  - subst tc. change ((let$ v := readUint64Raw in rret (W64 v)) (zToBytes 8 z ++ rest) = inr (W64 z, rest)). unfold rbind. by rewrite readUint64_app.
  - destruct Ht as [[-> Hl]|[[-> Hl]|[-> Hl]]]; cbn; unfold rbind, readHash; by rewrite readRaw_app.
  - subst tc. cbn. unfold rbind. by rewrite (readAccount_app b e rest).
  - subst tc. cbn. unfold rbind. by rewrite (readVector_app hs e rest).
Qed.
(** What reading a field does to the entry under way. *)
Definition store (a : entry * bool) (f : wireField) : entry * bool :=
  if bool_decide (whdr f = sfLedgerEntryType) then (a.1, true) else (<[whdr f := wvalue f]> a.1, a.2).

Lemma store_frame l a h : h ∉ whdr <$> l -> (foldl store a l).1 !! h = a.1 !! h.
Proof.
  revert a. induction l as [|f l IH]; intros a; cbn [foldl fmap list_fmap]; [done|]. rewrite not_elem_of_cons. intros [Hf Hl].
  rewrite IH by done. unfold store. case_bool_decide; [done|]. cbn. by rewrite lookup_insert_ne.
Qed.

Lemma store_elem l a f : NoDup (whdr <$> l) -> f ∈ l -> whdr f <> sfLedgerEntryType -> (foldl store a l).1 !! whdr f = Some (wvalue f).
Proof.
  revert a. induction l as [|g l IH]; intros a; cbn [foldl fmap list_fmap]; [by rewrite elem_of_nil|].
  rewrite NoDup_cons, elem_of_cons. intros [Hg Hl] [->|Hin] Hne; [|by apply IH].
  rewrite store_frame by done. unfold store. rewrite bool_decide_eq_false_2 by done. cbn. by rewrite lookup_insert_eq.
Qed.

Lemma store_saw l a : a.2 = true \/ sfLedgerEntryType ∈ whdr <$> l -> (foldl store a l).2 = true.
Proof.
  revert a. induction l as [|f l IH]; intros a; cbn [foldl fmap list_fmap]; [rewrite elem_of_nil; tauto|].
  rewrite elem_of_cons. intros H. apply IH. unfold store. case_bool_decide as He; [by left|]. cbn.
  destruct H as [H|[H|H]]; [by left|by rewrite H in He|by right].
Qed.

Section Codec.
Context (s : schema) (e : entry).
Hypothesis Hs : schemaOk s.
Hypothesis He : entryTyped s e.

Lemma ToMap_elem f :
  f ∈ ToMap s e <-> f = mkWire 1 1 (W16 (entryCode s)) \/ e !! whdr f = Some (wvalue f).
Proof.
  unfold ToMap. rewrite elem_of_cons, list_elem_of_fmap. apply or_iff_compat_l. split.
  - intros ([[a b] v] & -> & Hin). by apply elem_of_map_to_list in Hin.
  - intros Hl. exists (whdr f, wvalue f). split; [by destruct f|by apply elem_of_map_to_list].
Qed.

Lemma known_header h v : e !! h = Some v -> 2 <= h.1 <= 255 /\ 1 <= h.2 <= 255 /\ h <> sfLedgerEntryType.
Proof.
  intros Hv. destruct (He h v Hv) as [Hk _]. destruct Hs as [_ Hf]. eapply list.Forall_forall in Hf as [H1 H2]; [|exact Hk].
  split_and!; [lia..|]. intros ->. cbn in *. lia.
Qed.

Lemma ToMap_ok : Forall fieldOk (ToMap s e).
Proof.
  apply list.Forall_forall. intros f [->|Hf]%ToMap_elem.
  - unfold fieldOk. cbn. split_and!; [lia..|]. apply Hs.
  - destruct (known_header _ _ Hf) as (H1 & H2 & _). destruct (He _ _ Hf) as (_ & _ & Hok). unfold fieldOk. cbn in H1, H2. split_and!; [lia..|done].
Qed.

Lemma ToMap_nodup : NoDup (whdr <$> ToMap s e).
Proof.
  unfold ToMap. rewrite fmap_cons, <- list_fmap_compose, (list_fmap_ext _ fst) by (by intros _ [[? ?] ?] _).
  apply NoDup_cons. split; [|apply NoDup_fst_map_to_list].
  intros ([h v] & Hh & Hin)%list_elem_of_fmap. apply elem_of_map_to_list in Hin. apply known_header in Hin as (_ & _ & Hne). by cbn in Hh.
Qed.

Lemma decodeStep_store a f b rest :
  f ∈ ToMap s e -> encodeValue (wvalue f) = inr b -> decodeStep s a (wtype f) (wfield f) (b ++ rest) = inr (store a f, rest).
Proof.
  destruct a as [d saw]. intros Hf Hb. unfold decodeStep, store. apply ToMap_elem in Hf as [->|Hf].
  - cbn [wtype wfield wvalue] in *. change (knownType s 1) with true. cbn [negb].
    rewrite (bool_decide_eq_true_2 (_ ∈ _ :: _)) by left. change (1 =? 3) with false. cbn [negb andb]. unfold rbind.
    rewrite (readValue_encode 1 (W16 (entryCode s)) b rest) by (done || apply Hs). by rewrite Z.eqb_refl.
  - destruct (He _ _ Hf) as (Hk & Ht & Hok). destruct (known_header _ _ Hf) as (_ & _ & Hne). destruct f as [tc fc v]. unfold whdr in *.
    cbn [wtype wfield wvalue fst] in *. unfold knownType. rewrite (bool_decide_eq_true_2 (tc ∈ _)) by (apply list_elem_of_fmap; by exists (tc, fc)).
    rewrite orb_true_r. cbn [negb]. rewrite (bool_decide_eq_true_2 (_ ∈ _ :: _)) by (by right). cbn [negb]. rewrite andb_false_r.
    unfold rbind. rewrite (readValue_encode tc v b rest) by done. by rewrite !(bool_decide_eq_false_2 (_ = _)).
Qed.

Lemma validate_lookup req : Forall (fun r => is_Some (e !! r.1)) req -> validate req e = None.
Proof. induction 1 as [|[h name] req Hh _ IH]; [done|]. cbn in *. unfold has. by rewrite bool_decide_eq_true_2. Qed.

Lemma sort_head f l : f ∈ l -> (forall g, g ∈ l -> g = f \/ ordinalLess f g = true) -> exists l', sort_by ordinalLess l = f :: l'.
Proof.
  intros Hin Hmin. pose proof (sort_by_perm ordinalLess l) as Hp. pose proof (sort_by_sorted ordinalLess l) as Hso.
  destruct (sort_by ordinalLess l) as [|g l'] eqn:Hsl; [symmetry in Hp; apply Permutation_nil_r in Hp as ->; by apply elem_of_nil in Hin|].
  exists l'. f_equal. destruct (Hmin g) as [->|Hlt]; [rewrite <- Hp; left|done|]. rewrite <- Hp, elem_of_cons in Hin.
  destruct Hin as [->|Hin]; [done|]. inversion_clear Hso as [|? ? _ Hall]. eapply list.Forall_forall in Hall; [|exact Hin]. congruence.
Qed.

Lemma sorted_fields (P : wireField -> Prop) : Forall P (ToMap s e) -> Forall P (sort_by ordinalLess (ToMap s e)).
Proof. intros HP. by rewrite (sort_by_perm ordinalLess). Qed.

Lemma ToMap_first : exists l, sort_by ordinalLess (ToMap s e) = mkWire 1 1 (W16 (entryCode s)) :: l.
Proof.
  apply sort_head; [apply ToMap_elem; by left|]. intros g [->|Hg]%ToMap_elem; [by left|right].
  destruct (known_header _ _ Hg) as (H1 & H2 & _). unfold ordinalLess, wordinal. cbn [wtype wfield]. cbn in H1, H2.
  rewrite !Z.shiftl_mul_pow2 by lia. apply Z.ltb_lt. lia.
Qed.

Lemma foldl_store_entry : foldl store (∅, false) (sort_by ordinalLess (ToMap s e)) = (e, true).
Proof.
  set (l := sort_by ordinalLess (ToMap s e)). pose proof (sort_by_perm ordinalLess (ToMap s e)) as Hp. fold l in Hp.
  assert (Hnd : NoDup (whdr <$> l)) by (rewrite Hp; apply ToMap_nodup).
  rewrite (surjective_pairing (foldl store _ l)). f_equal.
  - apply map_eq. intros h. destruct (e !! h) as [v|] eqn:Hv.
    + destruct h as [tc fc]. apply (store_elem l (∅, false) (mkWire tc fc v)); [done| |by apply known_header in Hv as (_ & _ & ?)].
      rewrite Hp. apply ToMap_elem. by right.
    + destruct (decide (h = sfLedgerEntryType)) as [->|Hne].
      * clear -l. generalize l. clear l. intros l. assert (Hg : forall a : entry * bool, a.1 !! sfLedgerEntryType = None -> (foldl store a l).1 !! sfLedgerEntryType = None).
        { induction l as [|f l IH]; intros a Ha; [done|]. cbn [foldl]. apply IH. unfold store. case_bool_decide as Hf; [done|].
          cbn. by rewrite lookup_insert_ne. }
        by apply Hg.
      * rewrite store_frame; [done|]. rewrite Hp. intros (f & -> & [->|Hf]%ToMap_elem)%list_elem_of_fmap; [done|congruence].
  - apply store_saw. right. rewrite Hp. left.
Qed.

(** A well-typed entry with its required fields is encoded, its type can be read off
    the encoding, and decoding gives the entry back. *)
Theorem entry_roundtrip :
  LedgerEntryTypeByCode (entryCode s) = true -> Forall (fun r => is_Some (e !! r.1)) (required s) ->
  exists b, Encode s e = inr b /\ Decode s b = inr e /\ all_bytes b /\ DecodeType b = Some (entryCode s).
Proof.
  intros Hcode Hreq. unfold Encode, Decode. rewrite (validate_lookup _ Hreq). unfold fromJSON.
  pose proof (sorted_fields fieldOk ToMap_ok) as Hok. destruct (encodeFields_total _ Hok) as [b Hb]. exists b.
  split_and!; [done| |by eapply encodeFields_bytes|].
  - rewrite (fieldsLoop_encode (decodeStep s) store (sort_by ordinalLess (ToMap s e)) (∅, false) b []).
    + rewrite foldl_store_entry. cbn [negb]. by rewrite (validate_lookup _ Hreq).
    + intros a f v rest Hf. apply decodeStep_store. by rewrite <- (sort_by_perm ordinalLess (ToMap s e)).
    + done.
    + rewrite (sort_by_perm ordinalLess (ToMap s e)). apply ToMap_nodup.
    + intros f _. apply not_elem_of_nil.
    + done.
    + by apply encodeFields_length.
  - destruct ToMap_first as [l Hl]. rewrite Hl in Hb. cbn [encodeFields wvalue encodeValue wtype wfield] in Hb.
    destruct (encodeFields l) as [|r]; [done|]. injection Hb as <-. change (encodeHeader _) with [0x11]. cbn [app DecodeType zToBytes negb Z.eqb Pos.eqb].
    assert (Hz : bytesToZ [(entryCode s / 256) mod 256; entryCode s mod 256] 0 = entryCode s).
    { apply (bytesToZ_zToBytes 2 (entryCode s) 0). destruct Hs as [Hu _]. exact Hu. }
    rewrite Hz. by rewrite Hcode.
Qed.

(** No field is longer than the whole entry. *)
Lemma field_length h v x b : Encode s e = inr b -> e !! h = Some v -> encodeValue v = inr x -> (length x <= length b)%nat.
Proof.
  unfold Encode, fromJSON. destruct (validate _ _); [done|]. intros Hb Hv Hx.
  assert (Hin : mkWire h.1 h.2 v ∈ sort_by ordinalLess (ToMap s e)).
  { rewrite (sort_by_perm ordinalLess (ToMap s e)). apply ToMap_elem. right. by destruct h. }
  revert b Hb. induction (sort_by ordinalLess (ToMap s e)) as [|f l IH]; intros b; [by apply elem_of_nil in Hin|]. cbn [encodeFields].
  destruct (encodeValue (wvalue f)) as [|y] eqn:Hy; [done|]. destruct (encodeFields l) as [|r]; [done|]. intros [= <-].
  rewrite !length_app. apply elem_of_cons in Hin as [<-|Hin]; [cbn in Hy; rewrite Hx in Hy; injection Hy as <-; lia|].
  specialize (IH Hin r eq_refl). lia.
Qed.

End Codec.


End LedgerEntry.
