(* ===== verification/LedgerView.v ===== *)
(** * Views of the ledger state (internal/ledger/state/ledger_view.go, keylet)

    The helpers of the state package work on any [LedgerView]. Operations take and
    return the view, because a view remembers what was read through it; they may
    fail, and a failing one may have changed the view. What a client can rely on is
    [LedgerViewLaws]: a view stands for a finite map from keys to entries. *)

From Stdlib Require Import ZArith Lia.
From stdpp Require Import base list numbers gmap strings.
From S2P Require Import Prelude Sha512 ShaMapKey EntryStream LedgerEntry.

Module LedgerView.
Import Sha512 ShaMapKey LedgerEntry.

(** ** Operations that thread a view *)

Definition VM (V E A : Type) : Type := V -> (E + A) * V.

Definition vret {V E A} (a : A) : VM V E A := fun v => (inr a, v).
Definition vfail {V E A} (e : E) : VM V E A := fun v => (inl e, v).
Definition vlift {V E A} (r : E + A) : VM V E A := fun v => (r, v).
Definition vbind {V E A B} (m : VM V E A) (k : A -> VM V E B) : VM V E B :=
  fun v => match m v with (inl e, v) => (inl e, v) | (inr a, v) => k a v end.

(** Turns the errors of a view into those of its client. *)
Definition vmap {V E E' A} (f : E -> E') (m : VM V E A) : VM V E' A :=
  fun v => match m v with (inl e, v) => (inl (f e), v) | (inr a, v) => (inr a, v) end.

Notation "'let*' x := m 'in' k" := (vbind m (fun x => k))
  (at level 10, x name, m at level 100, k at level 200) : go_scope.
Notation "m ';;*' k" := (vbind m (fun _ => k)) (at level 60, right associativity) : go_scope.

(** ** The interface *)

(** The amendments enabled, by name. *)
Abbreviation Rules_ := (string -> bool).

Class LedgerView (V E : Type) := {
  Read : Keylet -> VM V E (option bytes);
  Exists_ : Keylet -> VM V E bool;
  Insert : Keylet -> bytes -> VM V E unit;
  Update : Keylet -> bytes -> VM V E unit;
  Erase : Keylet -> VM V E unit;
  Rules : V -> option Rules_ }.

(** What a read through a keylet shows of an entry. *)
Definition visible (k : Keylet) (o : option bytes) : option bytes :=
  match o with Some d => if MatchesKeyletType k d then Some d else None | None => None end.

Lemma visible_some k o : is_Some (visible k o) -> is_Some o.
Proof. destruct o; [done|]. by intros [? ?]. Qed.

(** Data that can be stored: the state tree takes no fewer than twelve bytes. *)
Definition storable (d : bytes) : Prop := all_bytes d /\ (12 <= length d)%nat.

(** The view has gone from [v] to [v'], with the contents [m]. *)
Definition becomes {V} (valid : V -> Prop) (contents : V -> gmap bytes bytes) (rules : V -> option Rules_)
    (v v' : V) (m : gmap bytes bytes) : Prop :=
  valid v' /\ contents v' = m /\ rules v' = rules v.

Class LedgerViewLaws (V E : Type) `{!LedgerView V E} := {
  valid : V -> Prop;
  contents : V -> gmap bytes bytes;
  Read_spec v k : valid v -> is_key (Key k) ->
    exists v', Read k v = (inr (visible k (contents v !! Key k)), v') /\ becomes valid contents Rules v v' (contents v);
  Exists_spec v k : valid v -> is_key (Key k) ->
    match contents v !! Key k with
    | None => exists v', Exists_ k v = (inr false, v') /\ becomes valid contents Rules v v' (contents v)
    | Some d => MatchesKeyletType k d = true -> exists v', Exists_ k v = (inr true, v') /\ becomes valid contents Rules v v' (contents v)
    end;
  Insert_spec v k d : valid v -> is_key (Key k) -> storable d ->
    match contents v !! Key k with
    | None => exists v', Insert k d v = (inr tt, v') /\ becomes valid contents Rules v v' (<[Key k := d]> (contents v))
    | Some d' => MatchesKeyletType k d' = true -> exists e v', Insert k d v = (inl e, v') /\ becomes valid contents Rules v v' (contents v)
    end;
  Update_spec v k d : valid v -> is_key (Key k) -> storable d -> is_Some (visible k (contents v !! Key k)) ->
    exists v', Update k d v = (inr tt, v') /\ becomes valid contents Rules v v' (<[Key k := d]> (contents v));
  Erase_spec v k : valid v -> is_key (Key k) -> is_Some (visible k (contents v !! Key k)) ->
    exists v', Erase k v = (inr tt, v') /\ becomes valid contents Rules v v' (delete (Key k) (contents v)) }.

(** Views that commit groups of changes and count destroyed drops. *)
Class AtomicLedgerView (V E : Type) `{!LedgerView V E} := {
  AdjustDropsDestroyed : Z -> VM V E unit;
  ApplyAtomically : VM V E unit -> VM V E unit }.

(** Addition of drops, which wraps as 64-bit signed integers do. *)
Definition addDrops (x y : Z) : Z := (x + y + 2 ^ 63) mod 2 ^ 64 - 2 ^ 63.

(** A group of changes is made to a staged copy, which is the view if it succeeds and is
    dropped if it fails. *)
Class AtomicLedgerViewLaws (V E : Type) `{!LedgerView V E} `{!LedgerViewLaws V E} `{!AtomicLedgerView V E} := {
  destroyed : V -> Z;
  Insert_drops v k d : destroyed (snd (Insert k d v)) = destroyed v;
  Update_drops v k d : destroyed (snd (Update k d v)) = destroyed v;
  Erase_drops v k : destroyed (snd (Erase k v)) = destroyed v;
  Adjust_spec v z : valid v ->
    exists v', AdjustDropsDestroyed z v = (inr tt, v') /\ becomes valid contents Rules v v' (contents v) /\ destroyed v' = addDrops (destroyed v) z;
  Atomic_spec v c : valid v ->
    exists s, becomes valid contents Rules v s (contents v) /\ destroyed s = destroyed v /\
      match c s with
      | (inl e, _) => exists v', ApplyAtomically c v = (inl e, v') /\ becomes valid contents Rules v v' (contents v) /\ destroyed v' = destroyed v
      | (inr _, s') => becomes valid contents Rules v s' (contents s') ->
          exists v', ApplyAtomically c v = (inr tt, v') /\ becomes valid contents Rules v v' (contents s') /\ destroyed v' = destroyed s'
      end }.

(** ** Keys of directory pages *)

Section Keylets.
Context `{Hasher}.

Definition indexHash (space : Z) (data : list bytes) : bytes := Hash (zToBytes 2 space ++ concat data).

Definition spaceDirNode : Z := 100.
Definition spaceSkip : Z := 115.

Definition DirPage (rootKey : bytes) (page : Z) : Keylet :=
  if page =? 0 then mkKeylet TypeDirectoryNode rootKey
  else mkKeylet TypeDirectoryNode (indexHash spaceDirNode [rootKey; zToBytes 8 page]).

Lemma indexHash_key space data : is_key (indexHash space data).
Proof. split; [apply Hash_length|apply Hash_bytes]. Qed.

Lemma DirPage_key root n : is_key root -> is_key (Key (DirPage root n)).
Proof. intros Hr. unfold DirPage. destruct (n =? 0); [done|apply indexHash_key]. Qed.

Lemma DirPage_type root n : KType (DirPage root n) = TypeDirectoryNode.
Proof. unfold DirPage. by destruct (n =? 0). Qed.

End Keylets.

(** ** A hash that tells keys apart by the end of what is hashed, for examples *)

Definition tailHash (x : bytes) : bytes := exampleHash (reverse x).

Definition tailHasher : Hasher :=
  {| Hash := tailHash; Hash_length := fun x => exampleHash_length (reverse x); Hash_bytes := fun x => exampleHash_bytes (reverse x) |}.

Lemma tailHash_number n x x' z z' : (n <= 31)%nat -> 0 <= z < 256 ^ Z.of_nat n -> 0 <= z' < 256 ^ Z.of_nat n ->
  tailHash (x ++ zToBytes n z) = tailHash (x' ++ zToBytes n z') -> z = z'.
Proof.
  intros Hn Hz Hz' He. assert (Hend : forall y k, take n (tail (tailHash (y ++ zToBytes n k))) = reverse (zToBytes n k)).
  { intros y k. unfold tailHash, exampleHash. cbn [tail]. rewrite reverse_app, take_take, Nat.min_l, <- app_assoc, fmap_app, take_app_length' by (rewrite ?length_fmap, ?length_reverse, ?zToBytes_length; lia).
    rewrite fmap_reverse. f_equal. rewrite <- (list_fmap_id (zToBytes n k)) at 2. apply Forall_fmap_ext_1. eapply Forall_impl; [apply zToBytes_bytes|].
    intros b Hb. apply Z.mod_small. exact Hb. }
  apply (f_equal (fun l => take n (tail l))) in He. rewrite !Hend in He. apply (inj reverse) in He. apply (f_equal (fun b => bytesToZ b 0)) in He.
  rewrite !EntryStream.bytesToZ_zToBytes in He by done. lia.
Qed.

End LedgerView.
