(* ===== verification/LedgerHeader.v ===== *)
(** * Ledger headers (internal/ledger/header, protocol/time.go)

    The header of a ledger, its serialized form of 118 bytes (150 with the hash), and
    the hash that names the ledger. Times are instants in nanoseconds since the Unix
    epoch; the wire has whole seconds since the XRPL epoch. *)

From Stdlib Require Import ZArith Lia.
From stdpp Require Import base list numbers strings.
From S2P Require Import Prelude Serdes Sha512 ShaMapKey ShaMapHash EntryStream LedgerEntry.

Module LedgerHeader.
Import Sha512 ShaMapKey ShaMapHash EntryStream LedgerEntry.

(** ** Time *)

Definition second : Z := 1000000000.

(** Go's zero time, January 1 of the year 1. *)
Definition zeroTime : Z := -62135596800 * second.

Definition Unix (t : Z) : Z := t / second.
Definition RippleEpochUnix : Z := 946684800.

Definition RippleSeconds (t : Z) : Z := if t =? zeroTime then 0 else Unix t - RippleEpochUnix.
Definition ToRippleTime (t : Z) : Z := u32 (RippleSeconds t).
Definition FromRippleTime (seconds : Z) : Z := (RippleEpochUnix + seconds) * second.

Lemma time_roundtrip s : is_uint 32 s -> ToRippleTime (FromRippleTime s) = s.
Proof.
  unfold is_uint. intros Hs. unfold ToRippleTime, RippleSeconds, FromRippleTime, Unix, zeroTime, RippleEpochUnix, second.
  rewrite (proj2 (Z.eqb_neq _ _)) by lia. rewrite Z.div_mul by lia. replace (946684800 + s - 946684800) with s by lia. apply wrap_small. unfold is_uint. lia.
Qed.

Lemma ToRippleTime_uint t : is_uint 32 (ToRippleTime t).
Proof. by apply wrap_range. Qed.

(** ** Headers *)

Record LedgerHeader := mkHeader {
  LedgerIndex : Z; ParentCloseTime : Z; Hash_ : bytes; TxHash : bytes; AccountHash : bytes; ParentHash : bytes; Drops : Z;
  Validated : bool; Accepted : bool; CloseFlags : Z; CloseTimeResolution : Z; CloseTime : Z }.

Definition LCFNoConsensusTime : Z := 1.
Definition SizeBase : nat := 118.
Definition SizeWithHash : nat := 150.

Definition appendRawBody (h : LedgerHeader) : bytes :=
  zToBytes 4 (LedgerIndex h) ++ zToBytes 8 (Drops h) ++ ParentHash h ++ TxHash h ++ AccountHash h ++
  zToBytes 4 (ToRippleTime (ParentCloseTime h)) ++ zToBytes 4 (ToRippleTime (CloseTime h)) ++ [CloseTimeResolution h; CloseFlags h].

Definition AddRaw (h : LedgerHeader) (includeHash : bool) : bytes := appendRawBody h ++ (if includeHash then Hash_ h else []).

Definition HashPrefixLedgerMaster : bytes := [76; 87; 82; 0].

Definition CalculateHash `{Hasher} (h : LedgerHeader) : bytes := Hash (HashPrefixLedgerMaster ++ appendRawBody h).

Definition GetCloseAgree (h : LedgerHeader) : bool := Z.land (CloseFlags h) LCFNoConsensusTime =? 0.

Inductive headerError := InvalidSize | BadPrefix | ReadError (e : streamError).

Definition readHeader (hasHash : bool) : Reader LedgerHeader :=
  let$ index := readUint32 in
  let$ drops := readUint64Raw in
  let$ parentHash := readHash 32 in
  let$ txHash := readHash 32 in
  let$ accountHash := readHash 32 in
  let$ parentCloseTime := readUint32 in
  let$ closeTime := readUint32 in
  let$ resolution := readUint8 in
  let$ flags := readUint8 in
  let$ h := (if hasHash then readHash 32 else rret (replicate 32 0)) in
  rret (mkHeader index (FromRippleTime parentCloseTime) h txHash accountHash parentHash drops false false flags resolution (FromRippleTime closeTime)).

Definition DeserializeHeader (data : bytes) (hasHash : bool) : headerError + LedgerHeader :=
  let minSize := if hasHash then SizeWithHash else SizeBase in
  if negb (length data =? minSize)%nat then inl InvalidSize
  else match readHeader hasHash data with inl e => inl (ReadError e) | inr (h, _) => inr h end.

Definition DeserializePrefixedHeader (data : bytes) (hasHash : bool) : headerError + LedgerHeader :=
  let bodySize := if hasHash then SizeWithHash else SizeBase in
  if (length data <? 4)%nat then inl InvalidSize
  else if negb (length data =? 4 + bodySize)%nat then inl InvalidSize
  else if negb (bool_decide (take 4 data = HashPrefixLedgerMaster)) then inl BadPrefix
  else DeserializeHeader (drop 4 data) hasHash.

(** ** Round trips *)

Record headerOk (h : LedgerHeader) : Prop := {
  ok_index : is_uint 32 (LedgerIndex h); ok_drops : is_uint 64 (Drops h);
  ok_hash : is_key (Hash_ h); ok_tx : is_key (TxHash h); ok_account : is_key (AccountHash h); ok_parent : is_key (ParentHash h);
  ok_flags : is_uint 8 (CloseFlags h); ok_resolution : is_uint 8 (CloseTimeResolution h) }.

(** What the wire keeps of a header: seconds, no local status, the hash if asked for. *)
Definition wireHeader (h : LedgerHeader) (hasHash : bool) : LedgerHeader :=
  mkHeader (LedgerIndex h) (FromRippleTime (ToRippleTime (ParentCloseTime h))) (if hasHash then Hash_ h else replicate 32 0)
    (TxHash h) (AccountHash h) (ParentHash h) (Drops h) false false (CloseFlags h) (CloseTimeResolution h)
    (FromRippleTime (ToRippleTime (CloseTime h))).

Lemma zero_key : is_key (replicate 32 0).
Proof. split; [apply length_replicate|apply Forall_replicate; unfold is_uint; lia]. Qed.

Lemma rbind_eq {A B} (m : Reader A) (k : A -> Reader B) d a d' : m d = inr (a, d') -> rbind m k d = k a d'.
Proof. intros Hm. unfold rbind. by rewrite Hm. Qed.

Lemma body_length h : headerOk h -> length (appendRawBody h) = SizeBase.
Proof.
  intros [_ _ _ [Ht _] [Ha _] [Hp _] _ _]. unfold appendRawBody. rewrite !length_app, !zToBytes_length, Ht, Ha, Hp. done.
Qed.

Lemma readHeader_raw h hasHash rest : headerOk h -> readHeader hasHash (AddRaw h hasHash ++ rest) = inr (wireHeader h hasHash, rest).
Proof.
  intros [Hi Hd [Hh _] [Ht _] [Ha _] [Hp _] Hf Hr]. unfold AddRaw, appendRawBody, readHeader, readHash. rewrite <- !app_assoc.
  erewrite rbind_eq by (by apply readUint32_app). erewrite rbind_eq by (by apply readUint64_app).
  do 3 (erewrite rbind_eq by (by apply readRaw_app)). do 2 (erewrite rbind_eq by (apply readUint32_app, ToRippleTime_uint)).
  cbn [app]. do 2 (erewrite rbind_eq by apply readUint8_cons). destruct hasHash; [by erewrite rbind_eq by (by apply readRaw_app)|done].
Qed.

Lemma wire_ok h hasHash : headerOk h -> headerOk (wireHeader h hasHash).
Proof.
  intros [Hi Hd Hh Ht Ha Hp Hf Hr]. constructor; try done. cbn [Hash_ wireHeader]. destruct hasHash; [done|apply zero_key].
Qed.

Lemma AddRaw_wire h hasHash : AddRaw (wireHeader h hasHash) hasHash = AddRaw h hasHash.
Proof.
  unfold AddRaw, appendRawBody. cbn. rewrite !time_roundtrip by apply ToRippleTime_uint. by destruct hasHash.
Qed.

Lemma AddRaw_length h hasHash : headerOk h -> length (AddRaw h hasHash) = if hasHash then SizeWithHash else SizeBase.
Proof.
  intros Hok. unfold AddRaw. rewrite length_app, body_length by done. destruct Hok as [_ _ [Hh _] _ _ _ _ _]. destruct hasHash; [by rewrite Hh|done].
Qed.

Lemma DeserializeHeader_raw h hasHash : headerOk h -> DeserializeHeader (AddRaw h hasHash) hasHash = inr (wireHeader h hasHash).
Proof.
  intros Hok. unfold DeserializeHeader. rewrite AddRaw_length, Nat.eqb_refl by done. cbn [negb]. rewrite <- (app_nil_r (AddRaw h hasHash)). by rewrite readHeader_raw.
Qed.

(** Bytes as a number and back. *)
Lemma zToBytes_bytesToZ b : all_bytes b -> is_uint (8 * Z.of_nat (length b)) (bytesToZ b 0) /\ zToBytes (length b) (bytesToZ b 0) = b.
Proof.
  intros Hb. induction b as [|x b IH] using rev_ind; [done|]. apply Forall_app in Hb as [Hb Hx]. apply list.Forall_cons in Hx as [Hx _].
  destruct (IH Hb) as [Hu He]. rewrite bytesToZ_app, length_app. cbn [length bytesToZ]. rewrite Nat.add_1_r. unfold is_uint in *.
  replace (8 * Z.of_nat (S (length b))) with (8 * Z.of_nat (length b) + 8) by lia. rewrite Z.pow_add_r by lia. split; [lia|].
  cbn [zToBytes]. rewrite Z.div_add_l, Z.div_small, Z.add_0_r, He by lia. f_equal. f_equal. rewrite Z.add_comm, Z.mod_add, Z.mod_small by lia. done.
Qed.

Lemma split_raw n d : (n <= length d)%nat -> all_bytes d -> exists b d', length b = n /\ all_bytes b /\ d = b ++ d' /\ all_bytes d' /\ length d' = (length d - n)%nat.
Proof.
  intros Hn Hb. exists (take n d), (drop n d). split_and!; [rewrite length_take; lia|by apply Forall_take|by rewrite take_drop|by apply Forall_drop|apply length_drop].
Qed.

Lemma split_word n d : (n <= length d)%nat -> all_bytes d ->
  exists z d', is_uint (8 * Z.of_nat n) z /\ d = zToBytes n z ++ d' /\ all_bytes d' /\ length d' = (length d - n)%nat.
Proof.
  intros Hn Hb. destruct (split_raw n d Hn Hb) as (b & d' & Hl & Hbb & -> & Hd & Hl'). destruct (zToBytes_bytesToZ b Hbb) as [Hu He]. rewrite Hl in Hu, He.
  exists (bytesToZ b 0), d'. by rewrite He.
Qed.

(** Every run of bytes of the right length is the serialized form of a header. *)
Lemma header_of_bytes data (hasHash : bool) :
  all_bytes data -> length data = (if hasHash then SizeWithHash else SizeBase) -> exists h, headerOk h /\ AddRaw h hasHash = data /\ wireHeader h hasHash = h.
Proof.
  intros Hb Hl. assert (Hn : length data = (118 + if hasHash then 32 else 0)%nat) by (rewrite Hl; by destruct hasHash). clear Hl.
  destruct (split_word 4 data) as (index & d1 & Hindex & -> & Hb1 & Hl1); [lia|done|]. destruct (split_word 8 d1) as (drops & d2 & Hdrops & -> & Hb2 & Hl2); [lia|done|].
  destruct (split_raw 32 d2) as (parent & d3 & Hpl & Hpb & -> & Hb3 & Hl3); [lia|done|]. destruct (split_raw 32 d3) as (tx & d4 & Htl & Htb & -> & Hb4 & Hl4); [lia|done|].
  destruct (split_raw 32 d4) as (acc & d5 & Hal & Hab & -> & Hb5 & Hl5); [lia|done|]. destruct (split_word 4 d5) as (pct & d6 & Hpct & -> & Hb6 & Hl6); [lia|done|].
  destruct (split_word 4 d6) as (ct & d7 & Hct & -> & Hb7 & Hl7); [lia|done|]. destruct d7 as [|res [|flags d8]]; [cbn in *; lia..|].
  apply list.Forall_cons in Hb7 as [Hres Hb7]. apply list.Forall_cons in Hb7 as [Hflags Hb8]. cbn [length] in *.
  exists (mkHeader index (FromRippleTime pct) (if hasHash then d8 else replicate 32 0) tx acc parent drops false false flags res (FromRippleTime ct)). split_and!.
  - constructor; try done. cbn [Hash_]. destruct hasHash; [split; [lia|done]|apply zero_key].
  - unfold AddRaw, appendRawBody. cbn [LedgerIndex Drops ParentHash TxHash AccountHash ParentCloseTime CloseTime CloseTimeResolution CloseFlags Hash_].
    rewrite !time_roundtrip by done. rewrite <- !app_assoc. cbn [app]. destruct hasHash; [done|]. destruct d8; [done|cbn in *; lia].
  - unfold wireHeader. cbn [LedgerIndex Drops ParentHash TxHash AccountHash ParentCloseTime CloseTime CloseTimeResolution CloseFlags Hash_].
    rewrite !time_roundtrip by done. by destruct hasHash.
Qed.

(** C27: A header written and read back is the header up to what the wire keeps (whole
    seconds, no local status); every run of 118 bytes (150 with the hash) reads as a
    header that is written as those bytes, any other length is refused, and with the
    ledger-master prefix in front the same holds, other prefixes being refused. *)
Theorem ledger_header_roundtrip h hasHash data :
  headerOk h -> all_bytes data ->
  DeserializeHeader (AddRaw h hasHash) hasHash = inr (wireHeader h hasHash) /\
  DeserializePrefixedHeader (HashPrefixLedgerMaster ++ AddRaw h hasHash) hasHash = inr (wireHeader h hasHash) /\
  match DeserializeHeader data hasHash with
  | inl e => e = InvalidSize /\ length data <> (if hasHash then SizeWithHash else SizeBase)
  | inr h' => headerOk h' /\ AddRaw h' hasHash = data
  end.
Proof.
  intros Hok Hb. split_and!; [by apply DeserializeHeader_raw| |].
  - assert (Hl : length (AddRaw h hasHash) = if hasHash then SizeWithHash else SizeBase) by (by apply AddRaw_length).
    unfold DeserializePrefixedHeader. rewrite length_app, Hl. cbn [length HashPrefixLedgerMaster app take drop]. rewrite Nat.eqb_refl, bool_decide_eq_true_2 by done.
    rewrite (proj2 (Nat.ltb_ge _ _)) by lia. cbn [negb]. by apply DeserializeHeader_raw.
  - destruct (decide (length data = if hasHash then SizeWithHash else SizeBase)) as [Hl|Hl].
    + destruct (header_of_bytes data hasHash Hb Hl) as (h' & Hok' & <- & Hw). rewrite DeserializeHeader_raw by done. by rewrite Hw.
    + unfold DeserializeHeader. by rewrite (proj2 (Nat.eqb_neq _ _) Hl).
Qed.

(** C26: The hash of a ledger binds its header: two headers have one hash exactly when
    they have the same sequence, supply, parent hash, transaction and state roots, close
    times on the wire, resolution and flags (that the two serialized bodies, prefixed for
    hashing, do not collide is assumed). *)
Theorem header_hash_binding `{Hasher} h h' :
  headerOk h -> headerOk h' ->
  collisionFree [HashPrefixLedgerMaster ++ appendRawBody h; HashPrefixLedgerMaster ++ appendRawBody h'] ->
  CalculateHash h = CalculateHash h' <-> wireHeader h false = wireHeader h' false.
Proof.
  intros Hok Hok' Hcf. split.
  - intros He. assert (Hp : HashPrefixLedgerMaster ++ appendRawBody h = HashPrefixLedgerMaster ++ appendRawBody h').
    { apply list.Forall_cons in Hcf as [[_ Hc] _]. apply list.Forall_cons in Hc as [_ Hc]. apply list.Forall_cons in Hc as [Hc _]. by apply Hc. }
    apply (inj (app HashPrefixLedgerMaster)) in Hp.
    pose proof (DeserializeHeader_raw h false Hok) as H1. pose proof (DeserializeHeader_raw h' false Hok') as H2. unfold AddRaw in H1, H2.
    rewrite Hp, H2 in H1. by apply (inj inr) in H1.
  - intros He. pose proof (AddRaw_wire h false) as H1. pose proof (AddRaw_wire h' false) as H2. rewrite He, H2 in H1.
    unfold AddRaw in H1. rewrite !app_nil_r in H1. unfold CalculateHash. by rewrite H1.
Qed.

Definition exampleHeader : LedgerHeader :=
  mkHeader 7 (FromRippleTime 100) (replicate 32 1) (replicate 32 2) (replicate 32 3) (replicate 32 4) 99999 false false 0 30 (FromRippleTime 110).

Lemma exampleHeader_ok : headerOk exampleHeader.
Proof. constructor; cbn; try (unfold is_uint; lia); (split; [done|repeat constructor; unfold is_uint; lia]). Qed.

Lemma ledger_header_roundtrip_witness :
  DeserializeHeader (AddRaw exampleHeader true) true = inr (wireHeader exampleHeader true) /\ DeserializeHeader [1; 2; 3] true = inl InvalidSize.
Proof.
  assert (Hb : all_bytes [1; 2; 3]) by (repeat constructor; unfold is_uint; lia).
  split; [exact (proj1 (ledger_header_roundtrip exampleHeader true [1; 2; 3] exampleHeader_ok Hb))|reflexivity].
Defined.

(** A header of another ledger has another hash. *)
Definition nextHeader : LedgerHeader :=
  mkHeader 8 (FromRippleTime 110) (replicate 32 5) (replicate 32 2) (replicate 32 3) (replicate 32 1) 99989 false false 0 30 (FromRippleTime 120).

Lemma nextHeader_ok : headerOk nextHeader.
Proof. constructor; cbn; try (unfold is_uint; lia); (split; [done|repeat constructor; unfold is_uint; lia]). Qed.

Lemma header_hash_binding_witness :
  (@CalculateHash exampleHasher exampleHeader = @CalculateHash exampleHasher nextHeader <-> wireHeader exampleHeader false = wireHeader nextHeader false) /\
  wireHeader exampleHeader false <> wireHeader nextHeader false.
Proof.
  split; [|vm_compute; discriminate]. apply (@header_hash_binding exampleHasher _ _ exampleHeader_ok nextHeader_ok).
  apply (bool_decide_unpack (@collisionFree exampleHasher _)). vm_compute. exact I.
Defined.

End LedgerHeader.
