(* ===== verification/Ledger.v ===== *)
(** * Ledgers (internal/ledger)

    A ledger is a header over a state tree and a transaction tree. While it is open its
    entries and transactions can be changed, alone or in groups; closing it records its
    parent in the skip list, fixes both trees and names the ledger by the hash of its
    header. An open ledger is a [LedgerView]: its contents are the items of its state
    tree. The mutex that guards a ledger makes its operations atomic, so they are
    functions of the ledger here. *)

From Stdlib Require Import ZArith Lia.
From stdpp Require Import base list numbers gmap option.
From S2P Require Import Prelude Serdes Sha512 ShaMapKey ShaMapNode ShaMap ShaMapRefine ShaMapQuery ShaMapHash ShaMapCodec ShaMapStore EntryStream LedgerEntry LedgerView LedgerHeader.

Module Ledger.
Import ShaMapKey ShaMapNode ShaMap ShaMapRefine ShaMapQuery ShaMapStore LedgerEntry LedgerView LedgerHeader.

Inductive State := StateOpen | StateClosed | StateValidated.

#[export] Instance State_eq_dec : EqDecision State.
Proof. solve_decision. Defined.

Record Fees := mkFees { FeeBase : Z; Reserve : Z; Increment : Z }.

Inductive ledgerError :=
  | ErrLedgerImmutable | ErrLedgerNotClosed | ErrEntryExists | ErrEntryNotFound | ErrInvalidState
  | ErrDropsUnderflow
  | MapError (e : Error).

Record Ledger := mkLedger {
  stateMap : SHAMap; txMap : SHAMap; header : LedgerHeader; fees : Fees;
  lstate : State; writable : bool; dropsDestroyed : Z; rules : option Rules_ }.

Definition setStateMap (l : Ledger) (m : SHAMap) : Ledger :=
  mkLedger m (txMap l) (header l) (fees l) (lstate l) (writable l) (dropsDestroyed l) (rules l).
Definition setTxMap (l : Ledger) (m : SHAMap) : Ledger :=
  mkLedger (stateMap l) m (header l) (fees l) (lstate l) (writable l) (dropsDestroyed l) (rules l).
Definition setDrops (l : Ledger) (z : Z) : Ledger :=
  mkLedger (stateMap l) (txMap l) (header l) (fees l) (lstate l) (writable l) z (rules l).

Definition isOpen (l : Ledger) : bool := bool_decide (lstate l = StateOpen) && writable l.

Definition mapErr {A} (r : Result A) : ledgerError + A := match r with inl e => inl (MapError e) | inr a => inr a end.

Section Ops.
Context `{Hasher}.

Abbreviation M := (VM Ledger ledgerError).

(** ** Reading *)

Definition ledgerRead (k : Keylet) : M (option bytes) := fun l =>
  match Get (stateMap l) (Key k) with
  | inl e => (inl (MapError e), l)
  | inr (None, _) | inr (_, false) => (inr None, l)
  | inr (Some item, true) => (inr (if MatchesKeyletType k (data item) then Some (data item) else None), l)
  end.

Definition ledgerExists (k : Keylet) : M bool := fun l => (mapErr (Has (stateMap l) (Key k)), l).

(** ** Writing *)

(** A change of the state tree, in an open ledger, for an entry that is there or not. *)
Definition change (k : Keylet) (want : bool) (err : ledgerError) (f : SHAMap -> Result SHAMap) : M unit := fun l =>
  if negb (isOpen l) then (inl ErrLedgerImmutable, l)
  else
    match Has (stateMap l) (Key k) with
    | inl e => (inl (MapError e), l)
    | inr exists_ =>
        if negb (Bool.eqb exists_ want) then (inl err, l)
        else match f (stateMap l) with inl e => (inl (MapError e), l) | inr m => (inr tt, setStateMap l m) end
    end.

Definition ledgerInsert (k : Keylet) (d : bytes) : M unit := change k false ErrEntryExists (fun m => Put m (Key k) d).
Definition ledgerUpdate (k : Keylet) (d : bytes) : M unit := change k true ErrEntryNotFound (fun m => Put m (Key k) d).
Definition ledgerErase (k : Keylet) : M unit := change k true ErrEntryNotFound (fun m => Delete m (Key k)).

Definition ledgerAdjustDropsDestroyed (drops : Z) : M unit := fun l =>
  if negb (isOpen l) then (inl ErrLedgerImmutable, l) else (inr tt, setDrops l (addDrops (dropsDestroyed l) drops)).

Definition ledgerApplyAtomically (apply : M unit) : M unit := fun l =>
  if negb (isOpen l) then (inl ErrLedgerImmutable, l)
  else
    match MutableFork (stateMap l) with
    | inl e => (inl (MapError e), l)
    | inr forked =>
        let staged := mkLedger forked (txMap l) (header l) (fees l) (lstate l) true (dropsDestroyed l) (rules l) in
        match apply staged with
        | (inl e, _) => (inl e, l)
        | (inr _, staged) => (inr tt, setDrops (setStateMap l (stateMap staged)) (dropsDestroyed staged))
        end
    end.

#[export] Instance Ledger_view : LedgerView Ledger ledgerError := {|
  Read := ledgerRead; Exists_ := ledgerExists; Insert := ledgerInsert; Update := ledgerUpdate; Erase := ledgerErase; Rules := rules |}.

#[export] Instance Ledger_atomic : AtomicLedgerView Ledger ledgerError := {|
  AdjustDropsDestroyed := ledgerAdjustDropsDestroyed; ApplyAtomically := ledgerApplyAtomically |}.

(** ** Transactions *)

Definition addTransaction (txHash txData : bytes) (nodeType : NodeType) : M unit := fun l =>
  if negb (isOpen l) then (inl ErrLedgerImmutable, l)
  else
    match Has (txMap l) txHash with
    | inl e => (inl (MapError e), l)
    | inr true => (inl ErrEntryExists, l)
    | inr false =>
        match PutWithNodeType (txMap l) txHash txData nodeType with
        | inl e => (inl (MapError e), l)
        | inr m => (inr tt, setTxMap l m)
        end
    end.

Definition AddTransaction (txHash txData : bytes) : M unit := addTransaction txHash txData NodeTypeTransactionNoMeta.
Definition AddTransactionWithMeta (txHash txData : bytes) : M unit := addTransaction txHash txData NodeTypeTransactionWithMeta.

Definition GetTransaction (l : Ledger) (txHash : bytes) : ledgerError + option bytes :=
  match Get (txMap l) txHash with
  | inl e => inl (MapError e)
  | inr (Some item, true) => inr (Some (data item))
  | inr _ => inr None
  end.

Definition TxExists (l : Ledger) (txHash : bytes) : ledgerError + bool := mapErr (Has (txMap l) txHash).

(** ** Iteration *)

(** A backed tree is flushed to its store before it is shared for the iteration. *)
Definition ForEach_ {St A} (store : list FlushEntry -> Result St) (fn : A -> bytes -> bytes -> A * bool) (acc : A) (l : Ledger) :
    A * (ledgerError + unit) * Ledger :=
  let '(sm, r) := snapshot (stateMap l) store false None in
  let l := setStateMap l sm in
  match r with
  | inl e => (acc, inl (MapError e), l)
  | inr sm => let '(acc, r) := ForEach sm (fun acc it => fn acc (key it) (data it)) acc in (acc, mapErr r, l)
  end.

Definition Succ (l : Ledger) (k : bytes) : ledgerError + option (bytes * bytes) :=
  let it := UpperBound (stateMap l) k in
  match current it with
  | Some item => if Valid it then inr (Some (key item, data item)) else match iterErr it with Some e => inl (MapError e) | None => inr None end
  | None => match iterErr it with Some e => inl (MapError e) | None => inr None end
  end.

(** One less, as a big-endian number. *)
Fixpoint decrement (rev_key : bytes) : bytes :=
  match rev_key with
  | [] => []
  | b :: k => if 0 <? b then b - 1 :: k else 255 :: decrement k
  end.
Definition DecrementKey (k : bytes) : bytes := reverse (decrement (reverse k)).

Fixpoint iterateLoop {A} (fuel : nat) (sm : SHAMap) (fn : A -> bytes -> bytes -> A * bool) (it : Iterator) (acc : A) : A * (ledgerError + unit) :=
  match fuel with
  | O => (acc, inl (MapError outOfFuel))
  | S fuel =>
      let ended := match iterErr it with Some e => inl (MapError e) | None => inr tt end in
      if negb (Valid it) then (acc, ended)
      else
        match current it with
        | None => (acc, ended)
        | Some item =>
            let '(acc, cont) := fn acc (key item) (data item) in
            if cont then iterateLoop fuel sm fn (fst (Next sm it)) acc else (acc, inr tt)
        end
  end.

Definition IterateStateFrom {St A} (fuel : nat) (store : list FlushEntry -> Result St) (after : bytes) (fn : A -> bytes -> bytes -> A * bool) (acc : A) (l : Ledger) :
    A * (ledgerError + unit) * Ledger :=
  let '(sm, r) := snapshot (stateMap l) store false None in
  let l := setStateMap l sm in
  match r with
  | inl e => (acc, inl (MapError e), l)
  | inr sm => (iterateLoop fuel sm fn (UpperBound sm after) acc, l)
  end.

End Ops.

(** ** An open ledger is a view *)

Definition entries `{Hasher} (sm : SHAMap) : gmap bytes bytes := fst (ForEach sm (fun acc it => (<[key it := data it]> acc, true)) ∅).

Section Laws.
Context `{Hasher}.

Lemma fold_insert (items : list Item) (acc : gmap bytes bytes) k :
  (forall it it', it ∈ items -> it' ∈ items -> key it = key it' -> it = it') ->
  fst (foldUntil (fun acc it => (<[key it := data it]> acc, true)) acc items) !! k =
  match list_find (fun it => key it = k) items with Some (_, it) => Some (data it) | None => acc !! k end.
Proof.
  revert acc. induction items as [|it items IH]; intros acc Hu; [done|]. cbn [foldUntil]. rewrite IH by (intros x y Hx Hy; apply Hu; by right).
  cbn [list_find]. destruct (decide (key it = k)) as [<-|Hne].
  - destruct (list_find (fun it' => key it' = key it) items) as [[i x]|] eqn:Hf; [|by rewrite lookup_insert_eq].
    apply list_find_Some in Hf as (Hx & Hk & _). rewrite (Hu x it); [done| |left|done]. right. by eapply list_elem_of_lookup_2.
  - destruct (list_find (fun it' => key it' = k) items) as [[i x]|]; [done|]. by rewrite lookup_insert_ne.
Qed.

Lemma entries_rep sm m : Rep sm m -> entries sm = snd <$> m.
Proof.
  intros Hr. destruct (ForEach_rep sm m Hr) as (items & [Hs He] & Hf). unfold entries. rewrite Hf. cbn [fst].
  assert (Hu : forall it it', it ∈ items -> it' ∈ items -> key it = key it' -> it = it').
  { intros it it' Hi%He Hi'%He Hk. rewrite Hk in Hi. congruence. }
  apply map_eq. intros k. rewrite fold_insert by done. rewrite lookup_fmap, lookup_empty.
  destruct (list_find (fun it => key it = k) items) as [[i x]|] eqn:Hl.
  - apply list_find_Some in Hl as (Hx & Hk & _). apply list_elem_of_lookup_2, He in Hx. unfold itemAt in Hx. rewrite Hk in Hx.
    destruct (m !! k) as [v|]; cbn in *; [|done]. apply (inj Some) in Hx. by rewrite <- Hx.
  - apply list_find_None in Hl. destruct (m !! k) as [v|] eqn:Hm; cbn; [|done]. exfalso.
    assert (Hin : mkItem k v.2 ∈ items) by (apply He; unfold itemAt; cbn; by rewrite Hm). eapply list.Forall_forall in Hl; [|exact Hin]. done.
Qed.

Record openState (l : Ledger) (m : gmap bytes (leafKind * bytes)) : Prop := {
  os_open : isOpen l = true; os_mod : state (stateMap l) = stateModifying; os_type : mapType (stateMap l) = TypeState;
  os_rep : Rep (stateMap l) m; os_kind : uniform leafAccountState m }.

Definition validLedger (l : Ledger) : Prop := exists m, openState l m.

Lemma uniform_insert kd k d m : uniform kd m -> uniform kd (<[k := (kd, d)]> m).
Proof. intros Hu. by apply map_Forall_insert_2. Qed.

Lemma Has_rep sm m k : Rep sm m -> is_key k -> Has sm k = inr (present m k).
Proof. intros Hr Hk. unfold Has. rewrite (findItem_rep sm m k Hr Hk). unfold itemAt, present. by destruct (m !! k). Qed.

Lemma setStateMap_open l m sm' m' : openState l m -> Rep sm' m' -> uniform leafAccountState m' -> sameButRoot (stateMap l) sm' ->
  openState (setStateMap l sm') m'.
Proof. intros [Ho Hm Ht _ _] Hr Hu Hs. constructor; try done; cbn; by rewrite Hs. Qed.

Lemma put_open l m k d : openState l m -> is_key k -> storable d ->
  exists sm', Put (stateMap l) k d = inr sm' /\ openState (setStateMap l sm') (<[k := (leafAccountState, d)]> m) /\ sameButRoot (stateMap l) sm'.
Proof.
  intros Hl Hk [Hb Hn]. pose proof Hl as [Ho Hm Ht Hr Hu].
  destruct (put_rep (stateMap l) m k d leafAccountState (getLeafNodeType (stateMap l)) Hr Hk Hb Hn Hm) as (sm' & Hp & Hr' & Hs).
  { intros it. rewrite createLeafNode_default. by rewrite Ht. }
  exists sm'. split; [unfold Put, PutWithNodeType; by rewrite bool_decide_eq_true_2|]. split; [|done]. eapply setStateMap_open; [done|done|by apply uniform_insert|done].
Qed.

Lemma erase_open l m k : openState l m -> is_key k -> is_Some (m !! k) ->
  exists sm', Delete (stateMap l) k = inr sm' /\ openState (setStateMap l sm') (delete k m) /\ sameButRoot (stateMap l) sm'.
Proof.
  intros Hl Hk Hin. pose proof Hl as [Ho Hm Ht Hr Hu]. destruct (delete_rep (stateMap l) m k Hr Hk Hm) as (sm' & Hd & Hr' & Hs); [by rewrite Ht|done|].
  exists sm'. split; [done|]. split; [|done]. eapply setStateMap_open; [done|done|by apply uniform_delete|done].
Qed.

Lemma becomes_open l l' m m' : openState l' m' -> rules l' = rules l -> snd <$> m' = m ->
  becomes validLedger (fun l => entries (stateMap l)) rules l l' m.
Proof. intros Ho Hr <-. split_and!; [by exists m'|by apply entries_rep, Ho|done]. Qed.
Lemma lookup_data (m : gmap bytes (leafKind * bytes)) k : (snd <$> m) !! k = snd <$> m !! k.
Proof. apply lookup_fmap. Qed.

(** The four operations on an open ledger. *)
Lemma read_open l m k : openState l m -> is_key (Key k) -> ledgerRead k l = (inr (visible k ((snd <$> m) !! Key k)), l).
Proof.
  intros Hl Hk. unfold ledgerRead. rewrite (Get_rep (stateMap l) m (Key k) (os_rep l m Hl) Hk), lookup_data. unfold itemAt, present, visible.
  destruct (m !! Key k) as [[kd d]|]; cbn; [by destruct (MatchesKeyletType k d)|done].
Qed.

Lemma change_open l m k want err f :
  openState l m -> is_key (Key k) ->
  change k want err f l =
  if negb (Bool.eqb (present m (Key k)) want) then (inl err, l)
  else match f (stateMap l) with inl e => (inl (MapError e), l) | inr sm => (inr tt, setStateMap l sm) end.
Proof. intros Hl Hk. unfold change. by rewrite (os_open l m Hl), (Has_rep (stateMap l) m (Key k) (os_rep l m Hl) Hk). Qed.

Lemma valid_entries l m : openState l m -> entries (stateMap l) = snd <$> m.
Proof. intros Hl. apply entries_rep, Hl. Qed.

#[export] Program Instance Ledger_laws : LedgerViewLaws Ledger ledgerError := {| valid := validLedger; contents := fun l => entries (stateMap l) |}.
Next Obligation.
  intros l k [m Hl] Hk. exists l. cbn. rewrite (valid_entries l m Hl), (read_open l m k Hl Hk). split; [done|].
  by eapply becomes_open; [exact Hl|..].
Qed.
Next Obligation.
  intros l k [m Hl] Hk. cbn. rewrite (valid_entries l m Hl), lookup_data. unfold ledgerExists. rewrite (Has_rep _ m _ (os_rep l m Hl) Hk). unfold present.
  destruct (m !! Key k) as [[kd d]|]; cbn; [intros _|]; exists l; (split; [done|]); by eapply becomes_open; [exact Hl|..].
Qed.
Next Obligation.
  intros l k d [m Hl] Hk Hd. cbn. rewrite (valid_entries l m Hl), lookup_data. unfold ledgerInsert. rewrite (change_open l m) by done. unfold present.
  destruct (m !! Key k) as [[kd d']|] eqn:Hm; cbn [fmap option_fmap option_map snd Bool.eqb negb].
  - intros _. exists ErrEntryExists, l. split; [done|]. by eapply becomes_open; [exact Hl|..].
  - destruct (put_open l m (Key k) d Hl Hk Hd) as (sm' & -> & Hl' & _). eexists. split; [done|]. eapply becomes_open; [exact Hl'|done|]. by rewrite fmap_insert.
Qed.
Next Obligation.
  intros l k d [m Hl] Hk Hd Hin%visible_some. cbn in *. rewrite (valid_entries l m Hl), ?lookup_data in *. unfold ledgerUpdate. rewrite (change_open l m) by done. unfold present.
  destruct (m !! Key k) as [[kd d']|] eqn:Hm; [|by destruct Hin]. cbn [Bool.eqb negb].
  destruct (put_open l m (Key k) d Hl Hk Hd) as (sm' & -> & Hl' & _). eexists. split; [done|]. eapply becomes_open; [exact Hl'|done|]. by rewrite fmap_insert.
Qed.
Next Obligation.
  intros l k [m Hl] Hk Hin%visible_some. cbn in *. rewrite (valid_entries l m Hl), ?lookup_data in *. unfold ledgerErase. rewrite (change_open l m) by done. unfold present.
  destruct (m !! Key k) as [[kd d']|] eqn:Hm; [|by destruct Hin]. cbn [Bool.eqb negb].
  destruct (erase_open l m (Key k) Hl Hk) as (sm' & -> & Hl' & _); [by rewrite Hm|]. eexists. split; [done|]. eapply becomes_open; [exact Hl'|done|]. by rewrite fmap_delete.
Qed.

Lemma change_drops l k want err f : dropsDestroyed (snd (change k want err f l)) = dropsDestroyed l.
Proof.
  unfold change. destruct (negb _); [done|]. destruct (Has _ _) as [e|b]; [done|]. destruct (negb _); [done|]. by destruct (f (stateMap l)).
Qed.

Lemma fork_open l m : openState l m -> exists sm, MutableFork (stateMap l) = inr sm /\
  openState (mkLedger sm (txMap l) (header l) (fees l) (lstate l) true (dropsDestroyed l) (rules l)) m.
Proof.
  intros [Ho Hm Ht Hr Hu]. unfold MutableFork, snapshotLocked. rewrite Hm. eexists. split; [done|]. constructor; try done.
  unfold isOpen in *. apply andb_prop in Ho as [Ho _]. cbn. by rewrite Ho.
Qed.

#[export] Program Instance Ledger_atomic_laws : AtomicLedgerViewLaws Ledger ledgerError := {| destroyed := dropsDestroyed |}.
Next Obligation. intros l k d. exact (change_drops l k false ErrEntryExists (fun m => Put m (Key k) d)). Qed.
Next Obligation. intros l k d. exact (change_drops l k true ErrEntryNotFound (fun m => Put m (Key k) d)). Qed.
Next Obligation. intros l k. exact (change_drops l k true ErrEntryNotFound (fun m => Delete m (Key k))). Qed.
Next Obligation.
  intros l z [m Hl]. cbn. unfold ledgerAdjustDropsDestroyed. rewrite (os_open l m Hl). eexists. split; [done|]. split; [|done].
  rewrite (valid_entries l m Hl). eapply (becomes_open l _ _ m); [|done..]. destruct Hl as [Ho Hm Ht Hr Hu]. by constructor.
Qed.
Next Obligation.
  intros l c [m Hl]. cbn. destruct (fork_open l m Hl) as (sm & Hf & Hs). eexists. split; [|split].
  - rewrite (valid_entries l m Hl). by eapply becomes_open; [exact Hs|..].
  - done.
  - unfold ledgerApplyAtomically. rewrite (os_open l m Hl), Hf. cbn [negb]. destruct (c _) as [[e|[]] s'].
    + exists l. split; [done|]. split; [|done]. rewrite (valid_entries l m Hl). by eapply becomes_open; [exact Hl|..].
    + intros ((m' & Hs') & _ & Hr). eexists. split; [done|]. split; [|done]. cbn. rewrite (valid_entries s' m' Hs'). eapply becomes_open; [|done|done].
      destruct Hl as [Ho _ _ _ _], Hs' as [_ Hm Ht Hr' Hu]. by constructor.
Qed.

End Laws.

End Ledger.
