(* ===== verification/LedgerIteration.v ===== *)
(** * Iteration over a ledger (internal/ledger/view.go)

    A client that reads a ledger in portions resumes at a key by asking for what comes
    after the key before it ([DecrementKey]). This file shows that the resumed iteration
    starts at that very key: it visits the items at or above it, in order, until the
    callback stops it. *)

From Stdlib Require Import ZArith Lia.
From stdpp Require Import base list numbers gmap option.
From S2P Require Import Prelude Serdes Sha512 ShaMapKey ShaMapNode ShaMap ShaMapRefine ShaMapQuery ShaMapStore EntryStream LedgerView LedgerHeader Ledger.

Module LedgerIteration.
Import Sha512 ShaMapKey ShaMapNode ShaMap ShaMapRefine ShaMapQuery ShaMapStore EntryStream Ledger.

(** ** Keys as numbers *)

Definition number (k : bytes) : Z := bytesToZ k 0.

Lemma number_acc k acc : bytesToZ k acc = acc * 256 ^ Z.of_nat (length k) + number k.
Proof.
  unfold number. revert acc. induction k as [|b k IH]; intros acc; cbn [bytesToZ length]; [rewrite Z.pow_0_r; lia|].
  rewrite (IH (acc * 256 + b)), (IH (0 * 256 + b)), Nat2Z.inj_succ, Z.pow_succ_r by lia. lia.
Qed.

Lemma number_cons b k : number (b :: k) = b * 256 ^ Z.of_nat (length k) + number k.
Proof. unfold number at 1. cbn [bytesToZ]. rewrite number_acc. lia. Qed.

Lemma number_snoc k b : number (k ++ [b]) = number k * 256 + b.
Proof. unfold number. rewrite bytesToZ_app. done. Qed.

Lemma number_bounds k : all_bytes k -> 0 <= number k < 256 ^ Z.of_nat (length k).
Proof.
  induction 1 as [|b k Hb _ IH]; [cbn; lia|]. unfold is_uint in Hb. rewrite number_cons. cbn [length]. rewrite Nat2Z.inj_succ, Z.pow_succ_r by lia. nia.
Qed.

Lemma compare_number a b : all_bytes a -> all_bytes b -> length a = length b -> compareKeys a b = Z.compare (number a) (number b).
Proof.
  intros Ha. revert b. induction Ha as [|x a Hx Ha IH]; intros [|y b] Hb Hl; try done. apply list.Forall_cons in Hb as [Hy Hb]. injection Hl as Hl.
  pose proof (number_bounds a Ha). pose proof (number_bounds b Hb). rewrite !number_cons, <- Hl in *. unfold compareKeys in *. cbn [bytes_compare]. rewrite (IH b Hb Hl).
  destruct (Z.compare_spec x y) as [->|Hxy|Hxy]; symmetry.
  - apply Z.add_compare_mono_l.
  - apply Z.compare_lt_iff. nia.
  - apply Z.compare_gt_iff. nia.
Qed.

Lemma decrement_number r : all_bytes r ->
  all_bytes (decrement r) /\ length (decrement r) = length r /\ (number (reverse r) <> 0 -> number (reverse (decrement r)) = number (reverse r) - 1).
Proof.
  induction 1 as [|b r Hb Hr (IHb & IHl & IHn)]; [split_and!; [constructor|done|intros Hz; by destruct Hz]|]. unfold is_uint in Hb. cbn [decrement]. destruct (Z.ltb_spec 0 b) as [H0|H0].
  - split_and!; [constructor; [unfold is_uint; lia|done]|done|]. rewrite !reverse_cons, !number_snoc. lia.
  - split_and!; [constructor; [unfold is_uint; lia|done]|cbn; congruence|]. rewrite !reverse_cons, !number_snoc. intros Hne. rewrite IHn by lia. lia.
Qed.

Lemma number_zero k : is_key k -> number k = 0 -> k = zeroHash.
Proof.
  intros [Hl Hb] Hz. apply bytes_compare_eq. change (compareKeys k zeroHash = Eq). destruct zeroHash_key as [Hzl Hzb].
  rewrite compare_number by (done || congruence). by rewrite Hz.
Qed.

(** The keys above the decremented key are those not below the key. *)
Lemma decrement_above k x : is_key k -> k <> zeroHash -> is_key x -> is_key (DecrementKey k) /\ (compareKeys (DecrementKey k) x = Lt <-> compareKeys k x <> Gt).
Proof.
  intros Hk Hz [Hxl Hxb]. pose proof Hk as [Hl Hb]. assert (Hn : number k <> 0) by (intros H0; by apply Hz, number_zero).
  destruct (decrement_number (reverse k)) as (Hdb & Hdl & Hdn); [by apply Forall_reverse|]. rewrite reverse_involutive in Hdn. specialize (Hdn Hn).
  assert (Hdk : is_key (DecrementKey k)) by (split; [unfold DecrementKey; rewrite length_reverse, Hdl, length_reverse; done|by apply Forall_reverse]).
  split; [done|]. destruct Hdk as [Hkl Hkb]. rewrite !compare_number by (done || congruence). unfold DecrementKey. rewrite Hdn, Z.compare_lt_iff, Z.compare_gt_iff. lia.
Qed.

(** ** Resuming an iteration *)

Section Resume.
Context `{Hasher} {St A : Type} (store : list FlushEntry -> Result St) (fn : A -> bytes -> bytes -> A * bool).

Abbreviation visit := (fun (acc : A) (it : Item) => fn acc (key it) (data it)).

Lemma iterateLoop_rep (sm : SHAMap) (m : contents) (items : list Item) (id : bytes) (fuel : nat) (acc : A) :
  Rep sm m -> lists m items -> is_key id -> (length (itemsAbove id items) < fuel)%nat ->
  iterateLoop fuel sm fn (UpperBound sm id) acc = (fst (foldUntil visit acc (itemsAbove id items)), inr tt).
Proof.
  intros Hr Hl. revert id acc. induction fuel as [|fuel IH]; intros id acc Hid Hf; [lia|].
  destruct (bound_rep true sm m id Hr Hid) as (res & Hb & Hres). change (upperBoundUnsafe sm id = inr res) in Hres.
  apply (isBound_head m items) in Hb; [|done]. unfold UpperBound. rewrite Hres. cbn [iterOf iterateLoop current iterErr Valid].
  destruct (itemsAbove id items) as [|x xs] eqn:Hab; cbn [head] in Hb; subst res; [done|]. cbn [Valid current iterErr negb foldUntil].
  destruct (fn acc (key x) (data x)) as [acc' []]; [|done]. rewrite <- (itemsAbove_next m items id x xs Hl Hab).
  assert (Hkx : is_key (key x)).
  { assert (Hin : x ∈ itemsAbove id items) by (rewrite Hab; by left). apply list_elem_of_filter in Hin as [_ Hin].
    destruct Hl as [_ He]. apply He, itemAt_Some in Hin as [kd Hin]. by eapply rep_keyed in Hin. }
  replace (fst (Next sm (mkIter (Some x) None))) with (UpperBound sm (key x)).
  - apply IH; [done|]. rewrite (itemsAbove_next m items id x xs Hl Hab). cbn in Hf. lia.
  - unfold UpperBound, Next. cbn. by destruct (upperBoundUnsafe sm (key x)).
Qed.

(** Resuming the iteration of a ledger at a key, by asking for what follows the key
    before it, visits exactly the items at or above the key in ascending order, until the
    callback stops it; it ends without an error within one more step than there are items,
    and leaves the ledger as it was. *)
Theorem iterate_resumes (l : Ledger) (m : contents) (k : bytes) (fuel : nat) (acc : A) :
  Rep (stateMap l) m -> family (stateMap l) = None -> state (stateMap l) <> stateInvalid -> is_key k -> k <> zeroHash -> (size m < fuel)%nat ->
  exists items, lists m items /\
    IterateStateFrom fuel store (DecrementKey k) fn acc l =
    ((fst (foldUntil visit acc (filter (fun it => compareKeys k (key it) <> Gt) items)), inr tt), l).
Proof.
  intros Hr Hfam Hst Hk Hz Hf. destruct (ForEach_rep (stateMap l) m Hr) as (items & Hl & _). exists items. split; [done|].
  destruct (decrement_above k k Hk Hz Hk) as [Hdk _].
  assert (Hab : itemsAbove (DecrementKey k) items = filter (fun it => compareKeys k (key it) <> Gt) items).
  { pose proof Hl as [_ He]. assert (Hall : Forall (fun it => is_key (key it)) items).
    { apply list.Forall_forall. intros it Hin%He%itemAt_Some. destruct Hin as [kd Hin]. by eapply rep_keyed in Hin. }
    clear -Hall Hk Hz. unfold itemsAbove. induction Hall as [|it items Hit _ IH]; [done|]. rewrite !filter_cons, IH.
    destruct (decrement_above k (key it) Hk Hz Hit) as [_ Hiff]. by repeat case_decide; try tauto. }
  assert (Hlen : (length (itemsAbove (DecrementKey k) items) < fuel)%nat) by (pose proof (lists_length m items Hl); pose proof (length_filter (fun it => compareKeys (DecrementKey k) (key it) = Lt) items); unfold itemsAbove; lia).
  unfold IterateStateFrom, snapshot, snapshotLocked. rewrite Hfam. rewrite <- Hab.
  assert (Hsame : setStateMap l (mkMap (root (stateMap l)) (mapType (stateMap l)) (state (stateMap l)) (ledgerSeq (stateMap l)) (cachedSize (stateMap l)) None) = l).
  { rewrite <- Hfam. destruct l as [[] ]. done. }
  destruct (state (stateMap l)) eqn:Hs; try done; rewrite Hsame; f_equal; apply (iterateLoop_rep _ m); try done; unfold Rep in *; cbn; by rewrite <- Hfam.
Qed.

End Resume.

End LedgerIteration.
