(* ===== verification/SkipList.v ===== *)
(** * Skip lists of ledger hashes (internal/ledger/skiplist, keylet/keylet.go)

    Each ledger records the hashes of its ancestors: a rolling list of the last 256,
    and, in one entry for each run of 65536 ledgers, the hashes of those whose sequence is a
    multiple of 256. *)

From Stdlib Require Import ZArith Lia.
From stdpp Require Import base list list_numbers numbers gmap option strings.
From S2P Require Import Prelude Serdes Sha512 ShaMapKey ShaMapNode ShaMap ShaMapRefine EntryStream LedgerEntry LedgerView.

Module SkipList.
Import Sha512 ShaMapKey ShaMapNode ShaMap ShaMapRefine EntryStream LedgerEntry LedgerView.

(** ** The entry *)

Definition sfFirstLedgerSequence : header := (2, 26).
Definition sfLastLedgerSequence : header := (2, 27).
Definition sfSponsor : header := (8, 27).
Definition sfHashes : header := (19, 2).

Definition ledgerHashes : schema :=
  mkSchema TypeLedgerHashes [sfFlags; sfFirstLedgerSequence; sfLastLedgerSequence; sfSponsor; sfHashes]
    [(sfFlags, "Flags"%string); (sfHashes, "Hashes"%string)].

Record LedgerHashesFields := mkFields {
  Flags : Z; FirstLedgerSequence : Z; LastLedgerSequence : Z; Sponsor : bytes; hasFirst : bool; hasLast : bool; hasSponsor : bool }.

(** The reader of the entry is that of its generated codec, field for field. *)
Definition decodeLedgerHashes (data : bytes) : streamError + LedgerHashesFields * list bytes :=
  match Decode ledgerHashes data with
  | inl e => inl e
  | inr d =>
      inr (mkFields (getInt sfFlags d) (getInt sfFirstLedgerSequence d) (getInt sfLastLedgerSequence d)
             (match d !! sfSponsor with Some (WAccount b) => b | _ => [] end)
             (has sfFirstLedgerSequence d) (has sfLastLedgerSequence d) (has sfSponsor d), getVector sfHashes d)
  end.

Inductive skipError :=
  | SkipMap (e : Error) | SkipDecode (e : streamError) | SkipEncode (e : streamError)
  | MissingLast | BadCardinality | BadFirst | WrongLast | WrongLength.

(** The fields a rewritten entry keeps. *)
Definition keptFields (fields : option LedgerHashesFields) : entry :=
  match fields with
  | None => set sfFlags (W32 0) ∅
  | Some f =>
      let e := set sfFlags (W32 (Flags f)) ∅ in
      let e := if hasFirst f then set sfFirstLedgerSequence (W32 (FirstLedgerSequence f)) e else e in
      if hasSponsor f then set sfSponsor (WAccount (Sponsor f)) e else e
  end.

Definition encode (fields : option LedgerHashesFields) (hashes : list bytes) (lastSeq : Z) : streamError + bytes :=
  Encode ledgerHashes (set sfLastLedgerSequence (W32 lastSeq) (set sfHashes (WVector hashes) (keptFields fields))).

Section Ops.
Context `{Hasher}.

(** ** Keys *)

Definition LedgerHashes : Keylet := mkKeylet TypeLedgerHashes (indexHash spaceSkip []).
Definition LedgerHashesForSeq (ledgerSeq : Z) : Keylet :=
  mkKeylet TypeLedgerHashes (indexHash spaceSkip [zToBytes 4 (Z.shiftr ledgerSeq 16)]).

(** ** Reading *)

Definition ReadLedgerHashesSLE (sm : SHAMap) (k : bytes) : skipError + option LedgerHashesFields * list bytes * Z :=
  match Get sm k with
  | inl e => inl (SkipMap e)
  | inr (Some item, true) =>
      match decodeLedgerHashes (data item) with
      | inl e => inl (SkipDecode e)
      | inr (fields, hashes) =>
          if negb (hasLast fields) then inl MissingLast
          else if (length hashes =? 0)%nat || (256 <? length hashes)%nat then inl BadCardinality
          else if hasFirst fields && ((FirstLedgerSequence fields =? 0) || (LastLedgerSequence fields <? FirstLedgerSequence fields)) then inl BadFirst
          else inr (Some fields, hashes, LastLedgerSequence fields)
      end
  | inr _ => inr (None, [], 0)
  end.

Definition ReadHashes (sm : SHAMap) (k : bytes) : skipError + list bytes :=
  match ReadLedgerHashesSLE sm k with inl e => inl e | inr (_, hashes, _) => inr hashes end.

(** ** Updating *)

Definition assertSkipListConsistent (hashes : list bytes) (lastSeq prevIndex : Z) : option skipError :=
  if (length hashes =? 0)%nat && (lastSeq =? 0) then None
  else if negb (lastSeq =? u32 (prevIndex - 1)) then Some WrongLast
  else if negb (Z.of_nat (length hashes) =? Z.min (u32 (prevIndex - 1)) 256) then Some WrongLength
  else None.

Definition assertHistoricalSkipListConsistent (hashes : list bytes) (lastSeq prevIndex : Z) : option skipError :=
  if (length hashes =? 0)%nat && (lastSeq =? 0) then None
  else if (256 <? length hashes)%nat then Some WrongLength
  else if negb (lastSeq =? u32 (prevIndex - 256)) then Some WrongLast
  else
    let offset := Z.land prevIndex 0xffff in
    let wantLen := if negb (Z.shiftr prevIndex 16 =? 0) then Z.shiftr offset 8
                   else if negb (offset =? 0) then Z.shiftr offset 8 - 1 else 0 in
    if negb (Z.of_nat (length hashes) =? wantLen) then Some WrongLength else None.

(** The item that records [parentHash] under [k], with the list trimmed first. *)
Definition appended (sm : SHAMap) (k : bytes) (check : list bytes -> Z -> Z -> option skipError) (trim : list bytes -> list bytes) (prevIndex : Z) (parentHash : bytes) :
    skipError + Item :=
  match ReadLedgerHashesSLE sm k with
  | inl e => inl e
  | inr (fields, hashes, lastSeq) =>
      match check hashes lastSeq prevIndex with
      | Some e => inl e
      | None =>
          match encode fields (trim hashes ++ [parentHash]) prevIndex with
          | inl e => inl (SkipEncode e)
          | inr d => inr (mkItem k d)
          end
      end
  end.

Definition Write (sm : SHAMap) (k : bytes) (fields : option LedgerHashesFields) (hashes : list bytes) (lastSeq : Z) : skipError + SHAMap :=
  match encode fields hashes lastSeq with
  | inl e => inl (SkipEncode e)
  | inr d => match Put sm k d with inl e => inl (SkipMap e) | inr sm => inr sm end
  end.

Definition trimRolling (hashes : list bytes) : list bytes := if (256 <=? length hashes)%nat then drop 1 hashes else hashes.

Definition UpdateOnMap (sm : SHAMap) (ledgerSeq_ : Z) (parentHash : bytes) : skipError + SHAMap :=
  if ledgerSeq_ =? 0 then inr sm
  else
    let prevIndex := u32 (ledgerSeq_ - 1) in
    if prevIndex =? 0 then inr sm
    else
      let? writes := (if Z.land prevIndex 0xff =? 0 then
                        let? it := appended sm (Key (LedgerHashesForSeq prevIndex)) assertHistoricalSkipListConsistent (fun hs => hs) prevIndex parentHash in
                        inr [Some it]
                      else inr []) in
      let? it := appended sm (Key LedgerHashes) assertSkipListConsistent trimRolling prevIndex parentHash in
      match PutItemsAtomically sm (writes ++ [Some it]) with inl e => inl (SkipMap e) | inr sm => inr sm end.

End Ops.

(** ** Written entries read back *)

(** No optional field but the last sequence, as in every entry the package writes. *)
Definition plain (f : LedgerHashesFields) : Prop := hasFirst f = false /\ hasSponsor f = false /\ is_uint 32 (Flags f).

(** The entry lists these hashes, up to this sequence. *)
Definition listing (d : bytes) (hashes : list bytes) (lastSeq : Z) : Prop :=
  exists f, decodeLedgerHashes d = inr (f, hashes) /\ plain f /\ hasLast f = true /\ LastLedgerSequence f = lastSeq.

Lemma ledgerHashes_ok : schemaOk ledgerHashes.
Proof. split; [done|]. repeat constructor; cbn; lia. Qed.

Lemma encode_listing f hs last :
  match f with None => True | Some f => plain f end -> Forall is_key hs -> (1 <= length hs <= 512)%nat -> is_uint 32 last ->
  exists d, encode f hs last = inr d /\ storable d /\ listing d hs last.
Proof.
  intros Hf Hhs Hl Hlast. unfold encode.
  assert (Hfl : exists fl, is_uint 32 fl /\ keptFields f = set sfFlags (W32 fl) ∅).
  { destruct f as [f|]; [|exists 0; split; [unfold is_uint; lia|done]]. destruct Hf as (H1 & H2 & H3). exists (Flags f). split; [done|]. cbn. by rewrite H1, H2. }
  destruct Hfl as (fl & Hfl & ->). set (e := set sfLastLedgerSequence (W32 last) (set sfHashes (WVector hs) (set sfFlags (W32 fl) ∅))).
  assert (Hv : wireOk (WVector hs)) by (split; [eapply Forall_impl; [exact Hhs|]; by intros x [? ?]|lia]).
  assert (He : entryTyped ledgerHashes e).
  { unfold e, set. repeat apply map_Forall_insert_2; [..|apply map_Forall_empty]; (split_and!; [cbn; set_solver|done|done]). }
  destruct (entry_roundtrip ledgerHashes e ledgerHashes_ok He) as (d & Hd & Hdec & Hb & Ht); [done|..].
  { repeat constructor; by eexists. }
  exists d. split_and!; [done| |].
  - split; [done|]. destruct (encodeVector_ok hs Hv) as (vl & _ & Hx). pose proof (field_length ledgerHashes e sfHashes (WVector hs) _ d Hd eq_refl Hx) as Hlen.
    rewrite length_app, concat_length32 in Hlen by apply Hv. lia.
  - unfold listing, decodeLedgerHashes. rewrite Hdec. eexists. split; [done|]. split_and!; done.
Qed.

(** ** Reading a tree *)

Section Trees.
Context `{Hasher}.

Lemma read_absent sm m k : Rep sm m -> is_key k -> m !! k = None -> ReadLedgerHashesSLE sm k = inr (None, [], 0).
Proof. intros Hr Hk Hm. unfold ReadLedgerHashesSLE. rewrite (Get_rep sm m k Hr Hk). unfold itemAt, present. by rewrite Hm. Qed.

Lemma read_listing sm m k kd d hs last : Rep sm m -> is_key k -> m !! k = Some (kd, d) -> listing d hs last -> (1 <= length hs <= 256)%nat ->
  exists f, plain f /\ ReadLedgerHashesSLE sm k = inr (Some f, hs, last).
Proof.
  intros Hr Hk Hm (f & Hd & Hp & Hlast & <-) Hl. exists f. split; [done|]. unfold ReadLedgerHashesSLE. rewrite (Get_rep sm m k Hr Hk). unfold itemAt, present.
  rewrite Hm. cbn [fmap option_fmap option_map data snd]. rewrite Hd, Hlast. cbn [negb]. rewrite (proj2 (Nat.eqb_neq _ _)), (proj2 (Nat.ltb_ge _ _)) by lia. destruct Hp as (-> & _). done.
Qed.

End Trees.

(** ** What the lists should be *)

Definition rollingLen (p : Z) : Z := Z.min p 256.

(** Run [w] of 65536 ledgers: the first sequence recorded, and how many are up to [p]. *)
Definition firstOf (w : Z) : Z := Z.max (65536 * w) 256.
Definition countOf (w p : Z) : Z := if p <? firstOf w then 0 else (Z.min p (65536 * w + 65535) - firstOf w) / 256 + 1.
Definition lastOf (w p : Z) : Z := firstOf w + 256 * (countOf w p - 1).

Lemma countOf_bounds w p : 0 <= w -> 0 <= p -> 0 <= countOf w p <= 256.
Proof. intros Hw Hp. unfold countOf, firstOf. destruct (Z.ltb_spec p (Z.max (65536 * w) 256)); [lia|]. dmlia. Qed.

Lemma countOf_same w p : 0 <= w -> 1 <= p -> p mod 256 <> 0 \/ w <> p / 65536 -> countOf w p = countOf w (p - 1).
Proof.
  intros Hw Hp Hne. unfold countOf, firstOf. destruct (Z.ltb_spec p (Z.max (65536 * w) 256)), (Z.ltb_spec (p - 1) (Z.max (65536 * w) 256)); [done|lia|exfalso; dmlia|]. f_equal.
  destruct (Z.min_spec p (65536 * w + 65535)) as [[? ->]|[? ->]], (Z.min_spec (p - 1) (65536 * w + 65535)) as [[? ->]|[? ->]]; dmlia.
Qed.

Lemma countOf_next p : 1 <= p -> p mod 256 = 0 -> countOf (p / 65536) p = countOf (p / 65536) (p - 1) + 1 /\ firstOf (p / 65536) + 256 * countOf (p / 65536) (p - 1) = p.
Proof.
  intros Hp Hm. unfold countOf, firstOf. destruct (Z.ltb_spec p (Z.max (65536 * (p / 65536)) 256)); [dmlia|]. rewrite !Z.min_l by dmlia.
  destruct (Z.ltb_spec (p - 1) (Z.max (65536 * (p / 65536)) 256)) as [Hlt|Hge].
  - replace (p - Z.max (65536 * (p / 65536)) 256) with 0 by dmlia. split; [done|dmlia].
  - destruct (Z.max_spec (65536 * (p / 65536)) 256) as [[? ->]|[? ->]]; split; dmlia.
Qed.

Section Ancestors.
Context (hash : Z -> bytes).

(** The hashes of the last 256 ledgers up to [p]. *)
Definition rolling (p : Z) : list bytes := hash <$> seqZ (p - rollingLen p + 1) (rollingLen p).

Definition page (w p : Z) : list bytes := (fun i => hash (firstOf w + 256 * i)) <$> seqZ 0 (countOf w p).

Lemma rolling_length p : 0 <= p -> Z.of_nat (length (rolling p)) = Z.min p 256.
Proof. intros Hp. unfold rolling, rollingLen. rewrite length_fmap, length_seqZ. lia. Qed.

Lemma seqZ_last a n : 0 <= n -> seqZ a (n + 1) = seqZ a n ++ [a + n].
Proof. intros Hn. rewrite seqZ_app by lia. f_equal. Qed.

Lemma rolling_step p : 1 <= p -> trimRolling (rolling (p - 1)) ++ [hash p] = rolling p.
Proof.
  intros Hp. pose proof (rolling_length (p - 1) ltac:(lia)) as Hl. unfold trimRolling. destruct (Nat.leb_spec 256 (length (rolling (p - 1)))) as [Hf|Hf].
  - unfold rolling, rollingLen. rewrite !Z.min_r by lia. rewrite seqZ_cons by lia. cbn [fmap list_fmap drop]. rewrite drop_0.
    transitivity (hash <$> seqZ (p - 255) (255 + 1)); [|do 2 f_equal; lia]. rewrite seqZ_last, fmap_app by lia. f_equal; [do 2 f_equal; lia|]. cbn. do 2 f_equal. lia.
  - unfold rolling, rollingLen. rewrite !Z.min_l by lia. transitivity (hash <$> seqZ 1 (p - 1 + 1)); [|do 2 f_equal; lia]. rewrite seqZ_last, fmap_app by lia.
    f_equal; [do 2 f_equal; lia|]. cbn. do 2 f_equal. lia.
Qed.

Lemma page_length w p : 0 <= w -> 0 <= p -> Z.of_nat (length (page w p)) = countOf w p.
Proof. intros Hw Hp. pose proof (countOf_bounds w p Hw Hp). unfold page. rewrite length_fmap, length_seqZ. lia. Qed.

Lemma page_same w p : 0 <= w -> 1 <= p -> p mod 256 <> 0 \/ w <> p / 65536 -> page w p = page w (p - 1) /\ lastOf w p = lastOf w (p - 1).
Proof. intros Hw Hp Hne. unfold page, lastOf. by rewrite (countOf_same w p). Qed.

Lemma page_step p : 1 <= p -> p mod 256 = 0 -> page (p / 65536) (p - 1) ++ [hash p] = page (p / 65536) p /\ lastOf (p / 65536) p = p.
Proof.
  intros Hp Hm. destruct (countOf_next p Hp Hm) as [Hc Hf]. assert (Hw : 0 <= p / 65536) by dmlia. pose proof (countOf_bounds (p / 65536) (p - 1) Hw ltac:(lia)).
  unfold page, lastOf. rewrite Hc, seqZ_last, fmap_app by lia. cbn. split; [|lia]. do 3 f_equal. lia.
Qed.

End Ancestors.

(** ** The lists in a tree *)

Section Update.
Context `{Hasher} (hash : Z -> bytes).
Hypothesis hash_keys : forall p, is_key (hash p).

Definition rollKey : bytes := Key LedgerHashes.
Definition runKey (w : Z) : bytes := indexHash spaceSkip [zToBytes 4 w].

(** The keys of the lists are distinct, as those of a collision-free hash are. *)
Definition keysDistinct : Prop :=
  (forall w, 0 <= w < 65536 -> runKey w <> rollKey) /\
  (forall w w', 0 <= w < 65536 -> 0 <= w' < 65536 -> runKey w = runKey w' -> w = w').
Hypothesis HK : keysDistinct.

Abbreviation tree := (gmap bytes (leafKind * bytes)).

(** An entry is there exactly when there is something to list. *)
Definition lists (o : option (leafKind * bytes)) (hs : list bytes) (last : Z) : Prop :=
  match hs with [] => o = None | _ => exists kd d, o = Some (kd, d) /\ listing d hs last end.

(** The tree records the ledgers up to [p]. *)
Definition records (m : tree) (p : Z) : Prop :=
  lists (m !! rollKey) (rolling hash p) p /\
  forall w, 0 <= w < 65536 -> lists (m !! runKey w) (page hash w p) (lastOf w p).

Lemma runKey_key w : is_key (runKey w).
Proof. apply indexHash_key. Qed.

Lemma rollKey_key : is_key rollKey.
Proof. apply indexHash_key. Qed.

Lemma run_of p : Key (LedgerHashesForSeq p) = runKey (p / 65536).
Proof. unfold LedgerHashesForSeq, runKey. cbn [Key]. by rewrite Z.shiftr_div_pow2 by lia. Qed.

Lemma rolling_keys p : Forall is_key (rolling hash p).
Proof. apply Forall_fmap, Forall_true. intros x. apply hash_keys. Qed.

Lemma page_keys w p : Forall is_key (page hash w p).
Proof. apply Forall_fmap, Forall_true. intros x. apply hash_keys. Qed.

Lemma appended_ok sm m k check trim hs last p :
  Rep sm m -> is_key k -> lists (m !! k) hs last -> (length hs <= 256)%nat -> trim [] = [] -> check [] 0 p = None ->
  (hs <> [] -> check hs last p = None) -> Forall is_key (trim hs ++ [hash p]) -> (length (trim hs) <= 256)%nat -> is_uint 32 p ->
  exists d, appended sm k check trim p (hash p) = inr (mkItem k d) /\ storable d /\ listing d (trim hs ++ [hash p]) p.
Proof.
  intros Hr Hk Hl Hlen Ht0 Hc0 Hc Hkeys Htl Hp. unfold appended.
  assert (Hread : exists f hs' last', ReadLedgerHashesSLE sm k = inr (f, hs', last') /\ match f with None => True | Some f => plain f end /\ hs' = hs /\ check hs' last' p = None).
  { destruct hs as [|h hs]; cbn [lists] in Hl.
    - exists None, [], 0. split_and!; [by eapply read_absent|done..].
    - destruct Hl as (kd & d & Hm & Hd). destruct (read_listing sm m k kd d (h :: hs) last Hr Hk Hm Hd) as (f & Hf & Hrd); [cbn in *; lia|].
      exists (Some f), (h :: hs), last. split_and!; [done..|by apply Hc]. }
  destruct Hread as (f & hs' & last' & -> & Hf & -> & ->). destruct (encode_listing f (trim hs ++ [hash p]) p Hf Hkeys) as (d & -> & Hst & Hd); [rewrite length_app; cbn; lia|done|].
  by exists d.
Qed.

Lemma rolling_check p : 1 <= p -> is_uint 32 p -> rolling hash (p - 1) <> [] -> assertSkipListConsistent (rolling hash (p - 1)) (p - 1) p = None.
Proof.
  intros Hp Hu Hne. pose proof (rolling_length hash (p - 1) ltac:(lia)) as Hl. unfold assertSkipListConsistent, is_uint in *. rewrite (wrap_small 32 (p - 1)) by (unfold is_uint; lia).
  rewrite Hl, Z.eqb_refl. destruct (rolling hash (p - 1)) as [|h hs]; [done|]. cbn [length Nat.eqb andb]. rewrite Z.eqb_refl. done.
Qed.

Lemma page_check p : 1 <= p -> is_uint 32 p -> p mod 256 = 0 -> page hash (p / 65536) (p - 1) <> [] ->
  assertHistoricalSkipListConsistent (page hash (p / 65536) (p - 1)) (lastOf (p / 65536) (p - 1)) p = None.
Proof.
  intros Hp Hu Hm Hne. assert (Hw : 0 <= p / 65536) by dmlia. pose proof (page_length hash (p / 65536) (p - 1) Hw ltac:(lia)) as Hl.
  destruct (countOf_next p Hp Hm) as [_ Hf]. pose proof (countOf_bounds (p / 65536) (p - 1) Hw ltac:(lia)) as Hb. unfold assertHistoricalSkipListConsistent.
  assert (Hc1 : 1 <= countOf (p / 65536) (p - 1)) by (destruct (page hash (p / 65536) (p - 1)); [done|cbn in Hl; lia]).
  assert (Hlast : lastOf (p / 65536) (p - 1) = p - 256) by (unfold lastOf; lia). rewrite Hlast. unfold is_uint, firstOf in *. rewrite (wrap_small 32 (p - 256)) by (unfold is_uint; lia).
  rewrite Z.eqb_refl. rewrite (proj2 (Nat.ltb_ge _ _)) by lia. change 0xffff with (Z.ones 16). rewrite Z.land_ones, !Z.shiftr_div_pow2 by lia. rewrite Hl. cbn [negb].
  change (2 ^ 16) with 65536. change (2 ^ 8) with 256. destruct ((length _ =? 0)%nat && (p - 256 =? 0)); [done|].
  destruct (Z.eqb_spec (p / 65536) 0) as [He|He]; cbn [negb].
  - rewrite (proj2 (Z.eqb_neq (p mod 65536) 0)) by dmlia. cbn [negb]. rewrite He in *. rewrite (proj2 (Z.eqb_eq _ _)); [done|]. dmlia.
  - rewrite (proj2 (Z.eqb_eq _ _)); [done|]. rewrite Z.max_l in Hf by lia. dmlia.
Qed.

(** A tree that can be changed, with the state entries [m]. *)
Record stateTree (sm : SHAMap) (m : tree) : Prop := {
  st_rep : Rep sm m; st_mod : state sm = stateModifying; st_type : mapType sm = TypeState; st_kind : uniform leafAccountState m }.

Lemma writes_ok sm m (its : list Item) :
  stateTree sm m -> Forall (fun it => is_key (key it) /\ storable (data it)) its ->
  exists sm', PutItemsAtomically sm (Some <$> its) = inr sm' /\ stateTree sm' (foldl (insertItem leafAccountState) m its) /\
    ledgerSeq sm' = ledgerSeq sm /\ family sm' = family sm.
Proof.
  intros [Hr Hm Ht Hu] Hits. pose proof (putAtomically_rep sm m (Some <$> its) Hr) as Hp. rewrite bool_decide_eq_true_2 in Hp by done. cbn [negb] in Hp.
  assert (He : firstError (Some <$> its) = None).
  { clear Hp. induction Hits as [|it its (_ & _ & Hl) _ IH]; [done|]. cbn. fold (firstError (Some <$> its)). unfold firstError in *. cbn. rewrite (proj2 (Z.ltb_ge _ _)) by lia. exact IH. }
  rewrite He in Hp. destruct Hp as (sm' & Hput & Hr' & _ & Hst & Hmt & Hseq & Hfam).
  { apply Forall_fmap. eapply Forall_impl; [exact Hits|]. intros it (Hk & Hb & _). done. }
  exists sm'. split; [done|]. assert (Hall : insertAll (defaultKind (mapType sm)) m (Some <$> its) = foldl (insertItem leafAccountState) m its).
  { rewrite Ht. clear. unfold insertAll. revert m. induction its as [|it its IH]; intros m; [done|]. cbn. apply IH. }
  rewrite Hall in Hr'. split; [|done]. constructor; [exact Hr'|done|congruence|]. clear -Hu. revert m Hu. induction its as [|it its IH]; intros m Hu; [done|].
  cbn. apply IH. by apply map_Forall_insert_2.
Qed.

Lemma lists_some kd d hs last : hs <> [] -> listing d hs last -> lists (Some (kd, d)) hs last.
Proof. destruct hs; [done|]. intros _ Hd. by exists kd, d. Qed.

(** The two lists with one more hash. *)
Lemma rolling_appended sm m p : Rep sm m -> lists (m !! rollKey) (rolling hash (p - 1)) (p - 1) -> 1 <= p -> is_uint 32 p ->
  exists d, appended sm rollKey assertSkipListConsistent trimRolling p (hash p) = inr (mkItem rollKey d) /\ storable d /\ listing d (rolling hash p) p /\ rolling hash p <> [].
Proof.
  intros Hr Hroll Hp Hu. unfold is_uint in Hu.
  pose proof (rolling_length hash (p - 1) ltac:(lia)) as Hrl. pose proof (rolling_step hash p Hp) as Hrs. pose proof (rolling_length hash p ltac:(lia)) as Hrl'.
  destruct (appended_ok sm m rollKey assertSkipListConsistent trimRolling (rolling hash (p - 1)) (p - 1) p Hr rollKey_key Hroll) as (d & Hd & Hds & Hdl); try done.
  { lia. }
  { by apply rolling_check. }
  { rewrite Hrs. apply rolling_keys. }
  { rewrite <- Hrs, length_app in Hrl'. cbn in Hrl'. lia. }
  exists d. rewrite Hrs in Hdl. split_and!; [done..|]. intros He. rewrite He in Hrl'. cbn in Hrl'. lia.
Qed.

Lemma page_appended sm m p : Rep sm m -> lists (m !! runKey (p / 65536)) (page hash (p / 65536) (p - 1)) (lastOf (p / 65536) (p - 1)) ->
  1 <= p -> is_uint 32 p -> p mod 256 = 0 ->
  exists d, appended sm (runKey (p / 65536)) assertHistoricalSkipListConsistent (fun hs => hs) p (hash p) = inr (mkItem (runKey (p / 65536)) d) /\ storable d /\
    listing d (page hash (p / 65536) p) p /\ lastOf (p / 65536) p = p /\ page hash (p / 65536) p <> [].
Proof.
  intros Hr Hpage Hp Hu Hm. unfold is_uint in Hu. assert (Hw : 0 <= p / 65536 < 65536) by dmlia.
  pose proof (page_length hash (p / 65536) (p - 1) ltac:(lia) ltac:(lia)) as Hpl.
  pose proof (countOf_bounds (p / 65536) (p - 1) ltac:(lia) ltac:(lia)) as Hcb. destruct (page_step hash p Hp Hm) as [Hps Hlast].
  destruct (appended_ok sm m (runKey (p / 65536)) assertHistoricalSkipListConsistent (fun hs => hs) (page hash (p / 65536) (p - 1)) (lastOf (p / 65536) (p - 1)) p Hr (runKey_key _) Hpage)
    as (d & Hd & Hds & Hdl); try done.
  { lia. }
  { by apply page_check. }
  { rewrite Hps. apply page_keys. }
  { lia. }
  exists d. rewrite Hps in Hdl. split_and!; [done..|]. rewrite <- Hps. by destruct (page hash (p / 65536) (p - 1)).
Qed.

(** Closing ledger [p + 1] records its parent [p]. *)
Lemma update_records sm m p :
  stateTree sm m -> records m (p - 1) -> 1 <= p -> is_uint 32 (p + 1) ->
  exists sm' m', UpdateOnMap sm (p + 1) (hash p) = inr sm' /\ stateTree sm' m' /\ records m' p /\
    ledgerSeq sm' = ledgerSeq sm /\ family sm' = family sm /\
    forall k, k <> rollKey -> (forall w, 0 <= w < 65536 -> k <> runKey w) -> m' !! k = m !! k.
Proof.
  intros Hst [Hroll Hpages] Hp Hu. unfold is_uint in Hu. assert (Hup : is_uint 32 p) by (unfold is_uint; lia). pose proof (st_rep sm m Hst) as Hr.
  destruct (rolling_appended sm m p Hr Hroll Hp Hup) as (d & Hd & Hds & Hdl & Hrne).
  unfold UpdateOnMap. rewrite (proj2 (Z.eqb_neq (p + 1) 0)) by lia. replace (p + 1 - 1) with p by lia. rewrite (wrap_small 32 p) by done. rewrite (proj2 (Z.eqb_neq p 0)) by lia.
  change 0xff with (Z.ones 8). rewrite Z.land_ones by lia. change (2 ^ 8) with 256. destruct HK as [Hne Hinj].
  destruct (Z.eqb_spec (p mod 256) 0) as [Hm|Hm].
  - assert (Hw : 0 <= p / 65536 < 65536) by dmlia. destruct (page_appended sm m p Hr (Hpages _ Hw) Hp Hup Hm) as (d' & Hd' & Hds' & Hdl' & Hlast & Hpne).
    rewrite run_of. cbn beta in Hd'. rewrite Hd'. fold rollKey. rewrite Hd. cbn [app].
    destruct (writes_ok sm m [mkItem (runKey (p / 65536)) d'; mkItem rollKey d] Hst) as (sm' & Hput & Hst' & Hseq & Hfam).
    { repeat (apply list.Forall_cons; split; [split; [apply runKey_key || apply rollKey_key|done]|]). constructor. }
    cbn [fmap list_fmap] in Hput. rewrite Hput. exists sm'. eexists. split_and!; [done|exact Hst'| |done|done|].
    + cbn. unfold insertItem. cbn [key data]. split.
      * rewrite lookup_insert_eq. by apply lists_some.
      * intros w Hww. rewrite lookup_insert_ne by (apply not_eq_sym, Hne; lia). destruct (decide (w = p / 65536)) as [->|Hwp].
        -- rewrite lookup_insert_eq, Hlast. by apply lists_some.
        -- rewrite lookup_insert_ne by (intros He; apply Hwp; symmetry; by apply Hinj). destruct (page_same hash w p) as [-> ->]; [lia|lia|by right|]. by apply Hpages.
    + cbn. unfold insertItem. cbn [key]. intros k Hk1 Hk2. rewrite !lookup_insert_ne; [done| |by apply not_eq_sym]. apply not_eq_sym. by apply Hk2.
  - fold rollKey. rewrite Hd. cbn [app].
    destruct (writes_ok sm m [mkItem rollKey d] Hst) as (sm' & Hput & Hst' & Hseq & Hfam).
    { apply list.Forall_cons. split; [split; [apply rollKey_key|done]|constructor]. }
    cbn [fmap list_fmap] in Hput. rewrite Hput. exists sm'. eexists. split_and!; [done|exact Hst'| |done|done|].
    + cbn. unfold insertItem. cbn [key data]. split.
      * rewrite lookup_insert_eq. by apply lists_some.
      * intros w Hww. rewrite lookup_insert_ne by (apply not_eq_sym, Hne; lia). destruct (page_same hash w p) as [-> ->]; [lia|lia|by left|]. by apply Hpages.
    + cbn. unfold insertItem. cbn [key]. intros k Hk1 Hk2. rewrite lookup_insert_ne; [done|]. by apply not_eq_sym.
Qed.

End Update.

End SkipList.
