(* ===== verification/LedgerChain.v ===== *)
(** * The chain of ledgers (internal/ledger, internal/consensus/ledger_timing.go)

    A closed ledger has an open successor over a copy of its state; closing that
    successor records the parent in the skip lists, fixes the trees, takes the destroyed
    drops off the supply and names the ledger by the hash of its header. Any ledger of a
    chain resolves the hashes of its recent ancestors and of those at multiples of 256. *)

From Stdlib Require Import ZArith Lia.
From stdpp Require Import base list list_numbers numbers gmap option strings.
From S2P Require Import Prelude Serdes Sha512 ShaMapKey ShaMapNode ShaMap ShaMapRefine ShaMapHash ShaMapCodec ShaMapStore EntryStream LedgerEntry LedgerView LedgerHeader Ledger SkipList.

Module LedgerChain.
Import Sha512 ShaMapKey ShaMapNode ShaMap ShaMapRefine ShaMapStore LedgerEntry LedgerView LedgerHeader Ledger SkipList.

(** ** Close times *)

Definition ledgerPossibleTimeResolutions : list Z := [10; 20; 30; 60; 90; 120].
Definition increaseLedgerTimeResolutionEvery : Z := 8.
Definition decreaseLedgerTimeResolutionEvery : Z := 1.

Definition GetNextLedgerTimeResolution (parentResolution : Z) (previousAgree : bool) (newLedgerSeq : Z) : Z :=
  if newLedgerSeq =? 0 then parentResolution
  else
    match list_find (fun r => r = parentResolution) ledgerPossibleTimeResolutions with
    | None => parentResolution
    | Some (idx, _) =>
        if negb previousAgree && (newLedgerSeq mod decreaseLedgerTimeResolutionEvery =? 0) && (idx + 1 <? length ledgerPossibleTimeResolutions)%nat then
          ledgerPossibleTimeResolutions !!! (idx + 1)%nat
        else if previousAgree && (newLedgerSeq mod increaseLedgerTimeResolutionEvery =? 0) && (0 <? idx)%nat then
          ledgerPossibleTimeResolutions !!! (idx - 1)%nat
        else parentResolution
    end.

Definition ApplicationViewCloseTime (parentCloseTime proposedCloseTime resolution : Z) : Z :=
  if resolution =? 0 then proposedCloseTime
  else
    let parent := ToRippleTime parentCloseTime in
    if negb (parent =? 0) then FromRippleTime (u32 (parent + resolution))
    else
      let seconds := u32 (ToRippleTime proposedCloseTime + resolution / 2) in
      FromRippleTime (u32 (seconds - seconds mod resolution)).

(** One more, as a big-endian number. *)
Fixpoint increment (rev_hash : bytes) : bytes :=
  match rev_hash with
  | [] => []
  | b :: h => let b := u8 (b + 1) in if negb (b =? 0) then b :: h else b :: increment h
  end.
Definition incrementHash (h : bytes) : bytes := reverse (increment (reverse h)).

Inductive chainError :=
  | NotFinalized | NoSuccessor | NoRules
  | LedgerErr (e : ledgerError) | SkipErr (e : skipError) | BadRolling | BadHistorical.

Definition SetLedgerSeq (sm : SHAMap) (seq : Z) : SHAMap := mkMap (root sm) (mapType sm) (state sm) seq (cachedSize sm) (family sm).

Section Ops.
Context `{Hasher}.

(** ** Opening the successor *)

(** The parent is returned too: its state tree is flushed when it is backed by a store. *)
Definition newOpen {St} (store : list FlushEntry -> Result St) (parent : Ledger) (closeTime : Z) (building : bool) (rulesOverride : option Rules_) :
    (chainError + Ledger) * Ledger :=
  if bool_decide (lstate parent = StateOpen) || writable parent then (inl NotFinalized, parent)
  else if LedgerIndex (header parent) =? 2 ^ 32 - 1 then (inl NoSuccessor, parent)
  else
    match (match rulesOverride with Some r => Some r | None => rules parent end) with
    | None => (inl NoRules, parent)
    | Some r =>
        let '(flushed, snap) := snapshot (stateMap parent) store true None in
        let parent := setStateMap parent flushed in
        match snap with
        | inl e => (inl (LedgerErr (MapError e)), parent)
        | inr sm =>
            let h := header parent in
            let newLedgerSeq := u32 (LedgerIndex h + 1) in
            let newResolution := GetNextLedgerTimeResolution (CloseTimeResolution h) (GetCloseAgree h) newLedgerSeq in
            let closeTime := if building then ApplicationViewCloseTime (CloseTime h) closeTime newResolution else closeTime in
            let newHeader := mkHeader newLedgerSeq (CloseTime h) (incrementHash (Hash_ h)) (replicate 32 0) (replicate 32 0) (Hash_ h) (Drops h)
                               false false 0 (u8 newResolution) closeTime in
            (inr (mkLedger (SetLedgerSeq sm newLedgerSeq) (SetLedgerSeq (New TypeTransaction) newLedgerSeq) newHeader (fees parent) StateOpen true 0 (Some r)), parent)
        end
    end.

Definition NewOpen {St} (store : list FlushEntry -> Result St) (parent : Ledger) (closeTime : Z) := newOpen store parent closeTime false None.
Definition NewOpenWithRules {St} (store : list FlushEntry -> Result St) (parent : Ledger) (closeTime : Z) (r : option Rules_) := newOpen store parent closeTime false r.
Definition NewOpenForBuild {St} (store : list FlushEntry -> Result St) (parent : Ledger) (closeTime : Z) := newOpen store parent closeTime true None.

(** ** Closing *)

(** The rules are read from the Amendments entry by an argument of the operation. *)
Definition Close (loadAmendmentsFromSHAMap : SHAMap -> chainError + Rules_) (closeTime closeFlags : Z) (l : Ledger) : chainError + Ledger :=
  if negb (bool_decide (lstate l = StateOpen)) then inl (LedgerErr ErrInvalidState)
  else if negb (writable l) then inl (LedgerErr ErrLedgerImmutable)
  else if (dropsDestroyed l <? 0) || (Drops (header l) <? dropsDestroyed l) then inl (LedgerErr ErrDropsUnderflow)
  else
    let lift {A} (r : Result A) : chainError + A := match r with inl e => inl (LedgerErr (MapError e)) | inr a => inr a end in
    let? sm := lift (MutableFork (stateMap l)) in
    let? tm := lift (MutableFork (txMap l)) in
    let? sm := match UpdateOnMap sm (LedgerIndex (header l)) (ParentHash (header l)) with inl e => inl (SkipErr e) | inr sm => inr sm end in
    let? r := loadAmendmentsFromSHAMap sm in
    let? sm := lift (SetImmutable sm) in
    let? tm := lift (SetImmutable tm) in
    let? accountHash := lift (ShaMap.Hash_ sm) in
    let? txHash := lift (ShaMap.Hash_ tm) in
    let h := header l in
    let h := mkHeader (LedgerIndex h) (ParentCloseTime h) (Hash_ h) txHash accountHash (ParentHash h) (u64 (Drops h - dropsDestroyed l))
               (Validated h) true closeFlags (CloseTimeResolution h) closeTime in
    let h := mkHeader (LedgerIndex h) (ParentCloseTime h) (CalculateHash h) (TxHash h) (AccountHash h) (ParentHash h) (Drops h)
               (Validated h) (Accepted h) (CloseFlags h) (CloseTimeResolution h) (CloseTime h) in
    inr (mkLedger sm tm h (fees l) StateClosed false (dropsDestroyed l) (Some r)).

Definition SetValidated (l : Ledger) : chainError + Ledger :=
  if negb (bool_decide (lstate l = StateClosed)) then inl (LedgerErr ErrLedgerNotClosed)
  else
    let h := header l in
    let h := mkHeader (LedgerIndex h) (ParentCloseTime h) (Hash_ h) (TxHash h) (AccountHash h) (ParentHash h) (Drops h)
               true (Accepted h) (CloseFlags h) (CloseTimeResolution h) (CloseTime h) in
    inr (mkLedger (stateMap l) (txMap l) h (fees l) StateValidated (writable l) (dropsDestroyed l) (rules l)).

(** ** Hashes of ancestors *)

Definition SkipListHashes (l : Ledger) : skipError + list bytes := ReadHashes (stateMap l) (Key LedgerHashes).

(** The hash [seq] has in the list of its run. *)
Definition historicalHash (sm : SHAMap) (seq : Z) : chainError + option bytes :=
  if negb (Z.land seq 0xff =? 0) then inr None
  else
    match ReadLedgerHashesSLE sm (Key (LedgerHashesForSeq seq)) with
    | inl e => inl (SkipErr e)
    | inr (_, histHashes, lastSeq) =>
        if (length histHashes =? 0)%nat then inr None
        else if negb (Z.land lastSeq 0xff =? 0) || negb (Z.shiftr lastSeq 16 =? Z.shiftr seq 16) then inl BadHistorical
        else
          let firstSeq := Z.shiftl (Z.shiftr lastSeq 16) 16 in
          let firstSeq := if firstSeq =? 0 then 256 else firstSeq in
          let wantLen := Z.shiftr (u32 (lastSeq - firstSeq)) 8 + 1 in
          if negb (Z.of_nat (length histHashes) =? wantLen) then inl BadHistorical
          else if (firstSeq <=? seq) && (seq <=? lastSeq) then inr (Some (histHashes !!! Z.to_nat (Z.shiftr (u32 (seq - firstSeq)) 8)))
          else inr None
    end.

Definition HashOfSeq (l : Ledger) (seq : Z) : chainError + option bytes :=
  let lseq := LedgerIndex (header l) in
  if (seq =? 0) || (lseq <? seq) then inr None
  else if seq =? lseq then inr (Some (Hash_ (header l)))
  else if seq =? u32 (lseq - 1) then inr (Some (ParentHash (header l)))
  else
    match ReadLedgerHashesSLE (stateMap l) (Key LedgerHashes) with
    | inl e => inl (SkipErr e)
    | inr (_, hashes, lastSeq) =>
        if (length hashes =? 0)%nat then historicalHash (stateMap l) seq
        else if (lseq =? 0) || negb (lastSeq =? u32 (lseq - 1)) then inl BadRolling
        else if negb (Z.of_nat (length hashes) =? Z.min lastSeq 256) then inl BadRolling
        else
          let firstSeq := u32 (lastSeq - Z.of_nat (length hashes) + 1) in
          if (firstSeq <=? seq) && (seq <=? lastSeq) then inr (Some (hashes !!! Z.to_nat (seq - firstSeq)))
          else historicalHash (stateMap l) seq
    end.

End Ops.

(** The resolution stays one of the six, moves by at most one place, coarser only after a
    ledger without agreement and finer only after one with, and fits the header's byte. *)
Lemma next_resolution_steps parent agree seq :
  parent ∈ ledgerPossibleTimeResolutions ->
  let next := GetNextLedgerTimeResolution parent agree seq in
  next ∈ ledgerPossibleTimeResolutions /\ u8 next = next /\ (if agree then next <= parent else parent <= next) /\
  forall r, r ∈ ledgerPossibleTimeResolutions -> ~ (Z.min parent next < r < Z.max parent next).
Proof.
  intros Hin next. assert (Hnext : Forall (fun q => let n := GetNextLedgerTimeResolution q agree seq in
    n ∈ ledgerPossibleTimeResolutions /\ u8 n = n /\ (if agree then n <= q else q <= n) /\
    Forall (fun r => ~ (Z.min q n < r < Z.max q n)) ledgerPossibleTimeResolutions) ledgerPossibleTimeResolutions).
  { unfold GetNextLedgerTimeResolution. destruct (seq =? 0), agree, (seq mod decreaseLedgerTimeResolutionEvery =? 0), (seq mod increaseLedgerTimeResolutionEvery =? 0);
      apply (bool_decide_unpack _); vm_compute; exact I. }
  eapply list.Forall_forall in Hnext; [|exact Hin]. destruct Hnext as (H1 & H2 & H3 & H4). split_and!; [done..|]. intros r Hr. by eapply list.Forall_forall in H4.
Qed.

(** ** What a ledger resolves *)

Section Resolve.
Context `{Hasher} (hash : Z -> bytes).

(** The ancestors that can be resolved: those up to 256 back, and multiples of 256. *)
Definition resolvable (n seq : Z) : bool := (1 <=? seq) && (seq <=? n) && ((n - 256 <=? seq) || (seq mod 256 =? 0)).

Lemma lists_read sm m k hs last : Rep sm m -> is_key k -> lists (m !! k) hs last -> hs <> [] -> (length hs <= 256)%nat ->
  exists f, ReadLedgerHashesSLE sm k = inr (f, hs, last).
Proof.
  intros Hr Hk Hl Hne Hlen. destruct hs as [|h hs]; [done|]. destruct Hl as (kd & d & Hm & Hd).
  destruct (read_listing sm m k kd d (h :: hs) last Hr Hk Hm Hd) as (f & _ & Hrd); [cbn in *; lia|]. by exists (Some f).
Qed.

Lemma seqZ_nth {A} `{Inhabited A} (f : Z -> A) a n i : 0 <= i < n -> (f <$> seqZ a n) !!! Z.to_nat i = f (a + i).
Proof.
  intros Hi. apply list_lookup_total_correct. rewrite list_lookup_fmap, lookup_seqZ_lt by lia. cbn. do 2 f_equal. lia.
Qed.

Lemma page_found p seq : 1 <= seq <= p -> seq mod 256 = 0 ->
  let w := seq / 65536 in let i := (seq - firstOf w) / 256 in
  0 <= i < countOf w p /\ firstOf w + 256 * i = seq /\ lastOf w p mod 256 = 0 /\ lastOf w p / 65536 = w /\ seq <= lastOf w p <= p.
Proof.
  intros Hs Hm w i. assert (Hw : 0 <= w) by (unfold w; dmlia). assert (Hf : firstOf w <= seq) by (unfold firstOf, w; dmlia).
  assert (Hf256 : firstOf w mod 256 = 0).
  { unfold firstOf. destruct (Z.max_spec (65536 * w) 256) as [[? ->]|[? ->]]; [done|]. replace (65536 * w) with (256 * w * 256) by lia. apply Z.mod_mul. lia. }
  assert (Hi : firstOf w + 256 * i = seq) by (unfold i; dmlia).
  assert (Hc : countOf w p = (Z.min p (65536 * w + 65535) - firstOf w) / 256 + 1) by (unfold countOf; by rewrite (proj2 (Z.ltb_ge _ _)) by lia).
  assert (Hseq : seq <= 65536 * w + 65535) by (unfold w; dmlia). assert (Hlo : 65536 * w <= firstOf w) by (unfold firstOf; lia).
  unfold lastOf. rewrite Hc. clearbody w i. set (top := Z.min p (65536 * w + 65535)) in *. assert (Htop : seq <= top <= p /\ top <= 65536 * w + 65535) by (unfold top; lia). clearbody top.
  clear Hc Hs. assert (Hdiv : top - firstOf w = 256 * ((top - firstOf w) / 256) + (top - firstOf w) mod 256) by (apply Z.div_mod; lia).
  pose proof (Z.mod_pos_bound (top - firstOf w) 256 ltac:(lia)). set (q := (top - firstOf w) / 256) in *. clearbody q. split_and!; [|lia|lia| |..|lia|lia].
  - assert (0 <= i) by (clear -Hi Hf; lia). done.
  - replace (q + 1 - 1) with q by lia. rewrite Z.mul_comm, Z.mod_add by lia. done.
  - symmetry. apply (Z.div_unique _ _ _ (firstOf w + 256 * (q + 1 - 1) - 65536 * w)); lia.
Qed.

Lemma historical_exact sm m p seq : Rep sm m -> records hash m p -> 1 <= seq <= p -> is_uint 32 p ->
  historicalHash sm seq = inr (if seq mod 256 =? 0 then Some (hash seq) else None).
Proof.
  intros Hr [_ Hpages] Hs Hu. unfold historicalHash, is_uint in *. change 0xff with (Z.ones 8). rewrite Z.land_ones by lia. change (2 ^ 8) with 256.
  destruct (Z.eqb_spec (seq mod 256) 0) as [Hm|Hm]; cbn [negb]; [|done]. destruct (page_found p seq Hs Hm) as (Hi & Hfi & Hlm & Hlw & Hsl).
  assert (Hw : 0 <= seq / 65536 < 65536) by dmlia. set (w := seq / 65536) in *. pose proof (page_length hash w p ltac:(lia) ltac:(lia)) as Hpl.
  pose proof (countOf_bounds w p ltac:(lia) ltac:(lia)) as Hcb.
  destruct (lists_read sm m (runKey w) _ _ Hr (runKey_key w) (Hpages w Hw)) as (f & Hread); [intros He; rewrite He in Hpl; cbn in Hpl; lia|lia|].
  rewrite run_of. fold w. rewrite Hread. rewrite (proj2 (Nat.eqb_neq _ _)) by lia. rewrite Z.land_ones, !Z.shiftr_div_pow2, Z.shiftl_mul_pow2 by lia.
  change (2 ^ 16) with 65536. change (2 ^ 8) with 256. rewrite Hlm, Hlw. fold w. rewrite !Z.eqb_refl. cbn [negb orb].
  assert (Hfirst : (if w * 65536 =? 0 then 256 else w * 65536) = firstOf w).
  { unfold firstOf. destruct (Z.eqb_spec (w * 65536) 0); lia. }
  assert (Hfp : 256 <= firstOf w) by (unfold firstOf; lia). rewrite Hfirst. rewrite (wrap_small 32 (lastOf w p - firstOf w)), (wrap_small 32 (seq - firstOf w)) by (unfold is_uint; lia).
  assert (Hcount : (lastOf w p - firstOf w) / 256 + 1 = countOf w p) by (unfold lastOf; replace (firstOf w + 256 * (countOf w p - 1) - firstOf w) with ((countOf w p - 1) * 256) by lia; rewrite Z.div_mul by lia; lia).
  rewrite Hcount, Hpl, Z.eqb_refl. cbn [negb]. rewrite (proj2 (Z.leb_le _ _)), (proj2 (Z.leb_le _ _)) by lia. cbn [andb]. unfold page.
  rewrite (seqZ_nth (fun i => hash (firstOf w + 256 * i)) 0 (countOf w p)) by lia. do 3 f_equal. lia.
Qed.

Lemma hashOfSeq_exact l m n seq :
  Rep (stateMap l) m -> records hash m (n - 1) -> 1 <= n -> is_uint 32 n -> is_uint 32 seq ->
  LedgerIndex (header l) = n -> Hash_ (header l) = hash n -> (1 < n -> ParentHash (header l) = hash (n - 1)) ->
  HashOfSeq l seq = inr (if resolvable n seq then Some (hash seq) else None).
Proof.
  intros Hr Hrec Hn Hun Hus Hidx Hh Hph. pose proof Hrec as [Hroll _]. unfold HashOfSeq, resolvable, is_uint in *. rewrite Hidx, Hh.
  destruct (Z.eqb_spec seq 0) as [->|Hs0]; [done|]. destruct (Z.ltb_spec n seq) as [Hlt|Hle]; cbn [orb].
  { by rewrite (proj2 (Z.leb_gt seq n)), andb_false_r by lia. }
  rewrite (proj2 (Z.leb_le 1 seq)), (proj2 (Z.leb_le seq n)) by lia. cbn [andb]. rewrite (wrap_small 32 (n - 1)) by (unfold is_uint; lia).
  destruct (Z.eqb_spec seq n) as [->|Hsn]; [by rewrite (proj2 (Z.leb_le _ _)) by lia|].
  destruct (Z.eqb_spec seq (n - 1)) as [->|Hsn1]; [rewrite Hph by lia; by rewrite (proj2 (Z.leb_le _ _)) by lia|].
  pose proof (rolling_length hash (n - 1) ltac:(lia)) as Hrl.
  destruct (lists_read (stateMap l) m rollKey _ _ Hr rollKey_key Hroll) as (f & Hread); [intros He; rewrite He in Hrl; cbn in Hrl; lia|lia|].
  fold rollKey. rewrite Hread. rewrite (proj2 (Nat.eqb_neq _ _)), (proj2 (Z.eqb_neq n 0)), Z.eqb_refl by lia. cbn [negb orb]. rewrite Hrl, Z.eqb_refl. cbn [negb].
  rewrite (wrap_small 32 (n - 1 - Z.min (n - 1) 256 + 1)) by (unfold is_uint; lia). rewrite (proj2 (Z.leb_le seq (n - 1))) by lia. rewrite andb_true_r.
  destruct (Z.leb_spec (n - 1 - Z.min (n - 1) 256 + 1) seq) as [Hin|Hout].
  - rewrite (proj2 (Z.leb_le (n - 256) seq)) by lia. cbn [orb]. unfold rolling, rollingLen. rewrite (seqZ_nth hash) by lia. do 3 f_equal. lia.
  - rewrite (proj2 (Z.leb_gt (n - 256) seq)) by lia. cbn [orb]. apply (historical_exact _ m (n - 1)); [done|done|lia|unfold is_uint; lia].
Qed.

End Resolve.

(** ** Rounds *)

Section Rounds.
Context `{Hasher} {St : Type} (store : list FlushEntry -> Result St) (load : SHAMap -> chainError + Rules_).

(** What happens to an open ledger: a refused operation leaves it as it was. *)
Inductive ledgerOp :=
  | OpInsert (k : Keylet) (d : bytes) | OpUpdate (k : Keylet) (d : bytes) | OpErase (k : Keylet)
  | OpBurn (z : Z) | OpTx (h d : bytes) | OpTxMeta (h d : bytes).

Definition runOp (l : Ledger) (op : ledgerOp) : Ledger :=
  match op with
  | OpInsert k d => snd (ledgerInsert k d l)
  | OpUpdate k d => snd (ledgerUpdate k d l)
  | OpErase k => snd (ledgerErase k l)
  | OpBurn z => snd (ledgerAdjustDropsDestroyed z l)
  | OpTx h d => snd (AddTransaction h d l)
  | OpTxMeta h d => snd (AddTransactionWithMeta h d l)
  end.

Record round := mkRound {
  building : bool; openTime : Z; openRules : option Rules_; ops : list ledgerOp; closeTime : Z; closeFlags : Z; validated : bool }.

(** The next ledger of the chain: opened over the last, changed, closed and perhaps validated. *)
Definition nextLedger (parent : Ledger) (r : round) : chainError + Ledger :=
  let? o := fst (newOpen store parent (openTime r) (building r) (openRules r)) in
  let? l := Close load (closeTime r) (closeFlags r) (foldl runOp o (ops r)) in
  if validated r then SetValidated l else inr l.

(** The chain, the last ledger first. *)
Fixpoint extend (l : Ledger) (earlier : list Ledger) (rounds : list round) : chainError + Ledger * list Ledger :=
  match rounds with
  | [] => inr (l, earlier)
  | r :: rounds => let? l' := nextLedger l r in extend l' (l :: earlier) rounds
  end.

End Rounds.

(** ** The chain *)

Section Chain.
Context `{Hasher} {St : Type} (store : list FlushEntry -> Result St) (load : SHAMap -> chainError + Rules_).
Hypothesis HK : keysDistinct.
Hypothesis Hload : forall sm, exists r, load sm = inr r.

Abbreviation tree := (gmap bytes (leafKind * bytes)).
Abbreviation hashOf := (fun a : Ledger => Hash_ (header a)).

(** The hash of the ledger [p], counting from the oldest as 1. *)
Definition hashAt (ls : list Ledger) (p : Z) : bytes :=
  if 1 <=? p then default zeroHash (hashOf <$> ls !! Z.to_nat (Z.of_nat (length ls) - p)) else zeroHash.

Lemma hashAt_key ls p : Forall (fun a => is_key (hashOf a)) ls -> is_key (hashAt ls p).
Proof.
  intros Hf. unfold hashAt. destruct (1 <=? p); [|apply zeroHash_key]. destruct (ls !! _) as [a|] eqn:Ha; [|apply zeroHash_key].
  cbn. eapply Forall_lookup_1 in Hf; [|exact Ha]. done.
Qed.

Lemma hashAt_cons l ls p : 1 <= p <= Z.of_nat (length ls) -> hashAt (l :: ls) p = hashAt ls p.
Proof.
  intros Hp. unfold hashAt. destruct (1 <=? p); [|done]. cbn [length].
  replace (Z.to_nat (Z.of_nat (S (length ls)) - p)) with (S (Z.to_nat (Z.of_nat (length ls) - p))) by lia. done.
Qed.

Lemma hashAt_tip l ls : hashAt (l :: ls) (Z.of_nat (length (l :: ls))) = hashOf l.
Proof. unfold hashAt. rewrite (proj2 (Z.leb_le _ _)) by (cbn; lia). by rewrite Z.sub_diag. Qed.

Lemma hashAt_head l l' ls p : hashOf l = hashOf l' -> hashAt (l :: ls) p = hashAt (l' :: ls) p.
Proof. intros He. unfold hashAt. cbn [length]. destruct (1 <=? p); [|done]. destruct (Z.to_nat _); [|done]. cbn. by rewrite He. Qed.

Lemma hashAt_lookup ls p : 1 <= p <= Z.of_nat (length ls) -> Some (hashAt ls p) = hashOf <$> ls !! Z.to_nat (Z.of_nat (length ls) - p).
Proof.
  intros Hp. unfold hashAt. rewrite (proj2 (Z.leb_le _ _)) by lia. destruct (lookup_lt_is_Some_2 ls (Z.to_nat (Z.of_nat (length ls) - p))) as [a ->]; [lia|done].
Qed.

(** What a tree records depends on the hashes up to the last one only. *)
Lemma records_ext (hash hash' : Z -> bytes) (m : tree) p : (forall q, 1 <= q <= p -> hash q = hash' q) -> 0 <= p -> records hash m p -> records hash' m p.
Proof.
  intros He Hp [Hr Hpg]. split.
  - assert (rolling hash p = rolling hash' p) as <-; [|done]. apply list_fmap_ext. intros i x [-> Hi]%lookup_seqZ. apply He. unfold rollingLen in *. lia.
  - intros w Hw. assert (page hash w p = page hash' w p) as <-; [|by apply Hpg]. apply list_fmap_ext. intros i x [-> Hi]%lookup_seqZ. apply He.
    unfold countOf in Hi. destruct (Z.ltb_spec p (firstOf w)); [lia|]. assert (256 <= firstOf w) by (unfold firstOf; lia). dmlia.
Qed.

Lemma records_none (hash : Z -> bytes) (m : tree) : m !! rollKey = None -> (forall w, 0 <= w < 65536 -> m !! runKey w = None) -> records hash m 0.
Proof.
  intros Hr Hw. split; [exact Hr|]. intros w Hww. unfold page, countOf. rewrite (proj2 (Z.ltb_lt _ _)) by (unfold firstOf; lia). by apply Hw.
Qed.

Definition skipKey (k : bytes) : Prop := k = rollKey \/ exists w, 0 <= w < 65536 /\ k = runKey w.

Lemma records_frame (hash : Z -> bytes) (m m' : tree) p : (forall k, skipKey k -> m' !! k = m !! k) -> records hash m p -> records hash m' p.
Proof. intros Hs [Hr Hw]. split; [rewrite Hs; [done|by left]|]. intros w Hww. rewrite Hs; [by apply Hw|]. right. by exists w. Qed.

(** An operation on entries other than the skip lists. *)
Definition opOk (op : ledgerOp) : Prop :=
  match op with
  | OpInsert k d | OpUpdate k d => is_key (Key k) /\ storable d /\ ~ skipKey (Key k)
  | OpErase k => is_key (Key k) /\ ~ skipKey (Key k)
  | _ => True
  end.

(** Drops an operation or a round destroys, and what is left of a supply. *)
Definition burn (z : Z) (op : ledgerOp) : Z := match op with OpBurn d => addDrops z d | _ => z end.
Definition burned (r : round) : Z := foldl burn 0 (ops r).
Fixpoint supply (drops : Z) (rounds : list round) : option Z :=
  match rounds with
  | [] => Some drops
  | r :: rounds => if (0 <=? burned r) && (burned r <=? drops) then supply (drops - burned r) rounds else None
  end.

(** An open ledger with the entries [m]. *)
Record opened (l : Ledger) (h : LedgerHeader) (m : tree) : Prop := {
  op_open : openState l m; op_tx : state (txMap l) = stateModifying; op_fam : family (stateMap l) = None; op_header : header l = h }.

Lemma put_state sm k d t sm' : PutWithNodeType sm k d t = inr sm' -> state sm' = state sm.
Proof.
  unfold PutWithNodeType, putItemWithNodeTypeUnsafe, assignRoot. intros Hp.
  repeat (case_match; simplify_eq; try done).
Qed.

Lemma change_opened (l : Ledger) (h : LedgerHeader) (m : tree) (k : Keylet) (want : bool) (err : ledgerError) (f : SHAMap -> Result SHAMap) (keep : tree -> Prop) :
  opened l h m -> is_key (Key k) -> keep m ->
  (want = present m (Key k) -> exists sm' m', f (stateMap l) = inr sm' /\ openState (setStateMap l sm') m' /\ family sm' = family (stateMap l) /\ keep m') ->
  exists m', opened (snd (change k want err f l)) h m' /\ keep m' /\ dropsDestroyed (snd (change k want err f l)) = dropsDestroyed l.
Proof.
  intros [Ho Ht Hf Hh] Hk Hkeep Hdo. rewrite (change_open l m k want err f Ho Hk). destruct (Bool.eqb_spec (present m (Key k)) want) as [<-|Hne]; cbn [negb].
  - destruct Hdo as (sm' & m' & -> & Ho' & Hf' & Hkeep'); [done|]. exists m'. split_and!; [|done|done]. constructor; [exact Ho'|done|cbn; congruence|done].
  - exists m. by split_and!.
Qed.

Lemma runOp_opened (l : Ledger) (h : LedgerHeader) (m : tree) (op : ledgerOp) :
  opened l h m -> opOk op -> exists m', opened (runOp l op) h m' /\ (forall k, skipKey k -> m' !! k = m !! k) /\ dropsDestroyed (runOp l op) = burn (dropsDestroyed l) op.
Proof.
  intros Hl Hop. pose proof Hl as [Ho Ht Hf Hh].
  assert (Hput : forall k d want err, is_key (Key k) -> storable d -> ~ skipKey (Key k) ->
    exists m', opened (snd (change k want err (fun sm => Put sm (Key k) d) l)) h m' /\ (forall k, skipKey k -> m' !! k = m !! k) /\
      dropsDestroyed (snd (change k want err (fun sm => Put sm (Key k) d) l)) = dropsDestroyed l).
  { intros k d want err Hk Hd Hs. apply (change_opened l h m k want err _ (fun m' => forall k, skipKey k -> m' !! k = m !! k)); [done..|]. intros _.
    destruct (put_open l m (Key k) d Ho Hk Hd) as (sm' & Hp & Ho' & Hsm). exists sm'. eexists. split_and!; [done|exact Ho'|by rewrite Hsm|].
    intros k' Hk'. rewrite lookup_insert_ne; [done|]. by intros <-. }
  assert (Htx : forall k d t, exists m', opened (snd (addTransaction k d t l)) h m' /\ (forall k, skipKey k -> m' !! k = m !! k) /\ dropsDestroyed (snd (addTransaction k d t l)) = dropsDestroyed l).
  { intros k d t. exists m. unfold addTransaction. rewrite (os_open l m Ho). cbn [negb]. destruct (Has (txMap l) k) as [e|[]]; [done..|].
    destruct (PutWithNodeType (txMap l) k d t) as [e|sm'] eqn:Hp; [done|]. split_and!; [|done|done]. apply put_state in Hp.
    destruct Ho. constructor; [by constructor|cbn; congruence|done|done]. }
  destruct op as [k d|k d|k|z|k d|k d]; cbn [opOk runOp burn] in *.
  - destruct Hop as (Hk & Hd & Hs). exact (Hput k d false ErrEntryExists Hk Hd Hs).
  - destruct Hop as (Hk & Hd & Hs). exact (Hput k d true ErrEntryNotFound Hk Hd Hs).
  - destruct Hop as (Hk & Hs). apply (change_opened l h m k true _ _ (fun m' => forall k, skipKey k -> m' !! k = m !! k)); [done..|]. intros Hin.
    destruct (erase_open l m (Key k) Ho Hk) as (sm' & Hp & Ho' & Hsm); [unfold present in Hin; by destruct (m !! Key k)|].
    exists sm'. eexists. split_and!; [done|exact Ho'|by rewrite Hsm|]. intros k' Hk'. rewrite lookup_delete_ne; [done|]. by intros <-.
  - exists m. unfold ledgerAdjustDropsDestroyed. rewrite (os_open l m Ho). cbn. split_and!; [|done|done]. destruct Ho. constructor; [by constructor|done|done|done].
  - apply Htx.
  - apply Htx.
Qed.

Lemma runOps_opened (todo : list ledgerOp) (l : Ledger) (h : LedgerHeader) (m : tree) :
  opened l h m -> Forall opOk todo ->
  exists m', opened (foldl runOp l todo) h m' /\ (forall k, skipKey k -> m' !! k = m !! k) /\ dropsDestroyed (foldl runOp l todo) = foldl burn (dropsDestroyed l) todo.
Proof.
  intros Hl Hall. revert l m Hl. induction Hall as [|op todo Hop _ IH]; intros l m Hl; [by exists m|]. cbn.
  destruct (runOp_opened l h m op Hl Hop) as (m1 & Hl1 & Hs1 & Hd1). destruct (IH _ _ Hl1) as (m2 & Hl2 & Hs2 & Hd2).
  exists m2. split_and!; [done| |by rewrite Hd2, Hd1]. intros k Hk. by rewrite Hs2, Hs1.
Qed.

(** The last ledger of a chain: finalized, and recording the ledgers before it. *)
Record tip (l : Ledger) (earlier : list Ledger) (m : tree) : Prop := {
  tip_final : lstate l <> StateOpen; tip_ro : writable l = false; tip_rules : is_Some (rules l);
  tip_index : LedgerIndex (header l) = Z.of_nat (length (l :: earlier));
  tip_keys : Forall (fun a => is_key (hashOf a)) (l :: earlier);
  tip_rep : Rep (stateMap l) m; tip_type : mapType (stateMap l) = TypeState; tip_state : state (stateMap l) <> stateInvalid;
  tip_kind : uniform leafAccountState m; tip_fam : family (stateMap l) = None;
  tip_records : records (hashAt (l :: earlier)) m (Z.of_nat (length earlier));
  tip_parent : earlier <> [] -> ParentHash (header l) = hashAt (l :: earlier) (Z.of_nat (length earlier));
  tip_drops : is_uint 64 (Drops (header l)) }.

Lemma newOpen_opened (l : Ledger) (earlier : list Ledger) (m : tree) (r : round) :
  tip l earlier m -> Z.of_nat (length (l :: earlier)) < 2 ^ 32 - 1 ->
  exists o h, fst (newOpen store l (openTime r) (building r) (openRules r)) = inr o /\ opened o h m /\ dropsDestroyed o = 0 /\
    LedgerIndex h = Z.of_nat (length (l :: earlier)) + 1 /\ ParentHash h = hashOf l /\ Drops h = Drops (header l).
Proof.
  intros [Hfin Hro [rl Hrl] Hidx _ Hr Ht Hs Hu Hfam _ _ _] Hlen. unfold newOpen. rewrite bool_decide_eq_false_2, Hro, Hidx by done. cbn [orb].
  rewrite (proj2 (Z.eqb_neq _ _)) by lia. set (ro := match openRules r with Some _ => _ | None => _ end).
  assert (Hro' : is_Some ro) by (unfold ro; destruct (openRules r); [done|by rewrite Hrl]). destruct Hro' as [rl' ->].
  unfold snapshot, snapshotLocked. rewrite Hfam. destruct (state (stateMap l)) eqn:Hst; try done;
    (eexists _, _; split; [reflexivity|]; split; [constructor; [by constructor|done|done|reflexivity]|]; repeat split;
     cbn; rewrite Hidx; apply wrap_small; unfold is_uint; cbn in *; lia).
Qed.

(** Closing an open ledger whose tree records its grandparent. *)
Lemma Close_closed (o : Ledger) (h : LedgerHeader) (m : tree) (hash : Z -> bytes) (p : Z) (r : round) :
  opened o h m -> (forall q, is_key (hash q)) -> records hash m (p - 1) -> 1 <= p -> is_uint 32 (p + 1) ->
  LedgerIndex h = p + 1 -> ParentHash h = hash p ->
  if (0 <=? dropsDestroyed o) && (dropsDestroyed o <=? Drops h) then
    exists l m', Close load (closeTime r) (closeFlags r) o = inr l /\ lstate l = StateClosed /\ writable l = false /\ is_Some (rules l) /\
      LedgerIndex (header l) = p + 1 /\ ParentHash (header l) = hash p /\ Drops (header l) = u64 (Drops h - dropsDestroyed o) /\
      hashOf l = CalculateHash (header l) /\ AccountHash (header l) = ShaMapNode.hash (root (stateMap l)) /\
      Rep (stateMap l) m' /\ mapType (stateMap l) = TypeState /\ state (stateMap l) = stateImmutable /\ uniform leafAccountState m' /\
      family (stateMap l) = None /\ records hash m' p
  else Close load (closeTime r) (closeFlags r) o = inl (LedgerErr ErrDropsUnderflow).
Proof.
  intros [Ho Htx Hfam Hh] Hkeys Hrec Hp Hu Hidx Hpar. pose proof Ho as [Hopen Hmod Htype Hrep Hkind]. unfold isOpen in Hopen. apply andb_prop in Hopen as [Hst Hw].
  apply bool_decide_eq_true in Hst. unfold Close. rewrite bool_decide_eq_true_2, Hw, Hh by done. cbn [negb].
  destruct (Z.leb_spec 0 (dropsDestroyed o)) as [H0|H0]; [rewrite (proj2 (Z.ltb_ge (dropsDestroyed o) 0)) by done|by rewrite (proj2 (Z.ltb_lt (dropsDestroyed o) 0))]. cbn [orb andb].
  destruct (Z.leb_spec (dropsDestroyed o) (Drops h)) as [H1|H1]; [rewrite (proj2 (Z.ltb_ge (Drops h) _)) by done|by rewrite (proj2 (Z.ltb_lt (Drops h) _))].
  unfold MutableFork, snapshotLocked. rewrite Hmod, Htx. cbn beta iota zeta. rewrite Hidx, Hpar.
  set (fork := mkMap (root (stateMap o)) _ _ _ _ _).
  destruct (update_records hash Hkeys HK fork m p) as (sm' & m' & Hup & [Hr' Hm' Ht' Hk'] & Hrec' & _ & Hfam' & _); [by constructor|done|done|done|].
  rewrite Hup. destruct (Hload sm') as [rl Hrl]. rewrite Hrl. unfold SetImmutable. rewrite Hm'. cbn.
  eexists _, m'. split; [reflexivity|]. cbn. repeat (split; [first [done|by eexists|by rewrite Hfam']|]). done.
Qed.

Lemma nextLedger_tip (l : Ledger) (earlier : list Ledger) (m : tree) (r : round) :
  tip l earlier m -> Z.of_nat (length (l :: earlier)) < 2 ^ 32 - 1 -> Forall opOk (ops r) ->
  if (0 <=? burned r) && (burned r <=? Drops (header l)) then
    exists l' m', nextLedger store load l r = inr l' /\ tip l' (l :: earlier) m' /\ Drops (header l') = Drops (header l) - burned r
  else nextLedger store load l r = inl (LedgerErr ErrDropsUnderflow).
Proof.
  intros Htip Hlen Hops. pose proof Htip as [_ _ _ _ Hkeys _ _ _ _ _ Hrec _ Hd]. set (n := Z.of_nat (length (l :: earlier))) in *. assert (Hn : 1 <= n) by (unfold n; cbn; lia).
  destruct (newOpen_opened l earlier m r Htip Hlen) as (o & h & Hno & Ho & Hd0 & Hidx & Hpar & Hdr).
  destruct (runOps_opened (ops r) o h m Ho Hops) as (m1 & Ho1 & Hskip & Hburn). rewrite Hd0 in Hburn. fold (burned r) in Hburn.
  assert (Hrec1 : records (hashAt (l :: earlier)) m1 (n - 1)).
  { apply (records_frame _ m); [done|]. by replace (n - 1) with (Z.of_nat (length earlier)) by (unfold n; cbn; lia). }
  pose proof (Close_closed _ h m1 (hashAt (l :: earlier)) n r Ho1 (fun q => hashAt_key _ q Hkeys) Hrec1 Hn) as Hc. rewrite Hburn, Hdr in Hc.
  unfold nextLedger. rewrite Hno. fold n in Hidx. unfold is_uint in *. specialize (Hc ltac:(lia) Hidx ltac:(by rewrite Hpar; unfold n; rewrite hashAt_tip)).
  destruct (Z.leb_spec 0 (burned r)) as [Hb0|]; cbn [andb] in *; [|by rewrite Hc]. destruct (Z.leb_spec (burned r) (Drops (header l))) as [Hb1|]; [|by rewrite Hc].
  destruct Hc as (l' & m' & -> & Hst & Hw & Hrl & Hidx' & Hpar' & Hdr' & Hh & _ & Hrep & Hty & Him & Hun & Hfam & Hrec').
  rewrite wrap_small in Hdr' by (unfold is_uint; lia).
  assert (Hext : records (hashAt (l' :: l :: earlier)) m' n).
  { apply (records_ext (hashAt (l :: earlier))); [|lia|done]. intros q Hq. symmetry. by apply hashAt_cons. }
  assert (Hkey' : is_key (hashOf l')) by (rewrite Hh; apply ShaMapHash.Hash_key). assert (Hlen' : Z.of_nat (length (l' :: l :: earlier)) = n + 1) by (unfold n; cbn; lia).
  assert (Htip' : tip l' (l :: earlier) m').
  { constructor; try done; try (congruence || by apply list.Forall_cons || (unfold is_uint; lia)).
    intros _. fold n. rewrite Hpar'. symmetry. apply hashAt_cons. lia. }
  destruct (validated r); [|by exists l', m'].
  unfold SetValidated. rewrite Hst. eexists _, m'. split; [reflexivity|]. split; [|done].
  destruct Htip' as [? ? ? ? Hks ? ? ? ? ? Hrs Hpr ?]. constructor; try done.
  - apply list.Forall_cons in Hks as [? ?]. by apply list.Forall_cons.
  - eapply records_ext; [|lia|exact Hrs]. intros q _. by apply hashAt_head.
  - intros Hne. etrans; [by apply Hpr|]. by apply hashAt_head.
Qed.

Lemma extend_tip (rounds : list round) (l : Ledger) (earlier : list Ledger) (m : tree) :
  tip l earlier m -> Z.of_nat (length (l :: earlier) + length rounds) < 2 ^ 32 -> Forall (fun r => Forall opOk (ops r)) rounds ->
  match supply (Drops (header l)) rounds with
  | None => extend store load l earlier rounds = inl (LedgerErr ErrDropsUnderflow)
  | Some rest => exists l' earlier' m', extend store load l earlier rounds = inr (l', earlier') /\ tip l' earlier' m' /\
      length earlier' = (length earlier + length rounds)%nat /\ Drops (header l') = rest
  end.
Proof.
  revert l earlier m. induction rounds as [|r rounds IH]; intros l earlier m Htip Hlen Hops.
  - cbn. exists l, earlier, m. split_and!; [done|done|lia|done].
  - apply list.Forall_cons in Hops as [Hr Hops]. cbn [supply extend]. pose proof (nextLedger_tip l earlier m r Htip) as Hn. specialize (Hn ltac:(cbn in *; lia) Hr).
    destruct (_ && _); [|by rewrite Hn]. destruct Hn as (l' & m' & -> & Htip' & Hd). specialize (IH l' (l :: earlier) m' Htip' ltac:(cbn in *; lia) Hops).
    rewrite <- Hd. destruct (supply _ rounds) as [rest|]; [|done]. destruct IH as (l2 & e2 & m2 & He & Ht2 & Hl2 & Hd2).
    exists l2, e2, m2. split_and!; [done|done|cbn in *; lia|done].
Qed.

(** A ledger a chain can start from. *)
Record genesis (g : Ledger) (m : tree) : Prop := {
  gen_final : lstate g <> StateOpen; gen_ro : writable g = false; gen_rules : is_Some (rules g);
  gen_index : LedgerIndex (header g) = 1; gen_key : is_key (hashOf g); gen_drops : is_uint 64 (Drops (header g));
  gen_rep : Rep (stateMap g) m; gen_type : mapType (stateMap g) = TypeState; gen_state : state (stateMap g) <> stateInvalid;
  gen_kind : uniform leafAccountState m; gen_fam : family (stateMap g) = None; gen_skip : forall k, skipKey k -> m !! k = None }.

Lemma genesis_tip (g : Ledger) (m : tree) : genesis g m -> tip g [] m.
Proof.
  intros []. constructor; try done; [by apply Forall_singleton|]. cbn. apply records_none; [|intros w Hw]; apply gen_skip0; [by left|right; by exists w].
Qed.

Lemma tip_resolves (l : Ledger) (earlier : list Ledger) (m : tree) (seq : Z) :
  tip l earlier m -> Z.of_nat (length (l :: earlier)) < 2 ^ 32 -> is_uint 32 seq ->
  HashOfSeq l seq = inr (if resolvable (Z.of_nat (length (l :: earlier))) seq then hashOf <$> (l :: earlier) !! Z.to_nat (Z.of_nat (length (l :: earlier)) - seq) else None).
Proof.
  intros [_ _ _ Hidx _ Hr _ _ _ _ Hrec Hpar _] Hlen Hs. set (n := Z.of_nat (length (l :: earlier))) in *. assert (Hn1 : Z.of_nat (length earlier) = n - 1) by (unfold n; cbn; lia).
  rewrite Hn1 in Hrec, Hpar. rewrite (hashOfSeq_exact (hashAt (l :: earlier)) l m n seq); try done.
  - destruct (resolvable n seq) eqn:Hres; [|done]. unfold resolvable in Hres. do 2 f_equal. rewrite !andb_true_iff, !Z.leb_le in Hres. apply hashAt_lookup. fold n. lia.
  - unfold is_uint. lia.
  - unfold n. by rewrite hashAt_tip.
  - intros Hn. apply Hpar. intros ->. cbn in Hn1. lia.
Qed.

(** C2: A chain grown from a genesis ledger over unbacked trees, by any rounds of changes
    that leave the skip lists alone, exists exactly when no round destroys more than the
    supply, provided the amendment rules can be read from every tree. Its last ledger has
    the supply less what the rounds destroyed, and resolves exactly the sequences of the
    last 256 ancestors and of the ancestors at multiples of 256, each to the hash of the
    ledger closed with that sequence. *)
Theorem chain_resolves (g : Ledger) (m : tree) (rounds : list round) (seq : Z) :
  genesis g m -> Z.of_nat (length rounds) < 2 ^ 32 - 1 -> Forall (fun r => Forall opOk (ops r)) rounds -> is_uint 32 seq ->
  match supply (Drops (header g)) rounds with
  | None => extend store load g [] rounds = inl (LedgerErr ErrDropsUnderflow)
  | Some rest => exists l earlier, extend store load g [] rounds = inr (l, earlier) /\ Drops (header l) = rest /\
      let n := 1 + Z.of_nat (length rounds) in
      LedgerIndex (header l) = n /\ length earlier = length rounds /\
      HashOfSeq l seq = inr (if resolvable n seq then hashOf <$> (l :: earlier) !! Z.to_nat (n - seq) else None)
  end.
Proof.
  intros Hg Hlen Hops Hs. pose proof (extend_tip rounds g [] m (genesis_tip g m Hg)) as He. specialize (He ltac:(cbn; lia) Hops).
  destruct (supply _ rounds) as [rest|]; [|done]. destruct He as (l & earlier & m' & He & Htip & Hl & Hd). exists l, earlier. split; [done|]. split; [done|].
  assert (Hn : 1 + Z.of_nat (length rounds) = Z.of_nat (length (l :: earlier))) by (cbn in *; lia). cbv zeta. rewrite Hn. split_and!; [apply Htip|done|].
  apply (tip_resolves l earlier m'); [done|lia|done].
Qed.

End Chain.

(** ** A chain *)

Lemma exampleKeys : @keysDistinct tailHasher.
Proof.
  split; [intros w Hw|intros w w' Hw Hw']; unfold runKey, rollKey, LedgerHashes, indexHash; cbn [Key concat app Hash tailHasher]; rewrite ?app_nil_r.
  - pose proof (zToBytes_length 4 w) as Hl. destruct (zToBytes 4 w) as [|b0 [|b1 [|b2 [|b3 [|? ?]]]]]; try discriminate Hl. clear Hl.
    intros He. apply (f_equal (fun l => l !! 5%nat)) in He. revert He. vm_compute. discriminate.
  - intros He. by apply (tailHash_number 4 (zToBytes 2 spaceSkip) (zToBytes 2 spaceSkip) w w') in He; [|lia|change (256 ^ Z.of_nat 4) with 4294967296; lia..].
Qed.

Definition exampleGenesis : Ledger :=
  mkLedger (setState (New TypeState) stateImmutable) (setState (New TypeTransaction) stateImmutable)
    (mkHeader 1 0 zeroHash zeroHash zeroHash zeroHash 1000 true true 0 30 0) (mkFees 10 200 50) StateValidated false 0 (Some (fun _ => false)).

Lemma exampleGenesis_ok : @genesis tailHasher exampleGenesis ∅.
Proof.
  constructor; try done; first [apply zeroHash_key|by split|exact (@New_rep tailHasher TypeState)|apply map_Forall_empty].
Qed.

(** An entry written and 300 drops destroyed, then 900 more than is left, or a little. *)
Definition exampleRound (z : Z) : round :=
  mkRound true 1000 None [OpInsert (mkKeylet 0 (replicate 32 7)) (replicate 12 1); OpBurn z] 1010 0 true.

Lemma exampleRound_ok (z : Z) : Forall (@opOk tailHasher) (ops (exampleRound z)).
Proof.
  repeat constructor; try (cbn; unfold is_uint; lia).
  assert (Hhead : forall x, replicate 32 7 <> tailHash x) by (intros x He; apply (f_equal (fun l => l !! 0%nat)) in He; discriminate He).
  intros [He|(w & _ & He)]; by apply Hhead in He.
Qed.

Lemma chain_resolves_witness :
  (exists l earlier, @extend tailHasher unit (fun _ => inr tt) (fun _ => inr (fun _ => false)) exampleGenesis [] [exampleRound 300; exampleRound 5; exampleRound 0] = inr (l, earlier) /\
    Drops (header l) = 695 /\ LedgerIndex (header l) = 4 /\ @HashOfSeq tailHasher l 2 = inr ((fun a => Hash_ (header a)) <$> (l :: earlier) !! 2%nat)) /\
  @extend tailHasher unit (fun _ => inr tt) (fun _ => inr (fun _ => false)) exampleGenesis [] [exampleRound 300; exampleRound 701] = inl (LedgerErr ErrDropsUnderflow).
Proof.
  split.
  - destruct (@chain_resolves tailHasher unit (fun _ => inr tt) (fun _ => inr (fun _ => false)) exampleKeys (fun _ => ex_intro _ _ eq_refl) exampleGenesis ∅
      [exampleRound 300; exampleRound 5; exampleRound 0] 2 exampleGenesis_ok) as (l & earlier & He & Hd & Hi & _ & Hh).
    + cbn. lia.
    + repeat (apply list.Forall_cons; split; [apply exampleRound_ok|]). constructor.
    + unfold is_uint. lia.
    + exists l, earlier. split_and!; [exact He|exact Hd|exact Hi|exact Hh].
  - apply (@chain_resolves tailHasher unit (fun _ => inr tt) (fun _ => inr (fun _ => false)) exampleKeys (fun _ => ex_intro _ _ eq_refl) exampleGenesis ∅
      [exampleRound 300; exampleRound 701] 2 exampleGenesis_ok).
    + cbn. lia.
    + repeat (apply list.Forall_cons; split; [apply exampleRound_ok|]). constructor.
    + unfold is_uint. lia.
Defined.

End LedgerChain.
