(* ===== verification/Directory.v ===== *)
(** * Directories (internal/ledger/state/directory.go)

    A directory is a list of item keys kept in pages of at most 32, each a ledger
    entry of its own: the root under the directory's key, page [n] under a hash of
    the key and [n]. The pages form a doubly linked ring through [IndexNext] and
    [IndexPrevious]; the root's back link names the last page. The operations run on
    any view of the ledger. Of their results the snapshots of nodes before and after
    are left out, which no caller reads. *)

From Stdlib Require Import ZArith Lia.
From stdpp Require Import base list numbers gmap strings.
From S2P Require Import Prelude Serdes Sha512 ShaMapKey EntryStream LedgerEntry LedgerView.

Module Directory.
Import Sha512 ShaMapKey EntryStream LedgerEntry LedgerView.

(** ** The entry type *)

Definition sfPreviousTxnLgrSeq : header := (2, 5).
Definition sfIndexNext : header := (3, 1).
Definition sfIndexPrevious : header := (3, 2).
Definition sfExchangeRate : header := (3, 6).
Definition sfPreviousTxnID : header := (5, 5).
Definition sfRootIndex : header := (5, 8).
Definition sfNFTokenID : header := (5, 10).
Definition sfDomainID : header := (5, 34).
Definition sfOwner : header := (8, 2).
Definition sfSponsor : header := (8, 27).
Definition sfTakerPaysCurrency : header := (17, 1).
Definition sfTakerPaysIssuer : header := (17, 2).
Definition sfTakerGetsCurrency : header := (17, 3).
Definition sfTakerGetsIssuer : header := (17, 4).
Definition sfIndexes : header := (19, 1).
Definition sfTakerPaysMPT : header := (21, 3).
Definition sfTakerGetsMPT : header := (21, 4).

Definition directoryNode : schema := mkSchema TypeDirectoryNode
  [sfFlags; sfPreviousTxnLgrSeq; sfIndexNext; sfIndexPrevious; sfExchangeRate; sfPreviousTxnID; sfRootIndex; sfNFTokenID;
   sfDomainID; sfOwner; sfSponsor; sfTakerPaysCurrency; sfTakerPaysIssuer; sfTakerGetsCurrency; sfTakerGetsIssuer;
   sfIndexes; sfTakerPaysMPT; sfTakerGetsMPT]
  [(sfFlags, "Flags"); (sfRootIndex, "RootIndex"); (sfIndexes, "Indexes")].

(** ** Pages *)

Record DirectoryNode := mkDir {
  Flags : Z;
  RootIndex : bytes;
  Indexes : list bytes;
  IndexNext : Z;
  IndexPrevious : Z;
  indexNextSet : bool;
  indexPreviousSet : bool;
  Owner : bytes;
  TakerPaysCurrency : bytes;
  TakerPaysIssuer : bytes;
  TakerGetsCurrency : bytes;
  TakerGetsIssuer : bytes;
  ExchangeRate : Z;
  TakerPaysMPT : option bytes;
  TakerGetsMPT : option bytes;
  NFTokenID : bytes;
  DomainID : bytes;
  PreviousTxnID : bytes;
  PreviousTxnLgrSeq : Z;
  decoded : entry }.

Definition zero160 : bytes := replicate 20 0.
Definition zero256 : bytes := replicate 32 0.

Definition newDirectoryNode (root : bytes) (indexes : list bytes) : DirectoryNode :=
  mkDir 0 root indexes 0 0 false false zero160 zero160 zero160 zero160 zero160 0 None None zero256 zero256 zero256 0 ∅.

Definition setIndexes (d : DirectoryNode) (xs : list bytes) : DirectoryNode :=
  mkDir (Flags d) (RootIndex d) xs (IndexNext d) (IndexPrevious d) (indexNextSet d) (indexPreviousSet d) (Owner d)
    (TakerPaysCurrency d) (TakerPaysIssuer d) (TakerGetsCurrency d) (TakerGetsIssuer d) (ExchangeRate d) (TakerPaysMPT d)
    (TakerGetsMPT d) (NFTokenID d) (DomainID d) (PreviousTxnID d) (PreviousTxnLgrSeq d) (decoded d).

Definition SetIndexNext (d : DirectoryNode) (page : Z) : DirectoryNode :=
  mkDir (Flags d) (RootIndex d) (Indexes d) page (IndexPrevious d) true (indexPreviousSet d) (Owner d)
    (TakerPaysCurrency d) (TakerPaysIssuer d) (TakerGetsCurrency d) (TakerGetsIssuer d) (ExchangeRate d) (TakerPaysMPT d)
    (TakerGetsMPT d) (NFTokenID d) (DomainID d) (PreviousTxnID d) (PreviousTxnLgrSeq d) (decoded d).

Definition SetIndexPrevious (d : DirectoryNode) (page : Z) : DirectoryNode :=
  mkDir (Flags d) (RootIndex d) (Indexes d) (IndexNext d) page (indexNextSet d) true (Owner d)
    (TakerPaysCurrency d) (TakerPaysIssuer d) (TakerGetsCurrency d) (TakerGetsIssuer d) (ExchangeRate d) (TakerPaysMPT d)
    (TakerGetsMPT d) (NFTokenID d) (DomainID d) (PreviousTxnID d) (PreviousTxnLgrSeq d) (decoded d).

(** ** Serialization *)

(** A link is written when it is set or was there. *)
Definition putLink (h : header) (page : Z) (isSet : bool) (e : entry) : entry :=
  if negb (page =? 0) || isSet then set h (W64 page) e
  else if negb (has h e) then clear h e
  else e.

Definition putOwner (owner : bytes) (e : entry) : entry :=
  let ownerUnchanged := has sfOwner e && bool_decide (getAccount sfOwner e = owner) in
  if negb ownerUnchanged && negb (bool_decide (owner = zero160)) then set sfOwner (WAccount owner) e
  else if negb ownerUnchanged then clear sfOwner e
  else e.

(** A hash is written when it is not zero, when it is what was there, or when
    [always] says so. *)
Definition putHash (always : bool) (n : nat) (h : header) (v : bytes) (e : entry) : entry :=
  let unchanged := has h e && bool_decide (getHash n h e = v) in
  if always || negb (bool_decide (v = replicate n 0)) || unchanged then set h (WHash v) e else clear h e.

(** One side of a book: a token's identifier, or a currency and an issuer. *)
Definition putSide (isBookDir : bool) (sfMPT sfCurrency sfIssuer : header) (mpt : option bytes) (currency issuer : bytes) (e : entry) : entry :=
  match mpt with
  | Some id => set sfMPT (WHash id) (clear sfIssuer (clear sfCurrency e))
  | None => putHash isBookDir 20 sfIssuer issuer (putHash isBookDir 20 sfCurrency currency (clear sfMPT e))
  end.

Definition putRate (rate : Z) (e : entry) : entry :=
  let unchanged := has sfExchangeRate e && (getInt sfExchangeRate e =? rate) in
  if negb (rate =? 0) || unchanged then set sfExchangeRate (W64 rate) e else clear sfExchangeRate e.

Definition putLgrSeq (seq : Z) (e : entry) : entry :=
  let unchanged := has sfPreviousTxnLgrSeq e && (getInt sfPreviousTxnLgrSeq e =? seq) in
  if negb (seq =? 0) || unchanged then set sfPreviousTxnLgrSeq (W32 seq) e else clear sfPreviousTxnLgrSeq e.

Definition nonZero160 (b : bytes) : bool := negb (bool_decide (b = zero160)).
Definition isSome {A} (o : option A) : bool := match o with Some _ => true | None => false end.

Definition hasBookFields (dir : DirectoryNode) (isBookDir : bool) (e : entry) : bool :=
  isBookDir || negb (ExchangeRate dir =? 0) ||
  nonZero160 (TakerPaysCurrency dir) || nonZero160 (TakerPaysIssuer dir) ||
  nonZero160 (TakerGetsCurrency dir) || nonZero160 (TakerGetsIssuer dir) ||
  isSome (TakerPaysMPT dir) || isSome (TakerGetsMPT dir) ||
  has sfTakerPaysCurrency e || has sfTakerPaysIssuer e || has sfTakerGetsCurrency e || has sfTakerGetsIssuer e ||
  has sfTakerPaysMPT e || has sfTakerGetsMPT e || has sfExchangeRate e.

Definition putBook (dir : DirectoryNode) (isBookDir : bool) (e : entry) : entry :=
  if hasBookFields dir isBookDir e then
    let e := putSide isBookDir sfTakerPaysMPT sfTakerPaysCurrency sfTakerPaysIssuer (TakerPaysMPT dir) (TakerPaysCurrency dir) (TakerPaysIssuer dir) e in
    let e := putSide isBookDir sfTakerGetsMPT sfTakerGetsCurrency sfTakerGetsIssuer (TakerGetsMPT dir) (TakerGetsCurrency dir) (TakerGetsIssuer dir) e in
    putRate (ExchangeRate dir) e
  else e.

Definition entryOf (dir : DirectoryNode) (isBookDir : bool) : entry :=
  let e := set sfIndexes (WVector (Indexes dir)) (set sfRootIndex (WHash (RootIndex dir)) (set sfFlags (W32 (Flags dir)) (decoded dir))) in
  let e := putLink sfIndexNext (IndexNext dir) (indexNextSet dir) e in
  let e := putLink sfIndexPrevious (IndexPrevious dir) (indexPreviousSet dir) e in
  let e := putOwner (Owner dir) e in
  let e := putBook dir isBookDir e in
  let e := putHash false 32 sfNFTokenID (NFTokenID dir) e in
  let e := putHash false 32 sfDomainID (DomainID dir) e in
  let e := putHash false 32 sfPreviousTxnID (PreviousTxnID dir) e in
  putLgrSeq (PreviousTxnLgrSeq dir) e.

Definition SerializeDirectoryNode (dir : DirectoryNode) (isBookDir : bool) : streamError + bytes :=
  Encode directoryNode (entryOf dir isBookDir).

Definition fromEntry (e : entry) : DirectoryNode :=
  mkDir (getInt sfFlags e) (getHash 32 sfRootIndex e) (getVector sfIndexes e) (getInt sfIndexNext e) (getInt sfIndexPrevious e)
    (has sfIndexNext e) (has sfIndexPrevious e) (getAccount sfOwner e)
    (getHash 20 sfTakerPaysCurrency e) (getHash 20 sfTakerPaysIssuer e) (getHash 20 sfTakerGetsCurrency e) (getHash 20 sfTakerGetsIssuer e)
    (getInt sfExchangeRate e)
    (if has sfTakerPaysMPT e then Some (getHash 24 sfTakerPaysMPT e) else None)
    (if has sfTakerGetsMPT e then Some (getHash 24 sfTakerGetsMPT e) else None)
    (getHash 32 sfNFTokenID e) (getHash 32 sfDomainID e) (getHash 32 sfPreviousTxnID e) (getInt sfPreviousTxnLgrSeq e) e.

Definition ParseDirectoryNode (data : bytes) : streamError + DirectoryNode :=
  let? e := Decode directoryNode data in
  inr (fromEntry e).
(** ** Operations *)

Inductive dirError (E : Type) :=
  | ViewError (e : E)
  | CodecError (e : streamError)
  | DoubleInsertion
  | ErrDirFull
  | FwdLinkBroken
  | RevLinkBroken
  | ErrMalformedDirectory (what : string)
  | EndOfFuel.
Arguments ViewError {E} e.
Arguments CodecError {E} e.
Arguments DoubleInsertion {E}.
Arguments ErrDirFull {E}.
Arguments FwdLinkBroken {E}.
Arguments RevLinkBroken {E}.
Arguments ErrMalformedDirectory {E} what.
Arguments EndOfFuel {E}.

Definition DirNodeMaxPages : Z := 262144.
Definition dirNodeMaxEntries : nat := 32.
Definition FeatureFixDirectoryLimit : string := "fixDirectoryLimit".

Definition sortIndexes (indexes : list bytes) : list bytes := sort_by bytesLess indexes.

Definition sortedSearch (indexes : list bytes) (key : bytes) : nat :=
  searchLoop (fun i => negb (bytesLess (indexes !!! i) key)) (S (length indexes)) 0 (length indexes).

(** The indexes of a page with one more item; [None] if it is there already. *)
Definition addIndex (preserveOrder : bool) (indexes : list bytes) (itemKey : bytes) : option (list bytes) :=
  if preserveOrder then
    if bool_decide (itemKey ∈ indexes) then None else Some (indexes ++ [itemKey])
  else
    let indexes := sortIndexes indexes in
    let pos := sortedSearch indexes itemKey in
    if (pos <? length indexes)%nat && bool_decide (indexes !!! pos = itemKey) then None
    else Some (take pos indexes ++ itemKey :: drop pos indexes).

Record DirInsertResult := mkInserted {
  Page : Z; Created : bool; Modified : bool; DirKey : bytes;
  RootModified : bool; NewPageCreated : bool; PrevPageModified : bool }.

Record DirRemoveResult := mkRemoved {
  Success : bool; PageModified : bool; PageDeleted : bool; RootDeleted : bool;
  ModifiedNodes : list bytes; DeletedNodes : list bytes }.

Section Ops.
Context `{Hasher} {V E : Type} `{!LedgerView V E}.

Abbreviation M := (VM V (dirError E)).

Definition read (k : Keylet) : M (option bytes) := vmap ViewError (Read k).
Definition update (k : Keylet) (d : bytes) : M unit := vmap ViewError (Update k d).
Definition insert (k : Keylet) (d : bytes) : M unit := vmap ViewError (Insert k d).
Definition erase (k : Keylet) : M unit := vmap ViewError (Erase k).

(** Missing data is parsed as no bytes. *)
Definition parse (d : option bytes) : M DirectoryNode :=
  vlift match ParseDirectoryNode (default [] d) with inl e => inl (CodecError e) | inr n => inr n end.

Definition serialize (dir : DirectoryNode) (isBookDir : bool) : M bytes :=
  vlift match SerializeDirectoryNode dir isBookDir with inl e => inl (CodecError e) | inr d => inr d end.

Definition store_ (k : Keylet) (dir : DirectoryNode) (isBookDir : bool) : M unit :=
  let* data := serialize dir isBookDir in
  update k data.

Definition applySetup (setupFunc : option (DirectoryNode -> DirectoryNode)) (d : DirectoryNode) : DirectoryNode :=
  match setupFunc with Some f => f d | None => d end.

(** Without the amendment, or without rules, the old limit holds. *)
Definition pageLimit (rules : option Rules_) (newPage : Z) : bool :=
  match rules with
  | None => DirNodeMaxPages <=? newPage
  | Some r => negb (r FeatureFixDirectoryLimit) && (DirNodeMaxPages <=? newPage)
  end.

Definition insertNewPage (dirKey : Keylet) (itemKey : bytes) (preserveOrder : bool)
    (setupFunc : option (DirectoryNode -> DirectoryNode)) (root node : DirectoryNode) (nodeKey : bytes) (page : Z) : M DirInsertResult :=
  let newPage := u64 (page + 1) in
  if newPage =? 0 then vfail ErrDirFull
  else fun v =>
    if pageLimit (Rules v) newPage then (inl ErrDirFull, v)
    else
      (let newPageKeylet := DirPage (Key dirKey) newPage in
       let node := SetIndexNext node newPage in
       (* for a directory of one page, [node] and [root] are one object *)
       let root := SetIndexPrevious (if page =? 0 then node else root) newPage in
       let node := if page =? 0 then root else node in
       let newPageNode := newDirectoryNode (Key dirKey) [itemKey] in
       let newPageNode := if negb (newPage =? 1) then SetIndexPrevious newPageNode (u64 (newPage - 1)) else newPageNode in
       let newPageNode := applySetup setupFunc newPageNode in
       store_ (mkKeylet (KType dirKey) nodeKey) node preserveOrder ;;*
       (if negb (page =? 0) then store_ dirKey root preserveOrder else vret tt) ;;*
       let* newPageData := serialize newPageNode preserveOrder in
       insert newPageKeylet newPageData ;;*
       vret (mkInserted newPage false false (Key newPageKeylet) true true (negb (page =? 0)))) v.

Definition DirInsert (dirKey : Keylet) (itemKey : bytes) (preserveOrder : bool)
    (setupFunc : option (DirectoryNode -> DirectoryNode)) : M DirInsertResult :=
  let* exists_ := vmap ViewError (Exists_ dirKey) in
  if negb exists_ then
    let dir := applySetup setupFunc (newDirectoryNode (Key dirKey) [itemKey]) in
    let* data := serialize dir preserveOrder in
    insert dirKey data ;;*
    vret (mkInserted 0 true false (Key dirKey) false false false)
  else
    let* rootData := read dirKey in
    let* root := parse rootData in
    let page := IndexPrevious root in
    let nodeKey := if negb (page =? 0) then Key (DirPage (Key dirKey) page) else Key dirKey in
    let* node := (if negb (page =? 0) then
                    let* pageData := read (DirPage (Key dirKey) page) in
                    parse pageData
                  else vret root) in
    if (length (Indexes node) <? dirNodeMaxEntries)%nat then
      match addIndex preserveOrder (Indexes node) itemKey with
      | None => vfail DoubleInsertion
      | Some indexes =>
          store_ (mkKeylet (KType dirKey) nodeKey) (setIndexes node indexes) preserveOrder ;;*
          vret (mkInserted page false true nodeKey false false false)
      end
    else insertNewPage dirKey itemKey preserveOrder setupFunc root node nodeKey page.

(** A page whose book fields name a currency is written as that of a book. *)
Definition isBookPage (d : DirectoryNode) : bool := nonZero160 (TakerPaysCurrency d) || nonZero160 (TakerGetsCurrency d).

Definition notFound : DirRemoveResult := mkRemoved false false false false [] [].

(** A page of the chain, read for relinking: a failed read is a broken link. *)
Definition readPage (k : Keylet) (broken : dirError E) : M DirectoryNode :=
  let* d := (fun v => match Read k v with (inl _, v) => (inl broken, v) | (inr d, v) => (inr d, v) end) in
  parse d.

(** Removal from the root page, which [node] is, without the item. *)
Definition removeFromRoot (directory : Keylet) (node : DirectoryNode) (keepRoot : bool) : M DirRemoveResult :=
  let rootKey := DirPage (Key directory) 0 in
  let prevPage := IndexPrevious node in
  let nextPage := IndexNext node in
  if (nextPage =? 0) && negb (prevPage =? 0) then vfail FwdLinkBroken
  else if (prevPage =? 0) && negb (nextPage =? 0) then vfail RevLinkBroken
  else
    let* r := (if (nextPage =? prevPage) && negb (nextPage =? 0) then
                 let lastKey := DirPage (Key directory) nextPage in
                 let* lastPage := readPage lastKey FwdLinkBroken in
                 if (length (Indexes lastPage) =? 0)%nat then
                   let node := SetIndexPrevious (SetIndexNext node 0) 0 in
                   store_ rootKey node (isBookPage node) ;;*
                   erase lastKey ;;*
                   vret (node, 0, 0, [Key rootKey], [Key lastKey])
                 else vret (node, nextPage, prevPage, [], [])
               else vret (node, nextPage, prevPage, [], [])) in
    let '(node', nextPage', prevPage', mods, dels) := r in
    if keepRoot then
      if negb (IndexNext node =? IndexNext node') || negb (IndexPrevious node =? IndexPrevious node') then
        vret (mkRemoved true false false false mods dels)
      else
        store_ rootKey node' (isBookPage node') ;;*
        vret (mkRemoved true true false false (mods ++ [Key rootKey]) dels)
    else if (nextPage' =? 0) && (prevPage' =? 0) then
      erase rootKey ;;*
      vret (mkRemoved true false true true mods (dels ++ [Key rootKey]))
    else
      store_ rootKey node' (isBookPage node') ;;*
      vret (mkRemoved true true false false (mods ++ [Key rootKey]) dels).

(** Links the neighbours of page [page] to each other, and erases the page. *)
Definition unlinkPage (directory : Keylet) (page : Z) (node : DirectoryNode) : M (DirectoryNode * DirectoryNode * list bytes) :=
  let prevPage := IndexPrevious node in
  let nextPage := IndexNext node in
  let prevKey := DirPage (Key directory) prevPage in
  let nextKey := DirPage (Key directory) nextPage in
  let same := bool_decide (Key nextKey = Key prevKey) in
  let* prev := readPage prevKey FwdLinkBroken in
  let* next := (if same then vret prev else readPage nextKey RevLinkBroken) in
  (* when the neighbours are one page, both links are set on one object *)
  let prev := SetIndexNext prev nextPage in
  let next := SetIndexPrevious (if same then prev else next) prevPage in
  let prev := if same then next else prev in
  store_ prevKey prev (isBookPage prev) ;;*
  (if negb same then store_ nextKey next (isBookPage next) else vret tt) ;;*
  erase (DirPage (Key directory) page) ;;*
  vret (prev, next, Key prevKey :: (if negb same then [Key nextKey] else [])).

(** Erases the last page [nextPage], an empty one, after page [prevPage]. *)
Definition dropLastPage (directory : Keylet) (prevPage nextPage : Z) (prev : DirectoryNode) : M unit :=
  erase (DirPage (Key directory) nextPage) ;;*
  store_ (DirPage (Key directory) prevPage) (SetIndexNext prev 0) (isBookPage prev) ;;*
  let rootKey := DirPage (Key directory) 0 in
  let* rootData := read rootKey in
  let* root := parse rootData in
  let root := SetIndexPrevious root prevPage in
  store_ rootKey root (isBookPage root).

(** Unlinks and erases page [page], which has become empty. *)
Definition removePage (directory : Keylet) (page : Z) (node : DirectoryNode) (keepRoot : bool) : M DirRemoveResult :=
  let prevPage := IndexPrevious node in
  let nextPage := IndexNext node in
  if nextPage =? page then vfail FwdLinkBroken
  else if prevPage =? page then vfail RevLinkBroken
  else
    let pageKey := DirPage (Key directory) page in
    let prevKey := DirPage (Key directory) prevPage in
    let nextKey := DirPage (Key directory) nextPage in
    let* l := unlinkPage directory page node in
    let '(prev, next, mods) := l in
    let* r := (if negb (nextPage =? 0) && (IndexNext next =? 0) && (length (Indexes next) =? 0)%nat then
                 dropLastPage directory prevPage nextPage prev ;;*
                 vret (0, mods ++ [Key (DirPage (Key directory) 0)], [Key pageKey; Key nextKey])
               else vret (nextPage, mods, [Key pageKey])) in
    let '(nextPage', mods, dels) := r in
    if negb keepRoot && (nextPage' =? 0) && (prevPage =? 0) && (length (Indexes prev) =? 0)%nat then
      erase prevKey ;;*
      vret (mkRemoved true false true true mods (dels ++ [Key prevKey]))
    else vret (mkRemoved true false true false mods dels).

Definition DirRemove (directory : Keylet) (page : Z) (itemKey : bytes) (keepRoot : bool) : M DirRemoveResult :=
  let pageKeylet := DirPage (Key directory) page in
  let* pageData := read pageKeylet in
  match pageData with
  | None => vret notFound
  | Some d =>
      let* node := parse (Some d) in
      if bool_decide (itemKey ∉ Indexes node) then vret notFound
      else
        let node := setIndexes node (filter (fun i => i <> itemKey) (Indexes node)) in
        if negb (length (Indexes node) =? 0)%nat then
          store_ pageKeylet node (isBookPage node) ;;*
          vret (mkRemoved true true false false [Key pageKeylet] [])
        else if page =? 0 then removeFromRoot directory node keepRoot
        else removePage directory page node keepRoot
  end.

Definition EmptyDirDelete (directory : Keylet) : M bool :=
  if negb (KType directory =? TypeDirectoryNode) then vret false
  else
    let* rootData := read directory in
    match rootData with
    | None => vret false
    | Some d =>
        match DecodeType d with
        | None => vfail (ErrMalformedDirectory "decode root type")
        | Some t =>
            if negb (t =? TypeDirectoryNode) then vret false
            else
              let* root := vlift match ParseDirectoryNode d with inl _ => inl (ErrMalformedDirectory "parse root") | inr n => inr n end in
              if negb (bool_decide (RootIndex root = Key directory)) then vret false
              else if negb (length (Indexes root) =? 0)%nat then vret false
              else
                let prevPage := IndexPrevious root in
                let nextPage := IndexNext root in
                if (nextPage =? 0) && negb (prevPage =? 0) then vfail (ErrMalformedDirectory "forward link broken")
                else if (prevPage =? 0) && negb (nextPage =? 0) then vfail (ErrMalformedDirectory "reverse link broken")
                else if (nextPage =? prevPage) && negb (nextPage =? 0) then
                  let lastKey := DirPage (Key directory) nextPage in
                  let* lastData := read lastKey in
                  match lastData with
                  | None => vfail (ErrMalformedDirectory "forward link broken")
                  | Some d =>
                      let* last := vlift match ParseDirectoryNode d with inl _ => inl (ErrMalformedDirectory "parse last page") | inr n => inr n end in
                      if negb (length (Indexes last) =? 0)%nat then vret false
                      else
                        store_ directory (SetIndexPrevious (SetIndexNext root 0) 0) false ;;*
                        erase lastKey ;;*
                        erase directory ;;*
                        vret true
                  end
                else if (nextPage =? 0) && (prevPage =? 0) then erase directory ;;* vret true
                else vret true
        end
    end.

(** ** Iteration

    The callback works on a state of its own and may ask to stop with an error. *)
Section ForEach.
Context {S F : Type} (fn : bytes -> S -> option F * S).

Fixpoint visitAll (xs : list bytes) (s : S) : option F * S :=
  match xs with
  | [] => (None, s)
  | x :: xs => match fn x s with (Some err, s) => (Some err, s) | (None, s) => visitAll xs s end
  end.

Fixpoint pagesLoop (fuel : nat) (dirKey : Keylet) (nextPage : Z) (s : S) : M (option F * S) :=
  if nextPage =? 0 then vret (None, s)
  else
    match fuel with
    | O => vfail EndOfFuel
    | Datatypes.S fuel =>
        let* pageData := read (DirPage (Key dirKey) nextPage) in
        match pageData with
        | None => vret (None, s)
        | Some d =>
            let* page := parse (Some d) in
            match visitAll (Indexes page) s with
            | (Some err, s) => vret (Some err, s)
            | (None, s) => pagesLoop fuel dirKey (IndexNext page) s
            end
        end
    end.

Definition DirForEach (fuel : nat) (dirKey : Keylet) (s : S) : M (option F * S) :=
  let* rootData := read dirKey in
  match rootData with
  | None => vret (None, s)
  | Some d =>
      let* root := parse (Some d) in
      match visitAll (Indexes root) s with
      | (Some err, s) => vret (Some err, s)
      | (None, s) => pagesLoop fuel dirKey (IndexNext root) s
      end
  end.

End ForEach.

End Ops.


End Directory.
