(* ===== verification/DirectoryPage.v ===== *)
(** * Directory pages as ledger entries (internal/ledger/state/directory.go)

    [SerializeDirectoryNode] starts from the entry a page was parsed from and keeps,
    replaces or drops each field by its own rule. A page that is written and read
    back says what it said, presence of zero links included. *)

From Stdlib Require Import ZArith Lia.
From stdpp Require Import base list numbers gmap strings.
From S2P Require Import Prelude Serdes Sha512 ShaMapKey EntryStream LedgerEntry LedgerView Directory.

Module DirectoryPage.
Import Sha512 ShaMapKey EntryStream LedgerEntry LedgerView Directory.

(** ** Pages that are written and read back *)

Definition isHash (n : nat) (b : bytes) : Prop := all_bytes b /\ length b = n.

Record nodeOk (d : DirectoryNode) : Prop := mkNodeOk {
  ok_flags : is_uint 32 (Flags d);
  ok_root : isHash 32 (RootIndex d);
  ok_indexes : Forall (isHash 32) (Indexes d);
  ok_next : is_uint 64 (IndexNext d);
  ok_prev : is_uint 64 (IndexPrevious d);
  ok_owner : isHash 20 (Owner d);
  ok_book : Forall (isHash 20) [TakerPaysCurrency d; TakerPaysIssuer d; TakerGetsCurrency d; TakerGetsIssuer d];
  ok_mpt : Forall (fun o => match o with Some b => isHash 24 b | None => True end) [TakerPaysMPT d; TakerGetsMPT d];
  ok_rate : is_uint 64 (ExchangeRate d);
  ok_ids : Forall (isHash 32) [NFTokenID d; DomainID d; PreviousTxnID d];
  ok_seq : is_uint 32 (PreviousTxnLgrSeq d);
  ok_decoded : entryTyped directoryNode (decoded d);
  ok_nextSet : has sfIndexNext (decoded d) = true -> indexNextSet d = true;
  ok_prevSet : has sfIndexPrevious (decoded d) = true -> indexPreviousSet d = true }.

Lemma typed_set h v e : entryTyped directoryNode e -> h ∈ known directoryNode -> typed h.1 v -> wireOk v -> entryTyped directoryNode (set h v e).
Proof. intros He Hk Ht Hok. unfold entryTyped, set. by apply map_Forall_insert_2. Qed.

Lemma typed_clear h e : entryTyped directoryNode e -> entryTyped directoryNode (clear h e).
Proof. intros He. unfold entryTyped, clear. by apply map_Forall_delete. Qed.

Lemma has_lookup h e : has h e = bool_decide (is_Some (e !! h)).
Proof. done. Qed.

(** Each step of [entryOf] changes its own fields only. *)
Lemma set_ne h h' v e : h <> h' -> set h v e !! h' = e !! h'.
Proof. apply lookup_insert_ne. Qed.
Lemma set_eq h v e : set h v e !! h = Some v.
Proof. apply lookup_insert_eq. Qed.
Lemma clear_ne h h' e : h <> h' -> clear h e !! h' = e !! h'.
Proof. apply lookup_delete_ne. Qed.
Lemma clear_eq h e : clear h e !! h = None.
Proof. apply lookup_delete_eq. Qed.

Lemma putLink_ne h p b e h' : h <> h' -> putLink h p b e !! h' = e !! h'.
Proof. intros Hn. unfold putLink. destruct (_ || _); [by apply set_ne|]. destruct (negb _); [by apply clear_ne|done]. Qed.
Lemma putOwner_ne o e h' : sfOwner <> h' -> putOwner o e !! h' = e !! h'.
Proof. intros Hn. unfold putOwner. destruct (negb _ && _); [by apply set_ne|]. destruct (negb _); [by apply clear_ne|done]. Qed.
Lemma putHash_ne b n h v e h' : h <> h' -> putHash b n h v e !! h' = e !! h'.
Proof. intros Hn. unfold putHash. destruct (_ || _); [by apply set_ne|by apply clear_ne]. Qed.
Lemma putRate_ne r e h' : sfExchangeRate <> h' -> putRate r e !! h' = e !! h'.
Proof. intros Hn. unfold putRate. destruct (_ || _); [by apply set_ne|by apply clear_ne]. Qed.
Lemma putLgrSeq_ne r e h' : sfPreviousTxnLgrSeq <> h' -> putLgrSeq r e !! h' = e !! h'.
Proof. intros Hn. unfold putLgrSeq. destruct (_ || _); [by apply set_ne|by apply clear_ne]. Qed.
Lemma putSide_ne b m c i mpt cur iss e h' : m <> h' -> c <> h' -> i <> h' -> putSide b m c i mpt cur iss e !! h' = e !! h'.
Proof.
  intros Hm Hc Hi. unfold putSide. destruct mpt; [by rewrite set_ne, !clear_ne|]. by rewrite !putHash_ne, clear_ne.
Qed.

Lemma putBook_ne d bk e h :
  h ∉ [sfTakerPaysMPT; sfTakerPaysCurrency; sfTakerPaysIssuer; sfTakerGetsMPT; sfTakerGetsCurrency; sfTakerGetsIssuer; sfExchangeRate] ->
  putBook d bk e !! h = e !! h.
Proof.
  rewrite !not_elem_of_cons. intros (? & ? & ? & ? & ? & ? & ? & _). unfold putBook. destruct (hasBookFields _ _ _); [|done].
  by rewrite putRate_ne, !putSide_ne.
Qed.

(** Finds what an entry under construction holds for a field. *)
Ltac looks :=
  repeat first
    [ rewrite putLgrSeq_ne by done | rewrite putBook_ne by compute_done | rewrite putHash_ne by done | rewrite putRate_ne by done | rewrite putSide_ne by done
    | rewrite putOwner_ne by done | rewrite putLink_ne by done | rewrite set_ne by done ].

Lemma putLink_typed h p b e :
  entryTyped directoryNode e -> h ∈ known directoryNode -> h.1 = 3 -> is_uint 64 p -> entryTyped directoryNode (putLink h p b e).
Proof. intros. unfold putLink. repeat case_match; [by apply typed_set|by apply typed_clear|done]. Qed.
Lemma putOwner_typed o e : entryTyped directoryNode e -> isHash 20 o -> entryTyped directoryNode (putOwner o e).
Proof.
  intros ? [? ?]. unfold putOwner. repeat case_match; [|by apply typed_clear|done]. apply typed_set; [done|set_solver|done|].
  split; [done|by right].
Qed.
Lemma putHash_typed b n h v e :
  entryTyped directoryNode e -> h ∈ known directoryNode -> typed h.1 (WHash v) -> all_bytes v -> entryTyped directoryNode (putHash b n h v e).
Proof. intros. unfold putHash. case_match; [by apply typed_set|by apply typed_clear]. Qed.
Lemma putRate_typed r e : entryTyped directoryNode e -> is_uint 64 r -> entryTyped directoryNode (putRate r e).
Proof. intros. unfold putRate. case_match; [apply typed_set; (done || set_solver)|by apply typed_clear]. Qed.
Lemma putLgrSeq_typed r e : entryTyped directoryNode e -> is_uint 32 r -> entryTyped directoryNode (putLgrSeq r e).
Proof. intros. unfold putLgrSeq. case_match; [apply typed_set; (done || set_solver)|by apply typed_clear]. Qed.
Lemma putSide_typed b m c i mpt cur iss e :
  entryTyped directoryNode e -> m ∈ known directoryNode -> c ∈ known directoryNode -> i ∈ known directoryNode ->
  m.1 = 21 -> c.1 = 17 -> i.1 = 17 ->
  match mpt with Some id => isHash 24 id | None => True end -> isHash 20 cur -> isHash 20 iss ->
  entryTyped directoryNode (putSide b m c i mpt cur iss e).
Proof.
  intros He Hm Hc Hi Tm Tc Ti Hmpt [Bc Lc] [Bi Li]. unfold putSide. destruct mpt as [id|].
  - destruct Hmpt. apply typed_set; [by do 2 apply typed_clear|done| |done]. rewrite Tm. right. by right.
  - apply putHash_typed; [apply putHash_typed; [by apply typed_clear|done| |done]|done| |done].
    + rewrite Tc. right. by left.
    + rewrite Ti. right. by left.
Qed.

Ltac hashes H := repeat (apply list.Forall_cons in H as [? H]); clear H.

Lemma entryOf_typed d bk : nodeOk d -> (length (Indexes d) <= 512)%nat -> entryTyped directoryNode (entryOf d bk).
Proof.
  intros [Hf [Hrb Hrl] Hx Hn Hp Ho Hb Hm Hr Hi Hq Hd _ _] Hlen. hashes Hb. hashes Hm. hashes Hi. unfold entryOf.
  set (e0 := set sfIndexes _ _). assert (He0 : entryTyped directoryNode e0).
  { unfold e0. apply typed_set; [|set_solver|done|by split].
    apply typed_set; [|set_solver|by left|done]. apply typed_set; [done|set_solver|done|done]. }
  clearbody e0. set (e1 := putOwner _ _). assert (He1 : entryTyped directoryNode e1).
  { unfold e1. apply putOwner_typed; [|done]. apply putLink_typed; [|set_solver|done|done]. apply putLink_typed; [done|set_solver|done|done]. }
  clearbody e1. set (e2 := putBook _ _ _). assert (He2 : entryTyped directoryNode e2).
  { unfold e2, putBook. destruct (hasBookFields _ _ _); [|done]. apply putRate_typed; [|done].
    apply putSide_typed; [|set_solver|set_solver|set_solver|done..]. apply putSide_typed; [done|set_solver|set_solver|set_solver|done..]. }
  clearbody e2. apply putLgrSeq_typed; [|done].
  do 3 (apply putHash_typed; [|set_solver|by left; split; [done|match goal with H : isHash 32 ?x |- length ?x = _ => apply H end]|match goal with H : isHash 32 ?x |- all_bytes ?x => apply H end]). done.
Qed.

(** The value a step writes is the value a reader finds. *)
Lemma getHash_put b n h v e : getHash n h (putHash b n h v e) = v.
Proof.
  unfold getHash, putHash. destruct (_ || _) eqn:E; [by rewrite set_eq|]. rewrite clear_eq. apply orb_false_iff in E as [E _].
  apply orb_false_iff in E as [_ E]. apply negb_false_iff, bool_decide_eq_true in E. done.
Qed.

Lemma getAccount_put o e : isHash 20 o -> getAccount sfOwner (putOwner o e) = o.
Proof.
  intros [_ Hl]. unfold putOwner. destruct (has _ _ && _) eqn:E; cbn [negb andb].
  - apply andb_true_iff in E as [_ E]. by apply bool_decide_eq_true in E.
  - clear E. case_bool_decide as Ho; cbn [negb]; unfold getAccount; [by rewrite clear_eq|]. rewrite set_eq. by destruct o.
Qed.

Lemma getRate_put r e : getInt sfExchangeRate (putRate r e) = r.
Proof.
  unfold getInt, putRate. destruct (_ || _) eqn:E; [by rewrite set_eq|]. rewrite clear_eq. apply orb_false_iff in E as [E _]. zbool. lia.
Qed.

Lemma getLgrSeq_put r e : getInt sfPreviousTxnLgrSeq (putLgrSeq r e) = r.
Proof.
  unfold getInt, putLgrSeq. destruct (_ || _) eqn:E; [by rewrite set_eq|]. rewrite clear_eq. apply orb_false_iff in E as [E _]. zbool. lia.
Qed.

(** A side of a book that is a token has no currency. *)
Definition sideOk (mpt : option bytes) (currency issuer : bytes) : Prop := mpt = None \/ currency = zero160 /\ issuer = zero160.

Definition sidesOk (d : DirectoryNode) : Prop :=
  sideOk (TakerPaysMPT d) (TakerPaysCurrency d) (TakerPaysIssuer d) /\ sideOk (TakerGetsMPT d) (TakerGetsCurrency d) (TakerGetsIssuer d).

(** What a page says, apart from how it was stored. *)
Definition samePage (d d' : DirectoryNode) : Prop :=
  d' = mkDir (Flags d) (RootIndex d) (Indexes d) (IndexNext d) (IndexPrevious d) (indexNextSet d') (indexPreviousSet d') (Owner d)
    (TakerPaysCurrency d) (TakerPaysIssuer d) (TakerGetsCurrency d) (TakerGetsIssuer d) (ExchangeRate d) (TakerPaysMPT d)
    (TakerGetsMPT d) (NFTokenID d) (DomainID d) (PreviousTxnID d) (PreviousTxnLgrSeq d) (decoded d').

Lemma side_values b m c i mpt cur iss e :
  m <> c -> m <> i -> c <> i -> sideOk mpt cur iss ->
  let e' := putSide b m c i mpt cur iss e in
  getHash 20 c e' = cur /\ getHash 20 i e' = iss /\ (if has m e' then Some (getHash 24 m e') else None) = mpt.
Proof.
  intros Hmc Hmi Hci Hs. cbn zeta. rewrite has_lookup. unfold putSide. destruct mpt as [id|].
  - destruct Hs as [[=]|[-> ->]]. unfold getHash. rewrite !set_ne, set_eq by done.
    rewrite (clear_ne i c), !clear_eq by done. by rewrite bool_decide_eq_true_2.
  - rewrite getHash_put. unfold getHash at 1. rewrite putHash_ne by done. fold (getHash 20 c (putHash b 20 c cur (clear m e))). rewrite getHash_put.
    rewrite !putHash_ne, clear_eq by done. done.
Qed.

Lemma getVals h e e' : e !! h = e' !! h ->
  getInt h e = getInt h e' /\ (forall n, getHash n h e = getHash n h e') /\ getVector h e = getVector h e' /\ getAccount h e = getAccount h e' /\ has h e = has h e'.
Proof. intros Heq. unfold getInt, getHash, getVector, getAccount. by rewrite !has_lookup, Heq. Qed.

Lemma link_value h p b e : (has h e = true -> b = true) -> getInt h (putLink h p b e) = p /\ (has h (putLink h p b e) = true -> p <> 0 \/ b = true).
Proof.
  intros Hb. rewrite has_lookup. unfold putLink. destruct (Z.eqb_spec p 0) as [->|Hp]; cbn [negb orb].
  - destruct b; [unfold getInt; rewrite set_eq; by split; [|right]|]. destruct (has h e); [by discriminate Hb|]. cbn [negb].
    unfold getInt. by rewrite clear_eq.
  - unfold getInt. rewrite set_eq. split; [done|by left].
Qed.

Lemma book_values d bk e :
  sidesOk d ->
  let e' := putBook d bk e in
  getHash 20 sfTakerPaysCurrency e' = TakerPaysCurrency d /\ getHash 20 sfTakerPaysIssuer e' = TakerPaysIssuer d /\
  getHash 20 sfTakerGetsCurrency e' = TakerGetsCurrency d /\ getHash 20 sfTakerGetsIssuer e' = TakerGetsIssuer d /\
  getInt sfExchangeRate e' = ExchangeRate d /\
  (if has sfTakerPaysMPT e' then Some (getHash 24 sfTakerPaysMPT e') else None) = TakerPaysMPT d /\
  (if has sfTakerGetsMPT e' then Some (getHash 24 sfTakerGetsMPT e') else None) = TakerGetsMPT d.
Proof.
  intros [H1 H2]. cbn zeta. unfold putBook. destruct (hasBookFields d bk e) eqn:Hb.
  - set (e1 := putSide bk sfTakerPaysMPT _ _ _ _ _ e). set (e2 := putSide _ _ _ _ _ _ _ e1).
    destruct (side_values bk sfTakerPaysMPT sfTakerPaysCurrency sfTakerPaysIssuer (TakerPaysMPT d) _ _ e ltac:(done) ltac:(done) ltac:(done) H1) as (A1 & A2 & A3).
    destruct (side_values bk sfTakerGetsMPT sfTakerGetsCurrency sfTakerGetsIssuer (TakerGetsMPT d) _ _ e1 ltac:(done) ltac:(done) ltac:(done) H2) as (B1 & B2 & B3).
    fold e1 in A1, A2, A3. fold e2 in B1, B2, B3.
    assert (F : forall h, h ∈ [sfTakerPaysMPT; sfTakerPaysCurrency; sfTakerPaysIssuer] -> putRate (ExchangeRate d) e2 !! h = e1 !! h).
    { intros h Hh. repeat (apply elem_of_cons in Hh as [->|Hh]); [..|by apply elem_of_nil in Hh]; unfold e2; by rewrite putRate_ne, putSide_ne. }
    assert (G : forall h, h ∈ [sfTakerGetsMPT; sfTakerGetsCurrency; sfTakerGetsIssuer] -> putRate (ExchangeRate d) e2 !! h = e2 !! h).
    { intros h Hh. repeat (apply elem_of_cons in Hh as [->|Hh]); [..|by apply elem_of_nil in Hh]; by rewrite putRate_ne. }
    destruct (getVals _ _ _ (F sfTakerPaysCurrency ltac:(set_solver))) as (_ & -> & _).
    destruct (getVals _ _ _ (F sfTakerPaysIssuer ltac:(set_solver))) as (_ & -> & _).
    destruct (getVals _ _ _ (F sfTakerPaysMPT ltac:(set_solver))) as (_ & -> & _ & _ & ->).
    destruct (getVals _ _ _ (G sfTakerGetsCurrency ltac:(set_solver))) as (_ & -> & _).
    destruct (getVals _ _ _ (G sfTakerGetsIssuer ltac:(set_solver))) as (_ & -> & _).
    destruct (getVals _ _ _ (G sfTakerGetsMPT ltac:(set_solver))) as (_ & -> & _ & _ & ->).
    rewrite getRate_put. by split_and!.
  - unfold hasBookFields in Hb. zbool. unfold nonZero160, isSome in *. zbool.
    repeat match goal with H : bool_decide (_ = zero160) = true |- _ => apply bool_decide_eq_true in H; rewrite H; clear H end.
    repeat match goal with H : has ?h e = false |- _ => rewrite has_lookup in H; apply bool_decide_eq_false, eq_None_not_Some in H end.
    unfold getHash, getInt, has. repeat match goal with H : e !! _ = None |- _ => rewrite H; clear H end.
    by destruct (TakerPaysMPT d), (TakerGetsMPT d).
Qed.

Lemma directoryNode_ok : schemaOk directoryNode.
Proof. split; [done|]. cbn. repeat (apply list.Forall_cons; split; [cbn; lia|]). constructor. Qed.

Lemma entryOf_values d bk :
  nodeOk d -> sidesOk d ->
  let e := entryOf d bk in
  getInt sfIndexNext e = IndexNext d /\ getInt sfIndexPrevious e = IndexPrevious d /\ getAccount sfOwner e = Owner d /\
  getHash 32 sfNFTokenID e = NFTokenID d /\ getHash 32 sfDomainID e = DomainID d /\ getHash 32 sfPreviousTxnID e = PreviousTxnID d /\
  getInt sfPreviousTxnLgrSeq e = PreviousTxnLgrSeq d.
Proof.
  intros Hd Hs. unfold entryOf. cbn zeta. set (e1 := set sfIndexes _ _).
  set (e2 := putLink sfIndexNext _ _ e1). set (e3 := putLink _ _ _ e2). set (e4 := putOwner _ e3). set (e5 := putBook _ _ e4).
  set (e6 := putHash _ _ _ _ e5). set (e7 := putHash _ _ _ _ e6). set (e8 := putHash _ _ _ _ e7).
  assert (H1 : forall h, h ∈ [sfIndexNext; sfIndexPrevious] -> has h e1 = has h (decoded d)).
  { intros h Hh. unfold has, e1. repeat (apply elem_of_cons in Hh as [->|Hh]); [..|by apply elem_of_nil in Hh]; by rewrite !set_ne. }
  assert (Hn : getInt sfIndexNext e2 = IndexNext d).
  { apply link_value. rewrite H1 by set_solver. apply Hd. }
  assert (Hp : getInt sfIndexPrevious e3 = IndexPrevious d).
  { apply link_value. replace (has sfIndexPrevious e2) with (has sfIndexPrevious e1); [rewrite H1 by set_solver; apply Hd|].
    unfold has, e2. by rewrite putLink_ne. }
  split_and!.
  - rewrite <- Hn. eapply getVals. unfold e8, e7, e6, e5, e4, e3. by looks.
  - rewrite <- Hp. eapply getVals. unfold e8, e7, e6, e5, e4. by looks.
  - trans (getAccount sfOwner e4); [|by apply getAccount_put, Hd]. eapply getVals. unfold e8, e7, e6, e5. by looks.
  - trans (getHash 32 sfNFTokenID e6); [|apply getHash_put]. eapply getVals. unfold e8, e7. by looks.
  - trans (getHash 32 sfDomainID e7); [|apply getHash_put]. eapply getVals. unfold e8. by looks.
  - trans (getHash 32 sfPreviousTxnID e8); [|apply getHash_put]. eapply getVals. by looks.
  - apply getLgrSeq_put.
Qed.

Lemma entryOf_book d bk :
  sidesOk d ->
  let e := entryOf d bk in
  getHash 20 sfTakerPaysCurrency e = TakerPaysCurrency d /\ getHash 20 sfTakerPaysIssuer e = TakerPaysIssuer d /\
  getHash 20 sfTakerGetsCurrency e = TakerGetsCurrency d /\ getHash 20 sfTakerGetsIssuer e = TakerGetsIssuer d /\
  getInt sfExchangeRate e = ExchangeRate d /\
  (if has sfTakerPaysMPT e then Some (getHash 24 sfTakerPaysMPT e) else None) = TakerPaysMPT d /\
  (if has sfTakerGetsMPT e then Some (getHash 24 sfTakerGetsMPT e) else None) = TakerGetsMPT d.
Proof.
  intros Hs. unfold entryOf. cbn zeta. set (e4 := putOwner _ _). set (e := putLgrSeq _ _).
  assert (F : forall h, h ∈ [sfTakerPaysCurrency; sfTakerPaysIssuer; sfTakerGetsCurrency; sfTakerGetsIssuer; sfExchangeRate; sfTakerPaysMPT; sfTakerGetsMPT] ->
    e !! h = putBook d bk e4 !! h).
  { intros h Hh. unfold e. repeat (apply elem_of_cons in Hh as [->|Hh]); [..|by apply elem_of_nil in Hh]; by rewrite putLgrSeq_ne, !putHash_ne. }
  destruct (getVals _ _ _ (F sfTakerPaysCurrency ltac:(set_solver))) as (_ & -> & _).
  destruct (getVals _ _ _ (F sfTakerPaysIssuer ltac:(set_solver))) as (_ & -> & _).
  destruct (getVals _ _ _ (F sfTakerGetsCurrency ltac:(set_solver))) as (_ & -> & _).
  destruct (getVals _ _ _ (F sfTakerGetsIssuer ltac:(set_solver))) as (_ & -> & _).
  destruct (getVals _ _ _ (F sfExchangeRate ltac:(set_solver))) as (-> & _).
  destruct (getVals _ _ _ (F sfTakerPaysMPT ltac:(set_solver))) as (_ & -> & _ & _ & ->).
  destruct (getVals _ _ _ (F sfTakerGetsMPT ltac:(set_solver))) as (_ & -> & _ & _ & ->).
  by apply book_values.
Qed.

(** A page written as a ledger entry is read back as it was: items, links, owner, book
    and threading fields. *)
Theorem page_roundtrip d bk :
  nodeOk d -> (length (Indexes d) <= 512)%nat -> sidesOk d ->
  exists b d', SerializeDirectoryNode d bk = inr b /\ ParseDirectoryNode b = inr d' /\ samePage d d' /\ nodeOk d' /\
    storable b /\ DecodeType b = Some TypeDirectoryNode.
Proof.
  intros Hd Hlen Hs. set (e := entryOf d bk). pose proof (entryOf_typed d bk Hd Hlen) as Ht. fold e in Ht.
  assert (Hreq : e !! sfFlags = Some (W32 (Flags d)) /\ e !! sfRootIndex = Some (WHash (RootIndex d)) /\ e !! sfIndexes = Some (WVector (Indexes d))).
  { unfold e, entryOf. cbn zeta. split_and!; looks; by rewrite set_eq. }
  destruct Hreq as (Lf & Lr & Lx).
  destruct (entry_roundtrip directoryNode e) as (b & Henc & Hdec & Hbytes & Htype); [| |done| |].
  { apply directoryNode_ok. }
  { done. }
  { repeat constructor; cbn; [rewrite Lf|rewrite Lr|rewrite Lx]; by eexists. }
  exists b, (fromEntry e). unfold SerializeDirectoryNode, ParseDirectoryNode. fold e. rewrite Henc, Hdec. 
  assert (Hp : samePage d (fromEntry e)).
  { destruct (entryOf_values d bk Hd Hs) as (V1 & V2 & V3 & V4 & V5 & V6 & V7).
    destruct (entryOf_book d bk Hs) as (B1 & B2 & B3 & B4 & B5 & B6 & B7). fold e in V1, V2, V3, V4, V5, V6, V7, B1, B2, B3, B4, B5, B6, B7.
    unfold samePage, fromEntry. rewrite V1, V2, V3, V4, V5, V6, V7, B1, B2, B3, B4, B5, B6, B7. unfold getInt, getHash, getVector.
    by rewrite Lf, Lr, Lx. }
  split_and!; [done|done|done| | |done].
  - rewrite Hp. destruct Hd. by constructor.
  - split; [done|]. pose proof (field_length directoryNode e sfRootIndex _ (RootIndex d) b Henc Lr eq_refl). destruct (ok_root d Hd). lia.
Qed.

End DirectoryPage.
