(* ===== verification/DirectorySpec.v ===== *)
(** * Directories are lists (internal/ledger/state/directory.go)

    Over any view of the ledger, a directory represents a list of numbered pages
    ([represents]): the pages are linked in a ring, and no other page is there. Insertion
    into the directory is insertion into the list ([insertSpec]). *)

From Stdlib Require Import ZArith Lia.
From stdpp Require Import base list numbers gmap strings sorting.
From S2P Require Import Prelude Serdes Sha512 ShaMapKey ShaMapNode ShaMap ShaMapRefine EntryStream LedgerEntry LedgerView LedgerHeader Ledger Directory DirectoryPage.

Module DirectorySpec.
Import Sha512 ShaMapKey EntryStream LedgerEntry LedgerView Directory DirectoryPage.

(** ** A page in a view *)

Lemma samePage_sides d d' : samePage d d' -> sidesOk d -> sidesOk d'.
Proof. intros -> Hs. exact Hs. Qed.

(** [d] is a page of the directory [R] with these items and links. *)
Definition pageFacts (R : bytes) (xs : list bytes) (nx pv : Z) (d : DirectoryNode) : Prop :=
  nodeOk d /\ sidesOk d /\ RootIndex d = R /\ Indexes d = xs /\ IndexNext d = nx /\ IndexPrevious d = pv.

Definition pageBytes (R : bytes) (xs : list bytes) (nx pv : Z) (b : bytes) : Prop :=
  DecodeType b = Some TypeDirectoryNode /\ exists d, ParseDirectoryNode b = inr d /\ pageFacts R xs nx pv d.

Lemma facts_indexes R xs nx pv d ys : pageFacts R xs nx pv d -> Forall (isHash 32) ys -> pageFacts R ys nx pv (setIndexes d ys).
Proof. intros (Hd & Hs & <- & <- & <- & <-) Hys. split_and!; [|done..]. destruct Hd. by constructor. Qed.

Lemma facts_next R xs nx pv d n : pageFacts R xs nx pv d -> is_uint 64 n -> pageFacts R xs n pv (SetIndexNext d n).
Proof. intros (Hd & Hs & <- & <- & <- & <-) Hn. split_and!; [|done..]. destruct Hd. by constructor. Qed.

Lemma facts_prev R xs nx pv d n : pageFacts R xs nx pv d -> is_uint 64 n -> pageFacts R xs nx n (SetIndexPrevious d n).
Proof. intros (Hd & Hs & <- & <- & <- & <-) Hn. split_and!; [|done..]. destruct Hd. by constructor. Qed.

Section View.
Context `{Hasher} {V E : Type} `{!LedgerView V E} `{!LedgerViewLaws V E}.

Abbreviation M := (VM V (dirError E)).

(** The view holds the entries [m] under the rules [rl]. *)
Definition holds (m : gmap bytes bytes) (rl : option Rules_) (v : V) : Prop := valid v /\ contents v = m /\ Rules v = rl.

(** From a view that holds [m], the step returns [a] and leaves a view that holds [m']. *)
Definition yields {A} (c : M A) (m : gmap bytes bytes) (rl : option Rules_) (a : A) (m' : gmap bytes bytes) : Prop :=
  forall v, holds m rl v -> exists v', c v = (inr a, v') /\ holds m' rl v'.

Definition fails {A} (c : M A) (m : gmap bytes bytes) (rl : option Rules_) (err : dirError E) : Prop :=
  forall v, holds m rl v -> exists v', c v = (inl err, v') /\ holds m rl v'.

Lemma yields_bind {A B} (c : M A) (k : A -> M B) m rl a m1 b m2 :
  yields c m rl a m1 -> yields (k a) m1 rl b m2 -> yields (vbind c k) m rl b m2.
Proof.
  intros Hc Hk v Hv. destruct (Hc v Hv) as (v1 & E1 & H1). destruct (Hk v1 H1) as (v2 & E2 & H2). exists v2. unfold vbind. by rewrite E1.
Qed.

Lemma fails_bind {A B} (c : M A) (k : A -> M B) m rl a err :
  yields c m rl a m -> fails (k a) m rl err -> fails (vbind c k) m rl err.
Proof.
  intros Hc Hk v Hv. destruct (Hc v Hv) as (v1 & E1 & H1). destruct (Hk v1 H1) as (v2 & E2 & H2). exists v2. unfold vbind. by rewrite E1.
Qed.

Lemma yields_ret {A} m rl (a : A) : yields (vret a) m rl a m.
Proof. intros v Hv. by exists v. Qed.

Lemma fails_fail {A} m rl err : fails (vfail err : M A) m rl err.
Proof. intros v Hv. by exists v. Qed.

Lemma becomes_holds m rl v v' m' : holds m rl v -> becomes valid contents Rules v v' m' -> holds m' rl v'.
Proof. intros (_ & _ & Hr) (Hv & Hc & Hr'). split_and!; [done..|congruence]. Qed.

Variable R : bytes.
Hypothesis HR : is_key R.

Abbreviation K n := (Key (DirPage R n)).

Definition stored (m : gmap bytes bytes) (n : Z) (xs : list bytes) (nx pv : Z) : Prop :=
  exists b, m !! K n = Some b /\ pageBytes R xs nx pv b.

(** An entry of the type of a page. *)
Definition pageAt (o : option bytes) : Prop := exists b, o = Some b /\ DecodeType b = Some TypeDirectoryNode.

Lemma pageAt_visible k o : KType k = TypeDirectoryNode -> pageAt o -> is_Some (visible k o).
Proof. intros Hk (b & -> & Ht). unfold visible, MatchesKeyletType. rewrite Hk, Ht. by eexists. Qed.

Lemma stored_some m n xs nx pv : stored m n xs nx pv -> pageAt (m !! K n).
Proof. intros (b & Hb & Ht & _). by exists b. Qed.

#[local] Hint Resolve DirPage_type : core.

(** A stored page, as the code reads it. *)
Lemma stored_read m rl n xs nx pv :
  stored m n xs nx pv ->
  exists b d, yields (read (DirPage R n)) m rl (Some b) m /\ yields (parse (Some b)) m rl d m /\
    ParseDirectoryNode b = inr d /\ pageFacts R xs nx pv d.
Proof.
  intros (b & Hb & Ht & d & Hd & Hf). exists b, d. split_and!; [| |done|done].
  - intros v Hv. destruct (Read_spec v (DirPage R n) (proj1 Hv) (DirPage_key R n HR)) as (v' & Hr & Hv'). exists v'.
    assert (Hc : contents v = m) by apply Hv. rewrite Hc in *. split; [|by eapply becomes_holds].
    unfold read, vmap. rewrite Hr, Hb. unfold visible, MatchesKeyletType. by rewrite DirPage_type, Ht.
  - intros v Hv. exists v. unfold parse, vlift. cbn. by rewrite Hd.
Qed.

Lemma page_bytes xs nx pv d bk :
  pageFacts R xs nx pv d -> (length xs <= 512)%nat ->
  exists b, SerializeDirectoryNode d bk = inr b /\ pageBytes R xs nx pv b /\ storable b.
Proof.
  intros (Hd & Hs & <- & <- & <- & <-) Hl. destruct (page_roundtrip d bk Hd Hl Hs) as (b & d' & Hb & Hp & Hsame & Hok & Hst & Ht).
  exists b. split_and!; [done| |done]. split; [done|]. exists d'. split; [done|].
  split_and!; [done|by eapply samePage_sides|by rewrite Hsame..].
Qed.

Lemma yields_serialize m rl d bk b : SerializeDirectoryNode d bk = inr b -> yields (serialize d bk) m rl b m.
Proof. intros Hb v Hv. exists v. unfold serialize, vlift. by rewrite Hb. Qed.

Lemma yields_store m rl k n d bk b :
  SerializeDirectoryNode d bk = inr b -> storable b -> Key k = K n /\ KType k = TypeDirectoryNode -> pageAt (m !! K n) ->
  yields (store_ k d bk) m rl tt (<[K n := b]> m).
Proof.
  intros Hb Hst [Hk Ht] Hin. eapply yields_bind; [by apply yields_serialize|]. intros v Hv.
  assert (Hc : contents v = m) by apply Hv. destruct (Update_spec v k b (proj1 Hv)) as (v' & Hu & Hv').
  - rewrite Hk. by apply DirPage_key.
  - done.
  - rewrite Hk, Hc. by apply pageAt_visible.
  - exists v'. rewrite Hc, Hk in Hv'. split; [unfold update, vmap; by rewrite Hu|by eapply becomes_holds].
Qed.

Lemma yields_erase m rl n : pageAt (m !! K n) -> yields (erase (DirPage R n)) m rl tt (delete (K n) m).
Proof.
  intros Hin v Hv. assert (Hc : contents v = m) by apply Hv. apply (pageAt_visible (DirPage R n)) in Hin; [|done]. rewrite <- Hc in Hin.
  destruct (Erase_spec v (DirPage R n) (proj1 Hv) (DirPage_key R n HR) Hin) as (v' & He & Hv'). exists v'. rewrite Hc in Hv'.
  split; [unfold erase, vmap; by rewrite He|by eapply becomes_holds].
Qed.

Lemma yields_insert m rl n b : m !! K n = None -> storable b -> yields (insert (DirPage R n) b) m rl tt (<[K n := b]> m).
Proof.
  intros Hn Hst v Hv. assert (Hc : contents v = m) by apply Hv. pose proof (Insert_spec v (DirPage R n) b (proj1 Hv) (DirPage_key R n HR) Hst) as Hi.
  rewrite Hc, Hn in Hi. destruct Hi as (v' & Hi & Hv'). exists v'. split; [unfold insert, vmap; by rewrite Hi|by eapply becomes_holds].
Qed.

Lemma yields_exists m rl n : (m !! K n = None \/ exists xs nx pv, stored m n xs nx pv) ->
  yields (vmap ViewError (Exists_ (DirPage R n))) m rl (bool_decide (is_Some (m !! K n))) m.
Proof.
  intros Hn v Hv. assert (Hc : contents v = m) by apply Hv. pose proof (Exists_spec v (DirPage R n) (proj1 Hv) (DirPage_key R n HR)) as He.
  rewrite Hc in He. destruct Hn as [Hn|(xs & nx & pv & b & Hb & Ht & _)].
  - rewrite Hn in *. destruct He as (v' & He & Hv'). exists v'. split; [unfold vmap; by rewrite He|by eapply becomes_holds].
  - rewrite Hb in *. destruct He as (v' & He & Hv'); [unfold MatchesKeyletType; by rewrite DirPage_type, Ht|].
    exists v'. split; [unfold vmap; by rewrite He|by eapply becomes_holds].
Qed.

End View.

(** ** Rings of pages *)

Abbreviation page_ := (Z * list bytes)%type.

Definition firstNum (ps : list page_) (d : Z) : Z := match ps with (n, _) :: _ => n | [] => d end.
Fixpoint lastNum (d : Z) (ps : list page_) : Z := match ps with [] => d | (n, _) :: ps => lastNum n ps end.

Section Ring.
Context `{Hasher} (R : bytes).

Abbreviation K n := (Key (DirPage R n)).
Definition keysOf (ps : list page_) : list bytes := (fun p => K p.1) <$> ps.

(** The pages [ps] are stored and linked in order, [pv] before and [nx] after them. *)
Fixpoint chain (m : gmap bytes bytes) (pv : Z) (ps : list page_) (nx : Z) : Prop :=
  match ps with
  | [] => True
  | (n, xs) :: ps' => stored R m n xs (firstNum ps' nx) pv /\ chain m n ps' nx
  end.

Definition ring (m : gmap bytes bytes) (ps : list page_) : Prop := chain m (lastNum 0 ps) ps (firstNum ps 0).

Lemma firstNum_app a b d : firstNum (a ++ b) d = firstNum a (firstNum b d).
Proof. by destruct a as [|[n xs] a]. Qed.

Lemma lastNum_app d a b : lastNum d (a ++ b) = lastNum (lastNum d a) b.
Proof. revert d. induction a as [|[n xs] a IH]; intros d; [done|]. cbn. apply IH. Qed.

Lemma lastNum_default d d' ps : ps <> [] -> lastNum d ps = lastNum d' ps.
Proof. by destruct ps as [|[n xs] ps]. Qed.

Lemma firstNum_default d d' ps : ps <> [] -> firstNum ps d = firstNum ps d'.
Proof. by destruct ps as [|[n xs] ps]. Qed.

Lemma chain_app m pv a b nx : chain m pv (a ++ b) nx <-> chain m pv a (firstNum b nx) /\ chain m (lastNum pv a) b nx.
Proof.
  revert pv. induction a as [|[n xs] a IH]; intros pv; cbn [app chain lastNum]; [tauto|]. rewrite IH, firstNum_app. tauto.
Qed.

Lemma chain_frame m m' pv ps nx : (forall k, k ∈ keysOf ps -> m' !! k = m !! k) -> chain m pv ps nx -> chain m' pv ps nx.
Proof.
  revert pv. induction ps as [|[n xs] ps IH]; intros pv Hk; cbn [chain]; [done|]. intros [(b & Hb & Hp) Hc]. split.
  - exists b. split; [|done]. rewrite Hk; [done|left].
  - apply IH; [|done]. intros k Hin. apply Hk. by right.
Qed.

Lemma chain_stored m pv ps nx n xs : chain m pv ps nx -> (n, xs) ∈ ps -> exists nx' pv', stored R m n xs nx' pv'.
Proof.
  revert pv. induction ps as [|[q ys] ps IH]; intros pv; cbn [chain]; [by rewrite elem_of_nil|].
  intros [Hs Hc] [[= -> ->]|Hin]%elem_of_cons; [by do 2 eexists|by eapply IH].
Qed.

Lemma chain_some m pv ps nx k : chain m pv ps nx -> k ∈ keysOf ps -> is_Some (m !! k).
Proof.
  intros Hc ([n xs] & -> & Hin)%list_elem_of_fmap. destruct (chain_stored m pv ps nx n xs Hc Hin) as (nx' & pv' & b & Hb & _). by exists b.
Qed.

Lemma ring_rotate m a b : ring m (a ++ b) -> ring m (b ++ a).
Proof.
  destruct a as [|p a]; [by rewrite app_nil_r|]. destruct b as [|q b]; [by rewrite app_nil_r|]. unfold ring.
  rewrite !chain_app, !lastNum_app, !firstNum_app. destruct p as [n xs], q as [k ys]. cbn [firstNum lastNum]. tauto.
Qed.

Lemma keysOf_app a b : keysOf (a ++ b) = keysOf a ++ keysOf b.
Proof. apply fmap_app. Qed.

(** New items on a page leave the links alone. *)
Lemma ring_update m a n xs ys b nx pv :
  NoDup (keysOf (a ++ (n, xs) :: b)) -> ring m (a ++ (n, xs) :: b) -> stored R m n xs nx pv ->
  forall bs, pageBytes R ys nx pv bs -> ring (<[K n := bs]> m) (a ++ (n, ys) :: b).
Proof.
  intros Hnd Hr (b0 & Hb0 & _ & d0 & Hd0 & Hf0) bs Hbs. apply ring_rotate. apply ring_rotate in Hr. cbn [app] in *.
  assert (Hnd' : NoDup (keysOf ((n, xs) :: b ++ a))).
  { revert Hnd. rewrite keysOf_app. cbn. rewrite keysOf_app. rewrite <- Permutation_middle. by rewrite (Permutation_app_comm (keysOf a)). }
  apply NoDup_cons in Hnd' as [Hn _]. set (c := b ++ a) in *. unfold ring in *. cbn [chain lastNum firstNum] in *.
  destruct Hr as [(b1 & Hb1 & _ & d1 & Hd1 & Hf1) Hc]. split.
  - exists bs. split; [by rewrite lookup_insert_eq|]. assert (b1 = b0) as -> by congruence. assert (d1 = d0) as -> by congruence.
    destruct Hf0 as (_ & _ & _ & _ & <- & <-), Hf1 as (_ & _ & _ & _ & <- & <-). done.
  - eapply chain_frame; [|exact Hc]. intros k Hk. rewrite lookup_insert_ne; [done|]. intros <-. done.
Qed.
(** The links of two neighbours [p], [q] of the ring, and what makes a ring again when
    page [n] between them goes or comes. *)
Lemma ring_links m q zs c p ys :
  ring m ((q, zs) :: c ++ [(p, ys)]) -> exists nxq pvp, stored R m q zs nxq p /\ stored R m p ys q pvp /\ chain m q c p /\
    nxq = firstNum c p /\ pvp = lastNum q c.
Proof.
  unfold ring. cbn [chain lastNum firstNum]. rewrite lastNum_app, chain_app, firstNum_app. cbn [lastNum chain firstNum].
  intros (Hq & Hc & Hp & _). by exists (firstNum c p), (lastNum q c).
Qed.

Lemma ring_of_links m q zs c p ys :
  stored R m q zs (firstNum c p) p -> stored R m p ys q (lastNum q c) -> chain m q c p -> ring m ((q, zs) :: c ++ [(p, ys)]).
Proof.
  unfold ring. cbn [chain lastNum firstNum]. rewrite lastNum_app, chain_app, firstNum_app. cbn [lastNum chain firstNum]. tauto.
Qed.

Lemma ring_remove m n xs q zs c p ys :
  ring m ((n, xs) :: (q, zs) :: c ++ [(p, ys)]) ->
  stored R m n xs q p /\ stored R m q zs (firstNum c p) n /\ stored R m p ys n (lastNum q c) /\ chain m q c p.
Proof.
  intros Hr. apply (ring_links m n xs ((q, zs) :: c) p ys) in Hr as (nx & pv & H1 & H2 & [H3 H4] & -> & ->). done.
Qed.

Lemma ring_add m n xs q zs c p ys :
  stored R m n xs q p -> stored R m q zs (firstNum c p) n -> stored R m p ys n (lastNum q c) -> chain m q c p ->
  ring m ((n, xs) :: (q, zs) :: c ++ [(p, ys)]).
Proof. intros H1 H2 H3 H4. by apply (ring_of_links m n xs ((q, zs) :: c) p ys). Qed.

End Ring.

(** ** Adding an item to a page *)

Lemma search_sorted xs x : sorted_by bytesLess xs -> x ∉ xs -> sortedSearch xs x = insertPos bytesLess x xs.
Proof.
  intros Hs Hx. unfold sortedSearch. apply searchLoop_spec; [| |pose proof (insertPos_le bytesLess x xs); lia|lia].
  - intros i Hi. pose proof (insertPos_before bytesLess x xs i Hi) as Hb. pose proof (insertPos_le bytesLess x xs).
    destruct (bytesLess (xs !!! i) x) eqn:E; [done|]. exfalso. apply Hx. rewrite (bytesLess_total x (xs !!! i)) by done.
    apply list_elem_of_lookup_total_2. lia.
  - intros i Hi. pose proof (insertPos_after bytesLess x xs i Hs ltac:(lia)) as Ha. by rewrite (less_asym bytesLess x (xs !!! i) Ha).
Qed.

Lemma sorted_lookup xs i j : sorted_by bytesLess xs -> (i < j < length xs)%nat -> bytesLess (xs !!! j) (xs !!! i) = false.
Proof.
  intros Hs. revert i j. induction Hs as [|y xs Hs IH Hy]; intros i j Hij; [cbn in Hij; lia|]. destruct j as [|j]; [lia|]. cbn in Hij.
  destruct i as [|i]; cbn; [|apply IH; lia]. eapply list.Forall_forall in Hy; [exact Hy|]. apply list_elem_of_lookup_total_2. lia.
Qed.

Lemma search_found xs x : sorted_by bytesLess xs -> x ∈ xs -> (sortedSearch xs x < length xs)%nat /\ xs !!! sortedSearch xs x = x.
Proof.
  intros Hs Hx. apply list_elem_of_lookup in Hx as [i Hi]. pose proof (lookup_lt_Some _ _ _ Hi) as Hil. apply list_lookup_total_correct in Hi.
  destruct (list_find (fun y => bytesLess y x = false) xs) as [[p y]|] eqn:Hf.
  2:{ exfalso. apply list_find_None in Hf. eapply list.Forall_forall in Hf; [apply Hf|apply (list_elem_of_lookup_total_2 xs i Hil)].
      rewrite Hi. apply less_irrefl. }
  apply list_find_Some in Hf as (Hp & Hy & Hbefore). pose proof (lookup_lt_Some _ _ _ Hp) as Hpl. apply list_lookup_total_correct in Hp.
  assert (Hpi : (p <= i)%nat).
  { destruct (decide (i < p)%nat) as [Hlt|]; [|lia]. destruct (Hbefore i (xs !!! i)); [by apply list_lookup_lookup_total_lt|done|].
    rewrite Hi. apply less_irrefl. }
  assert (y = x) as ->.
  { destruct (decide (p = i)) as [->|]; [congruence|]. apply bytesLess_total; [done|]. rewrite <- Hp, <- Hi. apply sorted_lookup; [done|lia]. }
  assert (sortedSearch xs x = p) as ->; [|done]. apply searchLoop_spec; [| |lia|lia].
  - intros k Hk. destruct (bytesLess (xs !!! k) x) eqn:Hb; [done|]. exfalso. by eapply (Hbefore k); [apply list_lookup_lookup_total_lt; lia|lia|].
  - intros k Hk. destruct (decide (k = p)) as [->|]; [by rewrite Hp, less_irrefl|]. pose proof (sorted_lookup xs p k Hs ltac:(lia)) as Hb. rewrite Hp in Hb. by rewrite Hb.
Qed.

(** A page takes an item once; the items of an owner's page are kept in order. *)
Lemma addIndex_exact po xs x :
  addIndex po xs x = if bool_decide (x ∈ xs) then None else Some (if po then xs ++ [x] else insert_by bytesLess x (sort_by bytesLess xs)).
Proof.
  unfold addIndex, sortIndexes. destruct po; [by case_bool_decide|]. pose proof (sort_by_sorted bytesLess xs) as Hs.
  pose proof (sort_by_perm bytesLess xs) as Hp. set (ys := sort_by bytesLess xs) in *.
  destruct (decide (x ∈ xs)) as [Hx|Hx]; [rewrite (bool_decide_eq_true_2 (x ∈ xs)) by done|rewrite (bool_decide_eq_false_2 (x ∈ xs)) by done]; rewrite <- Hp in Hx.
  - destruct (search_found ys x Hs Hx) as [Hl He]. rewrite (proj2 (Nat.ltb_lt _ _) Hl), bool_decide_eq_true_2 by done. done.
  - rewrite (search_sorted ys x Hs Hx), insertPos_insert. destruct (Nat.ltb_spec (insertPos bytesLess x ys) (length ys)) as [Hl|Hl]; [|done].
    cbn [andb]. rewrite bool_decide_eq_false_2; [done|]. intros He. apply Hx. rewrite <- He. by apply list_elem_of_lookup_total_2.
Qed.

Lemma addIndex_ok po xs x ys :
  addIndex po xs x = Some ys -> Forall (isHash 32) xs -> isHash 32 x -> ys ≡ₚ x :: xs /\ x ∉ xs /\ Forall (isHash 32) ys.
Proof.
  rewrite addIndex_exact. case_bool_decide as Hx; [done|]. intros [= <-] Hf Hh.
  assert (Hp : (if po then xs ++ [x] else insert_by bytesLess x (sort_by bytesLess xs)) ≡ₚ x :: xs).
  { destruct po; [by rewrite Permutation_app_comm|]. by rewrite insert_by_perm, sort_by_perm. }
  split_and!; [done|done|]. rewrite Hp. by constructor.
Qed.

(** ** What a directory represents *)

Section Refine.
Context `{Hasher} {V E : Type} `{!LedgerView V E} `{!LedgerViewLaws V E}.
Variable R : bytes.
Hypothesis HR : is_key R.

Abbreviation K n := (Key (DirPage R n)).
Abbreviation dirKey := (mkKeylet TypeDirectoryNode R).

(** The keys of the pages are distinct, as those of a collision-free hash are. *)
Definition pagesDistinct : Prop := forall n n', is_uint 64 n -> is_uint 64 n' -> K n = K n' -> n = n'.
Hypothesis HK : pagesDistinct.

(** Page numbers increase from that of the root; pages are not overfull. *)
Definition pagesOk (ps : list page_) : Prop :=
  (exists r rest, ps = (0, r) :: rest) /\ StronglySorted Z.lt (fst <$> ps) /\
  Forall (fun p => is_uint 64 p.1 /\ Forall (isHash 32) p.2 /\ (length p.2 <= dirNodeMaxEntries)%nat) ps.

(** The ledger holds the pages [ps] of the directory, linked in order, and no others;
    an empty list is a directory that does not exist. *)
Definition represents (m : gmap bytes bytes) (ps : list page_) : Prop :=
  (ps = [] \/ pagesOk ps /\ ring R m ps) /\ forall n, is_uint 64 n -> n ∉ fst <$> ps -> m !! K n = None.

(** Entries that are not pages of the directory are left alone. *)
Definition othersKept (m m' : gmap bytes bytes) : Prop := forall k, (forall n, is_uint 64 n -> k <> K n) -> m' !! k = m !! k.

Lemma othersKept_refl m : othersKept m m.
Proof. by intros k _. Qed.

Lemma othersKept_insert m m' n b : is_uint 64 n -> othersKept m m' -> othersKept m (<[K n := b]> m').
Proof. intros Hn Ho k Hk. rewrite lookup_insert_ne; [by apply Ho|]. intros Heq. by apply (Hk n). Qed.

Lemma othersKept_delete m m' n : is_uint 64 n -> othersKept m m' -> othersKept m (delete (K n) m').
Proof. intros Hn Ho k Hk. rewrite lookup_delete_ne; [by apply Ho|]. intros Heq. by apply (Hk n). Qed.

Lemma keysOf_nodup ps : StronglySorted Z.lt (fst <$> ps) -> Forall (fun p => is_uint 64 p.1) ps -> NoDup (keysOf R ps).
Proof.
  induction ps as [|[n xs] ps IH]; cbn; [constructor|]. intros Hs Hf. inversion_clear Hs as [|? ? Hs' Hlt]. apply list.Forall_cons in Hf as [Hn Hf].
  constructor; [|by apply IH]. intros (p & Hp & Hin)%list_elem_of_fmap. eapply list.Forall_forall in Hf; [|exact Hin].
  apply HK in Hp; [|done|done]. eapply list.Forall_forall in Hlt; [|apply list_elem_of_fmap; by exists p]. lia.
Qed.

Lemma uint_pages ps : pagesOk ps -> Forall (fun p => is_uint 64 p.1) ps.
Proof. intros (_ & _ & Hf). eapply Forall_impl; [exact Hf|]. by intros p (? & _). Qed.

Lemma pages_nodup ps : pagesOk ps -> NoDup (keysOf R ps).
Proof. intros Hok. apply keysOf_nodup; [apply Hok|by apply uint_pages]. Qed.

Lemma key_elem n ps : is_uint 64 n -> pagesOk ps -> K n ∈ keysOf R ps -> n ∈ fst <$> ps.
Proof.
  intros Hn Hok (p & Hp & Hin)%list_elem_of_fmap. pose proof (uint_pages ps Hok) as Hu. eapply list.Forall_forall in Hu; [|exact Hin].
  apply HK in Hp as ->; [|done|done]. apply list_elem_of_fmap. by exists p.
Qed.

(** Changing the items of one page. *)
Lemma represents_update m a n xs ys b nx pv bs :
  represents m (a ++ (n, xs) :: b) -> stored R m n xs nx pv -> pageBytes R ys nx pv bs -> Forall (isHash 32) ys ->
  (length ys <= dirNodeMaxEntries)%nat -> represents (<[K n := bs]> m) (a ++ (n, ys) :: b).
Proof.
  intros [[Hn|[Hok Hr]] Ht] Hs Hb Hys Hl; [by destruct a|]. pose proof (pages_nodup _ Hok) as Hnd.
  assert (Hnum : fst <$> (a ++ (n, ys) :: b) = fst <$> (a ++ (n, xs) :: b)) by (by rewrite !fmap_app).
  split; [right; split; [|by eapply ring_update]|].
  - destruct Hok as ((r & rest & He) & Hso & Hf). split_and!.
    + destruct a as [|p a]; [injection He as -> -> ->; by eexists _, _|]. injection He as -> _. by eexists _, _.
    + by rewrite Hnum.
    + rewrite Forall_app, list.Forall_cons in *. destruct Hf as (H1 & (H2 & _) & H3). done.
  - intros k Hk Hnot. rewrite Hnum in Hnot. rewrite lookup_insert_ne; [by apply Ht|]. intros Heq. apply HK in Heq as ->; [|destruct Hok as (_ & _ & Hf);
      rewrite Forall_app, list.Forall_cons in Hf; apply Hf|done]. apply Hnot. rewrite fmap_app. apply elem_of_app. right. left.
Qed.
(** ** Insertion *)

(** A new directory, a place on the last page, or a new last page. *)
Definition insertSpec (po : bool) (rl : option Rules_) (item : bytes) (ps : list page_) : dirError E + list page_ * Z :=
  match last ps with
  | None => inr ([(0, [item])], 0)
  | Some (n, xs) =>
      if (length xs <? dirNodeMaxEntries)%nat then
        match addIndex po xs item with
        | None => inl DoubleInsertion
        | Some ys => inr (take (length ps - 1) ps ++ [(n, ys)], n)
        end
      else if (n + 1 =? 2 ^ 64) || pageLimit rl (n + 1) then inl ErrDirFull
      else inr (ps ++ [(n + 1, [item])], n + 1)
  end.

(** What the setup function may do: set fields other than items and links. *)
Definition setupOk (f : option (DirectoryNode -> DirectoryNode)) : Prop :=
  forall xs nx pv d, pageFacts R xs nx pv d -> pageFacts R xs nx pv (applySetup f d).

Lemma facts_new item : isHash 32 item -> pageFacts R [item] 0 0 (newDirectoryNode R [item]).
Proof.
  intros Hi. destruct HR as [Hl Hb].
  assert (Hz : forall n, isHash n (replicate n 0)).
  { intros n. split; [apply Forall_replicate; unfold is_uint; lia|apply length_replicate]. }
  split_and!; [|by split; left|done..]. constructor; cbn [newDirectoryNode Flags RootIndex Indexes IndexNext IndexPrevious indexNextSet
    indexPreviousSet Owner TakerPaysCurrency TakerPaysIssuer TakerGetsCurrency TakerGetsIssuer ExchangeRate TakerPaysMPT TakerGetsMPT NFTokenID
    DomainID PreviousTxnID PreviousTxnLgrSeq decoded]; try (unfold is_uint; lia); try done; try apply (Hz 20%nat);
    repeat (apply list.Forall_cons; split; [done || apply (Hz 20%nat) || apply (Hz 32%nat)|]); constructor.
Qed.

Lemma insert_creates m rl po f item :
  isHash 32 item -> setupOk f -> represents m [] ->
  exists r m', yields (DirInsert dirKey item po f) m rl r m' /\ Page r = 0 /\ represents m' [(0, [item])] /\ othersKept m m'.
Proof.
  intros Hi Hf [_ Ht]. assert (H0 : m !! K 0 = None) by (apply Ht; [unfold is_uint; lia|apply not_elem_of_nil]).
  destruct (page_bytes R HR [item] 0 0 (applySetup f (newDirectoryNode R [item])) po) as (b & Hb & Hpb & Hst); [by apply Hf, facts_new|cbn; lia|].
  eexists _, (<[K 0 := b]> m). split.
  - unfold DirInsert. eapply yields_bind; [apply (yields_exists R HR m rl 0); by left|]. rewrite H0. cbn [negb Key].
    eapply yields_bind; [by apply yields_serialize|]. eapply yields_bind; [by apply (yields_insert R HR m rl 0)|]. apply yields_ret.
  - split_and!; [done| |].
    + split; [right; split|].
      * split_and!; [by eexists _, _|repeat constructor|]. constructor; [|constructor]. cbn. split_and!; [unfold is_uint; lia|by apply list.Forall_singleton|unfold dirNodeMaxEntries; lia].
      * split; [|done]. exists b. by rewrite lookup_insert_eq.
      * intros n Hn Hnot. rewrite lookup_insert_ne; [apply Ht; [done|apply not_elem_of_nil]|]. intros Heq.
        apply HK in Heq as <-; [|unfold is_uint; lia|done]. apply Hnot. left.
    + apply othersKept_insert; [unfold is_uint; lia|apply othersKept_refl].
Qed.

(** The root and the last page, as the operation reads them. *)
Lemma last_page m a n xs :
  represents m (a ++ [(n, xs)]) ->
  is_uint 64 n /\ Forall (isHash 32) xs /\ (length xs <= 32)%nat /\
  match a with
  | [] => n = 0 /\ stored R m 0 xs 0 0
  | (z, r) :: c => z = 0 /\ 0 < n /\ (length r <= 32)%nat /\ stored R m 0 r (firstNum c n) n /\ stored R m n xs 0 (lastNum 0 c) /\ chain R m 0 c n
  end.
Proof.
  intros [[Hn|[Hok Hr]] Ht]; [by destruct a|]. destruct Hok as ((r & rest & He) & Hs & Hf). rewrite Forall_app, list.Forall_cons in Hf.
  destruct Hf as (Hfa & (Hn & Hx & Hl) & _). split_and!; [done..|]. destruct a as [|[z r'] c].
  - injection He as -> <- _. split; [done|]. by destruct Hr.
  - injection He as -> <- _. cbn [app fmap list_fmap] in Hs. inversion_clear Hs as [|? ? _ Hlt].
    apply (ring_links R m 0 r' c n xs) in Hr as (nx & pv & Hq & Hp & Hc & -> & ->). split_and!; [done| | |done..].
    + eapply list.Forall_forall in Hlt; [exact Hlt|]. apply list_elem_of_fmap. exists (n, xs). split; [done|]. apply elem_of_app. right. left.
    + apply list.Forall_cons in Hfa as [(_ & _ & Hlr) _]. done.
Qed.

(** What the operation does once it has read the last page. *)
Definition insertAt (po : bool) (f : option (DirectoryNode -> DirectoryNode)) (item : bytes) (n : Z) (xs : list bytes) (root node : DirectoryNode)
    : VM V (dirError E) DirInsertResult :=
  if (length xs <? dirNodeMaxEntries)%nat then
    match addIndex po xs item with
    | None => vfail DoubleInsertion
    | Some indexes =>
        store_ (mkKeylet TypeDirectoryNode (K n)) (setIndexes node indexes) po ;;*
        vret (mkInserted n false true (K n) false false false)
    end
  else insertNewPage dirKey item po f root node (K n) n.

Lemma insert_reads m rl a n xs po f item :
  represents m (a ++ [(n, xs)]) ->
  exists root node, (n = 0 -> root = node) /\
    (exists nx pv, pageFacts R xs nx pv node /\ stored R m n xs nx pv) /\
    (exists r nx, pageFacts R r nx n root /\ stored R m 0 r nx n /\ forall z r' c, a = (z, r') :: c -> r' = r) /\
    (forall res m', yields (insertAt po f item n xs root node) m rl res m' -> yields (DirInsert dirKey item po f) m rl res m') /\
    (forall err, fails (insertAt po f item n xs root node) m rl err -> fails (DirInsert dirKey item po f) m rl err).
Proof.
  intros Hrep. destruct (last_page m a n xs Hrep) as (Hn & Hx & Hl & Ha).
  assert (H0 : exists r nx, stored R m 0 r nx n /\ forall z r' c, a = (z, r') :: c -> r' = r).
  { destruct a as [|[z r] c]; [destruct Ha as [-> Hs]; by eexists _, _|]. destruct Ha as (_ & _ & _ & Hs & _). eexists _, _. split; [exact Hs|].
    by intros ? ? ? [= _ <- _]. }
  destruct H0 as (r & nx & H0 & Hhead). destruct (stored_read R HR m rl 0 r nx n H0) as (b & root & Hread & Hparse & _ & Hroot).
  assert (Hex : yields (vmap ViewError (Exists_ dirKey)) m rl true m).
  { destruct (stored_some R m 0 r nx n H0) as (b0 & Hb0 & _). pose proof (yields_exists R HR m rl 0 (or_intror (ex_intro _ r (ex_intro _ nx (ex_intro _ n H0))))) as He.
    rewrite bool_decide_eq_true_2 in He by (by exists b0). exact He. }
  destruct (decide (n = 0)) as [->|Hne].
  - assert (xs = r /\ a = []) as [<- ->].
    { destruct a as [|[z r'] c]; [|lia]. split; [|done]. destruct Ha as [_ (b1 & Hb1 & _ & d1 & Hd1 & (_ & _ & _ & Hx1 & _))].
      destruct H0 as (b2 & Hb2 & _ & d2 & Hd2 & (_ & _ & _ & Hx2 & _)). congruence. }
    exists root, root. split_and!; [done|by eexists _, _|by eexists _, _|..]; [intros res m' Hk|intros err Hk]; unfold DirInsert.
    + eapply yields_bind; [exact Hex|]. cbn [negb Key]. eapply yields_bind; [exact Hread|]. eapply yields_bind; [exact Hparse|].
      replace (IndexPrevious root) with 0 by (symmetry; apply Hroot). cbn [negb Z.eqb]. eapply yields_bind; [apply yields_ret|].
      replace (Indexes root) with xs by (symmetry; apply Hroot). exact Hk.
    + eapply fails_bind; [exact Hex|]. cbn [negb Key]. eapply fails_bind; [exact Hread|]. eapply fails_bind; [exact Hparse|].
      replace (IndexPrevious root) with 0 by (symmetry; apply Hroot). cbn [negb Z.eqb]. eapply fails_bind; [apply yields_ret|].
      replace (Indexes root) with xs by (symmetry; apply Hroot). exact Hk.
  - assert (Hs : exists pv, stored R m n xs 0 pv).
    { destruct a as [|[z r'] c]; [by destruct Ha|]. destruct Ha as (_ & _ & _ & _ & Hs & _). by eexists. }
    destruct Hs as [pv Hs]. destruct (stored_read R HR m rl n xs 0 pv Hs) as (bn & node & Hreadn & Hparsen & _ & Hnode).
    exists root, node. split_and!; [done|by eexists _, _|by eexists _, _|..]; [intros res m' Hk|intros err Hk]; unfold DirInsert.
    + eapply yields_bind; [exact Hex|]. cbn [negb Key]. eapply yields_bind; [exact Hread|]. eapply yields_bind; [exact Hparse|].
      replace (IndexPrevious root) with n by (symmetry; apply Hroot). rewrite (proj2 (Z.eqb_neq n 0) Hne). cbn [negb].
      eapply yields_bind; [eapply yields_bind; [exact Hreadn|exact Hparsen]|]. replace (Indexes node) with xs by (symmetry; apply Hnode). exact Hk.
    + eapply fails_bind; [exact Hex|]. cbn [negb Key]. eapply fails_bind; [exact Hread|]. eapply fails_bind; [exact Hparse|].
      replace (IndexPrevious root) with n by (symmetry; apply Hroot). rewrite (proj2 (Z.eqb_neq n 0) Hne). cbn [negb].
      eapply fails_bind; [eapply yields_bind; [exact Hreadn|exact Hparsen]|]. replace (Indexes node) with xs by (symmetry; apply Hnode). exact Hk.
Qed.

(** Room on the last page. *)
Lemma insertAt_room m rl a n xs po f item root node nx pv ys :
  represents m (a ++ [(n, xs)]) -> pageFacts R xs nx pv node -> stored R m n xs nx pv -> isHash 32 item ->
  (length xs < dirNodeMaxEntries)%nat -> addIndex po xs item = Some ys ->
  exists r m', yields (insertAt po f item n xs root node) m rl r m' /\ Page r = n /\ represents m' (a ++ [(n, ys)]) /\ othersKept m m'.
Proof.
  intros Hrep Hf Hs Hi Hl Hadd. destruct (last_page m a n xs Hrep) as (Hn & Hx & _ & _).
  destruct (addIndex_ok po xs item ys Hadd Hx Hi) as (Hp & _ & Hys). pose proof (Permutation_length Hp) as Hlen. cbn in Hlen. unfold dirNodeMaxEntries in *.
  destruct (page_bytes R HR ys nx pv (setIndexes node ys) po) as (b & Hb & Hpb & Hst); [by apply (facts_indexes R xs)|lia|].
  eexists _, (<[K n := b]> m). split; [|split_and!].
  - unfold insertAt, dirNodeMaxEntries. rewrite (proj2 (Nat.ltb_lt _ _) Hl), Hadd.
    eapply yields_bind; [by apply (yields_store R HR m rl _ n); [..|by eapply stored_some]|]. apply yields_ret.
  - done.
  - eapply represents_update; [done|done|done|done|]. unfold dirNodeMaxEntries. lia.
  - by apply othersKept_insert, othersKept_refl.
Qed.

Lemma sorted_snoc l (x : Z) : StronglySorted Z.lt l -> (forall y, y ∈ l -> y < x) -> StronglySorted Z.lt (l ++ [x]).
Proof.
  induction 1 as [|y l Hs IH Hy]; intros Hx; cbn; [repeat constructor|]. constructor; [apply IH; intros z Hz; apply Hx; by right|].
  apply Forall_app. split; [done|]. constructor; [apply Hx; left|constructor].
Qed.

Lemma sorted_last a n xs : StronglySorted Z.lt (fst <$> a ++ [(n, xs)]) -> forall y, y ∈ fst <$> (a ++ [(n, xs)] : list page_) -> y <= n.
Proof.
  induction a as [|[z r] a IH]; intros Hs y; cbn in *; [intros [->|Hy%elem_of_nil]%elem_of_cons; [lia|done]|].
  inversion_clear Hs as [|? ? Hs' Hlt]. intros [->|Hy]%elem_of_cons; [|by apply IH].
  eapply list.Forall_forall in Hlt; [apply Z.lt_le_incl, Hlt|]. rewrite fmap_app. apply elem_of_app. right. left.
Qed.

(** The pages with a new one at the end. *)
Lemma pagesOk_snoc ps n ys : pagesOk ps -> lastNum 0 ps < n -> is_uint 64 n -> Forall (isHash 32) ys -> (length ys <= dirNodeMaxEntries)%nat ->
  pagesOk (ps ++ [(n, ys)]).
Proof.
  intros ((r & rest & He) & Hs & Hf) Hlt Hn Hy Hl. split_and!.
  - exists r, (rest ++ [(n, ys)]). by rewrite He.
  - rewrite fmap_app. apply sorted_snoc; [done|]. intros y Hy'. destruct ps as [|p ps _] using rev_ind; [done|]. destruct p as [k xs].
    apply sorted_last in Hy'; [|done]. rewrite lastNum_app in Hlt. cbn in Hlt. cbn. lia.
  - rewrite Forall_app. split; [done|]. by constructor.
Qed.

Lemma represents_snoc m m' ps n ys :
  represents m ps -> pagesOk (ps ++ [(n, ys)]) -> ring R m' (ps ++ [(n, ys)]) -> (forall k, is_uint 64 k -> k ∉ fst <$> ps ++ [(n, ys)] -> m' !! K k = m !! K k) ->
  represents m' (ps ++ [(n, ys)]).
Proof.
  intros [_ Ht] Hok Hr Hk. split; [by right|]. intros k Hu Hnot. rewrite Hk by done. apply Ht; [done|]. intros Hin. apply Hnot. rewrite fmap_app.
  apply elem_of_app. by left.
Qed.

Lemma stored_unique m n xs nx pv xs' nx' pv' : stored R m n xs nx pv -> stored R m n xs' nx' pv' -> xs = xs' /\ nx = nx' /\ pv = pv'.
Proof.
  intros (b & Hb & _ & d & Hd & (_ & _ & _ & <- & <- & <-)) (b' & Hb' & _ & d' & Hd' & (_ & _ & _ & <- & <- & <-)).
  assert (b' = b) as -> by congruence. assert (d' = d) as -> by congruence. done.
Qed.

Lemma yields_limit {A} n (c : VM V (dirError E) A) m rl a m' :
  pageLimit rl n = false -> yields c m rl a m' -> yields (fun v => if pageLimit (Rules v) n then (inl ErrDirFull, v) else c v) m rl a m'.
Proof. intros Hl Hc v Hv. destruct Hv as (Hv & Hm & Hr). rewrite Hr, Hl. by apply Hc. Qed.

Lemma K_ne n n' : is_uint 64 n -> is_uint 64 n' -> n <> n' -> K n <> K n'.
Proof. intros Hn Hn' Hne Heq. by apply Hne, HK. Qed.

Lemma uint_0 : is_uint 64 0.
Proof. unfold is_uint. lia. Qed.

(** The first page after the root. *)
Lemma insertAt_second m rl xs po f item node :
  represents m [(0, xs)] -> pageFacts R xs 0 0 node -> isHash 32 item -> setupOk f -> (dirNodeMaxEntries <= length xs)%nat -> pageLimit rl 1 = false ->
  exists r m', yields (insertAt po f item 0 xs node node) m rl r m' /\ Page r = 1 /\ represents m' [(0, xs); (1, [item])] /\ othersKept m m'.
Proof.
  intros Hrep Hf Hi Hset Hfull Hlim. destruct (last_page m [] 0 xs Hrep) as (_ & Hx & Hl & _ & Hs).
  assert (H1 : is_uint 64 1) by (unfold is_uint; lia). pose proof (K_ne 0 1 uint_0 H1 ltac:(lia)) as H01.
  assert (Hm1 : m !! K 1 = None) by (apply Hrep; [done|]; cbn; set_solver).
  destruct (page_bytes R HR xs 1 1 (SetIndexPrevious (SetIndexNext node 1) 1) po) as (b1 & Hb1 & Hp1 & Hst1).
  { eapply facts_prev; [by eapply facts_next|done]. }
  { lia. }
  destruct (page_bytes R HR [item] 0 0 (applySetup f (newDirectoryNode R [item])) po) as (b2 & Hb2 & Hp2 & Hst2); [by apply Hset, facts_new|cbn; lia|].
  eexists _, (<[K 1 := b2]> (<[K 0 := b1]> m)). split_and!.
  - unfold insertAt. rewrite (proj2 (Nat.ltb_ge _ _) Hfull). unfold insertNewPage. change (u64 (0 + 1)) with 1. cbn [Z.eqb Pos.eqb negb Key KType].
    apply yields_limit; [done|]. eapply yields_bind; [by apply (yields_store R HR m rl _ 0); [..|by eapply stored_some]|].
    eapply yields_bind; [apply yields_ret|]. eapply yields_bind; [by apply yields_serialize|].
    eapply yields_bind; [apply (yields_insert R HR _ rl 1); [by rewrite lookup_insert_ne|done]|]. apply yields_ret.
  - done.
  - apply (represents_snoc m _ [(0, xs)]); [done| | |].
    + destruct Hrep as [[?|[Hok _]] _]; [done|]. apply pagesOk_snoc; [done|cbn; lia|done|by apply list.Forall_singleton|cbn; unfold dirNodeMaxEntries; lia].
    + split; [exists b1; by rewrite lookup_insert_ne, lookup_insert_eq|]. split; [exists b2; by rewrite lookup_insert_eq|done].
    + intros k Hk Hnot. cbn in Hnot. rewrite !not_elem_of_cons in Hnot. destruct Hnot as (Hk0 & Hk1 & _).
      rewrite !lookup_insert_ne; [done|by apply K_ne|by apply K_ne].
  - apply othersKept_insert; [done|]. apply othersKept_insert; [apply uint_0|apply othersKept_refl].
Qed.

(** A page after the last one. *)
Lemma insertAt_next m rl r c n xs po f item root node :
  represents m ((0, r) :: c ++ [(n, xs)]) -> pageFacts R xs 0 (lastNum 0 c) node -> pageFacts R r (firstNum c n) n root -> isHash 32 item -> setupOk f ->
  (dirNodeMaxEntries <= length xs)%nat -> n + 1 < 2 ^ 64 -> pageLimit rl (n + 1) = false ->
  exists res m', yields (insertAt po f item n xs root node) m rl res m' /\ Page res = n + 1 /\
    represents m' (((0, r) :: c ++ [(n, xs)]) ++ [(n + 1, [item])]) /\ othersKept m m'.
Proof.
  intros Hrep Hf Hr Hi Hset Hfull Hmax Hlim. destruct (last_page m ((0, r) :: c) n xs Hrep) as (Hn & Hx & Hl & _ & Hpos & Hlr & Hs0 & Hsn & Hc).
  assert (H1 : is_uint 64 (n + 1)) by (unfold is_uint in *; lia).
  pose proof (K_ne 0 (n + 1) uint_0 H1 ltac:(lia)) as H01. pose proof (K_ne n (n + 1) Hn H1 ltac:(lia)) as Hn1. pose proof (K_ne 0 n uint_0 Hn ltac:(lia)) as H0n.
  pose proof Hrep as [[?|[Hok _]] Ht]; [done|].
  assert (Hin : forall y, y ∈ fst <$> ((0, r) :: c ++ [(n, xs)]) -> y <= n).
  { intros y Hy. eapply (sorted_last ((0, r) :: c) n xs); [|exact Hy]. apply Hok. }
  assert (Hm1 : m !! K (n + 1) = None) by (apply Ht; [done|]; intros Hbad; apply Hin in Hbad; lia).
  destruct (page_bytes R HR xs (n + 1) (lastNum 0 c) (SetIndexNext node (n + 1)) po) as (b1 & Hb1 & Hp1 & Hst1); [by eapply facts_next|lia|].
  destruct (page_bytes R HR r (firstNum c n) (n + 1) (SetIndexPrevious root (n + 1)) po) as (b0 & Hb0 & Hp0 & Hst0); [by eapply facts_prev|lia|].
  destruct (page_bytes R HR [item] 0 n (applySetup f (SetIndexPrevious (newDirectoryNode R [item]) n)) po) as (b2 & Hb2 & Hp2 & Hst2).
  { apply Hset. eapply facts_prev; [by apply facts_new|done]. }
  { cbn. lia. }
  eexists _, (<[K (n + 1) := b2]> (<[K 0 := b0]> (<[K n := b1]> m))). split_and!.
  - unfold insertAt. rewrite (proj2 (Nat.ltb_ge _ _) Hfull). unfold insertNewPage. rewrite (wrap_small 64 (n + 1)) by done.
    rewrite (proj2 (Z.eqb_neq (n + 1) 0)), (proj2 (Z.eqb_neq (n + 1) 1)), (proj2 (Z.eqb_neq n 0)) by lia. cbn [negb Key KType].
    replace (n + 1 - 1) with n by lia. rewrite (wrap_small 64 n) by done.
    apply yields_limit; [done|]. eapply yields_bind; [by apply (yields_store R HR m rl _ n); [..|by eapply stored_some]|].
    eapply yields_bind; [apply (yields_store R HR _ rl _ 0); [done|done|done|rewrite lookup_insert_ne by done; by eapply stored_some]|].
    eapply yields_bind; [by apply yields_serialize|].
    eapply yields_bind; [apply (yields_insert R HR _ rl (n + 1)); [by rewrite !lookup_insert_ne|done]|]. apply yields_ret.
  - done.
  - apply (represents_snoc m); [done| | |].
    + apply pagesOk_snoc; [done|cbn [lastNum]; rewrite lastNum_app; cbn; lia|done|by apply list.Forall_singleton|cbn; unfold dirNodeMaxEntries; lia].
    + apply (ring_rotate R _ [(n + 1, [item])]). cbn [app]. apply ring_add.
      * exists b2. by rewrite lookup_insert_eq.
      * exists b0. by rewrite lookup_insert_ne, lookup_insert_eq.
      * exists b1. by rewrite 2!lookup_insert_ne, lookup_insert_eq by done.
      * pose proof (pages_nodup _ Hok) as Hnd. change (NoDup (K 0 :: keysOf R (c ++ [(n, xs)]))) in Hnd. rewrite NoDup_cons, keysOf_app in Hnd. destruct Hnd as [Hk0 Hnd].
        eapply chain_frame; [|exact Hc]. intros k Hk. apply NoDup_app in Hnd as (_ & Hdis & _).
        rewrite !lookup_insert_ne; [done| | |]; intros <-.
        -- apply (Hdis (K n)); [done|left].
        -- apply Hk0. rewrite elem_of_app. by left.
        -- apply (chain_some R m 0 c n) in Hk as [? Hk]; [congruence|done].
    + intros k Hk Hnot. rewrite fmap_app, not_elem_of_app in Hnot. cbn in Hnot. rewrite fmap_app, !not_elem_of_cons, not_elem_of_app in Hnot.
      destruct Hnot as ([Hk0 [_ Hkn]] & Hk1 & _). apply not_elem_of_cons in Hkn as [Hkn _]. cbn in *.
      rewrite !lookup_insert_ne; [done|..]; [apply K_ne|apply (K_ne 0)|apply K_ne]; (done || apply uint_0 || lia).
  - repeat (apply othersKept_insert; [done || apply uint_0|]). apply othersKept_refl.
Qed.

Lemma fails_newPage m rl n po f item root node :
  is_uint 64 n -> (n + 1 =? 2 ^ 64) || pageLimit rl (n + 1) = true -> fails (insertNewPage dirKey item po f root node (K n) n) m rl ErrDirFull.
Proof.
  intros Hn Hlim v Hv. exists v. split; [|done]. unfold insertNewPage. destruct (Z.eqb_spec (n + 1) (2 ^ 64)) as [He|He].
  - rewrite He. done.
  - rewrite (wrap_small 64 (n + 1)) by (unfold is_uint in *; lia). cbn [orb] in Hlim. destruct (n + 1 =? 0); [done|].
    cbv beta. destruct Hv as (_ & _ & ->). by rewrite Hlim.
Qed.

Lemma insert_refines m rl ps po f item :
  isHash 32 item -> setupOk f -> represents m ps ->
  match insertSpec po rl item ps with
  | inl err => fails (DirInsert dirKey item po f) m rl err
  | inr (ps', n) => exists r m', yields (DirInsert dirKey item po f) m rl r m' /\ Page r = n /\ represents m' ps' /\ othersKept m m'
  end.
Proof.
  intros Hi Hset Hrep. unfold insertSpec. destruct ps as [|[n xs] a _] using rev_ind; [by apply insert_creates|]. rewrite last_snoc.
  destruct (insert_reads m rl a n xs po f item Hrep) as (root & node & Hsame & (nx & pv & Hnode & Hsn) & (r & nxr & Hroot & Hs0 & Hhead) & Hy & Hfl).
  destruct (last_page m a n xs Hrep) as (Hn & _ & Hl & Ha). replace (take _ _) with a by (rewrite length_app; cbn; by rewrite Nat.add_sub, take_app_length).
  destruct (Nat.ltb_spec (length xs) dirNodeMaxEntries) as [Hroom|Hfull].
  - destruct (addIndex po xs item) as [ys|] eqn:Hadd.
    + destruct (insertAt_room m rl a n xs po f item root node nx pv ys) as (res & m' & Hk & Hrest); [done..|]. exists res, m'. split; [by apply Hy|done].
    + apply Hfl. unfold insertAt. rewrite (proj2 (Nat.ltb_lt _ _) Hroom), Hadd. apply fails_fail.
  - destruct ((n + 1 =? 2 ^ 64) || pageLimit rl (n + 1)) eqn:Hlim.
    + apply Hfl. unfold insertAt. rewrite (proj2 (Nat.ltb_ge _ _) Hfull). by apply fails_newPage.
    + apply orb_false_iff in Hlim as [Hmax Hlim]. zbool. destruct a as [|[z r'] c].
      * destruct Ha as [-> Hs]. destruct (stored_unique _ _ _ _ _ _ _ _ Hsn Hs) as (_ & -> & ->). rewrite (Hsame eq_refl) in *.
        destruct (insertAt_second m rl xs po f item node) as (res & m' & Hk & Hrest); [done..|]. exists res, m'. split; [by apply Hy|done].
      * destruct Ha as (-> & Hpos & _ & Hs0' & Hsn' & _). destruct (stored_unique _ _ _ _ _ _ _ _ Hsn Hsn') as (_ & -> & ->).
        destruct (stored_unique _ _ _ _ _ _ _ _ Hs0 Hs0') as (-> & -> & _).
        destruct (insertAt_next m rl r' c n xs po f item root node) as (res & m' & Hk & Hrest); [done..|unfold is_uint in Hn; lia|done|].
        exists res, m'. split; [by apply Hy|done].
Qed.

(** C9: Insertion into a directory is insertion into its list of pages: it creates the
    directory, adds the item to the last page (at the end, or in order), or starts a new
    last page; it refuses an item that is on the last page already, and a page past the
    limit. The ring of links is intact afterwards, other entries are untouched, and a
    refused insertion changes nothing. *)
Theorem dir_insert_refines m rl ps po f item :
  isHash 32 item -> setupOk f -> represents m ps ->
  match insertSpec po rl item ps with
  | inl err => fails (DirInsert dirKey item po f) m rl err
  | inr (ps', n) => exists r m', yields (DirInsert dirKey item po f) m rl r m' /\ Page r = n /\ represents m' ps' /\ othersKept m m'
  end.
Proof. exact (insert_refines m rl ps po f item). Qed.

End Refine.

Lemma setup_none `{Hasher} R : setupOk R None.
Proof. by intros xs nx pv d Hd. Qed.

(** ** A directory that does not exist yet, in an empty ledger *)

Section Example.
Import ShaMapNode ShaMap LedgerHeader Ledger.
#[local] Existing Instance tailHasher.

Definition exampleRoot : bytes := replicate 32 0.

Lemma exampleRoot_key : is_key exampleRoot.
Proof. exact zeroHash_key. Qed.

Lemma examplePages : pagesDistinct exampleRoot.
Proof.
  intros n n' Hn Hn'. unfold is_uint in *. unfold DirPage. destruct (Z.eqb_spec n 0) as [->|Hn0], (Z.eqb_spec n' 0) as [->|Hn0']; [done| | |]; cbn [Key]; intros He.
  - apply (f_equal (fun l => l !! 0%nat)) in He. discriminate He.
  - apply (f_equal (fun l => l !! 0%nat)) in He. discriminate He.
  - unfold indexHash in He. cbn [concat] in He. rewrite !app_nil_r, !app_assoc in He. apply (tailHash_number 8 _ _ n n') in He; [done|lia|..]; change (256 ^ Z.of_nat 8) with (2 ^ 64); lia.
Qed.

Definition exampleLedger : Ledger :=
  mkLedger (New TypeState) (New TypeTransaction) (mkHeader 2 0 zeroHash zeroHash zeroHash zeroHash 1000 false false 0 30 0) (mkFees 10 200 50)
    StateOpen true 0 (Some (fun _ => true)).

Lemma exampleLedger_open : openState exampleLedger ∅.
Proof. constructor; try done; first [exact (ShaMapRefine.New_rep TypeState)|apply map_Forall_empty]. Qed.

Lemma exampleLedger_valid : valid exampleLedger /\ contents exampleLedger = ∅.
Proof. split; [by exists ∅; apply exampleLedger_open|]. etrans; [exact (valid_entries _ _ exampleLedger_open)|]. by rewrite fmap_empty. Qed.

Lemma exampleNoPages : represents exampleRoot ∅ [].
Proof. split; [by left|]. intros n _ _. apply lookup_empty. Qed.

Definition exampleItem : bytes := replicate 32 5.

Lemma exampleItem_ok : isHash 32 exampleItem.
Proof. repeat constructor; unfold is_uint; cbn; lia. Qed.

Lemma dir_insert_refines_witness :
  exists r v', DirInsert (mkKeylet TypeDirectoryNode exampleRoot) exampleItem true None exampleLedger = (inr r, v') /\ Page r = 0 /\
    represents exampleRoot (contents v') [(0, [exampleItem])].
Proof.
  destruct exampleLedger_valid as [Hv Hc].
  destruct (dir_insert_refines (V := Ledger) (E := ledgerError) exampleRoot exampleRoot_key examplePages ∅ (Some (fun _ => true)) [] true None exampleItem
    exampleItem_ok (setup_none exampleRoot) exampleNoPages) as (r & m' & Hy & Hp & Hrep & _).
  destruct (Hy exampleLedger) as (v' & Hd & _ & Hc' & _); [done|]. exists r, v'. rewrite Hc'. split; [exact Hd|]. split; [exact Hp|exact Hrep].
Defined.

End Example.

End DirectorySpec.
