(* ===== verification/DirectoryRemove.v ===== *)
(** * Removal from a directory, iteration and histories (internal/ledger/state/directory.go)

    On the pages that a directory represents, [DirRemove] is [removeSpec]: the item goes from
    its page, an emptied page is unlinked together with an empty last page after it, and the
    directory goes with its last item unless the root is to be kept. [DirForEach] visits the
    items of the pages in order. *)

From Stdlib Require Import ZArith Lia.
From stdpp Require Import base list numbers gmap strings sorting.
From S2P Require Import Prelude Serdes Sha512 ShaMapKey EntryStream LedgerEntry LedgerView Ledger Directory DirectoryPage DirectorySpec.

Module DirectoryRemove.
Import Sha512 ShaMapKey EntryStream LedgerEntry LedgerView Directory DirectoryPage DirectorySpec.

Section Remove.
Context `{Hasher} {V E : Type} `{!LedgerView V E} `{!LedgerViewLaws V E}.
Variable R : bytes.
Hypothesis HR : is_key R.
Hypothesis HK : pagesDistinct R.

Abbreviation K n := (Key (DirPage R n)).
Abbreviation dirKey := (mkKeylet TypeDirectoryNode R).

#[local] Hint Resolve DirPage_type : core.

(** ** The links of a page *)

Lemma pages_head a n (xs : list bytes) b : pagesOk (a ++ (n, xs) :: b) -> n <> 0 -> exists r c, a = (0, r) :: c.
Proof. intros ((r & rest & He) & _) Hn. destruct a as [|[z r'] c]; injection He; intros; subst; [done|by eexists _, _]. Qed.

Lemma lastNum_elem d ps : lastNum d ps = d \/ lastNum d ps ∈ fst <$> ps.
Proof.
  revert d. induction ps as [|[n xs] ps IH]; intros d; cbn; [by left|]. right. destruct (IH n) as [->|Hin]; [left|by right].
Qed.

Lemma pages_lt a n xs b : pagesOk (a ++ (n, xs) :: b) -> Forall (fun y => y < n) (fst <$> a) /\ Forall (fun y => n < y) (fst <$> b).
Proof.
  intros (_ & Hs & _). rewrite fmap_app in Hs. cbn in Hs. induction a as [|[z r] a IH]; cbn in *.
  - inversion_clear Hs. split; [constructor|done].
  - inversion_clear Hs as [|? ? Hs' Hlt]. destruct (IH Hs') as [H1 H2]. split; [|done]. constructor; [|done].
    rewrite Forall_app, list.Forall_cons in Hlt. by destruct Hlt as (_ & ? & _).
Qed.

Lemma stored_at m a n xs b :
  represents R m (a ++ (n, xs) :: b) -> stored R m n xs (firstNum b 0) (lastNum (lastNum n b) a).
Proof.
  intros [[?|[Hok Hr]] _]; [by destruct a|]. unfold ring in Hr. rewrite lastNum_app, chain_app in Hr. cbn [lastNum chain] in Hr.
  destruct Hr as (_ & Hs & _). destruct Hok as ((r & rest & He) & _). rewrite He in Hs. cbn [firstNum] in Hs. destruct a as [|[z r'] c]; exact Hs.
Qed.

(** What relinking must do for the neighbours [p] and [q] of a page that goes. *)
Definition relinked (m m' : gmap bytes bytes) (p q : Z) : Prop :=
  (forall ys nx pv, stored R m p ys nx pv -> stored R m' p ys q (if p =? q then p else pv)) /\
  (forall zs nx pv, stored R m q zs nx pv -> stored R m' q zs (if p =? q then q else nx) p).

Lemma ring_unlink m m' n xs c :
  NoDup (keysOf R ((n, xs) :: c)) -> c <> [] -> ring R m ((n, xs) :: c) -> relinked m m' (lastNum 0 c) (firstNum c 0) ->
  (forall k, k <> K n -> k <> K (lastNum 0 c) -> k <> K (firstNum c 0) -> m' !! k = m !! k) -> ring R m' c.
Proof.
  intros Hnd Hc Hr [Hp Hq] Hk. destruct c as [|[q zs] d]; [done|]. destruct d as [|[p ys] d _] using rev_ind.
  - cbn [lastNum firstNum] in *. unfold ring in Hr. cbn in Hr. destruct Hr as (_ & Hs & _). apply Hp in Hs. rewrite Z.eqb_refl in Hs. by split.
  - apply ring_remove in Hr as (_ & Hsq & Hsp & Hch). cbn [lastNum firstNum] in *. rewrite lastNum_app in *. cbn [lastNum] in *.
    change (NoDup (K n :: K q :: keysOf R (d ++ [(p, ys)]))) in Hnd. rewrite keysOf_app in Hnd. change (keysOf R [(p, ys)]) with [K p] in Hnd.
    rewrite !NoDup_cons, NoDup_app, elem_of_cons, !elem_of_app, !list_elem_of_singleton in Hnd. destruct Hnd as (Hn & Hqn & _ & Hdp & _).
    assert (Hqp : (p =? q) = false) by (apply Z.eqb_neq; intros ->; tauto). apply Hp in Hsp. apply Hq in Hsq. rewrite Hqp in *.
    apply ring_of_links; [done..|]. eapply chain_frame; [|exact Hch]. intros k Hin. apply Hk; intros ->; [tauto| |tauto].
    apply (Hdp _ Hin). left.
Qed.

Lemma sorted_drop l (x : Z) l' : StronglySorted Z.lt (l ++ x :: l') -> StronglySorted Z.lt (l ++ l').
Proof.
  induction l as [|y l IH]; cbn; intros Hs; inversion_clear Hs as [|? ? Hs' Hlt]; [done|]. constructor; [by apply IH|].
  rewrite Forall_app, list.Forall_cons in Hlt. apply Forall_app. tauto.
Qed.

Lemma pagesOk_drop a n xs b : n <> 0 -> pagesOk (a ++ (n, xs) :: b) -> pagesOk (a ++ b).
Proof.
  intros Hn Hok. destruct (pages_head a n xs b Hok Hn) as (r & c & Ha). destruct Hok as (_ & Hs & Hf). split_and!; [rewrite Ha; by eexists _, _| |].
  - rewrite fmap_app in Hs |- *. change (fst <$> (n, xs) :: b) with (n :: (fst <$> b)) in Hs.
    by eapply sorted_drop.
  - rewrite Forall_app, list.Forall_cons in Hf. rewrite Forall_app. tauto.
Qed.

(** A page other than the root goes when its neighbours are linked to each other. *)
Lemma represents_unlink m m' a n xs b :
  n <> 0 -> represents R m (a ++ (n, xs) :: b) -> relinked m m' (lastNum 0 a) (firstNum b 0) -> m' !! K n = None ->
  (forall k, k <> K n -> k <> K (lastNum 0 a) -> k <> K (firstNum b 0) -> m' !! k = m !! k) -> represents R m' (a ++ b).
Proof.
  intros Hn Hrep Hl Hgone Hk. pose proof Hrep as [[?|[Hok Hr]] Ht]; [by destruct a|]. destruct (pages_head a n xs b Hok Hn) as (r & c & Ha).
  pose proof (uint_pages _ Hok) as Hu. pose proof (pages_nodup R HK _ Hok) as Hnd.
  assert (Hp : lastNum 0 (b ++ a) = lastNum 0 a) by (rewrite lastNum_app, Ha; done).
  assert (Hq : firstNum (b ++ a) 0 = firstNum b 0) by (rewrite firstNum_app, Ha; done).
  assert (Hin : forall k, k ∉ fst <$> a ++ b -> k <> n -> k ∉ fst <$> a ++ (n, xs) :: b).
  { intros k Hnot Hkn. rewrite fmap_app, elem_of_app in *. cbn. rewrite elem_of_cons. tauto. }
  split; [right; split; [by eapply pagesOk_drop|]|].
  - apply ring_rotate. apply (ring_unlink m m' n xs); [| by destruct b; subst|by apply (ring_rotate R m a ((n, xs) :: b))|by rewrite Hp, Hq|by rewrite Hp, Hq].
    change ((n, xs) :: b ++ a) with (((n, xs) :: b) ++ a). revert Hnd. rewrite !keysOf_app. by rewrite Permutation_app_comm.
  - intros k Huk Hnot. destruct (decide (k = n)) as [->|Hkn]; [done|]. pose proof (Hin k Hnot Hkn) as Hnot'. rewrite Hk; [by apply Ht|..]; intros Heq.
    + apply HK in Heq; [done|done|]. rewrite Forall_app, list.Forall_cons in Hu. apply Hu.
    + assert (Hy : lastNum 0 a ∈ fst <$> a) by (destruct (lastNum_elem 0 a) as [->|]; [rewrite Ha; left|done]).
      apply HK in Heq; [|done|].
      * apply Hnot. rewrite Heq, fmap_app, elem_of_app. by left.
      * apply list_elem_of_fmap in Hy as (y & -> & Hy). rewrite Forall_app in Hu. destruct Hu as [Hu _]. eapply list.Forall_forall in Hu; [exact Hu|done].
    + assert (Hy : firstNum b 0 = 0 \/ firstNum b 0 ∈ fst <$> b) by (destruct b as [|[q zs] b]; [by left|right; left]).
      destruct Hy as [Hy|Hy].
      * rewrite Hy in Heq. apply HK in Heq as ->; [|done|apply uint_0]. apply Hnot. rewrite Ha. left.
      * apply HK in Heq; [|done|].
        -- apply Hnot. rewrite Heq, fmap_app, elem_of_app. by right.
        -- apply list_elem_of_fmap in Hy as (y & -> & Hy). rewrite Forall_app, list.Forall_cons in Hu. destruct Hu as (_ & _ & Hu).
           eapply list.Forall_forall in Hu; [exact Hu|done].
Qed.
(** ** The steps of the operation *)

Lemma yields_readPage m rl n xs nx pv err :
  stored R m n xs nx pv -> exists d, yields (readPage (DirPage R n) err) m rl d m /\ pageFacts R xs nx pv d.
Proof.
  intros (b & Hb & Ht & d & Hd & Hf). exists d. split; [|done]. eapply (yields_bind _ _ m rl (Some b) m).
  - intros v Hv. destruct (Read_spec v (DirPage R n) (proj1 Hv) (DirPage_key R n HR)) as (v' & Hr & Hv'). exists v'.
    assert (Hc : contents v = m) by apply Hv. rewrite Hc in *. split; [|by eapply becomes_holds].
    rewrite Hr, Hb. unfold visible, MatchesKeyletType. by rewrite DirPage_type, Ht.
  - intros v Hv. exists v. unfold parse, vlift. cbn. by rewrite Hd.
Qed.

Lemma stored_num m ps z : represents R m ps -> z ∈ fst <$> ps -> exists ys nx pv, is_uint 64 z /\ stored R m z ys nx pv /\ (length ys <= 512)%nat.
Proof.
  intros Hrep ([z' ys] & -> & (a & b & ->)%list_elem_of_split)%list_elem_of_fmap. pose proof (stored_at m a z' ys b Hrep) as Hs.
  destruct Hrep as [[?|[Hok _]] _]; [by destruct a|]. destruct Hok as (_ & _ & Hf). rewrite Forall_app, list.Forall_cons in Hf.
  destruct Hf as (_ & (Hu & _ & Hl) & _). unfold dirNodeMaxEntries in Hl. cbn in *. exists ys. do 2 eexists. split_and!; [done|exact Hs|lia].
Qed.

(** The numbers of the neighbours. *)
Lemma neighbours m a n xs b :
  n <> 0 -> represents R m (a ++ (n, xs) :: b) ->
  is_uint 64 n /\ is_uint 64 (lastNum 0 a) /\ is_uint 64 (firstNum b 0) /\ lastNum 0 a <> n /\ firstNum b 0 <> n /\
  (exists ys nx pv, stored R m (lastNum 0 a) ys nx pv /\ (length ys <= 512)%nat) /\ (exists zs nx pv, stored R m (firstNum b 0) zs nx pv /\ (length zs <= 512)%nat).
Proof.
  intros Hn Hrep. pose proof Hrep as [[?|[Hok _]] _]; [by destruct a|]. destruct (pages_head a n xs b Hok Hn) as (r & c & Ha).
  destruct (pages_lt a n xs b Hok) as [Hlt Hgt].
  assert (Hp : lastNum 0 a ∈ fst <$> a) by (destruct (lastNum_elem 0 a) as [->|]; [rewrite Ha; left|done]).
  assert (Hq : firstNum b 0 ∈ fst <$> (a ++ (n, xs) :: b) /\ firstNum b 0 <> n).
  { rewrite fmap_app, elem_of_app. destruct b as [|[q zs] b]; [split; [left; rewrite Ha; left|done]|]. split; [right; right; left|].
    apply list.Forall_cons in Hgt as [Hgt _]. cbn in *. lia. }
  destruct Hq as [Hq Hqn]. destruct (stored_num m _ (lastNum 0 a) Hrep) as (ys & nx & pv & Hup & Hsp & Hlp); [rewrite fmap_app, elem_of_app; by left|].
  destruct (stored_num m _ (firstNum b 0) Hrep Hq) as (zs & nx' & pv' & Huq & Hsq & Hlq).
  destruct (stored_num m _ n Hrep) as (_ & _ & _ & Hun & _); [rewrite fmap_app, elem_of_app; right; left|].
  split_and!; [done..| |done|by eexists _, _, _|by eexists _, _, _]. eapply list.Forall_forall in Hlt; [|exact Hp]. lia.
Qed.

Lemma unlink_yields m rl a n xs b node :
  n <> 0 -> represents R m (a ++ (n, xs) :: b) -> IndexNext node = firstNum b 0 -> IndexPrevious node = lastNum 0 a ->
  exists prev next mods m', yields (unlinkPage dirKey n node) m rl (prev, next, mods) m' /\ represents R m' (a ++ b) /\ othersKept R m m' /\
    (exists ys pv, stored R m' (lastNum 0 a) ys (firstNum b 0) pv /\ pageFacts R ys (firstNum b 0) pv prev) /\
    (exists zs nx, stored R m' (firstNum b 0) zs nx (lastNum 0 a) /\ pageFacts R zs nx (lastNum 0 a) next).
Proof.
  intros Hn Hrep Hnx Hpv. destruct (neighbours m a n xs b Hn Hrep) as (Hun & Hup & Huq & Hpn & Hqn & (ys & nx & pv & Hsp & Hlp) & (zs & nx' & pv' & Hsq & Hlq)).
  assert (Hsn : pageAt (m !! K n)) by (eapply stored_some, stored_at, Hrep). 
  pose proof (fun m' => represents_unlink m m' a n xs b Hn Hrep) as Hunl. set (p := lastNum 0 a) in *. set (q := firstNum b 0) in *.
  destruct (yields_readPage m rl p ys nx pv FwdLinkBroken Hsp) as (d & Hd & Hfd).
  pose proof (K_ne R HK n p Hun Hup ltac:(done)) as Hkp. pose proof (K_ne R HK n q Hun Huq ltac:(done)) as Hkq.
  unfold unlinkPage. rewrite Hnx, Hpv. cbn [Key]. destruct (decide (q = p)) as [Hqp|Hqp].
  - rewrite Hqp in *. destruct (page_bytes R HR ys p p (SetIndexPrevious (SetIndexNext d p) p) (isBookPage (SetIndexPrevious (SetIndexNext d p) p))) as (b1 & Hb1 & Hp1 & Hst1).
    { by eapply facts_prev; [eapply facts_next|]. }
    { done. }
    assert (Hs' : stored R (delete (K n) (<[K p := b1]> m)) p ys p p) by (exists b1; by rewrite lookup_delete_ne, lookup_insert_eq).
    do 3 eexists. exists (delete (K n) (<[K p := b1]> m)). split_and!.
    + eapply yields_bind; [exact Hd|]. rewrite bool_decide_eq_true_2 by done. eapply yields_bind; [apply yields_ret|]. cbn [negb].
      eapply yields_bind; [apply (yields_store R HR m rl _ p); [done|done|done|by eapply stored_some]|]. eapply yields_bind; [apply yields_ret|].
      eapply yields_bind; [apply (yields_erase R HR); by rewrite lookup_insert_ne|]. apply yields_ret.
    + apply Hunl; [| by rewrite lookup_delete_eq|].
      * split; intros ? ? ? Hs; destruct (stored_unique R _ _ _ _ _ _ _ _ Hs Hsp) as (-> & _); by rewrite Z.eqb_refl.
      * intros k Hk1 Hk2 _. by rewrite lookup_delete_ne, lookup_insert_ne.
    + apply othersKept_delete; [done|]. apply othersKept_insert; [done|apply othersKept_refl].
    + exists ys, p. split; [done|]. by eapply facts_prev; [eapply facts_next|].
    + exists ys, p. split; [done|]. by eapply facts_prev; [eapply facts_next|].
  - destruct (yields_readPage m rl q zs nx' pv' RevLinkBroken Hsq) as (d' & Hd' & Hfd').
    pose proof (K_ne R HK q p Huq Hup Hqp) as Hkqp. 
    destruct (page_bytes R HR ys q pv (SetIndexNext d q) (isBookPage (SetIndexNext d q))) as (b1 & Hb1 & Hp1 & Hst1); [by eapply facts_next|done|].
    destruct (page_bytes R HR zs nx' p (SetIndexPrevious d' p) (isBookPage (SetIndexPrevious d' p))) as (b2 & Hb2 & Hp2 & Hst2); [by eapply facts_prev|done|].
    set (m' := delete (K n) (<[K q := b2]> (<[K p := b1]> m))).
    assert (Hs1 : stored R m' p ys q pv) by (exists b1; unfold m'; by rewrite lookup_delete_ne, lookup_insert_ne, lookup_insert_eq).
    assert (Hs2 : stored R m' q zs nx' p) by (exists b2; unfold m'; by rewrite lookup_delete_ne, lookup_insert_eq).
    do 3 eexists. exists m'. split_and!.
    + eapply yields_bind; [exact Hd|]. rewrite bool_decide_eq_false_2 by done. eapply yields_bind; [exact Hd'|]. cbn [negb].
      eapply yields_bind; [apply (yields_store R HR m rl _ p); [done|done|done|by eapply stored_some]|].
      eapply yields_bind; [apply (yields_store R HR _ rl _ q); [done|done|done|rewrite lookup_insert_ne by done; by eapply stored_some]|].
      eapply yields_bind; [apply (yields_erase R HR); by rewrite !lookup_insert_ne|]. apply yields_ret.
    + apply Hunl; [| by unfold m'; rewrite lookup_delete_eq|].
      * unfold relinked. rewrite (proj2 (Z.eqb_neq p q)) by done.
        split; intros ? ? ? Hs; [destruct (stored_unique R _ _ _ _ _ _ _ _ Hs Hsp) as (-> & _ & ->)|destruct (stored_unique R _ _ _ _ _ _ _ _ Hs Hsq) as (-> & -> & _)]; done.
      * intros k Hk1 Hk2 Hk3. unfold m'. by rewrite lookup_delete_ne, !lookup_insert_ne.
    + apply othersKept_delete; [done|]. do 2 (apply othersKept_insert; [done|]). apply othersKept_refl.
    + exists ys, pv. split; [done|]. by eapply facts_next.
    + exists zs, nx'. split; [done|]. by eapply facts_prev.
Qed.

(** The last page goes when it is empty. *)
Lemma dropLast_yields m rl a q prev ys pv :
  q <> 0 -> represents R m (a ++ [(q, [])]) -> stored R m (lastNum 0 a) ys q pv -> pageFacts R ys q pv prev ->
  exists m', yields (dropLastPage dirKey (lastNum 0 a) q prev) m rl tt m' /\ represents R m' a /\ othersKept R m m'.
Proof.
  intros Hq Hrep Hsp Hf. destruct (neighbours m a q [] [] Hq Hrep) as (Huq & Hup & _ & Hpq & _ & (ys' & ? & ? & Hsp' & Hlp) & (zs & nx & pv0 & Hs0 & Hl0)).
  destruct (stored_unique R _ _ _ _ _ _ _ _ Hsp' Hsp) as (-> & _ & _). cbn [firstNum] in *. assert (Hsq : pageAt (m !! K q)) by (eapply stored_some, stored_at, Hrep).
  pose proof (fun m' => represents_unlink m m' a q [] [] Hq Hrep) as Hunl. rewrite app_nil_r in Hunl. cbn [firstNum] in Hunl. set (p := lastNum 0 a) in *.
  pose proof (K_ne R HK q p Huq Hup ltac:(done)) as Hkp. pose proof (K_ne R HK q 0 Huq uint_0 Hq) as Hk0.
  destruct (page_bytes R HR ys 0 pv (SetIndexNext prev 0) (isBookPage prev)) as (b1 & Hb1 & Hp1 & Hst1); [by eapply facts_next; [|apply uint_0]|done|].
  set (m2 := <[K p := b1]> (delete (K q) m)).
  assert (Hm2 : exists pv2, stored R m2 0 zs (if p =? 0 then 0 else nx) pv2).
  { destruct (Z.eqb_spec p 0) as [Hp0|Hp0].
    - rewrite Hp0 in Hsp. destruct (stored_unique R _ _ _ _ _ _ _ _ Hsp Hs0) as (-> & _ & _). exists pv, b1. unfold m2. by rewrite Hp0, (lookup_insert_eq _ (K 0)).
    - destruct Hs0 as (b0 & Hb0 & Hpb). exists pv0, b0. unfold m2. by rewrite lookup_insert_ne, lookup_delete_ne by (done || by apply (K_ne R HK _ 0); [..|apply uint_0|]). }
  destruct Hm2 as [pv2 Hm2]. destruct (stored_read R HR m2 rl 0 _ _ _ Hm2) as (b0 & root & Hread & Hparse & _ & Hroot).
  destruct (page_bytes R HR zs (if p =? 0 then 0 else nx) p (SetIndexPrevious root p) (isBookPage (SetIndexPrevious root p))) as (b2 & Hb2 & Hp2 & Hst2); [by eapply facts_prev|done|].
  exists (<[K 0 := b2]> m2). split_and!.
  - unfold dropLastPage. cbn [Key]. eapply yields_bind; [by apply (yields_erase R HR)|].
    eapply yields_bind; [apply (yields_store R HR _ rl _ p); [done|done|done|rewrite lookup_delete_ne by done; by eapply stored_some]|].
    eapply yields_bind; [exact Hread|]. eapply yields_bind; [exact Hparse|]. apply (yields_store R HR _ rl _ 0); [done|done|done|by eapply stored_some].
  - apply Hunl; [split| |].
    + intros ? ? ? Hs. destruct (stored_unique R _ _ _ _ _ _ _ _ Hs Hsp) as (-> & -> & ->). destruct (Z.eqb_spec p 0) as [Hp0|Hp0].
      * rewrite Hp0 in Hsp |- *. destruct (stored_unique R _ _ _ _ _ _ _ _ Hsp Hs0) as (-> & _ & _). exists b2. rewrite (lookup_insert_eq _ (K 0)). by rewrite Hp0 in Hp2.
      * exists b1. unfold m2. rewrite lookup_insert_ne, lookup_insert_eq by (by apply (K_ne R HK 0 p); [apply uint_0|..|]). done.
    + intros ? ? ? Hs. destruct (stored_unique R _ _ _ _ _ _ _ _ Hs Hs0) as (-> & -> & ->). exists b2. by rewrite (lookup_insert_eq _ (K 0)).
    + unfold m2. by rewrite (lookup_insert_ne _ (K 0)), lookup_insert_ne, lookup_delete_eq by done.
    + intros k Hk1 Hk2 Hk3. unfold m2. by rewrite (lookup_insert_ne _ (K 0)), lookup_insert_ne, lookup_delete_ne by done.
  - apply othersKept_insert; [apply uint_0|]. apply othersKept_insert; [done|]. apply othersKept_delete; [done|apply othersKept_refl].
Qed.

(** ** Removal *)

(** An empty last page does not survive the page before it becoming empty. *)
Definition trim (b : list page_) : list page_ := match b with [(_, [])] => [] | _ => b end.

(** A directory with an empty root alone is erased, unless it is to be kept. *)
Definition dropEmpty (keepRoot : bool) (ps : list page_) : list page_ := if negb keepRoot && bool_decide (ps = [(0, [])]) then [] else ps.

(** The pages after the item has gone from page [n], between [a] and [b]. *)
Definition afterRemove (keepRoot : bool) (item : bytes) (a : list page_) (n : Z) (xs : list bytes) (b : list page_) : list page_ :=
  match filter (fun i => i <> item) xs with
  | [] => dropEmpty keepRoot (match a with [] => (n, []) :: trim b | _ => a ++ trim b end)
  | ys => a ++ (n, ys) :: b
  end.

Definition removeSpec (keepRoot : bool) (n : Z) (item : bytes) (ps : list page_) : option (list page_) :=
  match list_find (fun p => p.1 = n) ps with
  | Some (i, (_, xs)) => if bool_decide (item ∈ xs) then Some (afterRemove keepRoot item (take i ps) n xs (drop (S i) ps)) else None
  | None => None
  end.

(** The step leaves the pages [ps'], and reports whether the directory is gone. *)
Definition removes (c : VM V (dirError E) DirRemoveResult) (m : gmap bytes bytes) (rl : option Rules_) (ps' : list page_) : Prop :=
  exists r m', yields c m rl r m' /\ Success r = true /\ RootDeleted r = bool_decide (ps' = []) /\ represents R m' ps' /\ othersKept R m m'.

Lemma represents_erase m xs : represents R m [(0, xs)] -> represents R (delete (K 0) m) [].
Proof.
  intros [_ Ht]. split; [by left|]. intros n Hn _. destruct (decide (n = 0)) as [->|Hne]; [by rewrite (lookup_delete_eq _ (K 0))|].
  rewrite lookup_delete_ne by (by apply (K_ne R HK 0 n); [apply uint_0|..|]). apply Ht; [done|]. cbn. by rewrite list_elem_of_singleton.
Qed.

Lemma represents_some m ps : represents R m ps -> ps <> [] -> pageAt (m !! K 0).
Proof.
  intros Hrep Hne. pose proof Hrep as [[?|[((r & rest & ->) & _) _]] _]; [done|]. eapply stored_some, (stored_at m []), Hrep.
Qed.

Lemma firstNum_0 a n xs b : pagesOk (a ++ (n, xs) :: b) -> 0 <= n -> firstNum b 0 = 0 <-> b = [].
Proof.
  intros Hok Hn. destruct (pages_lt a n xs b Hok) as [_ Hgt]. destruct b as [|[q zs] b]; [done|]. apply list.Forall_cons in Hgt as [Hgt _]. cbn in *.
  split; [lia|done].
Qed.

Lemma only_root a p ys b :
  pagesOk ((a ++ [(p, ys)]) ++ b) -> (firstNum b 0 =? 0) && (p =? 0) && (length ys =? 0)%nat = bool_decide ((a ++ [(p, ys)]) ++ b = [(0, [])]).
Proof.
  rewrite <- app_assoc. cbn [app]. intros Hok. assert (Hp : 0 <= p). { destruct Hok as (_ & _ & Hf). rewrite Forall_app, list.Forall_cons in Hf. destruct Hf as (_ & ((? & _) & _) & _). done. }
  destruct (Z.eqb_spec p 0) as [->|Hp0].
  - destruct a as [|q a].
    + destruct (Z.eqb_spec (firstNum b 0) 0) as [Hb|Hb]; cbn [andb].
      * apply (firstNum_0 [] 0 ys b Hok Hp) in Hb as ->. destruct ys; [by rewrite bool_decide_eq_true_2|by rewrite bool_decide_eq_false_2].
      * rewrite bool_decide_eq_false_2; [done|]. cbn. intros [= _ ->]. done.
    + exfalso. destruct (pages_lt _ 0 ys b Hok) as [Hlt _]. destruct Hok as ((r & rest & He) & _). injection He as -> _.
      apply list.Forall_cons in Hlt as [Hlt _]. cbn in Hlt. lia.
  - rewrite andb_false_r. rewrite bool_decide_eq_false_2; [done|]. intros He. apply (f_equal (fmap fst)) in He. rewrite fmap_app in He. cbn in He.
    destruct a as [|q a]; [by injection He|]. destruct a; cbn in He; done.
Qed.

(** The root goes last. *)
Lemma finish_yields m rl keepRoot a p ys b prev mods dels :
  represents R m ((a ++ [(p, ys)]) ++ b) -> Indexes prev = ys ->
  removes (if negb keepRoot && (firstNum b 0 =? 0) && (p =? 0) && (length (Indexes prev) =? 0)%nat then
             erase (DirPage R p) ;;* vret (mkRemoved true false true true mods (dels ++ [K p]))
           else vret (mkRemoved true false true false mods dels)) m rl (dropEmpty keepRoot ((a ++ [(p, ys)]) ++ b)).
Proof.
  intros Hrep Hys. pose proof Hrep as [[He|[Hok _]] _]; [by destruct a|]. rewrite Hys, <- !andb_assoc. rewrite (andb_assoc (firstNum b 0 =? 0)), (only_root a p ys b Hok). unfold dropEmpty.
  destruct (negb keepRoot && bool_decide ((a ++ [(p, ys)]) ++ b = [(0, [])])) eqn:Hc.
  - apply andb_prop in Hc as [_ Hc%bool_decide_eq_true]. pose proof Hrep as Hrep'. rewrite Hc in Hrep'.
    assert (p = 0) as ->. { apply (f_equal (fmap fst)) in Hc. rewrite !fmap_app in Hc. destruct a as [|? [|]]; cbn in Hc; [by injection Hc|done..]. }
    eexists _, (delete (K 0) m). split; [|split_and!].
    + eapply yields_bind; [apply (yields_erase R HR); by eapply represents_some|]. apply yields_ret.
    + done.
    + by rewrite bool_decide_eq_true_2.
    + by eapply represents_erase.
    + apply (othersKept_delete _ _ _ 0); [apply uint_0|apply othersKept_refl].
  - eexists _, m. split_and!; [apply yields_ret|done| |done|apply othersKept_refl]. cbn. rewrite bool_decide_eq_false_2; [done|]. by destruct a.
Qed.

Lemma removes_bind {A} (c : VM V (dirError E) A) k m rl x m1 ps' :
  yields c m rl x m1 -> othersKept R m m1 -> removes (k x) m1 rl ps' -> removes (vbind c k) m rl ps'.
Proof.
  intros Hc Ho (r & m' & Hk & Hs & Hd & Hr & Ho'). exists r, m'. split_and!; [by eapply yields_bind|done..|]. intros z Hz. by rewrite Ho', Ho.
Qed.

Lemma removes_ret m rl r ps' : Success r = true -> RootDeleted r = bool_decide (ps' = []) -> represents R m ps' -> removes (vret r) m rl ps'.
Proof. intros. exists r, m. split_and!; [apply yields_ret|done..|apply othersKept_refl]. Qed.

Lemma trim_keeps b q zs b' : b = (q, zs) :: b' -> (b' = [] -> zs <> []) -> trim b = b.
Proof. intros -> Hz. destruct b', zs; try done. by destruct Hz. Qed.

Lemma removePage_removes m rl keepRoot a n xs b node :
  n <> 0 -> represents R m (a ++ (n, xs) :: b) -> IndexNext node = firstNum b 0 -> IndexPrevious node = lastNum 0 a ->
  removes (removePage dirKey n node keepRoot) m rl (dropEmpty keepRoot (a ++ trim b)).
Proof.
  intros Hn Hrep Hnx Hpv. destruct (neighbours m a n xs b Hn Hrep) as (Hun & Hup & Huq & Hpn & Hqn & _).
  destruct (unlink_yields m rl a n xs b node Hn Hrep Hnx Hpv) as (prev & next & mods & m1 & Hy & Hrep1 & Ho & (ys & pv & Hsp & Hfp) & (zs & nx & Hsq & Hfq)).
  unfold removePage. rewrite Hnx, Hpv. rewrite (proj2 (Z.eqb_neq (firstNum b 0) n)), (proj2 (Z.eqb_neq (lastNum 0 a) n)) by done.
  eapply removes_bind; [exact Hy|done|]. cbn [Key].
  assert (Ha : exists a', a = a' ++ [(lastNum 0 a, ys)]).
  { destruct Hrep as [[?|[Hok _]] _]; [by destruct a|]. destruct (pages_head a n xs b Hok Hn) as (r & c & Ha). destruct a as [|[p ys'] a _] using rev_ind; [done|].
    exists a. rewrite lastNum_app in *. cbn [lastNum] in *. rewrite <- app_assoc in Hrep1. pose proof (stored_at m1 a p ys' b Hrep1) as Hs.
    by destruct (stored_unique R _ _ _ _ _ _ _ _ Hs Hsp) as (-> & _). }
  destruct Ha as [a' Ha]. replace (Indexes next) with zs by (symmetry; apply Hfq). replace (IndexNext next) with nx by (symmetry; apply Hfq).
  assert (Hq : b = [] \/ exists b', b = (firstNum b 0, zs) :: b' /\ firstNum b 0 <> 0 /\ (nx = 0 <-> b' = [])).
  { destruct b as [|[q zs'] b']; [by left|right]. exists b'. cbn [firstNum] in *. pose proof (stored_at m1 a q zs' b' Hrep1) as Hs.
    destruct (stored_unique R _ _ _ _ _ _ _ _ Hs Hsq) as (-> & <- & _). destruct Hrep1 as [[?|[Hok _]] _]; [by destruct a|].
    destruct Hrep as [[?|[Hok0 _]] _]; [by destruct a|]. destruct (pages_lt a n xs _ Hok0) as [_ Hgt]. apply list.Forall_cons in Hgt as [Hgt _]. cbn in Hgt. unfold is_uint in Hun.
    split_and!; [done|lia|]. apply (firstNum_0 a q zs b' Hok). lia. }
  assert (Hfin : forall m' b' mods dels, represents R m' (a ++ b') -> removes (if negb keepRoot && (firstNum b' 0 =? 0) && (lastNum 0 a =? 0) && (length (Indexes prev) =? 0)%nat then
             erase (DirPage R (lastNum 0 a)) ;;* vret (mkRemoved true false true true mods (dels ++ [K (lastNum 0 a)]))
           else vret (mkRemoved true false true false mods dels)) m' rl (dropEmpty keepRoot (a ++ b'))).
  { intros m' b' mods' dels Hrep'. rewrite Ha in Hrep' at 1. pose proof (finish_yields m' rl keepRoot a' (lastNum 0 a) ys b' prev mods' dels Hrep') as Hf.
    rewrite <- Ha in Hf. apply Hf, Hfp. }
  destruct (negb (firstNum b 0 =? 0) && (nx =? 0) && (length zs =? 0)%nat) eqn:Hc.
  - apply andb_prop in Hc as [[Hc1 Hc2]%andb_prop Hc3]. zbool. apply Nat.eqb_eq, nil_length_inv in Hc3 as ->. destruct Hq as [->|(b' & Hb & Hq & Hb')]; [done|].
    rewrite (proj1 Hb' Hc2) in Hb. rewrite Hb in Hrep1. destruct (dropLast_yields m1 rl a (firstNum b 0) prev ys pv Hq Hrep1 Hsp Hfp) as (m2 & Hy2 & Hrep2 & Ho2).
    eapply removes_bind; [eapply yields_bind; [exact Hy2|apply yields_ret]|done|]. replace (trim b) with (@nil page_) by (by rewrite Hb).
    apply (Hfin m2 []). by rewrite app_nil_r.
  - eapply removes_bind; [apply yields_ret|apply othersKept_refl|]. replace (trim b) with b; [by apply Hfin|].
    destruct Hq as [->|(b' & Hb & Hq & Hb')]; [done|]. symmetry. apply (trim_keeps b _ _ _ Hb). intros He ->. apply Hb' in He. rewrite He in Hc.
    by rewrite (proj2 (Z.eqb_neq _ _) Hq) in Hc.
Qed.

(** Writing a page back with other items. *)
Lemma store_page m rl a n xs ys b node bk nx pv :
  represents R m (a ++ (n, xs) :: b) -> stored R m n xs nx pv -> pageFacts R ys nx pv node -> Forall (isHash 32) ys -> (length ys <= dirNodeMaxEntries)%nat ->
  exists m', yields (store_ (DirPage R n) node bk) m rl tt m' /\ represents R m' (a ++ (n, ys) :: b) /\ othersKept R m m'.
Proof.
  intros Hrep Hs Hf Hys Hl. destruct (page_bytes R HR ys nx pv node bk Hf) as (bs & Hb & Hp & Hst); [unfold dirNodeMaxEntries in Hl; lia|].
  exists (<[K n := bs]> m). split_and!.
  - apply (yields_store R HR m rl _ n); [done|done|done|by eapply stored_some].
  - by eapply represents_update.
  - apply othersKept_insert; [|apply othersKept_refl]. destruct (stored_num m _ n Hrep) as (_ & _ & _ & Hu & _); [|done]. rewrite fmap_app, elem_of_app. right. left.
Qed.

(** The root, written back without items, in a directory of more pages. *)
Lemma root_stays m rl keepRoot xs b node bk mods dels nx pv :
  represents R m ((0, xs) :: b) -> stored R m 0 xs nx pv -> pageFacts R [] nx pv node -> trim b = b -> keepRoot = true \/ b <> [] ->
  removes (store_ (DirPage R 0) node bk ;;* vret (mkRemoved true true false false mods dels)) m rl (dropEmpty keepRoot ((0, []) :: trim b)).
Proof.
  intros Hrep Hs Hf -> Hk. destruct (store_page m rl [] 0 xs [] b node bk nx pv) as (m' & Hy & Hrep' & Ho); [done..|by constructor|cbn; lia|].
  eapply removes_bind; [exact Hy|done|]. replace (dropEmpty keepRoot ((0, []) :: b)) with ((0, []) :: b : list page_).
  - by apply removes_ret.
  - unfold dropEmpty. destruct Hk as [->|Hb]; [done|]. rewrite bool_decide_eq_false_2, andb_false_r; [done|]. by intros [= ->].
Qed.

Lemma root_erased m rl xs r : represents R m [(0, xs)] -> Success r = true -> RootDeleted r = true ->
  removes (erase (DirPage R 0) ;;* vret r) m rl [].
Proof.
  intros Hrep Hs Hd. eapply removes_bind; [apply (yields_erase R HR); by eapply represents_some|apply othersKept_delete; [apply uint_0|apply othersKept_refl]|].
  apply removes_ret; [done|by rewrite Hd|by eapply represents_erase].
Qed.

(** The root and an empty page after it. *)
Lemma root_takes_last {A} m rl xs q node bk (x : A) :
  represents R m [(0, xs); (q, [])] -> pageFacts R [] q q node ->
  exists m', yields (store_ (DirPage R 0) (SetIndexPrevious (SetIndexNext node 0) 0) bk ;;* erase (DirPage R q) ;;* vret x) m rl x m' /\ represents R m' [(0, [])] /\ othersKept R m m'.
Proof.
  intros Hrep Hf. pose proof (stored_at m [] 0 xs [(q, [])] Hrep) as Hs0. pose proof (stored_at m [(0, xs)] q [] [] Hrep) as Hsq. cbn [firstNum lastNum] in *.
  assert (Hq : q <> 0 /\ is_uint 64 q).
  { pose proof Hrep as [[?|[Hok _]] _]; [done|]. destruct (pages_lt [] 0 xs _ Hok) as [_ Hgt]. apply list.Forall_cons in Hgt as [Hgt _]. cbn in Hgt. split; [lia|].
    destruct (stored_num m _ q Hrep) as (_ & _ & _ & Hu & _); [right; left|done]. }
  destruct Hq as [Hq Hu]. pose proof (K_ne R HK q 0 Hu uint_0 Hq) as Hk.
  destruct (page_bytes R HR [] 0 0 (SetIndexPrevious (SetIndexNext node 0) 0) bk) as (bs & Hb & Hp & Hst).
  { eapply facts_prev; [eapply facts_next; [exact Hf|]|]; apply uint_0. }
  { cbn. lia. }
  exists (delete (K q) (<[K 0 := bs]> m)). split_and!.
  - eapply yields_bind; [apply (yields_store R HR m rl _ 0); [done|done|done|by eapply stored_some]|].
    eapply yields_bind; [|apply yields_ret]. apply (yields_erase R HR). rewrite (lookup_insert_ne _ (K 0)) by done. by eapply stored_some.
  - split; [right; split|].
    + split_and!; [by eexists _, _|repeat constructor|]. apply list.Forall_singleton. cbn. split_and!; [apply uint_0|by constructor|lia].
    + split; [|done]. exists bs. rewrite lookup_delete_ne by done. by rewrite (lookup_insert_eq _ (K 0)).
    + intros n Hn Hnot. cbn in Hnot. rewrite list_elem_of_singleton in Hnot. destruct (decide (n = q)) as [->|Hnq]; [by rewrite lookup_delete_eq|].
      rewrite lookup_delete_ne by (by apply K_ne). rewrite (lookup_insert_ne _ (K 0)) by (by apply (K_ne R HK 0 n); [apply uint_0|..|]).
      apply Hrep; [done|]. cbn. rewrite !not_elem_of_cons. split_and!; [done|done|apply not_elem_of_nil].
  - apply othersKept_delete; [done|]. apply (othersKept_insert _ _ _ 0); [apply uint_0|apply othersKept_refl].
Qed.

Lemma removeFromRoot_removes m rl keepRoot xs b node :
  represents R m ((0, xs) :: b) -> pageFacts R [] (firstNum b 0) (lastNum 0 b) node ->
  removes (removeFromRoot dirKey node keepRoot) m rl (dropEmpty keepRoot ((0, []) :: trim b)).
Proof.
  intros Hrep Hf. pose proof (stored_at m [] 0 xs b Hrep) as Hs. cbn [lastNum] in Hs.
  assert (Hpos : Forall (fun y => 0 < y.1) b). { destruct Hrep as [[?|[Hok _]] _]; [done|]. destruct (pages_lt [] 0 xs b Hok) as [_ Hgt]. rewrite Forall_fmap in Hgt. exact Hgt. }
  unfold removeFromRoot. cbn [Key]. replace (IndexNext node) with (firstNum b 0) by (symmetry; apply Hf). replace (IndexPrevious node) with (lastNum 0 b) by (symmetry; apply Hf).
  destruct b as [|[q zs] c]; [|apply list.Forall_cons in Hpos as [Hq Hpos]; cbn [fst] in Hq; destruct c as [|[p ws] c _] using rev_ind].
  - cbn [firstNum lastNum Z.eqb andb negb]. eapply removes_bind; [apply yields_ret|apply othersKept_refl|]. cbn beta iota. destruct keepRoot.
    + destruct Hf as (Hd & Hsd & HRi & Hx & Hn & Hp). cbn in Hn, Hp. rewrite Hn, Hp. cbn [Z.eqb negb orb]. eapply root_stays; [done|done|by split_and!|done|by left].
    + by eapply root_erased.
  - cbn [firstNum lastNum]. rewrite (proj2 (Z.eqb_neq q 0)), Z.eqb_refl by lia. cbn [andb negb]. pose proof (stored_at m [(0, xs)] q zs [] Hrep) as Hsq. cbn [firstNum lastNum] in Hsq.
    destruct (yields_readPage m rl q _ _ _ FwdLinkBroken Hsq) as (lastPage & Hread & Hlast). cbn [firstNum lastNum] in Hf, Hs.
    replace (IndexNext node) with q by (symmetry; apply Hf). destruct zs as [|z zs].
    + destruct (root_takes_last m rl xs q node (isBookPage (SetIndexPrevious (SetIndexNext node 0) 0))
        (SetIndexPrevious (SetIndexNext node 0) 0, 0, 0, [K 0], [K q]) Hrep Hf) as (m' & Hy & Hrep' & Ho).
      eapply removes_bind; [eapply yields_bind; [exact Hread|]; replace (Indexes lastPage) with (@nil bytes) by (symmetry; apply Hlast); exact Hy|done|].
      cbn beta iota. destruct keepRoot; [|by eapply root_erased]. cbn [SetIndexPrevious SetIndexNext IndexNext]. rewrite (proj2 (Z.eqb_neq q 0)) by lia.
      by apply removes_ret.
    + eapply removes_bind; [eapply yields_bind; [exact Hread|]; replace (Indexes lastPage) with (z :: zs) by (symmetry; apply Hlast); apply yields_ret|apply othersKept_refl|].
      cbn beta iota. destruct keepRoot.
      * replace (IndexNext node) with q by (symmetry; apply Hf). replace (IndexPrevious node) with q by (symmetry; apply Hf). rewrite !Z.eqb_refl. cbn [negb orb]. eapply root_stays; [done|done|done|done|by left].
      * rewrite (proj2 (Z.eqb_neq q 0)) by lia. eapply root_stays; [done|done|done|done|by right].
  - cbn [firstNum lastNum] in *. rewrite lastNum_app in *. cbn [lastNum] in *. rewrite Forall_app in Hpos. destruct Hpos as [_ Hp].
    apply list.Forall_cons in Hp as [Hp _]. cbn [fst] in Hp. assert (Hqp : q <> p).
    { destruct Hrep as [[?|[Hok _]] _]; [done|]. destruct (pages_lt [(0, xs)] q zs _ Hok) as [_ Hgt]. rewrite fmap_app, Forall_app in Hgt. destruct Hgt as [_ Hgt].
      apply list.Forall_cons in Hgt as [Hgt _]. cbn in Hgt. lia. }
    rewrite (proj2 (Z.eqb_neq q 0)), (proj2 (Z.eqb_neq p 0)), (proj2 (Z.eqb_neq q p)) by (done || lia). cbn [andb negb].
    assert (Htrim : trim ((q, zs) :: c ++ [(p, ws)]) = (q, zs) :: c ++ [(p, ws)]) by (eapply trim_keeps; [done|]; by destruct c).
    eapply removes_bind; [apply yields_ret|apply othersKept_refl|]. cbn beta iota. destruct keepRoot.
    + replace (IndexNext node) with q by (symmetry; apply Hf). replace (IndexPrevious node) with p by (symmetry; apply Hf).
      rewrite !Z.eqb_refl. cbn [negb orb]. eapply root_stays; [done|done|done|done|by left].
    + rewrite (proj2 (Z.eqb_neq q 0)) by lia. cbn [andb]. eapply root_stays; [done|done|done|done|by right].
Qed.
Lemma read_none m rl n : m !! K n = None -> yields (read (DirPage R n)) m rl None m.
Proof.
  intros Hn v Hv. destruct (Read_spec v (DirPage R n) (proj1 Hv) (DirPage_key R n HR)) as (v' & Hr & Hv'). exists v'.
  assert (Hc : contents v = m) by apply Hv. rewrite Hc in *. split; [|by eapply becomes_holds]. unfold read, vmap. by rewrite Hr, Hn.
Qed.

Lemma remove_at m rl keepRoot a n xs b item :
  represents R m (a ++ (n, xs) :: b) -> item ∈ xs -> removes (DirRemove dirKey n item keepRoot) m rl (afterRemove keepRoot item a n xs b).
Proof.
  intros Hrep Hin. pose proof (stored_at m a n xs b Hrep) as Hs. destruct (stored_read R HR m rl n _ _ _ Hs) as (bs & node & Hread & Hparse & _ & Hf).
  unfold DirRemove. cbn [Key]. eapply removes_bind; [exact Hread|apply othersKept_refl|]. cbn beta iota.
  eapply removes_bind; [exact Hparse|apply othersKept_refl|]. replace (Indexes node) with xs by (symmetry; apply Hf).
  rewrite bool_decide_eq_false_2 by tauto. cbn [setIndexes Indexes]. unfold afterRemove. pose proof Hrep as [[?|[Hok _]] _]; [by destruct a|].
  assert (Hxs : Forall (isHash 32) xs /\ (length xs <= dirNodeMaxEntries)%nat).
  { destruct Hok as (_ & _ & Hall). rewrite Forall_app, list.Forall_cons in Hall. apply Hall. }
  destruct Hxs as [Hxs Hlen]. assert (Hys : Forall (isHash 32) (filter (fun i => i <> item) xs)) by (apply list.Forall_forall; intros i Hi; apply list_elem_of_filter in Hi as [_ Hi]; by eapply list.Forall_forall in Hxs).
  pose proof (length_filter (fun i => i <> item) xs) as Hl. destruct (filter (fun i => i <> item) xs) as [|y ys] eqn:Hys'.
  - cbn [length Nat.eqb negb]. pose proof (facts_indexes R _ _ _ _ [] Hf ltac:(by constructor)) as Hf'. destruct (Z.eqb_spec n 0) as [->|Hn].
    + destruct a as [|[z r] a]; [|destruct (pages_lt _ 0 xs b Hok) as [Hlt _]; destruct Hok as ((r' & rest & [= -> _ _]) & _); apply list.Forall_cons in Hlt as [Hlt _]; cbn in Hlt; lia].
      by eapply removeFromRoot_removes.
    + destruct (pages_head a n xs b Hok Hn) as (r & c & Ha). replace (match a with [] => (n, []) :: trim b | _ :: _ => a ++ trim b end) with (a ++ trim b) by (by rewrite Ha).
      eapply removePage_removes; [done|done|apply Hf'|]. cbn. replace (IndexPrevious node) with (lastNum (lastNum n b) a) by (symmetry; apply Hf). by rewrite Ha.
  - cbn [length Nat.eqb negb]. edestruct (store_page m rl a n xs (y :: ys) b) as (m' & Hy & Hrep' & Ho); [done|exact Hs|by apply (facts_indexes R xs)|done|lia|].
    eapply removes_bind; [exact Hy|done|]. apply removes_ret; [done| |done]. by rewrite bool_decide_eq_false_2 by (by destruct a).
Qed.

Lemma remove_refines m rl ps keepRoot n item :
  is_uint 64 n -> represents R m ps ->
  match removeSpec keepRoot n item ps with
  | None => yields (DirRemove dirKey n item keepRoot) m rl notFound m
  | Some ps' => removes (DirRemove dirKey n item keepRoot) m rl ps'
  end.
Proof.
  intros Hn Hrep. unfold removeSpec. destruct (list_find (fun p => p.1 = n) ps) as [[i [n' xs]]|] eqn:Hfind.
  - apply list_find_Some in Hfind as (Hi & Hn' & _). cbn in Hn'. subst n'. pose proof (take_drop_middle ps i _ Hi) as Hsplit.
    destruct (decide (item ∈ xs)) as [Hin|Hin].
    + rewrite bool_decide_eq_true_2 by done. apply remove_at; [by rewrite Hsplit|done].
    + rewrite (bool_decide_eq_false_2 (item ∈ xs)) by done. rewrite <- Hsplit in Hrep. pose proof (stored_at m _ n xs _ Hrep) as Hs.
      destruct (stored_read R HR m rl n _ _ _ Hs) as (bs & node & Hread & Hparse & _ & Hf).
      unfold DirRemove. cbn [Key]. eapply yields_bind; [exact Hread|]. cbn beta iota. eapply yields_bind; [exact Hparse|].
      replace (Indexes node) with xs by (symmetry; apply Hf). rewrite bool_decide_eq_true_2 by done. apply yields_ret.
  - apply list_find_None in Hfind. unfold DirRemove. cbn [Key]. eapply yields_bind; [apply read_none|apply yields_ret].
    apply Hrep; [done|]. intros ([n' xs] & -> & Hin)%list_elem_of_fmap. eapply list.Forall_forall in Hfind; [|exact Hin]. done.
Qed.

(** C10: Removal from a directory is removal from its list of pages: an item that is not on
    the page named is reported and changes nothing; otherwise the item goes, and with it
    the page when it was the last there (other than the root), an empty last page after it,
    and the whole directory when nothing is left and the root is not to be kept. The ring of
    links is intact afterwards, and no other entry changes. *)
Theorem dir_remove_refines m rl ps keepRoot n item :
  is_uint 64 n -> represents R m ps ->
  match removeSpec keepRoot n item ps with
  | None => yields (DirRemove dirKey n item keepRoot) m rl notFound m
  | Some ps' => removes (DirRemove dirKey n item keepRoot) m rl ps'
  end.
Proof. exact (remove_refines m rl ps keepRoot n item). Qed.

End Remove.

(** ** Removing the item that is there *)

Section Example.
#[local] Existing Instance tailHasher.
Import Ledger.

Lemma exampleDirectory : exists v : Ledger, holds (contents v) (Some (fun _ => true)) v /\ represents exampleRoot (contents v) [(0, [exampleItem])].
Proof.
  destruct exampleLedger_valid as [Hv Hc].
  destruct (insert_refines (V := Ledger) (E := ledgerError) exampleRoot exampleRoot_key examplePages ∅ (Some (fun _ => true)) [] true None exampleItem
    exampleItem_ok (setup_none exampleRoot) exampleNoPages) as (r & m' & Hy & _ & Hrep & _).
  destruct (Hy exampleLedger) as (v' & _ & Hh); [done|]. pose proof Hh as (_ & Hc' & _). exists v'. rewrite Hc'. done.
Qed.

Lemma dir_remove_refines_witness :
  exists (v : Ledger) r v', represents exampleRoot (contents v) [(0, [exampleItem])] /\
    DirRemove (mkKeylet TypeDirectoryNode exampleRoot) 0 exampleItem false v = (inr r, v') /\ Success r = true /\ represents exampleRoot (contents v') [].
Proof.
  destruct exampleDirectory as (v & Hh & Hrep).
  destruct (dir_remove_refines (V := Ledger) (E := ledgerError) exampleRoot exampleRoot_key examplePages (contents v) (Some (fun _ => true)) [(0, [exampleItem])] false 0 exampleItem
    ltac:(unfold is_uint; lia) Hrep) as (r & m' & Hy & Hs & _ & Hrep' & _).
  destruct (Hy v Hh) as (v' & Hd & _ & Hc' & _). exists v, r, v'. rewrite Hc'. split_and!; [exact Hrep|exact Hd|exact Hs|exact Hrep'].
Defined.

End Example.

End DirectoryRemove.
