(* ===== verification/DirectoryHistory.v ===== *)
(** * Iteration over a directory, and histories of insertions and removals

    (internal/ledger/state/directory.go) [DirForEach] visits the items of the pages in
    order. An object in a directory records the page that [DirInsert] returned for it;
    through any history of insertions and removals the items stay on the pages recorded,
    so that removal through the record never misses, and iteration visits exactly the
    items that have been inserted and not removed, once each. *)

From Stdlib Require Import ZArith Lia.
From stdpp Require Import base list numbers gmap strings sorting fin_maps.
From S2P Require Import Prelude Serdes Sha512 ShaMapKey EntryStream LedgerEntry LedgerView Ledger Directory DirectoryPage DirectorySpec DirectoryRemove.

Module DirectoryHistory.
Import Sha512 ShaMapKey EntryStream LedgerEntry LedgerView Directory DirectoryPage DirectorySpec DirectoryRemove.

(** ** Items and their pages *)

Definition flat (ps : list page_) : list (bytes * Z) := ps ≫= fun p => (fun i => (i, p.1)) <$> p.2.

Lemma flat_app a b : flat (a ++ b) = flat a ++ flat b.
Proof. apply bind_app. Qed.

Lemma flat_items ps : fst <$> flat ps = concat (snd <$> ps).
Proof.
  induction ps as [|[n xs] ps IH]; [done|]. change (flat ((n, xs) :: ps)) with (((fun i => (i, n)) <$> xs) ++ flat ps).
  rewrite fmap_app, IH. cbn. f_equal. rewrite <- list_fmap_compose. apply list_fmap_id.
Qed.

Lemma flat_cons n xs b : flat ((n, xs) :: b) = ((fun i => (i, n)) <$> xs) ++ flat b.
Proof. done. Qed.

Lemma flat_trim b : flat (trim b) = flat b.
Proof. destruct b as [|[q [|z zs]] [|]]; done. Qed.

Lemma flat_dropEmpty k ps : flat (dropEmpty k ps) = flat ps.
Proof. unfold dropEmpty. destruct (negb k); [|done]. case_bool_decide as He; [by rewrite He|done]. Qed.

Lemma filter_out item (xs : list bytes) : NoDup xs -> item ∈ xs -> item :: filter (fun i => i <> item) xs ≡ₚ xs.
Proof.
  intros Hnd Hin. apply NoDup_Permutation; [|done|].
  - constructor; [rewrite list_elem_of_filter; tauto|by apply NoDup_filter].
  - intros x. rewrite elem_of_cons, list_elem_of_filter. destruct (decide (x = item)) as [->|]; tauto.
Qed.

(** Insertion adds the item with the page it returns; removal takes it away. *)
Lemma insertSpec_flat {E} po rl item ps ps' n : insertSpec (E := E) po rl item ps = inr (ps', n) -> flat ps' ≡ₚ (item, n) :: flat ps.
Proof.
  unfold insertSpec. destruct ps as [|[k xs] a _] using rev_ind; [by intros [= <- <-]|]. rewrite last_snoc.
  replace (take _ _) with a by (rewrite length_app; cbn; by rewrite Nat.add_sub, take_app_length).
  destruct (_ <? _)%nat.
  - destruct (addIndex po xs item) as [ys|] eqn:Hadd; [|done]. intros [= <- <-]. rewrite !flat_app, !flat_cons, !app_nil_r.
    assert (Hp : ys ≡ₚ item :: xs).
    { revert Hadd. rewrite addIndex_exact. case_bool_decide; [done|]. intros [= <-]. destruct po; [by rewrite Permutation_app_comm|]. by rewrite insert_by_perm, sort_by_perm. }
    rewrite Hp. cbn. by rewrite <- Permutation_middle.
  - destruct (_ || _); [done|]. intros [= <- <-]. rewrite (flat_app (a ++ _)). cbn. by rewrite <- Permutation_cons_append.
Qed.

Lemma afterRemove_flat k item a n xs b :
  NoDup xs -> item ∈ xs -> (item, n) :: flat (afterRemove k item a n xs b) ≡ₚ flat (a ++ (n, xs) :: b).
Proof.
  intros Hnd Hin. assert (He : flat (afterRemove k item a n xs b) = flat a ++ ((fun i => (i, n)) <$> filter (fun i => i <> item) xs) ++ flat b).
  { unfold afterRemove. destruct (filter _ xs) as [|y ys]; [|by rewrite flat_app, flat_cons].
    rewrite flat_dropEmpty. destruct a; [|by rewrite flat_app, flat_trim]. rewrite flat_cons. cbn. apply flat_trim. }
  rewrite He, flat_app, flat_cons. rewrite <- (filter_out item xs Hnd Hin) at 2. cbn. by rewrite <- Permutation_middle.
Qed.

Lemma flat_elem ps item n : (item, n) ∈ flat ps <-> exists xs, (n, xs) ∈ ps /\ item ∈ xs.
Proof.
  unfold flat. rewrite list_elem_of_bind. split.
  - intros ([k xs] & (i & [= -> ->] & Hi)%list_elem_of_fmap & Hp). by exists xs.
  - intros (xs & Hp & Hi). exists (n, xs). split; [|done]. apply list_elem_of_fmap. by exists item.
Qed.

Lemma removeSpec_flat k ps item n :
  NoDup (fst <$> ps) -> NoDup (fst <$> flat ps) -> (item, n) ∈ flat ps ->
  exists ps', removeSpec k n item ps = Some ps' /\ (item, n) :: flat ps' ≡ₚ flat ps.
Proof.
  intros Hnum Hnd (xs & Hp & Hi)%flat_elem. unfold removeSpec. destruct (list_find (fun p => p.1 = n) ps) as [[i [n' xs']]|] eqn:Hfind.
  2:{ apply list_find_None in Hfind. eapply list.Forall_forall in Hfind; [|exact Hp]. done. }
  apply list_find_Some in Hfind as (Hl & Hn' & _). cbn in Hn'. subst n'.
  assert (xs' = xs) as ->.
  { apply list_elem_of_lookup in Hp as [j Hj]. assert (i = j) as ->.
    { eapply NoDup_lookup; [exact Hnum|rewrite list_lookup_fmap, Hl|rewrite list_lookup_fmap, Hj]; done. }
    congruence. }
  rewrite bool_decide_eq_true_2 by done. eexists. split; [done|]. rewrite afterRemove_flat; [by rewrite (take_drop_middle ps i _ Hl)| |done].
  rewrite <- (take_drop_middle ps i _ Hl), flat_items, fmap_app, concat_app in Hnd. apply NoDup_app in Hnd as (_ & _ & Hnd). cbn in Hnd. by apply NoDup_app in Hnd as (Hnd & _ & _).
Qed.
Section History.
Context `{Hasher} {V E : Type} `{!LedgerView V E} `{!LedgerViewLaws V E}.
Variable R : bytes.
Hypothesis HR : is_key R.
Hypothesis HK : pagesDistinct R.

Abbreviation dirKey := (mkKeylet TypeDirectoryNode R).

(** ** Iteration *)

Section ForEach.
Context {S F : Type} (fn : bytes -> S -> option F * S).

Lemma visitAll_app xs ys s :
  visitAll fn (xs ++ ys) s = match visitAll fn xs s with (Some err, s) => (Some err, s) | (None, s) => visitAll fn ys s end.
Proof. revert s. induction xs as [|x xs IH]; intros s; [done|]. cbn. destruct (fn x s) as [[err|] s']; [done|apply IH]. Qed.

Lemma pagesLoop_exact m rl a b fuel s :
  represents R m (a ++ b) -> a <> [] -> (length b <= fuel)%nat ->
  yields (pagesLoop fn fuel dirKey (firstNum b 0) s) m rl (visitAll fn (concat (snd <$> b)) s) m.
Proof.
  revert a fuel s. induction b as [|[q zs] b IH]; intros a fuel s Hrep Ha Hfuel; [destruct fuel; apply yields_ret|].
  destruct fuel as [|fuel]; [cbn in Hfuel; lia|]. cbn [firstNum pagesLoop].
  assert (Hq : q <> 0).
  { pose proof Hrep as [[?|[Hok _]] _]; [by destruct a|]. destruct (pages_lt a q zs b Hok) as [Hlt _]. destruct Hok as ((r & rest & He) & _).
    destruct a as [|[z r'] a]; [done|]. injection He as -> _ _. apply list.Forall_cons in Hlt as [Hlt _]. cbn in Hlt. lia. }
  rewrite (proj2 (Z.eqb_neq q 0)) by done. destruct (stored_read R HR m rl q _ _ _ (stored_at R m a q zs b Hrep)) as (bs & d & Hread & Hparse & _ & Hf).
  eapply yields_bind; [exact Hread|]. eapply yields_bind; [exact Hparse|]. replace (Indexes d) with zs by (symmetry; apply Hf).
  replace (IndexNext d) with (firstNum b 0) by (symmetry; apply Hf). cbn [fmap list_fmap snd concat]. rewrite visitAll_app.
  destruct (visitAll fn zs s) as [[err|] s']; [apply yields_ret|]. apply (IH (a ++ [(q, zs)])); [by rewrite <- app_assoc|by destruct a|cbn in Hfuel; lia].
Qed.

Lemma forEach_exact m rl ps fuel s :
  represents R m ps -> (length ps <= fuel)%nat -> yields (DirForEach fn fuel dirKey s) m rl (visitAll fn (concat (snd <$> ps)) s) m.
Proof.
  intros Hrep Hfuel. unfold DirForEach. pose proof Hrep as [[->|[((r & rest & ->) & _) _]] Ht].
  - eapply yields_bind; [apply (read_none R HR m rl 0), Ht; [apply uint_0|apply not_elem_of_nil]|]. apply yields_ret.
  - destruct (stored_read R HR m rl 0 _ _ _ (stored_at R m [] 0 r rest Hrep)) as (bs & d & Hread & Hparse & _ & Hf).
    eapply yields_bind; [exact Hread|]. eapply yields_bind; [exact Hparse|]. replace (Indexes d) with r by (symmetry; apply Hf).
    replace (IndexNext d) with (firstNum rest 0) by (symmetry; apply Hf). cbn [fmap list_fmap snd concat]. rewrite visitAll_app.
    destruct (visitAll fn r s) as [[err|] s']; [apply yields_ret|]. apply (pagesLoop_exact m rl [(0, r)]); [done|done|cbn in Hfuel; lia].
Qed.

End ForEach.

(** ** Histories *)

Inductive dirOp : Type :=
  | InsertItem (item : bytes) (preserveOrder : bool)
  | RemoveItem (item : bytes) (keepRoot : bool).

(** Objects in the directory record their page: a new object is inserted once, and an
    object is removed with the page it records. The flag tells whether all went well,
    a full directory aside. *)
Fixpoint runOps (ops : list dirOp) (live : gmap bytes Z) (v : V) : gmap bytes Z * bool * V :=
  match ops with
  | [] => (live, true, v)
  | InsertItem item po :: ops =>
      match live !! item with
      | Some _ => runOps ops live v
      | None =>
          match DirInsert dirKey item po None v with
          | (inr r, v) => runOps ops (<[item := Page r]> live) v
          | (inl ErrDirFull, v) => runOps ops live v
          | (inl _, v) => (live, false, v)
          end
      end
  | RemoveItem item keepRoot :: ops =>
      match live !! item with
      | None => runOps ops live v
      | Some n =>
          match DirRemove dirKey n item keepRoot v with
          | (inr r, v) => if Success r then runOps ops (delete item live) v else (live, false, v)
          | (inl _, v) => (live, false, v)
          end
      end
  end.

Definition opOk (op : dirOp) : Prop := match op with InsertItem item _ => isHash 32 item | RemoveItem _ _ => True end.

(** The pages hold exactly the live items, each on the page recorded. *)
Definition recorded (rl : option Rules_) (m0 : gmap bytes bytes) (live : gmap bytes Z) (v : V) : Prop :=
  exists m ps, holds m rl v /\ represents R m ps /\ othersKept R m0 m /\ flat ps ≡ₚ map_to_list live.

Lemma pages_nums m ps : represents R m ps -> NoDup (fst <$> ps).
Proof.
  intros [[->|[(_ & Hs & _) _]] _]; [constructor|]. induction Hs as [|n l Hs IH Hn]; [constructor|]. constructor; [|done].
  intros Hin. eapply list.Forall_forall in Hn; [|exact Hin]. lia.
Qed.

Lemma insertSpec_error {E'} po rl item ps : (exists r : list page_ * Z, insertSpec (E := E') po rl item ps = inr r) \/ insertSpec (E := E') po rl item ps = inl ErrDirFull \/
  item ∈ fst <$> flat ps.
Proof.
  unfold insertSpec. destruct ps as [|[n xs] a _] using rev_ind; [left; by eexists|]. rewrite last_snoc. destruct (_ <? _)%nat.
  - rewrite addIndex_exact. case_bool_decide as Hx; [|left; by eexists]. right; right. rewrite flat_items, fmap_app, concat_app. apply elem_of_app. right. cbn. by rewrite app_nil_r.
  - destruct (_ || _); [by right; left|left; by eexists].
Qed.

Lemma flat_nodup (ps : list page_) (live : gmap bytes Z) : flat ps ≡ₚ map_to_list live -> NoDup (fst <$> flat ps).
Proof. intros Hp. rewrite Hp. apply NoDup_fst_map_to_list. Qed.

Lemma insert_recorded rl m0 live v item po :
  isHash 32 item -> live !! item = None -> recorded rl m0 live v ->
  match DirInsert dirKey item po None v with
  | (inr r, v') => recorded rl m0 (<[item := Page r]> live) v'
  | (inl err, v') => err = ErrDirFull /\ recorded rl m0 live v'
  end.
Proof.
  intros Hi Hnew (m & ps & Hv & Hrep & Ho & Hp). pose proof (insert_refines R HR HK m rl ps po None item Hi (setup_none R) Hrep) as Href.
  destruct (insertSpec_error (E' := E) po rl item ps) as [([ps' n] & He)|[He|Hin]].
  - rewrite He in Href. destruct Href as (r & m' & Hy & Hpage & Hrep' & Ho'). destruct (Hy v Hv) as (v' & -> & Hv'). exists m', ps'. split_and!; [done|done| |].
    + intros k Hk. by rewrite Ho', Ho.
    + rewrite (insertSpec_flat _ _ _ _ _ _ He), Hp, Hpage. by rewrite map_to_list_insert.
  - rewrite He in Href. destruct (Href v Hv) as (v' & -> & Hv'). split; [done|]. by exists m, ps.
  - exfalso. rewrite Hp in Hin. apply list_elem_of_fmap in Hin as ([i n] & -> & Hin). apply elem_of_map_to_list in Hin. cbn in Hnew. congruence.
Qed.

Lemma remove_recorded rl m0 live v item n keepRoot :
  is_uint 64 n -> live !! item = Some n -> recorded rl m0 live v ->
  exists r v', DirRemove dirKey n item keepRoot v = (inr r, v') /\ Success r = true /\ recorded rl m0 (delete item live) v'.
Proof.
  intros Hn Hl (m & ps & Hv & Hrep & Ho & Hp).
  destruct (removeSpec_flat keepRoot ps item n) as (ps' & He & Hp'); [by eapply pages_nums|by eapply flat_nodup|by rewrite Hp; apply elem_of_map_to_list|].
  pose proof (remove_refines R HR HK m rl ps keepRoot n item Hn Hrep) as Href. rewrite He in Href. destruct Href as (r & m' & Hy & Hs & _ & Hrep' & Ho').
  destruct (Hy v Hv) as (v' & Hd & Hv'). exists r, v'. split_and!; [done..|]. exists m', ps'. split_and!; [done|done| |].
  - intros k Hk. by rewrite Ho', Ho.
  - apply (Permutation_cons_inv (a := (item, n))). rewrite Hp', Hp. symmetry. by apply map_to_list_delete.
Qed.

Lemma recorded_uint rl m0 live v item n : recorded rl m0 live v -> live !! item = Some n -> is_uint 64 n.
Proof.
  intros (m & ps & _ & Hrep & _ & Hp) Hl%elem_of_map_to_list. rewrite <- Hp in Hl. apply flat_elem in Hl as (xs & Hin & _).
  destruct (stored_num R m ps n Hrep) as (_ & _ & _ & Hu & _); [apply list_elem_of_fmap; by exists (n, xs)|done].
Qed.

Lemma runOps_recorded rl m0 ops live v :
  Forall opOk ops -> recorded rl m0 live v -> let '(live', ok, v') := runOps ops live v in ok = true /\ recorded rl m0 live' v'.
Proof.
  revert live v. induction ops as [|op ops IH]; intros live v Hops Hrec; [done|]. apply list.Forall_cons in Hops as [Hop Hops].
  destruct op as [item po|item keepRoot]; cbn [runOps]; destruct (live !! item) as [n|] eqn:Hl; try by apply IH.
  - pose proof (insert_recorded rl m0 live v item po Hop Hl Hrec) as Hi. destruct (DirInsert dirKey item po None v) as [[err|r] v']; [destruct Hi as [-> Hi]|]; by apply IH.
  - destruct (remove_recorded rl m0 live v item n keepRoot) as (r & v' & -> & -> & Hrec'); [by eapply recorded_uint|done|done|]. by apply IH.
Qed.

Lemma visitAll_collect xs ys : visitAll (F := unit) (fun x s => (None, s ++ [x])) xs ys = (None, ys ++ xs).
Proof. revert ys. induction xs as [|x xs IH]; intros ys; cbn; [by rewrite app_nil_r|]. rewrite IH. by rewrite <- app_assoc. Qed.

(** C25: Through any history of insertions and removals, from a directory that does not exist,
    where objects record the page of their insertion and are removed with it: no operation
    fails, a full directory aside, every removal finds its item, at the end every recorded
    item can be removed, iteration with enough fuel visits exactly the recorded items, once
    each, and entries that are not pages of the directory are as they were. *)
Theorem dir_history rl m0 ops v :
  Forall opOk ops -> holds m0 rl v -> represents R m0 [] ->
  let '(live, ok, v') := runOps ops ∅ v in
  ok = true /\ valid v' /\ othersKept R m0 (contents v') /\
  (forall item n keepRoot, live !! item = Some n ->
     exists r v'', DirRemove dirKey n item keepRoot v' = (inr r, v'') /\ Success r = true) /\
  (exists fuel, forall fuel', (fuel <= fuel')%nat -> exists items v'',
     DirForEach (F := unit) (fun x s => (None, s ++ [x])) fuel' dirKey [] v' = (inr (None, items), v'') /\ items ≡ₚ fst <$> map_to_list live).
Proof.
  intros Hops Hv Hrep. assert (Hrec : recorded rl m0 ∅ v) by (exists m0, []; split_and!; [done|done|apply othersKept_refl|by rewrite map_to_list_empty]).
  pose proof (runOps_recorded rl m0 ops ∅ v Hops Hrec) as Hrun. destruct (runOps ops ∅ v) as [[live ok] v']. destruct Hrun as [-> Hrec'].
  pose proof Hrec' as (m & ps & Hv' & Hrep' & Ho & Hp). split_and!; [done|apply Hv'| | |].
  - by replace (contents v') with m by (symmetry; apply Hv').
  - intros item n keepRoot Hl. destruct (remove_recorded rl m0 live v' item n keepRoot) as (r & v'' & Hd & Hs & _); [by eapply recorded_uint|done|done|]. by exists r, v''.
  - exists (length ps). intros fuel' Hf.
    destruct (forEach_exact (F := unit) (fun x s => (None, s ++ [x])) m rl ps fuel' [] Hrep' Hf v' Hv') as (v'' & He & _). rewrite visitAll_collect in He.
    eexists _, v''. split; [exact He|]. cbn. by rewrite <- flat_items, Hp.
Qed.

End History.

Definition exampleOps : list dirOp := [InsertItem (replicate 32 5) true; InsertItem (replicate 32 3) false; RemoveItem (replicate 32 5) false].

Lemma exampleOps_ok : Forall opOk exampleOps.
Proof. repeat constructor; unfold is_uint; cbn; lia. Qed.

Lemma dir_history_witness :
  let '(live, ok, v') := @runOps tailHasher Ledger.Ledger Ledger.ledgerError (@Ledger.Ledger_view tailHasher) exampleRoot exampleOps ∅ exampleLedger in
  ok = true /\ @valid _ _ _ (@Ledger.Ledger_laws tailHasher) v'.
Proof.
  destruct exampleLedger_valid as [Hv Hc].
  pose proof (@dir_history tailHasher Ledger.Ledger Ledger.ledgerError (@Ledger.Ledger_view tailHasher) (@Ledger.Ledger_laws tailHasher) exampleRoot exampleRoot_key examplePages
    (Some (fun _ => true)) ∅ exampleOps exampleLedger exampleOps_ok (conj Hv (conj Hc eq_refl)) exampleNoPages) as Hh.
  destruct (runOps exampleRoot exampleOps ∅ exampleLedger) as [[live ok] v']. destruct Hh as (Hok & Hv' & _). done.
Defined.

End DirectoryHistory.
