(* ===== verification/ApplyState.v ===== *)
(** * The table of changes of a transaction (internal/tx/applystate, internal/ledger/state/ordered_keys.go)

    Transactions are applied to an overlay: reads are remembered, and insertions,
    updates and erasures are tracked until they are committed to the view below as
    one group. The overlay is a [LedgerView] over any other, a ledger or another
    overlay. The builders of metadata nodes are arguments of the commit; they are called,
    and may fail, before anything is written. The commit here is without threading, which
    [Threading] adds. *)

From Stdlib Require Import ZArith Lia.
From stdpp Require Import base list numbers gmap option sorting fin_maps.
From S2P Require Import Prelude Serdes Sha512 ShaMapKey EntryStream LedgerEntry LedgerView Directory DirectoryPage DirectorySpec.

Module ApplyState.
Import Sha512 ShaMapKey LedgerEntry LedgerView.

(** ** Ordered keys *)

Definition BinarySearchFunc (keys : list bytes) (k : bytes) : nat * bool :=
  let i := searchLoop (fun h => negb (bytesLess (keys !!! h) k)) (S (length keys)) 0 (length keys) in
  (i, (i <? length keys)%nat && bool_decide (keys !!! i = k)).

Definition Add (keys : list bytes) (k : bytes) : list bytes :=
  let '(i, found) := BinarySearchFunc keys k in if found then keys else take i keys ++ k :: drop i keys.

Definition Remove (keys : list bytes) (k : bytes) : list bytes :=
  let '(i, found) := BinarySearchFunc keys k in if found then take i keys ++ drop (S i) keys else keys.

Definition Successor (keys : list bytes) (k : bytes) : option bytes :=
  let '(i, found) := BinarySearchFunc keys k in
  let i := if found then S i else i in
  if (i =? length keys)%nat then None else Some (keys !!! i).

(** The keys of a map in ascending order. *)
Definition sortedLedgerKeys {A} (entries : gmap bytes A) : list bytes := sort_by bytesLess (map_to_list entries).*1.

(** ** Tracked entries *)

Inductive Action := ActionCache | ActionInsert | ActionModify | ActionErase.

#[export] Instance Action_eq_dec : EqDecision Action.
Proof. solve_decision. Defined.

(** [threadPrev] is what the entry had of a previous transaction when it was threaded. *)
Record TrackedEntry := mkTracked {
  Action_ : Action; Original : option bytes; Current : option bytes; reinserted : bool; threadPrev : option (bytes * Z) }.

Record ThreadedOwner := mkOwner { EntryType : Z; OldPreviousTxnID : bytes; OldPreviousTxnLgrSeq : Z; Updated : bytes }.

(** [NilRules] stands for the panic of a table without rules. *)
Inductive tableError (E : Type) := EntryExists | EntryDeleted | AlreadyDeleted | BuildError | NilRules | BaseError (e : E).
Arguments EntryExists {E}.
Arguments EntryDeleted {E}.
Arguments AlreadyDeleted {E}.
Arguments BuildError {E}.
Arguments NilRules {E}.
Arguments BaseError {E} e.

(** [bytes.Equal], for which nothing and no bytes are the same. *)
Definition equalBytes (a b : option bytes) : bool := bool_decide (default [] a = default [] b).

(** An affected node: one that a builder made, or a bare one for an entry that was only
    threaded. *)
Inductive metaNode (N : Type) :=
  | BuiltNode (n : N)
  | ThreadedNode (entryType : Z) (ledgerIndex previousTxnID : bytes) (previousTxnLgrSeq : Z).
Arguments BuiltNode {N} n.
Arguments ThreadedNode {N} entryType ledgerIndex previousTxnID previousTxnLgrSeq.

Section Table.
Context {V E : Type} `{!LedgerView V E} `{!AtomicLedgerView V E}.

Record ApplyStateTable := mkTable {
  base : V; items : gmap bytes TrackedEntry; insertedKeys : list bytes; threadOnlyOwners : gmap bytes ThreadedOwner;
  drops : Z; txHash : bytes; txSeq : Z; tableRules : option Rules_ }.

Definition NewApplyStateTable (base : V) (txHash : bytes) (txSeq : Z) (rules : option Rules_) : ApplyStateTable :=
  mkTable base ∅ [] ∅ 0 txHash txSeq rules.

Definition setBase (t : ApplyStateTable) (b : V) : ApplyStateTable :=
  mkTable b (items t) (insertedKeys t) (threadOnlyOwners t) (drops t) (txHash t) (txSeq t) (tableRules t).
Definition setItems (t : ApplyStateTable) (i : gmap bytes TrackedEntry) : ApplyStateTable :=
  mkTable (base t) i (insertedKeys t) (threadOnlyOwners t) (drops t) (txHash t) (txSeq t) (tableRules t).
Definition setKeys (t : ApplyStateTable) (ks : list bytes) : ApplyStateTable :=
  mkTable (base t) (items t) ks (threadOnlyOwners t) (drops t) (txHash t) (txSeq t) (tableRules t).

Abbreviation M := (VM ApplyStateTable (tableError E)).

(** An operation of the view below. *)
Definition onBase {A} (c : VM V E A) : M A := fun t =>
  match c (base t) with (inl e, b) => (inl (BaseError e), setBase t b) | (inr a, b) => (inr a, setBase t b) end.

Definition track (k : bytes) (e : TrackedEntry) : M unit := fun t => (inr tt, setItems t (<[k := e]> (items t))).

Definition tableRead (k : Keylet) : M (option bytes) := fun t =>
  match items t !! Key k with
  | Some e =>
      if decide (Action_ e = ActionErase) then (inr None, t)
      else if negb (MatchesKeyletType k (default [] (Current e))) then (inr None, t)
      else (inr (Current e), t)
  | None =>
      (let* data := onBase (Read k) in
       match data with
       | None => vret None
       | Some d =>
           if negb (MatchesKeyletType k d) then vret None
           else track (Key k) (mkTracked ActionCache (Some d) (Some d) false None) ;;* vret (Some d)
       end) t
  end.

Definition tableExists (k : Keylet) : M bool := fun t =>
  match items t !! Key k with
  | Some e => (inr (negb (bool_decide (Action_ e = ActionErase)) && MatchesKeyletType k (default [] (Current e))), t)
  | None => onBase (Exists_ k) t
  end.

Definition tableInsert (k : Keylet) (data : bytes) : M unit := fun t =>
  match items t !! Key k with
  | Some e =>
      if negb (bool_decide (Action_ e = ActionErase)) then (inl EntryExists, t)
      else
        let t := setItems t (<[Key k := mkTracked ActionModify (Original e) (Some data) true (threadPrev e)]> (items t)) in
        (inr tt, match Original e with None => setKeys t (Add (insertedKeys t) (Key k)) | Some _ => t end)
  | None =>
      (let* exists_ := onBase (Exists_ k) in
       if (exists_ : bool) then vfail EntryExists
       else fun t => track (Key k) (mkTracked ActionInsert None (Some data) false None) (setKeys t (Add (insertedKeys t) (Key k)))) t
  end.

Definition tableUpdate (k : Keylet) (data : bytes) : M unit := fun t =>
  match items t !! Key k with
  | Some e =>
      match Action_ e with
      | ActionErase => (inl EntryDeleted, t)
      | ActionCache => track (Key k) (mkTracked ActionModify (Original e) (Some data) (reinserted e) (threadPrev e)) t
      | a => track (Key k) (mkTracked a (Original e) (Some data) (reinserted e) (threadPrev e)) t
      end
  | None =>
      (let* original := onBase (Read k) in
       match original with
       | None => fun t => track (Key k) (mkTracked ActionInsert None (Some data) false None) (setKeys t (Add (insertedKeys t) (Key k)))
       | Some o => track (Key k) (mkTracked ActionModify (Some o) (Some data) false None)
       end) t
  end.

Definition tableErase (k : Keylet) : M unit := fun t =>
  let t := setKeys t (Remove (insertedKeys t) (Key k)) in
  match items t !! Key k with
  | Some e =>
      match Action_ e with
      | ActionErase => (inl AlreadyDeleted, t)
      | ActionInsert => (inr tt, setItems t (delete (Key k) (items t)))
      | _ => track (Key k) (mkTracked ActionErase (Original e) (Current e) (reinserted e) (threadPrev e)) t
      end
  | None =>
      (let* original := onBase (Read k) in
       track (Key k) (mkTracked ActionErase original original false None)) t
  end.

Definition IsErased (t : ApplyStateTable) (k : Keylet) : bool :=
  match items t !! Key k with Some e => bool_decide (Action_ e = ActionErase) | None => false end.

Definition tableAdjustDropsDestroyed (z : Z) : M unit := fun t =>
  (inr tt, mkTable (base t) (items t) (insertedKeys t) (threadOnlyOwners t) (addDrops (drops t) z) (txHash t) (txSeq t) (tableRules t)).

(** The changes are made to a copy, which shares the view below. *)
Definition adopt (t staged : ApplyStateTable) : ApplyStateTable :=
  mkTable (base staged) (items staged) (insertedKeys staged) (threadOnlyOwners staged) (drops staged) (txHash t) (txSeq t) (tableRules t).

Definition tableApplyAtomically (apply : M unit) : M unit := fun t =>
  match apply t with
  | (inl e, staged) => (inl e, setBase t (base staged))
  | (inr _, staged) => (inr tt, adopt t staged)
  end.

#[export] Instance Table_view : LedgerView ApplyStateTable (tableError E) := {|
  Read := tableRead; Exists_ := tableExists; Insert := tableInsert; Update := tableUpdate; Erase := tableErase; Rules := tableRules |}.

#[export] Instance Table_atomic : AtomicLedgerView ApplyStateTable (tableError E) := {|
  AdjustDropsDestroyed := tableAdjustDropsDestroyed; ApplyAtomically := tableApplyAtomically |}.

(** ** Commit *)

Section Commit.
Context {N : Type}.
Context (buildCreatedNode : ApplyStateTable -> bytes -> option bytes -> option N)
        (buildModifiedNode buildDeletedNode : ApplyStateTable -> bytes -> option bytes -> option bytes -> option N).

(** The nodes of the tracked entries. *)
Fixpoint itemNodes (t : ApplyStateTable) (keys : list bytes) : option (list (metaNode N)) :=
  match keys with
  | [] => Some []
  | k :: keys =>
      match items t !! k with
      | None => itemNodes t keys
      | Some e =>
          let add n := match n, itemNodes t keys with Some n, Some ns => Some (BuiltNode n :: ns) | _, _ => None end in
          match Action_ e with
          | ActionCache => itemNodes t keys
          | ActionInsert => add (buildCreatedNode t k (Current e))
          | ActionModify => if equalBytes (Original e) (Current e) then itemNodes t keys else add (buildModifiedNode t k (Original e) (Current e))
          | ActionErase => add (buildDeletedNode t k (Original e) (Current e))
          end
      end
  end.

(** The nodes of the entries that were only threaded. *)
Definition ownerNode (t : ApplyStateTable) (k : bytes) : list (metaNode N) :=
  match threadOnlyOwners t !! k with
  | None => []
  | Some owner =>
      let emitted := match items t !! k with
                     | None => false
                     | Some e =>
                         let noopModify := bool_decide (Action_ e = ActionModify) && equalBytes (Original e) (Current e) in
                         negb (bool_decide (Action_ e = ActionCache)) && negb noopModify
                     end in
      if emitted then []
      else if negb (isZeroHash (OldPreviousTxnID owner)) then
        [ThreadedNode (EntryType owner) k (OldPreviousTxnID owner) (OldPreviousTxnLgrSeq owner)]
      else []
  end.

Definition anyKeylet (k : bytes) : Keylet := mkKeylet LedgerEntryTypeAny k.

Fixpoint commitItems (its : gmap bytes TrackedEntry) (keys : list bytes) : VM V E unit :=
  match keys with
  | [] => vret tt
  | k :: keys =>
      (match its !! k with
       | None => vret tt
       | Some e =>
           match Action_ e with
           | ActionCache => vret tt
           | ActionInsert => Insert (anyKeylet k) (default [] (Current e))
           | ActionModify => if equalBytes (Original e) (Current e) then vret tt else Update (anyKeylet k) (default [] (Current e))
           | ActionErase => Erase (anyKeylet k)
           end
       end) ;;*
      commitItems its keys
  end.

Fixpoint commitOwners (owners : gmap bytes ThreadedOwner) (keys : list bytes) : VM V E unit :=
  match keys with
  | [] => vret tt
  | k :: keys =>
      (match owners !! k with None => vret tt | Some o => Update (anyKeylet k) (Updated o) end) ;;*
      commitOwners owners keys
  end.

Definition commit (t : ApplyStateTable) (itemKeys ownerKeys : list bytes) : VM V E unit :=
  commitItems (items t) itemKeys ;;*
  commitOwners (threadOnlyOwners t) ownerKeys ;;*
  (if 0 <? drops t then AdjustDropsDestroyed (drops t) else vret tt).

(** With [write] unset nothing is committed, as for a preview. *)
Definition applyOrdered (write : bool) (itemKeys ownerKeys : list bytes) : M (list (metaNode N)) := fun t =>
  match itemNodes t itemKeys with
  | None => (inl BuildError, t)
  | Some nodes =>
      let metadata := nodes ++ (ownerKeys ≫= ownerNode t) in
      if write then
        match ApplyAtomically (commit t itemKeys ownerKeys) (base t) with
        | (inl e, b) => (inl (BaseError e), setBase t b)
        | (inr _, b) => (inr metadata, setBase t b)
        end
      else (inr metadata, t)
  end.

Definition ApplyUnthreaded : M unit := fun t =>
  match applyOrdered true (sortedLedgerKeys (items t)) (sortedLedgerKeys (threadOnlyOwners t)) t with
  | (inl e, staged) => (inl e, setBase t (base staged))
  | (inr _, staged) => (inr tt, adopt t staged)
  end.

End Commit.

(** The number of entries inserted, modified or erased. *)
Definition Size (t : ApplyStateTable) : nat := size (filter (fun kv => Action_ kv.2 <> ActionCache) (items t)).

End Table.

(** *** The keys as a set *)

Definition ascending (keys : list bytes) : Prop := StronglySorted (fun a b => bytesLess a b = true) keys.

Lemma less_trans a b c : bytesLess a b = true -> bytesLess b c = true -> bytesLess a c = true.
Proof.
  intros H1 H2. unfold bytesLess in *. destruct (bytes_compare a b) eqn:E1; try done. destruct (bytes_compare b c) eqn:E2; try done.
  by rewrite (bytes_compare_lt_trans a b c).
Qed.

Lemma not_less a b : bytesLess a b = false -> a = b \/ bytesLess b a = true.
Proof. intros Hab. destruct (bytesLess b a) eqn:Hba; [by right|left; by apply bytesLess_total]. Qed.

Lemma ascending_app a b : ascending (a ++ b) <-> ascending a /\ ascending b /\ forall x y, x ∈ a -> y ∈ b -> bytesLess x y = true.
Proof.
  unfold ascending. induction a as [|x a IH]; cbn [app].
  - split; [intros Hb; split_and!; [constructor|done|]; intros x y Hx; by apply not_elem_of_nil in Hx|tauto].
  - split.
    + intros Hs. apply StronglySorted_inv in Hs as [Hs Hf]. apply IH in Hs as (Ha & Hb & Hab). rewrite Forall_app in Hf. destruct Hf as [Hfa Hfb].
      split_and!; [by constructor|done|]. intros z y [->|Hz]%elem_of_cons Hy; [|by apply Hab]. by eapply list.Forall_forall in Hfb.
    + intros (Ha & Hb & Hab). apply StronglySorted_inv in Ha as [Ha Hf]. constructor.
      * apply IH. split_and!; [done|done|]. intros z y Hz Hy. apply Hab; [by right|done].
      * rewrite Forall_app. split; [done|]. apply list.Forall_forall. intros y Hy. apply Hab; [left|done].
Qed.

Lemma partition_point keys k : ascending keys ->
  exists a b, keys = a ++ b /\ Forall (fun x => bytesLess x k = true) a /\ Forall (fun x => bytesLess x k = false) b.
Proof.
  induction keys as [|x keys IH]; intros Hs; [by exists [], []|]. apply StronglySorted_inv in Hs as [Hs Hf]. destruct (bytesLess x k) eqn:Hx.
  - destruct (IH Hs) as (a & b & -> & Ha & Hb). exists (x :: a), b. split_and!; [done|by constructor|done].
  - exists [], (x :: keys). split_and!; [done|constructor|]. constructor; [done|]. eapply Forall_impl; [exact Hf|]. intros y Hy. cbn in *.
    destruct (bytesLess y k) eqn:Hyk; [|done]. by rewrite (less_trans x y k) in Hx.
Qed.

Lemma search_split keys k : ascending keys ->
  exists a b, keys = a ++ b /\ Forall (fun x => bytesLess x k = true) a /\ Forall (fun x => bytesLess x k = false) b /\
    BinarySearchFunc keys k = (length a, match b with x :: _ => bool_decide (x = k) | [] => false end).
Proof.
  intros Hs. destruct (partition_point keys k Hs) as (a & b & -> & Ha & Hb). exists a, b. split_and!; [done..|]. unfold BinarySearchFunc.
  rewrite (searchLoop_spec _ (length a)).
  - f_equal. rewrite length_app. destruct b as [|x b].
    + by rewrite (proj2 (Nat.ltb_ge _ _)) by (cbn; lia).
    + rewrite (proj2 (Nat.ltb_lt _ _)) by (cbn; lia). by rewrite list_lookup_total_middle.
  - intros i Hi. rewrite lookup_total_app_l by done. eapply (Forall_lookup_total_1) in Ha; [|exact Hi]. cbn in Ha. by rewrite Ha.
  - intros i Hi. rewrite length_app in Hi. rewrite lookup_total_app_r by lia. eapply (Forall_lookup_total_1 _ _ (i - length a)) in Hb; [|lia]. cbn in Hb. by rewrite Hb.
  - rewrite length_app. lia.
  - rewrite length_app. lia.
Qed.

(** What is not below [k], the first being different from [k], is above it. *)
Lemma rest_above k x b : ascending (x :: b) -> bytesLess x k = false -> x <> k -> Forall (fun y => bytesLess k y = true) (x :: b).
Proof.
  intros Hs Hx Hne. apply StronglySorted_inv in Hs as [_ Hf]. destruct (not_less x k Hx) as [|Hkx]; [done|]. constructor; [done|].
  eapply Forall_impl; [exact Hf|]. intros y Hy. by apply (less_trans k x y).
Qed.

Lemma addKey_spec keys k : ascending keys -> ascending (Add keys k) /\ forall x, x ∈ Add keys k <-> x = k \/ x ∈ keys.
Proof.
  intros Hs. destruct (search_split keys k Hs) as (a & b & -> & Ha & Hb & Hsearch). unfold Add. rewrite Hsearch.
  assert (Hinner : (forall x b', b = x :: b' -> x <> k) -> ascending (a ++ k :: b)).
  { intros Hne. apply ascending_app in Hs as (Hsa & Hsb & Hab).
    assert (Hbk : Forall (fun y => bytesLess k y = true) b).
    { destruct b as [|x b]; [constructor|]. apply rest_above; [done| |by eapply Hne]. by apply list.Forall_cons in Hb as [? _]. }
    apply ascending_app. split_and!; [done|by constructor|]. intros x y Hx [->|Hy]%elem_of_cons; [|by apply Hab]. by eapply list.Forall_forall in Ha. }
  rewrite take_app_length, drop_app_length. destruct b as [|x b]; [|case_bool_decide as He; [subst x|]].
  - split; [by apply Hinner|]. intros x. rewrite !elem_of_app, elem_of_cons. tauto.
  - split; [done|]. intros x. rewrite !elem_of_app, elem_of_cons. tauto.
  - split; [apply Hinner; by intros ? ? [= <- _]|]. intros y. rewrite !elem_of_app, elem_of_cons. tauto.
Qed.

Lemma less_ne a b : bytesLess a b = true -> a <> b.
Proof. intros Hab ->. by rewrite less_irrefl in Hab. Qed.

Lemma removeKey_spec keys k : ascending keys -> ascending (Remove keys k) /\ forall x, x ∈ Remove keys k <-> x <> k /\ x ∈ keys.
Proof.
  intros Hs. destruct (search_split keys k Hs) as (a & b & -> & Ha & Hb & Hsearch). unfold Remove. rewrite Hsearch. pose proof Hs as (Hsa & Hsb & Hab)%ascending_app.
  assert (Hak : forall x, x ∈ a -> x <> k) by (intros x Hx; eapply list.Forall_forall in Ha; [by apply less_ne, Ha|done]).
  destruct b as [|x b]; [|case_bool_decide as He; [subst x|]].
  - split; [done|]. intros x. rewrite app_nil_r. split; [intros Hx; split; [by apply Hak|done]|tauto].
  - rewrite take_app_length. replace (drop (S (length a)) (a ++ k :: b)) with b by (change (a ++ k :: b) with (a ++ [k] ++ b); by rewrite app_assoc, drop_app_length' by (rewrite length_app; cbn; lia)).
    apply StronglySorted_inv in Hsb as [Hsb Hkb]. split.
    + apply ascending_app. split_and!; [done|done|]. intros x y Hx Hy. apply Hab; [done|by right].
    + intros x. rewrite !elem_of_app, elem_of_cons. split; [|tauto]. intros [Hx|Hx]; [split; [by apply Hak|tauto]|]. split; [|tauto].
      eapply list.Forall_forall in Hkb; [|exact Hx]. by apply not_eq_sym, less_ne.
  - split; [done|]. intros y. split; [|tauto]. intros Hy. split; [|done]. apply elem_of_app in Hy as [Hy|Hy]; [by apply Hak|].
    pose proof (rest_above k x b Hsb) as Hr. apply list.Forall_cons in Hb as [Hxk _]. specialize (Hr Hxk He). eapply list.Forall_forall in Hr; [|exact Hy]. by apply not_eq_sym, less_ne.
Qed.

(** The least key above [k]. *)
Lemma Successor_spec keys k : ascending keys ->
  match Successor keys k with
  | None => forall x, x ∈ keys -> bytesLess k x = false
  | Some s => s ∈ keys /\ bytesLess k s = true /\ forall x, x ∈ keys -> bytesLess k x = true -> bytesLess x s = false
  end.
Proof.
  intros Hs. destruct (search_split keys k Hs) as (a & b & -> & Ha & Hb & Hsearch). unfold Successor. rewrite Hsearch. pose proof Hs as (Hsa & Hsb & Hab)%ascending_app.
  assert (Hak : forall x, x ∈ a -> bytesLess k x = false) by (intros x Hx; eapply list.Forall_forall in Ha; [by apply (less_asym bytesLess)|done]).
  assert (Hfirst : forall s c, Forall (fun y => bytesLess s y = true) c -> (forall y, y ∈ s :: c -> bytesLess k y = true) ->
    s ∈ s :: c /\ bytesLess k s = true /\ forall x, x ∈ s :: c -> bytesLess x s = false).
  { intros s c Hc Hkc. split; [left|]. split; [apply Hkc; left|]. intros x [->|Hx]%elem_of_cons; [apply less_irrefl|]. eapply list.Forall_forall in Hc; [|exact Hx]. by apply (less_asym bytesLess). }
  assert (Hmid : forall s c pre, a ++ b = pre ++ s :: c -> (forall x, x ∈ pre -> bytesLess k x = false) -> ascending (s :: c) -> Forall (fun y => bytesLess k y = true) (s :: c) ->
    (a ++ b) !!! length pre = s /\ length pre <> length (a ++ b) /\ s ∈ a ++ b /\ bytesLess k s = true /\ forall x, x ∈ a ++ b -> bytesLess k x = true -> bytesLess x s = false).
  { intros s c pre -> Hpre Hsc Hkc. apply StronglySorted_inv in Hsc as [_ Hc]. destruct (Hfirst s c Hc) as (H1 & H2 & H3); [intros y Hy; by eapply list.Forall_forall in Hkc|].
    split_and!; [by rewrite list_lookup_total_middle|rewrite length_app; cbn; lia|apply elem_of_app; by right|done|].
    intros x [Hx|Hx]%elem_of_app Hkx; [by rewrite (Hpre x Hx) in Hkx|by apply H3]. }
  destruct b as [|x b]; [|case_bool_decide as He; [subst x|]].
  - rewrite length_app, Nat.add_0_r, Nat.eqb_refl. intros x. rewrite app_nil_r. apply Hak.
  - apply StronglySorted_inv in Hsb as [Hsb Hkb]. destruct b as [|s c].
    + rewrite length_app. cbn [length]. rewrite Nat.add_1_r, Nat.eqb_refl. intros x [Hx|[->|Hx%not_elem_of_nil]%elem_of_cons]%elem_of_app; [by apply Hak|apply less_irrefl|done].
    + destruct (Hmid s c (a ++ [k])) as (H1 & H2 & H3); [by rewrite <- app_assoc| |done|done|].
      { intros x [Hx|[->|Hx%not_elem_of_nil]%elem_of_cons]%elem_of_app; [by apply Hak|apply less_irrefl|done]. }
      rewrite length_app, Nat.add_1_r in H1, H2. rewrite (proj2 (Nat.eqb_neq _ _) H2), H1. done.
  - apply list.Forall_cons in Hb as [Hxk _]. destruct (Hmid x b a) as (H1 & H2 & H3); [done|done|done|by apply rest_above|]. rewrite (proj2 (Nat.eqb_neq _ _) H2), H1. done.
Qed.

(** ** The overlay *)

Section Laws.
Context {V E : Type} `{!LedgerView V E} `{!LedgerViewLaws V E} `{!AtomicLedgerView V E} `{!AtomicLedgerViewLaws V E}.

Abbreviation Table := (ApplyStateTable (V := V)).

(** What an entry shows: itself, or nothing when it is erased. *)
Definition shows (e : TrackedEntry) : option bytes := if decide (Action_ e = ActionErase) then None else Current e.

Definition overlayAt (o : option TrackedEntry) (b : option bytes) : option bytes := match o with Some e => shows e | None => b end.

(** The contents of the view below under the changes. *)
Definition overlay (t : Table) : gmap bytes bytes := merge overlayAt (items t) (contents (base t)).

Lemma overlay_lookup t k : overlay t !! k = overlayAt (items t !! k) (contents (base t) !! k).
Proof. unfold overlay. rewrite lookup_merge. by destruct (items t !! k), (contents (base t) !! k). Qed.

(** An entry agrees with the view below on what it changes. *)
Definition entryOk (m : gmap bytes bytes) (k : bytes) (e : TrackedEntry) : Prop :=
  is_key k /\ Original e = m !! k /\
  match Action_ e with
  | ActionCache => Current e = m !! k /\ is_Some (m !! k)
  | ActionInsert => m !! k = None /\ exists d, Current e = Some d /\ storable d
  | ActionModify => is_Some (m !! k) /\ exists d, Current e = Some d /\ storable d
  | ActionErase => is_Some (m !! k) /\ is_Some (Current e)
  end.

Record validTable (t : Table) : Prop := {
  vt_base : valid (base t);
  vt_items : map_Forall (entryOk (contents (base t))) (items t);
  vt_keys : StronglySorted (fun a b => bytesLess a b = true) (insertedKeys t);
  vt_inserted k : k ∈ insertedKeys t <-> exists e, items t !! k = Some e /\ Action_ e = ActionInsert;
  vt_owners : threadOnlyOwners t = ∅ }.

(** The same table over a view that has moved but holds the same. *)
Lemma setBase_valid t b : validTable t -> becomes valid contents Rules (base t) b (contents (base t)) -> validTable (setBase t b) /\ overlay (setBase t b) = overlay t.
Proof.
  intros [Hb Hi Hk Hin Ho] (Hv & Hc & _). split.
  - constructor; try done. cbn. by rewrite Hc.
  - unfold overlay. cbn. by rewrite Hc.
Qed.

Lemma track_overlay t k e : overlay (setItems t (<[k := e]> (items t))) = partial_alter (fun _ => shows e) k (overlay t).
Proof.
  apply map_eq. intros k'. rewrite overlay_lookup. cbn. destruct (decide (k = k')) as [<-|Hne].
  - by rewrite lookup_insert_eq, lookup_partial_alter_eq.
  - by rewrite lookup_insert_ne, lookup_partial_alter_ne, overlay_lookup.
Qed.

Abbreviation becomesT := (becomes validTable overlay (@tableRules V)).

(** Tracking an entry, with the keys of the insertions kept. *)
Lemma track_valid (t : Table) k e keys' :
  validTable t -> entryOk (contents (base t)) k e -> ascending keys' ->
  (forall x, x ∈ keys' <-> x = k /\ Action_ e = ActionInsert \/ x <> k /\ x ∈ insertedKeys t) ->
  becomesT t (setKeys (setItems t (<[k := e]> (items t))) keys') (partial_alter (fun _ => shows e) k (overlay t)).
Proof.
  intros [Hb Hi Hk Hin Ho] He Ha Hkeys. split_and!; [|apply (track_overlay t k e)|done]. constructor; try done.
  - by apply map_Forall_insert_2.
  - cbn. intros x. rewrite Hkeys, Hin. destruct (decide (x = k)) as [->|Hne].
    + rewrite lookup_insert_eq. split; [intros [[_ Ha']|[? _]]; [by exists e|done]|]. intros (e' & [= <-] & He'). by left.
    + rewrite lookup_insert_ne by done. split; [by intros [[? _]|[_ ?]]|]. intros Hx. by right.
Qed.

Lemma keys_kept (t : Table) k (e : TrackedEntry) : validTable t ->
  (Action_ e = ActionInsert <-> exists e', items t !! k = Some e' /\ Action_ e' = ActionInsert) ->
  forall x, x ∈ insertedKeys t <-> x = k /\ Action_ e = ActionInsert \/ x <> k /\ x ∈ insertedKeys t.
Proof.
  intros [_ _ _ Hin _] He x. destruct (decide (x = k)) as [->|Hne]; [|tauto]. rewrite He, <- Hin. tauto.
Qed.

Lemma keys_added (t : Table) k (e : TrackedEntry) : validTable t -> Action_ e = ActionInsert ->
  ascending (Add (insertedKeys t) k) /\ forall x, x ∈ Add (insertedKeys t) k <-> x = k /\ Action_ e = ActionInsert \/ x <> k /\ x ∈ insertedKeys t.
Proof.
  intros [_ _ Hs _ _] He. destruct (addKey_spec (insertedKeys t) k Hs) as [Ha Hx]. split; [done|]. intros x. rewrite Hx. destruct (decide (x = k)); tauto.
Qed.

Lemma keys_removed (t : Table) k (e : TrackedEntry) : validTable t -> Action_ e <> ActionInsert ->
  ascending (Remove (insertedKeys t) k) /\ forall x, x ∈ Remove (insertedKeys t) k <-> x = k /\ Action_ e = ActionInsert \/ x <> k /\ x ∈ insertedKeys t.
Proof.
  intros [_ _ Hs _ _] He. destruct (removeKey_spec (insertedKeys t) k Hs) as [Ha Hx]. split; [done|]. intros x. rewrite Hx. tauto.
Qed.

Lemma becomesT_trans t t1 t2 m : becomesT t t1 (overlay t) -> becomesT t1 t2 m -> becomesT t t2 m.
Proof. intros (_ & _ & Hr) (Hv & Hc & Hr'). split_and!; [done|done|congruence]. Qed.

Lemma becomesT_alter t t' k e o : shows e = o -> becomesT t t' (partial_alter (fun _ => shows e) k (overlay t)) -> becomesT t t' (partial_alter (fun _ => o) k (overlay t)).
Proof. by intros <-. Qed.

Lemma becomesT_refl t : validTable t -> becomesT t t (overlay t).
Proof. by intros Hv. Qed.

Lemma base_moves (t : Table) b : validTable t -> becomes valid contents Rules (base t) b (contents (base t)) -> becomesT t (setBase t b) (overlay t).
Proof. intros Hv Hb. destruct (setBase_valid t b Hv Hb) as [Hv' Ho]. by split_and!. Qed.

Lemma base_read (t : Table) k : validTable t -> is_key (Key k) ->
  exists b, onBase (Read k) t = (inr (visible k (contents (base t) !! Key k)), setBase t b) /\ becomes valid contents Rules (base t) b (contents (base t)).
Proof. intros Hv Hk. destruct (Read_spec (base t) k (vt_base t Hv) Hk) as (b & Hr & Hb). exists b. unfold onBase. by rewrite Hr. Qed.

Lemma partial_alter_same (m : gmap bytes bytes) k o : m !! k = o -> partial_alter (fun _ => o) k m = m.
Proof. intros <-. apply map_eq. intros k'. destruct (decide (k = k')) as [<-|Hne]; [by rewrite lookup_partial_alter_eq|by rewrite lookup_partial_alter_ne]. Qed.

Lemma tracked_ok (t : Table) k e : validTable t -> items t !! k = Some e -> entryOk (contents (base t)) k e.
Proof. intros Hv He. apply (vt_items t Hv k e He). Qed.

Lemma tableRead_spec (t : Table) k : validTable t -> is_key (Key k) ->
  exists t', tableRead k t = (inr (visible k (overlay t !! Key k)), t') /\ becomesT t t' (overlay t).
Proof.
  intros Hv Hk. unfold tableRead. rewrite overlay_lookup. destruct (items t !! Key k) as [e|] eqn:He; cbn [overlayAt].
  - exists t. split; [|by apply becomesT_refl]. unfold shows. destruct (decide (Action_ e = ActionErase)); [done|].
    destruct (tracked_ok t _ e Hv He) as (_ & _ & Ha).
    assert (Hc : is_Some (Current e)) by (destruct (Action_ e); [by destruct Ha as [-> ?]|destruct Ha as (_ & d & -> & _); by eexists..|done]).
    destruct Hc as [d ->]. cbn. by destruct (MatchesKeyletType k d).
  - destruct (base_read t k Hv Hk) as (b & Hr & Hb). pose proof (base_moves t b Hv Hb) as Hm. unfold vbind. rewrite Hr. unfold visible.
    destruct (contents (base t) !! Key k) as [d|] eqn:Hd; [|by eexists]. destruct (MatchesKeyletType k d) eqn:Hmk; [|by eexists]. rewrite Hmk. cbn [negb].
    eexists. split; [done|]. eapply becomesT_trans; [exact Hm|]. destruct Hm as (Hv1 & Ho1 & _). destruct Hb as (_ & Hc & _).
    assert (Hok : entryOk (contents (base (setBase t b))) (Key k) (mkTracked ActionCache (Some d) (Some d) false None)) by (unfold entryOk; cbn; rewrite Hc, Hd; by split_and!).
    pose proof (track_valid (setBase t b) (Key k) _ (insertedKeys t) Hv1 Hok (vt_keys _ Hv1)) as Ht. cbn [shows Action_ decide] in Ht.
    rewrite (partial_alter_same _ (Key k)) in Ht; [rewrite Ho1 in Ht; apply Ht|].
    + apply (keys_kept (setBase t b) (Key k) (mkTracked ActionCache (Some d) (Some d) false None) Hv1). cbn. rewrite He. split; [done|]. by intros (? & ? & _).
    + rewrite overlay_lookup. cbn. by rewrite He, Hc.
Qed.

Lemma tableExists_spec (t : Table) k : validTable t -> is_key (Key k) ->
  match overlay t !! Key k with
  | None => exists t', tableExists k t = (inr false, t') /\ becomesT t t' (overlay t)
  | Some d => MatchesKeyletType k d = true -> exists t', tableExists k t = (inr true, t') /\ becomesT t t' (overlay t)
  end.
Proof.
  intros Hv Hk. unfold tableExists. rewrite overlay_lookup. destruct (items t !! Key k) as [e|] eqn:He; cbn [overlayAt].
  - unfold shows. destruct (decide (Action_ e = ActionErase)) as [Ha|Ha].
    + exists t. rewrite bool_decide_eq_true_2 by done. split; [done|by apply becomesT_refl].
    + rewrite bool_decide_eq_false_2 by done. cbn [negb andb]. destruct (tracked_ok t _ e Hv He) as (_ & _ & Hok).
      assert (Hc : is_Some (Current e)) by (destruct (Action_ e); [by destruct Hok as [-> ?]|destruct Hok as (_ & d & -> & _); by eexists..|done]).
      destruct Hc as [d ->]. cbn. intros ->. exists t. split; [done|by apply becomesT_refl].
  - pose proof (Exists_spec (base t) k (vt_base t Hv) Hk) as Hx. unfold onBase.
    destruct (contents (base t) !! Key k) as [d|]; [intros Hmk; destruct (Hx Hmk) as (b & -> & Hb)|destruct Hx as (b & -> & Hb)]; exists (setBase t b); (split; [done|by apply base_moves]).
Qed.

Lemma tableInsert_spec (t : Table) k d : validTable t -> is_key (Key k) -> storable d ->
  match overlay t !! Key k with
  | None => exists t', tableInsert k d t = (inr tt, t') /\ becomesT t t' (<[Key k := d]> (overlay t))
  | Some d' => MatchesKeyletType k d' = true -> exists e t', tableInsert k d t = (inl e, t') /\ becomesT t t' (overlay t)
  end.
Proof.
  intros Hv Hk Hd. unfold tableInsert. pose proof (overlay_lookup t (Key k)) as Hl. destruct (items t !! Key k) as [e|] eqn:He; cbn [overlayAt] in Hl.
  - destruct (tracked_ok t _ e Hv He) as (_ & Hor & Hok). unfold shows in Hl. destruct (decide (Action_ e = ActionErase)) as [Ha|Ha].
    + rewrite Hl. rewrite bool_decide_eq_true_2 by done. cbn [negb]. eexists. split; [done|]. rewrite Ha in Hok. destruct Hok as [[o Ho] _]. rewrite Hor, Ho.
      apply (track_valid t (Key k) (mkTracked ActionModify (Some o) (Some d) true (threadPrev e)) (insertedKeys t)); [done| |apply Hv|].
      * unfold entryOk. cbn. rewrite Ho. split_and!; [done..|by eexists|by eexists].
      * apply keys_kept; [done|]. cbn. rewrite He. split; [done|]. intros (e' & [= <-] & Hins). by rewrite Ha in Hins.
    + rewrite bool_decide_eq_false_2 by done. cbn [negb]. rewrite Hl. destruct (Current e) as [d'|] eqn:Hcur.
      * intros _. eexists _, _. split; [done|by apply becomesT_refl].
      * exfalso. destruct (Action_ e); [destruct Hok as [Hc [x Hx]]; by rewrite Hx in Hc|destruct Hok as (_ & x & Hx & _); congruence..|done].
  - rewrite Hl. unfold vbind, onBase. pose proof (Exists_spec (base t) k (vt_base t Hv) Hk) as Hx. destruct (contents (base t) !! Key k) as [d'|] eqn:Hc.
    + intros Hmk. destruct (Hx Hmk) as (b & -> & Hb). eexists _, _. split; [done|by apply base_moves].
    + destruct Hx as (b & -> & Hb). eexists. split; [done|]. pose proof (base_moves t b Hv Hb) as Hm. eapply becomesT_trans; [exact Hm|].
      destruct Hm as (Hv1 & Ho1 & _). rewrite <- Ho1. destruct Hb as (_ & Hcb & _).
      destruct (keys_added (setBase t b) (Key k) (mkTracked ActionInsert None (Some d) false None) Hv1 eq_refl) as [Hasc Hkeys].
      apply (track_valid (setBase t b) (Key k) (mkTracked ActionInsert None (Some d) false None) (Add (insertedKeys t) (Key k))); [done| |done|done].
      unfold entryOk. cbn. rewrite Hcb, Hc. split_and!; [done..|by eexists].
Qed.

Lemma tableUpdate_spec (t : Table) k d : validTable t -> is_key (Key k) -> storable d -> is_Some (visible k (overlay t !! Key k)) ->
  exists t', tableUpdate k d t = (inr tt, t') /\ becomesT t t' (<[Key k := d]> (overlay t)).
Proof.
  intros Hv Hk Hd Hvis. unfold tableUpdate. rewrite overlay_lookup in Hvis. destruct (items t !! Key k) as [e|] eqn:He; cbn [overlayAt] in Hvis.
  - destruct (tracked_ok t _ e Hv He) as (_ & Hor & Hok). unfold shows in Hvis.
    assert (Hgen : forall a, a <> ActionErase -> (a = ActionInsert <-> Action_ e = ActionInsert) ->
      entryOk (contents (base t)) (Key k) (mkTracked a (Original e) (Some d) (reinserted e) (threadPrev e)) ->
      exists t', track (E := E) (Key k) (mkTracked a (Original e) (Some d) (reinserted e) (threadPrev e)) t = (inr tt, t') /\ becomesT t t' (<[Key k := d]> (overlay t))).
    { intros a Ha Hains Hent. eexists. split; [done|].
      apply (becomesT_alter t _ (Key k) (mkTracked a (Original e) (Some d) (reinserted e) (threadPrev e)) (Some d)); [unfold shows; cbn; by rewrite decide_False|].
      apply track_valid; [done|done|apply Hv|]. apply keys_kept; [done|]. cbn [Action_]. rewrite Hains, He. split; [intros Hx; by exists e|]. by intros (e' & [= <-] & Hx). }
    destruct (Action_ e) eqn:Ha; [..|by destruct Hvis].
    + destruct Hok as [_ Hsome]. apply Hgen; [done|done|]. split_and!; [done|done|]. cbn. split; [done|by eexists].
    + destruct Hok as [Hnone _]. apply Hgen; [done|done|]. split_and!; [done|done|]. cbn. split; [done|by eexists].
    + destruct Hok as [Hsome _]. apply Hgen; [done|done|]. split_and!; [done|done|]. cbn. split; [done|by eexists].
  - destruct (base_read t k Hv Hk) as (b & Hr & Hb). pose proof (base_moves t b Hv Hb) as Hm. unfold vbind. rewrite Hr. destruct Hvis as [o Hvis]. rewrite Hvis.
    assert (Ho : contents (base t) !! Key k = Some o) by (unfold visible in Hvis; destruct (contents (base t) !! Key k) as [x|]; [by destruct (MatchesKeyletType k x); simplify_eq|done]).
    eexists. split; [done|]. eapply becomesT_trans; [exact Hm|]. destruct Hm as (Hv1 & Ho1 & _). rewrite <- Ho1. destruct Hb as (_ & Hcb & _).
    apply (track_valid (setBase t b) (Key k) (mkTracked ActionModify (Some o) (Some d) false None) (insertedKeys t)); [done| |apply Hv1|].
    + unfold entryOk. cbn. rewrite Hcb, Ho. split_and!; [done..|by eexists|by eexists].
    + apply (keys_kept (setBase t b) (Key k) (mkTracked ActionModify (Some o) (Some d) false None) Hv1). cbn. rewrite He. split; [done|]. by intros (? & ? & _).
Qed.

Lemma tableErase_spec (t : Table) k : validTable t -> is_key (Key k) -> is_Some (visible k (overlay t !! Key k)) ->
  exists t', tableErase k t = (inr tt, t') /\ becomesT t t' (delete (Key k) (overlay t)).
Proof.
  intros Hv Hk Hvis. unfold tableErase. rewrite overlay_lookup in Hvis. change (items (setKeys t (Remove (insertedKeys t) (Key k)))) with (items t).
  destruct (items t !! Key k) as [e|] eqn:He; cbn [overlayAt] in Hvis.
  - destruct (tracked_ok t _ e Hv He) as (_ & Hor & Hok). unfold shows in Hvis.
    assert (Hgen : is_Some (contents (base t) !! Key k) -> is_Some (Current e) ->
      exists t', track (E := E) (Key k) (mkTracked ActionErase (Original e) (Current e) (reinserted e) (threadPrev e)) (setKeys t (Remove (insertedKeys t) (Key k))) = (inr tt, t') /\
        becomesT t t' (delete (Key k) (overlay t))).
    { intros Hsome Hcur. eexists. split; [done|]. destruct (keys_removed t (Key k) (mkTracked ActionErase (Original e) (Current e) (reinserted e) (threadPrev e)) Hv ltac:(done)) as [Hasc Hkeys].
      apply (track_valid t (Key k) (mkTracked ActionErase (Original e) (Current e) (reinserted e) (threadPrev e)) _ Hv); [by split_and!|done|done]. }
    destruct (Action_ e) eqn:Ha; [| | |by destruct Hvis].
    + destruct Hok as [Hc Hsome]. apply Hgen; [done|]. by rewrite Hc.
    + destruct Hok as [Hnone _]. eexists. split; [done|]. split_and!; [|apply map_eq; intros x; rewrite overlay_lookup; cbn|done].
      * destruct (removeKey_spec (insertedKeys t) (Key k) (vt_keys t Hv)) as [Hasc Hx]. destruct Hv as [Hb Hi Hs Hin Ho]. constructor; cbn; try done.
        -- by apply map_Forall_delete.
        -- intros x. rewrite Hx, Hin. destruct (decide (x = Key k)) as [->|Hne]; [rewrite lookup_delete_eq; split; [tauto|by intros (? & ? & _)]|]. rewrite lookup_delete_ne by done. tauto.
      * destruct (decide (x = Key k)) as [->|Hne]; [by rewrite !lookup_delete_eq|]. by rewrite !lookup_delete_ne, overlay_lookup by done.
    + destruct Hok as [Hsome (d & Hd & _)]. apply Hgen; [done|]. by rewrite Hd.
  - assert (Hv0 : validTable (setKeys t (Remove (insertedKeys t) (Key k)))).
    { destruct (removeKey_spec (insertedKeys t) (Key k) (vt_keys t Hv)) as [Hasc Hx]. destruct Hv as [Hb Hi Hs Hin Ho]. constructor; cbn; try done. intros x. rewrite Hx, Hin.
      destruct (decide (x = Key k)) as [->|Hne]; [rewrite He; split; [tauto|by intros (? & ? & _)]|tauto]. }
    destruct (base_read _ k Hv0 Hk) as (b & Hr & Hb). pose proof (base_moves _ b Hv0 Hb) as Hm. unfold vbind. rewrite Hr. cbn [base setKeys] in *. destruct Hvis as [o Hvis]. rewrite Hvis.
    assert (Ho : contents (base t) !! Key k = Some o) by (unfold visible in Hvis; destruct (contents (base t) !! Key k) as [x|]; [by destruct (MatchesKeyletType k x); simplify_eq|done]).
    eexists. split; [done|]. destruct Hm as (Hv1 & Ho1 & Hr1). destruct Hb as (_ & Hcb & _). change (overlay t) with (overlay (setKeys t (Remove (insertedKeys t) (Key k)))). rewrite <- Ho1.
    eapply (becomesT_trans _ (setBase (setKeys t (Remove (insertedKeys t) (Key k))) b)); [by split_and!|].
    apply (track_valid _ (Key k) (mkTracked ActionErase (Some o) (Some o) false None) (Remove (insertedKeys t) (Key k)) Hv1); [|apply Hv1|].
    + unfold entryOk. cbn. rewrite Hcb, Ho. by split_and!.
    + apply (keys_kept (setBase (setKeys t (Remove (insertedKeys t) (Key k))) b) (Key k) (mkTracked ActionErase (Some o) (Some o) false None) Hv1). cbn. rewrite He. split; [done|]. by intros (? & ? & _).
Qed.

#[export] Instance Table_laws : LedgerViewLaws Table (tableError E) := {|
  valid := validTable; contents := overlay; Read_spec := tableRead_spec; Exists_spec := tableExists_spec; Insert_spec := tableInsert_spec;
  Update_spec := tableUpdate_spec; Erase_spec := tableErase_spec |}.

(** ** The commit *)

Definition commitMap (its : gmap bytes TrackedEntry) (keys : list bytes) (m : gmap bytes bytes) : gmap bytes bytes :=
  foldl (fun m k => partial_alter (overlayAt (its !! k)) k m) m keys.

Lemma commitMap_lookup its keys m k : NoDup keys -> commitMap its keys m !! k = if decide (k ∈ keys) then overlayAt (its !! k) (m !! k) else m !! k.
Proof.
  intros Hnd. revert m. induction Hnd as [|x keys Hx Hnd IH]; intros m; [by rewrite decide_False by apply not_elem_of_nil|]. cbn. fold (commitMap its keys (partial_alter (overlayAt (its !! x)) x m)).
  rewrite IH. destruct (decide (k = x)) as [->|Hne].
  - rewrite decide_False by done. rewrite decide_True by left. by rewrite lookup_partial_alter_eq.
  - rewrite lookup_partial_alter_ne by done. destruct (decide (k ∈ keys)) as [Hk|Hk]; [by rewrite decide_True by (by right)|]. rewrite decide_False; [done|]. by intros [->|?]%elem_of_cons.
Qed.

Lemma visible_any k o : visible (anyKeylet k) o = o.
Proof. by destruct o. Qed.

(** One entry is written as it shows. *)
Lemma commitItem_spec (its : gmap bytes TrackedEntry) k e (s : V) :
  valid s -> its !! k = Some e -> entryOk (contents s) k e ->
  exists s', (match Action_ e with
              | ActionCache => vret tt
              | ActionInsert => Insert (anyKeylet k) (default [] (Current e))
              | ActionModify => if equalBytes (Original e) (Current e) then vret tt else Update (anyKeylet k) (default [] (Current e))
              | ActionErase => Erase (anyKeylet k)
              end) s = (inr tt, s') /\ becomes valid contents Rules s s' (partial_alter (fun _ => shows e) k (contents s)) /\ destroyed s' = destroyed s.
Proof.
  intros Hs He (Hk & Hor & Hok). unfold shows.
  assert (Hsame : forall o, contents s !! k = o -> exists s', vret (E := E) tt s = (inr tt, s') /\ becomes valid contents Rules s s' (partial_alter (fun _ => o) k (contents s)) /\ destroyed s' = destroyed s).
  { intros o Ho. exists s. split; [done|]. split; [|done]. by rewrite (partial_alter_same _ k o). }
  destruct (Action_ e) eqn:Ha; cbn [decide decide_rel Action_eq_dec].
  - destruct Hok as [Hc _]. by apply Hsame.
  - destruct Hok as (Hnone & d & Hd & Hst). rewrite Hd. cbn. pose proof (Insert_spec s (anyKeylet k) d Hs Hk Hst) as Hi. cbn in Hi. rewrite Hnone in Hi. destruct Hi as (s' & Hi & Hb).
    exists s'. split_and!; [done|exact Hb|]. pose proof (Insert_drops s (anyKeylet k) d) as Hdr. by rewrite Hi in Hdr.
  - destruct Hok as ([o Ho] & d & Hd & Hst). rewrite Hor, Ho, Hd. unfold equalBytes. cbn. case_bool_decide as Heq; [apply Hsame; by rewrite Ho, Heq|].
    destruct (Update_spec s (anyKeylet k) d Hs Hk Hst) as (s' & Hu & Hb); [rewrite visible_any; cbn; by rewrite Ho|]. exists s'. split_and!; [done|exact Hb|].
    pose proof (Update_drops s (anyKeylet k) d) as Hdr. by rewrite Hu in Hdr.
  - destruct Hok as (Hsome & _). destruct (Erase_spec s (anyKeylet k) Hs Hk) as (s' & Hu & Hb); [by rewrite visible_any|]. exists s'. split_and!; [done|exact Hb|].
    pose proof (Erase_drops s (anyKeylet k)) as Hdr. by rewrite Hu in Hdr.
Qed.

Lemma becomes_trans (s s1 s2 : V) m1 m2 : becomes valid contents Rules s s1 m1 -> becomes valid contents Rules s1 s2 m2 -> becomes valid contents Rules s s2 m2.
Proof. intros (_ & _ & Hr) (Hv & Hc & Hr'). split_and!; [done|done|congruence]. Qed.

Lemma entryOk_lookup (m m' : gmap bytes bytes) k e : m' !! k = m !! k -> entryOk m k e -> entryOk m' k e.
Proof. unfold entryOk. by intros ->. Qed.

Lemma commitItems_spec (its : gmap bytes TrackedEntry) keys (s : V) :
  valid s -> NoDup keys -> (forall k, k ∈ keys -> exists e, its !! k = Some e /\ entryOk (contents s) k e) ->
  exists s', commitItems its keys s = (inr tt, s') /\ becomes valid contents Rules s s' (commitMap its keys (contents s)) /\ destroyed s' = destroyed s.
Proof.
  intros Hs Hnd. revert s Hs. induction Hnd as [|k keys Hk Hnd IH]; intros s Hs Hall; [by exists s|]. destruct (Hall k ltac:(left)) as (e & He & Hok).
  destruct (commitItem_spec its k e s Hs He Hok) as (s1 & Hs1 & Hb1 & Hd1). cbn [commitItems]. unfold vbind. rewrite He, Hs1. pose proof Hb1 as (Hv1 & Hc1 & _).
  destruct (IH s1 Hv1) as (s' & Hs' & Hb' & Hd').
  - intros x Hx. destruct (Hall x ltac:(by right)) as (e' & He' & Hok'). exists e'. split; [done|]. eapply entryOk_lookup; [|exact Hok']. rewrite Hc1, lookup_partial_alter_ne; [done|]. by intros ->.
  - exists s'. split_and!; [done| |congruence]. rewrite Hc1 in Hb'. cbn. rewrite He. eapply becomes_trans; [exact Hb1|exact Hb'].
Qed.

(** Threaded owners are existing entries. *)
Definition ownersOk (m : gmap bytes bytes) (owners : gmap bytes ThreadedOwner) : Prop :=
  map_Forall (fun k o => is_key k /\ is_Some (m !! k) /\ storable (Updated o)) owners.

Lemma commitOwners_spec (owners : gmap bytes ThreadedOwner) keys (s : V) :
  valid s -> ownersOk (contents s) owners -> (forall k, k ∈ keys -> is_Some (owners !! k)) ->
  exists s' m', commitOwners owners keys s = (inr tt, s') /\ becomes valid contents Rules s s' m' /\ destroyed s' = destroyed s /\
    forall k, m' !! k = if decide (k ∈ keys) then Updated <$> owners !! k else contents s !! k.
Proof.
  revert s. induction keys as [|k keys IH]; intros s Hs Hok Hall.
  { exists s, (contents s). split_and!; [done..|]. intros k. by rewrite decide_False by apply not_elem_of_nil. }
  destruct (Hall k ltac:(left)) as [o Ho]. destruct (Hok k o Ho) as (Hk & Hin & Hst). destruct (Update_spec s (anyKeylet k) (Updated o) Hs Hk Hst) as (s1 & Hu & Hb1); [by rewrite visible_any|].
  pose proof Hb1 as (Hv1 & Hc1 & _). cbn in Hc1. destruct (IH s1 Hv1) as (s' & m' & Hs' & Hb' & Hd' & Hm').
  - intros x ox Hx. destruct (Hok x ox Hx) as (Hkx & Hinx & Hstx). split_and!; [done| |done]. rewrite Hc1, lookup_insert. by case_decide.
  - intros x Hx. apply Hall. by right.
  - exists s', m'. cbn [commitOwners]. unfold vbind. rewrite Ho, Hu. split_and!; [done|by eapply becomes_trans| |].
    + rewrite Hd'. pose proof (Update_drops s (anyKeylet k) (Updated o)) as Hdr. by rewrite Hu in Hdr.
    + intros x. rewrite Hm', Hc1. destruct (decide (x ∈ keys)) as [Hx|Hx]; [by rewrite decide_True by (by right)|]. rewrite lookup_insert. case_decide as Hkx.
      * rewrite decide_True by (subst; left). by rewrite <- Hkx, Ho.
      * rewrite decide_False; [done|]. intros [->|?]%elem_of_cons; done.
Qed.

Lemma sortedKeys_spec {A} (m : gmap bytes A) : NoDup (sortedLedgerKeys m) /\ forall k, k ∈ sortedLedgerKeys m <-> is_Some (m !! k).
Proof.
  assert (Hp : sortedLedgerKeys m ≡ₚ (map_to_list m).*1) by apply sort_by_perm. split.
  - rewrite Hp. apply NoDup_fst_map_to_list.
  - intros k. rewrite Hp, list_elem_of_fmap. split.
    + intros ([k' x] & -> & Hx%elem_of_map_to_list). by exists x.
    + intros [x Hx]. exists (k, x). split; [done|by apply elem_of_map_to_list].
Qed.

Definition adjusted (before drops : Z) : Z := if 0 <? drops then addDrops before drops else before.

(** What a commit leaves: the threaded owners over the changes over what was there. *)
Definition committed (t : Table) : gmap bytes bytes := (Updated <$> threadOnlyOwners t) ∪ overlay t.

Lemma commitMap_overlay (t : Table) : commitMap (items t) (sortedLedgerKeys (items t)) (contents (base t)) = overlay t.
Proof.
  destruct (sortedKeys_spec (items t)) as [Hnd Hin]. apply map_eq. intros k. rewrite commitMap_lookup by done. rewrite overlay_lookup. case_decide as Hk; [done|].
  rewrite Hin in Hk. by destruct (items t !! k) as [e|]; [destruct Hk; eexists|].
Qed.

Lemma commit_spec (t : Table) (s : V) :
  map_Forall (entryOk (contents (base t))) (items t) -> ownersOk (overlay t) (threadOnlyOwners t) -> valid s -> contents s = contents (base t) ->
  exists s', commit t (sortedLedgerKeys (items t)) (sortedLedgerKeys (threadOnlyOwners t)) s = (inr tt, s') /\
    becomes valid contents Rules s s' (committed t) /\ destroyed s' = adjusted (destroyed s) (drops t).
Proof.
  intros Hi Ho Hs Hc. destruct (sortedKeys_spec (items t)) as [Hnd Hin]. destruct (sortedKeys_spec (threadOnlyOwners t)) as [_ Hino].
  destruct (commitItems_spec (items t) _ s Hs Hnd) as (s1 & Hs1 & Hb1 & Hd1).
  { intros k [e He]%Hin. exists e. split; [done|]. rewrite Hc. by apply Hi. }
  rewrite Hc, commitMap_overlay in Hb1. pose proof Hb1 as (Hv1 & Hc1 & _).
  destruct (commitOwners_spec (threadOnlyOwners t) (sortedLedgerKeys (threadOnlyOwners t)) s1 Hv1) as (s2 & m2 & Hs2 & Hb2 & Hd2 & Hm2); [by rewrite Hc1|intros k; apply Hino|].
  assert (Hm : m2 = committed t).
  { apply map_eq. intros k. rewrite Hm2, Hc1. unfold committed. rewrite lookup_union, lookup_fmap. case_decide as Hk.
    - apply Hino in Hk as [o ->]. cbn. by destruct (overlay t !! k).
    - rewrite Hino in Hk. destruct (threadOnlyOwners t !! k); [by destruct Hk|]. cbn. by destruct (overlay t !! k). }
  subst m2. unfold commit, vbind. rewrite Hs1, Hs2. pose proof Hb2 as (Hv2 & Hc2 & _). pose proof (becomes_trans _ _ _ _ _ Hb1 Hb2) as Hb. unfold adjusted.
  destruct (0 <? drops t).
  - destruct (Adjust_spec s2 (drops t) Hv2) as (s3 & -> & Hb3 & Hd3). exists s3. split_and!; [done| |congruence]. rewrite Hc2 in Hb3. by eapply becomes_trans.
  - exists s2. split_and!; [done|done|congruence].
Qed.

Section Builders.
Context {N : Type}.
Context (created : Table -> bytes -> option bytes -> option N) (modified deleted : Table -> bytes -> option bytes -> option bytes -> option N).

Lemma applyOrdered_spec (t : Table) :
  valid (base t) -> map_Forall (entryOk (contents (base t))) (items t) -> ownersOk (overlay t) (threadOnlyOwners t) ->
  match itemNodes created modified deleted t (sortedLedgerKeys (items t)) with
  | None => applyOrdered created modified deleted true (sortedLedgerKeys (items t)) (sortedLedgerKeys (threadOnlyOwners t)) t = (inl BuildError, t)
  | Some nodes => exists b,
      applyOrdered created modified deleted true (sortedLedgerKeys (items t)) (sortedLedgerKeys (threadOnlyOwners t)) t =
        (inr (nodes ++ (sortedLedgerKeys (threadOnlyOwners t) ≫= ownerNode t)), setBase t b) /\
      becomes valid contents Rules (base t) b (committed t) /\ destroyed b = adjusted (destroyed (base t)) (drops t)
  end.
Proof.
  intros Hb Hi Ho. unfold applyOrdered. destruct (itemNodes _ _ _ t _) as [nodes|]; [|done].
  destruct (Atomic_spec (base t) (commit t (sortedLedgerKeys (items t)) (sortedLedgerKeys (threadOnlyOwners t))) Hb) as (s & (Hs & Hc & Hr) & Hd & Hat).
  destruct (commit_spec t s Hi Ho Hs Hc) as (s' & Hs' & (Hv' & Hc' & Hr') & Hd'). rewrite Hs' in Hat.
  destruct Hat as (b & -> & Hbb & Hdb); [split_and!; [done|done|congruence]|]. exists b. rewrite Hc' in Hbb. split_and!; [done|done|congruence].
Qed.

End Builders.

End Laws.

End ApplyState.
