(* ===== verification/DirectoryCommit.v ===== *)
(** * Directories of a transaction, committed (internal/ledger/state, internal/tx/applystate)

    A transaction changes directories in its table of changes, which is a view over the
    ledger; the table is then applied. The laws of views carry the directory theorems to
    the table, and the commit carries the table's overlay to the ledger, so the ledger's
    directory afterwards is the one the transaction saw. *)

From Stdlib Require Import ZArith Lia.
From stdpp Require Import base list numbers gmap strings.
From S2P Require Import Prelude Sha512 ShaMapKey ShaMapNode ShaMap ShaMapRefine LedgerEntry LedgerView LedgerHeader Ledger SkipList LedgerChain Directory DirectoryPage DirectorySpec DirectoryRemove DirectoryHistory ApplyState.

Module DirectoryCommit.
Import Sha512 ShaMapKey ShaMapNode ShaMap ShaMapRefine LedgerEntry LedgerView LedgerHeader Ledger Directory DirectoryPage DirectorySpec DirectoryRemove DirectoryHistory ApplyState.

Section Commit.
Context `{Hasher} {V E : Type} `{!LedgerView V E} `{!LedgerViewLaws V E} `{!AtomicLedgerView V E} `{!AtomicLedgerViewLaws V E}.
Context {N : Type} (created : ApplyStateTable (V := V) -> bytes -> option bytes -> option N)
  (modified deleted : ApplyStateTable (V := V) -> bytes -> option bytes -> option bytes -> option N).
Variable R : bytes.
Hypothesis HR : is_key R.
Hypothesis HK : pagesDistinct R.

Abbreviation dirKey := (mkKeylet TypeDirectoryNode R).
Abbreviation Table := (ApplyStateTable (V := V)).

Lemma new_valid (b : V) txHash txSeq rl : valid b -> validTable (NewApplyStateTable b txHash txSeq rl) /\ overlay (NewApplyStateTable b txHash txSeq rl) = contents b.
Proof.
  intros Hb. split.
  - constructor; try done; [constructor|]. cbn. intros k. split; [by intros ?%not_elem_of_nil|]. intros (e & He & _). by rewrite lookup_empty in He.
  - apply map_eq. intros k. rewrite overlay_lookup. cbn. by rewrite lookup_empty.
Qed.

(** Applying a table with nothing threaded. *)
Lemma unthreaded_spec (t : Table) : validTable t ->
  match ApplyUnthreaded created modified deleted t with
  | (inl err, t') => err = BuildError /\ t' = t
  | (inr _, t') => becomes valid contents Rules (base t) (base t') (overlay t) /\ destroyed (base t') = adjusted (destroyed (base t)) (drops t)
  end.
Proof.
  intros [Hb Hi _ _ Ho]. pose proof (applyOrdered_spec created modified deleted t Hb Hi) as Hs. rewrite Ho in Hs. specialize (Hs (map_Forall_empty _)).
  unfold ApplyUnthreaded. rewrite Ho. destruct (itemNodes created modified deleted t _) as [nodes|].
  - destruct Hs as (b & -> & Hbec & Hd). cbn. assert (Hc : committed t = overlay t) by (unfold committed; by rewrite Ho, fmap_empty, (left_id_L ∅ (∪))). by rewrite Hc in Hbec.
  - rewrite Hs. split; [done|]. by destruct t.
Qed.

(** C3: A transaction runs any history of insertions and removals in a directory in its
    table of changes and then applies the table: no operation fails, a full directory
    aside. Either a metadata node cannot be built and the ledger is as it was, or the
    ledger below has, in one step, a directory from which every item still in it can be
    removed by the page recorded for it and in which iteration visits those items once
    each; what is not a page of the directory is unchanged, and the drops the table counted
    are added to those destroyed. *)
Theorem history_committed (b : V) txHash txSeq rl (ops : list dirOp) :
  Forall opOk ops -> valid b -> represents R (contents b) [] ->
  let '(live, ok, t) := runOps R ops ∅ (NewApplyStateTable b txHash txSeq rl) in
  ok = true /\
  match ApplyUnthreaded created modified deleted t with
  | (inl err, t') => err = BuildError /\ t' = t
  | (inr _, t') =>
      valid (base t') /\ othersKept R (contents b) (contents (base t')) /\ destroyed (base t') = adjusted (destroyed (base t)) (drops t) /\
      (forall item n keepRoot, live !! item = Some n -> exists r v, DirRemove dirKey n item keepRoot (base t') = (inr r, v) /\ Success r = true) /\
      exists fuel, forall fuel', (fuel <= fuel')%nat -> exists items v,
        DirForEach (F := unit) (fun x s => (None, s ++ [x])) fuel' dirKey [] (base t') = (inr (None, items), v) /\ items ≡ₚ fst <$> map_to_list live
  end.
Proof.
  intros Hops Hb Hrep. destruct (new_valid b txHash txSeq rl Hb) as [Hv0 Ho0].
  assert (Hrec : recorded R rl (contents b) ∅ (NewApplyStateTable b txHash txSeq rl)).
  { exists (contents b), []. split_and!; [by split_and!|done|apply othersKept_refl|by rewrite map_to_list_empty]. }
  pose proof (runOps_recorded R HR HK rl (contents b) ops ∅ _ Hops Hrec) as Hrun. destruct (runOps R ops ∅ _) as [[live ok] t]. destruct Hrun as [-> (m & ps & (Hvt & Hm & _) & Hrep' & Ho & Hp)].
  split; [done|]. pose proof (unthreaded_spec t Hvt) as Hs. destruct (ApplyUnthreaded created modified deleted t) as [[err|u] t']; [done|].
  destruct Hs as [(Hv' & Hc' & Hr') Hd]. cbn in Hm. rewrite Hm in Hc'.
  assert (Hrec' : recorded R (Rules (base t')) (contents b) live (base t')) by (exists m, ps; by split_and!).
  split_and!; [done|by rewrite Hc'|done| |].
  - intros item n keepRoot Hl. destruct (remove_recorded R HR HK (Rules (base t')) (contents b) live (base t') item n keepRoot) as (r & v & Hdel & Hsu & _); [by eapply recorded_uint|done|done|]. by exists r, v.
  - exists (length ps). intros fuel' Hf. destruct (forEach_exact R HR (F := unit) (fun x s => (None, s ++ [x])) m (Rules (base t')) ps fuel' [] Hrep' Hf (base t')) as (v & He & _); [by split_and!|].
    rewrite visitAll_collect in He. eexists _, v. split; [exact He|]. cbn. by rewrite <- flat_items, Hp.
Qed.

End Commit.

(** ** A history over a ledger *)

Section Example.
#[local] Existing Instance tailHasher.

Definition exampleTable : ApplyStateTable (V := Ledger) := NewApplyStateTable exampleLedger zeroHash 2 (Some (fun _ => true)).

Lemma history_committed_witness :
  let '(live, ok, t) := runOps exampleRoot exampleOps ∅ exampleTable in
  ok = true /\
  match ApplyUnthreaded (fun _ _ _ => Some tt) (fun _ _ _ _ => Some tt) (fun _ _ _ _ => Some tt) t with
  | (inl err, t') => err = BuildError /\ t' = t
  | (inr _, t') => valid (base t')
  end.
Proof.
  destruct exampleLedger_valid as [Hv Hc].
  pose proof (history_committed (V := Ledger) (E := ledgerError) (fun _ _ _ => Some tt) (fun _ _ _ _ => Some tt) (fun _ _ _ _ => Some tt) exampleRoot exampleRoot_key examplePages
    exampleLedger zeroHash 2 (Some (fun _ => true)) exampleOps exampleOps_ok Hv ltac:(rewrite Hc; exact exampleNoPages)) as Hh. fold exampleTable in Hh.
  destruct (runOps exampleRoot exampleOps ∅ exampleTable) as [[live ok] t]. destruct Hh as [Hok Hh]. split; [exact Hok|].
  destruct (ApplyUnthreaded _ _ _ t) as [[err|u] t']; [exact Hh|apply Hh].
Defined.

End Example.

End DirectoryCommit.
