(* ===== verification/Threading.v ===== *)
(** * Threading of transactions (internal/tx/applystate/threading.go, apply_state_table.go)

    Before a table of changes is committed, the entries it created or changed, and the
    accounts that own what it created or deleted, are stamped with the transaction. The
    typed entries are used through the interface that the code asserts of them,
    [EntryCodec]; the codec of the entries in ledger/entry implements it. *)

From Stdlib Require Import ZArith Lia.
From stdpp Require Import base list numbers gmap option strings fin_maps.
From S2P Require Import Prelude Serdes Sha512 ShaMapKey ShaMapNode ShaMap ShaMapRefine EntryStream LedgerEntry LedgerView LedgerHeader Ledger Directory DirectoryPage DirectorySpec ApplyState.

Module Threading.
Import Sha512 ShaMapKey LedgerEntry LedgerView LedgerHeader ApplyState.

(** ** Types of entries that are threaded *)

Definition TypeAccountRoot : Z := 0x0061.
Definition TypeAmendments : Z := 0x0066.
Definition TypeFeeSettings : Z := 0x0073.
Definition TypeNegativeUNL : Z := 0x004E.
Definition TypeAMM : Z := 0x0079.
Definition TypeRippleState : Z := 0x0072.

Definition FeatureFixPreviousTxnID : string := "fixPreviousTxnID".

Definition conditionalThreadingTypes : list Z := [TypeDirectoryNode; TypeAmendments; TypeFeeSettings; TypeNegativeUNL; TypeAMM].

Definition nonThreadedTypes : list Z := [TypeLedgerHashes].

Definition isThreadedType (entryType : Z) (fixPreviousTxnIDEnabled : bool) : bool :=
  if bool_decide (entryType ∈ nonThreadedTypes) then false
  else if bool_decide (entryType ∈ conditionalThreadingTypes) then fixPreviousTxnIDEnabled
  else true.

(** ** Typed entries *)

(** [entry.New] with the methods of what it makes. [threadable] says which types have the
    accessors of the previous transaction. The accounts are absent when the type has no
    such field, the field is not there or its value is no account. *)
Class EntryCodec (X : Type) := {
  DecodeEntry : Z -> bytes -> option X;
  EncodeEntry : X -> option bytes;
  threadable : Z -> bool;
  HasPreviousTxnID : X -> bool;
  GetPreviousTxnID : X -> option bytes;
  GetPreviousTxnLgrSeq : X -> Z;
  SetPreviousTxn : bytes -> Z -> X -> X;
  accountOf : X -> option bytes;
  destinationOf : X -> option bytes;
  lowIssuer : X -> option bytes;
  highIssuer : X -> option bytes }.

(** What is set is what is read back, other fields stay, and a decoded entry that was
    stamped can be decoded again from its encoding, which can be stored. *)
Class EntryCodecLaws (X : Type) `{!EntryCodec X} : Prop := {
  has_stamp h n (x : X) : HasPreviousTxnID (SetPreviousTxn h n x) = true;
  get_stamp h n (x : X) : GetPreviousTxnID (SetPreviousTxn h n x) = Some h;
  stamp_account h n (x : X) : accountOf (SetPreviousTxn h n x) = accountOf x;
  stamp_destination h n (x : X) : destinationOf (SetPreviousTxn h n x) = destinationOf x;
  stamp_low h n (x : X) : lowIssuer (SetPreviousTxn h n x) = lowIssuer x;
  stamp_high h n (x : X) : highIssuer (SetPreviousTxn h n x) = highIssuer x;
  stamp_codec typ d h n (x : X) b : is_key h -> is_uint 32 n -> storable d -> DecodeType d = Some typ -> threadable typ = true ->
    DecodeEntry typ d = Some x -> EncodeEntry (SetPreviousTxn h n x) = Some b ->
    storable b /\ DecodeType b = Some typ /\ DecodeEntry typ b = Some (SetPreviousTxn h n x) }.

Section Threading.
Context `{Hasher} {X : Type} `{!EntryCodec X} {V E : Type} `{!LedgerView V E} `{!AtomicLedgerView V E}.

Abbreviation Table := (ApplyStateTable (V := V)).
Abbreviation M := (VM Table (tableError E)).

Definition spaceAccount : Z := 97.

Definition Account (accountID : bytes) : Keylet := mkKeylet TypeAccountRoot (indexHash spaceAccount [accountID]).

(** The previous transaction and ledger, the entry with this one, and whether it changed. *)
Definition threadItem (data txHash : bytes) (ledgerSeq : Z) : bytes * Z * bytes * bool :=
  match DecodeType data with
  | None => (zeroHash, 0, data, false)
  | Some typ =>
      if negb (threadable typ) then (zeroHash, 0, data, false)
      else
        match DecodeEntry typ data with
        | None => (zeroHash, 0, data, false)
        | Some decoded =>
            match (if HasPreviousTxnID decoded then GetPreviousTxnID decoded else Some zeroHash) with
            | None => (zeroHash, 0, data, false)
            | Some prevTxnID =>
                let prevLgrSeq := GetPreviousTxnLgrSeq decoded in
                if bool_decide (prevTxnID = txHash) then (prevTxnID, prevLgrSeq, data, false)
                else
                  match EncodeEntry (SetPreviousTxn txHash ledgerSeq decoded) with
                  | None => (prevTxnID, prevLgrSeq, data, false)
                  | Some newData => (prevTxnID, prevLgrSeq, newData, true)
                  end
            end
        end
  end.

Definition getOwnerAccounts (data : bytes) (entryType : Z) : list bytes :=
  match DecodeEntry entryType data with
  | None => []
  | Some decoded =>
      if entryType =? TypeAccountRoot then []
      else if entryType =? TypeRippleState then option_list (lowIssuer decoded) ++ option_list (highIssuer decoded)
      else option_list (accountOf decoded) ++ option_list (destinationOf decoded)
  end.

Definition setOwners (t : Table) (o : gmap bytes ThreadedOwner) : Table :=
  mkTable (base t) (items t) (insertedKeys t) o (drops t) (txHash t) (txSeq t) (tableRules t).

(** The owner is rewritten without being tracked. *)
Definition threadOnly (k data : bytes) (t : Table) : Table :=
  let '(oldPrev, oldPrevSeq, newData, changed) := threadItem data (txHash t) (txSeq t) in
  if negb changed then t
  else
    match DecodeType data with
    | None => t
    | Some ownerType => setOwners t (<[k := mkOwner ownerType oldPrev oldPrevSeq newData]> (threadOnlyOwners t))
    end.

Definition threadOwner (sourceKey : bytes) (t : Table) (ownerID : bytes) : Table :=
  let ownerKey := Account ownerID in
  match items t !! Key ownerKey with
  | Some e =>
      let cur := default [] (Current e) in
      if decide (Action_ e = ActionErase) then t
      else if decide (Action_ e = ActionCache) then threadOnly (Key ownerKey) cur t
      else if equalBytes (Original e) (Current e) && bytesLess (Key ownerKey) sourceKey then threadOnly (Key ownerKey) cur t
      else
        let '(_, _, newData, changed) := threadItem cur (txHash t) (txSeq t) in
        if (changed : bool) then setItems t (<[Key ownerKey := mkTracked (Action_ e) (Original e) (Some newData) (reinserted e) (threadPrev e)]> (items t))
        else t
  | None =>
      match Read ownerKey (base t) with
      | (inl _, b) | (inr None, b) => setBase t b
      | (inr (Some ownerData), b) => threadOnly (Key ownerKey) ownerData (setBase t b)
      end
  end.

Definition threadOwners (sourceKey : bytes) (data : option bytes) (entryType : Z) (t : Table) : Table :=
  match data with
  | None => t
  | Some data => foldl (threadOwner sourceKey) t (getOwnerAccounts data entryType)
  end.

Definition typeOf (e : TrackedEntry) : option Z :=
  match Current e, Original e with
  | None, Some original => DecodeType original
  | current, _ => DecodeType (default [] current)
  end.

(** One piece of work. The entry is looked up again, since it may have been rewritten
    as the owner of an earlier one. *)
Definition threadEntry (fixPreviousTxnID : bool) (t : Table) (k : bytes) : Table :=
  match items t !! k with
  | None => t
  | Some e =>
      match typeOf e with
      | None => t
      | Some entryType =>
          let cur := default [] (Current e) in
          let '(oldPrev, oldPrevSeq, newData, changed) := threadItem cur (txHash t) (txSeq t) in
          let threaded := isThreadedType entryType fixPreviousTxnID in
          match Action_ e with
          | ActionCache => t
          | ActionInsert =>
              let current := if threaded && changed then Some newData else Current e in
              threadOwners k current entryType
                (setItems t (<[k := mkTracked ActionInsert (Original e) current (reinserted e) (threadPrev e)]> (items t)))
          | ActionModify =>
              if equalBytes (Original e) (Current e) then t
              else if threaded then
                let current := if changed then Some newData else Current e in
                setItems t (<[k := mkTracked ActionModify (Original e) current (reinserted e) (Some (oldPrev, oldPrevSeq))]> (items t))
              else t
          | ActionErase =>
              let data := match Original e with None => Current e | original => original end in
              threadOwners k data entryType t
          end
      end
  end.

#[local] Instance worked_dec (o : option TrackedEntry) : Decision (match o with Some e => Action_ e <> ActionCache | None => False end).
Proof. destruct o; apply _. Defined.

(** The entries to thread, by ascending key. *)
Definition threadWork (t : Table) : list bytes :=
  filter (fun k => match items t !! k with Some e => Action_ e <> ActionCache | None => False end) (sortedLedgerKeys (items t)).

(** Nothing is the panic for want of rules. *)
Definition applyThreading (t : Table) : option Table :=
  match tableRules t with
  | None => None
  | Some rules => Some (foldl (threadEntry (rules FeatureFixPreviousTxnID)) t (threadWork t))
  end.

(** ** Commit *)

Section Commit.
Context {N : Type}.
Context (buildCreatedNode : Table -> bytes -> option bytes -> option N)
        (buildModifiedNode buildDeletedNode : Table -> bytes -> option bytes -> option bytes -> option N).


Definition Preview : M (list (metaNode N)) := fun t =>
  match applyThreading t with
  | None => (inl NilRules, t)
  | Some staged =>
      match applyOrdered buildCreatedNode buildModifiedNode buildDeletedNode false
              (sortedLedgerKeys (items staged)) (sortedLedgerKeys (threadOnlyOwners staged)) staged with
      | (r, staged) => (r, setBase t (base staged))
      end
  end.

End Commit.

End Threading.

(** ** What is stamped *)

Section Stamps.
Context `{Hasher} {X : Type} `{!EntryCodec X} `{!EntryCodecLaws X}.
Context {V E : Type} `{!LedgerView V E} `{!LedgerViewLaws V E} `{!AtomicLedgerView V E} `{!AtomicLedgerViewLaws V E}.

(** Reading leaves the count of destroyed drops. *)
Context (Read_drops : forall (v : V) k, destroyed (E := E) (snd (Read (E := E) k v)) = destroyed (E := E) v).

Abbreviation Table := (ApplyStateTable (V := V)).

Variables (t0 : Table) (rules : Rules_).
Hypothesis Hvalid : validTable t0.
Hypothesis Hrules : tableRules t0 = Some rules.
Hypothesis Hhash : is_key (txHash t0).
Hypothesis Hseq : is_uint 32 (txSeq t0).
Hypothesis Hstored : map_Forall (fun _ => storable) (contents (base t0)).

(** An entry with the transaction on it. *)
Definition stamp (d : bytes) : bytes := (threadItem d (txHash t0) (txSeq t0)).1.2.











(** The state with the entries at these keys stamped. *)
Definition stampAll (S : gset bytes) (m : gmap bytes bytes) : gmap bytes bytes :=
  map_imap (fun k d => Some (if decide (k ∈ S) then stamp d else d)) m.



(** ** The state of threading *)

Definition writes (a : Action) : Prop := a = ActionInsert \/ a = ActionModify.

Definition restamped (e e' : TrackedEntry) : Prop :=
  Action_ e' = Action_ e /\ Original e' = Original e /\
  (Current e' = Current e \/ writes (Action_ e) /\ Current e' = stamp <$> Current e).

(** What is true in the middle of threading, when the keys in [S] have been stamped. *)
Record threaded (S : gset bytes) (t : Table) : Prop := {
  th_base : becomes valid contents Rules (base t0) (base t) (contents (base t0));
  th_destroyed : destroyed (base t) = destroyed (base t0);
  th_table : insertedKeys t = insertedKeys t0 /\ drops t = drops t0 /\ txHash t = txHash t0 /\ txSeq t = txSeq t0;
  th_items k : option_Forall2 restamped (items t0 !! k) (items t !! k);
  th_owners : map_Forall (fun k o => is_key k /\ exists d, overlay t0 !! k = Some d /\ Updated o = stamp d) (threadOnlyOwners t);
  th_stamped k : committed t !! k = stampAll S (overlay t0) !! k }.




Section Step.
Context (S : gset bytes) (t : Table) (Ht : threaded S t).








End Step.










Section Entry.
Context (S : gset bytes) (t : Table) (k : bytes) (e e' : TrackedEntry) (d d' : bytes).
Hypothesis Ht : threaded S t.
Hypothesis He : items t0 !! k = Some e.
Hypothesis He' : items t !! k = Some e'.
Hypothesis Ha : Action_ e' = Action_ e.
Hypothesis Hor : Original e' = Original e.
Hypothesis Hd : Current e = Some d.
Hypothesis Hd' : Current e' = Some d'.
Hypothesis Hw : writes (Action_ e).
Hypothesis Hdd : d' = d \/ d' = stamp d.




End Entry.




(** ** The commit *)

Section Builders.
Context {N : Type}.
Context (created : Table -> bytes -> option bytes -> option N) (modified deleted : Table -> bytes -> option bytes -> option bytes -> option N).




End Builders.

End Stamps.

(** ** Directory pages as typed entries *)

Section Pages.
Import Serdes EntryStream Directory LedgerEntry.

(** What a reader of bytes returns, with bytes left. *)
Definition reads {A} (P : A -> Prop) (r : Reader A) : Prop := forall d a d', all_bytes d -> r d = inr (a, d') -> P a /\ all_bytes d'.

Lemma reads_bind {A B} P Q (r : Reader A) (k : A -> Reader B) : reads P r -> (forall a, P a -> reads Q (k a)) -> reads Q (rbind r k).
Proof.
  intros Hr Hk d b d' Hd. unfold rbind. destruct (r d) as [|[a d1]] eqn:Er; [done|]. destruct (Hr _ _ _ Hd Er) as [Ha Hd1]. by apply Hk.
Qed.

Lemma reads_ret {A} (P : A -> Prop) a : P a -> reads P (rret a).
Proof. intros Ha d x d' Hd [= <- <-]. done. Qed.

Lemma reads_fail {A} (P : A -> Prop) e : reads P (rfail e).
Proof. by intros d x d' Hd. Qed.

Lemma reads_raw n : reads (fun b => all_bytes b /\ length b = n) (readRaw n).
Proof.
  intros d b d' Hd. unfold readRaw. destruct (Nat.ltb_spec (length d) n); [done|]. intros [= <- <-]. rewrite length_take.
  split_and!; [by apply Forall_take|lia|by apply Forall_drop].
Qed.

Lemma reads_8 : reads (fun _ => True) readUint8.
Proof. intros [|b d] x d' Hd; [done|]. intros [= <- <-]. by apply list.Forall_cons in Hd as [_ ?]. Qed.

Lemma reads_word n : reads (fun z => is_uint (8 * Z.of_nat n) z) (let$ b := readRaw n in rret (bytesToZ b 0)).
Proof.
  apply (reads_bind _ _ _ _ (reads_raw n)). intros b [Hb <-]. apply reads_ret. by destruct (zToBytes_bytesToZ b Hb).
Qed.

Lemma reads_if {A} (P : A -> Prop) (c : bool) r r' : (c = true -> reads P r) -> (c = false -> reads P r') -> reads P (if c then r else r').
Proof. destruct c; auto. Qed.

Lemma reads_length : reads (fun _ => True) readVariableLength.
Proof.
  unfold readVariableLength. apply (reads_bind _ _ _ _ reads_8). intros b1 _.
  repeat (apply reads_if; intros _; [|]); try (by apply reads_ret); try apply reads_fail;
    repeat first [apply reads_ret; done | apply reads_fail | apply (reads_bind _ _ _ _ reads_8); intros ? _ | apply reads_if; intros _].
Qed.

Lemma reads_header : reads (fun _ => True) readFieldHeader.
Proof.
  unfold readFieldHeader. apply (reads_bind _ _ _ _ reads_8). intros b _.
  repeat first [apply reads_ret; done | apply reads_fail | apply (reads_bind _ _ _ _ reads_8); intros ? _ | apply reads_if; intros _ | apply (reads_bind (fun _ => True)); [|intros ? _]].
Qed.

Lemma chunks_ok n b : all_bytes b -> length b = (32 * n)%nat -> Forall (fun h => all_bytes h /\ length h = 32%nat) (chunks n b).
Proof.
  revert b. induction n as [|n IH]; intros b Hb Hl; cbn [chunks]; [constructor|]. constructor; [split; [by apply Forall_take|rewrite length_take; lia]|].
  apply IH; [by apply Forall_drop|rewrite length_drop; lia].
Qed.

(** Values as they are read: vectors may be longer than what can be written. *)
Definition readOk (tc : Z) (v : wireValue) : Prop :=
  typed tc v /\ match v with WVector hs => Forall (fun h => all_bytes h /\ length h = 32%nat) hs | _ => wireOk v end.

Lemma reads_value tc : tc = 1 \/ tc ∈ (known directoryNode).*1 -> reads (readOk tc) (readValue tc).
Proof.
  intros Htc. assert (Hin : tc ∈ [1; 2; 3; 5; 8; 17; 19; 21]) by (cbn in Htc; set_solver). clear Htc. unfold readValue.
  repeat (apply elem_of_cons in Hin as [->|Hin]); [..|by apply elem_of_nil in Hin]; cbn [Z.eqb Pos.eqb].
  - apply (reads_bind _ _ _ _ (reads_word 2)). intros z Hz. by apply reads_ret.
  - apply (reads_bind _ _ _ _ (reads_word 4)). intros z Hz. by apply reads_ret.
  - apply (reads_bind _ _ _ _ (reads_word 8)). intros z Hz. by apply reads_ret.
  - apply (reads_bind _ _ _ _ (reads_raw 32)). intros b [Hb Hl]. apply reads_ret. split; [by left|done].
  - unfold readAccountID. apply (reads_bind (fun b => all_bytes b /\ (b = [] \/ length b = 20%nat))); [|intros b Hb; by apply reads_ret].
    apply (reads_bind _ _ _ _ reads_length). intros n _. apply reads_if; intros Hn; [apply reads_ret; split; [constructor|by left]|].
    apply (reads_bind _ _ _ _ (reads_raw (Z.to_nat n))). intros b [Hb Hl]. apply reads_if; intros Hc; [apply reads_fail|]. apply reads_ret. split; [done|right].
    apply negb_false_iff, Z.eqb_eq in Hc. rewrite Hl, Hc. done.
  - apply (reads_bind _ _ _ _ (reads_raw 20)). intros b [Hb Hl]. apply reads_ret. split; [by right; left|done].
  - unfold readVector256. apply (reads_bind (Forall (fun h => all_bytes h /\ length h = 32%nat))); [|intros hs Hhs; by apply reads_ret].
    apply (reads_bind _ _ _ _ reads_length). intros n _. apply reads_if; intros Hn; [apply reads_fail|].
    apply (reads_bind _ _ _ _ (reads_raw (Z.to_nat n))). intros b [Hb Hl]. apply reads_ret, chunks_ok; [done|].
    apply negb_false_iff, Z.eqb_eq in Hn. rewrite Hl. dmlia.
  - apply (reads_bind _ _ _ _ (reads_raw 24)). intros b [Hb Hl]. apply reads_ret. split; [by right; right|done].
Qed.

Definition pageRead (a : entry * bool) : Prop := map_Forall (fun h v => h ∈ known directoryNode /\ readOk h.1 v) a.1.

Lemma reads_step a tc fc : pageRead a -> reads pageRead (decodeStep directoryNode a tc fc).
Proof.
  destruct a as [e saw]. intros He. unfold decodeStep. apply reads_if; intros Hk; [apply reads_fail|]. apply reads_if; intros _; [apply reads_fail|].
  apply negb_false_iff, orb_true_iff in Hk. rewrite Z.eqb_eq, bool_decide_eq_true in Hk.
  apply (reads_bind _ _ _ _ (reads_value tc Hk)). intros v Hv. apply reads_if; intros Hu; [apply reads_fail|].
  apply negb_false_iff, bool_decide_eq_true in Hu. apply reads_if; intros Hl.
  - destruct v; try (by apply reads_ret). apply reads_if; intros _; [apply reads_fail|by apply reads_ret].
  - apply bool_decide_eq_false in Hl. apply elem_of_cons in Hu as [?|Hu]; [done|]. apply reads_ret. unfold pageRead. cbn.
    by apply map_Forall_insert_2.
Qed.

Lemma fieldsLoop_reads fuel seen a : pageRead a -> reads pageRead (fieldsLoop (decodeStep directoryNode) fuel seen a).
Proof.
  revert seen a. induction fuel as [|fuel IH]; intros seen a Ha [|x d] b d' Hd; cbn [fieldsLoop]; [by intros [= <- <-]|done|by intros [= <- <-]|].
  revert b d' Hd. generalize (x :: d). change (reads pageRead (let$ h := readFieldHeader in
    if bool_decide (h ∈ seen) then rfail (DuplicateField h.1 h.2)
    else let$ acc := decodeStep directoryNode a h.1 h.2 in fieldsLoop (decodeStep directoryNode) fuel (h :: seen) acc)).
  apply (reads_bind _ _ _ _ reads_header). intros h _. apply reads_if; intros _; [apply reads_fail|].
  apply (reads_bind _ _ _ _ (reads_step a h.1 h.2 Ha)). intros a' Ha'. by apply IH.
Qed.

Lemma page_decoded d e : all_bytes d -> Decode directoryNode d = inr e -> pageRead (e, true).
Proof.
  intros Hd. unfold Decode. destruct (fieldsLoop _ _ _ _ d) as [|[[e' saw] d']] eqn:Hf; [done|]. destruct (negb saw); [done|]. destruct (validate _ e'); [done|].
  intros [= <-]. destruct (fieldsLoop_reads _ _ _ (map_Forall_empty _ : pageRead (∅, false)) _ _ _ Hd Hf) as [He _]. exact He.
Qed.

Lemma encodeFields_each fs b f : encodeFields fs = inr b -> f ∈ fs -> exists x, encodeValue (wvalue f) = inr x.
Proof.
  revert b. induction fs as [|g fs IH]; intros b; [by intros _ ?%elem_of_nil|]. cbn [encodeFields].
  destruct (encodeValue (wvalue g)) as [|x] eqn:Hx; [done|]. destruct (encodeFields fs) as [|r]; [done|]. intros _ [->|Hf]%elem_of_cons; [by exists x|by eapply IH].
Qed.

(** Pages that were read and can be written are well typed. *)
Lemma page_typed e b : pageRead (e, true) -> Encode directoryNode e = inr b ->
  entryTyped directoryNode e /\ Forall (fun r => is_Some (e !! r.1)) (required directoryNode).
Proof.
  intros He. unfold Encode. destruct (validate (required directoryNode) e) eqn:Hval; [done|]. intros Hb. split.
  - intros h v Hv. destruct (He h v Hv) as (Hk & Ht & Hw). split_and!; [done|done|].
    destruct v as [| | | | |hs]; try done. destruct (encodeFields_each _ b (mkWire h.1 h.2 (WVector hs)) Hb) as [x Hx].
    + rewrite (sort_by_perm ordinalLess (ToMap directoryNode e)). right. apply list_elem_of_fmap. exists (h, WVector hs). split; [done|by apply elem_of_map_to_list].
    + cbn in Hx. split; [done|]. destruct (Z.ltb_spec MaxJSONArrayElements (Z.of_nat (length hs))); [done|]. unfold MaxJSONArrayElements in *. lia.
  - clear Hb. revert Hval. induction (required directoryNode) as [|[h name] req IH]; [constructor|]. cbn [validate]. unfold has. case_bool_decide; [|done].
    intros Hval. constructor; [done|by apply IH].
Qed.

Definition stampPage (h : bytes) (n : Z) (e : entry) : entry := set sfPreviousTxnID (WHash h) (set sfPreviousTxnLgrSeq (W32 n) e).

#[export] Instance pageCodec : EntryCodec entry := {
  DecodeEntry typ d := if typ =? TypeDirectoryNode then match Decode directoryNode d with inr e => Some e | inl _ => None end else None;
  EncodeEntry e := match Encode directoryNode e with inr b => Some b | inl _ => None end;
  threadable typ := typ =? TypeDirectoryNode;
  HasPreviousTxnID := has sfPreviousTxnID;
  GetPreviousTxnID e := Some (getHash 32 sfPreviousTxnID e);
  GetPreviousTxnLgrSeq := getInt sfPreviousTxnLgrSeq;
  SetPreviousTxn := stampPage;
  accountOf _ := None;
  destinationOf _ := None;
  lowIssuer _ := None;
  highIssuer _ := None }.

#[export] Instance pageCodec_laws : EntryCodecLaws entry.
Proof.
  split; try done.
  - intros h n e. cbn. unfold has, stampPage, set. by rewrite lookup_insert_eq.
  - intros h n e. cbn. unfold getHash, stampPage, set. by rewrite lookup_insert_eq.
  - intros typ d h n e b [Hhl Hhb] Hn [Hdb _] Ht Hth. cbn [DecodeEntry EncodeEntry threadable SetPreviousTxn pageCodec] in Hth |- *. rewrite Hth. apply Z.eqb_eq in Hth as ->.
    destruct (Decode directoryNode d) as [|e'] eqn:Hd; [done|]. intros [= ->]. destruct (Encode directoryNode _) as [|b'] eqn:Hb; [done|]. intros [= ->].
    assert (Hst : pageRead (stampPage h n e, true)).
    { pose proof (page_decoded d e Hdb Hd) as He. unfold pageRead, stampPage, set in *. cbn in *.
      apply map_Forall_insert_2; [|apply map_Forall_insert_2; [|done]]; (split; [unfold sfPreviousTxnID, sfPreviousTxnLgrSeq; set_solver|split; [cbn; auto|done]]). }
    destruct (page_typed _ _ Hst Hb) as [Hty Hreq].
    destruct (entry_roundtrip directoryNode (stampPage h n e) DirectoryPage.directoryNode_ok Hty eq_refl Hreq) as (b' & Hb' & Hd' & Hbb & Hdt).
    rewrite Hb in Hb'. injection Hb' as <-. rewrite Hd'. split_and!; [split; [done|]|done|done].
    pose proof (field_length directoryNode (stampPage h n e) sfPreviousTxnID (WHash h) h b Hb) as Hl.
    assert ((length h <= length b)%nat) by (apply Hl; [by apply lookup_insert_eq|done]). lia.
Qed.

End Pages.

(** ** A page inserted in a ledger *)

Section Example.
Import ShaMapNode ShaMap LedgerHeader Ledger Directory LedgerEntry DirectorySpec.
#[local] Existing Instance tailHasher.









End Example.

End Threading.
