(* ===== verification/Validation.v ===== *)
(** * Validations and the quorum (internal/consensus/types.go, adaptor/adaptor.go, adaptor/trust_oracle.go)

    The part of a validation that the flag-ledger votes read: who signed it, for
    which ledger, and the votes it carries. Signatures and arrival times play no
    part in the tallies. *)

From Stdlib Require Import ZArith Lia.
From stdpp Require Import base list numbers option gmap fin_maps.
From S2P Require Import Prelude.

Module Validation.

(** The codes a pseudo-transaction can end with. *)
Inductive TER := TesSUCCESS | TemMALFORMED | TemDISABLED | TemINVALID_FLAG | TefALREADY | TefFAILURE | TefINTERNAL.

#[global] Instance TER_eq_dec : EqDecision TER.
Proof. solve_decision. Defined.

(** The validator's node identifier, ledger identifiers and amendments are byte
    strings; amounts of drops are signed. *)
Record Validation := mkValidation {
  NodeID : bytes;
  LedgerID : bytes;
  LedgerSeq : Z;
  Full : bool;
  Amendments : list bytes;
  BaseFee : Z;
  ReserveBase : Z;
  ReserveIncrement : Z;
  BaseFeeDrops : Z;
  ReserveBaseDrops : Z;
  ReserveIncrementDrops : Z;
  feeVotePresent : Z;
  feeVoteNative : Z }.

(** The presence bits of the six fee fields. *)
Definition feeVoteBase : Z := 1.
Definition feeVoteReserveBase : Z := 2.
Definition feeVoteReserveIncrement : Z := 4.
Definition feeVoteBaseDrops : Z := 8.
Definition feeVoteReserveBaseDrops : Z := 16.
Definition feeVoteReserveIncrementDrops : Z := 32.

Definition HasBaseFee (v : Validation) : bool :=
  negb (Z.land (feeVotePresent v) feeVoteBase =? 0) || negb (BaseFee v =? 0).

Definition HasReserveBase (v : Validation) : bool :=
  negb (Z.land (feeVotePresent v) feeVoteReserveBase =? 0) || negb (ReserveBase v =? 0).

Definition HasReserveIncrement (v : Validation) : bool :=
  negb (Z.land (feeVotePresent v) feeVoteReserveIncrement =? 0) || negb (ReserveIncrement v =? 0).

Definition hasNativeFeeVote (v : Validation) (field value : Z) : bool :=
  if Z.land (feeVotePresent v) field =? 0 then negb (value =? 0)
  else negb (Z.land (feeVoteNative v) field =? 0).

Definition nativeFeeVote (v : Validation) (field value : Z) : option Z :=
  if hasNativeFeeVote v field value then Some value else None.

Definition BaseFeeDropsVote (v : Validation) : option Z := nativeFeeVote v feeVoteBaseDrops (BaseFeeDrops v).

Definition ReserveBaseDropsVote (v : Validation) : option Z :=
  nativeFeeVote v feeVoteReserveBaseDrops (ReserveBaseDrops v).

Definition ReserveIncrementDropsVote (v : Validation) : option Z :=
  nativeFeeVote v feeVoteReserveIncrementDrops (ReserveIncrementDrops v).

(** ** What reaches the tallies *)

Definition filterFullValidations (vals : list Validation) (ledgerID : bytes) (ledgerSeq : Z) (isTrusted : bytes -> bool) :
    list Validation :=
  filter (fun v => Full v && bool_decide (LedgerID v = ledgerID) && (LedgerSeq v =? ledgerSeq) && isTrusted (NodeID v)) vals.

Definition excludeNegativeUNL (vals : list Validation) (negUNL : list bytes) : list Validation :=
  match vals, negUNL with
  | [], _ | _, [] => vals
  | _, _ =>
      let skip : gset bytes := list_to_set negUNL in
      filter (fun v => NodeID v ∉ skip) vals
  end.

(** ** The quorum *)

Definition maxInt : Z := max_i64.

Definition computeQuorum (trusted disabled : Z) : Z :=
  if trusted =? 0 then 0
  else
    let effective := trusted - disabled in
    if effective <=? 0 then maxInt
    else Z.max (Z.quot (effective * 4 + 4) 5) (Z.quot (trusted * 3 + 4) 5).

Definition quorumForTrustedSet (trustedSet : gset bytes) (trusted : Z) (negUNL : list bytes) : Z :=
  computeQuorum trusted (Z.of_nat (length (filter (fun id => id ∈ trustedSet) negUNL))).

(** At least four fifths of the validators that are not disabled, and three
    fifths of all of them. *)
Lemma computeQuorum_bounds trusted disabled q :
  0 <= disabled < trusted -> computeQuorum trusted disabled = q ->
  5 * q >= 4 * (trusted - disabled) /\ 5 * q >= 3 * trusted /\
  (5 * (q - 1) < 4 * (trusted - disabled) \/ 5 * (q - 1) < 3 * trusted).
Proof.
  intros Hd <-. unfold computeQuorum. destruct (Z.eqb_spec trusted 0); [lia|]. destruct (Z.leb_spec (trusted - disabled) 0); [lia|].
  rewrite !Z.quot_div_nonneg by lia. destruct (Z.max_spec ((trusted - disabled) * 4 + 4 / 5) ((trusted * 3 + 4) / 5)); dmlia.
Qed.

(** With a quarter of the validators disabled, rounded up, the quorum can still be met
    by the others (three validators or more). *)
Lemma quorum_reachable trusted disabled :
  3 <= trusted -> 0 <= disabled <= (trusted + 3) / 4 -> computeQuorum trusted disabled <= trusted - disabled.
Proof.
  intros Ht Hd. unfold computeQuorum. destruct (Z.eqb_spec trusted 0); [lia|]. destruct (Z.leb_spec (trusted - disabled) 0) as [He|He]; [dmlia|].
  rewrite !Z.quot_div_nonneg by lia. apply Z.max_lub; dmlia.
Qed.

Lemma excludeNegativeUNL_filter vals negUNL :
  excludeNegativeUNL vals negUNL = filter (fun v => negb (bool_decide (NodeID v ∈ negUNL))) vals.
Proof.
  unfold excludeNegativeUNL. destruct vals as [|v vals]; [done|]. destruct negUNL as [|k negUNL]; generalize (v :: vals); clear; intros l.
  - induction l as [|w l IH]; [done|]. rewrite filter_test_cons, (bool_decide_eq_false_2 (NodeID w ∈ [])) by set_solver. cbn. by rewrite <- IH.
  - induction l as [|w l IH]; [done|]. rewrite filter_test_cons, filter_cons, IH.
    case_decide as Hw; rewrite elem_of_list_to_set in Hw; destruct (bool_decide_reflect (NodeID w ∈ k :: negUNL)); done.
Qed.

Lemma excludeNegativeUNL_elem vals negUNL v :
  v ∈ excludeNegativeUNL vals negUNL <-> v ∈ vals /\ NodeID v ∉ negUNL.
Proof.
  rewrite excludeNegativeUNL_filter, list_elem_of_filter, Is_true_true, negb_true_iff, bool_decide_eq_false. tauto.
Qed.

End Validation.
