(* ===== verification/FeeVote.v ===== *)
(** * The fee vote (internal/consensus/feevote, adaptor/flag_ledger_vote.go, tx/pseudo/setfee.go)

    Before a flag ledger a validator tallies the fees that the trusted validators
    ask for and proposes a SetFee transaction, which the flag ledger applies to
    the fee settings. The tally ranges over a Go map, whose order is arbitrary,
    so the loop takes the order as an argument. A transaction is the record that
    the code hands to the codec, a ledger entry the record it parses. *)

From Stdlib Require Import ZArith Lia.
From stdpp Require Import base list numbers option strings gmap fin_maps.
From S2P Require Import Prelude Strconv Validation.

Import Validation.

Module FeeVote.

Definition MaxDrops : Z := 100000000000000000.

Record Stance := mkStance { sBase : Z; sReserve : Z; sIncrement : Z }.

#[global] Instance Stance_eq_dec : EqDecision Stance.
Proof. solve_decision. Defined.

(** [None] is a field the validation does not have. *)
Record Vote := mkVote { voteBase : option Z; voteReserve : option Z; voteIncrement : option Z }.

Record votableValue := mkVotable { current : Z; target : Z; votes : gmap Z Z; noVotes : Z }.

Definition newVotableValue (cur tgt : Z) : votableValue := mkVotable cur tgt ∅ 0.

Definition addVote (v : votableValue) (value : Z) : votableValue :=
  mkVotable (current v) (target v) (<[value := default 0 (votes v !! value) + 1]> (votes v)) (noVotes v).

Definition noVote (v : votableValue) : votableValue := mkVotable (current v) (target v) (votes v) (noVotes v + 1).

Definition applyVote (v : votableValue) (field : option Z) : votableValue :=
  match field with
  | None => noVote v
  | Some x => if (x <? - MaxDrops) || (MaxDrops <? x) then noVote v else addVote v x
  end.

Definition signedAmount (value : Z) : option Z := if max_i64 <? value then None else Some value.

(** The ballots for an unsigned value. *)
Definition ballotsAt (v : votableValue) (value : Z) : Z :=
  match signedAmount value with Some a => default 0 (votes v !! a) | None => 0 end.

(** More weight, or the same weight and a lower value. *)
Definition beats (count candidate weight chosen : Z) : bool :=
  (weight <? count) || ((count =? weight) && (candidate <? chosen)).

Definition tallyStep (v : votableValue) (acc : Z * Z) (entry : Z * Z) : Z * Z :=
  let '(chosen, weight) := acc in
  let '(value, count) := entry in
  let lo := Z.min (current v) (target v) in
  let hi := Z.max (current v) (target v) in
  if value <? 0 then acc
  else if (value =? current v) || (value =? target v) || (value <? lo) || (hi <? value) then acc
  else if beats count value weight chosen then (value, count) else acc.

(** [order] is the order in which the map is traversed. *)
Definition getVotes (order : gmap Z Z -> list (Z * Z)) (v : votableValue) : Z * bool :=
  let weight := 1 + ballotsAt v (target v) in
  let currentWeight := noVotes v + ballotsAt v (current v) in
  let start :=
    if beats currentWeight (current v) weight (target v) then (current v, currentWeight) else (target v, weight) in
  let chosen := fst (foldl (tallyStep v) start (order (votes v))) in
  (chosen, negb (chosen =? current v)).

(** ** The transaction *)

Record SetFee := mkSetFee {
  txBaseFee : string;
  txReferenceFeeUnits : option Z;
  txReserveBase : option Z;
  txReserveIncrement : option Z;
  txBaseFeeDrops : string;
  txReserveBaseDrops : string;
  txReserveIncrementDrops : string;
  txLedgerSequence : option Z }.

Inductive feeError := errExceedsUint32.

Definition narrowToUint32 (chosen fallback : Z) : feeError + Z :=
  if chosen <=? max_u32 then inr chosen
  else if max_u32 <? fallback then inl errExceedsUint32
  else inr fallback.

Definition referenceFeeUnitsDeprecated : Z := 10.

Definition buildSetFeeTx (seq : Z) (cur chosen : Stance) (xrpFeesEnabled : bool) : feeError + SetFee :=
  if xrpFeesEnabled then
    inr (mkSetFee EmptyString None None None (Strconv.FormatUint 10 (sBase chosen)) (Strconv.FormatUint 10 (sReserve chosen))
           (Strconv.FormatUint 10 (sIncrement chosen)) (Some seq))
  else
    let? reserveBase := narrowToUint32 (sReserve chosen) (sReserve cur) in
    let? reserveIncrement := narrowToUint32 (sIncrement chosen) (sIncrement cur) in
    inr (mkSetFee (Strconv.FormatUint 16 (sBase chosen)) (Some referenceFeeUnitsDeprecated) (Some reserveBase)
           (Some reserveIncrement) EmptyString EmptyString EmptyString (Some seq)).

(** The loop over the votes fills the three tallies. *)
Definition tallyVotes (cur tgt : Stance) (vs : list Vote) : votableValue * votableValue * votableValue :=
  foldl (fun '(b, r, i) v => (applyVote b (voteBase v), applyVote r (voteReserve v), applyVote i (voteIncrement v)))
    (newVotableValue (sBase cur) (sBase tgt), newVotableValue (sReserve cur) (sReserve tgt),
     newVotableValue (sIncrement cur) (sIncrement tgt)) vs.

Definition DoVoting (order : gmap Z Z -> list (Z * Z)) (upcomingSeq : Z) (cur tgt : Stance)
    (vs : list Vote) (xrpFeesEnabled : bool) : feeError + option SetFee :=
  let '(baseFee, reserveBase, reserveIncrement) := tallyVotes cur tgt vs in
  let '(chosenBase, baseChanged) := getVotes order baseFee in
  let '(chosenReserveBase, reserveBaseChanged) := getVotes order reserveBase in
  let '(chosenReserveIncrement, reserveIncrementChanged) := getVotes order reserveIncrement in
  if negb baseChanged && negb reserveBaseChanged && negb reserveIncrementChanged then inr None
  else
    let? tx := buildSetFeeTx upcomingSeq cur (mkStance chosenBase chosenReserveBase chosenReserveIncrement) xrpFeesEnabled in
    inr (Some tx).

(** ** The producer *)

Record FeeSettings := mkFees {
  fBaseFeeDrops : Z; fReserveBaseDrops : Z; fReserveIncrementDrops : Z;
  fBaseFee : Z; fReferenceFeeUnits : Z; fReserveBase : Z; fReserveIncrement : Z;
  XRPFeesMode : bool }.

Definition GetBaseFee (f : FeeSettings) : Z := if XRPFeesMode f then fBaseFeeDrops f else fBaseFee f.
Definition GetReserveBase (f : FeeSettings) : Z := if XRPFeesMode f then fReserveBaseDrops f else fReserveBase f.
Definition GetReserveIncrement (f : FeeSettings) : Z := if XRPFeesMode f then fReserveIncrementDrops f else fReserveIncrement f.

Definition extractFeeVote (v : Validation) (xrpFeesEnabled : bool) : Vote :=
  if xrpFeesEnabled then mkVote (BaseFeeDropsVote v) (ReserveBaseDropsVote v) (ReserveIncrementDropsVote v)
  else
    mkVote (if HasBaseFee v && (BaseFee v <=? max_i64) then Some (BaseFee v) else None)
           (if HasReserveBase v then Some (ReserveBase v) else None)
           (if HasReserveIncrement v then Some (ReserveIncrement v) else None).

(** The values voted on, as the producer reads them. *)
Definition currentStance (fees : FeeSettings) (xrpFeesEnabled : bool) : Stance :=
  if xrpFeesEnabled then mkStance (fBaseFeeDrops fees) (fReserveBaseDrops fees) (fReserveIncrementDrops fees)
  else mkStance (fBaseFee fees) (fReserveBase fees) (fReserveIncrement fees).

(** [None]: the ledger has no fee settings. The node's own preference is the
    target; an error is logged and taken as no vote. *)
Definition runFeeVote (order : gmap Z Z -> list (Z * Z)) (feeSettings : option FeeSettings) (tgt : Stance) (upcomingSeq : Z)
    (parentValidations : list Validation) (xrpFeesEnabled : bool) : option SetFee :=
  match feeSettings with
  | None => None
  | Some fees =>
      match DoVoting order upcomingSeq (currentStance fees xrpFeesEnabled) tgt
              ((fun v => extractFeeVote v xrpFeesEnabled) <$> parentValidations) xrpFeesEnabled with
      | inl _ => None
      | inr tx => tx
      end
  end.

(** ** Application *)

Definition hasLegacyFields (s : SetFee) : bool :=
  negb (bool_decide (txBaseFee s = EmptyString)) || bool_decide (is_Some (txReferenceFeeUnits s)) ||
  bool_decide (is_Some (txReserveBase s)) || bool_decide (is_Some (txReserveIncrement s)).

Definition hasModernFields (s : SetFee) : bool :=
  negb (bool_decide (txBaseFeeDrops s = EmptyString)) || negb (bool_decide (txReserveBaseDrops s = EmptyString)) ||
  negb (bool_decide (txReserveIncrementDrops s = EmptyString)).

Record parsedFeeFields := mkParsed { baseFee : Z; baseFeeDrops : Z; reserveBaseDrops : Z; reserveIncrementDrops : Z }.

(** An absent field is zero; [None] is a field that does not parse. *)
Definition parseField (base : Z) (s : string) : option Z :=
  match s with
  | EmptyString => Some 0
  | _ => match Strconv.ParseUint base s with (v, false) => Some v | (_, true) => None end
  end.

Definition parseFields (s : SetFee) : option parsedFeeFields :=
  match parseField 16 (txBaseFee s), parseField 10 (txBaseFeeDrops s), parseField 10 (txReserveBaseDrops s),
        parseField 10 (txReserveIncrementDrops s) with
  | Some b, Some bd, Some rd, Some id => Some (mkParsed b bd rd id)
  | _, _, _, _ => None
  end.

Definition Validate (s : SetFee) : bool :=
  (hasLegacyFields s || hasModernFields s) && bool_decide (is_Some (parseFields s)).

Definition PreclaimPseudo (s : SetFee) (xrpFees : bool) : TER :=
  let present o := bool_decide (is_Some o) in
  let empty str := bool_decide (str = EmptyString) in
  if xrpFees && (empty (txBaseFeeDrops s) || empty (txReserveBaseDrops s) || empty (txReserveIncrementDrops s)) then TemMALFORMED
  else if xrpFees && hasLegacyFields s then TemMALFORMED
  else if negb xrpFees && (empty (txBaseFee s) || negb (present (txReferenceFeeUnits s)) || negb (present (txReserveBase s)) ||
                           negb (present (txReserveIncrement s))) then TemMALFORMED
  else if negb xrpFees && hasModernFields s then TemDISABLED
  else match parseFields s with None => TemMALFORMED | Some _ => TesSUCCESS end.

Definition Apply (s : SetFee) (settings : option FeeSettings) (xrpFeesEnabled : bool) : TER * option FeeSettings :=
  match parseFields s with
  | None => (TemMALFORMED, settings)
  | Some parsed =>
      let f := default (mkFees 0 0 0 0 0 0 0 false) settings in
      let f' :=
        if xrpFeesEnabled then mkFees (baseFeeDrops parsed) (reserveBaseDrops parsed) (reserveIncrementDrops parsed) 0 0 0 0 true
        else mkFees 0 0 0 (baseFee parsed) (default (fReferenceFeeUnits f) (txReferenceFeeUnits s))
               (default (fReserveBase f) (txReserveBase s)) (default (fReserveIncrement f) (txReserveIncrement s)) false in
      (TesSUCCESS, Some f')
  end.
(** ** The tally

    What the votes for one field come to: [None] and amounts beyond the supply
    of drops are votes for the current value. *)

Definition legal (x : Z) : bool := (- MaxDrops <=? x) && (x <=? MaxDrops).

Definition isBallot (x : Z) (b : option Z) : bool := match b with Some y => (y =? x) && legal y | None => false end.

Definition isAbstention (b : option Z) : bool := match b with Some y => negb (legal y) | None => true end.

Definition ballotsFor (bs : list (option Z)) (x : Z) : Z := Z.of_nat (length (filter (isBallot x) bs)).

Definition abstentions (bs : list (option Z)) : Z := Z.of_nat (length (filter isAbstention bs)).

(** The node adds its own vote for its target. *)
Definition support (cur tgt : Z) (bs : list (option Z)) (x : Z) : Z :=
  ballotsFor bs x + (if x =? tgt then 1 else 0) + (if x =? cur then abstentions bs else 0).

(** Votes outside the range between the current value and the target do not count. *)
Definition eligible (cur tgt : Z) (bs : list (option Z)) (x : Z) : Prop :=
  x = cur \/ x = tgt \/ (0 < ballotsFor bs x /\ Z.min cur tgt <= x <= Z.max cur tgt).

(** The most supported value, the lowest among equals. *)
Definition wins (cur tgt : Z) (bs : list (option Z)) (x : Z) : Prop :=
  eligible cur tgt bs x /\
  forall y, eligible cur tgt bs y -> y <> x ->
    support cur tgt bs y < support cur tgt bs x \/ (support cur tgt bs y = support cur tgt bs x /\ x < y).

Lemma wins_unique cur tgt bs x y : wins cur tgt bs x -> wins cur tgt bs y -> x = y.
Proof.
  intros [Hx Hx'] [Hy Hy']. destruct (decide (x = y)) as [|Hne]; [done|].
  specialize (Hx' y Hy ltac:(congruence)). specialize (Hy' x Hx ltac:(congruence)). lia.
Qed.

(** The votes, the abstentions and what the map holds. *)
Record tallied (cur tgt : Z) (bs : list (option Z)) (v : votableValue) : Prop := {
  tl_cur : current v = cur;
  tl_tgt : target v = tgt;
  tl_abst : noVotes v = abstentions bs;
  tl_votes : forall x n, votes v !! x = Some n <-> 0 < n /\ n = ballotsFor bs x }.

Lemma ballotsFor_snoc bs b x : ballotsFor (bs ++ [b]) x = ballotsFor bs x + (if isBallot x b then 1 else 0).
Proof. unfold ballotsFor. rewrite filter_test_snoc, length_app. destruct (isBallot x b); cbn; lia. Qed.

Lemma abstentions_snoc bs b : abstentions (bs ++ [b]) = abstentions bs + (if isAbstention b then 1 else 0).
Proof. unfold abstentions. rewrite filter_test_snoc, length_app. destruct (isAbstention b); cbn; lia. Qed.

Lemma tallied_snoc cur tgt bs v b : tallied cur tgt bs v -> tallied cur tgt (bs ++ [b]) (applyVote v b).
Proof.
  intros [Hc Ht Ha Hv].
  assert (Habst : isAbstention b = true -> applyVote v b = noVote v -> tallied cur tgt (bs ++ [b]) (applyVote v b)).
  { intros Hb ->. split; [done|done|cbn [noVote noVotes]; rewrite abstentions_snoc, Hb; lia|]. intros x n. rewrite ballotsFor_snoc.
    cbn [noVote votes]. rewrite Hv. replace (isBallot x b) with false; [by rewrite Z.add_0_r|]. destruct b as [y|]; [|done].
    cbn in *. apply negb_true_iff in Hb. by rewrite Hb, andb_false_r. }
  destruct b as [y|]; [|by apply Habst]. cbn [applyVote isAbstention] in *. unfold legal in *.
  destruct ((y <? - MaxDrops) || (MaxDrops <? y)) eqn:Hl.
  { apply Habst; [|done]. apply orb_true_iff in Hl. apply negb_true_iff, andb_false_iff. destruct Hl; zbool; [left|right]; by apply Z.leb_gt. }
  zbool. assert (Hleg : legal y = true) by (unfold legal; apply andb_true_iff; split; by apply Z.leb_le).
  split; [done|done|cbn [addVote noVotes]; rewrite abstentions_snoc; cbn; rewrite Hleg; cbn; lia|].
  intros x n. rewrite ballotsFor_snoc. cbn [addVote votes isBallot]. rewrite Hleg, andb_true_r.
  assert (Hnn : 0 <= ballotsFor bs x) by (unfold ballotsFor; lia).
  destruct (Z.eqb_spec y x) as [->|Hne].
  - rewrite lookup_insert_eq. destruct (votes v !! x) as [k|] eqn:Hk; cbn.
    + apply Hv in Hk as [Hk ->]. split; [intros [= <-]; lia|intros [_ ->]; done].
    + assert (ballotsFor bs x = 0) as Hz; [|rewrite Hz; split; [intros [= <-]; lia|intros [_ ->]; done]].
      destruct (decide (ballotsFor bs x = 0)) as [|Hnz]; [done|]. destruct (Hv x (ballotsFor bs x)) as [_ Hx].
      rewrite Hx in Hk by lia. done.
  - rewrite lookup_insert_ne by done. rewrite Hv. by rewrite Z.add_0_r.
Qed.

Lemma tallied_all cur tgt bs : tallied cur tgt bs (foldl applyVote (newVotableValue cur tgt) bs).
Proof.
  induction bs as [|b bs IH] using rev_ind.
  - split; [done|done|done|]. intros x n. unfold ballotsFor. cbn. rewrite lookup_empty. split; [done|lia].
  - rewrite foldl_app. by apply tallied_snoc.
Qed.

Section Tally.
Context (cur tgt : Z) (bs : list (option Z)) (v : votableValue).
Hypothesis Hv : tallied cur tgt bs v.
Hypothesis Hcur : 0 <= cur.
Hypothesis Htgt : 0 <= tgt.

Lemma ballots_legal x : 0 < ballotsFor bs x -> legal x = true.
Proof.
  unfold ballotsFor. intros Hx. destruct (filter (isBallot x) bs) as [|b l] eqn:Hf; [done|].
  assert (Hb : b ∈ filter (isBallot x) bs) by (rewrite Hf; left). apply list_elem_of_filter in Hb as [Hb _].
  destruct b as [y|]; [|done]. cbn in Hb. apply Is_true_true, andb_true_iff in Hb as [->%Z.eqb_eq Hb]. done.
Qed.

Lemma ballotsAt_exact x : ballotsAt v x = ballotsFor bs x.
Proof.
  assert (Hnn : 0 <= ballotsFor bs x) by (unfold ballotsFor; lia). unfold ballotsAt, signedAmount.
  destruct (decide (ballotsFor bs x = 0)) as [Hz|Hnz].
  - go_case; [done|]. destruct (votes v !! x) as [n|] eqn:Hl; [|done]. apply (tl_votes _ _ _ _ Hv) in Hl. cbn. lia.
  - destruct (tl_votes _ _ _ _ Hv x (ballotsFor bs x)) as [_ Hl]. pose proof (ballots_legal x ltac:(lia)) as Hlegal.
    unfold legal, MaxDrops, max_i64 in *. zbool. go_case; [lia|]. rewrite Hl by lia. done.
Qed.

(** The values that the loop has weighed. *)
Definition weighed (done_ : list (Z * Z)) (x : Z) : Prop :=
  x = cur \/ x = tgt \/ (x ∈ done_.*1 /\ Z.min cur tgt <= x <= Z.max cur tgt).

Definition leads (done_ : list (Z * Z)) (acc : Z * Z) : Prop :=
  weighed done_ (fst acc) /\ snd acc = support cur tgt bs (fst acc) /\
  forall y, weighed done_ y -> y <> fst acc ->
    support cur tgt bs y < snd acc \/ (support cur tgt bs y = snd acc /\ fst acc < y).

Lemma weighed_snoc done_ x n y :
  weighed (done_ ++ [(x, n)]) y <-> weighed done_ y \/ (y = x /\ Z.min cur tgt <= x <= Z.max cur tgt).
Proof. unfold weighed. rewrite fmap_app, elem_of_app. cbn [fmap list_fmap fst]. rewrite list_elem_of_singleton. intuition subst; auto. Qed.

Lemma tallyStep_leads done_ acc x :
  cur <> tgt -> leads done_ acc -> leads (done_ ++ [(x, ballotsFor bs x)]) (tallyStep v acc (x, ballotsFor bs x)).
Proof.
  intros Hne (Hw & Hs & Hall). destruct acc as [chosen weight]. cbn [fst snd] in *.
  assert (Hskip : (weighed (done_ ++ [(x, ballotsFor bs x)]) x -> weighed done_ x) ->
                  leads (done_ ++ [(x, ballotsFor bs x)]) (chosen, weight)).
  { intros Hsame. split; [apply weighed_snoc; by left|]. split; [done|]. cbn [fst snd]. intros y Hy Hyne.
    apply weighed_snoc in Hy as Hy'. destruct Hy' as [Hy'|[-> _]]; [by apply Hall|]. apply Hall; [by apply Hsame|done]. }
  unfold tallyStep. rewrite (tl_cur _ _ _ _ Hv), (tl_tgt _ _ _ _ Hv). destruct (Z.ltb_spec x 0) as [Hneg|Hpos].
  { apply Hskip. unfold weighed. intros [?|[?|[_ ?]]]; lia. }
  destruct ((x =? cur) || (x =? tgt) || (x <? Z.min cur tgt) || (Z.max cur tgt <? x)) eqn:Hout.
  { apply Hskip. intros [Hy|[Hy|[_ Hy]]]; [by left|by right; left|].
    repeat (apply orb_true_iff in Hout as [Hout|Hout]); zbool; [by left|by right; left|lia|lia]. }
  zbool. assert (Hsup : support cur tgt bs x = ballotsFor bs x).
  { unfold support. rewrite (proj2 (Z.eqb_neq x tgt)), (proj2 (Z.eqb_neq x cur)) by done. lia. }
  destruct (beats (ballotsFor bs x) x weight chosen) eqn:Hbeats; unfold beats in Hbeats.
  - apply orb_true_iff in Hbeats.
    assert (Hb : weight < ballotsFor bs x \/ (ballotsFor bs x = weight /\ x < chosen)) by (destruct Hbeats; zbool; lia).
    split; [apply weighed_snoc; right; split; [done|cbn; lia]|]. split; [by symmetry|]. cbn [fst snd]. intros y Hy Hyx.
    apply weighed_snoc in Hy as [Hy|[-> _]]; [|done]. destruct (decide (y = chosen)) as [->|Hyc]; [lia|]. destruct (Hall y Hy Hyc); lia.
  - apply orb_false_iff in Hbeats as [Hlt%Z.ltb_ge Heq]. split; [apply weighed_snoc; by left|]. split; [done|]. cbn [fst snd].
    intros y Hy Hyc. apply weighed_snoc in Hy as [Hy|[-> _]]; [by apply Hall|]. rewrite Hsup.
    apply andb_false_iff in Heq. destruct Heq; zbool; lia.
Qed.

Lemma fold_leads l done_ acc :
  cur <> tgt -> Forall (fun e => e.2 = ballotsFor bs e.1) l -> leads done_ acc -> leads (done_ ++ l) (foldl (tallyStep v) acc l).
Proof.
  intros Hne Hl. revert done_ acc. induction Hl as [|[x n] l Hn Hl IH]; intros done_ acc Hle; [by rewrite app_nil_r|].
  cbn [foldl]. cbn in Hn. subst n. rewrite cons_middle, app_assoc. apply IH. by apply tallyStep_leads.
Qed.

End Tally.
Lemma getVotes_wins cur tgt bs v order :
  tallied cur tgt bs v -> 0 <= cur -> 0 <= tgt -> ranges order ->
  wins cur tgt bs (getVotes order v).1 /\ (getVotes order v).2 = negb ((getVotes order v).1 =? cur).
Proof.
  intros Hv Hc Ht Ho. unfold getVotes. rewrite !(ballotsAt_exact cur tgt bs v Hv), (tl_cur _ _ _ _ Hv), (tl_tgt _ _ _ _ Hv), (tl_abst _ _ _ _ Hv).
  cbn [fst snd]. split; [|done]. set (start := if beats _ _ _ _ then _ else _). destruct (decide (cur = tgt)) as [<-|Hne].
  - assert (Hst : start.1 = cur) by (unfold start; by go_case).
    assert (Hk : forall acc e, tallyStep v acc e = acc).
    { intros [ch w] [x n]. unfold tallyStep. rewrite (tl_cur _ _ _ _ Hv), (tl_tgt _ _ _ _ Hv). go_case; [done|].
      destruct ((x =? cur) || (x =? cur) || (x <? Z.min cur cur) || (Z.max cur cur <? x)) eqn:Hout; [done|]. zbool. lia. }
    replace (foldl _ start _) with start by (by induction (order (votes v)) as [|e l IH]; cbn; [|rewrite Hk]).
    rewrite Hst. split; [by left|]. intros y [->|[->|Hy]]; [done|done|lia].
  - assert (Hstart : leads cur tgt bs [] start).
    { assert (Hsc : support cur tgt bs cur = abstentions bs + ballotsFor bs cur).
      { unfold support. rewrite Z.eqb_refl, (proj2 (Z.eqb_neq cur tgt)) by done. lia. }
      assert (Hstg : support cur tgt bs tgt = 1 + ballotsFor bs tgt).
      { unfold support. rewrite Z.eqb_refl, (proj2 (Z.eqb_neq tgt cur)) by done. lia. }
      unfold start. rewrite <- Hsc, <- Hstg. unfold beats.
      destruct ((support cur tgt bs tgt <? support cur tgt bs cur) || _) eqn:Hb.
      - split; [by left|]. split; [done|]. cbn [fst snd]. intros y [->|[->|[Hy _]]] Hyne; [done| |by apply elem_of_nil in Hy].
        apply orb_true_iff in Hb. destruct Hb; zbool; lia.
      - split; [by right; left|]. split; [done|]. cbn [fst snd]. intros y [->|[->|[Hy _]]] Hyne; [|done|by apply elem_of_nil in Hy].
        apply orb_false_iff in Hb as [Hlt%Z.ltb_ge Heq]. apply andb_false_iff in Heq. destruct Heq; zbool; lia. }
    assert (Hl : Forall (fun e => e.2 = ballotsFor bs e.1) (order (votes v))).
    { apply list.Forall_forall. intros [x n] Hx. apply (ranges_elem order) in Hx; [|done]. apply (tl_votes _ _ _ _ Hv) in Hx as [_ Hx]. exact Hx. }
    destruct (fold_leads cur tgt bs v Hv Hc Ht (order (votes v)) [] start Hne Hl Hstart) as (Hw & Hs & Hall). cbn [app] in *.
    assert (Hwe : forall x, weighed cur tgt (order (votes v)) x <-> eligible cur tgt bs x).
    { intros x. unfold weighed, eligible. split; (intros [Hx|[Hx|[Hx Hr]]]; [by left|by right; left|right; right; split; [|done]]).
      - apply list_elem_of_fmap in Hx as ([k n] & -> & Hx). apply (ranges_elem order) in Hx; [|done].
        apply (tl_votes _ _ _ _ Hv) in Hx. cbn. lia.
      - apply list_elem_of_fmap. exists (x, ballotsFor bs x). split; [done|]. apply (ranges_elem order); [done|]. by apply (tl_votes _ _ _ _ Hv). }
    split; [by apply Hwe|]. intros y Hy Hyne. rewrite <- Hs. apply Hall; [by apply Hwe|done].
Qed.

(** The three tallies of one round. *)
Lemma tallyVotes_tallied cur tgt vs :
  exists b r i, tallyVotes cur tgt vs = (b, r, i) /\ tallied (sBase cur) (sBase tgt) (voteBase <$> vs) b /\
    tallied (sReserve cur) (sReserve tgt) (voteReserve <$> vs) r /\ tallied (sIncrement cur) (sIncrement tgt) (voteIncrement <$> vs) i.
Proof.
  exists (foldl applyVote (newVotableValue (sBase cur) (sBase tgt)) (voteBase <$> vs)),
    (foldl applyVote (newVotableValue (sReserve cur) (sReserve tgt)) (voteReserve <$> vs)),
    (foldl applyVote (newVotableValue (sIncrement cur) (sIncrement tgt)) (voteIncrement <$> vs)).
  split; [|split; [|split]; apply tallied_all]. unfold tallyVotes.
  generalize (newVotableValue (sBase cur) (sBase tgt)), (newVotableValue (sReserve cur) (sReserve tgt)), (newVotableValue (sIncrement cur) (sIncrement tgt)).
  induction vs as [|v vs IH]; intros b r i; [done|]. apply IH.
Qed.

Definition stance_ok (s : Stance) : Prop := is_uint 64 (sBase s) /\ is_uint 64 (sReserve s) /\ is_uint 64 (sIncrement s).

(** Field by field, the most supported value. *)
Definition electedStance (cur tgt : Stance) (vs : list Vote) (s : Stance) : Prop :=
  wins (sBase cur) (sBase tgt) (voteBase <$> vs) (sBase s) /\
  wins (sReserve cur) (sReserve tgt) (voteReserve <$> vs) (sReserve s) /\
  wins (sIncrement cur) (sIncrement tgt) (voteIncrement <$> vs) (sIncrement s).

Lemma DoVoting_elects order seq cur tgt vs x :
  ranges order -> stance_ok cur -> stance_ok tgt ->
  exists chosen, electedStance cur tgt vs chosen /\
    DoVoting order seq cur tgt vs x =
      if (sBase chosen =? sBase cur) && (sReserve chosen =? sReserve cur) && (sIncrement chosen =? sIncrement cur) then inr None
      else let? tx := buildSetFeeTx seq cur chosen x in inr (Some tx).
Proof.
  intros Ho ([? _] & [? _] & [? _]) ([? _] & [? _] & [? _]). unfold DoVoting.
  destruct (tallyVotes_tallied cur tgt vs) as (b & r & i & -> & Hb & Hr & Hi).
  destruct (getVotes_wins _ _ _ b order Hb) as [Hwb Hcb]; [done..|]. destruct (getVotes_wins _ _ _ r order Hr) as [Hwr Hcr]; [done..|].
  destruct (getVotes_wins _ _ _ i order Hi) as [Hwi Hci]; [done..|].
  destruct (getVotes order b) as [vb cb], (getVotes order r) as [vr cr], (getVotes order i) as [vi ci]. cbn [fst snd] in *. subst cb cr ci.
  exists (mkStance vb vr vi). split; [done|]. cbn [sBase sReserve sIncrement]. by rewrite !negb_involutive.
Qed.
Lemma DoVoting_order order order' seq cur tgt vs x :
  ranges order -> ranges order' -> stance_ok cur -> stance_ok tgt -> DoVoting order seq cur tgt vs x = DoVoting order' seq cur tgt vs x.
Proof.
  intros Ho Ho' Hc Ht. destruct (DoVoting_elects order seq cur tgt vs x Ho Hc Ht) as (c1 & (Hb & Hr & Hi) & ->).
  destruct (DoVoting_elects order' seq cur tgt vs x Ho' Hc Ht) as (c2 & (Hb' & Hr' & Hi') & ->).
  destruct c1 as [b1 r1 i1], c2 as [b2 r2 i2]. cbn in *. rewrite (wins_unique _ _ _ _ _ Hb Hb'), (wins_unique _ _ _ _ _ Hr Hr').
  by rewrite (wins_unique _ _ _ _ _ Hi Hi').
Qed.

Lemma wins_uint cur tgt bs x : is_uint 64 cur -> is_uint 64 tgt -> wins cur tgt bs x -> is_uint 64 x.
Proof. unfold is_uint. intros Hc Ht [[->|[->|[_ Hx]]] _]; lia. Qed.

Lemma parseField_written base v :
  base = 10 \/ base = 16 -> is_uint 64 v -> parseField base (Strconv.FormatUint base v) = Some v.
Proof.
  intros Hb Hv. unfold parseField. pose proof (Strconv.ParseUint_FormatUint base Hb v Hv) as Hp.
  pose proof (Strconv.FormatUint_nonempty base v) as Hne. destruct (Strconv.FormatUint base v); [done|]. by rewrite Hp.
Qed.

(** What a SetFee transaction can say of a chosen value: before XRPFees the
    reserves have 32 bits. *)
Definition adopted (xrpFees : bool) (chosen cur : Z) : Z := if xrpFees || (chosen <=? max_u32) then chosen else cur.

(** The transaction that is built is accepted and applied as built. *)
Lemma built_applies seq cur chosen x tx settings :
  stance_ok chosen -> buildSetFeeTx seq cur chosen x = inr tx ->
  Validate tx = true /\ PreclaimPseudo tx x = TesSUCCESS /\
  exists fees', Apply tx settings x = (TesSUCCESS, Some fees') /\ XRPFeesMode fees' = x /\
    currentStance fees' x = mkStance (sBase chosen) (adopted x (sReserve chosen) (sReserve cur)) (adopted x (sIncrement chosen) (sIncrement cur)).
Proof.
  intros (Hb & Hr & Hi). unfold buildSetFeeTx.
  assert (Hne : forall base v, bool_decide (Strconv.FormatUint base v = EmptyString) = false).
  { intros base v. apply bool_decide_eq_false_2, Strconv.FormatUint_nonempty. }
  destruct x.
  - intros [= <-]. unfold Validate, PreclaimPseudo, Apply, parseFields, hasLegacyFields, hasModernFields.
    cbn [txBaseFee txReferenceFeeUnits txReserveBase txReserveIncrement txBaseFeeDrops txReserveBaseDrops txReserveIncrementDrops].
    rewrite !parseField_written by auto. rewrite !Hne. split; [done|]. split; [done|]. eexists. split; [done|]. by split.
  - destruct (narrowToUint32 (sReserve chosen) _) as [|rb] eqn:Hrb; [done|].
    destruct (narrowToUint32 (sIncrement chosen) _) as [|ri] eqn:Hri; [done|]. intros [= <-].
    assert (Hnar : forall c f v, narrowToUint32 c f = inr v -> adopted false c f = v).
    { intros c f v. unfold narrowToUint32, adopted. cbn [orb]. repeat go_case; by intros [= <-]. }
    apply Hnar in Hrb, Hri. unfold Validate, PreclaimPseudo, Apply, parseFields, hasLegacyFields, hasModernFields.
    cbn [txBaseFee txReferenceFeeUnits txReserveBase txReserveIncrement txBaseFeeDrops txReserveBaseDrops txReserveIncrementDrops].
    rewrite !parseField_written by auto. rewrite !Hne. split; [done|]. split; [done|]. eexists. split; [done|]. split; [done|].
    unfold currentStance. cbn. by rewrite Hrb, Hri.
Qed.

(** C29: A round of the fee vote elects, field by field, the value with the most
    support among the votes that lie between the current value and the node's
    target, the lowest on a tie: validators that do not vote, or vote for an
    impossible amount, stand behind the current value and the node itself behind
    its target. Nothing is proposed exactly when the current values are elected,
    and the outcome does not depend on the order in which the map of votes is
    traversed. *)
Theorem fee_vote_plurality order seq cur tgt vs x :
  ranges order -> stance_ok cur -> stance_ok tgt ->
  exists chosen, electedStance cur tgt vs chosen /\ (forall s, electedStance cur tgt vs s -> s = chosen) /\
    DoVoting order seq cur tgt vs x =
      if bool_decide (chosen = cur) then inr None
      else let? tx := buildSetFeeTx seq cur chosen x in inr (Some tx).
Proof.
  intros Ho Hc Ht. destruct (DoVoting_elects order seq cur tgt vs x Ho Hc Ht) as (chosen & Hel & ->). exists chosen.
  split; [done|]. split.
  - intros s (Hb & Hr & Hi). destruct Hel as (Hb' & Hr' & Hi'). destruct s as [sb sr si], chosen as [cb cr ci]. cbn in *.
    f_equal; by eapply wins_unique.
  - destruct chosen as [cb cr ci], cur as [b r i]. cbn. destruct (Z.eqb_spec cb b) as [->|Hn]; [destruct (Z.eqb_spec cr r) as [->|Hn];
      [destruct (Z.eqb_spec ci i) as [->|Hn]|]|]; cbn; first [by rewrite bool_decide_eq_true_2|by rewrite bool_decide_eq_false_2 by congruence].
Qed.

(** From the vote to the ledger: the SetFee transaction that a round proposes
    passes the checks of the flag ledger under the same rules and leaves there
    the elected base fee and reserves (before XRPFees a reserve that needs more
    than 32 bits stays what it was), so that the next round starts from them. *)
Theorem fee_vote_adopted order fees tgt seq vals x tx :
  ranges order -> stance_ok (currentStance fees x) -> stance_ok tgt ->
  runFeeVote order (Some fees) tgt seq vals x = Some tx ->
  exists chosen fees',
    electedStance (currentStance fees x) tgt ((fun v => extractFeeVote v x) <$> vals) chosen /\
    Validate tx = true /\ PreclaimPseudo tx x = TesSUCCESS /\ Apply tx (Some fees) x = (TesSUCCESS, Some fees') /\
    GetBaseFee fees' = sBase chosen /\
    GetReserveBase fees' = adopted x (sReserve chosen) (sReserve (currentStance fees x)) /\
    GetReserveIncrement fees' = adopted x (sIncrement chosen) (sIncrement (currentStance fees x)) /\
    currentStance fees' x = mkStance (GetBaseFee fees') (GetReserveBase fees') (GetReserveIncrement fees').
Proof.
  intros Ho Hc Ht. unfold runFeeVote. set (vs := _ <$> vals). set (cur := currentStance fees x) in *.
  destruct (DoVoting_elects order seq cur tgt vs x Ho Hc Ht) as (chosen & Hel & ->). destruct (_ && _); [done|].
  destruct (buildSetFeeTx seq cur chosen x) as [|tx'] eqn:Hbuild; [done|]. intros [= ->].
  assert (Hok : stance_ok chosen).
  { destruct Hel as (Hb & Hr & Hi), Hc as (Hcb & Hcr & Hci), Ht as (Htb & Htr & Hti).
    split; [exact (wins_uint _ _ _ _ Hcb Htb Hb)|]. split; [exact (wins_uint _ _ _ _ Hcr Htr Hr)|exact (wins_uint _ _ _ _ Hci Hti Hi)]. }
  destruct (built_applies seq cur chosen x tx (Some fees) Hok Hbuild) as (Hval & Hpre & fees' & Happ & Hmode & Hst).
  exists chosen, fees'. split; [done|]. split; [done|]. split; [done|]. split; [done|].
  unfold GetBaseFee, GetReserveBase, GetReserveIncrement, currentStance in *. rewrite Hmode.
  destruct x; injection Hst; intros Hst3 Hst2 Hst1; (split; [exact Hst1|]); (split; [exact Hst2|]); (split; [exact Hst3|reflexivity]).
Qed.

(** ** Instances *)

Definition legacyFees : FeeSettings := mkFees 0 0 0 10 10 20000000 5000000 false.

Definition modernFees : FeeSettings := mkFees 10 20000000 5000000 0 0 0 0 true.

(** Five validators that ask for a base fee of 12 drops and leave the reserves. *)
Definition askForTwelve : list Validation :=
  (fun i => mkValidation [i] [] 255 true [] 0 0 0 12 0 0 8 8) <$> [1; 2; 3; 4; 5].

Definition twelve : Stance := mkStance 12 20000000 5000000.

(** On settings that are still in the old format when XRPFees is enabled, the
    round starts from zero instead of the fees in force: validators that leave
    the reserves alone are counted for a reserve of nothing, and the proposed
    transaction abolishes both reserves. *)
Example legacy_settings_lose_reserves :
  GetReserveBase legacyFees = 20000000 /\
  exists tx fees', runFeeVote map_to_list (Some legacyFees) twelve 256 askForTwelve true = Some tx /\
    Apply tx (Some legacyFees) true = (TesSUCCESS, Some fees') /\
    GetBaseFee fees' = 12 /\ GetReserveBase fees' = 0 /\ GetReserveIncrement fees' = 0.
Proof. split; [done|]. do 2 eexists. split; [vm_compute; reflexivity|]. split; [vm_compute; reflexivity|]. done. Qed.

Lemma fee_vote_plurality_witness :
  exists chosen, electedStance (currentStance modernFees true) twelve ((fun v => extractFeeVote v true) <$> askForTwelve) chosen.
Proof.
  destruct (fee_vote_plurality map_to_list 256 (currentStance modernFees true) twelve ((fun v => extractFeeVote v true) <$> askForTwelve) true)
    as (chosen & Hel & _); [apply ranges_to_list|vm_compute; intuition discriminate..|].
  exists chosen. exact Hel.
Defined.

Lemma fee_vote_adopted_witness :
  exists tx fees', runFeeVote map_to_list (Some modernFees) twelve 256 askForTwelve true = Some tx /\
    Apply tx (Some modernFees) true = (TesSUCCESS, Some fees').
Proof.
  destruct (runFeeVote map_to_list (Some modernFees) twelve 256 askForTwelve true) as [tx|] eqn:Hrun; [|vm_compute in Hrun; discriminate Hrun].
  destruct (fee_vote_adopted map_to_list modernFees twelve 256 askForTwelve true tx) as (chosen & fees' & _ & _ & _ & Happ & _);
    [apply ranges_to_list|vm_compute; intuition discriminate..|exact Hrun|]. exists tx, fees'. split; [reflexivity|exact Happ].
Defined.

End FeeVote.
