(* ===== verification/AmendmentVote.v ===== *)
(** * The amendment vote (internal/consensus/amendmentvote, adaptor/trusted_votes.go, adaptor/flag_ledger_vote.go, tx/pseudo/enable_amendment.go)

    Before a flag ledger a validator counts which amendments the trusted
    validators support, and proposes EnableAmendment transactions that start or
    clear the majority timer of an amendment or, after two weeks, enable it. The
    flag ledger applies them to the Amendments entry, from which the next round
    starts. Times are seconds since Go's zero time. *)

From Stdlib Require Import ZArith Lia.
From stdpp Require Import base sorting list numbers option strings gmap fin_maps.
From S2P Require Import Prelude Strconv Validation.

Import Validation.

Module AmendmentVote.

Abbreviation Amendment := bytes.

(** ** The cache of recent votes *)

Definition trustedVotesTimeout : Z := 24 * 3600.

(** A zero timeout is an entry without a current vote. *)
Record upvotesAndTimeout := mkEntry { upVotes : list Amendment; timeout : Z }.

Definition noVotes : upvotesAndTimeout := mkEntry [] 0.

Definition hasTimeout (u : upvotesAndTimeout) : bool := negb (timeout u =? 0).

Abbreviation trustedVotes := (gmap bytes upvotesAndTimeout).

Definition trustChanged (t : trustedVotes) (allTrusted : list bytes) : trustedVotes :=
  foldl (fun newSet id => <[id := default noVotes (t !! id)]> newSet) ∅ allTrusted.

Definition recordVote (newTimeout : Z) (t : trustedVotes) (v : Validation) : trustedVotes :=
  match t !! NodeID v with
  | None => t
  | Some _ => <[NodeID v := mkEntry (Amendments v) newTimeout]> t
  end.

Definition expireVote (closeTime : Z) (u : upvotesAndTimeout) : upvotesAndTimeout :=
  if negb (hasTimeout u) then u else if timeout u <? closeTime then noVotes else u.

Definition recordVotes (t : trustedVotes) (closeTime : Z) (validations : list Validation) : trustedVotes :=
  expireVote closeTime <$> foldl (recordVote (closeTime + trustedVotesTimeout)) t validations.

Definition countVote (votes : gmap Amendment Z) (h : Amendment) : gmap Amendment Z := <[h := default 0 (votes !! h) + 1]> votes.

(** [order]: the order in which the cache is traversed. *)
Definition getVotes (order : trustedVotes -> list (bytes * upvotesAndTimeout)) (t : trustedVotes) : Z * gmap Amendment Z :=
  foldl (fun '(available, votes) '(_, entry) =>
           (if hasTimeout entry then available + 1 else available, foldl countVote votes (upVotes entry)))
        (0, ∅) (order t).

(** ** The decision *)

Inductive Stance := VoteAbstain | VoteUp | VoteObsolete.

#[global] Instance Stance_eq_dec : EqDecision Stance.
Proof. solve_decision. Defined.

Definition TfGotMajority : Z := 65536.
Definition TfLostMajority : Z := 131072.

Record Inputs := mkInputs {
  UpcomingSeq : Z;
  CloseTime : Z;
  MajorityTimeout : Z;
  TrustedValidations : Z;
  Votes : gmap Amendment Z;
  Enabled : gmap Amendment bool;
  Majority : gmap Amendment Z;
  Stances : gmap Amendment Stance;
  Known : option (gmap Amendment bool) }.

Record Decision_ := mkDecision { dAmendment : Amendment; dFlags : Z }.

Definition Threshold (trustedValidations : Z) : Z :=
  let t := Z.quot (trustedValidations * 80) 100 in
  if t <? 1 then 1 else t.

Definition passes (votes threshold trustedValidations : Z) : bool :=
  if trustedValidations =? 1 then threshold <=? votes else threshold <? votes.

(** The amendments that are looked at. *)
Definition seen (i : Inputs) : gmap Amendment () :=
  match Known i with
  | Some known => (fun _ => ()) <$> known
  | None => ((fun _ => ()) <$> Stances i) ∪ ((fun _ => ()) <$> Votes i) ∪ ((fun _ => ()) <$> Majority i)
  end.

(** One turn of the loop. *)
Definition decideOne (i : Inputs) (a : Amendment) : option Decision_ :=
  if default false (Enabled i !! a) then None
  else
    let stance := default VoteAbstain (Stances i !! a) in
    let votes := default 0 (Votes i !! a) in
    let hasValMajority := passes votes (Threshold (TrustedValidations i)) (TrustedValidations i) in
    match Majority i !! a with
    | None =>
        if hasValMajority && bool_decide (stance = VoteUp) then Some (mkDecision a TfGotMajority) else None
    | Some majoritySince =>
        if negb hasValMajority then Some (mkDecision a TfLostMajority)
        else if negb (CloseTime i <? majoritySince + MajorityTimeout i) && bool_decide (stance = VoteUp)
        then Some (mkDecision a 0)
        else None
    end.

Definition lessDecision (d d' : Decision_) : bool := bytesLess (dAmendment d) (dAmendment d').

Definition Decide (order : gmap Amendment () -> list (Amendment * ())) (i : Inputs) : list Decision_ :=
  sort_by lessDecision (omap (fun '(a, _) => decideOne i a) (order (seen i))).

(** ** The transaction *)

Record EnableAmendment := mkEnable { eAmendment : string; eFlags : option Z; eLedgerSequence : option Z }.

Definition buildEnableAmendmentTx (seq : Z) (a : Amendment) (flags : Z) : EnableAmendment :=
  mkEnable (Strconv.hexEncode a) (if flags =? 0 then None else Some flags) (Some seq).

Definition DoVoting (order : gmap Amendment () -> list (Amendment * ())) (i : Inputs) : list EnableAmendment :=
  (fun d => buildEnableAmendmentTx (UpcomingSeq i) (dAmendment d) (dFlags d)) <$> Decide order i.

(** The Amendments entry: what is enabled, and since when majorities hold, in
    seconds of network time. *)
Record AmendmentsSLE := mkSLE { slAmendments : list Amendment; slMajorities : list (Amendment * Z) }.

Definition ContainsAmendment (sle : AmendmentsSLE) (h : Amendment) : bool := bool_decide (h ∈ slAmendments sle).

Definition Validate (e : EnableAmendment) : bool := negb (bool_decide (eAmendment e = EmptyString)).

Definition parseAmendmentHash (s : string) : option Amendment :=
  match Strconv.hexDecode (Strconv.trim0x s) with
  | Some b => if bool_decide (length b = 32%nat) then Some b else None
  | None => None
  end.

(** The loop that copies the other majorities; [None] is the return when the
    majority to be recorded is there already. *)
Fixpoint otherMajorities (h : Amendment) (gotMajority : bool) (l : list (Amendment * Z)) : option (list (Amendment * Z) * bool) :=
  match l with
  | [] => Some ([], false)
  | (a, t) :: l =>
      if bool_decide (a = h) then
        if gotMajority then None
        else match otherMajorities h gotMajority l with Some (r, _) => Some (r, true) | None => None end
      else
        match otherMajorities h gotMajority l with Some (r, found) => Some ((a, t) :: r, found) | None => None end
  end.

(** [None] is a ledger without the entry. *)
Definition Apply (e : EnableAmendment) (entry : option AmendmentsSLE) (parentCloseTime : Z) : TER * option AmendmentsSLE :=
  match parseAmendmentHash (eAmendment e) with
  | None => (TefINTERNAL, entry)
  | Some h =>
      let sle := default (mkSLE [] []) entry in
      if ContainsAmendment sle h then (TefALREADY, entry)
      else
        let flags := default 0 (eFlags e) in
        let gotMajority := negb (Z.land flags TfGotMajority =? 0) in
        let lostMajority := negb (Z.land flags TfLostMajority =? 0) in
        if gotMajority && lostMajority then (TemINVALID_FLAG, entry)
        else
          match otherMajorities h gotMajority (slMajorities sle) with
          | None => (TefALREADY, entry)
          | Some (newMajorities, found) =>
              if negb found && lostMajority then (TefALREADY, entry)
              else
                let majorities := if gotMajority then newMajorities ++ [(h, parentCloseTime)] else newMajorities in
                let amendments := if negb gotMajority && negb lostMajority then slAmendments sle ++ [h] else slAmendments sle in
                (TesSUCCESS, Some (mkSLE amendments majorities))
          end
  end.

(** ** The producer *)

Definition FromRippleTime (seconds : Z) : Z := 62135596800 + 946684800 + seconds.

Definition amendmentMajorityTimeout : Z := 14 * 24 * 3600.

(** The maps that a round starts from. *)
Definition readAmendmentsSLE (entry : option AmendmentsSLE) : gmap Amendment bool * gmap Amendment Z :=
  let sle := default (mkSLE [] []) entry in
  (foldl (fun m h => <[h := true]> m) ∅ (slAmendments sle),
   foldl (fun m '(h, t) => <[h := FromRippleTime t]> m) ∅ (slMajorities sle)).

(** [supported] are the amendments the server implements. *)
Definition runAmendmentVote (orderT : trustedVotes -> list (bytes * upvotesAndTimeout))
    (orderA : gmap Amendment () -> list (Amendment * ())) (t : trustedVotes) (entry : option AmendmentsSLE) (closeTime upcomingSeq : Z)
    (parentValidations : list Validation) (stances : gmap Amendment Stance) (supported : list Amendment) :
    trustedVotes * list EnableAmendment :=
  let '(enabled, majority) := readAmendmentsSLE entry in
  let t := recordVotes t closeTime parentValidations in
  let '(available, votes) := getVotes orderT t in
  let known := foldl (fun m a => <[a := true]> m) ∅ supported in
  (t, DoVoting orderA (mkInputs upcomingSeq closeTime amendmentMajorityTimeout available votes enabled majority stances (Some known))).
(** ** Decisions *)

#[global] Instance lessDecision_strict : StrictWeak lessDecision.
Proof.
  unfold lessDecision. split; intros.
  - apply less_irrefl.
  - by eapply less_trans.
  - by eapply less_neg_trans.
Qed.

Lemma decideOne_amendment i a d : decideOne i a = Some d -> dAmendment d = a.
Proof. unfold decideOne. destruct (default false _); [done|]. destruct (Majority i !! a); repeat go_case; by intros [= <-]. Qed.

Lemma Decide_elem order i d :
  ranges order -> d ∈ Decide order i <-> is_Some (seen i !! dAmendment d) /\ decideOne i (dAmendment d) = Some d.
Proof.
  intros Ho. unfold Decide. rewrite sort_by_perm, list_elem_of_omap. split.
  - intros ([a u] & Ha & Hd). apply (ranges_elem order) in Ha; [|done]. pose proof (decideOne_amendment i a d Hd) as ->. split; [by eexists|done].
  - intros [[[] Ha] Hd]. exists (dAmendment d, ()). split; [|done]. by apply (ranges_elem order).
Qed.

Lemma Decide_distinct order i : ranges order -> NoDup (dAmendment <$> Decide order i).
Proof.
  intros Ho. unfold Decide. rewrite sort_by_perm.
  assert (Hnd : NoDup (order (seen i)).*1) by (rewrite (Ho (seen i)); apply NoDup_fst_map_to_list).
  induction (order (seen i)) as [|[a u] l IH]; [constructor|]. cbn in Hnd |- *. inversion_clear Hnd as [|? ? Hin Hnd'].
  destruct (decideOne i a) as [d|] eqn:Hd; [|by apply IH]. cbn. rewrite (decideOne_amendment i a d Hd). constructor; [|by apply IH].
  intros (d' & Hd' & (p & Hp & Hdec)%list_elem_of_omap)%list_elem_of_fmap. destruct p as [a' u'].
  apply decideOne_amendment in Hdec. rewrite Hd', Hdec in Hin. apply Hin, list_elem_of_fmap. by exists (a', u').
Qed.

Lemma Decide_order order order' i : ranges order -> ranges order' -> Decide order i = Decide order' i.
Proof.
  intros Ho Ho'. apply (sorted_by_unique lessDecision); [apply sort_by_sorted, _..| |].
  - unfold Decide. rewrite !sort_by_perm. apply omap_Permutation. by rewrite (Ho (seen i)), (Ho' (seen i)).
  - intros d d' Hd Hd' H1 H2. apply Decide_elem in Hd as [_ Hd]; [|done]. apply Decide_elem in Hd' as [_ Hd']; [|done].
    pose proof (bytesLess_total _ _ H1 H2) as He. rewrite He in Hd. congruence.
Qed.

(** ** Applying a decision

    The entry stands for the set of enabled amendments and the times of the
    recorded majorities. *)

Definition enabledSet (sle : AmendmentsSLE) : gset Amendment := list_to_set (slAmendments sle).

Definition majorityMap (sle : AmendmentsSLE) : gmap Amendment Z := list_to_map (slMajorities sle).

Record wfSLE (sle : AmendmentsSLE) : Prop := {
  wf_enabled : NoDup (slAmendments sle);
  wf_majorities : NoDup (slMajorities sle).*1;
  wf_disjoint : forall a, a ∈ slAmendments sle -> a ∉ (slMajorities sle).*1 }.

Definition isHash (a : Amendment) : Prop := length a = 32%nat /\ all_bytes a.

Lemma parseAmendmentHash_built a : isHash a -> parseAmendmentHash (Strconv.hexEncode a) = Some a.
Proof.
  intros [Hl Hb]. unfold parseAmendmentHash. rewrite Strconv.trim0x_hexEncode, Strconv.hexDecode_hexEncode by done.
  by rewrite bool_decide_eq_true_2.
Qed.

Lemma otherMajorities_got h l : h ∉ l.*1 -> forall got, otherMajorities h got l = Some (l, false).
Proof.
  intros Hh got. induction l as [|[a t] l IH]; [done|]. cbn in *. apply not_elem_of_cons in Hh as [Hne Hh].
  rewrite bool_decide_eq_false_2 by done. by rewrite IH.
Qed.

Lemma otherMajorities_drop h l :
  NoDup l.*1 -> h ∈ l.*1 ->
  exists l', otherMajorities h false l = Some (l', true) /\ l'.*1 `sublist_of` l.*1 /\
    (list_to_map l' : gmap Amendment Z) = delete h (list_to_map l).
Proof.
  induction l as [|[a t] l IH]; intros Hnd Hh; [by apply elem_of_nil in Hh|]. cbn in *. inversion_clear Hnd as [|? ? Ha Hnd'].
  apply elem_of_cons in Hh as [->|Hh].
  - rewrite bool_decide_eq_true_2 by done. rewrite otherMajorities_got by done. exists l. split; [done|]. split; [by constructor|].
    rewrite delete_insert_id; [done|]. by apply not_elem_of_list_to_map_1.
  - assert (a <> h) by (by intros ->). rewrite bool_decide_eq_false_2 by done. destruct (IH Hnd' Hh) as (l' & -> & Hsub & Hm).
    exists ((a, t) :: l'). split; [done|]. split; [by constructor|]. cbn. rewrite Hm. by rewrite delete_insert_ne.
Qed.

(** A decision that suits the entry. *)
Definition fitting (E : gset Amendment) (M : gmap Amendment Z) (d : Decision_) : Prop :=
  isHash (dAmendment d) /\ dAmendment d ∉ E /\
  ((dFlags d = TfGotMajority /\ M !! dAmendment d = None) \/
   (dFlags d = TfLostMajority /\ is_Some (M !! dAmendment d)) \/
   (dFlags d = 0 /\ is_Some (M !! dAmendment d))).

(** What it does to the two. *)
Definition effectE (E : gset Amendment) (d : Decision_) : gset Amendment :=
  if dFlags d =? 0 then E ∪ {[dAmendment d]} else E.

Definition effectM (M : gmap Amendment Z) (d : Decision_) (now : Z) : gmap Amendment Z :=
  if dFlags d =? TfGotMajority then <[dAmendment d := now]> M else delete (dAmendment d) M.

Lemma majorityMap_elem sle a : wfSLE sle -> is_Some (majorityMap sle !! a) <-> a ∈ (slMajorities sle).*1.
Proof.
  intros Hw. unfold majorityMap. split.
  - intros [t Ht]. apply elem_of_list_to_map_2 in Ht. apply list_elem_of_fmap. by exists (a, t).
  - intros Ha. destruct (list_to_map (M := gmap Amendment Z) (slMajorities sle) !! a) eqn:Hl; [by eexists|].
    by apply not_elem_of_list_to_map_2 in Hl.
Qed.

Lemma Apply_fits entry d seq now :
  wfSLE (default (mkSLE [] []) entry) ->
  fitting (enabledSet (default (mkSLE [] []) entry)) (majorityMap (default (mkSLE [] []) entry)) d ->
  exists sle', Apply (buildEnableAmendmentTx seq (dAmendment d) (dFlags d)) entry now = (TesSUCCESS, Some sle') /\ wfSLE sle' /\
    enabledSet sle' = effectE (enabledSet (default (mkSLE [] []) entry)) d /\
    majorityMap sle' = effectM (majorityMap (default (mkSLE [] []) entry)) d now.
Proof.
  set (sle := default _ entry). intros Hw (Hh & HE & Hcase). unfold Apply, buildEnableAmendmentTx. cbn [eAmendment eFlags]. fold sle.
  rewrite parseAmendmentHash_built by done. unfold ContainsAmendment.
  assert (Hnot : dAmendment d ∉ slAmendments sle) by (unfold enabledSet in HE; by rewrite elem_of_list_to_set in HE).
  rewrite bool_decide_eq_false_2 by done. destruct sle as [am mj] eqn:Hsle. cbn [slAmendments slMajorities] in *.
  destruct Hw as [Hnd Hndm Hdis]. cbn [slAmendments slMajorities] in *.
  assert (Hin : is_Some (majorityMap (mkSLE am mj) !! dAmendment d) -> dAmendment d ∈ mj.*1).
  { apply (majorityMap_elem (mkSLE am mj)). by split. }
  unfold effectE, effectM. destruct Hcase as [[-> Hm]|[[-> Hm]|[-> Hm]]].
  - assert (Hni : dAmendment d ∉ mj.*1).
    { intros Hc. apply (majorityMap_elem (mkSLE am mj)) in Hc as [t Ht]; [congruence|by split]. }
    cbn. rewrite otherMajorities_got by done. exists (mkSLE am (mj ++ [(dAmendment d, now)])). split; [done|]. split.
    + split; cbn [slAmendments slMajorities]; [done| |].
      * rewrite fmap_app. apply NoDup_app. split; [done|]. split; [|apply NoDup_singleton]. intros x Hx ->%list_elem_of_singleton. done.
      * intros a Ha. rewrite fmap_app, not_elem_of_app. cbn [fmap list_fmap fst]. rewrite list_elem_of_singleton. split; [by apply Hdis|by intros ->].
    + split; [done|]. unfold majorityMap. cbn. rewrite list_to_map_snoc; [done|done].
  - destruct (otherMajorities_drop (dAmendment d) mj Hndm (Hin Hm)) as (l' & Ho & Hsub & Hmap).
    change (Z.land (default 0 (if TfLostMajority =? 0 then None else Some TfLostMajority)) TfGotMajority) with 0. cbn. rewrite Ho.
    exists (mkSLE am l'). split; [done|]. split; [|by split; [|done]]. split; cbn; [done|by eapply sublist_NoDup|].
    intros a Ha Hc. apply (Hdis a Ha). by eapply elem_of_sublist.
  - destruct (otherMajorities_drop (dAmendment d) mj Hndm (Hin Hm)) as (l' & Ho & Hsub & Hmap).
    change (Z.land (default 0 (if 0 =? 0 then None else Some 0)) TfGotMajority) with 0. cbn. rewrite Ho.
    exists (mkSLE (am ++ [dAmendment d]) l'). split; [done|]. split; [|split; [|done]].
    + split; cbn; [|by eapply sublist_NoDup|].
      * apply NoDup_app. split; [done|]. split; [|apply NoDup_singleton]. intros x Hx ->%list_elem_of_singleton. done.
      * intros a [Ha| ->%list_elem_of_singleton]%elem_of_app Hc; [apply (Hdis a Ha); by eapply elem_of_sublist|].
        assert (Hn : (list_to_map l' : gmap Amendment Z) !! dAmendment d = None) by (rewrite Hmap; apply lookup_delete_eq).
        by apply not_elem_of_list_to_map_2 in Hn.
    + unfold enabledSet. cbn. rewrite list_to_set_app_L. cbn. set_solver.
Qed.
(** ** Rounds

    One flag ledger: the votes of the round, counted against the ledger, and the
    proposed transactions applied to it. *)

Record Round := mkRound {
  rSeq : Z; rCloseTime : Z; rParentClose : Z; rTrusted : Z; rVotes : gmap Amendment Z; rStances : gmap Amendment Stance;
  rKnown : gmap Amendment bool }.

Definition roundInputs (entry : option AmendmentsSLE) (r : Round) : Inputs :=
  let '(enabled, majority) := readAmendmentsSLE entry in
  mkInputs (rSeq r) (rCloseTime r) amendmentMajorityTimeout (rTrusted r) (rVotes r) enabled majority (rStances r) (Some (rKnown r)).

Definition applyAll (now : Z) (txs : list EnableAmendment) (entry : option AmendmentsSLE) : list TER * option AmendmentsSLE :=
  foldl (fun '(rs, entry) tx => let '(res, entry') := Apply tx entry now in (rs ++ [res], entry')) ([], entry) txs.

Definition roundStep (order : gmap Amendment () -> list (Amendment * ())) (entry : option AmendmentsSLE) (r : Round) :
    list TER * option AmendmentsSLE :=
  applyAll (rParentClose r) (DoVoting order (roundInputs entry r)) entry.

Definition contentsOf (entry : option AmendmentsSLE) : AmendmentsSLE := default (mkSLE [] []) entry.

Lemma foldl_insert_lookup {V} (f : Z -> V) (l : list (Amendment * Z)) (m0 : gmap Amendment V) a :
  NoDup l.*1 ->
  foldl (fun m '(h, t) => <[h := f t]> m) m0 l !! a =
  match (list_to_map l : gmap Amendment Z) !! a with Some t => Some (f t) | None => m0 !! a end.
Proof.
  revert m0. induction l as [|[h t] l IH]; intros m0 Hnd; [done|]. cbn in *. inversion_clear Hnd as [|? ? Hh Hnd']. rewrite IH by done.
  destruct (decide (h = a)) as [->|Hne].
  - rewrite lookup_insert_eq. rewrite not_elem_of_list_to_map_1 by done. by rewrite lookup_insert_eq.
  - rewrite (lookup_insert_ne (list_to_map l)) by done. by rewrite (lookup_insert_ne m0).
Qed.

Lemma read_enabled entry a : default false ((readAmendmentsSLE entry).1 !! a) = bool_decide (a ∈ enabledSet (contentsOf entry)).
Proof.
  unfold readAmendmentsSLE, enabledSet. fold (contentsOf entry). cbn [fst]. set (l := slAmendments (contentsOf entry)).
  assert (Hg : forall m0, default false (foldl (fun m h => <[h := true]> m) m0 l !! a) =
    bool_decide (a ∈ l) || default false ((m0 : gmap Amendment bool) !! a)).
  { induction l as [|h l IH]; intros m0; [done|]. cbn [foldl]. rewrite IH. destruct (decide (h = a)) as [->|Hne].
    - rewrite lookup_insert_eq. cbn. rewrite (bool_decide_eq_true_2 (a ∈ a :: l)) by left. by rewrite orb_true_r.
    - rewrite lookup_insert_ne by done. f_equal. apply bool_decide_ext. rewrite elem_of_cons. naive_solver. }
  rewrite Hg, lookup_empty. cbn. rewrite orb_false_r. apply bool_decide_ext. by rewrite elem_of_list_to_set.
Qed.

Lemma read_majority entry a :
  wfSLE (contentsOf entry) -> (readAmendmentsSLE entry).2 !! a = FromRippleTime <$> majorityMap (contentsOf entry) !! a.
Proof.
  intros Hw. unfold readAmendmentsSLE, majorityMap. fold (contentsOf entry). cbn [snd].
  rewrite (foldl_insert_lookup FromRippleTime _ ∅ a (wf_majorities _ Hw)). rewrite lookup_empty. by destruct (_ !! a).
Qed.

Definition knownHashes (r : Round) : Prop := forall a, is_Some (rKnown r !! a) -> isHash a.

Lemma decided_fits order entry r d :
  ranges order -> wfSLE (contentsOf entry) -> knownHashes r -> d ∈ Decide order (roundInputs entry r) ->
  fitting (enabledSet (contentsOf entry)) (majorityMap (contentsOf entry)) d.
Proof.
  intros Ho Hw Hk. rewrite Decide_elem by done. intros [Hs Hd].
  pose proof (read_enabled entry (dAmendment d)) as He. pose proof (read_majority entry (dAmendment d) Hw) as Hm.
  unfold roundInputs in *. destruct (readAmendmentsSLE entry) as [en mj]. cbn [fst snd] in *. unfold seen in Hs. cbn [Known] in Hs.
  assert (Hh : isHash (dAmendment d)).
  { apply Hk. destruct Hs as [u Hs]. rewrite lookup_fmap in Hs. destruct (rKnown r !! dAmendment d); [by eexists|done]. }
  revert Hd. unfold decideOne. cbn [Enabled Majority Stances Votes TrustedValidations CloseTime MajorityTimeout]. rewrite He, Hm.
  destruct (bool_decide_reflect (dAmendment d ∈ enabledSet (contentsOf entry))) as [|Hne]; [done|].
  destruct (majorityMap (contentsOf entry) !! dAmendment d) as [t|] eqn:Ht; cbn [fmap option_fmap option_map].
  - go_case; [intros [= Hd]|go_case; [|done]; intros [= Hd]]; (split; [done|]); (split; [done|]); right; [left|right];
      rewrite Ht; (split; [by rewrite <- Hd|by eexists]).
  - go_case; [|done]. intros [= Hd]. split; [done|]. split; [done|]. left. rewrite Ht. split; [by rewrite <- Hd|done].
Qed.

Lemma fitting_other E M now d d' :
  dAmendment d' <> dAmendment d -> fitting E M d' -> fitting (effectE E d) (effectM M d now) d'.
Proof.
  intros Hne (Hh & HE & Hcase). split; [done|]. split.
  - unfold effectE. destruct (_ =? _); set_solver.
  - assert (Hl : effectM M d now !! dAmendment d' = M !! dAmendment d').
    { unfold effectM. destruct (_ =? _); [by rewrite lookup_insert_ne|by rewrite lookup_delete_ne]. }
    by rewrite Hl.
Qed.

(** All of a round's transactions succeed. *)
Lemma applyAll_fits seq now ds entry rs :
  wfSLE (contentsOf entry) -> NoDup (dAmendment <$> ds) ->
  Forall (fitting (enabledSet (contentsOf entry)) (majorityMap (contentsOf entry))) ds ->
  exists rs' entry',
    foldl (fun '(rs, entry) tx => let '(res, entry') := Apply tx entry now in (rs ++ [res], entry')) (rs, entry)
      ((fun d => buildEnableAmendmentTx seq (dAmendment d) (dFlags d)) <$> ds) = (rs ++ rs', entry') /\
    Forall (fun t => t = TesSUCCESS) rs' /\ wfSLE (contentsOf entry') /\
    enabledSet (contentsOf entry') = foldl effectE (enabledSet (contentsOf entry)) ds /\
    majorityMap (contentsOf entry') = foldl (fun M d => effectM M d now) (majorityMap (contentsOf entry)) ds.
Proof.
  revert entry rs. induction ds as [|d ds IH]; intros entry rs Hw Hnd Hfit.
  { exists [], entry. rewrite app_nil_r. split; [done|]. split; [constructor|]. by split. }
  cbn [fmap list_fmap foldl] in *. inversion_clear Hnd as [|? ? Hd Hnd']. inversion_clear Hfit as [|? ? Hfd Hfit'].
  destruct (Apply_fits entry d seq now Hw Hfd) as (sle' & -> & Hw' & HE & HM).
  destruct (IH (Some sle') (rs ++ [TesSUCCESS])) as (rs' & entry' & -> & Hok & Hwf & HE' & HM'); [done|done| |].
  - change (contentsOf (Some sle')) with sle'. rewrite HE, HM.
    apply list.Forall_forall. intros d' Hd'. rewrite list.Forall_forall in Hfit'. apply fitting_other; [|by apply Hfit'].
    intros He. apply Hd. rewrite <- He. by apply list_elem_of_fmap_2.
  - exists (TesSUCCESS :: rs'), entry'. split; [by rewrite <- app_assoc|]. split; [by constructor|]. split; [done|].
    change (contentsOf (Some sle')) with sle' in HE', HM'. rewrite HE', HM', HE, HM. done.
Qed.
Lemma foldE_other ds E a : a ∉ dAmendment <$> ds -> a ∈ foldl effectE E ds <-> a ∈ E.
Proof.
  revert E. induction ds as [|d ds IH]; intros E Ha; [done|]. cbn in *. apply not_elem_of_cons in Ha as [Hne Ha]. rewrite IH by done.
  unfold effectE. destruct (_ =? _); set_solver.
Qed.

Lemma foldM_other now ds M a : a ∉ dAmendment <$> ds -> foldl (fun M d => effectM M d now) M ds !! a = M !! a.
Proof.
  revert M. induction ds as [|d ds IH]; intros M Ha; [done|]. cbn in *. apply not_elem_of_cons in Ha as [Hne Ha]. rewrite IH by done.
  unfold effectM. destruct (_ =? _); [by rewrite lookup_insert_ne|by rewrite lookup_delete_ne].
Qed.

Lemma foldE_decided ds E d :
  NoDup (dAmendment <$> ds) -> d ∈ ds -> dAmendment d ∈ foldl effectE E ds <-> dAmendment d ∈ effectE E d.
Proof.
  revert E. induction ds as [|d' ds IH]; intros E Hnd Hd; [by apply elem_of_nil in Hd|]. cbn in *.
  inversion_clear Hnd as [|? ? Hd' Hnd']. apply elem_of_cons in Hd as [->|Hd]; [by apply foldE_other|]. rewrite IH by done.
  assert (dAmendment d <> dAmendment d') by (intros He; apply Hd'; rewrite <- He; by apply list_elem_of_fmap_2).
  unfold effectE. destruct (_ =? _), (_ =? _); set_solver.
Qed.

Lemma foldM_decided now ds M d :
  NoDup (dAmendment <$> ds) -> d ∈ ds -> foldl (fun M d => effectM M d now) M ds !! dAmendment d = effectM M d now !! dAmendment d.
Proof.
  revert M. induction ds as [|d' ds IH]; intros M Hnd Hd; [by apply elem_of_nil in Hd|]. cbn in *.
  inversion_clear Hnd as [|? ? Hd' Hnd']. apply elem_of_cons in Hd as [->|Hd]; [by apply foldM_other|]. rewrite IH by done.
  assert (dAmendment d <> dAmendment d') by (intros He; apply Hd'; rewrite <- He; by apply list_elem_of_fmap_2).
  unfold effectM. destruct (_ =? _); [by rewrite !lookup_insert_eq|by rewrite !lookup_delete_eq].
Qed.

(** ** The life of one amendment *)

Inductive status := NoMajority | MajoritySince (t : Z) | IsEnabled.

Definition statusOf (entry : option AmendmentsSLE) (a : Amendment) : status :=
  if bool_decide (a ∈ enabledSet (contentsOf entry)) then IsEnabled
  else match majorityMap (contentsOf entry) !! a with Some t => MajoritySince t | None => NoMajority end.

Definition passesIn (a : Amendment) (r : Round) : bool :=
  passes (default 0 (rVotes r !! a)) (Threshold (rTrusted r)) (rTrusted r).

Definition upIn (a : Amendment) (r : Round) : bool := bool_decide (default VoteAbstain (rStances r !! a) = VoteUp).

(** The majority has lasted. *)
Definition matured (t : Z) (r : Round) : bool := FromRippleTime t + amendmentMajorityTimeout <=? rCloseTime r.

(** What a flag ledger does to it. *)
Definition nextStatus (a : Amendment) (s : status) (r : Round) : status :=
  match s with
  | IsEnabled => IsEnabled
  | NoMajority => if passesIn a r && upIn a r then MajoritySince (rParentClose r) else NoMajority
  | MajoritySince t =>
      if negb (passesIn a r) then NoMajority else if matured t r && upIn a r then IsEnabled else MajoritySince t
  end.

(** The decision on an amendment, by its status. *)
Lemma decideOne_status entry r a :
  wfSLE (contentsOf entry) ->
  decideOne (roundInputs entry r) a =
  match statusOf entry a with
  | IsEnabled => None
  | NoMajority => if passesIn a r && upIn a r then Some (mkDecision a TfGotMajority) else None
  | MajoritySince t =>
      if negb (passesIn a r) then Some (mkDecision a TfLostMajority)
      else if matured t r && upIn a r then Some (mkDecision a 0) else None
  end.
Proof.
  intros Hw. pose proof (read_enabled entry a) as He. pose proof (read_majority entry a Hw) as Hm. unfold roundInputs.
  destruct (readAmendmentsSLE entry) as [en mj]. cbn [fst snd] in *. unfold decideOne, statusOf, passesIn, upIn, matured.
  cbn [Enabled Majority Stances Votes TrustedValidations CloseTime MajorityTimeout]. rewrite He, Hm.
  destruct (bool_decide (a ∈ enabledSet (contentsOf entry))); [done|].
  destruct (majorityMap (contentsOf entry) !! a) as [t|]; cbn [fmap option_fmap option_map]; [|done].
  by rewrite Z.leb_antisym.
Qed.

Lemma roundStep_status order entry r :
  ranges order -> wfSLE (contentsOf entry) -> knownHashes r ->
  Forall (fun t => t = TesSUCCESS) (roundStep order entry r).1 /\ wfSLE (contentsOf (roundStep order entry r).2) /\
  forall a, statusOf (roundStep order entry r).2 a =
    if bool_decide (is_Some (rKnown r !! a)) then nextStatus a (statusOf entry a) r else statusOf entry a.
Proof.
  intros Ho Hw Hk. set (ds := Decide order (roundInputs entry r)).
  assert (Hnd : NoDup (dAmendment <$> ds)) by (by apply Decide_distinct).
  assert (Hfit : Forall (fitting (enabledSet (contentsOf entry)) (majorityMap (contentsOf entry))) ds).
  { apply list.Forall_forall. intros d Hd. by apply (decided_fits order entry r). }
  destruct (applyAll_fits (UpcomingSeq (roundInputs entry r)) (rParentClose r) ds entry [] Hw Hnd Hfit) as (rs' & entry' & Heq & Hok & Hwf & HE & HM).
  assert (Hstep : roundStep order entry r = (rs', entry')) by (unfold roundStep, applyAll, DoVoting; exact Heq).
  rewrite Hstep. cbn [fst snd]. split; [done|]. split; [done|]. intros a.
  assert (Hseen : forall d, d ∈ ds <-> is_Some (rKnown r !! dAmendment d) /\ decideOne (roundInputs entry r) (dAmendment d) = Some d).
  { intros d. unfold ds. rewrite Decide_elem by done. unfold roundInputs. destruct (readAmendmentsSLE entry). unfold seen. cbn [Known].
    by rewrite lookup_fmap, fmap_is_Some. }
  pose proof (decideOne_status entry r a Hw) as Hdec.
  destruct (decide (a ∈ dAmendment <$> ds)) as [Hin|Hout].
  - apply list_elem_of_fmap in Hin as (d & -> & Hd). apply Hseen in Hd as Hd'. destruct Hd' as [Hkn Hd'].
    rewrite bool_decide_eq_true_2 by done. rewrite Hd' in Hdec. unfold statusOf at 1. rewrite HE, HM.
    rewrite (bool_decide_ext _ _ (foldE_decided ds _ d Hnd Hd)), (foldM_decided _ _ _ _ Hnd Hd).
    assert (Hn : dAmendment d ∉ enabledSet (contentsOf entry)) by (rewrite list.Forall_forall in Hfit; by destruct (Hfit d Hd) as (_ & ? & _)).
    unfold effectE, effectM, nextStatus. destruct (statusOf entry (dAmendment d)) as [|t|]; [| |done].
    + destruct (passesIn _ r && upIn _ r); [|done]. injection Hdec as ->. cbn. by rewrite bool_decide_eq_false_2, lookup_insert_eq.
    + destruct (negb (passesIn _ r)).
      * injection Hdec as ->. cbn. by rewrite bool_decide_eq_false_2, lookup_delete_eq.
      * destruct (matured t r && upIn _ r); [|done]. injection Hdec as ->. cbn. rewrite bool_decide_eq_true_2; [done|]. set_solver.
  - unfold statusOf at 1. rewrite HE, HM, (bool_decide_ext _ _ (foldE_other ds _ a Hout)), foldM_other by done. fold (statusOf entry a).
    case_bool_decide as Hkn; [|done].
    assert (Hnone : decideOne (roundInputs entry r) a = None).
    { destruct (decideOne (roundInputs entry r) a) as [d|] eqn:Hd; [|done]. destruct Hout. pose proof (decideOne_amendment _ _ _ Hd) as <-.
      apply list_elem_of_fmap_2, Hseen. by rewrite Hd. }
    rewrite Hnone in Hdec. unfold nextStatus. destruct (statusOf entry a) as [|t|]; [| |done].
    + by destruct (passesIn a r && upIn a r).
    + destruct (negb (passesIn a r)); [done|]. by destruct (matured t r && upIn a r).
Qed.
Definition runRounds (order : gmap Amendment () -> list (Amendment * ())) (entry : option AmendmentsSLE) (rs : list Round) :
    option AmendmentsSLE :=
  foldl (fun entry r => (roundStep order entry r).2) entry rs.

(** Rounds of a server that implements the amendment. *)
Definition votesOn (a : Amendment) (r : Round) : Prop := knownHashes r /\ is_Some (rKnown r !! a).

Lemma runRounds_status order entry rs a :
  ranges order -> wfSLE (contentsOf entry) -> Forall (votesOn a) rs ->
  statusOf (runRounds order entry rs) a = foldl (nextStatus a) (statusOf entry a) rs.
Proof.
  intros Ho Hw Hrs. revert entry Hw. induction Hrs as [|r rs [Hk Ha] Hrs IH]; intros entry Hw; [done|].
  change (runRounds order entry (r :: rs)) with (runRounds order (roundStep order entry r).2 rs). cbn [foldl].
  destruct (roundStep_status order entry r Ho Hw Hk) as (_ & Hw' & Hst). rewrite IH by done. rewrite Hst. by rewrite bool_decide_eq_true_2.
Qed.

(** Majorities, and what enables, go back to a round that started the timer. *)
Definition sustained (a : Amendment) (r0 : Round) (mid : list Round) : Prop :=
  upIn a r0 = true /\ Forall (fun r => passesIn a r = true) (r0 :: mid).

Lemma status_history a rs :
  match foldl (nextStatus a) NoMajority rs with
  | NoMajority => True
  | MajoritySince t => exists pre r0 mid, rs = pre ++ r0 :: mid /\ rParentClose r0 = t /\ sustained a r0 mid
  | IsEnabled => exists pre r0 mid r1 post, rs = pre ++ r0 :: mid ++ r1 :: post /\ sustained a r0 (mid ++ [r1]) /\
                   upIn a r1 = true /\ matured (rParentClose r0) r1 = true
  end.
Proof.
  induction rs as [|r rs IH] using rev_ind; [done|]. rewrite foldl_app. cbn [foldl].
  destruct (foldl (nextStatus a) NoMajority rs) as [|t|]; cbn [nextStatus].
  - destruct (passesIn a r && upIn a r) eqn:Hp; [|done]. apply andb_true_iff in Hp as [Hp Hu].
    exists rs, r, []. split; [done|]. split; [done|]. split; [done|]. by constructor.
  - destruct IH as (pre & r0 & mid & -> & <- & Hu & Hall). destruct (passesIn a r) eqn:Hp; cbn [negb]; [|done].
    assert (Hall' : Forall (fun r => passesIn a r = true) (r0 :: mid ++ [r])).
    { rewrite app_comm_cons. apply Forall_app. split; [done|]. by constructor. }
    destruct (matured (rParentClose r0) r && upIn a r) eqn:Hm.
    + apply andb_true_iff in Hm as [Hm Hu']. exists pre, r0, mid, r, []. split; [by rewrite <- app_assoc|]. done.
    + exists pre, r0, (mid ++ [r]). split; [by rewrite <- app_assoc|]. done.
  - destruct IH as (pre & r0 & mid & r1 & post & -> & Hrest). exists pre, r0, mid, r1, (post ++ [r]). split; [|done].
    rewrite <- app_assoc. cbn. by rewrite <- app_assoc.
Qed.

(** Support that does not cease enables. *)
Lemma status_progress a r0 mid r1 :
  Forall (fun r => passesIn a r = true /\ upIn a r = true) (r0 :: mid ++ [r1]) -> matured (rParentClose r0) r1 = true ->
  foldl (nextStatus a) NoMajority (r0 :: mid ++ [r1]) = IsEnabled.
Proof.
  intros Hall Hm. inversion_clear Hall as [|? ? [Hp Hu] Hall']. apply Forall_app in Hall' as [Hmid Hlast].
  inversion_clear Hlast as [|? ? [Hp1 Hu1] _]. cbn [foldl nextStatus]. rewrite Hp, Hu. cbn [andb]. rewrite foldl_app.
  assert (Hk : foldl (nextStatus a) (MajoritySince (rParentClose r0)) mid = MajoritySince (rParentClose r0) \/
               foldl (nextStatus a) (MajoritySince (rParentClose r0)) mid = IsEnabled).
  { clear Hm. induction mid as [|r mid IH] using rev_ind; [by left|]. apply Forall_app in Hmid as [Hmid Hr]. inversion_clear Hr as [|? ? [Hpr Hur] _].
    rewrite foldl_app. destruct (IH Hmid) as [->| ->]; cbn [foldl nextStatus]; [|by right]. rewrite Hpr. cbn [negb].
    destruct (matured _ r && upIn a r); [by right|by left]. }
  destruct Hk as [->| ->]; cbn [foldl nextStatus]; [|done]. by rewrite Hp1, Hm, Hu1.
Qed.

(** C13: A flag ledger: every EnableAmendment transaction that the round proposes
    succeeds on the ledger it was decided for, whatever the order in which the
    maps are traversed, and moves each amendment exactly as its status allows: a
    majority among the validators starts the timer if the server is for the
    amendment, a lost majority clears it, and one that held for two weeks enables
    it; amendments the server does not implement are left alone. *)
Theorem flag_round_refines order entry r :
  ranges order -> wfSLE (contentsOf entry) -> knownHashes r ->
  Forall (fun t => t = TesSUCCESS) (roundStep order entry r).1 /\ wfSLE (contentsOf (roundStep order entry r).2) /\
  (forall a, statusOf (roundStep order entry r).2 a =
     if bool_decide (is_Some (rKnown r !! a)) then nextStatus a (statusOf entry a) r else statusOf entry a) /\
  (forall order', ranges order' -> roundStep order' entry r = roundStep order entry r).
Proof.
  intros Ho Hw Hk. destruct (roundStep_status order entry r Ho Hw Hk) as (Hok & Hw' & Hst). split; [done|]. split; [done|]. split; [done|].
  intros order' Ho'. unfold roundStep, DoVoting. by rewrite (Decide_order order' order).
Qed.

(** C12: No amendment is enabled without a sustained majority: if it is enabled after
    some rounds, the server was for it in a round that started the timer, the
    validators' majority held in that round and in every one up to a later round,
    at least two weeks on, in which the server was for it again. *)
Theorem enable_needs_sustained_majority order entry rs a :
  ranges order -> wfSLE (contentsOf entry) -> Forall (votesOn a) rs ->
  statusOf entry a = NoMajority -> statusOf (runRounds order entry rs) a = IsEnabled ->
  exists pre r0 mid r1 post, rs = pre ++ r0 :: mid ++ r1 :: post /\
    Forall (fun r => passesIn a r = true) (r0 :: mid ++ [r1]) /\ upIn a r0 = true /\ upIn a r1 = true /\
    FromRippleTime (rParentClose r0) + amendmentMajorityTimeout <= rCloseTime r1.
Proof.
  intros Ho Hw Hrs H0. rewrite runRounds_status, H0 by done. intros Hen. pose proof (status_history a rs) as Hh. rewrite Hen in Hh.
  destruct Hh as (pre & r0 & mid & r1 & post & -> & [Hu Hall] & Hu1 & Hm). exists pre, r0, mid, r1, post. split; [done|].
  split; [done|]. split; [done|]. split; [done|]. by apply Z.leb_le.
Qed.

(** C31: Support that does not cease enables: when the majority holds and the server
    is for the amendment in every round, it is enabled by the first round that is
    two weeks after the one that started the timer. *)
Theorem sustained_majority_enables order entry r0 mid r1 a :
  ranges order -> wfSLE (contentsOf entry) -> Forall (votesOn a) (r0 :: mid ++ [r1]) -> statusOf entry a = NoMajority ->
  Forall (fun r => passesIn a r = true /\ upIn a r = true) (r0 :: mid ++ [r1]) ->
  FromRippleTime (rParentClose r0) + amendmentMajorityTimeout <= rCloseTime r1 ->
  statusOf (runRounds order entry (r0 :: mid ++ [r1])) a = IsEnabled.
Proof.
  intros Ho Hw Hrs H0 Hall Hm. rewrite runRounds_status, H0 by done. apply status_progress; [done|]. by apply Z.leb_le.
Qed.
(** ** The tally

    The cache stands for the latest vote of every trusted validator: when it was
    recorded, and for what. *)

Inductive cacheOp := TrustChanged (allTrusted : list bytes) | RecordVotes (closeTime : Z) (validations : list Validation).

Definition execOp (t : trustedVotes) (o : cacheOp) : trustedVotes :=
  match o with TrustChanged ids => trustChanged t ids | RecordVotes now vals => recordVotes t now vals end.

Abbreviation latestVotes := (gmap bytes (option (Z * list Amendment))).

Definition noteOp (l : latestVotes) (o : cacheOp) : latestVotes :=
  match o with
  | TrustChanged ids => foldl (fun m id => <[id := default None (l !! id)]> m) ∅ ids
  | RecordVotes now vals =>
      foldl (fun l v => match l !! NodeID v with None => l | Some _ => <[NodeID v := Some (now, Amendments v)]> l end) l vals
  end.

(** Recorded at most a day ago. *)
Definition heard (now : Z) (v : option (Z * list Amendment)) : bool :=
  match v with Some (c, _) => now <=? c + trustedVotesTimeout | None => false end.

Definition supports (now : Z) (a : Amendment) (v : option (Z * list Amendment)) : bool :=
  heard now v && match v with Some (_, ams) => bool_decide (a ∈ ams) | None => false end.

Definition tallyOf (P : option (Z * list Amendment) -> bool) (l : latestVotes) : Z :=
  Z.of_nat (length (filter (fun e => P e.2) (map_to_list l))).

(** Close times do not go back. *)
Fixpoint timely (now : Z) (ops : list cacheOp) : Prop :=
  match ops with
  | [] => True
  | TrustChanged _ :: ops => timely now ops
  | RecordVotes c _ :: ops => now <= c /\ timely c ops
  end.

Fixpoint clock (now : Z) (ops : list cacheOp) : Z :=
  match ops with [] => now | TrustChanged _ :: ops => clock now ops | RecordVotes c _ :: ops => clock c ops end.

Definition entryOf (now : Z) (v : option (Z * list Amendment)) : upvotesAndTimeout :=
  match v with
  | Some (c, ams) => if heard now v then mkEntry ams (c + trustedVotesTimeout) else noVotes
  | None => noVotes
  end.

Definition soundVote (now : Z) (v : option (Z * list Amendment)) : Prop :=
  match v with Some (c, _) => 0 <= c <= now | None => True end.

Definition cached (now : Z) (t : trustedVotes) (l : latestVotes) : Prop :=
  t = entryOf now <$> l /\ map_Forall (fun _ v => soundVote now v) l.

Lemma cached_trust now t l ids : cached now t l -> cached now (trustChanged t ids) (noteOp l (TrustChanged ids)).
Proof.
  intros [-> Hs]. unfold trustChanged, noteOp.
  assert (Hg : forall m, map_Forall (fun _ v => soundVote now v) m ->
    cached now (foldl (fun newSet id => <[id := default noVotes ((entryOf now <$> l) !! id)]> newSet) (entryOf now <$> m) ids)
      (foldl (fun m id => <[id := default None (l !! id)]> m) m ids)).
  { induction ids as [|id ids IH]; intros m Hm; [by split|]. cbn [foldl]. specialize (IH (<[id := default None (l !! id)]> m)).
    rewrite fmap_insert in IH. replace (default noVotes _) with (entryOf now (default None (l !! id))).
    - apply IH, map_Forall_insert_2; [|done]. destruct (l !! id) as [v|] eqn:Hl; [by apply (Hs id)|done].
    - rewrite lookup_fmap. by destruct (l !! id). }
  specialize (Hg ∅). rewrite fmap_empty in Hg. apply Hg, map_Forall_empty.
Qed.

Lemma cached_record now now' t l vals :
  cached now t l -> 0 <= now -> now <= now' ->
  cached now' (recordVotes t now' vals) (noteOp l (RecordVotes now' vals)).
Proof.
  intros [-> Hs] H0 Hle. unfold recordVotes, noteOp.
  assert (Hg : forall t l, expireVote now' <$> t = entryOf now' <$> l -> map_Forall (fun _ v => soundVote now' v) l ->
    cached now' (expireVote now' <$> foldl (recordVote (now' + trustedVotesTimeout)) t vals)
      (foldl (fun l v => match l !! NodeID v with None => l | Some _ => <[NodeID v := Some (now', Amendments v)]> l end) l vals)).
  { clear Hs. induction vals as [|v vals IH]; intros t' l' Heq Hs; [by split|]. cbn [foldl]. unfold recordVote at 2.
    assert (Hdom : is_Some (t' !! NodeID v) <-> is_Some (l' !! NodeID v)).
    { rewrite <- (fmap_is_Some (expireVote now') (t' !! NodeID v)), <- (fmap_is_Some (entryOf now') (l' !! NodeID v)), <- !lookup_fmap, Heq. done. }
    destruct (t' !! NodeID v) as [e|] eqn:Ht, (l' !! NodeID v) as [o|] eqn:Hl; [|by destruct Hdom as [[? ?] _]|by destruct Hdom as [_ [? ?]]|by apply IH].
    apply IH.
    - rewrite !fmap_insert, Heq. f_equal. unfold expireVote, entryOf, heard, hasTimeout. cbn [timeout].
      assert (Hn : now' + trustedVotesTimeout =? 0 = false) by (apply Z.eqb_neq; unfold trustedVotesTimeout; lia). rewrite Hn. cbn [negb].
      rewrite (proj2 (Z.ltb_ge _ _)), (proj2 (Z.leb_le _ _)) by (unfold trustedVotesTimeout; lia). done.
    - apply map_Forall_insert_2; [|done]. cbn. lia. }
  apply Hg.
  - rewrite <- map_fmap_compose. apply map_fmap_ext. intros id v Hid. pose proof (Hs id v Hid) as Hsv. cbn.
    destruct v as [[c ams]|]; [|done]. cbn in Hsv. unfold entryOf, heard, expireVote. destruct (Z.leb_spec now (c + trustedVotesTimeout)) as [Hh|Hh].
    + unfold hasTimeout. cbn [timeout]. assert (Hn : c + trustedVotesTimeout =? 0 = false) by (apply Z.eqb_neq; unfold trustedVotesTimeout; lia).
      rewrite Hn. cbn [negb]. rewrite Z.ltb_antisym. by destruct (now' <=? c + trustedVotesTimeout).
    + rewrite (proj2 (Z.leb_gt now' _)) by lia. done.
  - eapply map_Forall_impl; [exact Hs|]. intros id [[c ams]|]; [|done]. cbn. lia.
Qed.

Lemma cached_ops now ops t l :
  cached now t l -> 0 <= now -> timely now ops -> cached (clock now ops) (foldl execOp t ops) (foldl noteOp l ops) /\ 0 <= clock now ops.
Proof.
  revert now t l. induction ops as [|[ids|c vals] ops IH]; intros now t l Hc H0 Ht; [done| |]; cbn in *.
  - apply IH; [by apply cached_trust|done|done].
  - destruct Ht as (Hle & Ht). apply IH; [by eapply cached_record|lia|done].
Qed.

Definition occurrences (a : Amendment) (l : list Amendment) : Z := Z.of_nat (length (filter (fun h => bool_decide (h = a)) l)).

Definition ballotsOf (now : Z) (a : Amendment) (v : option (Z * list Amendment)) : Z :=
  match v with Some (_, ams) => if heard now v then occurrences a ams else 0 | None => 0 end.

(** How often an amendment is named by the validators heard from. *)
Definition ballots (now : Z) (a : Amendment) (l : latestVotes) : Z := foldr (fun e n => ballotsOf now a e.2 + n) 0 (map_to_list l).

(** No validation names an amendment twice. *)
Definition namedOnce (ops : list cacheOp) : Prop :=
  Forall (fun o => match o with RecordVotes _ vals => Forall (fun v => NoDup (Amendments v)) vals | TrustChanged _ => True end) ops.

Lemma foldl_countVote (a : Amendment) (l : list Amendment) (m : gmap Amendment Z) : default 0 (foldl countVote m l !! a) = default 0 (m !! a) + occurrences a l.
Proof.
  unfold occurrences. revert m. induction l as [|h l IH]; intros m; [cbn; lia|]. cbn [foldl]. rewrite IH, filter_test_cons. unfold countVote.
  case_bool_decide as He.
  - subst h. rewrite lookup_insert_eq. cbn. lia.
  - by rewrite lookup_insert_ne.
Qed.

Lemma countVote_comm votes h h' : countVote (countVote votes h) h' = countVote (countVote votes h') h.
Proof.
  unfold countVote. destruct (decide (h = h')) as [->|Hne]; [done|].
  rewrite !lookup_insert_ne by congruence. by apply insert_insert_ne.
Qed.

(** The tally does not depend on the order of the cache. *)
Lemma getVotes_order order order' t : ranges order -> ranges order' -> getVotes order t = getVotes order' t.
Proof.
  intros Ho Ho'. unfold getVotes. apply foldl_permute; [|by rewrite (Ho t), (Ho' t)].
  intros [available votes] [k e] [k' e']. f_equal; [destruct (hasTimeout e), (hasTimeout e'); done|].
  rewrite <- !foldl_app. apply foldl_permute; [apply countVote_comm|apply Permutation_app_comm].
Qed.

Lemma occurrences_once a l : NoDup l -> occurrences a l = if bool_decide (a ∈ l) then 1 else 0.
Proof.
  unfold occurrences. induction 1 as [|h l Hh Hnd IH]; [done|]. rewrite filter_test_cons. destruct (decide (h = a)) as [->|Hne].
  - rewrite !bool_decide_eq_true_2 by (done || left). cbn. rewrite bool_decide_eq_false_2 in IH by done. lia.
  - rewrite (bool_decide_eq_false_2 (h = a)) by done. rewrite IH. rewrite (bool_decide_ext (a ∈ h :: l) (a ∈ l)); [done|]. rewrite elem_of_cons. naive_solver.
Qed.

Lemma ballots_perm (now : Z) (a : Amendment) (l : latestVotes) (es : list (bytes * option (Z * list Amendment))) :
  es ≡ₚ map_to_list l -> foldr (fun e n => ballotsOf now a e.2 + n) 0 es = ballots now a l.
Proof.
  unfold ballots. generalize (map_to_list l). intros es' Hp.
  induction Hp; cbn [foldr]; lia.
Qed.

Lemma getVotes_tally (now : Z) (order : trustedVotes -> list (bytes * upvotesAndTimeout)) (l : latestVotes) :
  ranges order -> map_Forall (fun _ v => soundVote now v) l ->
  (getVotes order (entryOf now <$> l)).1 = tallyOf (heard now) l /\
  forall a, default 0 ((getVotes order (entryOf now <$> l)).2 !! a) = ballots now a l.
Proof.
  intros Ho Hs. unfold getVotes, tallyOf.
  set (step := fun '(available, votes) '(_, entry) => _).
  assert (Hstep : forall es n m, Forall (fun e => soundVote now e.2) es ->
    (foldl step (n, m) (prod_map id (entryOf now) <$> es)).1 = n + Z.of_nat (length (filter (fun e => heard now e.2) es)) /\
    forall a, default 0 ((foldl step (n, m) (prod_map id (entryOf now) <$> es)).2 !! a) =
      default 0 (m !! a) + foldr (fun e n => ballotsOf now a e.2 + n) 0 es).
  { intros es. induction es as [|[k v] es IH]; intros n m Hes; [cbn; split; [lia|intros a; lia]|].
    inversion_clear Hes as [|? ? Hv Hes']. cbn [snd] in Hv. rewrite fmap_cons. cbn [foldl foldr].
    change (step (n, m) (prod_map id (entryOf now) (k, v))) with
      (if hasTimeout (entryOf now v) then n + 1 else n, foldl countVote m (upVotes (entryOf now v))).
    destruct (IH (if hasTimeout (entryOf now v) then n + 1 else n) (foldl countVote m (upVotes (entryOf now v))) Hes') as [-> Hvotes].
    rewrite filter_test_cons. cbn [snd].
    assert (Hht : hasTimeout (entryOf now v) = heard now v).
    { destruct v as [[c ams]|]; [|done]. cbn in Hv |- *. destruct (now <=? c + trustedVotesTimeout); [|done].
      unfold hasTimeout, trustedVotesTimeout. cbn [timeout]. apply negb_true_iff, Z.eqb_neq. lia. }
    rewrite Hht in Hvotes |- *. split; [destruct (heard now v); cbn [length]; lia|]. intros a. rewrite Hvotes, foldl_countVote.
    assert (Hoc : occurrences a (upVotes (entryOf now v)) = ballotsOf now a v).
    { destruct v as [[c ams]|]; [|done]. cbn in Hv |- *. by destruct (now <=? c + trustedVotesTimeout). }
    rewrite Hoc. lia. }
  assert (Hes : Forall (fun e => soundVote now e.2) (map_to_list l)).
  { apply list.Forall_forall. intros [id v] Hin%elem_of_map_to_list. by apply (Hs id). }
  assert (Hperm : order (entryOf now <$> l) ≡ₚ prod_map id (entryOf now) <$> map_to_list l) by (by rewrite (Ho _), map_to_list_fmap).
  apply (Permutation_map_inv (prod_map id (entryOf now))) in Hperm as (es & Heq & Hes').
  setoid_rewrite Heq. change (map (prod_map id (entryOf now)) es) with (prod_map id (entryOf now) <$> es).
  destruct (Hstep es 0 ∅) as [Hn Hv]; [by rewrite <- Hes'|]. rewrite Hn, Hes'. split; [lia|]. intros a.
  rewrite Hv, lookup_empty, (ballots_perm now a l es) by done. cbn. lia.
Qed.

Lemma noteOp_once (ops : list cacheOp) (l : latestVotes) :
  namedOnce ops -> map_Forall (fun _ v => match v with Some (_, ams) => NoDup ams | None => True end) l ->
  map_Forall (fun _ v => match v with Some (_, ams) => NoDup ams | None => True end) (foldl noteOp l ops).
Proof.
  intros Hops. revert l. induction Hops as [|[ids|c vals] ops Ho Hops IH]; intros l Hl; [done| |]; cbn [foldl]; apply IH; cbn [noteOp].
  - assert (Hm : map_Forall (fun _ v => match v with Some (_, ams) => NoDup ams | None => True end) (∅ : latestVotes)) by apply map_Forall_empty.
    revert Hm. generalize (∅ : latestVotes). induction ids as [|id ids IHi]; intros m Hm; [done|]. cbn [foldl]. apply IHi, map_Forall_insert_2; [|done].
    destruct (l !! id) as [v|] eqn:Hv; [by apply (Hl id)|done].
  - clear IH. revert l Hl. induction Ho as [|v vals Hv _ IHv]; intros l Hl; [done|]. cbn [foldl]. apply IHv.
    destruct (l !! NodeID v); [|done]. by apply map_Forall_insert_2.
Qed.

Lemma ballots_once (now : Z) (a : Amendment) (l : latestVotes) :
  map_Forall (fun _ v => match v with Some (_, ams) => NoDup ams | None => True end) l -> ballots now a l = tallyOf (supports now a) l.
Proof.
  intros Hl. unfold ballots, tallyOf.
  assert (Hes : Forall (fun e : bytes * option (Z * list Amendment) => match e.2 with Some (_, ams) => NoDup ams | None => True end) (map_to_list l)).
  { apply list.Forall_forall. intros [id v] Hin%elem_of_map_to_list. by apply (Hl id). }
  induction Hes as [|[id v] es Hv _ IH]; [done|]. cbn [foldr]. rewrite IH, filter_test_cons. cbn [snd] in *. unfold supports, ballotsOf.
  destruct v as [[c ams]|]; [|done]. destruct (heard now (Some (c, ams))); cbn [andb]; [|done]. rewrite occurrences_once by done.
  destruct (bool_decide (a ∈ ams)); cbn [length]; lia.
Qed.

Lemma ballots_bounds (now : Z) (a : Amendment) (l : latestVotes) : 0 <= tallyOf (heard now) l /\ 0 <= ballots now a l /\ (tallyOf (heard now) l = 0 -> ballots now a l = 0).
Proof.
  unfold ballots, tallyOf. induction (map_to_list l) as [|[id v] es IH]; [done|]. cbn [foldr]. rewrite filter_test_cons. cbn [snd].
  destruct v as [[c ams]|]; [|cbn; exact IH]. unfold ballotsOf at 1 3. destruct (heard now (Some (c, ams))); cbn [length]; [|exact IH].
  destruct IH as (I1 & I2 & I3). assert (0 <= occurrences a ams) by (unfold occurrences; lia). split_and!; lia.
Qed.

Lemma passes_exact sup n :
  0 <= n -> 0 <= sup -> (n = 0 -> sup = 0) -> passes sup (Threshold n) n = true <-> (if n =? 1 then 1 <= sup else 80 * n < 100 * sup).
Proof.
  intros Hn0 Hs0 Hs. unfold passes, Threshold. rewrite Z.quot_div_nonneg by lia. destruct (Z.eqb_spec n 1) as [->|Hn].
  - cbn. rewrite Z.leb_le. done.
  - rewrite Z.ltb_lt. destruct (Z.ltb_spec (n * 80 / 100) 1); dmlia.
Qed.

(** C32: The tally of a round: whatever validations were recorded, in the order of time,
    and however the set of trusted validators changed, an amendment passes exactly
    when the validators heard from in the last day name it in their latest
    validations more often than four fifths of their number (with a single validator:
    at all). If no validation names an amendment twice, that is the number of
    validators that name it. *)
Theorem amendment_tally_exact (order : trustedVotes -> list (bytes * upvotesAndTimeout)) (ops : list cacheOp) (a : Amendment) :
  ranges order -> timely 0 ops ->
  let now := clock 0 ops in
  let latest := foldl noteOp ∅ ops in
  let available := (getVotes order (foldl execOp ∅ ops)).1 in
  let votes := default 0 ((getVotes order (foldl execOp ∅ ops)).2 !! a) in
  available = tallyOf (heard now) latest /\ votes = ballots now a latest /\
  (namedOnce ops -> votes = tallyOf (supports now a) latest) /\
  (passes votes (Threshold available) available = true <-> if available =? 1 then 1 <= votes else 80 * available < 100 * votes).
Proof.
  intros Ho Ht now latest available votes.
  destruct (cached_ops 0 ops ∅ ∅) as [[Heq Hs] _]; [split; [by rewrite fmap_empty|apply map_Forall_empty]|done|done|].
  destruct (getVotes_tally (clock 0 ops) order (foldl noteOp ∅ ops) Ho Hs) as [Hav Hvo]. rewrite <- Heq in Hav, Hvo.
  split; [exact Hav|]. split; [exact (Hvo a)|]. unfold votes, available. rewrite (Hvo a), Hav. split.
  - intros Hn. apply ballots_once, noteOp_once; [done|apply map_Forall_empty].
  - destruct (ballots_bounds (clock 0 ops) a (foldl noteOp ∅ ops)) as (H1 & H2 & H3). by apply passes_exact.
Qed.

(** ** Instances *)

Definition hash7 : Amendment := replicate 32 7.

(** Five validators, of which the first names the amendment as often as [times]. *)
Definition fiveValidators (times : nat) : list cacheOp :=
  let ids := (fun i => [i]) <$> [1; 2; 3; 4; 5] in
  [TrustChanged ids;
   RecordVotes 1000000 ((fun i => mkValidation [i] [] 255 true (if i =? 1 then replicate times hash7 else []) 0 0 0 0 0 0 0 0) <$> [1; 2; 3; 4; 5])].

(** A validation is not required to name an amendment once: a single validator
    that repeats it reaches the majority of five alone. *)
Example repeated_vote_counts :
  let t := foldl execOp ∅ (fiveValidators 5) in
  let available := (getVotes map_to_list t).1 in
  available = 5 /\ passes (default 0 ((getVotes map_to_list t).2 !! hash7)) (Threshold available) available = true /\
  tallyOf (supports 1000000 hash7) (foldl noteOp ∅ (fiveValidators 5)) = 1.
Proof. vm_compute. repeat split; reflexivity. Qed.

Lemma amendment_tally_exact_witness :
  default 0 ((getVotes map_to_list (foldl execOp ∅ (fiveValidators 5))).2 !! hash7) = ballots 1000000 hash7 (foldl noteOp ∅ (fiveValidators 5)) /\
  default 0 ((getVotes map_to_list (foldl execOp ∅ (fiveValidators 1))).2 !! hash7) = tallyOf (supports 1000000 hash7) (foldl noteOp ∅ (fiveValidators 1)).
Proof.
  assert (Ht : forall n, timely 0 (fiveValidators n)) by (intros n; cbn; split; [lia|exact I]). split.
  - apply (amendment_tally_exact map_to_list (fiveValidators 5) hash7 (ranges_to_list) (Ht 5%nat)).
  - apply (amendment_tally_exact map_to_list (fiveValidators 1) hash7 (ranges_to_list) (Ht 1%nat)).
    repeat constructor; apply not_elem_of_nil.
Defined.

(** Three rounds in which four of four validators are for the amendment, the last
    one two weeks after the first. *)
Definition favourable (seq closeTime : Z) : Round :=
  mkRound seq (FromRippleTime closeTime) (closeTime + 4) 4 {[hash7 := 4]} {[hash7 := VoteUp]} {[hash7 := true]}.

Definition twoWeeks : list Round := [favourable 256 1000; favourable 512 2000; favourable 768 1300000].

Lemma hash7_known seq c : knownHashes (favourable seq c).
Proof.
  intros a Ha. cbn [favourable rKnown] in Ha. destruct (decide (a = hash7)) as [->|Hne].
  - split; [reflexivity|]. apply Forall_replicate. split; reflexivity || discriminate.
  - rewrite lookup_singleton_ne in Ha by congruence. by destruct Ha.
Qed.

Lemma favourable_votesOn seq c : votesOn hash7 (favourable seq c).
Proof. split; [apply hash7_known|]. cbn [favourable rKnown]. rewrite lookup_singleton_eq. by eexists. Qed.

Lemma twoWeeks_votesOn : Forall (votesOn hash7) twoWeeks.
Proof. unfold twoWeeks. do 3 (apply Forall_cons_2; [apply favourable_votesOn|]). by apply Forall_nil. Qed.

Lemma noEntry_wf : wfSLE (contentsOf None).
Proof. split; [constructor..|]. intros a Ha. by apply elem_of_nil in Ha. Qed.

Lemma flag_round_refines_witness :
  statusOf (roundStep map_to_list None (favourable 256 1000)).2 hash7 = MajoritySince 1004.
Proof.
  destruct (flag_round_refines map_to_list None (favourable 256 1000)) as (_ & _ & Hst & _);
    [apply ranges_to_list|apply noEntry_wf|apply hash7_known|]. rewrite Hst. vm_compute. reflexivity.
Defined.

Lemma enable_needs_sustained_majority_witness :
  exists pre r0 mid r1 post, twoWeeks = pre ++ r0 :: mid ++ r1 :: post /\
    FromRippleTime (rParentClose r0) + amendmentMajorityTimeout <= rCloseTime r1.
Proof.
  destruct (enable_needs_sustained_majority map_to_list None twoWeeks hash7) as (pre & r0 & mid & r1 & post & Heq & _ & _ & _ & Hm).
  - apply ranges_to_list.
  - apply noEntry_wf.
  - apply twoWeeks_votesOn.
  - vm_compute. reflexivity.
  - vm_compute. reflexivity.
  - exists pre, r0, mid, r1, post. split; [exact Heq|exact Hm].
Defined.

Lemma sustained_majority_enables_witness : statusOf (runRounds map_to_list None twoWeeks) hash7 = IsEnabled.
Proof.
  apply (sustained_majority_enables map_to_list None (favourable 256 1000) [favourable 512 2000] (favourable 768 1300000) hash7).
  - apply ranges_to_list.
  - apply noEntry_wf.
  - apply twoWeeks_votesOn.
  - vm_compute. reflexivity.
  - repeat constructor; vm_compute; reflexivity.
  - vm_compute. discriminate.
Defined.

End AmendmentVote.
