(* ===== verification/NegUnlVote.v ===== *)
(** * The negative-UNL vote (internal/consensus/negativeunlvote, adaptor/negative_unl_vote.go, tx/pseudo/unl_modify.go, ledger/negativeunl)

    Before a flag ledger a validator proposes to disable one validator of its list
    that has been silent, and to enable one again that is back. UNLModify
    transactions stage the two in the NegativeUNL entry; the next flag ledger
    carries them out before anything else. The node identifier of a key, RIPEMD-160
    of SHA-256, is an argument: that function is a library's. *)

From Stdlib Require Import ZArith Lia.
From stdpp Require Import base sorting list numbers option strings gmap fin_maps fin_sets.
From S2P Require Import Prelude Strconv Validation.

Import Validation.

Module NegUnlVote.

Definition FlagLedgerInterval : Z := 256.

Definition IsFlagLedger (seq : Z) : bool := seq mod FlagLedgerInterval =? 0.

Definition lowWaterMark : Z := Z.quot (FlagLedgerInterval * 50) 100.
Definition highWaterMark : Z := Z.quot (FlagLedgerInterval * 80) 100.
Definition minLocalValsToVote : Z := Z.quot (FlagLedgerInterval * 90) 100.
Definition newValidatorDisableSkip : Z := FlagLedgerInterval * 2.

(** ** The ledger entry *)

(** An empty pending key is none. The fields of the previous transaction are carried
    along. *)
Record NegativeUNLSLE := mkNeg {
  DisabledValidators : list (bytes * Z); ValidatorToDisable : bytes; ValidatorToReEnable : bytes;
  PreviousTxnID : bytes; PreviousTxnLgrSeq : Z }.

Definition emptyNeg : NegativeUNLSLE := mkNeg [] [] [] [] 0.

Definition ContainsValidator (sle : NegativeUNLSLE) (k : bytes) : bool := bool_decide (k ∈ (DisabledValidators sle).*1).

(** The flag ledger carries out what is pending; [None] is a ledger without the
    entry. *)
Definition UpdateNegativeUNL (entry : option NegativeUNLSLE) (ledgerIndex : Z) : option NegativeUNLSLE :=
  match entry with
  | None => None
  | Some sle =>
      let hasToDisable := negb (bool_decide (ValidatorToDisable sle = [])) in
      let hasToReEnable := negb (bool_decide (ValidatorToReEnable sle = [])) in
      if negb hasToDisable && negb hasToReEnable then entry
      else
        let filtered := if hasToReEnable then filter (fun dv => negb (bool_decide (dv.1 = ValidatorToReEnable sle))) (DisabledValidators sle)
                        else DisabledValidators sle in
        let disabled := if hasToDisable then filtered ++ [(ValidatorToDisable sle, ledgerIndex)] else filtered in
        match disabled with
        | [] => None
        | _ => Some (mkNeg disabled [] [] (PreviousTxnID sle) (PreviousTxnLgrSeq sle))
        end
  end.

Record UNLModify := mkModify { UNLModifyDisabling : option Z; mLedgerSequence : option Z; UNLModifyValidator : string }.

Definition isValidPublicKeyType (k : bytes) : bool :=
  bool_decide (length k = 33%nat) &&
  match k with x :: _ => (x =? 237) || (x =? 2) || (x =? 3) | [] => false end.

Definition Apply (u : UNLModify) (entry : option NegativeUNLSLE) (ledgerSeq : Z) : TER * option NegativeUNLSLE :=
  if negb (IsFlagLedger ledgerSeq) then (TefFAILURE, entry)
  else
    match UNLModifyDisabling u, mLedgerSequence u with
    | Some disabling, Some seq =>
        if (1 <? disabling) || bool_decide (UNLModifyValidator u = EmptyString) then (TefFAILURE, entry)
        else if negb (seq =? ledgerSeq) then (TefFAILURE, entry)
        else
          match Strconv.hexDecode (UNLModifyValidator u) with
          | None => (TefFAILURE, entry)
          | Some validator =>
              if negb (isValidPublicKeyType validator) then (TefFAILURE, entry)
              else
                let sle := default emptyNeg entry in
                let found := ContainsValidator sle validator in
                let has k := negb (bool_decide (k = [])) in
                if disabling =? 1 then
                  if has (ValidatorToDisable sle) then (TefFAILURE, entry)
                  else if has (ValidatorToReEnable sle) && bool_decide (ValidatorToReEnable sle = validator) then (TefFAILURE, entry)
                  else if found then (TefFAILURE, entry)
                  else (TesSUCCESS, Some (mkNeg (DisabledValidators sle) validator (ValidatorToReEnable sle) (PreviousTxnID sle) (PreviousTxnLgrSeq sle)))
                else
                  if has (ValidatorToReEnable sle) then (TefFAILURE, entry)
                  else if has (ValidatorToDisable sle) && bool_decide (ValidatorToDisable sle = validator) then (TefFAILURE, entry)
                  else if negb found then (TefFAILURE, entry)
                  else (TesSUCCESS, Some (mkNeg (DisabledValidators sle) (ValidatorToDisable sle) validator (PreviousTxnID sle) (PreviousTxnLgrSeq sle)))
          end
    | _, _ => (TefFAILURE, entry)
    end.

(** ** The voter *)

Record State := mkState { DisabledKeys : list bytes; ToDisablePending : option bytes; ToReEnablePending : option bytes }.

Definition negativeUNLState (entry : option NegativeUNLSLE) : State :=
  let sle := default emptyNeg entry in
  let pending k := if bool_decide (length k = 33%nat) then Some k else None in
  mkState (filter (fun k => bool_decide (length k = 33%nat)) (DisabledValidators sle).*1)
    (pending (ValidatorToDisable sle)) (pending (ValidatorToReEnable sle)).

Definition effectiveNegUNL (s : State) : gmap bytes () :=
  let out := foldl (fun m k => <[k := ()]> m) ∅ (DisabledKeys s) in
  let out := match ToDisablePending s with Some k => <[k := ()]> out | None => out end in
  match ToReEnablePending s with Some k => delete k out | None => out end.

Record Voter := mkVoter { myID : bytes; newValidators : gmap bytes Z }.

Definition NewVoter (id : bytes) : Voter := mkVoter id ∅.

Definition NewValidators (v : Voter) (seq : Z) (nowTrusted : list bytes) : Voter :=
  mkVoter (myID v) (foldl (fun m n => match m !! n with Some _ => m | None => <[n := seq]> m end) (newValidators v) nowTrusted).

(** The age of an entry wraps around like the sequence numbers. *)
Definition purgeNewValidators (v : Voter) (seq : Z) : Voter :=
  mkVoter (myID v) (filter (fun '(_, addedSeq) => negb (newValidatorDisableSkip <? u32 (seq - addedSeq))) (newValidators v)).

Definition xorCalcNodeID (n pad : bytes) : bytes := zip_with Z.lxor (take 20 n) (take 20 pad).

(** The loop after the first candidate. *)
Definition chooseFrom (pad best : bytes) (candidates : list bytes) : bytes :=
  foldl (fun best c => if bytesLess (xorCalcNodeID c pad) (xorCalcNodeID best pad) then c else best) best candidates.

Record candidateSet := mkCandidates { toDisable : list bytes; toReEnable : list bytes }.

Inductive voteError := ErrLocalCountAtThreshold | ErrLocalCountExceedsWindow.

Definition buildUNLModifyTx (seq : Z) (validator : bytes) (disable : bool) : UNLModify :=
  mkModify (Some (if disable then 1 else 0)) (Some seq) (Strconv.hexEncode validator).

(** The orders in which the maps are traversed. *)
Record Orders := mkOrders {
  overScores : gmap bytes Z -> list (bytes * Z); overIDs : gmap bytes () -> list (bytes * ()); overKeys : gmap bytes () -> list (bytes * ()) }.

Definition findAllCandidates (o : Orders) (v : Voter) (unl : gmap bytes bytes) (negUNL : gmap bytes ()) (scoreTable : gmap bytes Z) :
    candidateSet :=
  let maxListed := Z.quot (Z.of_nat (size unl) + 3) 4 in
  let isNeg n := bool_decide (is_Some (negUNL !! n)) in
  let listed := Z.of_nat (length (filter (fun e => isNeg e.1) (map_to_list unl))) in
  let canAdd := listed <? maxListed in
  let isNew n := bool_decide (is_Some (newValidators v !! n)) in
  let scores := overScores o scoreTable in
  let disable := filter (fun '(n, score) => canAdd && (score <? lowWaterMark) && negb (isNeg n) && negb (isNew n)) scores in
  let reEnable := (filter (fun '(n, score) => (highWaterMark <? score) && isNeg n) scores).*1 in
  let fallback := filter (fun n => negb (bool_decide (is_Some (unl !! n)))) (overIDs o negUNL).*1 in
  mkCandidates disable.*1 (match reEnable with [] => fallback | _ => reEnable end).

Section Vote.
Context (keyToNodeID : bytes -> bytes).

Definition nodeIDs (unlKeys : list bytes) : gmap bytes bytes := foldl (fun m k => <[keyToNodeID k := k]> m) ∅ unlKeys.

Definition keyIndex (o : Orders) (unl : gmap bytes bytes) (negKeys : gmap bytes ()) : gmap bytes bytes :=
  foldl (fun m '(k, _) => match m !! keyToNodeID k with Some _ => m | None => <[keyToNodeID k := k]> m end) unl (overKeys o negKeys).

Definition negIDs (o : Orders) (negKeys : gmap bytes ()) : gmap bytes () :=
  foldl (fun m '(k, _) => <[keyToNodeID k := ()]> m) ∅ (overKeys o negKeys).

(** The transaction for the chosen candidate, if there is any. *)
Definition proposal (seq : Z) (pad : bytes) (keyByNode : gmap bytes bytes) (candidates : list bytes) (disable : bool) : list UNLModify :=
  match candidates with
  | [] => []
  | best :: rest => [buildUNLModifyTx seq (default [] (keyByNode !! chooseFrom pad best rest)) disable]
  end.

Definition DoVoting (o : Orders) (v : Voter) (prevLedgerSeq : Z) (prevLedgerHash : bytes) (unlKeys : list bytes) (state : State)
    (scoreTable : gmap bytes Z) : Voter * (voteError + list UNLModify) :=
  let unlNodeIDs := nodeIDs unlKeys in
  let filledScoreTable := map_imap (fun n _ => Some (default 0 (scoreTable !! n))) unlNodeIDs in
  let myCount := default 0 (filledScoreTable !! myID v) in
  if myCount <? minLocalValsToVote then (v, inr [])
  else if myCount =? minLocalValsToVote then (v, inl ErrLocalCountAtThreshold)
  else if FlagLedgerInterval <? myCount then (v, inl ErrLocalCountExceedsWindow)
  else
    let negUnlKeys := effectiveNegUNL state in
    let keyByNode := keyIndex o unlNodeIDs negUnlKeys in
    let upcomingSeq := u32 (prevLedgerSeq + 1) in
    let v := purgeNewValidators v upcomingSeq in
    let c := findAllCandidates o v unlNodeIDs (negIDs o negUnlKeys) filledScoreTable in
    (v, inr (proposal upcomingSeq prevLedgerHash keyByNode (toDisable c) true ++
             proposal upcomingSeq prevLedgerHash keyByNode (toReEnable c) false)).

End Vote.
(** ** Choosing *)

Lemma xorCalcNodeID_inj a b pad :
  length a = 20%nat -> length b = 20%nat -> (20 <= length pad)%nat -> xorCalcNodeID a pad = xorCalcNodeID b pad -> a = b.
Proof.
  intros Ha Hb Hp. unfold xorCalcNodeID. rewrite !take_ge by lia. assert (Hl : length (take 20 pad) = 20%nat) by (rewrite length_take; lia).
  revert Hl. generalize (take 20 pad). revert b Ha Hb. generalize 20%nat. intros n. revert a. clear Hp.
  induction n as [|n IH]; intros [|x a] [|y b] Ha Hb [|z p] Hl; try done. cbn. intros [= Hxy Hab].
  f_equal; [|by eapply IH; [..|exact Hab]; cbn in *; lia].
  apply (f_equal (Z.lxor z)) in Hxy. rewrite !(Z.lxor_comm z), !Z.lxor_assoc, Z.lxor_nilpotent, !Z.lxor_0_r in Hxy. done.
Qed.

Lemma chooseFrom_least pad best l :
  chooseFrom pad best l ∈ best :: l /\
  forall c, c ∈ best :: l -> bytesLess (xorCalcNodeID c pad) (xorCalcNodeID (chooseFrom pad best l) pad) = false.
Proof.
  unfold chooseFrom. revert best. induction l as [|x l IH]; intros best; cbn [foldl].
  { split; [left|]. intros c ->%list_elem_of_singleton. apply less_irrefl. }
  set (best' := if bytesLess _ _ then x else best). destruct (IH best') as [Hin Hmin]. split.
  - apply elem_of_cons in Hin as [Hin|Hin]; [|right; by right]. rewrite Hin. unfold best'. destruct (bytesLess _ _); [right; left|left].
  - intros c Hc. set (w := foldl _ best' l) in *.
    assert (Hb : bytesLess (xorCalcNodeID best' pad) (xorCalcNodeID w pad) = false) by (apply Hmin; left).
    apply elem_of_cons in Hc as [->|Hc]; [|apply elem_of_cons in Hc as [->|Hc]; [|apply Hmin; by right]].
    + eapply less_neg_trans; [exact Hb|]. unfold best'. destruct (bytesLess (xorCalcNodeID x pad) _) eqn:Hx; [by apply (less_asym bytesLess)|apply less_irrefl].
    + eapply less_neg_trans; [exact Hb|]. unfold best'. destruct (bytesLess (xorCalcNodeID x pad) _) eqn:Hx; [apply less_irrefl|done].
Qed.

(** ** The vote, by keys *)

Definition inNeg (eff : gmap bytes ()) (k : bytes) : Prop := is_Some (eff !! k).

#[global] Instance inNeg_dec eff k : Decision (inNeg eff k) := is_Some_dec (eff !! k).
#[global] Typeclasses Opaque inNeg.

Section Keys.
Context (keyToNodeID : bytes -> bytes) (o : Orders) (unlKeys : list bytes) (eff : gmap bytes ()).
Hypothesis Hscores : ranges (overScores o).
Hypothesis Hids : ranges (overIDs o).
Hypothesis Hkeys : ranges (overKeys o).
Hypothesis Hunl : NoDup unlKeys.
(** No two of the keys in play have the same node identifier. *)
Hypothesis Hinj : forall k k', k ∈ unlKeys \/ inNeg eff k -> k' ∈ unlKeys \/ inNeg eff k' -> keyToNodeID k = keyToNodeID k' -> k = k'.

Abbreviation unl := (nodeIDs keyToNodeID unlKeys).

Lemma nodeIDs_list : unl = list_to_map (reverse ((fun k => (keyToNodeID k, k)) <$> unlKeys)).
Proof.
  unfold nodeIDs. clear Hunl Hinj. induction unlKeys as [|k l IH] using rev_ind; [done|].
  rewrite foldl_app, fmap_app, reverse_app. cbn. by rewrite IH.
Qed.

Lemma nodeIDs_fst : NoDup (reverse ((fun k => (keyToNodeID k, k)) <$> unlKeys)).*1.
Proof.
  rewrite fmap_reverse, <- list_fmap_compose, reverse_Permutation. apply NoDup_fmap_2_strong; [|done]. intros k k' Hk Hk'. cbn. apply Hinj; by left.
Qed.

Lemma nodeIDs_lookup n k : unl !! n = Some k <-> k ∈ unlKeys /\ keyToNodeID k = n.
Proof.
  rewrite nodeIDs_list, <- (elem_of_list_to_map _ _ _ nodeIDs_fst), elem_of_reverse, list_elem_of_fmap. split.
  - by intros (k' & [= -> ->] & Hk).
  - intros [Hk <-]. by exists k.
Qed.

Lemma nodeIDs_size : size unl = length unlKeys.
Proof. rewrite nodeIDs_list, map_size_list_to_map by apply nodeIDs_fst. by rewrite length_reverse, length_fmap. Qed.

Lemma negIDs_lookup n : is_Some (negIDs keyToNodeID o eff !! n) <-> exists k, inNeg eff k /\ keyToNodeID k = n.
Proof.
  unfold negIDs.
  assert (Hg : forall (l : list (bytes * ())) (m : gmap bytes ()), is_Some (foldl (fun m '(k, _) => <[keyToNodeID k := ()]> m) m l !! n) <->
    is_Some (m !! n) \/ exists k, k ∈ l.*1 /\ keyToNodeID k = n).
  { intros l. induction l as [|[k u] l IH]; intros m; [cbn; set_solver|]. cbn [foldl]. rewrite IH.
    cbn [fmap list_fmap fst]. setoid_rewrite elem_of_cons. destruct (decide (keyToNodeID k = n)) as [He|Hne].
    - subst n. rewrite lookup_insert_eq. split; [|by left]. right. exists k. split; [by left|done].
    - rewrite lookup_insert_ne by done. split; [intros [?|(k' & ? & ?)]; [by left|right; exists k'; by split; [right|]]|].
      intros [?|(k' & [->|?] & ?)]; [by left|done|]. right. by exists k'. }
  rewrite Hg, lookup_empty. split.
  - intros [[? ?]|(k & Hk & He)]; [done|]. exists k. split; [|done]. apply list_elem_of_fmap in Hk as ([k' []] & -> & Hk).
    apply (ranges_elem (overKeys o)) in Hk; [|done]. by eexists.
  - intros (k & [[] Hk] & He). right. exists k. split; [|done]. apply list_elem_of_fmap. exists (k, ()). split; [done|]. by apply (ranges_elem (overKeys o)).
Qed.

Lemma keyIndex_lookup k : k ∈ unlKeys \/ inNeg eff k -> keyIndex keyToNodeID o unl eff !! keyToNodeID k = Some k.
Proof.
  intros Hk. unfold keyIndex.
  assert (Hg : forall (l : list (bytes * ())) (m : gmap bytes bytes), (forall k', k' ∈ l.*1 -> inNeg eff k') ->
    (forall n k', m !! n = Some k' -> (k' ∈ unlKeys \/ inNeg eff k') /\ keyToNodeID k' = n) ->
    (is_Some (m !! keyToNodeID k) \/ k ∈ l.*1) ->
    foldl (fun m '(k, _) => match m !! keyToNodeID k with Some _ => m | None => <[keyToNodeID k := k]> m end) m l !! keyToNodeID k = Some k).
  { intros l. induction l as [|[x u] l IH]; intros m Hl Hm Hin.
    - destruct Hin as [[k' Hk']|Hin]; [|by apply elem_of_nil in Hin]. cbn. rewrite Hk'. f_equal. destruct (Hm _ _ Hk') as [Hk2 He]. by apply Hinj.
    - cbn [foldl]. cbn in Hl. assert (Hx : inNeg eff x) by (apply Hl; left).
      destruct (m !! keyToNodeID x) as [y|] eqn:Hmx.
      + apply IH; [intros; apply Hl; by right|done|]. destruct Hin as [?|Hin]; [by left|]. apply elem_of_cons in Hin as [->|?]; [left; by eexists|by right].
      + apply IH; [intros; apply Hl; by right| |].
        * intros n k' Hn. destruct (decide (keyToNodeID x = n)) as [He|Hne]; [subst n; rewrite lookup_insert_eq in Hn; injection Hn as <-; by split; [right|]|].
          rewrite lookup_insert_ne in Hn by done. by apply Hm.
        * destruct (decide (keyToNodeID x = keyToNodeID k)) as [He|Hne]; [left; rewrite He, lookup_insert_eq; by eexists|].
          rewrite lookup_insert_ne by done. destruct Hin as [?|Hin]; [by left|]. apply elem_of_cons in Hin as [->|?]; [done|by right]. }
  apply Hg.
  - intros k' Hk'. apply list_elem_of_fmap in Hk' as ([x []] & -> & Hx). apply (ranges_elem (overKeys o)) in Hx; [|done]. by eexists.
  - intros n k'. rewrite nodeIDs_lookup. intros [? ?]. split; [by left|done].
  - destruct Hk as [Hk|[[] Hk]]; [left; exists k; by apply nodeIDs_lookup|]. right. apply list_elem_of_fmap. exists (k, ()). split; [done|].
    by apply (ranges_elem (overKeys o)).
Qed.

Lemma neg_unl_id k : k ∈ unlKeys -> is_Some (negIDs keyToNodeID o eff !! keyToNodeID k) <-> inNeg eff k.
Proof.
  intros Hk. rewrite negIDs_lookup. split; [|intros; by exists k]. intros (k' & Hk' & He). rewrite <- (Hinj k' k); [done|by right|by left|done].
Qed.

(** How many validators of the list are disabled. *)
Definition listedKeys : Z := Z.of_nat (length (filter (fun k => bool_decide (inNeg eff k)) unlKeys)).

Lemma listed_count :
  Z.of_nat (length (filter (fun e => bool_decide (is_Some (negIDs keyToNodeID o eff !! e.1))) (map_to_list unl))) = listedKeys.
Proof.
  unfold listedKeys. f_equal.
  assert (Hp : map_to_list unl ≡ₚ (fun k => (keyToNodeID k, k)) <$> unlKeys).
  { rewrite nodeIDs_list, map_to_list_to_map by apply nodeIDs_fst. apply reverse_Permutation. }
  rewrite Hp. assert (Hin : forall k, k ∈ unlKeys -> k ∈ unlKeys) by done. revert Hin. generalize unlKeys at 1 3 4. intros l Hl.
  induction l as [|k l IH]; [done|]. cbn [fmap list_fmap]. rewrite !filter_test_cons. cbn [fst].
  rewrite (bool_decide_ext _ (inNeg eff k)) by (apply neg_unl_id, Hl; left).
  destruct (bool_decide (inNeg eff k)); cbn [length]; rewrite IH; try done; intros; apply Hl; by right.
Qed.

(** The score of a key, and the validators that qualify. *)
Definition scoreOf (scoreTable : gmap bytes Z) (k : bytes) : Z := default 0 (scoreTable !! keyToNodeID k).

Definition disableCandidate (v : Voter) (scoreTable : gmap bytes Z) (k : bytes) : Prop :=
  k ∈ unlKeys /\ ~ inNeg eff k /\ scoreOf scoreTable k < lowWaterMark /\ newValidators v !! keyToNodeID k = None /\
  listedKeys < Z.quot (Z.of_nat (length unlKeys) + 3) 4.

Definition recovered (scoreTable : gmap bytes Z) (k : bytes) : Prop :=
  k ∈ unlKeys /\ inNeg eff k /\ highWaterMark < scoreOf scoreTable k.

Definition reEnableCandidate (scoreTable : gmap bytes Z) (k : bytes) : Prop :=
  recovered scoreTable k \/ ((forall k', ~ recovered scoreTable k') /\ inNeg eff k /\ k ∉ unlKeys).

(** The qualifying key closest to the pad, if any qualifies. *)
Definition isPick (P : bytes -> Prop) (pad : bytes) (o : option bytes) : Prop :=
  match o with
  | None => forall k, ~ P k
  | Some k => P k /\ forall k', P k' -> k' <> k ->
      bytesLess (xorCalcNodeID (keyToNodeID k) pad) (xorCalcNodeID (keyToNodeID k') pad) = true
  end.

Definition txOf (seq : Z) (disable : bool) (o : option bytes) : list UNLModify :=
  match o with None => [] | Some k => [buildUNLModifyTx seq k disable] end.

Lemma isPick_unique P pad o1 o2 : isPick P pad o1 -> isPick P pad o2 -> o1 = o2.
Proof.
  destruct o1 as [k1|], o2 as [k2|]; cbn; [|by intros [? _] Hn; destruct (Hn k1)|by intros Hn [? _]; destruct (Hn k2)|done].
  intros [H1 H1'] [H2 H2']. destruct (decide (k1 = k2)) as [->|Hne]; [done|].
  pose proof (H1' k2 H2 ltac:(congruence)) as Ha. pose proof (H2' k1 H1 Hne) as Hb. by rewrite (less_asym bytesLess _ _ Ha) in Hb.
Qed.

Abbreviation filled scoreTable := (map_imap (fun n (_ : bytes) => Some (default 0 (scoreTable !! n))) unl).

Lemma filled_lookup (scoreTable : gmap bytes Z) n s :
  filled scoreTable !! n = Some s <-> exists k, k ∈ unlKeys /\ keyToNodeID k = n /\ s = scoreOf scoreTable k.
Proof.
  rewrite map_lookup_imap. destruct (unl !! n) as [k|] eqn:Hk; cbn.
  - apply nodeIDs_lookup in Hk as [Hk <-]. split; [intros [= <-]; by exists k|]. intros (k' & Hk' & He & ->). unfold scoreOf. by rewrite He.
  - split; [done|]. intros (k & Hk' & He & _). assert (unl !! n = Some k) by (by apply nodeIDs_lookup). congruence.
Qed.

Abbreviation candidates v scoreTable := (findAllCandidates o v unl (negIDs keyToNodeID o eff) (filled scoreTable)).

Lemma toDisable_elem v scoreTable n :
  n ∈ toDisable (candidates v scoreTable) <-> exists k, disableCandidate v scoreTable k /\ keyToNodeID k = n.
Proof.
  unfold findAllCandidates. cbn [toDisable]. rewrite nodeIDs_size, listed_count, list_elem_of_fmap. split.
  - intros ([n' s] & -> & Hin). apply list_elem_of_filter in Hin as [Hcond Hin]. apply (ranges_elem (overScores o)) in Hin; [|done].
    apply filled_lookup in Hin as (k & Hk & <- & ->). exists k. split; [|done]. apply Is_true_true in Hcond. zbool.
    apply bool_decide_eq_false in H1, H0. rewrite neg_unl_id in H1 by done. split; [done|]. split; [done|]. split; [done|]. split; [|done].
    by apply eq_None_not_Some.
  - intros (k & (Hk & Hn & Hs & Hnew & Hc) & <-). exists (keyToNodeID k, scoreOf scoreTable k). split; [done|].
    apply list_elem_of_filter. split; [|by apply (ranges_elem (overScores o)); [done|]; apply filled_lookup; exists k].
    apply Is_true_true. rewrite (proj2 (Z.ltb_lt _ _) Hc), (proj2 (Z.ltb_lt _ _) Hs). cbn [andb]. rewrite !bool_decide_eq_false_2; [done| |].
    + by apply eq_None_not_Some.
    + by rewrite neg_unl_id.
Qed.

Lemma recovered_elem (scoreTable : gmap bytes Z) n :
  n ∈ (filter (fun '(n, score) => (highWaterMark <? score) && bool_decide (is_Some (negIDs keyToNodeID o eff !! n))) (overScores o (filled scoreTable))).*1
  <-> exists k, recovered scoreTable k /\ keyToNodeID k = n.
Proof.
  rewrite list_elem_of_fmap. split.
  - intros ([n' s] & -> & Hin). apply list_elem_of_filter in Hin as [Hcond Hin]. apply (ranges_elem (overScores o)) in Hin; [|done].
    apply filled_lookup in Hin as (k & Hk & <- & ->). exists k. split; [|done]. apply Is_true_true in Hcond. zbool.
    apply bool_decide_eq_true in H0. rewrite neg_unl_id in H0 by done. by split.
  - intros (k & (Hk & Hn & Hs) & <-). exists (keyToNodeID k, scoreOf scoreTable k). split; [done|].
    apply list_elem_of_filter. split; [|by apply (ranges_elem (overScores o)); [done|]; apply filled_lookup; exists k].
    apply Is_true_true. rewrite (proj2 (Z.ltb_lt _ _) Hs). cbn [andb]. apply bool_decide_eq_true_2. by rewrite neg_unl_id.
Qed.

Lemma toReEnable_elem v scoreTable n :
  n ∈ toReEnable (candidates v scoreTable) <-> exists k, reEnableCandidate scoreTable k /\ keyToNodeID k = n.
Proof.
  unfold findAllCandidates. cbn [toReEnable]. pose proof (recovered_elem scoreTable) as Hrec. set (L := (filter _ _).*1) in *.
  clearbody L. destruct L as [|n0 L].
  - assert (Hno : forall k, ~ recovered scoreTable k).
    { intros k Hk. assert (Hc : keyToNodeID k ∈ @nil bytes) by (apply Hrec; by exists k). by apply elem_of_nil in Hc. }
    rewrite list_elem_of_filter. split.
    + intros [Hout Hin]. apply list_elem_of_fmap in Hin as ([n' []] & -> & Hin). apply (ranges_elem (overIDs o)) in Hin; [|done].
      assert (Hs : is_Some (negIDs keyToNodeID o eff !! n')) by (by eexists). apply negIDs_lookup in Hs as (k & Hk & <-).
      exists k. split; [|done]. right. split; [done|]. split; [done|]. intros Hu. apply Is_true_true, negb_true_iff, bool_decide_eq_false in Hout.
      apply Hout. exists k. cbn. by apply nodeIDs_lookup.
    + intros (k & [Hk|(_ & Hk & Hu)] & <-); [by destruct (Hno k)|]. split.
      * apply Is_true_true, negb_true_iff, bool_decide_eq_false_2. intros [k' Hk']. apply nodeIDs_lookup in Hk' as [Hk' He].
        apply Hu. rewrite <- (Hinj k' k); [done|by left|by right|done].
      * apply list_elem_of_fmap. exists (keyToNodeID k, ()). split; [done|]. apply (ranges_elem (overIDs o)); [done|].
        assert (Hs : is_Some (negIDs keyToNodeID o eff !! keyToNodeID k)) by (apply negIDs_lookup; by exists k). by destruct Hs as [[] Hs].
  - rewrite Hrec. split; intros (k & Hk & He); exists k; (split; [|done]); [by left|]. destruct Hk as [Hk|(Hno & _)]; [done|].
    assert (Hc : n0 ∈ n0 :: L) by left. apply Hrec in Hc as (k' & Hk' & _). by destruct (Hno k').
Qed.

Lemma proposal_pick (P : bytes -> Prop) (C : list bytes) seq pad disable :
  (forall n, n ∈ C <-> exists k, P k /\ keyToNodeID k = n) -> (forall k, P k -> k ∈ unlKeys \/ inNeg eff k) ->
  (forall k, P k -> length (keyToNodeID k) = 20%nat) -> (20 <= length pad)%nat ->
  exists p, isPick P pad p /\ proposal seq pad (keyIndex keyToNodeID o unl eff) C disable = txOf seq disable p.
Proof.
  intros HC HP Hlen Hpad. destruct C as [|n0 C]; cbn [proposal].
  - exists None. split; [|done]. intros k Hk. assert (Hc : keyToNodeID k ∈ @nil bytes) by (apply HC; by exists k). by apply elem_of_nil in Hc.
  - destruct (chooseFrom_least pad n0 C) as [Hin Hmin]. apply HC in Hin as (k & Hk & He). exists (Some k). split.
    + split; [done|]. intros k' Hk' Hne. destruct (bytesLess (xorCalcNodeID (keyToNodeID k) pad) _) eqn:Hl; [done|]. exfalso. apply Hne.
      assert (Hm : bytesLess (xorCalcNodeID (keyToNodeID k') pad) (xorCalcNodeID (keyToNodeID k) pad) = false) by (rewrite He; apply Hmin, HC; by exists k').
      pose proof (bytesLess_total _ _ Hm Hl) as Heq. apply xorCalcNodeID_inj in Heq; [|by apply Hlen..|done]. apply Hinj; auto.
    + cbn [txOf]. rewrite <- He, keyIndex_lookup by auto. done.
Qed.

End Keys.
(** ** What the entry stands for *)

Definition validKey (k : bytes) : Prop := isValidPublicKeyType k = true /\ all_bytes k.

Definition pendingSet (k : bytes) : gset bytes := if bool_decide (k = []) then ∅ else {[k]}.

Definition disabledSet (entry : option NegativeUNLSLE) : gset bytes :=
  list_to_set (DisabledValidators (default emptyNeg entry)).*1.

(** The validators that the next flag ledger will hold disabled. *)
Definition effectiveSet (entry : option NegativeUNLSLE) : gset bytes :=
  (disabledSet entry ∪ pendingSet (ValidatorToDisable (default emptyNeg entry))) ∖ pendingSet (ValidatorToReEnable (default emptyNeg entry)).

Record wfNeg (sle : NegativeUNLSLE) : Prop := {
  wf_distinct : NoDup (DisabledValidators sle).*1;
  wf_keys : Forall validKey (DisabledValidators sle).*1;
  wf_toDisable : ValidatorToDisable sle = [] \/
                 (validKey (ValidatorToDisable sle) /\ ValidatorToDisable sle ∉ (DisabledValidators sle).*1);
  wf_toReEnable : ValidatorToReEnable sle = [] \/ ValidatorToReEnable sle ∈ (DisabledValidators sle).*1 }.

Lemma validKey_length k : validKey k -> length k = 33%nat.
Proof. intros [Hk _]. unfold isValidPublicKeyType in Hk. apply andb_true_iff in Hk as [Hk _]. by apply bool_decide_eq_true in Hk. Qed.

Lemma effectiveNegUNL_set entry k :
  wfNeg (default emptyNeg entry) -> inNeg (effectiveNegUNL (negativeUNLState entry)) k <-> k ∈ effectiveSet entry.
Proof.
  unfold effectiveSet, disabledSet, negativeUNLState, effectiveNegUNL. set (sle := default emptyNeg entry). intros [_ Hk Hd Hr].
  cbn [DisabledKeys ToDisablePending ToReEnablePending].
  assert (Hpend : forall x, x = [] \/ validKey x ->
    (if bool_decide (length x = 33%nat) then Some x else None) = if bool_decide (x = []) then None else Some x).
  { intros x [->|Hx]; [done|]. pose proof (validKey_length x Hx) as Hl. rewrite bool_decide_eq_true_2, bool_decide_eq_false_2 by (done || by intros ->). done. }
  rewrite !Hpend.
  2:{ destruct Hd as [?|[? _]]; [by left|by right]. }
  2:{ destruct Hr as [?|Hr]; [by left|]. right. rewrite list.Forall_forall in Hk. by apply Hk. }
  assert (Hf : filter (fun k => bool_decide (length k = 33%nat)) (DisabledValidators sle).*1 = (DisabledValidators sle).*1).
  { clear -Hk. induction Hk as [|x l Hx Hl IH]; [done|]. rewrite filter_test_cons, IH, bool_decide_eq_true_2 by (by apply validKey_length). done. }
  rewrite Hf. set (l := (DisabledValidators sle).*1).
  assert (Hl : forall m : gmap bytes (), is_Some (foldl (fun m k => <[k := ()]> m) m l !! k) <-> is_Some (m !! k) \/ k ∈ l).
  { clear. induction l as [|x l IH]; intros m; [cbn; set_solver|]. cbn [foldl]. rewrite IH, elem_of_cons.
    destruct (decide (x = k)) as [->|Hne]; [rewrite lookup_insert_eq|rewrite lookup_insert_ne by done]; naive_solver. }
  specialize (Hl ∅). rewrite lookup_empty in Hl. unfold inNeg, pendingSet. rewrite elem_of_difference, elem_of_union, elem_of_list_to_set.
  fold l. destruct (bool_decide (ValidatorToReEnable sle = [])), (bool_decide (ValidatorToDisable sle = [])); rewrite ?lookup_delete_is_Some;
    try (destruct (decide (ValidatorToDisable sle = k)) as [<-|Hne]; [rewrite lookup_insert_eq|rewrite lookup_insert_ne by done]);
    try rewrite Hl; rewrite ?elem_of_singleton, ?elem_of_empty; (split; [intros Hx|intros Hx]); try (destruct Hx as [Hx1 Hx2]);
    naive_solver.
Qed.

(** ** The flag ledger carries out what is pending *)

Lemma UpdateNegativeUNL_ok entry seq :
  wfNeg (default emptyNeg entry) ->
  wfNeg (default emptyNeg (UpdateNegativeUNL entry seq)) /\ disabledSet (UpdateNegativeUNL entry seq) = effectiveSet entry /\
  ValidatorToDisable (default emptyNeg (UpdateNegativeUNL entry seq)) = [] /\ ValidatorToReEnable (default emptyNeg (UpdateNegativeUNL entry seq)) = [].
Proof.
  destruct entry as [sle|]; cbn [default id UpdateNegativeUNL].
  2:{ intros Hw. split; [done|]. split; [|done]. unfold effectiveSet, disabledSet, pendingSet. cbn. set_solver. }
  destruct sle as [dis d r pid pseq]. intros [Hnd Hk Hd Hr]. cbn [DisabledValidators ValidatorToDisable ValidatorToReEnable] in *.
  destruct (negb (negb (bool_decide (d = []))) && negb (negb (bool_decide (r = [])))) eqn:Hnone.
  { rewrite !negb_involutive in Hnone. apply andb_true_iff in Hnone as [Hd0%bool_decide_eq_true Hr0%bool_decide_eq_true]. subst. cbn [default id].
    split; [by split|]. split; [|done]. unfold effectiveSet, disabledSet, pendingSet. cbn. set_solver. }
  set (filtered := if negb (bool_decide (r = [])) then _ else dis). set (disabled := if negb (bool_decide (d = [])) then _ else filtered).
  assert (Hsub : filtered `sublist_of` dis) by (unfold filtered; destruct (bool_decide (r = [])); cbn [negb]; [done|apply sublist_filter]).
  assert (Hfk : forall k, k ∈ filtered.*1 <-> k ∈ dis.*1 /\ (r = [] \/ k <> r)).
  { intros k. unfold filtered. destruct (bool_decide_reflect (r = [])) as [Hr0|Hr0]; cbn [negb].
    { split; [intros Hin; split; [exact Hin|by left]|by intros [? _]]. }
    rewrite !list_elem_of_fmap. split.
    - intros (e & -> & He). apply list_elem_of_filter in He as [He1%Is_true_true He2]. apply negb_true_iff, bool_decide_eq_false in He1.
      split; [by exists e|by right].
    - intros [(e & -> & He) [?|Hne]]; [done|]. exists e. split; [done|]. apply list_elem_of_filter. split; [|done].
      by apply Is_true_true, negb_true_iff, bool_decide_eq_false_2. }
  assert (Hdk : forall k, k ∈ disabled.*1 <-> k ∈ filtered.*1 \/ (d <> [] /\ k = d)).
  { intros k. unfold disabled. destruct (bool_decide_reflect (d = [])) as [Hd0|Hd0]; cbn [negb].
    { split; [by left|by intros [?|[? _]]]. }
    rewrite fmap_app, elem_of_app. cbn [fmap list_fmap fst].
    rewrite list_elem_of_singleton. intuition. }
  assert (Hwf : wfNeg (mkNeg disabled [] [] pid pseq)).
  { split; cbn [DisabledValidators ValidatorToDisable ValidatorToReEnable]; [| |by left|by left].
    - assert (Hnf : NoDup filtered.*1) by (eapply sublist_NoDup; [exact Hnd|by apply fmap_sublist]). unfold disabled.
      case_bool_decide as Hd0; cbn [negb]; [done|]. rewrite fmap_app. apply NoDup_app. split; [done|]. split; [|apply NoDup_singleton].
      intros x Hx ->%list_elem_of_singleton. cbn in *. apply Hfk in Hx as [Hx _]. destruct Hd as [?|[_ Hd]]; done.
    - apply list.Forall_forall. intros k Hin. rewrite list.Forall_forall in Hk. apply Hdk in Hin as [Hin|[Hd0 ->]]; [by apply Hk, Hfk|].
      destruct Hd as [?|[Hd _]]; [done|exact Hd]. }
  assert (Hset : list_to_set disabled.*1 = effectiveSet (Some (mkNeg dis d r pid pseq))).
  { apply set_eq. intros k. unfold effectiveSet, disabledSet, pendingSet. cbn [default id DisabledValidators ValidatorToDisable ValidatorToReEnable].
    rewrite elem_of_list_to_set, Hdk, Hfk, elem_of_difference, elem_of_union, elem_of_list_to_set.
    destruct (bool_decide_reflect (d = [])) as [Hd0|Hd0], (bool_decide_reflect (r = [])) as [Hr0|Hr0]; rewrite ?elem_of_singleton, ?elem_of_empty;
      destruct Hd as [?|[_ Hd]], Hr as [?|Hr]; try done; naive_solver. }
  destruct disabled as [|e l] eqn:Hdis; cbn [default id].
  - split; [split; cbn; [constructor|constructor|by left|by left]|]. split; [|done]. rewrite <- Hset. done.
  - split; [done|]. split; [|done]. rewrite <- Hset. done.
Qed.
(** ** Applying the proposals *)

Lemma built_decodes k : validKey k -> Strconv.hexDecode (Strconv.hexEncode k) = Some k /\ Strconv.hexEncode k <> EmptyString.
Proof.
  intros Hk. pose proof (validKey_length k Hk) as Hl. destruct Hk as [_ Hb]. split; [by apply Strconv.hexDecode_hexEncode|].
  apply Strconv.hexEncode_nonempty. by intros ->.
Qed.

Lemma Apply_disable entry k seq :
  IsFlagLedger seq = true -> validKey k -> ValidatorToDisable (default emptyNeg entry) = [] -> ValidatorToReEnable (default emptyNeg entry) = [] ->
  k ∉ (DisabledValidators (default emptyNeg entry)).*1 ->
  Apply (buildUNLModifyTx seq k true) entry seq = (TesSUCCESS, Some (mkNeg (DisabledValidators (default emptyNeg entry)) k [] (PreviousTxnID (default emptyNeg entry)) (PreviousTxnLgrSeq (default emptyNeg entry)))).
Proof.
  intros Hf Hk Hd Hr Hn. destruct (built_decodes k Hk) as [Hdec Hne]. unfold Apply, buildUNLModifyTx. rewrite Hf.
  cbn [negb UNLModifyDisabling mLedgerSequence UNLModifyValidator]. rewrite (bool_decide_eq_false_2 (Strconv.hexEncode k = _)), Z.eqb_refl by done.
  cbn [negb orb]. rewrite Hdec, (proj1 Hk), Hd, Hr. unfold ContainsValidator. by rewrite (bool_decide_eq_false_2 (k ∈ _)).
Qed.

Lemma Apply_reEnable entry k seq :
  IsFlagLedger seq = true -> validKey k -> ValidatorToReEnable (default emptyNeg entry) = [] -> ValidatorToDisable (default emptyNeg entry) <> k ->
  k ∈ (DisabledValidators (default emptyNeg entry)).*1 ->
  Apply (buildUNLModifyTx seq k false) entry seq =
    (TesSUCCESS, Some (mkNeg (DisabledValidators (default emptyNeg entry)) (ValidatorToDisable (default emptyNeg entry)) k
      (PreviousTxnID (default emptyNeg entry)) (PreviousTxnLgrSeq (default emptyNeg entry)))).
Proof.
  intros Hf Hk Hr Hd Hin. destruct (built_decodes k Hk) as [Hdec Hne]. unfold Apply, buildUNLModifyTx. rewrite Hf.
  cbn [negb UNLModifyDisabling mLedgerSequence UNLModifyValidator]. rewrite (bool_decide_eq_false_2 (Strconv.hexEncode k = _)), Z.eqb_refl by done.
  cbn [negb orb]. rewrite Hdec, (proj1 Hk), Hr. unfold ContainsValidator.
  rewrite (bool_decide_eq_true_2 (k ∈ _)), (bool_decide_eq_false_2 (ValidatorToDisable _ = k)) by done. rewrite andb_false_r. done.
Qed.

Definition applyAll (seq : Z) (txs : list UNLModify) (entry : option NegativeUNLSLE) : list TER * option NegativeUNLSLE :=
  foldl (fun '(rs, entry) tx => let '(res, entry') := Apply tx entry seq in (rs ++ [res], entry')) ([], entry) txs.

(** What the two proposals do to the effective set. *)
Definition optSet (o : option bytes) : gset bytes := match o with Some k => {[k]} | None => ∅ end.

Lemma proposals_apply entry seq d r :
  IsFlagLedger seq = true -> wfNeg (default emptyNeg entry) ->
  ValidatorToDisable (default emptyNeg entry) = [] -> ValidatorToReEnable (default emptyNeg entry) = [] ->
  (forall k, d = Some k -> validKey k /\ k ∉ disabledSet entry) -> (forall k, r = Some k -> k ∈ disabledSet entry) ->
  exists rs entry', applyAll seq (txOf seq true d ++ txOf seq false r) entry = (rs, entry') /\ Forall (fun t => t = TesSUCCESS) rs /\
    wfNeg (default emptyNeg entry') /\ disabledSet entry' = disabledSet entry /\
    effectiveSet entry' = (disabledSet entry ∪ optSet d) ∖ optSet r.
Proof.
  intros Hf Hw Hd0 Hr0 Hd Hr. unfold applyAll. set (step := fun '(rs, entry) tx => _).
  set (dis := DisabledValidators (default emptyNeg entry)).
  assert (Hin : forall k, k ∈ disabledSet entry <-> k ∈ dis.*1) by (intros k; unfold disabledSet; apply elem_of_list_to_set).
  assert (Hkey : forall k, k ∈ dis.*1 -> validKey k) by (intros k; pose proof (wf_keys _ Hw) as Hk; rewrite list.Forall_forall in Hk; apply Hk).
  (* the entry after the first transaction *)
  assert (H1 : exists rs1 e1, foldl step ([], entry) (txOf seq true d) = (rs1, e1) /\ Forall (fun t => t = TesSUCCESS) rs1 /\
    DisabledValidators (default emptyNeg e1) = dis /\ ValidatorToDisable (default emptyNeg e1) = default [] d /\
    ValidatorToReEnable (default emptyNeg e1) = []).
  { destruct d as [k|]; cbn [txOf foldl]; [|exists [], entry; by split_and!]. destruct (Hd k eq_refl) as [Hk Hn]. rewrite Hin in Hn.
    unfold step. rewrite (Apply_disable entry k seq) by done. eexists [TesSUCCESS], _. split; [done|].
    split; [by constructor|]. done. }
  destruct H1 as (rs1 & e1 & Hrun1 & Hok1 & Hdis1 & Hpd1 & Hpr1). rewrite foldl_app, Hrun1.
  assert (Hpd : default [] d = [] \/ (validKey (default [] d) /\ default [] d ∉ dis.*1)).
  { destruct d as [k|]; [|by left]. right. destruct (Hd k eq_refl) as [Hk Hn]. rewrite Hin in Hn. done. }
  assert (Hps : pendingSet (default [] d) = optSet d).
  { destruct d as [k|]; [|done]. destruct (Hd k eq_refl) as [Hk _]. unfold pendingSet, optSet. cbn. rewrite bool_decide_eq_false_2; [done|].
    intros ->. by apply validKey_length in Hk. }
  assert (Hdset : list_to_set dis.*1 = disabledSet entry) by done.
  destruct r as [k|]; cbn [txOf foldl optSet].
  - pose proof (Hr k eq_refl) as Hk. apply Hin in Hk as Hk'. pose proof (Hkey k Hk') as Hval.
    unfold step. rewrite (Apply_reEnable e1 k seq); [|done|done|done| |by rewrite Hdis1].
    2:{ rewrite Hpd1. intros He. destruct Hpd as [Hpd|[_ Hpd]]; [|by rewrite He in Hpd]. rewrite Hpd in He. subst k. by apply validKey_length in Hval. }
    rewrite Hdis1, Hpd1. eexists _, _. split; [done|]. split; [apply Forall_app; split; [done|by constructor]|].
    split; [split; [apply Hw|apply Hw|exact Hpd|by right]|]. split; [done|].
    unfold effectiveSet, disabledSet. cbn [default id DisabledValidators ValidatorToDisable ValidatorToReEnable]. rewrite Hps, Hdset. f_equal.
    unfold pendingSet. rewrite bool_decide_eq_false_2; [done|]. intros ->. by apply validKey_length in Hval.
  - exists rs1, e1. split; [done|]. split; [done|].
    split; [split; rewrite ?Hdis1, ?Hpd1, ?Hpr1; [apply Hw|apply Hw|exact Hpd|by left]|].
    unfold effectiveSet, disabledSet. rewrite Hdis1, Hpd1, Hpr1, Hps, Hdset. unfold pendingSet. cbn. split; [done|]. done.
Qed.

(** ** The cap *)

(** How many validators of the list are in the set. *)
Definition listedIn (unlKeys : list bytes) (S : gset bytes) : Z := Z.of_nat (length (filter (fun k => bool_decide (k ∈ S)) unlKeys)).

(** A quarter of the list, rounded up. *)
Definition maxListed (unlKeys : list bytes) : Z := Z.quot (Z.of_nat (length unlKeys) + 3) 4.

Lemma listedIn_mono (unlKeys : list bytes) (S S' : gset bytes) : S ⊆ S' -> listedIn unlKeys S <= listedIn unlKeys S'.
Proof.
  intros Hs. unfold listedIn. induction unlKeys as [|k l IH]; [done|]. rewrite !filter_test_cons.
  destruct (bool_decide_reflect (k ∈ S)) as [Hk|Hk]; [rewrite bool_decide_eq_true_2 by set_solver; cbn; lia|].
  destruct (bool_decide (k ∈ S')); cbn; lia.
Qed.

Lemma listedIn_add (unlKeys : list bytes) (S : gset bytes) (x : bytes) : NoDup unlKeys -> listedIn unlKeys (S ∪ {[x]}) <= listedIn unlKeys S + 1.
Proof.
  intros Hnd. unfold listedIn.
  assert (Hout : forall l : list bytes, x ∉ l -> filter (fun k => bool_decide (k ∈ S ∪ {[x]})) l = filter (fun k => bool_decide (k ∈ S)) l).
  { intros l. induction l as [|k l IH]; [done|]. intros [Hne Hx]%not_elem_of_cons. rewrite !filter_test_cons, IH by done.
    rewrite (bool_decide_ext (k ∈ S ∪ {[x]}) (k ∈ S)) by set_solver. done. }
  induction Hnd as [|k l Hk Hnd IH]; [done|]. rewrite !filter_test_cons. destruct (decide (k = x)) as [->|Hne].
  - rewrite (bool_decide_eq_true_2 (x ∈ S ∪ {[x]})) by set_solver. rewrite Hout by done. destruct (bool_decide (x ∈ S)); cbn; lia.
  - rewrite (bool_decide_ext (k ∈ S ∪ {[x]}) (k ∈ S)) by set_solver. destruct (bool_decide (k ∈ S)); cbn; lia.
Qed.

Lemma listedKeys_set unlKeys entry :
  wfNeg (default emptyNeg entry) -> listedKeys unlKeys (effectiveNegUNL (negativeUNLState entry)) = listedIn unlKeys (effectiveSet entry).
Proof.
  intros Hw. unfold listedKeys, listedIn. do 2 f_equal. induction unlKeys as [|k l IH]; [done|]. rewrite !filter_test_cons, IH.
  by rewrite (bool_decide_ext _ _ (effectiveNegUNL_set entry k Hw)).
Qed.
(** ** Rounds *)

Record ordersOK (o : Orders) : Prop := {
  ok_scores : ranges (overScores o); ok_ids : ranges (overIDs o); ok_keys : ranges (overKeys o) }.

(** The validators disabled on a ledger, by node identifier. *)
Definition GetNegativeUNL (keyToNodeID : bytes -> bytes) (entry : option NegativeUNLSLE) : list bytes :=
  keyToNodeID <$> filter (fun k => bool_decide (length k = 33%nat)) (DisabledValidators (default emptyNeg entry)).*1.

Record NRound := mkNRound { nVoter : Voter; nOrders : Orders; nPrevSeq : Z; nPrevHash : bytes; nScores : gmap bytes Z }.

Section Rounds.
Context (keyToNodeID : bytes -> bytes) (unlKeys : list bytes).
Hypothesis Hunl : NoDup unlKeys.
Hypothesis Hvalid : Forall validKey unlKeys.
Hypothesis Hlength : forall k, length (keyToNodeID k) = 20%nat.

(** No two of the keys in play have the same node identifier. *)
Definition distinctIDs (S : gset bytes) : Prop :=
  forall k k', k ∈ unlKeys \/ k ∈ S -> k' ∈ unlKeys \/ k' ∈ S -> keyToNodeID k = keyToNodeID k' -> k = k'.

(** One flag ledger: what is pending is carried out, then the proposals of the
    vote, which was held on the parent ledger, are applied. *)
Definition flagLedger (entry : option NegativeUNLSLE) (r : NRound) : list TER * option NegativeUNLSLE :=
  let seq := u32 (nPrevSeq r + 1) in
  let proposals :=
    match (DoVoting keyToNodeID (nOrders r) (nVoter r) (nPrevSeq r) (nPrevHash r) unlKeys (negativeUNLState entry) (nScores r)).2 with
    | inr txs => txs
    | inl _ => []
    end in
  applyAll seq proposals (UpdateNegativeUNL entry seq).

Definition goodRound (r : NRound) : Prop :=
  ordersOK (nOrders r) /\ (20 <= length (nPrevHash r))%nat /\ IsFlagLedger (u32 (nPrevSeq r + 1)) = true.

Lemma DoVoting_outcome o v prevSeq hash entry scores :
  ordersOK o -> wfNeg (default emptyNeg entry) -> distinctIDs (effectiveSet entry) -> (20 <= length hash)%nat ->
  let eff := effectiveNegUNL (negativeUNLState entry) in
  let seq := u32 (prevSeq + 1) in
  let v' := purgeNewValidators v seq in
  let my := default 0 (map_imap (fun n (_ : bytes) => Some (default 0 (scores !! n))) (nodeIDs keyToNodeID unlKeys) !! myID v) in
  exists d r,
    isPick keyToNodeID (disableCandidate keyToNodeID unlKeys eff v' scores) hash d /\
    isPick keyToNodeID (reEnableCandidate keyToNodeID unlKeys eff scores) hash r /\
    DoVoting keyToNodeID o v prevSeq hash unlKeys (negativeUNLState entry) scores =
      if my <? minLocalValsToVote then (v, inr [])
      else if my =? minLocalValsToVote then (v, inl ErrLocalCountAtThreshold)
      else if FlagLedgerInterval <? my then (v, inl ErrLocalCountExceedsWindow)
      else (v', inr (txOf seq true d ++ txOf seq false r)).
Proof.
  intros [Hos Hoi Hok] Hw Hdist Hh eff seq v' my.
  assert (Hinj : forall k k', k ∈ unlKeys \/ inNeg eff k -> k' ∈ unlKeys \/ inNeg eff k' -> keyToNodeID k = keyToNodeID k' -> k = k').
  { intros k k' Hk Hk'. unfold eff in Hk, Hk'. rewrite effectiveNegUNL_set in Hk, Hk' by done. by apply Hdist. }
  destruct (proposal_pick keyToNodeID o unlKeys eff Hok Hunl Hinj (disableCandidate keyToNodeID unlKeys eff v' scores)
    (toDisable (findAllCandidates o v' (nodeIDs keyToNodeID unlKeys) (negIDs keyToNodeID o eff)
       (map_imap (fun n _ => Some (default 0 (scores !! n))) (nodeIDs keyToNodeID unlKeys)))) seq hash true) as (d & Hd & Hpd);
    [by intros n; apply toDisable_elem|intros k (Hk & _); by left|done|done|].
  destruct (proposal_pick keyToNodeID o unlKeys eff Hok Hunl Hinj (reEnableCandidate keyToNodeID unlKeys eff scores)
    (toReEnable (findAllCandidates o v' (nodeIDs keyToNodeID unlKeys) (negIDs keyToNodeID o eff)
       (map_imap (fun n _ => Some (default 0 (scores !! n))) (nodeIDs keyToNodeID unlKeys)))) seq hash false) as (r & Hr & Hpr);
    [by intros n; apply toReEnable_elem|intros k [(Hk & _)|(_ & Hk & _)]; auto|done|done|].
  exists d, r. split; [exact Hd|]. split; [exact Hr|]. unfold DoVoting. fold eff. fold seq. fold my. fold v'. rewrite Hpd, Hpr. done.
Qed.

Lemma reEnable_in eff scores k : reEnableCandidate keyToNodeID unlKeys eff scores k -> inNeg eff k.
Proof. intros [(_ & ? & _)|(_ & ? & _)]; done. Qed.

(** What a flag ledger does to the entry. *)
Lemma flagLedger_ok entry r :
  goodRound r -> wfNeg (default emptyNeg entry) -> distinctIDs (effectiveSet entry) ->
  Forall (fun t => t = TesSUCCESS) (flagLedger entry r).1 /\ wfNeg (default emptyNeg (flagLedger entry r).2) /\
  disabledSet (flagLedger entry r).2 = effectiveSet entry /\
  effectiveSet (flagLedger entry r).2 ⊆ effectiveSet entry ∪ list_to_set unlKeys /\
  (listedIn unlKeys (effectiveSet entry) <= maxListed unlKeys -> listedIn unlKeys (effectiveSet (flagLedger entry r).2) <= maxListed unlKeys).
Proof.
  intros (Ho & Hh & Hf) Hw Hdist. destruct (UpdateNegativeUNL_ok entry (u32 (nPrevSeq r + 1)) Hw) as (Hw1 & Hs1 & Hd1 & Hr1).
  set (entry1 := UpdateNegativeUNL entry _) in *. set (seq := u32 (nPrevSeq r + 1)) in *.
  assert (Hgen : forall d p, (forall k, d = Some k -> validKey k /\ k ∉ disabledSet entry1 /\ k ∈ unlKeys /\ listedIn unlKeys (effectiveSet entry) < maxListed unlKeys) ->
    (forall k, p = Some k -> k ∈ disabledSet entry1) ->
    let res := applyAll seq (txOf seq true d ++ txOf seq false p) entry1 in
    Forall (fun t => t = TesSUCCESS) res.1 /\ wfNeg (default emptyNeg res.2) /\ disabledSet res.2 = effectiveSet entry /\
    effectiveSet res.2 ⊆ effectiveSet entry ∪ list_to_set unlKeys /\
    (listedIn unlKeys (effectiveSet entry) <= maxListed unlKeys -> listedIn unlKeys (effectiveSet res.2) <= maxListed unlKeys)).
  { intros d p Hd Hp. destruct (proposals_apply entry1 seq d p) as (rs & entry' & Happ & Hok & Hw' & Hds & Hes); [done|done|done|done| |done|].
    { intros k Hk. destruct (Hd k Hk) as (? & ? & _). done. }
    rewrite Happ. cbn [fst snd]. rewrite Hs1 in Hds, Hes. split; [done|]. split; [done|]. split; [done|]. rewrite Hes. split.
    - destruct d as [k|]; cbn [optSet]; [|set_solver]. destruct (Hd k eq_refl) as (_ & _ & Hk & _). set_solver.
    - intros Hle. transitivity (listedIn unlKeys (effectiveSet entry ∪ optSet d)); [apply listedIn_mono; set_solver|].
      destruct d as [k|]; cbn [optSet]; [|by rewrite union_empty_r_L]. destruct (Hd k eq_refl) as (_ & _ & _ & Hlt).
      pose proof (listedIn_add unlKeys (effectiveSet entry) k Hunl). lia. }
  unfold flagLedger. fold seq. fold entry1.
  destruct (DoVoting_outcome (nOrders r) (nVoter r) (nPrevSeq r) (nPrevHash r) entry (nScores r) Ho Hw Hdist Hh) as (d & p & Hd & Hp & ->).
  assert (Hnothing := Hgen None None ltac:(done) ltac:(done)). cbn [txOf app] in Hnothing.
  destruct (_ <? minLocalValsToVote); [exact Hnothing|]. destruct (_ =? minLocalValsToVote); [exact Hnothing|].
  destruct (FlagLedgerInterval <? _); [exact Hnothing|]. cbn [snd]. fold seq. apply Hgen.
  - intros k ->. destruct Hd as [(Hk & Hn & _ & _ & Hlt) _]. rewrite effectiveNegUNL_set in Hn by done. rewrite listedKeys_set in Hlt by done.
    rewrite list.Forall_forall in Hvalid. rewrite Hs1. split; [by apply Hvalid|]. done.
  - intros k ->. destruct Hp as [Hk _]. apply reEnable_in in Hk. rewrite effectiveNegUNL_set in Hk by done. by rewrite Hs1.
Qed.

(** The validators in force stay within the cap, and so the quorum in reach. *)
Lemma disabled_count entry :
  wfNeg (default emptyNeg entry) -> disabledSet entry ⊆ list_to_set unlKeys -> distinctIDs ∅ ->
  Z.of_nat (length (filter (fun n => n ∈ (list_to_set (keyToNodeID <$> unlKeys) : gset bytes)) (GetNegativeUNL keyToNodeID entry))) =
  listedIn unlKeys (disabledSet entry).
Proof.
  intros Hw Hsub Hdist. unfold GetNegativeUNL. set (dis := (DisabledValidators (default emptyNeg entry)).*1).
  assert (Hf : filter (fun k => bool_decide (length k = 33%nat)) dis = dis).
  { pose proof (wf_keys _ Hw) as Hk. fold dis in Hk. clear -Hk. induction Hk as [|x l Hx Hl IH]; [done|].
    rewrite filter_test_cons, IH, bool_decide_eq_true_2 by (by apply validKey_length). done. }
  rewrite Hf. assert (Hin : forall k, k ∈ dis -> k ∈ unlKeys) by (intros k Hk; assert (k ∈ disabledSet entry) by (by apply elem_of_list_to_set); set_solver).
  replace (filter _ (keyToNodeID <$> dis)) with (keyToNodeID <$> dis).
  2:{ clear -Hin. induction dis as [|k l IH]; [done|]. rewrite fmap_cons, filter_cons_True; [f_equal; apply IH; intros; apply Hin; by right|].
      apply elem_of_list_to_set, list_elem_of_fmap_2, Hin. left. }
  rewrite length_fmap. unfold listedIn. f_equal. apply Permutation_length, NoDup_Permutation; [apply Hw|by apply NoDup_filter|].
  intros k. rewrite list_elem_of_filter. unfold disabledSet. fold dis. split.
  - intros Hk. split; [|by apply Hin]. apply Is_true_true, bool_decide_eq_true_2. by apply elem_of_list_to_set.
  - intros [Hk%Is_true_true _]. apply bool_decide_eq_true in Hk. by apply elem_of_list_to_set in Hk.
Qed.

(** ** Flag ledgers of a network *)

(** What a validator with this view proposes for the ledger after [entry]'s. *)
Definition proposals (entry : option NegativeUNLSLE) (r : NRound) : list UNLModify :=
  match (DoVoting keyToNodeID (nOrders r) (nVoter r) (nPrevSeq r) (nPrevHash r) unlKeys (negativeUNLState entry) (nScores r)).2 with
  | inr txs => txs
  | inl _ => []
  end.

(** A transaction that some validator proposes, whatever it has seen. *)
Definition proposed (entry : option NegativeUNLSLE) (seq : Z) (tx : UNLModify) : Prop :=
  exists r, goodRound r /\ u32 (nPrevSeq r + 1) = seq /\ tx ∈ proposals entry r.

(** The transactions that consensus settled on are applied to the flag ledger. *)
Definition settledLedger (entry : option NegativeUNLSLE) (seq : Z) (txs : list UNLModify) : option NegativeUNLSLE :=
  (applyAll seq txs (UpdateNegativeUNL entry seq)).2.

Record withinCap (entry : option NegativeUNLSLE) : Prop := {
  cap_wf : wfNeg (default emptyNeg entry);
  cap_effective : effectiveSet entry ⊆ list_to_set unlKeys;
  cap_disabled : disabledSet entry ⊆ list_to_set unlKeys;
  cap_listed : listedIn unlKeys (effectiveSet entry) <= maxListed unlKeys;
  cap_inForce : listedIn unlKeys (disabledSet entry) <= maxListed unlKeys }.

Lemma listedIn_empty : listedIn unlKeys ∅ = 0.
Proof. unfold listedIn. clear Hunl Hvalid. induction unlKeys as [|k l IH]; [done|]. rewrite filter_test_cons. by rewrite bool_decide_eq_false_2 by set_solver. Qed.

Lemma withinCap_start : withinCap None.
Proof.
  assert (He : effectiveSet None = ∅) by (unfold effectiveSet, disabledSet, pendingSet; cbn; set_solver).
  split; [split; cbn; [constructor|constructor|by left|by left]|rewrite He; set_solver|unfold disabledSet; cbn; set_solver|rewrite He, listedIn_empty|].
  - unfold maxListed. rewrite Z.quot_div_nonneg by lia. dmlia.
  - replace (disabledSet None) with (∅ : gset bytes) by done. rewrite listedIn_empty. unfold maxListed. rewrite Z.quot_div_nonneg by lia. dmlia.
Qed.

(** Who may be proposed for disabling, and who for enabling. *)
Definition mayDisable (entry : option NegativeUNLSLE) (k : bytes) : Prop :=
  k ∈ unlKeys /\ k ∉ effectiveSet entry /\ listedIn unlKeys (effectiveSet entry) < maxListed unlKeys.

Lemma proposed_cases entry seq tx :
  wfNeg (default emptyNeg entry) -> distinctIDs (effectiveSet entry) -> proposed entry seq tx ->
  exists k, (tx = buildUNLModifyTx seq k true /\ mayDisable entry k) \/ (tx = buildUNLModifyTx seq k false /\ k ∈ effectiveSet entry).
Proof.
  intros Hw Hdist (r & (Ho & Hh & Hf) & <- & Htx). unfold proposals in Htx.
  destruct (DoVoting_outcome (nOrders r) (nVoter r) (nPrevSeq r) (nPrevHash r) entry (nScores r) Ho Hw Hdist Hh) as (d & p & Hd & Hp & He).
  rewrite He in Htx. clear He. destruct (_ <? minLocalValsToVote); [by apply elem_of_nil in Htx|]. destruct (_ =? minLocalValsToVote); [by apply elem_of_nil in Htx|].
  destruct (FlagLedgerInterval <? _); [by apply elem_of_nil in Htx|]. cbn [snd] in Htx. apply elem_of_app in Htx as [Htx|Htx].
  - destruct d as [k|]; [|by apply elem_of_nil in Htx]. apply list_elem_of_singleton in Htx as ->. exists k. left. split; [done|].
    destruct Hd as [(Hk & Hn & _ & _ & Hlt) _]. rewrite effectiveNegUNL_set in Hn by done. rewrite listedKeys_set in Hlt by done. done.
  - destruct p as [k|]; [|by apply elem_of_nil in Htx]. apply list_elem_of_singleton in Htx as ->. exists k. right. split; [done|].
    destruct Hp as [Hk _]. apply reEnable_in in Hk. by rewrite effectiveNegUNL_set in Hk.
Qed.

(** The entry while transactions that validators proposed are applied: at most one
    validator is pending each way. *)
Record settling (entry e : option NegativeUNLSLE) (dis : list (bytes * Z)) : Prop := {
  se_disabled : DisabledValidators (default emptyNeg e) = dis;
  se_disable : ValidatorToDisable (default emptyNeg e) = [] \/ mayDisable entry (ValidatorToDisable (default emptyNeg e));
  se_reEnable : ValidatorToReEnable (default emptyNeg e) = [] \/ ValidatorToReEnable (default emptyNeg e) ∈ effectiveSet entry }.

Lemma Apply_settling entry e dis seq tx :
  wfNeg (default emptyNeg entry) -> distinctIDs (effectiveSet entry) -> Forall validKey (elements (effectiveSet entry)) ->
  proposed entry seq tx -> settling entry e dis -> settling entry (Apply tx e seq).2 dis.
Proof.
  intros Hw Hdist Hkeys Htx He. destruct (proposed_cases entry seq tx Hw Hdist Htx) as (k & Hk).
  assert (Hkey : validKey k).
  { destruct Hk as [[_ (Hk & _)]|[_ Hk]]; [rewrite list.Forall_forall in Hvalid; by apply Hvalid|].
    rewrite list.Forall_forall in Hkeys. by apply Hkeys, elem_of_elements. }
  destruct (built_decodes k Hkey) as [Hdec Hne]. destruct Hk as [[-> Hk]|[-> Hk]]; unfold Apply, buildUNLModifyTx;
    cbn [UNLModifyDisabling mLedgerSequence UNLModifyValidator]; rewrite Hdec, Z.eqb_refl, (proj1 Hkey); cbn [negb];
    destruct (negb (IsFlagLedger seq)); try done; destruct (_ || _); try done; cbn [Z.eqb Pos.eqb]; repeat (case_match; try done);
    destruct He as [Hdis Hd Hr]; split; cbn; auto.
Qed.

Lemma applyAll_settling entry seq txs e dis rs0 :
  wfNeg (default emptyNeg entry) -> distinctIDs (effectiveSet entry) -> Forall validKey (elements (effectiveSet entry)) ->
  Forall (proposed entry seq) txs -> settling entry e dis ->
  settling entry (foldl (fun '(rs, entry) tx => let '(res, entry') := Apply tx entry seq in (rs ++ [res], entry')) (rs0, e) txs).2 dis.
Proof.
  intros Hw Hdist Hkeys Htxs. revert rs0 e. induction Htxs as [|tx txs Htx Htxs IH]; intros rs0 e He; [done|]. cbn [foldl].
  pose proof (Apply_settling entry e dis seq tx Hw Hdist Hkeys Htx He) as Hs. destruct (Apply tx e seq) as [res e']. by apply IH.
Qed.

Lemma settled_withinCap entry seq txs :
  distinctIDs ∅ -> withinCap entry -> Forall (proposed entry seq) txs -> withinCap (settledLedger entry seq txs).
Proof.
  intros Hdist [Hw He Hd Hl Hf] Htxs. destruct (UpdateNegativeUNL_ok entry seq Hw) as (Hw1 & Hs1 & Hd1 & Hr1).
  set (dis := DisabledValidators (default emptyNeg (UpdateNegativeUNL entry seq))).
  assert (Hset : list_to_set dis.*1 = effectiveSet entry) by exact Hs1.
  assert (Hin : forall k, k ∈ dis.*1 <-> k ∈ effectiveSet entry) by (intros k; by rewrite <- Hset, elem_of_list_to_set).
  assert (Hkeys : Forall validKey (elements (effectiveSet entry))).
  { apply list.Forall_forall. intros k Hk%elem_of_elements%Hin. pose proof (wf_keys _ Hw1) as Hk'. rewrite list.Forall_forall in Hk'. by apply Hk'. }
  assert (Hdist' : distinctIDs (effectiveSet entry)).
  { intros k k' Hk Hk'. apply Hdist; left; [destruct Hk as [|Hx]|destruct Hk' as [|Hx]]; try done; apply He in Hx; by apply elem_of_list_to_set in Hx. }
  destruct (applyAll_settling entry seq txs (UpdateNegativeUNL entry seq) dis [] Hw Hdist' Hkeys Htxs) as [Hdis Hpd Hpr]; [by split; [|left|left]|].
  change ((foldl _ _ txs).2) with (settledLedger entry seq txs) in *. set (e := settledLedger entry seq txs) in *.
  assert (Hvk : forall k, k ∈ unlKeys -> k <> []) by (intros k Hk ->; rewrite list.Forall_forall in Hvalid; by apply Hvalid, validKey_length in Hk).
  assert (Hds : disabledSet e = effectiveSet entry) by (unfold disabledSet; by rewrite Hdis).
  assert (Heff : effectiveSet e ⊆ effectiveSet entry ∪ pendingSet (ValidatorToDisable (default emptyNeg e))) by (unfold effectiveSet at 1; rewrite Hds; set_solver).
  split.
  - split; rewrite Hdis; [apply Hw1|apply Hw1| |].
    + destruct Hpd as [|(Hk & Hn & _)]; [by left|right]. split; [rewrite list.Forall_forall in Hvalid; by apply Hvalid|by rewrite Hin].
    + destruct Hpr as [|Hpr]; [by left|right; by rewrite Hin].
  - unfold pendingSet in Heff. destruct Hpd as [Hz|(Hk & _)]; [rewrite Hz in Heff; cbn in Heff; set_solver|]. destruct (bool_decide _); set_solver.
  - by rewrite Hds.
  - etransitivity; [by apply listedIn_mono|]. destruct Hpd as [Hz|(Hk & _ & Hlt)]; [rewrite Hz; cbn; by rewrite union_empty_r_L|].
    unfold pendingSet. rewrite bool_decide_eq_false_2 by (by apply Hvk). pose proof (listedIn_add unlKeys (effectiveSet entry) (ValidatorToDisable (default emptyNeg e)) Hunl). lia.
  - by rewrite Hds.
Qed.

End Rounds.

(** A list of validators that can be voted on. *)
Record listOk (keyToNodeID : bytes -> bytes) (unlKeys : list bytes) : Prop := {
  li_nodup : NoDup unlKeys;
  li_valid : Forall validKey unlKeys;
  li_ids : distinctIDs keyToNodeID unlKeys ∅ }.

(** The entries that a network can reach, each with the list of validators in force:
    the list may grow from one flag ledger to the next, and on each of them any
    transactions are applied, in any order, that validators proposed, which may have
    seen different things. *)
Inductive reaches (keyToNodeID : bytes -> bytes) : list bytes -> option NegativeUNLSLE -> Prop :=
  | reaches_start unlKeys : listOk keyToNodeID unlKeys -> reaches keyToNodeID unlKeys None
  | reaches_ledger unlKeys unlKeys' entry seq txs :
      reaches keyToNodeID unlKeys entry -> listOk keyToNodeID unlKeys' -> unlKeys ⊆ unlKeys' ->
      Forall (proposed keyToNodeID unlKeys' entry seq) txs -> reaches keyToNodeID unlKeys' (settledLedger entry seq txs).

Lemma listedIn_grows (l l' : list bytes) (S : gset bytes) : NoDup l -> NoDup l' -> S ⊆ list_to_set l -> l ⊆ l' -> listedIn l' S = listedIn l S.
Proof.
  intros Hl Hl' HS Hsub. unfold listedIn. f_equal. apply Permutation_length, NoDup_Permutation; [by apply NoDup_filter..|].
  intros k. rewrite !list_elem_of_filter, !Is_true_true, bool_decide_eq_true. split; intros [Hk _]; (split; [done|]); set_solver.
Qed.

Lemma withinCap_grows l l' entry : NoDup l -> NoDup l' -> l ⊆ l' -> withinCap l entry -> withinCap l' entry.
Proof.
  intros Hl Hl' Hsub [Hw He Hd Hli Hf]. assert (Hmax : maxListed l <= maxListed l').
  { pose proof (NoDup_submseteq l l' Hl Hsub) as Hlen%submseteq_length. unfold maxListed. rewrite !Z.quot_div_nonneg by lia. dmlia. }
  split; [done|set_solver|set_solver|rewrite (listedIn_grows l l') by done; lia|rewrite (listedIn_grows l l') by done; lia].
Qed.

Lemma reaches_withinCap keyToNodeID unlKeys entry : (forall k, length (keyToNodeID k) = 20%nat) -> reaches keyToNodeID unlKeys entry ->
  listOk keyToNodeID unlKeys /\ withinCap unlKeys entry.
Proof.
  intros Hlen. induction 1 as [l Hl|l l' entry seq txs _ [Hl IH] Hl' Hsub Htxs].
  - split; [done|]. apply (withinCap_start keyToNodeID l); first [done|apply Hl].
  - split; [done|]. apply (settled_withinCap keyToNodeID l'); [apply Hl'|apply Hl'|done|apply Hl'|eapply withinCap_grows; [apply Hl|apply Hl'|done|done]|done].
Qed.

(** ** Claims *)

(** C30: The vote on every branch: a validator that has not seen enough of its own
    validations abstains, an impossible count is an error, and otherwise at most
    one validator is proposed for disabling and one for enabling: among those
    that qualify, the one whose node identifier is closest to the hash of the
    parent ledger. The orders in which the maps are traversed play no part, so
    that validators with the same view propose the same. *)
Theorem neg_unl_vote_exact keyToNodeID unlKeys o v prevSeq hash entry scores :
  NoDup unlKeys -> (forall k, length (keyToNodeID k) = 20%nat) -> ordersOK o -> wfNeg (default emptyNeg entry) ->
  distinctIDs keyToNodeID unlKeys (effectiveSet entry) -> (20 <= length hash)%nat ->
  let eff := effectiveNegUNL (negativeUNLState entry) in
  let seq := u32 (prevSeq + 1) in
  let v' := purgeNewValidators v seq in
  let my := default 0 (map_imap (fun n (_ : bytes) => Some (default 0 (scores !! n))) (nodeIDs keyToNodeID unlKeys) !! myID v) in
  exists d r,
    isPick keyToNodeID (disableCandidate keyToNodeID unlKeys eff v' scores) hash d /\
    isPick keyToNodeID (reEnableCandidate keyToNodeID unlKeys eff scores) hash r /\
    (forall o', ordersOK o' ->
     DoVoting keyToNodeID o' v prevSeq hash unlKeys (negativeUNLState entry) scores =
      if my <? minLocalValsToVote then (v, inr [])
      else if my =? minLocalValsToVote then (v, inl ErrLocalCountAtThreshold)
      else if FlagLedgerInterval <? my then (v, inl ErrLocalCountExceedsWindow)
      else (v', inr (txOf seq true d ++ txOf seq false r))).
Proof.
  intros Hunl Hlen Ho Hw Hdist Hh eff seq v' my.
  destruct (DoVoting_outcome keyToNodeID unlKeys Hunl Hlen o v prevSeq hash entry scores Ho Hw Hdist Hh) as (d & r & Hd & Hr & _).
  exists d, r. split; [exact Hd|]. split; [exact Hr|]. intros o' Ho'.
  destruct (DoVoting_outcome keyToNodeID unlKeys Hunl Hlen o' v prevSeq hash entry scores Ho' Hw Hdist Hh) as (d' & r' & Hd' & Hr' & ->).
  by rewrite (isPick_unique _ _ _ _ _ Hd Hd'), (isPick_unique _ _ _ _ _ Hr Hr').
Qed.

(** C33: A flag ledger: what was pending is carried out, every UNLModify transaction
    the vote proposes succeeds on it, and only validators of the list are added;
    as long as at most a quarter of the list, rounded up, is disabled, it stays
    so. *)
Theorem neg_unl_round_valid keyToNodeID unlKeys entry r :
  NoDup unlKeys -> Forall validKey unlKeys -> (forall k, length (keyToNodeID k) = 20%nat) -> goodRound r ->
  wfNeg (default emptyNeg entry) -> distinctIDs keyToNodeID unlKeys (effectiveSet entry) ->
  let '(results, entry') := flagLedger keyToNodeID unlKeys entry r in
  Forall (fun t => t = TesSUCCESS) results /\ wfNeg (default emptyNeg entry') /\
  disabledSet entry' = effectiveSet entry /\ effectiveSet entry' ⊆ effectiveSet entry ∪ list_to_set unlKeys /\
  (listedIn unlKeys (effectiveSet entry) <= maxListed unlKeys -> listedIn unlKeys (effectiveSet entry') <= maxListed unlKeys).
Proof.
  intros Hunl Hvalid Hlen Hr Hw Hdist. pose proof (flagLedger_ok keyToNodeID unlKeys Hunl Hvalid Hlen entry r Hr Hw Hdist) as Hok.
  by destruct (flagLedger keyToNodeID unlKeys entry r).
Qed.

(** C15: Over any number of flag ledgers, whatever the validators have seen of each
    other, whichever of their proposals are settled on and however the list of
    validators grows meanwhile, the negative UNL never puts the quorum out of reach:
    at most a quarter of the list, rounded up, is disabled, and with three validators
    or more those that are not disabled suffice for the quorum computed from them. *)
Theorem neg_unl_quorum_reachable keyToNodeID unlKeys entry :
  (forall k, length (keyToNodeID k) = 20%nat) -> reaches keyToNodeID unlKeys entry -> (3 <= length unlKeys)%nat ->
  let inForce := listedIn unlKeys (disabledSet entry) in
  4 * inForce <= Z.of_nat (length unlKeys) + 3 /\
  quorumForTrustedSet (list_to_set (keyToNodeID <$> unlKeys)) (Z.of_nat (length unlKeys)) (GetNegativeUNL keyToNodeID entry) <=
    Z.of_nat (length unlKeys) - inForce.
Proof.
  intros Hlen Hre Hn inForce. destruct (reaches_withinCap keyToNodeID unlKeys entry Hlen Hre) as [[Hunl Hvalid Hdist] [Hw _ Hd _ Hf]]. fold inForce in Hf.
  unfold maxListed in Hf. rewrite Z.quot_div_nonneg in Hf by lia. split; [dmlia|].
  unfold quorumForTrustedSet. rewrite (disabled_count keyToNodeID unlKeys Hunl Hvalid Hlen entry Hw Hd Hdist).
  apply quorum_reachable; [lia|]. fold inForce. split; [unfold inForce, listedIn; lia|done].
Qed.

(** ** The score table *)

Definition countValidation (ledgerSeq : Z) (t : gmap bytes Z) (v : Validation) : gmap bytes Z :=
  if Full v && (LedgerSeq v =? ledgerSeq) then <[NodeID v := u32 (default 0 (t !! NodeID v) + 1)]> t else t.

(** [trusted] looks up the trusted validations of a ledger; [None] is a skip list
    that is too short. *)
Definition buildNegativeUNLScoreTable (prevSeq : Z) (ancestors : list bytes) (trusted : bytes -> Z -> list Validation) : option (gmap bytes Z) :=
  let upcoming := u32 (prevSeq + 1) in
  if Z.of_nat (length ancestors) <? FlagLedgerInterval then None
  else
    Some (foldl (fun t i =>
            let ledgerHash := default [] (ancestors !! (length ancestors - 1 - i)%nat) in
            let ledgerSeq := u32 (upcoming - 2 - Z.of_nat i) in
            foldl (countValidation ledgerSeq) t (trusted ledgerHash ledgerSeq)) ∅ (seq 0 (Z.to_nat FlagLedgerInterval))).

(** The producer: [None] for the entry is a ledger without it. An error of the vote
    is logged and taken as no proposal. *)
Definition GenerateNegativeUNLPseudoTx (keyToNodeID : bytes -> bytes) (o : Orders) (voter : Voter) (prevSeq : Z) (prevHash : bytes)
    (masterKeys : list bytes) (entry : option NegativeUNLSLE) (ancestors : list bytes) (trusted : bytes -> Z -> list Validation) :
    Voter * list UNLModify :=
  match masterKeys with
  | [] => (voter, [])
  | _ =>
      match buildNegativeUNLScoreTable prevSeq ancestors trusted with
      | None => (voter, [])
      | Some scoreTable =>
          match DoVoting keyToNodeID o voter prevSeq prevHash masterKeys (negativeUNLState entry) scoreTable with
          | (voter', inl _) => (voter', [])
          | (voter', inr txs) => (voter', txs)
          end
      end
  end.

(** With one validation per validator and ledger no score exceeds the window. *)
Lemma score_bounded prevSeq ancestors trusted table n :
  (forall h s, NoDup (NodeID <$> trusted h s)) -> buildNegativeUNLScoreTable prevSeq ancestors trusted = Some table ->
  default 0 (table !! n) <= FlagLedgerInterval.
Proof.
  intros Hone. unfold buildNegativeUNLScoreTable. destruct (_ <? _); [done|]. intros [= <-].
  assert (Hstep : forall s l (t : gmap bytes Z), NoDup (NodeID <$> l) -> 0 <= default 0 (t !! n) ->
    0 <= default 0 (foldl (countValidation s) t l !! n) <= default 0 (t !! n) + (if bool_decide (n ∈ NodeID <$> l) then 1 else 0)).
  { intros s l. induction l as [|v l IH]; intros t Hnd H0; [cbn [foldl]; destruct (bool_decide _); lia|]. cbn [foldl fmap list_fmap] in *. inversion_clear Hnd as [|? ? Hv Hnd'].
    assert (Ht : 0 <= default 0 (countValidation s t v !! n) <= default 0 (t !! n) + (if bool_decide (n = NodeID v) then 1 else 0)).
    { unfold countValidation. destruct (Full v && (LedgerSeq v =? s)); [|destruct (bool_decide (n = NodeID v)); lia]. destruct (decide (n = NodeID v)) as [->|Hne].
      - rewrite lookup_insert_eq, bool_decide_eq_true_2 by done. cbn. unfold wrap. pose proof (Z.mod_le (default 0 (t !! NodeID v) + 1) (2 ^ 32)).
        pose proof (Z.mod_pos_bound (default 0 (t !! NodeID v) + 1) (2 ^ 32)). lia.
      - rewrite lookup_insert_ne by done. rewrite bool_decide_eq_false_2 by done. lia. }
    specialize (IH (countValidation s t v) Hnd' (proj1 Ht)). split; [lia|]. destruct (decide (n = NodeID v)) as [->|Hne].
    - rewrite (bool_decide_eq_false_2 (NodeID v ∈ NodeID <$> l)) in IH by done. rewrite (bool_decide_eq_true_2 (NodeID v ∈ _ :: _)) by left.
      rewrite bool_decide_eq_true_2 in Ht by done. lia.
    - rewrite (bool_decide_eq_false_2 (n = NodeID v)) in Ht by done.
      rewrite (bool_decide_ext (n ∈ NodeID v :: (NodeID <$> l)) (n ∈ NodeID <$> l)) by (rewrite elem_of_cons; naive_solver). lia. }
  assert (Hfold : forall f (ns : list nat) (t : gmap bytes Z), 0 <= default 0 (t !! n) ->
    0 <= default 0 (foldl (fun t i => let '(h, s) := f i in foldl (countValidation s) t (trusted h s)) t ns !! n) <= default 0 (t !! n) + Z.of_nat (length ns)).
  { intros f ns. induction ns as [|i ns IH]; intros t H0; [cbn; lia|]. cbn [foldl length]. destruct (f i) as [h s].
    pose proof (Hstep s (trusted h s) t (Hone h s) H0) as Hs. destruct (IH (foldl (countValidation s) t (trusted h s)) (proj1 Hs)).
    destruct (bool_decide _) in Hs; lia. }
  pose proof (Hfold (fun i => (default [] (ancestors !! (length ancestors - 1 - i)%nat), u32 (u32 (prevSeq + 1) - 2 - Z.of_nat i)))
    (seq 0 (Z.to_nat FlagLedgerInterval)) ∅ ltac:(rewrite lookup_empty; cbn; lia)) as Hf.
  rewrite lookup_empty, length_seq in Hf. exact (proj2 Hf).
Qed.

(** The count that the vote rejects as impossible does not arise from such a table. *)
Lemma window_not_exceeded keyToNodeID o v prevSeq hash keys state ancestors trusted table :
  (forall h s, NoDup (NodeID <$> trusted h s)) -> buildNegativeUNLScoreTable prevSeq ancestors trusted = Some table ->
  (DoVoting keyToNodeID o v prevSeq hash keys state table).2 <> inl ErrLocalCountExceedsWindow.
Proof.
  intros Hone Hb. pose proof (score_bounded prevSeq ancestors trusted table (myID v) Hone Hb) as Hle. unfold DoVoting. rewrite map_lookup_imap.
  assert (Hmy : default 0 ((nodeIDs keyToNodeID keys !! myID v) ≫= (fun _ => Some (default 0 (table !! myID v)))) <= FlagLedgerInterval).
  { destruct (nodeIDs keyToNodeID keys !! myID v); cbn; [exact Hle|done]. }
  destruct (_ <? minLocalValsToVote); [done|]. destruct (_ =? minLocalValsToVote); [done|].
  apply Z.ltb_ge in Hmy. by rewrite Hmy.
Qed.

(** ** Instances *)

(** Four validators, one of them nearly silent. *)
Definition exampleID (k : bytes) : bytes := take 20 (k ++ replicate 20 0).

Definition exampleKey (i : Z) : bytes := 2 :: i :: replicate 31 0.

Definition exampleUNL : list bytes := [exampleKey 1; exampleKey 2; exampleKey 3; exampleKey 4].

Definition exampleOrders : Orders := mkOrders map_to_list map_to_list map_to_list.

Definition exampleScores : gmap bytes Z :=
  list_to_map [(exampleID (exampleKey 1), 250); (exampleID (exampleKey 2), 10); (exampleID (exampleKey 3), 250); (exampleID (exampleKey 4), 240)].

Definition exampleRound : NRound := mkNRound (NewVoter (exampleID (exampleKey 1))) exampleOrders 511 (replicate 32 9) exampleScores.

Lemma exampleID_length k : length (exampleID k) = 20%nat.
Proof. unfold exampleID. rewrite length_take, length_app, length_replicate. lia. Qed.

Lemma exampleUNL_ok : NoDup exampleUNL /\ Forall validKey exampleUNL.
Proof.
  split; [apply (bool_decide_unpack (NoDup exampleUNL)); vm_compute; exact I|].
  apply list.Forall_forall. intros k Hk. repeat (apply elem_of_cons in Hk as [->|Hk]); [..|by apply elem_of_nil in Hk];
    (split; [reflexivity|]); apply (bool_decide_unpack (Forall (fun z => 0 <= z < 2 ^ 8) _)); vm_compute; exact I.
Qed.

Lemma exampleOrders_ok : ordersOK exampleOrders.
Proof. split; apply ranges_to_list. Qed.

Lemma exampleRound_good : goodRound exampleRound.
Proof. split; [apply exampleOrders_ok|]. split; [cbn; lia|reflexivity]. Qed.

Lemma emptyNeg_wf : wfNeg emptyNeg.
Proof. split; [constructor|constructor|by left|by left]. Qed.

Lemma exampleIDs_distinct (S : gset bytes) : S = ∅ -> distinctIDs exampleID exampleUNL S.
Proof.
  intros ->. intros k k' [Hk|Hk] [Hk'|Hk']; [|by apply elem_of_empty in Hk'|by apply elem_of_empty in Hk|by apply elem_of_empty in Hk].
  assert (Hall : Forall (fun k => Forall (fun k' => exampleID k = exampleID k' -> k = k') exampleUNL) exampleUNL).
  { repeat constructor; intros He; try reflexivity; vm_compute in He; discriminate He. }
  rewrite list.Forall_forall in Hall. specialize (Hall k Hk). rewrite list.Forall_forall in Hall. by apply Hall.
Qed.

Lemma empty_effective : effectiveSet None = ∅.
Proof. unfold effectiveSet, disabledSet, pendingSet. cbn. set_solver. Qed.

Lemma neg_unl_vote_exact_witness :
  exists d r, DoVoting exampleID exampleOrders (nVoter exampleRound) 511 (replicate 32 9) exampleUNL (negativeUNLState None) exampleScores =
    (purgeNewValidators (nVoter exampleRound) 512, inr (txOf 512 true d ++ txOf 512 false r)).
Proof.
  destruct exampleUNL_ok as [Hnd _].
  destruct (neg_unl_vote_exact exampleID exampleUNL exampleOrders (nVoter exampleRound) 511 (replicate 32 9) None exampleScores)
    as (d & r & _ & _ & Heq).
  - exact Hnd.
  - exact exampleID_length.
  - apply exampleOrders_ok.
  - apply emptyNeg_wf.
  - apply exampleIDs_distinct, empty_effective.
  - cbn. lia.
  - exists d, r. rewrite (Heq exampleOrders exampleOrders_ok). vm_compute. reflexivity.
Defined.

Lemma neg_unl_round_valid_witness :
  disabledSet (flagLedger exampleID exampleUNL None exampleRound).2 = ∅ /\
  ValidatorToDisable (default emptyNeg (flagLedger exampleID exampleUNL None exampleRound).2) = exampleKey 2.
Proof.
  destruct exampleUNL_ok as [Hnd Hval]. split; [|vm_compute; reflexivity].
  pose proof (neg_unl_round_valid exampleID exampleUNL None exampleRound Hnd Hval exampleID_length exampleRound_good emptyNeg_wf
    (exampleIDs_distinct _ empty_effective)) as Hok.
  destruct (flagLedger exampleID exampleUNL None exampleRound) as [rs entry']. destruct Hok as (_ & _ & Hd & _).
  cbn [snd]. rewrite Hd. apply empty_effective.
Defined.

(** Two flag ledgers of a list that grows in between. *)
Definition smallUNL : list bytes := [exampleKey 1; exampleKey 2; exampleKey 3].

Definition exampleTxs (l : list bytes) (entry : option NegativeUNLSLE) : list UNLModify := proposals exampleID l entry exampleRound.

Definition exampleEntry1 : option NegativeUNLSLE := settledLedger None 512 (exampleTxs smallUNL None).

Definition exampleEntry2 : option NegativeUNLSLE := settledLedger exampleEntry1 512 (exampleTxs exampleUNL exampleEntry1).

Lemma exampleReaches : reaches exampleID exampleUNL exampleEntry2.
Proof.
  assert (Hbig : listOk exampleID exampleUNL) by (destruct exampleUNL_ok as [Hnd Hval]; split; [exact Hnd|exact Hval|exact (exampleIDs_distinct _ eq_refl)]).
  assert (Hsub : smallUNL ⊆ exampleUNL) by (intros k Hk; unfold smallUNL, exampleUNL in *; set_solver).
  assert (Hsmall : listOk exampleID smallUNL).
  { destruct Hbig as [Hnd Hval Hids]. split.
    - by apply (bool_decide_unpack (NoDup smallUNL)); vm_compute.
    - rewrite list.Forall_forall in *. intros k Hk. by apply Hval, Hsub.
    - intros k k' Hk Hk'. apply Hids; [destruct Hk as [?%Hsub|]|destruct Hk' as [?%Hsub|]]; auto. }
  assert (Hprop : forall l entry, Forall (proposed exampleID l entry 512) (exampleTxs l entry)).
  { intros l entry. apply list.Forall_forall. intros tx Htx. exists exampleRound. split; [exact exampleRound_good|]. split; [reflexivity|exact Htx]. }
  apply (reaches_ledger _ smallUNL); [apply (reaches_ledger _ smallUNL); [by apply reaches_start|done|done|apply Hprop]|done|done|apply Hprop].
Qed.

Lemma neg_unl_quorum_reachable_witness :
  quorumForTrustedSet (list_to_set (exampleID <$> exampleUNL)) 4 (GetNegativeUNL exampleID exampleEntry2) <= 4 - listedIn exampleUNL (disabledSet exampleEntry2).
Proof. exact (proj2 (neg_unl_quorum_reachable exampleID exampleUNL exampleEntry2 exampleID_length exampleReaches ltac:(cbn; lia))). Defined.

End NegUnlVote.
