(* ===== verification/FlagVote.v ===== *)
(** * The votes of a flag ledger together (internal/consensus/adaptor/adaptor.go)

    The producer filters the validations of the parent ledger, asks for a quorum
    of them, and runs the fee vote and the amendment vote on the rest. *)

From Stdlib Require Import ZArith Lia.
From stdpp Require Import base list numbers option strings gmap fin_maps.
From S2P Require Import Prelude Strconv Validation FeeVote AmendmentVote NegUnlVote.

Import Validation.

Module FlagVote.

(** What the producer needs of the node: whom it trusts, the node identifiers of
    the disabled validators, its preferences and what it implements. *)
Record Node := mkNode {
  isTrusted : bytes -> bool; negativeUNL : list bytes; quorum : Z; feeTarget : FeeVote.Stance;
  stances : gmap bytes AmendmentVote.Stance; supported : list bytes; featureXRPFees : bytes }.

(** The parent ledger: its position, its parent's, and the two entries. *)
Record Parent := mkParent {
  pSequence : Z; pParentHash : bytes; pParentCloseTime : Z; pFees : option FeeVote.FeeSettings;
  pAmendments : option AmendmentVote.AmendmentsSLE }.

Record Orders := mkOrders {
  overFees : gmap Z Z -> list (Z * Z); overVotes : gmap bytes AmendmentVote.upvotesAndTimeout -> list (bytes * AmendmentVote.upvotesAndTimeout);
  overSeen : gmap bytes () -> list (bytes * ()) }.

(** The validations that may influence the votes. *)
Definition eligibleValidations (n : Node) (p : Parent) (parentValidations : list Validation) : list Validation :=
  let parentSeq := if 0 <? pSequence p then pSequence p - 1 else 0 in
  excludeNegativeUNL (filterFullValidations parentValidations (pParentHash p) parentSeq (isTrusted n)) (negativeUNL n).

(** The cache of votes after the call, and the transactions. *)
Definition GenerateFlagLedgerPseudoTxs (o : Orders) (n : Node) (p : Parent) (t : gmap bytes AmendmentVote.upvotesAndTimeout)
    (parentValidations : list Validation) :
    gmap bytes AmendmentVote.upvotesAndTimeout * (option FeeVote.SetFee * list AmendmentVote.EnableAmendment) :=
  let upcomingSeq := u32 (pSequence p + 1) in
  let filtered := eligibleValidations n p parentValidations in
  if Z.of_nat (length filtered) <? quorum n then (t, (None, []))
  else
    let enabled := (AmendmentVote.readAmendmentsSLE (pAmendments p)).1 in
    let fee := FeeVote.runFeeVote (overFees o) (pFees p) (feeTarget n) upcomingSeq filtered (default false (enabled !! featureXRPFees n)) in
    let '(t', amendments) :=
      AmendmentVote.runAmendmentVote (overVotes o) (overSeen o) t (pAmendments p) (pParentCloseTime p) upcomingSeq filtered (stances n) (supported n) in
    (t', (fee, amendments)).

(** A validation that counts: full, of the parent's parent, by a trusted validator
    that is not disabled. *)
Definition counts (n : Node) (p : Parent) (v : Validation) : bool :=
  Full v && bool_decide (LedgerID v = pParentHash p) && (LedgerSeq v =? (if 0 <? pSequence p then pSequence p - 1 else 0)) &&
  isTrusted n (NodeID v) && negb (bool_decide (NodeID v ∈ negativeUNL n)).

Lemma eligible_counts n p vals : eligibleValidations n p vals = filter (counts n p) vals.
Proof.
  unfold eligibleValidations, filterFullValidations. rewrite excludeNegativeUNL_filter. set (s := if 0 <? pSequence p then _ else _).
  induction vals as [|v vals IH]; [done|]. rewrite !filter_test_cons. unfold counts at 1. fold s.
  destruct (Full v && bool_decide (LedgerID v = pParentHash p) && (LedgerSeq v =? s) && isTrusted n (NodeID v)); cbn [andb]; [|exact IH].
  rewrite filter_test_cons. destruct (negb (bool_decide (NodeID v ∈ negativeUNL n))); by rewrite IH.
Qed.

(** Every way of traversing the maps. *)
Definition fairOrders (o : Orders) : Prop := ranges (overFees o) /\ ranges (overVotes o) /\ ranges (overSeen o).

(** The amounts of the node and of the ledger fit their fields. *)
Definition amountsFit (n : Node) (p : Parent) : Prop :=
  FeeVote.stance_ok (feeTarget n) /\ forall fees x, pFees p = Some fees -> FeeVote.stance_ok (FeeVote.currentStance fees x).

(** The flag-ledger votes rest on the validations that count and on nothing
    else: two sets of validations that agree on the full validations of the right
    ledger by trusted validators that are not disabled lead to the same
    transactions and the same cache, in whatever order maps are traversed; and
    with fewer of them than the quorum nothing is proposed. *)
Theorem flag_votes_noninterference o o' n p t vals vals' :
  fairOrders o -> fairOrders o' -> amountsFit n p ->
  filter (counts n p) vals = filter (counts n p) vals' ->
  GenerateFlagLedgerPseudoTxs o n p t vals = GenerateFlagLedgerPseudoTxs o' n p t vals' /\
  (Z.of_nat (length (filter (counts n p) vals)) < quorum n -> GenerateFlagLedgerPseudoTxs o n p t vals = (t, (None, []))).
Proof.
  intros (Hf & Hv & Hs) (Hf' & Hv' & Hs') [Htgt Hcur] Heq. unfold GenerateFlagLedgerPseudoTxs. rewrite !eligible_counts, <- Heq.
  set (filtered := filter (counts n p) vals). split; [|intros Hlt%Z.ltb_lt; by rewrite Hlt].
  destruct (_ <? quorum n); [done|]. unfold AmendmentVote.runAmendmentVote. destruct (AmendmentVote.readAmendmentsSLE (pAmendments p)) as [en mj]. cbn [fst].
  set (t' := AmendmentVote.recordVotes t (pParentCloseTime p) filtered).
  assert (Hget : AmendmentVote.getVotes (overVotes o) t' = AmendmentVote.getVotes (overVotes o') t').
  { apply AmendmentVote.getVotes_order; [done|done]. }
  rewrite Hget. destruct (AmendmentVote.getVotes (overVotes o') t') as [available votes]. f_equal. f_equal.
  - unfold FeeVote.runFeeVote. destruct (pFees p) as [fees|] eqn:Hfees; [|done].
    rewrite (FeeVote.DoVoting_order (overFees o) (overFees o')) by (done || by apply Hcur). done.
  - unfold AmendmentVote.DoVoting. by rewrite (AmendmentVote.Decide_order (overSeen o) (overSeen o')).
Qed.

(** Five trusted validators of which the fifth is disabled, and a stranger. *)
Definition exampleNode : Node :=
  mkNode (fun id => bool_decide (id ∈ [[1]; [2]; [3]; [4]; [5]])) [[5]] 4 FeeVote.twelve {[AmendmentVote.hash7 := AmendmentVote.VoteUp]}
    [AmendmentVote.hash7] (replicate 32 9).

Definition exampleParent : Parent :=
  mkParent 256 [] (AmendmentVote.FromRippleTime 1000) (Some (FeeVote.mkFees 0 0 0 10 10 20000000 5000000 false)) None.

Definition exampleOrders : Orders := mkOrders map_to_list map_to_list map_to_list.

Definition validationBy (fee : Z) (i : Z) : Validation := mkValidation [i] [] 255 true [AmendmentVote.hash7] fee 0 0 0 0 0 1 0.

Lemma flag_votes_noninterference_witness :
  let t := AmendmentVote.trustChanged ∅ [[1]; [2]; [3]; [4]] in
  let run := GenerateFlagLedgerPseudoTxs exampleOrders exampleNode exampleParent t in
  run (validationBy 12 <$> [1; 2; 3; 4]) = run ((validationBy 12 <$> [1; 2]) ++ (validationBy 11 <$> [5; 6; 7]) ++ (validationBy 12 <$> [3; 4])) /\
  length (run (validationBy 12 <$> [1; 2; 3; 4])).2.2 = 1%nat.
Proof.
  cbv zeta. split; [|vm_compute; reflexivity].
  apply (flag_votes_noninterference exampleOrders exampleOrders exampleNode exampleParent); [split_and!; apply ranges_to_list..| |vm_compute; reflexivity].
  split; [vm_compute; intuition discriminate|]. intros fees [] [= <-]; vm_compute; intuition discriminate.
Defined.

End FlagVote.
